(* ===== verification/_CoqProject ===== *)
-Q . S2P
Prelude.v
Utf8.v
UnicodeLetters.v
Double.v
Lexer.v
ActorScheduler.v
Bytecode.v
Exceptions.v
ExecutionEngine.v
DemoRuntime.v
FrameStack.v
Calls.v
Values.v
Maps.v
KeyEquality.v
FiniteMaps.v
Reader.v
Printer.v
DemoReader.v
ReaderFacts.v
SyntaxQuote.v
PrintRead.v
Macros.v
Compiler.v
DemoCompiler.v
CodeSegments.v
ModuleCode.v
CompilerSteps.v
CompilerRules.v
CompiledCode.v
CompiledSafety.v
DataFormats.v
Json.v
DemoJson.v
JsonFacts.v
JsonRoundTrip.v
JsonSafety.v
LazySeq.v
DemoLazy.v
LazyFacts.v
FastPrims.v
DirectCalls.v
LazySpec.v
LazyRefine.v
Numbers.v
CorePrims.v
CoreFacts.v
CompareOrder.v
Equality.v
DemoCore.v
CoreExamples.v
Atoms.v
AtomsFacts.v
Regex.v
TextFacts.v
RegexFacts.v
Strings.v
StringsFacts.v
MatchFacts.v
DemoStrings.v
DapStdio.v
ForwardFacts.v
DapText.v
DapTextFacts.v
DapServer.v
DapServerFacts.v
DapLineFacts.v
DemoDebugger.v
