(* ===== verification/Prelude.v ===== *)
(** * protoClojure: a verification development

    protoClojure is a Clojure on the protoCore object system: source text goes through
    the lexer, the reader and the compiler to bytecode modules, which a stack machine
    runs; values are protoCore's objects, printed by the printer; maps and sets go
    through protoCore's hashed collections with the program's own notion of one key;
    actors, futures and promises run on a pool of worker threads; text formats (EDN
    and JSON) read and write values. This library models those parts and proves the
    properties that make them correct. It is a shallow embedding: a C++ member function
    is a function, or a computation of a small state-and-error monad, with the same
    name; a state is a record with the class's fields; a thrown exception is a value of
    an error type.

    ** The files

    - Prelude: bytes, 32- and 64-bit wrap-around, decimal numerals, loops with fuel,
      tactics; Utf8 (the encoder and the decoder of reader/Lexer.cpp), Double
      (binary64 patterns and [strtod]), UnicodeLetters (reader/UnicodeLetters.h).
    - Lexer (reader/Lexer.cpp): the state [lexer], [next]. Reader (reader/Reader.cpp):
      the state [reader], [readOne]; ReaderFacts, SyntaxQuote.
    - Values (runtime/SeqTypes, VectorOps, Named): the inductive [obj] of a program's
      values, each cell with its address. Maps (runtime/MapOps.cpp, SetOps.cpp): key
      identity, hashes, the operations, over the interface [HashedMaps], whose laws are
      [HashedLaws]; KeyEquality, FiniteMaps.
    - Printer (runtime/Primitives.cpp, [printTo]); PrintRead.
    - Macros (runtime/Macros.cpp) and Compiler (compiler/Compiler.cpp, Eval.cpp): the
      state [cstate], one definition per form, [compileTop]. CodeSegments, ModuleCode,
      CompilerSteps, CompilerRules, CompiledCode, CompiledSafety: the code it emits.
    - Bytecode (runtime/Opcodes.h, BytecodeModule.cpp): words, constants, the flow
      analysis [computeMaxStack]. ExecutionEngine (runtime/ExecutionEngine.cpp): frames,
      [step_op], [executeFrame], [invoke], over the interface [Runtime]; FrameStack,
      Calls. Exceptions (runtime/Exceptions.cpp): the class hierarchy.
    - ActorScheduler (runtime/ActorScheduler.cpp, and the actors and promises of
      Primitives.cpp): threads as program counters, one label of [exec] per atomic
      access, store buffers.
    - DataFormats (runtime/DataFormats.h, Edn.cpp) and Json (runtime/Json.cpp): the
      functions of clojure.edn, cheshire.core and clojure.data.json, over the interface
      [FormatsEnv]; JsonFacts, JsonRoundTrip, JsonSafety.
    - LazySeq (runtime/LazySeq.cpp): values with lazy seqs as references to the cells of
      a store [seqState], the seq protocol, walks, one definition per step, realisation,
      the functions, over the interface [SeqEnv]; LazyFacts, LazySpec (the elements a
      value is known to have, and the stores that are what is known of them), LazyRefine.
      FastPrims (runtime/Primitives.cpp): [fastPrimitiveCall], and the primitives it
      answers without a call, over [CollectionEnv]; DirectCalls (a [Runtime] of them).
    - Numbers (runtime/Primitives.cpp: arithmetic, comparisons, [=]; doubles as C++
      computes with them), over the interface [NumbersEnv], and CorePrims
      (runtime/CorePrims.cpp), over [CoreEnv]; CoreFacts, CompareOrder ([compare] and
      [sort]), Equality ([=]).
    - Atoms (runtime/Primitives.cpp: [atom], [swap!], [reset!], [compare-and-set!],
      watches): a state of atoms and of calls, each at a stage, one label of [exec] per
      access of an atom; AtomsFacts.
    - Regex (runtime/Regex.cpp: [translatePattern], matching) over the interface [Pcre2];
      Strings (runtime/Primitives.cpp: [str] and [join], clojure.string, patterns and
      matchers), over [StringsEnv]; TextFacts, StringsFacts, RegexFacts (the dialect of
      patterns), MatchFacts (the walks over matches).
    - DapStdio (dap/DapStdio.cpp: the pump that forwards what the program prints;
      dap/DapTransport.cpp: the framing of messages, over [JsonText]); ForwardFacts.
    - DapText (dap/DapServer.cpp: paths, form lines, conditions, hit conditions, log
      messages, the locals and frames shown); DapTextFacts.
    - DapServer (dap/DapServer.cpp: breakpoints, threads, requests): the state [server],
      each thread and the protocol thread at a stage, one label of [exec] per block under
      the lock, access of an atomic or message; DapServerFacts, DapLineFacts.
    - DemoRuntime, DemoReader, DemoCompiler, DemoJson, DemoLazy, DemoCore (with
      CoreExamples), DemoStrings, DemoDebugger: concrete instances of the interfaces, on
      which the definitions evaluate and the theorems have witnesses.

    ** How the parts interact

    The reader drives the lexer and builds [obj]s, sets and maps included, through Maps;
    the compiler takes [obj]s and writes Bytecode's modules; CompiledSafety joins the
    compiler to the virtual machine: what [compileTop] emits meets the hypotheses of
    FrameStack's theorem on [executeFrame]. The JSON functions and [read-string] use the
    reader, the printer and the maps. The debugger reads conditions with the lexer, and its
    patterns of text with Utf8 and Regex's searches. What one part asks of another that is protoCore's
    is a class: [Platform] (the words of nil, true and false, the intern table),
    [ReaderEnv], [PrinterEnv], [HashedMaps], [Runtime], [FormatsEnv], [SeqEnv],
    [NumbersEnv], [CoreEnv], [Pcre2], [StringsEnv], [JsonText]; what theorems rely on is a
    class of laws ([HashedLaws], [NumeralLaw], [RuntimeLaws], [FormatsLaws], [SettlingEnv], [Layers] (calls
    realise with the realisation itself), [PureFunctions], [NumbersLaws],
    [EqualityLaws], [MatcherLaws]) or a hypothesis that names it ([findsForward]).

    ** What the theorems show

    - Text to values: every token is where it says it is, an integer literal reads back,
      UTF-8 decoding inverts encoding, the reader ends and consumes what it reads,
      duplicate keys and odd maps are refused, a syntax-quoted template builds what it
      says, a printed value reads back ([Lexer.next_positioned], [Utf8.decodeUtf8_iff],
      [ReaderFacts.read_total], [SyntaxQuote.syntaxQuote_builds], [PrintRead.print_read]).
    - Collections: equality of keys is an equivalence that the hashes respect, and the
      operations on maps and sets are those of finite maps and sets over its classes
      ([KeyEquality.key_equality], [FiniteMaps.map_refines]).
    - Code: every module the compiler emits is well-formed, the flow analysis bounds the
      operand stack, a frame never goes past it, except for a [recur] below operands, on
      which the analysis never ends ([CompiledSafety], [FrameStack.stack_discipline]).
    - Calls: the dispatch loop's call agrees with [invoke], exceptions included (that a
      primitive answered directly answers what its call does is the law [fast_sound],
      which [DirectCalls.directLaws] discharges for them), arguments are bound as
      the arity says, small integers overflow as they should, handlers catch what the
      class table says ([Calls], [Exceptions]).
    - Actors: one method at a time per actor, messages in order, every promise delivered
      once, and no work left when all workers sleep, under the sequentially consistent
      reading of the atomics; under the weaker order the code asks for, a lost wake-up
      ([ActorScheduler]).
    - Atoms: however calls interleave an atom's value is its stores one after another,
      and a [swap!] or [reset!] that has to begin again does so because another has stored
      ([AtomsFacts]).
    - JSON: what is written reads back (keyword keys up to a NUL, where the code cuts
      them), reading a string ends, and reading a stream loses
      a character after a line end inside a string ([JsonRoundTrip], [JsonSafety]).
    - Lazy sequences: the direct reads agree with the seq protocol and realising settles
      a cell once, whatever its function does ([LazyFacts]); where functions are pure,
      realising in any order computes the lists the steps describe, endless ones too,
      and is not observed ([LazyRefine.realizing_refines]); the functions build lazy
      seqs of the lists their names say ([LazyRefine.functions_typed]).
    - Strings and patterns: [split], [join], [replace] and the searches agree and never
      cut a character ([StringsFacts]); patterns are translated piece by piece
      ([RegexFacts.translate_tokens]); [re-find], [re-seq], [replace] and [split] walk
      over the same matches and end ([MatchFacts]).
    - Numbers, order and equality: integer arithmetic and division are exact at every
      size, [compare] is a total preorder and [sort] sorts stably on values without NaN or
      integers beyond the SmallIntegers beside doubles (with them, [compare] is no order), [=] is the equality of map keys on values without
      doubles, numerals parse back ([CoreFacts], [CompareOrder], [Equality]).
    - The debugger: a line entered stops a thread exactly when the session's own rule says
      so, whatever the fast paths and the caches of lines ([DapLineFacts.line_decided]);
      each request is answered once, a stopped thread goes on when told to, and the client's
      going away ends the process ([DapServerFacts]); the program's output is forwarded whole and in order, a mark
      found however the reads cut it, and messages read back as framed ([ForwardFacts]);
      conditions that pass the syntax check have balanced delimiters, log messages are the
      texts of their parts, paths map there and back ([DapTextFacts]).

    ** Bounds and fuel

    [stack] is how many levels of nested recursion the thread's stack has room for: the
    code checks it ([checkNativeStack]) and raises StackOverflowError, and so do the
    definitions, but for the printer ([printTo] recurs on the value, and its check of the
    stack is not modelled); realising a lazy seq takes as many levels and turns as its rank, of
    which LazySpec's rules say how it grows. Loops over characters have [turns] or [fuel],
    one more than the characters left, shown to be enough ([ReaderFacts.read_total],
    [JsonSafety.string_reading_ends], [RegexFacts.translate_tokens],
    [MatchFacts.walks_agree]); comparisons of keys have the depth of the keys
    ([keyFuel]); the interpreter's fuel counts instructions and runs out by a value of
    its own, never by a result. The flow analysis runs for as many steps as it is given:
    that it ends is a theorem for the compiler's code. The debugger's generation of
    breakpoints ([bpGen], 64 bits wide in the code) counts without a bound, and its atomics
    are read as sequentially consistent.

    ** What is not modelled

    The collector's side (slots, windows, safepoints, pins): it keeps values alive and
    changes none. protoCore, protoIO and PCRE2 are parameters. Of the debugger: the
    requests initialize, launch, source and loadedSources, the printing and expansion of
    values, what an evaluation runs, descriptors and the text of messages. The
    read-eval-print loop (repl/), main.cpp and the file and process I/O of runtime/IO.cpp
    are drivers around the parts above; the other functions of
    runtime/Primitives.cpp mostly call protoCore and the parts above, and the disassembler
    prints modules for people. Which comparisons std::stable_sort makes is left open by C++:
    the model's makes those of an insertion. Threads that wait for a lazy seq another thread
    realises, and futures and [pmap], which are threads of protoCore, are not modelled. *)

From Stdlib Require Export Strings.String Strings.Byte.
From Stdlib Require Export Bool List ZArith Lia.
From stdpp Require Export base list option numbers countable gmap relations.

Create HintDb clj.
Create Rewrite HintDb clj.

Declare Scope clj_scope.
Delimit Scope clj_scope with clj.
#[global] Open Scope Z_scope.

Abbreviation bytes := (list byte).

Definition s2b (s : string) : bytes := list_byte_of_string s.
Arguments s2b s%_string_scope.

(** ** Bytes

    A [char] of the sources is a [byte]; [u8] is its value as an [unsigned
    char] and [chr] the conversion [static_cast<char>] of an integer. *)

Definition u8 (c : byte) : Z := Z.of_N (Byte.to_N c).

Definition chr (z : Z) : byte :=
  match Byte.of_N (Z.to_N (z mod 256)) with Some c => c | None => x00 end.

#[export] Instance byte_eq_decision : EqDecision byte := Byte.byte_eq_dec.

#[export] Instance byte_countable : Countable byte :=
  inj_countable Byte.to_N Byte.of_N Byte.of_to_N.

Definition all_bytes : list byte := map (fun n => chr (Z.of_nat n)) (seq 0 256).

(** The character tests of [<cctype>] in the C locale, which the program never
    changes. *)

Definition in_range (lo c hi : byte) : bool := (u8 lo <=? u8 c) && (u8 c <=? u8 hi).

Definition is_digit (c : byte) : bool := in_range "0" c "9".
Definition is_alpha (c : byte) : bool := in_range "a" c "z" || in_range "A" c "Z".
Definition is_alnum (c : byte) : bool := is_digit c || is_alpha c.

(** The value of a hexadecimal digit. *)
Definition hex_digit (h : byte) : option Z :=
  if in_range "0" h "9" then Some (u8 h - 48)
  else if in_range "a" h "f" then Some (u8 h - 97 + 10)
  else if in_range "A" h "F" then Some (u8 h - 65 + 10)
  else None.

(** ** Fallible code

    Code that throws answers [Throw e]. *)

Inductive result (E A : Type) : Type :=
| Ok (a : A)
| Throw (e : E).
Arguments Ok {E A} a.
Arguments Throw {E A} e.

#[export] Instance result_ret E : MRet (result E) := fun A a => Ok a.
#[export] Instance result_bind E : MBind (result E) :=
  fun A B f r => match r with Ok a => f a | Throw e => Throw e end.

(** ** Loops

    [while n step s] runs a C++ loop whose body is [step]: [None] leaves the
    loop. [iter n step s] runs a loop whose body either continues ([inl]) or
    leaves the enclosing function with a result ([inr]); it answers [None] when
    [n] iterations were not enough. *)

Section Loops.
Context {St R : Type}.

Fixpoint while (n : nat) (step : St -> option St) (s : St) : St :=
  match n with
  | O => s
  | S n => match step s with Some s' => while n step s' | None => s end
  end.

Fixpoint iter (n : nat) (step : St -> St + R) (s : St) : option R :=
  match n with
  | O => None
  | S n => match step s with inl s' => iter n step s' | inr r => Some r end
  end.

End Loops.

(** ** Decimal numerals ([std::to_string], [std::strtoll]) *)

Fixpoint dec_aux (fuel : nat) (n : Z) (acc : bytes) : bytes :=
  match fuel with
  | O => acc
  | S f =>
      let acc' := chr (48 + n mod 10) :: acc in
      if n <? 10 then acc' else dec_aux f (n / 10) acc'
  end.

(** The decimal digits of a non-negative integer. *)
Definition dec_digits (n : Z) : bytes := dec_aux (S (Z.to_nat (Z.log2 n))) n [].

(** [std::to_string]. *)
Definition to_string (z : Z) : bytes :=
  if z <? 0 then "-"%byte :: dec_digits (- z) else dec_digits z.

Definition digits_from (v : Z) (ds : bytes) : Z :=
  fold_left (fun v c => v * 10 + (u8 c - 48)) ds v.

(** The value of a run of decimal digits, and of one with an optional sign. *)
Definition digits_value (ds : bytes) : Z := digits_from 0 ds.

Definition signed_value (ds : bytes) : Z :=
  match ds with
  | c :: ds' => if (c =? "-")%byte then - digits_value ds' else digits_value ds
  | [] => 0
  end.

Definition llong_min : Z := - 2 ^ 63.
Definition llong_max : Z := 2 ^ 63 - 1.
Definition fits_llong (z : Z) : bool := (llong_min <=? z) && (z <=? llong_max).

(** ** Lemmas on bytes *)

Lemma u8_range c : 0 <= u8 c < 256.
Proof. unfold u8. pose proof (Byte.to_N_bounded c). lia. Qed.

Lemma u8_inj a b : u8 a = u8 b -> a = b.
Proof.
  unfold u8. intros H%N2Z.inj.
  pose proof (Byte.of_to_N a) as Ha. rewrite H, Byte.of_to_N in Ha. congruence.
Qed.

Lemma u8_chr z : u8 (chr z) = z mod 256.
Proof.
  unfold u8, chr. pose proof (Z.mod_pos_bound z 256 eq_refl).
  destruct (Byte.of_N (Z.to_N (z mod 256))) as [c|] eqn:E.
  - apply Byte.to_of_N in E. rewrite E. lia.
  - apply Byte.of_N_None_iff in E. lia.
Qed.

Lemma u8_chr_small z : 0 <= z < 256 -> u8 (chr z) = z.
Proof. intros. rewrite u8_chr. now apply Z.mod_small. Qed.

Lemma chr_u8 c : chr (u8 c) = c.
Proof. apply u8_inj. rewrite u8_chr. apply Z.mod_small, u8_range. Qed.

Lemma byte_eqb_spec a b : reflect (a = b) (a =? b)%byte.
Proof.
  destruct (a =? b)%byte eqn:E; constructor.
  - now apply byte_dec_bl.
  - intros H. apply byte_dec_lb in H. congruence.
Qed.

Lemma byte_eqb_refl a : (a =? a)%byte = true.
Proof. now apply byte_dec_lb. Qed.

Lemma elem_of_all_bytes c : In c all_bytes.
Proof.
  unfold all_bytes. apply in_map_iff. exists (Z.to_nat (u8 c)).
  pose proof (u8_range c). split.
  - rewrite Z2Nat.id by lia. apply chr_u8.
  - apply in_seq. lia.
Qed.

(** A boolean fact about one byte holds of every byte as soon as it computes on
    the 256 of them. *)
Lemma byte_forall (P : byte -> bool) :
  forallb P all_bytes = true -> forall c, P c = true.
Proof. rewrite forallb_forall. intros H c. apply H, elem_of_all_bytes. Qed.

#[export] Hint Resolve u8_range byte_eqb_refl : clj.
#[export] Hint Rewrite u8_chr chr_u8 byte_eqb_refl : clj.

(** [lia] knows quotients and remainders by constants. *)
Ltac Zify.zify_post_hook ::= Z.to_euclidean_division_equations.

(** [byte_case] splits on one comparison of two bytes. *)
Ltac byte_case :=
  match goal with
  | |- context [ (?a =? ?b)%byte ] => destruct (byte_eqb_spec a b); subst
  | H : context [ (?a =? ?b)%byte ] |- _ => destruct (byte_eqb_spec a b); subst
  end.

(** [z_cases] decides every integer comparison of the goal by case analysis,
    dropping the branches that [lia] refutes. *)
Ltac z_cases :=
  repeat match goal with
  | |- context [ ?a <? ?b ] => destruct (Z.ltb_spec a b); try lia
  | |- context [ ?a <=? ?b ] => destruct (Z.leb_spec a b); try lia
  | |- context [ ?a =? ?b ] => destruct (Z.eqb_spec a b); try lia
  end.

(** [by_bytes c] proves a boolean fact about the byte [c] by computing it on
    the 256 bytes. *)
Ltac by_bytes c :=
  revert c;
  match goal with |- forall c, ?P = true => apply (byte_forall (fun c => P)) end;
  vm_compute; reflexivity.

(** ** Lemmas on bits *)

Lemma land_low z k : 0 <= k -> Z.land z (Z.ones k) = z mod 2 ^ k.
Proof. intros. now apply Z.land_ones. Qed.

(** A disjunction of bits that do not overlap is a sum. *)
Lemma lor_add a b k : 0 <= k -> 0 <= b < 2 ^ k -> Z.lor (a * 2 ^ k) b = a * 2 ^ k + b.
Proof.
  intros Hk Hb.
  assert (Hland : Z.land (a * 2 ^ k) b = 0).
  { apply Z.bits_inj'. intros n Hn. rewrite Z.land_spec, Z.bits_0.
    destruct (Z.lt_ge_cases n k).
    - now rewrite Z.mul_pow2_bits_low by done.
    - rewrite <- (Z.mod_small b (2 ^ k)) by done.
      now rewrite Z.mod_pow2_bits_high, andb_false_r by lia. }
  rewrite Z.add_nocarry_lxor by done. now rewrite Z.lxor_lor.
Qed.

(** ** Lemmas on loops *)

Section LoopLemmas.
Context {St R : Type}.
Implicit Types (P : St -> Prop) (m : St -> nat).

Lemma while_inv P (step : St -> option St) n s :
  (forall s s', P s -> step s = Some s' -> P s') -> P s -> P (while n step s).
Proof.
  intros Hstep. revert s. induction n as [|n IH]; intros s Hs; cbn; [done|].
  destruct (step s) eqn:E; eauto.
Qed.

Lemma while_done P m (step : St -> option St) n s :
  (forall s s', P s -> step s = Some s' -> P s' /\ (m s' < m s)%nat) ->
  P s -> (m s < n)%nat -> step (while n step s) = None.
Proof.
  intros Hstep. revert s. induction n as [|n IH]; intros s Hs Hn; [lia|]; cbn.
  destruct (step s) as [s'|] eqn:E; [|done].
  destruct (Hstep _ _ Hs E). apply IH; [done|lia].
Qed.

Lemma iter_inv P (Q : R -> Prop) (step : St -> St + R) n s r :
  (forall s s', P s -> step s = inl s' -> P s') ->
  (forall s r, P s -> step s = inr r -> Q r) ->
  P s -> iter n step s = Some r -> Q r.
Proof.
  intros Hi Hr. revert s. induction n as [|n IH]; intros s Hs; cbn; [done|].
  destruct (step s) eqn:E; [eauto|]. intros [= <-]. eauto.
Qed.

Lemma iter_total P m (step : St -> St + R) n s :
  (forall s s', P s -> step s = inl s' -> P s' /\ (m s' < m s)%nat) ->
  P s -> (m s < n)%nat -> exists r, iter n step s = Some r.
Proof.
  intros Hstep. revert s. induction n as [|n IH]; intros s Hs Hn; [lia|]; cbn.
  destruct (step s) as [s'|r] eqn:E; [|eauto].
  destruct (Hstep _ _ Hs E). apply IH; [done|lia].
Qed.

Lemma while_S (step : St -> option St) n s :
  while (S n) step s = match step s with Some s' => while n step s' | None => s end.
Proof. reflexivity. Qed.

Lemma iter_S (step : St -> St + R) n s :
  iter (S n) step s = match step s with inl s' => iter n step s' | inr r => Some r end.
Proof. reflexivity. Qed.

Lemma iter_mono (step : St -> St + R) n n' s r :
  iter n step s = Some r -> (n <= n')%nat -> iter n' step s = Some r.
Proof.
  revert n' s. induction n as [|n IH]; intros n' s; cbn; [done|].
  intros H Hle. destruct n' as [|n']; [lia|]. cbn.
  destruct (step s); [apply IH; [done|lia]|done].
Qed.

End LoopLemmas.

(** ** Lemmas on decimal numerals *)

Lemma is_digit_u8 c : is_digit c = true <-> 48 <= u8 c <= 57.
Proof.
  unfold is_digit, in_range. change (u8 "0") with 48. change (u8 "9") with 57.
  rewrite andb_true_iff, !Z.leb_le. reflexivity.
Qed.

Lemma is_digit_chr d : 0 <= d < 10 -> is_digit (chr (48 + d)) = true.
Proof. intros. rewrite is_digit_u8, u8_chr_small; lia. Qed.

Lemma dec_aux_value fuel n acc :
  0 <= n < 2 ^ Z.of_nat fuel ->
  digits_from 0 (dec_aux fuel n acc) = digits_from n acc.
Proof.
  revert n acc. induction fuel as [|f IH]; intros n acc Hn.
  - change (2 ^ Z.of_nat 0) with 1 in Hn. cbn [dec_aux]. f_equal. lia.
  - cbn [dec_aux]. pose proof (Z.mod_pos_bound n 10 eq_refl).
    destruct (Z.ltb_spec n 10) as [Hlt|Hge].
    + unfold digits_from. cbn [fold_left]. f_equal.
      rewrite u8_chr_small by lia. rewrite Z.mod_small by lia. lia.
    + rewrite IH.
      * unfold digits_from. cbn [fold_left]. f_equal.
        rewrite u8_chr_small by lia. pose proof (Z.div_mod n 10). lia.
      * rewrite Nat2Z.inj_succ, Z.pow_succ_r in Hn by lia.
        split; [apply Z.div_pos; lia|]. apply Z.div_lt_upper_bound; lia.
Qed.

Lemma dec_aux_digits fuel n acc :
  0 <= n -> Forall (fun c => is_digit c = true) acc ->
  Forall (fun c => is_digit c = true) (dec_aux fuel n acc).
Proof.
  revert n acc. induction fuel as [|f IH]; intros n acc Hn Hacc; cbn; [done|].
  pose proof (Z.mod_pos_bound n 10 eq_refl).
  assert (Forall (fun c => is_digit c = true) (chr (48 + n mod 10) :: acc)).
  { constructor; [|done]. apply is_digit_chr. lia. }
  destruct (n <? 10); [done|]. apply IH; [|done]. apply Z.div_pos; lia.
Qed.

Lemma dec_aux_cons fuel n acc : exists c ds, dec_aux (S fuel) n acc = c :: ds.
Proof.
  revert n acc. induction fuel as [|f IH]; intros n acc; cbn.
  - destruct (n <? 10); eauto.
  - destruct (n <? 10); [eauto|]. apply IH.
Qed.

Lemma dec_digits_value n : 0 <= n -> digits_value (dec_digits n) = n.
Proof.
  intros Hn. unfold digits_value, dec_digits. rewrite dec_aux_value; [reflexivity|].
  split; [done|]. rewrite Nat2Z.inj_succ, Z2Nat.id by apply Z.log2_nonneg.
  destruct (Z.eq_dec n 0) as [->|]; [done|]. apply Z.log2_spec. lia.
Qed.

Lemma dec_digits_digits n : 0 <= n -> Forall (fun c => is_digit c = true) (dec_digits n).
Proof. intros. apply dec_aux_digits; [done|constructor]. Qed.

Lemma dec_digits_cons n : exists c ds, dec_digits n = c :: ds.
Proof. apply dec_aux_cons. Qed.

Lemma digit_not_minus c : is_digit c = true -> (c =? "-")%byte = false.
Proof.
  intros H%is_digit_u8. byte_case; [|done]. vm_compute in H. destruct H; congruence.
Qed.

Lemma to_string_value z : signed_value (to_string z) = z.
Proof.
  unfold to_string. destruct (Z.ltb_spec z 0).
  - unfold signed_value. rewrite byte_eqb_refl, dec_digits_value; lia.
  - destruct (dec_digits_cons z) as (c & ds & E).
    pose proof (dec_digits_digits z ltac:(lia)) as Hd. unfold signed_value.
    rewrite E in *. inversion Hd; subst.
    rewrite digit_not_minus by done. rewrite <- E. apply dec_digits_value. lia.
Qed.
