(* ===== verification/Utf8.v ===== *)
(** * UTF-8: the encoder and the decoder of the reader and of the JSON codec

    [decodeUtf8] is the lexer's decoder (src/src/reader/Lexer.cpp) and
    [appendUtf8] the encoder both the lexer and the JSON parser use
    (src/src/runtime/Json.cpp holds a second copy of the same code). The
    theorems at the end say that each inverts the other: the decoder accepts
    exactly the encodings the encoder produces for the Unicode scalar values
    (so no overlong form, no surrogate, nothing past U+10FFFF). *)

From S2P Require Import Prelude.

(** ** The code *)

(** [s[i]] of a [const std::string]: the byte at [i], a NUL at its end. *)
Definition char_at (s : bytes) (i : nat) : byte := nth i s x00.

(** The loop over the continuation bytes: [k] of them, from byte [i]. *)
Fixpoint decodeCont (s : bytes) (i k : nat) (value : Z) : option Z :=
  match k with
  | O => Some value
  | S k =>
      let b := u8 (char_at s i) in
      if negb (Z.land b 0xC0 =? 0x80) then None
      else decodeCont s (S i) k (Z.lor (Z.shiftl value 6) (Z.land b 0x3F))
  end.

(** The length in bytes and the code point of the UTF-8 sequence that starts at
    [s[pos]]; [None] when the bytes are not well-formed UTF-8. *)
Definition decodeUtf8 (s : bytes) (pos : nat) : option (nat * Z) :=
  let b0 := u8 (char_at s pos) in
  if b0 <? 0x80 then Some (1%nat, b0)
  else
    let lead :=
      if Z.land b0 0xE0 =? 0xC0 then Some (2%nat, Z.land b0 0x1F, 0x80)
      else if Z.land b0 0xF0 =? 0xE0 then Some (3%nat, Z.land b0 0x0F, 0x800)
      else if Z.land b0 0xF8 =? 0xF0 then Some (4%nat, Z.land b0 0x07, 0x10000)
      else None in
    match lead with
    | None => None
    | Some (len, value, minimum) =>
        if (length s - pos <? len)%nat then None
        else
          match decodeCont s (S pos) (len - 1) value with
          | None => None
          | Some value =>
              if (value <? minimum) || (0x10FFFF <? value)
                 || ((0xD800 <=? value) && (value <=? 0xDFFF))
              then None else Some (len, value)
          end
    end.

(** The bytes [appendUtf8] appends for a code point. *)
Definition encodeUtf8 (cp : Z) : bytes :=
  if cp <? 0x80 then [chr cp]
  else if cp <? 0x800 then
    [chr (Z.lor 0xC0 (Z.shiftr cp 6)); chr (Z.lor 0x80 (Z.land cp 0x3F))]
  else if cp <? 0x10000 then
    [chr (Z.lor 0xE0 (Z.shiftr cp 12));
     chr (Z.lor 0x80 (Z.land (Z.shiftr cp 6) 0x3F));
     chr (Z.lor 0x80 (Z.land cp 0x3F))]
  else
    [chr (Z.lor 0xF0 (Z.shiftr cp 18));
     chr (Z.lor 0x80 (Z.land (Z.shiftr cp 12) 0x3F));
     chr (Z.lor 0x80 (Z.land (Z.shiftr cp 6) 0x3F));
     chr (Z.lor 0x80 (Z.land cp 0x3F))].

Definition appendUtf8 (out : bytes) (cp : Z) : bytes := out ++ encodeUtf8 cp.

(** ** The specification *)

(** A Unicode scalar value: a code point that is not a surrogate. *)
Definition scalar (cp : Z) : Prop :=
  0 <= cp <= 0x10FFFF /\ ~ (0xD800 <= cp <= 0xDFFF).

#[export] Instance scalar_dec cp : Decision (scalar cp).
Proof. unfold scalar. apply _. Defined.

(** The UTF-8 text of a sequence of code points. *)
Definition utf8 (cps : list Z) : bytes := flat_map encodeUtf8 cps.

(** ** Lemmas *)

Lemma land_cont c : (Z.land (u8 c) 0xC0 =? 0x80) = (128 <=? u8 c) && (u8 c <? 192).
Proof.
  apply eqb_prop. by_bytes c.
Qed.

Lemma land_lead2 c : (Z.land (u8 c) 0xE0 =? 0xC0) = (192 <=? u8 c) && (u8 c <? 224).
Proof. apply eqb_prop. by_bytes c. Qed.

Lemma land_lead3 c : (Z.land (u8 c) 0xF0 =? 0xE0) = (224 <=? u8 c) && (u8 c <? 240).
Proof. apply eqb_prop. by_bytes c. Qed.

Lemma land_lead4 c : (Z.land (u8 c) 0xF8 =? 0xF0) = (240 <=? u8 c) && (u8 c <? 248).
Proof. apply eqb_prop. by_bytes c. Qed.

Lemma cont_value value c : 0 <= value ->
  Z.lor (Z.shiftl value 6) (Z.land (u8 c) 0x3F) = value * 64 + u8 c mod 64.
Proof.
  intros. change 0x3F with (Z.ones 6). rewrite land_low by lia.
  rewrite Z.shiftl_mul_pow2 by lia. rewrite lor_add; [reflexivity|lia|].
  apply Z.mod_pos_bound. reflexivity.
Qed.

Lemma lor_lead k a b n : 0 <= n -> a = k * 2 ^ n -> 0 <= b < 2 ^ n -> Z.lor a b = a + b.
Proof. intros Hn -> Hb. now apply lor_add. Qed.

(** The bytes of an encoding, as numbers. *)
Lemma encode2 cp : 0x80 <= cp < 0x800 ->
  encodeUtf8 cp = [chr (192 + cp / 64); chr (128 + cp mod 64)].
Proof.
  intros H. unfold encodeUtf8. z_cases.
  change 0x3F with (Z.ones 6). rewrite land_low, Z.shiftr_div_pow2 by lia.
  change (2 ^ 6) with 64.
  rewrite (lor_lead 6 0xC0 _ 5), (lor_lead 2 0x80 _ 6); try reflexivity; lia.
Qed.

Lemma encode3 cp : 0x800 <= cp < 0x10000 ->
  encodeUtf8 cp =
    [chr (224 + cp / 4096); chr (128 + (cp / 64) mod 64); chr (128 + cp mod 64)].
Proof.
  intros H. unfold encodeUtf8. z_cases.
  change 0x3F with (Z.ones 6). rewrite !land_low, !Z.shiftr_div_pow2 by lia.
  change (2 ^ 6) with 64. change (2 ^ 12) with 4096.
  rewrite (lor_lead 14 0xE0 _ 4), !(lor_lead 2 0x80 _ 6); try reflexivity; lia.
Qed.

Lemma encode4 cp : 0x10000 <= cp < 0x200000 ->
  encodeUtf8 cp =
    [chr (240 + cp / 262144); chr (128 + (cp / 4096) mod 64);
     chr (128 + (cp / 64) mod 64); chr (128 + cp mod 64)].
Proof.
  intros H. unfold encodeUtf8. z_cases.
  change 0x3F with (Z.ones 6). rewrite !land_low, !Z.shiftr_div_pow2 by lia.
  change (2 ^ 6) with 64. change (2 ^ 12) with 4096. change (2 ^ 18) with 262144.
  rewrite (lor_lead 30 0xF0 _ 3), !(lor_lead 2 0x80 _ 6); try reflexivity; lia.
Qed.

Lemma encode1 cp : 0 <= cp < 0x80 -> encodeUtf8 cp = [chr cp].
Proof. intros H. unfold encodeUtf8. now z_cases. Qed.

Lemma char_at_drop s pos i : char_at (drop pos s) i = char_at s (pos + i).
Proof. unfold char_at. apply nth_skipn. Qed.

Lemma char_at_app_l s t i : (i < length s)%nat -> char_at (s ++ t) i = char_at s i.
Proof. intros. unfold char_at. now rewrite app_nth1. Qed.

Lemma char_at_app_r s t i : char_at (s ++ t) (length s + i) = char_at t i.
Proof. unfold char_at. now rewrite app_nth2_plus. Qed.

Lemma decodeCont_drop s pos i k value :
  decodeCont (drop pos s) i k value = decodeCont s (pos + i) k value.
Proof.
  revert i value. induction k as [|k IH]; intros i value; cbn [decodeCont]; [done|].
  rewrite char_at_drop, IH, Nat.add_succ_r. done.
Qed.

Lemma decodeUtf8_drop s pos : decodeUtf8 s pos = decodeUtf8 (drop pos s) 0.
Proof.
  unfold decodeUtf8. rewrite char_at_drop, Nat.add_0_r, length_drop, Nat.sub_0_r.
  destruct (_ <? 0x80); [done|].
  destruct (if Z.land _ 0xE0 =? 0xC0 then _ else _) as [[[len value] minimum]|]; [|done].
  destruct (_ <? len)%nat; [done|].
  rewrite decodeCont_drop. now rewrite Nat.add_1_r.
Qed.

(** One continuation byte read. *)
Lemma decodeCont_cons s i k value : 0 <= value ->
  decodeCont s i (S k) value =
    let c := char_at s i in
    if (128 <=? u8 c) && (u8 c <? 192)
    then decodeCont s (S i) k (value * 64 + u8 c mod 64) else None.
Proof.
  intros Hv. cbn [decodeCont]. rewrite land_cont, cont_value by done. cbn zeta.
  now destruct (_ && _).
Qed.

(** The lead byte: the length of the sequence, the bits it contributes and the
    least code point that needs that length. *)
Definition lead_of (b : Z) : option (nat * Z * Z) :=
  if (192 <=? b) && (b <? 224) then Some (2%nat, b mod 32, 0x80)
  else if (224 <=? b) && (b <? 240) then Some (3%nat, b mod 16, 0x800)
  else if (240 <=? b) && (b <? 248) then Some (4%nat, b mod 8, 0x10000)
  else None.

Lemma decodeUtf8_cons c s :
  decodeUtf8 (c :: s) 0 =
    if u8 c <? 128 then Some (1%nat, u8 c)
    else match lead_of (u8 c) with
    | None => None
    | Some (len, value, minimum) =>
        if (S (length s) <? len)%nat then None
        else match decodeCont s 0 (len - 1) value with
        | None => None
        | Some value =>
            if (value <? minimum) || (0x10FFFF <? value)
               || ((0xD800 <=? value) && (value <=? 0xDFFF))
            then None else Some (len, value)
        end
    end.
Proof.
  unfold decodeUtf8, lead_of. cbn [length]. rewrite Nat.sub_0_r.
  change (char_at (c :: s) 0) with c.
  rewrite land_lead2, land_lead3, land_lead4.
  change 0x1F with (Z.ones 5). change 0x0F with (Z.ones 4). change 0x07 with (Z.ones 3).
  rewrite !land_low by lia. change (2 ^ 5) with 32. change (2 ^ 4) with 16.
  change (2 ^ 3) with 8.
  destruct (u8 c <? 0x80); [done|].
  destruct (if (192 <=? u8 c) && _ then _ else _) as [[[len value] minimum]|]; [|done].
  destruct (_ <? len)%nat; [done|].
  now rewrite <- (decodeCont_drop (c :: s) 1 0).
Qed.

Lemma length_encodeUtf8 cp : (1 <= length (encodeUtf8 cp) <= 4)%nat.
Proof. unfold encodeUtf8. repeat case_match; cbn; lia. Qed.

(** One step of [decodeCont] on a byte written by the encoder. *)
Lemma decodeCont_chr s i k value d : 0 <= value -> 0 <= d < 64 ->
  char_at s i = chr (128 + d) ->
  decodeCont s i (S k) value = decodeCont s (S i) k (value * 64 + d).
Proof.
  intros Hv Hd E. rewrite decodeCont_cons by done. rewrite E. cbn zeta.
  rewrite u8_chr_small by lia. rewrite (proj2 (andb_true_iff _ _)).
  - do 2 f_equal. lia.
  - rewrite Z.leb_le, Z.ltb_lt. lia.
Qed.

(** The checks on a decoded code point pass on a scalar value of the right size. *)
Lemma decode_accept len v minimum : minimum <= v -> scalar v ->
  (if (v <? minimum) || (0x10FFFF <? v) || ((0xD800 <=? v) && (v <=? 0xDFFF))
   then None else Some (len, v)) = Some (len : nat, v).
Proof. intros Hm [Hr Hs]. z_cases; done. Qed.

Lemma decode_encode_0 cp tail : scalar cp ->
  decodeUtf8 (encodeUtf8 cp ++ tail) 0 = Some (length (encodeUtf8 cp), cp).
Proof.
  intros Hsc. assert (Hcp := Hsc). destruct Hcp as [Hcp _].
  assert (H64 := Z.mod_pos_bound cp 64 eq_refl).
  assert (H64' := Z.mod_pos_bound (cp / 64) 64 eq_refl).
  assert (H64'' := Z.mod_pos_bound (cp / 4096) 64 eq_refl).
  destruct (Z.lt_ge_cases cp 0x80);
    [|destruct (Z.lt_ge_cases cp 0x800); [|destruct (Z.lt_ge_cases cp 0x10000)]].
  - rewrite encode1 by lia. cbn [app]. rewrite decodeUtf8_cons, u8_chr_small by lia.
    now rewrite (proj2 (Z.ltb_lt _ _)) by lia.
  - rewrite encode2 by lia. cbn [app]. rewrite decodeUtf8_cons, u8_chr_small by lia.
    unfold lead_of. z_cases. cbn [andb Nat.ltb Nat.leb length Nat.sub].
    rewrite (decodeCont_chr _ _ _ _ (cp mod 64)) by (lia || done). cbn [decodeCont].
    replace (_ * 64 + _) with cp by lia. now apply decode_accept.
  - rewrite encode3 by lia. cbn [app]. rewrite decodeUtf8_cons, u8_chr_small by lia.
    unfold lead_of. z_cases. cbn [andb Nat.ltb Nat.leb length Nat.sub].
    rewrite (decodeCont_chr _ _ _ _ ((cp / 64) mod 64)) by (lia || done).
    rewrite (decodeCont_chr _ _ _ _ (cp mod 64)) by (lia || done). cbn [decodeCont].
    replace ((_ * 64 + _) * 64 + _) with cp by lia. now apply decode_accept.
  - rewrite encode4 by lia. cbn [app]. rewrite decodeUtf8_cons, u8_chr_small by lia.
    unfold lead_of. z_cases. cbn [andb Nat.ltb Nat.leb length Nat.sub].
    rewrite (decodeCont_chr _ _ _ _ ((cp / 4096) mod 64)) by (lia || done).
    rewrite (decodeCont_chr _ _ _ _ ((cp / 64) mod 64)) by (lia || done).
    rewrite (decodeCont_chr _ _ _ _ (cp mod 64)) by (lia || done). cbn [decodeCont].
    replace (((_ * 64 + _) * 64 + _) * 64 + _) with cp by lia. now apply decode_accept.
Qed.

(** A continuation byte is the marker and its six bits. *)
Lemma cont_byte c : (128 <=? u8 c) && (u8 c <? 192) = true -> chr (128 + u8 c mod 64) = c.
Proof.
  rewrite andb_true_iff, Z.leb_le, Z.ltb_lt. intros H.
  rewrite <- (chr_u8 c) at 2. f_equal. lia.
Qed.

(** The bytes read by [decodeCont], from the least significant one. *)
Lemma decodeCont_bytes s i k value value' : 0 <= value -> (i + S k <= length s)%nat ->
  decodeCont s i (S k) value = Some value' ->
  exists v, 0 <= v /\ decodeCont s i k value = Some v /\ value' / 64 = v /\
    chr (128 + value' mod 64) = char_at s (i + k).
Proof.
  revert i value. induction k as [|k IH]; intros i value Hv Hlen H.
  - rewrite decodeCont_cons in H by done. cbn zeta in H. rewrite Nat.add_0_r.
    destruct (_ && _) eqn:E; [|done]. injection H as <-. exists value.
    assert (Hm := Z.mod_pos_bound (u8 (char_at s i)) 64 eq_refl).
    split_and!; [done|done|lia|]. rewrite <- (cont_byte _ E) at 2. do 2 f_equal. lia.
  - rewrite decodeCont_cons in H by done. cbn zeta in H.
    destruct (_ && _) eqn:E; [|done].
    assert (Hm := Z.mod_pos_bound (u8 (char_at s i)) 64 eq_refl).
    apply IH in H as (v & Hv0 & Hd & Hdiv & Hc); [|lia..].
    exists v. rewrite (decodeCont_cons s i k) by done. cbn zeta. rewrite E.
    replace (i + S k)%nat with (S i + k)%nat by lia. done.
Qed.

Lemma decode_sound_0 s n cp : s <> [] -> decodeUtf8 s 0 = Some (n, cp) ->
  scalar cp /\ n = length (encodeUtf8 cp) /\ take n s = encodeUtf8 cp.
Proof.
  destruct s as [|c s]; [done|]. intros _. rewrite decodeUtf8_cons.
  assert (Hc := u8_range c).
  destruct (Z.ltb_spec (u8 c) 128).
  { intros [= <- <-]. rewrite encode1, chr_u8 by lia.
    split_and!; [unfold scalar; lia|done|done]. }
  destruct (lead_of (u8 c)) as [[[len value] minimum]|] eqn:Hlead; [|done].
  destruct (Nat.ltb_spec (S (length s)) len); [done|].
  destruct (decodeCont s 0 (len - 1) value) as [v|] eqn:Hcont; [|done].
  destruct (v <? minimum) eqn:Hmin; [done|]. destruct (0x10FFFF <? v) eqn:Hmax; [done|].
  destruct ((0xD800 <=? v) && (v <=? 0xDFFF)) eqn:Hsur; [done|]. intros [= <- <-].
  apply Z.ltb_ge in Hmin, Hmax. apply andb_false_iff in Hsur. rewrite !Z.leb_gt in Hsur.
  assert (Hs : scalar v).
  { unfold scalar. split; [|lia]. revert Hmin Hlead. unfold lead_of.
    repeat case_match; intros; simplify_eq; lia. }
  split; [done|]. clear Hsur Hs. revert Hlead Hcont. unfold lead_of.
  destruct ((192 <=? u8 c) && (u8 c <? 224)) eqn:E2;
    [|destruct ((224 <=? u8 c) && (u8 c <? 240)) eqn:E3;
      [|destruct ((240 <=? u8 c) && (u8 c <? 248)) eqn:E4; [|done]]].
  all: intros [= <- <- <-] Hcont; cbn [Nat.sub] in Hcont.
  all: rewrite ?andb_true_iff, ?Z.leb_le, ?Z.ltb_lt in *.
  - apply decodeCont_bytes in Hcont as (v0 & ? & [= <-] & Hd0 & Hc0); [|cbn in *; lia..].
    destruct s as [|c0 s]; [cbn in *; lia|]. change (char_at (c0 :: s) (0 + 0)) with c0 in Hc0.
    rewrite encode2 by lia. split; [done|]. cbn [take]. rewrite Hc0.
    replace (192 + v / 64) with (u8 c) by lia. now rewrite chr_u8.
  - apply decodeCont_bytes in Hcont as (v0 & ? & Hcont & Hd0 & Hc0); [|cbn in *; lia..].
    apply decodeCont_bytes in Hcont as (v1 & ? & [= <-] & Hd1 & Hc1); [|cbn in *; lia..].
    destruct s as [|c1 [|c0 s]]; [cbn in *; lia..|].
    change (char_at (c1 :: c0 :: s) (0 + 1)) with c0 in Hc0.
    change (char_at (c1 :: c0 :: s) (0 + 0)) with c1 in Hc1.
    rewrite encode3 by lia. split; [done|]. cbn [take].
    rewrite Hc0, Hd0, Hc1. replace (224 + v / 4096) with (u8 c) by lia. now rewrite chr_u8.
  - apply decodeCont_bytes in Hcont as (v0 & ? & Hcont & Hd0 & Hc0); [|cbn in *; lia..].
    apply decodeCont_bytes in Hcont as (v1 & ? & Hcont & Hd1 & Hc1); [|cbn in *; lia..].
    apply decodeCont_bytes in Hcont as (v2 & ? & [= <-] & Hd2 & Hc2); [|cbn in *; lia..].
    destruct s as [|c2 [|c1 [|c0 s]]]; [cbn in *; lia..|].
    change (char_at (c2 :: c1 :: c0 :: s) (0 + 2)) with c0 in Hc0.
    change (char_at (c2 :: c1 :: c0 :: s) (0 + 1)) with c1 in Hc1.
    change (char_at (c2 :: c1 :: c0 :: s) (0 + 0)) with c2 in Hc2.
    rewrite encode4 by lia. split; [done|]. cbn [take].
    rewrite Hc0, Hd0, Hc1. replace (v / 4096) with (v0 / 64) by lia. rewrite Hd1, Hc2.
    replace (240 + v / 262144) with (u8 c) by lia. now rewrite chr_u8.
Qed.

(** ** Properties *)

(** C39. The decoder inverts the encoder and accepts nothing else: at a position
    inside the text it answers length [n] and code point [cp] exactly when [cp]
    is a Unicode scalar value and the bytes from that position start with the
    [n] bytes of its encoding. *)
Theorem decodeUtf8_iff s pos n cp : (pos < length s)%nat ->
  decodeUtf8 s pos = Some (n, cp) <->
  scalar cp /\ n = length (encodeUtf8 cp) /\ exists tail, drop pos s = encodeUtf8 cp ++ tail.
Proof.
  intros Hpos. rewrite decodeUtf8_drop. split.
  - intros H. apply decode_sound_0 in H as (Hs & Hn & Ht).
    + split_and!; [done..|]. exists (drop n (drop pos s)). now rewrite <- Ht, take_drop.
    + intros E. apply (f_equal length) in E. rewrite length_drop in E. cbn in E. lia.
  - intros (Hs & -> & tail & ->). now apply decode_encode_0.
Qed.

Example decodeUtf8_iff_witness :
  (1 < length (x61 :: encodeUtf8 0x20AC))%nat /\
  decodeUtf8 (x61 :: encodeUtf8 0x20AC) 1 = Some (3%nat, 0x20AC).
Proof.
  split; [vm_compute; lia|].
  apply (decodeUtf8_iff (x61 :: encodeUtf8 0x20AC) 1 3 0x20AC); [vm_compute; lia|].
  split_and!; [unfold scalar; lia|reflexivity|]. exists []. reflexivity.
Defined.
