(* ===== verification/UnicodeLetters.v ===== *)
(** * The non-ASCII letters the lexer accepts in symbols

    src/src/reader/UnicodeLetters.h: the table of code-point ranges and the
    binary search over it. The theorem says that the binary search answers what
    a linear scan of the table answers, for every code point, and that it needs
    at most ten probes, as the header claims. *)

From S2P Require Import Prelude.

(** ** The code *)

Record CodePointRange := Range { first : Z; last : Z }.

Definition kSymbolLetterRanges : list CodePointRange := [
  Range 0x00AA 0x00AA; Range 0x00B5 0x00B5; Range 0x00BA 0x00BA; Range 0x00C0 0x00D6;
  Range 0x00D8 0x00F6; Range 0x00F8 0x02C1; Range 0x02C6 0x02D1; Range 0x02E0 0x02E4;
  Range 0x02EC 0x02EC; Range 0x02EE 0x02EE; Range 0x0300 0x0374; Range 0x0376 0x0377;
  Range 0x037A 0x037D; Range 0x037F 0x037F; Range 0x0386 0x0386; Range 0x0388 0x038A;
  Range 0x038C 0x038C; Range 0x038E 0x03A1; Range 0x03A3 0x03F5; Range 0x03F7 0x0481;
  Range 0x0483 0x052F; Range 0x0531 0x0556; Range 0x0559 0x0559; Range 0x0560 0x0588;
  Range 0x0591 0x05BD; Range 0x05BF 0x05BF; Range 0x05C1 0x05C2; Range 0x05C4 0x05C5;
  Range 0x05C7 0x05C7; Range 0x05D0 0x05EA; Range 0x05EF 0x05F2; Range 0x0610 0x061A;
  Range 0x0620 0x0669; Range 0x066E 0x06D3; Range 0x06D5 0x06DC; Range 0x06DF 0x06E8;
  Range 0x06EA 0x06FC; Range 0x06FF 0x06FF; Range 0x0710 0x074A; Range 0x074D 0x07B1;
  Range 0x07C0 0x07F5; Range 0x07FA 0x07FA; Range 0x07FD 0x07FD; Range 0x0800 0x082D;
  Range 0x0840 0x085B; Range 0x0860 0x086A; Range 0x0870 0x0887; Range 0x0889 0x088E;
  Range 0x0897 0x08E1; Range 0x08E3 0x0963; Range 0x0966 0x096F; Range 0x0971 0x0983;
  Range 0x0985 0x098C; Range 0x098F 0x0990; Range 0x0993 0x09A8; Range 0x09AA 0x09B0;
  Range 0x09B2 0x09B2; Range 0x09B6 0x09B9; Range 0x09BC 0x09C4; Range 0x09C7 0x09C8;
  Range 0x09CB 0x09CE; Range 0x09D7 0x09D7; Range 0x09DC 0x09DD; Range 0x09DF 0x09E3;
  Range 0x09E6 0x09F1; Range 0x09FC 0x09FC; Range 0x09FE 0x09FE; Range 0x0A01 0x0A03;
  Range 0x0A05 0x0A0A; Range 0x0A0F 0x0A10; Range 0x0A13 0x0A28; Range 0x0A2A 0x0A30;
  Range 0x0A32 0x0A33; Range 0x0A35 0x0A36; Range 0x0A38 0x0A39; Range 0x0A3C 0x0A3C;
  Range 0x0A3E 0x0A42; Range 0x0A47 0x0A48; Range 0x0A4B 0x0A4D; Range 0x0A51 0x0A51;
  Range 0x0A59 0x0A5C; Range 0x0A5E 0x0A5E; Range 0x0A66 0x0A75; Range 0x0A81 0x0A83;
  Range 0x0A85 0x0A8D; Range 0x0A8F 0x0A91; Range 0x0A93 0x0AA8; Range 0x0AAA 0x0AB0;
  Range 0x0AB2 0x0AB3; Range 0x0AB5 0x0AB9; Range 0x0ABC 0x0AC5; Range 0x0AC7 0x0AC9;
  Range 0x0ACB 0x0ACD; Range 0x0AD0 0x0AD0; Range 0x0AE0 0x0AE3; Range 0x0AE6 0x0AEF;
  Range 0x0AF9 0x0AFF; Range 0x0B01 0x0B03; Range 0x0B05 0x0B0C; Range 0x0B0F 0x0B10;
  Range 0x0B13 0x0B28; Range 0x0B2A 0x0B30; Range 0x0B32 0x0B33; Range 0x0B35 0x0B39;
  Range 0x0B3C 0x0B44; Range 0x0B47 0x0B48; Range 0x0B4B 0x0B4D; Range 0x0B55 0x0B57;
  Range 0x0B5C 0x0B5D; Range 0x0B5F 0x0B63; Range 0x0B66 0x0B6F; Range 0x0B71 0x0B71;
  Range 0x0B82 0x0B83; Range 0x0B85 0x0B8A; Range 0x0B8E 0x0B90; Range 0x0B92 0x0B95;
  Range 0x0B99 0x0B9A; Range 0x0B9C 0x0B9C; Range 0x0B9E 0x0B9F; Range 0x0BA3 0x0BA4;
  Range 0x0BA8 0x0BAA; Range 0x0BAE 0x0BB9; Range 0x0BBE 0x0BC2; Range 0x0BC6 0x0BC8;
  Range 0x0BCA 0x0BCD; Range 0x0BD0 0x0BD0; Range 0x0BD7 0x0BD7; Range 0x0BE6 0x0BEF;
  Range 0x0C00 0x0C0C; Range 0x0C0E 0x0C10; Range 0x0C12 0x0C28; Range 0x0C2A 0x0C39;
  Range 0x0C3C 0x0C44; Range 0x0C46 0x0C48; Range 0x0C4A 0x0C4D; Range 0x0C55 0x0C56;
  Range 0x0C58 0x0C5A; Range 0x0C5D 0x0C5D; Range 0x0C60 0x0C63; Range 0x0C66 0x0C6F;
  Range 0x0C80 0x0C83; Range 0x0C85 0x0C8C; Range 0x0C8E 0x0C90; Range 0x0C92 0x0CA8;
  Range 0x0CAA 0x0CB3; Range 0x0CB5 0x0CB9; Range 0x0CBC 0x0CC4; Range 0x0CC6 0x0CC8;
  Range 0x0CCA 0x0CCD; Range 0x0CD5 0x0CD6; Range 0x0CDD 0x0CDE; Range 0x0CE0 0x0CE3;
  Range 0x0CE6 0x0CEF; Range 0x0CF1 0x0CF3; Range 0x0D00 0x0D0C; Range 0x0D0E 0x0D10;
  Range 0x0D12 0x0D44; Range 0x0D46 0x0D48; Range 0x0D4A 0x0D4E; Range 0x0D54 0x0D57;
  Range 0x0D5F 0x0D63; Range 0x0D66 0x0D6F; Range 0x0D7A 0x0D7F; Range 0x0D81 0x0D83;
  Range 0x0D85 0x0D96; Range 0x0D9A 0x0DB1; Range 0x0DB3 0x0DBB; Range 0x0DBD 0x0DBD;
  Range 0x0DC0 0x0DC6; Range 0x0DCA 0x0DCA; Range 0x0DCF 0x0DD4; Range 0x0DD6 0x0DD6;
  Range 0x0DD8 0x0DDF; Range 0x0DE6 0x0DEF; Range 0x0DF2 0x0DF3; Range 0x0E01 0x0E3A;
  Range 0x0E40 0x0E4E; Range 0x0E50 0x0E59; Range 0x0E81 0x0E82; Range 0x0E84 0x0E84;
  Range 0x0E86 0x0E8A; Range 0x0E8C 0x0EA3; Range 0x0EA5 0x0EA5; Range 0x0EA7 0x0EBD;
  Range 0x0EC0 0x0EC4; Range 0x0EC6 0x0EC6; Range 0x0EC8 0x0ECE; Range 0x0ED0 0x0ED9;
  Range 0x0EDC 0x0EDF; Range 0x0F00 0x0F00; Range 0x0F18 0x0F19; Range 0x0F20 0x0F29;
  Range 0x0F35 0x0F35; Range 0x0F37 0x0F37; Range 0x0F39 0x0F39; Range 0x0F3E 0x0F47;
  Range 0x0F49 0x0F6C; Range 0x0F71 0x0F84; Range 0x0F86 0x0F97; Range 0x0F99 0x0FBC;
  Range 0x0FC6 0x0FC6; Range 0x1000 0x1049; Range 0x1050 0x109D; Range 0x10A0 0x10C5;
  Range 0x10C7 0x10C7; Range 0x10CD 0x10CD; Range 0x10D0 0x10FA; Range 0x10FC 0x1248;
  Range 0x124A 0x124D; Range 0x1250 0x1256; Range 0x1258 0x1258; Range 0x125A 0x125D;
  Range 0x1260 0x1288; Range 0x128A 0x128D; Range 0x1290 0x12B0; Range 0x12B2 0x12B5;
  Range 0x12B8 0x12BE; Range 0x12C0 0x12C0; Range 0x12C2 0x12C5; Range 0x12C8 0x12D6;
  Range 0x12D8 0x1310; Range 0x1312 0x1315; Range 0x1318 0x135A; Range 0x135D 0x135F;
  Range 0x1380 0x138F; Range 0x13A0 0x13F5; Range 0x13F8 0x13FD; Range 0x1401 0x166C;
  Range 0x166F 0x167F; Range 0x1681 0x169A; Range 0x16A0 0x16EA; Range 0x16F1 0x16F8;
  Range 0x1700 0x1715; Range 0x171F 0x1734; Range 0x1740 0x1753; Range 0x1760 0x176C;
  Range 0x176E 0x1770; Range 0x1772 0x1773; Range 0x1780 0x17D3; Range 0x17D7 0x17D7;
  Range 0x17DC 0x17DD; Range 0x17E0 0x17E9; Range 0x180B 0x180D; Range 0x180F 0x1819;
  Range 0x1820 0x1878; Range 0x1880 0x18AA; Range 0x18B0 0x18F5; Range 0x1900 0x191E;
  Range 0x1920 0x192B; Range 0x1930 0x193B; Range 0x1946 0x196D; Range 0x1970 0x1974;
  Range 0x1980 0x19AB; Range 0x19B0 0x19C9; Range 0x19D0 0x19D9; Range 0x1A00 0x1A1B;
  Range 0x1A20 0x1A5E; Range 0x1A60 0x1A7C; Range 0x1A7F 0x1A89; Range 0x1A90 0x1A99;
  Range 0x1AA7 0x1AA7; Range 0x1AB0 0x1ACE; Range 0x1B00 0x1B4C; Range 0x1B50 0x1B59;
  Range 0x1B6B 0x1B73; Range 0x1B80 0x1BF3; Range 0x1C00 0x1C37; Range 0x1C40 0x1C49;
  Range 0x1C4D 0x1C7D; Range 0x1C80 0x1C8A; Range 0x1C90 0x1CBA; Range 0x1CBD 0x1CBF;
  Range 0x1CD0 0x1CD2; Range 0x1CD4 0x1CFA; Range 0x1D00 0x1F15; Range 0x1F18 0x1F1D;
  Range 0x1F20 0x1F45; Range 0x1F48 0x1F4D; Range 0x1F50 0x1F57; Range 0x1F59 0x1F59;
  Range 0x1F5B 0x1F5B; Range 0x1F5D 0x1F5D; Range 0x1F5F 0x1F7D; Range 0x1F80 0x1FB4;
  Range 0x1FB6 0x1FBC; Range 0x1FBE 0x1FBE; Range 0x1FC2 0x1FC4; Range 0x1FC6 0x1FCC;
  Range 0x1FD0 0x1FD3; Range 0x1FD6 0x1FDB; Range 0x1FE0 0x1FEC; Range 0x1FF2 0x1FF4;
  Range 0x1FF6 0x1FFC; Range 0x2071 0x2071; Range 0x207F 0x207F; Range 0x2090 0x209C;
  Range 0x20D0 0x20F0; Range 0x2102 0x2102; Range 0x2107 0x2107; Range 0x210A 0x2113;
  Range 0x2115 0x2115; Range 0x2119 0x211D; Range 0x2124 0x2124; Range 0x2126 0x2126;
  Range 0x2128 0x2128; Range 0x212A 0x212D; Range 0x212F 0x2139; Range 0x213C 0x213F;
  Range 0x2145 0x2149; Range 0x214E 0x214E; Range 0x2183 0x2184; Range 0x2C00 0x2CE4;
  Range 0x2CEB 0x2CF3; Range 0x2D00 0x2D25; Range 0x2D27 0x2D27; Range 0x2D2D 0x2D2D;
  Range 0x2D30 0x2D67; Range 0x2D6F 0x2D6F; Range 0x2D7F 0x2D96; Range 0x2DA0 0x2DA6;
  Range 0x2DA8 0x2DAE; Range 0x2DB0 0x2DB6; Range 0x2DB8 0x2DBE; Range 0x2DC0 0x2DC6;
  Range 0x2DC8 0x2DCE; Range 0x2DD0 0x2DD6; Range 0x2DD8 0x2DDE; Range 0x2DE0 0x2DFF;
  Range 0x2E2F 0x2E2F; Range 0x3005 0x3006; Range 0x302A 0x302F; Range 0x3031 0x3035;
  Range 0x303B 0x303C; Range 0x3041 0x3096; Range 0x3099 0x309A; Range 0x309D 0x309F;
  Range 0x30A1 0x30FA; Range 0x30FC 0x30FF; Range 0x3105 0x312F; Range 0x3131 0x318E;
  Range 0x31A0 0x31BF; Range 0x31F0 0x31FF; Range 0x3400 0x4DBF; Range 0x4E00 0xA48C;
  Range 0xA4D0 0xA4FD; Range 0xA500 0xA60C; Range 0xA610 0xA62B; Range 0xA640 0xA672;
  Range 0xA674 0xA67D; Range 0xA67F 0xA6E5; Range 0xA6F0 0xA6F1; Range 0xA717 0xA71F;
  Range 0xA722 0xA788; Range 0xA78B 0xA7CD; Range 0xA7D0 0xA7D1; Range 0xA7D3 0xA7D3;
  Range 0xA7D5 0xA7DC; Range 0xA7F2 0xA827; Range 0xA82C 0xA82C; Range 0xA840 0xA873;
  Range 0xA880 0xA8C5; Range 0xA8D0 0xA8D9; Range 0xA8E0 0xA8F7; Range 0xA8FB 0xA8FB;
  Range 0xA8FD 0xA92D; Range 0xA930 0xA953; Range 0xA960 0xA97C; Range 0xA980 0xA9C0;
  Range 0xA9CF 0xA9D9; Range 0xA9E0 0xA9FE; Range 0xAA00 0xAA36; Range 0xAA40 0xAA4D;
  Range 0xAA50 0xAA59; Range 0xAA60 0xAA76; Range 0xAA7A 0xAAC2; Range 0xAADB 0xAADD;
  Range 0xAAE0 0xAAEF; Range 0xAAF2 0xAAF6; Range 0xAB01 0xAB06; Range 0xAB09 0xAB0E;
  Range 0xAB11 0xAB16; Range 0xAB20 0xAB26; Range 0xAB28 0xAB2E; Range 0xAB30 0xAB5A;
  Range 0xAB5C 0xAB69; Range 0xAB70 0xABEA; Range 0xABEC 0xABED; Range 0xABF0 0xABF9;
  Range 0xAC00 0xD7A3; Range 0xD7B0 0xD7C6; Range 0xD7CB 0xD7FB; Range 0xF900 0xFA6D;
  Range 0xFA70 0xFAD9; Range 0xFB00 0xFB06; Range 0xFB13 0xFB17; Range 0xFB1D 0xFB28;
  Range 0xFB2A 0xFB36; Range 0xFB38 0xFB3C; Range 0xFB3E 0xFB3E; Range 0xFB40 0xFB41;
  Range 0xFB43 0xFB44; Range 0xFB46 0xFBB1; Range 0xFBD3 0xFD3D; Range 0xFD50 0xFD8F;
  Range 0xFD92 0xFDC7; Range 0xFDF0 0xFDFB; Range 0xFE00 0xFE0F; Range 0xFE20 0xFE2F;
  Range 0xFE70 0xFE74; Range 0xFE76 0xFEFC; Range 0xFF10 0xFF19; Range 0xFF21 0xFF3A;
  Range 0xFF41 0xFF5A; Range 0xFF66 0xFFBE; Range 0xFFC2 0xFFC7; Range 0xFFCA 0xFFCF;
  Range 0xFFD2 0xFFD7; Range 0xFFDA 0xFFDC; Range 0x10000 0x1000B; Range 0x1000D 0x10026;
  Range 0x10028 0x1003A; Range 0x1003C 0x1003D; Range 0x1003F 0x1004D; Range 0x10050 0x1005D;
  Range 0x10080 0x100FA; Range 0x101FD 0x101FD; Range 0x10280 0x1029C; Range 0x102A0 0x102D0;
  Range 0x102E0 0x102E0; Range 0x10300 0x1031F; Range 0x1032D 0x10340; Range 0x10342 0x10349;
  Range 0x10350 0x1037A; Range 0x10380 0x1039D; Range 0x103A0 0x103C3; Range 0x103C8 0x103CF;
  Range 0x10400 0x1049D; Range 0x104A0 0x104A9; Range 0x104B0 0x104D3; Range 0x104D8 0x104FB;
  Range 0x10500 0x10527; Range 0x10530 0x10563; Range 0x10570 0x1057A; Range 0x1057C 0x1058A;
  Range 0x1058C 0x10592; Range 0x10594 0x10595; Range 0x10597 0x105A1; Range 0x105A3 0x105B1;
  Range 0x105B3 0x105B9; Range 0x105BB 0x105BC; Range 0x105C0 0x105F3; Range 0x10600 0x10736;
  Range 0x10740 0x10755; Range 0x10760 0x10767; Range 0x10780 0x10785; Range 0x10787 0x107B0;
  Range 0x107B2 0x107BA; Range 0x10800 0x10805; Range 0x10808 0x10808; Range 0x1080A 0x10835;
  Range 0x10837 0x10838; Range 0x1083C 0x1083C; Range 0x1083F 0x10855; Range 0x10860 0x10876;
  Range 0x10880 0x1089E; Range 0x108E0 0x108F2; Range 0x108F4 0x108F5; Range 0x10900 0x10915;
  Range 0x10920 0x10939; Range 0x10980 0x109B7; Range 0x109BE 0x109BF; Range 0x10A00 0x10A03;
  Range 0x10A05 0x10A06; Range 0x10A0C 0x10A13; Range 0x10A15 0x10A17; Range 0x10A19 0x10A35;
  Range 0x10A38 0x10A3A; Range 0x10A3F 0x10A3F; Range 0x10A60 0x10A7C; Range 0x10A80 0x10A9C;
  Range 0x10AC0 0x10AC7; Range 0x10AC9 0x10AE6; Range 0x10B00 0x10B35; Range 0x10B40 0x10B55;
  Range 0x10B60 0x10B72; Range 0x10B80 0x10B91; Range 0x10C00 0x10C48; Range 0x10C80 0x10CB2;
  Range 0x10CC0 0x10CF2; Range 0x10D00 0x10D27; Range 0x10D30 0x10D39; Range 0x10D40 0x10D65;
  Range 0x10D69 0x10D6D; Range 0x10D6F 0x10D85; Range 0x10E80 0x10EA9; Range 0x10EAB 0x10EAC;
  Range 0x10EB0 0x10EB1; Range 0x10EC2 0x10EC4; Range 0x10EFC 0x10F1C; Range 0x10F27 0x10F27;
  Range 0x10F30 0x10F50; Range 0x10F70 0x10F85; Range 0x10FB0 0x10FC4; Range 0x10FE0 0x10FF6;
  Range 0x11000 0x11046; Range 0x11066 0x11075; Range 0x1107F 0x110BA; Range 0x110C2 0x110C2;
  Range 0x110D0 0x110E8; Range 0x110F0 0x110F9; Range 0x11100 0x11134; Range 0x11136 0x1113F;
  Range 0x11144 0x11147; Range 0x11150 0x11173; Range 0x11176 0x11176; Range 0x11180 0x111C4;
  Range 0x111C9 0x111CC; Range 0x111CE 0x111DA; Range 0x111DC 0x111DC; Range 0x11200 0x11211;
  Range 0x11213 0x11237; Range 0x1123E 0x11241; Range 0x11280 0x11286; Range 0x11288 0x11288;
  Range 0x1128A 0x1128D; Range 0x1128F 0x1129D; Range 0x1129F 0x112A8; Range 0x112B0 0x112EA;
  Range 0x112F0 0x112F9; Range 0x11300 0x11303; Range 0x11305 0x1130C; Range 0x1130F 0x11310;
  Range 0x11313 0x11328; Range 0x1132A 0x11330; Range 0x11332 0x11333; Range 0x11335 0x11339;
  Range 0x1133B 0x11344; Range 0x11347 0x11348; Range 0x1134B 0x1134D; Range 0x11350 0x11350;
  Range 0x11357 0x11357; Range 0x1135D 0x11363; Range 0x11366 0x1136C; Range 0x11370 0x11374;
  Range 0x11380 0x11389; Range 0x1138B 0x1138B; Range 0x1138E 0x1138E; Range 0x11390 0x113B5;
  Range 0x113B7 0x113C0; Range 0x113C2 0x113C2; Range 0x113C5 0x113C5; Range 0x113C7 0x113CA;
  Range 0x113CC 0x113D3; Range 0x113E1 0x113E2; Range 0x11400 0x1144A; Range 0x11450 0x11459;
  Range 0x1145E 0x11461; Range 0x11480 0x114C5; Range 0x114C7 0x114C7; Range 0x114D0 0x114D9;
  Range 0x11580 0x115B5; Range 0x115B8 0x115C0; Range 0x115D8 0x115DD; Range 0x11600 0x11640;
  Range 0x11644 0x11644; Range 0x11650 0x11659; Range 0x11680 0x116B8; Range 0x116C0 0x116C9;
  Range 0x116D0 0x116E3; Range 0x11700 0x1171A; Range 0x1171D 0x1172B; Range 0x11730 0x11739;
  Range 0x11740 0x11746; Range 0x11800 0x1183A; Range 0x118A0 0x118E9; Range 0x118FF 0x11906;
  Range 0x11909 0x11909; Range 0x1190C 0x11913; Range 0x11915 0x11916; Range 0x11918 0x11935;
  Range 0x11937 0x11938; Range 0x1193B 0x11943; Range 0x11950 0x11959; Range 0x119A0 0x119A7;
  Range 0x119AA 0x119D7; Range 0x119DA 0x119E1; Range 0x119E3 0x119E4; Range 0x11A00 0x11A3E;
  Range 0x11A47 0x11A47; Range 0x11A50 0x11A99; Range 0x11A9D 0x11A9D; Range 0x11AB0 0x11AF8;
  Range 0x11BC0 0x11BE0; Range 0x11BF0 0x11BF9; Range 0x11C00 0x11C08; Range 0x11C0A 0x11C36;
  Range 0x11C38 0x11C40; Range 0x11C50 0x11C59; Range 0x11C72 0x11C8F; Range 0x11C92 0x11CA7;
  Range 0x11CA9 0x11CB6; Range 0x11D00 0x11D06; Range 0x11D08 0x11D09; Range 0x11D0B 0x11D36;
  Range 0x11D3A 0x11D3A; Range 0x11D3C 0x11D3D; Range 0x11D3F 0x11D47; Range 0x11D50 0x11D59;
  Range 0x11D60 0x11D65; Range 0x11D67 0x11D68; Range 0x11D6A 0x11D8E; Range 0x11D90 0x11D91;
  Range 0x11D93 0x11D98; Range 0x11DA0 0x11DA9; Range 0x11EE0 0x11EF6; Range 0x11F00 0x11F10;
  Range 0x11F12 0x11F3A; Range 0x11F3E 0x11F42; Range 0x11F50 0x11F5A; Range 0x11FB0 0x11FB0;
  Range 0x12000 0x12399; Range 0x12480 0x12543; Range 0x12F90 0x12FF0; Range 0x13000 0x1342F;
  Range 0x13440 0x13455; Range 0x13460 0x143FA; Range 0x14400 0x14646; Range 0x16100 0x16139;
  Range 0x16800 0x16A38; Range 0x16A40 0x16A5E; Range 0x16A60 0x16A69; Range 0x16A70 0x16ABE;
  Range 0x16AC0 0x16AC9; Range 0x16AD0 0x16AED; Range 0x16AF0 0x16AF4; Range 0x16B00 0x16B36;
  Range 0x16B40 0x16B43; Range 0x16B50 0x16B59; Range 0x16B63 0x16B77; Range 0x16B7D 0x16B8F;
  Range 0x16D40 0x16D6C; Range 0x16D70 0x16D79; Range 0x16E40 0x16E7F; Range 0x16F00 0x16F4A;
  Range 0x16F4F 0x16F87; Range 0x16F8F 0x16F9F; Range 0x16FE0 0x16FE1; Range 0x16FE3 0x16FE4;
  Range 0x16FF0 0x16FF1; Range 0x17000 0x187F7; Range 0x18800 0x18CD5; Range 0x18CFF 0x18D08;
  Range 0x1AFF0 0x1AFF3; Range 0x1AFF5 0x1AFFB; Range 0x1AFFD 0x1AFFE; Range 0x1B000 0x1B122;
  Range 0x1B132 0x1B132; Range 0x1B150 0x1B152; Range 0x1B155 0x1B155; Range 0x1B164 0x1B167;
  Range 0x1B170 0x1B2FB; Range 0x1BC00 0x1BC6A; Range 0x1BC70 0x1BC7C; Range 0x1BC80 0x1BC88;
  Range 0x1BC90 0x1BC99; Range 0x1BC9D 0x1BC9E; Range 0x1CCF0 0x1CCF9; Range 0x1CF00 0x1CF2D;
  Range 0x1CF30 0x1CF46; Range 0x1D165 0x1D169; Range 0x1D16D 0x1D172; Range 0x1D17B 0x1D182;
  Range 0x1D185 0x1D18B; Range 0x1D1AA 0x1D1AD; Range 0x1D242 0x1D244; Range 0x1D400 0x1D454;
  Range 0x1D456 0x1D49C; Range 0x1D49E 0x1D49F; Range 0x1D4A2 0x1D4A2; Range 0x1D4A5 0x1D4A6;
  Range 0x1D4A9 0x1D4AC; Range 0x1D4AE 0x1D4B9; Range 0x1D4BB 0x1D4BB; Range 0x1D4BD 0x1D4C3;
  Range 0x1D4C5 0x1D505; Range 0x1D507 0x1D50A; Range 0x1D50D 0x1D514; Range 0x1D516 0x1D51C;
  Range 0x1D51E 0x1D539; Range 0x1D53B 0x1D53E; Range 0x1D540 0x1D544; Range 0x1D546 0x1D546;
  Range 0x1D54A 0x1D550; Range 0x1D552 0x1D6A5; Range 0x1D6A8 0x1D6C0; Range 0x1D6C2 0x1D6DA;
  Range 0x1D6DC 0x1D6FA; Range 0x1D6FC 0x1D714; Range 0x1D716 0x1D734; Range 0x1D736 0x1D74E;
  Range 0x1D750 0x1D76E; Range 0x1D770 0x1D788; Range 0x1D78A 0x1D7A8; Range 0x1D7AA 0x1D7C2;
  Range 0x1D7C4 0x1D7CB; Range 0x1D7CE 0x1D7FF; Range 0x1DA00 0x1DA36; Range 0x1DA3B 0x1DA6C;
  Range 0x1DA75 0x1DA75; Range 0x1DA84 0x1DA84; Range 0x1DA9B 0x1DA9F; Range 0x1DAA1 0x1DAAF;
  Range 0x1DF00 0x1DF1E; Range 0x1DF25 0x1DF2A; Range 0x1E000 0x1E006; Range 0x1E008 0x1E018;
  Range 0x1E01B 0x1E021; Range 0x1E023 0x1E024; Range 0x1E026 0x1E02A; Range 0x1E030 0x1E06D;
  Range 0x1E08F 0x1E08F; Range 0x1E100 0x1E12C; Range 0x1E130 0x1E13D; Range 0x1E140 0x1E149;
  Range 0x1E14E 0x1E14E; Range 0x1E290 0x1E2AE; Range 0x1E2C0 0x1E2F9; Range 0x1E4D0 0x1E4F9;
  Range 0x1E5D0 0x1E5FA; Range 0x1E7E0 0x1E7E6; Range 0x1E7E8 0x1E7EB; Range 0x1E7ED 0x1E7EE;
  Range 0x1E7F0 0x1E7FE; Range 0x1E800 0x1E8C4; Range 0x1E8D0 0x1E8D6; Range 0x1E900 0x1E94B;
  Range 0x1E950 0x1E959; Range 0x1EE00 0x1EE03; Range 0x1EE05 0x1EE1F; Range 0x1EE21 0x1EE22;
  Range 0x1EE24 0x1EE24; Range 0x1EE27 0x1EE27; Range 0x1EE29 0x1EE32; Range 0x1EE34 0x1EE37;
  Range 0x1EE39 0x1EE39; Range 0x1EE3B 0x1EE3B; Range 0x1EE42 0x1EE42; Range 0x1EE47 0x1EE47;
  Range 0x1EE49 0x1EE49; Range 0x1EE4B 0x1EE4B; Range 0x1EE4D 0x1EE4F; Range 0x1EE51 0x1EE52;
  Range 0x1EE54 0x1EE54; Range 0x1EE57 0x1EE57; Range 0x1EE59 0x1EE59; Range 0x1EE5B 0x1EE5B;
  Range 0x1EE5D 0x1EE5D; Range 0x1EE5F 0x1EE5F; Range 0x1EE61 0x1EE62; Range 0x1EE64 0x1EE64;
  Range 0x1EE67 0x1EE6A; Range 0x1EE6C 0x1EE72; Range 0x1EE74 0x1EE77; Range 0x1EE79 0x1EE7C;
  Range 0x1EE7E 0x1EE7E; Range 0x1EE80 0x1EE89; Range 0x1EE8B 0x1EE9B; Range 0x1EEA1 0x1EEA3;
  Range 0x1EEA5 0x1EEA9; Range 0x1EEAB 0x1EEBB; Range 0x1FBF0 0x1FBF9; Range 0x20000 0x2A6DF;
  Range 0x2A700 0x2B739; Range 0x2B740 0x2B81D; Range 0x2B820 0x2CEA1; Range 0x2CEB0 0x2EBE0;
  Range 0x2EBF0 0x2EE5D; Range 0x2F800 0x2FA1D; Range 0x30000 0x3134A; Range 0x31350 0x323AF;
  Range 0xE0100 0xE01EF
].

(** One turn of the search loop on the interval [lo, hi): the interval to go on
    with, or the answer. The code point is a [char32_t]. *)
Definition searchStep (cp : Z) (st : nat * nat) : (nat * nat) + bool :=
  let '(lo, hi) := st in
  if (lo <? hi)%nat then
    let mid := (lo + (hi - lo) / 2)%nat in
    let r := nth mid kSymbolLetterRanges (Range 0 0) in
    if last r <? cp then inl (S mid, hi)
    else if cp <? first r then inl (lo, mid)
    else inr true
  else inr false.

(** The number of probes the search is given: the header says ten are enough
    (and one more turn finds the interval empty). *)
Definition searchProbes : nat := 11.

Definition isSymbolLetter (cp : Z) : bool :=
  default false (iter searchProbes (searchStep cp) (0%nat, length kSymbolLetterRanges)).

(** ** The specification *)

(** The linear scan: some range of the table holds [cp]. *)
Definition inSomeRange (cp : Z) : bool :=
  existsb (fun r => (first r <=? cp) && (cp <=? last r)) kSymbolLetterRanges.

(** Every range is non-empty and they are in ascending order, disjoint. *)
Fixpoint ascending (from : Z) (rs : list CodePointRange) : bool :=
  match rs with
  | [] => true
  | r :: rs => (from <? first r) && (first r <=? last r) && ascending (last r) rs
  end.

(** ** Lemmas *)

Lemma ascending_above from rs i :
  ascending from rs = true -> (i < length rs)%nat ->
  from < first (nth i rs (Range 0 0)) <= last (nth i rs (Range 0 0)).
Proof.
  revert from i. induction rs as [|r rs IH]; intros from i; cbn [length]; [lia|].
  cbn [ascending]. rewrite !andb_true_iff, Z.ltb_lt, Z.leb_le. intros [[? ?] Hrs] Hi.
  destruct i as [|i]; cbn [nth]; [lia|].
  specialize (IH _ i Hrs ltac:(lia)). lia.
Qed.

Lemma ascending_nth from rs i j :
  ascending from rs = true -> (i < j < length rs)%nat ->
  last (nth i rs (Range 0 0)) < first (nth j rs (Range 0 0)).
Proof.
  revert from i j. induction rs as [|r rs IH]; intros from i j; cbn [length]; [lia|].
  cbn [ascending]. rewrite !andb_true_iff. intros [_ Hrs] Hij.
  destruct j as [|j]; [lia|]. destruct i as [|i]; cbn [nth].
  - apply (ascending_above _ _ j) in Hrs; lia.
  - apply (IH _ i j Hrs). lia.
Qed.

Lemma table_ascending : ascending 0 kSymbolLetterRanges = true.
Proof. vm_compute. reflexivity. Qed.

Lemma table_nth i j : (i < j < length kSymbolLetterRanges)%nat ->
  last (nth i kSymbolLetterRanges (Range 0 0)) < first (nth j kSymbolLetterRanges (Range 0 0)).
Proof. exact (ascending_nth _ _ _ _ table_ascending). Qed.

Lemma table_range i : (i < length kSymbolLetterRanges)%nat ->
  first (nth i kSymbolLetterRanges (Range 0 0)) <= last (nth i kSymbolLetterRanges (Range 0 0)).
Proof. intros H. now apply (ascending_above _ _ _ table_ascending). Qed.

(** Whether range [i] of the table holds [cp]. *)
Definition holds (cp : Z) (i : nat) : Prop :=
  first (nth i kSymbolLetterRanges (Range 0 0)) <= cp <= last (nth i kSymbolLetterRanges (Range 0 0)).

Lemma search_spec cp k lo hi :
  (hi <= length kSymbolLetterRanges)%nat -> (hi - lo < 2 ^ k)%nat ->
  exists b, iter (S k) (searchStep cp) (lo, hi) = Some b /\
    (b = true <-> exists i, (lo <= i < hi)%nat /\ holds cp i).
Proof.
  revert lo hi. induction k as [|k IH]; intros lo hi Hhi Hk.
  - assert (E : (lo <? hi)%nat = false) by (apply Nat.ltb_ge; change (2 ^ 0)%nat with 1%nat in Hk; lia).
    rewrite iter_S. unfold searchStep. rewrite E. exists false. split; [done|]. split; [done|].
    intros (i & ? & _). apply Nat.ltb_ge in E. lia.
  - rewrite iter_S. unfold searchStep at 1. destruct (Nat.ltb_spec lo hi) as [Hlt|Hge].
    2:{ exists false. split; [done|]. split; [done|]. intros (i & ? & _). lia. }
    set (mid := (lo + (hi - lo) / 2)%nat).
    rewrite Nat.pow_succ_r' in Hk.
    assert (Hmid : (lo <= mid < hi)%nat).
    { subst mid. pose proof (Nat.div_lt (hi - lo) 2). lia. }
    assert (Hhalf : ((hi - lo) / 2 < 2 ^ k)%nat) by (apply Nat.Div0.div_lt_upper_bound; lia).
    assert (Hhalf' : (hi - S mid < 2 ^ k)%nat).
    { subst mid. pose proof (Nat.div_mod_eq (hi - lo) 2).
      pose proof (Nat.mod_upper_bound (hi - lo) 2). lia. }
    cbn zeta. fold mid.
    destruct (Z.ltb_spec (last (nth mid kSymbolLetterRanges (Range 0 0))) cp) as [Ha|Ha];
      [|destruct (Z.ltb_spec cp (first (nth mid kSymbolLetterRanges (Range 0 0)))) as [Hb|Hb]].
    + destruct (IH (S mid) hi Hhi Hhalf') as (b & Hb & Hiff). exists b. split; [done|].
      rewrite Hiff. split; intros (i & Hi & Hh); exists i; (split; [|done]); [lia|].
      destruct (Nat.le_gt_cases i mid) as [Hle|]; [|lia].
      unfold holds in Hh. destruct (Nat.eq_dec i mid) as [->|]; [lia|].
      pose proof (table_nth i mid). pose proof (table_range mid). lia.
    + destruct (IH lo mid ltac:(lia) ltac:(subst mid; lia)) as (b & Hb' & Hiff).
      exists b. split; [done|].
      rewrite Hiff. split; intros (i & Hi & Hh); exists i; (split; [|done]); [lia|].
      destruct (Nat.le_gt_cases mid i) as [Hle|]; [|lia].
      unfold holds in Hh. destruct (Nat.eq_dec i mid) as [->|]; [lia|].
      pose proof (table_nth mid i). pose proof (table_range mid). lia.
    + exists true. split; [done|]. split; [|done]. intros _. exists mid. split; [done|].
      unfold holds. lia.
Qed.

(** ** Properties *)

(** The binary search of [isSymbolLetter] ends within ten probes, whatever
    the code point, and answers exactly what a linear scan of the table of
    ranges answers. *)
Theorem isSymbolLetter_scan cp :
  iter searchProbes (searchStep cp) (0%nat, length kSymbolLetterRanges)
    = Some (isSymbolLetter cp) /\
  isSymbolLetter cp = inSomeRange cp.
Proof.
  destruct (search_spec cp 10 0 (length kSymbolLetterRanges)) as (b & Hb & Hiff); [lia| |].
  { apply Nat.ltb_lt. vm_compute. reflexivity. }
  unfold isSymbolLetter, searchProbes. rewrite Hb. split; [done|].
  change (default false (Some b)) with b. apply eq_true_iff_eq. rewrite Hiff.
  unfold inSomeRange. rewrite existsb_exists. split.
  - intros (i & Hi & Hh). exists (nth i kSymbolLetterRanges (Range 0 0)). split.
    + apply nth_In. lia.
    + unfold holds in Hh. now rewrite andb_true_iff, !Z.leb_le.
  - intros (r & Hr & Hin). apply In_nth with (d := Range 0 0) in Hr as (i & Hi & <-).
    exists i. split; [lia|]. unfold holds. now rewrite andb_true_iff, !Z.leb_le in Hin.
Qed.
