(* ===== verification/Double.v ===== *)
(** * Doubles as their 64-bit patterns, and [std::strtod]

    A [double] of the sources is the integer of its IEEE-754 binary64 pattern,
    which is what map keys, constants and literals compare. [strtod] is the C
    library's conversion on the numerals the lexer and the JSON parser hand to
    it: the decimal value, exact, rounded to the nearest double, ties to even. *)

From S2P Require Import Prelude.

Definition double_inf : Z := 0x7FF0000000000000.
Definition double_neg_inf : Z := 0xFFF0000000000000.
Definition double_nan : Z := 0x7FF8000000000000.
Definition sign_bit : Z := 0x8000000000000000.

(** [num / den * 2^-k] as a fraction. *)
Definition scaled (num den k : Z) : Z * Z :=
  if 0 <=? k then (num, den * 2 ^ k) else (num * 2 ^ (- k), den).

(** The double nearest to the non-negative rational [num / den]. The unit in the
    last place is [2^k], with [k] the least exponent not below -1074 for which
    the significand fits 53 bits. *)
Definition nearest_double (num den : Z) : Z :=
  if num =? 0 then 0
  else
    let e := Z.log2 num - Z.log2 den in
    let k0 := Z.max (e - 53) (-1074) in
    let '(n0, d0) := scaled num den k0 in
    let k := if n0 / d0 <? 2 ^ 53 then k0 else k0 + 1 in
    let '(n, d) := scaled num den k in
    let q := n / d in
    let r := n mod d in
    let q := if (2 * r <? d) || ((2 * r =? d) && Z.even q) then q else q + 1 in
    let bits := (k + 1074) * 2 ^ 52 + q in
    if double_inf <=? bits then double_inf else bits.

(** The longest prefix of decimal digits, and what follows it. *)
Fixpoint span_digits (s : bytes) : bytes * bytes :=
  match s with
  | c :: s' =>
      if is_digit c then let '(ds, rest) := span_digits s' in (c :: ds, rest) else ([], s)
  | [] => ([], [])
  end.

(** The exponent part of a numeral ([e], an optional sign, digits); 0 when the
    text does not start with one. *)
Definition exponent_value (s : bytes) : Z :=
  match s with
  | c :: s' =>
      if (c =? "e")%byte || (c =? "E")%byte then
        match s' with
        | c1 :: s'' =>
            if (c1 =? "-")%byte then - digits_value (fst (span_digits s''))
            else if (c1 =? "+")%byte then digits_value (fst (span_digits s''))
            else digits_value (fst (span_digits s'))
        | [] => 0
        end
      else 0
  | [] => 0
  end.

(** [strtod] on a numeral [-] digits [. digits] [e [+-] digits]. *)
Definition strtod (s : bytes) : Z :=
  let '(negative, s) :=
    match s with
    | c :: s' => if (c =? "-")%byte then (true, s') else (false, s)
    | [] => (false, s)
    end in
  let '(ip, s) := span_digits s in
  let '(fp, s) :=
    match s with
    | c :: s' => if (c =? ".")%byte then span_digits s' else ([], s)
    | [] => ([], s)
    end in
  let e10 := exponent_value s - Z.of_nat (length fp) in
  let m := digits_value (ip ++ fp) in
  let bits :=
    if 0 <=? e10 then nearest_double (m * 10 ^ e10) 1 else nearest_double m (10 ^ (- e10)) in
  if negative then sign_bit + bits else bits.

(** ** Known conversions *)

Example strtod_tenth : strtod (s2b "0.1") = 0x3FB999999999999A.
Proof. vm_compute. reflexivity. Qed.

Example strtod_third : strtod (s2b "-0.3333333333333333") = 0xBFD5555555555555.
Proof. vm_compute. reflexivity. Qed.

Example strtod_max : strtod (s2b "1.7976931348623157e308") = 0x7FEFFFFFFFFFFFFF.
Proof. vm_compute. reflexivity. Qed.

Example strtod_overflow : strtod (s2b "1e400") = double_inf.
Proof. vm_compute. reflexivity. Qed.

Example strtod_min_subnormal : strtod (s2b "5e-324") = 1.
Proof. vm_compute. reflexivity. Qed.

Example strtod_min_normal : strtod (s2b "2.2250738585072014E-308") = 0x0010000000000000.
Proof. vm_compute. reflexivity. Qed.

Example strtod_tie_even : strtod (s2b "9007199254740993") = 0x4340000000000000.
Proof. vm_compute. reflexivity. Qed.

Example strtod_neg_zero : strtod (s2b "-0.0") = sign_bit.
Proof. vm_compute. reflexivity. Qed.
