(* ===== verification/Lexer.v ===== *)
(** * The lexer (src/src/reader/Lexer.cpp, Lexer.h, Token.h)

    The state of a [Lexer] object is the record [lexer]; each member function is
    a function from the state to its answer and the next state. Loops run on
    [while] and [iter] with one turn per byte left ([fuel]); the theorems show
    that this is always enough. *)

From S2P Require Import Prelude Utf8 UnicodeLetters Double.

(** ** Tokens *)

Inductive TokenKind :=
| Integer | Float | Ratio | String_ | Char | Symbol | Keyword | Nil | True_ | False_
| LParen | RParen | LBracket | RBracket | LBrace | RBrace | HashLBrace | HashLParen | Regex
| Quote | Backtick | Tilde | TildeAt | HashUnderscore | HashApostrophe | Caret | At
| EndOfFile | Error.

#[export] Instance TokenKind_eq_dec : EqDecision TokenKind.
Proof. solve_decision. Defined.

Record Token := mkToken {
  kind : TokenKind;
  text : bytes;
  intValue : Z;
  fitsLong : bool;
  doubleValue : Z;
  tline : Z;
  tcolumn : Z
}.

Definition tokenKindName (k : TokenKind) : bytes :=
  match k with
  | Integer => s2b "Integer" | Float => s2b "Float" | Ratio => s2b "Ratio"
  | String_ => s2b "String" | Char => s2b "Char" | Symbol => s2b "Symbol"
  | Keyword => s2b "Keyword" | Nil => s2b "Nil" | True_ => s2b "True"
  | False_ => s2b "False" | LParen => s2b "LParen" | RParen => s2b "RParen"
  | LBracket => s2b "LBracket" | RBracket => s2b "RBracket" | LBrace => s2b "LBrace"
  | RBrace => s2b "RBrace" | HashLBrace => s2b "HashLBrace"
  | HashLParen => s2b "HashLParen" | Regex => s2b "Regex" | Quote => s2b "Quote"
  | Backtick => s2b "Backtick" | Tilde => s2b "Tilde" | TildeAt => s2b "TildeAt"
  | HashUnderscore => s2b "HashUnderscore" | HashApostrophe => s2b "HashApostrophe"
  | Caret => s2b "Caret" | At => s2b "At" | EndOfFile => s2b "EOF" | Error => s2b "Error"
  end.

(** A token of kind [k] and text [s] whose other fields have their default. *)
Definition plainToken (k : TokenKind) (s : bytes) (ln col : Z) : Token :=
  mkToken k s 0 true 0 ln col.

(** ** The state *)

Record lexer := mkLexer {
  source_ : bytes;
  pos_ : nat;
  line_ : Z;
  column_ : Z;
  hasPeek_ : bool;
  peekTok_ : Token;
  prevReturnedKind_ : TokenKind
}.

(** The constructor; [peekTok_] is not read before [peek] sets it. *)
Definition newLexer (source : bytes) : lexer :=
  mkLexer source 0 1 1 false (plainToken EndOfFile [] 1 1) EndOfFile.

Definition eof (l : lexer) : bool := (length (source_ l) <=? pos_ l)%nat.
Definition current (l : lexer) : byte := char_at (source_ l) (pos_ l).
Definition lookahead (l : lexer) : byte :=
  if (pos_ l + 1 <? length (source_ l))%nat then char_at (source_ l) (pos_ l + 1) else x00.

Definition advance (l : lexer) : lexer :=
  if eof l then l
  else
    let c := current l in
    let '(line, column) :=
      if (c =? x0a)%byte then (line_ l + 1, 1)
      else if negb (Z.land (u8 c) 0xC0 =? 0x80) then (line_ l, column_ l + 1)
      else (line_ l, column_ l) in
    mkLexer (source_ l) (S (pos_ l)) line column (hasPeek_ l) (peekTok_ l)
            (prevReturnedKind_ l).

(** [for (i = 0; i < n; ++i) advance();] *)
Definition advanceN (n : nat) (l : lexer) : lexer := Nat.iter n advance l.

(** One loop turn per byte left, and one to leave. *)
Definition fuel (l : lexer) : nat := S (length (source_ l) - pos_ l).

(** ** White space and comments *)

Definition is_blank (c : byte) : bool :=
  (c =? " ")%byte || (c =? x09)%byte || (c =? x0d)%byte || (c =? x0a)%byte || (c =? ",")%byte.

Definition commentStep (l : lexer) : option lexer :=
  if negb (eof l) && negb (current l =? x0a)%byte then Some (advance l) else None.

Definition blankStep (l : lexer) : option lexer :=
  if eof l then None
  else
    let c := current l in
    if is_blank c then Some (advance l)
    else if (c =? ";")%byte || ((c =? "#")%byte && (lookahead l =? "!")%byte)
    then Some (while (fuel l) commentStep l)
    else None.

Definition skipWhitespaceAndComments (l : lexer) : lexer := while (fuel l) blankStep l.

Definition prevEndsOperand (l : lexer) : bool :=
  match prevReturnedKind_ l with
  | Integer | Float | Ratio | String_ | Char | Symbol | Keyword | Nil | True_ | False_
  | RParen | RBracket | RBrace => true
  | _ => false
  end.

Definition makeError (msg : bytes) (errLine errCol : Z) : Token :=
  plainToken Error msg errLine errCol.

(** ** Symbol characters *)

Definition isAsciiSymbolChar (c : byte) : bool :=
  is_alnum c ||
  match c with
  | "*" | "+" | "!" | "-" | "_" | "'" | "?" | "<" | ">" | "=" | "." | "/" | ":" | "&"
  | "$" | "%" => true
  | _ => false
  end%byte.

Definition symbolCharLength (s : bytes) (pos : nat) : nat :=
  let c := char_at s pos in
  if u8 c <? 0x80 then (if isAsciiSymbolChar c then 1 else 0)%nat
  else match decodeUtf8 s pos with
       | Some (len, cp) => if isSymbolLetter cp then len else 0%nat
       | None => 0%nat
       end.

(** The loop that appends whole characters to [name] while [len] says how many
    bytes the next one takes. *)
Definition takeStep (len : bytes -> lexer -> nat) (st : lexer * bytes) : option (lexer * bytes) :=
  let '(l, name) := st in
  if eof l then None
  else
    let n := len name l in
    if (n =? 0)%nat then None
    else Some (advanceN n l, name ++ take n (drop (pos_ l) (source_ l))).

Definition takeChars (len : bytes -> lexer -> nat) (l : lexer) (name : bytes) : lexer * bytes :=
  while (fuel l) (takeStep len) (l, name).

Definition symbolLen (name : bytes) (l : lexer) : nat := symbolCharLength (source_ l) (pos_ l).

(** ** Numbers *)

Definition digitLen (name : bytes) (l : lexer) : nat := if is_digit (current l) then 1 else 0.

(** [while (!eof() && std::isdigit(current())) { digits += current(); advance(); }] *)
Definition takeDigits (l : lexer) (digits : bytes) : lexer * bytes :=
  takeChars digitLen l digits.

(** The bytes of the character at the current position when it continues a
    malformed number. *)
Definition trailLength (name : bytes) (l : lexer) : nat :=
  let ch := current l in
  if 0x80 <=? u8 ch then symbolCharLength (source_ l) (pos_ l)
  else if is_alnum ch || (ch =? "_")%byte || (ch =? ".")%byte then 1%nat else 0%nat.

(** The fractional part, if one follows. *)
Definition lexFraction (l : lexer) (digits : bytes) : bool * lexer * bytes :=
  if negb (eof l) && (current l =? ".")%byte && is_digit (lookahead l) then
    let '(l, digits) := takeDigits (advance l) (digits ++ ["."%byte]) in (true, l, digits)
  else (false, l, digits).

(** The exponent part, if one follows; [inr] is the error message. *)
Definition lexExponent (isFloat : bool) (l : lexer) (digits : bytes)
    : (bool * lexer * bytes) + (bytes * lexer) :=
  if negb (eof l) && ((current l =? "e")%byte || (current l =? "E")%byte) then
    let digits := digits ++ [current l] in
    let l := advance l in
    let '(l, digits) :=
      if negb (eof l) && ((current l =? "+")%byte || (current l =? "-")%byte)
      then (advance l, digits ++ [current l]) else (l, digits) in
    if eof l || negb (is_digit (current l)) then
      inr (s2b "malformed number literal: " ++ digits ++ s2b "(missing exponent digits)", l)
    else let '(l, digits) := takeDigits l digits in inl (true, l, digits)
  else inl (isFloat, l, digits).

Definition lexNumber (negative : bool) (l : lexer) : Token * lexer :=
  let startLine := line_ l in
  let startCol := column_ l in
  let '(l, digits) := takeDigits l (if negative then ["-"%byte] else []) in
  let '(isFloat, l, digits) := lexFraction l digits in
  match lexExponent isFloat l digits with
  | inr (msg, l) => (makeError msg startLine startCol, l)
  | inl (isFloat, l, digits) =>
      let '(bigSuffix, l) :=
        if negb isFloat && negb (eof l) && (current l =? "N")%byte
        then (true, advance l) else (false, l) in
      if negb (eof l) && negb (trailLength [] l =? 0)%nat then
        let '(l, bad) := takeChars trailLength l (digits ++ if bigSuffix then ["N"%byte] else []) in
        (makeError (s2b "malformed number literal: " ++ bad) startLine startCol, l)
      else if isFloat then
        (mkToken Float digits 0 true (strtod digits) startLine startCol, l)
      else
        let value := signed_value digits in
        let fits := fits_llong value in
        (mkToken Integer digits (if fits then value else 0) fits 0 startLine startCol, l)
  end.

(** ** Strings and regular expressions *)

(** Reads the four hex digits of a [\u] escape, the [u] already consumed; -1
    when they are not four hex digits. [i] digits remain. *)
Fixpoint hex4 (i : nat) (v : Z) (l : lexer) : Z * lexer :=
  match i with
  | O => (v, l)
  | S i =>
      if eof l then (-1, l)
      else match hex_digit (current l) with
           | Some d => hex4 i (v * 16 + d) (advance l)
           | None => (-1, l)
           end
  end.

(** The characters of a one-letter escape. *)
Definition simpleEscape (esc : byte) : option byte :=
  match esc with
  | "n" => Some x0a
  | "t" => Some x09
  | "r" => Some x0d
  | "b" => Some x08
  | "f" => Some x0c
  | "\" => Some "\"
  | x22 => Some x22
  | _ => None
  end%byte.

Definition unpairedSurrogate : bytes :=
  s2b "Invalid unicode escape: unpaired surrogate (UTF-8 strings cannot hold one)".

(** The escape [\uXXXX], possibly a surrogate pair of them; [l] is at the [u]. *)
Definition unicodeEscape (l : lexer) (out : bytes) (escLine escCol : Z)
    : lexer * bytes + Token * lexer :=
  let '(cp, l) := hex4 4 0 (advance l) in
  if cp <? 0 then
    inr (makeError (s2b "Invalid unicode escape: \u needs four hexadecimal digits")
                   escLine escCol, l)
  else if (0xD800 <=? cp) && (cp <=? 0xDBFF) then
    let '(lo, l) :=
      if negb (eof l) && (current l =? "\")%byte && (lookahead l =? "u")%byte
      then hex4 4 0 (advance (advance l)) else (-1, l) in
    if (lo <? 0xDC00) || (0xDFFF <? lo) then inr (makeError unpairedSurrogate escLine escCol, l)
    else
      let cp := 0x10000 + Z.shiftl (cp - 0xD800) 10 + (lo - 0xDC00) in
      inl (l, appendUtf8 out cp)
  else if (0xDC00 <=? cp) && (cp <=? 0xDFFF) then
    inr (makeError unpairedSurrogate escLine escCol, l)
  else inl (l, appendUtf8 out cp).

Definition isOctal (c : byte) : bool := in_range "0" c "7".

(** At most [n] octal digits. *)
Fixpoint octalDigits (n : nat) (v : Z) (l : lexer) : Z * lexer :=
  match n with
  | O => (v, l)
  | S n =>
      if negb (eof l) && isOctal (current l)
      then octalDigits n (v * 8 + (u8 (current l) - 48)) (advance l) else (v, l)
  end.

(** One escape sequence; [l] is at the backslash. *)
Definition stringEscape (startLine startCol : Z) (l : lexer) (out : bytes)
    : lexer * bytes + Token * lexer :=
  let l := advance l in
  if eof l then inr (makeError (s2b "unterminated string escape") startLine startCol, l)
  else
    let escLine := line_ l in
    let escCol := column_ l in
    let esc := current l in
    match simpleEscape esc with
    | Some c => inl (advance l, out ++ [c])
    | None =>
        if (esc =? "u")%byte then unicodeEscape l out escLine escCol
        else if isOctal esc then
          let '(v, l) := octalDigits 3 0 l in
          if 255 <? v then
            inr (makeError (s2b "Octal escape sequence must be in range [0, 377]")
                           escLine escCol, l)
          else inl (l, appendUtf8 out v)
        else inr (makeError (s2b "Unsupported escape character: \" ++ [esc])
                            (line_ l) (column_ l), l)
    end.

Definition quoteByte : byte := x22.

(** One turn of the loop of [lexString], or the token it ends with. *)
Definition stringStep (startLine startCol : Z) (st : lexer * bytes)
    : lexer * bytes + Token * lexer :=
  let '(l, out) := st in
  if eof l then inr (makeError (s2b "unterminated string literal") startLine startCol, l)
  else if (current l =? quoteByte)%byte then
    inr (plainToken String_ out startLine startCol, advance l)
  else if (current l =? "\")%byte then stringEscape startLine startCol l out
  else inl (advance l, out ++ [current l]).

(** What a lexing loop answers when it is out of turns; never the case, by the
    progress lemmas below. *)
Definition outOfTurns (l : lexer) : Token * lexer := (makeError [] 0 0, l).

Definition lexString (l : lexer) : Token * lexer :=
  let l' := advance l in
  default (outOfTurns l) (iter (fuel l') (stringStep (line_ l) (column_ l)) (l', [])).

Definition regexStep (startLine startCol : Z) (st : lexer * bytes)
    : lexer * bytes + Token * lexer :=
  let '(l, out) := st in
  let unterminated l :=
    inr (makeError (s2b "unterminated regular expression literal") startLine startCol, l) in
  if eof l then unterminated l
  else if (current l =? quoteByte)%byte then
    inr (plainToken Regex out startLine startCol, advance l)
  else if (current l =? "\")%byte then
    let out := out ++ [current l] in
    let l := advance l in
    if eof l then unterminated l else inl (advance l, out ++ [current l])
  else inl (advance l, out ++ [current l]).

Definition lexRegex (l : lexer) : Token * lexer :=
  let l' := advance (advance l) in
  default (outOfTurns l) (iter (fuel l') (regexStep (line_ l) (column_ l)) (l', [])).

(** ** Symbols, dispatch characters, errors *)

Definition lexSymbolicValue (l : lexer) : Token * lexer :=
  let startLine := line_ l in
  let startCol := column_ l in
  let l := skipWhitespaceAndComments (advance (advance l)) in
  let '(name, l) := let '(l, name) := takeChars symbolLen l [] in (name, l) in
  let invalid :=
    match name with
    | [] => true
    | c :: _ => (c =? ":")%byte || is_digit c
    end in
  let value d := (mkToken Float (s2b "##" ++ name) 0 true d startLine startCol, l) in
  if invalid then (makeError (s2b "Invalid token: ##" ++ name) startLine startCol, l)
  else if bool_decide (name = s2b "Inf") then value double_inf
  else if bool_decide (name = s2b "-Inf") then value double_neg_inf
  else if bool_decide (name = s2b "NaN") then value double_nan
  else (makeError (s2b "Unknown symbolic value: " ++ name) startLine startCol, l).

(** [%0nX]: the upper-case hexadecimal digits, padded to [n]. *)
Fixpoint hexUpper (fuel n : nat) (z : Z) : bytes :=
  match fuel with
  | O => []
  | S fuel =>
      if (z =? 0) && (n =? 0)%nat then []
      else hexUpper fuel (n - 1) (z / 16) ++
           [let d := z mod 16 in chr (if d <? 10 then 48 + d else 55 + d)]
  end.

Definition symbolBodyLen (s : bytes) (l : lexer) : nat :=
  match s with
  | [] => symbolCharLength (source_ l) (pos_ l)
  | _ => if (current l =? "#")%byte then 1%nat else symbolCharLength (source_ l) (pos_ l)
  end.

Definition punct (k : TokenKind) (s : bytes) (n : nat) (l : lexer) : Token * lexer :=
  (plainToken k s (line_ l) (column_ l), advanceN n l).

(** A character no token starts with. *)
Definition lexBadCharacter (l : lexer) : Token * lexer :=
  match decodeUtf8 (source_ l) (pos_ l) with
  | None =>
      (makeError (s2b "invalid UTF-8 byte 0x" ++ hexUpper 2 2 (u8 (current l)))
                 (line_ l) (column_ l), advance l)
  | Some (len, cp) =>
      let bad := take len (drop (pos_ l) (source_ l)) in
      let bad :=
        if (1 <? len)%nat then bad ++ s2b " (U+" ++ hexUpper 8 4 cp ++ s2b ")" else bad in
      (makeError (s2b "unexpected character: " ++ bad) (line_ l) (column_ l), advanceN len l)
  end.

(** The reader macros that start with [#]; [l] is at it. *)
Definition lexHash (l : lexer) : Token * lexer :=
  let la := lookahead l in
  if (la =? "#")%byte then lexSymbolicValue l
  else if (la =? "{")%byte then punct HashLBrace (s2b "#{") 2 l
  else if (la =? quoteByte)%byte then lexRegex l
  else if (la =? "(")%byte then punct HashLParen (s2b "#(") 2 l
  else if (la =? "_")%byte then punct HashUnderscore (s2b "#_") 2 l
  else if (la =? "'")%byte then punct Error (s2b "reserved-for-later token: #'") 2 l
  else if is_alpha la then
    let '(l', tag) := takeChars symbolLen (advance l) [] in
    (makeError (s2b "No reader function for tag " ++ tag) (line_ l) (column_ l), l')
  else punct Error (s2b "reserved-for-later token: #") 1 l.

Definition lexSymbolOrPunct (l : lexer) : Token * lexer :=
  let c := current l in
  if (c =? "'")%byte then punct Quote (s2b "'") 1 l
  else if (c =? "`")%byte then punct Backtick (s2b "`") 1 l
  else if (c =? "~")%byte then
    let l' := advance l in
    if negb (eof l') && (current l' =? "@")%byte then punct TildeAt (s2b "~@") 2 l
    else punct Tilde (s2b "~") 1 l
  else if (c =? "^")%byte then punct Error (s2b "reserved-for-later token: ^") 1 l
  else if (c =? "#")%byte then lexHash l
  else if (symbolCharLength (source_ l) (pos_ l) =? 0)%nat then lexBadCharacter l
  else
    let '(l', s) := takeChars symbolBodyLen l [] in
    (plainToken Symbol s (line_ l) (column_ l), l').

(** ** The token stream *)

(** The tokens of one character. *)
Definition singlePunct (c : byte) : option TokenKind :=
  match c with
  | "(" => Some LParen
  | ")" => Some RParen
  | "[" => Some LBracket
  | "]" => Some RBracket
  | "{" => Some LBrace
  | "}" => Some RBrace
  | "@" => Some At
  | _ => None
  end%byte.

(** The token at the current position, which is neither blank nor the end;
    [spaceBefore]: blanks or comments were skipped to reach it. *)
Definition lexToken (spaceBefore : bool) (l : lexer) : Token * lexer :=
  let c := current l in
  match singlePunct c with
  | Some k => punct k [c] 1 l
  | None =>
      if (c =? quoteByte)%byte then lexString l
      else if is_digit c then lexNumber false l
      else if (c =? "-")%byte && is_digit (lookahead l)
              && (negb (prevEndsOperand l) || spaceBefore)
      then lexNumber true (advance l)
      else lexSymbolOrPunct l
  end.

Definition set_hasPeek (b : bool) (l : lexer) : lexer :=
  mkLexer (source_ l) (pos_ l) (line_ l) (column_ l) b (peekTok_ l) (prevReturnedKind_ l).

Definition nextImpl_ (l : lexer) : Token * lexer :=
  if hasPeek_ l then (peekTok_ l, set_hasPeek false l)
  else
    let l' := skipWhitespaceAndComments l in
    if eof l' then (plainToken EndOfFile [] (line_ l') (column_ l'), l')
    else lexToken (negb (pos_ l' =? pos_ l)%nat) l'.

Definition next (l : lexer) : Token * lexer :=
  let '(t, l) := nextImpl_ l in
  (t, mkLexer (source_ l) (pos_ l) (line_ l) (column_ l) (hasPeek_ l) (peekTok_ l) (kind t)).

Definition peek (l : lexer) : Token * lexer :=
  if hasPeek_ l then (peekTok_ l, l)
  else
    let '(t, l) := next l in
    (t, mkLexer (source_ l) (pos_ l) (line_ l) (column_ l) true t (prevReturnedKind_ l)).

(** ** Specification of positions *)

(** The line of the end of a text: one more than its newlines. *)
Definition lineOf (prefix : bytes) : Z :=
  1 + Z.of_nat (length (List.filter (fun c => c =? x0a)%byte prefix)).

(** The text after the last newline. *)
Definition lastLine (prefix : bytes) : bytes :=
  fold_left (fun acc c => if (c =? x0a)%byte then [] else acc ++ [c]) prefix [].

(** A byte that starts a character: not a UTF-8 continuation byte. *)
Definition startsChar (c : byte) : bool := negb ((128 <=? u8 c) && (u8 c <? 192)).

(** The column of the end of a text: one more than the characters of its last
    line. *)
Definition columnOf (prefix : bytes) : Z :=
  1 + Z.of_nat (length (List.filter startsChar (lastLine prefix))).

(** The state's position is inside the text and its line and column are those
    of that position. *)
Definition positioned (l : lexer) : Prop :=
  (pos_ l <= length (source_ l))%nat /\
  line_ l = lineOf (take (pos_ l) (source_ l)) /\
  column_ l = columnOf (take (pos_ l) (source_ l)).

(** [l'] is reached from [l] by calls of [advance]. *)
Definition moves : lexer -> lexer -> Prop := rtc (fun l l' => l' = advance l).

(** The bytes left. *)
Definition left (l : lexer) : nat := length (source_ l) - pos_ l.

(** [l'] is reached from [l] and at least one byte further. *)
Definition advances (l l' : lexer) : Prop := moves l l' /\ (left l' < left l)%nat.

(** ** Moving forward *)

Lemma moves_refl l : moves l l.
Proof. apply rtc_refl. Qed.

Lemma moves_advance l : moves l (advance l).
Proof. now apply rtc_once. Qed.

Lemma moves_trans a b c : moves a b -> moves b c -> moves a c.
Proof. unfold moves. intros. etrans; eauto. Qed.

Lemma moves_advanceN n l : moves l (advanceN n l).
Proof.
  induction n as [|n IH]; [apply moves_refl|].
  eapply moves_trans; [apply IH|apply moves_advance].
Qed.

#[export] Hint Resolve moves_refl moves_advance moves_advanceN : clj.
#[export] Hint Extern 2 (moves _ _) => eapply moves_trans; [apply moves_advance|] : clj.

Lemma eof_false l : eof l = false <-> (pos_ l < length (source_ l))%nat.
Proof. unfold eof. rewrite Nat.leb_gt. done. Qed.

Lemma advance_eof l : eof l = true -> advance l = l.
Proof. unfold advance. now intros ->. Qed.

Lemma advance_fields l :
  source_ (advance l) = source_ l /\ hasPeek_ (advance l) = hasPeek_ l /\
  peekTok_ (advance l) = peekTok_ l /\ prevReturnedKind_ (advance l) = prevReturnedKind_ l /\
  pos_ (advance l) = if eof l then pos_ l else S (pos_ l).
Proof. unfold advance. destruct (eof l); [done|]. repeat case_match; done. Qed.

(** What [advance] never changes. *)
Lemma moves_fields l l' : moves l l' ->
  source_ l' = source_ l /\ hasPeek_ l' = hasPeek_ l /\ peekTok_ l' = peekTok_ l /\
  prevReturnedKind_ l' = prevReturnedKind_ l /\ (pos_ l <= pos_ l')%nat.
Proof.
  induction 1 as [l|l l2 l3 -> _ IH]; [done|].
  destruct (advance_fields l) as (H1 & H2 & H3 & H4 & H5).
  destruct IH as (-> & -> & -> & -> & ?). split_and!; try done.
  destruct (eof l); lia.
Qed.

Lemma moves_left l l' : moves l l' -> (left l' <= left l)%nat.
Proof. intros (E & _ & _ & _ & H)%moves_fields. unfold left. rewrite E. lia. Qed.

Lemma advances_advance l : eof l = false -> advances l (advance l).
Proof.
  intros H. split; [auto with clj|].
  destruct (advance_fields l) as (E & _ & _ & _ & Ep). rewrite H in Ep.
  apply eof_false in H. unfold left. rewrite E, Ep. lia.
Qed.

Lemma advances_advanceN n l : eof l = false -> (0 < n)%nat -> advances l (advanceN n l).
Proof.
  intros H. destruct n as [|n]; [lia|]. intros _. split; [apply moves_advanceN|].
  change (advanceN (S n) l) with (Nat.iter (S n) advance l). rewrite Nat.iter_succ_r.
  destruct (advances_advance l H) as [_ Hl].
  pose proof (moves_left _ _ (moves_advanceN n (advance l))). unfold advanceN in *. lia.
Qed.

Lemma advances_trans_l a b c : advances a b -> moves b c -> advances a c.
Proof.
  intros [H1 H2] H3. split; [eapply moves_trans; eauto|].
  pose proof (moves_left _ _ H3). lia.
Qed.

Lemma advances_trans_r a b c : moves a b -> advances b c -> advances a c.
Proof.
  intros H1 [H2 H3]. split; [eapply moves_trans; eauto|].
  pose proof (moves_left _ _ H1). lia.
Qed.

Lemma advances_moves a b : advances a b -> moves a b.
Proof. now intros []. Qed.

#[export] Hint Resolve advances_advance advances_moves : clj.

(** ** The position invariant *)

Lemma lineOf_snoc s c : lineOf (s ++ [c]) = if (c =? x0a)%byte then lineOf s + 1 else lineOf s.
Proof.
  unfold lineOf. rewrite List.filter_app, length_app. cbn [List.filter].
  destruct (c =? x0a)%byte; cbn [length]; lia.
Qed.

Lemma columnOf_snoc s c :
  columnOf (s ++ [c]) =
    if (c =? x0a)%byte then 1
    else if startsChar c then columnOf s + 1 else columnOf s.
Proof.
  unfold columnOf, lastLine. rewrite fold_left_app. cbn [fold_left].
  destruct (c =? x0a)%byte; [done|].
  rewrite List.filter_app, length_app. cbn [List.filter]. destruct (startsChar c); cbn [length]; lia.
Qed.

Lemma take_pos_S l : eof l = false ->
  take (S (pos_ l)) (source_ l) = take (pos_ l) (source_ l) ++ [current l].
Proof.
  intros H%eof_false. apply take_S_r. unfold current, char_at.
  destruct (lookup_lt_is_Some_2 _ _ H) as [c Hc]. rewrite Hc. f_equal.
  symmetry. now apply nth_lookup_Some.
Qed.

Lemma positioned_advance l : positioned l -> positioned (advance l).
Proof.
  destruct (eof l) eqn:E; [now rewrite advance_eof|]. intros (Hp & Hl & Hc).
  pose proof (take_pos_S l E) as Ht. apply eof_false in E as Hlt.
  unfold positioned, advance. rewrite E, land_cont. cbn zeta.
  assert (Hn : negb ((128 <=? u8 (current l)) && (u8 (current l) <? 192)) = startsChar (current l)) by done.
  rewrite Hn.
  destruct (current l =? x0a)%byte eqn:En, (startsChar (current l)) eqn:Es;
    cbn [source_ pos_ line_ column_]; rewrite Ht, lineOf_snoc, columnOf_snoc, En, ?Es;
    (split; [lia|]); split; congruence.
Qed.

Lemma positioned_moves l l' : moves l l' -> positioned l -> positioned l'.
Proof. induction 1 as [|l l2 l3 -> _ IH]; [done|]. intros H. apply IH, positioned_advance, H. Qed.

Lemma positioned_new source : positioned (newLexer source).
Proof. unfold positioned. cbn [newLexer source_ pos_ line_ column_ take]. split; [lia|done]. Qed.

(** ** Every routine moves forward, and its loop ends *)

Lemma moves_while (step : lexer -> option lexer) n l :
  (forall a b, step a = Some b -> moves a b) -> moves l (while n step l).
Proof.
  intros H. apply while_inv; [|apply moves_refl].
  intros a b Ha Hb. eapply moves_trans; eauto.
Qed.

Lemma while_ends (step : lexer -> option lexer) n l :
  (forall a b, step a = Some b -> advances a b) -> (left l < n)%nat ->
  step (while n step l) = None.
Proof.
  intros H Hn. apply (while_done (fun _ => True) left); [|done|done].
  intros a b _ E. split; [done|]. now destruct (H _ _ E).
Qed.

Lemma commentStep_advances a b : commentStep a = Some b -> advances a b.
Proof.
  unfold commentStep. destruct (eof a) eqn:E; [done|]. cbn.
  destruct (current a =? x0a)%byte; [done|]. intros [= <-]. auto with clj.
Qed.

Lemma comment_advances l : eof l = false -> (current l =? x0a)%byte = false ->
  advances l (while (fuel l) commentStep l).
Proof.
  intros E Ec. unfold fuel. rewrite while_S. unfold commentStep at 1. rewrite E, Ec. cbn.
  eapply advances_trans_l; [now apply advances_advance|].
  apply moves_while. intros. now apply advances_moves, commentStep_advances.
Qed.

Lemma blankStep_advances a b : blankStep a = Some b -> advances a b.
Proof.
  unfold blankStep. destruct (eof a) eqn:E; [done|]. cbn zeta.
  destruct (is_blank (current a)) eqn:Eb.
  - intros [= <-]. auto with clj.
  - destruct (_ || _); [|done]. intros [= <-]. apply comment_advances; [done|].
    unfold is_blank in Eb. rewrite !orb_false_iff in Eb. tauto.
Qed.

Lemma moves_skip l : moves l (skipWhitespaceAndComments l).
Proof. apply moves_while. intros. now apply advances_moves, blankStep_advances. Qed.

Lemma skip_done l : blankStep (skipWhitespaceAndComments l) = None.
Proof. apply while_ends; [apply blankStep_advances|]. unfold left, fuel. lia. Qed.

#[export] Hint Resolve moves_skip : clj.

Section TakeChars.
Context (len : bytes -> lexer -> nat).

Lemma takeStep_advances st st' :
  takeStep len st = Some st' -> advances (fst st) (fst st').
Proof.
  destruct st as [l name]. unfold takeStep. destruct (eof l) eqn:E; [done|].
  cbn zeta. destruct (Nat.eqb_spec (len name l) 0); [done|]. intros [= <-].
  apply advances_advanceN; [done|lia].
Qed.

Lemma moves_takeChars l name : moves l (fst (takeChars len l name)).
Proof.
  unfold takeChars. apply (while_inv (fun st => moves l (fst st))); [|apply moves_refl].
  intros st st' H E%takeStep_advances. eapply moves_trans; [done|]. now apply advances_moves.
Qed.

Lemma takeChars_done l name : takeStep len (takeChars len l name) = None.
Proof.
  apply (while_done (fun _ => True) (fun st => left (fst st))); [|done|].
  - intros st st' _ E%takeStep_advances. split; [done|apply E].
  - cbn. unfold left, fuel. lia.
Qed.

(** A first character that counts is taken. *)
Lemma takeChars_advances l name : eof l = false -> (0 < len name l)%nat ->
  advances l (fst (takeChars len l name)).
Proof.
  intros E Hn. unfold takeChars, fuel. rewrite while_S. unfold takeStep at 1.
  rewrite E. cbn zeta. rewrite (proj2 (Nat.eqb_neq _ _)) by lia.
  eapply advances_trans_l; [now apply (advances_advanceN (len name l))|].
  set (st := (advanceN _ _, _)).
  change (advanceN (len name l) l) with (fst st).
  apply (while_inv (fun s => moves (fst st) (fst s))); [|apply moves_refl].
  intros s s' H Es%takeStep_advances. eapply moves_trans; [done|]. now apply advances_moves.
Qed.

End TakeChars.

#[export] Hint Resolve moves_takeChars : clj.

(** [lmoves] proves that a routine's last state is reached from its first one. *)
Ltac lmove1 :=
  first
    [ assumption
    | apply moves_refl | apply moves_advance | apply moves_advanceN | apply moves_skip
    | apply moves_takeChars
    | apply advances_moves; assumption ].
Ltac lmoves :=
  first
    [ lmove1
    | eapply moves_trans; [eassumption|lmove1]
    | eapply moves_trans; [apply moves_advance|lmove1]
    | eapply moves_trans; [apply moves_advance|eapply moves_trans; [apply moves_advance|lmove1]] ].

Lemma moves_takeDigits l ds : moves l (fst (takeDigits l ds)).
Proof. apply moves_takeChars. Qed.

Lemma moves_lexFraction l ds : moves l (snd (fst (lexFraction l ds))).
Proof.
  unfold lexFraction. destruct (_ && _); [|apply moves_refl].
  destruct (takeDigits _ _) as [l' ds'] eqn:E. cbn.
  change l' with (fst (l', ds')). rewrite <- E. unfold takeDigits. lmoves.
Qed.

Lemma moves_lexExponent fl l ds :
  match lexExponent fl l ds with
  | inl (_, l', _) => moves l l'
  | inr (_, l') => moves l l'
  end.
Proof.
  unfold lexExponent. destruct (negb (eof l) && _); [|apply moves_refl]. cbn zeta.
  set (a := advance l). destruct (if _ && _ then _ else _) as [l1 ds1] eqn:E.
  assert (H1 : moves l l1).
  { subst a. revert E. destruct (_ && _); intros [= <- <-]; lmoves. }
  clear E. destruct (_ || _); [exact H1|]. destruct (takeDigits l1 ds1) as [l2 ds2] eqn:E2.
  eapply moves_trans; [exact H1|]. change l2 with (fst (l2, ds2)). rewrite <- E2.
  apply moves_takeDigits.
Qed.

Lemma lexNumber_moves (b : bool) l :
  moves (fst (takeDigits l (if b then ["-"%byte] else []))) (snd (lexNumber b l)).
Proof.
  unfold lexNumber. cbn zeta.
  destruct (takeDigits l (if b then ["-"%byte] else [])) as [l1 ds1]. cbn [fst].
  pose proof (moves_lexFraction l1 ds1) as H2.
  destruct (lexFraction l1 ds1) as [[fl l2] ds2]. cbn in H2.
  pose proof (moves_lexExponent fl l2 ds2) as H3.
  destruct (lexExponent fl l2 ds2) as [[[fl3 l3] ds3]|[msg l3]];
    [|cbn; eapply moves_trans; eauto].
  assert (H : moves l1 l3) by (eapply moves_trans; eauto). clear H2 H3.
  destruct (if _ && _ then (true, advance l3) else (false, l3)) as [big l4] eqn:E4.
  assert (H4 : moves l1 l4).
  { revert E4. destruct (_ && _); intros [= <- <-]; lmoves. }
  clear E4. destruct (_ && _).
  - pose proof (moves_takeChars trailLength l4 (ds3 ++ if big then ["N"%byte] else [])) as H5.
    destruct (takeChars _ _ _) as [l5 bad]. exact (moves_trans _ _ _ H4 H5).
  - destruct fl3; exact H4.
Qed.

Lemma lexNumber_advances b l : eof l = false -> is_digit (current l) = true ->
  advances l (snd (lexNumber b l)).
Proof.
  intros E Hd. eapply advances_trans_l; [|apply lexNumber_moves].
  apply takeChars_advances; [done|]. unfold digitLen. rewrite Hd. lia.
Qed.

Lemma moves_hex4 i v l : moves l (snd (hex4 i v l)).
Proof.
  revert v l. induction i as [|i IH]; intros v l; cbn; [lmoves|].
  destruct (eof l); [lmoves|]. destruct (hex_digit _); [|lmoves].
  eapply moves_trans; [apply moves_advance|apply IH].
Qed.

Lemma moves_octal n v l : moves l (snd (octalDigits n v l)).
Proof.
  revert v l. induction n as [|n IH]; intros v l; cbn; [lmoves|].
  destruct (_ && _); [|lmoves]. eapply moves_trans; [apply moves_advance|apply IH].
Qed.

(** The states a turn of a string loop leads to. *)
Definition turn_moves (l : lexer) (r : lexer * bytes + Token * lexer) : Prop :=
  match r with inl (l', _) => advances l l' | inr (_, l') => moves l l' end.

Lemma unicodeEscape_moves l out ln col : eof l = false ->
  turn_moves l (unicodeEscape l out ln col).
Proof.
  intros E. unfold unicodeEscape.
  pose proof (moves_hex4 4 0 (advance l)) as H. destruct (hex4 _ _ _) as [cp l1]. cbn [snd] in H.
  assert (H1 : advances l l1) by exact (advances_trans_l _ _ _ (advances_advance _ E) H).
  destruct (cp <? 0); [now apply advances_moves|].
  destruct (_ && _); [|destruct (_ && _); [now apply advances_moves|done]].
  destruct (if _ && _ && _ then _ else _) as [lo l2] eqn:E2.
  assert (H2 : moves l1 l2).
  { revert E2. destruct (_ && _); [|intros [= <- <-]; lmoves].
    pose proof (moves_hex4 4 0 (advance (advance l1))) as H2. intros E2. rewrite E2 in H2.
    do 2 (eapply moves_trans; [apply moves_advance|]). exact H2. }
  assert (H3 : advances l l2) by (eapply advances_trans_l; eauto).
  destruct (_ || _); [now apply advances_moves|done].
Qed.

Lemma stringEscape_moves ln col l out : eof l = false ->
  turn_moves l (stringEscape ln col l out).
Proof.
  intros E. unfold stringEscape. destruct (eof (advance l)) eqn:E1; [cbn; lmoves|].
  pose proof (advances_advance _ E) as H. pose proof (advances_advance _ E1) as H1.
  destruct (simpleEscape _).
  { eapply advances_trans_l; [exact H|]. apply moves_advance. }
  destruct (_ =? "u")%byte.
  { pose proof (unicodeEscape_moves _ out (line_ (advance l)) (column_ (advance l)) E1) as Hu.
    destruct (unicodeEscape _ _ _ _) as [[l' o]|[t l']]; cbn in *.
    - exact (advances_trans_l _ _ _ H (advances_moves _ _ Hu)).
    - exact (moves_trans _ _ _ (moves_advance l) Hu). }
  destruct (isOctal _); [|cbn; lmoves].
  pose proof (moves_octal 3 0 (advance l)) as Ho. destruct (octalDigits _ _ _) as [v l']. cbn in Ho.
  destruct (255 <? v); cbn.
  - exact (moves_trans _ _ _ (moves_advance l) Ho).
  - exact (advances_trans_l _ _ _ H Ho).
Qed.

Lemma stringStep_moves ln col l out : turn_moves l (stringStep ln col (l, out)).
Proof.
  unfold stringStep. destruct (eof l) eqn:E; [cbn; lmoves|].
  destruct (_ =? quoteByte)%byte; [cbn; lmoves|].
  destruct (_ =? "\")%byte; [now apply stringEscape_moves|]. now apply advances_advance.
Qed.

Lemma regexStep_moves ln col l out : turn_moves l (regexStep ln col (l, out)).
Proof.
  unfold regexStep. destruct (eof l) eqn:E; [cbn; lmoves|].
  destruct (_ =? quoteByte)%byte; [cbn; lmoves|].
  pose proof (advances_advance _ E) as H.
  destruct (_ =? "\")%byte; [|done].
  destruct (eof (advance l)) eqn:E1; [cbn; lmoves|].
  exact (advances_trans_l _ _ _ H (moves_advance _)).
Qed.

(** A loop whose turns move forward ends, and its last state is further on. *)
Lemma loop_ends (step : lexer * bytes -> lexer * bytes + Token * lexer) l0 l out :
  (forall l out, turn_moves l (step (l, out))) -> moves l0 l ->
  exists t l', iter (fuel l) step (l, out) = Some (t, l') /\ moves l0 l'.
Proof.
  intros Hstep Hl.
  destruct (iter_total (fun _ => True) (fun st => left (fst st)) step (fuel l) (l, out))
    as [[t l'] Hr].
  - intros [a o] [b o'] _ E. pose proof (Hstep a o) as H. rewrite E in H. split; [done|apply H].
  - done.
  - cbn. unfold left, fuel. lia.
  - exists t, l'. split; [done|].
    refine (iter_inv (fun st => moves l0 (fst st)) (fun r => moves l0 (snd r)) _ _ _ _ _ _ _ Hr).
    + intros [a o] [b o'] Ha E. pose proof (Hstep a o) as H. rewrite E in H.
      eapply moves_trans; [done|]. now apply advances_moves.
    + intros [a o] [t0 b] Ha E. pose proof (Hstep a o) as H. rewrite E in H.
      eapply moves_trans; eauto.
    + done.
Qed.

Lemma lexString_total l : exists t l',
  iter (fuel (advance l)) (stringStep (line_ l) (column_ l)) (advance l, []) = Some (t, l') /\
  moves (advance l) l'.
Proof. apply loop_ends; [intros; apply stringStep_moves|lmoves]. Qed.

Lemma lexString_advances l : eof l = false -> advances l (snd (lexString l)).
Proof.
  intros E. destruct (lexString_total l) as (t & l' & H & Hm). unfold lexString. rewrite H.
  exact (advances_trans_l _ _ _ (advances_advance _ E) Hm).
Qed.

Lemma lexRegex_total l : exists t l',
  iter (fuel (advance (advance l))) (regexStep (line_ l) (column_ l))
    (advance (advance l), []) = Some (t, l') /\
  moves (advance (advance l)) l'.
Proof. apply loop_ends; [intros; apply regexStep_moves|lmoves]. Qed.

Lemma lexRegex_advances l : eof l = false -> advances l (snd (lexRegex l)).
Proof.
  intros E. destruct (lexRegex_total l) as (t & l' & H & Hm). unfold lexRegex. rewrite H.
  cbn. eapply advances_trans_l; [apply advances_advance; done|].
  eapply moves_trans; [apply moves_advance|done].
Qed.

(** ** Every token but the end of the file consumes a byte *)

Lemma decodeUtf8_pos s pos n cp : decodeUtf8 s pos = Some (n, cp) -> (0 < n)%nat.
Proof. unfold decodeUtf8. repeat case_match; intros; simplify_eq; lia. Qed.

Lemma lexSymbolicValue_moves l : moves (advance l) (snd (lexSymbolicValue l)).
Proof.
  unfold lexSymbolicValue. cbn zeta. set (a := skipWhitespaceAndComments _).
  pose proof (moves_takeChars symbolLen a []) as H.
  destruct (takeChars symbolLen a []) as [l' name]. cbn [fst] in H.
  assert (Ha : moves (advance l) l').
  { eapply moves_trans; [apply moves_advance|]. eapply moves_trans; [apply moves_skip|exact H]. }
  destruct (match name with [] => true | c :: _ => _ end); [exact Ha|].
  repeat case_bool_decide; exact Ha.
Qed.

Lemma punct_advances k s n l : eof l = false -> (0 < n)%nat -> advances l (snd (punct k s n l)).
Proof. apply advances_advanceN. Qed.

Lemma lexHash_advances l : eof l = false -> advances l (snd (lexHash l)).
Proof.
  intros E. unfold lexHash. cbn zeta.
  repeat match goal with |- context [if ?b then _ else _] => destruct b end;
    try (apply punct_advances; [exact E|lia]); try (apply lexRegex_advances; exact E).
  - eapply advances_trans_l; [exact (advances_advance _ E)|apply lexSymbolicValue_moves].
  - pose proof (moves_takeChars symbolLen (advance l) []) as H.
    destruct (takeChars _ _ _) as [l' tag].
    exact (advances_trans_l _ _ _ (advances_advance _ E) H).
Qed.

Lemma lexBadCharacter_advances l : eof l = false -> advances l (snd (lexBadCharacter l)).
Proof.
  intros E. unfold lexBadCharacter. destruct (decodeUtf8 _ _) as [[n cp]|] eqn:D.
  - apply advances_advanceN; [exact E|]. now apply decodeUtf8_pos in D.
  - now apply advances_advance.
Qed.

Lemma lexSymbolOrPunct_advances l : eof l = false -> advances l (snd (lexSymbolOrPunct l)).
Proof.
  intros E. unfold lexSymbolOrPunct. cbn zeta.
  repeat match goal with |- context [if (_ =? _)%byte then _ else _] => destruct (_ =? _)%byte end;
    try (apply punct_advances; [exact E|lia]).
  - destruct (_ && _); apply punct_advances; (exact E || lia).
  - now apply lexHash_advances.
  - destruct (Nat.eqb_spec (symbolCharLength (source_ l) (pos_ l)) 0).
    + now apply lexBadCharacter_advances.
    + pose proof (takeChars_advances symbolBodyLen l [] E ltac:(cbn; lia)) as H.
      destruct (takeChars _ _ _) as [l' s]. exact H.
Qed.

Lemma lexToken_advances b l : eof l = false -> advances l (snd (lexToken b l)).
Proof.
  intros E. unfold lexToken. cbn zeta. destruct (singlePunct _).
  { apply punct_advances; [exact E|lia]. }
  destruct (_ =? quoteByte)%byte; [now apply lexString_advances|].
  destruct (is_digit (current l)) eqn:Ed; [now apply lexNumber_advances|].
  destruct (_ && _ && _); [|now apply lexSymbolOrPunct_advances].
  eapply advances_trans_l; [exact (advances_advance _ E)|].
  eapply moves_trans; [apply moves_takeDigits|apply lexNumber_moves].
Qed.

(** [next] when no token is buffered. *)
Lemma next_fresh l : hasPeek_ l = false ->
  exists l1, moves l l1 /\
    source_ (snd (next l)) = source_ l1 /\ pos_ (snd (next l)) = pos_ l1 /\
    line_ (snd (next l)) = line_ l1 /\ column_ (snd (next l)) = column_ l1 /\
    hasPeek_ (snd (next l)) = hasPeek_ l1 /\
    (kind (fst (next l)) <> EndOfFile -> advances l l1).
Proof.
  intros Hp. unfold next, nextImpl_. rewrite Hp. cbn zeta.
  set (s := skipWhitespaceAndComments l).
  assert (Hs : moves l s) by apply moves_skip.
  destruct (eof s) eqn:E.
  { exists s. cbn. split_and!; try done. }
  pose proof (lexToken_advances (negb (pos_ s =? pos_ l)%nat) s E) as H.
  destruct (lexToken _ s) as [t l1]. exists l1. cbn in *.
  assert (advances l l1) by exact (advances_trans_r _ _ _ Hs H).
  split_and!; try done. now apply advances_moves.
Qed.

(** ** Properties: positions and progress *)

(** C9. [Lexer::next] keeps the position invariant (the line is one more than
    the newlines consumed, the column one more than the characters of the
    current line, both of the position reached, which stays inside the text),
    and, when no token is buffered, it never goes back and every token other
    than the end of the file consumes at least one byte: the token stream of a
    text is finite. *)
Theorem next_positioned l : positioned l ->
  let '(t, l') := next l in
  positioned l' /\ source_ l' = source_ l /\
  (hasPeek_ l = false ->
     (pos_ l <= pos_ l')%nat /\ (kind t <> EndOfFile -> (pos_ l < pos_ l')%nat)).
Proof.
  intros Hl. destruct (hasPeek_ l) eqn:Hp.
  - unfold next, nextImpl_. rewrite Hp. split_and!; [exact Hl|done|done].
  - destruct (next_fresh l Hp) as (l1 & Hm & Es & Epos & Eln & Ecol & _ & Hk).
    destruct (next l) as [t l']. cbn [fst snd] in *.
    pose proof (positioned_moves _ _ Hm Hl) as (H1 & H2 & H3).
    apply moves_fields in Hm as (Es1 & _ & _ & _ & Hle).
    split_and!; [|congruence|].
    + unfold positioned. rewrite Es, Epos, Eln, Ecol. done.
    + intros _. split; [lia|]. intros [_ Hlt]%Hk. unfold left in Hlt. rewrite Es1 in Hlt. lia.
Qed.

Example next_positioned_witness :
  kind (fst (next (newLexer (s2b "foo")))) = Symbol /\
  let '(t, l') := next (newLexer (s2b "foo")) in
  positioned l' /\ source_ l' = s2b "foo" /\
  (false = false -> (0 <= pos_ l')%nat /\ (kind t <> EndOfFile -> (0 < pos_ l')%nat)).
Proof.
  split; [vm_compute; reflexivity|].
  exact (next_positioned (newLexer (s2b "foo")) (positioned_new (s2b "foo"))).
Defined.

(** ** Reading along the rest of the text *)

(** The bytes not yet consumed. *)
Definition rest (l : lexer) : bytes := drop (pos_ l) (source_ l).

(** The first byte of a text, a NUL if it is empty. *)
Definition head_byte (s : bytes) : byte := char_at s 0.

Lemma rest_nil l : rest l = [] -> eof l = true.
Proof.
  intros H. apply (f_equal length) in H. unfold rest in H. rewrite length_drop in H.
  apply Nat.leb_le. cbn in H. lia.
Qed.

Lemma rest_eof l : eof l = true -> rest l = [].
Proof. intros H%Nat.leb_le. now apply drop_ge. Qed.

Lemma current_rest l : current l = head_byte (rest l).
Proof. unfold current, head_byte, rest. now rewrite char_at_drop, Nat.add_0_r. Qed.

Lemma rest_cons l c r : rest l = c :: r ->
  eof l = false /\ current l = c /\ rest (advance l) = r /\ lookahead l = head_byte r /\
  left l = S (left (advance l)).
Proof.
  intros H.
  assert (E : eof l = false).
  { destruct (eof l) eqn:E; [|done]. apply rest_eof in E. congruence. }
  assert (Hr : rest (advance l) = r).
  { unfold rest in *. destruct (advance_fields l) as (-> & _ & _ & _ & ->). rewrite E.
    change r with (drop 1 (c :: r)). rewrite <- H, drop_drop. f_equal. lia. }
  split_and!; [done|now rewrite current_rest, H|done| |].
  - assert (Hl := f_equal length H). unfold rest in Hl. rewrite length_drop in Hl.
    unfold lookahead. cbn [length] in Hl.
    assert (Hc : char_at (source_ l) (pos_ l + 1) = head_byte r).
    { unfold head_byte. rewrite <- (char_at_drop (source_ l) (pos_ l) 1).
      unfold rest in H. now rewrite H. }
    rewrite Hc. destruct r; cbn [length] in Hl.
    + now rewrite (proj2 (Nat.ltb_ge _ _)) by lia.
    + now rewrite (proj2 (Nat.ltb_lt _ _)) by lia.
  - destruct (advances_advance l E) as [Hm Hlt].
    destruct (advance_fields l) as (Es & _ & _ & _ & Ep). rewrite E in Ep.
    apply eof_false in E. unfold left in *. rewrite Es, Ep in *. lia.
Qed.

(** Consuming a prefix of the rest. *)
Lemma rest_advanceN l s r : rest l = s ++ r -> rest (advanceN (length s) l) = r.
Proof.
  revert l. induction s as [|c s IH]; intros l H; [done|].
  cbn [length]. unfold advanceN. rewrite Nat.iter_succ_r. apply IH.
  now apply rest_cons in H as (_ & _ & H & _).
Qed.

Lemma symbolCharLength_rest l :
  symbolCharLength (source_ l) (pos_ l) = symbolCharLength (rest l) 0.
Proof.
  unfold symbolCharLength, rest. rewrite char_at_drop, Nat.add_0_r.
  rewrite (decodeUtf8_drop (source_ l) (pos_ l)). done.
Qed.

(** No blank, comment or end of file at the current position. *)
Definition startsToken (s : bytes) : bool :=
  match s with
  | [] => false
  | c :: r =>
      negb (is_blank c) && negb (c =? ";")%byte &&
      negb ((c =? "#")%byte && (head_byte r =? "!")%byte)
  end.

Lemma skip_id l : startsToken (rest l) = true -> skipWhitespaceAndComments l = l.
Proof.
  intros H. unfold skipWhitespaceAndComments, fuel. rewrite while_S.
  destruct (rest l) as [|c r] eqn:E; [done|]. apply rest_cons in E as (E & Ec & _ & El & _).
  unfold blankStep. rewrite E, Ec, El. cbn zeta.
  cbn [startsToken] in H. rewrite !andb_true_iff, !negb_true_iff in H.
  destruct H as [[-> ->] ->]. done.
Qed.

(** [next] at the start of a token. *)
Lemma next_token l : hasPeek_ l = false -> startsToken (rest l) = true ->
  fst (next l) = fst (lexToken false l) /\
  rest (snd (next l)) = rest (snd (lexToken false l)) /\
  hasPeek_ (snd (next l)) = false /\
  prevReturnedKind_ (snd (next l)) = kind (fst (lexToken false l)).
Proof.
  intros Hp Hs. unfold next, nextImpl_. rewrite Hp. cbn zeta. rewrite skip_id by done.
  destruct (rest l) as [|c r] eqn:E; [done|]. apply rest_cons in E as (E & _).
  rewrite E, Nat.eqb_refl. cbn [negb].
  pose proof (lexToken_advances false l E) as [Hm _].
  destruct (lexToken false l) as [t l']. cbn in *.
  apply moves_fields in Hm as (_ & -> & _). done.
Qed.

(** ** Runs of one-byte characters *)

Section TakeRun.
Context (len : bytes -> lexer -> nat) (p : byte -> bool).
Hypothesis len_p : forall name l, len name l = if p (current l) then 1%nat else 0%nat.

Lemma take_run n s tail l name :
  rest l = s ++ tail -> Forall (fun c => p c = true) s ->
  (tail = [] \/ p (head_byte tail) = false) -> (left l < n)%nat ->
  exists l', while n (takeStep len) (l, name) = (l', name ++ s) /\ rest l' = tail /\ moves l l'.
Proof.
  revert s l name. induction n as [|n IH]; intros s l name Hr Hs Ht Hn; [lia|].
  rewrite while_S. destruct s as [|c s].
  - exists l. rewrite app_nil_r. cbn in Hr. unfold takeStep.
    destruct (eof l) eqn:E; [split_and!; [done|done|apply moves_refl]|].
    cbn zeta. rewrite len_p, current_rest, Hr.
    destruct Ht as [->|Hp].
    + apply rest_nil in Hr. congruence.
    + rewrite Hp. split_and!; [done|done|apply moves_refl].
  - inversion_clear Hs as [|? ? Hc Hs']. cbn [app] in Hr.
    pose proof (rest_cons _ _ _ Hr) as (E & Ec & Ha & _ & Hl).
    unfold takeStep at 1. rewrite E. cbn zeta. rewrite len_p, Ec, Hc. cbn [Nat.eqb].
    unfold rest in Hr. rewrite Hr. cbn [take]. rewrite take_0.
    destruct (IH s (advance l) (name ++ [c]) Ha Hs' Ht ltac:(lia)) as (l' & Hw & Hl' & Hm).
    exists l'. change (advanceN 1 l) with (advance l). rewrite Hw, <- app_assoc.
    split_and!; [done|done|]. eapply moves_trans; [apply moves_advance|exact Hm].
Qed.

End TakeRun.

Lemma takeDigits_run s tail l name :
  rest l = s ++ tail -> Forall (fun c => is_digit c = true) s ->
  (tail = [] \/ is_digit (head_byte tail) = false) ->
  exists l', takeDigits l name = (l', name ++ s) /\ rest l' = tail /\ moves l l'.
Proof.
  intros. unfold takeDigits, takeChars.
  apply (take_run digitLen is_digit); try done. unfold left, fuel. lia.
Qed.

(** ** Integer literals *)

(** What may follow a number: the end of the text, or a byte that neither
    continues it nor makes it malformed. *)
Definition endsNumber (tail : bytes) : bool :=
  match tail with
  | [] => true
  | c :: _ => (u8 c <? 0x80) && negb (is_alnum c) && negb (c =? "_")%byte && negb (c =? ".")%byte
  end.

Lemma is_alnum_digit c : is_alnum c = false -> is_digit c = false.
Proof. unfold is_alnum. now intros [? _]%orb_false_iff. Qed.

Lemma lexNumber_integer (negative : bool) ds tail l :
  rest l = ds ++ tail -> Forall (fun c => is_digit c = true) ds -> endsNumber tail = true ->
  let digits := (if negative then ["-"%byte] else []) ++ ds in
  let v := signed_value digits in
  let '(t, l') := lexNumber negative l in
  t = mkToken Integer digits (if fits_llong v then v else 0) (fits_llong v) 0
        (line_ l) (column_ l) /\ rest l' = tail.
Proof.
  intros Hr Hds Ht. cbn zeta. unfold lexNumber. cbn zeta.
  assert (Hd : tail = [] \/ is_digit (head_byte tail) = false).
  { destruct tail as [|c tail]; [auto|]. right. cbn in Ht. unfold head_byte. cbn.
    rewrite !andb_true_iff, !negb_true_iff in Ht. now apply is_alnum_digit. }
  destruct (takeDigits_run ds tail l (if negative then ["-"%byte] else []) Hr Hds Hd)
    as (l1 & -> & H1 & _).
  assert (Hstop : eof l1 = true \/
    eof l1 = false /\ u8 (current l1) < 0x80 /\ is_alnum (current l1) = false /\
    (current l1 =? "_")%byte = false /\ (current l1 =? ".")%byte = false).
  { destruct tail as [|c tail]; [left; now apply rest_nil|]. right.
    apply rest_cons in H1 as (-> & -> & _). cbn in Ht.
    rewrite !andb_true_iff, !negb_true_iff, Z.ltb_lt in Ht. tauto. }
  assert (Halpha : forall c, is_alnum c = false ->
    (c =? "e")%byte = false /\ (c =? "E")%byte = false /\ (c =? "N")%byte = false).
  { intros c Hc. repeat split; (byte_case; [vm_compute in Hc; congruence|done]). }
  destruct Hstop as [E|(E & Hlt & Hal & Hus & Hdot)].
  - unfold lexFraction. rewrite E. cbn [negb andb]. unfold lexExponent. rewrite E. cbn [negb andb].
    rewrite E. cbn [negb andb]. rewrite E. cbn [negb andb]. split; [done|exact H1].
  - destruct (Halpha _ Hal) as (He & HE & HN).
    unfold lexFraction. rewrite E, Hdot. cbn [negb andb].
    unfold lexExponent. rewrite E, He, HE. cbn [negb andb orb]. rewrite HN. cbn [andb].
    rewrite andb_false_r. unfold trailLength. cbn zeta. rewrite E, Hal, Hus, Hdot.
    rewrite (proj2 (Z.leb_gt _ _)) by done. cbn [orb negb andb Nat.eqb].
    split; [done|exact H1].
Qed.

Lemma startsToken_digit c r : is_digit c = true -> startsToken (c :: r) = true.
Proof.
  intros H. assert (Hb : is_blank c || (c =? ";")%byte || (c =? "#")%byte = false).
  { destruct (is_blank c || _ || _) eqn:E; [|done].
    assert (Hn : negb (is_digit c && (is_blank c || (c =? ";")%byte || (c =? "#")%byte)) = true)
      by (clear; by_bytes c).
    rewrite H, E in Hn. done. }
  rewrite !orb_false_iff in Hb. destruct Hb as [[Hb1 Hb2] Hb3].
  cbn [startsToken]. rewrite Hb1, Hb2, Hb3. done.
Qed.

Lemma digit_token c : is_digit c = true ->
  singlePunct c = None /\ (c =? quoteByte)%byte = false.
Proof.
  intros H.
  assert (Hn : negb (is_digit c) || (bool_decide (singlePunct c = None) && negb (c =? quoteByte)%byte) = true)
    by (clear; by_bytes c).
  rewrite H in Hn. cbn [negb orb] in Hn. rewrite andb_true_iff, negb_true_iff in Hn.
  now rewrite bool_decide_eq_true in Hn.
Qed.

(** ** Properties: integer literals *)

(** The decimal spelling of any integer [z], followed by the end of the text
    or by a byte that does not continue a number, lexes to an Integer token that
    spells it: [fitsLong] says whether [z] is in the range of [long long], the
    value is then [z] itself, and the text keeps all its digits when it is not.
    A negative number needs a position where [-] is a sign: the previous token
    does not end an operand. *)
Theorem next_integer z tail l :
  hasPeek_ l = false -> rest l = to_string z ++ tail -> endsNumber tail = true ->
  (z < 0 -> prevEndsOperand l = false) ->
  let '(t, l') := next l in
  kind t = Integer /\ text t = to_string z /\ fitsLong t = fits_llong z /\
  (fits_llong z = true -> intValue t = z) /\ rest l' = tail.
Proof.
  intros Hp Hr Ht Hneg.
  destruct (dec_digits_cons (Z.abs z)) as (c & ds & Ed).
  pose proof (dec_digits_digits (Z.abs z) (Z.abs_nonneg z)) as Hds. rewrite Ed in Hds.
  inversion_clear Hds as [|? ? Hc Hds'].
  pose proof (digit_token c Hc) as [Hc1 Hc2].
  assert (Hlex : startsToken (rest l) = true /\
    lexToken false l = lexNumber (z <? 0) (if z <? 0 then advance l else l) /\
    rest (if z <? 0 then advance l else l) = c :: ds ++ tail /\
    to_string z = (if z <? 0 then ["-"%byte] else []) ++ c :: ds).
  { unfold to_string in *. destruct (Z.ltb_spec z 0) as [Hz|Hz].
    - rewrite Z.abs_neq in Ed by lia. rewrite Ed in *. cbn [app] in Hr.
      pose proof (rest_cons _ _ _ Hr) as (E & Ec & Ha & El & _).
      split_and!; [|unfold lexToken|exact Ha|done].
      + rewrite Hr. done.
      + rewrite Ec, El. cbn [head_byte char_at nth]. unfold head_byte, char_at. cbn [nth].
        rewrite Hc, (Hneg Hz). done.
    - rewrite Z.abs_eq in Ed by lia. rewrite Ed in *. cbn [app] in Hr.
      pose proof (rest_cons _ _ _ Hr) as (E & Ec & _).
      split_and!; [|unfold lexToken|exact Hr|done].
      + rewrite Hr. now apply startsToken_digit.
      + rewrite Ec. cbn zeta. rewrite Hc1, Hc2, Hc. done. }
  destruct Hlex as (Hs & Hlex & Hr' & Hz).
  pose proof (next_token l Hp Hs) as (Ht1 & Hr1 & _). rewrite Hlex in Ht1, Hr1.
  pose proof (lexNumber_integer (z <? 0) (c :: ds) tail _ Hr' ltac:(by constructor) Ht) as H.
  rewrite <- Hz in H. cbn zeta in H. rewrite to_string_value in H.
  destruct (next l) as [t l'], (lexNumber _ _) as [t' l'']. cbn [fst snd] in *.
  destruct H as [-> H]. subst t. cbn. split_and!; try done; [|congruence].
  intros ->. done.
Qed.

Example next_integer_witness :
  rest (newLexer (s2b "-9223372036854775809)")) = to_string (-9223372036854775809) ++ s2b ")" /\
  let '(t, l') := next (newLexer (s2b "-9223372036854775809)")) in
  kind t = Integer /\ text t = to_string (-9223372036854775809) /\
  fitsLong t = fits_llong (-9223372036854775809) /\
  (fits_llong (-9223372036854775809) = true -> intValue t = -9223372036854775809) /\
  rest l' = s2b ")".
Proof.
  split; [vm_compute; reflexivity|].
  refine (next_integer (-9223372036854775809) (s2b ")")
            (newLexer (s2b "-9223372036854775809)")) eq_refl _ eq_refl (fun _ => eq_refl)).
  vm_compute. reflexivity.
Defined.
