(* ===== verification/ActorScheduler.v ===== *)
(** The actor scheduler (runtime/ActorScheduler.h, runtime/ActorScheduler.cpp;
    [deliverPromise], [sendCore] and [prim_actor] of runtime/Primitives.cpp).

    Threads are program counters: a worker is where [workerLoop] and
    [popReady_] can be interrupted, a sender is where [send] can be. One label
    of [exec] is one atomic access to shared state. The store that drops a
    claim goes through the worker's store buffer, as the machine the code runs
    on may delay it; [fenced] says whether the loads that follow it wait for
    the buffer to drain (the sequentially consistent reading of the code) or
    not (what [memory_order_release] asks for). The mailboxes, the promises and
    the evaluator are protoCore's and the engine's: parameters with laws. *)

From stdpp Require Import functions.
From S2P Require Import Prelude.

(** ** What the scheduler uses *)

(** [ProtoMPSCQueue]. [contents] is the abstract value the laws speak of. *)
Class MPSCQueue (msg Q : Type) := {
  contents : Q -> list msg;
  newMPSCQueue : Q;
  push : msg -> Q -> Q;
  takeAll : Q -> list msg * Q;
  isEmpty : Q -> bool;
}.

Class MPSCQueueLaws (msg Q : Type) `{MPSCQueue msg Q} := {
  contents_new : contents newMPSCQueue = [];
  contents_push m q : contents (push m q) = contents q ++ [m];
  takeAll_batch q : fst (takeAll q) = contents q;
  takeAll_left q : contents (snd (takeAll q)) = [];
  isEmpty_contents q : isEmpty q = true <-> contents q = [];
}.

(** The value attribute of mutable objects, as [deliverPromise] uses it. *)
Class AttributeCells (obj val S : Type) := {
  getAttribute : S -> obj -> option val;
  setAttributeIfEqual : S -> obj -> option val -> val -> bool * S;
}.

Class AttributeCellsLaws (obj val S : Type) `{AttributeCells obj val S} := {
  set_if_equal s o v :
    getAttribute s o = None ->
    fst (setAttributeIfEqual s o None v) = true /\
    getAttribute (snd (setAttributeIfEqual s o None v)) o = Some v;
  set_if_other s o v v' :
    getAttribute s o = Some v' ->
    fst (setAttributeIfEqual s o None v) = false /\
    getAttribute (snd (setAttributeIfEqual s o None v)) o = Some v';
  set_if_frame s o o' v :
    o' <> o ->
    getAttribute (snd (setAttributeIfEqual s o None v)) o' = getAttribute s o';
}.

(** Both interfaces have the obvious implementations. *)
#[export] Instance list_queue msg : MPSCQueue msg (list msg) := {
  contents q := q;
  newMPSCQueue := [];
  push m q := q ++ [m];
  takeAll q := (q, []);
  isEmpty q := match q with [] => true | _ => false end;
}.

#[export] Instance list_queue_laws msg : MPSCQueueLaws msg (list msg).
Proof. split; try done. intros []; split; done. Qed.

#[export] Instance assoc_cells val : AttributeCells nat val (gmap nat val) := {
  getAttribute s o := s !! o;
  setAttributeIfEqual s o expected v :=
    match s !! o, expected with
    | None, None => (true, <[o := v]> s)
    | _, _ => (false, s)
    end;
}.

#[export] Instance assoc_cells_laws val : AttributeCellsLaws nat val (gmap nat val).
Proof.
  split; cbn.
  - intros s o v ->. split; [done|]. apply lookup_insert_eq.
  - intros s o v v' E. rewrite E. done.
  - intros s o o' v Hne. destruct (s !! o); cbn; [done|]. by apply lookup_insert_ne.
Qed.

(** ** [configuredWorkerCount] *)

Definition is_space (c : byte) : bool := in_range x09 c x0d || (c =? " ")%byte.

Fixpoint skip_spaces (s : bytes) : bytes :=
  match s with c :: r => if is_space c then skip_spaces r else s | [] => [] end.

Fixpoint leading_digits (s : bytes) : bytes :=
  match s with c :: r => if is_digit c then c :: leading_digits r else [] | [] => [] end.

(** [std::atoi] *)
Definition atoi (s : bytes) : Z :=
  match skip_spaces s with
  | c :: r =>
      if (c =? "-")%byte then - digits_value (leading_digits r)
      else if (c =? "+")%byte then digits_value (leading_digits r)
      else digits_value (leading_digits (c :: r))
  | [] => 0
  end.

Definition hardwareWorkers (hc : Z) : Z :=
  let hc := if hc =? 0 then 4 else hc in
  let n := if 2 <? hc then hc - 2 else 2 in
  if 16 <? n then 16 else n.

(** [hc] is [std::thread::hardware_concurrency()]. *)
Definition configuredWorkerCount (env : option bytes) (hc : Z) : Z :=
  match env with
  | Some (c :: s) =>
      let n := atoi (c :: s) in
      if (1 <=? n) && (n <=? 64) then n else hardwareWorkers hc
  | _ => hardwareWorkers hc
  end.

(** ** State *)

Inductive ActorPriority := High | Medium | Low.

#[export] Instance priority_eq_decision : EqDecision ActorPriority.
Proof. solve_decision. Defined.

Definition nextBand (b : ActorPriority) : option ActorPriority :=
  match b with High => Some Medium | Medium => Some Low | Low => None end.

Section Scheduler.

Context {val obj cells Q : Type}.

(** A message: [kFn], [kArgs] (no arguments are the nil of [newMessage]) and
    [kPromise]. *)
Record message := Message {
  kFn : val;
  kArgs : option (list val);
  kPromise : option obj;
}.

Context `{MPSCQueue message Q} `{AttributeCells obj (list val) cells} `{EqDecision obj}.

(** [PROTO_NONE] *)
Context (none : val).

Definition newMessage (fn : option val) (args : option (list val)) (promise : option obj)
  : message :=
  Message (default none fn) args promise.

(** [sendCore] packs its extra arguments when it has any. *)
Definition packExtras (args : list val) : option (list val) :=
  match args with [] => None | _ => Some args end.

Definition sendMessage (f : val) (args : list val) (p : obj) : message :=
  newMessage (Some f) (packExtras args) (Some p).

Record ActorState := mkActor {
  mailbox : ActorPriority -> Q;
  claimed : bool;
  value : val;
  published : val;            (* [__value__] of the wrapper *)
}.

(** Where a worker is. *)
Inductive point :=
| AtPop                                            (* popReady_, the locked block *)
| AtWait                                           (* popReady_, before the wait *)
| Waiting                                          (* the predicate was false; still locked *)
| Asleep                                           (* blocked in queueCv_ *)
| AtTake (a : nat) (band : ActorPriority) (got : list (ActorPriority * message))
| AtBatch (a : nat) (todo : list (ActorPriority * message))
| AtRelease (a : nat)                              (* before claimed.store(false) *)
| AtCheck (a : nat) (band : ActorPriority)         (* anyMailboxPending *)
| AtReclaim (a : nat)                              (* before its CAS *)
| AtPick (a : nat) (band : ActorPriority)          (* highestPendingBand *)
| AtEnqueue (a : nat) (band : ActorPriority)       (* before enqueueReady_ *)
| Exited.

Record worker := mkWorker { pc : point; buffered : option nat }.

Inductive sender :=
| Pushed (a : nat) (band : ActorPriority)          (* before its CAS *)
| Claimed (a : nat) (band : ActorPriority).        (* before enqueueReady_ *)

(** Where [shutdown] is. *)
Inductive mainPoint := Running | AtNotify | AtJoin | Joined.

Record scheduler := mkScheduler {
  owners_ : list ActorState;
  ready_ : ActorPriority -> list nat;
  shuttingDown_ : bool;
  workers_ : list worker;
  senders : list sender;
  promises : cells;
  messagesProcessed_ : Z;
  main : mainPoint;
}.

(** What a run observes: an actor with its initial state, a message entering a mailbox, and a handler's call
    with the arguments it was given and its outcome ([None]: it threw). *)
Inductive event :=
| Created (a : nat) (init : val)
| Sent (a : nat) (band : ActorPriority) (m : message)
| Handled (a : nat) (band : ActorPriority) (m : message) (args : list val)
          (outcome : option val).

Inductive label :=
| NewActor (init : val)
| Send (a : nat) (band : ActorPriority) (m : message)   (* send: the push *)
| SenderStep (i : nat) (wakes : option nat)             (* send: the CAS, then the enqueue *)
| WorkerStep (w : nat) (outcome : option val) (wakes : option nat)
| Flush (w : nat)                                       (* a buffered store reaches memory *)
| Spurious (w : nat)                                    (* a spurious wake-up *)
| MainStep.                                             (* shutdown *)

(** ** Updates *)

Definition set_owners (f : list ActorState -> list ActorState) (s : scheduler) : scheduler :=
  mkScheduler (f (owners_ s)) (ready_ s) (shuttingDown_ s) (workers_ s) (senders s)
    (promises s) (messagesProcessed_ s) (main s).
Definition set_ready (f : (ActorPriority -> list nat) -> ActorPriority -> list nat)
    (s : scheduler) : scheduler :=
  mkScheduler (owners_ s) (f (ready_ s)) (shuttingDown_ s) (workers_ s) (senders s)
    (promises s) (messagesProcessed_ s) (main s).
Definition set_workers (f : list worker -> list worker) (s : scheduler) : scheduler :=
  mkScheduler (owners_ s) (ready_ s) (shuttingDown_ s) (f (workers_ s)) (senders s)
    (promises s) (messagesProcessed_ s) (main s).
Definition set_senders (f : list sender -> list sender) (s : scheduler) : scheduler :=
  mkScheduler (owners_ s) (ready_ s) (shuttingDown_ s) (workers_ s) (f (senders s))
    (promises s) (messagesProcessed_ s) (main s).

Definition set_actor (a : nat) (f : ActorState -> ActorState) : scheduler -> scheduler :=
  set_owners (alter f a).
Definition set_worker (w : nat) (x : worker) : scheduler -> scheduler :=
  set_workers (fun ws => <[w := x]> ws).
Definition goto (w : nat) (p : point) : scheduler -> scheduler :=
  set_workers (alter (fun x => mkWorker p (buffered x)) w).

Definition set_claimed (b : bool) (st : ActorState) : ActorState :=
  mkActor (mailbox st) b (value st) (published st).
Definition set_value (v : val) (st : ActorState) : ActorState :=
  mkActor (mailbox st) (claimed st) v v.
Definition set_mailbox (b : ActorPriority) (q : Q) (st : ActorState) : ActorState :=
  mkActor (<[b := q]> (mailbox st)) (claimed st) (value st) (published st).
Definition published_promises (f : cells -> cells) (s : scheduler) : scheduler :=
  mkScheduler (owners_ s) (ready_ s) (shuttingDown_ s) (workers_ s) (senders s)
    (f (promises s)) (messagesProcessed_ s + 1) (main s).
Definition set_main (down : bool) (m : mainPoint) (s : scheduler) : scheduler :=
  mkScheduler (owners_ s) (ready_ s) down (workers_ s) (senders s)
    (promises s) (messagesProcessed_ s) m.

(** ** Operations *)

Definition newActor (init : val) : scheduler -> scheduler :=
  set_owners (fun l => l ++ [mkActor (fun _ => newMPSCQueue) false init init]).

(** [queueMtx_] is held across a step only by a worker between the predicate
    of its wait and the wait itself. *)
Definition holds_lock (x : worker) : bool :=
  match pc x with Waiting => true | _ => false end.
Definition lock_free (s : scheduler) : bool := negb (existsb holds_lock (workers_ s)).

Definition is_asleep (x : worker) : bool :=
  match pc x with Asleep => true | _ => false end.

(** [notify_one] wakes one waiter when there is one; [wakes] is the choice. *)
Definition notify_one (wakes : option nat) (s : scheduler) : option scheduler :=
  match wakes with
  | Some w =>
      x ← workers_ s !! w;
      if is_asleep x then Some (goto w AtWait s) else None
  | None => if existsb is_asleep (workers_ s) then None else Some s
  end.

Definition notify_all : scheduler -> scheduler :=
  set_workers (map (fun x => if is_asleep x then mkWorker AtWait (buffered x) else x)).

Definition enqueueReady_ (a : nat) (p : ActorPriority) (wakes : option nat) (s : scheduler)
  : option scheduler :=
  if lock_free s
  then notify_one wakes (set_ready (fun r => <[p := r p ++ [a]]> r) s)
  else None.

(** The push of [send]. *)
Definition sendPush (a : nat) (band : ActorPriority) (m : message) (s : scheduler)
  : option scheduler :=
  st ← owners_ s !! a;
  Some (set_senders (fun l => l ++ [Pushed a band])
          (set_actor a (set_mailbox band (push m (mailbox st band))) s)).

(** The rest of [send]: the compare-and-exchange, then the insertion. *)
Definition senderStep (i : nat) (wakes : option nat) (s : scheduler) : option scheduler :=
  x ← senders s !! i;
  match x with
  | Pushed a band =>
      st ← owners_ s !! a;
      Some (if claimed st then set_senders (delete i) s
            else set_senders (fun l => <[i := Claimed a band]> l)
                   (set_actor a (set_claimed true) s))
  | Claimed a band => set_senders (delete i) <$> enqueueReady_ a band wakes s
  end.

(** The scan of [popReady_]: the front of the highest non-empty band. *)
Definition popBand (p : ActorPriority) (r : ActorPriority -> list nat)
  : option (nat * (ActorPriority -> list nat)) :=
  match r p with a :: q => Some (a, <[p := q]> r) | [] => None end.

Definition popHighest (r : ActorPriority -> list nat)
  : option (nat * (ActorPriority -> list nat)) :=
  match popBand High r with
  | Some x => Some x
  | None =>
      match popBand Medium r with
      | Some x => Some x
      | None => popBand Low r
      end
  end.

Definition popReady_ (w : nat) (s : scheduler) : scheduler :=
  match popHighest (ready_ s) with
  | Some (a, r) => goto w (AtTake a High []) (set_ready (fun _ => r) s)
  | None => if shuttingDown_ s then goto w Exited s else goto w AtWait s
  end.

(** The predicate of the wait. *)
Definition waitIsOver (s : scheduler) : bool :=
  shuttingDown_ s || match popHighest (ready_ s) with Some _ => true | None => false end.

Definition callArguments (v : val) (m : message) : list val :=
  v :: take 15 (default [] (kArgs m)).

Definition deliverPromise (promise : obj) (v : val) (c : cells) : bool * cells :=
  setAttributeIfEqual c promise None [v].

Definition deliverTo (promise : option obj) (v : val) (c : cells) : cells :=
  match promise with Some p => snd (deliverPromise p v c) | None => c end.

(** One message of a turn. The evaluator answers [outcome]. *)
Definition handle (a : nat) (m : message) (outcome : option val) (s : scheduler) : scheduler :=
  let result := default none outcome in
  published_promises (deliverTo (kPromise m) result) (set_actor a (set_value result) s).

Definition is_flushed (x : worker) : bool :=
  match buffered x with None => true | Some _ => false end.

(** One step of a worker. An access that locks or exchanges needs the store
    buffer to be empty. *)
Definition workerStep (fenced : bool) (w : nat) (outcome : option val) (wakes : option nat)
    (s : scheduler) : option (scheduler * list event) :=
  x ← workers_ s !! w;
  match pc x with
  | AtPop => if lock_free s && is_flushed x then Some (popReady_ w s, []) else None
  | AtWait =>
      if lock_free s && is_flushed x
      then Some (goto w (if waitIsOver s then AtPop else Waiting) s, [])
      else None
  | Waiting => Some (goto w Asleep s, [])
  | Asleep | Exited => None
  | AtTake a band got =>
      st ← owners_ s !! a;
      let '(batch, q) := takeAll (mailbox st band) in
      let got := got ++ map (pair band) batch in
      Some (goto w (match nextBand band with
                    | Some band' => AtTake a band' got
                    | None => AtBatch a got
                    end) (set_actor a (set_mailbox band q) s), [])
  | AtBatch a [] => Some (goto w (AtRelease a) s, [])
  | AtBatch a ((band, m) :: todo) =>
      st ← owners_ s !! a;
      Some (goto w (AtBatch a todo) (handle a m outcome s),
            [Handled a band m (callArguments (value st) m) outcome])
  | AtRelease a => Some (set_worker w (mkWorker (AtCheck a High) (Some a)) s, [])
  | AtCheck a band =>
      if negb fenced || is_flushed x then
        st ← owners_ s !! a;
        Some (goto w (if isEmpty (mailbox st band)
                      then match nextBand band with
                           | Some band' => AtCheck a band'
                           | None => AtPop
                           end
                      else AtReclaim a) s, [])
      else None
  | AtReclaim a =>
      if is_flushed x then
        st ← owners_ s !! a;
        Some (if claimed st then goto w AtPop s
              else goto w (AtPick a High) (set_actor a (set_claimed true) s), [])
      else None
  | AtPick a band =>
      st ← owners_ s !! a;
      Some (goto w (if isEmpty (mailbox st band)
                    then match band with
                         | High => AtPick a Medium
                         | _ => AtEnqueue a Low
                         end
                    else AtEnqueue a band) s, [])
  | AtEnqueue a p => s' ← enqueueReady_ a p wakes (goto w AtPop s); Some (s', [])
  end.

(** The buffered [claimed.store(false)] reaches memory. *)
Definition flush (w : nat) (s : scheduler) : option scheduler :=
  x ← workers_ s !! w;
  a ← buffered x;
  Some (set_worker w (mkWorker (pc x) None) (set_actor a (set_claimed false) s)).

Definition spurious (w : nat) (s : scheduler) : option scheduler :=
  x ← workers_ s !! w;
  if is_asleep x then Some (goto w AtWait s) else None.

Definition has_exited (x : worker) : bool :=
  match pc x with Exited => true | _ => false end.

(** [shutdown]: the flag, [notify_all], the joins. *)
Definition shutdown (s : scheduler) : option scheduler :=
  match main s with
  | Running => Some (set_main true AtNotify s)
  | AtNotify => Some (set_main true AtJoin (notify_all s))
  | AtJoin =>
      if forallb has_exited (workers_ s)
      then Some (set_workers (fun _ => []) (set_main true Joined s))
      else None
  | Joined => None
  end.

Definition quietly (r : option scheduler) : option (scheduler * list event) :=
  s ← r; Some (s, []).

Definition exec (fenced : bool) (l : label) (s : scheduler)
  : option (scheduler * list event) :=
  match l with
  | NewActor init => Some (newActor init s, [Created (length (owners_ s)) init])
  | Send a band m => s' ← sendPush a band m s; Some (s', [Sent a band m])
  | SenderStep i wakes => quietly (senderStep i wakes s)
  | WorkerStep w outcome wakes => workerStep fenced w outcome wakes s
  | Flush w => quietly (flush w s)
  | Spurious w => quietly (spurious w s)
  | MainStep => quietly (shutdown s)
  end.

(** [ensureStarted] with [n] workers. *)
Definition started (n : nat) (c : cells) : scheduler :=
  mkScheduler [] (fun _ => []) false (replicate n (mkWorker AtPop None)) [] c 0 Running.

Fixpoint run (fenced : bool) (ls : list label) (s : scheduler)
  : option (scheduler * list event) :=
  match ls with
  | [] => Some (s, [])
  | l :: ls =>
      '(s1, e1) ← exec fenced l s;
      '(s2, e2) ← run fenced ls s1;
      Some (s2, e1 ++ e2)
  end.

(** The reachable states, each with the events that led to it. *)
Inductive reach (fenced : bool) (n : nat) (c : cells) : scheduler -> list event -> Prop :=
| reach_started : reach fenced n c (started n c) []
| reach_exec l s tr s' e :
    reach fenced n c s tr -> exec fenced l s = Some (s', e) -> reach fenced n c s' (tr ++ e).

(** ** Who holds an actor

    [tokens s] lists, with repetitions, the actors that something holds: the
    ready queues, a sender that won the claim, a worker in the middle of a turn
    or of a re-enqueue, a store that has not reached memory. *)

Definition point_tokens (p : point) : list nat :=
  match p with
  | AtTake a _ _ | AtBatch a _ | AtRelease a | AtPick a _ | AtEnqueue a _ => [a]
  | _ => []
  end.
Definition worker_tokens (x : worker) : list nat :=
  point_tokens (pc x) ++ match buffered x with Some a => [a] | None => [] end.
Definition sender_tokens (x : sender) : list nat :=
  match x with Claimed a _ => [a] | Pushed _ _ => [] end.
Definition ready_tokens (r : ActorPriority -> list nat) : list nat :=
  r High ++ r Medium ++ r Low.
Definition tokens (s : scheduler) : list nat :=
  flat_map worker_tokens (workers_ s) ++ flat_map sender_tokens (senders s)
    ++ ready_tokens (ready_ s).

(** The messages of a turn that are still to be handled. *)
Definition turn_of (a : nat) (x : worker) : list (ActorPriority * message) :=
  match pc x with
  | AtTake a' _ got => if decide (a' = a) then got else []
  | AtBatch a' todo => if decide (a' = a) then todo else []
  | _ => []
  end.
Definition turn (s : scheduler) (a : nat) : list (ActorPriority * message) :=
  flat_map (turn_of a) (workers_ s).

Definition in_band (b : ActorPriority) (l : list (ActorPriority * message)) : list message :=
  omap (fun '(b', m) => if decide (b' = b) then Some m else None) l.

Definition sent (a : nat) (b : ActorPriority) (tr : list event) : list message :=
  omap (fun e => match e with
                 | Sent a' b' m => if decide (a' = a /\ b' = b) then Some m else None
                 | _ => None
                 end) tr.
Definition handled (a : nat) (b : ActorPriority) (tr : list event) : list message :=
  omap (fun e => match e with
                 | Handled a' b' m _ _ => if decide (a' = a /\ b' = b) then Some m else None
                 | _ => None
                 end) tr.

(** The actor's state as its handlers, one after another, make it. *)
Definition replay (a : nat) (tr : list event) : option val :=
  fold_left (fun v e =>
    match e with
    | Created a' init => if decide (a' = a) then Some init else v
    | Handled a' _ _ _ outcome => if decide (a' = a) then Some (default none outcome) else v
    | Sent _ _ _ => v
    end) tr None.

(** How many hold the actor [a], and how many may: one exactly when it is
    claimed. *)
Definition count (a : nat) (l : list nat) : nat := count_occ Nat.eq_dec l a.
#[local] Arguments count : simpl never.
Definition held (s : scheduler) (a : nat) : nat := count a (tokens s).
Definition claims (s : scheduler) (a : nat) : nat :=
  match owners_ s !! a with Some st => Nat.b2n (claimed st) | None => 0 end.
Definition ownership (s : scheduler) : Prop := forall a, held s a = claims s a.

(** ** How the updates move the holders *)

Lemma count_app a l k : count a (l ++ k) = (count a l + count a k)%nat.
Proof. apply count_occ_app. Qed.

Lemma held_split s a :
  held s a = (count a (flat_map worker_tokens (workers_ s))
              + count a (flat_map sender_tokens (senders s))
              + count a (ready_ s High) + count a (ready_ s Medium)
              + count a (ready_ s Low))%nat.
Proof. unfold held, tokens, ready_tokens. rewrite !count_app. lia. Qed.

Lemma count_insert {A} (f : A -> list nat) a l i x y :
  l !! i = Some x ->
  (count a (flat_map f (<[i := y]> l)) + count a (f x)
   = count a (flat_map f l) + count a (f y))%nat.
Proof.
  revert i. induction l as [|z l IH]; intros [|i]; cbn; try done.
  - intros [= ->]. rewrite !count_app. lia.
  - intros E. specialize (IH _ E). rewrite !count_app. unfold insert, delete in *. lia.
Qed.

Lemma count_delete {A} (f : A -> list nat) a l i x :
  l !! i = Some x ->
  (count a (flat_map f (delete i l)) + count a (f x) = count a (flat_map f l))%nat.
Proof.
  revert i. induction l as [|z l IH]; intros [|i]; cbn; try done.
  - intros [= ->]. rewrite !count_app. lia.
  - intros E. specialize (IH _ E). rewrite !count_app. unfold insert, delete in *. lia.
Qed.

Lemma count_single a b : count a [b] = (if decide (b = a) then 1 else 0)%nat.
Proof.
  unfold count. cbn. destruct (Nat.eq_dec b a), (decide (b = a)); congruence.
Qed.

Lemma alter_some {A} (f : A -> A) (l : list A) (i : nat) x : l !! i = Some x -> alter f i l = <[i := f x]> l.
Proof.
  revert i. induction l as [|z l IH]; intros [|i]; cbn; try done.
  - now intros [= ->].
  - intros E. f_equal. now apply IH.
Qed.

Lemma workers_goto w p s x : workers_ s !! w = Some x ->
  workers_ (goto w p s) = <[w := mkWorker p (buffered x)]> (workers_ s).
Proof. intros E. cbn. now rewrite (alter_some _ _ _ _ E). Qed.

Lemma held_goto w p s x a : workers_ s !! w = Some x ->
  (held (goto w p s) a + count a (point_tokens (pc x))
   = held s a + count a (point_tokens p))%nat.
Proof.
  intros E. rewrite !held_split, (workers_goto _ _ _ _ E). cbn [senders ready_ goto set_workers].
  pose proof (count_insert worker_tokens a _ _ _ (mkWorker p (buffered x)) E) as H1.
  unfold worker_tokens in H1 at 2 4. cbn [pc buffered] in H1. rewrite !count_app in H1. lia.
Qed.

Lemma held_set_worker w y s x a : workers_ s !! w = Some x ->
  (held (set_worker w y s) a + count a (worker_tokens x)
   = held s a + count a (worker_tokens y))%nat.
Proof.
  intros E. rewrite !held_split. cbn [senders ready_ workers_ set_worker set_workers].
  pose proof (count_insert worker_tokens a _ _ _ y E). lia.
Qed.

Lemma held_ready_push p b s a :
  (held (set_ready (fun r => <[p := r p ++ [b]]> r) s) a = held s a + count a [b])%nat.
Proof.
  rewrite !held_split. cbn [workers_ senders ready_ set_ready].
  destruct p; rewrite fn_lookup_insert, !fn_lookup_insert_ne by done;
    rewrite count_app; lia.
Qed.

Lemma popHighest_pop r a r' : popHighest r = Some (a, r') ->
  exists p, r p = a :: r' p /\ forall p', p' <> p -> r' p' = r p'.
Proof.
  unfold popHighest, popBand.
  destruct (r High) as [|h q] eqn:E0; [destruct (r Medium) as [|h q] eqn:E1;
    [destruct (r Low) as [|h q] eqn:E2|]|]; intros [= <- <-];
  [exists Low|exists Medium|exists High];
  (split; [now rewrite fn_lookup_insert|intros; now rewrite fn_lookup_insert_ne]).
Qed.

Lemma popHighest_none r : popHighest r = None -> forall p, r p = [].
Proof.
  unfold popHighest, popBand.
  destruct (r High) eqn:?, (r Medium) eqn:?, (r Low) eqn:?; try done. now intros _ [].
Qed.

Lemma held_pop s a r' b : popHighest (ready_ s) = Some (a, r') ->
  (held (set_ready (fun _ => r') s) b + count b [a] = held s b)%nat.
Proof.
  intros (p & Ep & Eo)%popHighest_pop. rewrite !held_split.
  cbn [workers_ senders ready_ set_ready].
  assert (Hc : forall x, count b (a :: x) = (count b [a] + count b x)%nat)
    by (intros x; apply (count_app b [a] x)).
  destruct p;
    [rewrite (Eo Medium), (Eo Low) by done | rewrite (Eo High), (Eo Low) by done
    | rewrite (Eo High), (Eo Medium) by done]; rewrite Ep, (Hc (r' _)); lia.
Qed.

(** ** Ownership is preserved *)

Lemma claims_set_actor a f s b :
  claims (set_actor a f s) b =
  match owners_ s !! b with
  | Some st => Nat.b2n (claimed (if decide (a = b) then f st else st))
  | None => 0%nat
  end.
Proof.
  unfold claims. cbn. destruct (decide (a = b)) as [<-|Hne].
  - rewrite list_lookup_alter_eq. now destruct (owners_ s !! a).
  - rewrite list_lookup_alter_ne by done. now destruct (owners_ s !! b).
Qed.

Lemma claims_same a f s b : (forall st, claimed (f st) = claimed st) ->
  claims (set_actor a f s) b = claims s b.
Proof.
  intros Hf. rewrite claims_set_actor. unfold claims.
  destruct (owners_ s !! b); [|done]. destruct (decide (a = b)); [now rewrite Hf|done].
Qed.

Lemma claims_claim a v s b st : owners_ s !! a = Some st -> claimed st = negb v ->
  (claims (set_actor a (set_claimed v) s) b + (if v then 0 else count b [a])
   = claims s b + (if v then count b [a] else 0))%nat.
Proof.
  intros E Ev. rewrite claims_set_actor, count_single. unfold claims.
  destruct (decide (a = b)) as [<-|]; [|destruct v; lia].
  rewrite E, Ev. now destruct v.
Qed.

Lemma notify_one_goto wakes s s' : notify_one wakes s = Some s' ->
  s' = s \/ exists w x, workers_ s !! w = Some x /\ pc x = Asleep /\ s' = goto w AtWait s.
Proof.
  unfold notify_one. destruct wakes as [w|].
  - destruct (workers_ s !! w) as [x|] eqn:E; cbn; [|done]. unfold is_asleep.
    destruct (pc x) eqn:Ep; try done. intros [= <-]. eauto 6.
  - destruct (existsb _ _); [done|]. intros [= <-]. now left.
Qed.

Lemma notify_one_none s s' : notify_one None s = Some s' ->
  s' = s /\ forall w x, workers_ s !! w = Some x -> pc x <> Asleep.
Proof.
  unfold notify_one. destruct (existsb is_asleep _) eqn:Ea; [done|]. intros [= <-].
  split; [done|]. intros w x E Ep.
  assert (existsb is_asleep (workers_ s) = true); [|congruence].
  apply existsb_exists. exists x.
  split; [apply list_elem_of_In; by eapply list_elem_of_lookup_2|].
  unfold is_asleep. now rewrite Ep.
Qed.

Lemma held_notify_one wakes s s' a : notify_one wakes s = Some s' -> held s' a = held s a.
Proof.
  intros [->|(w & x & E & Ep & ->)]%notify_one_goto; [done|].
  pose proof (held_goto w AtWait s x a E). rewrite Ep in *. cbn in *. lia.
Qed.

Lemma held_enqueue b p wakes s s' a : enqueueReady_ b p wakes s = Some s' ->
  held s' a = (held s a + count a [b])%nat.
Proof.
  unfold enqueueReady_. destruct (lock_free s); [|done].
  intros E%(held_notify_one _ _ _ a). now rewrite E, held_ready_push.
Qed.

Lemma owners_notify_one wakes s s' : notify_one wakes s = Some s' -> owners_ s' = owners_ s.
Proof. now intros [->|(w & x & E & Ep & ->)]%notify_one_goto. Qed.

Lemma owners_enqueue b p wakes s s' : enqueueReady_ b p wakes s = Some s' ->
  owners_ s' = owners_ s.
Proof.
  unfold enqueueReady_. destruct (lock_free s); [|done].
  now intros ->%owners_notify_one.
Qed.

Lemma held_set_actor a f s b : held (set_actor a f s) b = held s b.
Proof. reflexivity. Qed.

Lemma ownership_goto w p s x :
  workers_ s !! w = Some x -> point_tokens (pc x) = point_tokens p ->
  ownership s -> ownership (goto w p s).
Proof.
  intros E Ep Ho a. pose proof (held_goto w p s x a E). rewrite Ep in *.
  change (claims (goto w p s) a) with (claims s a). specialize (Ho a). lia.
Qed.

Lemma ownership_actor a f s : (forall st, claimed (f st) = claimed st) ->
  ownership s -> ownership (set_actor a f s).
Proof. intros Hf Ho b. rewrite claims_same by done. apply Ho. Qed.

Lemma ownership_sender_step i wakes s s' :
  senderStep i wakes s = Some s' -> ownership s -> ownership s'.
Proof.
  unfold senderStep. destruct (senders s !! i) as [[a b|a b]|] eqn:E; cbn; [| |done].
  - destruct (owners_ s !! a) as [st|] eqn:Ea; cbn; [|done].
    destruct (claimed st) eqn:Ec; intros [= <-] Ho c; specialize (Ho c); revert Ho;
      rewrite !held_split; cbn [workers_ senders ready_ set_senders set_actor set_owners].
    + pose proof (count_delete sender_tokens c _ _ _ E) as H1. cbn in H1.
      change (claims (set_senders (delete i) s) c) with (claims s c). unfold count in *.
      cbn in H1. lia.
    + pose proof (count_insert sender_tokens c _ _ _ (Claimed a b) E) as H1.
      pose proof (claims_claim a true s c st Ea Ec) as H2.
      change (claims (set_senders _ ?x) c) with (claims x c).
      change (count c (sender_tokens (Pushed a b))) with 0%nat in H1.
      change (sender_tokens (Claimed a b)) with [a] in H1. cbn iota in H2. lia.
  - destruct (enqueueReady_ a b wakes s) as [s1|] eqn:E1; cbn; [|done].
    intros [= <-] Ho c. specialize (Ho c).
    pose proof (held_enqueue _ _ _ _ _ c E1) as Hh. pose proof (owners_enqueue _ _ _ _ _ E1) as Eo.
    assert (Es : senders s1 = senders s).
    { revert E1. unfold enqueueReady_. destruct (lock_free s); [|done].
      now intros [->|(w & x & ? & ? & ->)]%notify_one_goto. }
    unfold claims in *. cbn [owners_ set_senders]. rewrite Eo.
    pose proof (count_delete sender_tokens c _ _ _ E) as H1. cbn [sender_tokens] in H1.
    rewrite <- Ho. rewrite !held_split in *.
    cbn [workers_ senders ready_ set_senders]. rewrite Es in *.
    rewrite count_single in *. lia.
Qed.

Lemma ownership_pop w s x :
  workers_ s !! w = Some x -> pc x = AtPop -> ownership s -> ownership (popReady_ w s).
Proof.
  intros E Ep Ho. unfold popReady_. destruct (popHighest (ready_ s)) as [[a r]|] eqn:Er.
  - intros b. pose proof (held_pop s a r b Er) as H1.
    pose proof (held_goto w (AtTake a High []) (set_ready (fun _ => r) s) x b E) as H2.
    rewrite Ep in H2. cbn [point_tokens] in H2. specialize (Ho b).
    change (claims (goto w _ _) b) with (claims s b).
    change (count b []) with 0%nat in H2. lia.
  - destruct (shuttingDown_ s); eapply ownership_goto; try done; now rewrite Ep.
Qed.

Lemma ownership_release w s x a :
  workers_ s !! w = Some x -> pc x = AtRelease a -> buffered x = None -> ownership s ->
  ownership (set_worker w (mkWorker (AtCheck a High) (Some a)) s).
Proof.
  intros E Ep Eb Ho b. pose proof (held_set_worker w (mkWorker (AtCheck a High) (Some a)) s x b E).
  unfold worker_tokens in *. rewrite Ep, Eb in *. cbn [pc buffered point_tokens app] in *.
  change (claims (set_worker _ _ _) b) with (claims s b). specialize (Ho b). lia.
Qed.

Lemma held_worker w x s a : workers_ s !! w = Some x ->
  (count a (worker_tokens x) <= held s a)%nat.
Proof.
  intros E. rewrite held_split.
  pose proof (count_delete worker_tokens a _ _ _ E). lia.
Qed.

Lemma count_in a l : a ∈ l -> (0 < count a l)%nat.
Proof. intros. now apply count_occ_In, list_elem_of_In. Qed.

Lemma ownership_claimed w x s a : ownership s ->
  workers_ s !! w = Some x -> a ∈ worker_tokens x ->
  exists st, owners_ s !! a = Some st /\ claimed st = true.
Proof.
  intros Ho E Hin%count_in. pose proof (held_worker w x s a E) as H1.
  specialize (Ho a). unfold claims in Ho.
  destruct (owners_ s !! a) as [st|]; [|lia]. exists st.
  destruct (claimed st); [done|]. cbn in Ho. lia.
Qed.

Lemma ownership_flush w s s' : flush w s = Some s' -> ownership s -> ownership s'.
Proof.
  unfold flush. destruct (workers_ s !! w) as [x|] eqn:E; cbn; [|done].
  destruct (buffered x) as [a|] eqn:Eb; cbn; [|done]. intros [= <-] Ho b.
  assert (Hin : a ∈ worker_tokens x) by (unfold worker_tokens; rewrite Eb; set_solver).
  destruct (ownership_claimed w x s a Ho E Hin) as (st & Ea & Ec).
  change (claims (set_worker _ _ ?t) b) with (claims t b).
  pose proof (claims_claim a false s b st Ea Ec) as H2.
  pose proof (held_set_worker w (mkWorker (pc x) None) (set_actor a (set_claimed false) s) x b E) as H1.
  rewrite held_set_actor in H1. unfold worker_tokens in H1. rewrite Eb in H1.
  cbn [pc buffered] in H1. rewrite !count_app in H1. cbn iota in H2.
  change (count b []) with 0%nat in H1. specialize (Ho b). lia.
Qed.

(** A store is buffered only between the end of a batch and the next locked
    access; only a worker of the lock's holder kind holds the lock. *)
Definition buffer_ok (x : worker) : Prop :=
  is_Some (buffered x) ->
  match pc x with AtCheck _ _ | AtReclaim _ | AtPop => True | _ => False end.
Definition buffers_ok (s : scheduler) : Prop :=
  forall w x, workers_ s !! w = Some x -> buffer_ok x.

Lemma lookup_set_worker w y s w' x : workers_ (set_worker w y s) !! w' = Some x ->
  (w' = w /\ x = y /\ is_Some (workers_ s !! w)) \/ (w' <> w /\ workers_ s !! w' = Some x).
Proof. cbn. intros [(-> & -> & Hl)|(Hn & E)]%list_lookup_insert_Some; [left|right]; auto.
  split; [done|]. split; [done|]. now apply lookup_lt_is_Some_2.
Qed.

Lemma goto_set_worker w p s x : workers_ s !! w = Some x ->
  goto w p s = set_worker w (mkWorker p (buffered x)) s.
Proof. intros E. unfold goto, set_worker, set_workers. now rewrite (alter_some _ _ _ _ E). Qed.

Lemma buffers_set_worker w y s : buffer_ok y -> buffers_ok s -> buffers_ok (set_worker w y s).
Proof.
  intros Hy Hs w' x [(-> & -> & _)|(_ & E)]%lookup_set_worker; [done|]. now apply (Hs w').
Qed.

Lemma buffers_goto w p s x : workers_ s !! w = Some x ->
  (is_Some (buffered x) -> buffer_ok (mkWorker p (buffered x))) ->
  buffers_ok s -> buffers_ok (goto w p s).
Proof.
  intros E Hy Hs. rewrite (goto_set_worker _ _ _ _ E). apply buffers_set_worker; [|done].
  intros Hb. now apply Hy.
Qed.

Definition base (s : scheduler) : Prop := ownership s /\ buffers_ok s.

Lemma base_goto w p s x : workers_ s !! w = Some x ->
  point_tokens (pc x) = point_tokens p ->
  (is_Some (buffered x) -> buffer_ok (mkWorker p (buffered x))) ->
  base s -> base (goto w p s).
Proof. intros E Ep Hb []. split; [eapply ownership_goto|eapply buffers_goto]; eauto. Qed.

Lemma flushed x : is_flushed x = true -> buffered x = None.
Proof. unfold is_flushed. now destruct (buffered x). Qed.

Lemma buffer_none s w x : buffers_ok s -> workers_ s !! w = Some x ->
  match pc x with AtCheck _ _ | AtReclaim _ | AtPop => False | _ => True end ->
  buffered x = None.
Proof.
  intros Hs E Hp. specialize (Hs w x E). unfold buffer_ok in Hs.
  destruct (buffered x); [|done]. specialize (Hs ltac:(eauto)). now destruct (pc x).
Qed.

Lemma buffers_notify_one wakes s s' : notify_one wakes s = Some s' ->
  buffers_ok s -> buffers_ok s'.
Proof.
  intros [->|(w & x & E & Ep & ->)]%notify_one_goto; [done|]. intros Hs.
  eapply buffers_goto; [done| |done].
  rewrite (buffer_none s w x) by (done || now rewrite Ep). now intros [].
Qed.

Lemma buffers_enqueue b p wakes s s' : enqueueReady_ b p wakes s = Some s' ->
  buffers_ok s -> buffers_ok s'.
Proof.
  unfold enqueueReady_. destruct (lock_free s); [|done].
  intros E Hs. now apply (buffers_notify_one _ _ _ E).
Qed.

(** [no_buffer] closes the buffer conditions of a worker with an empty one. *)
Ltac no_buffer Hb := rewrite Hb; now intros [].

Lemma base_sender_step i wakes s s' :
  senderStep i wakes s = Some s' -> base s -> base s'.
Proof.
  intros E [Ho Hb]. split; [now apply (ownership_sender_step _ _ _ _ E)|]. revert E.
  unfold senderStep. destruct (senders s !! i) as [[a b|a b]|]; cbn; [| |done].
  - destruct (owners_ s !! a) as [st|]; cbn; [|done].
    destruct (claimed st); intros [= <-]; apply Hb.
  - destruct (enqueueReady_ a b wakes s) as [s1|] eqn:E1; cbn; [|done].
    intros [= <-]. apply (buffers_enqueue _ _ _ _ _ E1 Hb).
Qed.

Lemma base_pop w s x : workers_ s !! w = Some x -> pc x = AtPop -> buffered x = None ->
  base s -> base (popReady_ w s).
Proof.
  intros E Ep Hn [Ho Hb]. split; [eapply ownership_pop; eauto|]. unfold popReady_.
  destruct (popHighest (ready_ s)) as [[a r]|]; [|destruct (shuttingDown_ s)];
    (eapply buffers_goto; [done|no_buffer Hn|done]).
Qed.

Lemma base_actor a f s : (forall st, claimed (f st) = claimed st) ->
  base s -> base (set_actor a f s).
Proof. intros Hf []. split; [now apply ownership_actor|done]. Qed.

Lemma base_reclaim w s x a st : workers_ s !! w = Some x -> pc x = AtReclaim a ->
  buffered x = None -> owners_ s !! a = Some st -> claimed st = false ->
  base s -> base (goto w (AtPick a High) (set_actor a (set_claimed true) s)).
Proof.
  intros E Ep Hn Ea Ec [Ho Hb]. split.
  - intros b. pose proof (claims_claim a true s b st Ea Ec) as H1.
    pose proof (held_goto w (AtPick a High) (set_actor a (set_claimed true) s) x b E) as H2.
    rewrite Ep, held_set_actor in H2. cbn [point_tokens] in H2.
    change (count b []) with 0%nat in H2. cbn iota in H1.
    change (claims (goto w _ ?t) b) with (claims t b). specialize (Ho b). lia.
  - eapply buffers_goto; [done|no_buffer Hn|done].
Qed.

Lemma base_enqueue w s x a p wakes s' : workers_ s !! w = Some x -> pc x = AtEnqueue a p ->
  enqueueReady_ a p wakes (goto w AtPop s) = Some s' -> base s -> base s'.
Proof.
  intros E Ep E1 [Ho Hb].
  assert (Hn : buffered x = None) by (apply (buffer_none s w x); [done..|now rewrite Ep]).
  split.
  - intros b. pose proof (held_enqueue _ _ _ _ _ b E1) as H1.
    pose proof (held_goto w AtPop s x b E) as H2. rewrite Ep in H2. cbn [point_tokens] in H2.
    change (count b []) with 0%nat in H2.
    unfold claims. rewrite (owners_enqueue _ _ _ _ _ E1). specialize (Ho b).
    unfold claims in Ho. cbn [owners_ goto set_workers]. lia.
  - apply (buffers_enqueue _ _ _ _ _ E1). eapply buffers_goto; [done|no_buffer Hn|done].
Qed.

(** ** The worker's step as a relation, for case analysis *)

Inductive worker_step (fenced : bool) (w : nat) (x : worker) (s : scheduler)
  : point -> scheduler -> list event -> Prop :=
| step_pop : lock_free s = true -> buffered x = None ->
    worker_step fenced w x s AtPop (popReady_ w s) []
| step_wait : lock_free s = true -> buffered x = None ->
    worker_step fenced w x s AtWait (goto w (if waitIsOver s then AtPop else Waiting) s) []
| step_sleep : worker_step fenced w x s Waiting (goto w Asleep s) []
| step_take a band got st batch q next :
    owners_ s !! a = Some st -> takeAll (mailbox st band) = (batch, q) ->
    next = match nextBand band with
           | Some band' => AtTake a band' (got ++ map (pair band) batch)
           | None => AtBatch a (got ++ map (pair band) batch)
           end ->
    worker_step fenced w x s (AtTake a band got)
      (goto w next (set_actor a (set_mailbox band q) s)) []
| step_handled a : worker_step fenced w x s (AtBatch a []) (goto w (AtRelease a) s) []
| step_handle a band m todo st outcome :
    owners_ s !! a = Some st ->
    worker_step fenced w x s (AtBatch a ((band, m) :: todo))
      (goto w (AtBatch a todo) (handle a m outcome s))
      [Handled a band m (callArguments (value st) m) outcome]
| step_release a :
    worker_step fenced w x s (AtRelease a)
      (set_worker w (mkWorker (AtCheck a High) (Some a)) s) []
| step_check a band st :
    (fenced = true -> buffered x = None) -> owners_ s !! a = Some st ->
    worker_step fenced w x s (AtCheck a band)
      (goto w (if isEmpty (mailbox st band)
               then match nextBand band with Some band' => AtCheck a band' | None => AtPop end
               else AtReclaim a) s) []
| step_reclaim_lost a st : buffered x = None -> owners_ s !! a = Some st ->
    claimed st = true -> worker_step fenced w x s (AtReclaim a) (goto w AtPop s) []
| step_reclaim a st : buffered x = None -> owners_ s !! a = Some st -> claimed st = false ->
    worker_step fenced w x s (AtReclaim a)
      (goto w (AtPick a High) (set_actor a (set_claimed true) s)) []
| step_pick a band band' : 
    worker_step fenced w x s (AtPick a band) (goto w (AtPick a band') s) []
| step_picked a band band' :
    worker_step fenced w x s (AtPick a band) (goto w (AtEnqueue a band') s) []
| step_enqueue a band wakes s' : enqueueReady_ a band wakes (goto w AtPop s) = Some s' ->
    worker_step fenced w x s (AtEnqueue a band) s' [].

Lemma workerStep_inv fenced w outcome wakes s s' e :
  workerStep fenced w outcome wakes s = Some (s', e) ->
  exists x, workers_ s !! w = Some x /\ worker_step fenced w x s (pc x) s' e.
Proof.
  unfold workerStep. destruct (workers_ s !! w) as [x|] eqn:E; cbn; [|done].
  intros H1. exists x. split; [done|]. revert H1.
  destruct (pc x) as [| | | |a band got|a [|[band m] todo]|a|a band|a|a band|a band|] eqn:Ep;
    try done;
    try (destruct (owners_ s !! a) as [st|] eqn:Ea; cbn; [|done]).
  - destruct (lock_free s) eqn:El; cbn; [|done].
    destruct (is_flushed x) eqn:Ef; [|done]. intros [= <- <-].
    apply step_pop; [done|now apply flushed].
  - destruct (lock_free s) eqn:El; cbn; [|done].
    destruct (is_flushed x) eqn:Ef; [|done]. intros [= <- <-].
    apply step_wait; [done|now apply flushed].
  - intros [= <- <-]. constructor.
  - destruct (takeAll (mailbox st band)) as [batch q] eqn:Et. intros [= <- <-].
    now apply (step_take _ _ _ _ _ _ _ st batch).
  - intros [= <- <-]. constructor.
  - intros [= <- <-]. now constructor.
  - intros [= <- <-]. constructor.
  - destruct (negb fenced || is_flushed x) eqn:Ef; [|done].
    destruct (owners_ s !! a) as [st|] eqn:Ea; cbn; [|done]. intros [= <- <-].
    apply step_check; [|done]. intros ->. now apply flushed.
  - destruct (is_flushed x) eqn:Ef; [|done].
    destruct (owners_ s !! a) as [st|] eqn:Ea; cbn; [|done].
    destruct (claimed st) eqn:Ec; intros [= <- <-];
      [eapply step_reclaim_lost|eapply step_reclaim]; eauto using flushed.
  - intros [= <- <-].
    destruct (isEmpty (mailbox st band)), band; constructor.
  - destruct (enqueueReady_ _ _ _ _) as [s1|] eqn:E1; cbn; [|done]. intros [= <- <-].
    eapply step_enqueue, E1.
Qed.

Lemma base_worker_step fenced w x s s' e : workers_ s !! w = Some x ->
  worker_step fenced w x s (pc x) s' e -> base s -> base s'.
Proof.
  intros E Hw Hs. pose proof Hs as [Ho Hb].
  assert (Hn : match pc x with AtCheck _ _ | AtReclaim _ | AtPop => False | _ => True end ->
               buffered x = None) by (intros; now apply (buffer_none s w x)).
  remember (pc x) as p eqn:Ep. symmetry in Ep. destruct Hw; try specialize (Hn I).
  - now apply (base_pop w s x).
  - eapply base_goto; try done; [rewrite Ep; now destruct (waitIsOver s)|no_buffer Hn].
  - eapply base_goto; try done; [now rewrite Ep|no_buffer Hn].
  - eapply base_goto; [done|rewrite Ep; subst next; now destruct band|no_buffer Hn|].
    now apply base_actor.
  - eapply base_goto; try done; [now rewrite Ep|no_buffer Hn].
  - eapply base_goto; [done|now rewrite Ep|no_buffer Hn|].
    apply (base_actor a (set_value _) s); done.
  - split; [now apply (ownership_release w s x)|]. now apply buffers_set_worker.
  - eapply base_goto; try done; [rewrite Ep|];
      now destruct (isEmpty _); [destruct band|].
  - eapply base_goto; try done. now rewrite Ep.
  - now apply (base_reclaim w s x a st).
  - eapply base_goto; try done; [now rewrite Ep|no_buffer Hn].
  - eapply base_goto; try done; [now rewrite Ep|no_buffer Hn].
  - now apply (base_enqueue w s x a band wakes).
Qed.

Lemma base_new init s : base s -> base (newActor init s).
Proof.
  intros [Ho Hb]. split; [|done]. intros a.
  change (held (newActor init s) a) with (held s a). rewrite (Ho a). unfold claims. cbn.
  destruct (decide (a < length (owners_ s))%nat).
  - now rewrite lookup_app_l.
  - rewrite lookup_app_r, (lookup_ge_None_2 (owners_ s)) by lia.
    destruct (a - length (owners_ s))%nat as [|k]; [done|]. now destruct k.
Qed.

Lemma base_push a band m s s' : sendPush a band m s = Some s' -> base s -> base s'.
Proof.
  unfold sendPush. destruct (owners_ s !! a) as [st|]; cbn; [|done]. intros [= <-] [Ho Hb].
  split; [|done]. intros b.
  pose proof (ownership_actor a (set_mailbox band (push m (mailbox st band))) s ltac:(done) Ho b)
    as H1.
  rewrite !held_split in *. cbn [workers_ senders ready_ set_senders set_actor set_owners] in *.
  rewrite flat_map_app. cbn [flat_map sender_tokens app]. rewrite app_nil_r. exact H1.
Qed.

Lemma lookup_notify_all s w : workers_ (notify_all s) !! w =
  (fun x => if is_asleep x then mkWorker AtWait (buffered x) else x) <$> workers_ s !! w.
Proof. apply list_lookup_fmap. Qed.

Lemma base_notify_all s : base s -> base (notify_all s).
Proof.
  intros [Ho Hb]. split.
  - intros a. change (claims (notify_all s) a) with (claims s a). rewrite <- Ho.
    rewrite !held_split. unfold notify_all. cbn [workers_ senders ready_ set_workers].
    replace (flat_map worker_tokens _) with (flat_map worker_tokens (workers_ s)); [done|].
    induction (workers_ s) as [|x l IH]; cbn; [done|]. rewrite IH. f_equal.
    unfold is_asleep, worker_tokens. now destruct (pc x) eqn:Ep; cbn; rewrite ?Ep.
  - intros w y. rewrite lookup_notify_all.
    destruct (workers_ s !! w) as [x|] eqn:E; cbn; [|done]. intros [= <-].
    specialize (Hb w x E). unfold is_asleep. destruct (pc x) eqn:Ep; try done.
    unfold buffer_ok in *. rewrite Ep in Hb. cbn. now intros ?%Hb.
Qed.

Lemma flat_map_none {A B} (f : A -> list B) (l : list A) :
  (forall i x, l !! i = Some x -> f x = []) -> flat_map f l = [].
Proof.
  induction l as [|x l IH]; cbn; intros Hf; [done|].
  rewrite (Hf 0%nat x), IH; [done| |done]. intros i y E. now apply (Hf (S i)).
Qed.

Lemma elem_of_forallb {A} (f : A -> bool) (l : list A) i x :
  forallb f l = true -> l !! i = Some x -> f x = true.
Proof.
  rewrite forallb_forall. intros Hf E. apply Hf, list_elem_of_In.
  now apply list_elem_of_lookup_2 in E.
Qed.

Lemma base_join s : forallb has_exited (workers_ s) = true -> base s ->
  base (set_workers (fun _ => []) (set_main true Joined s)).
Proof.
  intros Hx [Ho Hb]. split; [|intros w x; cbn; done].
  intros a. change (claims (set_workers _ (set_main true Joined s)) a) with (claims s a). rewrite <- Ho.
  rewrite !held_split. cbn [workers_ senders ready_ set_workers set_main].
  replace (flat_map worker_tokens (workers_ s)) with (@nil nat); [done|].
  symmetry. apply flat_map_none. intros w x E.
  pose proof (elem_of_forallb _ _ w x Hx E) as Hx1. unfold has_exited in Hx1.
  destruct (pc x) eqn:Ep; try done. unfold worker_tokens.
  rewrite (buffer_none s w x) by (done || now rewrite Ep). now rewrite Ep.
Qed.

Lemma base_exec fenced l s s' e : exec fenced l s = Some (s', e) -> base s -> base s'.
Proof.
  destruct l as [init|a band m|i wakes|w outcome wakes|w|w|]; cbn.
  - intros [= <- <-]. apply base_new.
  - destruct (sendPush a band m s) as [s1|] eqn:E; cbn; [|done]. intros [= <- <-].
    now apply (base_push _ _ _ _ _ E).
  - destruct (senderStep i wakes s) as [s1|] eqn:E; cbn; [|done]. intros [= <- <-].
    now apply (base_sender_step _ _ _ _ E).
  - intros (x & E & Hw)%workerStep_inv. now apply (base_worker_step _ _ _ _ _ _ E Hw).
  - destruct (flush w s) as [s1|] eqn:E; cbn; [|done]. intros [= <- <-] [Ho Hb].
    split; [now apply (ownership_flush _ _ _ E)|]. revert E. unfold flush.
    destruct (workers_ s !! w) as [x|] eqn:Ex; cbn; [|done].
    destruct (buffered x); cbn; [|done]. intros [= <-].
    apply buffers_set_worker; [now intros []|done].
  - destruct (spurious w s) as [s1|] eqn:E; cbn; [|done]. intros [= <- <-] Hs. revert E.
    unfold spurious. destruct (workers_ s !! w) as [x|] eqn:Ex; cbn; [|done].
    unfold is_asleep. destruct (pc x) eqn:Ep; try done. intros [= <-].
    eapply base_goto; try done; [now rewrite Ep|]. destruct Hs as [_ Hb].
    rewrite (buffer_none s w x) by (done || now rewrite Ep). now intros [].
  - destruct (shutdown s) as [s1|] eqn:E; cbn; [|done]. intros [= <- <-]. revert E.
    unfold shutdown. destruct (main s); [| |destruct (forallb _ _) eqn:Hx|]; try done;
      intros [= <-]; [done|apply base_notify_all|now apply base_join].
Qed.

Lemma base_started n c : base (started n c).
Proof.
  split.
  - intros a. unfold started, held, tokens, claims. cbn [workers_ senders ready_ owners_].
    cbn. rewrite !app_nil_r. induction n as [|n IH]; cbn; done.
  - intros w x [-> _]%lookup_replicate. now intros [].
Qed.

Lemma base_reach fenced n c s tr : reach fenced n c s tr -> base s.
Proof.
  induction 1 as [|l s tr s' e Hr IH E]; [apply base_started|]. now apply (base_exec _ _ _ _ _ E).
Qed.

(** ** Histories *)

Definition is_handled (e : event) : bool :=
  match e with Handled _ _ _ _ _ => true | _ => false end.

(** The first result a handler delivered into the promise [p]. *)
Fixpoint first_delivery (p : obj) (tr : list event) : option (list val) :=
  match tr with
  | [] => None
  | Handled _ _ m _ outcome :: tr =>
      if decide (kPromise m = Some p) then Some [default none outcome]
      else first_delivery p tr
  | _ :: tr => first_delivery p tr
  end.

Record history (c : cells) (s : scheduler) (tr : list event) : Prop := {
  fifo a b st : owners_ s !! a = Some st ->
    sent a b tr = handled a b tr ++ in_band b (turn s a) ++ contents (mailbox st b);
  no_history a b : owners_ s !! a = None -> sent a b tr = [] /\ handled a b tr = [];
  replayed a st : owners_ s !! a = Some st ->
    replay a tr = Some (value st) /\ published st = value st;
  counted : messagesProcessed_ s = Z.of_nat (length (List.filter is_handled tr));
  delivered p : getAttribute (promises s) p =
    match getAttribute c p with Some v => Some v | None => first_delivery p tr end;
}.

Definition observed (st : ActorState) := (mailbox st, value st, published st).

(** Two states that differ only in scheduling. *)
Record alike (s s' : scheduler) : Prop := {
  alike_turn a : turn s' a = turn s a;
  alike_owners a : observed <$> owners_ s' !! a = observed <$> owners_ s !! a;
  alike_count : messagesProcessed_ s' = messagesProcessed_ s;
  alike_promises : promises s' = promises s;
}.

Lemma alike_lookup s s' a st' : alike s s' -> owners_ s' !! a = Some st' ->
  exists st, owners_ s !! a = Some st /\ mailbox st = mailbox st' /\ value st = value st'
             /\ published st = published st'.
Proof.
  intros Hs E. pose proof (alike_owners _ _ Hs a) as Ho. rewrite E in Ho.
  destruct (owners_ s !! a) as [st|]; [|done]. injection Ho as H1 H2 H3. eauto.
Qed.

Lemma history_alike c s s' tr : alike s s' -> history c s tr -> history c s' tr.
Proof.
  intros Ha Hh. split.
  - intros a b st' (st & E & <- & _)%(alike_lookup _ _ _ _ Ha).
    rewrite (alike_turn _ _ Ha). now apply (fifo _ _ _ Hh).
  - intros a b E. apply (no_history _ _ _ Hh).
    pose proof (alike_owners _ _ Ha a) as Ho. rewrite E in Ho. now destruct (owners_ s !! a).
  - intros a st' (st & E & _ & <- & <-)%(alike_lookup _ _ _ _ Ha). now apply (replayed _ _ _ Hh).
  - rewrite (alike_count _ _ Ha). apply (counted _ _ _ Hh).
  - intros p. rewrite (alike_promises _ _ Ha). apply (delivered _ _ _ Hh).
Qed.

Lemma alike_refl s : alike s s.
Proof. done. Qed.

Lemma alike_trans s1 s2 s3 : alike s1 s2 -> alike s2 s3 -> alike s1 s3.
Proof.
  intros Ha Hb. split; intros.
  - now rewrite (alike_turn _ _ Hb), (alike_turn _ _ Ha).
  - now rewrite (alike_owners _ _ Hb), (alike_owners _ _ Ha).
  - now rewrite (alike_count _ _ Hb), (alike_count _ _ Ha).
  - now rewrite (alike_promises _ _ Hb), (alike_promises _ _ Ha).
Qed.

Lemma flat_map_insert {A B} (f : A -> list B) (l : list A) i x y :
  l !! i = Some x -> f y = f x -> flat_map f (<[i := y]> l) = flat_map f l.
Proof.
  intros E Ef. revert i E. induction l as [|z l IH]; intros [|i]; cbn; try done.
  - intros [= ->]. now rewrite Ef.
  - intros E. f_equal. now apply IH.
Qed.

Lemma flat_map_only {A B} (f : A -> list B) (l : list A) i x :
  l !! i = Some x -> (forall j y, j <> i -> l !! j = Some y -> f y = []) ->
  flat_map f l = f x.
Proof.
  revert i. induction l as [|z l IH]; intros [|i]; cbn; try done.
  - intros [= ->] Ho. rewrite flat_map_none, app_nil_r; [done|].
    intros j y E. now apply (Ho (S j)).
  - intros E Ho. rewrite (Ho 0%nat z), (IH i) by (done || (intros j y ? ?; apply (Ho (S j)); [lia|done])).
    done.
Qed.

Lemma alike_set_worker w y s x : workers_ s !! w = Some x ->
  (forall a, turn_of a y = turn_of a x) -> alike s (set_worker w y s).
Proof.
  intros E Ht. split; try done. intros a. apply (flat_map_insert _ _ _ _ _ E), Ht.
Qed.

Lemma alike_goto w p s x : workers_ s !! w = Some x ->
  (forall a, turn_of a (mkWorker p (buffered x)) = turn_of a x) -> alike s (goto w p s).
Proof. intros E Ht. rewrite (goto_set_worker _ _ _ _ E). now apply (alike_set_worker _ _ _ x). Qed.

Lemma alike_claim a v s : alike s (set_actor a (set_claimed v) s).
Proof.
  split; try done. intros b. cbn. rewrite list_lookup_alter.
  case_decide; [subst|done]. now destruct (owners_ s !! b).
Qed.

Lemma alike_notify_one wakes s s' : notify_one wakes s = Some s' -> alike s s'.
Proof.
  intros [->|(w & x & E & Ep & ->)]%notify_one_goto; [done|].
  apply (alike_goto _ _ _ _ E). intros a. unfold turn_of. cbn. now rewrite Ep.
Qed.

Lemma alike_enqueue b p wakes s s' : enqueueReady_ b p wakes s = Some s' -> alike s s'.
Proof.
  unfold enqueueReady_. destruct (lock_free s); [|done].
  intros E%alike_notify_one. eapply alike_trans; [|exact E]. done.
Qed.

Context `{!MPSCQueueLaws message Q} `{!AttributeCellsLaws obj (list val) cells}.

Lemma held_two w w' x x' s a : workers_ s !! w = Some x -> workers_ s !! w' = Some x' ->
  w' <> w -> (count a (worker_tokens x) + count a (worker_tokens x') <= held s a)%nat.
Proof.
  intros E E' Hne. rewrite held_split.
  pose proof (count_insert worker_tokens a _ _ _ (mkWorker Exited None) E) as H1.
  assert (E2 : <[w := mkWorker Exited None]> (workers_ s) !! w' = Some x')
    by now rewrite list_lookup_insert_ne.
  pose proof (count_delete worker_tokens a _ _ _ E2) as H2.
  change (count a (worker_tokens (mkWorker Exited None))) with 0%nat in H1. lia.
Qed.

Lemma claims_le s a : (claims s a <= 1)%nat.
Proof. unfold claims. destruct (owners_ s !! a) as [st|]; [|lia]. destruct (claimed st); cbn; lia. Qed.

Lemma turn_of_token a x : turn_of a x <> [] -> a ∈ worker_tokens x.
Proof.
  unfold turn_of, worker_tokens. destruct (pc x); try done;
    destruct (decide (_ = a)) as [->|]; try done; intros _; set_solver.
Qed.

Lemma sole_turn s w x a : ownership s -> workers_ s !! w = Some x -> a ∈ worker_tokens x ->
  forall w' x', w' <> w -> workers_ s !! w' = Some x' -> turn_of a x' = [].
Proof.
  intros Ho E Hin w' x' Hne E'. destruct (turn_of a x') eqn:Et; [done|].
  assert (Hin' : a ∈ worker_tokens x') by (apply turn_of_token; now rewrite Et).
  apply count_in in Hin, Hin'. pose proof (held_two w w' x x' s a E E' Hne).
  pose proof (claims_le s a). specialize (Ho a). lia.
Qed.

Lemma turn_owner s w x a : ownership s -> workers_ s !! w = Some x -> a ∈ worker_tokens x ->
  turn s a = turn_of a x.
Proof. intros Ho E Hin. apply (flat_map_only _ _ w); [done|]. now apply (sole_turn s w x a). Qed.

Lemma turn_moved s w x a p : ownership s -> workers_ s !! w = Some x -> a ∈ worker_tokens x ->
  turn (goto w p s) a = turn_of a (mkWorker p (buffered x)).
Proof.
  intros Ho E Hin. unfold turn. rewrite (workers_goto _ _ _ _ E).
  apply (flat_map_only _ _ w).
  - apply list_lookup_insert_eq. now apply lookup_lt_Some in E.
  - intros j y Hj Ey. rewrite list_lookup_insert_ne in Ey by done.
    now apply (sole_turn s w x a Ho E Hin j).
Qed.

Lemma turn_other s w x a p : workers_ s !! w = Some x ->
  turn_of a (mkWorker p (buffered x)) = turn_of a x -> turn (goto w p s) a = turn s a.
Proof.
  intros E Et. unfold turn. rewrite (workers_goto _ _ _ _ E). now apply (flat_map_insert _ _ _ x).
Qed.

Lemma in_band_app b l k : in_band b (l ++ k) = in_band b l ++ in_band b k.
Proof. apply omap_app. Qed.

Lemma in_band_pair b band l :
  in_band b (map (pair band) l) = if decide (band = b) then l else [].
Proof.
  induction l as [|m l IH]; cbn; [now case_decide|].
  unfold in_band in *. rewrite IH. now case_decide.
Qed.

Lemma lookup_set_actor a f s b : owners_ (set_actor a f s) !! b =
  if decide (a = b) then f <$> owners_ s !! a else owners_ s !! b.
Proof. apply list_lookup_alter. Qed.

Lemma history_take c w x a band got st batch q s tr :
  ownership s -> workers_ s !! w = Some x -> pc x = AtTake a band got ->
  owners_ s !! a = Some st -> takeAll (mailbox st band) = (batch, q) ->
  history c s tr ->
  history c (goto w (match nextBand band with
                     | Some band' => AtTake a band' (got ++ map (pair band) batch)
                     | None => AtBatch a (got ++ map (pair band) batch)
                     end) (set_actor a (set_mailbox band q) s)) tr.
Proof.
  intros Ho E Ep Ea Et Hh.
  assert (Hin : a ∈ worker_tokens x) by (unfold worker_tokens; rewrite Ep; set_solver).
  pose proof (takeAll_batch (mailbox st band)) as Hb. pose proof (takeAll_left (mailbox st band)) as Hq.
  rewrite Et in Hb, Hq. cbn in Hb, Hq. subst batch.
  set (next := match nextBand band with Some _ => _ | None => _ end).
  assert (Hown : forall b, owners_ (goto w next (set_actor a (set_mailbox band q) s)) !! b =
    if decide (a = b) then Some (set_mailbox band q st) else owners_ s !! b).
  { intros b. cbn [owners_ goto set_workers]. rewrite lookup_set_actor.
    case_decide; [|done]. now rewrite Ea. }
  assert (Hnext : forall b, turn_of b (mkWorker next (buffered x)) =
            if decide (a = b) then got ++ map (pair band) (contents (mailbox st band)) else []).
  { intros b. subst next. now destruct band. }
  split.
  - intros a' b st'. rewrite Hown. destruct (decide (a = a')) as [<-|Hne]; [intros [= <-]|intros Ea'].
    + rewrite (turn_moved (set_actor a (set_mailbox band q) s) w x a _) by (try done; now apply ownership_actor).
      rewrite Hnext, decide_True, in_band_app, in_band_pair by done.
      rewrite (fifo _ _ _ Hh a b st Ea), (turn_owner s w x a Ho E Hin).
      unfold turn_of. rewrite Ep, decide_True by done. cbn [mailbox set_mailbox].
      destruct (decide (band = b)) as [<-|Hb].
      * rewrite fn_lookup_insert, Hq, app_nil_r. done.
      * rewrite fn_lookup_insert_ne, app_nil_r by done. done.
    + rewrite (turn_other (set_actor a (set_mailbox band q) s) w x a' _ E).
      * now apply (fifo _ _ _ Hh).
      * rewrite Hnext, decide_False by done. unfold turn_of. rewrite Ep. now rewrite decide_False.
  - intros a' b. rewrite Hown. case_decide; [done|]. now apply (no_history _ _ _ Hh).
  - intros a' st'. rewrite Hown. case_decide; [|now apply (replayed _ _ _ Hh)].
    subst a'. intros [= <-]. exact (replayed _ _ _ Hh a st Ea).
  - apply (counted _ _ _ Hh).
  - apply (delivered _ _ _ Hh).
Qed.

(** Appending an event to a history. *)
Lemma sent_app a b tr e : sent a b (tr ++ e) = sent a b tr ++ sent a b e.
Proof. apply omap_app. Qed.
Lemma handled_app a b tr e : handled a b (tr ++ e) = handled a b tr ++ handled a b e.
Proof. apply omap_app. Qed.
Lemma replay_snoc a tr e : replay a (tr ++ [e]) =
  match e with
  | Created a' init => if decide (a' = a) then Some init else replay a tr
  | Handled a' _ _ _ outcome =>
      if decide (a' = a) then Some (default none outcome) else replay a tr
  | Sent _ _ _ => replay a tr
  end.
Proof. unfold replay. now rewrite fold_left_app. Qed.
Lemma first_delivery_snoc p tr e : first_delivery p (tr ++ [e]) =
  match first_delivery p tr with Some v => Some v | None => first_delivery p [e] end.
Proof.
  induction tr as [|x tr IH]; [done|]. destruct x; cbn [app first_delivery]; try done.
  case_decide; done.
Qed.

Lemma deliverTo_get q v (c : cells) p : getAttribute (deliverTo q v c) p =
  match getAttribute c p with
  | Some u => Some u
  | None => if decide (q = Some p) then Some [v] else None
  end.
Proof.
  destruct q as [o|]; cbn; [|now destruct (getAttribute c p)].
  unfold deliverPromise. destruct (decide (p = o)) as [->|Hne].
  - destruct (getAttribute c o) as [u|] eqn:E.
    + now apply set_if_other.
    + rewrite decide_True by done. now apply set_if_equal.
  - rewrite set_if_frame by done. rewrite decide_False by congruence.
    now destruct (getAttribute c p).
Qed.

Lemma history_handle c w x a band m todo st outcome s tr :
  ownership s -> workers_ s !! w = Some x -> pc x = AtBatch a ((band, m) :: todo) ->
  owners_ s !! a = Some st -> history c s tr ->
  history c (goto w (AtBatch a todo) (handle a m outcome s))
    (tr ++ [Handled a band m (callArguments (value st) m) outcome]).
Proof.
  intros Ho E Ep Ea Hh.
  assert (Hin : a ∈ worker_tokens x) by (unfold worker_tokens; rewrite Ep; set_solver).
  set (v := default none outcome). set (s1 := handle a m outcome s).
  assert (Ho1 : ownership s1) by (now apply (ownership_actor a (set_value v) s)).
  assert (Hown : forall b, owners_ (goto w (AtBatch a todo) s1) !! b =
    if decide (a = b) then Some (set_value v st) else owners_ s !! b).
  { intros b. subst s1. cbn [owners_ goto set_workers handle published_promises].
    rewrite lookup_set_actor. case_decide; [|done]. now rewrite Ea. }
  split.
  - intros a' b st'. rewrite Hown, sent_app, handled_app. cbn [sent handled omap list_omap].
    rewrite app_nil_r.
    destruct (decide (a = a')) as [<-|Hne]; [intros [= <-]|intros Ea'].
    + rewrite (turn_moved s1 w x a _ Ho1 E Hin). unfold turn_of. cbn [pc].
      rewrite (fifo _ _ _ Hh a b st Ea), (turn_owner s w x a Ho E Hin).
      unfold turn_of. rewrite Ep, !(decide_True _ _ (eq_refl a)). cbn [mailbox set_value].
      cbn [in_band omap list_omap]. destruct (decide (band = b)) as [<-|Hb].
      * rewrite decide_True by done. now rewrite <- !app_assoc.
      * rewrite decide_False by (intros []; done). now rewrite app_nil_r.
    + rewrite (turn_other s1 w x a' _ E).
      * rewrite decide_False by (intros []; done). rewrite app_nil_r. now apply (fifo _ _ _ Hh).
      * unfold turn_of. cbn [pc]. rewrite Ep. now rewrite !decide_False.
  - intros a' b. rewrite Hown, sent_app, handled_app. case_decide; [done|].
    intros E'%(no_history _ _ _ Hh a' b). destruct E' as [-> ->]. cbn.
    rewrite decide_False by (intros []; done). done.
  - intros a' st'. rewrite Hown, replay_snoc. case_decide; [|now apply (replayed _ _ _ Hh)].
    now intros [= <-].
  - rewrite List.filter_app, length_app. cbn. rewrite (counted _ _ _ Hh). lia.
  - intros p. rewrite first_delivery_snoc. subst s1. cbn [promises goto set_workers handle published_promises].
    rewrite deliverTo_get. cbn [promises set_actor set_owners]. rewrite (delivered _ _ _ Hh p).
    destruct (getAttribute c p); [done|]. destruct (first_delivery p tr); [done|]. done.
Qed.

(** [idle_turn Ep] shows that two points of a worker carry the same turn. *)
Ltac idle_turn Ep := intros ?; unfold turn_of; cbn [pc]; rewrite ?Ep; now repeat case_decide.

Lemma alike_pop w s x : workers_ s !! w = Some x -> pc x = AtPop -> alike s (popReady_ w s).
Proof.
  intros E Ep. unfold popReady_. destruct (popHighest (ready_ s)) as [[a r]|].
  - apply (alike_trans _ (set_ready (fun _ => r) s)); [done|].
    apply (alike_goto _ _ _ x); [exact E|idle_turn Ep].
  - destruct (shuttingDown_ s); apply (alike_goto _ _ _ _ E); idle_turn Ep.
Qed.

Lemma history_worker fenced c w x s s' e tr : base s -> workers_ s !! w = Some x ->
  worker_step fenced w x s (pc x) s' e -> history c s tr -> history c s' (tr ++ e).
Proof.
  intros [Ho Hb] E Hw Hh. remember (pc x) as p eqn:Ep. symmetry in Ep.
  assert (Ha : forall s', alike s s' -> history c s' tr)
    by (intros s1 Hs1; now apply (history_alike c s)).
  destruct Hw; rewrite ?app_nil_r.
  - now apply Ha, (alike_pop _ _ x).
  - apply Ha, (alike_goto _ _ _ _ E). destruct (waitIsOver s); idle_turn Ep.
  - apply Ha, (alike_goto _ _ _ _ E). idle_turn Ep.
  - subst next. now apply (history_take c w x a band got st).
  - apply Ha, (alike_goto _ _ _ _ E). idle_turn Ep.
  - now apply (history_handle c w x a band m todo st).
  - apply Ha, (alike_set_worker _ _ _ x E). idle_turn Ep.
  - apply Ha, (alike_goto _ _ _ _ E). destruct (isEmpty _); [destruct band|]; idle_turn Ep.
  - apply Ha, (alike_goto _ _ _ _ E). idle_turn Ep.
  - apply Ha. eapply alike_trans; [apply (alike_claim a true)|].
    apply (alike_goto _ _ _ x); [exact E|idle_turn Ep].
  - apply Ha, (alike_goto _ _ _ _ E). idle_turn Ep.
  - apply Ha, (alike_goto _ _ _ _ E). idle_turn Ep.
  - apply Ha. eapply alike_trans; [|eapply alike_enqueue; done].
    apply (alike_goto _ _ _ _ E). idle_turn Ep.
Qed.

Lemma alike_sender_step i wakes s s' : senderStep i wakes s = Some s' -> alike s s'.
Proof.
  unfold senderStep. destruct (senders s !! i) as [[a b|a b]|]; cbn; [| |done].
  - destruct (owners_ s !! a) as [st|]; cbn; [|done].
    destruct (claimed st); intros [= <-]; [done|].
    now apply (alike_trans _ _ _ (alike_claim a true s)).
  - destruct (enqueueReady_ a b wakes s) as [s1|] eqn:E1; cbn; [|done].
    intros [= <-]. now apply (alike_trans _ s1); [apply (alike_enqueue _ _ _ _ _ E1)|].
Qed.

Lemma alike_flush w s s' : flush w s = Some s' -> alike s s'.
Proof.
  unfold flush. destruct (workers_ s !! w) as [x|] eqn:E; cbn; [|done].
  destruct (buffered x) as [a|]; cbn; [|done]. intros [= <-].
  eapply alike_trans; [apply (alike_claim a false)|]. now apply (alike_set_worker _ _ _ x).
Qed.

Lemma alike_spurious w s s' : spurious w s = Some s' -> alike s s'.
Proof.
  unfold spurious. destruct (workers_ s !! w) as [x|] eqn:E; cbn; [|done].
  unfold is_asleep. destruct (pc x) eqn:Ep; try done. intros [= <-].
  apply (alike_goto _ _ _ _ E). idle_turn Ep.
Qed.

Lemma alike_shutdown s s' : shutdown s = Some s' -> alike s s'.
Proof.
  unfold shutdown. destruct (main s); [| |destruct (forallb _ _) eqn:Hx|]; try done; intros [= <-].
  - done.
  - split; try done. intros a. unfold turn, notify_all. cbn.
    induction (workers_ s) as [|x l IH]; cbn; [done|]. rewrite IH. f_equal.
    unfold is_asleep, turn_of. now destruct (pc x) eqn:Ep; cbn; rewrite ?Ep.
  - split; try done. intros a. symmetry. apply flat_map_none. intros w x E.
    pose proof (elem_of_forallb _ _ w x Hx E) as Hx1. unfold has_exited in Hx1.
    unfold turn_of. now destruct (pc x).
Qed.

Lemma history_new c init s tr : base s -> history c s tr ->
  history c (newActor init s) (tr ++ [Created (length (owners_ s)) init]).
Proof.
  intros [Ho Hb] Hh. set (n := length (owners_ s)).
  assert (Hnew : owners_ s !! n = None) by (apply lookup_ge_None_2; subst n; lia).
  assert (Hown : forall a, owners_ (newActor init s) !! a =
    if decide (n = a) then Some (mkActor (fun _ => newMPSCQueue) false init init)
    else owners_ s !! a).
  { intros a. cbn. case_decide as Hc; [subst a; now apply list_lookup_middle|].
    destruct (decide (a < n)%nat); [now apply lookup_app_l|].
    rewrite lookup_app_r by (subst n; lia).
    rewrite (lookup_ge_None_2 (owners_ s)) by (subst n; lia).
    destruct (a - length (owners_ s))%nat as [|k] eqn:Ek; [subst n; lia|]. now destruct k. }
  split.
  - intros a b st. rewrite Hown, sent_app, handled_app. cbn [sent handled omap list_omap].
    rewrite !app_nil_r. case_decide; [|now apply (fifo _ _ _ Hh)]. subst a. intros [= <-].
    destruct (no_history _ _ _ Hh n b Hnew) as [-> ->].
    cbn [mailbox app]. rewrite contents_new, app_nil_r.
    change (turn (newActor init s) n) with (turn s n).
    replace (turn s n) with (@nil (ActorPriority * message)); [done|].
    symmetry. apply flat_map_none. intros w x E.
    destruct (turn_of n x) eqn:Et; [done|].
    assert (Hin : n ∈ worker_tokens x) by (apply turn_of_token; now rewrite Et).
    destruct (ownership_claimed w x s n Ho E Hin) as (st & E1 & _). congruence.
  - intros a b. rewrite Hown, sent_app, handled_app. cbn. rewrite !app_nil_r.
    case_decide; [done|]. now apply (no_history _ _ _ Hh).
  - intros a st. rewrite Hown, replay_snoc. case_decide; [now intros [= <-]|].
    now apply (replayed _ _ _ Hh).
  - rewrite List.filter_app, app_nil_r. apply (counted _ _ _ Hh).
  - intros p. rewrite first_delivery_snoc. cbn. rewrite (delivered _ _ _ Hh p).
    destruct (getAttribute c p); [done|]. now destruct (first_delivery p tr).
Qed.

Lemma history_send c a band m s s' tr : sendPush a band m s = Some s' -> history c s tr ->
  history c s' (tr ++ [Sent a band m]).
Proof.
  unfold sendPush. destruct (owners_ s !! a) as [st0|] eqn:Ea; cbn; [|done]. intros [= <-] Hh.
  set (f := set_mailbox band (push m (mailbox st0 band))).
  assert (Hown : forall b, owners_ (set_actor a f s) !! b =
    if decide (a = b) then Some (f st0) else owners_ s !! b).
  { intros b. rewrite lookup_set_actor. case_decide; [|done]. now rewrite Ea. }
  split; cbn [owners_ set_senders].
  - intros a' b st. rewrite Hown, sent_app, handled_app. cbn [sent handled omap list_omap].
    rewrite app_nil_r. change (turn (set_senders _ _) a') with (turn s a').
    case_decide as Hc; [subst a'; intros [= <-]|intros E].
    + rewrite (fifo _ _ _ Hh a b st0 Ea). subst f. cbn [mailbox set_mailbox].
      destruct (decide (band = b)) as [<-|].
      * rewrite decide_True, fn_lookup_insert, contents_push by done. now rewrite <- !app_assoc.
      * rewrite decide_False, fn_lookup_insert_ne, app_nil_r by (done || intros []; done). done.
    + rewrite decide_False, app_nil_r by (intros []; done). now apply (fifo _ _ _ Hh).
  - intros a' b. rewrite Hown, sent_app, handled_app. case_decide; [done|].
    intros E'%(no_history _ _ _ Hh a' b). destruct E' as [-> ->]. cbn.
    now rewrite decide_False by (intros []; done).
  - intros a' st. rewrite Hown, replay_snoc. case_decide as Hc; [|now apply (replayed _ _ _ Hh)].
    subst a'. intros [= <-]. exact (replayed _ _ _ Hh a st0 Ea).
  - rewrite List.filter_app, app_nil_r. apply (counted _ _ _ Hh).
  - intros p. rewrite first_delivery_snoc. cbn. rewrite (delivered _ _ _ Hh p).
    destruct (getAttribute c p); [done|]. now destruct (first_delivery p tr).
Qed.

Lemma history_exec fenced c l s s' e tr : exec fenced l s = Some (s', e) -> base s ->
  history c s tr -> history c s' (tr ++ e).
Proof.
  intros E Hb Hh. destruct l as [init|a band m|i wakes|w outcome wakes|w|w|]; cbn in E.
  - injection E as <- <-. now apply history_new.
  - destruct (sendPush a band m s) eqn:E1; [|done]. injection E as <- <-. now apply (history_send _ _ _ _ s).
  - destruct (senderStep i wakes s) eqn:E1; [|done]. injection E as <- <-. rewrite app_nil_r.
    eapply history_alike; [eapply alike_sender_step|]; done.
  - apply workerStep_inv in E as (x & Ex & Hw). now apply (history_worker fenced c w x s).
  - destruct (flush w s) eqn:E1; [|done]. injection E as <- <-. rewrite app_nil_r.
    eapply history_alike; [eapply alike_flush|]; done.
  - destruct (spurious w s) eqn:E1; [|done]. injection E as <- <-. rewrite app_nil_r.
    eapply history_alike; [eapply alike_spurious|]; done.
  - destruct (shutdown s) eqn:E1; [|done]. injection E as <- <-. rewrite app_nil_r.
    eapply history_alike; [eapply alike_shutdown|]; done.
Qed.

Lemma history_started n c : history c (started n c) [].
Proof.
  split; try done. intros p. cbn. now destruct (getAttribute c p).
Qed.

Lemma history_reach fenced n c s tr : reach fenced n c s tr -> history c s tr.
Proof.
  induction 1 as [|l s tr s' e Hr IH E]; [apply history_started|].
  apply (history_exec fenced c l s); [done|now apply (base_reach fenced n c s tr)|done].
Qed.

(** ** Progress: a queued actor has a worker to take it *)

Definition no_ready (s : scheduler) : Prop := forall p, ready_ s p = [].

Definition awake (p : point) : Prop := match p with Asleep | Exited => False | _ => True end.

Record lively (n : nat) (s : scheduler) : Prop := {
  waiting_empty w x : workers_ s !! w = Some x -> pc x = Waiting -> no_ready s;
  exited_down w x : workers_ s !! w = Some x -> pc x = Exited -> shuttingDown_ s = true;
  main_running : main s = Running -> shuttingDown_ s = false /\ length (workers_ s) = n;
  ready_awake : no_ready s \/ (exists w x, workers_ s !! w = Some x /\ awake (pc x))
    \/ (forall w x, workers_ s !! w = Some x -> pc x = Exited);
}.

Lemma no_ready_pop s : popHighest (ready_ s) = None -> no_ready s.
Proof. exact (popHighest_none _). Qed.

Lemma lock_free_waiting s w x : lock_free s = true -> workers_ s !! w = Some x -> pc x <> Waiting.
Proof.
  unfold lock_free. intros Hl E Ep. apply negb_true_iff in Hl.
  assert (existsb holds_lock (workers_ s) = true); [|congruence].
  apply existsb_exists. exists x. split; [apply list_elem_of_In; by eapply list_elem_of_lookup_2|].
  unfold holds_lock. now rewrite Ep.
Qed.

(** Moving one worker: it stays awake, or nothing is queued. *)
Lemma lively_move n s s' w y x : workers_ s !! w = Some x ->
  workers_ s' = <[w := y]> (workers_ s) ->
  (forall b, ready_ s b = [] -> ready_ s' b = []) ->
  shuttingDown_ s' = shuttingDown_ s -> main s' = main s ->
  (pc y = Waiting -> no_ready s') -> (pc y = Exited -> shuttingDown_ s = true) ->
  awake (pc y) \/ no_ready s' ->
  lively n s -> lively n s'.
Proof.
  intros E Ew Hr Hd Hm Hwait Hexit Haw Hs.
  assert (Hold : forall w' z, workers_ s' !! w' = Some z ->
    z = y \/ workers_ s !! w' = Some z).
  { intros w' z. rewrite Ew. intros [(-> & <- & _)|(_ & ?)]%list_lookup_insert_Some; auto. }
  split.
  - intros w' z [->|E']%Hold Ey; [now apply Hwait|].
    intros b. apply Hr. now apply (waiting_empty _ _ Hs w' z).
  - intros w' z [->|E']%Hold Ey; rewrite Hd; [now apply Hexit|now apply (exited_down _ _ Hs w' z)].
  - rewrite Hm, Hd, Ew, length_insert. apply (main_running _ _ Hs).
  - destruct Haw as [Haw|]; [|now left]. right. left. exists w, y.
    rewrite Ew. split; [|done]. apply list_lookup_insert_eq. now apply lookup_lt_Some in E.
Qed.

Lemma lively_goto n s w p x : workers_ s !! w = Some x ->
  (p = Waiting -> no_ready s) -> (p = Exited -> shuttingDown_ s = true) ->
  awake p \/ no_ready s -> lively n s -> lively n (goto w p s).
Proof.
  intros E Hw Hx Ha. now apply (lively_move n s _ w _ x E (workers_goto _ _ _ _ E)).
Qed.

Lemma lively_plain n s w p x : workers_ s !! w = Some x ->
  match p with Waiting | Asleep | Exited => False | _ => True end ->
  lively n s -> lively n (goto w p s).
Proof.
  intros E Hp. apply (lively_goto _ _ _ _ _ E); [now intros ->|now intros ->|left; now destruct p].
Qed.

Lemma lively_pop n s w x : workers_ s !! w = Some x -> lively n s -> lively n (popReady_ w s).
Proof.
  intros E Hs. unfold popReady_. destruct (popHighest (ready_ s)) as [[a r]|] eqn:Er.
  - apply (lively_move n s _ w (mkWorker (AtTake a High []) (buffered x)) x E); try done; [|intros b Hb|now left].
    + exact (workers_goto w _ (set_ready (fun _ => r) s) x E).
    + cbn. apply popHighest_pop in Er as (p & Ep & Eo).
      destruct (decide (b = p)) as [->|]; [congruence|now rewrite Eo].
  - pose proof (no_ready_pop s Er). destruct (shuttingDown_ s) eqn:Ed.
    + apply (lively_goto _ _ _ _ _ E); auto.
    + now apply (lively_plain _ _ _ _ _ E).
Qed.

Lemma all_exited_or s :
  (forall w x, workers_ s !! w = Some x -> pc x = Exited) \/
  exists w x, workers_ s !! w = Some x /\ pc x <> Exited.
Proof.
  induction (workers_ s) as [|x l IH]; [left; intros w x; now rewrite lookup_nil|].
  destruct (has_exited x) eqn:Ex; unfold has_exited in Ex.
  - destruct IH as [IH|(w & y & E & Hy)]; [left|right; exists (S w), y; auto].
    intros [|w] y; cbn; [|apply IH]. intros [= <-]. now destruct (pc x).
  - right. exists 0%nat, x. split; [done|]. intros Hx. now rewrite Hx in Ex.
Qed.

Lemma lively_enqueue n b p wakes s s' : enqueueReady_ b p wakes s = Some s' ->
  lively n s -> lively n s'.
Proof.
  unfold enqueueReady_. destruct (lock_free s) eqn:El; [|done]. intros E Hs.
  set (s1 := set_ready _ s) in *.
  assert (Hw : forall w x, workers_ s1 !! w = Some x -> pc x <> Waiting)
    by (intros w x; apply (lock_free_waiting s w x El)).
  assert (Hawake : (exists w x, workers_ s' !! w = Some x /\ awake (pc x)) \/
                   (forall w x, workers_ s' !! w = Some x -> pc x = Exited)).
  { destruct wakes as [w|].
    - revert E. unfold notify_one. destruct (workers_ s1 !! w) as [x|] eqn:Ex; cbn; [|done].
      destruct (is_asleep x); [|done]. intros [= <-]. left. exists w, (mkWorker AtWait (buffered x)).
      split; [|done]. rewrite (workers_goto _ _ s1 x Ex). apply list_lookup_insert_eq.
      now apply lookup_lt_Some in Ex.
    - apply notify_one_none in E as [-> Hn].
      destruct (all_exited_or s1) as [|(w & x & Ex & Hx)]; [now right|left].
      exists w, x. split; [done|]. specialize (Hn w x Ex). now destruct (pc x). }
  apply notify_one_goto in E as [->|(w & x & Ex & Ep & ->)]; split; try (right; exact Hawake).
  - intros w x Ew Ep. now destruct (Hw w x Ew).
  - apply (exited_down _ _ Hs).
  - apply (main_running _ _ Hs).
  - intros w' y. rewrite (workers_goto _ _ s1 x Ex).
    intros [(-> & <- & _)|(_ & E')]%list_lookup_insert_Some; [done|].
    intros Ey. now destruct (Hw w' y E').
  - intros w' y. rewrite (workers_goto _ _ s1 x Ex).
    intros [(-> & <- & _)|(_ & E')]%list_lookup_insert_Some; [done|]. apply (exited_down _ _ Hs w' y E').
  - rewrite (workers_goto _ _ s1 x Ex), length_insert. apply (main_running _ _ Hs).
Qed.

Lemma lively_same n s s' : workers_ s' = workers_ s -> ready_ s' = ready_ s ->
  shuttingDown_ s' = shuttingDown_ s -> main s' = main s -> lively n s -> lively n s'.
Proof.
  intros Ew Er Ed Em Hs. split; unfold no_ready; rewrite ?Ew, ?Er, ?Ed, ?Em; apply Hs.
Qed.

Lemma lively_worker fenced n w x s s' e : workers_ s !! w = Some x ->
  worker_step fenced w x s (pc x) s' e -> lively n s -> lively n s'.
Proof.
  intros E Hw Hs. remember (pc x) as p eqn:Ep. symmetry in Ep. destruct Hw.
  - now apply (lively_pop _ _ _ x).
  - unfold waitIsOver. destruct (shuttingDown_ s); cbn; [now apply (lively_plain _ _ _ _ _ E)|].
    destruct (popHighest (ready_ s)) eqn:Er; [now apply (lively_plain _ _ _ _ _ E)|].
    pose proof (no_ready_pop s Er). apply (lively_goto _ _ _ _ _ E); auto; done.
  - pose proof (waiting_empty _ _ Hs w x E Ep). apply (lively_goto _ _ _ _ _ E); auto; done.
  - apply (lively_plain n _ w _ x); [exact E|subst next; now destruct band|].
    now apply (lively_same n s).
  - now apply (lively_plain _ _ _ _ _ E).
  - apply (lively_plain n _ w _ x); [exact E|done|]. now apply (lively_same n s).
  - apply (lively_move n s _ w (mkWorker (AtCheck a High) (Some a)) x E); try done. now left.
  - apply (lively_plain _ _ _ _ _ E); [|done].
    destruct (isEmpty (mailbox st band)); [now destruct band|done].
  - now apply (lively_plain _ _ _ _ _ E).
  - apply (lively_plain n _ w _ x); [exact E|done|]. now apply (lively_same n s).
  - now apply (lively_plain _ _ _ _ _ E).
  - now apply (lively_plain _ _ _ _ _ E).
  - apply (lively_enqueue _ _ _ _ _ _ H1). now apply (lively_plain _ _ _ _ _ E).
Qed.

Lemma lively_shutdown n s s' : shutdown s = Some s' -> lively n s -> lively n s'.
Proof.
  unfold shutdown. intros E Hs. destruct (main s) eqn:Em;
    [| |destruct (forallb _ _) eqn:Hx|]; try done; injection E as <-.
  - split; [apply (waiting_empty _ _ Hs)|done|done|apply (ready_awake _ _ Hs)].
  - assert (Hmap : forall w y, workers_ (notify_all s) !! w = Some y ->
      exists x, workers_ s !! w = Some x /\
        ((pc x = Asleep /\ pc y = AtWait) \/ (pc x <> Asleep /\ y = x))).
    { intros w y. rewrite lookup_notify_all.
      destruct (workers_ s !! w) as [x|]; cbn; [|done]. intros [= <-]. exists x.
      split; [done|]. unfold is_asleep. destruct (pc x); auto. }
    split; cbn [workers_ ready_ shuttingDown_ main set_main]; try done.
    + intros w y (x & E & [[Hx ->]|[Hx ->]])%Hmap Ey; [done|]. now apply (waiting_empty _ _ Hs w x).
    + destruct (ready_awake _ _ Hs) as [|[(w & x & E & Hx)|Hx]]; [now left|right; left|right].
      * destruct (workers_ (notify_all s) !! w) as [y|] eqn:Ey.
        -- exists w, y. split; [done|].
           apply Hmap in Ey as (x' & E' & [[_ ->]|[_ ->]]); [done|].
           now replace x' with x by congruence.
        -- now rewrite lookup_notify_all, E in Ey.
      * right. intros w y (x & E & [[Ha _]|[_ ->]])%Hmap; [|now apply (Hx w)].
        specialize (Hx w x E). congruence.
  - split; cbn [workers_ ready_ shuttingDown_ main set_main set_workers]; try done.
    right. right. intros w x. done.
Qed.

Lemma lively_exec fenced n l s s' e : exec fenced l s = Some (s', e) -> base s ->
  lively n s -> lively n s'.
Proof.
  intros E [_ Hb] Hs. destruct l as [init|a band m|i wakes|w outcome wakes|w|w|]; cbn in E.
  - injection E as <- <-. now apply (lively_same n s).
  - revert E. unfold sendPush. destruct (owners_ s !! a); [|done]. intros [= <- <-].
    now apply (lively_same n s).
  - revert E. unfold senderStep.
    destruct (senders s !! i) as [[a b|a b]|]; cbn; [| |done].
    + destruct (owners_ s !! a) as [st|]; cbn; [|done].
      destruct (claimed st); intros [= <- <-]; now apply (lively_same n s).
    + destruct (enqueueReady_ a b wakes s) as [s1|] eqn:E1; cbn; [|done]. intros [= <- <-].
      apply (lively_same n s1); try done. now apply (lively_enqueue _ _ _ _ _ _ E1).
  - apply workerStep_inv in E as (x & Ex & Hw). now apply (lively_worker fenced n w x s s' e).
  - revert E. unfold flush. destruct (workers_ s !! w) as [x|] eqn:Ex; cbn; [|done].
    destruct (buffered x) as [a|] eqn:Eb; cbn; [|done]. intros [= <- <-].
    apply (lively_move n s _ w (mkWorker (pc x) None) x Ex); try done; cbn.
    + intros Ep. now apply (waiting_empty _ _ Hs w x).
    + intros Ep. now apply (exited_down _ _ Hs w x).
    + left. specialize (Hb w x Ex). unfold buffer_ok in Hb. rewrite Eb in Hb.
      specialize (Hb ltac:(eauto)). now destruct (pc x).
  - revert E. unfold spurious. destruct (workers_ s !! w) as [x|] eqn:Ex; cbn; [|done].
    destruct (is_asleep x); [|done]. intros [= <- <-]. now apply (lively_plain _ _ _ _ _ Ex).
  - destruct (shutdown s) eqn:E1; [|done]. injection E as <- <-. now apply (lively_shutdown n s).
Qed.

Lemma lively_started n c : (0 < n)%nat -> lively n (started n c).
Proof.
  intros Hn. split; cbn.
  - now intros w x [-> _]%lookup_replicate.
  - now intros w x [-> _]%lookup_replicate.
  - intros _. now rewrite length_replicate.
  - now left.
Qed.

(** ** No lost wake-up, when the loads wait for the store

    An unclaimed actor with a message has someone who will claim it: a sender
    before its compare-and-exchange, or a worker that has yet to look at the
    band the message is in. *)

Definition index (b : ActorPriority) : nat :=
  match b with High => 0 | Medium => 1 | Low => 2 end.

Definition will_look (a : nat) (st : ActorState) (p : point) : Prop :=
  match p with
  | AtReclaim a' => a' = a
  | AtCheck a' k =>
      a' = a /\ exists b, (index k <= index b)%nat /\ contents (mailbox st b) <> []
  | _ => False
  end.

Definition watched (s : scheduler) (a : nat) (st : ActorState) : Prop :=
  (exists b, Pushed a b ∈ senders s) \/
  (exists w x, workers_ s !! w = Some x /\ will_look a st (pc x)).

Definition looks_at (p : point) : option nat :=
  match p with AtReclaim a | AtCheck a _ | AtPick a _ => Some a | _ => None end.

Record watchful (s : scheduler) : Prop := {
  drained_first w x a : workers_ s !! w = Some x -> buffered x = Some a -> pc x = AtCheck a High;
  looks_exist w x a : workers_ s !! w = Some x -> looks_at (pc x) = Some a ->
    is_Some (owners_ s !! a);
  pushed_exist a b : Pushed a b ∈ senders s -> is_Some (owners_ s !! a);
  wakes a st b : owners_ s !! a = Some st -> claimed st = false ->
    contents (mailbox st b) <> [] -> watched s a st;
}.

(** A step of the worker [w] that does not take its attention off a message. *)
Lemma watchful_move s s' w y x : workers_ s !! w = Some x ->
  workers_ s' = <[w := y]> (workers_ s) -> senders s' = senders s ->
  (forall a, is_Some (owners_ s !! a) -> is_Some (owners_ s' !! a)) ->
  (forall a, buffered y = Some a -> pc y = AtCheck a High) ->
  (forall a, looks_at (pc y) = Some a -> is_Some (owners_ s' !! a)) ->
  (forall a st' b, owners_ s' !! a = Some st' -> claimed st' = false ->
     contents (mailbox st' b) <> [] ->
     will_look a st' (pc y) \/
     exists st, owners_ s !! a = Some st /\ claimed st = false /\ mailbox st = mailbox st' /\
       (will_look a st (pc x) -> will_look a st' (pc y))) ->
  watchful s -> watchful s'.
Proof.
  intros E Ew Es Hown Hbuf Hlook Hst Hs.
  assert (Hold : forall w' z, workers_ s' !! w' = Some z ->
    z = y \/ workers_ s !! w' = Some z).
  { intros w' z. rewrite Ew. intros [(-> & <- & _)|(_ & ?)]%list_lookup_insert_Some; auto. }
  split.
  - intros w' z a [->|E']%Hold; [apply Hbuf|now apply (drained_first _ Hs w')].
  - intros w' z a [->|E']%Hold; [apply Hlook|].
    intros Ez. apply Hown. now apply (looks_exist _ Hs w' z).
  - intros a b. rewrite Es. intros Hin. apply Hown. now apply (pushed_exist _ Hs a b).
  - intros a st' b Ea Ec Hp. destruct (Hst a st' b Ea Ec Hp) as [Hl|(st & E1 & E2 & E3 & Hn)].
    + right. exists w, y. rewrite Ew. split; [|done].
      apply list_lookup_insert_eq. now apply lookup_lt_Some in E.
    + destruct (wakes _ Hs a st b E1 E2 ltac:(now rewrite E3)) as [[b' Hb]|(w' & z & Ez & Hz)].
      * left. exists b'. now rewrite Es.
      * right. destruct (decide (w' = w)) as [->|Hne].
        { exists w, y. rewrite Ew. split; [apply list_lookup_insert_eq; now apply lookup_lt_Some in E|].
          apply Hn. now replace x with z by congruence. }
        exists w', z. rewrite Ew, list_lookup_insert_ne by done. split; [done|].
        unfold will_look in *. now rewrite <- E3.
Qed.

Lemma watchful_goto s w p x : workers_ s !! w = Some x -> buffered x = None ->
  looks_at p = None \/ looks_at p = looks_at (pc x) ->
  (forall a st b, owners_ s !! a = Some st -> claimed st = false ->
     contents (mailbox st b) <> [] -> will_look a st (pc x) -> will_look a st p) ->
  watchful s -> watchful (goto w p s).
Proof.
  intros E Hb Hl Hw Hs.
  apply (watchful_move s _ w _ x E (workers_goto _ _ _ _ E)); try done; cbn.
  - now rewrite Hb.
  - intros a Ha. destruct Hl as [Hl|Hl]; [congruence|].
    apply (looks_exist _ Hs w x a E). congruence.
  - intros a st b Ea Ec Hp. right. exists st. repeat (split; [done|]). eauto.
Qed.

(** A worker that was not looking and now looks at nothing. *)
Lemma watchful_plain s w p x : workers_ s !! w = Some x -> buffered x = None ->
  looks_at (pc x) = None -> looks_at p = None -> watchful s -> watchful (goto w p s).
Proof.
  intros E Hb Hx Hp. apply (watchful_goto _ _ _ x); auto.
  intros a st b _ _ _. unfold will_look. now destruct (pc x).
Qed.

Lemma watchful_same s s' : workers_ s' = workers_ s -> senders s' = senders s ->
  owners_ s' = owners_ s -> watchful s -> watchful s'.
Proof.
  intros Ew Es Eo Hs. split; unfold watched; rewrite ?Ew, ?Es, ?Eo; apply Hs.
Qed.

Lemma watchful_claim s a : watchful s -> watchful (set_actor a (set_claimed true) s).
Proof.
  intros Hs. split; [apply (drained_first _ Hs)| | |].
  - intros w x b E Hl. rewrite lookup_set_actor. pose proof (looks_exist _ Hs w x b E Hl) as [st Hst].
    case_decide; [subst; rewrite Hst|]; eauto.
  - intros b p Hin. rewrite lookup_set_actor. pose proof (pushed_exist _ Hs b p Hin) as [st Hst].
    case_decide; [subst; rewrite Hst|]; eauto.
  - intros b st p. rewrite lookup_set_actor. case_decide; [|apply (wakes _ Hs)].
    destruct (owners_ s !! a); [|done]. intros [= <-]. done.
Qed.

Lemma lookup_actor_some a f s b : is_Some (owners_ s !! b) -> is_Some (owners_ (set_actor a f s) !! b).
Proof.
  intros [st Hst]. rewrite lookup_set_actor. case_decide; [subst; rewrite Hst|]; eauto.
Qed.

Lemma watchful_notify_one wakes s s' : notify_one wakes s = Some s' -> buffers_ok s ->
  watchful s -> watchful s'.
Proof.
  intros [->|(w & x & E & Ep & ->)]%notify_one_goto Hb; [done|].
  apply (watchful_plain _ _ _ x E); rewrite ?Ep; try done.
  apply (buffer_none s w x); [done..|now rewrite Ep].
Qed.

Lemma watchful_enqueue b p wakes s s' : enqueueReady_ b p wakes s = Some s' -> buffers_ok s ->
  watchful s -> watchful s'.
Proof.
  unfold enqueueReady_. destruct (lock_free s); [|done]. intros E Hb Hs.
  apply (watchful_notify_one _ _ _ E Hb). now apply (watchful_same s).
Qed.

Lemma claimed_by_worker s w x a st : ownership s -> workers_ s !! w = Some x ->
  a ∈ worker_tokens x -> owners_ s !! a = Some st -> claimed st = true.
Proof.
  intros Ho E Hin Ea. destruct (ownership_claimed w x s a Ho E Hin) as (st' & E' & Ec). congruence.
Qed.

Lemma index_next k k' b : nextBand k = Some k' -> (index k <= index b)%nat -> b <> k ->
  (index k' <= index b)%nat.
Proof. destruct k, b; cbn; intros [= <-]; cbn; try lia; done. Qed.

Lemma index_last k b : nextBand k = None -> (index k <= index b)%nat -> b = k.
Proof. destruct k, b; cbn; try done; lia. Qed.

Lemma watchful_worker w x s s' e : base s -> workers_ s !! w = Some x ->
  worker_step true w x s (pc x) s' e -> watchful s -> watchful s'.
Proof.
  intros [Ho Hb] E Hw Hs.
  assert (Hn : match pc x with AtCheck _ _ | AtReclaim _ | AtPop => False | _ => True end ->
               buffered x = None) by (intros; now apply (buffer_none s w x)).
  remember (pc x) as p eqn:Ep. symmetry in Ep. destruct Hw; try specialize (Hn I).
  - unfold popReady_. destruct (popHighest (ready_ s)) as [[a r]|];
      [|destruct (shuttingDown_ s)]; apply (watchful_plain _ _ _ x); rewrite ?Ep; try done.
    now apply (watchful_same s).
  - apply (watchful_plain _ _ _ x); rewrite ?Ep; try done. now destruct (waitIsOver s).
  - apply (watchful_plain _ _ _ x); rewrite ?Ep; done.
  - (* the actor whose band is taken is claimed *)
    assert (Hin : a ∈ worker_tokens x) by (unfold worker_tokens; rewrite Ep; set_solver).
    pose proof (claimed_by_worker s w x a st Ho E Hin H1) as Hc.
    apply (watchful_move s _ w (mkWorker next (buffered x)) x E); try done.
    + exact (workers_goto w _ (set_actor _ _ s) x E).
    + intros b. apply lookup_actor_some.
    + cbn. now rewrite Hn.
    + subst next. now destruct band.
    + intros b st'. cbn [owners_ goto set_workers]. rewrite lookup_set_actor.
      case_decide; [|intros p Ea' Ec' _; right; exists st'; rewrite Ep; done].
      subst b. rewrite H1. intros p [= <-]. cbn. congruence.
  - apply (watchful_plain _ _ _ x); rewrite ?Ep; done.
  - assert (Hin : a ∈ worker_tokens x) by (unfold worker_tokens; rewrite Ep; set_solver).
    pose proof (claimed_by_worker s w x a st Ho E Hin H1) as Hc.
    apply (watchful_move s _ w (mkWorker (AtBatch a todo) (buffered x)) x E); try done.
    + exact (workers_goto w _ (handle a m outcome s) x E).
    + intros b. apply lookup_actor_some.
    + cbn. now rewrite Hn.
    + intros b st'. cbn [owners_ goto set_workers handle published_promises].
      rewrite lookup_set_actor.
      case_decide; [|intros p Ea' Ec' _; right; exists st'; rewrite Ep; done].
      subst b. rewrite H1. intros p [= <-]. cbn. congruence.
  - apply (watchful_move s _ w (mkWorker (AtCheck a High) (Some a)) x E); try done.
    + now intros b [= <-].
    + intros b [= <-]. cbn [owners_ set_worker set_workers].
      destruct (ownership_claimed w x s a Ho E) as (st & -> & _); [|eauto].
      unfold worker_tokens. rewrite Ep. set_solver.
    + intros b st' p Ea' Ec' _. right. exists st'. rewrite Ep. done.
  - specialize (H1 eq_refl). apply (watchful_goto _ _ _ x); try done; rewrite Ep.
    + destruct (isEmpty _); [destruct band|]; cbn; auto.
    + intros b st' p Ea' Ec' Hp [-> (k & Hk & Hne)].
      replace st' with st in * by congruence.
      destruct (isEmpty (mailbox st band)) eqn:Ee; [|done]. apply isEmpty_contents in Ee.
      destruct (nextBand band) as [band'|] eqn:En.
      * split; [done|]. exists k. split; [|done]. apply (index_next band); congruence.
      * pose proof (index_last band k En Hk). congruence.
  - apply (watchful_goto _ _ _ x); [done|done|now left| |done]. rewrite Ep.
    intros b st' p Ea' Ec' _ Hl. cbn in Hl. congruence.
  - apply (watchful_goto _ _ _ x); [exact E|done|right; now rewrite Ep| |now apply watchful_claim].
    rewrite Ep. intros b st' p. rewrite lookup_set_actor. cbn [will_look].
    case_decide; [|congruence]. rewrite H2. intros [= <-]. done.
  - apply (watchful_goto _ _ _ x); [done|done|right; now rewrite Ep|now rewrite Ep|done].
  - apply (watchful_goto _ _ _ x); [done|done|now left|now rewrite Ep|done].
  - apply (watchful_enqueue _ _ _ _ _ H1).
    + eapply buffers_goto; [done| |done]. rewrite Hn. now intros [].
    + apply (watchful_plain _ _ _ x); rewrite ?Ep; done.
Qed.

Lemma watchful_senders l s : watchful s ->
  (forall c p, Pushed c p ∈ l -> Pushed c p ∈ senders s) ->
  (forall c p st, owners_ s !! c = Some st -> claimed st = false ->
     Pushed c p ∈ senders s -> Pushed c p ∈ l) ->
  watchful (set_senders (fun _ => l) s).
Proof.
  intros Hs Hin Hkeep. split; [apply (drained_first _ Hs)|apply (looks_exist _ Hs)| |].
  - intros c p Hp%Hin. now apply (pushed_exist _ Hs c p).
  - intros c st b Ec Hc Hp. destruct (wakes _ Hs c st b Ec Hc Hp) as [[b' Hb]|Hw]; [left|now right].
    exists b'. now apply (Hkeep c b' st).
Qed.

Lemma elem_of_deleted {A} (l : list A) i x y : l !! i = Some x ->
  y ∈ l -> y <> x -> y ∈ delete i l.
Proof.
  intros E%delete_Permutation Hin. revert Hin.
  rewrite list_elem_of_In. intros [->|?]%(Permutation_in _ E) ?; [done|]. now apply list_elem_of_In.
Qed.

Lemma elem_of_delete_in {A} (l : list A) i x y : l !! i = Some x -> y ∈ delete i l -> y ∈ l.
Proof.
  intros E%delete_Permutation Hin.
  apply list_elem_of_In, (Permutation_in _ (Permutation_sym E)), list_elem_of_In. set_solver.
Qed.

Lemma senders_enqueue b p wakes s s' : enqueueReady_ b p wakes s = Some s' -> senders s' = senders s.
Proof.
  unfold enqueueReady_. destruct (lock_free s); [|done].
  now intros [->|(w & x & ? & ? & ->)]%notify_one_goto.
Qed.

Lemma watchful_sender_step i wake s s' : senderStep i wake s = Some s' -> base s ->
  watchful s -> watchful s'.
Proof.
  unfold senderStep. intros E [Ho Hb] Hs.
  destruct (senders s !! i) as [[a b|a b]|] eqn:Ei; cbn in E; [| |done].
  - destruct (owners_ s !! a) as [st|] eqn:Ea; cbn in E; [|done].
    destruct (claimed st) eqn:Ec; injection E as <-.
    + apply (watchful_senders (delete i (senders s)) s Hs).
      * intros c p. by apply (elem_of_delete_in _ _ _ _ Ei).
      * intros c p st' E' Ec' Hin. apply (elem_of_deleted _ _ _ _ Ei Hin). intros [= -> ->]. congruence.
    + apply (watchful_senders (<[i := Claimed a b]> (senders s)) (set_actor a (set_claimed true) s));
        [now apply watchful_claim| |].
      * intros c p [j Hj]%list_elem_of_lookup.
        apply list_lookup_insert_Some in Hj as [(_ & ? & _)|(_ & Hj)]; [done|].
        by eapply list_elem_of_lookup_2.
      * intros c p st'. rewrite lookup_set_actor, Ea. case_decide as Hca; [now intros [= <-]|].
        intros _ _ [j Hj]%list_elem_of_lookup. apply list_elem_of_lookup. exists j.
        rewrite list_lookup_insert_ne; [done|]. intros ->. cbn in Hj. congruence.
  - destruct (enqueueReady_ a b wake s) as [s1|] eqn:E1; cbn in E; [|done]. injection E as <-.
    pose proof (watchful_enqueue _ _ _ _ _ E1 Hb Hs) as H1.
    apply (watchful_senders (delete i (senders s1)) s1 H1);
      rewrite (senders_enqueue _ _ _ _ _ E1).
    + intros c p. by apply (elem_of_delete_in _ _ _ _ Ei).
    + intros c p st' _ _ Hin. by apply (elem_of_deleted _ _ _ _ Ei Hin).
Qed.

Lemma watchful_send a band m s s' : sendPush a band m s = Some s' -> watchful s -> watchful s'.
Proof.
  unfold sendPush. destruct (owners_ s !! a) as [st0|] eqn:Ea; cbn; [|done]. intros [= <-] Hs.
  set (f := set_mailbox band _).
  split; cbn [owners_ workers_ senders set_senders].
  - apply (drained_first _ Hs).
  - intros w x b E Hl. apply lookup_actor_some. now apply (looks_exist _ Hs w x).
  - intros c p [Hin|[= -> ->]%list_elem_of_singleton]%elem_of_app; apply lookup_actor_some; [|eauto].
    now apply (pushed_exist _ Hs c p).
  - intros c st p. rewrite lookup_set_actor. case_decide as Hc.
    + subst c. intros _ _ _. left. exists band. cbn. set_solver.
    + intros Ec Hcl Hp. destruct (wakes _ Hs c st p Ec Hcl Hp) as [[b' Hb]|Hw]; [left|now right].
      exists b'. cbn. set_solver.
Qed.

Lemma watchful_flush w s s' : flush w s = Some s' -> watchful s -> watchful s'.
Proof.
  unfold flush. destruct (workers_ s !! w) as [x|] eqn:E; cbn; [|done].
  destruct (buffered x) as [a|] eqn:Eb; cbn; [|done]. intros [= <-] Hs.
  pose proof (drained_first _ Hs w x a E Eb) as Ep.
  apply (watchful_move s _ w (mkWorker (pc x) None) x E); try done.
  - intros b. apply lookup_actor_some.
  - intros b Hl. apply lookup_actor_some. now apply (looks_exist _ Hs w x).
  - intros b st p. cbn [owners_ set_worker set_workers]. rewrite lookup_set_actor, Ep.
    case_decide as Hc.
    + subst b. intros _ _ Hp. left. split; [done|]. exists p. split; [cbn; lia|done].
    + intros Eb' Hcl _. right. exists st. done.
Qed.

Lemma watchful_shutdown s s' : shutdown s = Some s' -> base s -> watchful s -> watchful s'.
Proof.
  unfold shutdown. intros E [Ho Hb] Hs. destruct (main s);
    [| |destruct (forallb _ _) eqn:Hx|]; try done; injection E as <-.
  - now apply (watchful_same s).
  - assert (Hmap : forall w y, workers_ (notify_all s) !! w = Some y ->
      exists x, workers_ s !! w = Some x /\ buffered y = buffered x /\
        ((pc x = Asleep /\ pc y = AtWait) \/ y = x)).
    { intros w y. rewrite lookup_notify_all.
      destruct (workers_ s !! w) as [x|]; cbn; [|done]. intros [= <-]. exists x.
      unfold is_asleep. destruct (pc x); cbn; auto. }
    split; cbn [workers_ owners_ senders set_main]; [| |apply (pushed_exist _ Hs)|].
    + intros w y a (x & E & Hbx & [[Hx ->]|[= ->]])%Hmap Hy; [|now apply (drained_first _ Hs w x)].
      rewrite Hbx in Hy. pose proof (drained_first _ Hs w x a E Hy). congruence.
    + intros w y a (x & E & _ & [[_ ->]|[= ->]])%Hmap Hl; [done|].
      now apply (looks_exist _ Hs w x).
    + intros a st b Ea Hc Hp. destruct (wakes _ Hs a st b Ea Hc Hp) as [|(w & x & E & Hl)];
        [now left|right].
      exists w, x. split; [|done]. change (workers_ (notify_all s) !! w = Some x).
      rewrite lookup_notify_all, E. cbn. f_equal.
      unfold is_asleep. now destruct (pc x).
  - split; cbn [workers_ owners_ senders set_main set_workers]; try done.
    + apply (pushed_exist _ Hs).
    + intros a st b Ea Hc Hp. destruct (wakes _ Hs a st b Ea Hc Hp) as [|(w & x & E & Hl)];
        [now left|].
      pose proof (elem_of_forallb _ _ w x Hx E) as Hx1. unfold has_exited in Hx1.
      now destruct (pc x).
Qed.

Lemma watchful_new init s : watchful s -> watchful (newActor init s).
Proof.
  intros Hs.
  assert (Hsome : forall a, is_Some (owners_ s !! a) -> is_Some (owners_ (newActor init s) !! a)).
  { intros a [st E]. exists st. now apply lookup_app_l_Some. }
  split; [apply (drained_first _ Hs)| | |].
  - intros w x a E Hl. apply Hsome. now apply (looks_exist _ Hs w x).
  - intros a b Hin. apply Hsome. now apply (pushed_exist _ Hs a b).
  - intros a st b. cbn [owners_ newActor set_owners].
    intros [E|[_ E]]%lookup_app_Some Hc Hp; [now apply (wakes _ Hs a st b)|].
    apply list_lookup_singleton_Some in E as [_ <-]. cbn [mailbox] in Hp. now rewrite contents_new in Hp.
Qed.

Lemma watchful_exec l s s' e : exec true l s = Some (s', e) -> base s -> watchful s -> watchful s'.
Proof.
  intros E Hb Hs. destruct l as [init|a band m|i wake|w outcome wake|w|w|]; cbn in E.
  - injection E as <- <-. now apply watchful_new.
  - destruct (sendPush a band m s) eqn:E1; [|done]. injection E as <- <-. by eapply watchful_send.
  - destruct (senderStep i wake s) eqn:E1; [|done]. injection E as <- <-. by eapply watchful_sender_step.
  - apply workerStep_inv in E as (x & Ex & Hw). by eapply watchful_worker.
  - destruct (flush w s) eqn:E1; [|done]. injection E as <- <-. by eapply watchful_flush.
  - destruct (spurious w s) eqn:E1; [|done]. injection E as <- <-. revert E1. unfold spurious.
    destruct (workers_ s !! w) as [x|] eqn:Ex; cbn; [|done].
    unfold is_asleep. destruct (pc x) eqn:Ep; try done. intros [= <-].
    apply (watchful_plain _ _ _ x Ex); rewrite ?Ep; try done. destruct Hb as [_ Hb].
    apply (buffer_none s w x); [done..|now rewrite Ep].
  - destruct (shutdown s) eqn:E1; [|done]. injection E as <- <-. by eapply watchful_shutdown.
Qed.

Lemma watchful_started n c : watchful (started n c).
Proof.
  split; cbn; try (intros w x a [-> _]%lookup_replicate; done); try done.
  now intros a b ?%elem_of_nil.
Qed.

Lemma watchful_reach n c s tr : reach true n c s tr -> watchful s.
Proof.
  induction 1 as [|l s tr s' e Hr IH E]; [apply watchful_started|].
  apply (watchful_exec l s s' e); [done|by eapply base_reach|done].
Qed.

Lemma lively_reach fenced n c s tr : (0 < n)%nat -> reach fenced n c s tr -> lively n s.
Proof.
  intros Hn. induction 1 as [|l s tr s' e Hr IH E]; [now apply lively_started|].
  apply (lively_exec fenced n l s s' e); [done|by eapply base_reach|done].
Qed.

(** ** What the scheduler promises *)

(** [a] is in the hands of the worker [w]: being drained or handled. *)
Definition in_turn (s : scheduler) (w a : nat) : Prop :=
  exists x, workers_ s !! w = Some x /\
    match pc x with
    | AtTake a' _ _ | AtBatch a' _ | AtRelease a' => a' = a
    | _ => False
    end.

(** Internal steps: what the program does by itself, short of a spurious
    wake-up of a waiting thread. *)
Definition internal (l : label) : Prop :=
  match l with SenderStep _ _ | WorkerStep _ _ _ | Flush _ => True | _ => False end.

Definition quiescent (fenced : bool) (s : scheduler) : Prop :=
  forall l, internal l -> exec fenced l s = None.

Lemma enqueue_enabled b p s : lock_free s = true ->
  exists wake s', enqueueReady_ b p wake s = Some s'.
Proof.
  intros Hl. unfold enqueueReady_. rewrite Hl. set (s1 := set_ready _ s).
  destruct (existsb is_asleep (workers_ s1)) eqn:Ea.
  - apply existsb_exists in Ea as (x & Hin & Hx). apply list_elem_of_In, list_elem_of_lookup in Hin as [w E].
    exists (Some w), (goto w AtWait s1). unfold notify_one. rewrite E. cbn. now rewrite Hx.
  - exists None, s1. unfold notify_one. now rewrite Ea.
Qed.

Lemma lock_free_goto w s x : workers_ s !! w = Some x -> lock_free s = true ->
  lock_free (goto w AtPop s) = true.
Proof.
  intros E Hl. unfold lock_free in *. apply negb_true_iff in Hl. apply negb_true_iff.
  destruct (existsb holds_lock (workers_ (goto w AtPop s))) eqn:He; [|done].
  apply existsb_exists in He as (y & Hin & Hy). apply list_elem_of_In, list_elem_of_lookup in Hin as [j Ej].
  rewrite (workers_goto _ _ _ _ E) in Ej.
  apply list_lookup_insert_Some in Ej as [(_ & <- & _)|(_ & Ej)]; [done|].
  assert (existsb holds_lock (workers_ s) = true); [|congruence].
  apply existsb_exists. exists y. split; [apply list_elem_of_In; by eapply list_elem_of_lookup_2|done].
Qed.

(** Where the workers of a quiescent state are. *)
Lemma quiescent_workers s : quiescent true s -> base s -> watchful s ->
  forall w x, workers_ s !! w = Some x -> pc x = Asleep \/ pc x = Exited.
Proof.
  intros Hq [Ho Hb] Hs.
  assert (Hstep : forall w o wk, workerStep true w o wk s = None)
    by (intros w o wk; exact (Hq (WorkerStep w o wk) I)).
  assert (Hl : lock_free s = true).
  { unfold lock_free. apply negb_true_iff. destruct (existsb holds_lock (workers_ s)) eqn:He; [|done].
    apply existsb_exists in He as (x & Hin & Hx).
    apply list_elem_of_In, list_elem_of_lookup in Hin as [w E].
    specialize (Hstep w None None). unfold workerStep in Hstep. rewrite E in Hstep. cbn in Hstep.
    unfold holds_lock in Hx. now destruct (pc x). }
  intros w x E.
  assert (Hf : buffered x = None).
  { destruct (buffered x) as [a|] eqn:Eb; [|done]. specialize (Hq (Flush w) I). cbn in Hq.
    unfold flush in Hq. rewrite E in Hq. cbn in Hq. now rewrite Eb in Hq. }
  assert (Hff : is_flushed x = true) by (unfold is_flushed; now rewrite Hf).
  assert (Howner : forall a, a ∈ worker_tokens x -> exists st, owners_ s !! a = Some st).
  { intros a Ha. destruct (ownership_claimed w x s a Ho E Ha) as (st & E' & _). eauto. }
  pose proof (looks_exist _ Hs w x) as Hlook. unfold worker_tokens in Howner.
  pose proof (Hstep w None) as Hw. unfold workerStep in Hw. rewrite E in Hw. cbn in Hw.
  rewrite Hl, Hff in Hw. pose proof (Hw None) as Hw0. cbn in Hw0.
  destruct (pc x) as [| | | |a band got|a [|[band m] todo]|a|a band|a|a band|a band|] eqn:Ep;
    try done; try (now left); try (now right); cbn in Howner; exfalso;
    try (destruct (Howner a) as [st Ea]; [constructor|]);
    try (destruct (Hlook a E eq_refl) as [st Ea]);
    try (rewrite Ea in Hw0; cbn in Hw0); try done.
  - now destruct (takeAll (mailbox st band)).
  - destruct (enqueue_enabled a band (goto w AtPop s) (lock_free_goto _ _ _ E Hl)) as (wk & s' & E1).
    specialize (Hw wk). now rewrite E1 in Hw.
Qed.

Lemma quiescent_lock s : (forall w x, workers_ s !! w = Some x -> pc x = Asleep \/ pc x = Exited) ->
  lock_free s = true.
Proof.
  intros Hw. unfold lock_free. apply negb_true_iff.
  destruct (existsb holds_lock (workers_ s)) eqn:He; [|done].
  apply existsb_exists in He as (x & Hin & Hx).
  apply list_elem_of_In, list_elem_of_lookup in Hin as [w E].
  unfold holds_lock in Hx. destruct (Hw w x E) as [Ep|Ep]; now rewrite Ep in Hx.
Qed.

Lemma quiescent_senders s : quiescent true s -> base s -> watchful s -> senders s = [].
Proof.
  intros Hq Hb Hs. pose proof (quiescent_lock s (quiescent_workers s Hq Hb Hs)) as Hl.
  destruct (senders s) as [|y ys] eqn:Es; [done|]. exfalso.
  assert (Hstep : forall wk, quietly (senderStep 0 wk s) = None)
    by (intros wk; exact (Hq (SenderStep 0 wk) I)).
  unfold senderStep in Hstep. rewrite Es in Hstep. cbn in Hstep. destruct y as [a b|a b].
  - destruct (pushed_exist _ Hs a b ltac:(rewrite Es; set_solver)) as [st Ea].
    specialize (Hstep None). now rewrite Ea in Hstep.
  - destruct (enqueue_enabled a b s Hl) as (wk & s' & E1). specialize (Hstep wk). now rewrite E1 in Hstep.
Qed.

Lemma quiescent_ready n s : (0 < n)%nat -> quiescent true s -> base s -> watchful s ->
  lively n s -> main s = Running -> no_ready s.
Proof.
  intros Hn Hq Hb Hs Hv Hm. destruct (main_running _ _ Hv Hm) as [Hd Hlen].
  pose proof (quiescent_workers s Hq Hb Hs) as Hw.
  assert (Hsleep : forall w x, workers_ s !! w = Some x -> pc x = Asleep).
  { intros w x E. destruct (Hw w x E) as [|Ep]; [done|].
    pose proof (exited_down _ _ Hv w x E Ep). congruence. }
  destruct (ready_awake _ _ Hv) as [|[(w & x & E & Ha)|Hx]]; [done| |].
  - exfalso. now rewrite (Hsleep w x E) in Ha.
  - exfalso. destruct (lookup_lt_is_Some_2 (workers_ s) 0) as [x E]; [lia|].
    specialize (Hx _ _ E). specialize (Hsleep _ _ E). congruence.
Qed.

Definition queued (s : scheduler) (a : nat) : Prop := a ∈ ready_tokens (ready_ s).

Lemma run_reach fenced n c ls s0 tr0 s tr : reach fenced n c s0 tr0 ->
  run fenced ls s0 = Some (s, tr) -> reach fenced n c s (tr0 ++ tr).
Proof.
  revert s0 tr0 tr. induction ls as [|l ls IH]; intros s0 tr0 tr Hr; cbn.
  - intros [= <- <-]. now rewrite app_nil_r.
  - destruct (exec fenced l s0) as [[s1 e1]|] eqn:E1; cbn; [|done].
    destruct (run fenced ls s1) as [[s2 e2]|] eqn:E2; cbn; [|done]. intros [= <- <-].
    rewrite app_assoc. apply (IH s1); [|done]. by eapply reach_exec.
Qed.

Lemma in_turn_token s w a : in_turn s w a ->
  exists x, workers_ s !! w = Some x /\ (0 < count a (worker_tokens x))%nat.
Proof.
  intros (x & E & Hx). exists x. split; [done|]. apply count_in. unfold worker_tokens.
  destruct (pc x); subst; try done; constructor.
Qed.

Lemma sole_holder s : ownership s ->
  (forall w w' a, in_turn s w a -> in_turn s w' a -> w = w') /\
  (forall w a, in_turn s w a -> ~ queued s a) /\ NoDup (ready_tokens (ready_ s)).
Proof.
  intros Ho.
  assert (Hone : forall a, (held s a <= 1)%nat)
    by (intros a; rewrite (Ho a); apply claims_le).
  assert (Hr : forall a, (count a (ready_tokens (ready_ s)) <= held s a)%nat).
  { intros a. rewrite held_split. unfold ready_tokens. rewrite !count_app. lia. }
  repeat split.
  - intros w w' a (x & E & Hx)%in_turn_token (x' & E' & Hx')%in_turn_token.
    destruct (decide (w' = w)); [done|]. pose proof (held_two w w' x x' s a E E' n).
    specialize (Hone a). lia.
  - intros w a (x & E & Hx)%in_turn_token Hq%count_in. specialize (Hone a).
    pose proof (count_delete worker_tokens a _ _ _ E) as Hd.
    rewrite held_split in Hone. unfold ready_tokens in Hq. rewrite !count_app in Hq. lia.
  - apply NoDup_ListNoDup, (NoDup_count_occ Nat.eq_dec). intros a. specialize (Hone a).
    specialize (Hr a). unfold count in Hr. lia.
Qed.

Lemma snoc_inv {A} (l : list A) x l1 y l2 : l ++ [x] = l1 ++ y :: l2 ->
  (l2 = [] /\ l1 = l /\ y = x) \/ exists l2', l2 = l2' ++ [x] /\ l = l1 ++ y :: l2'.
Proof.
  destruct l2 as [|z l2 _] using rev_ind.
  - intros [-> [= ->]]%app_inj_tail. now left.
  - rewrite app_comm_cons, app_assoc. intros [-> ->]%app_inj_tail. right. eauto.
Qed.

(** Every handler so far was called on the state its predecessors left. *)
Definition threaded (tr : list event) : Prop :=
  forall tr1 a b m args outcome tr2, tr = tr1 ++ Handled a b m args outcome :: tr2 ->
  exists v, replay a tr1 = Some v /\ args = callArguments v m.

Lemma threaded_exec fenced c l s s' e tr : exec fenced l s = Some (s', e) -> history c s tr ->
  threaded tr -> threaded (tr ++ e).
Proof.
  intros E Hh Ht.
  assert (Hs : e = [] \/ exists x, e = [x] /\
    forall a b m args o, x = Handled a b m args o ->
      exists v, replay a tr = Some v /\ args = callArguments v m).
  { destruct l as [init|a band m|i wake|w outcome wake|w|w|]; cbn in E.
    - injection E as <- <-. right. eexists. now split.
    - destruct (sendPush a band m s); [|done]. injection E as <- <-. right. eexists. now split.
    - destruct (senderStep i wake s); [|done]. injection E as <- <-. now left.
    - apply workerStep_inv in E as (x & Ex & Hw). destruct Hw; try now left. right. eexists.
      split; [done|]. intros a' b' m' args o [= <- <- <- <- <-].
      exists (value st). split; [|done]. now apply (replayed _ _ _ Hh).
    - destruct (flush w s); [|done]. injection E as <- <-. now left.
    - destruct (spurious w s); [|done]. injection E as <- <-. now left.
    - destruct (shutdown s); [|done]. injection E as <- <-. now left. }
  destruct Hs as [->|(x & -> & Hx)]; [now rewrite app_nil_r|].
  intros tr1 a b m args o tr2 [(-> & -> & Ey)|(tr2' & -> & ->)]%snoc_inv; [|by eapply Ht].
  by apply (Hx a b m args o).
Qed.

Lemma threaded_reach fenced n c s tr : reach fenced n c s tr -> threaded tr.
Proof.
  induction 1 as [|l s tr s' e Hr IH E]; [now intros [] * |].
  apply (threaded_exec fenced c l s s'); [done|by eapply history_reach|done].
Qed.

(** C2. The single-method invariant: in every reachable state, whatever the
    memory does, an actor is in the hands of at most one worker, an actor being
    worked on is in no ready queue, and no actor is queued twice. *)
Theorem single_method fenced n c s tr : reach fenced n c s tr ->
  (forall w w' a, in_turn s w a -> in_turn s w' a -> w = w') /\
  (forall w a, in_turn s w a -> ~ queued s a) /\ NoDup (ready_tokens (ready_ s)).
Proof. intros [Ho _]%base_reach. now apply sole_holder. Qed.

(** C6. Mailboxes lose, duplicate and reorder nothing: at every point the
    messages sent to an actor in a band are, in order, those handled, those of
    the turn in progress and those still queued; and the counter of [stats]
    counts the handled ones. *)
Theorem mailbox_fifo fenced n c s tr : reach fenced n c s tr ->
  messagesProcessed_ s = Z.of_nat (length (List.filter is_handled tr)) /\
  forall a b st, owners_ s !! a = Some st ->
    sent a b tr = handled a b tr ++ in_band b (turn s a) ++ contents (mailbox st b).
Proof. intros Hh%history_reach. split; [apply (counted _ _ _ Hh)|apply (fifo _ _ _ Hh)]. Qed.

(** C8. An actor behaves as a sequential object: each handler is called with
    the state its predecessors made (nil after one that threw) followed by at
    most fifteen of the message's arguments, so never more than the sixteen
    the argument buffer has room for; and the value an actor holds, and shows
    on its wrapper, is the one its handlers made. *)
Theorem actor_sequential fenced n c s tr : reach fenced n c s tr ->
  (forall a st, owners_ s !! a = Some st -> replay a tr = Some (value st) /\ published st = value st) /\
  (forall tr1 a b m args outcome tr2, tr = tr1 ++ Handled a b m args outcome :: tr2 ->
     exists v, replay a tr1 = Some v /\ args = v :: take 15 (default [] (kArgs m)) /\
       (length args <= 16)%nat).
Proof.
  intros Hr. split; [apply (replayed _ _ _ (history_reach _ _ _ _ _ Hr))|].
  intros tr1 a b m args o tr2 E.
  destruct (threaded_reach _ _ _ _ _ Hr tr1 a b m args o tr2 E) as (v & Ev & ->).
  exists v. split; [done|]. split; [done|]. cbn. rewrite length_take. lia.
Qed.

(** A promise is realized once: it holds the first result delivered into
    it (or what it held before the scheduler started), whatever was delivered
    afterwards. *)
Theorem promise_delivered_once fenced n c s tr : reach fenced n c s tr -> forall p,
  getAttribute (promises s) p =
  match getAttribute c p with Some v => Some v | None => first_delivery p tr end.
Proof. intros Hh%history_reach. apply (delivered _ _ _ Hh). Qed.

(** C7. No lost wake-up, under sequential consistency: when the loads that
    follow the release of a claim wait for it to reach memory, a state of a
    running scheduler in which no thread can move has handled every message
    that was ever sent. *)
Theorem quiescent_drained n c s tr : reach true n c s tr -> (0 < n)%nat ->
  main s = Running -> quiescent true s -> forall a b, sent a b tr = handled a b tr.
Proof.
  intros Hr Hn Hm Hq a b. pose proof (base_reach _ _ _ _ _ Hr) as Hb.
  pose proof (watchful_reach _ _ _ _ Hr) as Hs. pose proof (history_reach _ _ _ _ _ Hr) as Hh.
  pose proof (quiescent_workers s Hq Hb Hs) as Hw.
  pose proof (quiescent_senders s Hq Hb Hs) as Hsend.
  pose proof (quiescent_ready n s Hn Hq Hb Hs (lively_reach _ _ _ _ _ Hn Hr) Hm) as Hready.
  destruct (owners_ s !! a) as [st|] eqn:Ea; [|now destruct (no_history _ _ _ Hh a b Ea) as [-> ->]].
  rewrite (fifo _ _ _ Hh a b st Ea).
  assert (Ht : turn s a = []).
  { apply flat_map_none. intros w x E. unfold turn_of. destruct (Hw w x E) as [Ep|Ep]; now rewrite Ep. }
  assert (Hidle : forall w x, workers_ s !! w = Some x -> worker_tokens x = []).
  { intros w x E. unfold worker_tokens.
    destruct (Hw w x E) as [Ep|Ep]; rewrite Ep, (buffer_none s w x) by
      (done || apply Hb || now rewrite Ep); done. }
  assert (Hc : claimed st = false).
  { destruct Hb as [Ho _]. specialize (Ho a). unfold claims in Ho. rewrite Ea in Ho.
    rewrite held_split, Hsend, !Hready, flat_map_none in Ho by done.
    now destruct (claimed st). }
  assert (Hq0 : contents (mailbox st b) = []).
  { destruct (contents (mailbox st b)) as [|m ms] eqn:Em; [done|]. exfalso.
    destruct (wakes _ Hs a st b Ea Hc ltac:(now rewrite Em)) as [[b' Hin]|(w & x & E & Hl)].
    - rewrite Hsend in Hin. now apply elem_of_nil in Hin.
    - destruct (Hw w x E) as [Ep|Ep]; now rewrite Ep in Hl. }
  rewrite Ht, Hq0. cbn. now rewrite app_nil_r.
Qed.

End Scheduler.

Lemma hardwareWorkers_bounds hc : 0 <= hc -> 1 <= hardwareWorkers hc <= 16.
Proof. intros. unfold hardwareWorkers. z_cases. Qed.

(** The number of workers is between 1 and 64, whatever the environment
    variable and the hardware say; without the variable it is at most 16. *)
Theorem configuredWorkerCount_bounds env hc : 0 <= hc < 2 ^ 32 ->
  1 <= configuredWorkerCount env hc <= 64 /\
  (env = None -> configuredWorkerCount env hc <= 16).
Proof.
  intros Hhc. pose proof (hardwareWorkers_bounds hc ltac:(lia)).
  unfold configuredWorkerCount. destruct env as [[|c s]|]; [lia| |lia].
  cbn zeta. destruct ((1 <=? atoi (c :: s)) && (atoi (c :: s) <=? 64)) eqn:E; split; try done; lia.
Qed.

Example configuredWorkerCount_bounds_witness :
  configuredWorkerCount (Some (s2b "65")) 8 = 6 /\
  (0 <= 8 < 2 ^ 32 /\ 1 <= configuredWorkerCount (Some (s2b "65")) 8 <= 64).
Proof.
  split; [reflexivity|]. split; [lia|].
  exact (proj1 (configuredWorkerCount_bounds (Some (s2b "65")) 8 ltac:(lia))).
Defined.

(** ** Runs of the code *)

Section Runs.

Local Abbreviation msg := (message (val := Z) (obj := nat)).
Local Abbreviation labelZ := (label (val := Z) (obj := nat)).
Local Abbreviation stateZ := (scheduler (val := Z) (obj := nat) (cells := gmap nat (list Z)) (Q := list msg)).

Definition runZ (fenced : bool) (ls : list labelZ) (n : nat) : option (stateZ * list (event (val := Z) (obj := nat))) :=
  run 0 fenced ls (started n ∅).

Definition ask (n : Z) (p : nat) : msg := sendMessage 0 100 [n] p.

(** Sending one message to the first actor, with the enqueue waking nobody. *)
Definition sendAwake (m : msg) : list labelZ := [Send 0 Medium m; SenderStep 0 None; SenderStep 0 None].

Definition steps (k : nat) : list labelZ := repeat (WorkerStep 0 None None) k.

(** One actor, two messages, one worker, up to sleep. *)
Definition two_messages : list labelZ :=
  [NewActor 7] ++ sendAwake (ask 1 10) ++ [Send 0 High (ask 2 11); SenderStep 0 None] ++
  steps 4 ++ [WorkerStep 0 (Some 20) None; WorkerStep 0 None None] ++ steps 2 ++ [Flush 0] ++ steps 6.

(** The message goes in while the claim's release is still in the store
    buffer: the sender sees the claim and leaves, the worker saw no message. *)
Definition late_send : list labelZ :=
  [NewActor 7] ++ sendAwake (ask 1 10) ++ steps 4 ++ [WorkerStep 0 (Some 20) None] ++ steps 5 ++
  [Send 0 Medium (ask 2 11); SenderStep 0 None; Flush 0] ++ steps 3.

(** [shutdown] between the predicate of a wait and the wait. *)
Definition late_shutdown : list labelZ := steps 2 ++ [MainStep; MainStep] ++ steps 1.

(** A message with twenty extra arguments. *)
Definition wide_send : list labelZ :=
  [NewActor 7] ++ sendAwake (sendMessage 0 100 (map Z.of_nat (seq 1 20)) 10%nat) ++ steps 4 ++
  [WorkerStep 0 (Some 20) None].

Definition outcomeOf (fenced : bool) (ls : list labelZ) : stateZ * list (event (val := Z) (obj := nat)) :=
  default (started 1 ∅, []) (runZ fenced ls 1).

Lemma outcome_reach fenced ls : is_Some (runZ fenced ls 1) ->
  reach 0 fenced 1 ∅ (fst (outcomeOf fenced ls)) (snd (outcomeOf fenced ls)).
Proof.
  unfold outcomeOf. intros [[s tr] E]. rewrite E. cbn.
  apply (run_reach 0 fenced 1 ∅ ls (started 1 ∅) [] s tr); [constructor|exact E].
Qed.

Lemma two_reach : reach 0 true 1 ∅ (fst (outcomeOf true two_messages)) (snd (outcomeOf true two_messages)).
Proof. apply outcome_reach. vm_compute. eauto. Qed.

(** A state whose only worker is blocked and that has no sender is quiescent. *)
Lemma asleep_quiescent fenced (s : stateZ) : senders s = [] ->
  workers_ s = [mkWorker Asleep None] -> quiescent 0 fenced s.
Proof.
  intros Hs Hw l Hl. destruct l as [|a b m|i wk|w o wk|w|w|]; try done; cbn.
  - unfold senderStep. now rewrite Hs.
  - unfold workerStep. rewrite Hw. now destruct w as [|[]].
  - unfold flush. rewrite Hw. now destruct w as [|[]].
Qed.

Example single_method_witness :
  let s := fst (outcomeOf true two_messages) in
  (forall w w' a, in_turn s w a -> in_turn s w' a -> w = w') /\
  (forall w a, in_turn s w a -> ~ queued s a) /\ NoDup (ready_tokens (ready_ s)).
Proof. exact (single_method 0 true 1 ∅ _ _ two_reach). Defined.

Example mailbox_fifo_witness :
  let s := fst (outcomeOf true two_messages) in
  let tr := snd (outcomeOf true two_messages) in
  messagesProcessed_ s = Z.of_nat (length (List.filter is_handled tr)) /\
  forall a b st, owners_ s !! a = Some st ->
    sent a b tr = handled a b tr ++ in_band b (turn s a) ++ contents (mailbox st b).
Proof. exact (mailbox_fifo 0 true 1 ∅ _ _ two_reach). Defined.

Example actor_sequential_witness :
  let s := fst (outcomeOf true two_messages) in
  let tr := snd (outcomeOf true two_messages) in
  (forall a st, owners_ s !! a = Some st -> replay 0 a tr = Some (value st) /\ published st = value st) /\
  (forall tr1 a b m args outcome tr2, tr = tr1 ++ Handled a b m args outcome :: tr2 ->
     exists v, replay 0 a tr1 = Some v /\ args = v :: take 15 (default [] (kArgs m)) /\
       (length args <= 16)%nat).
Proof. exact (actor_sequential 0 true 1 ∅ _ _ two_reach). Defined.

Example promise_delivered_once_witness :
  let s := fst (outcomeOf true two_messages) in
  let tr := snd (outcomeOf true two_messages) in
  getAttribute (promises s) 10%nat =
  match getAttribute (∅ : gmap nat (list Z)) 10%nat with
  | Some v => Some v
  | None => first_delivery 0 10%nat tr
  end.
Proof. exact (promise_delivered_once 0 true 1 ∅ _ _ two_reach 10%nat). Defined.

Example quiescent_drained_witness :
  let s := fst (outcomeOf true two_messages) in
  let tr := snd (outcomeOf true two_messages) in
  handled 0 Medium tr = [ask 1 10] /\ sent 0 Medium tr = handled 0 Medium tr.
Proof.
  split; [vm_compute; reflexivity|].
  exact (quiescent_drained 0 1 ∅ _ _ two_reach (Nat.lt_0_succ 0) eq_refl
    (asleep_quiescent true (fst (outcomeOf true two_messages)) eq_refl eq_refl) 0%nat Medium).
Defined.

(** The code as written, without the fence: a reachable state of a running
    scheduler in which every thread is blocked, the actor is not claimed, and
    its mailbox holds a message. The sender's compare-and-exchange read the
    claim whose release was still in the worker's store buffer, after the
    worker had found the mailbox empty. *)
Theorem lost_wakeup : exists s tr st,
  reach 0 false 1 ∅ s tr /\ main s = Running /\ quiescent 0 false s /\
  owners_ s !! 0%nat = Some st /\ claimed st = false /\
  contents (mailbox st Medium) = [ask 2 11] /\ handled 0 Medium tr = [ask 1 10].
Proof.
  exists (fst (outcomeOf false late_send)), (snd (outcomeOf false late_send)). eexists.
  split; [apply outcome_reach; vm_compute; eauto|].
  split; [reflexivity|].
  split; [apply asleep_quiescent; vm_compute; reflexivity|].
  split; [reflexivity|]. vm_compute. repeat split.
Qed.

(** [shutdown] sets its flag and notifies without the queue's mutex: the one
    worker can sleep through it, and the join never returns. *)
Theorem shutdown_hangs : exists s tr,
  reach 0 true 1 ∅ s tr /\ main s = AtJoin /\ shutdown s = None /\ quiescent 0 true s.
Proof.
  exists (fst (outcomeOf true late_shutdown)), (snd (outcomeOf true late_shutdown)).
  split; [apply outcome_reach; vm_compute; eauto|].
  split; [reflexivity|]. split; [reflexivity|].
  apply asleep_quiescent; vm_compute; reflexivity.
Qed.

(** [sendCore] packs every argument; the handler is called with fifteen. *)
Example extra_arguments_dropped : exists s tr m args,
  reach 0 true 1 ∅ s tr /\ In (Handled 0 Medium m args (Some 20)) tr /\
  length (default [] (kArgs m)) = 20%nat /\ args = map Z.of_nat (7 :: seq 1 15)%nat.
Proof.
  exists (fst (outcomeOf true wide_send)), (snd (outcomeOf true wide_send)).
  exists (sendMessage 0 100 (map Z.of_nat (seq 1 20)) 10%nat), (map Z.of_nat (7 :: seq 1 15)%nat).
  split; [apply outcome_reach; vm_compute; eauto|].
  split; [vm_compute; tauto|]. split; reflexivity.
Qed.

End Runs.
