(* ===== verification/Bytecode.v ===== *)
(** Bytecode modules (runtime/Opcodes.h, runtime/BytecodeModule.h,
    runtime/BytecodeModule.cpp): instruction words, the constant pool, and the
    flow analysis that bounds a body's operand stack. *)

From S2P Require Import Prelude.

#[local] Set Warnings "-register-all".

(** ** Opcodes and instruction words *)

Inductive Op :=
| NOP | PUSH_CONST | PUSH_VAR | CALL | POP | RETURN | STORE_GLOBAL | JUMP | JUMP_IF_FALSE
| PUSH_NIL | PUSH_TRUE | PUSH_FALSE | PUSH_LOCAL | STORE_LOCAL | MAKE_FN | JUMP_BACK
| CALL_APPLY | DUP | JUMP_IF_TRUE | MAKE_FN_MULTI | ADD | SUB | MUL | LT | LE | GT | GE | EQ
| CALL_KW | TRY_BEGIN | TRY_END | THROW | EXC_MATCH | RETHROW | EXC_MATCH_TYPE | RESOLVE_CLASS
| GET_MEMBER | CALL_MEMBER | STORE_CAUGHT | PUSH_LOCAL_CLEAR | LINE .

#[export] Instance op_eq_decision : EqDecision Op.
Proof. solve_decision. Defined.

Definition opCode (op : Op) : Z :=
  match op with
  | NOP => 0 | PUSH_CONST => 1 | PUSH_VAR => 2 | CALL => 3 | POP => 4 | RETURN => 5
  | STORE_GLOBAL => 6 | JUMP => 7 | JUMP_IF_FALSE => 8 | PUSH_NIL => 9 | PUSH_TRUE => 10
  | PUSH_FALSE => 11 | PUSH_LOCAL => 12 | STORE_LOCAL => 13 | MAKE_FN => 14 | JUMP_BACK => 15
  | CALL_APPLY => 16 | DUP => 17 | JUMP_IF_TRUE => 18 | MAKE_FN_MULTI => 19 | ADD => 20
  | SUB => 21 | MUL => 22 | LT => 23 | LE => 24 | GT => 25 | GE => 26 | EQ => 27
  | CALL_KW => 28 | TRY_BEGIN => 29 | TRY_END => 30 | THROW => 31 | EXC_MATCH => 32
  | RETHROW => 33 | EXC_MATCH_TYPE => 34 | RESOLVE_CLASS => 35 | GET_MEMBER => 36
  | CALL_MEMBER => 37 | STORE_CAUGHT => 38 | PUSH_LOCAL_CLEAR => 39 | LINE => 40 
  end.

Definition allOps : list Op :=
  [NOP; PUSH_CONST; PUSH_VAR; CALL; POP; RETURN; STORE_GLOBAL; JUMP; JUMP_IF_FALSE; PUSH_NIL;
   PUSH_TRUE; PUSH_FALSE; PUSH_LOCAL; STORE_LOCAL; MAKE_FN; JUMP_BACK; CALL_APPLY; DUP;
   JUMP_IF_TRUE; MAKE_FN_MULTI; ADD; SUB; MUL; LT; LE; GT; GE; EQ; CALL_KW; TRY_BEGIN; TRY_END;
   THROW; EXC_MATCH; RETHROW; EXC_MATCH_TYPE; RESOLVE_CLASS; GET_MEMBER; CALL_MEMBER;
   STORE_CAUGHT; PUSH_LOCAL_CLEAR; LINE].

(** [static_cast<Op>]: [None] is a value that is no enumerator. *)
Definition opOfCode (z : Z) : option Op := List.find (fun op => opCode op =? z) allOps.

Definition opName (op : Op) : bytes :=
  s2b match op with
      | NOP => "NOP" | PUSH_CONST => "PUSH_CONST" | PUSH_VAR => "PUSH_VAR" | CALL => "CALL"
      | POP => "POP" | RETURN => "RETURN" | STORE_GLOBAL => "STORE_GLOBAL" | JUMP => "JUMP"
      | JUMP_IF_FALSE => "JUMP_IF_FALSE" | PUSH_NIL => "PUSH_NIL" | PUSH_TRUE => "PUSH_TRUE"
      | PUSH_FALSE => "PUSH_FALSE" | PUSH_LOCAL => "PUSH_LOCAL" | STORE_LOCAL => "STORE_LOCAL"
      | MAKE_FN => "MAKE_FN" | JUMP_BACK => "JUMP_BACK" | CALL_APPLY => "CALL_APPLY"
      | DUP => "DUP" | JUMP_IF_TRUE => "JUMP_IF_TRUE" | MAKE_FN_MULTI => "MAKE_FN_MULTI"
      | ADD => "ADD" | SUB => "SUB" | MUL => "MUL" | LT => "LT" | LE => "LE" | GT => "GT"
      | GE => "GE" | EQ => "EQ" | CALL_KW => "CALL_KW" | TRY_BEGIN => "TRY_BEGIN"
      | TRY_END => "TRY_END" | THROW => "THROW" | EXC_MATCH => "EXC_MATCH"
      | RETHROW => "RETHROW" | EXC_MATCH_TYPE => "EXC_MATCH_TYPE"
      | RESOLVE_CLASS => "RESOLVE_CLASS" | GET_MEMBER => "GET_MEMBER"
      | CALL_MEMBER => "CALL_MEMBER" | STORE_CAUGHT => "STORE_CAUGHT"
      | PUSH_LOCAL_CLEAR => "PUSH_LOCAL_CLEAR" | LINE => "LINE" 
      end.

(** [Instr]: the opcode in the low byte, the operand in the high 24 bits. *)
Definition kOperandShift : Z := 8.
Definition kMaxOperand : Z := 2 ^ 24 - 1.
Definition u32 (z : Z) : Z := z mod 2 ^ 32.

Definition instrOp (word : Z) : option Op := opOfCode (Z.land word 0xFF).
Definition instrOperand (word : Z) : Z := Z.shiftr word kOperandShift.
Definition instruction (op : Op) (operand : Z) : Z :=
  Z.lor (u32 (Z.shiftl operand kOperandShift)) (opCode op).

(** The C++ exceptions of this component. *)
Inductive defect :=
| LengthError (what : bytes)
| OutOfRange (what : bytes).

Definition checkedOperand (name : bytes) (operand : Z) : result defect Z :=
  if kMaxOperand <? operand then
    Throw (LengthError
      (name ++ s2b " operand " ++ to_string operand ++
       s2b " exceeds the bytecode limit of " ++ to_string kMaxOperand ++
       s2b " (constants, locals, functions, arguments or instructions " ++
       s2b "jumped over in one function body)"))
  else Ok operand.

(** ** Constants *)

Inductive ConstKind := Long | Double | String_ | Symbol | Named | BigInteger | Datum.

#[export] Instance constkind_eq_decision : EqDecision ConstKind.
Proof. solve_decision. Defined.

Section Modules.

(** A [const proto::ProtoObject*], compared by identity. *)
Context {obj : Type} `{Countable obj}.

Record Const := mkConst {
  ckind : ConstKind;
  ival : Z;
  dval : Z;                (* the bits of a double *)
  sval : bytes;
  named : option obj;      (* [None]: nullptr *)
}.

Record ConstPool := mkPool {
  consts_ : list Const;
  longIndex_ : gmap Z nat;
  doubleIndex_ : gmap Z nat;
  bigIntegerIndex_ : gmap bytes nat;
  stringIndex_ : gmap bytes nat;
  symbolIndex_ : gmap bytes nat;
  namedIndex_ : gmap bytes nat;
  datumIndex_ : gmap obj nat;
}.

Definition emptyPool : ConstPool := mkPool [] ∅ ∅ ∅ ∅ ∅ ∅ ∅.

(** The index of the constant [key] names in [index], appending [c] to the pool
    first when the key is new. *)
Definition findOrAdd {K} `{Countable K} (index : gmap K nat) (key : K) (consts : list Const)
    (c : Const) : nat * gmap K nat * list Const :=
  match index !! key with
  | Some i => (i, index, consts)
  | None => (length consts, <[key := length consts]> index, consts ++ [c])
  end.

Definition addLong (v : Z) (p : ConstPool) : nat * ConstPool :=
  let '(i, ix, cs) := findOrAdd (longIndex_ p) v (consts_ p) (mkConst Long v 0 [] None) in
  (i, mkPool cs ix (doubleIndex_ p) (bigIntegerIndex_ p) (stringIndex_ p) (symbolIndex_ p)
        (namedIndex_ p) (datumIndex_ p)).

Definition addBigInteger (digits : bytes) (p : ConstPool) : nat * ConstPool :=
  let '(i, ix, cs) :=
    findOrAdd (bigIntegerIndex_ p) digits (consts_ p) (mkConst BigInteger 0 0 digits None) in
  (i, mkPool cs (longIndex_ p) (doubleIndex_ p) ix (stringIndex_ p) (symbolIndex_ p)
        (namedIndex_ p) (datumIndex_ p)).

(** By bit pattern: a double is its bits here. *)
Definition addDouble (bits : Z) (p : ConstPool) : nat * ConstPool :=
  let '(i, ix, cs) := findOrAdd (doubleIndex_ p) bits (consts_ p) (mkConst Double 0 bits [] None) in
  (i, mkPool cs (longIndex_ p) ix (bigIntegerIndex_ p) (stringIndex_ p) (symbolIndex_ p)
        (namedIndex_ p) (datumIndex_ p)).

Definition addString (s : bytes) (p : ConstPool) : nat * ConstPool :=
  let '(i, ix, cs) := findOrAdd (stringIndex_ p) s (consts_ p) (mkConst String_ 0 0 s None) in
  (i, mkPool cs (longIndex_ p) (doubleIndex_ p) (bigIntegerIndex_ p) ix (symbolIndex_ p)
        (namedIndex_ p) (datumIndex_ p)).

(** [intern] is protoCore's symbol table. *)
Definition addSymbol (intern : bytes -> obj) (s : bytes) (p : ConstPool) : nat * ConstPool :=
  let '(i, ix, cs) :=
    findOrAdd (symbolIndex_ p) s (consts_ p) (mkConst Symbol 0 0 s (Some (intern s))) in
  (i, mkPool cs (longIndex_ p) (doubleIndex_ p) (bigIntegerIndex_ p) (stringIndex_ p) ix
        (namedIndex_ p) (datumIndex_ p)).

Definition addNamed (spelling : bytes) (value : obj) (p : ConstPool) : nat * ConstPool :=
  let '(i, ix, cs) :=
    findOrAdd (namedIndex_ p) spelling (consts_ p) (mkConst Named 0 0 spelling (Some value)) in
  (i, mkPool cs (longIndex_ p) (doubleIndex_ p) (bigIntegerIndex_ p) (stringIndex_ p)
        (symbolIndex_ p) ix (datumIndex_ p)).

(** The root set that pins a datum is the collector's business. *)
Definition addDatum (value : obj) (p : ConstPool) : nat * ConstPool :=
  let '(i, ix, cs) :=
    findOrAdd (datumIndex_ p) value (consts_ p) (mkConst Datum 0 0 [] (Some value)) in
  (i, mkPool cs (longIndex_ p) (doubleIndex_ p) (bigIntegerIndex_ p) (stringIndex_ p)
        (symbolIndex_ p) (namedIndex_ p) ix).

(** ** Modules *)

Record KwKey := mkKwKey { kwName : bytes; kwSlot : Z; keyword : obj }.
Record CaptureSpec := mkCapture { parentSlot : Z; localSlot : Z }.

Inductive BytecodeModule := mkModule {
  code_ : list Z;
  pool_ : ConstPool;
  blocks_ : list BytecodeModule;
  arityGroups_ : list (list Z);       (* the blockIndices of each group *)
  captureSpecs_ : list CaptureSpec;
  arity_ : Z;
  localCount_ : Z;
  isVariadic_ : bool;
  hasHandlers_ : bool;
  isKwBased_ : bool;
  asSlot_ : Z;
  kwKeys_ : list KwKey;
}.

Definition newModule : BytecodeModule :=
  mkModule [] emptyPool [] [] [] 0 0 false false false (-1) [].

Definition captureCount (m : BytecodeModule) : Z := Z.of_nat (length (captureSpecs_ m)).
Definition pos (m : BytecodeModule) : Z := Z.of_nat (length (code_ m)).

Definition set_code (code : list Z) (handlers : bool) (m : BytecodeModule) : BytecodeModule :=
  mkModule code (pool_ m) (blocks_ m) (arityGroups_ m) (captureSpecs_ m) (arity_ m)
    (localCount_ m) (isVariadic_ m) handlers (isKwBased_ m) (asSlot_ m) (kwKeys_ m).

Definition addBlock (sub m : BytecodeModule) : Z * BytecodeModule :=
  (Z.of_nat (length (blocks_ m)),
   mkModule (code_ m) (pool_ m) (blocks_ m ++ [sub]) (arityGroups_ m) (captureSpecs_ m)
     (arity_ m) (localCount_ m) (isVariadic_ m) (hasHandlers_ m) (isKwBased_ m) (asSlot_ m)
     (kwKeys_ m)).

Definition addArityGroup (blockIndices : list Z) (m : BytecodeModule) : Z * BytecodeModule :=
  (Z.of_nat (length (arityGroups_ m)),
   mkModule (code_ m) (pool_ m) (blocks_ m) (arityGroups_ m ++ [blockIndices]) (captureSpecs_ m)
     (arity_ m) (localCount_ m) (isVariadic_ m) (hasHandlers_ m) (isKwBased_ m) (asSlot_ m)
     (kwKeys_ m)).

Definition addCapture (parent local : Z) (m : BytecodeModule) : BytecodeModule :=
  mkModule (code_ m) (pool_ m) (blocks_ m) (arityGroups_ m)
    (captureSpecs_ m ++ [mkCapture parent local])
    (arity_ m) (localCount_ m) (isVariadic_ m) (hasHandlers_ m) (isKwBased_ m) (asSlot_ m)
    (kwKeys_ m).

Definition addKwKey (name : bytes) (slot : Z) (kw : obj) (m : BytecodeModule) : BytecodeModule :=
  mkModule (code_ m) (pool_ m) (blocks_ m) (arityGroups_ m) (captureSpecs_ m)
    (arity_ m) (localCount_ m) (isVariadic_ m) (hasHandlers_ m) (isKwBased_ m) (asSlot_ m)
    (kwKeys_ m ++ [mkKwKey name slot kw]).

Definition emit (op : Op) (operand : Z) (m : BytecodeModule)
  : result defect (Z * BytecodeModule) :=
  checked ← checkedOperand (opName op) operand;
  Ok (pos m, set_code (code_ m ++ [instruction op checked])
               (if decide (op = TRY_BEGIN) then true else hasHandlers_ m) m).

(** [patchOperand] keeps the low byte of the word, whatever it is. *)
Definition patchOperand (at_ operand : Z) (m : BytecodeModule) : result defect BytecodeModule :=
  if pos m <=? at_ then
    Throw (OutOfRange (s2b "patchOperand: no instruction at " ++ to_string at_))
  else
    let word := nth (Z.to_nat at_) (code_ m) 0 in
    let low := Z.land word 0xFF in
    checked ← checkedOperand (match opOfCode low with Some op => opName op | None => s2b "?" end)
                             operand;
    Ok (set_code (<[Z.to_nat at_ := Z.lor (u32 (Z.shiftl checked kOperandShift)) low]> (code_ m))
          (hasHandlers_ m) m).

(** [patchOp]: the opcode at [at_] replaced, the operand kept. *)
Definition patchOp (at_ : Z) (op : Op) (m : BytecodeModule) : BytecodeModule :=
  let word := nth (Z.to_nat at_) (code_ m) 0 in
  set_code (<[Z.to_nat at_ := Z.lor (Z.ldiff word 0xFF) (opCode op)]> (code_ m))
    (hasHandlers_ m) m.

(** ** The flow analysis *)

(** What [computeMaxStack] does at an instruction: the [reach] calls it makes
    before the fall-through, in order, and the depth it falls through with. *)
Inductive flow :=
| Flow (jumps : list (Z * Z)) (after : option Z)
| UnknownOpcode.

Definition captureCountAt (m : BytecodeModule) (b : Z) : Z :=
  match blocks_ m !! Z.to_nat b with Some sub => captureCount sub | None => 0 end.

Definition groupCaptures (m : BytecodeModule) (g : Z) : Z :=
  match arityGroups_ m !! Z.to_nat g with
  | Some bs => fold_left (fun caps b => caps + captureCountAt m b) bs 0
  | None => 0
  end.

Definition flowAt (m : BytecodeModule) (i d : Z) : flow :=
  let word := nth (Z.to_nat i) (code_ m) 0 in
  let operand := instrOperand word in
  let next := i + 1 in
  match instrOp word with
  | Some op =>
      match op with
      | PUSH_CONST | PUSH_VAR | PUSH_NIL | PUSH_TRUE | PUSH_FALSE | PUSH_LOCAL
      | PUSH_LOCAL_CLEAR | DUP | RESOLVE_CLASS => Flow [] (Some (d + 1))
      | POP | STORE_LOCAL | STORE_CAUGHT | ADD | SUB | MUL | LT | LE | GT | GE | EQ
      | CALL_APPLY | EXC_MATCH_TYPE => Flow [] (Some (d - 1))
      | NOP | STORE_GLOBAL | TRY_END | EXC_MATCH | GET_MEMBER | LINE => Flow [] (Some d)
      | CALL | CALL_KW | CALL_MEMBER => Flow [] (Some (d - operand))
      | MAKE_FN => Flow [] (Some (d + 1 - captureCountAt m operand))
      | MAKE_FN_MULTI => Flow [] (Some (d + 1 - groupCaptures m operand))
      | JUMP => Flow [(next + operand, d)] None
      | JUMP_BACK => Flow (if operand <=? next then [(next - operand, d)] else []) None
      | JUMP_IF_FALSE | JUMP_IF_TRUE => Flow [(next + operand, d - 1)] (Some (d - 1))
      | TRY_BEGIN => Flow [(next + operand, d + 1)] (Some d)
      | RETURN | THROW | RETHROW => Flow [] None
      end
  | None => UnknownOpcode
  end.

(** The state of the analysis: [depth], [work] (its back is the head) and
    [deepest]. *)
Record analysis := mkAnalysis { depth : list Z; work : list Z; deepest : Z }.

Definition reach (n : Z) (st : analysis) (target : Z * Z) : analysis :=
  let '(at_, d) := target in
  if (n <=? at_) || (d <? 0) then st
  else if d <=? nth (Z.to_nat at_) (depth st) 0 then st
  else mkAnalysis (<[Z.to_nat at_ := d]> (depth st)) (at_ :: work st) (deepest st).

Definition set_deepest (d : Z) (st : analysis) : analysis :=
  mkAnalysis (depth st) (work st) d.

Definition analysisStep (m : BytecodeModule) (st : analysis) : analysis + Z :=
  match work st with
  | [] => inr (deepest st)
  | i :: rest =>
      let d := nth (Z.to_nat i) (depth st) 0 in
      let st := mkAnalysis (depth st) rest (Z.max (deepest st) d) in
      match flowAt m i d with
      | UnknownOpcode => inr 64
      | Flow jumps after =>
          let st := fold_left (reach (pos m)) jumps st in
          inl match after with
              | Some a => reach (pos m) (set_deepest (Z.max (deepest st) a) st) (i + 1, a)
              | None => st
              end
      end
  end.

Definition analysisStart (m : BytecodeModule) : analysis :=
  reach (pos m) (mkAnalysis (replicate (length (code_ m)) (-1)) [] 0) (0, 0).

(** [None]: not done after [fuel] instructions. *)
Definition computeMaxStack (fuel : nat) (m : BytecodeModule) : option Z :=
  iter fuel (analysisStep m) (analysisStart m).

(** ** Instruction words *)

Lemma opOfCode_code op : opOfCode (opCode op) = Some op.
Proof. now destruct op. Qed.

Lemma opCode_byte op : 0 <= opCode op < 2 ^ 8.
Proof. destruct op; cbn; lia. Qed.

Lemma instruction_add op operand : 0 <= operand <= kMaxOperand ->
  instruction op operand = operand * 2 ^ 8 + opCode op.
Proof.
  intros Ho. unfold instruction, kOperandShift, u32, kMaxOperand in *.
  rewrite Z.shiftl_mul_pow2, Z.mod_small by lia. apply lor_add; [lia|apply opCode_byte].
Qed.

Lemma word_low a b : 0 <= b < 2 ^ 8 -> Z.land (a * 2 ^ 8 + b) 0xFF = b.
Proof. intros Hb. change 0xFF with (Z.ones 8). rewrite land_low by lia. lia. Qed.

Lemma word_high a b : 0 <= b < 2 ^ 8 -> Z.shiftr (a * 2 ^ 8 + b) 8 = a.
Proof. intros Hb. rewrite Z.shiftr_div_pow2 by lia. lia. Qed.

Lemma instruction_decode op operand : 0 <= operand <= kMaxOperand ->
  instrOp (instruction op operand) = Some op /\ instrOperand (instruction op operand) = operand /\
  0 <= instruction op operand < 2 ^ 32.
Proof.
  intros Ho. rewrite instruction_add by done. pose proof (opCode_byte op) as Hc.
  unfold instrOp, instrOperand, kOperandShift. rewrite word_low, word_high, opOfCode_code by done.
  unfold kMaxOperand in Ho. split; [done|]. split; [done|]. lia.
Qed.

Lemma checkedOperand_ok name operand :
  checkedOperand name operand = Ok operand \/
  (kMaxOperand < operand /\ exists what, checkedOperand name operand = Throw (LengthError what)).
Proof.
  unfold checkedOperand. destruct (Z.ltb_spec kMaxOperand operand); [right|now left]. eauto.
Qed.

(** Emitting and patching: [emit] appends one word that decodes to the
    opcode and the operand it was given, and refuses exactly the operands beyond
    24 bits with a length error; [patchOperand] then replaces the operand of an
    emitted instruction, keeps its opcode and touches no other word, and refuses
    a position that is not an emitted instruction; [patchOp] keeps the operand. *)
Theorem emit_patch_decode op op' operand operand' at_ (m : BytecodeModule) :
  0 <= operand -> 0 <= operand' -> 0 <= at_ ->
  (operand <= kMaxOperand -> exists m', emit op operand m = Ok (pos m, m') /\
     code_ m' = code_ m ++ [instruction op operand] /\
     instrOp (instruction op operand) = Some op /\
     instrOperand (instruction op operand) = operand /\
     (hasHandlers_ m' = true <-> op = TRY_BEGIN \/ hasHandlers_ m = true)) /\
  (kMaxOperand < operand -> exists what, emit op operand m = Throw (LengthError what)) /\
  (pos m <= at_ -> exists what, patchOperand at_ operand' m = Throw (OutOfRange what)) /\
  (at_ < pos m -> nth (Z.to_nat at_) (code_ m) 0 = instruction op operand ->
   operand <= kMaxOperand -> operand' <= kMaxOperand ->
   exists m', patchOperand at_ operand' m = Ok m' /\
     code_ m' = <[Z.to_nat at_ := instruction op operand']> (code_ m) /\
     code_ (patchOp at_ op' m) = <[Z.to_nat at_ := instruction op' operand]> (code_ m)).
Proof.
  intros Ho Ho' Hat. repeat split.
  - intros Hle. unfold emit. destruct (checkedOperand_ok (opName op) operand) as [E|[? _]]; [|lia].
    rewrite E. cbn. eexists. split; [done|]. split; [done|].
    destruct (instruction_decode op operand ltac:(lia)) as (H1 & H2 & _).
    split; [done|]. split; [done|]. cbn. destruct (decide (op = TRY_BEGIN)); intuition congruence.
  - intros Hgt. unfold emit. destruct (checkedOperand_ok (opName op) operand) as [E|[_ [w E]]].
    + revert E. unfold checkedOperand. destruct (Z.ltb_spec kMaxOperand operand); [done|lia].
    + rewrite E. cbn. eauto.
  - intros Hge. unfold patchOperand. rewrite (proj2 (Z.leb_le _ _) Hge). eauto.
  - intros Hlt Hw Hle Hle'. unfold patchOperand, patchOp. rewrite Hw.
    rewrite (proj2 (Z.leb_gt _ _) Hlt). rewrite !instruction_add by lia.
    pose proof (opCode_byte op) as Hc. pose proof (opCode_byte op') as Hc'.
    rewrite word_low by done. rewrite opOfCode_code.
    destruct (checkedOperand_ok (opName op) operand') as [E|[? _]]; [|lia].
    rewrite E. cbn. eexists. split; [done|]. cbn.
    change (Z.lor (u32 (Z.shiftl operand' kOperandShift)) (opCode op)) with (instruction op operand').
    rewrite instruction_add by lia. split; [done|]. do 2 f_equal.
    change 0xFF with (Z.ones 8). rewrite Z.ldiff_ones_r by lia.
    rewrite word_high, Z.shiftl_mul_pow2 by lia. now rewrite lor_add by lia.
Qed.

(** ** The constant pool *)

(** What a constant is found by: its kind and its key. *)
Inductive entry :=
| ELong (v : Z) | EDouble (bits : Z) | EBig (digits : bytes) | EString (s : bytes)
| ESymbol (s : bytes) | ENamed (spelling : bytes) | EDatum (o : obj).

#[export] Instance entry_eq_decision : EqDecision entry.
Proof. solve_decision. Defined.

Definition entryOf (c : Const) : option entry :=
  match ckind c with
  | Long => Some (ELong (ival c))
  | Double => Some (EDouble (dval c))
  | BigInteger => Some (EBig (sval c))
  | String_ => Some (EString (sval c))
  | Symbol => Some (ESymbol (sval c))
  | Named => Some (ENamed (sval c))
  | Datum => EDatum <$> named c
  end.

Definition indexOf (p : ConstPool) (e : entry) : option nat :=
  match e with
  | ELong v => longIndex_ p !! v
  | EDouble v => doubleIndex_ p !! v
  | EBig v => bigIntegerIndex_ p !! v
  | EString v => stringIndex_ p !! v
  | ESymbol v => symbolIndex_ p !! v
  | ENamed v => namedIndex_ p !! v
  | EDatum v => datumIndex_ p !! v
  end.

(** The requests the compiler makes of a pool. *)
Inductive request :=
| RLong (v : Z) | RDouble (bits : Z) | RBig (digits : bytes) | RString (s : bytes)
| RSymbol (s : bytes) | RNamed (spelling : bytes) (value : obj) | RDatum (o : obj).

Definition requestEntry (r : request) : entry :=
  match r with
  | RLong v => ELong v | RDouble v => EDouble v | RBig v => EBig v | RString v => EString v
  | RSymbol v => ESymbol v | RNamed v _ => ENamed v | RDatum v => EDatum v
  end.

Definition addConst (intern : bytes -> obj) (r : request) : ConstPool -> nat * ConstPool :=
  match r with
  | RLong v => addLong v
  | RDouble v => addDouble v
  | RBig v => addBigInteger v
  | RString v => addString v
  | RSymbol v => addSymbol intern v
  | RNamed v o => addNamed v o
  | RDatum v => addDatum v
  end.

(** The indices name exactly the positions of the constants. *)
Definition pool_ok (p : ConstPool) : Prop := forall e i,
  indexOf p e = Some i <-> exists c, consts_ p !! i = Some c /\ entryOf c = Some e.

Lemma pool_ok_empty : pool_ok emptyPool.
Proof. intros e i. split; [destruct e; cbn; now rewrite lookup_empty|]. now intros (c & E & _). Qed.

Lemma pool_ok_extend p p' e0 c0 : pool_ok p -> indexOf p e0 = None -> entryOf c0 = Some e0 ->
  consts_ p' = consts_ p ++ [c0] ->
  (forall e, indexOf p' e = if decide (e0 = e) then Some (length (consts_ p)) else indexOf p e) ->
  pool_ok p'.
Proof.
  intros Hp Hnone Hc Hcs Hix e i. rewrite Hix, Hcs. destruct (decide (e0 = e)) as [<-|Hne].
  - split.
    + intros [= <-]. exists c0. split; [now apply list_lookup_middle|done].
    + intros (c & E & He). apply lookup_app_Some in E as [E|[Hge E]].
      * assert (indexOf p e0 = Some i) by (apply Hp; eauto). congruence.
      * apply list_lookup_singleton_Some in E as [E _]. f_equal. lia.
  - rewrite (Hp e i). split; intros (c & E & He); exists c; (split; [|done]).
    + now apply lookup_app_l_Some.
    + apply lookup_app_Some in E as [E|[_ E]]; [done|].
      apply list_lookup_singleton_Some in E as [_ <-]. congruence.
Qed.

(** What [findOrAdd] does, seen from the pool. *)
Definition found_or_added (p : ConstPool) (e : entry) (c : Const) (i : nat) (p' : ConstPool) : Prop :=
  (indexOf p e = Some i /\ p' = p) \/
  (indexOf p e = None /\ i = length (consts_ p) /\ consts_ p' = consts_ p ++ [c] /\
   forall e', indexOf p' e' = if decide (e = e') then Some i else indexOf p e').

Definition requestConst (intern : bytes -> obj) (r : request) : Const :=
  match r with
  | RLong v => mkConst Long v 0 [] None
  | RDouble v => mkConst Double 0 v [] None
  | RBig v => mkConst BigInteger 0 0 v None
  | RString v => mkConst String_ 0 0 v None
  | RSymbol v => mkConst Symbol 0 0 v (Some (intern v))
  | RNamed v o => mkConst Named 0 0 v (Some o)
  | RDatum v => mkConst Datum 0 0 [] (Some v)
  end.

(** [insert_cases] compares two entries of an index that one insertion changed. *)
Ltac insert_cases :=
  intros e'; destruct e'; cbn [indexOf]; cbn;
  rewrite ?lookup_insert; repeat case_decide; congruence.

Lemma addConst_cases intern r p : let '(i, p') := addConst intern r p in
  found_or_added p (requestEntry r) (requestConst intern r) i p'.
Proof.
  destruct p, r; cbn [addConst requestEntry requestConst];
    unfold addLong, addDouble, addBigInteger, addString, addSymbol, addNamed, addDatum, findOrAdd;
    cbn [longIndex_ doubleIndex_ bigIntegerIndex_ stringIndex_ symbolIndex_ namedIndex_ datumIndex_ consts_];
    (destruct (_ !! _) eqn:E; [left; cbn [indexOf]; cbn; split; [exact E|done]|right]);
    (split; [exact E|]; split; [done|]; split; [done|]; insert_cases).
Qed.

Lemma addConst_ok intern r p : pool_ok p ->
  let '(i, p') := addConst intern r p in
  pool_ok p' /\ indexOf p' (requestEntry r) = Some i /\
  exists new, consts_ p' = consts_ p ++ new /\ (length new <= 1)%nat.
Proof.
  intros Hp. pose proof (addConst_cases intern r p) as Hcase.
  destruct (addConst intern r p) as [i p'].
  assert (He : entryOf (requestConst intern r) = Some (requestEntry r)) by now destruct r.
  destruct Hcase as [[Hi ->]|(Hn & -> & Hcs & Hix)].
  - split; [done|]. split; [done|]. exists []. rewrite app_nil_r. cbn. split; [done|lia].
  - split; [by eapply pool_ok_extend|]. split; [rewrite Hix; by rewrite decide_True|]. eauto.
Qed.

(** Insertion into the constant pool answers the index of the constant
    asked for, keeps every constant already there at its index, adds at most
    one, gives different indices to constants of different kind or key, and the
    same index to the same request made again. *)
Theorem pool_insert intern r (p : ConstPool) : pool_ok p ->
  let '(i, p') := addConst intern r p in
  pool_ok p' /\
  (exists c, consts_ p' !! i = Some c /\ entryOf c = Some (requestEntry r)) /\
  (exists new, consts_ p' = consts_ p ++ new /\ (length new <= 1)%nat) /\
  (forall j c, consts_ p' !! j = Some c -> entryOf c = Some (requestEntry r) -> j = i) /\
  addConst intern r p' = (i, p').
Proof.
  intros Hp. pose proof (addConst_ok intern r p Hp) as Hok.
  destruct (addConst intern r p) as [i p'] eqn:Ea. destruct Hok as (Hok & Hidx & Hnew).
  split; [done|]. split; [by apply Hok|]. split; [done|]. split.
  - intros j c Ej Hj. assert (indexOf p' (requestEntry r) = Some j) by (apply Hok; eauto). congruence.
  - pose proof (addConst_cases intern r p') as Hagain.
    destruct (addConst intern r p') as [i2 p2]. destruct Hagain as [[Hi2 ->]|[Hn2 _]]; congruence.
Qed.

(** ** The flow analysis bounds every path *)

Definition depthAt (D : list Z) (i : Z) : Z := nth (Z.to_nat i) D 0.

(** The analysis knows a depth of at least [d] at instruction [t]; past the end,
    or below an empty stack, there is nothing to know. *)
Definition covered (n : Z) (D : list Z) (t d : Z) : Prop :=
  n <= t \/ d < 0 \/ (0 <= t /\ d <= depthAt D t).

(** [D] is closed at [i]: [r] bounds its depth and that of its fall-through, and
    every successor is covered. *)
Definition closed_at (m : BytecodeModule) (r : Z) (D : list Z) (i : Z) : Prop :=
  depthAt D i <= r /\
  match flowAt m i (depthAt D i) with
  | UnknownOpcode => False
  | Flow jumps after =>
      Forall (fun '(t, d) => covered (pos m) D t d) jumps /\
      match after with
      | Some a => a <= r /\ covered (pos m) D (i + 1) a
      | None => True
      end
  end.

(** A depth for every instruction, closed under the flow, bounded by [r]. *)
Record bounded (m : BytecodeModule) (r : Z) (D : list Z) : Prop := {
  bounded_pos : 0 <= r;
  bounded_length : length D = length (code_ m);
  bounded_entry : 0 < pos m -> 0 <= depthAt D 0;
  bounded_closed i : 0 <= i < pos m -> 0 <= depthAt D i -> closed_at m r D i;
}.

Definition known_op (word : Z) : bool :=
  match instrOp word with Some _ => true | None => false end.

(** Every word of the body holds an opcode, and no backward jump leaves it. *)
Definition known_ops (m : BytecodeModule) : Prop :=
  Forall (fun w => known_op w = true) (code_ m).

(** Non-negative jump targets. *)
Definition targets_ok (l : list (Z * Z)) : Prop := Forall (fun '(t, d) => 0 <= t) l.

Lemma instrOperand_pos w : 0 <= w -> 0 <= instrOperand w.
Proof. intros. now apply Z.shiftr_nonneg. Qed.

Lemma flow_targets m i d : Forall (fun w => 0 <= w) (code_ m) -> 0 <= i ->
  match flowAt m i d with Flow jumps _ => targets_ok jumps | UnknownOpcode => True end.
Proof.
  intros Hw Hi. unfold flowAt. set (w := nth (Z.to_nat i) (code_ m) 0).
  assert (Hp : 0 <= instrOperand w).
  { apply instrOperand_pos. subst w. destruct (nth_in_or_default (Z.to_nat i) (code_ m) 0) as [Hin| ->];
      [|lia]. rewrite List.Forall_forall in Hw. now apply Hw. }
  destruct (instrOp w) as [op|]; [|done].
  destruct op; try (repeat constructor; lia).
  destruct (Z.leb_spec (instrOperand w) (i + 1)); repeat constructor; lia.
Qed.

(** What [reach] leaves. *)
Record reached (n : Z) (st st' : analysis) : Prop := {
  reached_length : length (depth st') = length (depth st);
  reached_deepest : deepest st' = deepest st;
  reached_grows i : depthAt (depth st) i <= depthAt (depth st') i;
  reached_work i : i ∈ work st -> i ∈ work st';
  reached_changed i : 0 <= i -> depthAt (depth st') i <> depthAt (depth st) i -> i ∈ work st';
  reached_range i : i ∈ work st' -> i ∈ work st \/ 0 <= i < n;
}.

Lemma reached_refl n st : reached n st st.
Proof. split; auto; done. Qed.

Lemma reached_trans n a b c : reached n a b -> reached n b c -> reached n a c.
Proof.
  intros Hab Hbc. split.
  - rewrite (reached_length _ _ _ Hbc). apply (reached_length _ _ _ Hab).
  - rewrite (reached_deepest _ _ _ Hbc). apply (reached_deepest _ _ _ Hab).
  - intros i. etransitivity; [apply (reached_grows _ _ _ Hab)|apply (reached_grows _ _ _ Hbc)].
  - intros i Hi. apply (reached_work _ _ _ Hbc), (reached_work _ _ _ Hab), Hi.
  - intros i Hi Hne. destruct (Z.eq_dec (depthAt (depth c) i) (depthAt (depth b) i)) as [E|E].
    + apply (reached_work _ _ _ Hbc), (reached_changed _ _ _ Hab); [done|congruence].
    + now apply (reached_changed _ _ _ Hbc).
  - intros i [Hi|Hi]%(reached_range _ _ _ Hbc); [|auto]. now apply (reached_range _ _ _ Hab).
Qed.

Lemma depthAt_insert D t d i : 0 <= t < Z.of_nat (length D) -> 0 <= i ->
  depthAt (<[Z.to_nat t := d]> D) i = if decide (i = t) then d else depthAt D i.
Proof.
  intros Ht Hi. unfold depthAt. rewrite !nth_lookup.
  destruct (decide (i = t)) as [->|Hne].
  - rewrite list_lookup_insert_eq by lia. done.
  - rewrite list_lookup_insert_ne by lia. done.
Qed.

Lemma depthAt_neg D i : i < 0 -> depthAt D i = depthAt D 0.
Proof. intros. unfold depthAt. now replace (Z.to_nat i) with (Z.to_nat 0) by lia. Qed.

Lemma reach_reached n st t d : n = Z.of_nat (length (depth st)) -> 0 <= t ->
  reached n st (reach n st (t, d)) /\ covered n (depth (reach n st (t, d))) t d.
Proof.
  intros Hn Ht. unfold reach.
  destruct (Z.leb_spec n t); [split; [apply reached_refl|now left]|].
  destruct (Z.ltb_spec d 0); [split; [apply reached_refl|right; now left]|]. cbn [orb].
  destruct (Z.leb_spec d (nth (Z.to_nat t) (depth st) 0)) as [Hle|Hgt];
    [split; [apply reached_refl|right; right; done]|].
  change (nth (Z.to_nat t) (depth st) 0) with (depthAt (depth st) t) in Hgt.
  assert (Hins : forall i, 0 <= i -> depthAt (<[Z.to_nat t := d]> (depth st)) i =
            if decide (i = t) then d else depthAt (depth st) i)
    by (intros i Hi; apply depthAt_insert; lia).
  split.
  - split; cbn [depth work deepest]; [apply length_insert|done| | | |].
    + intros i. destruct (Z.le_gt_cases 0 i).
      * rewrite Hins by done. case_decide; [subst; lia|lia].
      * rewrite !(depthAt_neg _ i) by lia. rewrite Hins by lia. case_decide; [subst; lia|lia].
    + intros i Hi. now right.
    + intros i Hi. rewrite Hins by done. case_decide; [subst; left|done].
    + intros i [->|Hi]%elem_of_cons; [right; lia|now left].
  - right. right. cbn [depth]. split; [done|]. rewrite Hins by done. rewrite decide_True by done. lia.
Qed.

Lemma covered_grows n D D' t d : (forall i, depthAt D i <= depthAt D' i) ->
  covered n D t d -> covered n D' t d.
Proof. intros Hg [?|[?|[? ?]]]; [now left|right; now left|right; right]. specialize (Hg t). lia. Qed.

Lemma reach_all n jumps st : n = Z.of_nat (length (depth st)) -> targets_ok jumps ->
  reached n st (fold_left (reach n) jumps st) /\
  Forall (fun '(t, d) => covered n (depth (fold_left (reach n) jumps st)) t d) jumps.
Proof.
  revert st. induction jumps as [|[t d] jumps IH]; intros st Hn Ht; cbn [fold_left].
  - split; [apply reached_refl|constructor].
  - inversion Ht as [|? ? Ht0 Hts]; subst. destruct (reach_reached _ st t d eq_refl Ht0) as [H1 H2].
    destruct (IH (reach (Z.of_nat (length (depth st))) st (t, d))) as [H3 H4];
      [now rewrite (reached_length _ _ _ H1)|done|].
    split; [by eapply reached_trans|]. constructor; [|done].
    eapply covered_grows; [apply (reached_grows _ _ _ H3)|done].
Qed.

Record analysis_ok (m : BytecodeModule) (st : analysis) : Prop := {
  ok_deepest : 0 <= deepest st;
  ok_length : length (depth st) = length (code_ m);
  ok_entry : 0 < pos m -> 0 <= depthAt (depth st) 0;
  ok_work i : i ∈ work st -> 0 <= i < pos m;
  ok_closed i : 0 <= i < pos m -> 0 <= depthAt (depth st) i ->
    i ∈ work st \/ closed_at m (deepest st) (depth st) i;
}.

Lemma closed_grows m r r' D D' i : r <= r' -> (forall j, depthAt D j <= depthAt D' j) ->
  depthAt D' i = depthAt D i -> closed_at m r D i -> closed_at m r' D' i.
Proof.
  intros Hr Hg E [Hd Hc]. unfold closed_at. rewrite E. split; [lia|].
  destruct (flowAt m i (depthAt D i)) as [jumps after|]; [|done]. destruct Hc as [Hj Ha]. split.
  - eapply Forall_impl; [exact Hj|]. intros [t d]. now apply covered_grows.
  - destruct after as [a|]; [|done]. destruct Ha as [Ha Hca]. split; [lia|].
    now apply (covered_grows _ D).
Qed.

Lemma analysis_ok_step m st i rest st' jumps after : analysis_ok m st -> work st = i :: rest ->
  flowAt m i (depthAt (depth st) i) = Flow jumps after ->
  length (depth st') = length (depth st) -> deepest st <= deepest st' ->
  depthAt (depth st) i <= deepest st' ->
  (forall j, depthAt (depth st) j <= depthAt (depth st') j) ->
  (forall j, j ∈ rest -> j ∈ work st') ->
  (forall j, 0 <= j -> depthAt (depth st') j <> depthAt (depth st) j -> j ∈ work st') ->
  (forall j, j ∈ work st' -> j ∈ rest \/ 0 <= j < pos m) ->
  Forall (fun '(t, d) => covered (pos m) (depth st') t d) jumps ->
  match after with
  | Some a => a <= deepest st' /\ covered (pos m) (depth st') (i + 1) a
  | None => True
  end -> analysis_ok m st'.
Proof.
  intros Hok Hw Hf Hlen Hdeep Hd Hg Hrest Hch Hrange Hj Ha. destruct Hok as [H1 H2 H3 H4 H5]. split.
  - lia.
  - congruence.
  - intros Hn. specialize (H3 Hn). specialize (Hg 0). lia.
  - intros j [Hin|?]%Hrange; [|done]. apply H4. rewrite Hw. now right.
  - intros j Hjr Hjd. destruct (Z.eq_dec (depthAt (depth st') j) (depthAt (depth st) j)) as [E|E];
      [|left; apply Hch; [lia|done]].
    destruct (Z.eq_dec j i) as [->|Hne].
    + right. unfold closed_at. rewrite E, Hf. split; [lia|]. done.
    + destruct (H5 j Hjr ltac:(lia)) as [Hin|Hc].
      * left. rewrite Hw in Hin. apply elem_of_cons in Hin as [?|?]; [done|]. now apply Hrest.
      * right. exact (closed_grows _ _ _ _ _ _ Hdeep Hg E Hc).
Qed.

Lemma analysis_step_ok m st : Forall (fun w => 0 <= w) (code_ m) -> known_ops m ->
  analysis_ok m st ->
  match analysisStep m st with
  | inl st' => analysis_ok m st'
  | inr r => r = deepest st /\ work st = []
  end.
Proof.
  intros Hpos Hknown Hok. unfold analysisStep. destruct (work st) as [|i rest] eqn:Hw; [done|].
  assert (Hi : 0 <= i < pos m) by (apply (ok_work _ _ Hok); rewrite Hw; now left).
  change (nth (Z.to_nat i) (depth st) 0) with (depthAt (depth st) i).
  set (d := depthAt (depth st) i). set (st1 := mkAnalysis (depth st) rest (Z.max (deepest st) d)).
  pose proof (flow_targets m i d Hpos ltac:(lia)) as Ht.
  assert (Hlen : pos m = Z.of_nat (length (depth st))) by (unfold pos; now rewrite (ok_length _ _ Hok)).
  destruct (flowAt m i d) as [jumps after|] eqn:Hf.
  - destruct (reach_all (pos m) jumps st1 Hlen Ht) as [Hr Hc]. set (st2 := fold_left _ jumps st1) in *.
    destruct after as [a|].
    + set (st3 := set_deepest (Z.max (deepest st2) a) st2).
      destruct (reach_reached (pos m) st3 (i + 1) a) as [Hr3 Hc3];
        [cbn; now rewrite (reached_length _ _ _ Hr)|lia|].
      assert (Hdeep : deepest (reach (pos m) st3 (i + 1, a)) = Z.max (Z.max (deepest st) d) a)
        by (rewrite (reached_deepest _ _ _ Hr3); cbn; now rewrite (reached_deepest _ _ _ Hr)).
      apply (analysis_ok_step m st i rest _ jumps (Some a) Hok Hw Hf); fold d; rewrite ?Hdeep; try lia.
      * rewrite (reached_length _ _ _ Hr3). apply (reached_length _ _ _ Hr).
      * intros j. etransitivity; [apply (reached_grows _ _ _ Hr j)|apply (reached_grows _ _ _ Hr3 j)].
      * intros j Hj. apply (reached_work _ _ _ Hr3), (reached_work _ _ _ Hr), Hj.
      * intros j Hj0 Hj. destruct (Z.eq_dec (depthAt (depth st2) j) (depthAt (depth st) j)) as [E|E].
        -- apply (reached_changed _ _ _ Hr3); [done|]. change (depth st3) with (depth st2).
           rewrite E. exact Hj.
        -- apply (reached_work _ _ _ Hr3), (reached_changed _ _ _ Hr); done.
      * intros j [Hj|?]%(reached_range _ _ _ Hr3); [|auto]. now apply (reached_range _ _ _ Hr).
      * eapply Forall_impl; [exact Hc|]. intros [t e]. apply covered_grows, (reached_grows _ _ _ Hr3).
      * split; [lia|done].
    + apply (analysis_ok_step m st i rest _ jumps None Hok Hw Hf); fold d;
        rewrite ?(reached_deepest _ _ _ Hr); cbn [deepest st1]; try lia; try done;
        try apply Hr.
  - exfalso. unfold flowAt in Hf. unfold known_ops in Hknown.
    rewrite List.Forall_forall in Hknown.
    specialize (Hknown (nth (Z.to_nat i) (code_ m) 0) ltac:(apply nth_In; unfold pos in Hi; lia)).
    unfold known_op in Hknown. destruct (instrOp _) as [op|]; [now destruct op|done].
Qed.

Lemma depthAt_replicate k i : 0 <= i < Z.of_nat k -> depthAt (replicate k (-1)) i = -1.
Proof.
  intros Hi. unfold depthAt. rewrite nth_lookup, lookup_replicate_2 by lia. done.
Qed.

Lemma analysis_start_ok m : analysis_ok m (analysisStart m).
Proof.
  unfold analysisStart. set (st0 := mkAnalysis _ [] 0).
  assert (Hlen : pos m = Z.of_nat (length (depth st0))) by (cbn; now rewrite length_replicate).
  destruct (reach_reached (pos m) st0 0 0 Hlen ltac:(lia)) as [Hr Hc].
  split.
  - rewrite (reached_deepest _ _ _ Hr). cbn. lia.
  - rewrite (reached_length _ _ _ Hr). cbn. apply length_replicate.
  - intros Hn. destruct Hc as [?|[?|[_ ?]]]; lia.
  - intros i [Hi|?]%(reached_range _ _ _ Hr); [|done]. now apply elem_of_nil in Hi.
  - intros i Hi Hd. left. apply (reached_changed _ _ _ Hr); [lia|].
    change (depth st0) with (replicate (length (code_ m)) (-1)).
    rewrite depthAt_replicate by (unfold pos in Hi; lia). lia.
Qed.

(** Whatever the analysis answers comes with a closed depth assignment. *)
Lemma computeMaxStack_bounded fuel m r : Forall (fun w => 0 <= w) (code_ m) -> known_ops m ->
  computeMaxStack fuel m = Some r -> exists D, bounded m r D.
Proof.
  intros Hpos Hknown. unfold computeMaxStack. intros E.
  apply (iter_inv (analysis_ok m) (fun r => exists D, bounded m r D) (analysisStep m) _ _ _) in E;
    [done| | |apply analysis_start_ok].
  - intros st st' Hok Es. pose proof (analysis_step_ok m st Hpos Hknown Hok) as H1. now rewrite Es in H1.
  - intros st r' Hok Es. pose proof (analysis_step_ok m st Hpos Hknown Hok) as H1. rewrite Es in H1.
    destruct H1 as [-> Hw]. exists (depth st). split; try apply Hok.
    intros i Hi Hd. destruct (ok_closed _ _ Hok i Hi Hd) as [Hin|Hc]; [|done].
    rewrite Hw in Hin. now apply elem_of_nil in Hin.
Qed.

(** ** The analysis ends on code whose paths agree

    [T] gives each instruction the depth every path reaches it with (-1 where
    none does), as structured code has it, and [B] bounds those depths. *)

Definition agrees (n : Z) (T : list Z) (t d : Z) : Prop := 0 <= d /\ (n <= t \/ depthAt T t = d).

Record depth_typed (m : BytecodeModule) (T : list Z) (B : Z) : Prop := {
  typed_length : length T = length (code_ m);
  typed_entry : 0 < pos m -> depthAt T 0 = 0;
  typed_bound i : 0 <= i < pos m -> depthAt T i <= B;
  typed_pos : 0 <= B;
  typed_flow i : 0 <= i < pos m -> 0 <= depthAt T i ->
    match flowAt m i (depthAt T i) with
    | UnknownOpcode => False
    | Flow jumps after =>
        Forall (fun '(t, d) => 0 <= t /\ agrees (pos m) T t d) jumps /\
        match after with
        | Some a => a <= B /\ agrees (pos m) T (i + 1) a
        | None => True
        end
    end;
}.

Definition unset (D : list Z) : nat := length (List.filter (fun d => d <? 0) D).
Definition pending (st : analysis) : nat := (unset (depth st) + length (work st))%nat.

Record typed_state (m : BytecodeModule) (T : list Z) (B : Z) (st : analysis) : Prop := {
  state_length : length (depth st) = length (code_ m);
  state_depth i : 0 <= i < pos m -> depthAt (depth st) i = -1 \/
    (depthAt (depth st) i = depthAt T i /\ 0 <= depthAt T i);
  state_work i : i ∈ work st -> 0 <= i < pos m /\ 0 <= depthAt (depth st) i;
  state_deepest : 0 <= deepest st <= B;
}.

Lemma unset_insert D t x d : D !! t = Some x -> x < 0 -> 0 <= d ->
  (unset (<[t := d]> D) + 1)%nat = unset D.
Proof.
  intros E Hx Hd. unfold unset. revert t E.
  induction D as [|y D IH]; intros [|t]; cbn; try done.
  - intros [= ->]. destruct (Z.ltb_spec d 0), (Z.ltb_spec x 0); try lia. cbn [length]. lia.
  - intros E. specialize (IH t E). unfold insert in *. destruct (y <? 0); cbn [length]; lia.
Qed.

Lemma unset_replicate k : unset (replicate k (-1)) = k.
Proof. unfold unset. induction k as [|k IH]; cbn; [done|]. now f_equal. Qed.

Lemma typed_reach m T B st t d : typed_state m T B st -> 0 <= t -> agrees (pos m) T t d ->
  typed_state m T B (reach (pos m) st (t, d)) /\
  (pending (reach (pos m) st (t, d)) <= pending st)%nat.
Proof.
  intros Hs Ht [Hd Ha]. unfold reach. destruct (Z.leb_spec (pos m) t) as [|Hlt]; [done|].
  destruct (Z.ltb_spec d 0); [lia|]. cbn [orb].
  destruct (Z.leb_spec d (nth (Z.to_nat t) (depth st) 0)) as [|Hgt]; [done|].
  change (nth (Z.to_nat t) (depth st) 0) with (depthAt (depth st) t) in Hgt.
  destruct Ha as [|Ha]; [lia|].
  destruct (state_depth _ _ _ _ Hs t ltac:(lia)) as [E|[E _]]; [|lia].
  assert (Hlen : Z.of_nat (length (depth st)) = pos m) by (rewrite (state_length _ _ _ _ Hs); done).
  assert (Hins : forall i, 0 <= i -> depthAt (<[Z.to_nat t := d]> (depth st)) i =
            if decide (i = t) then d else depthAt (depth st) i)
    by (intros i Hi; apply depthAt_insert; lia).
  split.
  - split; cbn [depth work deepest]; [rewrite length_insert; apply Hs| | |apply Hs].
    + intros i Hi. rewrite Hins by lia. case_decide; [subst; right; lia|now apply (state_depth _ _ _ _ Hs)].
    + intros i [->|Hi]%elem_of_cons.
      * rewrite Hins, decide_True by (done || lia). lia.
      * destruct (state_work _ _ _ _ Hs i Hi) as [Hr Hp]. split; [done|].
        rewrite Hins by lia. case_decide; [lia|done].
  - unfold pending. cbn [depth work length].
    destruct (lookup_lt_is_Some_2 (depth st) (Z.to_nat t)) as [x Ex]; [lia|].
    assert (x = -1) as ->.
    { revert E. unfold depthAt. rewrite nth_lookup, Ex. done. }
    pose proof (unset_insert (depth st) (Z.to_nat t) (-1) d Ex ltac:(lia) ltac:(lia)). lia.
Qed.

Lemma typed_reach_all m T B jumps st : typed_state m T B st ->
  Forall (fun '(t, d) => 0 <= t /\ agrees (pos m) T t d) jumps ->
  typed_state m T B (fold_left (reach (pos m)) jumps st) /\
  (pending (fold_left (reach (pos m)) jumps st) <= pending st)%nat.
Proof.
  revert st. induction jumps as [|[t d] jumps IH]; intros st Hs Hj; cbn [fold_left]; [done|].
  apply Forall_cons in Hj as [[Ht Ha] Hj']. destruct (typed_reach m T B st t d Hs Ht Ha) as [H1 H2].
  destruct (IH _ H1 Hj') as [H3 H4]. split; [done|lia].
Qed.

Lemma typed_step m T B st : depth_typed m T B -> typed_state m T B st ->
  match analysisStep m st with
  | inl st' => typed_state m T B st' /\ (pending st' < pending st)%nat
  | inr r => 0 <= r <= B
  end.
Proof.
  intros HT Hs. unfold analysisStep. destruct (work st) as [|i rest] eqn:Hw; [apply Hs|].
  destruct (state_work _ _ _ _ Hs i ltac:(rewrite Hw; now left)) as [Hi Hd].
  change (nth (Z.to_nat i) (depth st) 0) with (depthAt (depth st) i).
  destruct (state_depth _ _ _ _ Hs i Hi) as [E|[E Hp]]; [lia|]. rewrite E.
  pose proof (typed_flow _ _ _ HT i Hi Hp) as Hf. pose proof (typed_bound _ _ _ HT i Hi) as HB.
  destruct (flowAt m i (depthAt T i)) as [jumps after|]; [|done]. destruct Hf as [Hj Ha].
  set (st1 := mkAnalysis (depth st) rest (Z.max (deepest st) (depthAt T i))).
  assert (H1 : typed_state m T B st1).
  { split; cbn [depth work deepest st1]; try apply Hs.
    - intros j Hjw. apply (state_work _ _ _ _ Hs). rewrite Hw. now right.
    - pose proof (state_deepest _ _ _ _ Hs). lia. }
  assert (Hm1 : (pending st1 < pending st)%nat) by (unfold pending; rewrite Hw; cbn [depth work st1 length]; lia).
  destruct (typed_reach_all m T B jumps st1 H1 Hj) as [H2 Hm2].
  set (st2 := fold_left _ jumps st1) in *. destruct after as [a|]; [|split; [done|lia]].
  destruct Ha as [HaB Hag]. set (st3 := set_deepest (Z.max (deepest st2) a) st2).
  assert (H3 : typed_state m T B st3).
  { split; try apply H2. cbn. pose proof (state_deepest _ _ _ _ H2). lia. }
  destruct (typed_reach m T B st3 (i + 1) a H3 ltac:(lia) Hag) as [H4 Hm4].
  assert (Hm3 : pending st3 = pending st2) by done. split; [done|lia].
Qed.

Lemma typed_analysis_ends m T B : depth_typed m T B ->
  exists r, computeMaxStack (S (length (code_ m))) m = Some r /\ 0 <= r <= B.
Proof.
  intros HT.
  set (st0 := mkAnalysis (replicate (length (code_ m)) (-1)) [] 0).
  assert (H0 : typed_state m T B st0).
  { split; cbn [depth work deepest st0].
    - apply length_replicate.
    - intros i Hi. left. apply depthAt_replicate. unfold pos in Hi. lia.
    - intros i Hi. now apply elem_of_nil in Hi.
    - pose proof (typed_pos _ _ _ HT). lia. }
  assert (Hstart : typed_state m T B (analysisStart m) /\
                   (pending (analysisStart m) <= length (code_ m))%nat).
  { assert (Hp0 : pending st0 = length (code_ m)).
    { unfold pending. cbn [depth work st0 length]. rewrite unset_replicate. lia. }
    unfold analysisStart. fold st0. destruct (Z.le_gt_cases (pos m) 0) as [Hn|Hn].
    - unfold reach. rewrite (proj2 (Z.leb_le _ _) Hn). cbn [orb]. split; [done|lia].
    - destruct (typed_reach m T B st0 0 0 H0 ltac:(lia)) as [H1 H2]; [|split; [done|lia]].
      split; [lia|]. right. now apply (typed_entry _ _ _ HT). }
  destruct Hstart as [Hs Hp].
  destruct (iter_total (typed_state m T B) pending (analysisStep m) (S (length (code_ m)))
              (analysisStart m)) as [r Hr].
  - intros st st' Hst Est. pose proof (typed_step m T B st HT Hst) as H1. now rewrite Est in H1.
  - done.
  - lia.
  - exists r. split; [exact Hr|].
    apply (iter_inv (typed_state m T B) (fun r => 0 <= r <= B) _ _ _ _
             ltac:(intros st st' Hst Est; pose proof (typed_step m T B st HT Hst) as H1;
                   rewrite Est in H1; apply H1)
             ltac:(intros st r' Hst Est; pose proof (typed_step m T B st HT Hst) as H1;
                   rewrite Est in H1; exact H1) Hs Hr).
Qed.

(** The flow analysis ends: on a body whose instructions have one depth each
    ([depth_typed], what the compiler's structured code has), at most as many
    turns of the worklist as there are instructions, and one more to notice,
    give the answer, which no bound of the body's depths is below. *)
Theorem computeMaxStack_total m T B : depth_typed m T B ->
  exists r, computeMaxStack (S (length (code_ m))) m = Some r /\ 0 <= r <= B.
Proof. apply typed_analysis_ends. Qed.

(** [depth_typed], decided. *)
Definition agreesb (n : Z) (T : list Z) (t d : Z) : bool :=
  (0 <=? d) && ((n <=? t) || (depthAt T t =? d)).

Definition typed_at (m : BytecodeModule) (T : list Z) (B i : Z) : bool :=
  (depthAt T i <=? B) &&
  ((depthAt T i <? 0) ||
   match flowAt m i (depthAt T i) with
   | UnknownOpcode => false
   | Flow jumps after =>
       forallb (fun '(t, d) => (0 <=? t) && agreesb (pos m) T t d) jumps &&
       match after with
       | Some a => (a <=? B) && agreesb (pos m) T (i + 1) a
       | None => true
       end
   end).

Definition depth_typedb (m : BytecodeModule) (T : list Z) (B : Z) : bool :=
  (length T =? length (code_ m))%nat && (0 <=? B) && ((pos m <=? 0) || (depthAt T 0 =? 0)) &&
  forallb (fun k => typed_at m T B (Z.of_nat k)) (seq 0 (length (code_ m))).

Lemma agreesb_spec n T t d : agreesb n T t d = true -> agrees n T t d.
Proof. unfold agreesb, agrees. intros H1. destruct (n <=? t) eqn:E; lia. Qed.

Lemma depth_typedb_spec m T B : depth_typedb m T B = true -> depth_typed m T B.
Proof.
  unfold depth_typedb. intros [[[Hl HB]%andb_prop He]%andb_prop Ha]%andb_prop.
  rewrite forallb_forall in Ha.
  assert (Hat : forall i, 0 <= i < pos m -> typed_at m T B i = true).
  { intros i Hi. replace i with (Z.of_nat (Z.to_nat i)) by lia. apply Ha, in_seq.
    unfold pos in Hi. lia. }
  split.
  - now apply Nat.eqb_eq.
  - intros Hn. lia.
  - intros i Hi. specialize (Hat i Hi). unfold typed_at in Hat. apply andb_prop in Hat as [H1 _]. lia.
  - lia.
  - intros i Hi Hp. specialize (Hat i Hi). unfold typed_at in Hat. apply andb_prop in Hat as [_ H1].
    apply orb_prop in H1 as [H1|H1]; [lia|].
    destruct (flowAt m i (depthAt T i)) as [jumps after|]; [|done].
    apply andb_prop in H1 as [Hj Haf]. rewrite forallb_forall in Hj. split.
    + apply List.Forall_forall. intros [t d] Hin. specialize (Hj _ Hin).
      apply andb_prop in Hj as [Ht Hag]. split; [lia|]. now apply agreesb_spec.
    + destruct after as [a|]; [|done]. apply andb_prop in Haf as [? Hag]. split; [lia|].
      now apply agreesb_spec.
Qed.

End Modules.

(** ** Examples *)

(** The body of (loop [i 0] (if (< i 3) (recur (+ i 1)) i)). *)
Definition loop_code : list Z :=
  [instruction PUSH_CONST 0; instruction STORE_LOCAL 0;
   instruction PUSH_LOCAL 0; instruction PUSH_CONST 1; instruction LT 0;
   instruction JUMP_IF_FALSE 5;
   instruction PUSH_LOCAL 0; instruction PUSH_CONST 2; instruction ADD 0;
   instruction STORE_LOCAL 0; instruction JUMP_BACK 9;
   instruction PUSH_LOCAL 0; instruction RETURN 0].

Definition loop_module : BytecodeModule (obj := nat) :=
  set_code loop_code false newModule.

Definition loop_depths : list Z := [0; 1; 0; 1; 2; 1; 0; 1; 2; 1; 0; 0; 1].

Example computeMaxStack_total_witness :
  depth_typed loop_module loop_depths 2 /\
  exists r, computeMaxStack (S (length (code_ loop_module))) loop_module = Some r /\ 0 <= r <= 2.
Proof.
  assert (H : depth_typed loop_module loop_depths 2)
    by (apply depth_typedb_spec; vm_compute; reflexivity).
  split; [exact H|]. exact (computeMaxStack_total loop_module loop_depths 2 H).
Defined.

Example loop_max_stack : computeMaxStack 20 loop_module = Some 2.
Proof. reflexivity. Qed.

Example pool_insert_witness :
  pool_ok (emptyPool (obj := nat)) /\
  let '(i, p') := addConst (fun _ => 7%nat) (RLong 42) emptyPool in
  i = 0%nat /\ addConst (fun _ => 7%nat) (RLong 42) p' = (i, p').
Proof.
  split; [exact pool_ok_empty|]. split; [reflexivity|].
  exact (proj2 (proj2 (proj2 (proj2 (pool_insert (fun _ => 7%nat) (RLong 42) emptyPool pool_ok_empty))))).
Defined.

Example emit_patch_decode_witness :
  exists m', emit JUMP 5 loop_module = Ok (13, m') /\
    code_ m' = loop_code ++ [instruction JUMP 5].
Proof.
  destruct (proj1 (emit_patch_decode JUMP NOP 5 0 0 loop_module ltac:(lia) ltac:(lia) ltac:(lia))
              ltac:(unfold kMaxOperand; lia)) as (m' & H1 & H2 & _).
  exists m'. split; [exact H1|exact H2].
Defined.
