(* ===== verification/Exceptions.v ===== *)
(** Exception classes and values (runtime/Exceptions.h, runtime/Exceptions.cpp):
    the built-in hierarchy, class lookup by name, catch selection, and the
    class an error text names. Prototype objects are protoCore's; a Clojure
    exception is a value with a class id and three parts. *)

From S2P Require Import Prelude.

Record ExceptionClass := mkClass { className : bytes; package : bytes; parent : Z }.

Definition kExceptionClasses : list ExceptionClass := [
  mkClass (s2b "Throwable") (s2b "java.lang") (-1);
  mkClass (s2b "Exception") (s2b "java.lang") (0);
  mkClass (s2b "Error") (s2b "java.lang") (0);
  mkClass (s2b "RuntimeException") (s2b "java.lang") (1);
  mkClass (s2b "ExceptionInfo") (s2b "clojure.lang") (3);
  mkClass (s2b "ArithmeticException") (s2b "java.lang") (3);
  mkClass (s2b "ClassCastException") (s2b "java.lang") (3);
  mkClass (s2b "IllegalArgumentException") (s2b "java.lang") (3);
  mkClass (s2b "ArityException") (s2b "clojure.lang") (7);
  mkClass (s2b "NumberFormatException") (s2b "java.lang") (7);
  mkClass (s2b "IllegalStateException") (s2b "java.lang") (3);
  mkClass (s2b "IndexOutOfBoundsException") (s2b "java.lang") (3);
  mkClass (s2b "StringIndexOutOfBoundsException") (s2b "java.lang") (11);
  mkClass (s2b "NullPointerException") (s2b "java.lang") (3);
  mkClass (s2b "UnsupportedOperationException") (s2b "java.lang") (3);
  mkClass (s2b "IOException") (s2b "java.io") (1);
  mkClass (s2b "FileNotFoundException") (s2b "java.io") (15);
  mkClass (s2b "SocketException") (s2b "java.net") (15);
  mkClass (s2b "ConnectException") (s2b "java.net") (17);
  mkClass (s2b "SocketTimeoutException") (s2b "java.net") (15);
  mkClass (s2b "UnknownHostException") (s2b "java.net") (15);
  mkClass (s2b "ExecutionException") (s2b "java.util.concurrent") (1);
  mkClass (s2b "StackOverflowError") (s2b "java.lang") (2);
  mkClass (s2b "PatternSyntaxException") (s2b "java.util.regex") (7)
].

Definition kExceptionClassCount : Z := Z.of_nat (length kExceptionClasses).
Definition kRuntimeException : Z := 3.
Definition kExceptionInfo : Z := 4.
Definition kThrowableClassId : Z := 0.
Definition kExceptionClassId : Z := 1.

(** ** The class hierarchy *)

Definition namesClass (name : bytes) (c : ExceptionClass) : bool :=
  bool_decide (name = className c) ||
  bool_decide (name = package c ++ s2b "." ++ className c).

Fixpoint classIdFrom (i : Z) (cs : list ExceptionClass) (name : bytes) : Z :=
  match cs with
  | [] => -1
  | c :: cs => if namesClass name c then i else classIdFrom (i + 1) cs name
  end.

Definition exceptionClassId (name : bytes) : Z := classIdFrom 0 kExceptionClasses name.

Definition validClass (id : Z) : bool := (0 <=? id) && (id <? kExceptionClassCount).

Definition classAt (id : Z) : option ExceptionClass :=
  if validClass id then kExceptionClasses !! Z.to_nat id else None.

Definition exceptionClassName (id : Z) : bytes :=
  match classAt id with Some c => className c | None => s2b "Throwable" end.

(** The walk up the parents, [fuel] of them. *)
Fixpoint isAFrom (fuel : nat) (cls ancestor : Z) : bool :=
  match fuel with
  | O => false
  | S fuel =>
      match classAt cls with
      | Some c => if cls =? ancestor then true else isAFrom fuel (parent c) ancestor
      | None => false
      end
  end.

(** A parent precedes its children in the table, so the walk has at most as many
    steps as the table has classes. *)
Definition exceptionClassIsA (cls ancestor : Z) : bool :=
  isAFrom (S (length kExceptionClasses)) cls ancestor.

(** ** Errors as text *)

(** [text.find(": ")] *)
Fixpoint findColon (i : nat) (text : bytes) : option nat :=
  match text with
  | c :: rest =>
      match rest with
      | d :: _ => if (c =? ":")%byte && (d =? " ")%byte then Some i else findColon (S i) rest
      | [] => None
      end
  | [] => None
  end.

Definition classFromText (text : bytes) : Z * bytes :=
  match findColon 0 text with
  | Some colon =>
      if (0 <? colon)%nat then
        let named := exceptionClassId (take colon text) in
        if 0 <=? named then (named, drop (colon + 2) text) else (kRuntimeException, text)
      else (kRuntimeException, text)
  | None => (kRuntimeException, text)
  end.

(** ** Exception values

    [V] is a value, [nil] its [PROTO_NONE]; [asException] tells which values are
    Clojure exceptions and what they hold. *)

Record ExceptionValue (V : Type) := mkException {
  exClass : Z; exMessage : V; exData : V; exCause : V;
}.
Arguments mkException {V}.
Arguments exClass {V}.
Arguments exMessage {V}.
Arguments exData {V}.
Arguments exCause {V}.

Section Values.

Context {V : Type} (asException : V -> option (ExceptionValue V)).

(** [v->isInstanceOf(classPrototype)] of a value that is no Clojure exception. *)
Context (foreignInstance : V -> Z -> bool).

Definition exceptionMatches (v : V) (cls : Z) : bool :=
  if cls =? kThrowableClassId then true
  else match asException v with
       | Some e => exceptionClassIsA (exClass e) cls
       | None => if cls =? kExceptionClassId then true else foreignInstance v cls
       end.

End Values.

(** ** Theorems *)

Definition classIds : list Z := map Z.of_nat (seq 0 (length kExceptionClasses)).

Lemma valid_in id : validClass id = true <-> In id classIds.
Proof.
  unfold validClass, classIds, kExceptionClassCount. rewrite in_map_iff. split.
  - intros H. exists (Z.to_nat id). rewrite in_seq. lia.
  - intros (n & <- & Hn%in_seq). lia.
Qed.

(** A boolean fact about a class id holds of every valid one as soon as it
    computes on the table. *)
Lemma class_forall (P : Z -> bool) :
  forallb P classIds = true -> forall id, validClass id = true -> P id = true.
Proof. rewrite forallb_forall. intros H id Hv. now apply H, valid_in. Qed.

Lemma classIdFrom_sound cs i name : 0 <= i -> 0 <= classIdFrom i cs name ->
  exists c, cs !! Z.to_nat (classIdFrom i cs name - i) = Some c /\ namesClass name c = true /\
    i <= classIdFrom i cs name < i + Z.of_nat (length cs).
Proof.
  revert i. induction cs as [|c cs IH]; intros i Hi; cbn [classIdFrom]; [lia|].
  destruct (namesClass name c) eqn:En.
  - intros _. exists c. rewrite Z.sub_diag. cbn [length]. split; [done|]. split; [done|lia].
  - intros H. destruct (IH (i + 1) ltac:(lia) H) as (c' & E & Hn & Hb). exists c'.
    cbn [length]. split; [|split; [done|lia]].
    replace (Z.to_nat (classIdFrom (i + 1) cs name - i))
      with (S (Z.to_nat (classIdFrom (i + 1) cs name - (i + 1)))) by lia. done.
Qed.

Lemma exceptionClassId_sound name : 0 <= exceptionClassId name ->
  exists c, classAt (exceptionClassId name) = Some c /\
    (name = className c \/ name = package c ++ s2b "." ++ className c).
Proof.
  intros H. destruct (classIdFrom_sound kExceptionClasses 0 name ltac:(lia) H) as (c & E & Hn & Hb).
  rewrite Z.sub_0_r in E. change (classIdFrom 0 kExceptionClasses name) with (exceptionClassId name) in *.
  exists c. split.
  - unfold classAt, validClass, kExceptionClassCount.
    replace ((0 <=? _) && _) with true; [done|]. symmetry. lia.
  - unfold namesClass in Hn. apply orb_prop in Hn as [Hn|Hn]; apply bool_decide_eq_true_1 in Hn; auto.
Qed.

Lemma isAFrom_valid fuel cls a : isAFrom fuel cls a = true ->
  validClass cls = true /\ validClass a = true.
Proof.
  revert cls. induction fuel as [|f IH]; intros cls; cbn; [done|]. unfold classAt.
  destruct (validClass cls) eqn:Ev; [|done]. destruct (kExceptionClasses !! _); [|done].
  destruct (Z.eqb_spec cls a) as [->|]; [done|]. intros H%IH. tauto.
Qed.

Lemma isA_valid a b : exceptionClassIsA a b = true -> validClass a = true /\ validClass b = true.
Proof. apply isAFrom_valid. Qed.

Definition impliesb (a b : bool) : bool := if a then b else true.

Definition is_order (a : Z) : bool :=
  exceptionClassIsA a a && exceptionClassIsA a kThrowableClassId &&
  forallb (fun b =>
    impliesb (exceptionClassIsA a b && exceptionClassIsA b a) (a =? b) &&
    forallb (fun c => impliesb (exceptionClassIsA a b && exceptionClassIsA b c)
                               (exceptionClassIsA a c)) classIds) classIds.

Lemma order_checked : forallb is_order classIds = true.
Proof. vm_compute. reflexivity. Qed.

#[local] Opaque exceptionClassIsA exceptionClassId classIds.

Lemma order_at a b c : validClass a = true -> validClass b = true -> validClass c = true ->
  exceptionClassIsA a a = true /\ exceptionClassIsA a kThrowableClassId = true /\
  (exceptionClassIsA a b = true -> exceptionClassIsA b a = true -> a = b) /\
  (exceptionClassIsA a b = true -> exceptionClassIsA b c = true -> exceptionClassIsA a c = true).
Proof.
  intros Ha Hb Hc. pose proof (class_forall _ order_checked a Ha) as H. unfold is_order in H.
  apply andb_prop in H as [H Hall]. apply andb_prop in H as [H1 H2].
  rewrite forallb_forall in Hall. specialize (Hall b (proj1 (valid_in b) Hb)).
  apply andb_prop in Hall as [Hanti Htrans]. rewrite forallb_forall in Htrans.
  specialize (Htrans c (proj1 (valid_in c) Hc)).
  split; [exact H1|]. split; [exact H2|]. split; intros E1 E2.
  - rewrite E1, E2 in Hanti. now apply Z.eqb_eq.
  - rewrite E1, E2 in Htrans. exact Htrans.
Qed.

(** [exceptionClassIsA] orders the built-in classes: it is reflexive on
    them, antisymmetric and transitive, Throwable is above every class, and an
    id that is no class is related to none. *)
Theorem isA_order :
  (forall a, validClass a = true ->
     exceptionClassIsA a a = true /\ exceptionClassIsA a kThrowableClassId = true) /\
  (forall a b, exceptionClassIsA a b = true -> exceptionClassIsA b a = true -> a = b) /\
  (forall a b c, exceptionClassIsA a b = true -> exceptionClassIsA b c = true ->
     exceptionClassIsA a c = true) /\
  (forall a b, exceptionClassIsA a b = true -> validClass a = true /\ validClass b = true).
Proof.
  pose proof isA_valid as Hv. split; [|split; [|split]].
  - intros a Ha. destruct (order_at a a a Ha Ha Ha) as (H1 & H2 & _). split; assumption.
  - intros a b E1 E2. destruct (Hv a b E1) as [Ha Hb].
    exact (proj1 (proj2 (proj2 (order_at a b a Ha Hb Ha))) E1 E2).
  - intros a b c E1 E2. destruct (Hv a b E1) as [Ha Hb]. destruct (Hv b c E2) as [_ Hc].
    exact (proj2 (proj2 (proj2 (order_at a b c Ha Hb Hc))) E1 E2).
  - exact Hv.
Qed.

(** ** Names *)

#[local] Transparent exceptionClassId classIds.

Definition named_checked (id : Z) : bool :=
  match classAt id with
  | Some c =>
      (exceptionClassId (className c) =? id) &&
      (exceptionClassId (package c ++ s2b "." ++ className c) =? id) &&
      (0 <? length (className c))%nat &&
      forallb is_alpha (className c)
  | None => false
  end.

Lemma named_table : forallb named_checked classIds = true.
Proof. vm_compute. reflexivity. Qed.

#[local] Opaque exceptionClassId classIds.

Lemma class_named id : validClass id = true -> exists c, classAt id = Some c /\
  exceptionClassId (className c) = id /\
  exceptionClassId (package c ++ s2b "." ++ className c) = id /\
  (0 < length (className c))%nat /\ forallb is_alpha (className c) = true.
Proof.
  intros Hv. pose proof (class_forall _ named_table id Hv) as H. unfold named_checked in H.
  destruct (classAt id) as [c|]; [|done]. exists c.
  apply andb_prop in H as [H Ha]. apply andb_prop in H as [H Hl]. apply andb_prop in H as [H1 H2].
  apply Z.eqb_eq in H1, H2. apply Nat.ltb_lt in Hl. done.
Qed.

(** Class names and ids correspond: the simple and the qualified name of
    class [id] both name [id], and a name that has an id is one of those two. *)
Theorem classId_names id name :
  (validClass id = true -> exceptionClassId (exceptionClassName id) = id) /\
  (0 <= exceptionClassId name ->
     exists c, classAt (exceptionClassId name) = Some c /\
       (name = className c \/ name = package c ++ s2b "." ++ className c)).
Proof.
  split; [|apply exceptionClassId_sound].
  intros Hv. destruct (class_named id Hv) as (c & E & Hc & _). unfold exceptionClassName.
  now rewrite E.
Qed.

Lemma findColon_name name rest i : forallb is_alpha name = true ->
  findColon i (name ++ s2b ": " ++ rest) = Some (i + length name)%nat.
Proof.
  revert i. induction name as [|c name IH]; intros i; [intros _; cbn; f_equal; lia|].
  cbn [forallb app]. intros [Hc Hn]%andb_prop. cbn [length].
  replace (i + S (length name))%nat with (S i + length name)%nat by lia. rewrite <- (IH (S i) Hn).
  assert (Hne : (c =? ":")%byte = false).
  { byte_case; [|done]. vm_compute in Hc. discriminate. }
  cbn [findColon]. destruct name; cbn [app]; cbn [findColon]; now rewrite Hne.
Qed.

Lemma findColon_split_from text i k : findColon i text = Some k ->
  (i <= k)%nat /\ text = take (k - i) text ++ s2b ": " ++ drop (k - i + 2) text.
Proof.
  revert i. induction text as [|c text IH]; intros i; [done|]. cbn [findColon].
  destruct text as [|d rest]; [done|].
  destruct ((c =? ":")%byte && (d =? " ")%byte) eqn:E.
  - intros [= <-]. apply andb_prop in E as [->%byte_dec_bl ->%byte_dec_bl].
    rewrite Nat.sub_diag. split; [lia|]. cbn. now rewrite drop_0.
  - intros H%IH. destruct H as [Hle Ht]. split; [lia|].
    replace (k - i)%nat with (S (k - S i)) by lia. cbn [take drop app Nat.add]. now f_equal.
Qed.

Lemma findColon_split text k : findColon 0 text = Some k ->
  text = take k text ++ s2b ": " ++ drop (k + 2) text.
Proof. intros H%findColon_split_from. now rewrite Nat.sub_0_r in H. Qed.

(** An error text of the form "<Class>: <message>" raises that class with
    that message, and any other text a RuntimeException with the whole text:
    [classFromText] inverts the spelling of every class and message, and keeps
    a text it does not recognise. *)
Theorem classFromText_roundtrip id message text : validClass id = true ->
  classFromText (exceptionClassName id ++ s2b ": " ++ message) = (id, message) /\
  (let '(cls, rest) := classFromText text in
   (cls = kRuntimeException /\ rest = text) \/
   exists name, 0 <= cls /\ cls = exceptionClassId name /\ text = name ++ s2b ": " ++ rest).
Proof.
  intros Hv. split.
  - destruct (class_named id Hv) as (c & E & Hc & _ & Hl & Ha). unfold exceptionClassName.
    rewrite E. unfold classFromText. rewrite findColon_name by exact Ha. cbn [Nat.add].
    rewrite (proj2 (Nat.ltb_lt _ _) Hl).
    rewrite take_app_length, Hc. unfold validClass in Hv.
    replace (0 <=? id) with true by lia. f_equal.
    rewrite <- (drop_drop _ 2 (length (className c))), drop_app_length. reflexivity.
  - unfold classFromText. destruct (findColon 0 text) as [colon|] eqn:E; [|now left].
    destruct (0 <? colon)%nat; [|now left].
    destruct (Z.leb_spec 0 (exceptionClassId (take colon text))) as [Hid|_]; [right|now left].
    exists (take colon text). split; [exact Hid|]. split; [done|]. now apply findColon_split.
Qed.

Example classFromText_roundtrip_witness :
  validClass 5 = true /\
  classFromText (s2b "ArithmeticException: Divide by zero") = (5, s2b "Divide by zero").
Proof.
  split; [reflexivity|].
  exact (proj1 (classFromText_roundtrip 5 (s2b "Divide by zero") [] eq_refl)).
Defined.

(** Which handler takes an exception: a catch of Throwable takes every
    value; a catch of a class takes a Clojure exception exactly when the class
    is above its own; a catch of Exception takes every value that is no Clojure
    exception; and a catch of a class takes whatever a catch of one of its
    subclasses takes of the Clojure exceptions. *)
Theorem exceptionMatches_spec {V} (asException : V -> option (ExceptionValue V))
    (foreign : V -> Z -> bool) v cls :
  exceptionMatches asException foreign v kThrowableClassId = true /\
  (asException v = None -> exceptionMatches asException foreign v kExceptionClassId = true) /\
  forall e, asException v = Some e -> validClass (exClass e) = true ->
    (exceptionMatches asException foreign v cls = exceptionClassIsA (exClass e) cls) /\
    (forall sup, exceptionClassIsA cls sup = true ->
       exceptionMatches asException foreign v cls = true ->
       exceptionMatches asException foreign v sup = true).
Proof.
  destruct isA_order as (Hself & _ & Htrans & Hval). unfold exceptionMatches.
  split; [reflexivity|]. split.
  - intros ->. reflexivity.
  - intros e He Hv. rewrite He.
    assert (Hm : forall k, (if k =? kThrowableClassId then true else exceptionClassIsA (exClass e) k)
                           = exceptionClassIsA (exClass e) k).
    { intros k. destruct (Z.eqb_spec k kThrowableClassId) as [->|]; [|reflexivity].
      symmetry. apply (Hself (exClass e) Hv). }
    split; [apply Hm|]. intros sup Hsup. rewrite !Hm. intros Hc. exact (Htrans _ _ _ Hc Hsup).
Qed.

(** A class cast error is caught by a catch of RuntimeException and so by one
    of Exception. *)
Example exceptionMatches_spec_witness :
  let asException := fun _ : unit => Some (mkException 6 tt tt tt) in
  exceptionMatches asException (fun _ _ => false) tt kRuntimeException = true /\
  exceptionMatches asException (fun _ _ => false) tt kExceptionClassId = true.
Proof.
  split; [vm_compute; reflexivity|].
  exact (proj2 (proj2 (proj2 (exceptionMatches_spec (fun _ : unit => Some (mkException 6 tt tt tt))
    (fun _ _ => false) tt kRuntimeException)) _ eq_refl eq_refl) kExceptionClassId eq_refl eq_refl).
Defined.
