(* ===== verification/ExecutionEngine.v ===== *)
(** The virtual machine (runtime/ExecutionEngine.h, runtime/ExecutionEngine.cpp):
    values and calls, the frame and its slots, one definition per instruction,
    the exception handlers of a frame, [invoke] and [acceptsArgCount]. What
    protoCore and the primitives answer is the interface [Runtime]; the
    collector's slots, windows and safepoints keep values alive and change
    none, so they are not modelled. *)

From S2P Require Import Prelude Bytecode Exceptions.

#[local] Set Warnings "-register-all".

(** ** Values *)

Section Values.
Context {obj : Type} `{Countable obj}.

(** [VNull] is [nullptr], [VNone] is [PROTO_NONE] (nil), [VInt] a tagged
    SmallInteger. [VFn] is a child of [fnSingleProto] (its [__bytecode__] and
    [__captures__]), [VMulti] one of [fnMultiProto]; any other object is [VObj]. *)
Inductive val :=
| VNull
| VNone
| VBool (b : bool)
| VInt (z : Z)
| VFn (m : BytecodeModule (obj := obj)) (captures : option (list val))
| VMulti (arities : list (Z * BytecodeModule (obj := obj) * bool * list val))
| VObj (o : obj).

(** An entry of [__arities__]: (arity, bytecode, variadic?, captures). *)
Definition arity_spec : Type := Z * BytecodeModule (obj := obj) * bool * list val.

Definition specArity (s : arity_spec) : Z := s.1.1.1.
Definition specModule (s : arity_spec) : BytecodeModule := s.1.1.2.
Definition specVariadic (s : arity_spec) : bool := s.1.2.
Definition specCaptures (s : arity_spec) : list val := s.2.

End Values.

#[global] Arguments val obj {_ _} : rename.
#[global] Arguments arity_spec obj {_ _} : rename.

(** ** SmallIntegers

    A [const ProtoObject*] as a 64-bit word. *)

Definition kSmallIntTagMask : Z := 0x3FF.
Definition kSmallIntTagValue : Z := 0x001.

Definition u64 (z : Z) : Z := z mod 2 ^ 64.
Definition s64 (z : Z) : Z := (z + 2 ^ 63) mod 2 ^ 64 - 2 ^ 63.

Definition isSmallIntFast (word : Z) : bool := Z.land word kSmallIntTagMask =? kSmallIntTagValue.
Definition smallIntValueFast (word : Z) : Z := Z.shiftr (s64 word) 10.
Definition smallIntFromLong (v : Z) : Z := u64 (Z.lor (Z.shiftl v 10) kSmallIntTagValue).

Definition smallIntFitsLong (v : Z) : bool := (- 2 ^ 53 <=? v) && (v <=? 2 ^ 53 - 1).

(** ** What runs: outcomes and the world *)

(** How a call ends. [NoFuel]: the fuel was not enough. [Defect]: the C++
    program's behaviour is undefined. *)
Inductive outcome (T A : Type) :=
| Ret (a : A)
| Raise (t : T)
| NoFuel
| Defect (what : bytes).
Arguments Ret {T A}.
Arguments Raise {T A}.
Arguments NoFuel {T A}.
Arguments Defect {T A}.

(** The heap is protoCore's; [g_coreOperatorRedefined] is this component's only
    variable outside the frames. *)
Record world (W : Type) := mkWorld { heap : W; g_coreOperatorRedefined : Z }.
Arguments mkWorld {W}.
Arguments heap {W}.
Arguments g_coreOperatorRedefined {W}.

(** A C++ exception: a [ProtoException] (the very object, of whatever runtime
    subclass) or a [std::exception] and its [what()]. *)
Inductive thrown (E : Type) :=
| ProtoException (e : E)
| StdException (what : bytes).
Arguments ProtoException {E}.
Arguments StdException {E}.

(** Code that acts on the world. [native] code may call back into the VM. *)
Definition action (W E A : Type) : Type := world W -> world W * outcome (thrown E) A.

Definition native (V W E A : Type) : Type :=
  (V -> list V -> action W E V) -> action W E A.

Section Actions.
Context {W E : Type}.

#[export] Instance action_ret : MRet (action W E) := fun A a w => (w, Ret a).
#[export] Instance action_bind : MBind (action W E) := fun A B k m w =>
  match m w with
  | (w, Ret a) => k a w
  | (w, Raise t) => (w, Raise t)
  | (w, NoFuel) => (w, NoFuel)
  | (w, Defect what) => (w, Defect what)
  end.

Definition raise {A} (t : thrown E) : action W E A := fun w => (w, Raise t).
Definition defect {A} (what : bytes) : action W E A := fun w => (w, Defect what).

End Actions.

(** What the VM asks of protoCore and of the primitives. *)
Class Runtime (obj W exn meth : Type) `{Countable obj} := {
  (** globals: own attributes of the globals object, by symbol *)
  createSymbol : bytes -> obj;
  globalAt : obj -> W -> option (val obj);
  setGlobal : obj -> val obj -> W -> W;
  (** values *)
  largeInteger : Z -> val obj;
  fromDouble : Z -> val obj;
  fromUTF8 : bytes -> val obj;
  fromDigits : bytes -> val obj;
  sameObject : val obj -> val obj -> bool;
  bigIntegerValue : val obj -> option Z;
  isNumberObject : val obj -> bool;
  isNamedValue : val obj -> bool;
  namedSpelling : val obj -> bytes;
  isMap : val obj -> bool;
  isSet : val obj -> bool;
  isVector : val obj -> bool;
  isListValue : val obj -> bool;
  isObjectCell : val obj -> bool;
  valueTypeName : val obj -> bytes;
  (** collections *)
  vectorItems : val obj -> list (val obj);
  listItems : val obj -> list (val obj);
  listFromArray : list (val obj) -> val obj;
  seqItems : val obj -> native (val obj) W exn (option (list (val obj)));
  mapGet : val obj -> val obj -> native (val obj) W exn (option (val obj));
  setGet : val obj -> val obj -> native (val obj) W exn (option (val obj));
  (** protoCore's maps: a new one, and the insertion by Clojure's key semantics *)
  newMap : obj;
  hashedPut : val obj -> val obj -> val obj -> native (val obj) W exn obj;
  (** protoCore's promoting arithmetic, its ordering, and [=] *)
  protoAdd : val obj -> val obj -> native (val obj) W exn (val obj);
  protoSubtract : val obj -> val obj -> native (val obj) W exn (val obj);
  protoMultiply : val obj -> val obj -> native (val obj) W exn (val obj);
  partialCompare : val obj -> val obj -> option comparison;    (* [None]: unordered *)
  valuesEqual : val obj -> val obj -> native (val obj) W exn bool;
  (** attributes and prototypes *)
  getAttribute : val obj -> obj -> native (val obj) W exn (val obj);
  hasAttribute : val obj -> obj -> native (val obj) W exn bool;
  isInstanceOf : val obj -> val obj -> bool;
  classPrototype : Z -> val obj;
  (** exceptions *)
  asException : val obj -> option (ExceptionValue (val obj));
  makeException : ExceptionValue (val obj) -> val obj;
  clojureThrow : val obj -> exn;
  exnValue : exn -> val obj;
  (** methods: the primitives *)
  asMethod : val obj -> option meth;
  asMethodSelf : val obj -> val obj;
  callMethod : meth -> val obj -> list (val obj) -> native (val obj) W exn (val obj);
  fastPrimitiveCall : meth -> list (val obj) -> bool -> W -> option (val obj);
  (** the native stack, by the number of activations on it; the debugger *)
  checkNativeStack : nat -> option bytes;
  onLine : Z -> native (val obj) W exn unit;
}.

Section Engine.
Context {obj W exn meth : Type} `{Runtime obj W exn meth}.

#[local] Abbreviation V := (val obj).
#[local] Abbreviation module := (BytecodeModule (obj := obj)).
#[local] Abbreviation act := (action W exn).

Definition Invoke : Type := V -> list V -> act V.

(** The arguments of [execute]. *)
Record call := mkCall {
  callModule : module;
  callArgs : list V;
  callCaptures : option (list V);
  callKwVals : list V;
  callKwMap : V;                   (* [VNull]: no map *)
}.

Definition Execute : Type := call -> act V.

Definition fromLong (z : Z) : V := if smallIntFitsLong z then VInt z else largeInteger z.

Definition isInteger (v : V) : option Z :=
  match v with VInt z => Some z | _ => bigIntegerValue v end.

Definition isNumber (v : V) : bool :=
  match v with VInt _ => true | _ => isNumberObject v end.

Definition isNil (v : V) : bool := match v with VNull | VNone => true | _ => false end.

(** ** Maps of pairs (MapOps.cpp)

    [MapBuilder::assoc] for each pair; nil for a null pointer. *)
Definition orNil (v : V) : V := match v with VNull => VNone | _ => v end.

Fixpoint assocEach (m : V) (kv : list V) : native V W exn V := fun inv =>
  match kv with
  | key :: value :: kv => o ← hashedPut m (orNil key) (orNil value) inv; assocEach (VObj o) kv inv
  | _ => mret m
  end.

(** The map [MapBuilder] starts from: a new one for no base. *)
Definition mapBuilder (base : option V) : V :=
  match base with Some m => if isNil m then VObj newMap else m | None => VObj newMap end.

Definition mapAssocPairs (base : option V) (kv : list V) : native V W exn V := fun inv =>
  if negb (Z.of_nat (length kv) mod 2 =? 0) then raise (StdException (s2b "map: a key has no value"))
  else assocEach (mapBuilder base) kv inv.

(** [v == PROTO_NONE || v == PROTO_FALSE] *)
Definition isFalsy (v : V) : bool := match v with VNone | VBool false => true | _ => false end.

(** ** Raising errors (Exceptions.cpp) *)

Definition throwClassId (cls : Z) (message : bytes) : thrown exn :=
  ProtoException (clojureThrow (makeException (mkException cls (fromUTF8 message) VNone VNone))).

Definition throwClassed (name : string) (message : bytes) : thrown exn :=
  let cls := exceptionClassId (s2b name) in
  if cls <? 0 then StdException (s2b "throwClassed: unknown class " ++ s2b name)
  else throwClassId cls message.

Definition throwError (text : bytes) : thrown exn :=
  let '(cls, message) := classFromText text in throwClassId cls message.

Definition exceptionFromError (what : bytes) : V :=
  let '(cls, message) := classFromText what in
  makeException (mkException cls (fromUTF8 message) VNone VNone).

Definition isException (v : V) : bool :=
  negb (isNil v) && isObjectCell v && isInstanceOf v (classPrototype kThrowableClassId).

Definition isForeignObject (v : V) : bool :=
  negb (isNil v) && isObjectCell v && bool_decide (valueTypeName v = s2b "an object").

Definition isThrowable (v : V) : bool := isException v || isForeignObject v.

Definition valueIsInstanceOf (v type : V) : bool :=
  match v with VNull => false | _ => negb (isNil type) && isInstanceOf v type end.

Definition foreignInstance (v : V) (cls : Z) : bool :=
  valueIsInstanceOf v (classPrototype cls).

(** The exception [THROW] raises for [v]. *)
Definition throwValue (v : V) : thrown exn :=
  if isThrowable v then ProtoException (clojureThrow v)
  else throwClassed "ClassCastException"
         (s2b "throw expects an exception, got " ++ valueTypeName v).

Definition throwNotANumber (op : bytes) (v : V) : thrown exn :=
  throwClassed "ClassCastException" (op ++ s2b " expects a number, got " ++ valueTypeName v).

(** ** Inlined operators *)

Definition kCoreOperatorNames : list string := ["+"; "-"; "*"; "<"; "<="; ">"; ">="; "="]%string.

Definition binaryOpName (op : Op) : bytes :=
  s2b (nth (Z.to_nat (opCode op - opCode ADD)) kCoreOperatorNames "operator"%string).

(** The global an operator opcode must call instead of computing. *)
Definition redefinedOperator (op : Op) (operand : Z) : act (option V) := fun w =>
  let bit := opCode op - opCode ADD in
  if Z.odd operand || negb (Z.testbit (g_coreOperatorRedefined w) bit) then (w, Ret None)
  else match globalAt (createSymbol (binaryOpName op)) (heap w) with
       | Some f => (w, Ret (Some f))
       | None => (w, Raise (throwError (s2b "VM: unable to resolve symbol: " ++ binaryOpName op)))
       end.

Definition sameGlobal (a : V) (b : option V) : bool :=
  match b with Some b => sameObject a b | None => false end.

(** STORE_GLOBAL of [name] = [v]: the operator's bit. *)
Fixpoint noteFrom (i : Z) (names : list string) (name : bytes) (v : V) (w : world W) : world W :=
  match names with
  | [] => w
  | n :: names =>
      if bool_decide (name = s2b n) then
        let core := globalAt (createSymbol (s2b "clojure.core/" ++ name)) (heap w) in
        mkWorld (heap w)
          (if sameGlobal v core then Z.clearbit (g_coreOperatorRedefined w) i
           else Z.setbit (g_coreOperatorRedefined w) i)
      else noteFrom (i + 1) names name v w
  end.

Definition noteGlobalStore (name : bytes) (v : V) (w : world W) : world W :=
  noteFrom 0 kCoreOperatorNames name v w.

(** The store itself: the global's own attribute, and the operator's bit. *)
Definition storeName (key : obj) (name : bytes) (v : V) (w : world W) : world W :=
  let w := mkWorld (setGlobal key v (heap w)) (g_coreOperatorRedefined w) in
  if Z.of_nat (length name) <=? 2 then noteGlobalStore name v w else w.

(** ** Constants *)

Definition namedValue (o : option obj) : V := match o with Some o => VObj o | None => VNull end.

Definition materialise (c : Const (obj := obj)) : V + thrown exn :=
  match ckind c with
  | Long => inl (fromLong (ival c))
  | Double => inl (fromDouble (dval c))
  | String_ => inl (fromUTF8 (sval c))
  | Named | Datum => inl (namedValue (named c))
  | BigInteger => inl (fromDigits (sval c))
  | Symbol => inr (throwError (s2b "VM: PUSH_CONST of a global name: " ++ sval c))
  end.

(** ** Members of objects *)

Definition contains (c : byte) (name : bytes) : bool := existsb (fun d => (d =? c)%byte) name.

Fixpoint splitQualified (name : bytes) : bytes * bytes :=
  match name with
  | [] => ([], [])
  | c :: rest => if (c =? "/")%byte then ([], rest)
                 else let '(prefix, member) := splitQualified rest in (c :: prefix, member)
  end.

(** [None]: the object has no such attribute. *)
Definition readMember (inv : Invoke) (o : V) (key : obj) : act (option V) :=
  if isNil o || negb (isObjectCell o) then mret None
  else out ← getAttribute o key inv;
       if isNil out then
         present ← hasAttribute o key inv;
         if (present : bool) then mret (Some VNone) else mret None
       else mret (Some out).

Definition getMember (inv : Invoke) (o : V) (key : obj) (name : bytes) : act V :=
  v ← readMember inv o key;
  match v with
  | Some v => mret v
  | None => raise (throwClassed "RuntimeException"
              (s2b "No such member: " ++ name ++ s2b " (" ++ valueTypeName o ++ s2b ")"))
  end.

Definition resolveCatchType (inv : Invoke) (name : bytes) : act V :=
  v ← (if contains "/" name && (2 <? Z.of_nat (length name)) then
         let '(prefix, member) := splitQualified name in
         fun w => match globalAt (createSymbol prefix) (heap w) with
                  | Some owner => readMember inv owner (createSymbol member) w
                  | None => (w, Ret None)
                  end
       else fun w => (w, Ret (globalAt (createSymbol name) (heap w))));
  match v with
  | Some v => mret v
  | None => raise (throwClassed "RuntimeException" (s2b "Unable to resolve classname: " ++ name))
  end.

Definition matchCatchType (v type : V) (name : bytes) : bool + thrown exn :=
  if negb (isForeignObject type) && negb (isException type) then
    inr (throwClassed "IllegalArgumentException"
           (s2b "catch: " ++ name ++ s2b " is " ++ valueTypeName type ++ s2b ", not an exception type"))
  else inl (valueIsInstanceOf v type).

(** A C++ exception that is no [ProtoException] becomes a RuntimeException at
    the native-call boundary. *)
Definition nativeBoundary (m : act V) : act V := fun w =>
  match m w with
  | (w, Raise (StdException what)) => (w, Raise (throwClassed "RuntimeException" what))
  | r => r
  end.

Definition callMember (inv : Invoke) (receiver : V) (key : obj) (name : bytes) (args : list V)
  : act V :=
  member ← getMember inv receiver key name;
  match asMethod member with
  | None => inv member args
  | Some fn => nativeBoundary (callMethod fn receiver args inv)
  end.

(** ** Values that are called *)

Definition callLookup (inv : Invoke) (callable : V) (callableIsMap : bool) (args : list V) : act V :=
  let argc := Z.of_nat (length args) in
  if negb (argc =? 1) && negb (argc =? 2) then
    let what :=
      if callableIsMap then s2b (if isSet callable then "a set" else "a map")
      else let spelling := namedSpelling callable in
           s2b (match spelling with
                | c :: _ => if (c =? ":")%byte then "keyword " else "symbol "
                | [] => "symbol "
                end) ++ spelling in
    raise (throwError (s2b "VM: " ++ what ++
                       s2b " called as a function expects 1 or 2 arguments, got " ++ to_string argc))
  else
    let arg := nth 0 args VNull in
    let m := if callableIsMap then callable else arg in
    let key := if callableIsMap then arg else callable in
    let notFound := if argc =? 2 then nth 1 args VNull else VNone in
    if isSet m then
      e ← setGet m key inv;
      mret (default notFound e)
    else if negb callableIsMap && negb (isMap m) then mret notFound
    else v ← mapGet m key inv;
         mret (default notFound v).

Definition callVector (v : V) (args : list V) : V + thrown exn :=
  let argc := Z.of_nat (length args) in
  if negb (argc =? 1) then
    inr (throwClassed "ArityException"
           (s2b "Wrong number of args (" ++ to_string argc ++ s2b ") passed to: a vector"))
  else
    match isInteger (nth 0 args VNull) with
    | None => inr (throwClassed "IllegalArgumentException" (s2b "Key must be integer"))
    | Some k =>
        let items := vectorItems v in
        if (k <? 0) || (Z.of_nat (length items) <=? k) then
          inr (throwClassed "IndexOutOfBoundsException" (to_string k))
        else inl (nth (Z.to_nat k) items VNull)
    end.

Definition ofSum {A} (r : A + thrown exn) : act A :=
  match r with inl a => mret a | inr t => raise t end.

(** ** Choosing and entering a function *)

Fixpoint findFrom {A} (k : Z) (p : A -> bool) (l : list A) : option Z :=
  match l with
  | [] => None
  | x :: l => if p x then Some k else findFrom (k + 1) p l
  end.

(** The arity of [specs] that takes [argc] arguments, or -1: an exact fixed
    match, then a variadic one, then a keyword-argument one. *)
Definition takesFixed (argc : Z) (s : arity_spec obj) : bool :=
  negb (specVariadic s) && (specArity s =? argc).

Definition takesVariadic (argc : Z) (s : arity_spec obj) : bool :=
  specVariadic s && (specArity s <=? argc).

Definition takesKeywords (argc : Z) (s : arity_spec obj) : bool :=
  isKwBased_ (specModule s) &&
  let extra := argc - arity_ (specModule s) in
  (0 <=? extra) && ((extra mod 2 =? 0) || (extra =? 1)).

Definition pickArity (specs : list (arity_spec obj)) (argc : Z) : Z :=
  match findFrom 0 (takesFixed argc) specs with
  | Some k => k
  | None =>
      match findFrom 0 (takesVariadic argc) specs with
      | Some k => k
      | None => default (-1) (findFrom 0 (takesKeywords argc) specs)
      end
  end.

Definition kMaxBoundParameters : Z := 17.

(** The declared [:keys] values, in the order of [kwKeys], read from the map;
    nil each when there is no map. *)
Fixpoint kwValsFrom (inv : Invoke) (keys : list (KwKey (obj := obj))) (m : V) : act (list V) :=
  match keys with
  | [] => mret []
  | k :: keys =>
      v ← mapGet m (VObj (keyword k)) inv;
      vs ← kwValsFrom inv keys m;
      mret (default VNone v :: vs)
  end.

Definition extractKwVals (inv : Invoke) (sub : module) (maybeMap : V) : act (list V) :=
  if isMap maybeMap then kwValsFrom inv (kwKeys_ sub) maybeMap
  else mret (map (fun _ => VNone) (kwKeys_ sub)).

(** The captures are read only when the body has some. *)
Definition wrapperCaptures (sub : module) (captures : option (list V)) : option (list V) :=
  if 0 <? captureCount sub then captures else None.

Definition tooManyParameters : bytes :=
  s2b "VM: a call may bind at most 17 parameters (a variadic fn binds its rest arguments as one)".
Definition tooManyKeys : bytes :=
  s2b "VM: a function may declare at most 16 :keys parameters".

(** What the parameters are bound to: the fixed arguments, and the rest as a
    list or nil. *)
Definition boundArgs (sub : module) (posArgs : list V) : list V :=
  let fixed := Z.to_nat (arity_ sub) in
  take fixed posArgs ++
  (if isVariadic_ sub then
     [if arity_ sub <? Z.of_nat (length posArgs) then listFromArray (drop fixed posArgs) else VNone]
   else if isKwBased_ sub then [] else drop fixed posArgs).

(** The end of [invoke]: [pos] is the number of positional arguments and the
    kwArgs map. *)
Definition enterFn (inv : Invoke) (ex : Execute) (sub : module) (captures : option (list V))
    (args : list V) (pos : Z * V) : act V :=
  let '(posArgc, kwArgsMap) := pos in
  let passArgc := if isVariadic_ sub then u32 (arity_ sub + 1) else posArgc in
  if kMaxBoundParameters <? passArgc then raise (throwError tooManyParameters)
  else
    let callArgs := boundArgs sub (take (Z.to_nat posArgc) args) in
    if isKwBased_ sub then
      if 16 <? Z.of_nat (length (kwKeys_ sub)) then raise (throwError tooManyKeys)
      else
        kwVals ← extractKwVals inv sub kwArgsMap;
        ex (mkCall sub callArgs captures kwVals kwArgsMap)
    else ex (mkCall sub callArgs captures [] VNull).

Definition invokeFn (inv : Invoke) (ex : Execute) (sub : module) (captures : option (list V))
    (args : list V) : act V :=
  let argc := Z.of_nat (length args) in
  let fixed := arity_ sub in
  pos ← (if isKwBased_ sub then
           if (fixed + 1 <? argc) && ((argc - fixed) mod 2 =? 0) then
             m ← mapAssocPairs None (drop (Z.to_nat fixed) args) inv;
             mret (fixed, m)
           else if argc =? fixed + 1 then mret (u32 (argc - 1), nth (Z.to_nat (argc - 1)) args VNull)
           else if negb (argc =? fixed) then
             raise (throwError (s2b "VM: invoke: kw-based fn expects " ++ to_string fixed ++
                                s2b " positionals (+ optional trailing map), got " ++ to_string argc))
           else mret (argc, VNull)
         else if negb (isVariadic_ sub) && negb (fixed =? argc) then
           raise (throwError (s2b "VM: invoke: fn arity mismatch"))
         else if isVariadic_ sub && (argc <? fixed) then
           raise (throwError (s2b "VM: invoke: variadic underflow"))
         else mret (argc, VNull));
  enterFn inv ex sub captures args pos.

(** [invoke]: [inv] is [invoke] itself, for what the natives it calls call back. *)
Definition fastCall (callable : V) (args : list V) (mayAllocate : bool) : act (option V) := fun w =>
  (w, Ret match asMethod callable with
          | Some fn => fastPrimitiveCall fn args mayAllocate (heap w)
          | None => None
          end).

Definition callsLookup (callable : V) : bool :=
  isNamedValue callable || isMap callable || isSet callable.

Definition invoke (inv : Invoke) (ex : Execute) (callable : V) (args : list V) : act V :=
  let argc := Z.of_nat (length args) in
  fast ← fastCall callable args false;
  match fast with
  | Some r => mret r
  | None =>
      match callable with
      | VNull => defect (s2b "getPrototype of a null pointer")
      | VMulti specs =>
          let k := pickArity specs argc in
          if k <? 0 then
            raise (throwError (s2b "VM: invoke: no matching arity for argc=" ++ to_string argc))
          else
            match specs !! Z.to_nat k with
            | Some s => invokeFn inv ex (specModule s) (Some (specCaptures s)) args
            | None => defect (s2b "getAt out of range")
            end
      | VFn sub captures => invokeFn inv ex sub (wrapperCaptures sub captures) args
      | _ =>
          if callsLookup callable then
            callLookup inv callable (negb (isNamedValue callable)) args
          else
            match asMethod callable with
            | Some fn => callMethod fn (asMethodSelf callable) args inv
            | None =>
                if isVector callable then ofSum (callVector callable args)
                else raise (throwError (s2b "VM: invoke: value is not callable"))
            end
      end
  end.

Definition acceptsArgCount (callable : V) (argc : Z) : bool :=
  match callable with
  | VMulti specs => 0 <=? pickArity specs argc
  | VFn sub _ =>
      let fixed := arity_ sub in
      if isKwBased_ sub then (argc =? fixed) || (argc =? fixed + 1)
      else if isVariadic_ sub then fixed <=? argc
      else argc =? fixed
  | _ => true
  end.

(** ** The frame *)

Record TryHandler := mkHandler { target : Z; handlerSp : Z }.

(** The slots hold the locals, the operand stack from [stackBase] on and
    [kPrimitiveSlots] more; [sp] is the depth of the operand stack and [ip] the
    index of the next instruction. [dbg] is the debugger's [DebugFrame]: its pc,
    line and shownLine. *)
Record frame := mkFrame {
  slots : list V;
  sp : Z;
  stackCapacity : Z;
  ip : Z;
  handlers : list TryHandler;                      (* innermost first *)
  caught : list (option (thrown exn));
  justCaught : option (thrown exn);
  dbg : Z * Z * Z;
  env : world W;
}.

Definition set_slots (x : list V) (f : frame) : frame :=
  mkFrame x (sp f) (stackCapacity f) (ip f) (handlers f) (caught f) (justCaught f) (dbg f) (env f).
Definition set_sp (x : Z) (f : frame) : frame :=
  mkFrame (slots f) x (stackCapacity f) (ip f) (handlers f) (caught f) (justCaught f) (dbg f) (env f).
Definition set_capacity (x : Z) (f : frame) : frame :=
  mkFrame (slots f) (sp f) x (ip f) (handlers f) (caught f) (justCaught f) (dbg f) (env f).
Definition set_ip (x : Z) (f : frame) : frame :=
  mkFrame (slots f) (sp f) (stackCapacity f) x (handlers f) (caught f) (justCaught f) (dbg f) (env f).
Definition set_handlers (x : list TryHandler) (f : frame) : frame :=
  mkFrame (slots f) (sp f) (stackCapacity f) (ip f) x (caught f) (justCaught f) (dbg f) (env f).
Definition set_caught (x : list (option (thrown exn))) (y : option (thrown exn)) (f : frame) : frame :=
  mkFrame (slots f) (sp f) (stackCapacity f) (ip f) (handlers f) x y (dbg f) (env f).
Definition set_dbg (x : Z * Z * Z) (f : frame) : frame :=
  mkFrame (slots f) (sp f) (stackCapacity f) (ip f) (handlers f) (caught f) (justCaught f) x (env f).
Definition set_env (x : world W) (f : frame) : frame :=
  mkFrame (slots f) (sp f) (stackCapacity f) (ip f) (handlers f) (caught f) (justCaught f) (dbg f) x.

(** Code of the dispatch loop: it goes on, raises, writes past the operand
    stack's capacity, or stops for good. *)
Inductive res (A : Type) :=
| Done (a : A) (f : frame)
| Raised (t : thrown exn) (f : frame)
| Overrun
| Stopped (what : option bytes).     (* [None]: out of fuel; else a defect *)
Arguments Done {A}.
Arguments Raised {A}.
Arguments Overrun {A}.
Arguments Stopped {A}.

Definition M (A : Type) : Type := frame -> res A.

#[export] Instance M_ret : MRet M := fun A a f => Done a f.
#[export] Instance M_bind : MBind M := fun A B k m f =>
  match m f with
  | Done a f => k a f
  | Raised t f => Raised t f
  | Overrun => Overrun
  | Stopped what => Stopped what
  end.

Definition modify (g : frame -> frame) : M unit := fun f => Done () (g f).
Definition gets {A} (g : frame -> A) : M A := fun f => Done (g f) f.
Definition throw_ {A} (t : thrown exn) : M A := fun f => Raised t f.
Definition error {A} (text : string) : M A := throw_ (throwError (s2b text)).
Definition stop {A} (what : string) : M A := fun f => Stopped (Some (s2b what)).

(** [if (b) throwError(text);] *)
Definition refuse (b : bool) (text : string) : M unit := if b then error text else mret ().

Definition lift {A} (m : act A) : M A := fun f =>
  match m (env f) with
  | (w, Ret a) => Done a (set_env w f)
  | (w, Raise t) => Raised t (set_env w f)
  | (w, NoFuel) => Stopped None
  | (w, Defect what) => Stopped (Some what)
  end.

Definition fromSum {A} (r : A + thrown exn) : M A :=
  match r with inl a => mret a | inr t => throw_ t end.

(** [unsigned int] arithmetic *)
Definition slotAt (f : frame) (i : Z) : V := nth (Z.to_nat (u32 i)) (slots f) VNull.

Definition storeSlot (i : Z) (v : V) (f : frame) : frame :=
  set_slots (<[Z.to_nat (u32 i) := v]> (slots f)) f.

Fixpoint clearSlots (n : nat) (i : Z) (f : frame) : frame :=
  match n with O => f | S n => clearSlots n (i + 1) (storeSlot i VNull f) end.

Definition kPrimitiveSlots : Z := 8.

(** The frame runs [bmod]; [inv] and [ex] are what it calls. *)
Section Frame.
Context (inv : Invoke) (ex : Execute) (bmod : module).

Definition stackBase : Z := arity_ bmod + localCount_ bmod.

Definition pushVal (v : V) : M unit := fun f =>
  if stackCapacity f <=? sp f then Overrun
  else Done () (set_sp (sp f + 1) (storeSlot (stackBase + sp f) v f)).

Definition drop_ (n : Z) : M unit := modify (fun f => set_sp (u32 (sp f - n)) f).

Definition peekAt (depth : Z) : M V := gets (fun f => slotAt f (stackBase + sp f - 1 - depth)).

Definition popVal : M V :=
  s ← gets sp;
  _ ← refuse (s =? 0) "VM: operand-stack underflow";
  _ ← drop_ 1;
  gets (fun f => slotAt f (stackBase + sp f)).

Definition getLocal (i : Z) : M V := gets (fun f => slotAt f i).
Definition setLocal (i : Z) (v : V) : M unit := modify (storeSlot i v).

Definition reserveStack (extra : Z) : M unit := fun f =>
  if sp f + extra <=? stackCapacity f then Done () f
  else
    let capacity := u32 (sp f + extra) in
    let size := Z.to_nat (stackBase + capacity + kPrimitiveSlots) in
    Done () (set_capacity capacity
               (set_slots (slots f ++ replicate (size - length (slots f)) VNull) f)).

(** The [n] topmost values, the deepest first. *)
Definition topArgs (n : Z) : M (list V) := gets (fun f =>
  map (fun k => slotAt f (stackBase + sp f - n + Z.of_nat k)) (seq 0 (Z.to_nat n))).

Definition constant (i : Z) : M (Const (obj := obj)) :=
  match consts_ (pool_ bmod) !! Z.to_nat i with
  | Some c => mret c
  | None => stop "constAt out of range"
  end.

Definition constCount : Z := Z.of_nat (length (consts_ (pool_ bmod))).

Definition keyOf (c : Const (obj := obj)) : M obj :=
  match named c with Some o => mret o | None => stop "null symbol" end.

(** The pairs in the [kvItems] slots from [start] on, at most 256 slots at a
    time; the map so far is kept in the first pair's slot. *)
Definition kChunkItems : Z := 256.  (* even *)

Fixpoint foldChunks (fuel : nat) (start sofar kvItems : Z) (kwMap : option V) : M (option V) :=
  match fuel with
  | O => mret kwMap
  | S fuel =>
      if sofar <? kvItems then
        let items := Z.min kChunkItems (kvItems - sofar) in
        kv ← gets (fun f => map (fun k => slotAt f (start + sofar + Z.of_nat k))
                              (seq 0 (Z.to_nat items)));
        m ← lift (mapAssocPairs kwMap kv inv);
        _ ← setLocal start m;
        foldChunks fuel start (sofar + kChunkItems) kvItems (Some m)
      else mret kwMap
  end.

Definition foldKeywordPairs (start kvItems : Z) : M V :=
  m ← foldChunks (Z.to_nat kvItems) start 0 kvItems None;
  mret (default VNull m).

(** A keyword-argument callee given key/value pairs after its fixed arguments:
    the pairs are folded into the first pair's slot. Answers the number of
    arguments then on the stack. *)
Definition foldExtraPairs (sub : module) (argc : Z) : M Z :=
  if isKwBased_ sub && (u32 (arity_ sub + 1) <? argc) && (u32 (argc - arity_ sub) mod 2 =? 0) then
    let kv := u32 (argc - arity_ sub) in
    start ← gets (fun f => stackBase + sp f - kv);
    _ ← foldKeywordPairs start kv;
    _ ← modify (clearSlots (Z.to_nat (kv - 1)) (start + 1));
    _ ← drop_ (kv - 1);
    mret (u32 (arity_ sub + 1))
  else mret argc.

(** The number of positional arguments, and the kwArgs map. *)
Definition countArgs (sub : module) (argc : Z) : M (Z * V) :=
  let fixed := arity_ sub in
  if isKwBased_ sub then
    if argc =? fixed + 1 then
      m ← peekAt 0;
      mret (u32 (argc - 1), m)
    else if negb (argc =? fixed) then
      throw_ (throwError (s2b "VM: kw-based fn expects " ++ to_string fixed ++
                          s2b " positionals (+ optional trailing map), got " ++ to_string argc))
    else mret (argc, VNull)
  else if negb (isVariadic_ sub) && negb (fixed =? argc) then
    throw_ (throwError (s2b "VM: fn arity mismatch (expected " ++ to_string fixed ++
                        s2b ", got " ++ to_string argc ++ s2b ")"))
  else if isVariadic_ sub && (argc <? fixed) then
    throw_ (throwError (s2b "VM: variadic fn needs at least " ++ to_string fixed ++
                        s2b " args, got " ++ to_string argc))
  else mret (argc, VNull).

(** The arguments move from their slots to the callee, whose result takes the
    callable's slot. *)
Definition enterCall (sub : module) (captures : option (list V)) (argc : Z) (pos : Z * V) : M unit :=
  let '(posArgc, kwArgsMap) := pos in
  let passArgc := if isVariadic_ sub then u32 (arity_ sub + 1) else posArgc in
  if kMaxBoundParameters <? passArgc then throw_ (throwError tooManyParameters)
  else
    args ← topArgs argc;
    let callArgs := boundArgs sub (take (Z.to_nat posArgc) args) in
    start ← gets (fun f => stackBase + sp f - argc);
    _ ← modify (clearSlots (Z.to_nat posArgc) start);
    kwVals ← (if isKwBased_ sub then
                if 16 <? Z.of_nat (length (kwKeys_ sub)) then throw_ (throwError tooManyKeys)
                else lift (extractKwVals inv sub kwArgsMap)
              else mret []);
    _ ← drop_ (argc + 1);
    result ← lift (ex (mkCall sub callArgs captures kwVals kwArgsMap));
    pushVal result.

(** The callee of a function call with [argc] arguments on the stack. *)
Definition dispatchFn (sub : module) (captures : option (list V)) (argc : Z) : M unit :=
  argc ← foldExtraPairs sub argc;
  pos ← countArgs sub argc;
  enterCall sub captures argc pos.

Definition dispatchCall (argc : Z) : M unit :=
  callable ← peekAt argc;
  args ← topArgs argc;
  fast ← lift (fastCall callable args true);
  match fast with
  | Some r =>
      _ ← modify (fun f => clearSlots (Z.to_nat argc) (stackBase + sp f - argc) f);
      _ ← drop_ (argc + 1);
      pushVal r
  | None =>
      match callable with
      | VNull => stop "getPrototype of a null pointer"
      | VMulti specs =>
          let k := pickArity specs argc in
          if k <? 0 then
            throw_ (throwError (s2b "VM: no matching arity for argc=" ++ to_string argc))
          else
            match specs !! Z.to_nat k with
            | Some s => dispatchFn (specModule s) (Some (specCaptures s)) argc
            | None => stop "getAt out of range"
            end
      | VFn sub captures => dispatchFn sub (wrapperCaptures sub captures) argc
      | _ =>
          if callsLookup callable then
            result ← lift (callLookup inv callable (negb (isNamedValue callable)) args);
            _ ← drop_ (argc + 1);
            pushVal result
          else
            match asMethod callable with
            | Some fn =>
                result ← lift (callMethod fn (asMethodSelf callable) args inv);
                _ ← modify (fun f => clearSlots (Z.to_nat argc) (stackBase + sp f - argc) f);
                _ ← drop_ (argc + 1);
                pushVal result
            | None =>
                if isVector callable then
                  result ← fromSum (callVector callable args);
                  _ ← drop_ (argc + 1);
                  pushVal result
                else error "VM: value is not callable in CALL"
            end
      end
  end.

(** ** Instructions *)

Definition boolean (b : bool) : V := VBool b.

Definition compareInts (op : Op) (a b : Z) : bool :=
  match op with
  | LT => a <? b | LE => a <=? b | GT => b <? a | GE => b <=? a | _ => a =? b
  end.

Definition compareOrdered (op : Op) (c : option comparison) : bool :=
  match op, c with
  | LT, Some Lt | LE, Some Lt | LE, Some Eq | GT, Some Gt | GE, Some Gt | GE, Some Eq => true
  | _, _ => false
  end.

(** [av op bv] of two SmallIntegers: [None] is protoCore's promoting operation.
    [long long] arithmetic, wrapped as the machine does it. *)
Definition kHalf : Z := Z.shiftl 1 26.

Definition smallIntArith (op : Op) (av bv : Z) : option Z :=
  let fit s := if smallIntFitsLong s then Some s else None in
  match op with
  | ADD => fit (s64 (av + bv))
  | SUB => fit (s64 (av - bv))
  | _ => if (av <=? - kHalf) || (kHalf <=? av) || (bv <=? - kHalf) || (kHalf <=? bv) then None
         else fit (s64 (av * bv))
  end.

Definition protoArith (op : Op) (a b : V) : act V :=
  match op with
  | ADD => protoAdd a b inv
  | SUB => protoSubtract a b inv
  | _ => protoMultiply a b inv
  end.

Definition isArith (op : Op) : bool := match op with ADD | SUB | MUL => true | _ => false end.

(** The value of an operator opcode. *)
Definition binaryOp (op : Op) (a b : V) : act V :=
  match a, b with
  | VInt av, VInt bv =>
      if isArith op then
        match smallIntArith op av bv with
        | Some s => mret (VInt s)
        | None => protoArith op a b
        end
      else mret (boolean (compareInts op av bv))
  | _, _ =>
      if negb (bool_decide (op = EQ)) && negb (isNumber a && isNumber b) then
        raise (throwNotANumber (binaryOpName op) (if isNumber a then b else a))
      else if isArith op then protoArith op a b
      else if bool_decide (op = EQ) then
        r ← valuesEqual a b inv;
        mret (boolean r)
      else mret (boolean (compareOrdered op (partialCompare a b)))
  end.

Definition operator (op : Op) (operand : Z) : M unit :=
  s ← gets sp;
  _ ← refuse (s <? 2) "VM: binop underflow";
  redefined ← lift (redefinedOperator op operand);
  match redefined with
  | Some f =>
      (* stack [a b] -> [f a b], then CALL 2 *)
      _ ← reserveStack 1;
      a ← peekAt 1;
      b ← peekAt 0;
      let at_ k := stackBase + s + k in
      _ ← setLocal (at_ 0) b;
      _ ← setLocal (at_ (-1)) a;
      _ ← setLocal (at_ (-2)) f;
      _ ← modify (set_sp (s + 1));
      dispatchCall 2
  | None =>
      a ← peekAt 1;
      b ← peekAt 0;
      r ← lift (binaryOp op a b);
      _ ← drop_ 2;
      pushVal r
  end.

(** The captures of a wrapper: the [n] values from stack depth [from] on. *)
Definition stackRange (from n : Z) : M (list V) := gets (fun f =>
  map (fun k => slotAt f (stackBase + from + Z.of_nat k)) (seq 0 (Z.to_nat n))).

Definition makeFn (operand : Z) : M unit :=
  _ ← refuse (Z.of_nat (length (blocks_ bmod)) <=? operand) "VM: MAKE_FN out-of-range";
  match blocks_ bmod !! Z.to_nat operand with
  | None => stop "block out of range"
  | Some sub =>
      let nCaps := captureCount sub in
      s ← gets sp;
      _ ← refuse (s <? nCaps) "VM: MAKE_FN underflow on captures";
      caps ← stackRange (s - nCaps) nCaps;
      _ ← drop_ nCaps;
      pushVal (VFn sub (if 0 <? nCaps then Some caps else None))
  end.

Fixpoint groupModules (bs : list Z) : option (list module) :=
  match bs with
  | [] => Some []
  | b :: bs =>
      sub ← blocks_ bmod !! Z.to_nat b;
      subs ← groupModules bs;
      Some (sub :: subs)
  end.

Fixpoint arityList (cur : Z) (subs : list module) : M (list (arity_spec obj)) :=
  match subs with
  | [] => mret []
  | sub :: subs =>
      let nCaps := captureCount sub in
      caps ← stackRange cur nCaps;
      specs ← arityList (cur + nCaps) subs;
      mret ((arity_ sub, sub, isVariadic_ sub, caps) :: specs)
  end.

Definition makeFnMulti (operand : Z) : M unit :=
  _ ← refuse (Z.of_nat (length (arityGroups_ bmod)) <=? operand) "VM: MAKE_FN_MULTI out-of-range";
  match arityGroups_ bmod !! Z.to_nat operand with
  | None => stop "arityGroup out of range"
  | Some group =>
      match groupModules group with
      | None => stop "block out of range"
      | Some subs =>
          let totalCaps := fold_left (fun n sub => n + captureCount sub) subs 0 in
          s ← gets sp;
          _ ← refuse (s <? totalCaps) "VM: MAKE_FN_MULTI underflow";
          specs ← arityList (s - totalCaps) subs;
          _ ← drop_ totalCaps;
          pushVal (VMulti specs)
      end
  end.

(** CALL_APPLY: the items [listObj] spreads. *)
Definition applyItems (listObj : V) : M (list V) :=
  if isListValue listObj then mret (listItems listObj)
  else if isNil listObj then mret []
  else if isVector listObj then mret (vectorItems listObj)
  else
    items ← lift (seqItems listObj inv);
    match items with
    | Some items => mret items
    | None => error "VM: CALL_APPLY: not a list"
    end.

Fixpoint pushAll (vs : list V) : M unit :=
  match vs with
  | [] => mret ()
  | v :: vs => _ ← pushVal v; pushAll vs
  end.

Definition callApply : M unit :=
  s ← gets sp;
  _ ← refuse (s <? 2) "VM: CALL_APPLY underflow";
  listObj ← popVal;
  items ← applyItems listObj;
  let ln := Z.of_nat (length items) in
  _ ← reserveStack ln;
  _ ← pushAll items;
  dispatchCall ln.

(** CALL_KW: the single-arity keyword-argument callee, if it is one. *)
Definition kwCallee (callable : V) : option module :=
  match callable with
  | VFn sub _ => if isKwBased_ sub then Some sub else None
  | _ => None
  end.

Definition callKw (argc : Z) : M unit :=
  s ← gets sp;
  _ ← refuse (s <? argc + 1) "VM: CALL_KW with insufficient stack";
  callable ← peekAt argc;
  match kwCallee callable with
  | None => dispatchCall argc
  | Some kwMod =>
      let fixed := u32 (arity_ kwMod) in
      if (argc <? fixed) || negb ((argc - fixed) mod 2 =? 0) then
        throw_ (throwError (s2b "VM: keyword-argument fn expects " ++ to_string fixed ++
                            s2b " positional arguments followed by key/value pairs, got " ++
                            to_string argc ++ s2b " arguments"))
      else
        let kvItems := argc - fixed in
        if 0 <? kvItems then
          start ← gets (fun f => stackBase + sp f - kvItems);
          kwMap ← foldKeywordPairs start kvItems;
          _ ← drop_ kvItems;
          _ ← pushVal kwMap;
          dispatchCall (fixed + 1)
        else dispatchCall fixed
  end.

Definition callMemberOp (operand : Z) : M unit :=
  i ← gets ip;
  match code_ bmod !! Z.to_nat i with
  | None => stop "CALL_MEMBER without a data word"
  | Some word =>
      _ ← modify (set_ip (i + 1));
      c ← constant (instrOperand word);
      receiver ← peekAt operand;
      key ← keyOf c;
      args ← topArgs operand;
      result ← lift (callMember inv receiver key (sval c) args);
      _ ← drop_ (operand + 1);
      pushVal result
  end.

Definition symbolConstant (operand : Z) (out notSymbol : string) : M (Const (obj := obj)) :=
  _ ← refuse (constCount <=? operand) out;
  c ← constant operand;
  _ ← refuse (negb (bool_decide (ckind c = Symbol))) notSymbol;
  mret c.

Definition pushVar (operand : Z) : M unit :=
  c ← symbolConstant operand "VM: PUSH_VAR out-of-range" "VM: PUSH_VAR const is not a symbol";
  key ← keyOf c;
  v ← gets (fun f => globalAt key (heap (env f)));
  match v with
  | Some v => pushVal v
  | None => throw_ (throwError (s2b "VM: unable to resolve symbol: " ++ sval c))
  end.

Definition storeGlobal (operand : Z) : M unit :=
  c ← symbolConstant operand "VM: STORE_GLOBAL out-of-range" "VM: STORE_GLOBAL key not a symbol";
  s ← gets sp;
  _ ← refuse (s =? 0) "VM: STORE_GLOBAL with empty stack";
  key ← keyOf c;
  v ← peekAt 0;
  modify (fun f => set_env (storeName key (sval c) v (env f)) f).

(** LINE: the frame enters a line. *)
Definition lineMark (operand : Z) : M unit := fun f =>
  let '(pc, line, shown) := dbg f in
  if operand =? 0 then Done () (set_dbg (pc, 0, shown) f)
  else
    let pc := ip f - 1 in
    if operand =? line then Done () (set_dbg (pc, line, shown) f)
    else lift (onLine operand inv) (set_dbg (pc, operand, operand) f).

(** STORE_CAUGHT's frame-state half. *)
Definition storeCaught (slot : Z) : M unit := modify (fun f =>
  let n := Z.to_nat slot in
  let vec := caught f ++ replicate (S n - length (caught f)) None in
  set_caught (<[n := justCaught f]> vec) None f).

Definition step_op (op : Op) (operand : Z) : M (option V) :=
  let go (m : M unit) : M (option V) := _ ← m; mret None in
  match op with
  | NOP => mret None
  | PUSH_CONST => go (
      _ ← refuse (constCount <=? operand) "VM: PUSH_CONST out-of-range";
      c ← constant operand;
      v ← fromSum (materialise c);
      pushVal v)
  | PUSH_VAR => go (pushVar operand)
  | PUSH_LOCAL => go (v ← getLocal operand; pushVal v)
  | PUSH_LOCAL_CLEAR => go (
      v ← getLocal operand;
      _ ← pushVal v;
      setLocal operand VNull)
  | STORE_LOCAL => go (
      s ← gets sp;
      _ ← refuse (s =? 0) "VM: STORE_LOCAL with empty stack";
      v ← popVal;
      setLocal operand v)
  | MAKE_FN => go (makeFn operand)
  | CALL => go (
      s ← gets sp;
      _ ← refuse (s <? operand + 1) "VM: CALL with insufficient stack";
      dispatchCall operand)
  | CALL_APPLY => go callApply
  | CALL_KW => go (callKw operand)
  | POP => go (
      s ← gets sp;
      _ ← refuse (s =? 0) "VM: POP on empty stack";
      drop_ 1)
  | RETURN =>
      s ← gets sp;
      if s =? 0 then mret (Some VNone) else v ← peekAt 0; mret (Some v)
  | STORE_GLOBAL => go (storeGlobal operand)
  | JUMP => go (modify (fun f => set_ip (ip f + operand) f))
  | JUMP_IF_FALSE => go (
      v ← popVal;
      modify (fun f => if isFalsy v then set_ip (ip f + operand) f else f))
  | LINE => go (lineMark operand)
  | JUMP_BACK => go (modify (fun f => set_ip (ip f - operand) f))
  | JUMP_IF_TRUE => go (
      v ← popVal;
      modify (fun f => if isFalsy v then f else set_ip (ip f + operand) f))
  | DUP => go (
      s ← gets sp;
      _ ← refuse (s =? 0) "VM: DUP on empty stack";
      v ← peekAt 0;
      pushVal v)
  | MAKE_FN_MULTI => go (makeFnMulti operand)
  | PUSH_NIL => go (pushVal VNone)
  | PUSH_TRUE => go (pushVal (VBool true))
  | PUSH_FALSE => go (pushVal (VBool false))
  | ADD | SUB | MUL | LT | LE | GT | GE | EQ => go (operator op operand)
  | TRY_BEGIN =>
      if hasHandlers_ bmod then
        go (modify (fun f => set_handlers (mkHandler (ip f + operand) (sp f) :: handlers f) f))
      else error "VM: TRY_BEGIN in a frame without handlers"
  | TRY_END => fun f =>
      match handlers f with
      | [] => Raised (throwError (s2b "VM: TRY_END without a handler")) f
      | _ :: hs => Done None (set_handlers hs f)
      end
  | THROW =>
      s ← gets sp;
      _ ← refuse (s =? 0) "VM: THROW on empty stack";
      v ← peekAt 0;
      throw_ (throwValue v)
  | STORE_CAUGHT =>
      if hasHandlers_ bmod then
        go (_ ← storeCaught operand; v ← popVal; setLocal operand v)
      else error "VM: STORE_CAUGHT in a frame without handlers"
  | RETHROW => fun f =>
      match caught f !! Z.to_nat operand with
      | Some (Some t) => Raised t f
      | _ => Raised (ProtoException (clojureThrow (slotAt f operand))) f
      end
  | EXC_MATCH => go (
      v ← popVal;
      pushVal (boolean (exceptionMatches asException foreignInstance v operand)))
  | EXC_MATCH_TYPE => go (
      v ← peekAt 1;
      type ← peekAt 0;
      c ← constant operand;
      matched ← fromSum (matchCatchType v type (sval c));
      _ ← drop_ 2;
      pushVal (boolean matched))
  | RESOLVE_CLASS => go (
      c ← constant operand;
      v ← lift (resolveCatchType inv (sval c));
      pushVal v)
  | GET_MEMBER => go (
      c ← constant operand;
      o ← peekAt 0;
      key ← keyOf c;
      v ← lift (getMember inv o key (sval c));
      _ ← drop_ 1;
      pushVal v)
  | CALL_MEMBER => go (callMemberOp operand)
  end.

(** ** The dispatch loop and the frame's handlers *)

Definition codeEnd : Z := pos bmod.

(** One instruction. *)
Definition step : M (option V) := fun f =>
  match code_ bmod !! Z.to_nat (ip f) with
  | Some word =>
      let f := set_ip (ip f + 1) f in
      match instrOp word with
      | Some op => step_op op (instrOperand word) f
      | None => error "VM: unknown opcode" f
      end
  | None => Stopped (Some (s2b "instruction pointer out of the code"))
  end.

Inductive ending :=
| Ended (o : outcome (thrown exn) V) (w : world W)
| StackOverrun
| Aborted (what : option bytes).

(** An exception that escapes an instruction. *)
Definition unwind (t : thrown exn) (f : frame) : frame + ending :=
  match hasHandlers_ bmod, handlers f with
  | true, h :: hs =>
      let f := set_sp (handlerSp h) (set_handlers hs f) in
      let '(v, just) :=
        match t with
        | ProtoException e => (exnValue e, Some t)
        | StdException what => (exceptionFromError what, None)
        end in
      match pushVal v f with
      | Done _ f => inl (set_ip (target h) (set_caught (caught f) just f))
      | _ => inr StackOverrun
      end
  | _, _ => inr (Ended (Raise t) (env f))
  end.

Definition turn (f : frame) : frame + ending :=
  if ip f <? codeEnd then
    if ip f <? 0 then inr (Aborted (Some (s2b "instruction pointer before the code")))
    else
    match step f with
    | Done None f => inl f
    | Done (Some v) f => inr (Ended (Ret v) (env f))
    | Raised t f => unwind t f
    | Overrun => inr StackOverrun
    | Stopped what => inr (Aborted what)
    end
  else
    inr (Ended (Ret (if sp f =? 0 then VNone else slotAt f (stackBase + sp f - 1))) (env f)).

(** ** Entering a frame *)

Definition storeAll (l : list (Z * V)) (sl : list V) : list V :=
  fold_left (fun sl '(i, v) => <[Z.to_nat i := v]> sl) l sl.

Definition indexed (vs : list V) : list (Z * V) :=
  imap (fun i v => (Z.of_nat i, v)) vs.

Definition kwBindings (c : call) : list (Z * V) :=
  if isKwBased_ bmod then
    imap (fun i k => (kwSlot k, nth i (callKwVals c) VNone)) (kwKeys_ bmod) ++
    (if 0 <=? asSlot_ bmod then
       [(asSlot_ bmod, match callKwMap c with VNull => VNone | m => m end)]
     else [])
  else [].

(** The captures' bindings, or the error. *)
Definition captureBindings (c : call) : list (Z * V) + thrown exn :=
  match captureSpecs_ bmod with
  | [] => inl []
  | specs =>
      match callCaptures c with
      | None => inr (throwError (s2b "VM: fn expects captures but none were provided"))
      | Some vs =>
          if (length vs =? length specs)%nat then inl (zip (map localSlot specs) vs)
          else inr (throwError (s2b "VM: captures list size mismatch with body captureSpecs"))
      end
  end.

Definition entryFrame (maxStack : Z) (c : call) (captures : list (Z * V)) (w : world W) : frame :=
  let sl := replicate (Z.to_nat (stackBase + maxStack + kPrimitiveSlots)) VNull in
  mkFrame (storeAll (indexed (callArgs c) ++ kwBindings c ++ captures) sl)
    0 maxStack 0 [] [] None (0, 0, 0) w.

End Frame.

(** A frame of [maxStack] operand slots, run for at most [fuel] instructions. *)
Definition runFrame (fuel : nat) (inv : Invoke) (ex : Execute) (maxStack : Z) (c : call)
    (w : world W) : option ending :=
  match captureBindings (callModule c) c with
  | inr t => Some (Ended (Raise t) w)
  | inl captures => iter fuel (turn inv ex (callModule c)) (entryFrame (callModule c) maxStack c captures w)
  end.

Definition executeFrame (fuel depth : nat) (inv : Invoke) (ex : Execute) : Execute := fun c w =>
  match checkNativeStack depth with
  | Some what => (w, Raise (StdException what))
  | None =>
      match computeMaxStack fuel (callModule c) with
      | None => (w, NoFuel)
      | Some maxStack =>
          match runFrame fuel inv ex maxStack c w with
          | Some (Ended o w) => (w, o)
          | Some StackOverrun => (w, Defect (s2b "push past the operand stack"))
          | Some (Aborted (Some what)) => (w, Defect what)
          | Some (Aborted None) | None => (w, NoFuel)
          end
      end
  end.

(** [execute] and [invoke], [fuel] activations deep and [fuel] instructions in
    each; [depth] is the number of activations below. *)
Fixpoint machine (fuel depth : nat) : Execute * Invoke :=
  match fuel with
  | O => (fun _ w => (w, NoFuel), fun _ _ w => (w, NoFuel))
  | S fuel =>
      let '(ex, inv) := machine fuel (S depth) in
      (executeFrame fuel depth inv ex, invoke inv ex)
  end.

Definition execute (fuel : nat) : Execute := (machine fuel 0).1.
Definition vmInvoke (fuel : nat) : Invoke := (machine fuel 0).2.

End Engine.

#[global] Arguments Done {obj W exn _ _ A} a f.
#[global] Arguments Raised {obj W exn _ _ A} t f.
#[global] Arguments Overrun {obj W exn _ _ A}.
#[global] Arguments Stopped {obj W exn _ _ A} what.
