(* ===== verification/DemoRuntime.v ===== *)
(** A concrete [Runtime], for evaluating the virtual machine: objects are names
    with integer entries (symbols, keywords, maps and lists of integers), the
    globals an association list, and two methods: one counts its arguments, the
    other calls its first argument with the others. *)

From S2P Require Import Prelude Bytecode Exceptions ExecutionEngine.

Definition dobj : Type := bytes * list (bytes * Z).

#[export] Instance dobj_eq_decision : EqDecision dobj := ltac:(unfold dobj; apply _).
#[export] Instance dobj_countable : Countable dobj := ltac:(unfold dobj; apply _).

Definition dval : Type := val dobj.
Definition dglobals : Type := list (dobj * dval).

Definition sym (s : string) : dobj := (s2b s, []).

Definition hasName (s : string) (v : dval) : bool :=
  match v with VObj (n, _) => bool_decide (n = s2b s) | _ => false end.

Definition nameOf (v : dval) : bytes := match v with VObj (n, _) => n | _ => [] end.
Definition entriesOf (v : dval) : list (bytes * Z) := match v with VObj (_, l) => l | _ => [] end.
Definition intOf (v : dval) : Z := match v with VInt z => z | _ => 0 end.

Definition demoList (vs : list dval) : dval := VObj (s2b "list", map (fun v => ([], intOf v)) vs).
Definition demoItems (v : dval) : list dval := map (fun e => VInt e.2) (take 100 (entriesOf v)).

Definition demoMap (entries : list (bytes * Z)) : dobj := (s2b "map", entries).
Definition demoPut (m k v : dval) : dobj := demoMap (entriesOf m ++ [(nameOf k, intOf v)]).

Definition demoGet (m k : dval) : option dval :=
  match List.find (fun e => bool_decide (e.1 = nameOf k)) (rev (entriesOf m)) with
  | Some e => Some (VInt e.2)
  | None => None
  end.

Definition isKeyword (v : dval) : bool :=
  match v with VObj (c :: _, _) => (c =? ":")%byte | _ => false end.

Inductive dmeth := CountArgs | CallFirst.

#[export] Instance demoRuntime : Runtime dobj dglobals dval dmeth := {
  createSymbol s := (s, []);
  globalAt k w := match List.find (fun e => bool_decide (e.1 = k)) w with
                  | Some e => Some e.2
                  | None => None
                  end;
  setGlobal k v w := (k, v) :: w;
  largeInteger z := VObj (s2b "bigint", [([], z)]);
  fromDouble bits := VObj (s2b "double", [([], bits)]);
  fromUTF8 s := VObj (s2b "string", map (fun c => ([], u8 c)) s);
  fromDigits s := VObj (s2b "bigint", map (fun c => ([], u8 c)) s);
  sameObject a b := match a, b with
                    | VObj a, VObj b => bool_decide (a = b)
                    | VInt a, VInt b => a =? b
                    | VNone, VNone => true
                    | _, _ => false
                    end;
  bigIntegerValue _ := None;
  isNumberObject v := hasName "bigint" v || hasName "double" v;
  isNamedValue := isKeyword;
  namedSpelling := nameOf;
  isMap := hasName "map";
  isSet _ := false;
  isVector := hasName "vector";
  isListValue := hasName "list";
  isObjectCell v := match v with VObj _ => true | _ => false end;
  valueTypeName v := match v with VObj _ => s2b "an object" | _ => s2b "a value" end;
  vectorItems := demoItems;
  listItems := demoItems;
  listFromArray := demoList;
  seqItems _ _ := mret None;
  mapGet m k _ := mret (demoGet m k);
  setGet _ _ _ := mret None;
  newMap := demoMap [];
  hashedPut m k v _ := mret (demoPut m k v);
  protoAdd a b _ := mret (VObj (s2b "bigint", [([], intOf a + intOf b)]));
  protoSubtract a b _ := mret (VObj (s2b "bigint", [([], intOf a - intOf b)]));
  protoMultiply a b _ := mret (VObj (s2b "bigint", [([], intOf a * intOf b)]));
  partialCompare _ _ := None;
  valuesEqual _ _ _ := mret false;
  getAttribute _ _ _ := mret VNone;
  hasAttribute _ _ _ := mret false;
  isInstanceOf v t := negb (hasName "string" v);
  classPrototype z := VObj (s2b "class", [([], z)]);
  asException _ := None;
  makeException e := VObj (s2b "exception", ([], exClass e) :: entriesOf (exMessage e));
  clojureThrow v := v;
  exnValue v := v;
  asMethod v := if hasName "count-args" v then Some CountArgs
                else if hasName "call" v then Some CallFirst else None;
  asMethodSelf _ := VNone;
  callMethod m _ args inv :=
    match m, args with
    | CallFirst, f :: args => inv f args
    | _, _ => mret (VInt (Z.of_nat (length args)))
    end;
  fastPrimitiveCall m args mayAllocate _ :=
    match m with CountArgs => if mayAllocate then Some (VInt (Z.of_nat (length args))) else None | _ => None end;
  checkNativeStack depth := if (100 <? Z.of_nat depth) then
    Some (s2b "StackOverflowError: calls or data nested too deeply") else None;
  onLine _ _ := mret ();
}.

(** The integer a call answers. *)
Definition intResult (r : world dglobals * outcome (thrown dval) dval) : option Z :=
  match r with (_, Ret (VInt z)) => Some z | _ => None end.

Definition demoWorld : world dglobals := mkWorld [] 0.

Definition demoModule (code : list Z) (consts : list (Const (obj := dobj))) (arity locals : Z)
  : BytecodeModule (obj := dobj) :=
  mkModule code (mkPool consts ∅ ∅ ∅ ∅ ∅ ∅ ∅) [] [] [] arity locals false false false (-1) [].

Definition longConst (z : Z) : Const (obj := dobj) := mkConst Long z 0 [] None.

(** (fn [n] (loop [i 0] (if (< i n) (recur (+ i 1)) i))) *)
Definition countTo : BytecodeModule (obj := dobj) :=
  demoModule
    [instruction PUSH_CONST 0; instruction STORE_LOCAL 1;
     instruction PUSH_LOCAL 1; instruction PUSH_LOCAL 0; instruction LT 0;
     instruction JUMP_IF_FALSE 5;
     instruction PUSH_LOCAL 1; instruction PUSH_CONST 1; instruction ADD 0;
     instruction STORE_LOCAL 1; instruction JUMP_BACK 9;
     instruction PUSH_LOCAL 1; instruction RETURN 0]
    [longConst 0; longConst 1] 1 1.

Definition countDepths : list Z := [0; 1; 0; 1; 2; 1; 0; 1; 2; 1; 0; 0; 1].

Example countTo_runs :
  intResult (vmInvoke 70 (VFn countTo None) [VInt 5] demoWorld) = Some 5.
Proof. vm_compute. reflexivity. Qed.

(** (fn [f x] (try (f x) (catch Throwable e 7))) *)
Definition tryCall : BytecodeModule (obj := dobj) :=
  mkModule
    [instruction TRY_BEGIN 5; instruction PUSH_LOCAL 0; instruction PUSH_LOCAL 1;
     instruction CALL 1; instruction TRY_END 0; instruction RETURN 0;
     instruction STORE_CAUGHT 2; instruction PUSH_LOCAL 2; instruction EXC_MATCH 0;
     instruction JUMP_IF_FALSE 2; instruction PUSH_CONST 0; instruction RETURN 0;
     instruction RETHROW 2]
    (mkPool [longConst 7] ∅ ∅ ∅ ∅ ∅ ∅ ∅) [] [] [] 2 1 false true false (-1) [].

Example tryCall_returns :
  intResult (vmInvoke 70 (VFn tryCall None) [VFn countTo None; VInt 3] demoWorld) = Some 3.
Proof. vm_compute. reflexivity. Qed.

Example tryCall_catches :
  intResult (vmInvoke 70 (VFn tryCall None) [VObj (sym "no-fn"); VInt 3] demoWorld) = Some 7.
Proof. vm_compute. reflexivity. Qed.

(** A method that calls back into the VM. *)
Example callback_runs :
  intResult (vmInvoke 70 (VObj (sym "call")) [VFn countTo None; VInt 4] demoWorld) = Some 4.
Proof. vm_compute. reflexivity. Qed.
