(* ===== verification/FrameStack.v ===== *)
(** The operand stack of a frame (runtime/ExecutionEngine.cpp, executeFrame):
    the dispatch loop keeps to the depths the flow analysis computed, never
    pushes past the capacity and never pops below the empty stack. *)

From S2P Require Import Prelude Bytecode Exceptions ExecutionEngine DemoRuntime.

Section Stack.
Context {obj W exn meth : Type} `{Runtime obj W exn meth}.

#[local] Abbreviation V := (val obj).
#[local] Abbreviation module := (BytecodeModule (obj := obj)).
#[local] Abbreviation fr := (frame (obj := obj) (W := W) (exn := exn)).
#[local] Abbreviation MM := (M (obj := obj) (W := W) (exn := exn)).

(** ** Weakest preconditions

    [wp m E Q f]: from [f], [m] does not overrun the stack, ends in [Q], and
    raises in [E]. *)

Definition wp {A} (m : MM A) (E : fr -> Prop) (Q : A -> fr -> Prop) (f : fr) : Prop :=
  match m f with
  | Done a f' => Q a f'
  | Raised _ f' => E f'
  | Overrun => False
  | Stopped _ => True
  end.

(** What one operation leaves alone: the handlers and the position; the stack
    may gain room. *)
Definition like (f f' : fr) : Prop :=
  handlers f' = handlers f /\ ip f' = ip f /\ stackCapacity f <= stackCapacity f'.

Lemma like_refl f : like f f.
Proof. repeat split; lia. Qed.

Lemma like_trans f g h : like f g -> like g h -> like f h.
Proof. intros (A1 & A2 & A3) (B1 & B2 & B3). repeat split; [congruence|congruence|lia]. Qed.

Lemma like_same f f' : handlers f' = handlers f -> ip f' = ip f ->
  stackCapacity f' = stackCapacity f -> like f f'.
Proof. intros ? ? E. repeat split; [done|done|lia]. Qed.

Lemma wp_mono {A} (m : MM A) (E E' : fr -> Prop) (Q Q' : A -> fr -> Prop) f :
  wp m E Q f -> (forall f', E f' -> E' f') -> (forall a f', Q a f' -> Q' a f') -> wp m E' Q' f.
Proof. unfold wp. intros H1 HE HQ. destruct (m f); auto. Qed.

Lemma wp_bind {A B} (m : MM A) (k : A -> MM B) E Q f :
  wp m E (fun a f' => wp (k a) E Q f') f -> wp (m ≫= k) E Q f.
Proof. unfold wp, mbind, M_bind. destruct (m f); auto. Qed.

Lemma wp_ret {A} (a : A) E Q f : Q a f -> wp (mret a) E Q f.
Proof. done. Qed.

Lemma wp_gets {A} (g : fr -> A) E Q f : Q (g f) f -> wp (gets g) E Q f.
Proof. done. Qed.

Lemma wp_modify g E (Q : unit -> fr -> Prop) f : Q () (g f) -> wp (modify g) E Q f.
Proof. done. Qed.

Lemma wp_throw {A} t (E : fr -> Prop) (Q : A -> fr -> Prop) f : E f -> wp (throw_ t) E Q f.
Proof. done. Qed.

Lemma wp_stop {A} what E (Q : A -> fr -> Prop) f : wp (stop what) E Q f.
Proof. exact I. Qed.

Lemma wp_refuse b text (E : fr -> Prop) (Q : unit -> fr -> Prop) f :
  E f -> (b = false -> Q () f) -> wp (refuse b text) E Q f.
Proof. unfold refuse. destruct b; [now intros; apply wp_throw|intros _ HQ; now apply wp_ret, HQ]. Qed.

Lemma wp_lift {A} (m : action W exn A) (E : fr -> Prop) (Q : A -> fr -> Prop) f :
  (forall w, E (set_env w f)) -> (forall a w, Q a (set_env w f)) -> wp (lift m) E Q f.
Proof. intros HE HQ. unfold wp, lift. destruct (m (env f)) as [w []]; auto. Qed.

Lemma wp_fromSum {A} (r : A + thrown exn) (E : fr -> Prop) (Q : A -> fr -> Prop) f :
  E f -> (forall a, Q a f) -> wp (fromSum r) E Q f.
Proof. intros HE HQ. destruct r; [now apply wp_ret|now apply wp_throw]. Qed.

Lemma wp_if {A} (b : bool) (m1 m2 : MM A) E Q f :
  (b = true -> wp m1 E Q f) -> (b = false -> wp m2 E Q f) -> wp (if b then m1 else m2) E Q f.
Proof. destruct b; auto. Qed.

Context (inv : Invoke (obj := obj) (W := W) (exn := exn))
        (ex : Execute (obj := obj) (W := W) (exn := exn)) (bmod : module).

Lemma wp_push v E (Q : unit -> fr -> Prop) f : sp f < stackCapacity f ->
  Q () (set_sp (sp f + 1) (storeSlot (stackBase bmod + sp f) v f)) -> wp (pushVal bmod v) E Q f.
Proof.
  intros Hlt HQ. unfold wp, pushVal. now rewrite (proj2 (Z.leb_gt _ _) Hlt).
Qed.

(** ** Stack effects

    [effect m P f]: from [f], [m] ends with a value and a stack depth in [P] and
    the rest of the frame as it was; when it raises, it leaves the rest too. *)
Definition effect {A} (m : MM A) (P : A -> Z -> Prop) (f : fr) : Prop :=
  wp m (like f) (fun a f' => like f f' /\ P a (sp f')) f.

(** The depth afterwards is [s]. *)
Definition depth_is {A} (s : Z) : A -> Z -> Prop := fun _ z => z = s.

Lemma effect_bind {A B} (m : MM A) (k : A -> MM B) P Q f : effect m P f ->
  (forall a g, like f g -> P a (sp g) -> effect (k a) Q g) -> effect (m ≫= k) Q f.
Proof.
  intros Hm Hk. apply wp_bind. eapply wp_mono; [exact Hm|done|]. cbn.
  intros a g [Hg Hs]. eapply wp_mono; [exact (Hk a g Hg Hs)| |]; cbn.
  - intros f'. now apply like_trans.
  - intros b f' [? ?]. split; [now apply (like_trans _ g)|done].
Qed.

Lemma effect_weaken {A} (m : MM A) (P Q : A -> Z -> Prop) f : effect m P f ->
  (forall a z, P a z -> Q a z) -> effect m Q f.
Proof. intros Hm HPQ. eapply wp_mono; [exact Hm|done|]. cbn. intuition. Qed.

Lemma effect_ret {A} (a : A) (P : A -> Z -> Prop) f : P a (sp f) -> effect (mret a) P f.
Proof. split; [apply like_refl|done]. Qed.

Lemma effect_gets {A} (g : fr -> A) f : effect (gets g) (fun a z => a = g f /\ z = sp f) f.
Proof. split; [apply like_refl|done]. Qed.

Lemma effect_throw {A} t P f : effect (A := A) (throw_ t) P f.
Proof. apply like_refl. Qed.

Lemma effect_stop {A} what P f : effect (A := A) (stop what) P f.
Proof. exact I. Qed.

Lemma effect_lift {A} (m : action W exn A) f : effect (lift m) (depth_is (sp f)) f.
Proof.
  apply wp_lift; [intros w; now apply like_same|].
  intros a w. split; [now apply like_same|done].
Qed.

Lemma effect_fromSum {A} (r : A + thrown exn) f : effect (fromSum r) (depth_is (sp f)) f.
Proof. apply wp_fromSum; [apply like_refl|]. split; [apply like_refl|done]. Qed.

Lemma effect_modify g (P : unit -> Z -> Prop) f : like f (g f) -> P () (sp (g f)) ->
  effect (modify g) P f.
Proof. intros ? ?. now apply wp_modify. Qed.

Lemma effect_refuse b text f : effect (refuse b text) (fun _ z => z = sp f /\ b = false) f.
Proof.
  apply wp_refuse; [apply like_refl|]. intros Hb. split; [apply like_refl|done].
Qed.

Lemma effect_push v f : sp f < stackCapacity f ->
  effect (pushVal bmod v) (depth_is (sp f + 1)) f.
Proof. intros Hlt. apply wp_push; [done|]. split; [now apply like_same|done]. Qed.

Lemma effect_drop n f : 0 <= n <= sp f -> sp f < 2 ^ 32 ->
  effect (drop_ n) (depth_is (sp f - n)) f.
Proof.
  intros Hn Hb. apply effect_modify; [now apply like_same|]. cbn. apply Z.mod_small. lia.
Qed.

Lemma effect_setLocal i v f : effect (setLocal i v) (depth_is (sp f)) f.
Proof. apply effect_modify; [now apply like_same|done]. Qed.

Lemma clearSlots_like n i f : like f (clearSlots n i f) /\ sp (clearSlots n i f) = sp f.
Proof.
  revert i f. induction n as [|n IH]; intros i f; [split; [apply like_refl|done]|].
  cbn [clearSlots]. destruct (IH (i + 1) (storeSlot i VNull f)) as [A B].
  split; [|now rewrite B]. eapply like_trans; [|exact A]. now apply like_same.
Qed.

Lemma effect_clear n g f : effect (modify (fun f => clearSlots n (g f) f)) (depth_is (sp f)) f.
Proof. apply effect_modify; apply clearSlots_like. Qed.

Lemma effect_pop f : 0 <= sp f < 2 ^ 32 ->
  effect (popVal bmod) (fun _ z => z = sp f - 1 /\ 0 < sp f) f.
Proof.
  intros Hb. unfold popVal. eapply effect_bind; [apply effect_gets|]. intros s g Hg [-> Hs]. cbn in Hs.
  eapply effect_bind; [apply effect_refuse|]. intros [] h Hh [Es Hz]. rewrite Hs in Es.
  assert (0 < sp f) by lia.
  eapply effect_bind; [apply effect_drop; lia|]. intros [] k Hk Ek. unfold depth_is in Ek.
  eapply effect_weaken; [apply effect_gets|]. cbn. intros v z [_ Hz']. lia.
Qed.

Lemma effect_constant i f : effect (constant bmod i) (depth_is (sp f)) f.
Proof.
  unfold constant. destruct (consts_ (pool_ bmod) !! Z.to_nat i); [now apply effect_ret|apply effect_stop].
Qed.

Lemma effect_keyOf c f : effect (keyOf c) (depth_is (sp f)) f.
Proof. unfold keyOf. destruct (named c); [now apply effect_ret|apply effect_stop]. Qed.

Lemma effect_foldChunks fuel start sofar kv m f :
  effect (foldChunks inv fuel start sofar kv m) (depth_is (sp f)) f.
Proof.
  revert sofar m f. induction fuel as [|fuel IH]; intros sofar m f; cbn [foldChunks];
    [now apply effect_ret|].
  destruct (sofar <? kv); [|now apply effect_ret].
  eapply effect_bind; [apply effect_gets|]. intros vs g1 _ [_ E1].
  eapply effect_bind; [apply effect_lift|]. intros m' g2 _ E2.
  eapply effect_bind; [apply effect_setLocal|]. intros [] g3 _ E3.
  eapply effect_weaken; [apply IH|]. unfold depth_is in *. intros _ z ->. congruence.
Qed.

Lemma effect_foldPairs start kv f : effect (foldKeywordPairs inv start kv) (depth_is (sp f)) f.
Proof.
  eapply effect_bind; [apply effect_foldChunks|]. intros m g _ E. now apply effect_ret.
Qed.

Lemma effect_reserve n f : 0 <= n -> 0 <= sp f -> sp f + n < 2 ^ 32 ->
  wp (reserveStack bmod n) (like f)
     (fun _ f' => like f f' /\ sp f' = sp f /\ sp f + n <= stackCapacity f') f.
Proof.
  intros Hn Hs Hb. unfold wp, reserveStack. destruct (Z.leb_spec (sp f + n) (stackCapacity f)).
  - split; [apply like_refl|done].
  - cbn. unfold u32. rewrite Z.mod_small by lia. split; [|split; [done|lia]]. repeat split; cbn; lia.
Qed.

(** [eff] takes one step of an effect proof; what is left are the facts about the
    depth. *)
Ltac eff_prim :=
  lazymatch goal with
  | |- effect (gets _) _ _ => apply effect_gets
  | |- effect (peekAt _ _) _ _ => apply effect_gets
  | |- effect (topArgs _ _) _ _ => apply effect_gets
  | |- effect (stackRange _ _ _) _ _ => apply effect_gets
  | |- effect (getLocal _) _ _ => apply effect_gets
  | |- effect (refuse _ _) _ _ => apply effect_refuse
  | |- effect (lift _) _ _ => apply effect_lift
  | |- effect (fromSum _) _ _ => apply effect_fromSum
  | |- effect (setLocal _ _) _ _ => apply effect_setLocal
  | |- effect (constant _ _) _ _ => apply effect_constant
  | |- effect (keyOf _) _ _ => apply effect_keyOf
  | |- effect (foldKeywordPairs _ _ _) _ _ => apply effect_foldPairs
  | |- effect (modify (clearSlots _ _)) _ _ => apply (effect_clear _ (fun _ => _))
  | |- effect (modify (fun f => clearSlots _ _ f)) _ _ => apply effect_clear
  | |- effect (pushVal _ _) _ _ => apply effect_push; lia
  | |- effect (drop_ _) _ _ => apply effect_drop; lia
  | |- effect (popVal _) _ _ => apply effect_pop; lia
  end.

Ltac eff :=
  lazymatch goal with
  | |- effect (_ ≫= _) _ _ =>
      eapply effect_bind;
        [eff_prim|let a := fresh "a" in let g := fresh "g" in let L := fresh "L" in let E := fresh "E" in
                  intros a g L E; unfold depth_is in E; cbn beta in E; destruct L as (? & ? & ?)]
  | |- effect (throw_ _) _ _ => apply effect_throw
  | |- effect (error _) _ _ => apply effect_throw
  | |- effect (stop _) _ _ => apply effect_stop
  | |- effect (mret _) _ _ => apply effect_ret
  | |- effect (if ?b then _ else _) _ _ => destruct b eqn:?
  | |- effect (let '(_, _) := ?p in _) _ _ => destruct p
  | |- effect _ _ _ => eapply effect_weaken; [eff_prim|unfold depth_is; cbn beta; intros]
  end.

(** ** Calls *)

Lemma effect_dispatchFn sub captures argc f : 0 <= argc -> argc + 1 <= sp f ->
  sp f <= stackCapacity f -> sp f < 2 ^ 32 ->
  effect (dispatchFn inv ex bmod sub captures argc) (depth_is (sp f - argc)) f.
Proof.
  intros H1 H2 H3 H4. unfold dispatchFn.
  eapply (effect_bind _ _ (fun argc' z => 0 <= argc' /\ z - argc' = sp f - argc /\ z <= sp f)).
  - unfold foldExtraPairs. destruct (_ && _ && _) eqn:E; [|now apply effect_ret; lia].
    assert (Hkv : 0 < u32 (argc - arity_ sub) <= argc + 1 /\
                  u32 (arity_ sub + 1) = argc - (u32 (argc - arity_ sub) - 1)).
    { apply andb_prop in E as [[_ E]%andb_prop _]. unfold u32 in *. lia. }
    cbv zeta. do 5 eff. split; [|split]; lia.
  - intros argc' g (L1 & L2 & L3) (P1 & P2 & P3).
    eapply (effect_bind _ _ (fun _ z => z = sp g)).
    + unfold countArgs. cbv zeta. repeat first [eff|lia].
    + intros [posArgc m] h (? & ? & ?) Es. unfold enterCall. cbv zeta.
      destruct (kMaxBoundParameters <? _); [apply effect_throw|].
      do 3 eff.
      eapply (effect_bind _ _ (depth_is (sp h))).
      * repeat first [eff|progress unfold depth_is|lia].
      * intros kwVals k (? & ? & ?) Ek. unfold depth_is in Ek. do 3 eff. lia.
Qed.

Lemma effect_dispatchCall argc f : 0 <= argc -> argc + 1 <= sp f ->
  sp f <= stackCapacity f -> sp f < 2 ^ 32 ->
  effect (dispatchCall inv ex bmod argc) (depth_is (sp f - argc)) f.
Proof.
  intros H1 H2 H3 H4. unfold dispatchCall. do 3 eff. destruct a1 as [r|].
  - do 3 eff. lia.
  - assert (Hfn : forall sub captures, effect (dispatchFn inv ex bmod sub captures argc)
                    (depth_is (sp f - argc)) g1).
    { intros sub captures. replace (sp f - argc) with (sp g1 - argc) by lia.
      apply effect_dispatchFn; lia. }
    destruct a; try apply effect_stop; try apply Hfn;
      try (cbv zeta; eff; [apply effect_throw|]; destruct (arities !! _); [apply Hfn|apply effect_stop]);
      (eff; [do 3 eff; lia|]; destruct (asMethod _); [do 4 eff; lia|]; eff; [do 3 eff; lia|apply effect_throw]).
Qed.

Lemma effect_reserve_bind {B} n (k : unit -> MM B) Q f : 0 <= n -> 0 <= sp f -> sp f + n < 2 ^ 32 ->
  (forall g, like f g -> sp g = sp f -> sp f + n <= stackCapacity g -> effect (k ()) Q g) ->
  effect (reserveStack bmod n ≫= k) Q f.
Proof.
  intros Hn Hs Hb Hk. apply wp_bind. eapply wp_mono; [now apply effect_reserve|done|]. cbn.
  intros [] g (Hg & E & Hc). eapply wp_mono; [exact (Hk g Hg E Hc)| |]; cbn.
  - intros f'. now apply like_trans.
  - intros b f' [? ?]. split; [now apply (like_trans _ g)|done].
Qed.

Lemma effect_operator op operand f : 2 <= sp f -> sp f <= stackCapacity f -> sp f < 2 ^ 32 - 1 ->
  effect (operator inv ex bmod op operand) (depth_is (sp f - 1)) f.
Proof.
  intros H1 H2 H3. unfold operator. do 3 eff. destruct a1 as [v|].
  - apply effect_reserve_bind; [lia|lia|lia|]. intros g2 (? & ? & ?) E2 Hc. do 5 eff.
    eapply (effect_bind _ _ (depth_is (a + 1))).
    { apply effect_modify; [now apply like_same|done]. }
    intros [] k (? & ? & ?) Ek. unfold depth_is in Ek.
    eapply effect_weaken; [apply effect_dispatchCall; lia|]. unfold depth_is. intros; lia.
  - do 5 eff. lia.
Qed.

Lemma effect_makeFn operand f : 0 <= operand -> 0 <= sp f < 2 ^ 32 ->
  sp f + 1 - captureCountAt bmod operand <= stackCapacity f ->
  effect (makeFn bmod operand) (depth_is (sp f + 1 - captureCountAt bmod operand)) f.
Proof.
  intros Ho H2 H3. unfold makeFn, captureCountAt in *. eff.
  destruct (blocks_ bmod !! Z.to_nat operand) as [sub|]; [|apply effect_stop]. cbv zeta.
  assert (0 <= captureCount sub) by (unfold captureCount; lia).
  do 5 eff. lia.
Qed.

Lemma effect_arityList cur subs f : effect (arityList bmod cur subs) (depth_is (sp f)) f.
Proof.
  revert cur f. induction subs as [|sub subs IH]; intros cur f; cbn [arityList]; [now apply effect_ret|].
  cbv zeta. eff. eapply effect_bind; [apply IH|]. intros specs h _ E0. unfold depth_is in E0.
  apply effect_ret. unfold depth_is. lia.
Qed.

Lemma group_captures bs subs n : groupModules bmod bs = Some subs ->
  fold_left (fun caps b => caps + captureCountAt bmod b) bs n =
  fold_left (fun caps sub => caps + captureCount sub) subs n.
Proof.
  revert subs n. induction bs as [|b bs IH]; intros subs n; cbn [groupModules].
  - now intros [= <-].
  - destruct (blocks_ bmod !! Z.to_nat b) as [sub|] eqn:Eb; [|done]. cbn [mbind option_bind].
    destruct (groupModules bmod bs) as [subs'|] eqn:Es; [|done]. cbn [mbind option_bind].
    intros [= <-]. cbn [fold_left]. rewrite (IH _ _ eq_refl). do 2 f_equal.
    unfold captureCountAt. now rewrite Eb.
Qed.

Lemma captures_pos subs n : 0 <= n ->
  0 <= fold_left (fun caps (sub : module) => caps + captureCount sub) subs n.
Proof.
  revert n. induction subs as [|sub subs IH]; intros n Hn; cbn; [done|].
  apply IH. unfold captureCount. lia.
Qed.

Lemma effect_makeFnMulti operand f : 0 <= operand -> 0 <= sp f < 2 ^ 32 ->
  sp f + 1 - groupCaptures bmod operand <= stackCapacity f ->
  effect (makeFnMulti bmod operand) (depth_is (sp f + 1 - groupCaptures bmod operand)) f.
Proof.
  intros Ho H2 H3. unfold makeFnMulti, groupCaptures in *. eff.
  destruct (arityGroups_ bmod !! Z.to_nat operand) as [bs|]; [|apply effect_stop].
  destruct (groupModules bmod bs) as [subs|] eqn:Es; [|apply effect_stop]. cbv zeta.
  rewrite (group_captures _ _ _ Es) in *. pose proof (captures_pos subs 0 ltac:(lia)) as Hp.
  set (total := fold_left _ subs 0) in *. do 2 eff.
  eapply effect_bind; [apply effect_arityList|]. intros specs h (? & ? & ?) Eh. unfold depth_is in Eh.
  do 2 eff. lia.
Qed.

Lemma effect_pushAll vs f : sp f + Z.of_nat (length vs) <= stackCapacity f ->
  effect (pushAll bmod vs) (depth_is (sp f + Z.of_nat (length vs))) f.
Proof.
  revert f. induction vs as [|v vs IH]; intros f Hc; cbn [pushAll length] in *.
  - apply effect_ret. unfold depth_is. lia.
  - eff. eapply effect_weaken; [apply IH; lia|]. unfold depth_is. intros; lia.
Qed.

(** The collections the runtime holds have fewer than 2^31 items. *)
Context (list_small : forall v, Z.of_nat (length (listItems v)) < 2 ^ 31)
        (vector_small : forall v, Z.of_nat (length (vectorItems v)) < 2 ^ 31)
        (seq_small : forall v inv w w' items, seqItems v inv w = (w', Ret (Some items)) ->
                     Z.of_nat (length items) < 2 ^ 31).

Lemma effect_applyItems v f : effect (applyItems inv v)
  (fun items z => z = sp f /\ Z.of_nat (length items) < 2 ^ 31) f.
Proof.
  unfold applyItems. do 3 (eff; [now apply effect_ret; auto|]).
  unfold effect, wp, mbind, M_bind, lift.
  destruct (seqItems v inv (env f)) as [w [[items|]|t| |what]] eqn:Es; try done;
    cbn; try now apply like_same.
  split; [now apply like_same|]. split; [done|]. exact (seq_small _ _ _ _ _ Es).
Qed.

Lemma effect_callApply f : 0 <= sp f <= stackCapacity f -> sp f < 2 ^ 31 ->
  effect (callApply inv ex bmod) (depth_is (sp f - 1)) f.
Proof.
  intros H2 H3. unfold callApply. do 3 eff.
  eapply effect_bind; [apply effect_applyItems|]. intros items h (? & ? & ?) [Eh Hl]. cbv zeta.
  apply effect_reserve_bind; [lia|lia|lia|]. intros k (? & ? & ?) Ek Hc.
  eapply effect_bind; [apply effect_pushAll; lia|]. intros [] k' (? & ? & ?) Ek'. unfold depth_is in Ek'.
  eapply effect_weaken; [apply effect_dispatchCall; lia|]. unfold depth_is. intros; lia.
Qed.

Lemma effect_callKw argc f : 0 <= argc -> 0 <= sp f <= stackCapacity f -> sp f < 2 ^ 31 ->
  effect (callKw inv ex bmod argc) (depth_is (sp f - argc)) f.
Proof.
  intros H1 H2 H3. unfold callKw. do 3 eff. destruct (kwCallee a1) as [sub|].
  - cbv zeta. pose proof (Z.mod_pos_bound (arity_ sub) (2 ^ 32) eq_refl). unfold u32 in *.
    eff; [apply effect_throw|]. eff.
    + do 4 eff. eapply effect_weaken; [apply effect_dispatchCall; lia|]. unfold depth_is. intros; lia.
    + eapply effect_weaken; [apply effect_dispatchCall; lia|]. unfold depth_is. intros; lia.
  - eapply effect_weaken; [apply effect_dispatchCall; lia|]. unfold depth_is. intros; lia.
Qed.

(** ** One instruction *)

(** The values an instruction takes from the stack. *)
Definition needs (op : Op) (operand : Z) : Z :=
  match op with
  | CALL | CALL_KW | CALL_MEMBER => operand + 1
  | CALL_APPLY | ADD | SUB | MUL | LT | LE | GT | GE | EQ | EXC_MATCH_TYPE => 2
  | POP | STORE_LOCAL | STORE_GLOBAL | JUMP_IF_FALSE | JUMP_IF_TRUE | DUP | THROW | STORE_CAUGHT
  | EXC_MATCH | GET_MEMBER => 1
  | MAKE_FN => captureCountAt bmod operand
  | MAKE_FN_MULTI => groupCaptures bmod operand
  | _ => 0
  end.

(** A raise leaves the handlers, and the stack's room. *)
Definition intact (f f' : fr) : Prop :=
  handlers f' = handlers f /\ stackCapacity f <= stackCapacity f'.

(** The handlers after an instruction are those before, but for the one that
    TRY_BEGIN adds and the one that TRY_END removes. *)
Definition handled (op : Op) (jumps : list (Z * Z)) (hs hs' : list TryHandler) : Prop :=
  forall h, h ∈ hs' -> h ∈ hs \/ (op = TRY_BEGIN /\ In (target h, handlerSp h + 1) jumps).

(** After the instruction at [i], the frame is where the flow says. *)
Definition advanced (i : Z) (op : Op) (jumps : list (Z * Z)) (after : option Z) (f f' : fr) : Prop :=
  stackCapacity f <= stackCapacity f' /\ handled op jumps (handlers f) (handlers f') /\
  ((after = Some (sp f') /\ (ip f' = i + 1 \/ (op = CALL_MEMBER /\ ip f' = i + 2))) \/
   (op <> TRY_BEGIN /\ In (ip f', sp f') jumps)).

Lemma like_intact f f' : like f f' -> intact f f'.
Proof. intros (? & ? & ?). now split. Qed.

Lemma handled_same op jumps hs : handled op jumps hs hs.
Proof. intros h Hh. now left. Qed.

(** An instruction that falls through with depth [a]. *)
Lemma go_advanced (m : MM unit) a i op jumps f : ip f = i + 1 -> effect m (depth_is a) f ->
  wp (_ ← m; mret None) (intact f)
     (fun r f' => r = @None V -> advanced i op jumps (Some a) f f') f.
Proof.
  intros Hi Hm. apply wp_bind. eapply wp_mono; [exact Hm|apply like_intact|]. cbn.
  intros [] f' [(Hh & Hip & Hc) Hs] _. unfold depth_is in Hs. split; [done|].
  split; [rewrite Hh; apply handled_same|]. left. split; [congruence|]. left. congruence.
Qed.

(** A conditional jump. *)
Lemma branch_advanced (g : V -> fr -> fr) i op operand f : ip f = i + 1 -> 1 <= sp f < 2 ^ 32 ->
  op <> TRY_BEGIN -> (forall v f, g v f = set_ip (ip f + operand) f \/ g v f = f) ->
  wp (_ ← (v ← popVal bmod; modify (g v)); mret None) (intact f)
     (fun r f' => r = @None V ->
        advanced i op [(i + 1 + operand, sp f - 1)] (Some (sp f - 1)) f f') f.
Proof.
  intros Hi Hs Hop Hg. apply wp_bind, wp_bind.
  eapply wp_mono; [apply effect_pop; lia|apply like_intact|]. cbn.
  intros v h [(Hh & Hip & Hc) [Es _]] _. destruct (Hg v h) as [-> | ->]; (split; [done|]; split;
    [cbn; rewrite Hh; apply handled_same|]).
  - right. split; [done|]. left. cbn. f_equal; congruence.
  - left. split; [congruence|]. left. congruence.
Qed.

Lemma callMember_advanced i operand jumps f : ip f = i + 1 -> 0 <= operand ->
  operand + 1 <= sp f <= stackCapacity f -> sp f < 2 ^ 31 ->
  wp (_ ← callMemberOp inv bmod operand; mret None) (intact f)
     (fun r f' => r = @None V -> advanced i CALL_MEMBER jumps (Some (sp f - operand)) f f') f.
Proof.
  intros Hi Ho Hs Hb. apply wp_bind. unfold callMemberOp. apply wp_bind, wp_gets.
  destruct (code_ bmod !! Z.to_nat (ip f)) as [word|]; [|apply wp_stop].
  apply wp_bind, wp_modify. set (g := set_ip (ip f + 1) f).
  apply (wp_mono _ (like g) _ (fun _ f' => like g f' /\ sp f' = sp g - operand)).
  - assert (Hg : sp g = sp f /\ stackCapacity g = stackCapacity f) by done. clearbody g.
    change (effect (c ← constant bmod (instrOperand word); receiver ← peekAt bmod operand;
      key ← keyOf c; args ← topArgs bmod operand;
      result ← lift (callMember inv receiver key (sval c) args);
      _ ← drop_ (operand + 1); pushVal bmod result) (fun _ z => z = sp g - operand) g).
    do 7 eff. lia.
  - intros f' (Hh & _ & Hc). now split.
  - cbn. intros [] f' [(Hh & Hip & Hc) E] _. subst g. cbn in *. split; [done|].
    split; [rewrite Hh; apply handled_same|]. left. split; [f_equal; lia|]. right. split; [done|lia].
Qed.

(** What an instruction needs of the frame: its values on the stack, and room
    for what it leaves. *)
Record ready (i : Z) (op : Op) (operand : Z) (after : option Z) (f : fr) : Prop := {
  ready_ip : ip f = i + 1;
  ready_operand : 0 <= operand;
  ready_needs : needs op operand <= sp f;
  ready_sp : 0 <= sp f <= stackCapacity f;
  ready_small : sp f < 2 ^ 31;
  ready_room : match after with Some a => a <= stackCapacity f | None => True end;
}.

(** What the flow analysis makes of the opcode at depth [d]. *)
Definition flowOf (op : Op) (operand next d : Z) : list (Z * Z) * option Z :=
  match op with
  | PUSH_CONST | PUSH_VAR | PUSH_NIL | PUSH_TRUE | PUSH_FALSE | PUSH_LOCAL
  | PUSH_LOCAL_CLEAR | DUP | RESOLVE_CLASS => ([], Some (d + 1))
  | POP | STORE_LOCAL | STORE_CAUGHT | ADD | SUB | MUL | LT | LE | GT | GE | EQ
  | CALL_APPLY | EXC_MATCH_TYPE => ([], Some (d - 1))
  | NOP | STORE_GLOBAL | TRY_END | EXC_MATCH | GET_MEMBER | LINE => ([], Some d)
  | CALL | CALL_KW | CALL_MEMBER => ([], Some (d - operand))
  | MAKE_FN => ([], Some (d + 1 - captureCountAt bmod operand))
  | MAKE_FN_MULTI => ([], Some (d + 1 - groupCaptures bmod operand))
  | JUMP => ([(next + operand, d)], None)
  | JUMP_BACK => ((if operand <=? next then [(next - operand, d)] else []), None)
  | JUMP_IF_FALSE | JUMP_IF_TRUE => ([(next + operand, d - 1)], Some (d - 1))
  | TRY_BEGIN => ([(next + operand, d + 1)], Some d)
  | RETURN | THROW | RETHROW => ([], None)
  end.

Lemma flowAt_op i d op : instrOp (nth (Z.to_nat i) (code_ bmod) 0) = Some op ->
  let operand := instrOperand (nth (Z.to_nat i) (code_ bmod) 0) in
  flowAt bmod i d = Flow (flowOf op operand (i + 1) d).1 (flowOf op operand (i + 1) d).2.
Proof. intros E. unfold flowAt. rewrite E. now destruct op. Qed.

Lemma effect_symbolConstant operand t1 t2 f :
  effect (symbolConstant bmod operand t1 t2) (depth_is (sp f)) f.
Proof. unfold symbolConstant. do 4 eff. unfold depth_is. lia. Qed.

Lemma effect_pushVar operand f : sp f + 1 <= stackCapacity f ->
  effect (pushVar bmod operand) (depth_is (sp f + 1)) f.
Proof.
  intros Hc. unfold pushVar. eapply effect_bind; [apply effect_symbolConstant|].
  intros c g (? & ? & ?) E. unfold depth_is in E. do 2 eff.
  destruct a0 as [v|]; [|apply effect_throw]. eff. lia.
Qed.

Lemma effect_storeGlobal operand f : effect (storeGlobal bmod operand) (depth_is (sp f)) f.
Proof.
  unfold storeGlobal. eapply effect_bind; [apply effect_symbolConstant|].
  intros c g (? & ? & ?) E. unfold depth_is in E. do 4 eff.
  apply effect_modify; [now apply like_same|]. unfold depth_is. cbn. lia.
Qed.

Lemma effect_lineMark operand f : effect (lineMark inv operand) (depth_is (sp f)) f.
Proof.
  unfold lineMark, effect, wp. destruct (dbg f) as [[pc line] shown].
  destruct (operand =? 0); [split; [now apply like_same|done]|].
  destruct (operand =? line); [split; [now apply like_same|done]|].
  set (g := set_dbg (ip f - 1, operand, operand) f).
  assert (Hg : like f g) by now apply like_same.
  eapply wp_mono; [exact (effect_lift (onLine operand inv) g)|exact (fun f' => like_trans _ _ _ Hg)|].
  cbn. intros [] f' [Hl E]. split; [exact (like_trans _ _ _ Hg Hl)|exact E].
Qed.

Lemma effect_storeCaught n f : effect (storeCaught n) (depth_is (sp f)) f.
Proof. now apply effect_modify; [apply like_same|]. Qed.

(** [ops] closes an instruction that only moves values. *)
Ltac ops := apply go_advanced; [assumption|];
  first
    [ eapply effect_weaken; [first [apply effect_dispatchCall|apply effect_callKw|apply effect_callApply
        |apply effect_operator|apply effect_makeFn|apply effect_makeFnMulti|apply effect_pushVar
        |apply effect_storeGlobal|apply effect_lineMark]; lia|unfold depth_is; intros; lia]
    | repeat eff; unfold depth_is; lia ].

Lemma intact_refl f : intact f f.
Proof. split; [done|lia]. Qed.

(** An instruction that ends the frame, or raises. *)
Lemma leaves_advanced (m : MM (option V)) P f : effect m (fun r _ => r <> None) f ->
  wp m (intact f) (fun r f' => r = None -> P f') f.
Proof.
  intros Hm. eapply wp_mono; [exact Hm|apply like_intact|]. cbn. intros r f' [_ Hr] ?. contradiction.
Qed.

(** An unconditional jump. *)
Lemma jump_advanced i op t f (g : fr -> fr) : op <> TRY_BEGIN ->
  handlers (g f) = handlers f -> stackCapacity (g f) = stackCapacity f -> sp (g f) = sp f ->
  ip (g f) = t ->
  wp (_ ← modify g; mret None) (intact f)
     (fun r f' => r = @None V -> advanced i op [(t, sp f)] None f f') f.
Proof.
  intros Hop H1 H2 H3 H4. apply wp_bind, wp_modify, wp_ret. intros _. split; [lia|].
  split; [rewrite H1; apply handled_same|]. right. split; [done|]. left. congruence.
Qed.

Lemma step_op_advanced i op operand f :
  let fl := flowOf op operand (i + 1) (sp f) in
  ready i op operand fl.2 f -> (op = JUMP_BACK -> operand <= i + 1) ->
  wp (step_op inv ex bmod op operand) (intact f)
     (fun r f' => r = None -> advanced i op fl.1 fl.2 f f') f.
Proof.
  intros fl [Hip Ho Hn Hs Hb Hroom] Hback. subst fl.
  destruct op; cbn [flowOf step_op needs fst snd] in *; try solve [ops].
  - apply wp_ret. intros _. split; [lia|]. split; [apply handled_same|]. left. auto.
  - apply go_advanced; [done|]. do 2 eff.
    eapply effect_weaken; [apply effect_dispatchCall; lia|unfold depth_is; intros; lia].
  - apply leaves_advanced. eff. eff; [now apply effect_ret|]. eff. now apply effect_ret.
  - apply jump_advanced; cbn; congruence.
  - apply branch_advanced; [done|lia|done|]. intros v g. destruct (isFalsy v); auto.
  - rewrite (proj2 (Z.leb_le _ _) (Hback eq_refl)). apply jump_advanced; cbn; congruence.
  - apply branch_advanced; [done|lia|done|]. intros v g. destruct (isFalsy v); auto.
  - destruct (hasHandlers_ bmod); [|apply intact_refl]. apply wp_bind, wp_modify, wp_ret. intros _.
    split; [cbn; lia|]. split.
    + cbn. intros h [-> |Hh]%elem_of_cons; [|now left]. right. split; [done|]. left. cbn. congruence.
    + left. split; [done|]. now left.
  - unfold wp. destruct (handlers f) as [|h hs] eqn:Eh; [apply intact_refl|]. intros _.
    split; [cbn; lia|]. split; [|left; split; [done|now left]].
    intros h' Hh'. left. rewrite Eh. apply elem_of_cons. now right.
  - apply leaves_advanced. do 3 eff. apply effect_throw.
  - unfold wp. destruct (caught f !! Z.to_nat operand) as [[t|]|]; apply intact_refl.
  - apply callMember_advanced; [done|done|lia|done].
  - destruct (hasHandlers_ bmod); [|apply intact_refl]. apply go_advanced; [done|].
    eapply effect_bind; [apply effect_storeCaught|]. intros [] g (? & ? & ?) E. unfold depth_is in E.
    do 2 eff. lia.
Qed.

(** ** The frame invariant *)

Definition wordAt (i : Z) : Z := nth (Z.to_nat i) (code_ bmod) 0.

(** Beyond one depth per instruction: every instruction reached finds the values
    it takes, a backward jump stays in the code, so does a handler, and a
    CALL_MEMBER has its data word. *)
Definition sound_at (T : list Z) (i : Z) : Prop :=
  match instrOp (wordAt i) with
  | Some op =>
      needs op (instrOperand (wordAt i)) <= depthAt T i /\
      (op = JUMP_BACK -> instrOperand (wordAt i) <= i + 1) /\
      (op = TRY_BEGIN -> i + 1 + instrOperand (wordAt i) < pos bmod) /\
      (op = CALL_MEMBER -> i + 1 < pos bmod /\ instrOp (wordAt (i + 1)) = Some NOP)
  | None => False
  end.

Record well_stacked (T : list Z) (B : Z) : Prop := {
  stacked_words : Forall (fun w => 0 <= w) (code_ bmod);
  stacked_ops : known_ops bmod;
  stacked_typed : depth_typed bmod T B;
  stacked_sound i : 0 <= i < pos bmod -> 0 <= depthAt T i -> sound_at T i;
}.

Definition handler_ok (T D : list Z) (h : TryHandler) : Prop :=
  0 <= target h < pos bmod /\ 0 <= handlerSp h /\
  depthAt T (target h) = handlerSp h + 1 /\ handlerSp h + 1 <= depthAt D (target h).

(** The frame may be at instruction [i] with [d] values on its stack. *)
Definition located (T D : list Z) (i d : Z) : Prop :=
  0 <= i /\ (i < pos bmod -> 0 <= d /\ depthAt T i = d /\ d <= depthAt D i).

Record frame_ok (T D : list Z) (r : Z) (f : fr) : Prop := {
  ok_at : located T D (ip f) (sp f);
  ok_capacity : r <= stackCapacity f;
  ok_handlers : Forall (handler_ok T D) (handlers f);
}.

(** The flow at a greater depth is the flow, shifted. *)
Lemma flowOf_shift op operand next d D :
  (forall t x, In (t, x) (flowOf op operand next d).1 ->
               In (t, x + (D - d)) (flowOf op operand next D).1) /\
  (forall a, (flowOf op operand next d).2 = Some a ->
             (flowOf op operand next D).2 = Some (a + (D - d))).
Proof.
  split.
  - intros t x. destruct op; cbn; try tauto; try (destruct (operand <=? next); cbn; [|tauto]);
      intros [[= <- <-]|[]]; left; f_equal; lia.
  - intros a. destruct op; cbn; try done; intros [= <-]; f_equal; lia.
Qed.

Section Invariant.
Context (T D : list Z) (B r : Z) (Hw : well_stacked T B) (HD : bounded bmod r D) (Hr : r < 2 ^ 31).

Lemma located_flow i d op : located T D i d -> i < pos bmod -> instrOp (wordAt i) = Some op ->
  let fl := flowOf op (instrOperand (wordAt i)) (i + 1) d in
  d <= r /\
  (forall t x, In (t, x) fl.1 -> located T D t x) /\
  (forall a, fl.2 = Some a -> 0 <= a <= r /\ located T D (i + 1) a).
Proof.
  intros [Hi Hd] Hlt Hop fl. destruct (Hd Hlt) as (Hd0 & HT & HDi).
  pose proof (typed_flow _ _ _ (stacked_typed _ _ Hw) i ltac:(lia) ltac:(lia)) as Ht.
  rewrite HT, (flowAt_op i d op Hop) in Ht. destruct Ht as [Htj Hta].
  destruct (bounded_closed _ _ _ HD i ltac:(lia) ltac:(lia)) as [Hle Hc].
  rewrite (flowAt_op i (depthAt D i) op Hop) in Hc. destruct Hc as [Hcj Hca].
  destruct (flowOf_shift op (instrOperand (wordAt i)) (i + 1) d (depthAt D i)) as [Hsj Hsa].
  change (flowOf op (instrOperand (nth (Z.to_nat i) (code_ bmod) 0)) (i + 1) d) with fl in *.
  change (nth (Z.to_nat i) (code_ bmod) 0) with (wordAt i) in *.
  split; [lia|]. rewrite List.Forall_forall in Htj, Hcj. split.
  - intros t x Hin. destruct (Htj _ Hin) as [Ht0 [Hx0 Hag]]. specialize (Hcj _ (Hsj _ _ Hin)). cbn in Hcj.
    split; [done|]. intros Htn. unfold covered in Hcj. lia.
  - intros a Ha. rewrite Ha in Hta. rewrite (Hsa _ Ha) in Hca. destruct Hta as [_ [Ha0 Hag]].
    destruct Hca as [Har Hcov]. split; [lia|]. split; [lia|]. intros Hin. unfold covered in Hcov. lia.
Qed.

Lemma advanced_ok i op f f' : frame_ok T D r f -> located T D i (sp f) -> i < pos bmod ->
  instrOp (wordAt i) = Some op ->
  advanced i op (flowOf op (instrOperand (wordAt i)) (i + 1) (sp f)).1
                (flowOf op (instrOperand (wordAt i)) (i + 1) (sp f)).2 f f' -> frame_ok T D r f'.
Proof.
  intros Hf Hloc Hlt Hop (Hc & Hh & Hpos).
  destruct (located_flow _ _ _ Hloc Hlt Hop) as (Hdr & Hj & Ha).
  pose proof (stacked_sound _ _ Hw i ltac:(destruct Hloc; lia) ltac:(destruct Hloc as [? Hx]; specialize (Hx Hlt); lia)) as Hs.
  unfold sound_at in Hs. rewrite Hop in Hs. destruct Hs as (_ & _ & Htry & Hmem).
  split.
  - destruct Hpos as [[Haf [-> |[Eop Hip]]]|[_ Hin]].
    + now apply Ha.
    + destruct (Hmem Eop) as [Hn Hnop]. rewrite Hip. replace (i + 2) with (i + 1 + 1) by lia.
      destruct (Ha _ Haf) as [_ Hl1].
      destruct (located_flow _ _ _ Hl1 Hn Hnop) as (_ & _ & Ha1). now apply Ha1.
    + now apply Hj.
  - pose proof (ok_capacity _ _ _ _ Hf). lia.
  - apply List.Forall_forall. intros h Hin. apply list_elem_of_In in Hin.
    destruct (Hh h Hin) as [Hold|[Eop Hnew]].
    + pose proof (ok_handlers _ _ _ _ Hf) as Hall. rewrite List.Forall_forall in Hall.
      apply Hall. now apply list_elem_of_In.
    + specialize (Htry Eop). subst op. cbn in Hnew. destruct Hnew as [[= Et Es]|[]].
      destruct (Hj (target h) (handlerSp h + 1)) as [H0t Hl]; [cbn; left; congruence|].
      destruct (Hl ltac:(lia)) as (H1 & H2 & H3).
      destruct Hloc as [_ Hd]. destruct (Hd Hlt) as [? _]. repeat split; lia.
Qed.

Lemma wordAt_lookup i : 0 <= i < pos bmod -> code_ bmod !! Z.to_nat i = Some (wordAt i).
Proof.
  intros Hi. unfold pos in Hi. unfold wordAt.
  destruct (code_ bmod !! Z.to_nat i) as [w|] eqn:E.
  - now rewrite (nth_lookup_Some _ _ _ _ E).
  - apply lookup_ge_None in E. lia.
Qed.

Lemma unwind_ok t f : Forall (handler_ok T D) (handlers f) -> r <= stackCapacity f ->
  match unwind bmod t f with
  | inl f' => frame_ok T D r f'
  | inr StackOverrun => False
  | inr _ => True
  end.
Proof.
  intros Hh Hc. unfold unwind. destruct (hasHandlers_ bmod); [|done].
  destruct (handlers f) as [|h hs] eqn:Eh; [done|]. apply Forall_cons in Hh as [(Ht & Hs & HT & HDt) Hhs].
  assert (Hlt : handlerSp h < stackCapacity f).
  { destruct (bounded_closed _ _ _ HD (target h) Ht ltac:(lia)) as [Hle _]. lia. }
  destruct (match t with ProtoException e => _ | StdException what => _ end) as [v just].
  unfold pushVal. cbn [stackCapacity sp set_sp set_handlers].
  rewrite (proj2 (Z.leb_gt _ _) Hlt). split; cbn.
  - split; [lia|]. intros _. split; [lia|]. split; [done|lia].
  - done.
  - done.
Qed.

Lemma turn_ok f : frame_ok T D r f ->
  match turn inv ex bmod f with
  | inl f' => frame_ok T D r f'
  | inr StackOverrun => False
  | inr _ => True
  end.
Proof.
  intros Hf. unfold turn. destruct (Z.ltb_spec (ip f) (codeEnd bmod)) as [Hlt|]; [|done].
  pose proof (ok_at _ _ _ _ Hf) as Hloc. destruct (Z.ltb_spec (ip f) 0) as [Hneg|Hi]; [done|].
  unfold codeEnd in Hlt. unfold step. rewrite wordAt_lookup by lia.
  destruct Hloc as [_ Hl]. destruct (Hl Hlt) as (Hd0 & HT & HDi).
  pose proof (stacked_sound _ _ Hw (ip f) ltac:(lia) ltac:(lia)) as Hs. unfold sound_at in Hs.
  destruct (instrOp (wordAt (ip f))) as [op|] eqn:Hop; [|done].
  destruct Hs as (Hn & Hback & _). set (i := ip f) in *. set (g := set_ip (i + 1) f).
  assert (Hloc : located T D i (sp g)) by (now split).
  assert (Hg : Forall (handler_ok T D) (handlers g) /\ r <= stackCapacity g)
    by (split; [exact (ok_handlers _ _ _ _ Hf)|exact (ok_capacity _ _ _ _ Hf)]).
  destruct (located_flow _ _ _ Hloc Hlt Hop) as (Hdr & _ & Ha).
  set (w := wordAt i) in *.
  assert (Hready : ready i op (instrOperand w) (flowOf op (instrOperand w) (i + 1) (sp g)).2 g).
  { split; [done| | | | |].
    - apply instrOperand_pos. pose proof (stacked_words _ _ Hw) as Hws. rewrite List.Forall_forall in Hws.
      apply Hws, list_elem_of_In, list_elem_of_lookup. eexists. exact (wordAt_lookup i ltac:(lia)).
    - cbn. lia.
    - cbn. cbn in Hdr. pose proof (ok_capacity _ _ _ _ Hf). lia.
    - cbn. cbn in Hdr. lia.
    - destruct (flowOf _ _ _ _).2 as [a|]; [|done]. destruct (Ha a eq_refl). lia. }
  pose proof (step_op_advanced i op (instrOperand w) g Hready Hback) as Hstep.
  unfold wp in Hstep. destruct (step_op inv ex bmod op (instrOperand w) g) as [[v|] f'|t f'| |what];
    [done| |destruct Hstep as [Hh Hc]; apply unwind_ok; [now rewrite Hh|destruct Hg; lia]|done|done].
  apply (advanced_ok i op f f' Hf Hloc Hlt Hop). exact (Hstep eq_refl).
Qed.

End Invariant.

Lemma entry_ok T D B r c captures w : well_stacked T B -> bounded bmod r D ->
  frame_ok T D r (entryFrame bmod r c captures w).
Proof.
  intros Hw HD. split; cbn; [|lia|constructor]. split; [lia|]. intros Hn.
  rewrite (typed_entry _ _ _ (stacked_typed _ _ Hw) Hn). split; [lia|]. split; [done|].
  exact (bounded_entry _ _ _ HD Hn).
Qed.

(** The frames a frame goes through. *)
Definition turns (f g : fr) : Prop := turn inv ex bmod f = inl g.

Lemma reached_ok T D B r c captures w f : well_stacked T B -> bounded bmod r D -> r < 2 ^ 31 ->
  rtc turns (entryFrame bmod r c captures w) f -> frame_ok T D r f.
Proof.
  intros Hw HD Hb. revert f. apply (rtc_ind_r (frame_ok T D r)); [now apply (entry_ok _ _ B)|].
  intros g h _ Hstep IH. pose proof (turn_ok T D B r Hw HD Hb _ IH) as Ht.
  unfold turns in Hstep. now rewrite Hstep in Ht.
Qed.

(** C1. Stack discipline: in a body whose instructions have one depth each and
    find the operands they take ([well_stacked], what the compiler's structured
    code has), a frame whose capacity is the [maxStack] the flow analysis computed
    has, at every instruction it ever reaches, whatever it calls answers or
    raises, exactly the depth the code gives that instruction: at least what the
    instruction takes and at most the capacity, with room for every active
    handler's exception; so no push ever goes past the operand stack. *)
Theorem stack_discipline T B fuel r c captures w f :
  well_stacked T B -> computeMaxStack fuel bmod = Some r -> r < 2 ^ 31 ->
  rtc turns (entryFrame bmod r c captures w) f ->
  (ip f < codeEnd bmod -> 0 <= ip f /\ sp f = depthAt T (ip f) /\ sp f <= r /\
     exists op, instrOp (wordAt (ip f)) = Some op /\
       needs op (instrOperand (wordAt (ip f))) <= sp f) /\
  Forall (fun h => 0 <= target h < codeEnd bmod /\ handlerSp h < r) (handlers f) /\
  turn inv ex bmod f <> inr StackOverrun.
Proof.
  intros Hw Hr Hb Hrun.
  destruct (computeMaxStack_bounded fuel bmod r (stacked_words _ _ Hw) (stacked_ops _ _ Hw) Hr)
    as [D HD].
  pose proof (reached_ok T D B r c captures w f Hw HD Hb Hrun) as Hf.
  split; [|split].
  - intros Hlt. destruct (ok_at _ _ _ _ Hf) as [Hi Hl]. destruct (Hl Hlt) as (H1 & H2 & H3).
    destruct (bounded_closed _ _ _ HD (ip f) ltac:(unfold codeEnd in Hlt; lia) ltac:(lia)) as [Hle _].
    repeat split; [lia|lia|lia|].
    pose proof (stacked_sound _ _ Hw (ip f) ltac:(unfold codeEnd in Hlt; lia) ltac:(lia)) as Hs.
    unfold sound_at in Hs. destruct (instrOp (wordAt (ip f))) as [op|]; [|done].
    exists op. split; [done|]. lia.
  - eapply Forall_impl; [exact (ok_handlers _ _ _ _ Hf)|]. intros h (Ht & Hs & HT & HDt).
    destruct (bounded_closed _ _ _ HD (target h) Ht ltac:(lia)) as [Hle _].
    unfold codeEnd. lia.
  - pose proof (turn_ok T D B r Hw HD Hb _ Hf) as Ht. intros E. now rewrite E in Ht.
Qed.

(** [well_stacked], decided. *)
Definition sound_atb (T : list Z) (i : Z) : bool :=
  match instrOp (wordAt i) with
  | Some op =>
      (needs op (instrOperand (wordAt i)) <=? depthAt T i) &&
      (negb (bool_decide (op = JUMP_BACK)) || (instrOperand (wordAt i) <=? i + 1)) &&
      (negb (bool_decide (op = TRY_BEGIN)) || (i + 1 + instrOperand (wordAt i) <? pos bmod)) &&
      (negb (bool_decide (op = CALL_MEMBER)) ||
       ((i + 1 <? pos bmod) && bool_decide (instrOp (wordAt (i + 1)) = Some NOP)))
  | None => false
  end.

Definition well_stackedb (T : list Z) (B : Z) : bool :=
  forallb (fun w => (0 <=? w) && known_op w) (code_ bmod) && depth_typedb bmod T B &&
  forallb (fun k => (depthAt T (Z.of_nat k) <? 0) || sound_atb T (Z.of_nat k))
    (seq 0 (length (code_ bmod))).

Lemma well_stackedb_spec T B : well_stackedb T B = true -> well_stacked T B.
Proof.
  intros [[Hws HT]%andb_prop Hs]%andb_prop. rewrite forallb_forall in Hws, Hs. split.
  - apply List.Forall_forall. intros w Hin. specialize (Hws w Hin). apply andb_prop in Hws as [? _]. lia.
  - apply List.Forall_forall. intros w Hin. specialize (Hws w Hin). now apply andb_prop in Hws as [_ ?].
  - now apply depth_typedb_spec.
  - intros i Hi Hd. assert (Hin : In (Z.to_nat i) (seq 0 (length (code_ bmod)))).
    { apply in_seq. unfold pos in Hi. lia. }
    specialize (Hs _ Hin). rewrite Z2Nat.id in Hs by lia. apply orb_prop in Hs as [?|Hs]; [lia|].
    unfold sound_atb, sound_at in *. destruct (instrOp (wordAt i)) as [op|]; [|done].
    apply andb_prop in Hs as [[[H1 H2]%andb_prop H3]%andb_prop H4].
    split; [lia|]. split; [|split].
    + intros ->. rewrite bool_decide_true in H2 by done. cbn in H2. lia.
    + intros ->. rewrite bool_decide_true in H3 by done. cbn in H3. lia.
    + intros ->. rewrite bool_decide_true in H4 by done. cbn [negb orb] in H4.
      apply andb_prop in H4 as [? ?%bool_decide_eq_true]. split; [lia|done].
Qed.

End Stack.

(** ** Example *)

Definition tryDepths : list Z := [0; 0; 1; 2; 1; 1; 1; 0; 1; 1; 0; 1; 0].

Lemma demoItems_small v : Z.of_nat (length (demoItems v)) < 2 ^ 31.
Proof.
  unfold demoItems. rewrite length_map, length_take. lia.
Qed.

Example stack_discipline_witness :
  let c := mkCall tryCall [VObj (sym "no-fn"); VInt 3] None [] VNull in
  well_stacked tryCall tryDepths 2 /\ computeMaxStack 20 tryCall = Some 2 /\
  turn (vmInvoke 70) (execute 70) tryCall (entryFrame tryCall 2 c [] demoWorld) <> inr StackOverrun.
Proof.
  cbv zeta.
  assert (Hw : well_stacked tryCall tryDepths 2)
    by (apply well_stackedb_spec; vm_compute; reflexivity).
  assert (Hm : computeMaxStack 20 tryCall = Some 2) by (vm_compute; reflexivity).
  split; [exact Hw|]. split; [exact Hm|].
  refine (proj2 (proj2 (stack_discipline (vmInvoke 70) (execute 70) tryCall demoItems_small
    demoItems_small _ tryDepths 2 20 2 _ [] demoWorld _ Hw Hm _ (rtc_refl _ _)))).
  - intros v i w w' items E. discriminate E.
  - lia.
Defined.
