(* ===== verification/Calls.v ===== *)
(** Calls (runtime/ExecutionEngine.cpp): SmallInteger arithmetic, the choice of
    an arity, the binding of arguments by [invoke], [acceptsArgCount], the
    handlers' exceptions, and the agreement of the dispatch loop's call with
    [invoke]. *)

From S2P Require Import Prelude Bytecode Exceptions ExecutionEngine DemoRuntime.

(** ** SmallIntegers *)

Lemma fits_range v : smallIntFitsLong v = true <-> - 2 ^ 53 <= v <= 2 ^ 53 - 1.
Proof. unfold smallIntFitsLong. lia. Qed.

Lemma s64_small z : - 2 ^ 63 <= z < 2 ^ 63 -> s64 z = z.
Proof. intros Hz. unfold s64. rewrite Z.mod_small by lia. lia. Qed.

Lemma tagged_word v : smallIntFitsLong v = true ->
  smallIntFromLong v = u64 (v * 2 ^ 10 + 1) /\ Z.land (smallIntFromLong v) 0x3FF = 1 /\
  s64 (smallIntFromLong v) = v * 2 ^ 10 + 1.
Proof.
  intros Hv%fits_range. unfold smallIntFromLong, kSmallIntTagValue.
  rewrite Z.shiftl_mul_pow2, lor_add by lia. split; [done|]. split.
  - change 0x3FF with (Z.ones 10). rewrite land_low by lia. unfold u64. lia.
  - unfold s64, u64. lia.
Qed.

Section Integers.
Context {obj W exn meth : Type} `{Runtime obj W exn meth}.

(** C40. SmallIntegers are exact: a tagged word is recognised and read back as
    the integer it was made of; the operator opcodes' fast path, in [long long]
    arithmetic that never wraps, answers exactly the integers' sum, difference or
    product, whenever that is a SmallInteger (a product: whenever both operands
    are within 26 bits), and leaves every other case to protoCore; the ordering
    and equality opcodes compare the integers. *)
Theorem smallInt_exact (inv : Invoke (obj := obj) (W := W) (exn := exn)) a b w :
  smallIntFitsLong a = true -> smallIntFitsLong b = true ->
  isSmallIntFast (smallIntFromLong a) = true /\ smallIntValueFast (smallIntFromLong a) = a /\
  (binaryOp inv ADD (VInt a) (VInt b) w =
     if smallIntFitsLong (a + b) then (w, Ret (VInt (a + b)))
     else protoAdd (VInt a) (VInt b) inv w) /\
  (binaryOp inv SUB (VInt a) (VInt b) w =
     if smallIntFitsLong (a - b) then (w, Ret (VInt (a - b)))
     else protoSubtract (VInt a) (VInt b) inv w) /\
  (binaryOp inv MUL (VInt a) (VInt b) w =
     if (Z.abs a <? 2 ^ 26) && (Z.abs b <? 2 ^ 26) then (w, Ret (VInt (a * b)))
     else protoMultiply (VInt a) (VInt b) inv w) /\
  (Z.abs a < 2 ^ 26 -> Z.abs b < 2 ^ 26 -> smallIntFitsLong (a * b) = true) /\
  binaryOp inv LT (VInt a) (VInt b) w = (w, Ret (VBool (a <? b))) /\
  binaryOp inv LE (VInt a) (VInt b) w = (w, Ret (VBool (a <=? b))) /\
  binaryOp inv GT (VInt a) (VInt b) w = (w, Ret (VBool (a >? b))) /\
  binaryOp inv GE (VInt a) (VInt b) w = (w, Ret (VBool (a >=? b))) /\
  binaryOp inv EQ (VInt a) (VInt b) w = (w, Ret (VBool (a =? b))).
Proof.
  intros Ha Hb. destruct (tagged_word a Ha) as (_ & Htag & Hval).
  apply fits_range in Ha. apply fits_range in Hb.
  assert (Hprod : Z.abs a < 2 ^ 26 -> Z.abs b < 2 ^ 26 -> smallIntFitsLong (a * b) = true)
    by (intros; apply fits_range; nia).
  split; [unfold isSmallIntFast, kSmallIntTagMask; now rewrite Htag|].
  split. { unfold smallIntValueFast. rewrite Hval. rewrite Z.shiftr_div_pow2 by lia. lia. }
  cbn [binaryOp isArith smallIntArith]. rewrite !s64_small by lia.
  split; [now destruct (smallIntFitsLong (a + b))|].
  split; [now destruct (smallIntFitsLong (a - b))|].
  split; [|split; [done|rewrite Z.gtb_ltb, Z.geb_leb; repeat split]].
  unfold kHalf. change (Z.shiftl 1 26) with (2 ^ 26).
  replace ((a <=? - 2 ^ 26) || (2 ^ 26 <=? a) || (b <=? - 2 ^ 26) || (2 ^ 26 <=? b))
    with (negb ((Z.abs a <? 2 ^ 26) && (Z.abs b <? 2 ^ 26))) by lia.
  destruct ((Z.abs a <? 2 ^ 26) && (Z.abs b <? 2 ^ 26)) eqn:E; [|done]. cbn [negb].
  rewrite s64_small by nia. now rewrite Hprod by lia.
Qed.

End Integers.

Section Calls.
Context {obj W exn meth : Type} `{Runtime obj W exn meth}.

#[local] Abbreviation V := (val obj).
#[local] Abbreviation module := (BytecodeModule (obj := obj)).

(** ** Choosing an arity *)

(** [k] is the first position of [l] where [p] holds. *)
Definition first_at {A} (p : A -> bool) (l : list A) (k : Z) : Prop :=
  0 <= k /\ (exists x, l !! Z.to_nat k = Some x /\ p x = true) /\
  forall j x, 0 <= j < k -> l !! Z.to_nat j = Some x -> p x = false.

Lemma findFrom_spec {A} (p : A -> bool) l i : 0 <= i ->
  match findFrom i p l with
  | Some k => i <= k /\ first_at p l (k - i)
  | None => forall x, In x l -> p x = false
  end.
Proof.
  revert i. induction l as [|y l IH]; intros i Hi; cbn [findFrom]; [now intros x []|].
  destruct (p y) eqn:Ey.
  - split; [lia|]. unfold first_at. replace (i - i) with 0 by lia. split; [lia|].
    split; [now exists y|]. lia.
  - specialize (IH (i + 1) ltac:(lia)). destruct (findFrom (i + 1) p l) as [k|].
    + destruct IH as (Hk & H1 & (x & Hx & Hp) & H2). split; [lia|]. split; [lia|]. split.
      * exists x. split; [|done]. replace (Z.to_nat (k - i)) with (S (Z.to_nat (k - (i + 1)))) by lia. done.
      * intros j z Hj. destruct (Z.eq_dec j 0) as [->|]; [now intros [= <-]|].
        replace (Z.to_nat j) with (S (Z.to_nat (j - 1))) by lia. cbn. apply H2. lia.
    + intros x [->|Hx]; [done|]. now apply IH.
Qed.

Lemma findFrom_0 {A} (p : A -> bool) l :
  match findFrom 0 p l with
  | Some k => first_at p l k
  | None => forall x, In x l -> p x = false
  end.
Proof.
  pose proof (findFrom_spec p l 0 ltac:(lia)) as Hf. destruct (findFrom 0 p l) as [k|]; [|done].
  destruct Hf as [_ Hf]. now rewrite Z.sub_0_r in Hf.
Qed.

(** The choice of an arity: the first fixed arity of exactly that many
    arguments; without one, the first variadic arity with no more parameters;
    without either, the first keyword-argument arity that leaves pairs or one
    map; and -1 exactly when no arity takes them. *)
Theorem pickArity_spec (specs : list (arity_spec obj)) argc :
  let none p := forall s, In s specs -> p argc s = false in
  let k := pickArity specs argc in
  first_at (takesFixed argc) specs k \/
  (none takesFixed /\ first_at (takesVariadic argc) specs k) \/
  (none takesFixed /\ none takesVariadic /\ first_at (takesKeywords argc) specs k) \/
  (none takesFixed /\ none takesVariadic /\ none takesKeywords /\ k = -1).
Proof.
  cbv zeta. unfold pickArity.
  pose proof (findFrom_0 (takesFixed argc) specs) as H1.
  pose proof (findFrom_0 (takesVariadic argc) specs) as H2.
  pose proof (findFrom_0 (takesKeywords argc) specs) as H3.
  destruct (findFrom 0 (takesFixed argc) specs); [now left|]. right.
  destruct (findFrom 0 (takesVariadic argc) specs); [now left|]. right.
  destruct (findFrom 0 (takesKeywords argc) specs); [now left|]. now right.
Qed.

(** ** What the VM relies on *)

Class RuntimeLaws : Prop := {
  fn_no_method sub captures : asMethod (VFn sub captures) = None;
  multi_no_method specs : asMethod (VMulti specs) = None;
  null_no_method : asMethod VNull = None;
  method_no_lookup v fn : asMethod v = Some fn -> callsLookup v = false;
  (** a primitive answered without a call answers what the call answers
      ([DirectCalls.directLaws] discharges it for the primitives the code answers so) *)
  fast_sound fn args b self inv w r : fastPrimitiveCall fn args b (heap w) = Some r ->
    callMethod fn self args inv w = (w, Ret r);
}.

Context {Hlaws : RuntimeLaws}.

Context (inv : Invoke (obj := obj) (W := W) (exn := exn))
        (ex : Execute (obj := obj) (W := W) (exn := exn)).

(** ** Binding arguments *)

(** The parameters a call binds. *)
Definition parameters (sub : module) : Z := arity_ sub + (if isVariadic_ sub then 1 else 0).

Lemma invoke_fn sub captures args w : invoke inv ex (VFn sub captures) args w =
  invokeFn inv ex sub (wrapperCaptures sub captures) args w.
Proof. unfold invoke, mbind, action_bind, fastCall. now rewrite fn_no_method. Qed.

(** Binding the arguments of a function without keyword parameters: a number
    of arguments [acceptsArgCount] accepts runs the body, with the arguments bound
    in order, the ones beyond the fixed parameters of a variadic function in one
    list, nil when there are none; any other number raises, and runs nothing; as
    does a function of more than seventeen parameters. *)
Theorem invoke_binds sub captures args w :
  isKwBased_ sub = false -> 0 <= arity_ sub < 2 ^ 31 ->
  let fixed := Z.to_nat (arity_ sub) in
  let bound := take fixed args ++
    (if isVariadic_ sub then
       [if (fixed <? length args)%nat then listFromArray (drop fixed args) else VNone]
     else []) in
  (acceptsArgCount (VFn sub captures) (Z.of_nat (length args)) = true <->
   Z.of_nat (length args) = arity_ sub \/
   (isVariadic_ sub = true /\ arity_ sub <= Z.of_nat (length args))) /\
  if acceptsArgCount (VFn sub captures) (Z.of_nat (length args)) && (parameters sub <=? 17) then
    Z.of_nat (length bound) = parameters sub /\
    invoke inv ex (VFn sub captures) args w =
    ex (mkCall sub bound (wrapperCaptures sub captures) [] VNull) w
  else exists text, invoke inv ex (VFn sub captures) args w = (w, Raise (throwError text)).
Proof.
  intros Hkw Har fixed bound. cbn [acceptsArgCount]. rewrite Hkw. split.
  { destruct (isVariadic_ sub); lia. }
  rewrite invoke_fn. unfold invokeFn, enterFn, parameters. rewrite Hkw.
  unfold mbind, action_bind, raise, mret, action_ret.
  assert (Hp : u32 (arity_ sub + 1) = arity_ sub + 1) by (unfold u32; lia).
  unfold boundArgs.
  assert (Hlt : (fixed <? length args)%nat = (arity_ sub <? Z.of_nat (length args)))
    by (subst fixed; destruct (Nat.ltb_spec (Z.to_nat (arity_ sub)) (length args)); z_cases; lia).
  subst bound. rewrite Hlt. clear Hlt. set (n := Z.of_nat (length args)) in *.
  assert (Hraise : forall (t : bytes), exists text, (w, Raise (throwError t)) =
            (w, Raise (throwError text)) :> world W * outcome (thrown exn) V) by eauto.
  destruct (isVariadic_ sub) eqn:Ev; cbn [negb andb].
  - rewrite Hp. unfold kMaxBoundParameters. destruct (Z.ltb_spec n (arity_ sub)) as [Hn|Hn].
    + destruct (Z.leb_spec (arity_ sub) n); [lia|]. apply Hraise.
    + destruct (Z.leb_spec (arity_ sub) n); [|lia]. cbn [andb].
      destruct (Z.ltb_spec 17 (arity_ sub + 1)), (Z.leb_spec (arity_ sub + 1) 17); try lia;
        [apply Hraise|]. subst n. rewrite Nat2Z.id, firstn_all. split; [|done].
      rewrite length_app, length_take. cbn [length]. lia.
  - destruct (Z.eqb_spec (arity_ sub) n) as [E|E], (Z.eqb_spec n (arity_ sub)); try lia;
      cbn [negb andb]; [|apply Hraise].
    rewrite Z.add_0_r. unfold kMaxBoundParameters.
    destruct (Z.ltb_spec 17 n), (Z.leb_spec (arity_ sub) 17); try lia; [apply Hraise|].
    subst n. rewrite Nat2Z.id, firstn_all.
    assert (Hd : drop fixed args = []) by (apply drop_ge; lia). fold fixed. rewrite Hd, Hkw.
    split; [|done]. rewrite length_app, length_take. cbn [length]. lia.
Qed.

(** A keyword-argument function given pairs after its fixed arguments folds
    them into its map and runs, reading each declared key; [acceptsArgCount]
    answers that it does not take them. *)
Theorem kw_pairs_rejected sub captures args m w w' w'' kwVals :
  isKwBased_ sub = true -> isVariadic_ sub = false -> 0 <= arity_ sub <= 17 ->
  Z.of_nat (length (kwKeys_ sub)) <= 16 ->
  let kv := drop (Z.to_nat (arity_ sub)) args in
  0 < Z.of_nat (length kv) -> Z.of_nat (length kv) mod 2 = 0 ->
  mapAssocPairs None kv inv w = (w', Ret m) ->
  extractKwVals inv sub m w' = (w'', Ret kwVals) ->
  acceptsArgCount (VFn sub captures) (Z.of_nat (length args)) = false /\
  invoke inv ex (VFn sub captures) args w =
  ex (mkCall sub (take (Z.to_nat (arity_ sub)) args) (wrapperCaptures sub captures) kwVals m) w''.
Proof.
  intros Hkw Hv Har Hk kv Hpos Heven Hm Hx.
  set (n := Z.of_nat (length args)).
  assert (Hn : arity_ sub + 1 < n /\ (n - arity_ sub) mod 2 = 0).
  { subst kv n. rewrite length_drop in Hpos, Heven.
    replace (Z.of_nat (length args) - arity_ sub)
      with (Z.of_nat (length args - Z.to_nat (arity_ sub))) by lia. split; [lia|done]. }
  destruct Hn as [Hlt Hmod]. split.
  { cbn [acceptsArgCount]. rewrite Hkw. fold n. lia. }
  rewrite invoke_fn. unfold invokeFn, enterFn. rewrite Hkw, Hv. fold n.
  rewrite (proj2 (Z.ltb_lt (arity_ sub + 1) n) Hlt), Hmod. cbn [andb Z.eqb].
  unfold mbind, action_bind, mret, action_ret. fold kv. rewrite Hm. unfold kMaxBoundParameters.
  rewrite (proj2 (Z.ltb_ge 17 (arity_ sub)) ltac:(lia)).
  rewrite (proj2 (Z.ltb_ge 16 (Z.of_nat (length (kwKeys_ sub)))) ltac:(lia)). rewrite Hx.
  unfold boundArgs. now rewrite Hv, Hkw, app_nil_r, take_take, Nat.min_id.
Qed.

(** ** Slots *)

#[local] Abbreviation fr := (frame (obj := obj) (W := W) (exn := exn)).
#[local] Abbreviation RR := (res (obj := obj) (W := W) (exn := exn)).

Definition slotCount (f : fr) : Z := Z.of_nat (length (slots f)).

Lemma slotAt_store f i v j : 0 <= i < slotCount f -> 0 <= j -> j < 2 ^ 32 -> slotCount f < 2 ^ 32 ->
  slotAt (storeSlot i v f) j = if decide (i = j) then v else slotAt f j.
Proof.
  intros Hi Hj Hj' Hn. unfold slotAt, storeSlot, slotCount in *. cbn [slots set_slots].
  unfold u32. rewrite !Z.mod_small by lia. rewrite !nth_lookup. destruct (decide (i = j)) as [->|Hne].
  - now rewrite list_lookup_insert_eq by lia.
  - now rewrite list_lookup_insert_ne by lia.
Qed.

Lemma slotCount_store i v f : slotCount (storeSlot i v f) = slotCount f.
Proof. unfold slotCount, storeSlot. cbn. now rewrite length_insert. Qed.

(** ** Exceptions and handlers *)

(** The frame has its slots: the locals, the stack's capacity, and no more than
    an [unsigned int] counts. *)
Definition slotted (bmod : module) (f : fr) : Prop :=
  0 <= stackBase bmod /\ stackBase bmod + stackCapacity f <= slotCount f /\ slotCount f < 2 ^ 32.

(** The value a handler finds, and what RETHROW raises of it. *)
Definition handledValue (t : thrown exn) : V :=
  match t with
  | ProtoException e => exnValue e
  | StdException what => exceptionFromError what
  end.

Definition rethrown (t : thrown exn) : thrown exn :=
  match t with
  | ProtoException e => ProtoException e
  | StdException what => ProtoException (clojureThrow (exceptionFromError what))
  end.

Lemma storeCaught_lookup n (l : list (option (thrown exn))) x :
  <[n := x]> (l ++ replicate (S n - length l) None) !! n = Some x.
Proof. apply list_lookup_insert_eq. rewrite length_app, length_replicate. lia. Qed.

(** C38. Exceptions and handlers. Without an active handler an exception leaves
    the frame as it is. With one, the innermost is taken off, the stack is cut to
    its depth at TRY_BEGIN, what was below is untouched, the exception's value is
    on top and control is at the handler's code; STORE_CAUGHT then moves it to the
    catch's slot, and RETHROW of that slot raises the very exception that was
    caught (an error that came as text: the exception value made of it). *)
Theorem caught_rethrown (bmod : module) t f n :
  hasHandlers_ bmod = true -> slotted bmod f -> 0 <= n < stackBase bmod ->
  match handlers f with
  | [] => unwind bmod t f = inr (Ended (Raise t) (env f))
  | h :: hs => 0 <= handlerSp h < stackCapacity f ->
      exists f1 f2, unwind bmod t f = inl f1 /\
        ip f1 = target h /\ handlers f1 = hs /\ env f1 = env f /\ sp f1 = handlerSp h + 1 /\
        slotAt f1 (stackBase bmod + handlerSp h) = handledValue t /\
        (forall j, 0 <= j < stackBase bmod + handlerSp h -> slotAt f1 j = slotAt f j) /\
        step_op inv ex bmod STORE_CAUGHT n f1 = Done None f2 /\
        sp f2 = handlerSp h /\ slotAt f2 n = handledValue t /\
        (forall j, 0 <= j < stackBase bmod + handlerSp h -> j <> n -> slotAt f2 j = slotAt f j) /\
        forall f3, caught f3 = caught f2 -> slotAt f3 n = slotAt f2 n ->
          step_op inv ex bmod RETHROW n f3 = Raised (rethrown t) f3
  end.
Proof.
  intros Hh (Hb0 & Hcap & Hn32) Hn. destruct (handlers f) as [|h hs] eqn:Ehs.
  { unfold unwind. now rewrite Hh, Ehs. }
  intros Hsp. unfold unwind. rewrite Hh, Ehs.
  set (v := handledValue t). set (just := match t with ProtoException _ => Some t | _ => None end).
  replace (match t with ProtoException e => (exnValue e, Some t) | StdException what =>
             (exceptionFromError what, None) end) with (v, just) by now destruct t.
  unfold pushVal. cbn [stackCapacity sp set_sp set_handlers].
  rewrite (proj2 (Z.leb_gt _ _) (proj2 Hsp)).
  set (f0 := set_sp (handlerSp h) (set_handlers hs f)).
  assert (Hc0 : slotCount f0 = slotCount f) by done.
  set (f1 := set_ip _ _). exists f1.
  assert (Hslot1 : forall j, 0 <= j < 2 ^ 32 -> slotAt f1 j =
            if decide (stackBase bmod + handlerSp h = j) then v else slotAt f j).
  { intros j Hj. change (slotAt f1 j) with (slotAt (storeSlot (stackBase bmod + handlerSp h) v f0) j).
    rewrite slotAt_store by lia. done. }
  assert (Hc1 : slotCount f1 = slotCount f).
  { change (slotCount f1) with (slotCount (storeSlot (stackBase bmod + handlerSp h) v f0)).
    now rewrite slotCount_store. }
  assert (Htop : slotAt f1 (stackBase bmod + handlerSp h) = v)
    by (rewrite Hslot1 by lia; now rewrite decide_True).
  cbn [step_op]. rewrite Hh.
  assert (Hu : u32 (handlerSp h + 1 - 1) = handlerSp h) by (unfold u32; lia).
  set (caught2 := <[Z.to_nat n := just]> (caught f ++ replicate (S (Z.to_nat n) - length (caught f)) None)).
  set (f2 := storeSlot n (slotAt f1 (stackBase bmod + handlerSp h))
               (set_sp (handlerSp h) (set_caught caught2 None f1))).
  assert (Hslot2 : forall j, 0 <= j < 2 ^ 32 -> slotAt f2 j = if decide (n = j) then v else slotAt f1 j).
  { intros j Hj. unfold f2. rewrite Htop. rewrite slotAt_store; [done| |lia|lia|].
    - change (0 <= n < slotCount f1). lia.
    - change (slotCount f1 < 2 ^ 32). lia. }
  exists f2. repeat split.
  - exact Htop.
  - intros j Hj. rewrite Hslot1 by lia. now rewrite decide_False by lia.
  - unfold storeCaught, popVal, setLocal, refuse, drop_, modify, gets, mbind, M_bind, mret, M_ret.
    cbn [sp set_caught f1 set_ip set_sp]. rewrite (proj2 (Z.eqb_neq (handlerSp h + 1) 0)) by lia.
    cbn [sp set_sp set_caught set_ip]. change (sp f1) with (handlerSp h + 1). rewrite Hu.
    reflexivity.
  - change (slotAt f2 n = v). rewrite Hslot2 by lia. now rewrite decide_True.
  - intros j Hj Hne. change (slotAt f2 j = slotAt f j). rewrite Hslot2 by lia.
    rewrite decide_False by congruence. rewrite Hslot1 by lia. now rewrite decide_False by lia.
  - intros f3 Hcaught Hslot. unfold step_op. rewrite Hcaught.
    change (caught f2) with caught2. unfold caught2. rewrite storeCaught_lookup.
    unfold just. destruct t as [e|what]; [done|]. rewrite Hslot.
    assert (E2 : slotAt f2 n = v) by (rewrite Hslot2 by lia; now rewrite decide_True).
    change (slotAt (storeSlot n (slotAt f1 (stackBase bmod + handlerSp h))
              (set_sp (handlerSp h) (set_caught caught2 None f1))) n) with (slotAt f2 n).
    now rewrite E2.
Qed.

(** ** The dispatch loop's call is [invoke] *)

(** The calls the VM itself refuses: what [invoke] says of one, and what CALL says. *)
Inductive same_refusal : bytes -> bytes -> Prop :=
| refused_arity (fixed argc : Z) :
    same_refusal (s2b "VM: invoke: fn arity mismatch")
      (s2b "VM: fn arity mismatch (expected " ++ to_string fixed ++ s2b ", got " ++ to_string argc ++ s2b ")")
| refused_variadic (fixed argc : Z) :
    same_refusal (s2b "VM: invoke: variadic underflow")
      (s2b "VM: variadic fn needs at least " ++ to_string fixed ++ s2b " args, got " ++ to_string argc)
| refused_keywords (fixed argc : Z) :
    same_refusal
      (s2b "VM: invoke: kw-based fn expects " ++ to_string fixed ++
       s2b " positionals (+ optional trailing map), got " ++ to_string argc)
      (s2b "VM: kw-based fn expects " ++ to_string fixed ++
       s2b " positionals (+ optional trailing map), got " ++ to_string argc)
| refused_no_arity (argc : Z) :
    same_refusal (s2b "VM: invoke: no matching arity for argc=" ++ to_string argc)
      (s2b "VM: no matching arity for argc=" ++ to_string argc)
| refused_value :
    same_refusal (s2b "VM: invoke: value is not callable") (s2b "VM: value is not callable in CALL").

(** The very same exception, or the VM's refusal of the call worded by each. *)
Inductive same_error : thrown exn -> thrown exn -> Prop :=
| same_exception t : same_error t t
| same_refused a b : same_refusal a b -> same_error (throwError a) (throwError b).
#[local] Hint Constructors same_refusal same_error : core.

Section Dispatch.
Context (bmod : module) (f : fr) (b : Z) (Hb : 0 <= b).

(** [g] is [f] with slots changed only from stack depth [b] on. *)
Record based (g : fr) : Prop := {
  based_handlers : handlers g = handlers f;
  based_ip : ip g = ip f;
  based_capacity : stackCapacity g = stackCapacity f;
  based_slots : slotted bmod g;
  based_below j : 0 <= j < stackBase bmod + b -> slotAt g j = slotAt f j;
}.

(** The call with the callable at depth [b] does to the frame what [o], the
    outcome of an invocation, says: its value replaces the callable and its
    arguments; its exception is raised, in the same world; what C++ does not
    define stays so. *)
Definition answers (o : world W * outcome (thrown exn) V) (r : res unit) : Prop :=
  match o with
  | (w, Ret v) => exists f', r = Done () f' /\ based f' /\ env f' = w /\ sp f' = b + 1 /\
                    slotAt f' (stackBase bmod + b) = v
  | (w, Raise t) => exists t' f', r = Raised t' f' /\ same_error t t' /\ env f' = w
  | (_, NoFuel) => r = Stopped None
  | (_, Defect _) => exists what, r = Stopped (Some what)
  end.

Lemma answers_lift {A} (m : action W exn A) (k : A -> action W exn V) (k' : A -> M unit) g :
  (forall a w, m (env g) = (w, Ret a) -> answers (k a w) (k' a (set_env w g))) ->
  answers ((m ≫= k) (env g)) ((lift m ≫= k') g).
Proof.
  intros Hk. unfold lift, mbind, M_bind, action_bind.
  destruct (m (env g)) as [w [a|t| |what]]; cbn; eauto.
Qed.

Lemma bind_eq {A B} (m : M A) (k : A -> M B) (g : fr) : (m ≫= k) g =
  match m g with
  | Done a g => k a g
  | Raised t g => Raised t g
  | Overrun => Overrun
  | Stopped what => Stopped what
  end.
Proof. reflexivity. Qed.

Lemma ret_eq {A} (a : A) (g : fr) : (mret a : M A) g = Done a g.
Proof. reflexivity. Qed.

Lemma action_ret_eq {A} (a : A) w : (mret a : action W exn A) w = (w, Ret a).
Proof. reflexivity. Qed.

Lemma action_bind_eq {A B} (m : action W exn A) (k : A -> action W exn B) w : (m ≫= k) w =
  match m w with
  | (w, Ret a) => k a w
  | (w, Raise t) => (w, Raise t)
  | (w, NoFuel) => (w, NoFuel)
  | (w, Defect what) => (w, Defect what)
  end.
Proof. reflexivity. Qed.

Lemma action_bind_ret {A} (m : action W exn A) w : (m ≫= mret) w = m w.
Proof. unfold mbind, action_bind, mret, action_ret. now destruct (m w) as [? []]. Qed.

Lemma answers_throw w t t' g : env g = w -> same_error t t' -> answers (w, Raise t) (throw_ t' g).
Proof. intros <- Ht. exists t', g. auto. Qed.

Lemma based_env w g : based g -> based (set_env w g).
Proof. intros []. now split. Qed.

Lemma based_sp s g : based g -> based (set_sp s g).
Proof. intros []. now split. Qed.

Lemma based_store i v g : based g -> stackBase bmod + b <= i < slotCount g -> based (storeSlot i v g).
Proof.
  intros [H1 H2 H3 (S1 & S2 & S3) H5] Hi. split; try done.
  - split; [done|]. rewrite slotCount_store. now split.
  - intros j Hj. rewrite slotAt_store by lia. rewrite decide_False by lia. now apply H5.
Qed.

Lemma clear_spec n i g : based g -> stackBase bmod + b <= i -> i + Z.of_nat n <= slotCount g ->
  based (clearSlots n i g) /\ sp (clearSlots n i g) = sp g /\ env (clearSlots n i g) = env g /\
  slotCount (clearSlots n i g) = slotCount g /\
  (forall j, 0 <= j < i -> slotAt (clearSlots n i g) j = slotAt g j).
Proof.
  revert i g. induction n as [|n IH]; intros i g Hg Hi Hn; [now split|]. cbn [clearSlots].
  assert (Hs : based (storeSlot i VNull g)) by (apply based_store; [done|lia]).
  destruct (IH (i + 1) (storeSlot i VNull g) Hs ltac:(lia) ltac:(rewrite slotCount_store; lia))
    as (B1 & B2 & B3 & B4 & B5).
  split; [done|]. split; [now rewrite B2|]. split; [now rewrite B3|].
  split; [now rewrite B4, slotCount_store|]. intros j Hj.
  destruct (based_slots _ Hg) as (S1 & S2 & S3).
  rewrite B5 by lia. rewrite slotAt_store by lia. now rewrite decide_False by lia.
Qed.

Lemma push_answers v g : based g -> sp g = b -> b < stackCapacity g ->
  answers (env g, Ret v) (pushVal bmod v g).
Proof.
  intros Hg Hs Hc. unfold pushVal. rewrite (proj2 (Z.leb_gt _ _)) by lia. cbn.
  destruct (based_slots _ Hg) as (S1 & S2 & S3). eexists. split; [done|].
  split; [apply based_sp, based_store; [done|lia]|]. split; [done|]. split; [cbn; lia|].
  change (slotAt (storeSlot (stackBase bmod + sp g) v g) (stackBase bmod + b) = v).
  rewrite slotAt_store by lia. rewrite decide_True; [done|lia].
Qed.

(** Dropping the callable and [n] arguments, and pushing the result. *)
Lemma drop_push_answers v n g : based g -> 0 <= n -> sp g = b + 1 + n -> sp g <= stackCapacity g ->
  answers (env g, Ret v) ((_ ← drop_ (n + 1); pushVal bmod v) g).
Proof.
  intros Hg Hn Hs Hc. destruct (based_slots _ Hg) as (S1 & S2 & S3).
  unfold drop_, modify, mbind, M_bind.
  replace (u32 (sp g - (n + 1))) with b by (unfold u32; rewrite Z.mod_small; lia).
  apply (push_answers v (set_sp b g)); [now apply based_sp|done|cbn; lia].
Qed.

(** The arguments on the stack. *)
Definition argsOn (n : Z) (g : fr) : list V :=
  map (fun k => slotAt g (stackBase bmod + sp g - n + Z.of_nat k)) (seq 0 (Z.to_nat n)).

(** The end of a function call: the callee is entered with the arguments. *)
Lemma enter_answers sub captures argc posArgc m args g : based g -> 0 <= posArgc <= argc ->
  sp g = b + 1 + argc -> sp g <= stackCapacity g ->
  take (Z.to_nat posArgc) (argsOn argc g) = take (Z.to_nat posArgc) args ->
  (isKwBased_ sub = false -> m = VNull) ->
  answers (enterFn inv ex sub captures args (posArgc, m) (env g))
    (enterCall inv ex bmod sub captures argc (posArgc, m) g).
Proof.
  intros Hg Hp Hs Hc Hargs Hm. unfold enterFn, enterCall. cbv zeta.
  destruct (kMaxBoundParameters <? _); [now apply answers_throw|].
  unfold topArgs, gets, modify. unfold mbind at 2 3 4, M_bind at 1 2 3.
  fold (argsOn argc g). rewrite Hargs. destruct (based_slots _ Hg) as (S1 & S2 & S3).
  destruct (clear_spec (Z.to_nat posArgc) (stackBase bmod + sp g - argc) g Hg ltac:(lia) ltac:(lia))
    as (B1 & B2 & B3 & B4 & _).
  set (h := clearSlots _ _ g) in *. set (bound := boundArgs sub _).
  assert (Hcall : forall kw h', based h' -> sp h' = b + 1 + argc -> stackCapacity h' = stackCapacity g ->
    answers (ex (mkCall sub bound captures kw m) (env h'))
      ((_ ← drop_ (argc + 1); result ← lift (ex (mkCall sub bound captures kw m));
        pushVal bmod result) h')).
  { intros kw h' Hh' Hs' Hc'. unfold drop_, modify. unfold mbind at 1, M_bind at 1.
    replace (u32 (sp h' - (argc + 1))) with b by (unfold u32; rewrite Z.mod_small; lia).
    rewrite <- (action_bind_ret (ex (mkCall sub bound captures kw m)) (env h')).
    apply (answers_lift _ mret (pushVal bmod) (set_sp b h')). intros v w' _.
    apply (push_answers v (set_env w' (set_sp b h'))); [now apply based_env, based_sp|done|cbn; lia]. }
  rewrite <- B3.
  assert (Hch : stackCapacity h = stackCapacity g)
    by (rewrite (based_capacity _ B1); symmetry; apply (based_capacity _ Hg)).
  destruct (isKwBased_ sub).
  - destruct (16 <? _); [now apply answers_throw|]. apply answers_lift. intros kw w' _.
    apply (Hcall kw (set_env w' h)); [now apply based_env|cbn; lia|done].
  - rewrite (Hm eq_refl) in *. apply Hcall; [done|lia|done].
Qed.

(** ** Folding key/value pairs *)

Lemma assocEach_app n m kv kv' w : length kv = (2 * n)%nat ->
  assocEach m (kv ++ kv') inv w = (m' ← assocEach m kv inv; assocEach m' kv' inv) w.
Proof.
  revert m kv w. induction n as [|n IH]; intros m kv w Hn.
  - now destruct kv.
  - destruct kv as [|k [|v kv]]; cbn [length] in Hn; try lia. cbn [assocEach app].
    rewrite !action_bind_eq. destruct (hashedPut m (orNil k) (orNil v) inv w) as [w' [o|t| |what]]; try done.
    rewrite (IH (VObj o) kv w') by lia. now rewrite action_bind_eq.
Qed.

(** What an association answers is a map to go on from. *)
Lemma assocEach_builder n m kv w w' m' : length kv = (2 * S n)%nat ->
  assocEach m kv inv w = (w', Ret m') -> mapBuilder (Some m') = m'.
Proof.
  revert m kv w. induction n as [|n IH]; intros m kv w Hn;
    (destruct kv as [|k [|v kv]]; cbn [length] in Hn; try lia); cbn [assocEach];
    rewrite action_bind_eq; destruct (hashedPut m (orNil k) (orNil v) inv w) as [w1 [o|t| |what]]; try done.
  - destruct kv; [|cbn in Hn; lia]. now intros [= <- <-].
  - apply IH. lia.
Qed.

(** Pairs added in two steps. *)
Lemma assoc_app base kv kv' w : 0 < Z.of_nat (length kv) -> Z.of_nat (length kv) mod 2 = 0 ->
  Z.of_nat (length kv') mod 2 = 0 ->
  mapAssocPairs base (kv ++ kv') inv w =
  (m ← mapAssocPairs base kv inv; mapAssocPairs (Some m) kv' inv) w.
Proof.
  intros Hpos Hev Hev'.
  assert (Hn : exists n, length kv = (2 * S n)%nat) by (exists (Z.to_nat (Z.of_nat (length kv) / 2 - 1)); lia).
  destruct Hn as [n Hn]. rewrite action_bind_eq. unfold mapAssocPairs.
  rewrite length_app, Nat2Z.inj_add, Zplus_mod, Hev, Hev'. change (negb ((0 + 0) mod 2 =? 0)) with false. cbn [negb Z.eqb].
  rewrite (assocEach_app (S n)) by done. rewrite action_bind_eq.
  destruct (assocEach _ kv inv w) as [w' [m|t| |what]] eqn:Em; try done.
  now rewrite (assocEach_builder n _ kv w w' m Hn Em).
Qed.

(** [r] is what [o] says, going on as [k] with the value and the world. *)
Definition follows {A} (o : world W * outcome (thrown exn) V) (k : V -> world W -> RR A)
    (r : RR A) : Prop :=
  match o with
  | (w, Ret v) => r = k v w
  | (w, Raise t) => exists f' : fr, r = Raised t f' /\ env f' = w
  | (_, NoFuel) => r = Stopped None
  | (_, Defect what) => r = Stopped (Some what)
  end.

Definition slotRange (i n : Z) (g : fr) : list V :=
  map (fun k => slotAt g (i + Z.of_nat k)) (seq 0 (Z.to_nat n)).

Lemma slotRange_ext i n g h : (forall j, i <= j < i + n -> slotAt g j = slotAt h j) ->
  slotRange i n g = slotRange i n h.
Proof. intros Hj. apply map_ext_in. intros k Hk%in_seq. apply Hj. lia. Qed.

Lemma slotRange_app i n n' g : 0 <= n -> 0 <= n' ->
  slotRange i (n + n') g = slotRange i n g ++ slotRange (i + n) n' g.
Proof.
  intros Hn Hn'. unfold slotRange. rewrite Z2Nat.inj_add by done. rewrite seq_app, map_app. f_equal.
  replace (seq (0 + Z.to_nat n) (Z.to_nat n'))
    with (Nat.add (Z.to_nat n) <$> seq 0 (Z.to_nat n')) by (rewrite fmap_add_seq; f_equal; lia).
  change (Nat.add (Z.to_nat n) <$> seq 0 (Z.to_nat n'))
    with (map (Nat.add (Z.to_nat n)) (seq 0 (Z.to_nat n'))).
  rewrite map_map. apply map_ext. intros k. f_equal. lia.
Qed.

Lemma slotRange_length i n g : 0 <= n -> Z.of_nat (length (slotRange i n g)) = n.
Proof. intros Hn. unfold slotRange. rewrite length_map, length_seq. lia. Qed.

Lemma store_store i (v v' : V) w w' (g : fr) :
  storeSlot i v' (set_env w' (storeSlot i v (set_env w g))) = storeSlot i v' (set_env w' g).
Proof. unfold storeSlot, set_slots, set_env. cbn. now rewrite list_insert_insert_eq. Qed.

Lemma foldChunks_spec fuel start sofar kv base g : 0 <= start -> 0 <= sofar < kv ->
  (kv - sofar) mod 2 = 0 -> kv - sofar <= Z.of_nat fuel -> start + kv <= slotCount g < 2 ^ 32 ->
  follows (mapAssocPairs base (slotRange (start + sofar) (kv - sofar) g) inv (env g))
    (fun m w => Done (Some m) (storeSlot start m (set_env w g)))
    (foldChunks inv fuel start sofar kv base g).
Proof.
  intros Hst. revert sofar base g. induction fuel as [|fuel IH]; intros sofar base g Hs Hev Hf Hn; [lia|].
  cbn [foldChunks]. rewrite (proj2 (Z.ltb_lt _ _)) by lia.
  set (items := Z.min kChunkItems (kv - sofar)).
  change (follows (mapAssocPairs base (slotRange (start + sofar) (kv - sofar) g) inv (env g))
    (fun m w => Done (Some m) (storeSlot start m (set_env w g)))
    ((m ← lift (mapAssocPairs base (slotRange (start + sofar) items g) inv);
      _ ← setLocal start m; foldChunks inv fuel start (sofar + kChunkItems) kv (Some m)) g)).
  destruct (Z.le_gt_cases (kv - sofar) kChunkItems) as [Hle|Hgt].
  - replace items with (kv - sofar) by lia.
    unfold lift, mbind, M_bind.
    destruct (mapAssocPairs base _ inv (env g)) as [w [m|t| |what]]; cbn; [|eauto|done|done].
    destruct fuel as [|fuel]; [done|]. cbn [foldChunks].
    now rewrite (proj2 (Z.ltb_ge _ _)) by lia.
  - replace items with 256 by (unfold kChunkItems in *; lia). unfold kChunkItems in *.
    replace (kv - sofar) with (256 + (kv - (sofar + 256))) by lia.
    rewrite slotRange_app by lia. rewrite assoc_app by (rewrite slotRange_length by lia; now try lia).
    replace (start + sofar + 256) with (start + (sofar + 256)) by lia.
    unfold lift, mbind, M_bind, action_bind.
    destruct (mapAssocPairs base _ inv (env g)) as [w [m|t| |what]]; cbn [follows]; [|eauto|done|done].
    unfold setLocal, modify. set (h := storeSlot start m (set_env w g)).
    pose proof (IH (sofar + 256) (Some m) h ltac:(lia) ltac:(lia) ltac:(lia)
                  ltac:(subst h; rewrite slotCount_store; exact Hn)) as Hh.
    change (env h) with w in Hh.
    rewrite (slotRange_ext _ _ h g) in Hh.
    + unfold follows in *. destruct (mapAssocPairs (Some m) _ inv w) as [w' [m'|t| |what]]; try exact Hh.
      rewrite Hh. subst h. now rewrite store_store.
    + intros j Hj. subst h. rewrite slotAt_store; [|change (0 <= start < slotCount g); lia|lia|lia|exact (proj2 Hn)].
      rewrite decide_False by lia. done.
Qed.

Lemma foldPairs_spec start kv g : 0 <= start -> 0 < kv -> kv mod 2 = 0 ->
  start + kv <= slotCount g < 2 ^ 32 ->
  follows (mapAssocPairs None (slotRange start kv g) inv (env g))
    (fun m w => Done m (storeSlot start m (set_env w g)))
    (foldKeywordPairs inv start kv g).
Proof.
  intros Hst Hkv Hev Hn.
  pose proof (foldChunks_spec (Z.to_nat kv) start 0 kv None g Hst ltac:(lia)
                ltac:(now rewrite Z.sub_0_r) ltac:(lia) Hn) as Hf.
  rewrite Z.add_0_r, Z.sub_0_r in Hf. unfold foldKeywordPairs, mbind, M_bind, follows in *.
  destruct (mapAssocPairs None _ inv (env g)) as [w [m|t| |what]].
  - now rewrite Hf.
  - destruct Hf as (f' & Hf & He). rewrite Hf. eauto.
  - now rewrite Hf.
  - now rewrite Hf.
Qed.

(** ** Function calls *)

Lemma argsOn_range n g : argsOn n g = slotRange (stackBase bmod + sp g - n) n g.
Proof. reflexivity. Qed.

Lemma argsOn_length n g : 0 <= n -> Z.of_nat (length (argsOn n g)) = n.
Proof. intros. now rewrite argsOn_range, slotRange_length. Qed.

Lemma take_slotRange i n k g : 0 <= k <= n ->
  take (Z.to_nat k) (slotRange i n g) = slotRange i k g.
Proof.
  intros Hk. replace n with (k + (n - k)) by lia. rewrite slotRange_app by lia.
  pose proof (slotRange_length i k g ltac:(lia)) as Hl.
  rewrite take_app_le by lia. apply take_ge. lia.
Qed.

Lemma drop_slotRange i n k g : 0 <= k <= n ->
  drop (Z.to_nat k) (slotRange i n g) = slotRange (i + k) (n - k) g.
Proof.
  intros Hk. replace n with (k + (n - k)) at 1 by lia. rewrite slotRange_app by lia.
  pose proof (slotRange_length i k g ltac:(lia)) as Hl.
  rewrite drop_app_ge by lia. now replace (Z.to_nat k - length (slotRange i k g))%nat with 0%nat by lia.
Qed.

Lemma slotRange_last i n g : 0 < n -> nth (Z.to_nat (n - 1)) (slotRange i n g) VNull = slotAt g (i + n - 1).
Proof.
  intros Hn. replace n with (n - 1 + 1) at 2 by lia. rewrite slotRange_app by lia.
  pose proof (slotRange_length i (n - 1) g ltac:(lia)) as Hl.
  rewrite app_nth2 by lia. replace (Z.to_nat (n - 1) - length (slotRange i (n - 1) g))%nat with 0%nat by lia.
  unfold slotRange. change (seq 0 (Z.to_nat 1)) with [0%nat]. cbn [map nth]. f_equal. lia.
Qed.


Lemma positional_answers sub captures argc g : based g -> 0 <= argc < 2 ^ 31 ->
  sp g = b + 1 + argc -> sp g <= stackCapacity g ->
  isKwBased_ sub = false ->
  answers (invokeFn inv ex sub captures (argsOn argc g) (env g))
    (dispatchFn inv ex bmod sub captures argc g).
Proof.
  intros Hg Ha Hs Hc Hk. unfold invokeFn, dispatchFn, foldExtraPairs, countArgs. rewrite Hk.
  rewrite argsOn_length by lia. cbn [andb]. cbv zeta.
  unfold mbind, M_bind, action_bind, mret, M_ret, action_ret.
  destruct (negb (isVariadic_ sub) && negb (arity_ sub =? argc)); [now refine (answers_throw _ _ _ g eq_refl _); auto|].
  destruct (isVariadic_ sub && (argc <? arity_ sub)); [now refine (answers_throw _ _ _ g eq_refl _); auto|].
  now apply enter_answers.
Qed.

(** The pairs of a keyword-argument call folded into one map: the stack then holds
    the fixed arguments and the map. *)
Lemma foldExtra_spec sub argc g : based g -> argc < 2 ^ 31 ->
  sp g = b + 1 + argc -> sp g <= stackCapacity g ->
  isKwBased_ sub = true -> 0 <= arity_ sub -> arity_ sub + 1 < argc ->
  (argc - arity_ sub) mod 2 = 0 ->
  let kv := argc - arity_ sub in
  let start := stackBase bmod + sp g - kv in
  follows (mapAssocPairs None (drop (Z.to_nat (arity_ sub)) (argsOn argc g)) inv (env g))
    (fun m w => Done (arity_ sub + 1)
       (set_sp (sp g - (kv - 1))
          (clearSlots (Z.to_nat (kv - 1)) (start + 1) (storeSlot start m (set_env w g)))))
    (foldExtraPairs inv bmod sub argc g).
Proof.
  intros Hg Ha Hs Hc Hk Hf Hlt Hev kv start. destruct (based_slots _ Hg) as (S1 & S2 & S3).
  unfold foldExtraPairs. rewrite Hk.
  replace (u32 (arity_ sub + 1)) with (arity_ sub + 1) by (unfold u32; lia).
  replace (u32 (argc - arity_ sub)) with kv by (unfold u32; lia).
  rewrite (proj2 (Z.ltb_lt _ _) Hlt). fold kv in Hev. rewrite Hev. cbn [andb Z.eqb].
  rewrite argsOn_range, drop_slotRange by lia.
  replace (stackBase bmod + sp g - argc + arity_ sub) with start by lia. fold kv.
  pose proof (foldPairs_spec start kv g ltac:(lia) ltac:(lia) Hev ltac:(lia)) as Hfold.
  cbv zeta. rewrite bind_eq. unfold gets at 1. fold start. rewrite bind_eq. unfold follows in *.
  destruct (mapAssocPairs None (slotRange start kv g) inv (env g)) as [w [m|t| |what]].
  - rewrite Hfold. rewrite bind_eq. unfold modify. rewrite bind_eq. unfold drop_, modify.
    set (h := storeSlot start m (set_env w g)).
    assert (Hh : based h) by (apply based_store; [now apply based_env|change (slotCount _) with (slotCount g); lia]).
    destruct (clear_spec (Z.to_nat (kv - 1)) (start + 1) h Hh ltac:(lia)
                ltac:(subst h; rewrite slotCount_store; change (slotCount _) with (slotCount g); lia))
      as (_ & B2 & _).
    rewrite B2. change (sp h) with (sp g).
    now replace (u32 (sp g - (kv - 1))) with (sp g - (kv - 1)) by (unfold u32; rewrite Z.mod_small; lia).
  - destruct Hfold as (f' & Hfold & He). rewrite Hfold. eauto.
  - now rewrite Hfold.
  - now rewrite Hfold.
Qed.

Lemma keyword_answers sub captures argc g : based g -> 0 <= argc < 2 ^ 31 ->
  sp g = b + 1 + argc -> sp g <= stackCapacity g ->
  isKwBased_ sub = true -> 0 <= arity_ sub < 2 ^ 31 ->
  answers (invokeFn inv ex sub captures (argsOn argc g) (env g))
    (dispatchFn inv ex bmod sub captures argc g).
Proof.
  intros Hg Ha Hs Hc Hk Hf.
  destruct (based_slots _ Hg) as (S1 & S2 & S3).
  assert (Hu : u32 (arity_ sub + 1) = arity_ sub + 1) by (unfold u32; lia).
  unfold invokeFn, dispatchFn. rewrite Hk. rewrite argsOn_length by lia. cbv zeta.
  destruct ((arity_ sub + 1 <? argc) && ((argc - arity_ sub) mod 2 =? 0)) eqn:Epairs.
  - apply andb_prop in Epairs as [Elt%Z.ltb_lt Eev%Z.eqb_eq].
    pose proof (foldExtra_spec sub argc g Hg ltac:(lia) Hs Hc Hk ltac:(lia) Elt Eev) as Hfold.
    cbv zeta in Hfold. set (kv := argc - arity_ sub) in *.
    set (start := stackBase bmod + sp g - kv) in *.
    rewrite !action_bind_eq, bind_eq. unfold follows in Hfold.
    destruct (mapAssocPairs None _ inv (env g)) as [w [m|t| |what]].
    + rewrite Hfold. set (h0 := storeSlot start m (set_env w g)) in *.
      assert (Hn0 : slotCount h0 = slotCount g).
      { subst h0. rewrite slotCount_store. done. }
      assert (Hh : based h0) by (apply based_store; [now apply based_env|change (slotCount _) with (slotCount g); lia]).
      destruct (clear_spec (Z.to_nat (kv - 1)) (start + 1) h0 Hh ltac:(lia) ltac:(lia))
        as (B1 & B2 & B3 & B4 & B5).
      set (h1 := clearSlots (Z.to_nat (kv - 1)) (start + 1) h0) in *.
      set (h := set_sp (sp g - (kv - 1)) h1).
      assert (Hslot : forall j, 0 <= j <= start -> slotAt h j = if decide (start = j) then m else slotAt g j).
      { intros j Hj. change (slotAt h j) with (slotAt h1 j). rewrite B5 by lia. subst h0.
        rewrite slotAt_store; [done|change (slotCount _) with (slotCount g); lia|lia|lia|done]. }
      rewrite bind_eq. unfold countArgs. rewrite Hk, Z.eqb_refl. rewrite bind_eq.
      unfold peekAt, gets. change (sp h) with (sp g - (kv - 1)).
      replace (stackBase bmod + (sp g - (kv - 1)) - 1 - 0) with start by lia.
      rewrite Hslot by lia. rewrite decide_True by done.
      replace (u32 (arity_ sub + 1 - 1)) with (arity_ sub) by (unfold u32; lia).
      change w with (env (set_env w g)). change (env (set_env w g)) with (env h0). rewrite <- B3.
      apply (enter_answers sub captures (arity_ sub + 1) (arity_ sub) m (argsOn argc g) h);
        [now apply based_sp|lia|cbn; lia|..].
      * change (stackCapacity h) with (stackCapacity h1). rewrite (based_capacity _ B1), <- (based_capacity _ Hg).
        cbn. lia.
      * rewrite !argsOn_range, !take_slotRange by lia. change (sp h) with (sp g - (kv - 1)).
        replace (stackBase bmod + (sp g - (kv - 1)) - (arity_ sub + 1))
          with (stackBase bmod + sp g - argc) by lia.
        apply slotRange_ext. intros j Hj. rewrite Hslot by lia. now rewrite decide_False by lia.
      * congruence.
    + destruct Hfold as (f' & Hfold & He). rewrite Hfold. cbn. eauto.
    + now rewrite Hfold.
    + rewrite Hfold. cbn. eauto.
  - replace (foldExtraPairs inv bmod sub argc) with (mret argc : M (obj := obj) (W := W) (exn := exn) Z).
    2:{ unfold foldExtraPairs. rewrite Hk, Hu. destruct (Z.ltb_spec (arity_ sub + 1) argc); [|done].
        replace (u32 (argc - arity_ sub)) with (argc - arity_ sub) by (unfold u32; lia).
        cbn [andb] in *. now rewrite Epairs. }
    rewrite bind_eq, ret_eq.
    rewrite action_bind_eq, bind_eq.
    unfold countArgs. rewrite Hk. cbv zeta.
    destruct (Z.eqb_spec argc (arity_ sub + 1)) as [E|E].
    + rewrite action_ret_eq, bind_eq. unfold peekAt, gets. rewrite ret_eq.
      replace (u32 (argc - 1)) with (argc - 1) by (unfold u32; lia).
      rewrite argsOn_range, slotRange_last by lia.
      replace (stackBase bmod + sp g - argc + argc - 1) with (stackBase bmod + sp g - 1 - 0) by lia.
      rewrite <- argsOn_range. apply enter_answers; [done|lia|done|done|done|congruence].
    + destruct (argc =? arity_ sub); cbn [negb].
      * apply enter_answers; [done|lia|done|done|done|congruence].
      * apply answers_throw; auto.
Qed.

Lemma fn_answers sub captures argc g : based g -> 0 <= argc < 2 ^ 31 ->
  sp g = b + 1 + argc -> sp g <= stackCapacity g -> 0 <= arity_ sub < 2 ^ 31 ->
  answers (invokeFn inv ex sub captures (argsOn argc g) (env g))
    (dispatchFn inv ex bmod sub captures argc g).
Proof.
  intros. destruct (isKwBased_ sub) eqn:Ek; [now apply keyword_answers|now apply positional_answers].
Qed.

(** The result of a call that left the arguments on the stack. *)
Lemma result_answers v argc g : based g -> 0 <= argc -> sp g = b + 1 + argc ->
  sp g <= stackCapacity g ->
  answers (env g, Ret v)
    ((_ ← modify (fun f => clearSlots (Z.to_nat argc) (stackBase bmod + sp f - argc) f);
      _ ← drop_ (argc + 1); pushVal bmod v) g).
Proof.
  intros Hg Ha Hs Hc. destruct (based_slots _ Hg) as (S1 & S2 & S3). rewrite bind_eq. unfold modify at 1.
  destruct (clear_spec (Z.to_nat argc) (stackBase bmod + sp g - argc) g Hg ltac:(lia) ltac:(lia))
    as (B1 & B2 & B3 & B4 & _).
  rewrite <- B3. apply drop_push_answers; [done|lia|lia|].
  rewrite B2, (based_capacity _ B1), <- (based_capacity _ Hg). done.
Qed.

Lemma lookup_answers (m : action W exn V) argc g : based g -> 0 <= argc -> sp g = b + 1 + argc ->
  sp g <= stackCapacity g ->
  answers (m (env g)) ((result ← lift m; _ ← drop_ (argc + 1); pushVal bmod result) g).
Proof.
  intros Hg Ha Hs Hc. rewrite <- (action_bind_ret m). apply answers_lift. intros v w _.
  apply (drop_push_answers v argc (set_env w g)); [now apply based_env|done|cbn; lia|cbn; lia].
Qed.

Lemma method_answers (m : action W exn V) argc g : based g -> 0 <= argc -> sp g = b + 1 + argc ->
  sp g <= stackCapacity g ->
  answers (m (env g)) ((result ← lift m;
    _ ← modify (fun f => clearSlots (Z.to_nat argc) (stackBase bmod + sp f - argc) f);
    _ ← drop_ (argc + 1); pushVal bmod result) g).
Proof.
  intros Hg Ha Hs Hc. rewrite <- (action_bind_ret m). apply answers_lift. intros v w _.
  apply (result_answers v argc (set_env w g)); [now apply based_env|done|cbn; lia|cbn; lia].
Qed.

End Dispatch.

Lemma set_env_id (f : fr) : set_env (env f) f = f.
Proof. now destruct f. Qed.

(** The arities of the functions [v] is are [int]s that are not negative. *)
Definition callee_ok (v : V) : Prop :=
  match v with
  | VFn sub _ => 0 <= arity_ sub < 2 ^ 31
  | VMulti specs => Forall (fun s => 0 <= arity_ (specModule s) < 2 ^ 31) specs
  | _ => True
  end.

(** C5. The dispatch loop calls as [invoke] does: with a callable and its
    arguments on the stack, CALL answers what [invoke] of that callable with those
    arguments answers, in the same world; the value takes the callable's place,
    and what is below is untouched. An exception of the callee, of a native, of an
    argument's lookup or of folding the keyword pairs is the very same exception;
    where the VM itself refuses the call (the number of arguments, or a value that
    cannot be called) both refuse it, each in its own words. Undefined stays
    undefined. Keyword pairs are folded in pieces by the one and at once by the
    other: it does not show. A primitive may be answered without a call by either;
    that this does not show either is the hypothesis [fast_sound], which
    [DirectCalls.directLaws] discharges for the primitives of [fastPrimitiveCall]. *)
Theorem dispatch_is_invoke (bmod : module) argc f :
  slotted bmod f -> 0 <= argc < 2 ^ 31 -> argc + 1 <= sp f <= stackCapacity f ->
  let b := sp f - argc - 1 in
  let callable := slotAt f (stackBase bmod + b) in
  callee_ok callable ->
  answers bmod f b (invoke inv ex callable (argsOn bmod argc f) (env f))
    (dispatchCall inv ex bmod argc f).
Proof.
  intros Hf Ha Hs b callable Hok.
  assert (Hg : based bmod f b f) by now split.
  assert (Hb : 0 <= b) by lia. assert (Hsp : sp f = b + 1 + argc) by lia.
  unfold dispatchCall. rewrite bind_eq. unfold peekAt at 1, gets at 1.
  replace (stackBase bmod + sp f - 1 - argc) with (stackBase bmod + b) by lia. fold callable.
  rewrite bind_eq. unfold topArgs, gets at 1. fold (argsOn bmod argc f).
  set (args := argsOn bmod argc f).
  unfold invoke. rewrite action_bind_eq, bind_eq. unfold fastCall, lift at 1.
  destruct (asMethod callable) as [fn|] eqn:Em.
  - pose proof (method_no_lookup _ _ Em) as Hl.
    assert (Hcall : forall r, (exists c, fastPrimitiveCall fn args c (heap (env f)) = Some r) ->
      callMethod fn (asMethodSelf callable) args inv (env f) = (env f, Ret r)).
    { intros r [c Hc]. exact (fast_sound fn args c _ inv (env f) r Hc). }
    assert (Hobj : match callable with VNull | VFn _ _ | VMulti _ => False | _ => True end).
    { destruct callable; try done; [rewrite null_no_method in Em|rewrite fn_no_method in Em
        |rewrite multi_no_method in Em]; discriminate. }
    rewrite set_env_id. pose proof (method_answers bmod f b Hb (callMethod fn (asMethodSelf callable) args inv)
      argc f Hg ltac:(lia) Hsp ltac:(lia)) as Hmeth.
    pose proof (fun v => result_answers bmod f b Hb v argc f Hg ltac:(lia) Hsp ltac:(lia)) as Hres.
    assert (Hleft : forall r, fastPrimitiveCall fn args false (heap (env f)) = Some r ->
      callMethod fn (asMethodSelf callable) args inv (env f) = (env f, Ret r)) by eauto.
    assert (Hright : forall r, fastPrimitiveCall fn args true (heap (env f)) = Some r ->
      callMethod fn (asMethodSelf callable) args inv (env f) = (env f, Ret r)) by eauto.
    match goal with |- answers _ _ _ ?L _ =>
      assert (HL : L = callMethod fn (asMethodSelf callable) args inv (env f)) end.
    { destruct (fastPrimitiveCall fn args false (heap (env f))) as [r|];
        [rewrite action_ret_eq; symmetry; now apply Hleft|].
      destruct callable; try contradiction Hobj; now rewrite Hl. }
    rewrite HL. destruct (fastPrimitiveCall fn args true (heap (env f))) as [r|].
    + rewrite (Hright r eq_refl). apply Hres.
    + destruct callable; try contradiction Hobj; rewrite Hl; exact Hmeth.
  - rewrite set_env_id. assert (Hlen : Z.of_nat (length args) = argc) by (apply argsOn_length; lia).
    rewrite Hlen.
    pose proof (fun sub captures Hsub => fn_answers bmod f b Hb sub captures argc f Hg Ha Hsp ltac:(lia) Hsub) as Hfn.
    pose proof (fun m => lookup_answers bmod f b Hb m argc f Hg ltac:(lia) Hsp ltac:(lia)) as Hlook.
    assert (Hrest : answers bmod f b
      ((if callsLookup callable then callLookup inv callable (negb (isNamedValue callable)) args
        else if isVector callable then ofSum (callVector callable args)
        else raise (throwError (s2b "VM: invoke: value is not callable"))) (env f))
      ((if callsLookup callable then
          result ← lift (callLookup inv callable (negb (isNamedValue callable)) args);
          _ ← drop_ (argc + 1); pushVal bmod result
        else if isVector callable then
          result ← fromSum (callVector callable args); _ ← drop_ (argc + 1); pushVal bmod result
        else error "VM: value is not callable in CALL") f)).
    { destruct (callsLookup callable); [apply Hlook|]. destruct (isVector callable); [|apply answers_throw; auto].
      destruct (callVector callable args) as [v|t]; [|apply answers_throw; auto].
      exact (drop_push_answers bmod f b Hb v argc f Hg ltac:(lia) Hsp ltac:(lia)). }
    destruct callable as [| | | |sub captures|specs|o]; try exact Hrest.
    + cbn. eauto.
    + now apply Hfn.
    + destruct (pickArity specs argc <? 0); [apply answers_throw; auto|].
      destruct (specs !! Z.to_nat (pickArity specs argc)) as [s|] eqn:Es.
      * apply Hfn. cbn in Hok. rewrite List.Forall_forall in Hok. apply Hok, list_elem_of_In.
        now apply list_elem_of_lookup_2 in Es.
      * cbn. eauto.
Qed.

(** ** Redefined operators *)

Class GlobalLaws : Prop := {
  symbol_inj s s' : createSymbol s = createSymbol s' -> s = s';
  store_same k v (w : W) : globalAt k (setGlobal k v w) = Some v;
  store_other k k' v (w : W) : k' <> k -> globalAt k' (setGlobal k v w) = globalAt k' w;
  same_object a b : sameObject a b = true -> a = b;
}.

Definition global (name : bytes) (w : world W) : option V := globalAt (createSymbol name) (heap w).

Definition coreName (name : bytes) : bytes := s2b "clojure.core/" ++ name.

(** While an operator's bit is clear, its global is clojure.core's. *)
Definition coherent (w : world W) : Prop := forall i n, kCoreOperatorNames !! i = Some n ->
  Z.testbit (g_coreOperatorRedefined w) (Z.of_nat i) = false ->
  global (s2b n) w = global (coreName (s2b n)) w.

Lemma operator_names_nodup : NoDup (map s2b kCoreOperatorNames).
Proof. apply (bool_decide_eq_true_1 _). vm_compute. reflexivity. Qed.

Lemma noteFrom_spec k names name v w : 0 <= k ->
  heap (noteFrom k names name v w) = heap w /\
  (forall i n, names !! i = Some n -> NoDup (map s2b names) ->
     Z.testbit (g_coreOperatorRedefined (noteFrom k names name v w)) (k + Z.of_nat i) =
     if decide (name = s2b n) then negb (sameGlobal v (globalAt (createSymbol (coreName name)) (heap w)))
     else Z.testbit (g_coreOperatorRedefined w) (k + Z.of_nat i)).
Proof.
  revert k. induction names as [|n0 names IH]; intros k Hk; [split; [done|intros i n Hi; discriminate Hi]|].
  cbn [noteFrom]. case_bool_decide as E0.
  - split; [now destruct (sameGlobal _ _)|]. intros i n Hi Hnd. cbn [map] in Hnd.
    apply NoDup_cons in Hnd as [Hnin _]. cbn [heap g_coreOperatorRedefined]. fold (coreName name).
    destruct i as [|i]; cbn in Hi.
    + injection Hi as ->. rewrite decide_True by done. replace (k + Z.of_nat 0) with k by lia.
      destruct (sameGlobal _ _); [now rewrite Z.clearbit_eq|now rewrite Z.setbit_eq by lia].
    + assert (Hne : name <> s2b n).
      { intros E. apply Hnin. rewrite <- E0, E. apply list_elem_of_In, in_map.
        apply list_elem_of_In. now apply list_elem_of_lookup_2 in Hi. }
      rewrite decide_False by done.
      destruct (sameGlobal _ _); [apply Z.clearbit_neq; lia|apply Z.setbit_neq; lia].
  - destruct (IH (k + 1) ltac:(lia)) as [Hh Hb]. split; [exact Hh|]. intros i n Hi Hnd.
    destruct i as [|i]; cbn in Hi.
    + injection Hi as <-. rewrite decide_False by done.
      apply NoDup_cons in Hnd as [Hnin Hnd]. revert Hh Hb. clear -Hk. intros _ _.
      replace (k + Z.of_nat 0) with k by lia.
      assert (Hlow : forall names j, 0 <= k < j ->
        Z.testbit (g_coreOperatorRedefined (noteFrom j names name v w)) k =
        Z.testbit (g_coreOperatorRedefined w) k).
      { clear. induction names as [|n names IH]; intros j Hj; [done|]. cbn [noteFrom].
        case_bool_decide; [|apply IH; lia]. cbn [g_coreOperatorRedefined].
        destruct (sameGlobal _ _); [apply Z.clearbit_neq; lia|].
        apply Z.setbit_neq; lia. }
      apply Hlow. lia.
    + apply NoDup_cons in Hnd as [_ Hnd].
      replace (k + Z.of_nat (S i)) with (k + 1 + Z.of_nat i) by lia. now apply Hb.
Qed.

Lemma operator_short i n : kCoreOperatorNames !! i = Some n -> Z.of_nat (length (s2b n)) <= 2.
Proof. do 8 (destruct i as [|i]; [intros [= <-]; vm_compute; discriminate|]). done. Qed.

Lemma coreName_long name : 13 <= Z.of_nat (length (coreName name)).
Proof. unfold coreName. rewrite length_app. change (length (s2b "clojure.core/")) with 13%nat. lia. Qed.

(** Redefined operators: STORE_GLOBAL keeps the bits in step with the globals
    (an operator whose bit is clear has clojure.core's value), as long as the
    clojure.core names themselves are not stored to; so an operator opcode that
    did not name clojure.core either calls the value its global has, or the
    global is clojure.core's operator, or it has none and the opcode raises; one
    that named clojure.core computes. *)
Theorem operators_redefined `{!GlobalLaws} op operand name v w :
  isArith op || bool_decide (op ∈ [LT; LE; GT; GE; EQ]) = true ->
  coherent w -> (forall n, In n kCoreOperatorNames -> name <> coreName (s2b n)) ->
  coherent (storeName (createSymbol name) name v w) /\
  match redefinedOperator op operand w with
  | (w', Ret (Some f)) => w' = w /\ Z.odd operand = false /\ global (binaryOpName op) w = Some f
  | (w', Ret None) => w' = w /\ (Z.odd operand = true \/
      global (binaryOpName op) w = global (coreName (binaryOpName op)) w)
  | (w', Raise _) => w' = w /\ Z.odd operand = false /\ global (binaryOpName op) w = None
  | _ => False
  end.
Proof.
  intros Hop Hc Hname. split.
  - intros i n Hi Hbit. unfold storeName in *.
    set (w1 := mkWorld (setGlobal (createSymbol name) v (heap w)) (g_coreOperatorRedefined w)) in *.
    pose proof (noteFrom_spec 0 kCoreOperatorNames name v w1 ltac:(lia)) as [Hh Hb].
    assert (Hglob : forall m w', heap w' = heap w1 -> global m w' =
              if decide (m = name) then Some v else global m w).
    { intros m w' Hw'. unfold global. rewrite Hw'. cbn. destruct (decide (m = name)) as [->|Hne].
      - apply store_same.
      - apply store_other. intros E. apply Hne. now apply symbol_inj. }
    assert (Hcore : coreName (s2b n) <> name).
    { intros E. apply (Hname n); [|done]. apply list_elem_of_In. now apply list_elem_of_lookup_2 in Hi. }
    specialize (Hb i n Hi operator_names_nodup). rewrite Z.add_0_l in Hb.
    unfold noteGlobalStore in *. pose proof (operator_short i n Hi) as Hshort.
    destruct (Z.leb_spec (Z.of_nat (length name)) 2) as [Hle|Hgt].
    + rewrite (Hglob (s2b n)), (Hglob (coreName (s2b n))) by done. destruct (decide (coreName (s2b n) = name)) as [?|_]; [done|].
      rewrite Hb in Hbit. destruct (decide (s2b n = name)) as [E|E].
      * rewrite decide_True in Hbit by done. apply negb_false_iff in Hbit.
        change (globalAt (createSymbol (coreName name)) (heap w1)) with (global (coreName name) w1) in Hbit.
        rewrite Hglob in Hbit by done. rewrite <- E in Hbit.
        destruct (decide (coreName (s2b n) = s2b n)) as [?|_]; [congruence|].
        unfold sameGlobal in Hbit. destruct (global (coreName (s2b n)) w) as [core|]; [|done].
        f_equal. now apply same_object.
      * rewrite decide_False in Hbit by congruence. now apply (Hc i).
    + rewrite (Hglob (s2b n)), (Hglob (coreName (s2b n))) by done.
      destruct (decide (coreName (s2b n) = name)) as [?|_]; [done|].
      rewrite decide_False by (intros E; rewrite <- E in Hgt; lia).
      now apply (Hc i).
  - unfold redefinedOperator.
    assert (Hn : kCoreOperatorNames !! Z.to_nat (opCode op - opCode ADD) =
                   Some (nth (Z.to_nat (opCode op - opCode ADD)) kCoreOperatorNames "operator"%string) /\
                 0 <= opCode op - opCode ADD) by (destruct op; try discriminate Hop; split; (done || lia)).
    destruct Hn as [Hn Hpos]. fold (binaryOpName op) in *.
    destruct (Z.odd operand) eqn:Eo; [cbn [orb]; auto|]. cbn [orb].
    destruct (Z.testbit (g_coreOperatorRedefined w) (opCode op - opCode ADD)) eqn:Eb; cbn [negb].
    + fold (global (binaryOpName op) w). destruct (global (binaryOpName op) w) as [g|]; auto.
    + split; [done|]. right. unfold binaryOpName. apply (Hc _ _ Hn). now rewrite Z2Nat.id.
Qed.

End Calls.

(** ** Examples *)

#[export] Instance demoLaws : RuntimeLaws (obj := dobj).
Proof.
  split; try done.
  - intros v fn. destruct v as [| | | | | |[n l]]; try done. cbn. unfold callsLookup. cbn.
    case_bool_decide as E1; [intros _; subst n; done|]. case_bool_decide as E2; [|done].
    intros _. now subst n.
  - intros [|] args [|] self inv w r [= <-]; reflexivity.
Qed.

#[export] Instance demoGlobalLaws : GlobalLaws (obj := dobj) (W := dglobals).
Proof.
  split.
  - now intros s s' [= ->].
  - intros k v w. cbn. now rewrite bool_decide_true.
  - intros k k' v w Hne. cbn. now rewrite bool_decide_false by congruence.
  - intros a b. destruct a, b; cbn; try done.
    + intros E%Z.eqb_eq. now subst.
    + intros E%bool_decide_eq_true. now subst.
Qed.

Example smallInt_exact_witness :
  smallIntFitsLong (2 ^ 53 - 1) = true /\
  binaryOp (vmInvoke 5) MUL (VInt 12345678) (VInt (-87654)) demoWorld =
    (demoWorld, Ret (VInt (-1082148059412))).
Proof.
  split; [reflexivity|].
  destruct (smallInt_exact (vmInvoke 5) 12345678 (-87654) demoWorld eq_refl eq_refl)
    as (_ & _ & _ & _ & H & _).
  exact H.
Defined.

(** (fn [a & rest] ...) *)
Definition variadicFn : BytecodeModule (obj := dobj) :=
  mkModule [instruction PUSH_LOCAL 1; instruction RETURN 0] emptyPool [] [] [] 1 0 true false false (-1) [].

Example invoke_binds_witness :
  isKwBased_ variadicFn = false /\
  invoke (vmInvoke 5) (execute 5) (VFn variadicFn None) [VInt 1; VInt 2; VInt 3] demoWorld =
  execute 5 (mkCall variadicFn [VInt 1; demoList [VInt 2; VInt 3]] None [] VNull) demoWorld.
Proof.
  split; [reflexivity|].
  exact (proj2 (proj2 (invoke_binds (vmInvoke 5) (execute 5) variadicFn None
    [VInt 1; VInt 2; VInt 3] demoWorld eq_refl ltac:(cbn; lia)))).
Defined.

(** (fn [a & {:keys [k]}] ...) *)
Definition kwFn : BytecodeModule (obj := dobj) :=
  mkModule [instruction PUSH_LOCAL 1; instruction RETURN 0] emptyPool [] [] [] 1 1 false false true (-1)
    [mkKwKey (s2b "k") 1 (sym ":k")].

Example kw_pairs_rejected_witness :
  let args := [VInt 1; VObj (sym ":k"); VInt 5] in
  acceptsArgCount (VFn kwFn None) 3 = false /\
  invoke (vmInvoke 5) (execute 5) (VFn kwFn None) args demoWorld =
  execute 5 (mkCall kwFn [VInt 1] None [VInt 5] (VObj (demoMap [(s2b ":k", 5)]))) demoWorld.
Proof.
  exact (kw_pairs_rejected (vmInvoke 5) (execute 5) kwFn None
    [VInt 1; VObj (sym ":k"); VInt 5] (VObj (demoMap [(s2b ":k", 5)]))
    demoWorld demoWorld demoWorld [VInt 5] eq_refl eq_refl ltac:(cbn; lia) ltac:(cbn; lia)
    eq_refl eq_refl eq_refl eq_refl).
Defined.

Definition callFrameOf (callable : dval) : frame (obj := dobj) (W := dglobals) (exn := dval) :=
  mkFrame [VNone; VNone; VNone; callable; VInt 5; VNull; VNull; VNull] 2 3 0
    [mkHandler 6 1] [] None (0, 0, 0) demoWorld.

Definition callFrame := callFrameOf (VFn countTo None).

Example caught_rethrown_witness :
  slotted tryCall callFrame /\
  exists f1, unwind tryCall (ProtoException (VInt 9)) callFrame = inl f1 /\ ip f1 = 6.
Proof.
  assert (Hs : slotted tryCall callFrame) by (split; [|split]; vm_compute; congruence).
  split; [exact Hs|].
  pose proof (caught_rethrown (vmInvoke 5) (execute 5) tryCall (ProtoException (VInt 9)) callFrame 2
                eq_refl Hs ltac:(vm_compute; split; congruence)) as H.
  hnf in H. destruct (H ltac:(cbn; lia)) as (f1 & f2 & H1 & H2 & _).
  exists f1. split; [exact H1|exact H2].
Defined.

(** A function, a primitive answered without a call, and a function of another
    number of arguments, which both refuse. *)
Definition called (callable : dval) : Prop :=
  answers tryCall (callFrameOf callable) 0
    (invoke (vmInvoke 60) (execute 60) callable (argsOn tryCall 1 (callFrameOf callable)) demoWorld)
    (dispatchCall (vmInvoke 60) (execute 60) tryCall 1 (callFrameOf callable)).

Example dispatch_is_invoke_witness :
  called (VFn countTo None) /\ called (VObj (sym "count-args")) /\ called (VFn tryCall None) /\
  fastPrimitiveCall CountArgs [VInt 5] true [] = Some (VInt 1).
Proof.
  assert (Hs : forall v, slotted tryCall (callFrameOf v)) by (intros v; split; [|split]; vm_compute; congruence).
  pose proof (fun v => dispatch_is_invoke (vmInvoke 60) (execute 60) tryCall 1 (callFrameOf v) (Hs v)
    ltac:(lia) ltac:(cbn; lia)) as Hcall.
  split; [exact (Hcall (VFn countTo None) ltac:(vm_compute; split; congruence))|].
  split; [exact (Hcall (VObj (sym "count-args")) I)|].
  split; [exact (Hcall (VFn tryCall None) ltac:(vm_compute; split; congruence))|reflexivity].
Defined.

Example operators_redefined_witness :
  coherent (obj := dobj) demoWorld /\
  coherent (storeName (createSymbol (s2b "+")) (s2b "+") (VInt 3) demoWorld).
Proof.
  assert (Hc : coherent (obj := dobj) demoWorld) by (intros i n _ _; reflexivity).
  split; [exact Hc|].
  refine (proj1 (operators_redefined ADD 0 (s2b "+") (VInt 3) demoWorld eq_refl Hc _)).
  intros n _ E. apply (f_equal (fun l => Z.of_nat (length l))) in E.
  pose proof (coreName_long (s2b n)). rewrite <- E in *. vm_compute in H. congruence.
Defined.
