(* ===== verification/Values.v ===== *)
(** The values of programs, as the reader builds them and the printer, the maps
    and the sets see them (runtime/SeqTypes.h, SeqTypes.cpp, VectorOps.h, MapOps.h,
    Named.h), and the operations on lists, vectors and named values. *)

From S2P Require Import Prelude.

#[local] Set Warnings "-register-all".

Definition u64 (z : Z) : Z := z mod 2 ^ 64.

(** ** Values

    Every value but an embedded word has an address. [PList] is a ProtoList,
    [LList] a Clojure list, [SeqObj] a lazy seq, a cons or a chunk with the
    elements it realises to; a map and a set are the entries of their ProtoMap in
    the order of its walk. [Named] is a keyword or a symbol; a [Cell] is any other
    object, with what it holds: the value of an atom or an actor, the result of a
    future, the value of a promise, none while it is pending. nil is a word
    ([nullptr] is read as nil everywhere). *)
Inductive cellKind :=
| CAtom
| CFuture
| CPromise
| CActor
| CFn
| CBuiltin (name : option bytes)
| CMatcher
| CHandle
| CException
| COther.

Inductive obj :=
| Embedded (w : Z)
| Str (a : Z) (text : bytes)
| Dbl (a : Z) (bits : Z)
| Big (a : Z) (value : Z)
| PList (a : Z) (items : list obj)
| LList (a : Z) (items : list obj)
| Vec (a : Z) (items : list obj)
| SeqObj (a : Z) (items : list obj)
| MapObj (a : Z) (entries : list (obj * obj))
| SetObj (a : Z) (elements : list (obj * obj))
| Named (a : Z) (spelling : bytes)
| Pattern (a : Z) (source : bytes)
| Cell (a : Z) (kind : cellKind) (content : list obj).

Definition entries : Type := list (obj * obj).

Definition address (v : obj) : Z :=
  match v with
  | Embedded a | Str a _ | Dbl a _ | Big a _ | PList a _ | LList a _ | Vec a _ | SeqObj a _
  | MapObj a _ | SetObj a _ | Named a _ | Pattern a _ | Cell a _ _ => a
  end.

(** [a == b] *)
Definition same (a b : obj) : bool := address a =? address b.

Definition isSmallInt (v : obj) : bool :=
  match v with Embedded w => Z.land w 0x3FF =? 1 | _ => false end.

Definition isString (v : obj) : bool := match v with Str _ _ => true | _ => false end.
Definition isMap (v : obj) : bool := match v with MapObj _ _ => true | _ => false end.
Definition isSet (v : obj) : bool := match v with SetObj _ _ => true | _ => false end.
Definition isVector (v : obj) : bool := match v with Vec _ _ => true | _ => false end.

(** A Clojure list, empty or not: its pointer tag. *)
Definition isListValue (v : obj) : bool := match v with LList _ _ => true | _ => false end.

(** A list's elements, a vector's, a ProtoList's, those a seq object realises to. *)
Definition sequenceItems (v : obj) : list obj :=
  match v with
  | Vec _ items | LList _ items | PList _ items | SeqObj _ items => items
  | _ => []
  end.

Definition mapEntries (v : obj) : entries :=
  match v with MapObj _ es | SetObj _ es => es | _ => [] end.

(** The levels of nesting of a value. *)
Fixpoint depth (v : obj) : nat :=
  match v with
  | PList _ items | LList _ items | Vec _ items | SeqObj _ items =>
      S (list_max (map depth items))
  | MapObj _ es | SetObj _ es =>
      S (list_max (map (fun e => Nat.max (depth e.1) (depth e.2)) es))
  | _ => 1
  end.

(** ** Integers

    A SmallInteger is a word: the value above a ten-bit tag; one beyond 54 bits is
    a cell. *)
Definition smallIntWord (z : Z) : Z := u64 (Z.lor (Z.shiftl z 10) 1).
Definition smallIntValue (w : Z) : Z :=
  Z.shiftr (if w <? 2 ^ 63 then w else w - 2 ^ 64) 10.
Definition fitsSmallInt (z : Z) : bool := (- 2 ^ 53 <=? z) && (z <=? 2 ^ 53 - 1).

(** The value of an integer. *)
Definition integerOf (v : obj) : option Z :=
  match v with
  | Embedded w => if isSmallInt v then Some (smallIntValue w) else None
  | Big _ z => Some z
  | _ => None
  end.

(** ** Lists (SeqTypes.cpp) *)

Definition listCount (l : obj) : Z := Z.of_nat (length (sequenceItems l)).
Definition listNth (l : obj) (index : nat) : option obj := sequenceItems l !! index.
Definition listFirst (l : obj) : option obj := head (sequenceItems l).

(** ** What protoCore provides

    The words of nil, true and false, the address of the one empty list, and the
    intern table of keywords and symbols: one value per spelling. *)
Class Platform := {
  noneWord : Z;
  trueWord : Z;
  falseWord : Z;
  emptyListAddress : Z;
  namedAddress : bytes -> Z;
}.

Section Constructors.
Context `{Platform}.

Definition PROTO_NONE : obj := Embedded noneWord.
Definition PROTO_TRUE : obj := Embedded trueWord.
Definition PROTO_FALSE : obj := Embedded falseWord.
Definition emptyListValue : obj := LList emptyListAddress [].
Definition internNamed (spelling : bytes) : obj := Named (namedAddress spelling) spelling.

(** [listFromArray] at address [a]. *)
Definition listFromArray (a : Z) (items : list obj) : obj :=
  match items with [] => emptyListValue | _ => LList a items end.

Definition newVector (a : Z) (items : list obj) : obj := Vec a items.

End Constructors.
