(* ===== verification/Maps.v ===== *)
(** Maps and sets (runtime/MapOps.h, MapOps.cpp, SetOps.cpp, VectorOps.cpp): when
    two values are one key, the hash of a key, and the operations on maps and
    sets. A map is protoCore's ProtoMap, driven through its hashed-collection
    helper with the key semantics this component defines: the helper is the
    interface [HashedMaps]. *)

From S2P Require Import Prelude Values.

#[local] Set Warnings "-register-all".

(** A vector, a list, a ProtoList. *)
Definition isSequential (v : obj) : bool :=
  match v with Vec _ _ | LList _ _ | PList _ _ => true | _ => false end.

(** A seq object that is no list: read as the list of its elements. *)
Definition unrealised (v : obj) : bool := match v with SeqObj _ _ => true | _ => false end.

(** ** Hashes *)

Definition kSaltIdentity : Z := 0x9E3779B97F4A7C15.
Definition kSaltInteger : Z := 0xC2B2AE3D27D4EB4F.
Definition kSaltDouble : Z := 0x165667B19E3779F9.
Definition kSaltBigInt : Z := 0x27D4EB2F165667C5.
Definition kSaltString : Z := 0xD6E8FEB86659FD93.
Definition kSaltSequence : Z := 0xA24BAED4963EE407.
Definition kSaltMap : Z := 0x9FB21C651E98DF25.
Definition kSaltSet : Z := 0x7C9F2D6A1B3E5F81.

(** One round of the SplitMix64 finaliser. *)
Definition mix (h : Z) : Z :=
  let x := Z.lxor h (Z.shiftr h 30) in
  let x := u64 (x * 0xBF58476D1CE4E5B9) in
  let x := Z.lxor x (Z.shiftr x 27) in
  let x := u64 (x * 0x94D049BB133111EB) in
  Z.lxor x (Z.shiftr x 31).

Definition combine (acc value : Z) : Z :=
  mix (Z.lxor acc (u64 (value + 0x9E3779B97F4A7C15 + u64 (Z.shiftl acc 6) + Z.shiftr acc 2))).

(** ** Key semantics *)

Record KeySemantics := mkSemantics {
  isIdentity : obj -> bool;
  hash : obj -> Z;
  equals : obj -> obj -> bool;
}.

(** The stored key [k] is the one [key] names: an identity key is stored under
    itself, any other under the low 54 bits of its hash, where [equals] decides. *)
Definition slot (h : Z) : Z := h mod 2 ^ 54.

Definition names (sem : KeySemantics) (key k : obj) : bool :=
  if isIdentity sem key then same key k
  else negb (isIdentity sem k) && (slot (hash sem key) =? slot (hash sem k)) && equals sem key k.

(** No two entries have keys that name each other. *)
Definition distinct (sem : KeySemantics) (m : entries) : Prop :=
  forall i j e e', m !! i = Some e -> m !! j = Some e' -> names sem e.1 e'.1 = true -> i = j.

(** protoCore's hashed-collection helper, and its hashes of strings and big
    integers by content. *)
Class HashedMaps := {
  stringHash : bytes -> Z;
  bigHash : Z -> Z;
  hashedGet : KeySemantics -> entries -> obj -> option obj;
  hashedPut : KeySemantics -> entries -> obj -> obj -> entries;
  hashedRemove : KeySemantics -> entries -> obj -> entries;
}.

Section Keys.
Context `{HashedMaps}.

Definition keyIsIdentity (key : obj) : bool :=
  match key with
  | Str _ _ => false
  | Embedded _ => negb (isSmallInt key)
  | Dbl _ _ | Big _ _ | PList _ _ => false
  | SetObj _ _ | SeqObj _ _ => false
  | LList _ _ => false
  | MapObj _ _ | Vec _ _ => false
  | Named _ _ | Pattern _ _ | Cell _ _ _ => true
  end.

Definition sequenceHash (keyHash : obj -> Z) (items : list obj) : Z :=
  fold_left (fun h v => combine h (keyHash v)) items
    (combine kSaltSequence (Z.of_nat (length items))).

Definition mapHash (keyHash : obj -> Z) (m : entries) : Z :=
  let sum := fold_left (fun sum e => u64 (sum + combine (keyHash e.1) (keyHash e.2))) m 0 in
  combine (combine kSaltMap (Z.of_nat (length m))) sum.

Definition setHash (keyHash : obj -> Z) (m : entries) : Z :=
  let sum := fold_left (fun sum e => u64 (sum + keyHash e.1)) m 0 in
  u64 (u64 (Z.lxor sum kSaltSet * 0x9E3779B97F4A7C15) + Z.of_nat (length m)).

(** [fuel] bounds the nesting. *)
Fixpoint keyHash (fuel : nat) (key : obj) : Z :=
  match fuel with
  | O => 0
  | S fuel =>
      match key with
      | Str _ text => combine kSaltString (stringHash text)
      | Embedded w => combine (if isSmallInt key then kSaltInteger else kSaltIdentity) w
      | Dbl _ bits => combine kSaltDouble bits
      | Big _ value => combine kSaltBigInt (bigHash value)
      | PList _ items | Vec _ items | LList _ items | SeqObj _ items =>
          sequenceHash (keyHash fuel) items
      | MapObj _ m => mapHash (keyHash fuel) m
      | SetObj _ m => setHash (keyHash fuel) m
      | Named a _ | Pattern a _ | Cell a _ _ => combine kSaltIdentity a
      end
  end.

Fixpoint allEqual (keyEquals : obj -> obj -> bool) (xs ys : list obj) : bool :=
  match xs, ys with
  | x :: xs, y :: ys => if keyEquals x y then allEqual keyEquals xs ys else false
  | _, _ => true
  end.

Definition sequenceEquals (keyEquals : obj -> obj -> bool) (xs ys : list obj) : bool :=
  if negb (length xs =? length ys)%nat then false else allEqual keyEquals xs ys.

Definition compareEntryAsKey (sem : KeySemantics) (other : entries) (equal : bool) (e : obj * obj)
  : bool :=
  if negb equal then false
  else match hashedGet sem other e.1 with
       | Some mine => equals sem e.2 mine
       | None => false
       end.

Definition mapKeyEquals (sem : KeySemantics) (a b : entries) : bool :=
  if negb (length a =? length b)%nat then false
  else fold_left (compareEntryAsKey sem b) a true.

(** [=] on maps, with the comparison of values given; on sets, by their element
    maps (one element map shared by two sets answers as two equal ones do). *)
Definition mapEquals (sem : KeySemantics) (valueEq : obj -> obj -> bool) (a b : obj) : bool :=
  if same a b then true
  else
    let n := length (mapEntries a) in
    if negb (n =? length (mapEntries b))%nat then false
    else if (n =? 0)%nat then true
    else
      fold_left (fun equal e =>
        if negb equal then false
        else match hashedGet sem (mapEntries b) e.1 with
             | None => false
             | Some mine => valueEq e.2 mine
             end) (mapEntries a) true.

Definition setEquals (sem : KeySemantics) (a b : obj) : bool :=
  if same a b then true else mapEquals sem (fun _ _ => true) a b.

Fixpoint keyEquals (fuel : nat) (a b : obj) : bool :=
  match fuel with
  | O => false
  | S fuel =>
      let sem := mkSemantics keyIsIdentity (keyHash fuel) (keyEquals fuel) in
      if same a b then true
      else if isString a || isString b then
        match a, b with Str _ s, Str _ t => bool_decide (s = t) | _, _ => false end
      else
        let aSeq := isSequential a || unrealised a in
        let bSeq := isSequential b || unrealised b in
        if aSeq || bSeq then
          aSeq && bSeq && sequenceEquals (keyEquals fuel) (sequenceItems a) (sequenceItems b)
        else if isMap a || isMap b then
          isMap a && isMap b && mapKeyEquals sem (mapEntries a) (mapEntries b)
        else if isSet a || isSet b then
          isSet a && isSet b && setEquals sem a b
        else
          match a, b with
          | Dbl _ x, Dbl _ y => x =? y
          | Big _ x, Big _ y => x =? y
          | _, _ => false
          end
  end.

Definition clojureKeySemantics (fuel : nat) : KeySemantics :=
  mkSemantics keyIsIdentity (keyHash fuel) (keyEquals fuel).

(** ** Maps *)

Definition requireEven (n : nat) : bool := Nat.even n.

(** [MapBuilder::assoc], [dissoc]: [false] changes nothing. *)
Definition assoc (fuel : nat) (m : entries) (key value : obj) : entries :=
  hashedPut (clojureKeySemantics fuel) m key value.

Definition dissoc (fuel : nat) (m : entries) (key : obj) : entries * bool :=
  match hashedGet (clojureKeySemantics fuel) m key with
  | None => (m, false)
  | Some _ => (hashedRemove (clojureKeySemantics fuel) m key, true)
  end.

Fixpoint assocAll (fuel : nat) (m : entries) (kv : list obj) : entries :=
  match kv with
  | k :: v :: kv => assocAll fuel (assoc fuel m k v) kv
  | _ => m
  end.

Definition mapAssocPairs (fuel : nat) (base : option entries) (kv : list obj)
  : result bytes entries :=
  if negb (requireEven (length kv)) then Throw (s2b "map: a key has no value")
  else Ok (assocAll fuel (default [] base) kv).

Definition mapIsEmpty (m : entries) : bool := match m with [] => true | _ => false end.

Definition mapDissoc (fuel : nat) (m : entries) (key : obj) : entries :=
  if mapIsEmpty m then m
  else let '(after, found) := dissoc fuel m key in if found then after else m.

Definition mapGet (fuel : nat) (m : entries) (key : obj) : option obj :=
  hashedGet (clojureKeySemantics fuel) m key.

Definition mapCount (m : entries) : Z := fold_left (fun n _ => n + 1) m 0.

Definition mapForEach {S} (fn : S -> obj -> obj -> S) (self : S) (m : entries) : S :=
  fold_left (fun s e => fn s e.1 e.2) m self.

(** ** Sets *)

(** The pairs [setConj] associates: the items not found in the set. *)
Fixpoint newElements (fuel : nat) (elements : option entries) (items : list obj) : list obj :=
  match items with
  | [] => []
  | e :: items =>
      let found := match elements with
                   | Some m => match mapGet fuel m e with Some _ => true | None => false end
                   | None => false
                   end in
      if found then newElements fuel elements items
      else e :: e :: newElements fuel elements items
  end.

(** [None]: [base] itself. *)
Definition setConj (fuel : nat) (base : option entries) (items : list obj) : option entries :=
  let kv := newElements fuel base items in
  match base, kv with
  | Some _, [] => None
  | _, _ => match mapAssocPairs fuel base kv with Ok m => Some m | Throw _ => None end
  end.

(** [None]: the set itself. *)
Definition setDisj (fuel : nat) (elements : entries) (item : obj) : option entries :=
  if mapIsEmpty elements then None
  else let '(after, found) := dissoc fuel elements item in if found then Some after else None.

Definition setGet (fuel : nat) (elements : entries) (item : obj) : option obj :=
  mapGet fuel elements item.

Definition setCount (elements : entries) : Z := mapCount elements.
Definition setIsEmpty (elements : entries) : bool := mapIsEmpty elements.

End Keys.
