(* ===== verification/KeyEquality.v ===== *)
(** When two values are one key: the comparison of keys is an equivalence that
    the hashes respect, whatever map implements [HashedMaps], so maps and sets
    behave as finite maps and sets over the classes of equal keys. *)

From S2P Require Import Prelude Values Maps.

#[local] Set Warnings "-register-all".
#[local] Open Scope Z_scope.
#[local] Opaque combine.

(** ** Lists related up to order *)

Definition permuted {A} (R : A -> A -> Prop) (a b : list A) : Prop :=
  exists b', b ≡ₚ b' /\ Forall2 R a b'.

Section Permuted.
Context {A : Type} (R : A -> A -> Prop).

Lemma permuted_length a b : permuted R a b -> length a = length b.
Proof. intros (b' & Hp & H). by rewrite (Forall2_length _ _ _ H), Hp. Qed.

Lemma permuted_elem a b x : permuted R a b -> x ∈ a -> exists y, y ∈ b /\ R x y.
Proof.
  intros (b' & Hp & H) [i Hi]%list_elem_of_lookup.
  destruct (Forall2_lookup_l _ _ _ _ _ H Hi) as (y & Hy & Hr).
  exists y. rewrite Hp. split; [by eapply list_elem_of_lookup_2|done].
Qed.

Lemma permuted_perm_l a a' b : a ≡ₚ a' -> permuted R a b -> permuted R a' b.
Proof.
  intros Ha (b' & Hp & H). destruct (Permutation_Forall2 Ha H) as (b2 & Hb & H2).
  exists b2. split; [by rewrite Hp|done].
Qed.

Lemma permuted_sym `{!Symmetric R} a b : permuted R a b -> permuted R b a.
Proof.
  intros (b' & Hp & H). apply (permuted_perm_l b'); [done|]. exists a. by split; [|symmetry].
Qed.

Lemma permuted_trans `{!Transitive R} a b c : permuted R a b -> permuted R b c -> permuted R a c.
Proof.
  intros (b' & Hb & H) Hc. apply (permuted_perm_l _ _ _ Hb) in Hc. destruct Hc as (c' & Hc & H').
  exists c'. split; [done|]. by transitivity b'.
Qed.

Lemma permuted_refl a : Forall (fun x => R x x) a -> permuted R a a.
Proof. intros H. exists a. split; [done|]. by apply Forall_Forall2_diag. Qed.

(** An injection of [a] into [b] leaves a rest of [b], empty when the lengths agree. *)
Lemma injection_split a b :
  (forall i j x y z, a !! i = Some x -> a !! j = Some y -> R x z -> R y z -> i = j) ->
  (forall x, x ∈ a -> exists y, y ∈ b /\ R x y) ->
  exists b' rest, b ≡ₚ b' ++ rest /\ Forall2 R a b'.
Proof.
  revert b. induction a as [|x a IH]; intros b Hinj Hin; [by exists [], b|].
  destruct (Hin x) as (y & Hy & Hr); [by left|].
  apply elem_of_Permutation in Hy as (b1 & Hb).
  destruct (IH b1) as (b2 & rest & Hb2 & H2).
  - intros i j x1 x2 z Hi Hj Hz1 Hz2. by specialize (Hinj (S i) (S j) x1 x2 z Hi Hj Hz1 Hz2) as [= ->].
  - intros x1 Hx1. destruct (Hin x1) as (y1 & Hy1 & Hr1); [by right|].
    rewrite Hb in Hy1. apply elem_of_cons in Hy1 as [->|Hy1]; [|eauto].
    apply list_elem_of_lookup in Hx1 as (i & Hi). by specialize (Hinj 0%nat (S i) x x1 y eq_refl Hi Hr Hr1).
  - exists (y :: b2), rest. split; [by rewrite Hb, Hb2|by constructor].
Qed.

Lemma permuted_pigeonhole a b :
  (forall i j x y z, a !! i = Some x -> a !! j = Some y -> R x z -> R y z -> i = j) ->
  (forall x, x ∈ a -> exists y, y ∈ b /\ R x y) ->
  length a = length b -> permuted R a b.
Proof.
  intros Hinj Hin Hl. destruct (injection_split a b Hinj Hin) as (b' & rest & Hb & HF).
  pose proof (Forall2_length _ _ _ HF) as Hl'. rewrite Hb, length_app in Hl.
  destruct rest; [|simpl in Hl; lia]. exists b'. by rewrite Hb, app_nil_r.
Qed.

Lemma injection_length a b :
  (forall i j x y z, a !! i = Some x -> a !! j = Some y -> R x z -> R y z -> i = j) ->
  (forall x, x ∈ a -> exists y, y ∈ b /\ R x y) -> (length a <= length b)%nat.
Proof.
  intros Hinj Hin. destruct (injection_split a b Hinj Hin) as (b' & rest & Hb & HF).
  rewrite Hb, length_app, (Forall2_length _ _ _ HF). lia.
Qed.

End Permuted.

Lemma permuted_mono {A} (R R' : A -> A -> Prop) a b :
  (forall x y, R x y -> R' x y) -> permuted R a b -> permuted R' a b.
Proof. intros HR (b' & Hp & H). exists b'. split; [done|]. by apply (Forall2_impl _ _ _ _ H). Qed.

(** ** The hashed maps of protoCore

    A look-up answers the value of an entry whose key is named; a put replaces
    that entry's value and keeps its key; the order of a walk is unspecified. *)
Class HashedLaws `{HashedMaps} : Prop := {
  hashedGet_Some : forall sem m k v,
    hashedGet sem m k = Some v -> exists k', (k', v) ∈ m /\ names sem k k' = true;
  hashedGet_None : forall sem m k,
    hashedGet sem m k = None -> forall e, e ∈ m -> names sem k e.1 = false;
  hashedPut_new : forall sem m k v,
    (forall e, e ∈ m -> names sem k e.1 = false) -> hashedPut sem m k v ≡ₚ (k, v) :: m;
  hashedPut_old : forall sem m m' k v k' v',
    m ≡ₚ (k', v') :: m' -> names sem k k' = true ->
    (forall e, e ∈ m' -> names sem k e.1 = false) -> hashedPut sem m k v ≡ₚ (k', v) :: m';
  hashedRemove_old : forall sem m m' k k' v',
    m ≡ₚ (k', v') :: m' -> names sem k k' = true ->
    (forall e, e ∈ m' -> names sem k e.1 = false) -> hashedRemove sem m k ≡ₚ m';
}.

Lemma Forall2_on {A} (P : A -> Prop) (R R' : A -> A -> Prop) a b :
  Forall P a -> Forall P b -> (forall x y, P x -> P y -> R x y -> R' x y) ->
  Forall2 R a b -> Forall2 R' a b.
Proof. intros Ha Hb HR H. induction H; inversion Ha; inversion Hb; subst; constructor; auto. Qed.

Lemma permuted_on {A} (P : A -> Prop) (R R' : A -> A -> Prop) a b :
  Forall P a -> Forall P b -> (forall x y, P x -> P y -> R x y -> R' x y) ->
  permuted R a b -> permuted R' a b.
Proof.
  intros Ha Hb HR (b' & Hp & H). exists b'. split; [done|]. rewrite Hp in Hb. by eapply Forall2_on.
Qed.

Lemma fold_ext {A B} (P : A -> Prop) (f g : B -> A -> B) l :
  Forall P l -> (forall b a, P a -> f b a = g b a) -> forall b, fold_left f l b = fold_left g l b.
Proof. intros Hl Hf. induction Hl as [|a l Ha Hl IH]; intros b; simpl; [done|]. by rewrite Hf, IH. Qed.

(** A walk that stops comparing at the first difference. *)
Lemma fold_stop {A} (step : bool -> A -> bool) (f : A -> bool) l :
  (forall e, step true e = f e) -> (forall e, step false e = false) ->
  fold_left step l true = forallb f l.
Proof.
  intros Ht Hf. assert (fold_left step l false = false) as F0 by (induction l; simpl; by rewrite ?Hf).
  induction l as [|e l IH]; simpl; [done|]. rewrite Ht. destruct (f e); [|clear IH].
  - apply IH. clear IH. simpl in F0. by rewrite Hf in F0.
  - simpl in F0. by rewrite Hf in F0.
Qed.

(** ** Well-formed values

    [wf n v]: at most [n] levels of nesting, the components are values of the
    heap, and no map or set holds one key twice. *)
Section WellFormed.
Context `{HashedLaws}.

(** The values that exist: two of them with one address are one value. *)
Class Heap (live : obj -> Prop) : Prop :=
  live_coherent : forall a b, live a -> live b -> address a = address b -> a = b.

Context (live : obj -> Prop) `{!Heap live}.

Fixpoint wf (n : nat) (v : obj) : Prop :=
  match n with
  | O => False
  | S n =>
      live v /\
      match v with
      | PList _ items | LList _ items | Vec _ items | SeqObj _ items => Forall (wf n) items
      | MapObj _ m | SetObj _ m =>
          Forall (fun e => wf n e.1 /\ wf n e.2) m /\ distinct (clojureKeySemantics n) m
      | _ => True
      end
  end.

Definition wfEntries (n : nat) (m : entries) : Prop :=
  Forall (fun e => wf n e.1 /\ wf n e.2) m /\ distinct (clojureKeySemantics n) m.

(** What a key is compared by. *)
Inductive view :=
| VId (a : Z)
| VStr (text : bytes)
| VDbl (bits : Z)
| VBig (value : Z)
| VSeq (items : list obj)
| VMap (m : entries)
| VSet (m : entries).

Definition viewOf (v : obj) : view :=
  match v with
  | Embedded a | Named a _ | Pattern a _ | Cell a _ _ => VId a
  | Str _ s => VStr s
  | Dbl _ b => VDbl b
  | Big _ z => VBig z
  | PList _ l | LList _ l | Vec _ l | SeqObj _ l => VSeq l
  | MapObj _ m => VMap m
  | SetObj _ m => VSet m
  end.

Lemma keyEquals_view n a b :
  keyEquals (S n) a b =
    same a b ||
    match viewOf a, viewOf b with
    | VStr s, VStr t => bool_decide (s = t)
    | VDbl x, VDbl y | VBig x, VBig y => x =? y
    | VSeq xs, VSeq ys => sequenceEquals (keyEquals n) xs ys
    | VMap _, VMap _ => mapKeyEquals (clojureKeySemantics n) (mapEntries a) (mapEntries b)
    | VSet _, VSet _ => setEquals (clojureKeySemantics n) a b
    | _, _ => false
    end.
Proof. destruct a, b; simpl; unfold same; case_match; reflexivity. Qed.

(** [a] and [b] are well-formed and one key. *)
Definition eqv (n : nat) (a b : obj) : Prop := wf n a /\ wf n b /\ keyEquals n a b = true.

Definition eqvEntry (n : nat) (e e' : obj * obj) : Prop := eqv n e.1 e'.1 /\ eqv n e.2 e'.2.
Definition eqvKey (n : nat) (e e' : obj * obj) : Prop := eqv n e.1 e'.1.

Inductive eqvView (n : nat) : view -> view -> Prop :=
| eqvId a : eqvView n (VId a) (VId a)
| eqvStr s : eqvView n (VStr s) (VStr s)
| eqvDbl x : eqvView n (VDbl x) (VDbl x)
| eqvBig x : eqvView n (VBig x) (VBig x)
| eqvSeq xs ys : Forall2 (eqv n) xs ys -> eqvView n (VSeq xs) (VSeq ys)
| eqvMap a b : permuted (eqvEntry n) a b -> eqvView n (VMap a) (VMap b)
| eqvSet a b : permuted (eqvKey n) a b -> eqvView n (VSet a) (VSet b).

(** What one level of nesting promises the next. *)
Record lawful (n : nat) : Prop := {
  law_refl : forall a, wf n a -> keyEquals n a a = true;
  law_sym : forall a b, wf n a -> wf n b -> keyEquals n a b = true -> keyEquals n b a = true;
  law_trans : forall a b c, wf n a -> wf n b -> wf n c ->
    keyEquals n a b = true -> keyEquals n b c = true -> keyEquals n a c = true;
  law_hash : forall a b, wf n a -> wf n b -> keyEquals n a b = true -> keyHash n a = keyHash n b;
}.

Lemma wf_live n a : wf n a -> live a.
Proof. destruct n; [done|]. by intros [? _]. Qed.

Lemma same_eq n n' a b : wf n a -> wf n' b -> same a b = true -> a = b.
Proof. intros Ha Hb E%Z.eqb_eq. by eapply live_coherent; eauto using wf_live. Qed.

Lemma same_refl a : same a a = true.
Proof. apply Z.eqb_refl. Qed.

(** An identity key is equal to itself only. *)
Lemma identity_eqv n a b :
  lawful n -> eqv n a b -> keyIsIdentity a = true \/ keyIsIdentity b = true -> a = b.
Proof.
  intros Hl (Ha & Hb & He) Hi.
  destruct n; [done|]. rewrite keyEquals_view in He.
  assert (same a b = true) as Hs.
  { destruct (same a b); [done|]. simpl in He.
    destruct Hi as [Hi|Hi]; [destruct a; try discriminate Hi; done|].
    destruct b; try discriminate Hi; by destruct (viewOf a). }
  by eapply same_eq.
Qed.

Section Level.
Context (n : nat) (L : lawful n).

#[local] Instance eqv_symmetric : Symmetric (eqv n).
Proof. intros a b (Ha & Hb & He). repeat split; auto using law_sym. Qed.

#[local] Instance eqv_transitive : Transitive (eqv n).
Proof. intros a b c (Ha & Hb & He) (_ & Hc & He'). repeat split; eauto using law_trans. Qed.

#[local] Instance eqvEntry_symmetric : Symmetric (eqvEntry n).
Proof. intros a b []. by split; symmetry. Qed.

#[local] Instance eqvEntry_transitive : Transitive (eqvEntry n).
Proof. intros a b c [] []. split; by etransitivity. Qed.

#[local] Instance eqvKey_symmetric : Symmetric (eqvKey n).
Proof. intros a b ?. by apply eqv_symmetric. Qed.

#[local] Instance eqvKey_transitive : Transitive (eqvKey n).
Proof. intros a b c ??. by eapply eqv_transitive. Qed.

Lemma eqv_refl a : wf n a -> eqv n a a.
Proof. intros Ha. repeat split; auto using law_refl. Qed.

(** A key names exactly the keys it is equal to. *)
Lemma names_eqv a b :
  wf n a -> wf n b -> names (clojureKeySemantics n) a b = true <-> eqv n a b.
Proof.
  intros Ha Hb. unfold names; simpl. destruct (keyIsIdentity a) eqn:Ia; split.
  - intros Hs. rewrite (same_eq n n a b Ha Hb Hs). by apply eqv_refl.
  - intros He. rewrite (identity_eqv n a b L He (or_introl Ia)). apply same_refl.
  - intros [_ He]%andb_prop. by repeat split.
  - intros (_ & _ & He). rewrite (law_hash _ L a b), Z.eqb_refl, He by done.
    destruct (keyIsIdentity b) eqn:Ib; [|done].
    assert (a = b) as -> by (by apply (identity_eqv n); [done|..|auto]). congruence.
Qed.

Lemma wf_entry m e : wfEntries n m -> e ∈ m -> wf n e.1 /\ wf n e.2.
Proof. intros [Hm _] He. by apply (proj1 (Forall_forall _ _) Hm). Qed.

(** No key is held twice. *)
Lemma index_unique m i j x y :
  wfEntries n m -> m !! i = Some x -> m !! j = Some y -> eqv n x.1 y.1 -> i = j.
Proof.
  intros Hm Hi Hj He. eapply (proj2 Hm); [done..|].
  by apply names_eqv; eauto using wf_entry, list_elem_of_lookup_2; apply He.
Qed.

Lemma entry_unique m e e' : wfEntries n m -> e ∈ m -> e' ∈ m -> eqv n e.1 e'.1 -> e = e'.
Proof.
  intros Hm [i Hi]%list_elem_of_lookup [j Hj]%list_elem_of_lookup He.
  assert (i = j) as -> by (by eapply index_unique). congruence.
Qed.

(** A look-up finds the entry whose key is equal, when there is one. *)
Lemma get_Some m k v :
  wfEntries n m -> wf n k ->
  hashedGet (clojureKeySemantics n) m k = Some v <-> exists k', (k', v) ∈ m /\ eqv n k k'.
Proof.
  intros Hm Hk. split.
  - intros (k' & Hin & Hn)%hashedGet_Some. exists k'. split; [done|].
    apply names_eqv; [done| |done]. apply (wf_entry m (k', v) Hm Hin).
  - intros (k' & Hin & He). destruct (hashedGet (clojureKeySemantics n) m k) as [v'|] eqn:G.
    + apply hashedGet_Some in G as (k2 & Hin2 & Hn).
      apply names_eqv in Hn; [|done|apply (wf_entry m (k2, v') Hm Hin2)].
      assert ((k2, v') = (k', v)) as [= -> ->]; [|done].
      apply (entry_unique m); [done..|]. simpl. transitivity k; [by symmetry|done].
    + apply (hashedGet_None _ _ _ G) in Hin as Hf. simpl in Hf.
      by rewrite (proj2 (names_eqv k k' Hk (proj1 (wf_entry m _ Hm Hin))) He) in Hf.
Qed.

Lemma get_None m k :
  wfEntries n m -> wf n k ->
  hashedGet (clojureKeySemantics n) m k = None <-> forall e, e ∈ m -> ~ eqv n k e.1.
Proof.
  intros Hm Hk. split.
  - intros G [k' v] Hin He. by rewrite (proj2 (get_Some m k v Hm Hk)) in G by eauto.
  - intros Hno. destruct (hashedGet (clojureKeySemantics n) m k) as [v|] eqn:G; [|done].
    apply get_Some in G as (k' & Hin & He); [|done..]. by destruct (Hno _ Hin).
Qed.

(** ** Comparing collections *)

Lemma sequenceEquals_iff xs ys :
  Forall (wf n) xs -> Forall (wf n) ys ->
  sequenceEquals (keyEquals n) xs ys = true <-> Forall2 (eqv n) xs ys.
Proof.
  intros Hx Hy. unfold sequenceEquals. split.
  - intros E. destruct (length xs =? length ys)%nat eqn:El; [|done]. apply Nat.eqb_eq in El.
    simpl in E. revert ys Hy El E. induction Hx as [|x xs Wx Hx IH]; intros [|y ys] Hy El E; try done.
    + inversion Hy; subst. simpl in *. destruct (keyEquals n x y) eqn:Ex; [|done].
      constructor; [by repeat split|]. apply IH; auto.
  - intros HF. rewrite (Forall2_length _ _ _ HF), Nat.eqb_refl. simpl. clear Hx Hy.
    induction HF as [|x y xs ys (_ & _ & E) HF IH]; simpl; [done|]. by rewrite E.
Qed.

Lemma walk_iff (R : obj -> obj -> Prop) (f : obj * obj -> bool) a b :
  wfEntries n a -> wfEntries n b -> length a = length b ->
  (forall e, e ∈ a -> f e = true <-> exists k' v', (k', v') ∈ b /\ eqv n e.1 k' /\ R e.2 v') ->
  forallb f a = true <-> permuted (fun e e' => eqv n e.1 e'.1 /\ R e.2 e'.2) a b.
Proof.
  intros Ha Hb Hl Hf. rewrite forallb_forall. split.
  - intros Hall. apply permuted_pigeonhole; [| |done].
    + intros i j x y z Hi Hj [Hx _] [Hy _]. apply (index_unique a i j x y); [done..|].
      transitivity z.1; [done|by symmetry].
    + intros e He. destruct (proj1 (Hf e He)) as (k' & v' & Hin & ? & ?).
      { apply Hall. by apply list_elem_of_In. }
      by exists (k', v').
  - intros Hp e He%list_elem_of_In. apply Hf; [done|].
    destruct (permuted_elem _ _ _ _ Hp He) as ([k' v'] & Hin & ? & ?). by exists k', v'.
Qed.

Lemma mapKeyEquals_iff a b :
  wfEntries n a -> wfEntries n b ->
  mapKeyEquals (clojureKeySemantics n) a b = true <-> permuted (eqvEntry n) a b.
Proof.
  intros Ha Hb. unfold mapKeyEquals.
  destruct (length a =? length b)%nat eqn:El; [apply Nat.eqb_eq in El|]; simpl; last first.
  { split; [done|]. intros Hp%permuted_length. by rewrite Hp, Nat.eqb_refl in El. }
  erewrite fold_stop by (intros; reflexivity). simpl. apply (walk_iff (eqv n)); [done..|].
  intros e He. destruct (wf_entry a e Ha He) as [W1 W2]. unfold compareEntryAsKey; simpl.
  destruct (hashedGet (clojureKeySemantics n) b e.1) as [mine|] eqn:G.
  - apply get_Some in G as (k' & Hin & Hk); [|done..]. split.
    + intros E. exists k', mine. do 2 (split; [done|]). repeat split; [done| |done]. apply (wf_entry b _ Hb Hin).
    + intros (k2 & v2 & Hin2 & Hk2 & _ & _ & E).
      assert ((k2, v2) = (k', mine)) as [= -> ->]; [|done].
      apply (entry_unique b); [done..|]. simpl. transitivity e.1; [by symmetry|done].
  - split; [done|]. intros (k2 & v2 & Hin2 & Hk2 & _). by destruct (proj1 (get_None b e.1 Hb W1) G _ Hin2).
Qed.

Lemma mapEquals_iff (R : obj -> obj -> Prop) valueEq a b :
  wfEntries n (mapEntries a) -> wfEntries n (mapEntries b) ->
  (forall e e', e ∈ mapEntries a -> e' ∈ mapEntries b -> valueEq e.2 e'.2 = true <-> R e.2 e'.2) ->
  mapEquals (clojureKeySemantics n) valueEq a b = true <->
  same a b = true \/
  permuted (fun e e' => eqv n e.1 e'.1 /\ R e.2 e'.2) (mapEntries a) (mapEntries b).
Proof.
  intros Ha Hb HR. unfold mapEquals. destruct (same a b); [intuition|].
  destruct (length (mapEntries a) =? length (mapEntries b))%nat eqn:El; simpl; last first.
  { split; [done|]. intros [|Hp%permuted_length]; [done|]. by rewrite Hp, Nat.eqb_refl in El. }
  apply Nat.eqb_eq in El. destruct (length (mapEntries a) =? 0)%nat eqn:Ez.
  { apply Nat.eqb_eq in Ez. split; [|done]. intros _. right.
    destruct (mapEntries a), (mapEntries b); try done. by exists []. }
  erewrite fold_stop by (intros; reflexivity). simpl.
  assert (forall P, P <-> false = true \/ P) as <- by (clear; intuition discriminate).
  apply walk_iff; [done..|]. intros e He. destruct (wf_entry _ e Ha He) as [W1 W2].
  destruct (hashedGet (clojureKeySemantics n) (mapEntries b) e.1) as [mine|] eqn:G.
  - apply get_Some in G as (k' & Hin & Hk); [|done..]. rewrite (HR _ (k', mine)) by done. split.
    + intros E. by exists k', mine.
    + intros (k2 & v2 & Hin2 & Hk2 & E).
      assert ((k2, v2) = (k', mine)) as [= -> ->]; [|done].
      apply (entry_unique (mapEntries b)); [done..|]. simpl. transitivity e.1; [by symmetry|done].
  - split; [done|]. intros (k2 & v2 & Hin2 & Hk2 & _). by destruct (proj1 (get_None _ e.1 Hb W1) G _ Hin2).
Qed.

Lemma setEquals_iff a b :
  wfEntries n (mapEntries a) -> wfEntries n (mapEntries b) ->
  setEquals (clojureKeySemantics n) a b = true <->
  same a b = true \/ permuted (eqvKey n) (mapEntries a) (mapEntries b).
Proof.
  intros Ha Hb. unfold setEquals. destruct (same a b) eqn:Es; [intuition|].
  rewrite (mapEquals_iff (fun _ _ => True)), Es by done.
  split; (intros [|Hp]; [done|right]); eapply permuted_mono; try exact Hp; simpl;
    [by intros ?? [??]|by intros].
Qed.

(** ** The next level *)

Lemma eqvView_refl a : wf (S n) a -> eqvView n (viewOf a) (viewOf a).
Proof.
  intros [_ Ha]. destruct a; simpl; constructor.
  all: try (apply Forall_Forall2_diag, (Forall_impl _ _ _ Ha); auto using eqv_refl).
  all: apply permuted_refl, (Forall_impl _ _ _ (proj1 Ha)); intros e [??].
  - by split; apply eqv_refl.
  - by apply eqv_refl.
Qed.

Lemma keyEquals_iff a b :
  wf (S n) a -> wf (S n) b -> keyEquals (S n) a b = true <-> eqvView n (viewOf a) (viewOf b).
Proof.
  intros Ha Hb. rewrite keyEquals_view, orb_true_iff. split.
  - intros [Hs|E].
    { rewrite <- (same_eq (S n) (S n) a b Ha Hb Hs). by apply eqvView_refl. }
    destruct Ha as [La Ha], Hb as [Lb Hb].
    assert (same a b = true -> eqvView n (viewOf a) (viewOf b)) as Hsame.
    { intros Hs%Z.eqb_eq. rewrite <- (live_coherent a b La Lb Hs). by apply eqvView_refl. }
    destruct a, b; try discriminate E; simpl in *;
      try (apply Z.eqb_eq in E as ->; constructor);
      try (apply bool_decide_eq_true in E as ->; constructor);
      try (constructor; by apply sequenceEquals_iff).
    + constructor. by apply mapKeyEquals_iff.
    + apply setEquals_iff in E as [E|E]; [auto|by constructor|done..].
  - destruct Ha as [La Ha], Hb as [Lb Hb]. intros Hv.
    destruct a, b; simpl in *; inversion Hv; subst;
      try (left; apply Z.eqb_refl); right;
      try apply Z.eqb_refl; try (by apply bool_decide_eq_true);
      try by apply sequenceEquals_iff.
    + by apply mapKeyEquals_iff.
    + apply setEquals_iff; auto.
Qed.

Lemma eqvView_sym v w : eqvView n v w -> eqvView n w v.
Proof. destruct 1; constructor; by try symmetry; try apply permuted_sym; try apply _. Qed.

Lemma eqvView_trans u v w : eqvView n u v -> eqvView n v w -> eqvView n u w.
Proof.
  destruct 1; inversion_clear 1; constructor;
    try (etransitivity; eassumption); (eapply permuted_trans; [apply _|eassumption..]).
Qed.

(** ** Hashes *)

Lemma sum_hash (f : obj * obj -> Z) m s :
  fold_left (fun sum e => u64 (sum + f e)) m (u64 s) = u64 (s + foldr Z.add 0 (map f m)).
Proof.
  revert s. induction m as [|e m IH]; intros s; simpl; [by rewrite Z.add_0_r|].
  assert (u64 (u64 s + f e) = u64 (s + f e)) as -> by (unfold u64; apply Zplus_mod_idemp_l).
  by rewrite IH, Z.add_assoc.
Qed.

Lemma sum_permuted (R : obj * obj -> obj * obj -> Prop) (f : obj * obj -> Z) a b :
  (forall e e', R e e' -> f e = f e') -> permuted R a b ->
  fold_left (fun sum e => u64 (sum + f e)) a 0 = fold_left (fun sum e => u64 (sum + f e)) b 0.
Proof.
  intros HR (b' & Hp & HF). change 0 with (u64 0). rewrite !sum_hash. do 2 f_equal.
  transitivity (foldr Z.add 0 (map f b')).
  - clear Hp. induction HF as [|e e' a b' He HF IH]; simpl; [done|]. by rewrite IH, (HR e e').
  - clear HF. induction Hp as [|e l l' _ IH|e e' l|l1 l2 l3 _ IH1 _ IH2]; simpl; try lia.
Qed.

Lemma hash_Forall2 xs ys :
  Forall2 (eqv n) xs ys -> sequenceHash (keyHash n) xs = sequenceHash (keyHash n) ys.
Proof.
  intros HF. unfold sequenceHash. rewrite (Forall2_length _ _ _ HF).
  generalize (combine kSaltSequence (Z.of_nat (length ys))) as h.
  induction HF as [|x y xs ys (Wx & Wy & E) HF IH]; intros h; simpl; [done|].
  by rewrite (law_hash n L x y), IH.
Qed.

Lemma hash_view a b :
  wf (S n) a -> wf (S n) b -> eqvView n (viewOf a) (viewOf b) ->
  keyHash (S n) a = keyHash (S n) b.
Proof.
  intros Ha Hb Hv. destruct (same a b) eqn:Es; [by rewrite (same_eq _ _ a b Ha Hb Es)|].
  unfold same in Es.
  assert (forall e e', eqv n e e' -> keyHash n e = keyHash n e') as HE
    by (intros ?? (? & ? & ?); by apply (law_hash n L)).
  destruct a, b; simpl in Hv, Es; inversion Hv; subst; try (by rewrite Z.eqb_refl in Es);
    simpl; try done; try by apply hash_Forall2.
  - unfold mapHash. rewrite (permuted_length _ _ _ H3).
    erewrite (sum_permuted (eqvEntry n)); [reflexivity| |exact H3].
    intros e e' [??]. by rewrite (HE e.1 e'.1), (HE e.2 e'.2).
  - unfold setHash. rewrite (permuted_length _ _ _ H3).
    rewrite (sum_permuted (eqvKey n) (fun e => keyHash n e.1) _ _ (fun e e' => HE e.1 e'.1) H3).
    reflexivity.
Qed.

Lemma lawful_S : lawful (S n).
Proof.
  split.
  - intros a Ha. apply keyEquals_iff; auto using eqvView_refl.
  - intros a b Ha Hb E%keyEquals_iff; [|done..]. apply keyEquals_iff; auto using eqvView_sym.
  - intros a b c Ha Hb Hc E1%keyEquals_iff E2%keyEquals_iff; [|done..].
    apply keyEquals_iff; eauto using eqvView_trans.
  - intros a b Ha Hb E%keyEquals_iff; [|done..]. by apply hash_view.
Qed.

End Level.

Lemma lawful_all n : lawful n.
Proof. induction n as [|n IH]; [by split|by apply lawful_S]. Qed.

(** ** Enough fuel: more of it changes nothing *)

Record stable (n : nat) : Prop := {
  stable_wf : forall a, wf n a -> wf (S n) a;
  stable_eq : forall a b, wf n a -> wf n b -> keyEquals (S n) a b = keyEquals n a b;
  stable_hash : forall a, wf n a -> keyHash (S n) a = keyHash n a;
}.

Lemma stable_eqv n a b : stable n -> wf n a -> wf n b -> eqv (S n) a b <-> eqv n a b.
Proof.
  intros St Ha Hb. unfold eqv. rewrite (stable_eq n St a b Ha Hb).
  split; intros (_ & _ & E); (split; [|split]); auto using stable_wf.
Qed.

Lemma stable_entries n m : stable n -> wfEntries n m -> wfEntries (S n) m.
Proof.
  intros St Hm. destruct Hm as [Hc Hd]. split.
  - apply (Forall_impl _ _ _ Hc). intros e []. split; by apply stable_wf.
  - intros i j e e' Hi Hj Hn. apply (Hd i j e e'); [done..|].
    rewrite Forall_forall in Hc.
    destruct (Hc e) as [W _]; [by eapply list_elem_of_lookup_2|].
    destruct (Hc e') as [W' _]; [by eapply list_elem_of_lookup_2|].
    apply (names_eqv (S n) (lawful_all _)) in Hn; [|by apply stable_wf..].
    apply (names_eqv n (lawful_all n)); [done..|]. by apply stable_eqv.
Qed.

Lemma stable_view n a b :
  stable n -> wf (S n) a -> wf (S n) b ->
  eqvView (S n) (viewOf a) (viewOf b) <-> eqvView n (viewOf a) (viewOf b).
Proof.
  intros St [_ Ha] [_ Hb].
  destruct a, b; simpl in *; split; inversion 1; subst; constructor;
    match goal with
    | H : Forall2 ?R _ _ |- _ => apply (Forall2_on (wf n) R _ _ _ Ha Hb); [|exact H]
    | H : permuted ?R _ _ |- _ =>
        apply (permuted_on (fun e => wf n e.1 /\ wf n e.2) R _ _ _ (proj1 Ha) (proj1 Hb)); [|exact H]
    end.
  all: try (intros; by apply stable_eqv).
  all: intros x y [] []; unfold eqvEntry, eqvKey; by rewrite !stable_eqv by done.
Qed.

Lemma keyHash_S n key :
  keyHash (S n) key =
    match key with
    | Str _ text => combine kSaltString (stringHash text)
    | Embedded w => combine (if isSmallInt key then kSaltInteger else kSaltIdentity) w
    | Dbl _ bits => combine kSaltDouble bits
    | Big _ value => combine kSaltBigInt (bigHash value)
    | PList _ items | Vec _ items | LList _ items | SeqObj _ items => sequenceHash (keyHash n) items
    | MapObj _ m => mapHash (keyHash n) m
    | SetObj _ m => setHash (keyHash n) m
    | Named a _ | Pattern a _ | Cell a _ _ => combine kSaltIdentity a
    end.
Proof. reflexivity. Qed.

Lemma stable_all n : stable n.
Proof.
  induction n as [|n St]; [by split|].
  assert (forall a, wf (S n) a -> wf (S (S n)) a) as Hwf.
  { intros a [La Ha]. split; [done|].
    destruct a; try done; try (apply (Forall_impl _ _ _ Ha); by apply stable_wf).
    all: by apply stable_entries. }
  split; [done|..].
  - intros a b Ha Hb. apply eq_true_iff_eq.
    rewrite !keyEquals_iff by auto using lawful_all. by apply stable_view.
  - intros a [La Ha]. rewrite (keyHash_S (S n)), (keyHash_S n a).
    assert (Forall (wf n) (sequenceItems a) -> sequenceHash (keyHash (S n)) (sequenceItems a) =
              sequenceHash (keyHash n) (sequenceItems a)) as Hseq.
    { intros Hs. apply (fold_ext (wf n)); [done|]. intros. f_equal. by apply stable_hash. }
    destruct a; cbv beta iota;
      [reflexivity|reflexivity|reflexivity|reflexivity|by apply Hseq|by apply Hseq|by apply Hseq
      |by apply Hseq| | |reflexivity|reflexivity|reflexivity].
    + unfold mapHash. erewrite (fold_ext (fun e => wf n e.1 /\ wf n e.2)); [reflexivity|apply Ha|].
      intros s e []. by rewrite !(stable_hash n St) by done.
    + unfold setHash. erewrite (fold_ext (fun e => wf n e.1 /\ wf n e.2)); [reflexivity|apply Ha|].
      intros s e []. by rewrite (stable_hash n St) by done.
Qed.

Lemma fuel_enough n k : forall a b, wf n a -> wf n b ->
  wf (k + n) a /\ keyEquals (k + n) a b = keyEquals n a b /\ keyHash (k + n) a = keyHash n a.
Proof.
  induction k as [|k IH]; [done|]. intros a b Ha Hb.
  destruct (IH a b Ha Hb) as (Wa & E & Hh), (IH b a Hb Ha) as (Wb & _).
  destruct (stable_all (k + n)) as [S1 S2 S3]. simpl Nat.add.
  split; [by apply S1|]. by rewrite S2, S3.
Qed.

(** ** Maps and sets by their look-ups *)

Lemma index_injective n m (R : obj * obj -> obj * obj -> Prop) i j x y z :
  wfEntries n m -> (forall e e', R e e' -> eqv n e.1 e'.1) ->
  m !! i = Some x -> m !! j = Some y -> R x z -> R y z -> i = j.
Proof.
  intros Hm HR Hi Hj Hx%HR Hy%HR. apply (index_unique n (lawful_all n) m i j x y); [done..|].
  pose proof (eqv_symmetric n (lawful_all n)). pose proof (eqv_transitive n (lawful_all n)).
  transitivity z.1; [done|by symmetry].
Qed.

(** One map's entries all found in another, both ways: equal up to order. *)
Lemma permuted_both n (R : obj * obj -> obj * obj -> Prop) m m' :
  wfEntries n m -> wfEntries n m' -> Symmetric R -> (forall e e', R e e' -> eqv n e.1 e'.1) ->
  (forall e, e ∈ m -> exists e', e' ∈ m' /\ R e e') ->
  (forall e, e ∈ m' -> exists e', e' ∈ m /\ R e e') -> permuted R m m'.
Proof.
  intros Hm Hm' Hs HR H1 H2. apply permuted_pigeonhole; [|done|].
  - intros i j x y z. by apply (index_injective n _ R).
  - apply Nat.le_antisymm; eapply injection_length; try done; intros i j x y z; by apply (index_injective n _ R).
Qed.

Lemma get_related n R m m' k v :
  wfEntries n m -> wfEntries n m' -> wf n k -> (forall e e', R e e' -> eqv n e.1 e'.1) ->
  permuted R m m' -> mapGet n m k = Some v ->
  exists k1 k2 v', mapGet n m' k = Some v' /\ R (k1, v) (k2, v').
Proof.
  intros Hm Hm' Hk HR Hp (k1 & Hin & He)%(get_Some n (lawful_all n)); [|done..].
  destruct (permuted_elem _ _ _ _ Hp Hin) as ([k2 v'] & Hin' & Hr).
  exists k1, k2, v'. split; [|done]. apply (get_Some n (lawful_all n)); [done..|].
  exists k2. split; [done|]. pose proof (eqv_transitive n (lawful_all n)).
  transitivity k1; [done|]. by apply (HR (k1, v) (k2, v')).
Qed.

Lemma get_entry n m e : wfEntries n m -> e ∈ m -> mapGet n m e.1 = Some e.2.
Proof.
  intros Hm He. destruct (wf_entry n m e Hm He) as [Wk _].
  apply (get_Some n (lawful_all n)); [done..|]. exists e.1. destruct e. split; [done|].
  by apply (eqv_refl n (lawful_all n)).
Qed.

Lemma maps_extensional n m m' :
  wfEntries n m -> wfEntries n m' ->
  permuted (eqvEntry n) m m' <->
  forall k, wf n k -> option_Forall2 (eqv n) (mapGet n m k) (mapGet n m' k).
Proof.
  intros Hm Hm'. pose proof (lawful_all n) as L. pose proof (eqvEntry_symmetric n L).
  assert (forall e e', eqvEntry n e e' -> eqv n e.1 e'.1) as HR by (by intros ?? []). split.
  - intros Hp k Hk. destruct (mapGet n m k) as [v|] eqn:G.
    + destruct (get_related n _ m m' k v Hm Hm' Hk HR Hp G) as (? & ? & v' & -> & []). by constructor.
    + destruct (mapGet n m' k) as [v'|] eqn:G'; [|constructor].
      apply permuted_sym in Hp; [|done].
      destruct (get_related n _ m' m k v' Hm' Hm Hk HR Hp G') as (? & ? & ? & ? & _). congruence.
  - intros Hk. apply (permuted_both n); try done; intros e He.
    + specialize (Hk e.1 (proj1 (wf_entry n m e Hm He))). rewrite (get_entry n m e Hm He) in Hk.
      destruct (mapGet n m' e.1) as [v'|] eqn:G; inversion Hk; subst.
      apply (get_Some n L) in G as (k' & Hin & ?); [by exists (k', v')|done|apply (wf_entry n m e Hm He)].
    + specialize (Hk e.1 (proj1 (wf_entry n m' e Hm' He))). rewrite (get_entry n m' e Hm' He) in Hk.
      destruct (mapGet n m e.1) as [v'|] eqn:G; inversion Hk; subst.
      apply (get_Some n L) in G as (k' & Hin & ?); [|done|apply (wf_entry n m' e Hm' He)].
      exists (k', v'). do 2 (split; [done|]). by apply (eqv_symmetric n L).
Qed.

Lemma sets_extensional n m m' :
  wfEntries n m -> wfEntries n m' ->
  permuted (eqvKey n) m m' <-> forall k, wf n k -> mapGet n m k = None <-> mapGet n m' k = None.
Proof.
  intros Hm Hm'. pose proof (lawful_all n) as L. pose proof (eqvKey_symmetric n L).
  assert (forall e e', eqvKey n e e' -> eqv n e.1 e'.1) as HR by done.
  assert (forall m m', wfEntries n m -> wfEntries n m' -> permuted (eqvKey n) m m' ->
    forall k, wf n k -> mapGet n m' k = None -> mapGet n m k = None) as Hhalf.
  { intros m1 m2 W1 W2 Hp k Hk G. destruct (mapGet n m1 k) as [v|] eqn:G1; [|done].
    destruct (get_related n _ m1 m2 k v W1 W2 Hk HR Hp G1) as (? & ? & ? & ? & _). congruence. }
  assert (forall m m', wfEntries n m -> wfEntries n m' ->
    (forall k, wf n k -> mapGet n m' k = None -> mapGet n m k = None) ->
    forall e, e ∈ m -> exists e', e' ∈ m' /\ eqvKey n e e') as Hback.
  { intros m1 m2 W1 W2 Hg e He. pose proof (proj1 (wf_entry n m1 e W1 He)) as We.
    destruct (mapGet n m2 e.1) as [v'|] eqn:G.
    - apply (get_Some n L) in G as (k' & Hin & ?); [by exists (k', v')|done..].
    - apply Hg in G; [|done]. by rewrite (get_entry n m1 e W1 He) in G. }
  split.
  - intros Hp k Hk. split; [apply (Hhalf m' m); try done; by apply permuted_sym|by apply Hhalf].
  - intros Hk. apply (permuted_both n); try done; apply Hback; try done; intros; by apply Hk.
Qed.

Lemma mapGet_wf n m k v : wfEntries n m -> wf n k -> mapGet n m k = Some v -> wf n v.
Proof.
  intros Hm Hk (k' & Hin & _)%(get_Some n (lawful_all n)); [|done..].
  apply (wf_entry n m (k', v) Hm Hin).
Qed.

Lemma eqvView_seq n xs ys :
  Forall (wf n) xs -> Forall (wf n) ys ->
  eqvView n (VSeq xs) (VSeq ys) <-> Forall2 (fun x y => keyEquals n x y = true) xs ys.
Proof.
  intros Hx Hy. split.
  - inversion_clear 1 as [| | | |? ? HF| |]. by apply (Forall2_impl _ _ _ _ HF); intros ?? (_ & _ & ?).
  - intros HF. constructor. eapply (Forall2_on (wf n)); [done..| |exact HF]. by intros.
Qed.

Lemma eqvView_map n m m' :
  wfEntries n m -> wfEntries n m' ->
  eqvView n (VMap m) (VMap m') <->
  forall k, wf n k ->
    option_Forall2 (fun v v' => keyEquals n v v' = true) (mapGet n m k) (mapGet n m' k).
Proof.
  intros Hm Hm'.
  assert (eqvView n (VMap m) (VMap m') <-> permuted (eqvEntry n) m m') as ->
    by (split; [by inversion 1|by constructor]).
  rewrite maps_extensional by done. split; intros Hk k Wk; specialize (Hk k Wk).
  - destruct Hk as [v v' (_ & _ & E)|]; by constructor.
  - destruct (mapGet n m k) as [v|] eqn:G, (mapGet n m' k) as [v'|] eqn:G';
      inversion Hk; subst; constructor.
    repeat split; [apply (mapGet_wf n m k)|apply (mapGet_wf n m' k)|]; done.
Qed.

Lemma eqvView_set n m m' :
  wfEntries n m -> wfEntries n m' ->
  eqvView n (VSet m) (VSet m') <-> forall k, wf n k -> mapGet n m k = None <-> mapGet n m' k = None.
Proof.
  intros Hm Hm'. rewrite <- sets_extensional by done. split; [by inversion 1|by constructor].
Qed.

(** ** What a program sees *)

Lemma keyEquals_sym n a b : wf n a -> wf n b -> keyEquals n a b = keyEquals n b a.
Proof.
  intros Ha Hb. apply eq_true_iff_eq. split; intros; by apply (law_sym n (lawful_all n)).
Qed.

Lemma names_keyEquals n a b :
  wf n a -> wf n b -> names (clojureKeySemantics n) a b = keyEquals n a b.
Proof.
  intros Ha Hb. apply eq_true_iff_eq. rewrite (names_eqv n (lawful_all n)) by done.
  split; [by intros (_ & _ & ?)|]. intros E. by split; [|split].
Qed.

(** C10. Being one key is an equivalence on values of any nesting; equal keys
    have equal hashes, so a hashed look-up names exactly the keys equal to the
    one given; a key matched by identity is equal to itself only; and nesting
    deeper than the values changes no answer. *)
Theorem key_equality n a b c :
  wf n a -> wf n b -> wf n c ->
  keyEquals n a a = true /\
  keyEquals n a b = keyEquals n b a /\
  (keyEquals n a b = true -> keyEquals n b c = keyEquals n a c) /\
  (keyEquals n a b = true -> keyHash n a = keyHash n b) /\
  names (clojureKeySemantics n) a b = keyEquals n a b /\
  (keyIsIdentity a = true -> keyEquals n a b = true -> a = b) /\
  forall k, keyEquals (k + n) a b = keyEquals n a b /\ keyHash (k + n) a = keyHash n a.
Proof.
  intros Ha Hb Hc. pose proof (lawful_all n) as L. repeat split.
  - by apply (law_refl n L).
  - by apply keyEquals_sym.
  - intros E. apply eq_true_iff_eq. split; intros E'.
    + by apply (law_trans n L a b c).
    + apply (law_trans n L b a c); try done. by apply (law_sym n L).
  - by apply (law_hash n L).
  - by apply names_keyEquals.
  - intros Hi E. apply (identity_eqv n); [done|by repeat split|auto].
  - apply (fuel_enough n k a b Ha Hb).
  - apply (fuel_enough n k a b Ha Hb).
Qed.

(** Values compare by their contents: two sequential values are one key when
    their elements are, pairwise, whatever kind of sequence holds them; two maps
    are when every key looks up equal values in both; two sets when they contain
    the same keys; and values of different kinds never are. *)
Theorem collections_compare n a b :
  wf (S n) a -> wf (S n) b ->
  keyEquals (S n) a b = true <->
  match viewOf a, viewOf b with
  | VId x, VId y | VDbl x, VDbl y | VBig x, VBig y => x = y
  | VStr s, VStr t => s = t
  | VSeq xs, VSeq ys => Forall2 (fun x y => keyEquals n x y = true) xs ys
  | VMap m, VMap m' =>
      forall k, wf n k ->
        option_Forall2 (fun v v' => keyEquals n v v' = true) (mapGet n m k) (mapGet n m' k)
  | VSet s, VSet s' => forall k, wf n k -> mapGet n s k = None <-> mapGet n s' k = None
  | _, _ => False
  end.
Proof.
  intros Ha Hb. rewrite (keyEquals_iff n (lawful_all n)) by done.
  destruct Ha as [_ Ha], Hb as [_ Hb].
  destruct a, b; cbn [viewOf] in *; rewrite ?eqvView_seq, ?eqvView_map, ?eqvView_set by done;
    try done; split; try (by inversion 1); try (by intros ->; constructor).
Qed.

End WellFormed.

(** ** An implementation: entries in one list *)
Module ListMaps.

Definition listGet (sem : KeySemantics) (m : entries) (k : obj) : option obj :=
  snd <$> find (fun e : obj * obj => names sem k e.1) m.

Fixpoint listPut (sem : KeySemantics) (m : entries) (k v : obj) : entries :=
  match m with
  | [] => [(k, v)]
  | e :: m => if names sem k e.1 then (e.1, v) :: m else e :: listPut sem m k v
  end.

Fixpoint listRemove (sem : KeySemantics) (m : entries) (k : obj) : entries :=
  match m with
  | [] => []
  | e :: m => if names sem k e.1 then m else e :: listRemove sem m k
  end.

#[export] Instance listMaps : HashedMaps := {
  stringHash := fun s => fold_left (fun h c => u64 (h * 31 + u8 c)) s 0;
  bigHash := u64;
  hashedGet := listGet;
  hashedPut := listPut;
  hashedRemove := listRemove;
}.

(** The named entry comes before the first one not named, or there is none. *)
Lemma named_split sem (m : entries) k k' v' (m' : entries) :
  m ≡ₚ (k', v') :: m' -> names sem k k' = true -> (forall e, e ∈ m' -> names sem k e.1 = false) ->
  exists l1 l2, m = l1 ++ (k', v') :: l2 /\ m' ≡ₚ l1 ++ l2 /\
    forall e, e ∈ l1 -> names sem k e.1 = false.
Proof.
  intros Hm Hn Hno.
  assert ((k', v') ∈ m) as (l1 & l2 & ->)%list_elem_of_split by (rewrite Hm; by left).
  assert (m' ≡ₚ l1 ++ l2) as Hp.
  { symmetry in Hm. rewrite <- Permutation_middle in Hm. by apply Permutation_cons_inv in Hm. }
  exists l1, l2. do 2 (split; [done|]). intros e He. apply Hno. rewrite Hp. apply elem_of_app. auto.
Qed.

#[export] Instance listMaps_laws : HashedLaws.
Proof.
  split; simpl.
  - intros sem m k v. unfold listGet. destruct (find _ m) as [[k' v']|] eqn:F; [|done].
    intros [= <-]. apply find_some in F as [Hin Hn]. exists k'. split; [by apply list_elem_of_In|done].
  - intros sem m k. unfold listGet. destruct (find _ m) eqn:F; [done|]. intros _ e He.
    by apply (find_none _ _ F), list_elem_of_In.
  - intros sem m k v Hno. induction m as [|e m IH]; simpl; [done|].
    rewrite (Hno e) by by left. rewrite IH by (intros; apply Hno; by right). constructor.
  - intros sem m m' k v k' v' Hm Hn Hno.
    destruct (named_split sem m k k' v' m' Hm Hn Hno) as (l1 & l2 & -> & -> & Hl). clear Hm Hno.
    induction l1 as [|e l1 IH]; simpl; [by rewrite Hn|].
    rewrite (Hl e) by by left. rewrite IH by (intros; apply Hl; by right). constructor.
  - intros sem m m' k k' v' Hm Hn Hno.
    destruct (named_split sem m k k' v' m' Hm Hn Hno) as (l1 & l2 & -> & -> & Hl). clear Hm Hno.
    induction l1 as [|e l1 IH]; simpl; [by rewrite Hn|].
    rewrite (Hl e) by by left. by rewrite IH by (intros; apply Hl; by right).
Qed.

(** ** A heap: [1], ["a"], the vector [[1 "a"]], the list [(1 "a")], and two maps
    from one of these to a keyword. *)
Definition one : obj := Embedded 0x401.
Definition strA : obj := Str 64 (s2b "a").
Definition vec1A : obj := Vec 128 [one; strA].
Definition list1A : obj := LList 192 [one; strA].
Definition kw : obj := Named 256 (s2b ":k").
Definition mapV : obj := MapObj 320 [(vec1A, kw); (one, strA)].
Definition mapL : obj := MapObj 384 [(one, strA); (list1A, kw)].

Definition demoHeap (v : obj) : Prop := v ∈ [one; strA; vec1A; list1A; kw; mapV; mapL].

#[export] Instance demoHeap_heap : Heap demoHeap.
Proof.
  intros a b Ha Hb. unfold demoHeap in *. rewrite !elem_of_cons in Ha, Hb.
  destruct_or! Ha; destruct_or! Hb; subst; try done; intros E; discriminate E || by apply not_elem_of_nil in Ha || by apply not_elem_of_nil in Hb.
Qed.

Ltac demo_live := unfold demoHeap; rewrite !elem_of_cons; tauto.

Ltac demo_distinct :=
  intros [|[|?]] [|[|?]] ? ? [= <-] [= <-] Hn; try reflexivity; vm_compute in Hn; discriminate Hn.

Ltac demo_wf :=
  simpl; repeat first
    [ demo_live | split | done | apply Forall_nil | apply Forall_cons
    | match goal with |- distinct _ _ => demo_distinct end ].

Lemma demo_mapV : wf demoHeap 3 mapV.
Proof. demo_wf. Qed.

Lemma demo_mapL : wf demoHeap 3 mapL.
Proof. demo_wf. Qed.

(** Two maps built in different orders, one with a vector and one with the equal
    list as a key, are one key. *)
Lemma key_equality_witness :
  keyEquals 3 mapV mapL = true /\
  keyHash 3 mapV = keyHash 3 mapL /\
  keyEquals (7 + 3) mapV mapL = keyEquals 3 mapV mapL.
Proof.
  destruct (key_equality demoHeap 3 mapV mapL mapV demo_mapV demo_mapL demo_mapV)
    as (_ & _ & _ & Hh & _ & _ & Hk).
  split; [vm_compute; reflexivity|]. split; [apply Hh; vm_compute; reflexivity|apply Hk].
Defined.

Lemma collections_compare_witness :
  keyEquals 3 mapV mapL = true /\
  forall k, wf demoHeap 2 k ->
    option_Forall2 (fun v v' => keyEquals 2 v v' = true)
      (mapGet 2 (mapEntries mapV) k) (mapGet 2 (mapEntries mapL) k).
Proof.
  assert (keyEquals 3 mapV mapL = true) as He by (vm_compute; reflexivity).
  split; [exact He|].
  apply (proj1 (collections_compare demoHeap 2 mapV mapL demo_mapV demo_mapL)), He.
Defined.

End ListMaps.
