(* ===== verification/FiniteMaps.v ===== *)
(** The operations on maps and sets implement a finite map and a finite set over
    the classes of equal keys (runtime/MapOps.cpp, SetOps.cpp), whatever map
    implements [HashedMaps]. *)

From S2P Require Import Prelude Values Maps KeyEquality.

#[local] Set Warnings "-register-all".
#[local] Open Scope Z_scope.

(** ** The abstract map *)

Record spec := mkSpec { spec_get : obj -> option obj; spec_size : nat }.

(** The operations a program performs: [assoc] of keys and values, [dissoc]. *)
Inductive mapOp :=
| OpAssoc (kv : list obj)
| OpDissoc (key : obj).

Lemma mapCount_length m : mapCount m = Z.of_nat (length m).
Proof.
  unfold mapCount. assert (forall z, fold_left (fun n _ => n + 1) m z = z + Z.of_nat (length m)) as ->.
  { induction m as [|e m IH]; intros z; simpl; [lia|]. rewrite IH. lia. }
  done.
Qed.

Section FiniteMaps.
Context `{HashedLaws} (live : obj -> Prop) `{!Heap live} (n : nat).

#[local] Abbreviation wf := (wf live).
#[local] Abbreviation eqv := (eqv live).
#[local] Abbreviation wfEntries := (wfEntries live).

Definition spec_empty : spec := mkSpec (fun _ => None) 0.

Definition spec_assoc (f : spec) (k v : obj) : spec :=
  mkSpec (fun k' => if keyEquals n k k' then Some v else spec_get f k')
    (match spec_get f k with Some _ => spec_size f | None => S (spec_size f) end).

Definition spec_dissoc (f : spec) (k : obj) : spec :=
  mkSpec (fun k' => if keyEquals n k k' then None else spec_get f k')
    (match spec_get f k with Some _ => pred (spec_size f) | None => spec_size f end).

Fixpoint spec_assoc_all (f : spec) (kv : list obj) : spec :=
  match kv with
  | k :: v :: kv => spec_assoc_all (spec_assoc f k v) kv
  | _ => f
  end.

Definition spec_run (f : spec) (op : mapOp) : result bytes spec :=
  match op with
  | OpAssoc kv =>
      if negb (Nat.even (length kv)) then Throw (s2b "map: a key has no value")
      else Ok (spec_assoc_all f kv)
  | OpDissoc k => Ok (spec_dissoc f k)
  end.

Definition op_run (m : entries) (op : mapOp) : result bytes entries :=
  match op with
  | OpAssoc kv => mapAssocPairs n (Some m) kv
  | OpDissoc k => Ok (mapDissoc n m k)
  end.

Fixpoint spec_runs (f : spec) (ops : list mapOp) : result bytes spec :=
  match ops with
  | [] => Ok f
  | op :: ops => match spec_run f op with Ok f => spec_runs f ops | Throw e => Throw e end
  end.

Fixpoint op_runs (m : entries) (ops : list mapOp) : result bytes entries :=
  match ops with
  | [] => Ok m
  | op :: ops => match op_run m op with Ok m => op_runs m ops | Throw e => Throw e end
  end.

(** The map answers as the specification does, and counts its keys. *)
Definition refines (m : entries) (f : spec) : Prop :=
  wfEntries n m /\ (forall k, wf n k -> mapGet n m k = spec_get f k) /\ length m = spec_size f.

(** ** One operation *)

Lemma eqv_iff a b : wf n a -> wf n b -> eqv n a b <-> keyEquals n a b = true.
Proof. intros Ha Hb. split; [by intros (_ & _ & ?)|by intros]. Qed.

Lemma wfEntries_perm m m' : m ≡ₚ m' -> wfEntries n m -> wfEntries n m'.
Proof.
  intros Hp [Hc Hd]. split; [by rewrite <- Hp|]. symmetry in Hp.
  apply Permutation_inj in Hp as (_ & f & Hf & Hl). intros i j e e' Hi Hj Hn.
  rewrite Hl in Hi, Hj. apply Hf. by eapply Hd.
Qed.

Lemma wfEntries_cons e m :
  wfEntries n (e :: m) <->
  (wf n e.1 /\ wf n e.2) /\ wfEntries n m /\ forall e', e' ∈ m -> ~ eqv n e.1 e'.1.
Proof.
  pose proof (lawful_all live n) as L. pose proof (eqv_symmetric live n L). split.
  - intros Hm. assert (Hm' := Hm). destruct Hm as [Hc Hd].
    apply Forall_cons in Hc as [He Hc]. split; [done|]. split; [split; [done|]|].
    { intros i j x y Hi Hj Hn. by specialize (Hd (S i) (S j) x y Hi Hj Hn) as [= ->]. }
    intros e' [i Hi]%list_elem_of_lookup Hv.
    by specialize (index_unique live n L (e :: m) 0 (S i) e e' Hm' eq_refl Hi Hv).
  - intros (He & [Hc Hd] & Hno). split; [by constructor|]. rewrite Forall_forall in Hc.
    intros [|i] [|j] x y Hi Hj Hn; simpl in Hi, Hj; try done.
    + injection Hi as <-. apply list_elem_of_lookup_2 in Hj.
      apply (names_eqv live n L) in Hn; [by destruct (Hno y)|apply He|by apply Hc].
    + injection Hj as <-. apply list_elem_of_lookup_2 in Hi.
      apply (names_eqv live n L) in Hn; [|by apply Hc|apply He]. by destruct (Hno x).
    + f_equal. by eapply Hd.
Qed.

Lemma wfEntries_nil : wfEntries n [].
Proof. split; [done|]. by intros ????. Qed.

Lemma mapGet_nil x : wf n x -> mapGet n [] x = None.
Proof.
  intros Hx. apply (get_None live n (lawful_all live n)); [apply wfEntries_nil|done|].
  by intros ? ?%not_elem_of_nil.
Qed.

(** An entry with the key, and the entries without it. *)
Lemma split_entry m k v :
  wfEntries n m -> wf n k -> mapGet n m k = Some v ->
  exists k' m', m ≡ₚ (k', v) :: m' /\ eqv n k k' /\ wfEntries n m' /\ wf n k' /\ wf n v /\
    forall e, e ∈ m' -> ~ eqv n k e.1.
Proof.
  intros Hm Hk (k' & Hin & He)%(get_Some live n (lawful_all live n)); [|done..].
  apply elem_of_Permutation in Hin as (m' & Hp). exists k', m'. do 2 (split; [done|]).
  apply (wfEntries_perm _ _ Hp), wfEntries_cons in Hm as ([] & Hm & Hno). do 3 (split; [done|]).
  intros e Hin Hv. apply (Hno e Hin).
  pose proof (eqv_symmetric live n (lawful_all live n)).
  pose proof (eqv_transitive live n (lawful_all live n)). simpl. transitivity k; [by symmetry|done].
Qed.

Lemma not_named m k :
  wfEntries n m -> wf n k -> (forall e, e ∈ m -> ~ eqv n k e.1) ->
  forall e, e ∈ m -> names (clojureKeySemantics n) k e.1 = false.
Proof.
  intros Hm Hk Hno e He. apply not_true_is_false. intros Hn. apply (Hno e He).
  by apply (names_eqv live n (lawful_all live n)); [|apply (wf_entry live n m)|].
Qed.

(** Entries in another order look up alike. *)
Lemma mapGet_perm m m' k : m ≡ₚ m' -> wfEntries n m -> wf n k -> mapGet n m k = mapGet n m' k.
Proof.
  intros Hp Hm Hk. pose proof (wfEntries_perm _ _ Hp Hm) as Hm'. apply option_eq. intros v.
  unfold mapGet. rewrite !(get_Some live n (lawful_all live n)) by done. by setoid_rewrite Hp.
Qed.

Lemma mapGet_cons m k v k' :
  wfEntries n ((k, v) :: m) -> wf n k' ->
  mapGet n ((k, v) :: m) k' = if keyEquals n k' k then Some v else mapGet n m k'.
Proof.
  intros Hm Hk'. assert (Hc := Hm). apply wfEntries_cons in Hc as ([Wk Wv] & Hm' & Hno).
  pose proof (lawful_all live n) as L. simpl in *. destruct (keyEquals n k' k) eqn:E.
  - apply (get_Some live n L); [done..|]. exists k. split; [by left|]. by apply eqv_iff.
  - apply option_eq. intros x. unfold mapGet. rewrite !(get_Some live n L) by done.
    split; intros (k1 & Hin & He); exists k1; (split; [|done]); [|by right].
    apply elem_of_cons in Hin as [[= -> ->]|]; [|done]. destruct He as (_ & _ & E'). congruence.
Qed.

(** ** assoc and dissoc *)

(** What [assoc] stores: a key already there stays, with the new value. *)
Lemma assoc_entries m k v :
  wfEntries n m -> wf n k -> wf n v ->
  exists k' m', assoc n m k v ≡ₚ (k', v) :: m' /\ wfEntries n ((k', v) :: m') /\ eqv n k k' /\
    match mapGet n m k with
    | Some old => m ≡ₚ (k', old) :: m'
    | None => k' = k /\ m' = m
    end.
Proof.
  intros Hm Hk Hv. unfold assoc. destruct (mapGet n m k) as [old|] eqn:G.
  - destruct (split_entry m k old Hm Hk G) as (k' & m' & Hp & He & Hm' & Wk' & _ & Hno).
    pose proof (proj2 (names_eqv live n (lawful_all live n) k k' Hk Wk') He) as Hn.
    exists k', m'. split; [by apply (hashedPut_old _ m m' k v k' old Hp Hn), not_named|].
    split; [|done]. apply wfEntries_cons. do 2 (split; [done|]). simpl.
    pose proof (eqv_symmetric live n (lawful_all live n)).
    pose proof (eqv_transitive live n (lawful_all live n)).
    intros e Hin Hv'. apply (Hno e Hin). by transitivity k'.
  - pose proof (proj1 (get_None live n (lawful_all live n) m k Hm Hk) G) as Hno.
    exists k, m. split; [by apply hashedPut_new, not_named|].
    split; [by apply wfEntries_cons|]. split; [by apply eqv_refl; [apply lawful_all|]|done].
Qed.

Lemma keyEquals_class k k' x :
  wf n x -> eqv n k k' -> keyEquals n x k' = keyEquals n k x.
Proof.
  intros Hx He. pose proof (eqv_symmetric live n (lawful_all live n)) as Hs.
  pose proof (eqv_transitive live n (lawful_all live n)) as Ht. assert (He' := He).
  destruct He' as (Hk & Hk' & _). apply eq_true_iff_eq.
  rewrite <- (eqv_iff x k'), <- (eqv_iff k x) by done. split; intros E.
  - transitivity k'; [done|by symmetry].
  - transitivity k; [by symmetry|done].
Qed.

Lemma assoc_refines m f k v :
  refines m f -> wf n k -> wf n v -> refines (assoc n m k v) (spec_assoc f k v).
Proof.
  intros (Hm & Hg & Hl) Hk Hv.
  destruct (assoc_entries m k v Hm Hk Hv) as (k' & m' & Hp & Hm' & He & Hold).
  split; [by apply (wfEntries_perm ((k', v) :: m'))|]. split.
  - intros x Hx. rewrite (mapGet_perm _ _ x Hp) by (done || by apply (wfEntries_perm ((k', v) :: m'))).
    rewrite mapGet_cons, (keyEquals_class k k' x Hx He) by done. simpl.
    destruct (keyEquals n k x) eqn:E; [done|]. rewrite <- Hg by done.
    destruct (mapGet n m k) as [old|] eqn:G; [|by destruct Hold as [_ ->]].
    rewrite (mapGet_perm _ _ x Hold Hm Hx), mapGet_cons; [|by apply (wfEntries_perm m)|done].
    by rewrite (keyEquals_class k k' x Hx He), E.
  - rewrite Hp. simpl. rewrite <- Hg, <- Hl by done.
    destruct (mapGet n m k) as [old|]; [by rewrite Hold|by destruct Hold as [_ ->]].
Qed.

Lemma dissoc_refines m f k :
  refines m f -> wf n k -> refines (mapDissoc n m k) (spec_dissoc f k).
Proof.
  intros (Hm & Hg & Hl) Hk. pose proof (lawful_all live n) as L.
  assert (mapDissoc n m k = match mapGet n m k with
                            | Some _ => hashedRemove (clojureKeySemantics n) m k
                            | None => m
                            end) as ->.
  { unfold mapDissoc, mapIsEmpty, dissoc, mapGet. destruct m as [|e m]; [|by destruct (hashedGet (clojureKeySemantics n) (e :: m) k)].
    fold (mapGet n [] k). by rewrite mapGet_nil. }
  unfold refines, spec_dissoc; simpl. rewrite <- Hg by done.
  destruct (mapGet n m k) as [old|] eqn:G.
  - destruct (split_entry m k old Hm Hk G) as (k' & m' & Hp & He & Hm' & Wk' & _ & Hno).
    pose proof (proj2 (names_eqv live n L k k' Hk Wk') He) as Hn.
    pose proof (hashedRemove_old (clojureKeySemantics n) m m' k k' old Hp Hn
      (not_named m' k Hm' Hk Hno)) as Hr.
    split; [by apply (wfEntries_perm m')|]. split; [|by rewrite Hr, <- Hl, Hp].
    intros x Hx. rewrite (mapGet_perm _ _ x Hr) by (done || by apply (wfEntries_perm m')).
    rewrite <- Hg by done. rewrite (mapGet_perm _ _ x Hp Hm Hx), mapGet_cons;
      [|by apply (wfEntries_perm m)|done]. rewrite (keyEquals_class k k' x Hx He).
    destruct (keyEquals n k x) eqn:E; [|done].
    apply (get_None live n L); [done..|]. intros e Hin Hv. apply (Hno e Hin).
    pose proof (eqv_transitive live n L). transitivity x; [by apply eqv_iff|done].
  - split; [done|]. split; [|done]. intros x Hx.
    destruct (keyEquals n k x) eqn:E; [|by apply Hg].
    apply (get_None live n L); [done..|]. intros e Hin Hv.
    apply (proj1 (get_None live n L m k Hm Hk) G e Hin).
    pose proof (eqv_transitive live n L). transitivity x; [by apply eqv_iff|done].
Qed.

Lemma assoc_all_refines m f kv :
  refines m f -> Forall (wf n) kv -> refines (assocAll n m kv) (spec_assoc_all f kv).
Proof.
  revert m f. induction kv as [kv IH] using (induction_ltof1 _ (@length obj)).
  intros m f Hr Hkv. destruct kv as [|k [|v kv]]; try done. simpl.
  inversion Hkv as [|? ? Hk Hkv']; subst. inversion Hkv'; subst.
  apply IH; [unfold ltof; simpl; lia|by apply assoc_refines|done].
Qed.

Definition wfOp (op : mapOp) : Prop :=
  match op with OpAssoc kv => Forall (wf n) kv | OpDissoc k => wf n k end.

(** C31. Maps implement a finite map over the classes of equal keys: from maps
    that answer as the specification does, any sequence of associations and
    removals fails exactly when the specification does (a key without a value),
    with the same error, and otherwise leads to a map that answers every look-up
    as the specification, and counts as many keys. *)
Theorem map_refines m f ops :
  refines m f -> Forall wfOp ops ->
  match op_runs m ops, spec_runs f ops with
  | Ok m', Ok f' => refines m' f' /\ mapCount m' = Z.of_nat (spec_size f')
  | Throw e, Throw e' => e = e'
  | _, _ => False
  end.
Proof.
  intros Hr Hops. revert m f Hr. induction Hops as [|op ops Hop _ IH]; intros m f Hr; simpl.
  - split; [done|]. destruct Hr as (_ & _ & <-). apply mapCount_length.
  - destruct op as [kv|k]; simpl.
    + unfold mapAssocPairs, requireEven. destruct (Nat.even (length kv)); simpl; [|done].
      apply IH. by apply assoc_all_refines.
    + apply IH. by apply dissoc_refines.
Qed.

(** ** Sets *)

(** The elements of a set: each is stored with an equal key. *)
Definition wfSet (m : entries) : Prop := wfEntries n m /\ Forall (fun e => eqv n e.1 e.2) m.

Definition member (m : entries) (x : obj) : bool :=
  match mapGet n m x with Some _ => true | None => false end.

Definition in_base (base : option entries) (x : obj) : bool :=
  match base with Some m => member m x | None => false end.

Lemma newElements_filter base items :
  newElements n base items =
  flat_map (fun e => [e; e]) (List.filter (fun e => negb (in_base base e)) items).
Proof.
  induction items as [|e items IH]; simpl; [done|]. unfold in_base, member in *.
  destruct base as [m|]; [destruct (mapGet n m e)|]; simpl; by rewrite IH.
Qed.

(** Adding elements one after the other. *)
Lemma set_add_all news m :
  wfSet m -> Forall (wf n) news ->
  wfSet (assocAll n m (flat_map (fun e => [e; e]) news)) /\
  (forall x, wf n x ->
     member (assocAll n m (flat_map (fun e => [e; e]) news)) x =
     member m x || existsb (fun e => keyEquals n e x) news) /\
  (forall e, e ∈ m -> (forall i, i ∈ news -> ~ eqv n i e.1) ->
     e ∈ assocAll n m (flat_map (fun e => [e; e]) news)).
Proof.
  intros Hm Hn. revert m Hm. induction Hn as [|i news Hi Hn IH]; intros m [Hm Hs]; simpl.
  { split; [done|]. split; [|done]. intros x Hx. by rewrite orb_false_r. }
  destruct (assoc_entries m i i Hm Hi Hi) as (k' & m' & Hp & Hm' & He & Hold).
  pose proof (eqv_symmetric live n (lawful_all live n)) as Hsym.
  pose proof (eqv_transitive live n (lawful_all live n)) as Htr.
  assert (wfSet (assoc n m i i)) as Hset.
  { split; [by apply (wfEntries_perm ((k', i) :: m'))|]. rewrite Hp. constructor; [by symmetry|].
    destruct (mapGet n m i) as [old|]; [|by destruct Hold as [_ ->]].
    rewrite Hold in Hs. by inversion Hs. }
  destruct (IH _ Hset) as (H1 & H2 & H3). split; [done|]. split.
  - intros x Hx. rewrite H2 by done. rewrite orb_assoc. f_equal.
    assert (refines m (mkSpec (mapGet n m) (length m))) as Hr by done.
    destruct (assoc_refines m _ i i Hr Hi Hi) as (_ & Hg & _). unfold member.
    rewrite Hg by done. simpl. by destruct (keyEquals n i x), (mapGet n m x).
  - intros e Hin Hno. apply H3; [|intros j Hj; apply Hno; by right].
    rewrite Hp. destruct (mapGet n m i) as [old|].
    + rewrite Hold in Hin. apply elem_of_cons in Hin as [->|Hin]; [|by right].
      by destruct (Hno i); [left|].
    + destruct Hold as [_ ->]. by right.
Qed.

Lemma mapGet_class m x y : wfEntries n m -> eqv n x y -> mapGet n m x = mapGet n m y.
Proof.
  intros Hm He. pose proof (lawful_all live n) as L.
  pose proof (eqv_symmetric live n L) as Hs. pose proof (eqv_transitive live n L) as Ht.
  apply option_eq. intros v. unfold mapGet. destruct (He) as (Hx & Hy & _).
  rewrite !(get_Some live n L) by done. split; intros (k & Hin & Hk); exists k; (split; [done|]).
  - transitivity x; [by symmetry|done].
  - by transitivity y.
Qed.

Lemma pairs_even {A} (l : list A) : Nat.even (length (flat_map (fun e => [e; e]) l)) = true.
Proof. induction l as [|e l IH]; simpl; [done|exact IH]. Qed.

Lemma in_base_default base x : wfEntries n (default [] base) -> wf n x ->
  member (default [] base) x = in_base base x.
Proof.
  intros Hm Hx. destruct base as [m|]; [done|]. unfold member; simpl.
  by rewrite mapGet_nil.
Qed.

(** Leaving out the elements already there adds the same elements. *)
Lemma existsb_news base items x :
  wfEntries n (default [] base) -> Forall (wf n) items -> wf n x ->
  in_base base x ||
    existsb (fun e => keyEquals n e x) (List.filter (fun e => negb (in_base base e)) items) =
  in_base base x || existsb (fun e => keyEquals n e x) items.
Proof.
  intros Hm Hi Hx. induction Hi as [|i items Wi Hi IH]; simpl; [done|].
  destruct (in_base base i) eqn:Bi; simpl.
  - rewrite IH. destruct (keyEquals n i x) eqn:E; [|done]. simpl. rewrite orb_true_r.
    rewrite <- in_base_default in * by done. unfold member in *.
    by rewrite <- (mapGet_class _ i x), Bi by (done || by apply eqv_iff).
  - rewrite !orb_assoc, (orb_comm (in_base base x)), <- !orb_assoc. by f_equal.
Qed.

Lemma setConj_spec base items x :
  wfSet (default [] base) -> Forall (wf n) items -> wf n x ->
  match setConj n base items with
  | Some m =>
      wfSet m /\
      member m x = in_base base x || existsb (fun i => keyEquals n i x) items /\
      (forall e, e ∈ default [] base -> e ∈ m)
  | None => base <> None /\ Forall (fun i => in_base base i = true) items
  end.
Proof.
  intros Hb Hi Hx. unfold setConj, mapAssocPairs, requireEven.
  rewrite newElements_filter, pairs_even. simpl.
  set (news := List.filter (fun e => negb (in_base base e)) items).
  assert (Forall (wf n) news) as Hn.
  { apply Forall_forall. intros i [Hin _]%list_elem_of_In%filter_In.
    by apply (proj1 (Forall_forall _ _) Hi), list_elem_of_In. }
  assert (forall i, i ∈ news -> in_base base i = false) as Hout.
  { intros i [_ Hf]%list_elem_of_In%filter_In. by apply negb_true_iff in Hf. }
  destruct (set_add_all news _ Hb Hn) as (H1 & H2 & H3).
  assert (wfSet (assocAll n (default [] base) (flat_map (fun e => [e; e]) news)) /\
    member (assocAll n (default [] base) (flat_map (fun e => [e; e]) news)) x =
      in_base base x || existsb (fun i => keyEquals n i x) items /\
    (forall e, e ∈ default [] base ->
      e ∈ assocAll n (default [] base) (flat_map (fun e => [e; e]) news))) as Hall.
  { split; [done|]. split.
    - rewrite H2, in_base_default by (done || apply Hb). apply existsb_news; [apply Hb|done..].
    - intros e Hin. apply H3; [done|]. intros i Hi' He. specialize (Hout i Hi').
      rewrite <- in_base_default in Hout by (apply Hb || apply He). unfold member in Hout.
      by rewrite (mapGet_class _ i e.1 (proj1 Hb) He), (get_entry live n _ e (proj1 Hb) Hin) in Hout. }
  destruct base as [m|]; [|exact Hall].
  destruct news as [|i0 news'] eqn:En; [|exact Hall]. split; [done|].
  apply Forall_forall. intros i Hin. destruct (in_base (Some m) i) eqn:Bi; [done|].
  assert (i ∈ news) as Hbad; [|rewrite En in Hbad; by apply not_elem_of_nil in Hbad].
  apply list_elem_of_In, filter_In. by rewrite Bi, <- list_elem_of_In.
Qed.

Lemma setDisj_spec m item x :
  wfSet m -> wf n item -> wf n x ->
  match setDisj n m item with
  | Some m' => wfSet m' /\ member m item = true /\
      member m' x = member m x && negb (keyEquals n item x)
  | None => member m item = false
  end.
Proof.
  intros [Hm Hs] Hi Hx. assert (refines m (mkSpec (mapGet n m) (length m))) as Hr by done.
  destruct (dissoc_refines m _ item Hr Hi) as (Hm' & Hg & _). revert Hm' Hg.
  unfold setDisj, mapDissoc, dissoc, member. pose proof (lawful_all live n) as L.
  destruct m as [|e m]; simpl.
  { intros _ _. by rewrite mapGet_nil. }
  destruct (mapGet n (e :: m) item) as [old|] eqn:G; unfold mapGet in G; rewrite G; [|done].
  intros Hm' Hg. split; [split; [done|]|].
  - destruct (split_entry _ item old Hm Hi G) as (k' & m' & Hp & He & Hw & Wk' & _ & Hno).
    rewrite (hashedRemove_old _ _ m' item k' old Hp).
    + rewrite Hp in Hs. by inversion Hs.
    + by apply (names_eqv live n L).
    + by apply not_named.
  - split; [done|]. rewrite Hg by done.
    destruct (keyEquals n item x), (mapGet n (e :: m) x); done.
Qed.

(** A set contains an element after [setConj] exactly when it contained it
    before or an equal one was added, and the elements it contained stay as they
    are stored; when all were contained the set itself is answered. After
    [setDisj] it contains the elements it contained but those equal to the one
    removed; when none was, the set itself is answered. *)
Theorem set_operations base items item x :
  wfSet (default [] base) -> Forall (wf n) items -> wf n item -> wf n x ->
  match setConj n base items with
  | Some m =>
      wfSet m /\
      member m x = in_base base x || existsb (fun i => keyEquals n i x) items /\
      (forall e, e ∈ default [] base -> e ∈ m)
  | None => base <> None /\ Forall (fun i => in_base base i = true) items
  end /\
  forall m, base = Some m ->
  match setDisj n m item with
  | Some m' => wfSet m' /\ member m item = true /\
      member m' x = member m x && negb (keyEquals n item x)
  | None => member m item = false
  end.
Proof.
  intros Hb Hi Hitem Hx. split; [by apply setConj_spec|]. intros m ->. by apply setDisj_spec.
Qed.

End FiniteMaps.

(** ** On the heap of [KeyEquality] *)
Module Examples.
Import ListMaps.

Lemma demo_one : wf demoHeap 2 one.
Proof. demo_wf. Qed.

Lemma demo_vec : wf demoHeap 2 vec1A.
Proof. demo_wf. Qed.

Lemma demo_list : wf demoHeap 2 list1A.
Proof. demo_wf. Qed.

Lemma demo_kw : wf demoHeap 2 kw.
Proof. demo_wf. Qed.

Lemma map_refines_witness :
  exists m, op_runs 2 [] [OpAssoc [vec1A; one; one; kw]; OpAssoc [list1A; kw]; OpDissoc one] = Ok m /\
    mapGet 2 m list1A = Some kw /\ mapCount m = 1.
Proof.
  pose proof (map_refines demoHeap 2 [] spec_empty
    [OpAssoc [vec1A; one; one; kw]; OpAssoc [list1A; kw]; OpDissoc one]) as Hr.
  eexists. split; [reflexivity|]. destruct Hr as ((_ & Hg & _) & Hc).
  - split; [apply wfEntries_nil|]. split; [|reflexivity]. intros k Hk. by apply (mapGet_nil demoHeap).
  - pose proof demo_one. pose proof demo_vec. pose proof demo_list. pose proof demo_kw.
    repeat constructor; assumption.
  - split; [rewrite Hg by apply demo_list|rewrite Hc]; vm_compute; reflexivity.
Defined.

Lemma demo_set : wfSet demoHeap 2 [(one, one); (vec1A, list1A)].
Proof.
  split.
  - split; [|demo_distinct]. pose proof demo_one. pose proof demo_vec. pose proof demo_list.
    repeat constructor; assumption.
  - pose proof demo_one. pose proof demo_vec. pose proof demo_list.
    repeat constructor; try assumption; vm_compute; reflexivity.
Qed.

(** [#{1 [1 "a"]}] with the list [(1 "a")] and the vector added is itself;
    without the list, it no longer contains the vector. *)
Lemma set_operations_witness :
  setConj 2 (Some [(one, one); (vec1A, list1A)]) [list1A; vec1A] = None /\ match setDisj 2 [(one, one); (vec1A, list1A)] list1A with
  | Some m => member 2 m vec1A = false
  | None => False
  end.
Proof.
  assert (Forall (wf demoHeap 2) [list1A; vec1A]) as Hi
    by (apply Forall_cons; split; [apply demo_list|apply Forall_singleton, demo_vec]).
  destruct (set_operations demoHeap 2 (Some [(one, one); (vec1A, list1A)]) [list1A; vec1A] list1A vec1A
    demo_set Hi demo_list demo_vec) as [_ Hd].
  specialize (Hd _ eq_refl). split; [vm_compute; reflexivity|].
  destruct (setDisj 2 [(one, one); (vec1A, list1A)] list1A) as [m|].
  - destruct Hd as (_ & _ & ->). vm_compute. reflexivity.
  - vm_compute in Hd. discriminate Hd.
Defined.

(** An element added twice in one call is stored once, but the look-up answers
    the last object and the walk the first. *)
Example setConj_last_value :
  exists m, setConj 2 None [vec1A; list1A] = Some m /\
    setGet 2 m vec1A = Some list1A /\ fst <$> m = [vec1A].
Proof. eexists. repeat split; vm_compute; reflexivity. Qed.

End Examples.
