(* ===== verification/Reader.v ===== *)
(** The reader (reader/Reader.h, Reader.cpp, SourceInfo.h; the read functions of
    runtime/Edn.cpp): from the tokens of the lexer to the values of a program.

    The state of a [Reader] object, with the process's gensym counter and the
    address the next value is allocated at, is the record [reader]; a member
    function is a computation [M] on it that ends with a value or an exception.
    [stack] is how many levels of recursion the thread's stack has room for:
    [checkNativeStack] raises StackOverflowError when there is none. *)

From S2P Require Import Prelude Values Lexer Maps.

#[local] Set Warnings "-register-all".

(** ** Errors *)

Inductive readError :=
| ReaderError (msg : bytes) (line column : Z)
| StackOverflowError (what : bytes)
| OutOfTurns.

(** ** What the reader is built with *)
Class ReaderEnv := {
  re_platform :: Platform;
  re_maps :: HashedMaps;
  (** protoCore: the integer of a numeral, and the string of a UTF-8 buffer with
      the number of bytes of an incomplete sequence at its end. *)
  fromString : bytes -> Z;
  fromUTF8Buffer : bytes -> bytes * nat;
  (** Regex.h: the pattern compiled from a source, or PatternSyntaxError's text. *)
  makePattern : bytes -> result bytes bytes;
  (** The text of StackOverflowError (StackGuard.cpp). *)
  nestedTooDeeply : bytes;
}.

(** [info_] (not null, and [recordPositions]), [resolver_], [edn_]. *)
Record config := mkConfig {
  hasInfo : bool;
  recordPositions : bool;
  resolver_ : option (bytes -> bytes);
  edn_ : bool;
}.

(** ** The state *)

Record FnLiteral := mkFnLiteral { params : list (option obj); rest_ : option obj }.

Record reader := mkReader {
  lexer_ : lexer;
  gensymId : Z;
  nextAddress : Z;
  noPositions_ : Z;
  fnLiteral_ : option FnLiteral;
  gensyms_ : list (list (bytes * obj));  (* innermost first *)
  mapKeyOrder : list (Z * list obj);
  formPos : list (Z * (Z * Z));
  formLine_ : Z;
  formColumn_ : Z;
}.

Definition newReader (source : bytes) (gensym addr : Z) : reader :=
  mkReader (newLexer source) gensym addr 0 None [] [] [] 0 0.

Definition set_lexer l r := mkReader l (gensymId r) (nextAddress r) (noPositions_ r) (fnLiteral_ r)
  (gensyms_ r) (mapKeyOrder r) (formPos r) (formLine_ r) (formColumn_ r).
Definition set_gensymId n r := mkReader (lexer_ r) n (nextAddress r) (noPositions_ r) (fnLiteral_ r)
  (gensyms_ r) (mapKeyOrder r) (formPos r) (formLine_ r) (formColumn_ r).
Definition set_nextAddress a r := mkReader (lexer_ r) (gensymId r) a (noPositions_ r) (fnLiteral_ r)
  (gensyms_ r) (mapKeyOrder r) (formPos r) (formLine_ r) (formColumn_ r).
Definition set_noPositions n r := mkReader (lexer_ r) (gensymId r) (nextAddress r) n (fnLiteral_ r)
  (gensyms_ r) (mapKeyOrder r) (formPos r) (formLine_ r) (formColumn_ r).
Definition set_fnLiteral f r := mkReader (lexer_ r) (gensymId r) (nextAddress r) (noPositions_ r) f
  (gensyms_ r) (mapKeyOrder r) (formPos r) (formLine_ r) (formColumn_ r).
Definition set_gensyms g r := mkReader (lexer_ r) (gensymId r) (nextAddress r) (noPositions_ r)
  (fnLiteral_ r) g (mapKeyOrder r) (formPos r) (formLine_ r) (formColumn_ r).
Definition set_mapKeyOrder m r := mkReader (lexer_ r) (gensymId r) (nextAddress r) (noPositions_ r)
  (fnLiteral_ r) (gensyms_ r) m (formPos r) (formLine_ r) (formColumn_ r).
Definition set_formPos p r := mkReader (lexer_ r) (gensymId r) (nextAddress r) (noPositions_ r)
  (fnLiteral_ r) (gensyms_ r) (mapKeyOrder r) p (formLine_ r) (formColumn_ r).
Definition set_formStart ln col r := mkReader (lexer_ r) (gensymId r) (nextAddress r) (noPositions_ r)
  (fnLiteral_ r) (gensyms_ r) (mapKeyOrder r) (formPos r) ln col.

(** ** Computations *)

Definition M (A : Type) : Type := reader -> result readError A * reader.

#[export] Instance M_ret : MRet M := fun A a r => (Ok a, r).
#[export] Instance M_bind : MBind M := fun A B f m r =>
  match m r with
  | (Ok a, r) => f a r
  | (Throw e, r) => (Throw e, r)
  end.

Definition throw {A} (e : readError) : M A := fun r => (Throw e, r).
Definition gets {A} (f : reader -> A) : M A := fun r => (Ok (f r), r).
Definition modify (f : reader -> reader) : M unit := fun r => (Ok tt, f r).

(** A destructor that runs [f] when [m] returns or throws. *)
Definition finally {A} (m : M A) (f : reader -> reader) : M A :=
  fun r => let '(res, r) := m r in (res, f r).

Definition nextToken : M Token :=
  fun r => let '(tok, l) := next (lexer_ r) in (Ok tok, set_lexer l r).

(** A cell of its own. *)
Definition allocate : M Z :=
  fun r => (Ok (nextAddress r), set_nextAddress (nextAddress r + 64) r).

Definition nextGensymId : M Z :=
  fun r => (Ok (gensymId r + 1), set_gensymId (gensymId r + 1) r).

Section Reader.
Context `{ReaderEnv} (cfg : config).

Definition readerErrorAt {A} (msg : bytes) (tok : Token) : M A :=
  throw (ReaderError msg (tline tok) (tcolumn tok)).

(** ** Values *)

Definition fromLong (z : Z) : M obj :=
  if fitsSmallInt z then mret (Embedded (smallIntWord z)) else a ← allocate; mret (Big a z).

Definition makeUtf8String (text : bytes) : M obj :=
  a ← allocate;
  let '(s, remCount) := fromUTF8Buffer text in
  if (remCount =? 0)%nat then mret (Str a s)
  else
    let fixed := take (length text - remCount) text ++ [xef; xbf; xbd] in
    mret (Str a (fst (fromUTF8Buffer fixed))).

Definition listOf (items : list obj) : M obj := a ← allocate; mret (listFromArray a items).

Definition describeKey (key : obj) : bytes :=
  if same key PROTO_NONE then s2b "nil"
  else if same key PROTO_TRUE then s2b "true"
  else if same key PROTO_FALSE then s2b "false"
  else match key with
       | Named _ spelling => spelling
       | Str _ text => [quoteByte] ++ text ++ [quoteByte]
       | _ => match integerOf key with
              | Some z => to_string z
              | None => s2b "a repeated form"
              end
       end.

(** ** Positions *)

(** [formPos.emplace]: the first position recorded for a form stays. *)
Definition emplace {V} (m : list (Z * V)) (k : Z) (v : V) : list (Z * V) :=
  match find (fun e => e.1 =? k) m with Some _ => m | None => (k, v) :: m end.

Definition recordPosition (form : obj) (line column : Z) : M obj :=
  nowhere ← gets noPositions_;
  _ ← (if hasInfo cfg && recordPositions cfg && (nowhere =? 0)
       then modify (fun r => set_formPos (emplace (formPos r) (address form) (line, column)) r)
       else mret tt);
  mret form.

(** ** The reader macros, reading the forms they hold with [readForm] *)
Section Forms.
Context (readForm : Token -> M obj).

Definition readNextForm (macroTok : Token) : M obj :=
  tok ← nextToken;
  if decide (kind tok = EndOfFile) then
    readerErrorAt (s2b "EOF while reading: " ++ text macroTok ++ s2b " must be followed by a form")
      macroTok
  else readForm tok.

Definition readUnpositioned (tok : Token) : M obj :=
  _ ← modify (fun r => set_noPositions (noPositions_ r + 1) r);
  finally (readNextForm tok) (fun r => set_noPositions (noPositions_ r - 1) r).

Definition discardNextForm (tok : Token) : M unit := _ ← readUnpositioned tok; mret tt.

Definition readWrapped (macroTok : Token) (head : bytes) : M obj :=
  form ← readNextForm macroTok;
  listOf [internNamed head; form].

(** The loop of [readList]: the forms up to the closing token, [acc] read so far;
    one turn per token. *)
Fixpoint readItems (closeKind : TokenKind) (openLine openColumn : Z) (unterminated : option bytes)
    (turns : nat) (acc : list obj) : M (list obj) :=
  match turns with
  | O => throw OutOfTurns
  | S turns =>
      tok ← nextToken;
      if decide (kind tok = EndOfFile) then
        let what :=
          if decide (closeKind = RBracket) then s2b "unterminated vector — missing `]`"
          else if decide (closeKind = RBrace) then s2b "unterminated map — missing `}`"
          else s2b "unterminated list — missing `)`" in
        throw (ReaderError (default what unterminated) openLine openColumn)
      else if decide (kind tok = closeKind) then mret acc
      else if decide (kind tok = HashUnderscore) then
        _ ← discardNextForm tok;
        readItems closeKind openLine openColumn unterminated turns acc
      else if decide (kind tok = RParen \/ kind tok = RBracket \/ kind tok = RBrace) then
        readerErrorAt (s2b "mismatched " ++ tokenKindName (kind tok)) tok
      else
        form ← readForm tok;
        readItems closeKind openLine openColumn unterminated turns (acc ++ [form])
  end.

(** The elements of a vector, a map or a set. *)
Definition readElements (closeKind : TokenKind) (tok : Token) (unterminated : option bytes)
  : M (list obj) :=
  l ← gets lexer_;
  readItems closeKind (tline tok) (tcolumn tok) unterminated (fuel l) [].

(** A list form, at the position of its opening token. *)
Definition readList (tok : Token) : M obj :=
  items ← readElements RParen tok None;
  form ← listOf items;
  if hasInfo cfg then recordPosition form (tline tok) (tcolumn tok) else mret form.

Definition readVector (tok : Token) : M obj :=
  items ← readElements RBracket tok None;
  a ← allocate;
  mret (newVector a items).

(** ** Maps and sets *)

(** The nesting of the keys, which bounds their comparison. *)
Definition keyFuel (items : list obj) : nat := list_max (map depth items).

Fixpoint keysOf (kv : list obj) : list obj :=
  match kv with k :: _ :: kv => k :: keysOf kv | _ => [] end.

(** The first key equal to one before it. *)
Fixpoint findDuplicate (n : nat) (seen keys : list obj) : option obj :=
  match keys with
  | [] => None
  | k :: keys =>
      if existsb (fun s => keyEquals n s k) seen then Some k
      else findDuplicate n (seen ++ [k]) keys
  end.

Definition duplicateKey {A} (n : nat) (keys : list obj) (tok : Token) (otherwise : M A) : M A :=
  match findDuplicate n [] keys with
  | Some k => readerErrorAt (s2b "Duplicate key: " ++ describeKey k) tok
  | None => otherwise
  end.

(** [mapKeyOrder[m] = keys] *)
Definition recordKeyOrder (m : obj) (keys : list obj) : M unit :=
  modify (fun r =>
    set_mapKeyOrder
      ((address m, keys) :: List.filter (fun e => negb (e.1 =? address m)) (mapKeyOrder r)) r).

Definition readMap (tok : Token) : M obj :=
  kv ← readElements RBrace tok None;
  if negb (Nat.even (length kv)) then
    readerErrorAt (s2b "Map literal must contain an even number of forms") tok
  else
    let n := keyFuel kv in
    match mapAssocPairs n None kv with
    | Throw _ => throw OutOfTurns
    | Ok es =>
        a ← allocate;
        let m := MapObj a es in
        let record :=
          if hasInfo cfg && (0 <? length kv)%nat
          then _ ← recordKeyOrder m (keysOf kv); mret m else mret m in
        if negb (mapCount es =? Z.of_nat (length kv / 2))
        then duplicateKey n (keysOf kv) tok record
        else record
    end.

Definition readSet (tok : Token) : M obj :=
  items ← readElements RBrace tok (Some (s2b "unterminated set — missing `}`"));
  let n := keyFuel items in
  match setConj n None items with
  | None => throw OutOfTurns
  | Some es =>
      a ← allocate;
      let st := SetObj a es in
      if negb (setCount es =? Z.of_nat (length items))
      then duplicateKey n items tok (mret st) else mret st
  end.

(** ** [#( )] *)

(** The parameter name [stem__N#], generated. *)
Definition genParam (stem : bytes) : M obj :=
  n ← nextGensymId;
  mret (internNamed (stem ++ s2b "__" ++ to_string n ++ s2b "#")).

(** The number after a [%]: [Ok None] when a character is no digit. *)
Fixpoint argIndex (n : Z) (ds : bytes) : result bytes (option Z) :=
  match ds with
  | [] => if n =? 0 then Throw (s2b "Arg literal must be %, %& or %integer") else Ok (Some n)
  | c :: ds =>
      if negb (is_digit c) then Ok None
      else
        let n := n * 10 + (u8 c - 48) in
        if 20 <? n then Throw (s2b "Arg literal must be %, %& or %integer (at most %20)")
        else argIndex n ds
  end.

Definition fnLiteralArg (lit : FnLiteral) (s : bytes) : M (option obj) :=
  if bool_decide (s = s2b "%&") then
    match rest_ lit with
    | Some p => mret (Some p)
    | None =>
        p ← genParam (s2b "rest");
        _ ← modify (set_fnLiteral (Some (mkFnLiteral (params lit) (Some p))));
        mret (Some p)
    end
  else
    match (match tail s with [] => Ok (Some 1) | ds => argIndex 0 ds end) with
    | Throw msg => throw (ReaderError msg 0 0)
    | Ok None => mret None
    | Ok (Some n) =>
        let i := Z.to_nat (n - 1) in
        let ps := params lit ++ replicate (Z.to_nat n - length (params lit)) None in
        match ps !! i with
        | Some (Some p) => _ ← modify (set_fnLiteral (Some (mkFnLiteral ps (rest_ lit)))); mret (Some p)
        | _ =>
            p ← genParam (s2b "p" ++ to_string n);
            _ ← modify (set_fnLiteral (Some (mkFnLiteral (<[i := Some p]> ps) (rest_ lit))));
            mret (Some p)
        end
    end.

(** The parameters from the [i]th on, the ones not named generated. *)
Fixpoint fillParams (i : Z) (ps : list (option obj)) : M (list obj) :=
  match ps with
  | [] => mret []
  | Some p :: ps => rest ← fillParams (i + 1) ps; mret (p :: rest)
  | None :: ps =>
      p ← genParam (s2b "p" ++ to_string i);
      rest ← fillParams (i + 1) ps;
      mret (p :: rest)
  end.

Definition readFnLiteral (tok : Token) : M obj :=
  outer ← gets fnLiteral_;
  match outer with
  | Some _ => readerErrorAt (s2b "Nested #()s are not allowed") tok
  | None =>
      _ ← modify (set_fnLiteral (Some (mkFnLiteral [] None)));
      finally (
        body ← readList tok;
        lit ← gets (fun r => default (mkFnLiteral [] None) (fnLiteral_ r));
        ps ← fillParams 1 (params lit);
        let ps := match rest_ lit with
                  | Some p => ps ++ [internNamed (s2b "&"); p]
                  | None => ps
                  end in
        a ← allocate;
        form ← listOf [internNamed (s2b "fn*"); newVector a ps; body];
        recordPosition form (tline tok) (tcolumn tok))
      (set_fnLiteral None)
  end.

End Forms.

(** ** Syntax-quote *)

Definition unquote : bytes := s2b "clojure.core/unquote".
Definition unquoteSplicing : bytes := s2b "clojure.core/unquote-splicing".

Definition lookup_sym (s : bytes) (table : list (bytes * obj)) : option obj :=
  snd <$> find (fun e => bool_decide (e.1 = s)) table.

(** [foo#]: the symbol generated for it in this syntax-quote. *)
Definition autoGensym (spelling : bytes) : M obj :=
  tables ← gets gensyms_;
  match tables with
  | [] => mret (internNamed spelling)
  | table :: tables =>
      match lookup_sym spelling table with
      | Some s => mret s
      | None =>
          n ← nextGensymId;
          let fresh := removelast spelling ++ s2b "__" ++ to_string n ++ s2b "__auto__" in
          _ ← modify (set_gensyms (((spelling, internNamed fresh) :: table) :: tables));
          mret (internNamed fresh)
      end
  end.

Definition isGensymSpelling (s : bytes) : bool :=
  (1 <? length s)%nat && bool_decide (last s = Some "#"%byte) &&
  negb (existsb (fun c => (c =? "/")%byte) s).

Definition quoteSymbol (form : obj) (spelling : bytes) : M obj :=
  if isGensymSpelling spelling then
    s ← autoGensym spelling;
    listOf [internNamed (s2b "quote"); s]
  else
    let s := match resolver_ cfg with
             | Some resolve =>
                 let resolved := resolve spelling in
                 if bool_decide (resolved = spelling) then form else internNamed resolved
             | None => form
             end in
    listOf [internNamed (s2b "quote"); s].

(** The keys and values of a map form, in source order when the reader knows it. *)
Definition mapItems (n : nat) (form : obj) : M (list obj) :=
  orders ← gets mapKeyOrder;
  match (if hasInfo cfg then find (fun e => e.1 =? address form) orders else None) with
  | Some (_, keys) =>
      mret (flat_map (fun k => [k; default PROTO_NONE (mapGet n (mapEntries form) k)]) keys)
  | None => mret (flat_map (fun e => [e.1; e.2]) (mapEntries form))
  end.

Section Pieces.
Context (syntaxQuote : obj -> M obj).

(** What an item of a template adds to the [concat]. *)
Definition quoteItem (item : obj) : M obj :=
  let piece := x ← syntaxQuote item; listOf [internNamed (s2b "clojure.core/list"); x] in
  if isListValue item then
    match sequenceItems item with
    | [ihead; iarg] =>
        if same ihead (internNamed unquoteSplicing) then mret iarg
        else if same ihead (internNamed unquote)
        then listOf [internNamed (s2b "clojure.core/list"); iarg]
        else piece
    | _ => piece
    end
  else piece.

Fixpoint quoteItems (items : list obj) : M (list obj) :=
  match items with
  | [] => mret []
  | item :: items => x ← quoteItem item; xs ← quoteItems items; mret (x :: xs)
  end.

Definition quoteTemplate (items : list obj) (builder : option bytes) : M obj :=
  pieces ← quoteItems items;
  concat ← listOf (internNamed (s2b "clojure.core/concat") :: pieces);
  seqForm ← listOf [internNamed (s2b "clojure.core/seq"); concat];
  match builder with
  | None => mret seqForm
  | Some b => listOf [internNamed (s2b "clojure.core/apply"); internNamed b; seqForm]
  end.

End Pieces.

(** nil, a boolean, a string, a number. *)
Definition selfEvaluating (form : obj) : bool :=
  same form PROTO_NONE || same form PROTO_TRUE || same form PROTO_FALSE || isString form ||
  match integerOf form with Some _ => true | None => false end ||
  match form with Dbl _ _ => true | _ => false end.

Fixpoint syntaxQuote (stack : nat) (tok : Token) (form : obj) : M obj :=
  match stack with
  | O => throw (StackOverflowError nestedTooDeeply)
  | S stack =>
      if selfEvaluating form then mret form
      else match form with
           | Named _ spelling =>
               if bool_decide (head spelling = Some ":"%byte) then mret form
               else quoteSymbol form spelling
           | LList _ [] => listOf [internNamed (s2b "clojure.core/list")]
           | LList _ ((head :: _) as items) =>
               if same head (internNamed unquote) then
                 if negb (length items =? 2)%nat then
                   readerErrorAt (s2b "unquote (~) takes exactly one form") tok
                 else mret (default PROTO_NONE (items !! 1%nat))
               else if same head (internNamed unquoteSplicing) then
                 readerErrorAt (s2b "splice (~@) not in list") tok
               else quoteTemplate (syntaxQuote stack tok) items None
           | Vec _ items =>
               quoteTemplate (syntaxQuote stack tok) items (Some (s2b "clojure.core/vector"))
           | MapObj _ es =>
               items ← mapItems (depth form) form;
               quoteTemplate (syntaxQuote stack tok) items (Some (s2b "clojure.core/hash-map"))
           | SetObj _ es =>
               quoteTemplate (syntaxQuote stack tok) (map fst es)
                 (Some (s2b "clojure.core/hash-set"))
           | _ => listOf [internNamed (s2b "quote"); form]
           end
  end.

(** ** Forms *)

(** EDN is data: the reader macros of code are errors. *)
Definition ednError (tok : Token) : option bytes :=
  match kind tok with
  | HashLParen => Some (s2b "No dispatch macro for: (")
  | Regex => Some (s2b "No dispatch macro for: " ++ [quoteByte])
  | Quote | Backtick | Tilde | TildeAt | At =>
      Some (s2b "EDN does not support the reader macro " ++ text tok)
  | _ => None
  end.

Definition readSymbol (s : bytes) : M obj :=
  if bool_decide (s = s2b "nil") then mret PROTO_NONE
  else if bool_decide (s = s2b "true") then mret PROTO_TRUE
  else if bool_decide (s = s2b "false") then mret PROTO_FALSE
  else
    lit ← gets fnLiteral_;
    match lit, bool_decide (head s = Some "%"%byte) with
    | Some lit, true =>
        p ← fnLiteralArg lit s;
        mret (default (internNamed s) p)
    | _, _ => mret (internNamed s)
    end.

Definition readBacktick (stack : nat) (readForm : Token -> M obj) (tok : Token) : M obj :=
  form ← readUnpositioned readForm tok;
  _ ← modify (fun r => set_gensyms ([] :: gensyms_ r) r);
  finally (syntaxQuote stack tok form) (fun r => set_gensyms (tail (gensyms_ r)) r).

Fixpoint readFromToken (stack : nat) (tok : Token) : M obj :=
  match stack with
  | O => throw (StackOverflowError nestedTooDeeply)
  | S stack =>
      let readForm := readFromToken stack in
      match (if edn_ cfg then ednError tok else None) with
      | Some msg => readerErrorAt msg tok
      | None =>
          match kind tok with
          | HashUnderscore => _ ← discardNextForm readForm tok; readNextForm readForm tok
          | Integer =>
              if negb (fitsLong tok) then a ← allocate; mret (Big a (fromString (text tok)))
              else fromLong (intValue tok)
          | Float => a ← allocate; mret (Dbl a (doubleValue tok))
          | String_ => makeUtf8String (text tok)
          | Symbol => readSymbol (text tok)
          | HashLParen => readFnLiteral readForm tok
          | LParen => readList readForm tok
          | At => readWrapped readForm tok (s2b "clojure.core/deref")
          | Quote => readWrapped readForm tok (s2b "quote")
          | Tilde => readWrapped readForm tok unquote
          | TildeAt => readWrapped readForm tok unquoteSplicing
          | Backtick => readBacktick stack readForm tok
          | LBracket => readVector readForm tok
          | LBrace => readMap readForm tok
          | Regex =>
              match makePattern (text tok) with
              | Ok source => a ← allocate; mret (Pattern a source)
              | Throw e => readerErrorAt (s2b "PatternSyntaxException: " ++ e) tok
              end
          | HashLBrace => readSet readForm tok
          | Error => readerErrorAt (text tok) tok
          | RParen => readerErrorAt (s2b "unexpected )") tok
          | EndOfFile => readerErrorAt (s2b "unexpected end of file") tok
          | k => readerErrorAt (s2b "unsupported token: " ++ tokenKindName k) tok
          end
      end
  end.

(** StackOverflowError becomes a read error where reading stopped. *)
Definition reportOverflow {A} (m : M A) : M A := fun r =>
  match m r with
  | (Throw (StackOverflowError what), r) =>
      (Throw (ReaderError what (line_ (lexer_ r)) (column_ (lexer_ r))), r)
  | res => res
  end.

(** The first token that is no [#_], the forms after those discarded. *)
Fixpoint skipDiscarded (stack turns : nat) : M Token :=
  match turns with
  | O => throw OutOfTurns
  | S turns =>
      tok ← nextToken;
      if decide (kind tok = HashUnderscore) then
        _ ← discardNextForm (readFromToken stack) tok;
        skipDiscarded stack turns
      else mret tok
  end.

(** One form; [None] at the end of the source. *)
Definition readOne (stack : nat) : M (option obj) :=
  reportOverflow (
    l ← gets lexer_;
    tok ← skipDiscarded stack (fuel l);
    if decide (kind tok = EndOfFile) then mret None
    else
      _ ← modify (set_formStart (tline tok) (tcolumn tok));
      form ← readFromToken stack tok;
      mret (Some form)).

Fixpoint readAllForms (stack turns : nat) (acc : list obj) : M (list obj) :=
  match turns with
  | O => throw OutOfTurns
  | S turns =>
      tok ← nextToken;
      if decide (kind tok = EndOfFile) then mret acc
      else if decide (kind tok = HashUnderscore) then
        _ ← discardNextForm (readFromToken stack) tok;
        readAllForms stack turns acc
      else
        form ← readFromToken stack tok;
        readAllForms stack turns (acc ++ [form])
  end.

Definition readAll (stack : nat) : M (list obj) :=
  reportOverflow (l ← gets lexer_; readAllForms stack (fuel l) []).

End Reader.

(** ** read-string and clojure.edn/read-string (runtime/Edn.cpp) *)
Section ReadString.
Context `{ReaderEnv}.

(** The first form of [text]; [Throw] is the message of a RuntimeException. *)
Definition readFirstForm (stack : nat) (resolver : option (bytes -> bytes)) (text : bytes)
    (edn hasEof : bool) (eofValue : obj) (gensym addr : Z) : result bytes obj :=
  let cfg := mkConfig false false (if edn then None else resolver) edn in
  let eof := if hasEof then Ok eofValue else Throw (s2b "EOF while reading") in
  match fst (readOne cfg stack (newReader text gensym addr)) with
  | Ok (Some form) => Ok form
  | Ok None => eof
  | Throw (ReaderError message line column) =>
      match message with
      | [] => eof
      | _ => Throw (message ++ s2b " (line " ++ to_string line ++ s2b ", column " ++
                    to_string column ++ s2b ")")
      end
  | Throw (StackOverflowError what) => Throw what
  | Throw OutOfTurns => Throw []
  end.

End ReadString.
