(* ===== verification/Printer.v ===== *)
(** The printer of values (runtime/Primitives.cpp: [printTo], [appendReadableString],
    [formatDouble]; runtime/Exceptions.h and runtime/IO.h through [PrinterEnv]). *)

From S2P Require Import Prelude Values Double.

#[local] Set Warnings "-register-all".

(** The standard library's [std::to_chars] of a positive double, in scientific
    notation, with the shortest digits when the precision is negative; and the
    printed forms of exceptions and I/O handles, which other modules define. *)
Class PrinterEnv `{Platform} := {
  to_chars : Z -> Z -> bytes;
  appendExceptionForm : obj -> bytes;
  appendIOHandle : obj -> bytes;
  (** [activeCallContext] is set. *)
  hasCallContext : bool;
}.

(** ** Strings *)

Definition readableByte (c : byte) : bytes :=
  match c with
  | x22 => ["\"; x22]
  | "\" => ["\"; "\"]
  | x0a => ["\"; "n"]
  | x09 => ["\"; "t"]
  | x0d => ["\"; "r"]
  | x0c => ["\"; "f"]
  | x08 => ["\"; "b"]
  | c => [c]
  end%byte.

Definition appendReadableString (text : bytes) : bytes :=
  [x22] ++ flat_map readableByte text ++ [x22].

Section Printer.
Context `{Platform} `{!PrinterEnv}.

(** ** Doubles *)

Definition isnan (bits : Z) : bool := double_inf <? Z.land bits (sign_bit - 1).
Definition isinf (bits : Z) : bool := Z.land bits (sign_bit - 1) =? double_inf.
Definition signbit (bits : Z) : bool := sign_bit <=? bits.
Definition fabs (bits : Z) : Z := Z.land bits (sign_bit - 1).

(** [d[.ddd]e±XX] into its digits, the point left out, and its exponent. *)
Fixpoint splitScientific (s : bytes) : bytes * Z :=
  match s with
  | [] => ([], 0)
  | c :: s =>
      if (c =? "e")%byte then
        ([], match s with
             | "+"%byte :: s => digits_value s
             | s => signed_value s
             end)
      else
        let '(digits, exponent) := splitScientific s in
        (if (c =? ".")%byte then digits else c :: digits, exponent)
  end.

(** [while (digits.size() > 1 && digits.back() == '0') digits.pop_back();] *)
Fixpoint dropZeros (rev : bytes) : bytes :=
  match rev with
  | c :: r =>
      match r with
      | [] => rev
      | _ => if (c =? "0")%byte then dropZeros r else rev
      end
  | [] => rev
  end.

Definition zeros (n : Z) : bytes := replicate (Z.to_nat n) "0"%byte.

(** The digits with the point placed: plain notation in [1e-3, 1e7), else an
    exponent; always a digit after the point. *)
Definition layOut (digits : bytes) (exponent : Z) : bytes :=
  let n := Z.of_nat (length digits) in
  if (-3 <=? exponent) && (exponent <=? 6) then
    if exponent <? 0 then s2b "0." ++ zeros (- exponent - 1) ++ digits
    else if exponent + 1 <? n then
      take (Z.to_nat (exponent + 1)) digits ++ s2b "." ++ drop (Z.to_nat (exponent + 1)) digits
    else digits ++ zeros (exponent + 1 - n) ++ s2b ".0"
  else
    take 1 digits ++ s2b "." ++ (if 1 <? n then drop 1 digits else s2b "0") ++
    s2b "E" ++ to_string exponent.

Definition formatDouble (d : Z) : bytes :=
  if isnan d then s2b "##NaN"
  else if isinf d then if signbit d then s2b "##-Inf" else s2b "##Inf"
  else
    let out := if signbit d then s2b "-" else [] in
    let m := fabs d in
    if m =? 0 then out ++ s2b "0.0"
    else
      let '(digits, exponent) := splitScientific (to_chars m (-1)) in
      let '(digits, exponent) :=
        if (length digits =? 1)%nat then
          let two := to_chars m 1 in
          if strtod two =? m then splitScientific two else (digits, exponent)
        else (digits, exponent) in
      out ++ layOut (rev (dropZeros (rev digits))) exponent.

(** ** Values *)

(** The printed elements, [sep] between them. *)
Fixpoint separated (sep : bytes) (parts : list bytes) : bytes :=
  match parts with
  | [] => []
  | [p] => p
  | p :: parts => p ++ sep ++ separated sep parts
  end.

(** What a cell holds, or nothing while it is pending. *)
Definition printCell (kind : cellKind) (content : list bytes) (v : obj) : bytes :=
  match kind with
  | CBuiltin name => s2b "#<fn" ++ match name with Some n => s2b " " ++ n | None => [] end ++ s2b ">"
  | CMatcher => s2b "#<matcher>"
  | CException => appendExceptionForm v
  | CHandle => appendIOHandle v
  | _ =>
      if negb hasCallContext then s2b "#<unprintable>"
      else match kind, content with
           | CAtom, c => s2b "#<atom " ++ default (s2b "nil") (head c) ++ s2b ">"
           | CFuture, [c] => s2b "#<future " ++ c ++ s2b ">"
           | CFuture, _ => s2b "#<future pending>"
           | CPromise, [c] => s2b "#<promise " ++ c ++ s2b ">"
           | CPromise, _ => s2b "#<promise pending>"
           | CActor, c => s2b "#<actor " ++ default (s2b "nil") (head c) ++ s2b ">"
           | CFn, _ => s2b "#<fn>"
           | _, _ => s2b "#<unprintable>"
           end
  end.

(** [printTo]: [readable] quotes strings and patterns. *)
Fixpoint printTo (readable : bool) (v : obj) : bytes :=
  let print := printTo readable in
  match v with
  | Embedded w =>
      if w =? noneWord then s2b "nil"
      else if w =? trueWord then s2b "true"
      else if w =? falseWord then s2b "false"
      else if isSmallInt v then to_string (smallIntValue w)
      else s2b "#<unprintable>"
  | Big _ z => to_string z
  | Dbl _ bits => formatDouble bits
  | LList _ items | SeqObj _ items => s2b "(" ++ separated (s2b " ") (map print items) ++ s2b ")"
  | PList _ _ => s2b "#<internal list>"
  | Vec _ items => s2b "[" ++ separated (s2b " ") (map print items) ++ s2b "]"
  | MapObj _ es =>
      s2b "{" ++ separated (s2b ", ") (map (fun e => print e.1 ++ s2b " " ++ print e.2) es) ++ s2b "}"
  | Str _ text => if readable then appendReadableString text else text
  | Pattern _ source => if readable then s2b "#" ++ [x22] ++ source ++ [x22] else source
  | SetObj _ es => s2b "#{" ++ separated (s2b " ") (map (fun e => print e.1) es) ++ s2b "}"
  | Named _ spelling => if hasCallContext then spelling else s2b "#<unprintable>"
  | Cell _ kind content => printCell kind (map print content) v
  end.

End Printer.
