(* ===== verification/DemoReader.v ===== *)
(** A concrete environment for the reader and the printer, on which the examples of
    the files that follow evaluate. *)

From S2P Require Import Prelude Values Lexer Maps KeyEquality Reader Printer.

Module Demo.
Import ListMaps.

#[export] Instance demoPlatform : Platform := {
  noneWord := 0x81;
  trueWord := 0x41;
  falseWord := 0xC1;
  emptyListAddress := 29;
  namedAddress := fun s => 2 ^ 64 + 64 * fold_left (fun h c => h * 257 + u8 c + 1) s 0;
}.

#[export] Instance demoEnv : ReaderEnv := {
  re_platform := demoPlatform;
  re_maps := listMaps;
  fromString := signed_value;
  fromUTF8Buffer := fun s => (s, 0%nat);
  makePattern := fun s => Ok s;
  nestedTooDeeply := s2b "StackOverflowError: forms nested too deeply";
}.

#[export] Instance demoPrinter : PrinterEnv := {
  to_chars := fun _ _ => s2b "1e+00";
  appendExceptionForm := fun _ => s2b "#error";
  appendIOHandle := fun _ => s2b "#<file>";
  hasCallContext := true;
}.

(** Positions kept, no resolver, code. *)
Definition demoConfig : config := mkConfig true true None false.

(** A reader of [source] whose first cell is at 4096. *)
Definition demoReader (source : bytes) : reader := newReader source 0 4096.

Example read_nested :
  match fst (readOne demoConfig 20 (demoReader (s2b "(f [1 -2] {:a 'x, :b #{}} #(g %2))"))) with
  | Ok (Some v) => printTo true v
  | _ => []
  end = s2b "(f [1 -2] {:a (quote x), :b #{}} (fn* [p1__2# p2__1#] (g p2__1#)))".
Proof. vm_compute. reflexivity. Qed.

Example read_duplicate :
  fst (readOne demoConfig 20 (demoReader (s2b "{[1] :a, (1) :b}"))) =
  Throw (ReaderError (s2b "Duplicate key: a repeated form") 1 1).
Proof. vm_compute. reflexivity. Qed.

Example read_template :
  match fst (readOne demoConfig 20 (demoReader (s2b "`(let [x# ~v] x#)"))) with
  | Ok (Some v) => printTo true v
  | _ => []
  end = s2b "(clojure.core/seq (clojure.core/concat (clojure.core/list (quote let)) (clojure.core/list (clojure.core/apply clojure.core/vector (clojure.core/seq (clojure.core/concat (clojure.core/list (quote x__1__auto__)) (clojure.core/list v))))) (clojure.core/list (quote x__1__auto__))))".
Proof. vm_compute. reflexivity. Qed.

End Demo.
