(* ===== verification/ReaderFacts.v ===== *)
(** Theorems on the reader: it ends, consuming what it reads; map and set literals;
    syntax-quote. *)

From S2P Require Import Prelude Values Lexer Maps KeyEquality FiniteMaps Reader DemoReader.

#[local] Set Warnings "-register-all".

(** ** Progress

    No token is buffered: the reader never peeks. *)
Definition fresh (r : reader) : Prop := hasPeek_ (lexer_ r) = false.
Definition remaining (r : reader) : nat := Lexer.left (lexer_ r).

(** A computation that keeps [fresh], never goes back in the source, and never runs
    out of turns. *)
Definition safe {A} (m : M A) : Prop :=
  forall r, fresh r ->
    fresh (m r).2 /\ (remaining (m r).2 <= remaining r)%nat /\ (m r).1 <> Throw OutOfTurns.

Lemma safe_ret {A} (a : A) : safe (mret a).
Proof. by intros r Hr. Qed.

Lemma safe_bind {A B} (m : M A) (f : A -> M B) : safe m -> (forall a, safe (f a)) -> safe (m ≫= f).
Proof.
  intros Hm Hf r Hr. destruct (Hm r Hr) as (Hr' & Hl & Ho). unfold mbind, M_bind.
  destruct (m r) as [[a|e] r']; cbn in *; [|split_and!; [done|done|congruence]].
  destruct (Hf a r' Hr') as (? & ? & ?). split_and!; [done|lia|done].
Qed.

Lemma safe_throw {A} e : e <> OutOfTurns -> safe (throw (A:=A) e).
Proof. intros He r Hr. split_and!; [done|done|cbn; congruence]. Qed.

Lemma safe_gets {A} (f : reader -> A) : safe (gets f).
Proof. by intros r Hr. Qed.

Lemma safe_modify f : (forall r, lexer_ (f r) = lexer_ r) -> safe (modify f).
Proof.
  intros Hf r Hr. unfold fresh, remaining, modify in *; cbn. rewrite Hf. split_and!; [done|lia|done].
Qed.

Lemma safe_finally {A} (m : M A) f :
  safe m -> (forall r, lexer_ (f r) = lexer_ r) -> safe (finally m f).
Proof.
  intros Hm Hf r Hr. destruct (Hm r Hr) as (H1 & H2 & H3). unfold finally, fresh, remaining in *.
  destruct (m r) as [res r']; cbn in *. by rewrite Hf.
Qed.

(** A token but the end of the source takes at least a byte. *)
Lemma nextToken_step r : fresh r ->
  exists tok l, nextToken r = (Ok tok, set_lexer l r) /\ hasPeek_ l = false /\
    (Lexer.left l <= remaining r)%nat /\
    (kind tok <> EndOfFile -> (Lexer.left l < remaining r)%nat).
Proof.
  intros Hr. destruct (next_fresh _ Hr) as (l1 & Hm & Es & Ep & _ & _ & Eh & Hk).
  unfold nextToken, remaining. destruct (next (lexer_ r)) as [tok l]. cbn in *.
  exists tok, l. assert (Lexer.left l = Lexer.left l1) as El by (unfold Lexer.left; congruence).
  split_and!; [done| | |].
  - rewrite Eh. apply moves_fields in Hm as (_ & -> & _). done.
  - rewrite El. by apply moves_left.
  - rewrite El. intros H%Hk. apply H.
Qed.

Lemma safe_nextToken : safe nextToken.
Proof.
  intros r Hr. destruct (nextToken_step r Hr) as (tok & l & -> & H1 & H2 & _). by split_and!.
Qed.

(** The decomposition of a computation into its steps. *)
Ltac safe_step :=
  lazymatch goal with
  | |- safe (mret _) => apply safe_ret
  | |- safe (gets _) => apply safe_gets
  | |- safe nextToken => apply safe_nextToken
  | |- safe (throw _) => apply safe_throw; discriminate
  | |- safe (modify _) => apply safe_modify; intros; reflexivity
  | |- safe (finally _ _) => apply safe_finally; [|intros; reflexivity]
  | |- safe (_ ≫= _) => apply safe_bind; [|intros ?]
  | |- _ => solve [eauto]
  end.

Ltac safe := repeat (safe_step || case_match).

Section Progress.
Context `{ReaderEnv} (cfg : config).

Lemma safe_recordPosition form ln col : safe (recordPosition cfg form ln col).
Proof. unfold recordPosition. safe. Qed.

Lemma safe_listOf items : safe (listOf items).
Proof. unfold listOf, allocate. intros r Hr. by split_and!. Qed.

Lemma safe_allocate : safe allocate.
Proof. intros r Hr. by split_and!. Qed.

Lemma safe_nextGensymId : safe nextGensymId.
Proof. intros r Hr. by split_and!. Qed.

#[local] Hint Resolve safe_nextGensymId : core.

Lemma safe_genParam stem : safe (genParam stem).
Proof. unfold genParam. safe. Qed.

#[local] Hint Resolve safe_recordPosition safe_listOf safe_allocate safe_genParam : core.

Lemma safe_fromLong z : safe (fromLong z).
Proof. unfold fromLong. safe. Qed.

Lemma safe_makeUtf8String s : safe (makeUtf8String s).
Proof. unfold makeUtf8String. safe. Qed.

Lemma safe_readerErrorAt {A} msg tok : safe (readerErrorAt (A:=A) msg tok).
Proof. unfold readerErrorAt. safe. Qed.

#[local] Hint Resolve safe_fromLong safe_makeUtf8String safe_readerErrorAt : core.

(** *** With a safe way to read the forms inside *)
Section Forms.
Context (readForm : Token -> M obj) (Hform : forall tok, safe (readForm tok)).

Lemma safe_readNextForm tok : safe (readNextForm readForm tok).
Proof. unfold readNextForm. safe. Qed.

#[local] Hint Resolve safe_readNextForm : core.

Lemma safe_readUnpositioned tok : safe (readUnpositioned readForm tok).
Proof. unfold readUnpositioned. safe. Qed.

#[local] Hint Resolve safe_readUnpositioned : core.

Lemma safe_discardNextForm tok : safe (discardNextForm readForm tok).
Proof. unfold discardNextForm. safe. Qed.

#[local] Hint Resolve safe_discardNextForm : core.

Lemma safe_readWrapped tok h : safe (readWrapped readForm tok h).
Proof. unfold readWrapped. safe. Qed.

(** The result of a run from [r]: still fresh, not further back, in turns. *)
Definition runs {A} (r : reader) (res : result readError A * reader) : Prop :=
  fresh res.2 /\ (remaining res.2 <= remaining r)%nat /\ res.1 <> Throw OutOfTurns.

Lemma runs_bind {A B} (m : M A) (f : A -> M B) r :
  runs r (m r) -> (forall a r', m r = (Ok a, r') -> runs r (f a r')) -> runs r ((m ≫= f) r).
Proof.
  intros (H1 & H2 & H3) Hf. unfold mbind, M_bind. destruct (m r) as [[a|e] r']; [by apply Hf|].
  unfold runs in *; cbn in *. split_and!; [done|done|congruence].
Qed.

Lemma runs_weaken {A} r r' (res : result readError A * reader) :
  (remaining r' <= remaining r)%nat -> runs r' res -> runs r res.
Proof. intros Hl (H1 & H2 & H3). split_and!; [done|lia|done]. Qed.

(** One turn per token is enough. *)
Lemma safe_readItems close ln col un turns acc r :
  fresh r -> (remaining r < turns)%nat -> runs r (readItems readForm close ln col un turns acc r).
Proof.
  revert acc r. induction turns as [|turns IH]; intros acc r Hr Hn; [lia|]. cbn [readItems].
  destruct (nextToken_step r Hr) as (tok & l & E & Hl & Hle & Hlt).
  apply runs_bind; [by apply safe_nextToken|]. rewrite E. intros ? ? [= <- <-].
  set (r1 := set_lexer l r). assert (fresh r1) as Hr1 by done.
  change (Lexer.left l) with (remaining r1) in *.
  apply (runs_weaken r r1); [done|].
  destruct (decide (kind tok = EndOfFile)) as [|Hk]; [by split_and!|]. specialize (Hlt Hk).
  destruct (decide (kind tok = close)); [by split_and!|].
  destruct (decide (kind tok = HashUnderscore)); [|destruct (decide _)].
  - apply runs_bind; [by apply safe_discardNextForm|]. intros u r2 E2.
    destruct (safe_discardNextForm tok r1 Hr1) as (H1 & H2 & _). rewrite E2 in H1, H2. cbn in H1, H2.
    apply (runs_weaken r1 r2); [done|]. apply IH; [done|lia].
  - by apply safe_readerErrorAt.
  - apply runs_bind; [by apply Hform|]. intros form r2 E2.
    destruct (Hform tok r1 Hr1) as (H1 & H2 & _). rewrite E2 in H1, H2. cbn in H1, H2.
    apply (runs_weaken r1 r2); [done|]. apply IH; [done|lia].
Qed.

Lemma fuel_remaining r : (remaining r < Lexer.fuel (lexer_ r))%nat.
Proof. unfold remaining, Lexer.left, Lexer.fuel. lia. Qed.

Lemma safe_readElements close tok un : safe (readElements readForm close tok un).
Proof.
  intros r Hr. unfold readElements, mbind, M_bind, gets. apply safe_readItems; [done|].
  apply fuel_remaining.
Qed.

#[local] Hint Resolve safe_readElements : core.

Lemma safe_readList tok : safe (readList cfg readForm tok).
Proof. unfold readList. safe. Qed.

#[local] Hint Resolve safe_readList : core.

Lemma safe_readVector tok : safe (readVector readForm tok).
Proof. unfold readVector. safe. Qed.

Lemma mapAssocPairs_even n base kv :
  Nat.even (length kv) = true -> mapAssocPairs n base kv = Ok (assocAll n (default [] base) kv).
Proof. unfold mapAssocPairs, requireEven. by intros ->. Qed.

Lemma setConj_new n items :
  setConj n None items = Some (assocAll n [] (newElements n None items)).
Proof. unfold setConj. rewrite mapAssocPairs_even; [done|]. by rewrite newElements_filter, pairs_even. Qed.

Lemma safe_duplicateKey {A} n keys tok (m : M A) : safe m -> safe (duplicateKey n keys tok m).
Proof. intros Hm. unfold duplicateKey. safe. Qed.

Lemma safe_readMap tok : safe (readMap cfg readForm tok).
Proof.
  unfold readMap. apply safe_bind; [done|]. intros kv.
  destruct (Nat.even (length kv)) eqn:E; cbn [negb]; [|done].
  cbv zeta. rewrite mapAssocPairs_even by done. apply safe_bind; [done|]. intros a.
  assert (safe (if hasInfo cfg && (0 <? length kv)%nat
    then _ ← recordKeyOrder (MapObj a (assocAll (keyFuel kv) (default [] None) kv)) (keysOf kv);
         mret (MapObj a (assocAll (keyFuel kv) (default [] None) kv))
    else mret (MapObj a (assocAll (keyFuel kv) (default [] None) kv)))).
  { unfold recordKeyOrder. safe. }
  destruct (negb _); [by apply safe_duplicateKey|done].
Qed.

Lemma safe_readSet tok : safe (readSet readForm tok).
Proof.
  unfold readSet. apply safe_bind; [done|]. intros items. cbv zeta. rewrite setConj_new.
  apply safe_bind; [done|]. intros a. destruct (negb _); [apply safe_duplicateKey|]; safe.
Qed.

Lemma safe_fillParams i ps : safe (fillParams i ps).
Proof. revert i. induction ps as [|[p|] ps IH]; intros i; cbn [fillParams]; safe. Qed.

#[local] Hint Resolve safe_fillParams : core.

Lemma safe_readFnLiteral tok : safe (readFnLiteral cfg readForm tok).
Proof. unfold readFnLiteral. safe. Qed.

End Forms.

(** *** Syntax-quote *)

Lemma safe_quoteSymbol form s : safe (quoteSymbol cfg form s).
Proof. unfold quoteSymbol, autoGensym. safe. Qed.

Lemma safe_mapItems n form : safe (mapItems cfg n form).
Proof. unfold mapItems. safe. Qed.

#[local] Hint Resolve safe_quoteSymbol safe_mapItems : core.

Lemma safe_quoteTemplate (sq : obj -> M obj) items b :
  (forall x, safe (sq x)) -> safe (quoteTemplate sq items b).
Proof.
  intros Hsq. assert (forall x, safe (quoteItem sq x)) by (intros; unfold quoteItem; safe).
  assert (forall xs, safe (quoteItems sq xs)) by (induction xs; cbn [quoteItems]; safe).
  unfold quoteTemplate. safe.
Qed.

#[local] Hint Resolve safe_quoteTemplate : core.

Lemma safe_syntaxQuote stack tok form : safe (syntaxQuote cfg stack tok form).
Proof.
  revert form. induction stack as [|stack IH]; intros form; cbn [syntaxQuote]; [safe|].
  destruct (selfEvaluating form); [safe|]. destruct form; safe.
Qed.

#[local] Hint Resolve safe_syntaxQuote : core.

Lemma safe_readSymbol s : safe (readSymbol s).
Proof. unfold readSymbol, fnLiteralArg. safe. Qed.

#[local] Hint Resolve safe_readSymbol safe_readNextForm safe_discardNextForm safe_readWrapped
  safe_readUnpositioned safe_readList safe_readVector safe_readMap safe_readSet safe_readFnLiteral : core.

Lemma safe_readFromToken stack tok : safe (readFromToken cfg stack tok).
Proof.
  revert tok. induction stack as [|stack IH]; intros tok; cbn [readFromToken]; [safe|].
  destruct (if edn_ cfg then _ else _); [done|]. unfold readBacktick. destruct (kind tok); safe.
Qed.

(** *** The public operations *)

(** After discarding [#_] forms: the end of the source, or a token past where [r] was. *)
Lemma skipDiscarded_runs stack turns r :
  fresh r -> (remaining r < turns)%nat ->
  runs r (skipDiscarded cfg stack turns r) /\
  forall tok r', skipDiscarded cfg stack turns r = (Ok tok, r') ->
    kind tok <> EndOfFile -> (remaining r' < remaining r)%nat.
Proof.
  revert r. induction turns as [|turns IH]; intros r Hr Hn; [lia|]. cbn [skipDiscarded].
  destruct (nextToken_step r Hr) as (tok & l & E & Hl & Hle & Hlt). unfold mbind, M_bind at 1 3. rewrite E.
  set (r1 := set_lexer l r). assert (fresh r1) as Hr1 by done.
  change (Lexer.left l) with (remaining r1) in *.
  destruct (decide (kind tok = HashUnderscore)) as [Hk|Hk].
  - specialize (Hlt ltac:(congruence)). unfold M_bind.
    destruct (safe_discardNextForm (readFromToken cfg stack) (safe_readFromToken stack) tok r1 Hr1)
      as (H1 & H2 & H3).
    destruct (discardNextForm _ tok r1) as [[u|e] r2]; cbn in H1, H2, H3.
    + destruct (IH r2 H1 ltac:(lia)) as [Hruns Hs]. split; [apply (runs_weaken r r2); [lia|done]|].
      intros tok' r' E' Hk'. specialize (Hs tok' r' E' Hk'). lia.
    + split; [split_and!; [done|cbn; lia|cbn; congruence]|done].
  - split; [split_and!; [done|cbn; lia|done]|]. intros ? ? [= <- <-] Hk'. by apply Hlt.
Qed.

Lemma reportOverflow_ok {A} (m : M A) r :
  runs r (m r) ->
  let res := reportOverflow m r in
  fresh res.2 /\ (remaining res.2 <= remaining r)%nat /\ res.2 = (m r).2 /\
  match res.1 with
  | Ok a => (m r).1 = Ok a
  | Throw (ReaderError _ _ _) => True
  | Throw _ => False
  end.
Proof.
  intros (H1 & H2 & H3). unfold reportOverflow. destruct (m r) as [[a|[]] r']; cbn in *; auto.
Qed.

Lemma readAllForms_runs stack turns acc r :
  fresh r -> (remaining r < turns)%nat -> runs r (readAllForms cfg stack turns acc r).
Proof.
  revert acc r. induction turns as [|turns IH]; intros acc r Hr Hn; [lia|]. cbn [readAllForms].
  destruct (nextToken_step r Hr) as (tok & l & E & Hl & Hle & Hlt).
  apply runs_bind; [by apply safe_nextToken|]. rewrite E. intros ? ? [= <- <-].
  set (r1 := set_lexer l r). assert (fresh r1) as Hr1 by done.
  change (Lexer.left l) with (remaining r1) in *.
  apply (runs_weaken r r1); [done|].
  destruct (decide (kind tok = EndOfFile)) as [|Hk]; [by split_and!|]. specialize (Hlt Hk).
  assert (forall (A : Type) (m : M A) (f : A -> list obj), safe m ->
    runs r1 ((m ≫= fun a => readAllForms cfg stack turns (f a)) r1)) as Hgo.
  { intros A m f Hm. apply runs_bind; [by apply Hm|]. intros a r2 E2.
    destruct (Hm r1 Hr1) as (H1 & H2 & _). rewrite E2 in H1, H2. cbn in H1, H2.
    apply (runs_weaken r1 r2); [done|]. apply IH; [done|lia]. }
  destruct (decide (kind tok = HashUnderscore)).
  - apply (Hgo unit _ (fun _ => acc)). apply safe_discardNextForm, safe_readFromToken.
  - apply (Hgo obj _ (fun form => acc ++ [form])). apply safe_readFromToken.
Qed.

End Progress.

(** ** One form after another

    Where a form starts, which [readOne] records, nothing reads: a computation does the
    same wherever it says the form started. *)
Definition blind {A} (m : M A) : Prop :=
  forall r a b, m (set_formStart a b r) = ((m r).1, set_formStart a b (m r).2).

Lemma blind_ret {A} (a : A) : blind (mret a).
Proof. done. Qed.

Lemma blind_bind {A B} (m : M A) (f : A -> M B) : blind m -> (forall a, blind (f a)) -> blind (m ≫= f).
Proof.
  intros Hm Hf r a b. unfold mbind, M_bind. rewrite Hm. destruct (m r) as [[x|e] r']; [apply Hf|done].
Qed.

Lemma blind_throw {A} e : blind (throw (A:=A) e).
Proof. done. Qed.

Lemma blind_gets {A} (f : reader -> A) : (forall r a b, f (set_formStart a b r) = f r) -> blind (gets f).
Proof. intros Hf r a b. unfold gets. by rewrite Hf. Qed.

Lemma blind_modify f : (forall r a b, f (set_formStart a b r) = set_formStart a b (f r)) -> blind (modify f).
Proof. intros Hf r a b. unfold modify. by rewrite Hf. Qed.

Lemma blind_finally {A} (m : M A) f :
  blind m -> (forall r a b, f (set_formStart a b r) = set_formStart a b (f r)) -> blind (finally m f).
Proof. intros Hm Hf r a b. unfold finally. rewrite Hm. destruct (m r) as [res r']. cbn. by rewrite Hf. Qed.

Lemma blind_nextToken : blind nextToken.
Proof. intros r a b. unfold nextToken. cbn. by destruct (next (lexer_ r)). Qed.

Ltac blind_step :=
  lazymatch goal with
  | |- blind (mret _) => apply blind_ret
  | |- blind (gets _) => apply blind_gets; intros; reflexivity
  | |- blind nextToken => apply blind_nextToken
  | |- blind (throw _) => apply blind_throw
  | |- blind (modify _) => apply blind_modify; intros; reflexivity
  | |- blind (finally _ _) => apply blind_finally; [|intros; reflexivity]
  | |- blind (_ ≫= _) => apply blind_bind; [|intros ?]
  | |- _ => solve [eauto]
  end.

Ltac blind := repeat (blind_step || case_match).

Section Blind.
Context `{ReaderEnv} (cfg : config).

Lemma blind_allocate : blind allocate.
Proof. done. Qed.

Lemma blind_nextGensymId : blind nextGensymId.
Proof. done. Qed.

#[local] Hint Resolve blind_allocate blind_nextGensymId : core.

Lemma blind_recordPosition form ln col : blind (recordPosition cfg form ln col).
Proof. unfold recordPosition. blind. Qed.

Lemma blind_listOf items : blind (listOf items).
Proof. unfold listOf. blind. Qed.

Lemma blind_genParam stem : blind (genParam stem).
Proof. unfold genParam. blind. Qed.

Lemma blind_readerErrorAt {A} msg tok : blind (readerErrorAt (A:=A) msg tok).
Proof. unfold readerErrorAt. blind. Qed.

#[local] Hint Resolve blind_recordPosition blind_listOf blind_genParam blind_readerErrorAt : core.

Lemma blind_duplicateKey {A} n keys tok (m : M A) : blind m -> blind (duplicateKey n keys tok m).
Proof. intros Hm. unfold duplicateKey. blind. Qed.

Section Forms.
Context (readForm : Token -> M obj) (Hform : forall tok, blind (readForm tok)).

Lemma blind_readNextForm tok : blind (readNextForm readForm tok).
Proof. unfold readNextForm. blind. Qed.

#[local] Hint Resolve blind_readNextForm : core.

Lemma blind_readUnpositioned tok : blind (readUnpositioned readForm tok).
Proof. unfold readUnpositioned. blind. Qed.

Lemma blind_discardNextForm tok : blind (discardNextForm readForm tok).
Proof. unfold discardNextForm, readUnpositioned. blind. Qed.

#[local] Hint Resolve blind_readUnpositioned blind_discardNextForm : core.

Lemma blind_readWrapped tok h : blind (readWrapped readForm tok h).
Proof. unfold readWrapped. blind. Qed.

Lemma blind_readItems close ln col un turns acc : blind (readItems readForm close ln col un turns acc).
Proof. revert acc. induction turns as [|turns IH]; intros acc; cbn [readItems]; blind. Qed.

#[local] Hint Resolve blind_readItems : core.

Lemma blind_readElements close tok un : blind (readElements readForm close tok un).
Proof. unfold readElements. blind. Qed.

#[local] Hint Resolve blind_readElements : core.

Lemma blind_readList tok : blind (readList cfg readForm tok).
Proof. unfold readList. blind. Qed.

Lemma blind_readVector tok : blind (readVector readForm tok).
Proof. unfold readVector. blind. Qed.

Lemma blind_readMap tok : blind (readMap cfg readForm tok).
Proof. unfold readMap, recordKeyOrder, duplicateKey. blind. Qed.

Lemma blind_readSet tok : blind (readSet readForm tok).
Proof. unfold readSet, duplicateKey. blind. Qed.

Lemma blind_fillParams i ps : blind (fillParams i ps).
Proof. revert i. induction ps as [|[p|] ps IH]; intros i; cbn [fillParams]; blind. Qed.

#[local] Hint Resolve blind_readList blind_fillParams : core.

Lemma blind_readFnLiteral tok : blind (readFnLiteral cfg readForm tok).
Proof. unfold readFnLiteral. blind. Qed.

End Forms.

Lemma blind_syntaxQuote stack tok form : blind (syntaxQuote cfg stack tok form).
Proof.
  revert form. induction stack as [|stack IH]; intros form; cbn [syntaxQuote]; [blind|].
  assert (forall x, blind (quoteItem (syntaxQuote cfg stack tok) x)) by (intros; unfold quoteItem; blind).
  assert (forall xs, blind (quoteItems (syntaxQuote cfg stack tok) xs)) by (induction xs; cbn [quoteItems]; blind).
  assert (forall xs b, blind (quoteTemplate (syntaxQuote cfg stack tok) xs b)) by (intros; unfold quoteTemplate; blind).
  assert (forall n f, blind (mapItems cfg n f)) by (intros; unfold mapItems; blind).
  assert (forall f s, blind (quoteSymbol cfg f s)) by (intros; unfold quoteSymbol, autoGensym; blind).
  blind.
Qed.

#[local] Hint Resolve blind_syntaxQuote blind_readNextForm blind_discardNextForm blind_readWrapped
  blind_readUnpositioned blind_readList blind_readVector blind_readMap blind_readSet blind_readFnLiteral : core.

Lemma blind_readFromToken stack tok : blind (readFromToken cfg stack tok).
Proof.
  revert tok. induction stack as [|stack IH]; intros tok; cbn [readFromToken]; [done|].
  unfold readBacktick, readSymbol, fnLiteralArg, fromLong, makeUtf8String. blind.
Qed.

(** The forms that [readOne] answers, one after another, until it answers none. *)
Fixpoint eachForm (stack n : nat) : M (list obj) :=
  match n with
  | O => throw OutOfTurns
  | S n =>
      form ← readOne cfg stack;
      match form with
      | None => mret []
      | Some form => forms ← eachForm stack n; mret (form :: forms)
      end
  end.

(** Two runs with the same result, in readers that differ in where the last form started. *)
Definition agree {A} (x y : result readError A * reader) : Prop :=
  x.1 = y.1 /\ set_formStart 0 0 x.2 = set_formStart 0 0 y.2.

Lemma reportOverflow_bind {A B} (m : M A) (f : A -> M B) r :
  reportOverflow (m ≫= f) r = (reportOverflow m ≫= fun a => reportOverflow (f a)) r.
Proof. unfold reportOverflow, mbind, M_bind. destruct (m r) as [[a|[]] r']; try done. Qed.

(** [readOne] with the turns given. *)
Definition readOneIn (stack turns : nat) : M (option obj) :=
  tok ← skipDiscarded cfg stack turns;
  if decide (kind tok = EndOfFile) then mret None
  else
    _ ← modify (set_formStart (tline tok) (tcolumn tok));
    form ← readFromToken cfg stack tok;
    mret (Some form).

Lemma skip_turns stack turns turns' r : fresh r -> (remaining r < turns)%nat -> (remaining r < turns')%nat ->
  skipDiscarded cfg stack turns r = skipDiscarded cfg stack turns' r.
Proof.
  revert turns' r. induction turns as [|turns IH]; intros turns' r Hr Hn Hn'; [lia|].
  destruct turns' as [|turns']; [lia|]. cbn [skipDiscarded].
  destruct (nextToken_step r Hr) as (tok & l & E & Hl & Hle & Hlt). unfold mbind, M_bind at 1 3. rewrite E.
  destruct (decide (kind tok = HashUnderscore)) as [Hk|]; [|done]. specialize (Hlt ltac:(congruence)). unfold M_bind.
  destruct (safe_discardNextForm (readFromToken cfg stack) (safe_readFromToken cfg stack) tok (set_lexer l r) Hl) as (H1 & H2 & _).
  change (remaining (set_lexer l r)) with (Lexer.left l) in H2.
  destruct (discardNextForm _ tok _) as [[u|e] r2]; [|done]. cbn in H1, H2. apply IH; [done|lia|lia].
Qed.

Lemma readOneIn_turns stack turns r : fresh r -> (remaining r < turns)%nat ->
  readOne cfg stack r = reportOverflow (readOneIn stack turns) r.
Proof.
  intros Hr Hn. unfold readOne, readOneIn, reportOverflow, mbind, M_bind, gets.
  by rewrite (skip_turns stack (fuel (lexer_ r)) turns r Hr (fuel_remaining r) Hn).
Qed.

(** What is read before makes no difference to the rest. *)
Lemma readAllForms_acc stack turns acc r :
  readAllForms cfg stack turns acc r =
  (forms ← readAllForms cfg stack turns []; mret (acc ++ forms)) r.
Proof.
  revert acc r. induction turns as [|turns IH]; intros acc r; [done|]. cbn [readAllForms].
  unfold mbind, M_bind. destruct (nextToken r) as [[tok|e] r1]; [|done].
  destruct (decide (kind tok = EndOfFile)) as [_|_]; [by cbn; rewrite app_nil_r|].
  destruct (decide (kind tok = HashUnderscore)) as [_|_].
  - destruct (discardNextForm _ tok r1) as [[u|e] r2]; [|done]. apply IH.
  - destruct (readFromToken cfg stack tok r1) as [[form|e] r2]; [|done].
    rewrite IH, (IH [form]). unfold mbind, M_bind. destruct (readAllForms _ _ _ [] r2) as [[forms|e] r3]; [|done].
    cbn. by rewrite <- app_assoc.
Qed.

Lemma readAll_each stack turns n r a b : fresh r -> (remaining r < turns)%nat -> (remaining r < n)%nat ->
  agree (reportOverflow (readAllForms cfg stack turns []) r) (eachForm stack n (set_formStart a b r)).
Proof.
  revert n r a b. induction turns as [|turns IH]; intros n r a b Hr Ht Hn; [lia|]. destruct n as [|n]; [lia|].
  assert (Hone : forall r turns, fresh r -> (remaining r < turns)%nat -> eachForm stack (S n) r =
    (form ← reportOverflow (readOneIn stack turns);
     match form with None => mret [] | Some form => forms ← eachForm stack n; mret (form :: forms) end) r).
  { intros r0 t0 Hr0 Ht0. cbn [eachForm]. unfold mbind, M_bind. by rewrite (readOneIn_turns stack t0). }
  rewrite (Hone (set_formStart a b r) (S turns) Hr Ht).
  cbn [readAllForms]. unfold readOneIn. cbn [skipDiscarded].
  destruct (nextToken_step r Hr) as (tok & l & E & Hl & Hle & Hlt).
  pose proof (blind_nextToken r a b) as Eb. rewrite E in Eb. cbn [fst snd] in Eb.
  set (r1 := set_lexer l r) in *. change (Lexer.left l) with (remaining r1) in *.
  unfold reportOverflow, mbind, M_bind. rewrite E, Eb.
  destruct (decide (kind tok = HashUnderscore)) as [Hk|Hk].
  - specialize (Hlt ltac:(congruence)). destruct (decide (kind tok = EndOfFile)) as [He|_]; [congruence|].
    pose proof (safe_readFromToken cfg stack) as Hsafe.
    destruct (safe_discardNextForm _ Hsafe tok r1 Hl) as (H1 & H2 & _).
    rewrite (blind_discardNextForm _ (blind_readFromToken stack) tok r1 a b).
    destruct (discardNextForm _ tok r1) as [[[]|er] r2]; cbn [fst snd] in *; [|by destruct er].
    specialize (IH (S n) r2 a b H1 ltac:(lia) ltac:(lia)).
    rewrite (Hone (set_formStart a b r2) turns H1 ltac:(change (remaining r2 < turns)%nat; lia)) in IH.
    exact IH.
  - unfold mret, M_ret. destruct (decide (kind tok = EndOfFile)) as [He|He]; [by split|]. specialize (Hlt He). unfold modify.
    destruct (safe_readFromToken cfg stack tok r1 Hl) as (H1 & H2 & _).
    change (set_formStart (tline tok) (tcolumn tok) (set_formStart a b r1)) with (set_formStart (tline tok) (tcolumn tok) r1).
    rewrite (blind_readFromToken stack tok r1 (tline tok) (tcolumn tok)).
    destruct (readFromToken cfg stack tok r1) as [[form|er] r2]; cbn [fst snd] in *; [|by destruct er].
    rewrite readAllForms_acc. unfold mbind, M_bind, mret, M_ret. cbn [app].
    specialize (IH n r2 (tline tok) (tcolumn tok) H1 ltac:(lia) ltac:(lia)). unfold reportOverflow, agree in *.
    destruct (readAllForms cfg stack turns [] r2) as [[forms|er] r3], (eachForm stack n _) as [res r4]; cbn in *;
      [|destruct er]; destruct IH as [<- IH]; done.
Qed.

End Blind.

(** C37. Reading ends. From a reader that buffers no token, on any source and any
    stack, [readOne] answers a form after consuming at least a byte, or that there
    is none, or a read error with a position (deep nesting included), never going
    back in the source; so does [readAll], which answers what [readOne] does until it
    answers none, one form after another, or its first error, and leaves the reader as
    they do (but for where the last form started, which [readAll] does not record). *)
Theorem read_total `{ReaderEnv} cfg stack r :
  fresh r ->
  (let '(res, r') := readOne cfg stack r in
   fresh r' /\ (remaining r' <= remaining r)%nat /\
   match res with
   | Ok (Some _) => (remaining r' < remaining r)%nat
   | Ok None | Throw (ReaderError _ _ _) => True
   | Throw _ => False
   end) /\
  (let '(res, r') := readAll cfg stack r in
   fresh r' /\ (remaining r' <= remaining r)%nat /\
   match res with
   | Ok _ | Throw (ReaderError _ _ _) => True
   | Throw _ => False
   end) /\
  agree (readAll cfg stack r) (eachForm cfg stack (S (remaining r)) r).
Proof.
  intros Hr. split; [|split].
  - unfold readOne.
    match goal with |- context [reportOverflow ?m] => set (m0 := m) end.
    assert (runs r (m0 r) /\ forall form r', m0 r = (Ok (Some form), r') ->
      (remaining r' < remaining r)%nat) as [Hruns Hlt].
    { subst m0. unfold mbind, M_bind, gets.
      destruct (skipDiscarded_runs cfg stack (fuel (lexer_ r)) r Hr (fuel_remaining r)) as [Hs Hk].
      destruct (skipDiscarded _ _ _ r) as [[tok|e] r1]; [|split; [|done]; destruct Hs as (?&?&?);
        split_and!; cbn in *; [done|done|congruence]].
      specialize (Hk tok r1 eq_refl).
      destruct (decide (kind tok = EndOfFile)) as [|Hne].
      { destruct Hs as (? & ? & _). split; [by split_and!|]. intros ? ?. unfold mret, M_ret. congruence. }
      specialize (Hk Hne). unfold modify.
      set (r2 := set_formStart (tline tok) (tcolumn tok) r1).
      destruct Hs as (Hf1 & Hl1 & _). cbn in Hf1, Hl1. assert (fresh r2) as Hr2 by done.
      destruct (safe_readFromToken cfg stack tok r2 Hr2) as (H1 & H2 & H3).
      change (remaining r2) with (remaining r1) in H2.
      destruct (readFromToken cfg stack tok r2) as [[form|e] r3]; cbn in *.
      - split; [split_and!; [done|cbn; lia|done]|]. intros ? ? [= <- <-]. lia.
      - split; [split_and!; [done|cbn; lia|cbn; congruence]|done]. }
    destruct (reportOverflow_ok m0 r Hruns) as (H1 & H2 & H3 & H4).
    destruct (reportOverflow m0 r) as [res r']. cbn in *. split_and!; [done|done|].
    destruct res as [[form|]|[]]; try done. apply (Hlt form). subst r'.
    destruct (m0 r) as [res r']. cbn in *. by subst res.
  - unfold readAll.
    match goal with |- context [reportOverflow ?m] => set (m0 := m) end.
    assert (runs r (m0 r)) as Hruns by (apply readAllForms_runs; [done|apply fuel_remaining]).
    destruct (reportOverflow_ok m0 r Hruns) as (H1 & H2 & _ & H4).
    destruct (reportOverflow m0 r) as [res r']. cbn in *. split_and!; [done|done|].
    by destruct res as [|[]].
  - assert (Ha := readAll_each cfg stack (fuel (lexer_ r)) (S (remaining r)) r (formLine_ r) (formColumn_ r)
      Hr (fuel_remaining r) ltac:(lia)).
    replace (set_formStart (formLine_ r) (formColumn_ r) r) with r in Ha by (by destruct r). exact Ha.
Qed.

(** ** Map and set literals *)

Fixpoint pairsOf (kv : list obj) : entries :=
  match kv with k :: v :: kv => (k, v) :: pairsOf kv | _ => [] end.

Lemma pairsOf_length kv : length (pairsOf kv) = (length kv / 2)%nat.
Proof.
  induction kv as [kv IH] using (induction_ltof1 _ (@length obj)).
  destruct kv as [|k [|v kv]]; [done|done|]. cbn [pairsOf length].
  rewrite IH by (unfold ltof; cbn; lia).
  replace (S (S (length kv))) with (length kv + 1 * 2)%nat by lia. rewrite Nat.div_add by lia. lia.
Qed.

Lemma keysOf_pairs kv : keysOf kv = map fst (pairsOf kv).
Proof.
  induction kv as [kv IH] using (induction_ltof1 _ (@length obj)).
  destruct kv as [|k [|v kv]]; [done|done|]. cbn. f_equal. apply IH. unfold ltof; cbn; lia.
Qed.

Lemma pairsOf_wf (P : obj -> Prop) kv :
  Forall P kv -> Forall (fun e : obj * obj => P e.1 /\ P e.2) (pairsOf kv).
Proof.
  induction kv as [kv IH] using (induction_ltof1 _ (@length obj)). intros Hkv.
  destruct kv as [|k [|v kv]]; [constructor|constructor|]. cbn.
  inversion Hkv as [|? ? Hk Hkv']; subst. inversion Hkv'; subst.
  constructor; [done|]. apply IH; [unfold ltof; cbn; lia|done].
Qed.

Lemma assocAll_pairs `{HashedMaps} n m kv :
  assocAll n m kv = fold_left (fun m e => assoc n m e.1 e.2) (pairsOf kv) m.
Proof.
  revert m. induction kv as [kv IH] using (induction_ltof1 _ (@length obj)). intros m.
  destruct kv as [|k [|v kv]]; [done|done|]. cbn. apply IH. unfold ltof; cbn; lia.
Qed.

(** Into an empty set every item goes, as its own value. *)
Lemma newElements_none `{HashedMaps} n items :
  newElements n None items = flat_map (fun e => [e; e]) items.
Proof. induction items as [|e items IH]; cbn; [done|]. by rewrite IH. Qed.

Lemma pairsOf_twice (items : list obj) :
  pairsOf (flat_map (fun e => [e; e]) items) = map (fun e => (e, e)) items.
Proof. induction items as [|e items IH]; cbn; [done|]. by rewrite IH. Qed.

Section Literals.
Context `{ReaderEnv} `{!HashedLaws} (live : obj -> Prop) `{!Heap live} (n : nat).

Lemma assoc_step m k v :
  wfEntries live n m -> wf live n k -> wf live n v ->
  wfEntries live n (assoc n m k v) /\
  (if member n m k then length (assoc n m k v) = length m else assoc n m k v ≡ₚ (k, v) :: m) /\
  forall x, wf live n x -> member n (assoc n m k v) x = keyEquals n k x || member n m x.
Proof.
  intros Hm Hk Hv. assert (refines live n m (mkSpec (mapGet n m) (length m))) as Hr by done.
  destruct (assoc_refines live n m _ k v Hr Hk Hv) as (H1 & H2 & H3).
  destruct (assoc_entries live n m k v Hm Hk Hv) as (k' & m' & Hp & _ & _ & Hold).
  cbn in H2, H3. split_and!; [done| |].
  - unfold member. destruct (mapGet n m k); [done|]. by destruct Hold as [-> ->].
  - intros x Hx. unfold member. rewrite H2 by done. by destruct (keyEquals n k x), (mapGet n m x).
Qed.

Lemma assoc_fold_length es m :
  wfEntries live n m -> Forall (fun e => wf live n e.1 /\ wf live n e.2) es ->
  (length (fold_left (fun m e => assoc n m e.1 e.2) es m) <= length es + length m)%nat.
Proof.
  intros Hm Hes. revert m Hm. induction Hes as [|e es [Wk Wv] Hes IH]; intros m Hm; cbn; [lia|].
  destruct (assoc_step m e.1 e.2 Hm Wk Wv) as (Hm' & Hl & _). specialize (IH _ Hm').
  destruct (member n m e.1); [lia|]. rewrite Hl in IH at 2. cbn in IH. lia.
Qed.

(** Associating [es] with [m]: when no key is equal to one before it, all are
    added; otherwise the count falls short. *)
Lemma assoc_fold es m seen :
  wfEntries live n m -> Forall (fun e => wf live n e.1 /\ wf live n e.2) es ->
  (forall x, wf live n x -> existsb (fun s => keyEquals n s x) seen = member n m x) ->
  let m' := fold_left (fun m e => assoc n m e.1 e.2) es m in
  match findDuplicate n seen (map fst es) with
  | None => m' ≡ₚ es ++ m
  | Some _ => (length m' < length es + length m)%nat
  end.
Proof.
  intros Hm Hes. revert m seen Hm. induction Hes as [|e es [Wk Wv] Hes IH]; intros m seen Hm Hseen; [cbn; reflexivity|].
  cbn. destruct (assoc_step m e.1 e.2 Hm Wk Wv) as (Hm' & Hl & Hmem).
  rewrite Hseen by done. destruct (member n m e.1) eqn:Em.
  - pose proof (assoc_fold_length es _ Hm' Hes). lia.
  - specialize (IH _ (seen ++ [e.1]) Hm'). cbn zeta in IH.
    assert (forall x, wf live n x ->
      existsb (fun s => keyEquals n s x) (seen ++ [e.1]) = member n (assoc n m e.1 e.2) x) as Hseen'.
    { intros x Hx. rewrite Hmem, existsb_app, Hseen by done. cbn. by rewrite orb_false_r, orb_comm. }
    specialize (IH Hseen'). destruct (findDuplicate _ _ _).
    + rewrite Hl in IH at 2. cbn in IH. lia.
    + rewrite IH, Hl. destruct e. by rewrite Permutation_middle.
Qed.

(** The keys of [L] at positions [lo..hi-1] are equal to none before them. *)
Definition noneEqual (L : list obj) (lo hi : nat) : Prop :=
  forall i j a b, (lo <= i < hi)%nat -> (j < i)%nat -> L !! i = Some a -> L !! j = Some b ->
    keyEquals n b a = false.

(** [k], at position [i], is equal to a key before it. *)
Definition repeats (L : list obj) (i : nat) (k : obj) : Prop :=
  L !! i = Some k /\ exists j s, (j < i)%nat /\ L !! j = Some s /\ keyEquals n s k = true.

Lemma existsb_seen seen k :
  existsb (fun s => keyEquals n s k) seen = true <->
  exists j s, (j < length seen)%nat /\ seen !! j = Some s /\ keyEquals n s k = true.
Proof.
  rewrite existsb_exists. split.
  - intros (s & [j Hj]%list_elem_of_In%list_elem_of_lookup & E). exists j, s.
    split_and!; [by apply lookup_lt_Some in Hj|done|done].
  - intros (j & s & _ & Hj & E). exists s. split; [|done].
    by apply list_elem_of_In; eapply list_elem_of_lookup_2.
Qed.

Lemma findDuplicate_spec seen keys :
  match findDuplicate n seen keys with
  | Some k => exists i, (length seen <= i)%nat /\ repeats (seen ++ keys) i k /\
      noneEqual (seen ++ keys) (length seen) i
  | None => noneEqual (seen ++ keys) (length seen) (length seen + length keys)
  end.
Proof.
  revert seen. induction keys as [|k keys IH]; intros seen; cbn; [intros i j a b Hi; lia|].
  assert ((seen ++ k :: keys) !! length seen = Some k) as Hk
    by (rewrite lookup_app_r by lia; by rewrite Nat.sub_diag).
  destruct (existsb _ seen) eqn:E.
  - exists (length seen). split; [lia|]. split; [|intros i j a b Hi; lia]. split; [done|].
    apply existsb_seen in E as (j & s & Hj & Hs & E). exists j, s.
    split_and!; [done|by apply lookup_app_l_Some|done].
  - specialize (IH (seen ++ [k])). rewrite <- app_assoc, length_app in IH. cbn in IH.
    assert (forall j b, (j < length seen)%nat -> (seen ++ k :: keys) !! j = Some b ->
      keyEquals n b k = false) as Hno.
    { intros j b Hj Hb. apply not_true_is_false. intros E'.
      rewrite lookup_app_l in Hb by done.
      by rewrite (proj2 (existsb_seen seen k)) in E by eauto. }
    assert (forall hi, noneEqual (seen ++ k :: keys) (length seen + 1) hi ->
      noneEqual (seen ++ k :: keys) (length seen) hi) as Hext.
    { intros hi Hn i j a b Hi Hj Ha Hb. destruct (decide (i = length seen)) as [->|].
      - rewrite Hk in Ha. injection Ha as <-. by apply (Hno j).
      - by apply (Hn i j); [lia|..]. }
    destruct (findDuplicate n (seen ++ [k]) keys) as [d|].
    + destruct IH as (i & Hi & Hr & Hn). exists i. split_and!; [lia|done|by apply Hext].
    + apply Hext. by replace (length seen + S (length keys))%nat
        with (length seen + 1 + length keys)%nat by lia.
Qed.

Lemma findDuplicate_nil keys :
  match findDuplicate n [] keys with
  | Some k => exists i, repeats keys i k /\ noneEqual keys 0 i
  | None => noneEqual keys 0 (length keys)
  end.
Proof.
  pose proof (findDuplicate_spec [] keys) as Hs. cbn in Hs. destruct (findDuplicate n [] keys); [|done].
  destruct Hs as (i & _ & ?). eauto.
Qed.

(** A literal's entries, all different, or the first repeated key. *)
Lemma literal_entries es :
  Forall (fun e => wf live n e.1 /\ wf live n e.2) es ->
  let m := fold_left (fun m e => assoc n m e.1 e.2) es [] in
  if mapCount m =? Z.of_nat (length es) then noneEqual (map fst es) 0 (length es) /\ m ≡ₚ es
  else exists k i, findDuplicate n [] (map fst es) = Some k /\ repeats (map fst es) i k /\
    noneEqual (map fst es) 0 i.
Proof.
  intros Hes m. pose proof (assoc_fold es [] [] (wfEntries_nil live n) Hes) as Hf.
  cbn zeta in Hf. fold m in Hf. rewrite mapCount_length. pose proof (findDuplicate_nil (map fst es)) as Hd.
  rewrite length_map in Hd. rewrite app_nil_r, Nat.add_0_r in Hf.
  assert (forall x, wf live n x -> existsb (fun s => keyEquals n s x) [] = member n [] x) as Hnil.
  { intros x Hx. unfold member. by rewrite (mapGet_nil live). }
  specialize (Hf Hnil). destruct (findDuplicate n [] (map fst es)) as [k|].
  - destruct (Z.eqb_spec (Z.of_nat (length m)) (Z.of_nat (length es))); [lia|].
    destruct Hd as (i & ? & ?). eauto.
  - by rewrite (Permutation_length Hf), Z.eqb_refl.
Qed.

(** A map literal is the map of its keys and values, which it holds as they
    were read, and (when positions are kept) its keys are recorded in source order;
    an odd number of forms, or a key equal to one before it, is a read error at the
    literal's opening brace, which names the first repeated key. *)
Theorem map_literal cfg (readForm : Token -> M obj) tok r kv r1 :
  readElements readForm RBrace tok None r = (Ok kv, r1) ->
  n = keyFuel kv -> Forall (wf live n) kv ->
  match readMap cfg readForm tok r with
  | (Ok m, r2) =>
      Nat.even (length kv) = true /\ noneEqual (keysOf kv) 0 (length (keysOf kv)) /\
      mapEntries m ≡ₚ pairsOf kv /\
      (hasInfo cfg = true -> kv <> [] -> (address m, keysOf kv) ∈ mapKeyOrder r2)
  | (Throw (ReaderError msg ln col), _) =>
      ln = tline tok /\ col = tcolumn tok /\
      (Nat.even (length kv) = false /\ msg = s2b "Map literal must contain an even number of forms" \/
       Nat.even (length kv) = true /\ exists k i,
         repeats (keysOf kv) i k /\ noneEqual (keysOf kv) 0 i /\
         msg = s2b "Duplicate key: " ++ describeKey k)
  | _ => False
  end.
Proof.
  intros Hr Hn Hkv. unfold readMap, mbind, M_bind. rewrite Hr.
  destruct (Nat.even (length kv)) eqn:Ev; cbn [negb]; [|cbn; auto].
  rewrite <- Hn, mapAssocPairs_even, assocAll_pairs by done. cbn [default].
  pose proof (literal_entries (pairsOf kv) (pairsOf_wf _ kv Hkv)) as Hlit. cbn zeta in Hlit.
  rewrite <- keysOf_pairs, pairsOf_length in Hlit.
  assert (length (keysOf kv) = (length kv / 2)%nat) as Hlen
    by (by rewrite keysOf_pairs, length_map, pairsOf_length).
  cbn -[s2b Nat.ltb Nat.div mapCount]. destruct (mapCount _ =? _); cbn [negb].
  - destruct Hlit as [Hno Hp]. rewrite Hlen. unfold recordKeyOrder.
    destruct (hasInfo cfg && (0 <? length kv)%nat) eqn:Ei; cbn -[Nat.div];
      (split; [done|]); (split; [exact Hno|]); (split; [exact Hp|]).
    + intros _ _. by left.
    + intros Hi Hne. rewrite Hi in Ei. by destruct kv.
  - destruct Hlit as (k & i & Hf & Hrep & Hno). unfold duplicateKey. rewrite Hf. cbn.
    split_and!; [done|done|]. right. split; [done|]. by exists k, i.
Qed.

(** A set literal is the set of its elements, which it holds as they were
    read; an element equal to one before it is a read error at the literal's
    opening, which names the first repeated element. *)
Theorem set_literal (readForm : Token -> M obj) tok r items r1 :
  readElements readForm RBrace tok (Some (s2b "unterminated set — missing `}`")) r = (Ok items, r1) ->
  n = keyFuel items -> Forall (wf live n) items ->
  match readSet readForm tok r with
  | (Ok st, _) =>
      noneEqual items 0 (length items) /\ mapEntries st ≡ₚ map (fun e => (e, e)) items
  | (Throw (ReaderError msg ln col), _) =>
      ln = tline tok /\ col = tcolumn tok /\ exists k i,
        repeats items i k /\ noneEqual items 0 i /\ msg = s2b "Duplicate key: " ++ describeKey k
  | _ => False
  end.
Proof.
  intros Hr Hn Hi. unfold readSet, mbind, M_bind. rewrite Hr. cbv zeta.
  rewrite <- Hn, setConj_new, newElements_none, assocAll_pairs, pairsOf_twice.
  pose proof (literal_entries (map (fun e => (e, e)) items) ltac:(by apply Forall_map, (Forall_impl _ _ _ Hi)))
    as Hlit. cbn zeta in Hlit.
  rewrite map_map, length_map in Hlit. cbn [fst] in Hlit. rewrite map_id in Hlit.
  cbn -[s2b setCount]. unfold setCount. destruct (mapCount _ =? _); cbn [negb].
  - by destruct Hlit.
  - destruct Hlit as (k & i & Hf & Hrep & Hno). unfold duplicateKey. rewrite Hf. cbn.
    split; [done|]. split; [done|]. by exists k, i.
Qed.

End Literals.

(** ** Examples *)
Module Examples.
Import ListMaps Demo.

Definition totalReader : reader := demoReader (s2b "#_x (a 'b) c").

Lemma read_total_witness :
  fresh totalReader /\
  let '(res, r') := readOne demoConfig 20 totalReader in
  fresh r' /\ (remaining r' <= remaining totalReader)%nat /\
  match res with
  | Ok (Some _) => (remaining r' < remaining totalReader)%nat
  | Ok None | Throw (ReaderError _ _ _) => True
  | Throw _ => False
  end.
Proof.
  assert (fresh totalReader) as Hf by (vm_compute; reflexivity).
  split; [exact Hf|]. destruct (read_total demoConfig 20 totalReader Hf) as [H _]. exact H.
Defined.

(** The literal [{1 :k 2 :k}], after its opening brace. *)
Definition literalReader : reader := demoReader (s2b "1 :k 2 :k }").
Definition literalTok : Token := plainToken LBrace (s2b "{") 1 1.

Definition two : obj := Embedded 0x801.
Definition keyword : obj := internNamed (s2b ":k").
Definition literalHeap (v : obj) : Prop := v ∈ [one; two; keyword].

#[export] Instance literalHeap_heap : Heap literalHeap.
Proof.
  intros a b Ha Hb. unfold literalHeap in *. rewrite !elem_of_cons in Ha, Hb.
  destruct_or! Ha; destruct_or! Hb; subst; try done; intros E;
    discriminate E || by apply not_elem_of_nil in Ha || by apply not_elem_of_nil in Hb.
Qed.

Lemma literal_wf : Forall (wf literalHeap 1) [one; keyword; two; keyword].
Proof. repeat constructor; unfold literalHeap; rewrite !elem_of_cons; tauto. Qed.

Lemma map_literal_witness :
  match readMap demoConfig (readFromToken demoConfig 5) literalTok literalReader with
  | (Ok m, r2) => mapEntries m ≡ₚ [(one, keyword); (two, keyword)] /\
      (address m, [one; two]) ∈ mapKeyOrder r2
  | _ => False
  end.
Proof.
  destruct (readElements (readFromToken demoConfig 5) RBrace literalTok None literalReader)
    as [res r1] eqn:E. assert (Hres := f_equal fst E). vm_compute in Hres.
  rewrite <- Hres in E. clear Hres.
  pose proof (map_literal literalHeap 1 demoConfig (readFromToken demoConfig 5) literalTok literalReader
    [one; keyword; two; keyword] r1 E eq_refl literal_wf) as Hm.
  destruct (readMap demoConfig (readFromToken demoConfig 5) literalTok literalReader) as [[m|e] r2] eqn:Em.
  - destruct Hm as (_ & _ & Hp & Ho). split; [exact Hp|]. apply Ho; [reflexivity|discriminate].
  - exfalso. apply (f_equal fst) in Em. vm_compute in Em. discriminate Em.
Defined.

Lemma set_literal_witness :
  match readSet (readFromToken demoConfig 5) literalTok (demoReader (s2b "1 2 1}")) with
  | (Throw (ReaderError msg ln col), _) =>
      ln = 1 /\ col = 1 /\ exists k i, repeats 1 [one; two; one] i k /\
        noneEqual 1 [one; two; one] 0 i /\ msg = s2b "Duplicate key: " ++ describeKey k
  | _ => False
  end.
Proof.
  set (r := demoReader (s2b "1 2 1}")).
  destruct (readElements (readFromToken demoConfig 5) RBrace literalTok
    (Some (s2b "unterminated set — missing `}`")) r) as [res r1] eqn:E.
  assert (Hres := f_equal fst E). vm_compute in Hres. rewrite <- Hres in E. clear Hres.
  assert (Forall (wf literalHeap 1) [one; two; one]) as Hwf
    by (repeat constructor; unfold literalHeap; rewrite !elem_of_cons; tauto).
  pose proof (set_literal literalHeap 1 (readFromToken demoConfig 5) literalTok r
    [one; two; one] r1 E eq_refl Hwf) as Hs.
  destruct (readSet (readFromToken demoConfig 5) literalTok r) as [[st|e] r2] eqn:Es.
  - exfalso. apply (f_equal fst) in Es. vm_compute in Es. discriminate Es.
  - exact Hs.
Defined.

End Examples.
