(* ===== verification/SyntaxQuote.v ===== *)
(** Syntax-quote: evaluating the expansion of a template builds the template, its
    unquoted expressions replaced by their values (reader/Reader.cpp,
    [Reader::syntaxQuote]). *)

From S2P Require Import Prelude Values Lexer Maps Reader DemoReader.

#[local] Set Warnings "-register-all".

(** ** What forms evaluate to *)

(** The values built: a value the template mentions, and collections of values; a
    map and a set are the arguments they are made of. *)
Inductive tree :=
| TValue (v : obj)
| TList (items : list tree)
| TVector (items : list tree)
| TMap (kvs : list tree)
| TSet (elements : list tree).

(** The value a quoted form stands for. *)
Fixpoint treeOf (v : obj) : tree :=
  match v with
  | LList _ items => TList (map treeOf items)
  | Vec _ items => TVector (map treeOf items)
  | MapObj _ es => TMap (flat_map (fun e => [treeOf e.1; treeOf e.2]) es)
  | SetObj _ es => TSet (map (fun e => treeOf e.1) es)
  | v => TValue v
  end.

Section Templates.
Context `{ReaderEnv} (cfg : config).

(** How the program evaluates the expressions of the template. *)
Context (program : obj -> tree -> Prop).

(** [seq]: nil when there is nothing. *)
Definition seqOf (ts : list tree) : tree :=
  match ts with [] => TValue PROTO_NONE | _ => TList ts end.

(** An expression whose value is a sequence of [ts]. *)
Definition splices (e : obj) (ts : list tree) : Prop :=
  program e (TList ts) \/ program e (TVector ts) \/ program e (TValue PROTO_NONE) /\ ts = [].

Definition isSym (v : obj) (name : bytes) : Prop := same v (internNamed name) = true.

(** The built-in functions an expansion calls: [list], [concat], [seq], [apply] of a
    collection's constructor. *)
Inductive evaluates : obj -> tree -> Prop :=
| eval_program e t : program e t -> evaluates e t
| eval_self v : selfEvaluating v = true -> evaluates v (TValue v)
| eval_keyword a s : head s = Some ":"%byte -> evaluates (Named a s) (TValue (Named a s))
| eval_quote a q v : isSym q (s2b "quote") -> evaluates (LList a [q; v]) (treeOf v)
| eval_list0 a l : isSym l (s2b "clojure.core/list") -> evaluates (LList a [l]) (TList [])
| eval_seq a b s c pieces ts :
    isSym s (s2b "clojure.core/seq") -> isSym c (s2b "clojure.core/concat") ->
    concatenates pieces ts -> evaluates (LList a [s; LList b (c :: pieces)]) (seqOf ts)
| eval_apply a ap f e ts t :
    isSym ap (s2b "clojure.core/apply") -> evaluates e (seqOf ts) -> constructs f ts t ->
    evaluates (LList a [ap; f; e]) t
with concatenates : list obj -> list tree -> Prop :=
| concat_nil : concatenates [] []
| concat_cons piece pieces ts ts' :
    contributes piece ts -> concatenates pieces ts' -> concatenates (piece :: pieces) (ts ++ ts')
with contributes : obj -> list tree -> Prop :=
| contribute_list a l e t :
    isSym l (s2b "clojure.core/list") -> evaluates e t -> contributes (LList a [l; e]) [t]
| contribute_splice e ts : splices e ts -> contributes e ts
with constructs : obj -> list tree -> tree -> Prop :=
| construct_vector f ts : isSym f (s2b "clojure.core/vector") -> constructs f ts (TVector ts)
| construct_map f ts : isSym f (s2b "clojure.core/hash-map") -> constructs f ts (TMap ts)
| construct_set f ts : isSym f (s2b "clojure.core/hash-set") -> constructs f ts (TSet ts).

(** ** What a template stands for

    [table] is the syntax-quote's generated symbols, [orders] the source order of the
    keys of map forms. *)
Context (table : list (bytes * obj)) (orders : list (Z * list obj)).

Definition symbolFor (form : obj) (s : bytes) : obj :=
  if isGensymSpelling s then default (internNamed s) (lookup_sym s table)
  else match resolver_ cfg with
       | Some resolve => if bool_decide (resolve s = s) then form else internNamed (resolve s)
       | None => form
       end.

(** A map form's keys and values, in source order when it is known. *)
Definition entriesInOrder (form : obj) : list obj :=
  match (if hasInfo cfg then find (fun e => e.1 =? address form) orders else None) with
  | Some (_, keys) =>
      flat_map (fun k => [k; default PROTO_NONE (mapGet (depth form) (mapEntries form) k)]) keys
  | None => flat_map (fun e => [e.1; e.2]) (mapEntries form)
  end.

Definition isUnquote (v : obj) : bool := same v (internNamed unquote).
Definition isSplice (v : obj) : bool := same v (internNamed unquoteSplicing).

Inductive stands : obj -> tree -> Prop :=
| st_self v : selfEvaluating v = true -> isListValue v = false -> stands v (TValue v)
| st_form v t : selfEvaluating v = false -> shapes v t -> stands v t
with shapes : obj -> tree -> Prop :=
| st_keyword a s : head s = Some ":"%byte -> shapes (Named a s) (TValue (Named a s))
| st_symbol a s :
    head s <> Some ":"%byte -> shapes (Named a s) (treeOf (symbolFor (Named a s) s))
| st_unquote a u e t :
    isUnquote u = true -> isSplice u = false -> program e t -> shapes (LList a [u; e]) t
| st_empty a : shapes (LList a []) (TList [])
| st_list a h items ts :
    isUnquote h = false -> isSplice h = false -> stand (h :: items) ts ->
    shapes (LList a (h :: items)) (seqOf ts)
| st_vector a items ts : stand items ts -> shapes (Vec a items) (TVector ts)
| st_map a es ts : stand (entriesInOrder (MapObj a es)) ts -> shapes (MapObj a es) (TMap ts)
| st_set a es ts : stand (map fst es) ts -> shapes (SetObj a es) (TSet ts)
with stand : list obj -> list tree -> Prop :=
| stand_nil : stand [] []
| stand_form x xs t ts : stands x t -> stand xs ts -> stand (x :: xs) (t :: ts)
| stand_splice a u e xs ts ts' :
    isSplice u = true -> splices e ts -> stand xs ts' -> stand (LList a [u; e] :: xs) (ts ++ ts').

End Templates.

(** ** The tables of generated symbols only grow *)

Definition extends (t t' : list (bytes * obj)) : Prop :=
  forall s x, lookup_sym s t = Some x -> lookup_sym s t' = Some x.

#[export] Instance extends_preorder : PreOrder extends.
Proof. split; [by intros t s x|]. intros a b c H1 H2 s x ?. by apply H2, H1. Qed.

Section Growth.
Context `{ReaderEnv}.

(** The symbol generated for [s] with the number [n]. *)
Definition generated (s : bytes) (n : Z) : obj :=
  internNamed (removelast s ++ s2b "__" ++ to_string n ++ s2b "__auto__").

(** The symbols of [t'] that [t] does not have were generated from [lo] on, to [hi]. *)
Definition news (t t' : list (bytes * obj)) (lo hi : Z) : Prop :=
  lo <= hi /\ forall s x, lookup_sym s t' = Some x ->
    lookup_sym s t = Some x \/ exists n, lo < n <= hi /\ x = generated s n.

(** What a step of the expansion keeps: the innermost table grows, by generated
    symbols, the others and the recorded key orders stay. *)
Definition grows (r r' : reader) : Prop :=
  mapKeyOrder r' = mapKeyOrder r /\ tail (gensyms_ r') = tail (gensyms_ r) /\
  (gensyms_ r <> [] -> gensyms_ r' <> []) /\
  extends (default [] (head (gensyms_ r))) (default [] (head (gensyms_ r'))) /\
  news (default [] (head (gensyms_ r))) (default [] (head (gensyms_ r'))) (gensymId r) (gensymId r').

Lemma news_refl t n : news t t n n.
Proof. split; [lia|auto]. Qed.

#[export] Instance grows_preorder : PreOrder grows.
Proof.
  split; [intros r; split_and!; try done; apply news_refl|].
  intros a b c (H1 & H2 & H3 & H4 & [N1 N2]) (H5 & H6 & H7 & H8 & [N3 N4]).
  split_and!; [congruence|congruence|auto|by etransitivity|].
  split; [lia|]. intros s x [Hx|(n & ? & ->)]%N4.
  - destruct (N2 s x Hx) as [|(n & ? & ->)]; [by left|]. right. exists n. split; [lia|done].
  - right. exists n. split; [lia|done].
Qed.

End Growth.

Section Expansion.
Context `{ReaderEnv} (cfg : config) (program : obj -> tree -> Prop).

Lemma same_refl_sym (name : bytes) : isSym (internNamed name) name.
Proof. unfold isSym, same. apply Z.eqb_refl. Qed.

Lemma bind_ok {A B} (m : M A) (f : A -> M B) r b r' :
  (m ≫= f) r = (Ok b, r') -> exists a r1, m r = (Ok a, r1) /\ f a r1 = (Ok b, r').
Proof.
  unfold mbind, M_bind. destruct (m r) as [[a|e] r1] eqn:E; [|done]. intros. by exists a, r1.
Qed.

Lemma listOf_ok items r v r' :
  listOf items r = (Ok v, r') -> v = listFromArray (nextAddress r) items /\ grows r r'.
Proof. intros [= <- <-]. split; [done|]. split_and!; try done. apply news_refl. Qed.

Definition innermost (r : reader) : list (bytes * obj) := default [] (head (gensyms_ r)).

(** A run of [m] builds a form that evaluates to whatever [form] stands for, with the
    symbols generated by then. *)
Definition quotes (m : M obj) (form : obj) : Prop :=
  forall r e r', gensyms_ r <> [] -> m r = (Ok e, r') ->
    grows r r' /\
    forall T t, extends (innermost r') T -> stands cfg program T (mapKeyOrder r) form t ->
      evaluates program e t.

Lemma grows_symbol T r r' : grows r r' -> extends (innermost r') T -> extends (innermost r) T.
Proof. intros (_ & _ & _ & Hg & _) HT. by etransitivity. Qed.

(** ** Symbols *)

Lemma autoGensym_ok s r v r' :
  gensyms_ r <> [] -> autoGensym s r = (Ok v, r') ->
  grows r r' /\ lookup_sym s (innermost r') = Some v.
Proof.
  intros Hne. unfold autoGensym. intros (tables & r0 & [= <- <-] & Hk)%bind_ok.
  destruct (gensyms_ r) as [|table tables] eqn:Eg; [done|].
  destruct (lookup_sym s table) as [x|] eqn:Hs.
  - injection Hk as <- <-. split; [reflexivity|]. unfold innermost. by rewrite Eg.
  - apply bind_ok in Hk as (n & r1 & [= <- <-] & Hk). apply bind_ok in Hk as (u & r2 & [= <- <-] & Hk).
    injection Hk as <- <-.
    assert (forall s' x, lookup_sym s' ((s, generated s (gensymId r + 1)) :: table) = Some x ->
      lookup_sym s' table = Some x \/ s' = s /\ x = generated s (gensymId r + 1)) as Hcons.
    { intros s' x. unfold lookup_sym. cbn. case_bool_decide; [|auto]. subst. cbn. intros [= <-]. auto. }
    split.
    + split_and!; cbn; rewrite ?Eg; try done.
      * intros s' x Hx. unfold lookup_sym in *. cbn.
        case_bool_decide; [subst|done]. cbn in Hx. by rewrite Hs in Hx.
      * split; [lia|]. intros s' x [|[-> ->]]%Hcons; [by left|]. right. eexists. split; [|done]. lia.
    + unfold innermost, lookup_sym. cbn. by rewrite bool_decide_true.
Qed.

Lemma quoteSymbol_ok a s :
  selfEvaluating (Named a s) = false -> head s <> Some ":"%byte ->
  quotes (quoteSymbol cfg (Named a s) s) (Named a s).
Proof.
  intros Hself Hk r e r' Hne Hrun.
  assert (exists x r1, grows r r1 /\ listOf [internNamed (s2b "quote"); x] r1 = (Ok e, r') /\
    forall T, extends (innermost r1) T -> symbolFor cfg T (Named a s) s = x) as (x & r1 & Hg & Hl & Hx).
  { unfold quoteSymbol in Hrun. unfold symbolFor. destruct (isGensymSpelling s).
    - apply bind_ok in Hrun as (x & r1 & Ha & Hl). apply autoGensym_ok in Ha as [Hg Hs]; [|done].
      exists x, r1. split_and!; [done|done|]. intros T HT. by rewrite (HT s x Hs).
    - eexists _, r. split_and!; [reflexivity|exact Hrun|done]. }
  apply listOf_ok in Hl as [-> Hg']. split; [by etransitivity|]. intros T t HT Hs.
  specialize (Hx T (grows_symbol T r1 r' Hg' HT)).
  inversion Hs as [? Hself'|? ? _ Hsh]; subst; [congruence|]. inversion Hsh; subst; [done|].
  apply eval_quote, same_refl_sym.
Qed.

(** ** Items and collections *)

(** What an item of a template contributes. *)
Definition itemStands T orders (item : obj) (ts : list tree) : Prop :=
  (exists t, ts = [t] /\ stands cfg program T orders item t) \/
  (exists a u e, item = LList a [u; e] /\ isSplice u = true /\ splices program e ts).

Section Items.
Context (sq : obj -> M obj) (Hsq : forall x, quotes (sq x) x).

Definition contributesAs (m : M obj) (item : obj) : Prop :=
  forall r e r', gensyms_ r <> [] -> m r = (Ok e, r') ->
    grows r r' /\
    forall T ts, extends (innermost r') T -> itemStands T (mapKeyOrder r) item ts ->
      contributes program e ts.

Lemma piece_ok item :
  (forall a u e, item = LList a [u; e] -> isSplice u = false) ->
  contributesAs (x ← sq item; listOf [internNamed (s2b "clojure.core/list"); x]) item.
Proof.
  intros Hno r e r' Hne (x & r1 & Hx & [-> Hg]%listOf_ok)%bind_ok.
  destruct (Hsq item r x r1 Hne Hx) as [Hg1 Hev]. split; [by etransitivity|].
  intros T ts HT [(t & -> & Hs)|(a & u & e & -> & Hu & _)].
  - apply contribute_list; [apply same_refl_sym|]. apply (Hev T); [|done].
    by apply (grows_symbol T r1 r').
  - by rewrite (Hno a u e) in Hu.
Qed.

(** A splice is no template of its own, and an unquote stands for its value only. *)
Lemma splice_stands T orders a u e t :
  isSplice u = true -> stands cfg program T orders (LList a [u; e]) t -> False.
Proof.
  intros Hu Hs. inversion Hs as [? _ Hl|? ? _ Hsh]; subst; [done|]. inversion Hsh; subst; congruence.
Qed.

Lemma unquote_stands T orders a u e t :
  isUnquote u = true -> stands cfg program T orders (LList a [u; e]) t -> program e t.
Proof.
  intros Hu Hs. inversion Hs as [? _ Hl|? ? _ Hsh]; subst; [done|]. inversion Hsh; subst; congruence.
Qed.

Lemma quoteItem_ok item : contributesAs (quoteItem sq item) item.
Proof.
  unfold quoteItem. destruct (isListValue item) eqn:El; [|apply piece_ok; by intros ? ? ? ->].
  destruct (sequenceItems item) as [|u [|e [|]]] eqn:Ei;
    try (apply piece_ok; intros ? ? ? ->; discriminate Ei).
  destruct item; try discriminate El. cbn in Ei. subst items.
  destruct (same u (internNamed unquoteSplicing)) eqn:Eu; [|destruct (same u (internNamed unquote)) eqn:Ev].
  - intros r x r' Hne [= <- <-]. split; [reflexivity|].
    intros T ts HT [(t & -> & Hs)|(b & u' & e' & [= _ <- <-] & _ & He)].
    + by destruct (splice_stands T _ a u e t Eu Hs).
    + by apply contribute_splice.
  - intros r x r' Hne [-> Hg]%listOf_ok. split; [done|].
    intros T ts HT [(t & -> & Hs)|(b & u' & e' & [= _ <- <-] & Hu & _)].
    + apply contribute_list; [apply same_refl_sym|]. by apply eval_program, (unquote_stands T (mapKeyOrder r) a u e t Ev).
    + unfold isSplice in Hu. congruence.
  - apply piece_ok. by intros ? ? ? [= _ <- <-].
Qed.

Lemma quoteItems_ok items r es r' :
  gensyms_ r <> [] -> quoteItems sq items r = (Ok es, r') ->
  grows r r' /\
  forall T ts, extends (innermost r') T -> stand cfg program T (mapKeyOrder r) items ts ->
    concatenates program es ts.
Proof.
  revert r es r'. induction items as [|item items IH]; intros r es r' Hne Hrun; cbn [quoteItems] in Hrun.
  - injection Hrun as <- <-. split; [reflexivity|]. intros T ts _ Hs. inversion Hs. constructor.
  - apply bind_ok in Hrun as (x & r1 & Hx & Hrun). apply bind_ok in Hrun as (xs & r2 & Hxs & Hrun).
    injection Hrun as <- <-. destruct (quoteItem_ok item r x r1 Hne Hx) as [Hg1 Hc].
    destruct (IH r1 xs r2 (proj1 (proj2 (proj2 Hg1)) Hne) Hxs) as [Hg2 Hcs].
    split; [by etransitivity|]. intros T ts HT Hs.
    assert (mapKeyOrder r1 = mapKeyOrder r) as Em by apply Hg1.
    assert (exists ts1 ts2, ts = ts1 ++ ts2 /\ itemStands T (mapKeyOrder r) item ts1 /\
      stand cfg program T (mapKeyOrder r) items ts2) as (ts1 & ts2 & -> & Hi & Hs2).
    { inversion Hs; subst.
      - eexists [_], _. split_and!; [done| |done]. left. eauto.
      - eexists _, _. split_and!; [done| |done]. right. eauto 6. }
    constructor; [|apply (Hcs T); [done|by rewrite Em]].
    apply (Hc T); [|done]. by apply (grows_symbol T r1 r2).
Qed.

Lemma quoteTemplate_ok items builder r e r' :
  gensyms_ r <> [] -> quoteTemplate sq items builder r = (Ok e, r') ->
  grows r r' /\
  forall T ts, extends (innermost r') T -> stand cfg program T (mapKeyOrder r) items ts ->
    match builder with
    | None => evaluates program e (seqOf ts)
    | Some b => forall t, constructs program (internNamed b) ts t -> evaluates program e t
    end.
Proof.
  intros Hne Hrun. unfold quoteTemplate in Hrun.
  apply bind_ok in Hrun as (ps & r1 & Hps & Hrun).
  apply bind_ok in Hrun as (c & r2 & [-> Hg2]%listOf_ok & Hrun).
  apply bind_ok in Hrun as (sf & r3 & [-> Hg3]%listOf_ok & Hrun).
  destruct (quoteItems_ok items r ps r1 Hne Hps) as [Hg1 Hcs].
  assert (exists r4, grows r3 r4 /\ r' = r4 /\ forall T ts, extends (innermost r') T ->
    stand cfg program T (mapKeyOrder r) items ts -> concatenates program ps ts) as (r4 & Hg4 & -> & Hcat).
  { exists r'. assert (grows r3 r') as Hg4.
    { destruct builder; [by apply listOf_ok in Hrun as [_ ?]|by injection Hrun as _ <-]. }
    split_and!; [done|done|]. intros T ts HT. apply (Hcs T).
    by apply (grows_symbol T r1 r'); [etransitivity; [exact Hg2|etransitivity; [exact Hg3|]]|]. }
  split; [by repeat (etransitivity; [eassumption|])|].
  intros T ts HT Hs. specialize (Hcat T ts HT Hs).
  assert (forall a b, evaluates program (LList a [internNamed (s2b "clojure.core/seq");
    LList b (internNamed (s2b "clojure.core/concat") :: ps)]) (seqOf ts)) as Hseq.
  { intros a b. apply eval_seq; [apply same_refl_sym..|done]. }
  destruct builder as [b|].
  - apply listOf_ok in Hrun as [-> _]. intros t Hc. cbn [listFromArray].
    eapply eval_apply; [apply same_refl_sym|apply Hseq|done].
  - injection Hrun as <- _. apply Hseq.
Qed.

End Items.

(** ** Templates *)

Lemma syntaxQuote_quotes stack tok form : quotes (syntaxQuote cfg stack tok form) form.
Proof.
  revert form. induction stack as [|stack IH]; intros form r e r' Hne Hrun; [done|].
  cbn [syntaxQuote] in Hrun. destruct (selfEvaluating form) eqn:Es.
  { injection Hrun as <- <-. split; [reflexivity|]. intros T t _ Hs.
    inversion Hs; subst; [by apply eval_self|congruence]. }
  (* what [form] stands for is what its shape does *)
  assert (forall T t, stands cfg program T (mapKeyOrder r) form t ->
    shapes cfg program T (mapKeyOrder r) form t) as Hshape.
  { intros T t Hs. inversion Hs; subst; [congruence|done]. }
  destruct form as [| | | |a l|a items|a items|a l|a es|a es|a s|a src|a k c];
    try (apply listOf_ok in Hrun as [-> Hg]; split; [done|]; intros T t _ Hs%Hshape; by inversion Hs).
  - destruct items as [|h items].
    { apply listOf_ok in Hrun as [-> Hg]. split; [done|]. intros T t _ Hs%Hshape.
      inversion Hs; subst. apply eval_list0, same_refl_sym. }
    destruct (same h (internNamed unquote)) eqn:Eu.
    { destruct items as [|x [|]]; try discriminate Hrun.
      change ((Ok x, r) = ((Ok e, r') : result readError obj * reader)) in Hrun. injection Hrun as <- <-. split; [reflexivity|].
      intros T t _ Hs%Hshape. inversion Hs; subst; [by apply eval_program|unfold isUnquote in *; congruence]. }
    destruct (same h (internNamed unquoteSplicing)) eqn:Ev; [discriminate Hrun|].
    destruct (quoteTemplate_ok _ IH _ _ r e r' Hne Hrun) as [Hg Hev].
    split; [done|]. intros T t HT Hs%Hshape.
    inversion Hs; subst; [unfold isUnquote in *; congruence|]. by apply (Hev T).
  - destruct (quoteTemplate_ok _ IH _ _ r e r' Hne Hrun) as [Hg Hev].
    split; [done|]. intros T t HT Hs%Hshape. inversion Hs; subst.
    eapply (Hev T); [done..|apply construct_vector, same_refl_sym].
  - apply bind_ok in Hrun as (items & r1 & Hi & Hrun).
    assert (r1 = r /\ items = entriesInOrder cfg (mapKeyOrder r) (MapObj a es)) as [-> ->].
    { unfold mapItems in Hi. apply bind_ok in Hi as (os & r0 & [= <- <-] & Hi).
      unfold entriesInOrder. destruct (if hasInfo cfg then _ else _) as [[k keys]|];
        by inversion Hi. }
    destruct (quoteTemplate_ok _ IH _ _ r e r' Hne Hrun) as [Hg Hev].
    split; [done|]. intros T t HT Hs%Hshape. inversion Hs; subst.
    eapply (Hev T); [done..|apply construct_map, same_refl_sym].
  - destruct (quoteTemplate_ok _ IH _ _ r e r' Hne Hrun) as [Hg Hev].
    split; [done|]. intros T t HT Hs%Hshape. inversion Hs; subst.
    eapply (Hev T); [done..|apply construct_set, same_refl_sym].
  - case_bool_decide as Hk.
    + injection Hrun as <- <-. split; [reflexivity|]. intros T t _ Hs%Hshape.
      inversion Hs; subst; [by apply eval_keyword|done].
    + apply (quoteSymbol_ok a s Es Hk r e r' Hne) in Hrun as [Hg Hev]. split; [done|].
      intros T t HT Hs. by apply (Hev T).
Qed.

End Expansion.

(** C11. Syntax-quote expands a template into forms that build it: whatever the
    program's expressions evaluate to, evaluating the expansion of the form after a
    backquote gives what the form stands for, with each unquoted expression replaced
    by its value, each splice by the elements of its value, and each other symbol as
    the resolver spells it, or, when it ends in a number sign, as the one symbol
    generated for its spelling in this syntax-quote. The tables of the enclosing
    syntax-quotes are as before. *)
Theorem syntaxQuote_builds `{ReaderEnv} cfg stack readForm tok r e r' :
  readBacktick cfg stack readForm tok r = (Ok e, r') ->
  exists form r1 table,
    readUnpositioned readForm tok r = (Ok form, r1) /\ gensyms_ r' = gensyms_ r1 /\
    (forall s x, lookup_sym s table = Some x ->
       exists n, gensymId r1 < n <= gensymId r' /\ x = generated s n) /\
    forall program t, stands cfg program table (mapKeyOrder r1) form t -> evaluates program e t.
Proof.
  intros (form & r1 & Hr & Hrun)%bind_ok. apply bind_ok in Hrun as (u & r2 & [= <- <-] & Hrun).
  unfold finally in Hrun.
  destruct (syntaxQuote cfg stack tok form (set_gensyms ([] :: gensyms_ r1) r1)) as [res r3] eqn:Eq.
  injection Hrun as -> <-. exists form, r1, (innermost r3).
  assert (gensyms_ (set_gensyms ([] :: gensyms_ r1) r1) <> []) as Hne by done.
  pose proof (fun program => syntaxQuote_quotes cfg program stack tok form _ e r3 Hne Eq) as Hq.
  destruct (Hq (fun _ _ => False)) as [(_ & Ht & _ & _ & [_ Hn]) _]. split_and!; [done|done| |].
  - intros s x [Hx|]%Hn; [done|done].
  - intros program t Hs. destruct (Hq program) as [_ Hev]. by apply (Hev (innermost r3)).
Qed.

(** ** An example: [`(a ~b ~@c [:k d#] d#)] with [b] evaluating to [1] and [c] to
    [[2 nil]] *)
Module Examples.
Import Demo.

Definition num (z : Z) : tree := TValue (Embedded (smallIntWord z)).
Definition symbol (s : bytes) : tree := TValue (internNamed s).

Definition exampleProgram (e : obj) (t : tree) : Prop :=
  e = internNamed (s2b "b") /\ t = num 1 \/
  e = internNamed (s2b "c") /\ t = TVector [num 2; TValue PROTO_NONE].

Definition exampleReader : reader := demoReader (s2b "(a ~b ~@c [:k d#] d#)").
Definition backquote : Token := plainToken Backtick (s2b "`") 1 1.

(** The form after the backquote. *)
Definition exampleForm : obj :=
  Eval vm_compute in
    match fst (readUnpositioned (readFromToken demoConfig 20) backquote exampleReader) with
    | Ok form => form
    | Throw _ => PROTO_NONE
    end.

Lemma example_stands table orders :
  let d := symbolFor demoConfig table PROTO_NONE (s2b "d#") in
  stands demoConfig exampleProgram table orders exampleForm
    (TList [symbol (s2b "a"); num 1; num 2; TValue PROTO_NONE;
            TVector [symbol (s2b ":k"); treeOf d]; treeOf d]).
Proof.
  cbv zeta.
  assert (forall a s, head s <> Some ":"%byte -> selfEvaluating (Named a s) = false ->
    isGensymSpelling s = false -> stands demoConfig exampleProgram table orders
      (Named a s) (TValue (Named a s))) as Hsym.
  { intros a s Hk Hs Hg. apply st_form; [exact Hs|].
    pose proof (st_symbol demoConfig exampleProgram table orders a s Hk) as Hst.
    unfold symbolFor in Hst. rewrite Hg in Hst. exact Hst. }
  assert (forall a, selfEvaluating (Named a (s2b "d#")) = false ->
    stands demoConfig exampleProgram table orders (Named a (s2b "d#"))
      (treeOf (symbolFor demoConfig table PROTO_NONE (s2b "d#")))) as Hgen.
  { intros a Hs. apply st_form; [exact Hs|].
    refine (st_symbol demoConfig exampleProgram table orders a (s2b "d#") _). discriminate. }
  apply st_form; [vm_compute; reflexivity|].
  apply (st_list _ _ _ _ _ _ _ [_; _; _; _; _; _]); [vm_compute; reflexivity..|].
  apply stand_form; [apply Hsym; [discriminate|vm_compute; reflexivity..]|].
  apply stand_form.
  { apply st_form; [vm_compute; reflexivity|]. apply st_unquote; [vm_compute; reflexivity..|].
    left. split; vm_compute; reflexivity. }
  apply (stand_splice _ _ _ _ _ _ _ _ [_; _]); [vm_compute; reflexivity| |].
  { right. left. right. split; vm_compute; reflexivity. }
  apply stand_form; [|apply stand_form; [apply Hgen; vm_compute; reflexivity|apply stand_nil]].
  apply st_form; [vm_compute; reflexivity|]. apply st_vector.
  apply stand_form; [apply st_form; [vm_compute; reflexivity|apply st_keyword; reflexivity]|].
  apply stand_form; [apply Hgen; vm_compute; reflexivity|apply stand_nil].
Qed.

Lemma exampleForm_read r1 form :
  readUnpositioned (readFromToken demoConfig 20) backquote exampleReader = (Ok form, r1) ->
  form = exampleForm.
Proof.
  assert (fst (readUnpositioned (readFromToken demoConfig 20) backquote exampleReader) = Ok exampleForm)
    as Hf by (vm_compute; reflexivity).
  intros Hr. rewrite Hr in Hf. by injection Hf.
Qed.

Lemma expansion_ok : exists e r',
  readBacktick demoConfig 20 (readFromToken demoConfig 20) backquote exampleReader = (Ok e, r').
Proof.
  assert (match fst (readBacktick demoConfig 20 (readFromToken demoConfig 20) backquote exampleReader) with
          | Ok _ => true | _ => false end = true) as Hok by (vm_compute; reflexivity).
  destruct (readBacktick _ _ _ _ _) as [[e|err] r']; [by exists e, r'|discriminate Hok].
Qed.

(** The generated symbol is the same in both places. *)
Lemma syntaxQuote_builds_witness :
  exists e r' d,
    readBacktick demoConfig 20 (readFromToken demoConfig 20) backquote exampleReader = (Ok e, r') /\
    evaluates exampleProgram e
      (TList [symbol (s2b "a"); num 1; num 2; TValue PROTO_NONE;
              TVector [symbol (s2b ":k"); treeOf d]; treeOf d]).
Proof.
  destruct expansion_ok as (e & r' & E).
  destruct (syntaxQuote_builds _ _ _ _ _ _ _ E) as (form & r1 & table & Hr & _ & _ & Hev).
  apply exampleForm_read in Hr. subst form.
  exists e, r', (symbolFor demoConfig table PROTO_NONE (s2b "d#")). split; [exact E|].
  apply Hev, example_stands.
Defined.

End Examples.
