(* ===== verification/PrintRead.v ===== *)
(** What the printer writes, the reader reads back (runtime/Primitives.cpp,
    [printTo]; reader/Lexer.cpp, Reader.cpp). *)

From S2P Require Import Prelude Utf8 UnicodeLetters Values Lexer Maps Reader Printer ReaderFacts DemoReader.

#[local] Set Warnings "-register-all".

(** ** Tokens of printed values

    What follows a printed value: the end, a blank, or a closing bracket. *)
Definition delimiter (c : byte) : bool :=
  (c =? " ")%byte || (c =? ",")%byte || (c =? ")")%byte || (c =? "]")%byte || (c =? "}")%byte.

Definition delimited (tail : bytes) : bool :=
  match tail with [] => true | c :: _ => delimiter c end.

(** The token before does not end an operand, or a blank comes first: a minus sign
    is part of a number. *)
Definition signed (space : bool) (l : lexer) : Prop := space = true \/ prevEndsOperand l = false.

Definition blank (space : bool) : bytes := if space then [" "%byte] else [].

(** [next] at a token, a blank before it or not. *)
Lemma next_at space l r :
  hasPeek_ l = false -> rest l = blank space ++ r -> startsToken r = true ->
  exists l1, rest l1 = r /\ prevReturnedKind_ l1 = prevReturnedKind_ l /\
    fst (next l) = fst (lexToken space l1) /\
    rest (snd (next l)) = rest (snd (lexToken space l1)) /\
    hasPeek_ (snd (next l)) = false /\
    prevReturnedKind_ (snd (next l)) = kind (fst (lexToken space l1)).
Proof.
  intros Hp Hr Hs. destruct space; cbn [blank app] in Hr; last first.
  { exists l. rewrite <- Hr in Hs. destruct (next_token l Hp Hs) as (-> & -> & ? & ?).
    split_and!; done. }
  destruct (rest_cons _ _ _ Hr) as (E & Ec & Ha & _ & Hl).
  assert (skipWhitespaceAndComments l = advance l) as Hskip.
  { unfold skipWhitespaceAndComments. assert (fuel l = S (left l)) as -> by done.
    rewrite while_S. unfold blankStep at 1. rewrite E, Ec. cbn.
    rewrite Hl. change (S (left (advance l))) with (fuel (advance l)).
    apply skip_id. by rewrite Ha. }
  assert (eof (advance l) = false) as Ee.
  { destruct r as [|c r]; [done|]. by apply rest_cons in Ha as (? & _). }
  exists (advance l). destruct (advance_fields l) as (_ & Hh & _ & Hk & Hpos). rewrite E in Hpos.
  pose proof (lexToken_advances true (advance l) Ee) as [Hm _].
  unfold next, nextImpl_. rewrite Hp. cbn zeta. rewrite Hskip, Ee, Hpos.
  destruct (Nat.eqb_spec (S (pos_ l)) (pos_ l)) as [|_]; [lia|]. cbn [negb].
  destruct (lexToken true (advance l)) as [t l']. cbn in *.
  apply moves_fields in Hm as (_ & -> & _). by split_and!; rewrite ?Hh.
Qed.

(** *** Integers *)

Lemma delimited_number tail : delimited tail = true -> endsNumber tail = true.
Proof.
  destruct tail as [|c tail]; [done|]. cbn. intros H.
  assert (negb (delimiter c) ||
    ((u8 c <? 0x80) && negb (is_alnum c) && negb (c =? "_")%byte && negb (c =? ".")%byte) = true) as Hc
    by (clear; by_bytes c). by rewrite H in Hc.
Qed.

Lemma to_string_head z tail :
  startsToken (to_string z ++ tail) = true /\ exists c r, to_string z = c :: r.
Proof.
  unfold to_string. destruct (Z.ltb_spec z 0); [split; [done|eauto]|].
  destruct (dec_digits_cons z) as (c & ds & Ed).
  pose proof (dec_digits_digits z ltac:(lia)) as Hds. rewrite Ed in *. inversion_clear Hds.
  split; [by apply startsToken_digit|eauto].
Qed.

Lemma lex_integer space z tail l :
  rest l = to_string z ++ tail -> delimited tail = true -> (z < 0 -> signed space l) ->
  let '(t, l') := lexToken space l in
  t = mkToken Integer (to_string z) (if fits_llong z then z else 0) (fits_llong z) 0
        (tline t) (tcolumn t) /\ rest l' = tail.
Proof.
  intros Hr Ht%delimited_number Hneg.
  destruct (dec_digits_cons (Z.abs z)) as (c & ds & Ed).
  pose proof (dec_digits_digits (Z.abs z) (Z.abs_nonneg z)) as Hds. rewrite Ed in Hds.
  inversion_clear Hds as [|? ? Hc Hds'].
  pose proof (digit_token c Hc) as [Hc1 Hc2].
  pose proof (to_string_value z) as Hval. unfold to_string in Hr, Hval |- *.
  destruct (Z.ltb_spec z 0) as [Hz|Hz].
  - rewrite Z.abs_neq in Ed by lia. rewrite Ed in *. cbn [app] in Hr.
    pose proof (rest_cons _ _ _ Hr) as (E & Ec & Ha & El & _).
    unfold lexToken. rewrite Ec, El. unfold head_byte, char_at. cbn -[lexNumber]. rewrite Hc.
    assert (negb (prevEndsOperand l) || space = true) as -> by (destruct (Hneg Hz) as [->| ->]; [apply orb_true_r|done]).
    pose proof (lexNumber_integer true (c :: ds) tail _ Ha ltac:(by constructor) Ht) as H.
    cbn zeta in H. cbn [app] in H. rewrite Hval in H. destruct (lexNumber _ _) as [t l'].
    destruct H as [-> ?]. done.
  - rewrite Z.abs_eq in Ed by lia. rewrite Ed in *. cbn [app] in Hr.
    pose proof (rest_cons _ _ _ Hr) as (E & Ec & _).
    unfold lexToken. rewrite Ec. cbn zeta. rewrite Hc1, Hc2, Hc.
    pose proof (lexNumber_integer false (c :: ds) tail _ Hr ltac:(by constructor) Ht) as H.
    cbn zeta in H. cbn [app] in H. rewrite Hval in H. destruct (lexNumber _ _) as [t l'].
    destruct H as [-> ?]. done.
Qed.

(** *** Symbols and keywords

    The spellings the lexer reads as one symbol: ASCII symbol characters, and number
    signs after the first; not a number, a quote or a word of the reader. *)
Definition symbolTail (c : byte) : bool := isAsciiSymbolChar c || (c =? "#")%byte.

Definition symbolSpelling (s : bytes) : bool :=
  match s with
  | [] => false
  | c :: cs =>
      isAsciiSymbolChar c && negb (is_digit c) && negb (c =? "'")%byte &&
      negb ((c =? "-")%byte && is_digit (head_byte cs)) && forallb symbolTail cs
  end.

Definition readableSymbol (s : bytes) : bool :=
  symbolSpelling s &&
  negb (bool_decide (s = s2b "nil") || bool_decide (s = s2b "true") || bool_decide (s = s2b "false")).

Lemma symbolTail_len name l c :
  name <> [] -> current l = c -> symbolTail c = true -> symbolBodyLen name l = 1%nat.
Proof.
  intros Hn Hc H. unfold symbolBodyLen. destruct name; [done|]. rewrite Hc.
  destruct (c =? "#")%byte eqn:E; [done|]. unfold symbolTail in H. rewrite E, orb_false_r in H.
  unfold symbolCharLength. fold (current l). rewrite Hc.
  assert (negb (isAsciiSymbolChar c) || (u8 c <? 0x80) = true) as Hl by (clear; by_bytes c).
  rewrite H in Hl. cbn in Hl. by rewrite Hl, H.
Qed.

Lemma delimiter_len name l tail :
  name <> [] -> rest l = tail -> delimited tail = true -> eof l = false -> symbolBodyLen name l = 0%nat.
Proof.
  intros Hn Hr Ht E. destruct tail as [|c tail]; [by rewrite (rest_nil l Hr) in E|].
  apply rest_cons in Hr as (_ & Hc & _). cbn in Ht. unfold symbolBodyLen. destruct name; [done|].
  rewrite Hc. unfold symbolCharLength. fold (current l). rewrite Hc.
  assert (negb (delimiter c) ||
    (negb (c =? "#")%byte && (u8 c <? 0x80) && negb (isAsciiSymbolChar c)) = true) as Hl
    by (clear; by_bytes c).
  rewrite Ht in Hl. cbn [negb orb] in Hl. rewrite !andb_true_iff, !negb_true_iff in Hl.
  destruct Hl as [[-> ->] ->]. done.
Qed.

Lemma take_symbol n s tail l name :
  name <> [] -> rest l = s ++ tail -> forallb symbolTail s = true -> delimited tail = true ->
  (left l < n)%nat ->
  exists l', while n (takeStep symbolBodyLen) (l, name) = (l', name ++ s) /\ rest l' = tail.
Proof.
  revert s l name. induction n as [|n IH]; intros s l name Hne Hr Hs Ht Hn; [lia|].
  rewrite while_S. unfold takeStep at 1. destruct s as [|c s].
  - exists l. rewrite app_nil_r. cbn in Hr. destruct (eof l) eqn:E; [done|].
    by rewrite (delimiter_len name l tail).
  - cbn in Hs. apply andb_prop in Hs as [Hc Hs]. cbn [app] in Hr.
    pose proof (rest_cons _ _ _ Hr) as (E & Ec & Ha & _ & Hl). rewrite E.
    rewrite (symbolTail_len name l c) by done. cbn [Nat.eqb].
    unfold rest in Hr. rewrite Hr. cbn [take]. rewrite take_0.
    change (advanceN 1 l) with (advance l).
    destruct (IH s (advance l) (name ++ [c])) as (l' & -> & ?); try done; [by destruct name|lia|].
    exists l'. by rewrite <- app_assoc.
Qed.

Lemma lex_symbol space s tail l :
  rest l = s ++ tail -> symbolSpelling s = true -> delimited tail = true ->
  startsToken (s ++ tail) = true /\
  let '(t, l') := lexToken space l in
  t = plainToken Symbol s (tline t) (tcolumn t) /\ rest l' = tail.
Proof.
  destruct s as [|c s]; [done|]. cbn [app symbolSpelling]. intros Hr Hs Ht.
  rewrite !andb_true_iff, !negb_true_iff in Hs. destruct Hs as [[[[Hc Hd] Hq] Hm] Hall].
  pose proof (rest_cons _ _ _ Hr) as (E & Ec & Ha & El & Hl).
  assert (negb (isAsciiSymbolChar c) || (u8 c <? 0x80) && negb (is_blank c) && negb (c =? ";")%byte &&
    negb (c =? "#")%byte && bool_decide (singlePunct c = None) && negb (c =? quoteByte)%byte &&
    negb (c =? "`")%byte && negb (c =? "~")%byte && negb (c =? "^")%byte = true) as Hk
    by (clear; by_bytes c).
  rewrite Hc in Hk. cbn [negb orb] in Hk. rewrite !andb_true_iff, !negb_true_iff, bool_decide_eq_true in Hk.
  destruct Hk as [[[[[[[[Hu Hb] Hsc] Hh] Hp] Hqu] Hbq] Htl] Hca].
  split; [cbn [startsToken]; by rewrite Hb, Hsc, Hh|].
  unfold lexToken. rewrite Ec. cbn zeta. rewrite Hp, Hqu, Hd.
  assert ((c =? "-")%byte && is_digit (lookahead l) = false) as Hminus.
  { rewrite El. destruct (c =? "-")%byte eqn:Em; [|done]. cbn [andb] in *.
    destruct s as [|c' s]; [|exact Hm]. cbn [app]. destruct tail as [|c' tail]; [done|]. cbn in Ht.
    assert (negb (delimiter c') || negb (is_digit c') = true) as Hdd by (clear; by_bytes c').
    rewrite Ht in Hdd. by apply negb_true_iff in Hdd. }
  rewrite Hminus. cbn [andb]. unfold lexSymbolOrPunct. rewrite Ec. cbn zeta.
  rewrite Hq, Hbq, Htl, Hca, Hh.
  assert (symbolCharLength (source_ l) (pos_ l) = 1%nat) as Hlen.
  { unfold symbolCharLength. fold (current l). by rewrite Ec, Hu, Hc. }
  rewrite Hlen. cbn [Nat.eqb]. unfold takeChars, fuel. rewrite while_S. unfold takeStep at 1.
  assert (symbolBodyLen [] l = 1%nat) as -> by exact Hlen. rewrite E. cbn [Nat.eqb].
  unfold rest in Hr. rewrite Hr. cbn [take app]. rewrite ?take_0. change (advanceN 1 l) with (advance l).
  destruct (take_symbol (length (source_ l) - pos_ l) s tail (advance l) [c]) as (l' & -> & Hr');
    try done; unfold left in *; lia.
Qed.

(** *** Strings: any bytes *)

(** A byte is written as itself, or as a backslash and the letter of its escape. *)
Lemma readableByte_cases c :
  readableByte c = [c] /\ (c =? quoteByte)%byte = false /\ (c =? "\")%byte = false \/
  exists e, readableByte c = ["\"%byte; e] /\ simpleEscape e = Some c.
Proof. destruct c; (by left) || (right; eexists; split; reflexivity). Qed.

Lemma stringStep_escape ln col l e c r out :
  rest l = "\"%byte :: e :: r -> simpleEscape e = Some c ->
  stringStep ln col (l, out) = inl (advance (advance l), out ++ [c]) /\
  rest (advance (advance l)) = r /\ left l = S (S (left (advance (advance l)))).
Proof.
  intros Hr He. destruct (rest_cons _ _ _ Hr) as (E & Ec & Ha & _ & Hl).
  destruct (rest_cons _ _ _ Ha) as (E2 & Ec2 & Ha2 & _ & Hl2).
  unfold stringStep. rewrite E, Ec. cbn. unfold stringEscape. rewrite E2, Ec2, He.
  split_and!; [done|done|lia].
Qed.

Lemma string_turns s tail ln col n l out :
  rest l = flat_map readableByte s ++ quoteByte :: tail -> (left l < n)%nat ->
  exists l', iter n (stringStep ln col) (l, out) = Some (plainToken String_ (out ++ s) ln col, l') /\
    rest l' = tail.
Proof.
  revert n l out. induction s as [|c s IH]; intros n l out Hr Hn.
  - destruct n as [|n]; [lia|]. rewrite iter_S. destruct (rest_cons _ _ _ Hr) as (E & Ec & Ha & _).
    exists (advance l). unfold stringStep. rewrite E, Ec, app_nil_r. cbn. done.
  - cbn [flat_map] in Hr. rewrite <- app_assoc in Hr. destruct n as [|n]; [lia|]. rewrite iter_S.
    destruct (readableByte_cases c) as [(Hb & Hq & Hs)|(e & Hb & He)]; rewrite Hb in Hr; cbn [app] in Hr.
    + destruct (rest_cons _ _ _ Hr) as (E & Ec & Ha & _ & Hl).
      unfold stringStep at 1. rewrite E, Ec, Hq, Hs.
      destruct (IH n (advance l) (out ++ [c]) Ha ltac:(lia)) as (l' & -> & ?).
      exists l'. by rewrite <- app_assoc.
    + destruct (stringStep_escape ln col l e c _ out Hr He) as (-> & Ha & Hl).
      destruct (IH n (advance (advance l)) (out ++ [c]) Ha ltac:(lia)) as (l' & -> & ?).
      exists l'. by rewrite <- app_assoc.
Qed.

Lemma lex_string space s tail l :
  rest l = appendReadableString s ++ tail ->
  let '(t, l') := lexToken space l in
  t = plainToken String_ s (tline t) (tcolumn t) /\ rest l' = tail.
Proof.
  unfold appendReadableString. cbn [app]. rewrite <- app_assoc. cbn [app]. intros Hr.
  destruct (rest_cons _ _ _ Hr) as (E & Ec & Ha & _ & Hl).
  unfold lexToken. rewrite Ec. cbn -[lexString]. unfold lexString.
  destruct (string_turns s tail (line_ l) (column_ l) (fuel (advance l)) (advance l) [] Ha) as (l' & -> & ?).
  { unfold left, fuel. lia. }
  done.
Qed.

(** *** Brackets *)

Lemma lex_open space c k tail l :
  rest l = c :: tail -> singlePunct c = Some k ->
  let '(t, l') := lexToken space l in
  t = plainToken k [c] (tline t) (tcolumn t) /\ rest l' = tail.
Proof.
  intros Hr Hk. destruct (rest_cons _ _ _ Hr) as (E & Ec & Ha & _).
  unfold lexToken. rewrite Ec. cbn zeta. by rewrite Hk.
Qed.

Lemma startsToken_open c k tail : singlePunct c = Some k -> startsToken (c :: tail) = true.
Proof.
  intros Hk. cbn [startsToken].
  assert (bool_decide (singlePunct c = None) ||
    negb (is_blank c) && negb (c =? ";")%byte && negb (c =? "#")%byte = true) as Hb by (clear; by_bytes c).
  rewrite Hk in Hb. cbn in Hb. rewrite !andb_true_iff, !negb_true_iff in Hb.
  destruct Hb as [[-> ->] ->]. done.
Qed.

(** ** Reading *)

Lemma left_rest l : left l = length (rest l).
Proof. unfold left, rest. by rewrite length_drop. Qed.

Lemma nextToken_at space s tail r (P : Token -> Prop) :
  fresh r -> rest (lexer_ r) = blank space ++ s -> startsToken s = true ->
  (forall l1, rest l1 = s -> prevReturnedKind_ l1 = prevReturnedKind_ (lexer_ r) ->
     let '(t, l') := lexToken space l1 in P t /\ rest l' = tail) ->
  exists tok l, nextToken r = (Ok tok, set_lexer l r) /\ P tok /\ rest l = tail /\
    hasPeek_ l = false /\ prevReturnedKind_ l = kind tok.
Proof.
  intros Hf Hr Hs Hlex. destruct (next_at space _ s Hf Hr Hs) as (l1 & Hr1 & Hk1 & Ht & Hr2 & Hh & Hk).
  specialize (Hlex l1 Hr1 Hk1). unfold nextToken.
  destruct (next (lexer_ r)) as [t l], (lexToken space l1) as [t' l']. cbn in *.
  destruct Hlex as [HP Hrl]. exists t, l. subst t'. split_and!; try done. congruence.
Qed.

(** The documented behaviour of protoCore's parsing of a decimal numeral. *)
Class NumeralLaw `{ReaderEnv} : Prop :=
  fromString_decimal : forall z, fromString (to_string z) = z.

Section PrintRead.
Context `{ReaderEnv} `{!NumeralLaw} `{!PrinterEnv} (cfg : config).

(** The values the reader can build from their text: nil, booleans, integers (a
    SmallInteger as a word, a larger one as a cell), strings of whole characters,
    keywords and symbols the lexer reads as such, lists and vectors of these. *)
Fixpoint readable (v : obj) : Prop :=
  match v with
  | Embedded w =>
      w = noneWord \/ w = trueWord \/ w = falseWord \/
      exists z, w = smallIntWord z /\ fitsSmallInt z = true
  | Big _ z => fitsSmallInt z = false
  | Str _ s => fromUTF8Buffer s = (s, 0%nat)
  | Named a s => a = namedAddress s /\ readableSymbol s = true
  | LList _ items | Vec _ items => foldr (fun v P => readable v /\ P) True items
  | _ => False
  end.

(** The same value, but for the addresses of its cells. *)
Inductive alike : obj -> obj -> Prop :=
| alike_word w : alike (Embedded w) (Embedded w)
| alike_big a b z : alike (Big a z) (Big b z)
| alike_str a b s : alike (Str a s) (Str b s)
| alike_named a s : alike (Named a s) (Named a s)
| alike_list a b xs ys : Forall2 alike xs ys -> alike (LList a xs) (LList b ys)
| alike_vec a b xs ys : Forall2 alike xs ys -> alike (Vec a xs) (Vec b ys).

(** The kinds of the first tokens of readable values. *)
Definition opens (k : TokenKind) : bool :=
  match k with Integer | Symbol | String_ | LParen | LBracket => true | _ => false end.

(** [readForm] reads the text of [v] back. *)
Definition reads (readForm : Token -> M obj) (v : obj) : Prop :=
  forall r space tail,
    fresh r -> fnLiteral_ r = None -> signed space (lexer_ r) ->
    rest (lexer_ r) = blank space ++ printTo true v ++ tail -> delimited tail = true ->
    exists tok l v' r2, nextToken r = (Ok tok, set_lexer l r) /\ opens (kind tok) = true /\
      readForm tok (set_lexer l r) = (Ok v', r2) /\ alike v v' /\
      fresh r2 /\ fnLiteral_ r2 = None /\ rest (lexer_ r2) = tail.

(** *** Small integers *)

Lemma smallInt_word z : fitsSmallInt z = true ->
  Z.land (smallIntWord z) 0x3FF = 1 /\ smallIntValue (smallIntWord z) = z.
Proof.
  intros [Hlo%Z.leb_le Hhi%Z.leb_le]%andb_prop.
  assert (smallIntWord z = (z * 2 ^ 10 + 1) mod 2 ^ 64) as ->.
  { unfold smallIntWord, u64. f_equal. rewrite Z.shiftl_mul_pow2 by lia. by rewrite lor_add. }
  split.
  - change 0x3FF with (Z.ones 10). rewrite Z.land_ones by lia. lia.
  - unfold smallIntValue. rewrite Z.shiftr_div_pow2 by lia.
    destruct (Z.ltb_spec ((z * 2 ^ 10 + 1) mod 2 ^ 64) (2 ^ 63)); lia.
Qed.

Lemma fits_small_long z : fitsSmallInt z = true -> fits_llong z = true.
Proof. unfold fitsSmallInt, fits_llong, llong_min, llong_max. rewrite !andb_true_iff, !Z.leb_le. lia. Qed.

(** *** Atoms *)

Section Atoms.
Context (stack : nat).

#[local] Abbreviation readForm := (readFromToken cfg (S stack)).

Lemma ednError_none tok : opens (kind tok) = true -> (if edn_ cfg then ednError tok else None) = None.
Proof. intros Hk. destruct (edn_ cfg); [|done]. unfold ednError. by destruct (kind tok). Qed.

Lemma reads_integer v z :
  printTo true v = to_string z -> 
  (forall v', (if fitsSmallInt z then v' = Embedded (smallIntWord z) else exists a, v' = Big a z) -> alike v v') ->
  reads readForm v.
Proof.
  intros Hp Hv r space tail Hf Hfn Hsign Hr Ht. rewrite Hp in Hr.
  destruct (nextToken_at space (to_string z ++ tail) tail r
    (fun t => exists ln col, t = mkToken Integer (to_string z) (if fits_llong z then z else 0)
       (fits_llong z) 0 ln col) Hf Hr (proj1 (to_string_head z tail)))
    as (tok & l & Hn & (ln & col & ->) & Hrl & Hh & Hk).
  { intros l1 Hr1 Hk1. pose proof (lex_integer space z tail l1 Hr1 Ht) as Hlex.
    destruct (lexToken space l1) as [t l']. destruct Hlex as [Et Hl]; [|split; [by eauto|done]].
    intros _. destruct Hsign as [?|Hs]; [by left|right]. unfold prevEndsOperand in *. by rewrite Hk1. }
  exists (mkToken Integer (to_string z) (if fits_llong z then z else 0) (fits_llong z) 0 ln col), l.
  cbn [readFromToken kind]. rewrite ednError_none by done. cbn [fitsLong text intValue].
  destruct (fits_llong z) eqn:Ez; cbn [negb].
  - unfold fromLong. destruct (fitsSmallInt z) eqn:Es.
    + eexists _, _. split_and!; [exact Hn|done|reflexivity|by apply Hv|done..].
    + eexists _, _. split_and!; [exact Hn|done|reflexivity|apply Hv; eauto|done..].
  - eexists _, _. split_and!; [exact Hn|done|reflexivity| |done..].
    apply Hv. destruct (fitsSmallInt z) eqn:Es; [by rewrite (fits_small_long z Es) in Ez|].
    exists (nextAddress (set_lexer l r)). f_equal. apply fromString_decimal.
Qed.

Lemma reads_symbol v s :
  printTo true v = s ->
  (forall space tail l, rest l = s ++ tail -> delimited tail = true ->
     startsToken (s ++ tail) = true /\
     let '(t, l') := lexToken space l in
     t = plainToken Symbol s (tline t) (tcolumn t) /\ rest l' = tail) ->
  (forall r, fnLiteral_ r = None -> exists v', readSymbol s r = (Ok v', r) /\ alike v v') ->
  reads readForm v.
Proof.
  intros Hp Hlex Hv r space tail Hf Hfn Hsign Hr Ht. rewrite Hp in Hr.
  assert (exists l0, rest l0 = s ++ tail) as [l0 Hl0] by (by exists (newLexer (s ++ tail))).
  destruct (Hlex space tail l0 Hl0 Ht) as [Hst _].
  destruct (nextToken_at space (s ++ tail) tail r
    (fun t => exists ln col, t = plainToken Symbol s ln col) Hf Hr Hst)
    as (tok & l & Hn & (ln & col & ->) & Hrl & Hh & Hk).
  { intros l1 Hr1 Hk1. destruct (Hlex space tail l1 Hr1 Ht) as [_ Hl].
    destruct (lexToken space l1) as [t l']. destruct Hl. split; [by eauto|done]. }
  destruct (Hv (set_lexer l r) Hfn) as (v' & Hv' & Ha).
  exists (plainToken Symbol s ln col), l, v', (set_lexer l r). cbn [readFromToken kind]. rewrite ednError_none by done.
  split_and!; [exact Hn|done|exact Hv'|done..].
Qed.

Lemma reads_named a s :
  hasCallContext = true -> a = namedAddress s -> readableSymbol s = true -> reads readForm (Named a s).
Proof.
  intros Hcc -> [Hs Hw]%andb_prop. apply (reads_symbol _ s).
  - cbn. by rewrite Hcc.
  - intros space tail l Hr Ht. by apply lex_symbol.
  - intros r Hfn. exists (internNamed s). split; [|constructor].
    unfold readSymbol.
    apply negb_true_iff in Hw. rewrite !orb_false_iff in Hw. destruct Hw as [[-> ->] ->].
    unfold mbind, M_bind, gets. rewrite Hfn. done.
Qed.

(** nil, true and false are read as symbols. *)
Lemma reads_word v (s : bytes) :
  printTo true v = s -> symbolSpelling s = true ->
  (forall r, exists v', readSymbol s r = (Ok v', r) /\ alike v v') -> reads readForm v.
Proof. intros Hp Hs Hv. apply (reads_symbol _ s); [done|intros; by apply lex_symbol|auto]. Qed.

Lemma reads_embedded w : readable (Embedded w) -> reads readForm (Embedded w).
Proof.
  intros Hw. destruct (Z.eq_dec w noneWord) as [->|Hn].
  { apply (reads_word _ (s2b "nil")); [cbn; by rewrite Z.eqb_refl|done|].
    intros r. exists PROTO_NONE. split; [done|constructor]. }
  destruct (Z.eq_dec w trueWord) as [->|Ht].
  { apply (reads_word _ (s2b "true")); [|done|].
    - cbn. by rewrite (proj2 (Z.eqb_neq _ _) Hn), Z.eqb_refl.
    - intros r. exists PROTO_TRUE. split; [done|constructor]. }
  destruct (Z.eq_dec w falseWord) as [->|Hf].
  { apply (reads_word _ (s2b "false")); [|done|].
    - cbn. by rewrite (proj2 (Z.eqb_neq _ _) Hn), (proj2 (Z.eqb_neq _ _) Ht), Z.eqb_refl.
    - intros r. exists PROTO_FALSE. split; [done|constructor]. }
  destruct Hw as [|[|[|(z & -> & Hz)]]]; try done.
  destruct (smallInt_word z Hz) as [Htag Hval].
  apply (reads_integer _ z).
  - cbn [printTo]. rewrite (proj2 (Z.eqb_neq _ _) Hn), (proj2 (Z.eqb_neq _ _) Ht),
      (proj2 (Z.eqb_neq _ _) Hf). unfold isSmallInt. by rewrite Htag, Z.eqb_refl, Hval.
  - intros v'. rewrite Hz. intros ->. constructor.
Qed.

Lemma reads_string a s :
  fromUTF8Buffer s = (s, 0%nat) -> reads readForm (Str a s).
Proof.
  intros Hu r space tail Hf Hfn Hsign Hr Ht. cbn [printTo] in Hr.
  destruct (nextToken_at space (appendReadableString s ++ tail) tail r
    (fun t => exists ln col, t = plainToken String_ s ln col) Hf Hr ltac:(done))
    as (tok & l & Hn & (ln & col & ->) & Hrl & Hh & Hk).
  { intros l1 Hr1 Hk1. pose proof (lex_string space s tail l1 Hr1) as Hl.
    destruct (lexToken space l1) as [t l']. destruct Hl. split; [by eauto|done]. }
  exists (plainToken String_ s ln col), l. eexists _, _.
  cbn [readFromToken kind]. rewrite ednError_none by done. cbn [text plainToken].
  unfold makeUtf8String, mbind, M_bind, allocate. rewrite Hu.
  split_and!; [exact Hn|done|reflexivity|constructor|done..].
Qed.

End Atoms.

(** *** Lists and vectors *)

Section Items.
Context (readForm : Token -> M obj) (close : TokenKind) (c : byte).
Context (Hclose : singlePunct c = Some close) (Hdelim : delimiter c = true).
Context (Hopen : opens close = false) (Hmacro : close <> HashUnderscore) (Heof : close <> EndOfFile).

(** The closing bracket ends the loop. *)
Lemma readItems_close ln col un turns acc r tail :
  fresh r -> rest (lexer_ r) = c :: tail -> (0 < turns)%nat ->
  exists l, readItems readForm close ln col un turns acc r = (Ok acc, set_lexer l r) /\
    rest l = tail /\ hasPeek_ l = false.
Proof.
  intros Hf Hr Hn. destruct turns as [|turns]; [lia|]. cbn [readItems].
  destruct (nextToken_at false (c :: tail) tail r (fun t => kind t = close) Hf Hr
    (startsToken_open c close tail Hclose)) as (tok & l & Hnext & Hk & Hrl & Hh & _).
  { intros l1 Hr1 _. pose proof (lex_open false c close tail l1 Hr1 Hclose) as Hl.
    destruct (lexToken false l1) as [t l']. by destruct Hl as [-> ?]. }
  exists l. unfold mbind, M_bind. rewrite Hnext, Hk.
  rewrite decide_False, decide_True by done. done.
Qed.

(** One turn reads one item. *)
Lemma readItems_step ln col un turns acc r tok l v r2 :
  nextToken r = (Ok tok, set_lexer l r) -> opens (kind tok) = true ->
  readForm tok (set_lexer l r) = (Ok v, r2) ->
  readItems readForm close ln col un (S turns) acc r =
  readItems readForm close ln col un turns (acc ++ [v]) r2.
Proof.
  intros Hn Hk Hv. cbn [readItems]. unfold mbind, M_bind. rewrite Hn.
  rewrite decide_False by (intros E; by rewrite E in Hk).
  rewrite decide_False by (intros E; rewrite E in Hk; congruence).
  rewrite decide_False by (intros E; by rewrite E in Hk).
  rewrite decide_False by (intros [E|[E|E]]; by rewrite E in Hk). by rewrite Hv.
Qed.

Lemma readItems_separated items space ln col un turns acc r tail :
  Forall (fun v => reads readForm v /\ printTo true v <> []) items -> items <> [] ->
  fresh r -> fnLiteral_ r = None -> signed space (lexer_ r) ->
  rest (lexer_ r) = blank space ++ separated (s2b " ") (map (printTo true) items) ++ c :: tail ->
  (remaining r < turns)%nat ->
  exists items' r2, readItems readForm close ln col un turns acc r = (Ok (acc ++ items'), r2) /\
    Forall2 alike items items' /\ fresh r2 /\ fnLiteral_ r2 = None /\ rest (lexer_ r2) = tail.
Proof.
  intros Hreads. revert space turns acc r.
  induction Hreads as [|v items [Hv Hv0] Hreads IH]; intros space turns acc r Hne Hf Hfn Hs Hr Hn; [done|].
  destruct turns as [|turns]; [lia|].
  assert (exists tail', rest (lexer_ r) = blank space ++ printTo true v ++ tail' /\
    delimited tail' = true /\
    tail' = match items with
            | [] => c :: tail
            | _ => blank true ++ separated (s2b " ") (map (printTo true) items) ++ c :: tail
            end) as (tail' & Hr' & Hd & Etail).
  { destruct items as [|v2 items]; eexists; (split; [|split; [|reflexivity]]); [exact Hr|done| |done].
    rewrite Hr. cbn [map separated]. by rewrite <- !app_assoc. }
  destruct (Hv r space tail' Hf Hfn Hs Hr' Hd) as (tok & l & v' & r2 & Hnext & Hk & Hv' & Ha & Hf2 & Hfn2 & Hr2).
  rewrite (readItems_step ln col un turns acc r tok l v' r2 Hnext Hk Hv').
  assert (remaining r2 < turns)%nat as Hn2.
  { unfold remaining in *. rewrite left_rest in *. rewrite Hr2. rewrite Hr', !length_app in Hn.
    destruct (printTo true v); [done|cbn in Hn; lia]. }
  destruct items as [|v2 items].
  - destruct (readItems_close ln col un turns (acc ++ [v']) r2 tail Hf2) as (l2 & -> & Hl2 & Hh2);
      [by rewrite Hr2|lia|].
    exists [v'], (set_lexer l2 r2). split_and!; try done. by repeat constructor.
  - destruct (IH true turns (acc ++ [v']) r2) as (items' & r3 & -> & Hal & ? & ? & ?);
      try done; [by left|by rewrite Hr2|].
    exists (v' :: items'), r3. rewrite <- app_assoc. split_and!; try done. by constructor.
Qed.

(** The elements of a printed collection, its opening bracket read. *)
Lemma readElements_separated items tok un r tail :
  Forall (fun v => reads readForm v /\ printTo true v <> []) items ->
  fresh r -> fnLiteral_ r = None -> prevEndsOperand (lexer_ r) = false ->
  rest (lexer_ r) = separated (s2b " ") (map (printTo true) items) ++ c :: tail ->
  exists items' r2, readElements readForm close tok un r = (Ok items', r2) /\
    Forall2 alike items items' /\ fresh r2 /\ fnLiteral_ r2 = None /\ rest (lexer_ r2) = tail.
Proof.
  intros Hi Hf Hfn Hs Hr. unfold readElements, mbind, M_bind, gets.
  destruct items as [|v items].
  - destruct (readItems_close (tline tok) (tcolumn tok) un (fuel (lexer_ r)) [] r tail Hf Hr)
      as (l & -> & ? & ?); [unfold fuel; lia|]. by exists [], (set_lexer l r).
  - destruct (readItems_separated (v :: items) false (tline tok) (tcolumn tok) un (fuel (lexer_ r)) [] r tail)
      as (items' & r2 & -> & ?); try done; [by right|apply fuel_remaining|]. by exists items', r2.
Qed.

End Items.

Lemma readable_items items : foldr (fun v P => readable v /\ P) True items <-> Forall readable items.
Proof. induction items as [|v items IH]; cbn; [by split|]. by rewrite Forall_cons, IH. Qed.

Lemma printed_nonempty v : hasCallContext = true -> readable v -> printTo true v <> [].
Proof.
  intros Hcc Hv. destruct v; try done; cbn [printTo].
  - repeat case_match; try done.
    destruct (to_string_head (smallIntValue w) []) as [_ (? & ? & ->)]. done.
  - destruct (to_string_head value []) as [_ (? & ? & ->)]. done.
  - destruct Hv as [_ Hs]. rewrite Hcc. by intros ->.
Qed.

(** The first token, [(] or [[], and then the elements. *)
Lemma opening_bracket o k space s tail r :
  singlePunct o = Some k -> opens k = true ->
  fresh r -> rest (lexer_ r) = blank space ++ (o :: s) ++ tail ->
  exists ln col l, nextToken r = (Ok (plainToken k [o] ln col), set_lexer l r) /\
    rest l = s ++ tail /\ hasPeek_ l = false /\ prevReturnedKind_ l = k.
Proof.
  intros Ho Hk Hf Hr.
  destruct (nextToken_at space ((o :: s) ++ tail) (s ++ tail) r
    (fun t => exists ln col, t = plainToken k [o] ln col) Hf Hr (startsToken_open o k (s ++ tail) Ho))
    as (tok & l & Hn & (ln & col & ->) & Hrl & Hh & Hp).
  { intros l1 Hr1 _. pose proof (lex_open space o k (s ++ tail) l1 Hr1 Ho) as Hl.
    destruct (lexToken space l1) as [t l']. destruct Hl. split; [by eauto|done]. }
  exists ln, col, l. by split_and!.
Qed.

(** What the macros of a list or a vector answer, once its elements are read. *)
Definition answers (m : M obj) (v : obj) (r : reader) (tail : bytes) : Prop :=
  exists v' r3, m r = (Ok v', r3) /\ alike v v' /\ fresh r3 /\ fnLiteral_ r3 = None /\
    rest (lexer_ r3) = tail.

Lemma answers_position v v' tok r tail :
  alike v v' -> fresh r -> fnLiteral_ r = None -> rest (lexer_ r) = tail ->
  answers (if hasInfo cfg then recordPosition cfg v' (tline tok) (tcolumn tok) else mret v') v r tail.
Proof.
  intros. unfold answers. destruct (hasInfo cfg); [|exists v', r; by split_and!].
  unfold recordPosition, mbind, M_bind, gets, modify. destruct (_ && _).
  - eexists v', _. split_and!; [reflexivity|done..].
  - exists v', r. by split_and!.
Qed.

(** A token of kind [k] whose macro reads [items], printed between [o] and [c]. *)
Lemma reads_bracketed stack v o k c close items :
  singlePunct o = Some k -> opens k = true -> singlePunct c = Some close -> delimiter c = true ->
  opens close = false -> close <> EndOfFile ->
  printTo true v = [o] ++ separated (s2b " ") (map (printTo true) items) ++ [c] ->
  Forall (fun v => reads (readFromToken cfg stack) v /\ printTo true v <> []) items ->
  (forall tok r items' r2 tail, kind tok = k ->
     readElements (readFromToken cfg stack) close tok None r = (Ok items', r2) ->
     Forall2 alike items items' -> fresh r2 -> fnLiteral_ r2 = None -> rest (lexer_ r2) = tail ->
     answers (readFromToken cfg (S stack) tok) v r tail) ->
  reads (readFromToken cfg (S stack)) v.
Proof.
  intros Ho Hk Hc Hd Hcl Heof Hprint Hi Hmacro r space tail Hf Hfn Hsign Hr Ht. rewrite Hprint in Hr.
  destruct (opening_bracket o k space (separated (s2b " ") (map (printTo true) items) ++ [c]) tail r
    Ho Hk Hf Hr) as (ln & col & l & Hn & Hrl & Hh & Hp).
  rewrite <- app_assoc in Hrl.
  destruct (readElements_separated (readFromToken cfg stack) close c Hc Hd Hcl Heof items
    (plainToken k [o] ln col) None (set_lexer l r) tail Hi)
    as (items' & r2 & He & Ha & Hf2 & Hfn2 & Hr2); try done.
  { unfold prevEndsOperand. cbn. rewrite Hp. revert Hk Ho. clear. destruct o, k; done. }
  destruct (Hmacro (plainToken k [o] ln col) _ _ _ _ eq_refl He Ha Hf2 Hfn2 Hr2) as (v' & r3 & Hm & Hrest).
  exists (plainToken k [o] ln col), l, v', r3. by rewrite Hn, Hm.
Qed.

Lemma reads_list stack a items :
  Forall (fun v => reads (readFromToken cfg stack) v /\ printTo true v <> []) items ->
  reads (readFromToken cfg (S stack)) (LList a items).
Proof.
  intros Hi. apply (reads_bracketed stack _ "(" LParen ")" RParen items); try done.
  intros tok r items' r2 tail Hk He Ha Hf2 Hfn2 Hr2.
  assert (alike (LList a items) (listFromArray (nextAddress r2) items')) as Hal.
  { destruct items'; by constructor. }
  destruct (answers_position _ _ tok (set_nextAddress (nextAddress r2 + 64) r2) tail Hal Hf2 Hfn2 Hr2)
    as (v' & r3 & Hm & Hrest).
  exists v', r3. split; [|done]. cbn [readFromToken]. rewrite ednError_none by (rewrite Hk; done).
  rewrite Hk. unfold readList, mbind, M_bind. rewrite He. exact Hm.
Qed.

Lemma reads_vector stack a items :
  Forall (fun v => reads (readFromToken cfg stack) v /\ printTo true v <> []) items ->
  reads (readFromToken cfg (S stack)) (Vec a items).
Proof.
  intros Hi. apply (reads_bracketed stack _ "[" LBracket "]" RBracket items); try done.
  intros tok r items' r2 tail Hk He Ha Hf2 Hfn2 Hr2.
  exists (newVector (nextAddress r2) items'), (set_nextAddress (nextAddress r2 + 64) r2).
  split_and!; [|by constructor|done..]. cbn [readFromToken]. rewrite ednError_none by (rewrite Hk; done).
  rewrite Hk. unfold readVector, mbind, M_bind. by rewrite He.
Qed.

(** Every readable value no deeper than the stack is read back. *)
Lemma reads_readable stack v :
  hasCallContext = true -> readable v -> (depth v <= stack)%nat -> reads (readFromToken cfg stack) v.
Proof.
  intros Hcc. revert v. induction stack as [|stack IH]; intros v Hv Hd; [by destruct v; cbn in Hd; lia|].
  assert (forall items, foldr (fun v P => readable v /\ P) True items ->
    (list_max (map depth items) <= stack)%nat ->
    Forall (fun v => reads (readFromToken cfg stack) v /\ printTo true v <> []) items) as Hitems.
  { intros items Hr%readable_items Hm. rewrite list_max_le, Forall_map in Hm.
    rewrite Forall_forall in *. intros x Hx. split; [apply IH; by auto|apply printed_nonempty; by auto]. }
  destruct v; try done; cbn [depth readable] in *.
  - by apply reads_embedded.
  - by apply reads_string.
  - apply (reads_integer _ _ value); [done|]. intros v'. rewrite Hv. intros [b ->]. constructor.
  - apply reads_list, Hitems; [done|lia].
  - apply reads_vector, Hitems; [done|lia].
  - apply reads_named; tauto.
Qed.

(** The text does not depend on where the cells are. *)
Lemma print_alike v v' : alike v v' -> printTo true v' = printTo true v.
Proof.
  enough (forall n v, (depth v <= n)%nat -> forall v', alike v v' ->
    printTo true v' = printTo true v) as Hn by eauto.
  clear v v'. induction n as [|n IH]; intros v Hd v' Ha; [by destruct v; cbn in Hd; lia|].
  assert (forall xs ys, (list_max (map depth xs) <= n)%nat -> Forall2 alike xs ys ->
    map (printTo true) ys = map (printTo true) xs) as Hmap.
  { intros xs ys Hm Hxy. rewrite list_max_le, Forall_map in Hm. induction Hxy as [|x y xs ys Hx Hxy IHxy]; [done|].
    inversion_clear Hm. cbn [map]. f_equal; [by apply IH|by apply IHxy]. }
  destruct Ha; cbn in *; try done; by rewrite (Hmap xs ys ltac:(lia)).
Qed.

(** A reader at the start of a text. *)
Lemma newReader_at s gensym addr :
  let r := newReader s gensym addr in
  fresh r /\ fnLiteral_ r = None /\ signed false (lexer_ r) /\ rest (lexer_ r) = s.
Proof. split_and!; try done. by right. Qed.

(** C12. Print and read back: the reader, on what [printTo] writes readably for a
    value of words, integers of any size, strings, keywords, symbols, lists and
    vectors, nested no deeper than its stack, answers one form, the same value but for
    the addresses of its cells, which prints the same. *)
Theorem print_read stack v gensym addr :
  hasCallContext = true -> readable v -> (depth v <= stack)%nat ->
  exists v', fst (readOne cfg stack (newReader (printTo true v) gensym addr)) = Ok (Some v') /\
    alike v v' /\ printTo true v' = printTo true v.
Proof.
  intros Hcc Hv Hd. destruct (newReader_at (printTo true v) gensym addr) as (Hf & Hfn & Hs & Hr).
  set (r0 := newReader (printTo true v) gensym addr) in *.
  set (t0 := fst (next (lexer_ r0))).
  destruct (reads_readable stack v Hcc Hv Hd (set_formStart (tline t0) (tcolumn t0) r0) false [] Hf Hfn Hs)
    as (tok & l & v' & r2 & Hnext & Hk & Hread & Ha & _); [by rewrite app_nil_r|done|].
  exists v'. split; [|by auto using print_alike].
  assert (kind tok <> HashUnderscore /\ kind tok <> EndOfFile) as [Hk1 Hk2].
  { split; intros E; by rewrite E in Hk. }
  assert (next (lexer_ r0) = (tok, l)) as Hn.
  { revert Hnext. unfold nextToken. change (lexer_ (set_formStart _ _ r0)) with (lexer_ r0).
    destruct (next (lexer_ r0)). by intros [= -> ->]. }
  assert (nextToken r0 = (Ok tok, set_lexer l r0)) as Hnext0 by (unfold nextToken; by rewrite Hn).
  assert (t0 = tok) as Et by (unfold t0; by rewrite Hn). rewrite Et in Hread.
  unfold readOne, reportOverflow, mbind, M_bind, gets. unfold fuel.
  cbn [skipDiscarded]. unfold mbind, M_bind. rewrite Hnext0, decide_False by done. cbn.
  rewrite decide_False by done. unfold modify.
  change (set_lexer l (set_formStart ?a ?b r0)) with (set_formStart a b (set_lexer l r0)) in Hread.
  by rewrite Hread.
Qed.

End PrintRead.

Module Examples.
Import KeyEquality.ListMaps DemoReader.Demo.

#[local] Instance demoNumerals : NumeralLaw.
Proof. intros z. apply to_string_value. Qed.

(** A vector of a word, a string with a quote in it, a symbol, a big integer and a
    list. *)
Definition demoValue : obj :=
  Vec 64 [Embedded (smallIntWord (-12)); Str 128 [x22; x0a; x61]; Named (namedAddress (s2b ":a/b")) (s2b ":a/b");
          Big 192 (2 ^ 70); LList 256 [Embedded noneWord; LList emptyListAddress []]].

Lemma demo_readable : readable demoValue.
Proof. cbn. split_and!; try done; [|by left]. right; right; right. by exists (-12). Qed.

Lemma demo_depth : (depth demoValue <= 3)%nat.
Proof. cbn. lia. Qed.

Lemma print_read_witness :
  printTo true demoValue = s2b "[-12 " ++ [x22; "\"%byte; x22; "\"%byte; "n"%byte; "a"%byte; x22] ++
    s2b " :a/b 1180591620717411303424 (nil ())]" /\
  exists v', fst (readOne demoConfig 3 (newReader (printTo true demoValue) 0 4096)) = Ok (Some v') /\
    alike demoValue v' /\ printTo true v' = printTo true demoValue.
Proof.
  split; [by vm_compute|]. exact (print_read demoConfig 3 demoValue 0 4096 eq_refl demo_readable demo_depth).
Defined.

End Examples.
