(* ===== verification/Macros.v ===== *)
(** Macros and the names the compiler resolves (runtime/Macros.h, Macros.cpp): the
    globals, the values that are macros, the expansion of a macro call, and the
    aliases of namespaces. *)

From S2P Require Import Prelude Values Maps Printer.

#[local] Set Warnings "-register-all".

(** ** What the running program holds

    The globals by name, the aliases [require] recorded, the counter of generated
    symbols, and the address the next cell is allocated at. *)
Record runtime := mkRuntime {
  globals : gmap bytes obj;
  aliases : gmap bytes bytes;
  gensyms : Z;
  heapTop : Z;
}.

(** What the compiler is given: the virtual machine (the values that are macros, the
    argument counts a function accepts, a call of a function, which answers a value
    or the text of what it raised), protoCore's symbol of a text, whether a call
    context is active and has an engine, and whether core.clj is loading. *)
Class CompilerEnv := {
  ce_platform :: Platform;
  ce_maps :: HashedMaps;
  ce_printer :: PrinterEnv;
  createSymbol : bytes -> Z;
  isMacroFn : obj -> bool;
  acceptsArgCount : obj -> nat -> bool;
  invoke : obj -> list obj -> runtime -> runtime * result bytes obj;
  hasEngine : bool;
  coreNamespaceActive : bool;
  stackOverflow : bytes;
}.

(** ** Names *)

Definition prefixed (p s : bytes) : bool := bool_decide (take (length p) s = p).

(** [name.find('/')] *)
Fixpoint findSlash (s : bytes) : option nat :=
  match s with
  | [] => None
  | c :: s => if (c =? "/")%byte then Some O else S <$> findSlash s
  end.

Definition specialForms : list string :=
  ["def"; "if"; "do"; "let*"; "loop*"; "fn*"; "quote"; "var"; "recur"; "throw"; "try"; "catch";
   "finally"; "new"; "set!"; "letfn*"; "case*"; "."; "&"; "monitor-enter"; "monitor-exit";
   "import*"; "deftype*"; "reify*"; "let"; "loop"; "fn"]%string.

Definition isSpecialFormName (name : bytes) : bool :=
  existsb (fun s => bool_decide (name = s2b s)) specialForms.

Definition kUser : bytes := s2b "user/".

(** The global a symbol names: [None] is a keyword. *)
Definition globalKeyForSymbol (spelling : bytes) : option bytes :=
  match spelling with
  | [] => None
  | c :: _ =>
      if (c =? ":")%byte then None
      else if (length kUser <? length spelling)%nat && prefixed kUser spelling
      then Some (drop (length kUser) spelling)
      else Some spelling
  end.

Definition knownNamespaces : list string :=
  ["clojure.core"; "clojure.string"; "clojure.set"; "clojure.java.io"; "clojure.java.shell";
   "clojure.edn"; "cheshire.core"; "clojure.data.json"]%string.

Definition isKnownNamespace (ns : bytes) : bool :=
  existsb (fun s => bool_decide (ns = s2b s)) knownNamespaces.

Definition namespaceAlias (alias : bytes) (w : runtime) : option bytes := aliases w !! alias.

Definition addNamespaceAlias (alias ns : bytes) (w : runtime) : runtime :=
  mkRuntime (globals w) (<[alias := ns]> (aliases w)) (gensyms w) (heapTop w).

(** A built-in has two keys; a [def] of the name replaces the first only. *)
Definition defineBuiltin (name : bytes) (value : obj) (w : runtime) : runtime :=
  mkRuntime (<[s2b "clojure.core/" ++ name := value]> (<[name := value]> (globals w)))
    (aliases w) (gensyms w) (heapTop w).

Section Macros.
Context `{CompilerEnv}.

Definition isMacroValue (v : obj) : bool := negb (same v PROTO_NONE) && isMacroFn v.

Definition globalMacro (key : bytes) (w : runtime) : option obj :=
  match globals w !! key with
  | Some v => if isMacroValue v then Some v else None
  | None => None
  end.

(** A list, or another seq: what a macro builds. *)
Definition isList (form : obj) : bool :=
  match form with LList _ _ | SeqObj _ _ => true | _ => false end.

(** The call of the macro on the form, the environment and the form's arguments;
    [Throw] is the text of what was raised. *)
Definition expandMacroCall (macro : obj) (name : bytes) (form env : obj) (w : runtime)
    : runtime * result bytes obj :=
  let args := form :: env :: tail (sequenceItems form) in
  if negb (acceptsArgCount macro (length args)) then
    (w, Throw (s2b "ArityException: Wrong number of args (" ++
               to_string (Z.of_nat (length args) - 2) ++ s2b ") passed to macro: " ++ name))
  else invoke macro args w.

(** The head's spelling, when the form calls a global macro. *)
Definition macroOfForm (form : obj) (w : runtime) : option (bytes * obj) :=
  match sequenceItems form with
  | Named _ spelling :: _ =>
      match globalKeyForSymbol spelling with
      | Some key =>
          if isSpecialFormName key then None
          else (fun m => (spelling, m)) <$> globalMacro key w
      | None => None
      end
  | _ => None
  end.

(** [macroexpand-1]. A seq that is not a list becomes the list of its elements,
    allocated. *)
Definition macroexpandOnce (form : obj) (w : runtime) : runtime * result bytes obj :=
  let '(form, w) :=
    match form with
    | SeqObj _ items =>
        (listFromArray (heapTop w) items,
         mkRuntime (globals w) (aliases w) (gensyms w) (heapTop w + 64))
    | _ => (form, w)
    end in
  if isListValue form then
    match macroOfForm form w with
    | Some (spelling, macro) => expandMacroCall macro spelling form PROTO_NONE w
    | None => (w, Ok form)
    end
  else (w, Ok form).

End Macros.
