(* ===== verification/Compiler.v ===== *)
(** The compiler (compiler/Compiler.h, Compiler.cpp; [evalTopLevel]'s compilation in
    compiler/Eval.cpp): from a form, a value as the reader yields it or a macro
    builds it, to a bytecode module.

    The state of a [Compiler] object, with the module being written and what the
    running program holds, is the record [cstate]; a member function is a
    computation [C] on it that ends with a value or an exception. A module names
    values by their addresses. [stack] is how many levels of recursion the thread's
    stack has room for. Compilation without debug information is modelled: only the
    debugger asks for it. *)

From S2P Require Import Prelude Bytecode Exceptions Maps Printer Macros Values.

#[local] Set Warnings "-register-all".

(** ** Scopes *)

Record RecurTarget := mkTarget {
  bodyStart : Z;
  slots : list Z;
  targetTryDepth : Z;
}.

Record Scope := mkScope {
  nameToSlot : gmap bytes Z;
  nextSlot : Z;
  scopeArity : Z;
  captures : list CaptureSpec;
  recurStack : list RecurTarget;  (* innermost first *)
  tryDepth : Z;
}.

Definition newScope : Scope := mkScope ∅ 0 0 [] [] 0.

Definition set_names names s := mkScope names (nextSlot s) (scopeArity s) (captures s)
  (recurStack s) (tryDepth s).
Definition set_nextSlot n s := mkScope (nameToSlot s) n (scopeArity s) (captures s)
  (recurStack s) (tryDepth s).
Definition set_captures c s := mkScope (nameToSlot s) (nextSlot s) (scopeArity s) c
  (recurStack s) (tryDepth s).
Definition set_recurStack r s := mkScope (nameToSlot s) (nextSlot s) (scopeArity s) (captures s)
  r (tryDepth s).
Definition set_tryDepth d s := mkScope (nameToSlot s) (nextSlot s) (scopeArity s) (captures s)
  (recurStack s) d.

Abbreviation module := (BytecodeModule (obj := Z)).

Record cstate := mkState {
  scopes_ : list Scope;  (* innermost first *)
  out : module;
  program : runtime;
}.

Definition set_scopes ss st := mkState ss (out st) (program st).
Definition set_out m st := mkState (scopes_ st) m (program st).
Definition set_program w st := mkState (scopes_ st) (out st) w.

Inductive compileError :=
| CompileError (msg : bytes)
| StackOverflow (what : bytes)
| BytecodeLimit (d : defect).

(** ** Computations *)

Definition C (A : Type) : Type := cstate -> result compileError (A * cstate).

#[export] Instance C_ret : MRet C := fun A a st => Ok (a, st).
#[export] Instance C_bind : MBind C := fun A B f m st =>
  match m st with Ok (a, st) => f a st | Throw e => Throw e end.

Definition fail {A} (msg : bytes) : C A := fun _ => Throw (CompileError msg).
Definition gets {A} (f : cstate -> A) : C A := fun st => Ok (f st, st).
Definition modify (f : cstate -> cstate) : C unit := fun st => Ok (tt, f st).

(** A step of the module, which may pass a limit of the bytecode. *)
Definition liftModule {A} (f : module -> result defect (A * module)) : C A := fun st =>
  match f (out st) with
  | Ok (a, m) => Ok (a, set_out m st)
  | Throw d => Throw (BytecodeLimit d)
  end.

Definition emit (op : Op) (operand : Z) : C Z := liftModule (Bytecode.emit op operand).

(** [emit], for the instruction only. *)
Definition emit_ (op : Op) (operand : Z) : C unit := _ ← emit op operand; mret tt.

Definition patchOperand (at_ operand : Z) : C unit :=
  liftModule (fun m => m ← Bytecode.patchOperand at_ operand m; mret (tt, m)).

(** The jump at [at_] made to land at [target]. *)
Definition patchTo (at_ target : Z) : C unit := patchOperand at_ (target - (at_ + 1)).

Definition here : C Z := gets (fun st => pos (out st)).

Definition set_pool (p : ConstPool) (m : module) : module :=
  mkModule (code_ m) p (blocks_ m) (arityGroups_ m) (captureSpecs_ m) (arity_ m) (localCount_ m)
    (isVariadic_ m) (hasHandlers_ m) (isKwBased_ m) (asSlot_ m) (kwKeys_ m).

(** The index of a constant, added if it is new. *)
Definition constant (add : ConstPool (obj := Z) -> nat * ConstPool) : C Z := fun st =>
  let '(i, p) := add (pool_ (out st)) in Ok (Z.of_nat i, set_out (set_pool p (out st)) st).

Section Compiler.
Context `{CompilerEnv}.

(** [source_]: the keys of the map literals in source order, when there is one. *)
Context (source_ : option (list (Z * list obj))).

Definition symbolConst (s : bytes) : C Z := constant (addSymbol createSymbol s).

Definition emitStoreGlobal (key : bytes) : C unit :=
  i ← symbolConst key;
  _ ← emit STORE_GLOBAL i;
  if coreNamespaceActive then
    i ← symbolConst (s2b "clojure.core/" ++ key);
    emit_ STORE_GLOBAL i
  else mret tt.

(** A cell of its own. *)
Definition allocate : C Z := fun st =>
  let w := program st in
  Ok (heapTop w, set_program (mkRuntime (globals w) (aliases w) (gensyms w) (heapTop w + 64)) st).

Definition nextGensymId : C Z := fun st =>
  let w := program st in
  Ok (gensyms w + 1, set_program (mkRuntime (globals w) (aliases w) (gensyms w + 1) (heapTop w)) st).

Definition listForm (items : list obj) : C obj := a ← allocate; mret (listFromArray a items).
Definition vectorForm (items : list obj) : C obj := a ← allocate; mret (newVector a items).
Definition sym (name : string) : obj := internNamed (s2b name).

Definition freshSymbol (prefix : bytes) : C obj :=
  n ← nextGensymId; mret (internNamed (prefix ++ to_string n)).

(** ** Forms *)

Definition isNameForm (form : obj) : bool := match form with Named _ _ => true | _ => false end.
Definition nameOf (form : obj) : bytes := match form with Named _ s => s | _ => [] end.

Definition startsColon (s : bytes) : bool := bool_decide (head s = Some ":"%byte).
Definition isKeywordForm (form : obj) : bool := isNameForm form && startsColon (nameOf form).
Definition isStringForm (form : obj) : bool := isString form.
Definition isFloat (form : obj) : bool := match form with Dbl _ _ => true | _ => false end.
Definition isInteger (form : obj) : bool := bool_decide (is_Some (integerOf form)).

(** [FormList::getAt] *)
Definition getAt (forms : list obj) (i : nat) : obj := nth i forms PROTO_NONE.

Definition printedForm (form : obj) : bytes := printTo true form.

Definition kCore : bytes := s2b "clojure.core/".

(** The name without its qualifier, when it had one. *)
Definition stripCoreQualifier (name : bytes) : option bytes :=
  if (length kCore <? length name)%nat && prefixed kCore name
  then Some (drop (length kCore) name) else None.

Definition isUserQualified (name : bytes) : bool :=
  (length kUser <? length name)%nat && prefixed kUser name.

Definition isQualifiedName (name : bytes) : bool :=
  if (length name <? 3)%nat || startsColon name then false
  else match findSlash name with
       | Some slash => (0 <? slash)%nat && (slash + 1 <? length name)%nat
       | None => false
       end.

(** The library namespaces: those whose functions are built-ins, and those whose
    members are. *)
Definition builtinNamespaces : list (string * list string) :=
  [("clojure.string/", ["blank?"; "ends-with?"; "includes?"; "index-of"; "join"; "lower-case";
     "replace"; "replace-first"; "reverse"; "split"; "split-lines"; "starts-with?"; "trim"; "triml";
     "trimr"; "upper-case"]);
   ("clojure.set/", ["union"; "intersection"; "difference"; "subset?"; "superset?"]);
   ("clojure.java.io/", ["reader"; "writer"; "file"; "copy"; "delete-file"; "make-parents"]);
   ("clojure.java.shell/", ["sh"])]%string.

Definition memberNamespaces : list (string * list string) :=
  [("clojure.edn/", ["read-string"]);
   ("cheshire.core/", ["parse-string"; "generate-string"; "parse-stream"; "generate-stream";
     "decode"; "encode"]);
   ("clojure.data.json/", ["read-str"; "write-str"; "read"; "write"])]%string.

(** The name without the namespace, of a function that namespace provides. *)
Definition memberOf (name : bytes) (ns : string * list string) : option bytes :=
  let prefix := s2b ns.1 in
  if prefixed prefix name then
    let bare := drop (length prefix) name in
    if existsb (fun s => bool_decide (bare = s2b s)) ns.2 then Some bare else None
  else None.

Fixpoint memberOfAny (name : bytes) (nss : list (string * list string)) : option bytes :=
  match nss with
  | [] => None
  | ns :: nss => match memberOf name ns with Some bare => Some bare | None => memberOfAny name nss end
  end.

Definition aliasLibraryNamespace (written : bytes) : C bytes := fun st =>
  if bool_decide (written = []) || startsColon written then Ok (written, st)
  else
    let slash := findSlash written in
    let name :=
      match slash with
      | Some i =>
          if (0 <? i)%nat && (i + 1 <? length written)%nat then
            match namespaceAlias (take i written) (program st) with
            | Some ns => ns ++ drop i written
            | None => written
            end
          else written
      | None => written
      end in
    if prefixed kCore name then Ok (name, st)
    else match memberOfAny name memberNamespaces with
    | Some _ => Ok (name, st)
    | None =>
        match memberOfAny name builtinNamespaces with
        | Some bare => Ok (kCore ++ bare, st)
        | None =>
            if bool_decide (is_Some slash) &&
               isKnownNamespace (take (default (length name) (findSlash name)) name)
            then Throw (CompileError (s2b "No such var: " ++ written))
            else Ok (name, st)
        end
    end.

Fixpoint keyedEntries (m : obj) (keys : list obj) : list obj :=
  match keys with
  | [] => []
  | k :: keys =>
      match mapGet (Values.depth m) (mapEntries m) k with
      | Some v => k :: v :: keyedEntries m keys
      | None => []  (* not the map the reader recorded *)
      end
  end.

(** The keys and values of a map form: in source order when it is known. *)
Definition mapFormEntries (m : obj) : list obj :=
  let walk := flat_map (fun e => [e.1; e.2]) (mapEntries m) in
  match source_ with
  | None => walk
  | Some order =>
      match find (fun e => e.1 =? address m) order with
      | None => walk
      | Some (_, keys) =>
          let kv := keyedEntries m keys in
          if Z.of_nat (length kv) =? 2 * mapCount (mapEntries m) then kv else walk
      end
  end.

(** ** Destructuring *)

Definition unsupported {A} (what : bytes) : C A := fail (s2b "Unsupported binding " ++ what).

Section Destructure.
Context (destructure : obj -> obj -> C (list obj)).

(** The bindings of the elements of a vector pattern from [items] on, of the value
    bound to [gvec], whose seq is bound to [gseq] when the pattern has a rest. *)
Fixpoint vectorBindings (gvec : obj) (gseq : option obj) (index : Z) (seenRest : bool)
    (items : list obj) : C (list obj) :=
  let onlyAs := s2b "form, only :as can follow & parameter" in
  match items with
  | [] => mret []
  | b :: items =>
      let amp := same b (sym "&") in
      if amp || same b (sym ":as") then
        match items with
        | [] => unsupported (s2b "form, missing binding after " ++ (if amp then s2b "&" else s2b ":as"))
        | target :: items =>
            if amp then
              if seenRest then unsupported onlyAs
              else
                p ← destructure target (default PROTO_NONE gseq);
                q ← vectorBindings gvec gseq index true items;
                mret (p ++ q)
            else destructure target gvec
        end
      else if seenRest then unsupported onlyAs
      else
        p ← match gseq with
            | Some gseq =>
                gfirst ← freshSymbol (s2b "first__");
                first ← listForm [sym "clojure.core/first"; gseq];
                next ← listForm [sym "clojure.core/next"; gseq];
                p ← destructure b gfirst;
                mret ([gfirst; first; gseq; next] ++ p)
            | None =>
                nth ← listForm [sym "clojure.core/nth"; gvec; Embedded (smallIntWord index); PROTO_NONE];
                destructure b nth
            end;
        q ← vectorBindings gvec gseq (index + 1) seenRest items;
        mret (p ++ q)
  end.

(** The names of an [:or] map and their defaults, added to [defaults]. *)
Fixpoint orDefaults (ors : list obj) (defaults : gmap bytes obj) : C (gmap bytes obj) :=
  match ors with
  | k :: v :: ors =>
      if negb (isNameForm k) then fail (s2b ":or key must be a symbol, got " ++ printedForm k)
      else orDefaults ors (<[nameOf k := v]> defaults)
  | _ => mret defaults
  end.

Fixpoint allDefaults (entries : list obj) (defaults : gmap bytes obj) : C (gmap bytes obj) :=
  match entries with
  | k :: v :: entries =>
      if same k (sym ":or") then
        if negb (isMap v) then fail (s2b ":or must be a map, got " ++ printedForm v)
        else defaults ← orDefaults (mapFormEntries v) defaults; allDefaults entries defaults
      else allDefaults entries defaults
  | _ => mret defaults
  end.

Definition getForm (gmap_ : obj) (defaults : gmap bytes obj) (key : obj) (local : bytes) : C obj :=
  listForm ([sym "clojure.core/get"; gmap_; key] ++
            match defaults !! local with Some d => [d] | None => [] end).

(** [{:keys [...]}] and its kin: one binding per name. *)
Fixpoint keysBindings (gmap_ : obj) (defaults : gmap bytes obj) (kind kwNs : bytes)
    (names : list obj) : C (list obj) :=
  match names with
  | [] => mret []
  | s :: names =>
      if negb (isNameForm s) then unsupported (s2b "form: " ++ printedForm s)
      else
        let spelled := if startsColon (nameOf s) then tail (nameOf s) else nameOf s in
        let '(local, full) :=
          match findSlash spelled with
          | Some sl => (drop (S sl) spelled, spelled)
          | None => (spelled, match kwNs with [] => spelled | _ => kwNs ++ s2b "/" ++ spelled end)
          end in
        key ← (if bool_decide (kind = s2b "keys") then mret (internNamed (s2b ":" ++ full))
               else if bool_decide (kind = s2b "strs") then a ← allocate; mret (Str a local)
               else listForm [sym "quote"; internNamed full]);
        form ← getForm gmap_ defaults key local;
        rest ← keysBindings gmap_ defaults kind kwNs names;
        mret (internNamed local :: form :: rest)
  end.

Definition keysEntry (gmap_ : obj) (defaults : gmap bytes obj) (k v : obj) : C (list obj) :=
  let kw := tail (nameOf k) in
  let '(kind, kwNs) :=
    match findSlash kw with Some sl => (drop (S sl) kw, take sl kw) | None => (kw, []) end in
  if negb (existsb (fun s => bool_decide (kind = s2b s)) ["keys"; "strs"; "syms"]%string) ||
     (bool_decide (kind = s2b "strs") && negb (bool_decide (kwNs = [])))
  then unsupported (s2b "key: " ++ nameOf k)
  else if negb (isVector v) then
    fail (nameOf k ++ s2b " must be followed by a vector, got " ++ printedForm v)
  else keysBindings gmap_ defaults kind kwNs (sequenceItems v).

Fixpoint mapBindings (gmap_ : obj) (defaults : gmap bytes obj) (entries : list obj) : C (list obj) :=
  match entries with
  | k :: v :: entries =>
      p ← (if same k (sym ":or") then mret []
           else if same k (sym ":as") then
             if negb (isNameForm v) || isKeywordForm v
             then fail (s2b ":as must be followed by a symbol, got " ++ printedForm v)
             else mret [v; gmap_]
           else if isKeywordForm k then keysEntry gmap_ defaults k v
           else if isNameForm k then form ← getForm gmap_ defaults v (nameOf k); mret [k; form]
           else form ← listForm [sym "clojure.core/get"; gmap_; v]; destructure k form);
      q ← mapBindings gmap_ defaults entries;
      mret (p ++ q)
  | _ => mret []
  end.

End Destructure.

(** The symbols and expressions that bind [pattern] to the value of [value]. *)
Fixpoint destructure (stack : nat) (pattern value : obj) : C (list obj) :=
  match stack with
  | O => fun _ => Throw (StackOverflow stackOverflow)
  | S stack =>
      match pattern with
      | Named _ s =>
          if startsColon s then unsupported (s2b "form: " ++ s) else mret [pattern; value]
      | Vec _ items =>
          let hasRest := existsb (fun b => same b (sym "&")) items in
          gvec ← freshSymbol (s2b "vec__");
          if hasRest then
            gseq ← freshSymbol (s2b "seq__");
            seq ← listForm [sym "clojure.core/seq"; gvec];
            p ← vectorBindings (destructure stack) gvec (Some gseq) 0 false items;
            mret ([gvec; value; gseq; seq] ++ p)
          else
            p ← vectorBindings (destructure stack) gvec None 0 false items;
            mret ([gvec; value] ++ p)
      | MapObj _ _ =>
          let entries := mapFormEntries pattern in
          gmap_ ← freshSymbol (s2b "map__");
          checked ← listForm [sym "clojure.core/__destructure-map"; gmap_];
          defaults ← allDefaults entries ∅;
          p ← mapBindings (destructure stack) gmap_ defaults entries;
          mret ([gmap_; value; gmap_; checked] ++ p)
      | _ => unsupported (s2b "form: " ++ printedForm pattern)
      end
  end.

(** The patterns of a binding vector, and the bindings' simple form. *)
Definition simpleBinding (b : obj) : bool := isNameForm b && negb (isKeywordForm b).

Fixpoint simpleBindings (bindings : list obj) : bool :=
  match bindings with
  | [] => true
  | [b] => simpleBinding b
  | b :: _ :: bindings => simpleBinding b && simpleBindings bindings
  end.

Fixpoint destructurePairs (stack : nat) (bindings : list obj) : C (list obj) :=
  match bindings with
  | b :: v :: bindings =>
      p ← destructure stack b v;
      q ← destructurePairs stack bindings;
      mret (p ++ q)
  | _ => mret []
  end.

(** [None]: every pattern is a symbol. *)
Definition destructureBindings (stack : nat) (bindings : list obj) : C (option obj) :=
  if simpleBindings bindings then mret None
  else flat ← destructurePairs stack bindings; v ← vectorForm flat; mret (Some v).

(** ** Locals *)

Definition withInnermost {A} (dflt : A) (f : Scope -> A) (st : cstate) : A :=
  match scopes_ st with s :: _ => f s | [] => dflt end.

Definition modifyInnermost (f : Scope -> Scope) : C unit :=
  modify (fun st => match scopes_ st with s :: ss => set_scopes (f s :: ss) st | [] => st end).

(** The slot of [name] in the innermost scope, captured through the scopes between
    it and the one that binds the name. *)
Fixpoint resolveIn (name : bytes) (ss : list Scope) : option (Z * list Scope) :=
  match ss with
  | [] => None
  | s :: ss =>
      match nameToSlot s !! name with
      | Some slot => Some (slot, s :: ss)
      | None =>
          match resolveIn name ss with
          | None => None
          | Some (source, ss) =>
              let slot := nextSlot s in
              Some (slot, mkScope (<[name := slot]> (nameToSlot s)) (slot + 1) (scopeArity s)
                            (captures s ++ [mkCapture source slot]) (recurStack s) (tryDepth s) :: ss)
          end
      end
  end.

Definition resolveLocal (name : bytes) : C (option Z) := fun st =>
  match resolveIn name (scopes_ st) with
  | Some (slot, ss) => Ok (Some slot, set_scopes ss st)
  | None => Ok (None, st)
  end.

Definition isLocalName (name : bytes) (ss : list Scope) : bool :=
  existsb (fun s => bool_decide (is_Some (nameToSlot s !! name))) ss.

Definition newSlot : C Z := fun st =>
  match scopes_ st with
  | s :: ss => Ok (nextSlot s, set_scopes (set_nextSlot (nextSlot s + 1) s :: ss) st)
  | [] => Ok (0, st)  (* there is a scope wherever a slot is taken *)
  end.

(** [name] bound to [slot] while [m] runs, and what it named before restored. *)
Definition namesOf : C (gmap bytes Z) := gets (withInnermost ∅ nameToSlot).

Definition bindName (name : bytes) (slot : Z) : C unit :=
  modifyInnermost (fun s => set_names (<[name := slot]> (nameToSlot s)) s).

Definition restoreName (saved : bytes * option Z) : C unit :=
  modifyInnermost (fun s =>
    set_names (match saved.2 with
               | Some slot => <[saved.1 := slot]> (nameToSlot s)
               | None => delete saved.1 (nameToSlot s)
               end) s).

(** [~BindingRestore]: the last binding first. *)
Fixpoint restoreNames (saved : list (bytes * option Z)) : C unit :=
  match saved with
  | [] => mret tt
  | b :: saved => _ ← restoreNames saved; restoreName b
  end.

(** ** Macros *)

(** The head's spelling and the macro, when the head names one. *)
Definition macroForHead (head : obj) (st : cstate) : option (bytes * obj) :=
  if negb hasCallContext || negb hasEngine || negb (isNameForm head) then None
  else
    let name := nameOf head in
    match globalKeyForSymbol name with
    | None => None
    | Some key =>
        let bare := default key (stripCoreQualifier key) in
        let qualified := bool_decide (is_Some (stripCoreQualifier key)) || negb (bool_decide (key = name)) in
        if isSpecialFormName bare then None
        else if negb qualified && isLocalName key (scopes_ st) then None
        else (fun m => (name, m)) <$> globalMacro key (program st)
    end.

(** Each local's symbol, bound to itself. *)
Fixpoint localSymbols (seen : list bytes) (names : list bytes) : list obj :=
  match names with
  | [] => []
  | n :: names =>
      if bool_decide (n ∈ seen) then localSymbols seen names
      else internNamed n :: internNamed n :: localSymbols (n :: seen) names
  end.

Definition localEnv : C obj := fun st =>
  let names := flat_map (fun s => map fst (map_to_list (nameToSlot s))) (rev (scopes_ st)) in
  let kv := localSymbols [] names in
  match kv with
  | [] => Ok (PROTO_NONE, st)
  | _ =>
      match mapAssocPairs 1 None kv with
      | Ok es => (a ← allocate; mret (MapObj a es)) st
      | Throw _ => Ok (PROTO_NONE, st)
      end
  end.

Definition macroError (name what : bytes) : bytes :=
  s2b "Syntax error macroexpanding " ++ name ++ s2b ": " ++ what.

Definition expand (macro : obj) (name : bytes) (form env : obj) : C obj := fun st =>
  match expandMacroCall macro name form env (program st) with
  | (w, Ok expansion) => Ok (expansion, set_program w st)
  | (_, Throw what) => Throw (CompileError (macroError name what))
  end.

(** ** Locals clearing *)

Record Use := mkUse { reads : nat; readAt : Z; stores : list Z; banned : bool }.
Definition noUse : Use := mkUse 0 0 [] false.

Definition addRead (i : Z) (u : Use) : Use := mkUse (S (reads u)) i (stores u) (banned u).
Definition addStore (i : Z) (u : Use) : Use := mkUse (reads u) (readAt u) (stores u ++ [i]) (banned u).
Definition ban (u : Use) : Use := mkUse (reads u) (readAt u) (stores u) true.

Definition alterUse (f : Use -> Use) (slot : Z) (uses : gmap Z Use) : gmap Z Use :=
  <[slot := f (default noUse (uses !! slot))]> uses.

(** The uses of each slot and the loops, the code from position [i] on. *)
Fixpoint scanUses (i : Z) (code : list Z) (uses : gmap Z Use) (loops : list (Z * Z))
    : gmap Z Use * list (Z * Z) :=
  match code with
  | [] => (uses, loops)
  | word :: code =>
      let operand := instrOperand word in
      match instrOp word with
      | Some PUSH_LOCAL => scanUses (i + 1) code (alterUse (addRead i) operand uses) loops
      | Some STORE_LOCAL => scanUses (i + 1) code (alterUse (addStore i) operand uses) loops
      | Some STORE_CAUGHT | Some RETHROW => scanUses (i + 1) code (alterUse ban operand uses) loops
      | Some JUMP_BACK =>
          scanUses (i + 1) code uses
            (if operand <=? i + 1 then loops ++ [(i + 1 - operand, i)] else loops)
      | Some CALL_MEMBER =>
          match code with
          | _ :: code => scanUses (i + 2) code uses loops
          | [] => (uses, loops)
          end
      | _ => scanUses (i + 1) code uses loops
      end
  end.

(** Every loop the read is in stores the slot. *)
Definition readOnce (loops : list (Z * Z)) (u : Use) : bool :=
  forallb (fun l =>
    (readAt u <? l.1) || (l.2 <? readAt u) ||
    existsb (fun st => (l.1 <=? st) && (st <=? l.2)) (stores u)) loops.

Definition clearable (fixedArity paramEnd : Z) (loops : list (Z * Z)) (slot : Z) (u : Use) : bool :=
  negb (banned u) && (reads u =? 1)%nat &&
  negb ((fixedArity <=? slot) && (slot <? paramEnd)) &&
  negb ((paramEnd <=? slot) && match stores u with [] => true | _ => false end) &&
  readOnce loops u.

Definition clearLastReads (fixedArity paramEnd : Z) (m : module) : module :=
  let '(uses, loops) := scanUses 0 (code_ m) ∅ [] in
  let uses := fold_left (fun uses c => alterUse ban (localSlot c) uses) (captureSpecs_ m) uses in
  fold_left (fun m e =>
    if clearable fixedArity paramEnd loops e.1 e.2
    then patchOp (readAt e.2) PUSH_LOCAL_CLEAR m else m) (map_to_list uses) m.

(** ** Forms *)

Section Forms.
Context (compileForm : obj -> C unit) (stack : nat).

(** Forms in order, for the value of the last: nil when there are none. *)
Fixpoint compileForms (forms : list obj) : C unit :=
  match forms with
  | [] => mret tt
  | [f] => compileForm f
  | f :: forms => _ ← compileForm f; _ ← emit POP 0; compileForms forms
  end.

Definition compileDo (forms : list obj) : C unit :=
  match forms with [] => emit_ PUSH_NIL 0 | _ => compileForms forms end.

(** Forms in order, each leaving its value on the stack. *)
Fixpoint compileAll (forms : list obj) : C unit :=
  match forms with [] => mret tt | f :: forms => _ ← compileForm f; compileAll forms end.

(** Forms for effect only. *)
Fixpoint compileEffects (forms : list obj) : C unit :=
  match forms with
  | [] => mret tt
  | f :: forms => _ ← compileForm f; _ ← emit POP 0; compileEffects forms
  end.

(** *** Parameters *)

(** The map after [&] is one the keyword parameters take. *)
Fixpoint kwEntriesOk (es : list obj) (keys : bool) : bool :=
  match es with
  | k :: v :: es =>
      if negb (isNameForm k) then false
      else if bool_decide (nameOf k = s2b ":keys") then
        isVector v &&
        forallb (fun s => isNameForm s && negb (isKeywordForm s) && negb (isQualifiedName (nameOf s)))
          (sequenceItems v) && kwEntriesOk es true
      else if bool_decide (nameOf k = s2b ":or") then isMap v && kwEntriesOk es keys
      else if bool_decide (nameOf k = s2b ":as") then isNameForm v && kwEntriesOk es keys
      else false
  | _ => keys
  end.

Definition kwPathTakes (m : obj) : bool := kwEntriesOk (mapFormEntries m) false.

Definition isAmp (form : obj) : bool := isNameForm form && bool_decide (nameOf form = s2b "&").

(** The parameters, each pattern replaced by a generated symbol, and the patterns
    with their symbols. *)
Fixpoint plainParams (afterAmp : bool) (params : list obj) : C (list obj * list obj) :=
  match params with
  | [] => mret ([], [])
  | p :: params =>
      if negb (isVector p) && negb (isMap p) && negb (simpleBinding p)
      then unsupported (s2b "form: " ++ printedForm p)
      else if isVector p || (isMap p && negb (afterAmp && kwPathTakes p)) then
        g ← freshSymbol (s2b "p__");
        rest ← plainParams (isAmp p) params;
        mret (g :: rest.1, p :: g :: rest.2)
      else
        rest ← plainParams (isAmp p) params;
        mret (p :: rest.1, rest.2)
  end.

(** The parameters and the body, the patterns bound by a [let] around the body. *)
Definition plainArity (params body : list obj) : C (list obj * list obj) :=
  '(effective, pairs) ← plainParams false params;
  match pairs with
  | [] => mret (params, body)
  | _ =>
      bvec ← vectorForm pairs;
      letForm ← listForm (sym "let" :: bvec :: body);
      _ ← listForm [PROTO_NONE; letForm];
      mret (effective, [letForm])
  end.

(** What follows the fixed parameters. *)
Inductive restParams :=
| NoRest
| RestName (name : bytes)
| RestKeys (keys : list (bytes * option obj)) (asName : bytes).

Record kwParse := mkKwParse {
  kwNames : list bytes; orEntries : list obj; asBindName : bytes; sawKeys : bool }.

Fixpoint kwKeyNames (ks : list obj) : C (list bytes) :=
  match ks with
  | [] => mret []
  | s :: ks =>
      if negb (isNameForm s) then fail (s2b "fn/defn: `:keys` entry must be a symbol")
      else names ← kwKeyNames ks; mret (nameOf s :: names)
  end.

Fixpoint parseKwEntries (es : list obj) (k : kwParse) : C kwParse :=
  match es with
  | mk :: mv :: es =>
      if negb (isNameForm mk) then fail (s2b "fn/defn: `& {...}` key must be a keyword")
      else if bool_decide (nameOf mk = s2b ":keys") then
        if negb (isVector mv) then fail (s2b "fn/defn: `:keys` must be a vector of symbols")
        else
          names ← kwKeyNames (sequenceItems mv);
          parseKwEntries es (mkKwParse (kwNames k ++ names) (orEntries k) (asBindName k) true)
      else if bool_decide (nameOf mk = s2b ":or") then
        if negb (isMap mv) then fail (s2b "fn/defn: `:or` must be a map")
        else parseKwEntries es (mkKwParse (kwNames k) (mapFormEntries mv) (asBindName k) (sawKeys k))
      else if bool_decide (nameOf mk = s2b ":as") then
        if negb (isNameForm mv) then fail (s2b "fn/defn: `:as` binding must be a symbol")
        else parseKwEntries es (mkKwParse (kwNames k) (orEntries k) (nameOf mv) (sawKeys k))
      else fail (s2b "fn/defn: unsupported entry in `& {...}`: " ++ nameOf mk)
  | _ => mret k
  end.

(** The default of the first key of that name. *)
Fixpoint setDefault (name : bytes) (d : obj) (keys : list (bytes * option obj))
    : option (list (bytes * option obj)) :=
  match keys with
  | [] => None
  | k :: keys =>
      if bool_decide (k.1 = name) then Some ((name, Some d) :: keys)
      else cons k <$> setDefault name d keys
  end.

Fixpoint attachDefaults (ors : list obj) (keys : list (bytes * option obj))
    : C (list (bytes * option obj)) :=
  match ors with
  | ok :: ov :: ors =>
      if negb (isNameForm ok) then fail (s2b "fn/defn: `:or` key must be a symbol")
      else match setDefault (nameOf ok) ov keys with
           | None => fail (s2b "fn/defn: `:or` key not in :keys: " ++ nameOf ok)
           | Some keys => attachDefaults ors keys
           end
  | _ => mret keys
  end.

Definition parseRest (rp : obj) : C restParams :=
  if isMap rp then
    k ← parseKwEntries (mapFormEntries rp) (mkKwParse [] [] [] false);
    if negb (sawKeys k) then fail (s2b "fn/defn: `& {...}` needs at least :keys")
    else
      keys ← attachDefaults (orEntries k) (map (fun n => (n, None)) (kwNames k));
      mret (RestKeys keys (asBindName k))
  else if isNameForm rp then
    if isQualifiedName (nameOf rp)
    then fail (s2b "Can't use qualified name as parameter: " ++ nameOf rp)
    else mret (RestName (nameOf rp))
  else fail (s2b "fn/defn: form after `&` must be a symbol (variadic) or a `{:keys [...]}` map").

(** The fixed parameters and the rest. *)
Fixpoint splitParams (params : list obj) : C (list obj * restParams) :=
  match params with
  | [] => mret ([], NoRest)
  | p :: params =>
      if isAmp p then
        match params with
        | [rp] => r ← parseRest rp; mret ([], r)
        | _ => fail (s2b "fn/defn: `&` must be followed by exactly one form")
        end
      else split ← splitParams params; mret (p :: split.1, split.2)
  end.

Fixpoint bindFixed (i : Z) (params : list obj) (names : gmap bytes Z) : C (gmap bytes Z) :=
  match params with
  | [] => mret names
  | p :: params =>
      if negb (isNameForm p) then fail (s2b "fn/defn: parameter name must be a symbol")
      else if isQualifiedName (nameOf p)
      then fail (s2b "Can't use qualified name as parameter: " ++ nameOf p)
      else bindFixed (i + 1) params (<[nameOf p := i]> names)
  end.

(** *** A function body *)

Definition set_signature (fixedArity : Z) (variadic kw : bool) (m : module) : module :=
  mkModule (code_ m) (pool_ m) (blocks_ m) (arityGroups_ m) (captureSpecs_ m) fixedArity
    (localCount_ m) variadic (hasHandlers_ m) kw (asSlot_ m) (kwKeys_ m).

Definition set_asSlot (slot : Z) (m : module) : module :=
  mkModule (code_ m) (pool_ m) (blocks_ m) (arityGroups_ m) (captureSpecs_ m) (arity_ m)
    (localCount_ m) (isVariadic_ m) (hasHandlers_ m) (isKwBased_ m) slot (kwKeys_ m).

(** [setLocalCount] and the captures. *)
Definition set_locals (count : Z) (cs : list CaptureSpec) (m : module) : module :=
  mkModule (code_ m) (pool_ m) (blocks_ m) (arityGroups_ m) (captureSpecs_ m ++ cs) (arity_ m)
    count (isVariadic_ m) (hasHandlers_ m) (isKwBased_ m) (asSlot_ m) (kwKeys_ m).

Definition isVariadicRest (r : restParams) : bool := match r with RestName _ => true | _ => false end.
Definition isKwRest (r : restParams) : bool := match r with RestKeys _ _ => true | _ => false end.

(** A keyword parameter's slot. *)
Fixpoint bindKeys (keys : list (bytes * option obj)) : C unit :=
  match keys with
  | [] => mret tt
  | (name, _) :: keys =>
      slot ← newSlot;
      _ ← bindName name slot;
      _ ← modify (fun st => set_out (addKwKey name slot
            (address (internNamed (s2b ":" ++ name))) (out st)) st);
      bindKeys keys
  end.

Definition bindRest (r : restParams) : C unit :=
  match r with
  | NoRest => mret tt
  | RestName name => slot ← newSlot; bindName name slot
  | RestKeys keys asName =>
      _ ← bindKeys keys;
      match asName with
      | [] => mret tt
      | _ =>
          slot ← newSlot;
          _ ← bindName asName slot;
          modify (fun st => set_out (set_asSlot slot (out st)) st)
      end
  end.

(** The defaults of the keyword parameters, from the one of slot [slot] on. *)
Fixpoint compileDefaults (slot : Z) (keys : list (bytes * option obj)) : C unit :=
  match keys with
  | [] => mret tt
  | (_, None) :: keys => compileDefaults (slot + 1) keys
  | (_, Some d) :: keys =>
      _ ← emit PUSH_LOCAL slot;
      _ ← emit PUSH_NIL 0;
      _ ← emit EQ 0;
      jifAt ← emit JUMP_IF_FALSE 0;
      _ ← compileForm d;
      _ ← emit STORE_LOCAL slot;
      after ← here;
      _ ← patchTo jifAt after;
      compileDefaults (slot + 1) keys
  end.

Definition pushRecur (t : RecurTarget) : C unit :=
  modifyInnermost (fun s => set_recurStack (t :: recurStack s) s).
Definition popRecur : C unit := modifyInnermost (fun s => set_recurStack (tail (recurStack s)) s).

Definition slotRange (n : Z) : list Z := map Z.of_nat (seq 0 (Z.to_nat n)).

(** The code of the body, in a module of its own with a scope of its own. *)
Definition compileBody (fixedArity : Z) (names : gmap bytes Z) (r : restParams) (body : list obj)
    : C Z :=
  _ ← modify (fun st => set_scopes
        (mkScope names fixedArity fixedArity [] [] 0 :: scopes_ st) st);
  _ ← bindRest r;
  paramEnd ← gets (withInnermost 0 nextSlot);
  _ ← (match r with RestKeys keys _ => compileDefaults fixedArity keys | _ => mret tt end);
  start ← here;
  _ ← pushRecur (mkTarget start (slotRange fixedArity) 0);
  _ ← compileDo body;
  _ ← emit RETURN 0;
  _ ← popRecur;
  _ ← modify (fun st => withInnermost st (fun s =>
        set_scopes (tail (scopes_ st))
          (set_out (set_locals (nextSlot s - scopeArity s) (captures s) (out st)) st)) st);
  mret paramEnd.

(** [m], writing to a module of its own, which it answers. *)
Definition inModule (start : module) (m : C Z) (finish : Z -> module -> module) : C module := fun st =>
  match m (set_out start st) with
  | Ok (a, st') => Ok (finish a (out st'), set_out (out st) st')
  | Throw e => Throw e
  end.

Definition compileArity (params body : list obj) : C module :=
  '(params, body) ← plainArity params body;
  '(fixed, r) ← splitParams params;
  let fixedArity := Z.of_nat (length fixed) in
  names ← bindFixed 0 fixed ∅;
  inModule (set_signature fixedArity (isVariadicRest r) (isKwRest r) newModule)
    (compileBody fixedArity names r body) (clearLastReads fixedArity).

Definition paramItems (form : obj) : option (list obj) :=
  if isVector form || isList form then Some (sequenceItems form) else None.

(** [(fn name? [params] body...)], [(defn name [params] body...)] *)
Definition compileFnBody (lst : list obj) : C module :=
  let headName := nameOf (getAt lst 0) in
  let headName := default headName (stripCoreQualifier headName) in
  let isFn := bool_decide (headName = s2b "fn") || bool_decide (headName = s2b "fn*") in
  if negb isFn && negb (bool_decide (headName = s2b "defn"))
  then fail (s2b "compileFnBody: head must be `fn` or `defn`")
  else
    let paramsAt := if isFn then 1%nat else 2%nat in
    if (length lst <=? paramsAt)%nat then fail (s2b "fn/defn: missing parameter vector")
    else
      let named := isFn && isNameForm (getAt lst paramsAt) in
      let paramsAt := if named then S paramsAt else paramsAt in
      if named && (length lst <=? paramsAt)%nat
      then fail (s2b "fn: missing parameter vector after name")
      else match paramItems (getAt lst paramsAt) with
           | None => fail (s2b "fn/defn: parameter list must be a vector")
           | Some params => compileArity params (drop (S paramsAt) lst)
           end.

Definition addBlock (m : module) : C Z := fun st =>
  let '(i, o) := Bytecode.addBlock m (out st) in Ok (i, set_out o st).

(** The captures of a block, from the enclosing frame. *)
Fixpoint pushCaptures (cs : list CaptureSpec) : C unit :=
  match cs with
  | [] => mret tt
  | c :: cs => _ ← emit PUSH_LOCAL (parentSlot c); pushCaptures cs
  end.

Definition blockCaptures (i : Z) : C (list CaptureSpec) :=
  gets (fun st => match blocks_ (out st) !! Z.to_nat i with Some b => captureSpecs_ b | None => [] end).

Fixpoint pushAllCaptures (blocks : list Z) : C unit :=
  match blocks with
  | [] => mret tt
  | b :: blocks => cs ← blockCaptures b; _ ← pushCaptures cs; pushAllCaptures blocks
  end.

Fixpoint compileArities (forms : list obj) : C (list Z) :=
  match forms with
  | [] => mret []
  | aobj :: forms =>
      if negb (isList aobj) then fail (s2b "multi-arity: each arity must be a list")
      else match sequenceItems aobj with
           | [] => fail (s2b "multi-arity: arity missing params")
           | paramsForm :: body =>
               match paramItems paramsForm with
               | None => fail (s2b "multi-arity: params must be a vector")
               | Some params =>
                   m ← compileArity params body;
                   b ← addBlock m;
                   bs ← compileArities forms;
                   mret (b :: bs)
               end
           end
  end.

Definition isMultiArity (first : obj) : bool :=
  isList first && match sequenceItems first with p :: _ => isVector p | [] => false end.

(** What the docstring and the attributes of a [defn] take: the forms after its name. *)
Definition defnSkip (lst : list obj) : nat :=
  if (3 <? length lst)%nat then
    let skip := if isStringForm (getAt lst 2) then 3%nat else 2%nat in
    if (skip <? length lst - 1)%nat && isMap (getAt lst skip) then S skip else skip
  else 2.

Definition compileFnForm (lst : list obj) (head : obj) (isFn : bool) : C unit :=
  let skip := defnSkip lst in
  if negb isFn && (2 <? skip)%nat then
    form ← listForm (head :: getAt lst 1 :: drop skip lst); compileForm form
  else
    let aritiesStart := if isFn then 1%nat else 2%nat in
    if (length lst <=? aritiesStart)%nat then fail (s2b "fn/defn: missing parameter vector")
    else if negb isFn && negb (isNameForm (getAt lst 1)) then fail (s2b "defn: name must be a symbol")
    else
      _ ← (if isMultiArity (getAt lst aritiesStart) then
             blocks ← compileArities (drop aritiesStart lst);
             _ ← pushAllCaptures blocks;
             group ← (fun st => let '(g, o) := addArityGroup blocks (out st) in Ok (g, set_out o st));
             emit_ MAKE_FN_MULTI group
           else
             m ← compileFnBody lst;
             b ← addBlock m;
             cs ← blockCaptures b;
             _ ← pushCaptures cs;
             emit_ MAKE_FN b);
      if isFn then mret tt
      else emitStoreGlobal (default [] (globalKeyForSymbol (nameOf (getAt lst 1)))).

(** The body of a function of no arguments called on the spot: how a top-level form
    that needs local slots runs. *)
Definition compileAsThunk (form : obj) : C unit :=
  _ ← listForm [sym "fn"; form];
  m ← compileArity [] [form];
  b ← addBlock m;
  _ ← emit MAKE_FN b;
  emit_ CALL 0.

(** *** [let] and [loop] *)

(** The values of the bindings stored in slots of their own; what the names named
    before, and the slots. *)
Fixpoint bindAll (what : bytes) (bindings : list obj) : C (list (bytes * option Z) * list Z) :=
  match bindings with
  | nameForm :: valForm :: bindings =>
      if negb (isNameForm nameForm) then fail (what ++ s2b ": binding name must be a symbol")
      else if isQualifiedName (nameOf nameForm)
      then fail (s2b "Can't let qualified name: " ++ nameOf nameForm)
      else
        _ ← compileForm valForm;
        names ← namesOf;
        slot ← newSlot;
        _ ← bindName (nameOf nameForm) slot;
        _ ← emit STORE_LOCAL slot;
        rest ← bindAll what bindings;
        mret ((nameOf nameForm, names !! nameOf nameForm) :: rest.1, slot :: rest.2)
  | _ => mret ([], [])
  end.

(** The binding forms of a [let] or a [loop]. *)
Definition bindingItems (what : bytes) (lst : list obj) : C (list obj) :=
  if (length lst <? 2)%nat then fail (what ++ s2b ": expects bindings vector")
  else match paramItems (getAt lst 1) with
       | None => fail (what ++ s2b ": bindings must be a vector")
       | Some items =>
           if negb (Nat.even (length items))
           then fail (what ++ s2b ": bindings must come in name/value pairs")
           else mret items
       end.

(** The top level has no local slots. *)
Definition atTop : C bool := gets (withInnermost true (fun _ => false)).

Definition compileLetForm (form : obj) (lst : list obj) (head : obj) : C unit :=
  top ← atTop;
  if top : bool then compileAsThunk form
  else
    bindings ← bindingItems (s2b "let") lst;
    flat ← destructureBindings stack bindings;
    match flat with
    | Some flat => form ← listForm (head :: flat :: drop 2 lst); compileForm form
    | None =>
        saved ← bindAll (s2b "let") bindings;
        _ ← compileDo (drop 2 lst);
        restoreNames saved.1
    end.

(** The bindings around a [loop] with patterns: the outer [let]'s, the loop's, and
    those of the [let] around its body. *)
Fixpoint loopBindings (bindings : list obj) : C (list obj * list obj * list obj) :=
  match bindings with
  | b :: v :: bindings =>
      let isSym := isNameForm b in
      g ← (if isSym then mret b else freshSymbol (s2b "p__"));
      '(outer, loopBs, inner) ← loopBindings bindings;
      mret (g :: v :: (if isSym then [] else [b; g]) ++ outer,
            g :: g :: loopBs,
            (if isSym then [] else [b; g]) ++ inner)
  | _ => mret ([], [], [])
  end.

Definition compileLoopForm (form : obj) (lst : list obj) (head : obj) : C unit :=
  top ← atTop;
  if top : bool then compileAsThunk form
  else
    bindings ← bindingItems (s2b "loop") lst;
    if negb (simpleBindings bindings) then
      '(outer, loopBs, inner) ← loopBindings bindings;
      innerVec ← vectorForm inner;
      loopVec ← vectorForm loopBs;
      innerLet ← listForm (sym "let" :: innerVec :: drop 2 lst);
      loopForm ← listForm [head; loopVec; innerLet];
      outerVec ← vectorForm outer;
      outerLet ← listForm [sym "let"; outerVec; loopForm];
      compileForm outerLet
    else
      saved ← bindAll (s2b "loop") bindings;
      start ← here;
      depth ← gets (withInnermost 0 tryDepth);
      _ ← pushRecur (mkTarget start saved.2 depth);
      _ ← compileDo (drop 2 lst);
      _ ← popRecur;
      restoreNames saved.1.

(** *** [recur] *)

Fixpoint storeSlots (slots : list Z) : C unit :=
  match slots with
  | [] => mret tt
  | slot :: slots => _ ← storeSlots slots; emit_ STORE_LOCAL slot
  end.

Definition compileRecur (args : list obj) : C unit :=
  target ← gets (withInnermost None (fun s => head (recurStack s)));
  depth ← gets (withInnermost 0 tryDepth);
  match target with
  | None => fail (s2b "recur: no enclosing loop in current scope")
  | Some tgt =>
      if negb (targetTryDepth tgt =? depth) then fail (s2b "Cannot recur across try")
      else if negb (length args =? length (slots tgt))%nat
      then fail (s2b "recur: arity mismatch with enclosing loop")
      else
        _ ← compileAll args;
        _ ← storeSlots (slots tgt);
        jbAt ← emit JUMP_BACK 0;
        patchOperand jbAt (jbAt + 1 - bodyStart tgt)
  end.

(** *** [try] *)

Record CatchClause := mkClause {
  clauseClassId : Z; clauseClass : bytes; clauseBinding : bytes; clauseBody : list obj }.

Record tryParts := mkParts {
  tryBody : list obj; catches : list CatchClause; finallyForms : option (list obj) }.

Fixpoint splitTry (forms : list obj) (t : tryParts) : C tryParts :=
  match forms with
  | [] => mret t
  | f :: forms =>
      let fl := if isList f then sequenceItems f else [] in
      let clause := nameOf (getAt fl 0) in
      match finallyForms t with
      | Some _ => fail (s2b "finally clause must be last in try expression")
      | None =>
          if bool_decide (clause = s2b "catch") then
            if (length fl <? 3)%nat || negb (isNameForm (getAt fl 1)) || negb (isNameForm (getAt fl 2))
            then fail (s2b "catch: expects (catch ClassName binding body...)")
            else
              let class := nameOf (getAt fl 1) in
              let classId :=
                if bool_decide (class = s2b "Object") || bool_decide (class = s2b "java.lang.Object")
                then kThrowableClassId else exceptionClassId class in
              splitTry forms (mkParts (tryBody t)
                (catches t ++ [mkClause classId class (nameOf (getAt fl 2)) (drop 3 fl)]) None)
          else if bool_decide (clause = s2b "finally") then
            splitTry forms (mkParts (tryBody t) (catches t) (Some (tail fl)))
          else
            match catches t with
            | _ :: _ => fail (s2b "Only catch or finally clause can follow catch in try expression")
            | [] => splitTry forms (mkParts (tryBody t ++ [f]) [] None)
            end
      end
  end.

(** The type a catch clause names, when it is no built-in class. *)
Definition compileCatchType (qualified : bytes) : C unit :=
  let name := if isUserQualified qualified then drop (length kUser) qualified else qualified in
  let resolved := (i ← symbolConst name; emit_ RESOLVE_CLASS i) in
  slot ← resolveLocal name;
  match slot with
  | Some slot => emit_ PUSH_LOCAL slot
  | None =>
      if isQualifiedName name then
        let slash := default O (findSlash name) in
        slot ← resolveLocal (take slash name);
        match slot with
        | Some slot =>
            _ ← emit PUSH_LOCAL slot;
            i ← symbolConst (drop (S slash) name);
            emit_ GET_MEMBER i
        | None => resolved
        end
      else resolved
  end.

(** The clauses, the exception in slot [exSlot]; the positions of the jumps to
    the end. *)
Fixpoint compileClauses (exSlot : Z) (cs : list CatchClause) : C (list Z) :=
  match cs with
  | [] => mret []
  | c :: cs =>
      _ ← emit PUSH_LOCAL exSlot;
      _ ← (if 0 <=? clauseClassId c then emit_ EXC_MATCH (clauseClassId c)
           else
             _ ← compileCatchType (clauseClass c);
             i ← symbolConst (clauseClass c);
             emit_ EXC_MATCH_TYPE i);
      nextAt ← emit JUMP_IF_FALSE 0;
      names ← namesOf;
      _ ← bindName (clauseBinding c) exSlot;
      _ ← compileDo (clauseBody c);
      _ ← restoreName (clauseBinding c, names !! clauseBinding c);
      doneAt ← emit JUMP 0;
      next ← here;
      _ ← patchTo nextAt next;
      rest ← compileClauses exSlot cs;
      mret (doneAt :: rest)
  end.

Fixpoint patchAll (ats : list Z) (target : Z) : C unit :=
  match ats with
  | [] => mret tt
  | at_ :: ats => _ ← patchTo at_ target; patchAll ats target
  end.

Definition compileCatches (body : list obj) (cs : list CatchClause) : C unit :=
  match cs with
  | [] => compileDo body
  | _ =>
      catchBeginAt ← emit TRY_BEGIN 0;
      _ ← compileDo body;
      _ ← emit TRY_END 0;
      bodyDoneAt ← emit JUMP 0;
      handler ← here;
      _ ← patchTo catchBeginAt handler;
      exSlot ← newSlot;
      _ ← emit STORE_CAUGHT exSlot;
      doneJumps ← compileClauses exSlot cs;
      _ ← emit RETHROW exSlot;
      done ← here;
      patchAll (bodyDoneAt :: doneJumps) done
  end.

(** The finally forms are compiled twice, once per path. *)
Definition compileFinally (inner : C unit) (finally : option (list obj)) : C unit :=
  match finally with
  | None => inner
  | Some forms =>
      finallyBeginAt ← emit TRY_BEGIN 0;
      _ ← inner;
      _ ← emit TRY_END 0;
      _ ← compileEffects forms;
      endAt ← emit JUMP 0;
      handler ← here;
      _ ← patchTo finallyBeginAt handler;
      fxSlot ← newSlot;
      _ ← emit STORE_CAUGHT fxSlot;
      _ ← compileEffects forms;
      _ ← emit RETHROW fxSlot;
      end_ ← here;
      patchTo endAt end_
  end.

Definition addTryDepth (d : Z) : C unit := modifyInnermost (fun s => set_tryDepth (tryDepth s + d) s).

Definition compileTry (form : obj) (lst : list obj) : C unit :=
  top ← atTop;
  if top : bool then compileAsThunk form
  else
    t ← splitTry (tail lst) (mkParts [] [] None);
    _ ← addTryDepth 1;
    _ ← compileFinally (compileCatches (tryBody t) (catches t)) (finallyForms t);
    addTryDepth (-1).

(** *** [defmacro] *)

(** Every arity gains the hidden parameters [&form] and [&env]. *)
Definition withHidden (params : obj) : C obj :=
  if isVector params then vectorForm (sym "&form" :: sym "&env" :: sequenceItems params)
  else fail (s2b "defmacro: parameter list must be a vector").

Fixpoint hiddenArities (arities : list obj) : C (list obj) :=
  match arities with
  | [] => mret []
  | arity :: rest =>
      match (if isList arity then sequenceItems arity else []) with
      | [] =>
          match rest with
          | [] => if isMap arity then mret []  (* a trailing attribute map *)
                  else fail (s2b "defmacro: each arity must be a list ([params] body...)")
          | _ => fail (s2b "defmacro: each arity must be a list ([params] body...)")
          end
      | params :: body =>
          params ← withHidden params;
          arity ← listForm (params :: body);
          rest ← hiddenArities rest;
          mret (arity :: rest)
      end
  end.

Definition compileDefmacro (lst : list obj) : C unit :=
  if (length lst <? 3)%nat then fail (s2b "defmacro: expects (defmacro name [params] body...)")
  else match (if isNameForm (getAt lst 1) then globalKeyForSymbol (nameOf (getAt lst 1)) else None) with
  | None => fail (s2b "defmacro: name must be a symbol")
  | Some key =>
      let n := length lst in
      let i := if isStringForm (getAt lst 2) && (3 <? n)%nat then 3%nat else 2%nat in
      let i := if (i <? n)%nat && isMap (getAt lst i) then S i else i in
      if (n <=? i)%nat then fail (s2b "defmacro: missing parameter vector")
      else
        fnForm ← (if isVector (getAt lst i) then
                    params ← withHidden (getAt lst i);
                    listForm (sym "fn" :: params :: drop (S i) lst)
                  else
                    arities ← hiddenArities (drop i lst);
                    listForm (sym "fn" :: arities));
        var ← symbolConst (s2b "__macro__");
        _ ← emit PUSH_VAR var;
        _ ← compileForm fnForm;
        _ ← emit CALL 1;
        emitStoreGlobal key
  end.

(** *** Calls *)

Definition compileMacroCall (form macro : obj) (name : bytes) : C unit :=
  env ← localEnv;
  expansion ← expand macro name form env;
  compileForm expansion.

(** A value pushed from the constant pool. *)
Definition pushConst (add : ConstPool (obj := Z) -> nat * ConstPool) : C unit :=
  i ← constant add; emit_ PUSH_CONST i.

Definition pushVar (name : bytes) : C unit := i ← symbolConst name; emit_ PUSH_VAR i.

Definition pushDatum (v : obj) : C unit := pushConst (addDatum (address v)).

(** An integer beyond [long long] is kept by its digits. *)
Definition addIntegerConst (z : Z) : ConstPool (obj := Z) -> nat * ConstPool :=
  if fits_llong z then addLong z else addBigInteger (to_string z).

(** The receiver [a] of [a/b]. *)
Definition compileQualifiedPrefix (name : bytes) : C unit :=
  let prefix := take (default O (findSlash name)) name in
  slot ← resolveLocal prefix;
  match slot with
  | Some slot => emit_ PUSH_LOCAL slot
  | None => pushVar prefix
  end.

Definition memberName (name : bytes) : bytes := drop (S (default O (findSlash name))) name.

Definition operatorOf (name : bytes) : option Op :=
  snd <$> find (fun e => bool_decide (name = s2b e.1))
    [("+", ADD); ("-", SUB); ("*", MUL); ("<", LT); ("<=", LE); (">", GT); (">=", GE); ("=", EQ)]%string.

Definition isCompare (op : Op) : bool :=
  match op with LT | LE | GT | GE | EQ => true | _ => false end.

(** The global still holds the built-in. *)
Definition isBuiltin (name : bytes) : C bool := gets (fun st =>
  let g := globals (program st) in
  bool_decide ((address <$> (g !! name)) = (address <$> (g !! (kCore ++ name))))).

(** The instruction for a call of an operator, or none: a local of that name, or a
    redefined global, is called. *)
Definition operatorFor (headName : bytes) (coreQualified : bool) : C (option Op) :=
  match operatorOf headName with
  | None => mret None
  | Some op =>
      if coreQualified then mret (Some op)
      else
        shadow ← resolveLocal headName;
        match shadow with
        | Some _ => mret None
        | None =>
            builtin ← (if hasCallContext then isBuiltin headName else mret true);
            mret (if builtin : bool then Some op else None)
        end
  end.

(** The operands folded from the left. *)
Fixpoint compileOperands (op : Op) (operand : Z) (args : list obj) : C unit :=
  match args with
  | [] => mret tt
  | a :: args => _ ← compileForm a; _ ← emit op operand; compileOperands op operand args
  end.

(** The arguments and the call. A keyword before the last argument announces
    keyword arguments. *)
Definition compileCall (args : list obj) : C unit :=
  let n := length args in
  let hasKvSuffix := (2 <=? n)%nat && isKeywordForm (getAt args (n - 2)) in
  _ ← compileAll args;
  emit_ (if hasKvSuffix then CALL_KW else CALL) (Z.of_nat n).

Definition compileNamedCall (head : obj) (headName : bytes) (coreQualified : bool) (args : list obj)
    : C unit :=
  op ← operatorFor headName coreQualified;
  match op, args with
  | Some op, a :: b :: rest =>
      if isCompare op && negb (match rest with [] => true | _ => false end)
      then _ ← (if coreQualified then pushVar (kCore ++ headName) else pushVar headName);
           compileCall args
      else _ ← compileForm a; compileOperands op (if coreQualified then 1 else 0) (b :: rest)
  | _, _ =>
      if coreQualified then _ ← pushVar (kCore ++ headName); compileCall args
      else if isUserQualified headName then
        _ ← pushVar (drop (length kUser) headName); compileCall args
      else if startsColon headName then _ ← compileForm head; compileCall args
      else
        slot ← resolveLocal headName;
        match slot with
        | Some slot => _ ← emit PUSH_LOCAL slot; compileCall args
        | None =>
            if isQualifiedName headName then
              _ ← compileQualifiedPrefix headName;
              _ ← compileAll args;
              _ ← emit CALL_MEMBER (Z.of_nat (length args));
              i ← symbolConst (memberName headName);
              emit_ NOP i
            else _ ← pushVar headName; compileCall args
        end
  end.

(** *** The special forms that jump forward *)

Definition isLiteralTrue (test : obj) : bool :=
  same test PROTO_TRUE || isKeywordForm test || isStringForm test || isInteger test || isFloat test.

Definition isLiteralFalse (test : obj) : bool := same test PROTO_NONE || same test PROTO_FALSE.

(** The form at [i], or nil when there is none. *)
Definition compileElse (lst : list obj) (i : nat) : C unit :=
  match lst !! i with Some f => compileForm f | None => emit_ PUSH_NIL 0 end.

Definition compileIf (lst : list obj) : C unit :=
  let n := length lst in
  if negb ((n =? 3)%nat || (n =? 4)%nat)
  then fail (s2b "if: expects (if test then) or (if test then else)")
  else
    let test := getAt lst 1 in
    if isLiteralTrue test then compileForm (getAt lst 2)
    else if isLiteralFalse test then compileElse lst 3
    else
      _ ← compileForm test;
      jifAt ← emit JUMP_IF_FALSE 0;
      _ ← compileForm (getAt lst 2);
      jmpAt ← emit JUMP 0;
      elseStart ← here;
      _ ← patchTo jifAt elseStart;
      _ ← compileElse lst 3;
      afterElse ← here;
      patchTo jmpAt afterElse.

(** The forms of an [and] or an [or]; the positions of the jumps to the end. *)
Fixpoint compileChain (jump : Op) (forms : list obj) : C (list Z) :=
  match forms with
  | [] => mret []
  | [f] => _ ← compileForm f; mret []
  | f :: forms =>
      _ ← compileForm f;
      _ ← emit DUP 0;
      at_ ← emit jump 0;
      _ ← emit POP 0;
      ats ← compileChain jump forms;
      mret (at_ :: ats)
  end.

Definition compileLogic (jump empty : Op) (forms : list obj) : C unit :=
  match forms with
  | [] => emit_ empty 0
  | _ => ats ← compileChain jump forms; end_ ← here; patchAll ats end_
  end.

(** *** Lists *)

Definition isLiteral (form : obj) : bool :=
  same form PROTO_NONE || same form PROTO_TRUE || same form PROTO_FALSE || isStringForm form ||
  isInteger form || isFloat form.

Definition compileDef (lst : list obj) : C unit :=
  if negb (length lst =? 3)%nat then fail (s2b "def: expects (def name expr)")
  else match (if isNameForm (getAt lst 1) then globalKeyForSymbol (nameOf (getAt lst 1)) else None) with
       | None => fail (s2b "def: name must be a symbol")
       | Some key => _ ← compileForm (getAt lst 2); emitStoreGlobal key
       end.

Definition compileQuote (lst : list obj) : C unit :=
  if negb (length lst =? 2)%nat then fail (s2b "quote: expects (quote form)")
  else
    let q := getAt lst 1 in
    if isNameForm q then pushConst (addNamed (nameOf q) (address q))
    else if isLiteral q then compileForm q
    else pushDatum q.

Definition compileApply (lst : list obj) : C unit :=
  let n := length lst in
  if (n <? 3)%nat then fail (s2b "apply: expects (apply f args* coll)")
  else
    _ ← compileForm (getAt lst 1);
    _ ← (if (n =? 3)%nat then compileForm (getAt lst 2)
         else
           _ ← pushVar (s2b "clojure.core/list*");
           _ ← compileAll (drop 2 lst);
           emit_ CALL (Z.of_nat n - 2));
    emit_ CALL_APPLY 0.

Definition compileThrow (lst : list obj) : C unit :=
  if negb (length lst =? 2)%nat
  then fail (s2b "Too many arguments to throw, throw expects a single exception")
  else _ ← compileForm (getAt lst 1); emit_ THROW 0.

(** The head of a list form: its name, a library function as the built-in it is,
    without its qualifier; whether it was [clojure.core/]'s. *)
Definition headOf (head : obj) : C (bytes * bool) :=
  headName ← aliasLibraryNamespace (nameOf head);
  let '(headName, coreQualified) :=
    match stripCoreQualifier headName with Some n => (n, true) | None => (headName, false) end in
  mret (if bool_decide (headName = s2b "fn*") then s2b "fn" else headName, coreQualified).

Definition compileSpecial (form : obj) (lst : list obj) (head : obj) (headName : bytes)
    (coreQualified : bool) : C unit :=
  let named s := bool_decide (headName = s2b s) in
  if named "defmacro"%string then compileDefmacro lst
  else if named "def"%string then compileDef lst
  else if named "if"%string then compileIf lst
  else if named "and"%string then compileLogic JUMP_IF_FALSE PUSH_TRUE (tail lst)
  else if named "or"%string then compileLogic JUMP_IF_TRUE PUSH_NIL (tail lst)
  else if named "do"%string then compileDo (tail lst)
  else if named "quote"%string then compileQuote lst
  else if coreQualified && named "unquote"%string
  then fail (s2b "unquote (~) used outside a syntax-quote (`)")
  else if coreQualified && named "unquote-splicing"%string
  then fail (s2b "unquote-splicing (~@) used outside a syntax-quote (`)")
  else if named "fn"%string then compileFnForm lst head true
  else if named "defn"%string then compileFnForm lst head false
  else if named "let"%string then compileLetForm form lst head
  else if named "loop"%string then compileLoopForm form lst head
  else if named "try"%string then compileTry form lst
  else if named "throw"%string then compileThrow lst
  else if named "apply"%string then compileApply lst
  else if named "recur"%string then compileRecur (tail lst)
  else if isNameForm head then compileNamedCall head headName coreQualified (tail lst)
  else _ ← compileForm head; compileCall (tail lst).

Definition compileListForm (form : obj) (lst : list obj) : C unit :=
  match lst with
  | [] => pushDatum emptyListValue
  | head :: _ =>
      '(headName, coreQualified) ← headOf head;
      macro ← gets (macroForHead head);
      match macro with
      | Some (name, macro) => compileMacroCall form macro name
      | None => compileSpecial form lst head headName coreQualified
      end
  end.

(** *** Names *)

(** A symbol of a macro is no value. *)
Definition refuseMacro (key name : bytes) : C unit :=
  macro ← gets (fun st => if hasCallContext then globalMacro key (program st) else None);
  match macro with
  | Some _ => fail (s2b "Can't take value of a macro: " ++ name)
  | None => mret tt
  end.

Definition compileName (form : obj) (written : bytes) : C unit :=
  name ← aliasLibraryNamespace written;
  if startsColon name then pushConst (addNamed name (address form))
  else match stripCoreQualifier name with
  | Some bare =>
      if isSpecialFormName bare || bool_decide (bare = s2b "unquote") ||
         bool_decide (bare = s2b "unquote-splicing")
      then fail (s2b "Can't take value of a special form: " ++ bare)
      else _ ← refuseMacro name name; pushVar name
  | None =>
      if isUserQualified name then
        let bare := drop (length kUser) name in
        _ ← refuseMacro bare name; pushVar bare
      else
        slot ← resolveLocal name;
        match slot with
        | Some slot => emit_ PUSH_LOCAL slot
        | None =>
            _ ← (match globalKeyForSymbol name with
                 | Some key => refuseMacro key name
                 | None => mret tt
                 end);
            if isQualifiedName name then
              _ ← compileQualifiedPrefix name;
              i ← symbolConst (memberName name);
              emit_ GET_MEMBER i
            else pushVar name
        end
  end.

Definition compileSet (form : obj) (elems : list obj) : C unit :=
  if forallb (fun e => isLiteral e || isKeywordForm e) elems then pushDatum form
  else
    _ ← pushVar (s2b "clojure.core/hash-set");
    _ ← compileAll elems;
    emit_ CALL (Z.of_nat (length elems)).

(** A collection literal: a call of the function that builds it. *)
Definition compileLiteral (builder : bytes) (items : list obj) : C unit :=
  _ ← pushVar builder;
  _ ← compileAll items;
  emit_ CALL (Z.of_nat (length items)).

Definition compileAtom (form : obj) : C unit :=
  if same form PROTO_NONE then emit_ PUSH_NIL 0
  else if same form PROTO_TRUE then emit_ PUSH_TRUE 0
  else if same form PROTO_FALSE then emit_ PUSH_FALSE 0
  else match integerOf form with
  | Some z => pushConst (addIntegerConst z)
  | None =>
      match form with
      | Dbl _ bits => pushConst (addDouble bits)
      | LList _ items | SeqObj _ items => compileListForm form items
      | MapObj _ _ => compileLiteral (s2b "hash-map") (mapFormEntries form)
      | Vec _ items => compileLiteral (s2b "vector") items
      | SetObj _ es => compileSet form (map fst es)
      | Pattern _ _ => pushDatum form
      | Str _ text => pushConst (addString text)
      | Named _ s => compileName form s
      | _ => fail (s2b "compile: unsupported form")
      end
  end.

End Forms.

Fixpoint compileForm (stack : nat) (form : obj) : C unit :=
  match stack with
  | O => fun _ => Throw (StackOverflow stackOverflow)
  | S stack => compileAtom (compileForm stack) stack form
  end.

(** ** Top-level forms *)

(** A top-level form expanded while it is a macro call, in a fresh compiler. *)
Fixpoint macroexpandTopLevel (stack : nat) (form : obj) : C obj :=
  match stack with
  | O => fun _ => Throw (StackOverflow stackOverflow)
  | S stack =>
      form ← (match form with SeqObj _ items => listForm items | _ => mret form end);
      match form with
      | LList _ (head :: _) =>
          macro ← gets (macroForHead head);
          match macro with
          | Some (name, macro) =>
              expansion ← expand macro name form PROTO_NONE;
              macroexpandTopLevel stack expansion
          | None => mret form
          end
      | _ => mret form
      end
  end.

Definition newState (w : runtime) : cstate := mkState [] newModule w.

(** The module of a top-level form ([evalTopLevel]): the form's code and a RETURN. *)
Definition compileTop (stack : nat) (form : obj) (w : runtime)
    : result compileError (module * runtime) :=
  match (_ ← compileForm stack form; emit_ RETURN 0) (newState w) with
  | Ok (_, st) => Ok (out st, program st)
  | Throw e => Throw e
  end.

End Compiler.
