(* ===== verification/DemoCompiler.v ===== *)
(** A concrete environment for the compiler, on which the examples of the files that
    follow evaluate: the forms come from the reader, and one macro, [when], is a
    global. *)

From S2P Require Import Prelude Bytecode Maps Printer Macros Values Compiler Reader DemoReader KeyEquality.

Module Demo.
Import ListMaps DemoReader.Demo.

(** [(when test form ...)] is [(if test (do form ...))]. *)
Definition whenMacro : obj := Cell 1024 CFn [].

Definition demoInvoke (fn : obj) (args : list obj) (w : runtime) : runtime * result bytes obj :=
  match args with
  | _ :: _ :: test :: forms =>
      (w, Ok (LList (heapTop w)
                [internNamed (s2b "if"); test; LList (heapTop w + 64) (internNamed (s2b "do") :: forms)]))
  | _ => (w, Throw (s2b "ArityException: Wrong number of args (0) passed to: when"))
  end.

#[export] Instance demoCompiler : CompilerEnv := {
  ce_platform := demoPlatform;
  ce_maps := listMaps;
  ce_printer := demoPrinter;
  createSymbol := fun s => 2 ^ 70 + fold_left (fun h c => h * 257 + u8 c + 1) s 0;
  isMacroFn := fun v => same v whenMacro;
  acceptsArgCount := fun _ n => (2 <=? n)%nat;
  invoke := demoInvoke;
  hasEngine := true;
  coreNamespaceActive := false;
  stackOverflow := s2b "StackOverflowError: forms nested too deeply";
}.

Definition demoProgram : runtime :=
  defineBuiltin (s2b "when") whenMacro (mkRuntime ∅ ∅ 0 65536).

(** The first form of a source, compiled. *)
Definition demoCompile (source : string) : result compileError module :=
  match fst (readOne demoConfig 20 (demoReader (s2b source))) with
  | Ok (Some form) => r ← compileTop None 40 form demoProgram; Ok r.1
  | _ => Throw (CompileError [])
  end.


(** The instructions of a module. *)
Definition instructions (m : module) : list (option Op * Z) :=
  map (fun w => (instrOp w, instrOperand w)) (code_ m).


End Demo.
