(* ===== verification/CodeSegments.v ===== *)
(** Segments of bytecode: a stretch of a body's code, a stack depth for each of its
    instructions, and where it leads. The compiler emits code by segments, each at
    the end of what is there; a forward jump is emitted first and retargeted when
    its target is known. *)

From S2P Require Import Prelude Bytecode Exceptions ExecutionEngine FrameStack Compiler.

#[local] Set Warnings "-register-all".

(** ** Instructions of a body *)

Definition symbolAt (m : module) (i : Z) : Prop :=
  exists c, consts_ (pool_ m) !! Z.to_nat i = Some c /\ ckind c = Symbol.

Definition blockAt (m : module) (i : Z) : Prop := 0 <= i < Z.of_nat (length (blocks_ m)).

(** The operand names something: a constant of the pool, of the kind the instruction
    takes, a slot of the [n] of the frame, a block, a group of blocks, a class. *)
Definition operand_ok (m : module) (n : Z) (op : Op) (operand : Z) : Prop :=
  match op with
  | PUSH_CONST => 0 <= operand < Z.of_nat (length (consts_ (pool_ m)))
  | PUSH_VAR | STORE_GLOBAL | RESOLVE_CLASS | GET_MEMBER | EXC_MATCH_TYPE | NOP => symbolAt m operand
  | PUSH_LOCAL | PUSH_LOCAL_CLEAR | STORE_LOCAL | STORE_CAUGHT | RETHROW => 0 <= operand < n
  | MAKE_FN => blockAt m operand
  | MAKE_FN_MULTI => exists bs, arityGroups_ m !! Z.to_nat operand = Some bs /\ Forall (blockAt m) bs
  | EXC_MATCH => validClass operand = true
  | _ => True
  end.

(** The instruction at [i] is one, its operand names something, it finds the values
    it takes on a stack of depth [d], and each place it goes on at, but for a
    backward jump's, is one [lands] accepts at the depth it leaves. *)
Definition instr_ok (m : module) (n : Z) (lands : Z -> Z -> Prop) (i word d : Z) : Prop :=
  0 <= word /\ 0 <= d /\ exists op, instrOp word = Some op /\
    let operand := instrOperand word in
    operand_ok m n op operand /\ needs m op operand <= d /\
    (op = JUMP_BACK -> operand <= i + 1) /\
    (op <> JUMP_BACK -> Forall (fun '(t, x) => lands t x) (flowOf m op operand (i + 1) d).1) /\
    (forall a, (flowOf m op operand (i + 1) d).2 = Some a -> lands (i + 1) a).

(** ** Segments

    [T] are the depths of the instructions from position [s] on: where they cover
    [t] its depth is theirs, and beyond them it is one [X] accepts. *)
Definition lands (s : Z) (T : list Z) (X : Z -> Z -> Prop) (t d : Z) : Prop :=
  if t <? s + Z.of_nat (length T) then s <= t /\ T !! Z.to_nat (t - s) = Some d else X t d.

Record segment (m : module) (n s : Z) (w T : list Z) (X : Z -> Z -> Prop) : Prop := {
  segment_length : length T = length w;
  segment_instr k word d : w !! k = Some word -> T !! k = Some d ->
    instr_ok m n (lands s T X) (s + Z.of_nat k) word d;
  segment_data k word : w !! k = Some word -> instrOp word = Some CALL_MEMBER ->
    exists data, w !! S k = Some data /\ instrOp data = Some NOP;
}.

(** *** The module and the frame may grow *)

Record grows (m m' : module) : Prop := {
  grows_consts : consts_ (pool_ m) `prefix_of` consts_ (pool_ m');
  grows_blocks : blocks_ m `prefix_of` blocks_ m';
  grows_groups : arityGroups_ m `prefix_of` arityGroups_ m';
}.

#[export] Instance grows_preorder : PreOrder grows.
Proof.
  split; [by split|]. intros a b c [? ? ?] [? ? ?]. split; by etrans.
Qed.

Lemma grown_symbol m m' i : grows m m' -> symbolAt m i -> symbolAt m' i.
Proof. intros [Hc _ _] (c & E & Hk). exists c. split; [|done]. by eapply prefix_lookup_Some. Qed.

Lemma grows_block m m' b : grows m m' -> blockAt m b -> blockAt m' b.
Proof. intros [_ Hb _] ?. apply prefix_length in Hb. unfold blockAt in *. lia. Qed.

Lemma grows_captures m m' b : grows m m' -> blockAt m b -> captureCountAt m' b = captureCountAt m b.
Proof.
  intros [_ Hb _] Hi. unfold captureCountAt.
  destruct (lookup_lt_is_Some_2 (blocks_ m) (Z.to_nat b)) as [sub E]; [unfold blockAt in Hi; lia|].
  by rewrite E, (prefix_lookup_Some _ _ _ _ E Hb).
Qed.

Lemma fold_captures m m' bs a : grows m m' -> Forall (blockAt m) bs ->
  fold_left (fun caps b => caps + captureCountAt m' b) bs a =
  fold_left (fun caps b => caps + captureCountAt m b) bs a.
Proof.
  intros Hg Hb. revert a. induction Hb as [|b bs Hb _ IH]; intros a; cbn; [done|].
  by rewrite (grows_captures m m' b Hg Hb), IH.
Qed.

Lemma grows_group m m' g bs : grows m m' -> arityGroups_ m !! Z.to_nat g = Some bs ->
  Forall (blockAt m) bs -> groupCaptures m' g = groupCaptures m g.
Proof.
  intros Hg E Hb. unfold groupCaptures.
  rewrite E, (prefix_lookup_Some _ _ _ _ E (grows_groups _ _ Hg)). by apply fold_captures.
Qed.

Lemma operand_grows m m' n n' op operand : grows m m' -> n <= n' ->
  operand_ok m n op operand -> operand_ok m' n' op operand.
Proof.
  intros Hg Hn. destruct op; cbn; try done; try lia; try by apply grown_symbol.
  - pose proof (prefix_length _ _ (grows_consts _ _ Hg)). lia.
  - by apply grows_block.
  - intros (bs & E & Hb). exists bs. split; [by eapply prefix_lookup_Some, grows_groups|].
    eapply Forall_impl; [exact Hb|]. intros b. by apply grows_block.
Qed.

(** What an instruction does on the stack is the same in the grown module. *)
Lemma effects_grow m m' n op operand next d : grows m m' -> operand_ok m n op operand ->
  needs m' op operand = needs m op operand /\ flowOf m' op operand next d = flowOf m op operand next d.
Proof.
  intros Hg Ho. destruct op; try done; cbn in *.
  - by rewrite (grows_captures m m') by done.
  - destruct Ho as (bs & E & Hb). by rewrite (grows_group m m' operand bs) by done.
Qed.

Lemma lands_mono s T (X X' : Z -> Z -> Prop) t d :
  (forall t d, X t d -> X' t d) -> lands s T X t d -> lands s T X' t d.
Proof. unfold lands. case_match; auto. Qed.

Lemma instr_mono m m' n n' (L L' : Z -> Z -> Prop) i word d :
  grows m m' -> n <= n' -> (forall t x, L t x -> L' t x) ->
  instr_ok m n L i word d -> instr_ok m' n' L' i word d.
Proof.
  intros Hg Hn HL (Hw & Hd & op & E & Ho & Hneed & Hb & Hj & Ha). split; [done|]. split; [done|].
  exists op. cbn zeta. destruct (effects_grow m m' n op (instrOperand word) (i + 1) d Hg Ho) as [-> ->].
  split; [done|]. split; [by eapply operand_grows|]. split; [done|]. split; [done|]. split; [|by auto].
  intros Hop. eapply Forall_impl; [exact (Hj Hop)|]. intros []. apply HL.
Qed.

Lemma segment_mono m m' n n' s w T (X X' : Z -> Z -> Prop) :
  grows m m' -> n <= n' -> (forall t d, X t d -> X' t d) ->
  segment m n s w T X -> segment m' n' s w T X'.
Proof.
  intros Hg Hn HX [Hl Hi Hd]. split; [done| |done].
  intros k word d Ew Et. eapply instr_mono; [done..| |by apply Hi]. intros t x. by apply lands_mono.
Qed.

(** *** Segments one after the other *)

Lemma lands_app s T1 T2 X t d :
  lands s (T1 ++ T2) X t d <-> lands s T1 (lands (s + Z.of_nat (length T1)) T2 X) t d.
Proof.
  unfold lands. rewrite length_app.
  destruct (Z.ltb_spec t (s + Z.of_nat (length T1 + length T2))),
    (Z.ltb_spec t (s + Z.of_nat (length T1))),
    (Z.ltb_spec t (s + Z.of_nat (length T1) + Z.of_nat (length T2))); try lia; try done.
  - split; intros [? E]; (split; [done|]); by rewrite lookup_app_l in * by lia.
  - rewrite lookup_app_r by lia.
    replace (Z.to_nat (t - s) - length T1)%nat with (Z.to_nat (t - (s + Z.of_nat (length T1)))) by lia.
    intuition lia.
Qed.

Lemma lands_later s T1 T2 X t d :
  lands (s + Z.of_nat (length T1)) T2 X t d -> lands s (T1 ++ T2) X t d.
Proof.
  intros H. apply lands_app. unfold lands at 1.
  destruct (Z.ltb_spec t (s + Z.of_nat (length T1))); [|done]. exfalso. unfold lands in H.
  destruct (Z.ltb_spec t (s + Z.of_nat (length T1) + Z.of_nat (length T2))); [|lia].
  destruct H. lia.
Qed.

Lemma lands_nil s X t d : X t d -> s <= t -> lands s [] X t d.
Proof. intros. unfold lands. cbn. by rewrite (proj2 (Z.ltb_ge _ _)) by lia. Qed.

Lemma segment_nil m n s X : segment m n s [] [] X.
Proof. split; [done|by intros k|by intros k]. Qed.

Lemma segment_app m n s w1 T1 w2 T2 X :
  segment m n s w1 T1 (lands (s + Z.of_nat (length w1)) T2 X) ->
  segment m n (s + Z.of_nat (length w1)) w2 T2 X ->
  segment m n s (w1 ++ w2) (T1 ++ T2) X.
Proof.
  intros [L1 I1 D1] [L2 I2 D2]. split.
  - rewrite !length_app. lia.
  - intros k word d Ew Et. destruct (Nat.lt_ge_cases k (length w1)) as [Hk|Hk].
    + rewrite lookup_app_l in Ew, Et by lia. eapply instr_mono; [done|done| |by apply I1].
      intros t x. rewrite <- L1. by rewrite lands_app.
    + rewrite lookup_app_r in Ew, Et by lia. rewrite L1 in Et.
      replace (s + Z.of_nat k) with (s + Z.of_nat (length w1) + Z.of_nat (k - length w1)) by lia.
      eapply instr_mono; [done|done| |by apply (I2 (k - length w1)%nat)].
      intros t x. rewrite <- L1. apply lands_later.
  - intros k word Ew Hop. destruct (Nat.lt_ge_cases k (length w1)) as [Hk|Hk].
    + rewrite lookup_app_l in Ew by lia. destruct (D1 k word Ew Hop) as (data & E & ?).
      exists data. split; [by apply lookup_app_l_Some|done].
    + rewrite lookup_app_r in Ew by lia. destruct (D2 _ word Ew Hop) as (data & E & ?).
      exists data. split; [|done]. rewrite lookup_app_r by lia. rewrite <- E. f_equal. lia.
Qed.

(** *** One instruction *)

Definition fits (operand : Z) : Prop := 0 <= operand <= kMaxOperand.

Lemma instruction_pos op operand : fits operand -> 0 <= instruction op operand.
Proof. intros H. destruct (instruction_decode op operand H) as (_ & _ & ?). lia. Qed.

Lemma segment_one m n s op operand d (X : Z -> Z -> Prop) : fits operand -> 0 <= d ->
  op <> CALL_MEMBER -> operand_ok m n op operand -> needs m op operand <= d ->
  (op = JUMP_BACK -> operand <= s + 1) ->
  (op <> JUMP_BACK -> Forall (fun '(t, x) => s + 1 <= t /\ X t x) (flowOf m op operand (s + 1) d).1) ->
  (forall a, (flowOf m op operand (s + 1) d).2 = Some a -> X (s + 1) a) ->
  segment m n s [instruction op operand] [d] X.
Proof.
  intros Hf Hd Hop Ho Hn Hb Hj Ha. destruct (instruction_decode op operand Hf) as (E1 & E2 & E3).
  split; [done| |].
  - intros k word x Ew Et. apply list_lookup_singleton_Some in Ew as [-> <-].
    apply list_lookup_singleton_Some in Et as [_ <-]. rewrite Z.add_0_r.
    split; [lia|]. split; [done|]. exists op. cbn zeta. rewrite E2. split; [done|].
    split; [done|]. split; [done|]. split; [done|]. split.
    + intros Hop'. eapply Forall_impl; [exact (Hj Hop')|]. intros [t y] [Ht HX]. unfold lands. cbn.
      by rewrite (proj2 (Z.ltb_ge _ _)) by lia.
    + intros a Haf. unfold lands. cbn. rewrite (proj2 (Z.ltb_ge _ _)) by lia. by apply Ha.
  - intros k word Ew Hc. apply list_lookup_singleton_Some in Ew as [_ <-]. congruence.
Qed.

(** A method call and its data word. *)
Lemma segment_member m n s argc i d (X : Z -> Z -> Prop) : fits argc -> fits i ->
  argc + 1 <= d -> symbolAt m i -> X (s + 2) (d - argc) ->
  segment m n s [instruction CALL_MEMBER argc; instruction NOP i] [d; d - argc] X.
Proof.
  intros Hf Hi Hd Hsym HX. destruct (instruction_decode CALL_MEMBER argc Hf) as (E1 & E2 & E3).
  destruct (instruction_decode NOP i Hi) as (E1' & _).
  assert (0 <= argc) by apply Hf.
  assert (Hnop : segment m n (s + 1) [instruction NOP i] [d - argc] X).
  { apply segment_one; [done|lia|done|done|cbn; lia|done|intros _; constructor|].
    intros a [= <-]. by replace (s + 1 + 1) with (s + 2) by lia. }
  split; [done| |].
  - intros [|k] word x Ew Et.
    + injection Ew as <-. injection Et as <-. rewrite Z.add_0_r.
      split; [lia|]. split; [lia|]. exists CALL_MEMBER. cbn zeta. rewrite E2. split; [done|].
      split; [done|]. split; [cbn; lia|]. split; [done|]. split; [constructor|]. intros a [= <-].
      unfold lands. change (Z.of_nat (length [d; d - argc])) with 2.
      destruct (Z.ltb_spec (s + 1) (s + 2)); [|lia]. split; [lia|].
      by replace (s + 1 - s) with 1 by lia.
    + replace (s + Z.of_nat (S k)) with (s + 1 + Z.of_nat k) by lia.
      eapply instr_mono; [done|done| |by apply (segment_instr _ _ _ _ _ _ Hnop k)].
      intros t y. exact (lands_later s [d] [d - argc] X t y).
  - intros [|[|k]] word Ew Hop; [|injection Ew as <-; congruence|done].
    exists (instruction NOP i). done.
Qed.

(** ** Retargeting jumps *)

(** The word with another operand. *)
Definition retarget (word operand : Z) : Z :=
  Z.lor (u32 (Z.shiftl operand kOperandShift)) (Z.land word 0xFF).

(** The code from position [s] on, each jump of [ats] made to land where [f] says. *)
Definition patched (s : Z) (f : Z -> Z) (ats : list Z) (w : list Z) : list Z :=
  imap (fun k word =>
    let at_ := s + Z.of_nat k in
    if bool_decide (at_ ∈ ats) then retarget word (f at_ - (at_ + 1)) else word) w.

Lemma retarget_instruction op x y : fits x -> fits y ->
  retarget (instruction op x) y = instruction op y.
Proof.
  intros Hx Hy. unfold retarget. rewrite (instruction_add op x) by done.
  rewrite word_low by apply opCode_byte. done.
Qed.

Lemma patched_length s f ats w : length (patched s f ats w) = length w.
Proof. apply length_imap. Qed.

Lemma patched_lookup s f ats w k : patched s f ats w !! k =
  (fun word => if bool_decide (s + Z.of_nat k ∈ ats)
               then retarget word (f (s + Z.of_nat k) - (s + Z.of_nat k + 1)) else word) <$> w !! k.
Proof. unfold patched. rewrite list_lookup_imap. by destruct (w !! k). Qed.

Lemma patched_ext s f f' ats ats' w :
  (forall at_, s <= at_ < s + Z.of_nat (length w) ->
     (at_ ∈ ats <-> at_ ∈ ats') /\ (at_ ∈ ats -> f at_ = f' at_)) ->
  patched s f ats w = patched s f' ats' w.
Proof.
  intros Hext. apply list_eq. intros k. rewrite !patched_lookup.
  destruct (w !! k) as [word|] eqn:E; [|done]. cbn. f_equal. apply lookup_lt_Some in E.
  destruct (Hext (s + Z.of_nat k) ltac:(lia)) as [Hin Hf].
  destruct (decide (s + Z.of_nat k ∈ ats)) as [H1|H1].
  - rewrite !bool_decide_true by tauto. by rewrite Hf.
  - by rewrite !bool_decide_false by tauto.
Qed.

Lemma patched_nil s f w : patched s f [] w = w.
Proof.
  apply list_eq. intros k. rewrite patched_lookup. destruct (w !! k); [|done]. cbn.
  by rewrite bool_decide_false by apply not_elem_of_nil.
Qed.

Definition within (lo hi : Z) (ats : list Z) : Prop := Forall (fun at_ => lo <= at_ < hi) ats.

Lemma within_elem lo hi ats at_ : within lo hi ats -> at_ ∈ ats -> lo <= at_ < hi.
Proof. unfold within. rewrite Forall_forall. auto. Qed.

Lemma patched_app s f ats1 ats2 w1 w2 :
  within s (s + Z.of_nat (length w1)) ats1 ->
  within (s + Z.of_nat (length w1)) (s + Z.of_nat (length w1) + Z.of_nat (length w2)) ats2 ->
  patched s f (ats1 ++ ats2) (w1 ++ w2) =
  patched s f ats1 w1 ++ patched (s + Z.of_nat (length w1)) f ats2 w2.
Proof.
  intros H1 H2. unfold patched at 1. rewrite imap_app.
  change (patched s f (ats1 ++ ats2) w1 ++
    imap (fun k word => let at_ := s + Z.of_nat (length w1 + k) in
      if bool_decide (at_ ∈ ats1 ++ ats2) then retarget word (f at_ - (at_ + 1)) else word) w2 =
    patched s f ats1 w1 ++ patched (s + Z.of_nat (length w1)) f ats2 w2).
  f_equal.
  - apply patched_ext. intros at_ Hat. rewrite elem_of_app. split; [|done]. split; [|tauto].
    intros [?|Hin]; [done|]. apply (within_elem _ _ _ _ H2) in Hin. lia.
  - etrans; [|apply (patched_ext _ f f (ats1 ++ ats2) ats2)].
    + unfold patched. apply imap_ext. intros k word _. cbn. by rewrite Nat2Z.inj_add, !Z.add_assoc.
    + intros at_ Hat. rewrite elem_of_app. split; [|done]. split; [|tauto].
      intros [Hin|?]; [|done]. apply (within_elem _ _ _ _ H1) in Hin. lia.
Qed.

(** One jump filled in. *)
Lemma patched_fill s f e at_ rest ats w word :
  w !! Z.to_nat (at_ - s) = Some word -> s <= at_ -> at_ ∉ rest ->
  (forall x, x ∈ ats <-> x = at_ \/ x ∈ rest) ->
  patched s f rest (<[Z.to_nat (at_ - s) := retarget word (e - (at_ + 1))]> w) =
  patched s (fun x => if x =? at_ then e else f x) ats w.
Proof.
  intros Ew Hs Hout Hats. apply list_eq. intros k. rewrite !patched_lookup.
  destruct (decide (k = Z.to_nat (at_ - s))) as [->|Hne].
  - rewrite list_lookup_insert_eq by (by eapply lookup_lt_Some). rewrite Ew. cbn. f_equal.
    replace (s + Z.of_nat (Z.to_nat (at_ - s))) with at_ by lia.
    rewrite bool_decide_false by done. rewrite bool_decide_true by (apply Hats; by left).
    by rewrite Z.eqb_refl.
  - rewrite list_lookup_insert_ne by done. destruct (w !! k) as [word'|] eqn:E; [|done]. cbn. f_equal.
    assert (s + Z.of_nat k <> at_) by lia.
    rewrite (proj2 (Z.eqb_neq _ _)) by done.
    destruct (decide (s + Z.of_nat k ∈ rest)).
    + rewrite !bool_decide_true; [done|apply Hats; by right|done].
    + rewrite !bool_decide_false; [done|rewrite Hats; tauto|done].
Qed.

Lemma patched_one s f word : patched s f [s] [word] = [retarget word (f s - (s + 1))].
Proof.
  unfold patched. cbn. rewrite Z.add_0_r. by rewrite bool_decide_true by by apply list_elem_of_singleton.
Qed.
