(* ===== verification/ModuleCode.v ===== *)
(** Well-formed modules: the code of each body is a segment that leads nowhere else,
    its captures, keys and locals lie in its frame, and so for the bodies inside it.
    Locals clearing (compiler/BytecodeModule.cpp) keeps a module well-formed. *)

From S2P Require Import Prelude Bytecode Exceptions ExecutionEngine FrameStack Compiler.
From S2P Require Import CodeSegments.

#[local] Set Warnings "-register-all".

(** ** Well-formed modules *)

Definition slot_in (n i : Z) : Prop := 0 <= i < n.

(** The frame of a body: its arguments and its locals. *)
Definition frameSlots (m : module) : Z := arity_ m + localCount_ m.

(** No instruction leads out of the code. *)
Definition nowhere (t d : Z) : Prop := False.

(** [T] gives each instruction of the body its depth. *)
Definition depths_of (m : module) (T : list Z) : Prop :=
  segment m (frameSlots m) 0 (code_ m) T nowhere /\ T !! O = Some 0.

Inductive module_ok : module -> Prop :=
| Module_ok m :
    (exists T, depths_of m T) ->
    0 <= arity_ m -> 0 <= localCount_ m ->
    Forall (fun c => slot_in (frameSlots m) (localSlot c)) (captureSpecs_ m) ->
    Forall (fun k => slot_in (frameSlots m) (kwSlot k)) (kwKeys_ m) ->
    asSlot_ m < frameSlots m ->
    Forall module_ok (blocks_ m) ->
    module_ok m.

(** [b] is the module, or the body of a function in it. *)
Inductive inside (b : module) : module -> Prop :=
| Inside_self : inside b b
| Inside_block m sub : sub ∈ blocks_ m -> inside b sub -> inside b m.

Lemma inside_ok b m : inside b m -> module_ok m -> module_ok b.
Proof.
  induction 1 as [|m sub Hin _ IH]; [done|]. intros Hm. apply IH.
  inversion Hm as [? _ _ _ _ _ _ Hb]; subst. rewrite Forall_forall in Hb. auto.
Qed.

(** Induction for code that takes the elements of a list in pairs. *)
Lemma list_pairs_ind {A} (P : list A -> Prop) : P [] -> (forall x, P [x]) ->
  (forall x y l, P l -> P (y :: l) -> P (x :: y :: l)) -> forall l, P l.
Proof.
  intros H0 H1 H2 l. enough (P l /\ forall x, P (x :: l)) by tauto.
  induction l as [|y l [IH1 IH2]]; [done|]. split; [done|]. intros x. by apply H2.
Qed.

(** ** Locals clearing keeps a body well-formed *)

Definition localRead (code : list Z) (i : Z) : Prop :=
  0 <= i /\ exists word, code !! Z.to_nat i = Some word /\ 
    (instrOp word = Some PUSH_LOCAL \/ instrOp word = Some PUSH_LOCAL_CLEAR).

Definition uses_ok (code : list Z) (uses : gmap Z Use) : Prop :=
  forall slot u, uses !! slot = Some u -> (0 < reads u)%nat -> localRead code (readAt u).

Lemma alterUse_ok code f slot uses : uses_ok code uses ->
  (forall u, (reads (f u) = reads u /\ readAt (f u) = readAt u) \/ localRead code (readAt (f u))) ->
  uses_ok code (alterUse f slot uses).
Proof.
  intros Hu Hf k u. unfold alterUse. rewrite lookup_insert. case_decide as Hk; [|apply Hu].
  subst k. intros [= <-] Hr.
  destruct (Hf (default noUse (uses !! slot))) as [[E1 E2]|]; [|done]. rewrite E1 in Hr. rewrite E2.
  destruct (uses !! slot) as [u|] eqn:E; cbn in *; [by apply (Hu slot)|lia].
Qed.

Lemma scanUses_ok rest : forall pre uses loops, uses_ok (pre ++ rest) uses ->
  uses_ok (pre ++ rest) (scanUses (Z.of_nat (length pre)) rest uses loops).1.
Proof.
  assert (Hnext : forall (pre : list Z) word,
    Z.of_nat (length pre) + 1 = Z.of_nat (length (pre ++ [word]))) by (intros; rewrite length_app; cbn; lia).
  assert (Hread : forall pre word rest, instrOp word = Some PUSH_LOCAL ->
    localRead (pre ++ word :: rest) (Z.of_nat (length pre))).
  { intros pre word rest' E. split; [lia|]. exists word. rewrite Nat2Z.id.
    split; [by apply list_lookup_middle|by left]. }
  assert (Hstep : forall pre word rest uses loops,
    (forall pre uses loops, uses_ok (pre ++ rest) uses ->
       uses_ok (pre ++ rest) (scanUses (Z.of_nat (length pre)) rest uses loops).1) ->
    uses_ok (pre ++ word :: rest) uses ->
    uses_ok (pre ++ word :: rest) (scanUses (Z.of_nat (length pre) + 1) rest uses loops).1).
  { intros pre word rest' uses loops IH Hu. rewrite (Hnext pre word).
    replace (pre ++ word :: rest') with ((pre ++ [word]) ++ rest') in * by (by rewrite <- app_assoc).
    by apply IH. }
  induction rest as [|word|word data rest IH0 IH1] using list_pairs_ind; intros pre uses loops Hu.
  - done.
  - cbn [scanUses].
    destruct (instrOp word) as [op|] eqn:E; [destruct op|]; try done;
      (apply alterUse_ok; [done|intros u; first [left; done|right; by apply Hread]]).
  - change (scanUses (Z.of_nat (length pre)) (word :: data :: rest) uses loops) with
      (match instrOp word with
       | Some PUSH_LOCAL => scanUses (Z.of_nat (length pre) + 1) (data :: rest)
           (alterUse (addRead (Z.of_nat (length pre))) (instrOperand word) uses) loops
       | Some STORE_LOCAL => scanUses (Z.of_nat (length pre) + 1) (data :: rest)
           (alterUse (addStore (Z.of_nat (length pre))) (instrOperand word) uses) loops
       | Some STORE_CAUGHT | Some RETHROW => scanUses (Z.of_nat (length pre) + 1) (data :: rest)
           (alterUse ban (instrOperand word) uses) loops
       | Some JUMP_BACK => scanUses (Z.of_nat (length pre) + 1) (data :: rest) uses
           (if instrOperand word <=? Z.of_nat (length pre) + 1
            then loops ++ [(Z.of_nat (length pre) + 1 - instrOperand word, Z.of_nat (length pre))] else loops)
       | Some CALL_MEMBER => scanUses (Z.of_nat (length pre) + 2) rest uses loops
       | _ => scanUses (Z.of_nat (length pre) + 1) (data :: rest) uses loops
       end).
    destruct (instrOp word) as [op|] eqn:E; [destruct op|]; try (by apply Hstep);
      try (apply Hstep; [done|]; apply alterUse_ok; [done|intros u; first [left; done|right; by apply Hread]]).
    replace (Z.of_nat (length pre) + 2) with (Z.of_nat (length (pre ++ [word; data])))
      by (rewrite length_app; cbn; lia).
    replace (pre ++ word :: data :: rest) with ((pre ++ [word; data]) ++ rest) in *
      by (by rewrite <- app_assoc). by apply IH0.
Qed.

Lemma patched_word word : 0 <= word ->
  let word' := Z.lor (Z.ldiff word 0xFF) (opCode PUSH_LOCAL_CLEAR) in
  0 <= word' /\ instrOp word' = Some PUSH_LOCAL_CLEAR /\ instrOperand word' = instrOperand word.
Proof.
  intros Hw word'. assert (E : word' = instrOperand word * 2 ^ 8 + opCode PUSH_LOCAL_CLEAR).
  { unfold word', instrOperand, kOperandShift. change 0xFF with (Z.ones 8).
    rewrite Z.ldiff_ones_r, Z.shiftl_mul_pow2 by lia.
    rewrite lor_add; [done|lia|apply opCode_byte]. }
  pose proof (instrOperand_pos word Hw). rewrite E. set (o := instrOperand word) in *. clearbody o.
  split; [cbn; lia|]. unfold instrOp, instrOperand, kOperandShift.
  rewrite word_low, word_high by apply opCode_byte. by rewrite opOfCode_code.
Qed.

Lemma instr_cleared m n L i word word' d :
  instrOp word = Some PUSH_LOCAL \/ instrOp word = Some PUSH_LOCAL_CLEAR ->
  0 <= word' -> instrOp word' = Some PUSH_LOCAL_CLEAR -> instrOperand word' = instrOperand word ->
  instr_ok m n L i word d -> instr_ok m n L i word' d.
Proof.
  intros Hop Hw' Hop' Ho' (_ & Hd & op & E & H1 & H2 & H3 & H4 & H5). split; [done|]. split; [done|].
  exists PUSH_LOCAL_CLEAR. cbn zeta. rewrite Ho'. split; [done|].
  destruct Hop as [Eop|Eop]; rewrite Eop in E; injection E as <-;
    (split; [exact H1|]; split; [exact H2|]; split; [done|]; split; [by intros _; apply H4|exact H5]).
Qed.

Lemma segment_cleared m n s w T X k word word' : segment m n s w T X -> w !! k = Some word ->
  instrOp word = Some PUSH_LOCAL \/ instrOp word = Some PUSH_LOCAL_CLEAR ->
  0 <= word' -> instrOp word' = Some PUSH_LOCAL_CLEAR -> instrOperand word' = instrOperand word ->
  segment m n s (<[k := word']> w) T X.
Proof.
  intros [Hl Hi Hdata] Ek Hop Hw' Hop' Ho'. pose proof (lookup_lt_Some _ _ _ Ek). split.
  - by rewrite length_insert.
  - intros j x d Ex Et. destruct (decide (j = k)) as [->|Hne].
    + rewrite list_lookup_insert_eq in Ex by done. injection Ex as <-.
      eapply instr_cleared; [exact Hop|done|done|done|by apply Hi].
    + rewrite list_lookup_insert_ne in Ex by done. by apply Hi.
  - intros j x Ex Hx. destruct (decide (j = k)) as [->|Hne].
    + rewrite list_lookup_insert_eq in Ex by done. injection Ex as <-. congruence.
    + rewrite list_lookup_insert_ne in Ex by done. destruct (Hdata j x Ex Hx) as (y & Ey & Hy).
      exists y. split; [|done]. destruct (decide (S j = k)) as [<-|]; [|by rewrite list_lookup_insert_ne].
      rewrite Ek in Ey. injection Ey as ->. destruct Hop; congruence.
Qed.

(** A module with one local read made the last. *)
Lemma patchOp_ok m i : module_ok m -> localRead (code_ m) i ->
  let m' := patchOp i PUSH_LOCAL_CLEAR m in
  module_ok m' /\ captureSpecs_ m' = captureSpecs_ m /\
  forall j, localRead (code_ m) j -> localRead (code_ m') j.
Proof.
  intros Hm (Hi & word & Ew & Hop) m'. inversion Hm as [? (T & Seg & T0) H1 H2 H3 H4 H5 H6]; subst.
  assert (Hw : 0 <= word).
  { destruct (lookup_lt_is_Some_2 T (Z.to_nat i)) as [d Ed].
    - rewrite (segment_length _ _ _ _ _ _ Seg). by eapply lookup_lt_Some.
    - by destruct (segment_instr _ _ _ _ _ _ Seg _ _ _ Ew Ed) as [? _]. }
  destruct (patched_word word Hw) as (K1 & K2 & K3).
  assert (Ec : code_ m' = <[Z.to_nat i := Z.lor (Z.ldiff word 0xFF) (opCode PUSH_LOCAL_CLEAR)]> (code_ m)).
  { unfold m', patchOp. by rewrite (nth_lookup_Some _ _ _ _ Ew). }
  split; [|split; [done|]].
  - constructor; try done. exists T. split; [|done]. rewrite Ec.
    eapply segment_cleared; [|exact Ew|done..].
    apply (segment_mono m m' (frameSlots m) _ 0 _ T nowhere); [by split|reflexivity|auto|exact Seg].
  - intros j (Hj & word2 & Ew2 & Hop2). rewrite Ec. split; [done|].
    destruct (decide (Z.to_nat j = Z.to_nat i)) as [->|Hne].
    + eexists. rewrite list_lookup_insert_eq by (by eapply lookup_lt_Some). split; [done|by right].
    + exists word2. by rewrite list_lookup_insert_ne.
Qed.

Lemma ban_captures_ok code cs uses : uses_ok code uses ->
  uses_ok code (fold_left (fun uses c => alterUse ban (localSlot c) uses) cs uses).
Proof.
  revert uses. induction cs as [|c cs IH]; intros uses Hu; cbn; [done|].
  apply IH, alterUse_ok; [done|]. intros u. by left.
Qed.

Lemma clearLastReads_ok fixedArity paramEnd m : module_ok m ->
  module_ok (clearLastReads fixedArity paramEnd m) /\
  captureSpecs_ (clearLastReads fixedArity paramEnd m) = captureSpecs_ m.
Proof.
  intros Hm. unfold clearLastReads.
  pose proof (scanUses_ok (code_ m) [] ∅ [] ltac:(intros ? ?; by rewrite lookup_empty)) as Hu. cbn [app length] in Hu.
  change (Z.of_nat 0) with 0 in Hu. destruct (scanUses 0 (code_ m) ∅ []) as [uses loops].
  apply (ban_captures_ok _ (captureSpecs_ m)) in Hu. cbn [fst] in Hu.
  set (uses' := fold_left _ (captureSpecs_ m) uses) in *.
  assert (Hl : Forall (fun e => (0 < reads e.2)%nat -> localRead (code_ m) (readAt e.2)) (map_to_list uses')).
  { apply Forall_forall. intros [slot u] Hin%elem_of_map_to_list. by apply (Hu slot). }
  clearbody uses'. clear Hu. revert m Hm Hl.
  induction (map_to_list uses') as [|[slot u] es IH]; intros m Hm Hl; cbn [fold_left fst snd]; [done|].
  apply Forall_cons in Hl as [Hu Hl]. destruct (clearable fixedArity paramEnd loops slot u) eqn:Ec;
    [|by apply IH].
  unfold clearable in Ec. assert (Hr : (0 < reads u)%nat).
  { repeat (apply andb_prop in Ec as [Ec ?]). destruct (Nat.eqb_spec (reads u) 1); lia || done. }
  destruct (patchOp_ok m (readAt u) Hm (Hu Hr)) as (H1 & H2 & H3).
  destruct (IH (patchOp (readAt u) PUSH_LOCAL_CLEAR m) H1) as [H4 H5].
  { eapply Forall_impl; [exact Hl|]. intros e He Hre. by apply H3, He. }
  split; [done|congruence].
Qed.
