(* ===== verification/CompilerSteps.v ===== *)
(** The compiler's steps (compiler/Compiler.cpp): the invariant of its state, what a
    step leaves alone, and the steps that append code, with the jumps still to be
    retargeted; emitting an instruction, retargeting a jump, sequencing. *)

From S2P Require Import Prelude Bytecode Exceptions ExecutionEngine FrameStack Compiler.
From S2P Require Import CodeSegments ModuleCode.

#[local] Set Warnings "-register-all".

(** ** The state of a compiler *)

Definition slotsOf (ss : list Scope) : Z := match ss with s :: _ => nextSlot s | [] => 0 end.
Definition topSlots (st : cstate) : Z := slotsOf (scopes_ st).

(** A scope inside one of [outer] slots. *)
Record scope_ok (outer : Z) (s : Scope) : Prop := {
  scope_arity : 0 <= scopeArity s <= nextSlot s;
  scope_names name slot : nameToSlot s !! name = Some slot -> slot_in (nextSlot s) slot;
  scope_captures : Forall (fun c => slot_in outer (parentSlot c) /\ slot_in (nextSlot s) (localSlot c))
    (captures s);
  scope_targets : Forall (fun t => Forall (slot_in (nextSlot s)) (slots t)) (recurStack s);
}.

Fixpoint scopes_ok (ss : list Scope) : Prop :=
  match ss with [] => True | s :: ss => scope_ok (slotsOf ss) s /\ scopes_ok ss end.

Definition targets_in (p : Z) (ss : list Scope) : Prop :=
  match ss with [] => True | s :: _ => Forall (fun t => 0 <= bodyStart t <= p) (recurStack s) end.

Record inv (st : cstate) : Prop := {
  inv_scopes : scopes_ok (scopes_ st);
  inv_targets : targets_in (pos (out st)) (scopes_ st);
  inv_pool : pool_ok (pool_ (out st));
  inv_blocks : Forall module_ok (blocks_ (out st));
}.

(** What a step of the compiler leaves alone. *)
Record scope_step (s s' : Scope) : Prop := {
  step_slots : nextSlot s <= nextSlot s';
  step_arity : scopeArity s' = scopeArity s;
  step_recur : recurStack s' = recurStack s;
}.

Record same_signature (m m' : module) : Prop := {
  same_arity : arity_ m' = arity_ m;
  same_locals : localCount_ m' = localCount_ m;
  same_captures : captureSpecs_ m' = captureSpecs_ m;
  same_keys : kwKeys_ m' = kwKeys_ m;
  same_as : asSlot_ m' = asSlot_ m;
}.

Record step (st st' : cstate) : Prop := {
  step_grows : grows (out st) (out st');
  step_same : same_signature (out st) (out st');
  step_scopes : Forall2 scope_step (scopes_ st) (scopes_ st');
}.

#[export] Instance scope_step_preorder : PreOrder scope_step.
Proof.
  split; [intros s; split; done|]. intros a b c [? ? ?] [? ? ?]. split; [lia|congruence..].
Qed.

#[export] Instance same_signature_preorder : PreOrder same_signature.
Proof. split; [done|]. intros a b c [] []. split; congruence. Qed.

#[export] Instance step_preorder : PreOrder step.
Proof.
  split; [intros st; split; reflexivity|]. intros a b c [? ? ?] [? ? ?]. split; by etrans.
Qed.

Lemma step_topSlots st st' : step st st' -> topSlots st <= topSlots st'.
Proof. intros [_ _ Hs]. unfold topSlots. destruct Hs as [|? ? ? ? []]; cbn; lia. Qed.

Lemma step_nonempty st st' : step st st' -> scopes_ st <> [] -> scopes_ st' <> [].
Proof. intros [_ _ Hs]. by destruct Hs. Qed.

Lemma step_empty st st' : step st st' -> scopes_ st = [] -> scopes_ st' = [].
Proof. intros [_ _ Hs] E. rewrite E in Hs. by inversion Hs. Qed.

(** ** Steps that emit

    From [st] to [st'] the compiler appended the code of a segment entered at depth
    [d] and left at depth [d'], but for the jumps [H], still to be retargeted: each
    with the depth it lands at. *)
Definition pendingJumps := list (Z * Z).

Record ran (st : cstate) (d : Z) (st' : cstate) (d' : Z) (H : pendingJumps) : Prop := {
  ran_inv : inv st';
  ran_step : step st st';
  ran_jumps : NoDup H.*1 /\ within (pos (out st)) (pos (out st')) H.*1;
  ran_code : exists w, code_ (out st') = code_ (out st) ++ w /\
    forall N X f, topSlots st' <= N -> X (pos (out st')) d' ->
      Forall (fun '(at_, dj) => pos (out st') <= f at_ /\ fits (f at_ - (at_ + 1)) /\ X (f at_) dj) H ->
      exists T, segment (out st') N (pos (out st)) (patched (pos (out st)) f H.*1 w) T X /\
        lands (pos (out st)) T X (pos (out st)) d;
}.

Lemma pos_app (st st' : cstate) w : code_ (out st') = code_ (out st) ++ w ->
  pos (out st') = pos (out st) + Z.of_nat (length w).
Proof. unfold pos. intros ->. rewrite length_app. lia. Qed.

Lemma ran_refl st d : inv st -> ran st d st d [].
Proof.
  intros Hi. split; [done|reflexivity|split; constructor|]. exists [].
  split; [by rewrite app_nil_r|]. intros N X f _ HX _. exists []. rewrite patched_nil.
  split; [apply segment_nil|]. apply lands_nil; [done|lia].
Qed.

Lemma ran_trans st d st1 d1 st2 d2 H1 H2 :
  ran st d st1 d1 H1 -> ran st1 d1 st2 d2 H2 -> ran st d st2 d2 (H1 ++ H2).
Proof.
  intros [I1 S1 [ND1 W1] (w1 & E1 & C1)] [I2 S2 [ND2 W2] (w2 & E2 & C2)].
  pose proof (pos_app _ _ _ E1) as P1. pose proof (pos_app _ _ _ E2) as P2.
  split; [done|by etrans| |].
  - rewrite fmap_app. split.
    + apply NoDup_app. split; [done|]. split; [|done]. intros x Hx1 Hx2.
      apply (within_elem _ _ _ _ W1) in Hx1. apply (within_elem _ _ _ _ W2) in Hx2. lia.
    + apply Forall_app. split; (eapply Forall_impl; [eassumption|]); cbn; intros; lia.
  - exists (w1 ++ w2). split; [by rewrite E2, E1, app_assoc|]. intros N X f HN HX HH.
    apply Forall_app in HH as [HH1 HH2].
    destruct (C2 N X f HN HX HH2) as (T2 & Seg2 & L2).
    assert (HN1 : topSlots st1 <= N) by (pose proof (step_topSlots _ _ S2); lia).
    destruct (C1 N (lands (pos (out st1)) T2 X) f HN1 L2) as (T1 & Seg1 & L1).
    { eapply Forall_impl; [exact HH1|]. intros [at_ dj] (Hp & Hf & HX'). split; [lia|].
      split; [done|]. unfold lands.
      rewrite (segment_length _ _ _ _ _ _ Seg2), patched_length.
      destruct (Z.ltb_spec (f at_) (pos (out st1) + Z.of_nat (length w2))); [lia|done]. }
    exists (T1 ++ T2). rewrite fmap_app, patched_app.
    + pose proof (segment_length _ _ _ _ _ _ Seg1) as Hl. rewrite patched_length in Hl. split.
      * apply segment_app; rewrite patched_length, <- P1; [|done].
        eapply segment_mono; [apply S2|reflexivity| |exact Seg1]. auto.
      * apply lands_app. by rewrite Hl, <- P1.
    + by rewrite <- P1.
    + by rewrite <- P1, <- P2.
Qed.

Lemma ran_depth st d st' d' d'' H : ran st d st' d' H -> d' = d'' -> ran st d st' d'' H.
Proof. by intros ? <-. Qed.

(** *** Steps that emit nothing *)

Lemma ran_quiet st d st' : inv st' -> step st st' -> code_ (out st') = code_ (out st) ->
  ran st d st' d [].
Proof.
  intros Hi Hs Hc. assert (Hp : pos (out st') = pos (out st)) by (unfold pos; by rewrite Hc).
  split; [done|done|split; constructor|]. exists []. split; [by rewrite app_nil_r|].
  intros N X f _ HX _. exists []. rewrite patched_nil. split; [apply segment_nil|].
  rewrite Hp in HX. apply lands_nil; [done|lia].
Qed.

(** *** One instruction *)

Lemma emit_inv op operand st a st' : Compiler.emit op operand st = Ok (a, st') ->
  a = pos (out st) /\ operand <= kMaxOperand /\
  exists h, st' = set_out (set_code (code_ (out st) ++ [instruction op operand]) h (out st)) st.
Proof.
  unfold Compiler.emit, liftModule, Bytecode.emit.
  destruct (checkedOperand_ok (opName op) operand) as [E|[? [w E]]]; rewrite E; [|done].
  intros [= <- <-]. split; [done|]. split; [|by eexists].
  revert E. unfold checkedOperand. by destruct (Z.ltb_spec kMaxOperand operand).
Qed.

Lemma set_code_inv st code h : inv st -> Z.of_nat (length (code_ (out st))) <= Z.of_nat (length code) ->
  inv (set_out (set_code code h (out st)) st).
Proof.
  intros [? Ht ? ?] Hl. split; [done| |done|done]. cbn. destruct (scopes_ st); cbn; [done|].
  eapply Forall_impl; [exact Ht|]. unfold pos. cbn. intros; lia.
Qed.

Lemma set_code_step st code h : step st (set_out (set_code code h (out st)) st).
Proof. split; [done|done|reflexivity]. Qed.

(** Words appended at the end: a segment there, whatever the frame grows to. *)
Lemma ran_words st d words h d' H : inv st ->
  (NoDup H.*1 /\ within (pos (out st)) (pos (out st) + Z.of_nat (length words)) H.*1) ->
  (forall N X f, topSlots st <= N -> X (pos (out st) + Z.of_nat (length words)) d' ->
     Forall (fun '(at_, dj) => pos (out st) + Z.of_nat (length words) <= f at_ /\
                               fits (f at_ - (at_ + 1)) /\ X (f at_) dj) H ->
     exists T, segment (out st) N (pos (out st)) (patched (pos (out st)) f H.*1 words) T X /\
               lands (pos (out st)) T X (pos (out st)) d) ->
  ran st d (set_out (set_code (code_ (out st) ++ words) h (out st)) st) d' H.
Proof.
  intros Hi HH Hseg. set (st' := set_out _ st).
  assert (Hp : pos (out st') = pos (out st) + Z.of_nat (length words)) by (by apply (pos_app st st')).
  split.
  - apply set_code_inv; [done|]. rewrite length_app. lia.
  - apply set_code_step.
  - by rewrite Hp.
  - exists words. split; [done|]. intros N X f HN HX Hf. rewrite Hp in HX, Hf.
    destruct (Hseg N X f HN HX Hf) as (T & Seg & L). exists T. split; [|done].
    by eapply segment_mono; [apply set_code_step|reflexivity| |exact Seg].
Qed.

Lemma lands_first s d T (X : Z -> Z -> Prop) : lands s (d :: T) X s d.
Proof.
  unfold lands. cbn [length]. rewrite Z.sub_diag.
  destruct (Z.ltb_spec s (s + Z.of_nat (S (length T)))); [done|lia].
Qed.

Lemma ran_emit op operand st a st' d d' : inv st -> Compiler.emit op operand st = Ok (a, st') ->
  0 <= operand -> 0 <= d -> op <> CALL_MEMBER -> op <> JUMP_BACK ->
  operand_ok (out st) (topSlots st) op operand -> needs (out st) op operand <= d ->
  (flowOf (out st) op operand (pos (out st) + 1) d).1 = [] ->
  (forall x, (flowOf (out st) op operand (pos (out st) + 1) d).2 = Some x -> x = d') ->
  ran st d st' d' [].
Proof.
  intros Hi (-> & Hmax & h & ->)%emit_inv Ho Hd Hop Hop' Hok Hn Hj Ha. apply ran_words; [done| |].
  - split; constructor.
  - intros N X f HN HX _. exists [d]. rewrite patched_nil. split; [|apply lands_first].
    apply segment_one; try done.
    + by eapply operand_grows; [reflexivity| |exact Hok].
    + intros _. rewrite Hj. constructor.
    + intros x Hx. by rewrite (Ha x Hx).
Qed.

(** A jump to be retargeted: the depth it lands at, and the one it falls through
    with. *)
Definition jumpDepths (op : Op) (d : Z) : option (Z * option Z) :=
  match op with
  | JUMP => Some (d, None)
  | JUMP_IF_FALSE | JUMP_IF_TRUE => Some (d - 1, Some (d - 1))
  | TRY_BEGIN => Some (d + 1, Some d)
  | _ => None
  end.

Lemma jumpDepths_spec op d dj a (m : module) n o next : jumpDepths op d = Some (dj, a) ->
  op <> CALL_MEMBER /\ op <> JUMP_BACK /\ flowOf m op o next d = ([(next + o, dj)], a) /\
  operand_ok m n op o /\ needs m op o <= if decide (a = Some (d - 1)) then 1 else 0.
Proof. by destruct op; intros [= <- <-]; repeat case_decide. Qed.

Lemma ran_jump op st a st' d d' dj aft : inv st -> Compiler.emit op 0 st = Ok (a, st') ->
  jumpDepths op d = Some (dj, aft) -> 0 <= d -> (aft = Some (d - 1) -> 1 <= d) ->
  (forall x, aft = Some x -> x = d') ->
  a = pos (out st) /\ ran st d st' d' [(a, dj)].
Proof.
  intros Hi (-> & Hmax & h & ->)%emit_inv Hdep Hd Hd1 Ha. split; [done|]. apply ran_words; [done| |].
  - split; [apply NoDup_singleton|]. repeat constructor; cbn; lia.
  - intros N X f HN HX HH. apply Forall_cons in HH as [HH _]. cbn in HH. destruct HH as (Hp & Hf & HXj).
    exists [d]. cbn [fmap list_fmap]. rewrite patched_one, retarget_instruction by (done || by split).
    set (o := f _ - _) in *. split; [|apply lands_first].
    destruct (jumpDepths_spec op d dj aft (out st) N o (pos (out st) + 1) Hdep) as (H1 & H2 & H3 & H4 & H5).
    apply segment_one; try done; rewrite ?H3; cbn.
    + case_decide; [specialize (Hd1 ltac:(assumption)); lia|lia].
    + intros _. constructor; [|constructor]. subst o. cbn in Hp.
      replace (pos (out st) + 1 + _) with (f (pos (out st))) by lia. split; [lia|done].
    + intros x Hx. by rewrite (Ha x Hx).
Qed.

(** A method call, with its data word. *)
Lemma ran_member st a st1 i st2 st' d n sym_ : inv st ->
  Compiler.emit CALL_MEMBER n st = Ok (a, st1) ->
  st2 = set_out (set_pool (pool_ (out st2)) (out st1)) st1 -> inv st2 -> step st st2 ->
  emit_ NOP i st2 = Ok (sym_, st') -> symbolAt (out st2) i -> 0 <= i ->
  0 <= n -> n + 1 <= d -> ran st d st' (d - n) [].
Proof.
  intros Hi (_ & Hmax & h & E1)%emit_inv E2 Hi2 Hs2 E3 Hsym Hi0 Hn Hd.
  unfold emit_, mbind, C_bind in E3.
  destruct (Compiler.emit NOP i st2) as [[a2 st3]|] eqn:E; [|done]. injection E3 as _ <-.
  apply emit_inv in E as (_ & Hmax2 & h2 & ->).
  assert (Hc : code_ (out st2) = code_ (out st) ++ [instruction CALL_MEMBER n])
    by (rewrite E2, E1; done).
  split.
  - apply set_code_inv; [done|]. rewrite length_app. lia.
  - etrans; [exact Hs2|]. apply set_code_step.
  - split; constructor.
  - exists [instruction CALL_MEMBER n; instruction NOP i]. split; [cbn; by rewrite Hc, <- app_assoc|].
    intros N X f HN HX _. exists [d; d - n]. rewrite patched_nil.
    assert (Hp2 : pos (out (set_out (set_code (code_ (out st2) ++ [instruction NOP i]) h2 (out st2)) st2))
                  = pos (out st) + 2).
    { unfold pos. cbn. rewrite Hc, !length_app. cbn. lia. }
    rewrite Hp2 in HX. split; [|apply lands_first].
    apply segment_member; [by split|by split|done|done|done].
Qed.

(** *** Retargeting a jump *)

Lemma patchOperand_inv at_ operand st u st' : Compiler.patchOperand at_ operand st = Ok (u, st') ->
  at_ < pos (out st) /\ operand <= kMaxOperand /\
  let word := nth (Z.to_nat at_) (code_ (out st)) 0 in
  exists h, st' = set_out (set_code (<[Z.to_nat at_ := retarget word operand]> (code_ (out st))) h
                             (out st)) st.
Proof.
  unfold Compiler.patchOperand, liftModule, Bytecode.patchOperand.
  destruct (Z.leb_spec (pos (out st)) at_) as [|Hat]; [done|].
  match goal with |- context [checkedOperand ?nm _] => destruct (checkedOperand_ok nm operand) as [E|[? [w E]]] end;
    rewrite E; [|done].
  intros [= _ <-]. split; [done|]. split; [|by eexists].
  revert E. unfold checkedOperand. by destruct (Z.ltb_spec kMaxOperand operand).
Qed.

Lemma ran_patch st d st1 d1 H1 H2 at_ u st2 :
  ran st d st1 d1 (H1 ++ (at_, d1) :: H2) ->
  patchTo at_ (pos (out st1)) st1 = Ok (u, st2) -> ran st d st2 d1 (H1 ++ H2).
Proof.
  intros [I1 S1 [ND W] (w & E1 & C1)] E. unfold patchTo in E.
  apply patchOperand_inv in E as (Hat & Hmax & h & ->).
  pose proof (pos_app _ _ _ E1) as P1.
  assert (Hin : pos (out st) <= at_ < pos (out st1)).
  { apply (within_elem _ _ _ _ W), list_elem_of_fmap. exists (at_, d1). split; [done|]. set_solver. }
  assert (Hperm : forall x, x ∈ (H1 ++ (at_, d1) :: H2).*1 <-> x = at_ \/ x ∈ (H1 ++ H2).*1).
  { intros x. rewrite !fmap_app, fmap_cons, !elem_of_app, elem_of_cons. cbn. tauto. }
  rewrite !fmap_app, fmap_cons in ND. cbn in ND. apply NoDup_app in ND as (N1 & N12 & N2).
  apply NoDup_cons in N2 as [N2a N2].
  assert (Hout : at_ ∉ (H1 ++ H2).*1).
  { rewrite fmap_app, elem_of_app. intros [Hx|Hx]; [|done]. apply (N12 _ Hx). by left. }
  destruct (lookup_lt_is_Some_2 w (Z.to_nat (at_ - pos (out st)))) as [word Ew]; [lia|].
  assert (Hk : Z.to_nat at_ = (length (code_ (out st)) + Z.to_nat (at_ - pos (out st)))%nat)
    by (unfold pos in *; lia).
  assert (Hcode : code_ (out st1) !! Z.to_nat at_ = Some word).
  { rewrite E1, Hk, lookup_app_r by lia. by rewrite Nat.add_comm, Nat.add_sub. }
  rewrite (nth_lookup_Some _ _ _ _ Hcode).
  set (w' := <[Z.to_nat (at_ - pos (out st)) := retarget word (pos (out st1) - (at_ + 1))]> w).
  assert (Hc' : <[Z.to_nat at_ := retarget word (pos (out st1) - (at_ + 1))]> (code_ (out st1)) =
                code_ (out st) ++ w').
  { rewrite E1, Hk. by rewrite insert_app_r. }
  rewrite Hc'.
  assert (Hlen : length w' = length w) by apply length_insert.
  set (st2 := set_out _ st1).
  assert (P2 : pos (out st2) = pos (out st1)).
  { rewrite P1. unfold pos at 1. cbn. rewrite length_app, Hlen. unfold pos. lia. }
  split.
  - apply set_code_inv; [done|]. rewrite length_app, Hlen. unfold pos in P1. lia.
  - etrans; [exact S1|]. apply set_code_step.
  - rewrite P2, fmap_app. split.
    + apply NoDup_app. split; [done|]. split; [|done]. intros x Hx1 Hx2. apply (N12 _ Hx1). by right.
    + rewrite <- fmap_app. apply Forall_forall. intros x Hx. apply (within_elem _ _ _ _ W), Hperm. by right.
  - exists w'. split; [done|]. intros N X f HN HX HH. rewrite P2 in HX, HH.
    set (f' := fun x => if x =? at_ then pos (out st1) else f x).
    assert (Hne : forall H, at_ ∉ H.*1 -> Forall (fun '(a, dj) => pos (out st1) <= f a /\
        fits (f a - (a + 1)) /\ X (f a) dj) H -> Forall (fun '(a, dj) => pos (out st1) <= f' a /\
        fits (f' a - (a + 1)) /\ X (f' a) dj) H).
    { intros H Hn HF. apply Forall_forall. intros [a dj] Ha. rewrite Forall_forall in HF.
      unfold f'. destruct (Z.eqb_spec a at_) as [->|]; [|by apply (HF (a, dj))].
      exfalso. apply Hn, list_elem_of_fmap. by exists (at_, dj). }
    destruct (C1 N X f' HN HX) as (T & Seg & L).
    { apply Forall_app in HH as [HH1 HH2]. rewrite fmap_app, elem_of_app in Hout.
      apply Forall_app. split; [apply Hne; [tauto|done]|]. constructor; [|apply Hne; [tauto|done]].
      unfold f'. rewrite Z.eqb_refl. split; [lia|]. split; [split; lia|done]. }
    exists T. split; [|exact L]. unfold w'.
    rewrite (patched_fill _ _ _ _ _ (H1 ++ (at_, d1) :: H2).*1 _ _ Ew) by (done || lia).
    eapply segment_mono; [apply set_code_step|reflexivity| |exact Seg]. auto.
Qed.

(** ** Computations *)

Lemma bindC_ok {A B} (m : C A) (k : A -> C B) st b st' : (m ≫= k) st = Ok (b, st') ->
  exists a st1, m st = Ok (a, st1) /\ k a st1 = Ok (b, st').
Proof.
  unfold mbind, C_bind. destruct (m st) as [[a st1]|]; [|done]. intros H. by exists a, st1.
Qed.

Lemma emit_ok op operand st u st' : emit_ op operand st = Ok (u, st') ->
  exists a, Compiler.emit op operand st = Ok (a, st').
Proof. intros (a & st1 & E & H)%bindC_ok. injection H as _ <-. by exists a. Qed.

Lemma ran_then st d st1 d1 st2 d2 H : ran st d st1 d1 [] ->
  (inv st1 -> step st st1 -> ran st1 d1 st2 d2 H) -> ran st d st2 d2 H.
Proof. intros R1 R2. apply (ran_trans _ _ _ _ _ _ [] H R1), R2; apply R1. Qed.

(** From a stack of [k] values or more, [m] keeps the invariant and leaves [n] more
    values than it found. *)
Definition compiles {A} (k : Z) (m : C A) (n : Z) : Prop := forall st d a st',
  inv st -> k <= d -> 0 <= d -> m st = Ok (a, st') -> ran st d st' (d + n) [].

Lemma compiles_ran {A} k (m : C A) n st d a st' : m st = Ok (a, st') -> compiles k m n ->
  inv st -> k <= d -> 0 <= d -> ran st d st' (d + n) [].
Proof. intros E Hm Hi Hk Hd. exact (Hm st d a st' Hi Hk Hd E). Qed.

Lemma ran_end st d d' : inv st -> d = d' -> ran st d st d' [].
Proof. intros ? <-. by apply ran_refl. Qed.

(** *** What only the running program sees *)

Definition offline {A} (m : C A) : Prop := forall st a st',
  m st = Ok (a, st') -> scopes_ st' = scopes_ st /\ out st' = out st.

Lemma offline_ran {A} (m : C A) st d a st' : m st = Ok (a, st') -> offline m -> inv st ->
  ran st d st' d [].
Proof.
  intros E Hm [H1 H2 H3 H4]. destruct (Hm _ _ _ E) as [Es Eo]. apply ran_quiet.
  - split; by rewrite ?Es, ?Eo.
  - split; rewrite ?Es, ?Eo; reflexivity.
  - by rewrite Eo.
Qed.

Lemma offline_bind {A B} (m : C A) (k : A -> C B) :
  offline m -> (forall a, offline (k a)) -> offline (m ≫= k).
Proof.
  intros Hm Hk st b st' (a & st1 & E1 & E2)%bindC_ok.
  destruct (Hm _ _ _ E1) as [<- <-]. exact (Hk a _ _ _ E2).
Qed.

Lemma offline_ret {A} (a : A) : offline (mret a).
Proof. by intros st b st' [= _ <-]. Qed.

Lemma offline_fail {A} msg : offline (fail (A := A) msg).
Proof. by intros st b st' E. Qed.

Lemma offline_gets {A} (f : cstate -> A) : offline (gets f).
Proof. by intros st b st' [= _ <-]. Qed.

Create HintDb offline.
#[export] Hint Resolve offline_ret offline_fail offline_gets : offline.

(** [offline] follows a computation through its binds and its cases. *)
Ltac offline :=
  repeat match goal with
  | |- offline (_ ≫= _) => apply offline_bind; [|intros]
  | |- offline (unsupported _) => apply offline_fail
  | |- offline (match ?x with _ => _ end) => destruct x
  | |- offline (let '_ := ?x in _) => destruct x
  | |- offline (if ?x then _ else _) => destruct x
  | |- offline _ => solve [eauto with offline]
  end.
