(* ===== verification/CompilerRules.v ===== *)
(** The compiler's primitives (compiler/Compiler.cpp): what only the running program
    sees, constants, slots, names and the values pushed; the tactics that follow a
    computation through its steps, and the rules of the forms without subforms. *)

From S2P Require Import Prelude Bytecode Exceptions ExecutionEngine FrameStack Maps Printer Values.
From S2P Require Import Macros Compiler CodeSegments ModuleCode CompilerSteps.

#[local] Set Warnings "-register-all".

Section Compiled.
Context `{CompilerEnv} (source_ : option (list (Z * list obj))).

Lemma offline_allocate : offline allocate.
Proof. by intros st a st' [= _ <-]. Qed.

Lemma offline_nextGensymId : offline nextGensymId.
Proof. by intros st a st' [= _ <-]. Qed.

Hint Resolve offline_allocate offline_nextGensymId : offline.

Lemma offline_listForm items : offline (listForm items).
Proof. unfold listForm. offline. Qed.

Lemma offline_vectorForm items : offline (vectorForm items).
Proof. unfold vectorForm. offline. Qed.

Lemma offline_freshSymbol prefix : offline (freshSymbol prefix).
Proof. unfold freshSymbol. offline. Qed.

Hint Resolve offline_listForm offline_vectorForm offline_freshSymbol : offline.

Lemma offline_aliasLibraryNamespace name : offline (aliasLibraryNamespace name).
Proof.
  intros st a st'. unfold aliasLibraryNamespace. repeat case_match; try done; intros E; try discriminate E;
    by injection E as _ <-.
Qed.

Lemma offline_expand macro name form env : offline (expand macro name form env).
Proof.
  intros st a st'. unfold expand. destruct (expandMacroCall _ _ _ _ _) as [w [x|what]]; [|done].
  by intros [= _ <-].
Qed.

Lemma offline_localEnv : offline localEnv.
Proof.
  intros st a st'. unfold localEnv. destruct (localSymbols _ _); [by intros [= _ <-]|].
  case_match; by intros [= _ <-].
Qed.

(** Destructuring builds forms. *)
Lemma offline_orDefaults ors defaults : offline (orDefaults ors defaults).
Proof.
  revert defaults. induction ors using list_pairs_ind; intros defaults; cbn [orDefaults]; offline.
Qed.

Lemma offline_allDefaults entries defaults : offline (allDefaults source_ entries defaults).
Proof.
  revert defaults. induction entries using list_pairs_ind; intros defaults; cbn [allDefaults]; offline.
  apply offline_orDefaults.
Qed.

Lemma offline_getForm g defaults key local : offline (getForm g defaults key local).
Proof. unfold getForm. offline. Qed.
Hint Resolve offline_getForm offline_allDefaults : offline.

Lemma offline_keysBindings g defaults kind kwNs names :
  offline (keysBindings g defaults kind kwNs names).
Proof. induction names as [|s names IH]; cbn [keysBindings]; offline. Qed.
Hint Resolve offline_keysBindings : offline.

Lemma offline_vectorBindings rec gvec gseq index seenRest items :
  (forall p v, offline (rec p v)) -> offline (vectorBindings rec gvec gseq index seenRest items).
Proof.
  intros Hr. revert index seenRest.
  induction items as [items IH] using (induction_ltof1 _ length). unfold ltof in IH.
  assert (Hs : forall l, (length l < length items)%nat ->
    forall i s, offline (vectorBindings rec gvec gseq i s l)) by exact IH.
  destruct items as [|b items]; intros index seenRest; cbn [vectorBindings]; offline; apply Hs; cbn; lia.
Qed.

Lemma offline_mapBindings rec g defaults entries : (forall p v, offline (rec p v)) ->
  offline (mapBindings rec g defaults entries).
Proof.
  intros Hr. induction entries using list_pairs_ind; cbn [mapBindings]; unfold keysEntry; offline.
Qed.

Lemma offline_destructure stack pattern value : offline (destructure source_ stack pattern value).
Proof.
  revert pattern value. induction stack as [|stack IH]; intros pattern value; cbn [destructure].
  - by intros st a st' E.
  - destruct pattern; try (by apply offline_fail); offline;
      first [by apply offline_vectorBindings|by apply offline_mapBindings].
Qed.

Lemma offline_destructurePairs stack bindings : offline (destructurePairs source_ stack bindings).
Proof.
  induction bindings using list_pairs_ind; cbn [destructurePairs]; offline; apply offline_destructure.
Qed.

Lemma offline_destructureBindings stack bindings : offline (destructureBindings source_ stack bindings).
Proof. unfold destructureBindings. offline. apply offline_destructurePairs. Qed.

(** Parameters. *)
Hint Resolve offline_destructureBindings offline_aliasLibraryNamespace offline_expand
  offline_localEnv : offline.

Lemma offline_plainParams afterAmp params : offline (plainParams source_ afterAmp params).
Proof. revert afterAmp. induction params; intros; cbn [plainParams]; offline. Qed.

Lemma offline_plainArity params body : offline (plainArity source_ params body).
Proof. unfold plainArity. offline. apply offline_plainParams. Qed.

Lemma offline_kwKeyNames ks : offline (kwKeyNames ks).
Proof. induction ks; cbn [kwKeyNames]; offline. Qed.
Hint Resolve offline_kwKeyNames : offline.

Lemma offline_parseKwEntries es k : offline (parseKwEntries source_ es k).
Proof. revert k. induction es using list_pairs_ind; intros k; cbn [parseKwEntries]; offline. Qed.

Lemma offline_attachDefaults ors keys : offline (attachDefaults ors keys).
Proof. revert keys. induction ors using list_pairs_ind; intros keys; cbn [attachDefaults]; offline. Qed.
Hint Resolve offline_parseKwEntries offline_attachDefaults : offline.

Lemma offline_parseRest rp : offline (parseRest source_ rp).
Proof. unfold parseRest. offline. Qed.
Hint Resolve offline_parseRest : offline.

Lemma offline_splitParams params : offline (splitParams source_ params).
Proof. induction params as [|p params IH]; cbn [splitParams]; offline. Qed.

Lemma offline_bindFixed i params names : offline (bindFixed i params names).
Proof. revert i names. induction params; intros; cbn [bindFixed]; offline. Qed.

Lemma offline_splitTry forms t : offline (splitTry forms t).
Proof. revert t. induction forms; intros t; cbn [splitTry]; offline. Qed.

Lemma offline_hiddenArities arities : offline (hiddenArities arities).
Proof. induction arities; cbn [hiddenArities]; unfold withHidden; offline. Qed.

Lemma offline_withHidden params : offline (withHidden params).
Proof. unfold withHidden. offline. Qed.

Lemma offline_bindingItems what lst : offline (bindingItems what lst).
Proof. unfold bindingItems. offline. Qed.

Lemma offline_loopBindings bindings : offline (loopBindings bindings).
Proof. induction bindings using list_pairs_ind; cbn [loopBindings]; offline. Qed.

Lemma offline_headOf head : offline (headOf head).
Proof. unfold headOf. offline. Qed.

Lemma offline_refuseMacro key name : offline (refuseMacro key name).
Proof. unfold refuseMacro. offline. Qed.

(** *** Constants *)

(** The pool's way of adding one constant. *)
Definition adds (add : ConstPool (obj := Z) -> nat * ConstPool) (e : entry (obj := Z)) : Prop :=
  exists intern r, add = addConst intern r /\ requestEntry r = e.

Lemma constant_ran add e st d i st' : adds add e -> inv st -> constant add st = Ok (i, st') ->
  ran st d st' d [] /\ st' = set_out (set_pool (pool_ (out st')) (out st)) st /\ 0 <= i /\
  exists c, consts_ (pool_ (out st')) !! Z.to_nat i = Some c /\ entryOf c = Some e.
Proof.
  intros (intern & r & -> & <-) [H1 H2 H3 H4]. unfold constant.
  pose proof (addConst_ok intern r (pool_ (out st)) H3) as Hok.
  destruct (addConst intern r (pool_ (out st))) as [k p]. destruct Hok as (Hp & Hk & new & Hc & _).
  intros [= <- <-]. split; [|split; [done|split; [lia|]]].
  - apply ran_quiet; [by split| |done]. split; [|done|reflexivity].
    split; [|done|done]. cbn. rewrite Hc. by apply prefix_app_r.
  - rewrite Nat2Z.id. by apply Hp.
Qed.

Lemma adds_symbol s : adds (addSymbol createSymbol s) (ESymbol s).
Proof. by exists createSymbol, (RSymbol s). Qed.
Lemma adds_named s o : adds (addNamed s o) (ENamed s).
Proof. by exists (fun _ => 0), (RNamed s o). Qed.
Lemma adds_string s : adds (addString s) (EString s).
Proof. by exists (fun _ => 0), (RString s). Qed.
Lemma adds_double z : adds (addDouble z) (EDouble z).
Proof. by exists (fun _ => 0), (RDouble z). Qed.
Lemma adds_datum o : adds (addDatum o) (EDatum o).
Proof. by exists (fun _ => 0), (RDatum o). Qed.
Lemma adds_integer z : exists e, adds (addIntegerConst z) e.
Proof.
  unfold addIntegerConst. destruct (fits_llong z).
  - exists (ELong z). by exists (fun _ => 0), (RLong z).
  - exists (EBig (to_string z)). by exists (fun _ => 0), (RBig (to_string z)).
Qed.

Lemma symbolConst_ran s st d i st' : inv st -> symbolConst s st = Ok (i, st') ->
  ran st d st' d [] /\ st' = set_out (set_pool (pool_ (out st')) (out st)) st /\ 0 <= i /\
  symbolAt (out st') i.
Proof.
  intros Hi E. destruct (constant_ran _ _ _ d _ _ (adds_symbol s) Hi E) as (R & E' & H0 & c & Ec & He).
  split; [done|]. split; [done|]. split; [done|]. exists c. split; [done|].
  unfold entryOf in He. destruct (ckind c); try discriminate He; try done. by destruct (named c).
Qed.

(** *** Slots *)

Lemma inv_top st s ss : inv st -> scopes_ st = s :: ss -> scope_ok (slotsOf ss) s /\ scopes_ok ss.
Proof. intros [Hs _ _ _] E. by rewrite E in Hs. Qed.

(** A step that replaces the scopes. *)
Lemma scopes_ran st d ss : inv st -> scopes_ok ss -> Forall2 scope_step (scopes_ st) ss ->
  ran st d (set_scopes ss st) d [].
Proof.
  intros [H1 H2 H3 H4] Hss Hf. apply ran_quiet; [|by split|done]. split; [done| |done|done].
  cbn. destruct Hf as [|s s' ? ? Hs]; [done|]. cbn in *. by rewrite (step_recur _ _ Hs).
Qed.

Lemma scope_grows outer s n : scope_ok outer s -> nextSlot s <= n -> scope_ok outer (set_nextSlot n s).
Proof.
  intros [H1 H2 H3 H4] Hn. split; cbn; [lia| | |].
  - intros name slot [? ?]%H2. split; lia.
  - eapply Forall_impl; [exact H3|]. intros c [? []]. split; [done|]. split; lia.
  - eapply Forall_impl; [exact H4|]. intros t Ht. eapply Forall_impl; [exact Ht|].
    intros x []. split; lia.
Qed.

Lemma scope_outer outer outer' s : scope_ok outer s -> outer <= outer' -> scope_ok outer' s.
Proof.
  intros [H1 H2 H3 H4] Hn. split; [done|done| |done].
  eapply Forall_impl; [exact H3|]. intros c [[? ?] ?]. split; [|done]. split; lia.
Qed.

Lemma scope_rename outer s names : scope_ok outer s ->
  (forall name slot, names !! name = Some slot -> slot_in (nextSlot s) slot) ->
  scope_ok outer (set_names names s).
Proof. intros [H1 H2 H3 H4] Hn. by split. Qed.

Lemma newSlot_ran st d slot st' : inv st -> scopes_ st <> [] -> newSlot st = Ok (slot, st') ->
  ran st d st' d [] /\ slot_in (topSlots st') slot.
Proof.
  intros Hi Hne. unfold newSlot. destruct (scopes_ st) as [|s ss] eqn:Es; [done|].
  destruct (inv_top _ _ _ Hi Es) as [Hs Hss]. intros [= <- <-]. split.
  - apply scopes_ran; [done|split; [apply scope_grows; [done|lia]|done]|]. rewrite Es.
    constructor; [|reflexivity]. split; cbn; [lia|done|done].
  - pose proof (scope_arity _ _ Hs). split; cbn; lia.
Qed.

Lemma modifyInnermost_ran f st d u st' : inv st -> modifyInnermost f st = Ok (u, st') ->
  (forall s ss, scopes_ st = s :: ss -> scope_ok (slotsOf ss) (f s) /\ scope_step s (f s)) ->
  ran st d st' d [].
Proof.
  intros Hi E Hf. injection E as _ <-. destruct (scopes_ st) as [|s ss] eqn:Es; [by apply ran_refl|].
  destruct (Hf s ss eq_refl) as [Ho Hs]. destruct (inv_top _ _ _ Hi Es) as [_ Hss].
  apply scopes_ran; [done|done|]. rewrite Es. by constructor.
Qed.

Lemma bindName_ran name slot st d u st' : inv st -> bindName name slot st = Ok (u, st') ->
  slot_in (topSlots st) slot -> ran st d st' d [].
Proof.
  intros Hi E Hslot. eapply modifyInnermost_ran; [done|exact E|]. intros s ss Es.
  destruct (inv_top _ _ _ Hi Es) as [Hs _]. unfold topSlots in Hslot. rewrite Es in Hslot.
  split; [|by split]. apply scope_rename; [done|]. intros n x.
  rewrite lookup_insert. case_decide; [by intros [= <-]|by apply Hs].
Qed.

(** What a name named, to be restored. *)
Definition saved_in (n : Z) (saved : bytes * option Z) : Prop :=
  forall slot, saved.2 = Some slot -> slot_in n slot.

Lemma restoreName_ran saved st d u st' : inv st -> restoreName saved st = Ok (u, st') ->
  saved_in (topSlots st) saved -> ran st d st' d [].
Proof.
  intros Hi E Hslot. eapply modifyInnermost_ran; [done|exact E|]. intros s ss Es.
  destruct (inv_top _ _ _ Hi Es) as [Hs _]. unfold topSlots in Hslot. rewrite Es in Hslot.
  split; [|by split]. apply scope_rename; [done|]. intros n x. destruct saved as [name [slot|]]; cbn.
  - rewrite lookup_insert. case_decide; [intros [= <-]; by apply Hslot|by apply Hs].
  - rewrite lookup_delete. case_decide; [done|by apply Hs].
Qed.

Lemma restoreNames_ran saved st d u st' : inv st -> restoreNames saved st = Ok (u, st') ->
  Forall (saved_in (topSlots st)) saved -> ran st d st' d [].
Proof.
  revert u st'. induction saved as [|b saved IH]; intros u st' Hi E HF; cbn [restoreNames] in E.
  - injection E as _ <-. by apply ran_refl.
  - apply Forall_cons in HF as [Hb HF]. apply bindC_ok in E as (u1 & st1 & E1 & E).
    pose proof (IH _ _ Hi E1 HF) as R1. eapply ran_then; [exact R1|]. intros I1 S1.
    eapply restoreName_ran; [done|exact E|]. intros slot Hs. specialize (Hb slot Hs).
    pose proof (step_topSlots _ _ S1). destruct Hb. split; lia.
Qed.

Lemma addTryDepth_ran x st d u st' : inv st -> addTryDepth x st = Ok (u, st') -> ran st d st' d [].
Proof.
  intros Hi E. eapply modifyInnermost_ran; [done|exact E|]. intros s ss Es.
  destruct (inv_top _ _ _ Hi Es) as [[] _]. split; by split.
Qed.

Lemma resolveIn_ok name ss slot ss' : scopes_ok ss -> resolveIn name ss = Some (slot, ss') ->
  scopes_ok ss' /\ Forall2 scope_step ss ss' /\ slot_in (slotsOf ss') slot.
Proof.
  revert slot ss'. induction ss as [|s ss IH]; intros slot ss' Hss E; cbn [resolveIn] in E; [done|].
  destruct Hss as [Hs Hss]. destruct (nameToSlot s !! name) as [x|] eqn:Ex.
  - injection E as <- <-. split; [done|]. split; [reflexivity|]. by apply (scope_names _ _ Hs name).
  - destruct (resolveIn name ss) as [[source ss1]|]; [|done]. injection E as <- <-.
    destruct (IH _ _ Hss eq_refl) as (H1 & H2 & H3). pose proof (scope_arity _ _ Hs) as Ha.
    assert (Hle : slotsOf ss <= slotsOf ss1) by (destruct H2 as [|? ? ? ? []]; cbn; lia).
    split; [split; [|done]|split; [constructor; [split; cbn; [lia|done|done]|done]|split; cbn; lia]].
    pose proof (scope_outer _ _ _ (scope_grows _ _ (nextSlot s + 1) Hs ltac:(lia)) Hle) as [K1 K2 K3 K4].
    split; [done| | |done].
    + cbn. intros n x. rewrite lookup_insert. case_decide; [intros [= <-]; split; lia|by apply K2].
    + cbn. apply Forall_app. split; [exact K3|]. constructor; [|constructor]. cbn. split; [done|split; lia].
Qed.

Lemma resolveLocal_ran name st d slot st' : inv st -> resolveLocal name st = Ok (slot, st') ->
  ran st d st' d [] /\ (forall x, slot = Some x -> slot_in (topSlots st') x).
Proof.
  intros Hi. unfold resolveLocal. destruct (resolveIn name (scopes_ st)) as [[x ss]|] eqn:E.
  - destruct (resolveIn_ok _ _ _ _ (inv_scopes _ Hi) E) as (H1 & H2 & H3). intros [= <- <-].
    split; [by apply scopes_ran|]. by intros y [= <-].
  - intros [= <- <-]. split; [by apply ran_refl|done].
Qed.

End Compiled.

#[export] Hint Resolve offline_allocate offline_nextGensymId offline_listForm offline_vectorForm
  offline_freshSymbol offline_destructureBindings offline_aliasLibraryNamespace offline_expand
  offline_localEnv offline_parseRest offline_plainArity offline_splitParams offline_bindFixed
  offline_splitTry offline_hiddenArities offline_withHidden offline_bindingItems
  offline_loopBindings offline_headOf offline_refuseMacro : offline.

(** ** Following a computation

    [opened] takes a computation's hypothesis apart into those of its steps;
    [follow] then goes through the steps, from the state of the goal on. *)
Ltac open_step :=
  match goal with
  | E : (_ ≫= _) _ = Ok (_, _) |- _ => apply bindC_ok in E as (? & ? & ? & E)
  | E : emit_ _ _ _ = Ok (_, _) |- _ => apply emit_ok in E as [? E]
  | E : mret _ _ = Ok (_, _) |- _ => injection E; clear E; intros; subst
  | E : gets _ _ = Ok (_, _) |- _ => injection E as <- <-
  | E : here _ = Ok (_, _) |- _ => injection E as <- <-
  | E : fail _ _ = Ok (_, _) |- _ => discriminate E
  | E : (let '(_, _) := ?x in _) _ = Ok (_, _) |- _ => destruct x
  end.
Ltac opened := repeat open_step.

Ltac side :=
  cbn [operand_ok needs flowOf fst snd]; unfold slot_in in *;
  solve [done | assumption | lia | intros; congruence | intros ? [= <-]; first [reflexivity|lia]].

(** What a step leaves known. *)
Ltac known := let I := fresh "I" in let S := fresh "S" in intros I S;
  let L := fresh "L" in pose proof (step_topSlots _ _ S) as L.

Ltac follow_with R := eapply ran_then; [exact R|known].

Ltac follow1 :=
  lazymatch goal with
  | |- ran ?st ?d ?st' ?d' ?H =>
      match goal with
      | E : symbolConst ?s st = Ok (?i, ?st1) |- _ =>
          let R := fresh "R" in let K := fresh "K" in let E' := fresh "E" in
          destruct (symbolConst_ran s st d i st1 ltac:(assumption) E) as (R & E' & K & ?);
          follow_with R
      | E : resolveLocal ?s st = Ok (?i, ?st1) |- _ =>
          let R := fresh "R" in let K := fresh "K" in
          destruct (resolveLocal_ran s st d i st1 ltac:(assumption) E) as (R & K); follow_with R
      | E : Compiler.emit _ _ st = Ok (_, ?st1) |- _ =>
          eapply ran_then;
            [eapply ran_emit;
               [assumption|exact E|side|side|side|side|side|side|reflexivity|side]
            |known]
      | E : _ st = Ok (_, ?st1) |- _ =>
          eapply ran_then;
            [first
               [eapply compiles_ran; [exact E|solve [eauto 2 with compiles]|assumption|side|side]
               |eapply offline_ran; [exact E|solve [eauto 2 with offline]|assumption]]
            |known]
      | _ => apply ran_end; [assumption|try lia]
      end
  end.
Ltac follow := repeat follow1.

(** The depth the goal starts from, written otherwise. *)
Ltac at_depth d := lazymatch goal with |- ran _ ?x _ _ _ => replace x with d by lia end.

Create HintDb compiles.

Section Names.
Context `{CompilerEnv}.

Lemma compiles_pushConst add e : adds add e -> compiles 0 (pushConst add) 1.
Proof.
  intros Ha st d u st' Hi _ Hd E. unfold pushConst in E. opened.
  match goal with E : constant _ _ = _ |- _ =>
    destruct (constant_ran _ _ _ d _ _ Ha Hi E) as (R & _ & Hx & c & Ec & _) end.
  apply lookup_lt_Some in Ec. follow_with R. follow.
Qed.

Lemma compiles_pushVar name : compiles 0 (pushVar name) 1.
Proof. intros st d u st' Hi _ Hd E. unfold pushVar in E. opened. follow. Qed.

#[local] Hint Resolve compiles_pushVar compiles_pushConst adds_named adds_string adds_double
  adds_datum : compiles.
Lemma compiles_integer z : compiles 0 (pushConst (addIntegerConst z)) 1.
Proof. destruct (adds_integer z) as [e He]. by eapply compiles_pushConst. Qed.

#[local] Hint Resolve compiles_integer : compiles.

Lemma compiles_pushDatum v : compiles 0 (pushDatum v) 1.
Proof. eapply compiles_pushConst, adds_datum. Qed.

Lemma compiles_emitStoreGlobal key : compiles 1 (emitStoreGlobal key) 0.
Proof.
  intros st d u st' Hi Hk Hd E. unfold emitStoreGlobal in E. opened.
  destruct coreNamespaceActive; opened; follow.
Qed.

Lemma compiles_pushResolved (o : option Z) name st d u st' : inv st -> 0 <= d ->
  (forall x, o = Some x -> slot_in (topSlots st) x) ->
  match o with Some slot => emit_ PUSH_LOCAL slot | None => pushVar name end st = Ok (u, st') ->
  ran st d st' (d + 1) [].
Proof.
  intros Hi Hd Ho E. destruct o as [slot|]; opened; [specialize (Ho slot eq_refl)|]; follow.
Qed.

Lemma compiles_qualifiedPrefix name : compiles 0 (compileQualifiedPrefix name) 1.
Proof.
  intros st d u st' Hi Hk Hd E. unfold compileQualifiedPrefix in E. opened.
  follow1. eapply compiles_pushResolved; [..|exact E]; auto.
Qed.

#[local] Hint Resolve compiles_pushDatum compiles_emitStoreGlobal compiles_qualifiedPrefix : compiles.

Lemma compiles_catchType name : compiles 0 (compileCatchType name) 1.
Proof.
  intros st d u st' Hi Hk Hd E. unfold compileCatchType in E. opened. follow1.
  destruct x as [slot|].
  - specialize (K slot eq_refl). opened. follow.
  - destruct (isQualifiedName _); opened; [|follow]. follow1.
    destruct x as [slot|]; opened; [specialize (K0 slot eq_refl)|]; follow.
Qed.

Lemma compiles_name form written : compiles 0 (compileName form written) 1.
Proof.
  intros st d u st' Hi Hk Hd E. unfold compileName in E. opened. follow1.
  destruct (startsColon x).
  { follow. }
  destruct (stripCoreQualifier x) as [bare|].
  { destruct (_ || _); opened. follow. }
  destruct (isUserQualified x).
  { opened. follow. }
  opened. follow1. destruct x1 as [slot|]; [specialize (K slot eq_refl); opened; follow|].
  opened. eapply ran_then; [eapply offline_ran; [exact H2|offline|assumption]|known].
  destruct (isQualifiedName x); opened; follow.
Qed.

End Names.

#[export] Hint Resolve compiles_pushVar compiles_pushConst compiles_integer compiles_pushDatum
  compiles_emitStoreGlobal compiles_qualifiedPrefix compiles_catchType compiles_name
  adds_named adds_string adds_double adds_datum : compiles.
