(* ===== verification/CompiledCode.v ===== *)
(** The code the compiler emits (compiler/Compiler.cpp): every form, every function
    body and every top-level module is well-formed code. *)

From S2P Require Import Prelude Bytecode Exceptions ExecutionEngine FrameStack Maps Printer Values.
From S2P Require Import Macros Compiler CodeSegments ModuleCode CompilerSteps CompilerRules.

#[local] Set Warnings "-register-all".

Section Compiled.
Context `{CompilerEnv} (source_ : option (list (Z * list obj))).

Section Forms.
Context (cf : obj -> C unit) (stack : nat) (cf_ok : forall form, compiles 0 (cf form) 1).
Hint Resolve cf_ok : compiles.

(** *** Sequences *)

Lemma compiles_forms forms : forms <> [] -> compiles 0 (compileForms cf forms) 1.
Proof.
  induction forms as [|f [|g forms] IH]; intros Hne st d u st' Hi Hk Hd E; [done| |].
  - cbn [compileForms] in E. follow.
  - change (compileForms cf (f :: g :: forms)) with
      (_ ← cf f; _ ← Compiler.emit POP 0; compileForms cf (g :: forms)) in E.
    opened. do 2 follow1. eapply ran_depth; [eapply IH; (done || lia)|lia].
Qed.

Lemma compiles_do forms : compiles 0 (compileDo cf forms) 1.
Proof.
  intros st d u st' Hi Hk Hd E. destruct forms as [|f forms]; cbn [compileDo] in E; opened; [follow|].
  by apply (compiles_forms (f :: forms)) with u.
Qed.

Lemma compiles_all forms : compiles 0 (compileAll cf forms) (Z.of_nat (length forms)).
Proof.
  induction forms as [|f forms IH]; intros st d u st' Hi Hk Hd E; cbn [compileAll length] in *; opened.
  - apply ran_end; [done|lia].
  - follow1. eapply ran_depth; [eapply IH; (done || lia)|lia].
Qed.

Lemma compiles_effects forms : compiles 0 (compileEffects cf forms) 0.
Proof.
  induction forms as [|f forms IH]; intros st d u st' Hi Hk Hd E; cbn [compileEffects] in *; opened; follow.
Qed.

Hint Resolve compiles_do compiles_all compiles_effects : compiles.

Lemma compiles_call args : compiles 1 (compileCall cf args) 0.
Proof.
  intros st d u st' Hi Hk Hd E. unfold compileCall in E. opened.
  follow1. destruct (_ && _); follow.
Qed.

Lemma compiles_operands op operand args : 0 <= operand -> op ∈ [ADD; SUB; MUL; LT; LE; GT; GE; EQ] ->
  compiles 1 (compileOperands cf op operand args) 0.
Proof.
  intros Ho Hop. induction args as [|a args IH]; intros st d u st' Hi Hk Hd E;
    cbn [compileOperands] in E; opened; [follow|].
  follow1. assert (R : ran x0 (d + 1) x2 d []).
  { repeat (apply elem_of_cons in Hop as [->|Hop];
      [eapply ran_emit; [assumption|eassumption|side|side|side|side|side|side|reflexivity|side]|]).
    by apply elem_of_nil in Hop. }
  follow_with R. follow.
Qed.

Hint Resolve compiles_call : compiles.

Lemma compiles_literal builder items : compiles 0 (compileLiteral cf builder items) 1.
Proof. intros st d u st' Hi Hk Hd E. unfold compileLiteral in E. opened. follow. Qed.

Lemma compiles_set form elems : compiles 0 (compileSet cf form elems) 1.
Proof.
  intros st d u st' Hi Hk Hd E. unfold compileSet in E. destruct (forallb _ _); opened; follow.
Qed.

Lemma compiles_def lst : compiles 0 (compileDef cf lst) 1.
Proof.
  intros st d u st' Hi Hk Hd E. unfold compileDef in E.
  destruct (negb _); [done|]. destruct (if isNameForm _ then _ else _); opened. follow.
Qed.

Lemma compiles_quote lst : compiles 0 (compileQuote cf lst) 1.
Proof.
  intros st d u st' Hi Hk Hd E. unfold compileQuote in E.
  destruct (negb _); [done|]. destruct (isNameForm _); [follow|]. destruct (isLiteral _); follow.
Qed.

Lemma compiles_apply lst : compiles 0 (compileApply cf lst) 1.
Proof.
  intros st d u st' Hi Hk Hd E. unfold compileApply in E. destruct (Nat.ltb_spec (length lst) 3); [done|].
  opened. follow1. destruct (length lst =? 3)%nat; opened; [follow|].
  pose proof (length_drop lst 2). follow.
Qed.

Lemma compiles_throw lst : compiles 0 (compileThrow cf lst) 1.
Proof.
  intros st d u st' Hi Hk Hd E. unfold compileThrow in E. destruct (negb _); [done|]. opened. follow1.
  eapply ran_emit; [assumption|exact E|side|side|side|side|side|side|reflexivity|by intros].
Qed.

Lemma compiles_else lst i : compiles 0 (compileElse cf lst i) 1.
Proof.
  intros st d u st' Hi Hk Hd E. unfold compileElse in E. destruct (lst !! i); opened; follow.
Qed.

(** *** Forward jumps *)

Lemma ran_branch op st a st' d : Compiler.emit op 0 st = Ok (a, st') ->
  op = JUMP_IF_FALSE \/ op = JUMP_IF_TRUE -> inv st -> 0 <= d -> ran st (d + 1) st' d [(a, d)].
Proof.
  intros E Hop Hi Hd.
  eapply (ran_jump op st a st' (d + 1) d d (Some d) Hi E); [|lia|lia|by intros ? [= <-]].
  destruct Hop as [-> | ->]; cbn; do 3 f_equal; lia.
Qed.

Lemma ran_goto st a st' d d' : Compiler.emit JUMP 0 st = Ok (a, st') -> inv st -> 0 <= d ->
  ran st d st' d' [(a, d)].
Proof. intros E Hi Hd. by eapply (ran_jump JUMP st a st' d d' d None Hi E). Qed.

Lemma ran_tryBegin st a st' d : Compiler.emit TRY_BEGIN 0 st = Ok (a, st') -> inv st -> 0 <= d ->
  ran st d st' d [(a, d + 1)].
Proof.
  intros E Hi Hd. eapply (ran_jump TRY_BEGIN st a st' d d (d + 1) (Some d) Hi E); [done|lia| |].
  - intros [= ?]. lia.
  - by intros ? [= <-].
Qed.

Lemma ran_pos st d st' d' J : ran st d st' d' J -> pos (out st) <= pos (out st').
Proof. intros [_ _ _ (w & E & _)]. rewrite (pos_app _ _ _ E). lia. Qed.

(** A step after others, pending jumps kept. *)
Lemma ran_next st d st1 d1 st2 d2 J : ran st d st1 d1 J -> (inv st1 -> step st st1 -> ran st1 d1 st2 d2 []) ->
  ran st d st2 d2 J.
Proof. intros R1 R2. rewrite <- (app_nil_r J). apply (ran_trans _ _ _ _ _ _ _ _ R1), R2; apply R1. Qed.

Lemma ran_jumps_next st d st1 d1 st2 d2 J1 J2 : ran st d st1 d1 J1 ->
  (inv st1 -> step st st1 -> ran st1 d1 st2 d2 J2) -> ran st d st2 d2 (J1 ++ J2).
Proof. intros R1 R2. apply (ran_trans _ _ _ _ _ _ _ _ R1), R2; apply R1. Qed.

(** The first pending jump retargeted here. *)
Lemma ran_land st d st1 d1 J at_ u st2 : ran st d st1 d1 ((at_, d1) :: J) ->
  patchTo at_ (pos (out st1)) st1 = Ok (u, st2) -> ran st d st2 d1 J.
Proof. apply (ran_patch st d st1 d1 [] J). Qed.

Lemma compiles_if lst : compiles 0 (compileIf cf lst) 1.
Proof.
  intros st d u st' Hi Hk Hd E. unfold compileIf in E. destruct (negb _); [done|].
  destruct (isLiteralTrue _); [follow|]. destruct (isLiteralFalse _).
  { by eapply compiles_else. }
  opened. follow1. eapply ran_land; [|eassumption].
  eapply ran_next; [|intros; eapply compiles_else; eassumption || lia].
  eapply ran_land; [|eassumption].
  eapply (ran_jumps_next _ _ _ _ _ _ [_] [_]);
    [eapply ran_next; [eapply ran_branch; [eassumption|by left|done|done]|]|intros; eapply ran_goto; eassumption || lia].
  intros. eapply compiles_ran; [eassumption|apply cf_ok|..]; done.
Qed.

Lemma patchTo_pos at_ target st u st' : patchTo at_ target st = Ok (u, st') ->
  pos (out st') = pos (out st).
Proof.
  unfold patchTo. intros (_ & _ & h & ->)%patchOperand_inv. unfold pos. cbn. by rewrite length_insert.
Qed.

(** The jumps at [ats], all landing at depth [d]. *)
Definition landing (d : Z) (ats : list Z) : pendingJumps := map (fun a => (a, d)) ats.

Lemma ran_landAll st d st1 d1 ats e u st2 : ran st d st1 d1 (landing d1 ats) ->
  patchAll ats e st1 = Ok (u, st2) -> e = pos (out st1) -> ran st d st2 d1 [].
Proof.
  revert st1. induction ats as [|a ats IH]; intros st1 R E ->; cbn [patchAll] in E; opened; [done|].
  eapply IH; [eapply ran_land; [exact R|eassumption]|exact E|]. symmetry. by eapply patchTo_pos.
Qed.

Lemma compiles_chain jump forms st d ats st' : jump = JUMP_IF_FALSE \/ jump = JUMP_IF_TRUE ->
  forms <> [] -> inv st -> 0 <= d -> compileChain cf jump forms st = Ok (ats, st') ->
  ran st d st' (d + 1) (landing (d + 1) ats).
Proof.
  intros Hj. revert st ats. induction forms as [|f [|g forms] IH]; intros st ats Hne Hi Hd E; [done| |].
  - cbn [compileChain] in E. opened. follow.
  - change (compileChain cf jump (f :: g :: forms)) with
      (_ ← cf f; _ ← Compiler.emit DUP 0; at_ ← Compiler.emit jump 0; _ ← Compiler.emit POP 0;
       ats ← compileChain cf jump (g :: forms); mret (at_ :: ats)) in E.
    opened. do 2 follow1.
    eapply (ran_jumps_next _ _ _ _ _ _ [_] (landing (d + 1) _)).
    + eapply ran_branch; eassumption || lia.
    + intros. follow1. at_depth d. by eapply IH.
Qed.

Lemma compiles_logic jump empty forms : jump = JUMP_IF_FALSE \/ jump = JUMP_IF_TRUE ->
  empty = PUSH_TRUE \/ empty = PUSH_NIL -> compiles 0 (compileLogic cf jump empty forms) 1.
Proof.
  intros Hj He st d u st' Hi Hk Hd E. unfold compileLogic in E. destruct forms as [|f forms].
  - destruct He as [-> | ->]; opened; follow.
  - opened. eapply ran_landAll; [eapply (compiles_chain jump (f :: forms)); eassumption || done|eassumption|done].
Qed.

(** *** [try] *)

Hint Resolve compiles_all compiles_literal compiles_set compiles_def compiles_quote compiles_apply
  compiles_throw compiles_if : compiles.

Lemma slot_later n n' i : slot_in n i -> n <= n' -> slot_in n' i.
Proof. intros [? ?] ?. split; lia. Qed.

(** What a name names in the innermost scope is a slot of it. *)
Lemma saved_top st name n : inv st -> topSlots st <= n ->
  saved_in n (name, withInnermost ∅ nameToSlot st !! name).
Proof.
  intros Hi Hn slot. unfold withInnermost, topSlots in *. cbn. destruct (scopes_ st) as [|s ss] eqn:Es; [done|].
  destruct (inv_top _ _ _ Hi Es) as [Hs _]. intros Hx%(scope_names _ _ Hs). by eapply slot_later.
Qed.

(** A name bound around [m]. *)
Lemma bound_ran {A} (m : C A) name slot k n st st1 st2 st' d u a u' : compiles k m n ->
  inv st -> k <= d -> 0 <= d -> slot_in (topSlots st) slot ->
  bindName name slot st = Ok (u, st1) -> m st1 = Ok (a, st2) ->
  restoreName (name, withInnermost ∅ nameToSlot st !! name) st2 = Ok (u', st') ->
  ran st d st' (d + n) [].
Proof.
  intros Hm Hi Hk Hd Hs E1 E2 E3.
  eapply ran_then; [by eapply bindName_ran|known].
  eapply ran_then; [eapply compiles_ran; eassumption|known].
  eapply restoreName_ran; [done|exact E3|]. apply saved_top; [done|lia].
Qed.

Definition clause_ok (c : CatchClause) : Prop :=
  0 <= clauseClassId c -> validClass (clauseClassId c) = true.

Lemma splitTry_clauses forms t st t' st' : Forall clause_ok (catches t) ->
  splitTry forms t st = Ok (t', st') -> Forall clause_ok (catches t').
Proof.
  revert t st. induction forms as [|f forms IH]; intros t st Hc E; cbn [splitTry] in E; [by opened|].
  destruct (finallyForms t); [done|]. case_bool_decide.
  - destruct (_ || _); [done|]. eapply IH, E. apply Forall_app. split; [done|]. constructor; [|done].
    unfold clause_ok. cbn [clauseClassId]. destruct (_ || _); [done|]. intros Hp.
    destruct (exceptionClassId_sound _ Hp) as (c & Ec & _). unfold classAt in Ec. by case_match.
  - case_bool_decide; [by eapply IH, E|]. destruct (catches t); [|done]. eapply IH, E. constructor.
Qed.

Lemma compiles_matchClass c : clause_ok c -> compiles 1
  (if 0 <=? clauseClassId c then emit_ EXC_MATCH (clauseClassId c)
   else _ ← compileCatchType (clauseClass c); i ← symbolConst (clauseClass c); emit_ EXC_MATCH_TYPE i) 0.
Proof.
  intros Hc st d u st' Hi Hk Hd E. destruct (Z.leb_spec 0 (clauseClassId c)) as [Hp|_].
  - specialize (Hc Hp). opened. follow.
  - opened. follow.
Qed.

Hint Resolve compiles_matchClass : compiles.

Lemma clauses_ran exSlot cs st d ats st' : Forall clause_ok cs -> inv st -> 0 <= d ->
  slot_in (topSlots st) exSlot -> compileClauses cf exSlot cs st = Ok (ats, st') ->
  ran st d st' d (landing (d + 1) ats).
Proof.
  intros Hcs. revert st ats. induction Hcs as [|c cs Hc _ IH]; intros st ats Hi Hd Hs E;
    cbn [compileClauses] in E; unfold namesOf in E; opened; [by apply ran_end|].
  do 2 follow1. at_depth (d + 1).
  eapply (ran_jumps_next _ _ _ _ _ _ [_] (landing (d + 1) _)).
  - eapply ran_land; [|eassumption].
    eapply (ran_jumps_next _ _ _ _ _ _ [_] [_]); [|intros; eapply ran_goto; eassumption || lia].
    eapply ran_next; [eapply ran_branch; [eassumption|by left|done|lia]|known].
    eapply (bound_ran (compileDo cf (clauseBody c)) _ _ 0); eauto with compiles.
    eapply slot_later; [exact Hs|lia].
  - known. eapply IH; try done. eapply slot_later; [exact Hs|lia].
Qed.

(** The scopes were not empty, and are not. *)
Ltac nonempty :=
  first [ assumption
        | match goal with S : step _ ?b |- scopes_ ?b <> [] => apply (step_nonempty _ _ S); nonempty end ].

(** A slot taken. *)
Ltac new_slot :=
  lazymatch goal with
  | |- ran ?st ?d _ _ _ =>
      match goal with
      | E : newSlot st = Ok (?slot, ?st1) |- _ =>
          let R := fresh "R" in let K := fresh "K" in
          destruct (newSlot_ran st d slot st1 ltac:(assumption) ltac:(nonempty) E) as (R & K); follow_with R
      end
  end.

Lemma ran_stop op operand st a st' d d' : op = RETHROW -> slot_in (topSlots st) operand ->
  Compiler.emit op operand st = Ok (a, st') -> inv st -> 0 <= d -> ran st d st' d' [].
Proof.
  intros -> Hs E Hi Hd. eapply ran_emit; [done|exact E|by destruct Hs|done|done|done|done|done|done|done].
Qed.

Lemma catches_ran body cs st d u st' : Forall clause_ok cs -> inv st -> scopes_ st <> [] -> 0 <= d ->
  compileCatches cf body cs st = Ok (u, st') -> ran st d st' (d + 1) [].
Proof.
  intros Hcs Hi NE Hd E. unfold compileCatches in E.
  destruct cs as [|c cs]; [by eapply compiles_do|]. set (clauses := c :: cs) in *. clearbody clauses.
  opened. eapply (ran_landAll _ _ _ _ (_ :: _)); [|exact E|done].
  eapply (ran_jumps_next _ _ _ _ _ _ [_] (landing (d + 1) _)).
  - eapply ran_land; [|eassumption].
    eapply (ran_jumps_next _ _ _ _ _ _ [_] [_]); [|intros; eapply ran_goto; eassumption || lia].
    eapply ran_next; [eapply ran_tryBegin; eassumption|known]. follow.
  - known. new_slot. follow1. at_depth d.
    eapply ran_next; [eapply clauses_ran; try eassumption; eapply slot_later; [eassumption|lia]|known].
    eapply ran_stop; [done| |eassumption|done|lia]. eapply slot_later; [eassumption|lia].
Qed.

Lemma finally_ran inner fin st d u st' : inv st -> scopes_ st <> [] -> 0 <= d ->
  (forall st a st', inv st -> scopes_ st <> [] -> inner st = Ok (a, st') -> ran st d st' (d + 1) []) ->
  compileFinally cf inner fin st = Ok (u, st') -> ran st d st' (d + 1) [].
Proof.
  intros Hi NE Hd Hinner E. unfold compileFinally in E. destruct fin as [forms|]; [|by eapply Hinner].
  opened. eapply ran_land; [|exact E].
  eapply (ran_jumps_next _ _ _ _ _ _ [_] []).
  - match goal with E1 : patchTo _ _ _ = Ok (_, ?s), _ : newSlot ?s = _ |- _ => eapply ran_land; [|exact E1] end.
    eapply (ran_jumps_next _ _ _ _ _ _ [_] [_]); [|intros; eapply ran_goto; eassumption || lia].
    eapply ran_next; [eapply ran_tryBegin; eassumption|known].
    eapply ran_then; [eapply Hinner; eassumption || nonempty|known]. follow.
  - known. new_slot. follow1. at_depth d. follow1. at_depth d.
    eapply ran_stop; [done| |eassumption|done|lia]. eapply slot_later; [eassumption|lia].
Qed.

(** *** [let], [loop] and [recur] *)

Lemma bindAll_ran what bindings st d saved slots st' : 
  bindAll cf what bindings st = Ok ((saved, slots), st') -> inv st -> scopes_ st <> [] -> 0 <= d ->
  ran st d st' d [] /\ Forall (saved_in (topSlots st')) saved /\
  Forall (slot_in (topSlots st')) slots.
Proof.
  revert st saved slots. induction bindings as [|b|b v bindings IH _] using list_pairs_ind;
    intros st saved slots E Hi NE Hd; cbn [bindAll] in E.
  - opened. split; [by apply ran_refl|done].
  - opened. split; [by apply ran_refl|done].
  - destruct (negb _); [done|]. destruct (isQualifiedName _); [done|]. unfold namesOf in E. opened.
    match goal with E1 : cf _ _ = _, E2 : newSlot ?s = Ok (?n, ?s2), E3 : bindName _ _ _ = _,
      E4 : Compiler.emit _ _ _ = _, E5 : bindAll _ _ _ ?s4 = Ok (?r, _) |- _ =>
      destruct r as [saved slots];
      assert (R1 : ran st d s (d + 1) []) by follow;
      destruct (newSlot_ran s (d + 1) n s2 (ran_inv _ _ _ _ _ R1)
                  (step_nonempty _ _ (ran_step _ _ _ _ _ R1) NE) E2) as [R2 K];
      assert (R4 : ran s2 (d + 1) s4 d []);
      [pose proof (ran_inv _ _ _ _ _ R2);
       eapply ran_then; [by eapply bindName_ran|known]; follow|];
      assert (R : ran st d s4 d []) by (eapply ran_then; [exact R1|intros; by eapply ran_then]);
      destruct (IH s4 saved slots E5 (ran_inv _ _ _ _ _ R) (step_nonempty _ _ (ran_step _ _ _ _ _ R) NE) Hd)
        as (R' & Hsaved & Hslots);
      pose proof (step_topSlots _ _ (ran_step _ _ _ _ _ R'));
      pose proof (step_topSlots _ _ (ran_step _ _ _ _ _ R4));
      pose proof (step_topSlots _ _ (ran_step _ _ _ _ _ R1));
      pose proof (step_topSlots _ _ (ran_step _ _ _ _ _ R2)) end.
    split; [by eapply ran_then|]. split; constructor; try done.
    + apply saved_top; [apply R1|lia].
    + eapply slot_later; [exact K|lia].
Qed.

Lemma storeSlots_ran sl st d u st' : Forall (slot_in (topSlots st)) sl -> inv st -> 0 <= d ->
  storeSlots sl st = Ok (u, st') -> ran st (d + Z.of_nat (length sl)) st' d [].
Proof.
  intros Hs. revert d u st'. induction sl as [|x sl IH]; intros d u st' Hi Hd E; cbn [storeSlots length] in *.
  - opened. apply ran_end; [done|cbn; lia].
  - apply Forall_cons in Hs as [Hx Hs]. opened.
    match goal with E1 : storeSlots _ _ = _ |- _ =>
      pose proof (IH Hs (d + 1) _ _ Hi ltac:(lia) E1) as R end.
    eapply ran_then; [|known].
    + replace (d + Z.of_nat (S (length sl))) with (d + 1 + Z.of_nat (length sl)) by lia. exact R.
    + pose proof (slot_later _ _ _ Hx L). follow.
Qed.

Lemma ran_back st d a st1 t u st' d' : inv st -> 0 <= d -> 0 <= t <= pos (out st) ->
  Compiler.emit JUMP_BACK 0 st = Ok (a, st1) -> Compiler.patchOperand a (a + 1 - t) st1 = Ok (u, st') ->
  ran st d st' d' [].
Proof.
  intros Hi Hd Ht (-> & _ & h & ->)%emit_inv (_ & Hmax & h' & ->)%patchOperand_inv.
  assert (Hoff : 1 <= pos (out st) + 1 - t <= pos (out st) + 1) by lia.
  set (off := pos (out st) + 1 - t) in *. clearbody off.
  assert (Hk : Z.to_nat (pos (out st)) = (length (code_ (out st)) + 0)%nat) by (unfold pos; lia).
  cbn [out set_out code_ set_code] in *. rewrite Hk, insert_app_r.
  rewrite app_nth2_plus. cbn [nth insert list_insert].
  rewrite retarget_instruction by (split; done || lia).
  eapply (ran_words st d [instruction JUMP_BACK off] h' d' []); [done|split; constructor|].
  intros N X f HN HX _. exists [d]. rewrite patched_nil. split; [|apply lands_first].
  apply segment_one; [split; lia|done|done|done|cbn; lia|intros _; lia|done|done].
Qed.

Lemma compiles_recur args : compiles 0 (compileRecur cf args) 1.
Proof.
  intros st d u st' Hi Hk Hd E. unfold compileRecur in E. opened.
  destruct (scopes_ st) as [|s ss] eqn:Es; unfold withInnermost in E; rewrite Es in E; [done|].
  destruct (recurStack s) as [|tgt ts] eqn:Er; [done|]. cbn [head] in E.
  destruct (negb _); [done|]. destruct (Nat.eqb_spec (length args) (length (slots tgt))) as [Hl|]; [|done].
  cbn [negb] in E. opened. destruct (inv_top _ _ _ Hi Es) as [Hs _].
  pose proof (scope_targets _ _ Hs) as Ht. rewrite Er in Ht. apply Forall_cons in Ht as [Ht _].
  pose proof (inv_targets _ Hi) as Hp. rewrite Es in Hp. cbn in Hp. rewrite Er in Hp.
  apply Forall_cons in Hp as [Hp _].
  match goal with E1 : compileAll _ _ _ = Ok (?a1, ?st1), E2 : storeSlots _ _ = _ |- _ =>
    pose proof (compiles_all args st d a1 st1 Hi Hk Hd E1) as R1; rewrite Hl in R1;
    pose proof (step_topSlots _ _ (ran_step _ _ _ _ _ R1)) as L1;
    assert (Hsl : Forall (slot_in (topSlots st1)) (slots tgt));
      [eapply Forall_impl; [exact Ht|]; intros i Hin; eapply slot_later; [exact Hin|];
       unfold topSlots in L1 at 1; rewrite Es in L1; exact L1|];
    pose proof (storeSlots_ran _ _ d _ _ Hsl (ran_inv _ _ _ _ _ R1) Hd E2) as R2 end.
  pose proof (ran_pos _ _ _ _ _ R1). pose proof (ran_pos _ _ _ _ _ R2).
  follow_with R1. follow_with R2. eapply ran_back; try eassumption. lia.
Qed.

(** A recur target around [m]. *)
Lemma recur_ran (m : C unit) t st u1 st1 u st2 u2 st3 d n :
  pushRecur t st = Ok (u1, st1) -> m st1 = Ok (u, st2) -> popRecur st2 = Ok (u2, st3) ->
  (forall st u st', inv st -> m st = Ok (u, st') -> ran st d st' (d + n) []) ->
  inv st -> Forall (slot_in (topSlots st)) (slots t) -> 0 <= bodyStart t <= pos (out st) ->
  ran st d st3 (d + n) [].
Proof.
  intros E1 E2 E3 Hm Hi Ht Hp. injection E1 as _ <-. injection E3 as _ <-.
  destruct (scopes_ st) as [|s ss] eqn:Es.
  - pose proof (Hm _ _ _ Hi E2) as R. pose proof (step_empty _ _ (ran_step _ _ _ _ _ R) Es) as E'.
    by rewrite E'.
  - destruct (inv_top _ _ _ Hi Es) as [Hs Hss]. set (s1 := set_recurStack (t :: recurStack s) s) in *.
    assert (Hi1 : inv (set_scopes (s1 :: ss) st)).
    { destruct Hi as [H1 H2 H3 H4]. rewrite Es in H2. destruct Hs as [K1 K2 K3 K4].
      split; [split; [split; [done|done|done|]|done]| |done|done].
      - constructor; [|done]. unfold topSlots in Ht. by rewrite Es in Ht.
      - cbn. by constructor. }
    destruct (Hm _ _ _ Hi1 E2) as [Hi2 [Hg Hsame Hsc] [ND HW] Hcode].
    inversion Hsc as [|? s2 ? ss2 Hs12 Hss2 E1 E2']; subst.
    destruct (inv_top _ s2 ss2 Hi2 (eq_sym E2')) as [[K1 K2 K3 K4] Hss'].
    pose proof (step_recur _ _ Hs12) as Er. cbn in Er. rewrite Er in K4. rewrite Er. cbn [tail].
    destruct Hi2 as [L1 L2 L3 L4]. rewrite <- E2' in L2. cbn in L2. rewrite Er in L2.
    apply Forall_cons in K4 as [_ K4]. apply Forall_cons in L2 as [_ L2].
    split; [by split|split; [done|done|]|done|].
    + rewrite Es. constructor; [|done]. destruct Hs12. by split.
    + destruct Hcode as (w & Ew & Hw). exists w. split; [done|]. intros N X f HN. apply Hw.
      unfold topSlots in *. cbn in HN. by rewrite <- E2'.
Qed.

Lemma defaults_ran slot keys st d u st' : 0 <= slot -> slot + Z.of_nat (length keys) <= topSlots st ->
  inv st -> 0 <= d -> compileDefaults cf slot keys st = Ok (u, st') -> ran st d st' d [].
Proof.
  revert slot st u. induction keys as [|[name [f|]] keys IH]; intros slot st u H0 Hs Hi Hd E;
    cbn [compileDefaults length] in *.
  - opened. by apply ran_end.
  - opened. do 3 follow1. at_depth (d + 1).
    eapply ran_then with (d1 := d).
    + eapply ran_land; [|eassumption]. eapply ran_next; [eapply ran_branch; [eassumption|by left|done|done]|known].
      follow.
    + known. eapply IH; [..|exact E]; lia || done.
  - eapply IH; [..|exact E]; lia || done.
Qed.

Lemma ran_return st st1 a st2 : ran st 0 st1 1 [] -> code_ (out st) = [] ->
  Compiler.emit RETURN 0 st1 = Ok (a, st2) ->
  inv st2 /\ step st st2 /\ forall N, topSlots st2 <= N ->
    exists T, segment (out st2) N 0 (code_ (out st2)) T nowhere /\ T !! O = Some 0.
Proof.
  intros [Hi Hs _ (w & Ew & Hw)] Hc E. apply emit_inv in E as (-> & Hmax & h & ->).
  assert (Hp : pos (out st) = 0) by (unfold pos; by rewrite Hc).
  assert (Hp1 : pos (out st1) = Z.of_nat (length w)) by (by rewrite (pos_app _ _ _ Ew), Hp).
  split; [apply set_code_inv; [done|rewrite length_app; lia]|].
  split; [etrans; [exact Hs|apply set_code_step]|]. intros N HN.
  destruct (Hw N (lands (pos (out st1)) [1] nowhere) (fun _ => 0) HN) as (T & Seg & L);
    [apply lands_first|done|]. rewrite patched_nil, Hp in Seg. rewrite Hp in L.
  exists (T ++ [1]). split.
  - cbn [out set_out code_ set_code]. rewrite Ew, Hc. cbn [app].
    apply segment_app; rewrite Z.add_0_l, <- Hp1.
    + eapply segment_mono; [apply set_code_step|reflexivity| |exact Seg]. auto.
    + apply segment_one; done.
  - unfold lands in L. pose proof (segment_length _ _ _ _ _ _ Seg) as Hl.
    destruct (Z.ltb_spec 0 (0 + Z.of_nat (length T))) as [Hlt|Hge].
    + rewrite lookup_app_l by lia. by destruct L.
    + unfold lands in L. rewrite Hp1, <- Hl in L. destruct T; cbn in Hge; [|lia]. cbn in L.
      by destruct L as [_ [=]].
Qed.

(** *** A function body *)

(** The parameters of a body are being given slots: [n] so far, of the [a] fixed ones
    and those after them. *)
Record opening (base : list Scope) (a n : Z) (st : cstate) : Prop := {
  opening_inv : inv st;
  opening_scope : exists s, scopes_ st = s :: base /\ nextSlot s = n /\ scopeArity s = a;
  opening_code : code_ (out st) = [];
  opening_arity : arity_ (out st) = a;
  opening_captures : captureSpecs_ (out st) = [];
  opening_keys : Forall (fun k => slot_in n (kwSlot k)) (kwKeys_ (out st));
  opening_as : asSlot_ (out st) < n;
}.

Lemma opening_slot base a n st name slot st1 u st' : opening base a n st -> 0 <= n ->
  newSlot st = Ok (slot, st1) -> bindName name slot st1 = Ok (u, st') ->
  slot = n /\ opening base a (n + 1) st'.
Proof.
  intros [Hi (s & Es & En & Ea) Hc Har Hcap Hk Has] Hn E1 E2.
  destruct (newSlot_ran st 0 _ _ Hi ltac:(by rewrite Es) E1) as [R1 K].
  pose proof (bindName_ran _ _ _ 0 _ _ (ran_inv _ _ _ _ _ R1) E2 K) as R2.
  unfold newSlot in E1. rewrite Es in E1. injection E1 as <- <-. injection E2 as _ <-.
  split; [done|]. split; [apply R2| |done|done|done| |].
  - eexists. split; [done|]. cbn. split; [lia|done].
  - eapply Forall_impl; [exact Hk|]. intros k [? ?]. split; lia.
  - cbn. lia.
Qed.

Lemma opening_module base a n st m : opening base a n st -> pool_ m = pool_ (out st) ->
  blocks_ m = blocks_ (out st) -> code_ m = code_ (out st) -> arity_ m = a -> captureSpecs_ m = [] ->
  Forall (fun k => slot_in n (kwSlot k)) (kwKeys_ m) -> asSlot_ m < n -> opening base a n (set_out m st).
Proof.
  intros [[H1 H2 H3 H4] Hs Hc Har Hcap Hk Has] E1 E2 E3 E4 E5 Hk' Has'.
  split; cbn; [|done|congruence|done|done|done|done].
  split; cbn; [done| |by rewrite E1|by rewrite E2]. unfold pos. by rewrite E3.
Qed.

Lemma opening_keys_bound base a n keys st u st' : opening base a n st -> 0 <= n ->
  bindKeys keys st = Ok (u, st') -> opening base a (n + Z.of_nat (length keys)) st'.
Proof.
  revert n st u. induction keys as [|[name o] keys IH]; intros n st u Ho Hn E; cbn [bindKeys length] in *.
  - opened. by rewrite Z.add_0_r.
  - opened.
    match goal with E1 : newSlot _ = _, E2 : bindName _ _ _ = _, E3 : modify _ _ = _ |- _ =>
      destruct (opening_slot base a n _ _ _ _ _ _ Ho Hn E1 E2) as [-> [G1 G2 G3 G4 G5 G6 G7]];
      injection E3 as _ <- end.
    replace (n + Z.of_nat (S (length keys))) with (n + 1 + Z.of_nat (length keys)) by lia.
    eapply IH; [|lia|exact E].
    apply opening_module; try done. cbn. apply Forall_app. split; [done|]. constructor; [|done].
    cbn. split; lia.
Qed.

Lemma bindRest_opening base a r st u st' : opening base a a st -> 0 <= a ->
  bindRest r st = Ok (u, st') -> exists n, opening base a n st' /\ a <= n /\
    (forall keys asName, r = RestKeys keys asName -> a + Z.of_nat (length keys) <= n).
Proof.
  intros Ho Ha E. destruct r as [|name|keys asName]; cbn [bindRest] in E.
  - opened. exists a. split; [done|]. split; [lia|done].
  - opened. exists (a + 1). split; [by eapply opening_slot|]. split; [lia|done].
  - opened. match goal with E1 : bindKeys _ _ = _ |- _ =>
      pose proof (opening_keys_bound _ _ _ _ _ _ _ Ho Ha E1) as Hk end.
    destruct asName as [|c asName].
    + opened. eexists. split; [exact Hk|]. split; [lia|]. by intros ? ? [= <- <-].
    + opened. exists (a + Z.of_nat (length keys) + 1). split; [|split; [lia|intros ? ? [= <- <-]; lia]].
      match goal with E1 : newSlot _ = _, E2 : bindName _ _ _ = _ |- _ =>
        destruct (opening_slot base a _ _ _ _ _ _ _ Hk ltac:(lia) E1 E2) as [-> [G1 G2 G3 G4 G5 G6 G7]] end.
      injection E as _ <-. apply opening_module; try done. cbn. lia.
Qed.

(** A compiled body: well-formed, its captures slots of the enclosing frame. *)
Definition body_ok (slots_ : Z) (m : module) : Prop :=
  module_ok m /\ Forall (fun c => slot_in slots_ (parentSlot c)) (captureSpecs_ m).

Definition names_in (n : Z) (names : gmap bytes Z) : Prop :=
  forall name slot, names !! name = Some slot -> slot_in n slot.

Lemma bindFixed_names i params names st names' st' : 0 <= i -> names_in i names ->
  bindFixed i params names st = Ok (names', st') -> names_in (i + Z.of_nat (length params)) names'.
Proof.
  revert i names st. induction params as [|p params IH]; intros i names st Hi Hn E;
    cbn [bindFixed length] in *.
  - opened. by rewrite Z.add_0_r.
  - destruct (negb _); [done|]. destruct (isQualifiedName _); [done|].
    replace (i + Z.of_nat (S (length params))) with (i + 1 + Z.of_nat (length params)) by lia.
    eapply IH; [lia| |exact E]. intros name slot. rewrite lookup_insert.
    case_decide; [intros [= <-]; split; lia|]. intros [? ?]%Hn. split; lia.
Qed.

Lemma scopes_outer ss ss' : Forall2 scope_step ss ss' -> slotsOf ss <= slotsOf ss'.
Proof. intros [|? ? ? ? []]; cbn; lia. Qed.

(** The scope of a body, pushed. *)
Lemma pushed_inv st names a b : inv st -> 0 <= a -> names_in a names ->
  opening (scopes_ st) a a
    (set_scopes (mkScope names a a [] [] 0 :: scopes_ st) (set_out (set_signature a b.1 b.2 newModule) st)).
Proof.
  intros [H1 H2 H3 H4] Ha Hn. split; cbn; try done; [|by eexists|lia].
  split; cbn; [|done|apply pool_ok_empty|done]. split; [|done].
  split; cbn; [lia|done|done|done].
Qed.

(** The recur target is gone before the RETURN or after it. *)
Lemma popRecur_return st a st1 u st2 : Compiler.emit RETURN 0 st = Ok (a, st1) ->
  popRecur st1 = Ok (u, st2) ->
  exists st', popRecur st = Ok (u, st') /\ Compiler.emit RETURN 0 st' = Ok (a, st2).
Proof.
  intros E1 E2. injection E2 as <- <-. eexists. split; [done|].
  unfold Compiler.emit, liftModule in *. destruct (scopes_ st) eqn:Es;
    cbn in *; (destruct (Bytecode.emit RETURN 0 (out st)) as [[x m]|]; [|done]);
    injection E1 as <- <-; cbn; by rewrite Es.
Qed.

Lemma slotRange_in a n : a <= n -> Forall (slot_in n) (slotRange a).
Proof.
  intros Ha. apply Forall_forall. intros x (k & -> & Hk)%list_elem_of_fmap.
  apply elem_of_seq in Hk. split; lia.
Qed.

Lemma code_ran r body a st1 u1 st2 u2 st3 u3 st4 x st5 u5 st6 : inv st1 -> 0 <= a -> a <= topSlots st1 ->
  (forall keys asName, r = RestKeys keys asName -> a + Z.of_nat (length keys) <= topSlots st1) ->
  code_ (out st1) = [] ->
  match r with RestKeys keys _ => compileDefaults cf a keys | _ => mret tt end st1 = Ok (u1, st2) ->
  pushRecur (mkTarget (pos (out st2)) (slotRange a) 0) st2 = Ok (u2, st3) ->
  compileDo cf body st3 = Ok (u3, st4) -> Compiler.emit RETURN 0 st4 = Ok (x, st5) ->
  popRecur st5 = Ok (u5, st6) ->
  inv st6 /\ step st1 st6 /\ forall N, topSlots st6 <= N ->
    exists T, segment (out st6) N 0 (code_ (out st6)) T nowhere /\ T !! O = Some 0.
Proof.
  intros Hi Ha Hle Hkeys Hc E1 E2 E3 E4 E5.
  assert (R2 : ran st1 0 st2 0 []).
  { destruct r as [| |keys asName]; [injection E1 as _ <-; by apply ran_refl..|].
    eapply defaults_ran; [..|exact E1]; try done. by eapply Hkeys. }
  pose proof (step_topSlots _ _ (ran_step _ _ _ _ _ R2)) as L2.
  destruct (popRecur_return _ _ _ _ _ E4 E5) as (st5' & E5' & E4').
  eapply ran_return; [|exact Hc|exact E4']. eapply ran_then; [exact R2|known].
  eapply (recur_ran (compileDo cf body) _ _ _ _ _ _ _ _ 0 1); [exact E2|exact E3|exact E5'| | | |].
  - intros st u st' Hi' E. by eapply (compiles_do body st 0).
  - done.
  - cbn. apply slotRange_in. lia.
  - cbn. unfold pos. lia.
Qed.

(** Back in the enclosing function. *)
Lemma outer_inv st st' : inv st -> scopes_ok (scopes_ st') ->
  Forall2 scope_step (scopes_ st) (scopes_ st') -> inv (set_out (out st) st').
Proof.
  intros [H1 H2 H3 H4] Hss Hf. split; cbn; [done| |done|done].
  destruct Hf as [|s s' ? ? Hs]; cbn in *; [done|]. by rewrite (step_recur _ _ Hs).
Qed.

(** The locals and the captures, recorded in the module. *)
Lemma finished_body outer s m : scope_ok outer s -> captureSpecs_ m = [] -> arity_ m = scopeArity s ->
  Forall (fun k => slot_in (nextSlot s) (kwSlot k)) (kwKeys_ m) -> asSlot_ m < nextSlot s ->
  Forall module_ok (blocks_ m) ->
  (exists T, segment m (nextSlot s) 0 (code_ m) T nowhere /\ T !! O = Some 0) ->
  body_ok outer (set_locals (nextSlot s - scopeArity s) (captures s) m).
Proof.
  intros [Ha _ Hcap _] Hc Har Hk Has Hb (T & Seg & T0).
  set (m' := set_locals _ _ m).
  assert (Hf : frameSlots m' = nextSlot s) by (unfold frameSlots; cbn; lia).
  split; [constructor; rewrite ?Hf|]; cbn; rewrite ?Hc; cbn; try done; try lia.
  - exists T. split; [|done]. rewrite Hf. by apply (segment_mono m m' (nextSlot s) _ 0 _ T nowhere).
  - eapply Forall_impl; [exact Hcap|]. by intros c [].
  - eapply Forall_impl; [exact Hcap|]. by intros c [].
Qed.

Lemma body_ran a names r body st b x st' : inv st -> 0 <= a -> names_in a names ->
  compileBody cf a names r body (set_out (set_signature a b.1 b.2 newModule) st) = Ok (x, st') ->
  inv (set_out (out st) st') /\ Forall2 scope_step (scopes_ st) (scopes_ st') /\
  body_ok (topSlots st') (out st').
Proof.
  intros Hi Ha Hn E. pose proof (pushed_inv st names a b Hi Ha Hn) as Ho.
  unfold compileBody in E. apply bindC_ok in E as (u0 & st0 & E0 & E). injection E0 as _ <-.
  cbn [scopes_ set_out set_scopes out program] in E.
  apply bindC_ok in E as (u1 & st1 & E1 & E).
  destruct (bindRest_opening _ _ _ _ _ _ Ho Ha E1) as (n & O & Hle & Hkeys). clear Ho E1.
  destruct O as [I1 (s1 & Es1 & En1 & Ea1) Hc Har Hcap Hk Has].
  assert (Ht1 : topSlots st1 = n) by (unfold topSlots; by rewrite Es1).
  opened.
  match goal with
  | D : (match r with _ => _ end) st1 = Ok (_, ?st2), P : pushRecur ?t ?st2 = Ok (_, ?st3),
    B : compileDo _ _ ?st3 = Ok (_, ?st4), Rt : Compiler.emit RETURN 0 ?st4 = Ok (_, ?st5),
    Q : popRecur ?st5 = Ok (_, ?s6), M : modify _ ?s6 = Ok (_, _) |- _ =>
      destruct (code_ran r body _ _ _ _ _ _ _ _ _ _ _ _ I1 Ha ltac:(lia) ltac:(by rewrite Ht1) Hc
                  D P B Rt Q) as (I6 & [Hg Hsame Hsc] & Hcode);
      rename s6 into st6; injection M as _ <-
  end.
  rewrite Es1 in Hsc. inversion Hsc as [|? s6 ? ss6 Hs6 Hss6 E1 E6]; subst. symmetry in E6.
  destruct (inv_top _ _ _ I6 E6) as [Hs6ok Hss6ok]. unfold withInnermost. rewrite E6. cbn [tail].
  split; [by apply outer_inv|]. split; [done|].
  apply finished_body; try done.
  - rewrite (same_captures _ _ Hsame). exact Hcap.
  - rewrite (same_arity _ _ Hsame), (step_arity _ _ Hs6). exact Har.
  - rewrite (same_keys _ _ Hsame). eapply Forall_impl; [exact Hk|]. intros k Hkk.
    eapply slot_later; [exact Hkk|apply Hs6].
  - rewrite (same_as _ _ Hsame). pose proof (step_slots _ _ Hs6). lia.
  - apply I6.
  - apply Hcode. unfold topSlots. by rewrite E6.
Qed.

Lemma arity_ran params body st d m st' : inv st -> compileArity source_ cf params body st = Ok (m, st') ->
  ran st d st' d [] /\ body_ok (topSlots st') m.
Proof.
  intros Hi E. unfold compileArity in E. opened.
  match goal with E1 : plainArity _ _ _ _ = Ok (_, ?s1), E2 : splitParams _ _ _ = Ok (_, ?s2),
    E3 : bindFixed _ _ _ _ = Ok (?names, ?s3) |- _ =>
    assert (R : ran st d s3 d []) by follow;
    assert (Hn := bindFixed_names 0 _ ∅ _ _ _ ltac:(lia) ltac:(intros ? ?; by rewrite lookup_empty) E3) end.
  cbn [Z.add] in Hn. unfold inModule in E.
  match type of E with match ?c with _ => _ end = _ => destruct c as [[pe st2]|] eqn:Eb; [|done] end.
  injection E as <- <-.
  apply (body_ran _ _ _ _ _ (isVariadicRest _, isKwRest _)) in Eb as (Hi2 & Hf & Hok & Hcap);
    [|apply R|lia|exact Hn].
  match goal with |- context [clearLastReads ?a ?e ?m] =>
    destruct (clearLastReads_ok a e m Hok) as [Hok' Hcap'] end.
  split; [|split; [done|by rewrite Hcap']].
  follow_with R. apply ran_quiet; [done|split; [done|done|done]|done].
Qed.

Lemma fnBody_ran lst st d m st' : inv st -> compileFnBody source_ cf lst st = Ok (m, st') ->
  ran st d st' d [] /\ body_ok (topSlots st') m.
Proof.
  intros Hi E. unfold compileFnBody in E.
  destruct (negb _ && negb _); [done|]. destruct (_ <=? _)%nat; [done|]. destruct (_ && _); [done|].
  destruct (paramItems _); [|done]. by eapply arity_ran.
Qed.

(** *** Functions *)

(** Block [b] of the module is a compiled body of the innermost scope. *)
Definition block_ok (st : cstate) (b : Z) : Prop :=
  0 <= b /\ exists m, blocks_ (out st) !! Z.to_nat b = Some m /\
  Forall (fun c => slot_in (topSlots st) (parentSlot c)) (captureSpecs_ m).

Lemma block_later st st' b : step st st' -> block_ok st b -> block_ok st' b.
Proof.
  intros Hs (Hb & m & Em & Hm). split; [done|]. exists m.
  split; [by eapply prefix_lookup_Some; [exact Em|apply Hs]|].
  eapply Forall_impl; [exact Hm|]. intros c Hc. eapply slot_later; [exact Hc|by apply step_topSlots].
Qed.

Lemma block_at st b : block_ok st b -> blockAt (out st) b.
Proof. intros (Hb & m & Em & _). apply lookup_lt_Some in Em. split; [done|lia]. Qed.

Lemma addBlock_ran m st d b st' : inv st -> body_ok (topSlots st) m -> addBlock m st = Ok (b, st') ->
  ran st d st' d [] /\ block_ok st' b.
Proof.
  intros [H1 H2 H3 H4] [Hok Hcap] [= <- <-]. split.
  - apply ran_quiet; [|split; [|done|reflexivity]|done].
    + split; cbn; try done. apply Forall_app. by split; [|constructor].
    + split; cbn; [done|by apply prefix_app_r|done].
  - split; [lia|]. exists m. cbn. rewrite Nat2Z.id. split; [by apply list_lookup_middle|done].
Qed.

Lemma pushCaptures_ran cs st d u st' : inv st -> 0 <= d ->
  Forall (fun c => slot_in (topSlots st) (parentSlot c)) cs -> pushCaptures cs st = Ok (u, st') ->
  ran st d st' (d + Z.of_nat (length cs)) [].
Proof.
  revert st d u. induction cs as [|c cs IH]; intros st d u Hi Hd Hcs E; cbn [pushCaptures length] in *; opened.
  - apply ran_end; [done|cbn; lia].
  - apply Forall_cons in Hcs as [Hc Hcs]. follow1.
    eapply ran_depth; [eapply IH; [done|lia| |exact E]|lia].
    eapply Forall_impl; [exact Hcs|]. intros c2 Hx. eapply slot_later; [exact Hx|lia].
Qed.

Lemma blockCaptures_ok b st cs st' : block_ok st b -> blockCaptures b st = Ok (cs, st') ->
  st' = st /\ Forall (fun c => slot_in (topSlots st) (parentSlot c)) cs /\
  Z.of_nat (length cs) = captureCountAt (out st) b.
Proof.
  intros (Hb & m & Em & Hm) E. unfold blockCaptures, gets in E. injection E as <- <-.
  unfold captureCountAt. by rewrite Em.
Qed.

(** A compiled body made a function. *)
Lemma makeFn_ran m st d b st1 cs st2 u st3 x st' : inv st -> 0 <= d -> body_ok (topSlots st) m ->
  addBlock m st = Ok (b, st1) -> blockCaptures b st1 = Ok (cs, st2) ->
  pushCaptures cs st2 = Ok (u, st3) -> Compiler.emit MAKE_FN b st3 = Ok (x, st') ->
  ran st d st' (d + 1) [].
Proof.
  intros Hi Hd Hm E1 E2 E3 E4. destruct (addBlock_ran m st d b st1 Hi Hm E1) as [R1 Hb].
  destruct (blockCaptures_ok _ _ _ _ Hb E2) as (-> & Hcs & Hl).
  pose proof (pushCaptures_ran cs st1 d u st3 (ran_inv _ _ _ _ _ R1) Hd Hcs E3) as R2.
  follow_with R1. follow_with R2. pose proof (block_at _ _ Hb) as Hat.
  assert (Hc : captureCountAt (out st3) b = Z.of_nat (length cs)).
  { rewrite Hl. by apply grows_captures; [apply R2|]. }
  eapply ran_emit; [done|exact E4|apply Hb|lia|done|done| |cbn; lia|done|].
  - cbn. by eapply grows_block; [apply R2|].
  - intros y [= <-]. rewrite Hc. lia.
Qed.

Lemma arities_ran forms st d bs st' : inv st -> 0 <= d -> compileArities source_ cf forms st = Ok (bs, st') ->
  ran st d st' d [] /\ Forall (block_ok st') bs.
Proof.
  revert st bs. induction forms as [|f forms IH]; intros st bs Hi Hd E; cbn [compileArities] in E.
  - opened. split; [by apply ran_refl|done].
  - destruct (negb _); [done|]. destruct (sequenceItems f) as [|pf body]; [done|].
    destruct (paramItems pf); [|done]. opened.
    match goal with E1 : compileArity _ _ _ _ _ = Ok (?m, ?s1), E2 : addBlock _ _ = Ok (?b, ?s2),
      E3 : compileArities _ _ _ _ = Ok (?bs, _) |- _ =>
      destruct (arity_ran _ _ _ d _ _ Hi E1) as [R1 Hm];
      destruct (addBlock_ran _ _ d _ _ (ran_inv _ _ _ _ _ R1) Hm E2) as [R2 Hb];
      destruct (IH _ _ (ran_inv _ _ _ _ _ R2) Hd E3) as [R3 Hbs] end.
    split; [by follow_with R1; follow_with R2|].
    constructor; [|done]. by eapply block_later; [apply R3|].
Qed.

Lemma fold_captures_add (m : module) bs n :
  fold_left (fun caps b => caps + captureCountAt m b) bs n =
  n + fold_left (fun caps b => caps + captureCountAt m b) bs 0.
Proof.
  revert n. induction bs as [|b bs IH]; intros n; cbn; [lia|].
  rewrite (IH (n + _)), (IH (0 + _)). lia.
Qed.

Lemma pushAllCaptures_ran bs st d u st' : inv st -> 0 <= d -> Forall (block_ok st) bs ->
  pushAllCaptures bs st = Ok (u, st') ->
  ran st d st' (d + fold_left (fun caps b => caps + captureCountAt (out st) b) bs 0) [].
Proof.
  revert st d u. induction bs as [|b bs IH]; intros st d u Hi Hd Hbs E; cbn [pushAllCaptures fold_left] in *.
  - opened. apply ran_end; [done|lia].
  - apply Forall_cons in Hbs as [Hb Hbs]. opened.
    match goal with E1 : blockCaptures _ _ = Ok (_, _), E2 : pushCaptures ?cs _ = _ |- _ =>
      destruct (blockCaptures_ok _ _ _ _ Hb E1) as (-> & Hcs & Hl);
      pose proof (pushCaptures_ran cs st d _ _ Hi Hd Hcs E2) as R1 end.
    follow_with R1. rewrite fold_captures_add, <- Hl.
    eapply ran_depth; [eapply IH; [done|lia| |exact E]|].
    + eapply Forall_impl; [exact Hbs|]. intros b2. by apply block_later.
    + rewrite (fold_captures (out st)); [lia|apply S|].
      eapply Forall_impl; [exact Hbs|]. apply block_at.
Qed.

(** The arities of a function, made one. *)
Lemma makeFnMulti_ran bs st d u st1 g st2 x st' : inv st -> 0 <= d -> Forall (block_ok st) bs ->
  pushAllCaptures bs st = Ok (u, st1) ->
  (let '(g, o) := addArityGroup bs (out st1) in Ok (E := compileError) (g, set_out o st1)) = Ok (g, st2) ->
  Compiler.emit MAKE_FN_MULTI g st2 = Ok (x, st') -> ran st d st' (d + 1) [].
Proof.
  intros Hi Hd Hbs E1 E2 E3. pose proof (pushAllCaptures_ran bs st d u st1 Hi Hd Hbs E1) as R1.
  injection E2 as <- <-.
  set (st2 := set_out _ st1) in *. set (g := Z.of_nat _) in *.
  assert (R2 : forall d, ran st1 d st2 d []).
  { intros d'. destruct (ran_inv _ _ _ _ _ R1) as [K1 K2 K3 K4]. apply ran_quiet; [by split| |done].
    split; [|done|reflexivity]. split; cbn; [done|done|by apply prefix_app_r]. }
  assert (Hgr : grows (out st) (out st2)).
  { etrans; [apply R1|apply (R2 0)]. }
  assert (Hg : arityGroups_ (out st2) !! Z.to_nat g = Some bs).
  { unfold g. rewrite Nat2Z.id. by apply list_lookup_middle. }
  assert (Hat : Forall (blockAt (out st)) bs) by (eapply Forall_impl; [exact Hbs|apply block_at]).
  assert (Hc : groupCaptures (out st2) g = fold_left (fun caps b => caps + captureCountAt (out st) b) bs 0).
  { unfold groupCaptures. rewrite Hg. by apply fold_captures. }
  follow_with R1. follow_with (R2 (d + fold_left (fun caps b => caps + captureCountAt (out st) b) bs 0)).
  assert (Hpos : 0 <= fold_left (fun caps b => caps + captureCountAt (out st) b) bs 0).
  { clear. generalize (out st). intros m. assert (H : forall n, 0 <= n ->
      0 <= fold_left (fun caps b => caps + captureCountAt m b) bs n); [|by apply H].
    induction bs as [|b bs IH]; intros n Hn; cbn; [done|]. apply IH. unfold captureCountAt, captureCount.
    case_match; lia. }
  eapply ran_emit; [done|exact E3|lia|lia|done|done| |cbn [needs]; rewrite Hc; lia|done|].
  - exists bs. split; [done|]. eapply Forall_impl; [exact Hat|]. intros b. by apply grows_block.
  - intros y Hy. cbn [flowOf snd] in Hy. rewrite Hc in Hy. injection Hy as <-. lia.
Qed.

Lemma compiles_fnForm lst head isFn : compiles 0 (compileFnForm source_ cf lst head isFn) 1.
Proof.
  intros st d u st' Hi Hk Hd E. unfold compileFnForm in E.
  destruct (negb isFn && _); [opened; follow|]. destruct (_ <=? _)%nat; [done|].
  destruct (negb isFn && _); [done|].
  apply bindC_ok in E as (u1 & st1 & E1 & E).
  assert (R1 : ran st d st1 (d + 1) []).
  { destruct (isMultiArity _); opened.
    - match goal with E2 : compileArities _ _ _ _ = Ok (?bs, ?s), E3 : pushAllCaptures _ _ = _,
        E4 : _ = Ok (?g, ?s2), E5 : Compiler.emit MAKE_FN_MULTI ?g ?s2 = _ |- _ =>
        destruct (arities_ran _ _ d _ _ Hi Hd E2) as [R2 Hbs]; follow_with R2;
        exact (makeFnMulti_ran _ _ _ _ _ _ _ _ _ (ran_inv _ _ _ _ _ R2) Hd Hbs E3 E4 E5) end.
    - match goal with E2 : compileFnBody _ _ _ _ = Ok (?m, ?s), E3 : addBlock _ _ = _,
        E4 : blockCaptures _ _ = _, E5 : pushCaptures _ _ = _, E6 : Compiler.emit _ _ _ = _ |- _ =>
        destruct (fnBody_ran _ _ d _ _ Hi E2) as [R2 Hm]; follow_with R2;
        exact (makeFn_ran _ _ _ _ _ _ _ _ _ _ _ (ran_inv _ _ _ _ _ R2) Hd Hm E3 E4 E5 E6) end. }
  follow_with R1. destruct isFn; opened; follow.
Qed.

(** At the top there is nothing to capture. *)
Lemma thunk_ran form st d u st' : inv st -> scopes_ st = [] -> 0 <= d ->
  compileAsThunk source_ cf form st = Ok (u, st') -> ran st d st' (d + 1) [].
Proof.
  intros Hi Es Hd E. unfold compileAsThunk in E. opened. follow1.
  match goal with E1 : compileArity _ _ _ _ _ = Ok (?m', ?s1), E2 : addBlock _ _ = Ok (?b', ?s2),
    E3 : Compiler.emit MAKE_FN _ _ = Ok (_, ?s3) |- _ =>
    rename E1 into Ea, E2 into Eb, E3 into Em, m' into m, b' into b, s1 into st1, s2 into st2, s3 into st3 end.
  destruct (arity_ran _ _ _ d _ _ I Ea) as [R1 Hm].
  assert (Hcap : captureSpecs_ m = []).
  { destruct Hm as [_ Hc]. unfold topSlots in Hc.
    rewrite (step_empty _ _ (ran_step _ _ _ _ _ R1) (step_empty _ _ S Es)) in Hc.
    destruct (captureSpecs_ m) as [|c cs]; [done|]. apply Forall_cons in Hc as [[] _]. cbn in *. lia. }
  assert (Ec : blockCaptures b st2 = Ok ([], st2)).
  { unfold blockCaptures, gets. injection Eb as <- <-. cbn.
    by rewrite Nat2Z.id, list_lookup_middle, Hcap by done. }
  follow_with R1.
  pose proof (makeFn_ran m st1 d b st2 [] st2 tt st2 _ st3 ltac:(assumption) Hd Hm Eb Ec eq_refl Em) as R2.
  follow_with R2. follow.
Qed.

Lemma top_empty st : withInnermost true (fun _ => false) st = true -> scopes_ st = [].
Proof. unfold withInnermost. by destruct (scopes_ st). Qed.

Lemma top_nonempty st : withInnermost true (fun _ => false) st = false -> scopes_ st <> [].
Proof. unfold withInnermost. by destruct (scopes_ st). Qed.

(** A top-level form runs as a thunk; any other has a scope. *)
Lemma compiles_atTop form (m : C unit) :
  (forall st d u st', inv st -> scopes_ st <> [] -> 0 <= d -> m st = Ok (u, st') ->
     ran st d st' (d + 1) []) ->
  compiles 0 (top ← atTop; if top : bool then compileAsThunk source_ cf form else m) 1.
Proof.
  intros Hm st d u st' Hi Hk Hd E. unfold atTop in E. opened.
  destruct (withInnermost true _ st) eqn:Et.
  - by eapply thunk_ran; [|apply top_empty|..|exact E].
  - by eapply Hm; [|apply top_nonempty|..|exact E].
Qed.

Lemma compiles_let form lst head : compiles 0 (compileLetForm source_ cf stack form lst head) 1.
Proof.
  apply compiles_atTop. intros st d u st' Hi NE Hd E. opened. do 2 follow1.
  match goal with E1 : (match ?o with Some _ => _ | None => _ end) _ = _ |- _ => destruct o end; opened; [follow|].
  match goal with E1 : bindAll _ _ _ ?s = Ok (?r, ?s1), E2 : restoreNames _ _ = _ |- _ =>
    destruct r as [saved slots_];
    destruct (bindAll_ran _ _ _ d _ _ _ E1 ltac:(assumption) ltac:(nonempty) Hd) as (R & Hsaved & _) end.
  follow_with R. follow1. eapply restoreNames_ran; [done|eassumption|]. cbn.
  eapply Forall_impl; [exact Hsaved|]. intros b Hb slot Hs. eapply slot_later; [by apply Hb|lia].
Qed.

Lemma compiles_loop form lst head : compiles 0 (compileLoopForm source_ cf form lst head) 1.
Proof.
  apply compiles_atTop. intros st d u st' Hi NE Hd E. opened. follow1.
  destruct (negb _); opened; [follow|].
  match goal with E1 : bindAll _ _ _ ?s = Ok (?r, ?s1), P : pushRecur _ _ = _, B : compileDo _ _ _ = _,
    Q : popRecur _ = _, E2 : restoreNames _ _ = _ |- _ =>
    destruct r as [saved slots_]; cbn [fst snd] in *;
    destruct (bindAll_ran _ _ _ d _ _ _ E1 ltac:(assumption) ltac:(nonempty) Hd) as (R & Hsaved & Hslots);
    follow_with R;
    pose proof (recur_ran (compileDo cf (drop 2 lst)) _ _ _ _ _ _ _ _ d 1 P B Q
                  ltac:(intros; by eapply compiles_do) ltac:(assumption) Hslots
                  ltac:(cbn; unfold pos; lia)) as R2;
    follow_with R2;
    eapply restoreNames_ran; [done|exact E2|] end.
  eapply Forall_impl; [exact Hsaved|]. intros b Hb slot Hs. eapply slot_later; [by apply Hb|lia].
Qed.

Lemma compiles_try form lst : compiles 0 (compileTry source_ cf form lst) 1.
Proof.
  apply compiles_atTop. intros st d u st' Hi NE Hd E. opened. follow1.
  match goal with E1 : splitTry _ _ _ = Ok (?t, _) |- _ =>
    assert (Hc : Forall clause_ok (catches t)) by (by eapply splitTry_clauses, E1) end.
  match goal with E1 : addTryDepth 1 _ = _, E2 : compileFinally _ _ _ _ = _ |- _ =>
    rename E1 into Ein, E2 into Ef end.
  follow_with (addTryDepth_ran _ _ d _ _ I Ein).
  eapply ran_then; [eapply finally_ran; [assumption|nonempty|exact Hd| |exact Ef]|known].
  - intros. by eapply catches_ran.
  - by eapply addTryDepth_ran.
Qed.

Lemma compiles_defmacro lst : compiles 0 (compileDefmacro cf lst) 1.
Proof.
  intros st d u st' Hi Hk Hd E. unfold compileDefmacro in E.
  destruct (_ <? 3)%nat; [done|]. destruct (if isNameForm _ then _ else _) as [key|]; [|done].
  set (i := if _ && _ then S _ else _) in E. clearbody i. cbn zeta in E.
  destruct (_ <=? i)%nat; [done|]. opened.
  match goal with E1 : (if isVector _ then _ else _) _ = Ok (_, _) |- _ => rename E1 into Efn end.
  eapply ran_then; [eapply offline_ran; [exact Efn|offline|exact Hi]|known]. follow.
Qed.

Lemma compiles_macroCall form macro name : compiles 0 (compileMacroCall cf form macro name) 1.
Proof.
  intros st d u st' Hi Hk Hd E. unfold compileMacroCall in E. opened. follow.
Qed.

Lemma operatorFor_ran name core st d o st' : inv st -> operatorFor name core st = Ok (o, st') ->
  ran st d st' d [] /\ forall op, o = Some op -> op ∈ [ADD; SUB; MUL; LT; LE; GT; GE; EQ].
Proof.
  intros Hi E. unfold operatorFor in E. destruct (operatorOf name) as [op|] eqn:Eo.
  2: { opened. split; [by apply ran_refl|done]. }
  assert (Hop : op ∈ [ADD; SUB; MUL; LT; LE; GT; GE; EQ]).
  { unfold operatorOf in Eo. apply fmap_Some in Eo as ([s op'] & Ef & ->).
    apply find_some in Ef as [Hin _]. cbn in Hin |- *.
    repeat (destruct Hin as [[= <- <-]|Hin]; [set_solver|]). done. }
  destruct core; opened; [split; [by apply ran_refl|by intros ? [= <-]]|].
  match goal with E1 : resolveLocal _ _ = _ |- _ =>
    destruct (resolveLocal_ran _ _ d _ _ Hi E1) as [R _] end.
  match goal with E1 : (match ?s with _ => _ end) _ = _ |- _ => destruct s end; opened; [by split|].
  match goal with E1 : (if hasCallContext then _ else _) _ = _ |- _ => rename E1 into Eb end.
  assert (Hb : offline (if hasCallContext then isBuiltin name else mret true))
    by (unfold isBuiltin; offline).
  split; [by eapply ran_then; [exact R|intros; eapply offline_ran; [exact Eb|..]]|].
  intros op' Eop. destruct (_ : bool) in Eop; [by injection Eop as <-|done].
Qed.

Lemma compiles_member name args : compiles 0 (
  _ ← compileQualifiedPrefix name;
  _ ← compileAll cf args;
  _ ← Compiler.emit CALL_MEMBER (Z.of_nat (length args));
  i ← symbolConst (memberName name);
  emit_ NOP i) 1.
Proof.
  intros st d u st' Hi Hk Hd E. do 3 (apply bindC_ok in E as (? & ? & ? & E)). do 2 follow1.
  apply bindC_ok in E as (i & st2 & Ei & E).
  match goal with Em : Compiler.emit CALL_MEMBER _ ?s = Ok (_, ?s1) |- _ => rename Em into Ec, s1 into st1 end.
  assert (I1 : inv st1).
  { apply emit_inv in Ec as (_ & Hmax & h & ->). apply set_code_inv; [done|]. rewrite length_app. lia. }
  assert (S1 : step x2 st1) by (apply emit_inv in Ec as (_ & _ & h & ->); apply set_code_step).
  destruct (symbolConst_ran _ _ d _ _ I1 Ei) as (R & Es & Hi0 & Hsym).
  eapply ran_depth; [eapply ran_member; [assumption|exact Ec|exact Es|apply R| |exact E|exact Hsym|done|lia|]|lia].
  - etrans; [exact S1|apply R].
  - lia.
Qed.

Hint Resolve compiles_member compiles_defmacro compiles_macroCall compiles_fnForm compiles_let
  compiles_loop compiles_try compiles_recur compiles_logic : compiles.
Hint Resolve compiles_name : compiles.

Lemma compiles_namedCall head name core args : compiles 0 (compileNamedCall cf head name core args) 1.
Proof.
  intros st d u st' Hi Hk Hd E. unfold compileNamedCall in E.
  apply bindC_ok in E as (o & st1 & E1 & E).
  destruct (operatorFor_ran _ _ _ d _ _ Hi E1) as [R Hop]. follow_with R. clear R E1.
  assert (Hother : (if core then _ ← pushVar (kCore ++ name); compileCall cf args
      else if isUserQualified name then _ ← pushVar (drop (length kUser) name); compileCall cf args
      else if startsColon name then _ ← cf head; compileCall cf args
      else
        slot ← resolveLocal name;
        match slot with
        | Some slot => _ ← Compiler.emit PUSH_LOCAL slot; compileCall cf args
        | None =>
            if isQualifiedName name then
              _ ← compileQualifiedPrefix name;
              _ ← compileAll cf args;
              _ ← Compiler.emit CALL_MEMBER (Z.of_nat (length args));
              i ← symbolConst (memberName name);
              emit_ NOP i
            else _ ← pushVar name; compileCall cf args
        end) st1 = Ok (u, st') -> ran st1 d st' (d + 1) []).
  { clear E Hop. intros E. destruct core; [opened; follow|].
    destruct (isUserQualified name); [opened; follow|]. destruct (startsColon name); [opened; follow|].
    apply bindC_ok in E as (slot & st2 & E2 & E). follow1. destruct slot as [slot|].
    - specialize (K slot eq_refl). opened. follow.
    - destruct (isQualifiedName name); [by eapply compiles_member|opened; follow]. }
  destruct o as [op|]; [|exact (Hother E)]. destruct args as [|a [|b rest]]; [exact (Hother E)..|].
  clear Hother. specialize (Hop op eq_refl). destruct (_ && _).
  - destruct core; opened; follow.
  - opened. follow1. eapply ran_depth; [eapply compiles_operands; [|exact Hop|assumption| | |exact E]|]; 
      try lia. by destruct core.
Qed.

Lemma compiles_special form lst head name core :
  compiles 0 (compileSpecial source_ cf stack form lst head name core) 1.
Proof.
  unfold compileSpecial. cbn zeta.
  repeat match goal with |- compiles _ (if ?b then _ else _) _ => destruct b end;
    eauto 2 with compiles; try (by intros st d u st' ? ? ? E; discriminate E).
  - apply compiles_logic; auto.
  - apply compiles_logic; auto.
  - apply compiles_namedCall.
  - intros st d u st' Hi Hk Hd E. opened. follow.
Qed.

Hint Resolve compiles_special : compiles.

Lemma compiles_listForm form lst : compiles 0 (compileListForm source_ cf stack form lst) 1.
Proof.
  intros st d u st' Hi Hk Hd E. unfold compileListForm in E.
  destruct lst as [|head lst]; [by eapply compiles_pushDatum|].
  apply bindC_ok in E as ([name core] & st1 & E1 & E). opened. follow1.
  match goal with E : match ?m with _ => _ end _ = _ |- _ => destruct m as [[]|] end; follow.
Qed.

Hint Resolve compiles_listForm : compiles.

Lemma compiles_atom form : compiles 0 (compileAtom source_ cf stack form) 1.
Proof.
  intros st d u st' Hi Hk Hd E. unfold compileAtom in E.
  repeat match goal with E : (if ?b then _ else _) _ = _ |- _ => destruct b; [solve [opened; follow]|] end.
  destruct (integerOf form); [solve [follow]|].
  destruct form; try discriminate E; follow.
Qed.

End Forms.

(** ** The whole compiler *)

Lemma compiles_form n : forall form, compiles 0 (compileForm source_ n form) 1.
Proof.
  induction n as [|n IH]; intros form; [by intros st d u st' _ _ _ [=]|].
  by apply compiles_atom.
Qed.

Lemma newState_inv w : inv (newState w).
Proof. split; cbn; [done|done|apply pool_ok_empty|done]. Qed.

Lemma compileTop_ok n form w m w' : compileTop source_ n form w = Ok (m, w') -> module_ok m.
Proof.
  unfold compileTop.
  destruct ((_ ← compileForm source_ n form; emit_ RETURN 0) (newState w)) as [[u st]|] eqn:E; [|done].
  intros [= <- _]. apply bindC_ok in E as (u1 & st1 & E1 & E). apply emit_ok in E as [a E].
  pose proof (compiles_form n form _ 0 _ _ (newState_inv w) ltac:(lia) ltac:(lia) E1) as R.
  destruct (ran_return _ _ _ _ R eq_refl E) as (I & S & HT).
  destruct (HT 0) as [T HT'].
  { unfold topSlots. by rewrite (step_empty _ _ S eq_refl). }
  destruct (step_same _ _ S) as [Ea El Ec Ek Es].
  assert (Ef : frameSlots (out st) = 0) by (unfold frameSlots; by rewrite Ea, El).
  constructor; rewrite ?Ef, ?Ea, ?El, ?Ec, ?Ek, ?Es; try done.
  - exists T. unfold depths_of. by rewrite Ef.
  - apply I.
Qed.

End Compiled.
