(* ===== verification/CompiledSafety.v ===== *)
(** What well-formed code is good for (compiler/Compiler.cpp, runtime/BytecodeModule.cpp,
    runtime/ExecutionEngine.cpp): the flow analysis of the bodies the compiler emits
    ends, and a frame that runs one never goes past its operand stack, as long as
    every [recur] is at the depth of its target; with a [recur] below operands the
    analysis never ends. *)

From S2P Require Import Prelude Bytecode Exceptions Maps Printer Values Macros Compiler.
From S2P Require Import ExecutionEngine FrameStack CodeSegments ModuleCode CompilerSteps.
From S2P Require Import CompilerRules CompiledCode Reader DemoReader DemoCompiler.

#[local] Set Warnings "-register-all".

(** Every backward jump is at the depth of its target. *)
Definition level (b : module) (T : list Z) : Prop := forall i, 0 <= i < pos b ->
  instrOp (wordAt b i) = Some JUMP_BACK ->
  depthAt T (i + 1 - instrOperand (wordAt b i)) = depthAt T i.

Definition levelb (b : module) (T : list Z) : bool :=
  forallb (fun k => let i := Z.of_nat k in
    negb (bool_decide (instrOp (wordAt b i) = Some JUMP_BACK)) ||
    (depthAt T (i + 1 - instrOperand (wordAt b i)) =? depthAt T i)) (seq 0 (length (code_ b))).

Lemma levelb_spec b T : levelb b T = true -> level b T.
Proof.
  unfold levelb. rewrite forallb_forall. intros Hb i Hi E.
  specialize (Hb (Z.to_nat i)). rewrite Z2Nat.id in Hb by lia.
  specialize (Hb ltac:(apply in_seq; unfold pos in Hi; lia)). cbn zeta in Hb.
  rewrite bool_decide_true in Hb by done. cbn [negb orb] in Hb. lia.
Qed.

Definition deepestOf (T : list Z) : Z := fold_right Z.max 0 T.

Lemma deepestOf_pos T : 0 <= deepestOf T.
Proof. unfold deepestOf. induction T; cbn; lia. Qed.

Lemma deepestOf_in T i d : T !! i = Some d -> d <= deepestOf T.
Proof.
  unfold deepestOf. revert i. induction T as [|x T IH]; intros i E; [done|]. destruct i as [|i]; cbn in *.
  - injection E as ->. lia.
  - specialize (IH i E). lia.
Qed.

Lemma depthAt_some T i d : 0 <= i -> T !! Z.to_nat i = Some d -> depthAt T i = d.
Proof. intros _ E. unfold depthAt. by rewrite nth_lookup, E. Qed.

Section Depths.
Context (b : module) (T : list Z) (HT : depths_of b T).

Lemma depths_length : length T = length (code_ b).
Proof. apply (segment_length _ _ _ _ _ _ (proj1 HT)). Qed.

Lemma lands_in t d : lands 0 T nowhere t d -> 0 <= t < pos b /\ depthAt T t = d.
Proof.
  unfold lands. rewrite Z.add_0_l, depths_length. unfold pos.
  destruct (Z.ltb_spec t (Z.of_nat (length (code_ b)))); [|done].
  intros [Ht E]. rewrite Z.sub_0_r in E. split; [done|]. by apply depthAt_some.
Qed.

(** Every instruction of the body, at its depth. *)
Lemma instr_at i : 0 <= i < pos b ->
  instr_ok b (frameSlots b) (lands 0 T nowhere) i (wordAt b i) (depthAt T i) /\
  depthAt T i <= deepestOf T.
Proof.
  intros Hi. assert (Ew : code_ b !! Z.to_nat i = Some (wordAt b i)) by (by apply wordAt_lookup).
  destruct (lookup_lt_is_Some_2 T (Z.to_nat i)) as [d Ed].
  { rewrite depths_length. by apply lookup_lt_Some in Ew. }
  rewrite (depthAt_some T i d ltac:(lia) Ed). split; [|by eapply deepestOf_in].
  pose proof (segment_instr _ _ _ _ _ _ (proj1 HT) _ _ _ Ew Ed) as K.
  by rewrite Z.add_0_l, Z2Nat.id in K by lia.
Qed.

Lemma depths_typed : level b T -> depth_typed b T (deepestOf T).
Proof.
  intros Hlevel. split.
  - apply depths_length.
  - intros _. by apply depthAt_some, HT.
  - intros i Hi. apply instr_at, Hi.
  - apply deepestOf_pos.
  - intros i Hi _. destruct (instr_at i Hi) as [(Hw & Hd & op & Eop & Ho & _ & Hb & Hj & Ha) _].
    change (nth (Z.to_nat i) (code_ b) 0) with (wordAt b i) in *.
    rewrite (flowAt_op _ i _ op Eop). change (nth (Z.to_nat i) (code_ b) 0) with (wordAt b i).
    split.
    + destruct (decide (op = JUMP_BACK)) as [->|Hne].
      * cbn. rewrite (proj2 (Z.leb_le _ _) (Hb eq_refl)). constructor; [|constructor].
        specialize (Hb eq_refl). split; [lia|]. split; [done|]. right. by apply Hlevel.
      * eapply Forall_impl; [exact (Hj Hne)|]. intros [t x] [Ht <-]%lands_in.
        pose proof (instr_at t Ht) as [(_ & ? & _) _]. split; [lia|]. split; [done|]. by right.
    + destruct (flowOf b op (instrOperand (wordAt b i)) (i + 1) (depthAt T i)).2 as [a|]; [|done].
      destruct (lands_in _ _ (Ha a eq_refl)) as [Ht <-].
      pose proof (instr_at _ Ht) as [(_ & ? & _) ?]. split; [done|]. split; [done|]. by right.
Qed.

Lemma depths_words : Forall (fun w => 0 <= w) (code_ b) /\ known_ops b.
Proof.
  split; apply Forall_lookup_2; intros k w Ew; pose proof (lookup_lt_Some _ _ _ Ew);
    destruct (instr_at (Z.of_nat k)) as [(Hw & _ & op & E & _) _]; try (unfold pos; lia);
    unfold wordAt in *; rewrite Nat2Z.id, nth_lookup, Ew in *.
  - done.
  - unfold known_op. cbn [default from_option id] in E. by rewrite E.
Qed.

Lemma depths_stacked : level b T -> well_stacked b T (deepestOf T).
Proof.
  intros Hlevel. split; [apply depths_words..|by apply depths_typed|].
  intros i Hi _. destruct (instr_at i Hi) as [(_ & _ & op & E & _ & Hn & Hb & Hj & _) _].
  unfold sound_at. rewrite E. split; [done|]. split; [done|]. split.
  - intros ->. specialize (Hj ltac:(done)). cbn in Hj. apply Forall_cons in Hj as [Ht _].
    apply lands_in in Ht. lia.
  - intros ->. destruct (segment_data _ _ _ _ _ _ (proj1 HT) (Z.to_nat i) (wordAt b i)) as (w & Ew & Ed);
      [by apply wordAt_lookup|done|]. pose proof (lookup_lt_Some _ _ _ Ew).
    split; [unfold pos; lia|]. unfold wordAt. rewrite nth_lookup.
    replace (Z.to_nat (i + 1)) with (S (Z.to_nat i)) by lia. by rewrite Ew.
Qed.

End Depths.

(** ** A frame of compiled code *)

(** C3. Every module the compiler answers is well-formed, and so is the code of every
    function in it, however deep: each instruction has one operand stack depth, on
    every path but a backward jump's; it finds the values it takes; its operand names
    a constant of the kind it reads, a slot of the frame, a block or a group of
    blocks of the module, a built-in class; every forward jump and every handler
    stays in the code and the last instruction cannot be fallen out of; a method call
    has its data word; captures and keyword parameters have slots in the frame. *)
Theorem compiled_well_formed `{CompilerEnv} source_ stack form w m w' b :
  compileTop source_ stack form w = Ok (m, w') -> inside b m -> module_ok b.
Proof. intros E Hb. exact (inside_ok _ _ Hb (compileTop_ok _ _ _ _ _ _ E)). Qed.

Section Frames.
Context {W exn meth : Type} `{!Runtime Z W exn meth} (inv : Invoke (obj := Z) (W := W) (exn := exn))
  (ex : Execute (obj := Z) (W := W) (exn := exn)).

(** The collections the runtime holds have fewer than 2^31 items. *)
Definition small_collections : Prop :=
  (forall v, Z.of_nat (length (listItems v)) < 2 ^ 31) /\
  (forall v, Z.of_nat (length (vectorItems v)) < 2 ^ 31) /\
  (forall v i w w' items, seqItems v i w = (w', Ret (Some items)) -> Z.of_nat (length items) < 2 ^ 31).

(** C4. The code of every function the compiler compiles has depths, and when each
    [recur] is at the depth of its target, the flow analysis ends within one turn per
    instruction, its [maxStack] is no deeper than the code, and a frame that runs the
    code with that capacity never goes past its operand stack, whatever it calls
    answers or raises. *)
Theorem compiled_never_overruns `{CompilerEnv} source_ stack form w m w' b :
  compileTop source_ stack form w = Ok (m, w') -> inside b m -> small_collections ->
  (exists T, depths_of b T) /\
  forall T, depths_of b T -> level b T ->
    exists r, computeMaxStack (S (length (code_ b))) b = Some r /\ 0 <= r <= deepestOf T /\
      (r < 2 ^ 31 -> forall c captures u f, rtc (turns inv ex b) (entryFrame b r c captures u) f ->
         turn inv ex b f <> inr StackOverrun).
Proof.
  intros E Hb (Hlist & Hvec & Hseq).
  pose proof (inside_ok _ _ Hb (compileTop_ok _ _ _ _ _ _ E)) as Hok.
  split; [by inversion Hok|]. intros T HT Hl. pose proof (depths_stacked b T HT Hl) as Hw.
  destruct (typed_analysis_ends b T _ (stacked_typed _ _ _ Hw)) as (r & Er & Hr).
  exists r. split; [done|]. split; [done|]. intros Hsmall c captures u f Hrun Eo.
  destruct (computeMaxStack_bounded _ b r (stacked_words _ _ _ Hw) (stacked_ops _ _ _ Hw) Er) as [D HD].
  pose proof (reached_ok inv ex b Hlist Hvec Hseq _ _ _ _ _ _ _ _ Hw HD Hsmall Hrun) as Hf.
  pose proof (turn_ok inv ex b Hlist Hvec Hseq _ _ _ _ Hw HD Hsmall _ Hf) as Ht. by rewrite Eo in Ht.
Qed.

End Frames.

(** ** A backward jump that is not level *)

(** The analysis goes on from [i] at its depth to [j] at its own. *)
Definition flowsTo (b : module) (T : list Z) (i j : Z) : Prop :=
  0 <= i < pos b /\ 0 <= j < pos b /\
  match flowAt b i (depthAt T i) with
  | Flow jumps after => In (j, depthAt T j) jumps \/ (after = Some (depthAt T j) /\ j = i + 1)
  | UnknownOpcode => False
  end.

(** What the analysis would end with is as deep along a path as the code's depths are. *)
Lemma bounded_path b T r D i j : bounded b r D -> (forall k, 0 <= k < pos b -> 0 <= depthAt T k) ->
  rtc (flowsTo b T) i j -> depthAt T i <= depthAt D i ->
  depthAt D i - depthAt T i <= depthAt D j - depthAt T j.
Proof.
  intros HD HT. induction 1 as [i|i k j (Hi & Hk & Hf) _ IH]; intros Hd; [lia|].
  enough (depthAt D i - depthAt T i <= depthAt D k - depthAt T k) by (specialize (IH ltac:(lia)); lia).
  destruct (bounded_closed _ _ _ HD i Hi) as [_ Hc]; [specialize (HT i Hi); lia|].
  destruct (instrOp (nth (Z.to_nat i) (code_ b) 0)) as [op|] eqn:Eop.
  2: { exfalso. clear -Hf Eop. unfold flowAt in Hf. by rewrite Eop in Hf. }
  rewrite (flowAt_op _ i (depthAt T i) op Eop) in Hf. rewrite (flowAt_op _ i (depthAt D i) op Eop) in Hc.
  destruct (flowOf_shift b op (instrOperand (nth (Z.to_nat i) (code_ b) 0)) (i + 1)
              (depthAt T i) (depthAt D i)) as [Hs1 Hs2].
  specialize (HT k Hk). destruct Hc as [Hj Ha], Hf as [Hf|[Hf ->]].
  - apply Hs1 in Hf. rewrite Forall_forall in Hj. apply list_elem_of_In in Hf.
    specialize (Hj _ Hf). cbn in Hj. destruct Hj as [?|[?|[_ ?]]]; lia.
  - rewrite (Hs2 _ Hf) in Ha. destruct Ha as [_ [?|[?|[_ ?]]]]; lia.
Qed.

(** A [recur] below operands (the tutorial's [(+ 1 (recur (dec n)))]): when the
    code goes from a backward jump's target to the jump and the jump is deeper than
    its target, the flow analysis, which keeps the larger of two depths, never ends,
    however long it runs. *)
Theorem deeper_recur_never_ends b T i fuel :
  depths_of b T -> 0 <= i < pos b -> instrOp (wordAt b i) = Some JUMP_BACK ->
  let t := i + 1 - instrOperand (wordAt b i) in
  rtc (flowsTo b T) 0 t -> rtc (flowsTo b T) t i -> depthAt T t < depthAt T i ->
  computeMaxStack fuel b = None.
Proof.
  intros HT Hi Eop t Hentry Hloop Hdeep. destruct (computeMaxStack fuel b) as [r|] eqn:Er; [|done].
  destruct (depths_words b T HT) as [Hw Hops].
  destruct (computeMaxStack_bounded fuel b r Hw Hops Er) as [D HD].
  assert (Hpos : forall k, 0 <= k < pos b -> 0 <= depthAt T k).
  { intros k Hk. by destruct (instr_at b T HT k Hk) as [(_ & ? & _) _]. }
  pose proof (bounded_path b T r D 0 t HD Hpos Hentry) as H0.
  pose proof (bounded_path b T r D t i HD Hpos Hloop) as H1.
  assert (E0 : depthAt T 0 = 0) by (by apply depthAt_some, HT).
  pose proof (bounded_entry _ _ _ HD ltac:(lia)).
  destruct (instr_at b T HT i Hi) as [(_ & _ & op & Eop' & _ & _ & Hb & _) _].
  rewrite Eop in Eop'. injection Eop' as <-. specialize (Hb eq_refl).
  destruct (bounded_closed _ _ _ HD i Hi) as [_ Hc]; [specialize (Hpos i Hi); lia|].
  rewrite (flowAt_op b i _ JUMP_BACK Eop) in Hc. change (nth _ _ 0) with (wordAt b i) in Hc.
  cbn in Hc. rewrite (proj2 (Z.leb_le _ _) Hb) in Hc. destruct Hc as [Hc _].
  apply Forall_cons in Hc as [Hc _]. specialize (Hpos i Hi).
  pose proof (instrOperand_pos (wordAt b i)). unfold covered in Hc. fold t in Hc.
  assert (0 <= t < pos b). { subst t. inversion Hloop; subst; [lia|]. by destruct H3. }
  destruct Hc as [?|[?|[_ ?]]]; lia.
Qed.

(** The instructions from [i] on, each flowing to the one after it. *)
Definition fallsThrough (b : module) (T : list Z) (i : Z) : bool :=
  (0 <=? i) && (i + 1 <? pos b) &&
  match flowAt b i (depthAt T i) with
  | Flow _ (Some a) => a =? depthAt T (i + 1)
  | _ => false
  end.

Lemma straight_path b T i n : forallb (fun k => fallsThrough b T (i + Z.of_nat k)) (seq 0 n) = true ->
  rtc (flowsTo b T) i (i + Z.of_nat n).
Proof.
  revert i. induction n as [|n IH]; intros i E; [by rewrite Z.add_0_r|].
  cbn [seq forallb] in E. apply andb_prop in E as [E0 E]. rewrite Z.add_0_r in E0.
  apply rtc_l with (i + 1).
  - unfold fallsThrough in E0. apply andb_prop in E0 as [[? ?]%andb_prop Ef]. unfold flowsTo.
    destruct (flowAt b i (depthAt T i)) as [jumps [a|]|]; [|done..].
    apply Z.eqb_eq in Ef as ->. split; [lia|]. split; [lia|]. by right.
  - replace (i + Z.of_nat (S n)) with (i + 1 + Z.of_nat n) by lia. apply IH.
    rewrite forallb_forall in E |- *. intros k Hk. specialize (E (S k)).
    replace (i + 1 + Z.of_nat k) with (i + Z.of_nat (S k)) by lia. apply E.
    apply in_seq in Hk. apply in_seq. lia.
Qed.

(** ** Depths, decided *)

Definition symbolAtb (m : module) (i : Z) : bool :=
  match consts_ (pool_ m) !! Z.to_nat i with
  | Some c => match ckind c with Symbol => true | _ => false end
  | None => false
  end.

Definition inRange (n i : Z) : bool := (0 <=? i) && (i <? n).

Definition operandb (m : module) (n : Z) (op : Op) (operand : Z) : bool :=
  match op with
  | PUSH_CONST => inRange (Z.of_nat (length (consts_ (pool_ m)))) operand
  | PUSH_VAR | STORE_GLOBAL | RESOLVE_CLASS | GET_MEMBER | EXC_MATCH_TYPE | NOP => symbolAtb m operand
  | PUSH_LOCAL | PUSH_LOCAL_CLEAR | STORE_LOCAL | STORE_CAUGHT | RETHROW => inRange n operand
  | MAKE_FN => inRange (Z.of_nat (length (blocks_ m))) operand
  | MAKE_FN_MULTI =>
      match arityGroups_ m !! Z.to_nat operand with
      | Some bs => forallb (inRange (Z.of_nat (length (blocks_ m)))) bs
      | None => false
      end
  | EXC_MATCH => validClass operand
  | _ => true
  end.

Definition landsb (T : list Z) (t d : Z) : bool :=
  inRange (Z.of_nat (length T)) t && (depthAt T t =? d).

Definition instrb (m : module) (T : list Z) (i : Z) : bool :=
  let word := wordAt m i in
  let operand := instrOperand word in
  let d := depthAt T i in
  match instrOp word with
  | Some op =>
      (0 <=? word) && (0 <=? d) && operandb m (frameSlots m) op operand && (needs m op operand <=? d) &&
      (negb (bool_decide (op = JUMP_BACK)) || (operand <=? i + 1)) &&
      (bool_decide (op = JUMP_BACK) ||
       forallb (fun '(t, x) => landsb T t x) (flowOf m op operand (i + 1) d).1) &&
      match (flowOf m op operand (i + 1) d).2 with Some a => landsb T (i + 1) a | None => true end &&
      (negb (bool_decide (op = CALL_MEMBER)) ||
       ((i + 1 <? pos m) && bool_decide (instrOp (wordAt m (i + 1)) = Some NOP)))
  | None => false
  end.

Definition depths_ofb (m : module) (T : list Z) : bool :=
  (length T =? length (code_ m))%nat && landsb T 0 0 &&
  forallb (fun k => instrb m T (Z.of_nat k)) (seq 0 (length (code_ m))).

Lemma inRange_spec n i : inRange n i = true -> 0 <= i < n.
Proof. unfold inRange. lia. Qed.

Lemma symbolAtb_spec m i : symbolAtb m i = true -> symbolAt m i.
Proof.
  unfold symbolAtb, symbolAt. destruct (_ !! _) as [c|]; [|done]. intros E. exists c. split; [done|].
  by destruct (ckind c).
Qed.

Lemma operandb_spec m n op operand : operandb m n op operand = true -> operand_ok m n op operand.
Proof.
  destruct op; cbn; try done; try apply inRange_spec; try apply symbolAtb_spec.
  destruct (_ !! _) as [bs|]; [|done]. rewrite forallb_forall. intros Hb. exists bs. split; [done|].
  apply List.Forall_forall. intros b Hin. by apply inRange_spec, Hb.
Qed.

Lemma landsb_spec T t d : landsb T t d = true -> lands 0 T nowhere t d.
Proof.
  unfold landsb, lands. intros [Ht%inRange_spec E]%andb_prop. rewrite (proj2 (Z.ltb_lt _ _)) by lia.
  split; [lia|]. rewrite Z.sub_0_r. apply Z.eqb_eq in E. subst d. unfold depthAt. rewrite nth_lookup.
  destruct (lookup_lt_is_Some_2 T (Z.to_nat t)) as [x Ex]; [lia|]. by rewrite Ex.
Qed.

Lemma depths_ofb_spec m T : depths_ofb m T = true -> depths_of m T.
Proof.
  unfold depths_ofb. intros [[Hl H0%landsb_spec]%andb_prop Hi]%andb_prop. apply Nat.eqb_eq in Hl.
  rewrite forallb_forall in Hi. assert (Hin : forall k word, code_ m !! k = Some word ->
    wordAt m (Z.of_nat k) = word /\ instrb m T (Z.of_nat k) = true).
  { intros k word Ew. split; [unfold wordAt; by rewrite Nat2Z.id, nth_lookup, Ew|].
    apply Hi, in_seq. apply lookup_lt_Some in Ew. lia. }
  split; [|unfold lands in H0; by case_match; [apply H0|]]. split; [done| |].
  - intros k word d Ew Et. destruct (Hin k word Ew) as [Hw Hk]. rewrite Z.add_0_l.
    assert (Hd : depthAt T (Z.of_nat k) = d) by (apply depthAt_some; [lia|by rewrite Nat2Z.id]).
    unfold instrb in Hk. rewrite Hw, Hd in Hk. destruct (instrOp word) as [op|] eqn:Eop; [|done].
    repeat apply andb_prop in Hk as [Hk ?]. split; [lia|]. split; [lia|]. exists op. cbn zeta.
    split; [done|]. split; [by apply operandb_spec|]. split; [lia|]. split; [|split].
    + intros ->. rewrite bool_decide_true in * by done. cbn [negb orb] in *. lia.
    + intros Hne. rewrite (bool_decide_false (op = JUMP_BACK)) in * by done. cbn [negb orb] in *.
      match goal with E : forallb _ _ = true |- _ => rewrite forallb_forall in E; rename E into Hj end.
      apply List.Forall_forall. intros [t x] Ht. apply landsb_spec. by apply (Hj (t, x)).
    + intros a Ea. rewrite Ea in *. by apply landsb_spec.
  - intros k word Ew Eop. destruct (Hin k word Ew) as [Hw Hk]. unfold instrb in Hk.
    rewrite Hw, Eop in Hk. apply andb_prop in Hk as [_ Hk]. cbn [negb orb] in Hk.
    rewrite bool_decide_true in Hk by done. apply andb_prop in Hk as [Hp Hd%bool_decide_eq_true].
    unfold wordAt in Hd. replace (Z.to_nat (Z.of_nat k + 1)) with (S k) in Hd by lia.
    destruct (lookup_lt_is_Some_2 (code_ m) (S k)) as [data Ed]; [unfold pos in Hp; lia|].
    exists data. split; [done|]. by rewrite nth_lookup, Ed in Hd.
Qed.

(** ** Examples *)

Module Examples.
Import DemoReader.Demo DemoCompiler.Demo.

(** A runtime whose objects are the compiler's: small integers, and the globals. *)
Definition globalOf (g : Z) (w : list (Z * val Z)) : option (val Z) :=
  snd <$> List.find (fun e => e.1 =? g) w.

#[export] Instance addressRuntime : Runtime Z (list (Z * val Z)) (val Z) unit := {
  ExecutionEngine.createSymbol := Macros.createSymbol;
  globalAt := globalOf;
  setGlobal k v w := (k, v) :: w;
  largeInteger z := VObj z;
  fromDouble bits := VObj bits;
  fromUTF8 s := VNone;
  fromDigits s := VNone;
  sameObject a b := match a, b with
                    | VObj a, VObj b | VInt a, VInt b => a =? b
                    | VNone, VNone => true
                    | _, _ => false
                    end;
  bigIntegerValue _ := None;
  isNumberObject _ := false;
  isNamedValue _ := false;
  namedSpelling _ := [];
  ExecutionEngine.isMap _ := false;
  isSet _ := false;
  ExecutionEngine.isVector _ := false;
  isListValue _ := false;
  isObjectCell _ := false;
  valueTypeName _ := s2b "a value";
  vectorItems _ := [];
  listItems _ := [];
  listFromArray _ := VNone;
  seqItems _ _ := mret None;
  mapGet _ _ _ := mret None;
  setGet _ _ _ := mret None;
  newMap := 0;
  hashedPut _ _ _ _ := mret 0;
  protoAdd _ _ _ := mret VNone;
  protoSubtract _ _ _ := mret VNone;
  protoMultiply _ _ _ := mret VNone;
  partialCompare _ _ := None;
  valuesEqual _ _ _ := mret false;
  getAttribute _ _ _ := mret VNone;
  hasAttribute _ _ _ := mret false;
  isInstanceOf _ _ := true;
  classPrototype _ := VNone;
  asException _ := None;
  makeException _ := VNone;
  clojureThrow v := v;
  exnValue v := v;
  asMethod _ := None;
  asMethodSelf _ := VNone;
  callMethod _ _ _ _ := mret VNone;
  fastPrimitiveCall _ _ _ _ := None;
  checkNativeStack depth := None;
  onLine _ _ := mret ();
}.

Lemma address_small : small_collections.
Proof. split; [done|]. split; [done|]. by intros v i w w' items E. Qed.

(** A program, read, compiled and run. *)
Definition runProgram (source : string) : option Z :=
  match demoCompile source with
  | Ok m =>
      match execute 2000 (mkCall m [] None [] VNull) (mkWorld [] 0) with
      | (_, Ret (VInt z)) => Some z
      | _ => None
      end
  | Throw _ => None
  end.

Example runs_loop :
  runProgram "((fn [n] (loop [i 0 sum 0] (if (< i n) (recur (+ i 1) (+ sum i)) sum))) 10)" = Some 45.
Proof. vm_compute. reflexivity. Qed.

Example runs_closure :
  runProgram "(let [add (fn [a] (fn [b] (+ a b)))] ((add 40) 2))" = Some 42.
Proof. vm_compute. reflexivity. Qed.

Example runs_try :
  runProgram "((fn [n] (try (if (< n 3) 1 (throw n)) (catch Throwable e 42))) 21)" = Some 42.
Proof. vm_compute. reflexivity. Qed.

Definition formOf (source : string) : obj :=
  match fst (readOne demoConfig 20 (demoReader (s2b source))) with
  | Ok (Some form) => form
  | _ => PROTO_NONE
  end.

Definition topOf (source : string) : module :=
  match compileTop None 40 (formOf source) demoProgram with Ok r => r.1 | Throw _ => newModule end.

(** The first function of the source. *)
Definition bodyOf (source : string) : module := nth 0 (blocks_ (topOf source)) newModule.

Lemma topOf_ok source : (match compileTop None 40 (formOf source) demoProgram with
    Ok _ => true | Throw _ => false end) = true ->
  exists w', compileTop None 40 (formOf source) demoProgram = Ok (topOf source, w').
Proof. unfold topOf. destruct (compileTop _ _ _ _) as [[m w']|]; [|done]. by exists w'. Qed.

Lemma bodyOf_inside source : (0 <? length (blocks_ (topOf source)))%nat = true ->
  inside (bodyOf source) (topOf source).
Proof.
  intros Hl. apply Inside_block with (bodyOf source); [|constructor]. unfold bodyOf.
  destruct (blocks_ _); [done|]. constructor.
Qed.

Definition summing : string :=
  "(fn [n] (loop [i 0 sum 0] (if (< i n) (recur (+ i 1) (+ sum i)) sum)))".

Definition summingDepths : list Z := [0; 1; 0; 1; 0; 1; 2; 1; 0; 1; 2; 1; 2; 3; 2; 1; 0; 1; 0; 1].

(** The tutorial's example of a misplaced [recur]. *)
Definition misplaced : string := "(fn [n] (+ 1 (recur (dec n))))".
Definition misplacedDepths : list Z := [0; 1; 2; 3; 2; 1; 2; 1].

Example compiled_well_formed_witness :
  exists m w', compileTop None 40 (formOf misplaced) demoProgram = Ok (m, w') /\
    m = topOf misplaced /\ module_ok (bodyOf misplaced).
Proof.
  destruct (topOf_ok misplaced) as [w' E]; [vm_compute; reflexivity|].
  exists (topOf misplaced), w'. split; [exact E|]. split; [reflexivity|].
  exact (compiled_well_formed _ _ _ _ _ _ _ E
           (bodyOf_inside misplaced ltac:(vm_compute; reflexivity))).
Defined.

Example compiled_never_overruns_witness :
  depths_of (bodyOf summing) summingDepths /\ level (bodyOf summing) summingDepths /\
  exists r, computeMaxStack (S (length (code_ (bodyOf summing)))) (bodyOf summing) = Some r /\
    0 <= r <= 3.
Proof.
  assert (HT : depths_of (bodyOf summing) summingDepths)
    by (apply depths_ofb_spec; vm_compute; reflexivity).
  assert (Hl : level (bodyOf summing) summingDepths) by (apply levelb_spec; vm_compute; reflexivity).
  split; [exact HT|]. split; [exact Hl|].
  destruct (topOf_ok summing) as [w' E]; [vm_compute; reflexivity|].
  destruct (compiled_never_overruns (vmInvoke 70) (execute 70) _ _ _ _ _ _ _ E
    (bodyOf_inside summing ltac:(vm_compute; reflexivity)) address_small) as [_ Hall].
  destruct (Hall summingDepths HT Hl) as (r & Er & Hr & _). exists r. split; [exact Er|exact Hr].
Defined.

Example deeper_recur_never_ends_witness :
  depths_of (bodyOf misplaced) misplacedDepths /\
  forall fuel, computeMaxStack fuel (bodyOf misplaced) = None.
Proof.
  assert (HT : depths_of (bodyOf misplaced) misplacedDepths)
    by (apply depths_ofb_spec; vm_compute; reflexivity).
  assert (Et : 5 + 1 - instrOperand (wordAt (bodyOf misplaced) 5) = 0) by (vm_compute; reflexivity).
  split; [exact HT|]. intros fuel. apply (deeper_recur_never_ends _ misplacedDepths 5 fuel HT);
    rewrite ?Et.
  - vm_compute. split; [discriminate|reflexivity].
  - vm_compute. reflexivity.
  - apply rtc_refl.
  - apply (straight_path (bodyOf misplaced) misplacedDepths 0 5). vm_compute. reflexivity.
  - vm_compute. reflexivity.
Defined.

End Examples.
