(* ===== verification/DataFormats.v ===== *)
(** The functions that read and write data as text: what they share, and
    [read-string] and [clojure.edn/read-string] (runtime/DataFormats.h, Edn.cpp, the
    arguments of Json.cpp; [valueTypeName] of Primitives.cpp; Utf8String.h). *)

From S2P Require Import Prelude Values Maps Exceptions Printer Reader.

#[local] Set Warnings "-register-all".

(** ** Fallible computations on a state *)

Definition E (Err S A : Type) : Type := S -> result Err A * S.

#[export] Instance E_ret Err S : MRet (E Err S) := fun A a s => (Ok a, s).
#[export] Instance E_bind Err S : MBind (E Err S) := fun A B f m s =>
  match m s with
  | (Ok a, s) => f a s
  | (Throw e, s) => (Throw e, s)
  end.

Section Effects.
Context {Err S : Type}.
Definition raise {A} (e : Err) : E Err S A := fun s => (Throw e, s).
Definition look {A} (f : S -> A) : E Err S A := fun s => (Ok (f s), s).
Definition update (f : S -> S) : E Err S unit := fun s => (Ok tt, f s).
End Effects.

(** What a data-format function raises: a classed exception, one that a function it
    called or the I/O raised, or StackOverflowError. [OutOfTurns] is no exception: a
    loop was given too few turns. *)
Inductive formatError (exn : Type) :=
| Classed (class message : bytes)
| Raised (e : exn)
| Overflow (what : bytes)
| NoTurns.
Arguments Classed {exn} _ _.
Arguments Raised {exn} _.
Arguments Overflow {exn} _.
Arguments NoTurns {exn}.

(** ** The running program

    [W] is what a call or the I/O can change. The address of the next cell, the
    process's gensym counter, calls of functions, the descriptors of readers and writers and the lines and bytes
    that go through them (IO.h), the global [clojure.core/keyword], the syntax-quote
    resolver, and the names of the kinds of seqs and of I/O handles. *)
Class FormatsEnv (W exn : Type) := {
  fe_reader :: ReaderEnv;
  fe_printer :: PrinterEnv;
  heapTop : W -> Z;
  setHeapTop : Z -> W -> W;
  gensymCounter : W -> Z;
  setGensymCounter : Z -> W -> W;
  callValue : obj -> list obj -> W -> result exn obj * W;
  readableDescriptor : obj -> bytes -> W -> result exn Z;
  writableDescriptor : obj -> bytes -> W -> result exn Z;
  readLineBlocking : Z -> W -> result exn (option bytes) * W;
  writeBlocking : Z -> bytes -> W -> result exn unit * W;
  keywordFn : W -> option obj;
  resolverHook : option (bytes -> bytes);
  seqTypeName : obj -> bytes;
  ioHandleTypeName : obj -> bytes;
  (** The text of StackOverflowError for data (StackGuard.cpp). *)
  dataTooDeep : bytes;
}.

Section DataFormats.
Context {W exn : Type} `{FormatsEnv W exn}.

#[local] Abbreviation F := (E (formatError exn) W).

Definition throwClassed {S A} (class message : bytes) : E (formatError exn) S A :=
  raise (Classed class message).

(** The class named in the text, else RuntimeException ([throwError]). *)
Definition throwError {S A} (text : bytes) : E (formatError exn) S A :=
  let '(cls, message) := classFromText text in
  throwClassed (exceptionClassName cls) message.

Definition lifted {A} (m : W -> result exn A * W) : F A := fun w =>
  match m w with
  | (Ok a, w) => (Ok a, w)
  | (Throw e, w) => (Throw (Raised e), w)
  end.

Definition descriptor (m : W -> result exn Z) : F Z := lifted (fun w => (m w, w)).

(** A cell of its own. *)
Definition allocateIn (w : W) : Z * W := (heapTop w, setHeapTop (heapTop w + 64) w).

Definition truthy (v : obj) : bool := negb (same v PROTO_NONE) && negb (same v PROTO_FALSE).

(** ** Strings *)

(** The text of the string made of a UTF-8 buffer: an incomplete sequence at its end
    becomes U+FFFD. *)
Definition utf8Text (text : bytes) : bytes :=
  let '(s, remCount) := fromUTF8Buffer text in
  if (remCount =? 0)%nat then s
  else fst (fromUTF8Buffer (take (length text - remCount) text ++ [xef; xbf; xbd])).

(** ** The names of types *)

Definition valueTypeName (v : obj) : bytes :=
  if same v PROTO_NONE then s2b "nil"
  else if same v PROTO_TRUE || same v PROTO_FALSE then s2b "a boolean"
  else match integerOf v with
  | Some _ => s2b "an integer"
  | None =>
      match v with
      | Dbl _ _ => s2b "a float"
      | Str _ _ => s2b "a string"
      | PList _ _ => s2b "an internal list"
      | Vec _ _ => s2b "a vector"
      | LList _ _ => s2b "a list"
      | SeqObj _ _ => seqTypeName v
      | MapObj _ _ => s2b "a map"
      | SetObj _ _ => s2b "a set"
      | Pattern _ _ => s2b "a pattern"
      | Cell _ CMatcher _ => s2b "a matcher"
      | Cell _ (CBuiltin _) _ => s2b "a fn"
      | Cell _ CException _ => s2b "an exception"
      | Cell _ CHandle _ => ioHandleTypeName v
      | _ =>
          if negb hasCallContext then s2b "an object"
          else match v with
          | Named _ (":" :: _)%byte => s2b "a keyword"
          | Named _ _ => s2b "a symbol"
          | Cell _ CAtom _ => s2b "an atom"
          | Cell _ CFuture _ => s2b "a future"
          | Cell _ CPromise _ => s2b "a promise"
          | Cell _ CActor _ => s2b "an actor"
          | Cell _ CFn _ => s2b "a fn"
          | _ => s2b "an object"
          end
      end
  end.

(** ** Arguments *)

Definition argAt (args : list obj) (i : nat) : obj := default PROTO_NONE (args !! i).

Definition arity {S A} (n : nat) (name : bytes) : E (formatError exn) S A :=
  throwClassed (s2b "ArityException")
    (s2b "Wrong number of args (" ++ to_string (Z.of_nat n) ++ s2b ") passed to: " ++ name).

Definition callContext {S} (who : bytes) : E (formatError exn) S unit :=
  if hasCallContext then mret tt else throwError (who ++ s2b ": no active VM context").

Definition stringArg {S} (v : obj) (who : bytes) : E (formatError exn) S bytes :=
  match v with
  | Str _ text => mret text
  | _ => throwClassed (s2b "ClassCastException")
           (who ++ s2b " expects a string, got " ++ valueTypeName v)
  end.

(** The option named by a keyword in a map of options; none in nil. *)
Definition mapOption (opts : obj) (name : bytes) : option obj :=
  match opts with
  | MapObj _ es => mapGet 1 es (internNamed name)
  | _ => None
  end.

(** ** read-string *)

Definition eofOption (opts : obj) (who : bytes) : F (option obj) :=
  if same opts PROTO_NONE then mret None
  else if negb (isMap opts) then
    throwClassed (s2b "ClassCastException")
      (who ++ s2b ": options must be a map, got " ++ valueTypeName opts)
  else mret (mapOption opts (s2b ":eof")).

(** The text read, by a reader with the process's counter and heap. *)
Definition readFirst (stack : nat) (text : bytes) (edn : bool) (eof : option obj) : F obj := fun w =>
  let hasEof := match eof with Some _ => true | None => false end in
  let cfg := mkConfig false false (if edn then None else resolverHook) edn in
  let after := snd (readOne cfg stack (newReader text (gensymCounter w) (heapTop w))) in
  let w' := setGensymCounter (gensymId after) (setHeapTop (nextAddress after) w) in
  match readFirstForm stack resolverHook text edn hasEof (default PROTO_NONE eof)
          (gensymCounter w) (heapTop w) with
  | Ok form => (Ok form, w')
  | Throw message => (Throw (Classed (s2b "RuntimeException") message), w')
  end.

Definition prim_read_string (stack : nat) (args : list obj) : F obj :=
  let n := length args in
  let who := s2b "read-string" in
  if negb (n =? 1)%nat && negb (n =? 2)%nat then arity n who
  else
    _ ← callContext who;
    eof ← (if (n =? 2)%nat then eofOption (argAt args 0) who else mret None);
    text ← stringArg (argAt args (n - 1)) who;
    readFirst stack text false eof.

Definition prim_edn_read_string (stack : nat) (args : list obj) : F obj :=
  let n := length args in
  let who := s2b "clojure.edn/read-string" in
  if negb (n =? 1)%nat && negb (n =? 2)%nat then arity n who
  else
    _ ← callContext who;
    eof ← (if (n =? 2)%nat then eofOption (argAt args 0) who else mret (Some PROTO_NONE));
    let s := argAt args (n - 1) in
    if same s PROTO_NONE then mret PROTO_NONE
    else
      text ← stringArg s who;
      readFirst stack text true eof.

End DataFormats.
