(* ===== verification/Json.v ===== *)
(** JSON: one parser and one writer behind cheshire.core and clojure.data.json
    (runtime/Json.cpp). A parser reads a [source], a whole string or a reader pulled a
    line at a time; [stack] is how many levels of nesting the thread's stack has room
    for, [turns] bounds each loop over characters. *)

From S2P Require Import Prelude Utf8 Double Values Maps Printer Macros Reader DataFormats.

#[local] Set Warnings "-register-all".

Inductive Flavor := Cheshire | DataJson.

Definition errorClass (f : Flavor) : bytes :=
  match f with Cheshire => s2b "IOException" | DataJson => s2b "Exception" end.

(** ** The source *)

Record source := mkSource {
  buf_ : bytes;
  pos_ : nat;
  lineStart_ : nat;
  line_ : Z;
  fd_ : option Z;
  eof_ : bool;
}.

Definition stringSource (text : bytes) : source := mkSource text 0 0 1 None false.
Definition streamSource (fd : Z) : source := mkSource [] 0 0 1 (Some fd) false.

Definition advance (s : source) : source :=
  mkSource (buf_ s) (S (pos_ s)) (lineStart_ s) (line_ s) (fd_ s) (eof_ s).
(** After a newline character. *)
Definition newline (s : source) : source :=
  mkSource (buf_ s) (pos_ s) (pos_ s) (line_ s + 1) (fd_ s) (eof_ s).
Definition skip (n : nat) (s : source) : source :=
  mkSource (buf_ s) (pos_ s + n) (lineStart_ s) (line_ s) (fd_ s) (eof_ s).

(** The bytes still buffered. *)
Definition data (s : source) : bytes := drop (pos_ s) (buf_ s).

Definition isContinuation (c : byte) : bool := Z.land (u8 c) 0xC0 =? 0x80.

(** Columns count characters. *)
Definition columnOf (s : source) : Z :=
  1 + Z.of_nat (length (List.filter (fun c => negb (isContinuation c))
                          (drop (lineStart_ s) (take (pos_ s) (buf_ s))))).

Definition where_ (s : source) : bytes :=
  s2b "line " ++ to_string (line_ s) ++ s2b ", column " ++ to_string (columnOf s).

(** ** Options *)

Inductive Keys := Strings | Keywords | Fn (keyFn : obj).

Record ReadOptions := mkReadOptions { keys : Keys; valueFn : option obj }.
Definition defaultReadOptions : ReadOptions := mkReadOptions Strings None.

Record WriteOptions := mkWriteOptions {
  flavor : Flavor;
  pretty : bool;
  escapeNonAscii : bool;
  escapeSlash : bool;
  escapeJsSeparators : bool;
  writeKeyFn : option obj;
}.

Section Json.
Context {W exn : Type} `{FormatsEnv W exn}.

(** ** The parser *)

Inductive jsonError :=
| JsonSyntaxError (message : bytes)
| FormatError (e : formatError exn).

Record jstate := mkState { src_ : source; world : W }.
Definition set_src (s : source) (st : jstate) : jstate := mkState s (world st).

#[local] Abbreviation F := (E (formatError exn) W).
#[local] Abbreviation P := (E jsonError jstate).

(** A computation on the world, in the parser. *)
Definition onWorld {A} (m : F A) : P A := fun st =>
  match m (world st) with
  | (Ok a, w) => (Ok a, mkState (src_ st) w)
  | (Throw e, w) => (Throw (FormatError e), mkState (src_ st) w)
  end.

Definition outOfTurns {A} : P A := raise (FormatError NoTurns).

Definition allocate : P Z := onWorld (fun w => let '(a, w) := allocateIn w in (Ok a, w)).

Definition onSource (f : source -> source) : P unit := update (fun st => set_src (f (src_ st)) st).

(** The next line of a reader becomes the buffer; [false] at the end. *)
Definition refill : P bool := fun st =>
  let s := src_ st in
  match fd_ s with
  | None => (Ok false, st)
  | Some fd =>
      if eof_ s then (Ok false, st)
      else
        (line ← onWorld (lifted (readLineBlocking fd));
         match line with
         | None => _ ← onSource (fun s => mkSource (buf_ s) (pos_ s) (lineStart_ s) (line_ s) (fd_ s) true);
                   mret false
         | Some line => _ ← onSource (fun s => mkSource (line ++ [x0a]) 0 0 (line_ s) (fd_ s) (eof_ s));
                        mret true
         end) st
  end.

(** The byte at the current position; [None] at the end of the input. *)
Definition peek : P (option byte) := fun st =>
  match data (src_ st) with
  | c :: _ => (Ok (Some c), st)
  | [] => (more ← refill; if more : bool then look (fun st => head (data (src_ st))) else mret None) st
  end.

Definition fail {A} (what : bytes) : P A := fun st =>
  (Throw (JsonSyntaxError (s2b "JSON error: " ++ what ++ s2b " at " ++ where_ (src_ st))), st).

Definition describeCurrent : P bytes :=
  c ← peek;
  mret match c with
       | None => s2b "end of input"
       | Some c =>
           if u8 c <? 0x20 then s2b "control character " ++ to_string (u8 c)
           else if 0x80 <=? u8 c then s2b "character beyond ASCII"
           else s2b "character '" ++ [c] ++ s2b "'"
       end.

Definition is_lower (c : byte) : bool := in_range "a" c "z".

Definition test (p : byte -> bool) (c : option byte) : bool :=
  match c with Some c => p c | None => false end.

(** The characters [p] accepts, from the current one on. *)
Fixpoint takeWhile (turns : nat) (p : byte -> bool) (acc : bytes) : P bytes :=
  match turns with
  | O => outOfTurns
  | S turns =>
      c ← peek;
      match c with
      | Some c => if p c then _ ← onSource advance; takeWhile turns p (acc ++ [c]) else mret acc
      | None => mret acc
      end
  end.

Fixpoint skipWhitespace (turns : nat) : P unit :=
  match turns with
  | O => outOfTurns
  | S turns =>
      c ← peek;
      match c with
      | Some " "%byte | Some x09 | Some x0d => _ ← onSource advance; skipWhitespace turns
      | Some x0a => _ ← onSource advance; _ ← onSource newline; skipWhitespace turns
      | _ => mret tt
      end
  end.

Section Parser.
Context (turns : nat) (opts : ReadOptions).

(** Skips whitespace; [true] when a value follows. *)
Definition more : P bool :=
  _ ← skipWhitespace turns;
  c ← peek;
  mret (match c with Some _ => true | None => false end).

Definition expect (c : byte) (what : bytes) : P unit :=
  d ← peek;
  if bool_decide (d = Some c) then onSource advance
  else found ← describeCurrent; fail (s2b "expected " ++ what ++ s2b ", found " ++ found).

Definition unrecognized {A} (tok : bytes) : P A :=
  fail (s2b "unrecognized token '" ++ tok ++ s2b "', expected a value").

Fixpoint word (w seen : bytes) : P unit :=
  match w with
  | p :: w =>
      c ← peek;
      if bool_decide (c = Some p) then _ ← onSource advance; word w (seen ++ [p])
      else seen ← takeWhile turns is_alpha seen; unrecognized seen
  | [] =>
      c ← peek;
      if test is_alnum c
      then seen ← takeWhile turns (fun c => is_lower c || is_digit c) seen; unrecognized seen
      else mret tt
  end.

(** *** Numbers *)

(** The digits from the current position, at least one of them. *)
Definition digits (t : bytes) (error : bytes) : P bytes :=
  c ← peek;
  if test is_digit c then takeWhile turns is_digit t else fail error.

Definition integerPart (t : bytes) : P bytes :=
  c ← peek;
  if bool_decide (c = Some "0"%byte) then
    _ ← onSource advance;
    d ← peek;
    if test is_digit d then fail (s2b "invalid number, leading zeroes are not allowed")
    else mret (t ++ ["0"%byte])
  else digits t (s2b "invalid number, expected a digit after '-'").

(** The text so far, and whether it is a double's. *)
Definition fraction (t : bytes) : P (bytes * bool) :=
  c ← peek;
  if bool_decide (c = Some "."%byte) then
    _ ← onSource advance;
    t ← digits (t ++ ["."%byte]) (s2b "invalid number, expected a digit after the decimal point");
    mret (t, true)
  else mret (t, false).

Definition exponent (t : bytes) (isFloat : bool) : P (bytes * bool) :=
  c ← peek;
  if bool_decide (c = Some "e"%byte) || bool_decide (c = Some "E"%byte) then
    _ ← onSource advance;
    c ← peek;
    let t := t ++ ["e"%byte] in
    t ← (match c with
         | Some ("+"%byte as c) | Some ("-"%byte as c) => _ ← onSource advance; mret (t ++ [c])
         | _ => mret t
         end);
    t ← digits t (s2b "invalid number, expected a digit in the exponent");
    mret (t, true)
  else mret (t, isFloat).

(** The integer a numeral denotes: a SmallInteger or a cell of its own. *)
Definition integerValue (z : Z) : P obj :=
  if fitsSmallInt z then mret (Embedded (smallIntWord z)) else a ← allocate; mret (Big a z).

(** [std::from_chars]: [None] out of range. *)
Definition from_chars (t : bytes) : option Z :=
  let z := signed_value t in if fits_llong z then Some z else None.

Definition number : P obj :=
  c ← peek;
  t ← (if bool_decide (c = Some "-"%byte) then _ ← onSource advance; mret ["-"%byte] else mret []);
  t ← integerPart t;
  '(t, isFloat) ← fraction t;
  '(t, isFloat) ← exponent t isFloat;
  c ← peek;
  if test (fun c => is_alpha c || (c =? ".")%byte || (c =? "_")%byte) c then
    found ← describeCurrent; fail (s2b "invalid number, unexpected " ++ found)
  else if isFloat : bool then a ← allocate; mret (Dbl a (strtod t))
  else integerValue (match from_chars t with Some z => z | None => fromString t end).

(** *** Strings *)

Fixpoint hex4 (n : nat) (v : Z) : P Z :=
  match n with
  | O => mret v
  | S n =>
      h ← peek;
      match (match h with Some h => hex_digit h | None => None end) with
      | Some d => _ ← onSource advance; hex4 n (v * 16 + d)
      | None => fail (s2b "invalid \u escape, expected four hexadecimal digits")
      end
  end.

Definition unpaired {A} : P A := fail (s2b "unpaired surrogate in a \u escape").

(** The character of a [\u] escape, the [u] consumed. *)
Definition unicodeEscape : P Z :=
  cp ← hex4 4 0;
  if (0xD800 <=? cp) && (cp <=? 0xDBFF) then
    c ← peek;
    if negb (bool_decide (c = Some "\"%byte)) then unpaired
    else
      _ ← onSource advance;
      c ← peek;
      if negb (bool_decide (c = Some "u"%byte)) then unpaired
      else
        _ ← onSource advance;
        lo ← hex4 4 0;
        if (lo <? 0xDC00) || (0xDFFF <? lo) then unpaired
        else mret (0x10000 + Z.shiftl (cp - 0xD800) 10 + (lo - 0xDC00))
  else if (0xDC00 <=? cp) && (cp <=? 0xDFFF) then unpaired
  else mret cp.

Definition plain (c : byte) : bool :=
  negb ((c =? x22)%byte || (c =? "\")%byte || (c =? x0a)%byte).

(** The run of plain bytes already buffered. *)
Fixpoint plainRun (s : bytes) : bytes :=
  match s with c :: s => if plain c then c :: plainRun s else [] | [] => [] end.

(** The character of an escape, the backslash consumed: [None] is the end. *)
Definition escape (e : byte) : P bytes :=
  match e with
  | x22 => mret [x22]
  | "\" => mret ["\"]
  | "/" => mret ["/"]
  | "b" => mret [x08]
  | "f" => mret [x0c]
  | "n" => mret [x0a]
  | "r" => mret [x0d]
  | "t" => mret [x09]
  | "u" => cp ← unicodeEscape; mret (encodeUtf8 cp)
  | _ =>
      fail (if (u8 e <? 0x20) || (0x80 <=? u8 e) then s2b "invalid escape in a string"
            else s2b "invalid escape '\" ++ [e] ++ s2b "' in a string")
  end%byte.

(** The contents of a string, the opening quote consumed. *)
Fixpoint string_ (turns : nat) (out : bytes) : P bytes :=
  match turns with
  | O => outOfTurns
  | S turns =>
      run ← look (fun st => plainRun (data (src_ st)));
      _ ← onSource (skip (length run));
      let out := out ++ run in
      c ← peek;
      match c with
      | None => fail (s2b "unexpected end of input inside a string")
      | Some c =>
          _ ← onSource advance;
          if (c =? x22)%byte then mret out
          else if (c =? x0a)%byte then _ ← onSource newline; string_ turns (out ++ [x0a])
          else  (* taken to be a backslash *)
            e ← peek;
            match e with
            | None => fail (s2b "unexpected end of input inside a string")
            | Some e => _ ← onSource advance; s ← escape e; string_ turns (out ++ s)
            end
      end
  end.

Definition newString (text : bytes) : P obj := a ← allocate; mret (Str a (utf8Text text)).

(** What a function of C strings reads of [s.c_str()]: the text before the first NUL. *)
Fixpoint c_str (s : bytes) : bytes :=
  match s with
  | [] => []
  | c :: s => if (c =? x00)%byte then [] else c :: c_str s
  end.

(** [internNamed] takes a C string. *)
Definition makeKey (text : bytes) : P obj :=
  match keys opts with
  | Keywords => mret (internNamed (c_str (":"%byte :: text)))
  | Strings | Fn _ => newString text
  end.

(** *** Arrays and objects *)
Section Containers.
Context (value : P obj).

Fixpoint elements (n : nat) (items : list obj) : P (list obj) :=
  match n with
  | O => outOfTurns
  | S n =>
      v ← value;
      _ ← skipWhitespace turns;
      d ← peek;
      match d with
      | Some ","%byte => _ ← onSource advance; elements n (items ++ [v])
      | Some "]"%byte => _ ← onSource advance; mret (items ++ [v])
      | None => fail (s2b "unexpected end of input inside an array, expected ',' or ']'")
      | _ =>
          found ← describeCurrent;
          fail (s2b "expected ',' or ']' in an array, found " ++ found)
      end
  end.

Definition array : P obj :=
  _ ← skipWhitespace turns;
  c ← peek;
  items ← (if bool_decide (c = Some "]"%byte) then _ ← onSource advance; mret [] else elements turns []);
  a ← allocate;
  mret (newVector a items).

Definition kBatch : nat := 16.

(** The pending entries go into the map. *)
Definition fold (m : entries) (kv : list obj) : entries :=
  match mapAssocPairs (keyFuel (map fst m ++ kv)) (Some m) kv with Ok m => m | Throw _ => m end.

(** A key, its function applied; a value, [None] when the value function drops it. *)
Definition entryKey (text : bytes) : P obj :=
  k ← makeKey text;
  match keys opts with Fn keyFn => onWorld (lifted (callValue keyFn [k])) | _ => mret k end.

Definition entryValue (k v : obj) : P (option obj) :=
  match valueFn opts with
  | Some valueFn =>
      r ← onWorld (lifted (callValue valueFn [k; v]));
      mret (if same r valueFn then None else Some r)
  | None => mret (Some v)
  end.

Fixpoint members (n : nat) (m : entries) (kv : list obj) : P entries :=
  match n with
  | O => outOfTurns
  | S n =>
      _ ← skipWhitespace turns;
      q ← peek;
      match q with
      | None => fail (s2b "unexpected end of input inside an object, expected a key")
      | Some q =>
          if negb (q =? x22)%byte then
            found ← describeCurrent;
            fail (s2b "expected a string key in an object, found " ++ found)
          else
            _ ← onSource advance;
            keyText ← string_ turns [];
            k ← entryKey keyText;
            _ ← skipWhitespace turns;
            _ ← expect ":" (s2b "':' after an object key");
            v ← value;
            kept ← entryValue k v;
            let kv := match kept with Some v => kv ++ [k; v] | None => kv end in
            let '(m, kv) := if (length kv =? 2 * kBatch)%nat then (fold m kv, []) else (m, kv) in
            _ ← skipWhitespace turns;
            d ← peek;
            match d with
            | Some ","%byte => _ ← onSource advance; members n m kv
            | Some "}"%byte => _ ← onSource advance; mret (fold m kv)
            | None => fail (s2b "unexpected end of input inside an object, expected ',' or '}'")
            | _ =>
                found ← describeCurrent;
                fail (s2b "expected ',' or '}' in an object, found " ++ found)
            end
      end
  end.

Definition object : P obj :=
  _ ← skipWhitespace turns;
  c ← peek;
  m ← (if bool_decide (c = Some "}"%byte) then _ ← onSource advance; mret [] else members turns [] []);
  a ← allocate;
  mret (MapObj a m).

End Containers.

(** The next value; [more] has answered [true]. *)
Fixpoint value (stack : nat) : P obj :=
  match stack with
  | O => raise (FormatError (Overflow nestedTooDeeply))
  | S stack =>
      _ ← skipWhitespace turns;
      c ← peek;
      match c with
      | Some "{"%byte => _ ← onSource advance; object (value stack)
      | Some "["%byte => _ ← onSource advance; array (value stack)
      | Some x22 => _ ← onSource advance; text ← string_ turns []; newString text
      | Some "t"%byte => _ ← word (s2b "true") []; mret PROTO_TRUE
      | Some "f"%byte => _ ← word (s2b "false") []; mret PROTO_FALSE
      | Some "n"%byte => _ ← word (s2b "null") []; mret PROTO_NONE
      | None => fail (s2b "unexpected end of input, expected a value")
      | Some c =>
          if (c =? "-")%byte || is_digit c then number
          else if is_alpha c then tok ← takeWhile turns is_alnum []; unrecognized tok
          else found ← describeCurrent; fail (s2b "unexpected " ++ found ++ s2b ", expected a value")
      end
  end.

(** The first value of the source. A source with none answers [eofValue] when there
    is one; with [reject] only whitespace may follow the value. *)
Definition readValue (stack : nat) (f : Flavor) (reject : bool) (eofValue : option obj) : P obj :=
  follows ← more;
  if negb follows then
    match eofValue with
    | Some v => mret v
    | None => fail (s2b "unexpected end of input, expected a value")
    end
  else
    v ← value stack;
    if reject then
      extra ← more;
      if extra : bool then
        found ← describeCurrent; fail (s2b "found extra data after the value: " ++ found)
      else mret v
    else mret v.

End Parser.

(** [JsonSyntaxError] becomes the flavor's exception. *)
Definition readJson (turns stack : nat) (src : source) (opts : ReadOptions) (f : Flavor)
    (reject : bool) (eofValue : option obj) : F obj := fun w =>
  match readValue turns opts stack f reject eofValue (mkState src w) with
  | (Ok v, st) => (Ok v, world st)
  | (Throw (JsonSyntaxError message), st) => (Throw (Classed (errorClass f) message), world st)
  | (Throw (FormatError e), st) => (Throw e, world st)
  end.

(** ** The writer *)

Section Writer.
Context (opts : WriteOptions).

Definition upperDigits : bytes := s2b "0123456789ABCDEF".
Definition lowerDigits : bytes := s2b "0123456789abcdef".

Definition hexEscape (u : Z) : bytes :=
  let ds := match flavor opts with Cheshire => upperDigits | DataJson => lowerDigits end in
  s2b "\u" ++ map (fun shift => nth (Z.to_nat (Z.land (Z.shiftr u shift) 0xF)) ds x00) [12; 8; 4; 0].

Definition escapeAscii (c : byte) : bytes :=
  match c with
  | x22 => ["\"; x22]
  | "\" => ["\"; "\"]
  | x08 => ["\"; "b"]
  | x0c => ["\"; "f"]
  | x0a => ["\"; "n"]
  | x0d => ["\"; "r"]
  | x09 => ["\"; "t"]
  | "/" => if escapeSlash opts then ["\"; "/"] else ["/"]
  | c => if u8 c <? 0x20 then hexEscape (u8 c) else [c]
  end%byte.

(** The continuation bytes of a sequence: [None] when one is none. *)
Fixpoint continuations (n : nat) (s : bytes) (cp : Z) : option Z :=
  match n, s with
  | O, _ => Some cp
  | S n, c :: s =>
      if isContinuation c then continuations n s (Z.lor (Z.shiftl cp 6) (Z.land (u8 c) 0x3F)) else None
  | S _, [] => None
  end.

(** The character at the start of the text, its length in bytes; a malformed one is
    U+FFFD, of one byte. *)
Definition sequenceAt (c : byte) (s : bytes) : option (Z * nat) :=
  let lead := u8 c in
  let len := if (0xC2 <=? lead) && (lead <=? 0xDF) then Some (2%nat, Z.land lead 0x1F)
             else if (0xE0 <=? lead) && (lead <=? 0xEF) then Some (3%nat, Z.land lead 0x0F)
             else if (0xF0 <=? lead) && (lead <=? 0xF4) then Some (4%nat, Z.land lead 0x07)
             else None in
  match len with
  | Some (len, cp) =>
      match continuations (len - 1) s cp with Some cp => Some (cp, len) | None => None end
  | None => None
  end.

Definition escapeCharacter (cp : Z) : bytes :=
  if 0x10000 <=? cp then
    let u := cp - 0x10000 in
    hexEscape (0xD800 + Z.shiftr u 10) ++ hexEscape (0xDC00 + Z.land u 0x3FF)
  else hexEscape cp.

Fixpoint characters (n : nat) (s : bytes) : bytes :=
  match n, s with
  | S n, c :: s =>
      if u8 c <? 0x80 then escapeAscii c ++ characters n s
      else if negb (escapeNonAscii opts) && negb (escapeJsSeparators opts) then c :: characters n s
      else
        let '(cp, len, ok) :=
          match sequenceAt c s with Some (cp, len) => (cp, len, true) | None => (0xFFFD, 1%nat, false) end in
        let separator := (cp =? 0x2028) || (cp =? 0x2029) in
        (if escapeNonAscii opts || (separator && escapeJsSeparators opts) then escapeCharacter cp
         else if ok : bool then take len (c :: s) else [xef; xbf; xbd]) ++
        characters n (drop (len - 1) s)
  | _, _ => []
  end.

Definition writeString (s : bytes) : bytes := [x22] ++ characters (length s) s ++ [x22].

(** The text of a keyword or a symbol. *)
Definition namedText (spelling : bytes) : bytes :=
  let s := match spelling with (":" :: s)%byte => s | s => s end in
  match flavor opts with
  | Cheshire => s
  | DataJson =>
      match findSlash s with
      | Some slash => if (0 <? slash)%nat && (S slash <? length s)%nat then drop (S slash) s else s
      | None => s
      end
  end.

(** Without its article. *)
Definition bareTypeName (v : obj) : bytes :=
  let type := valueTypeName v in
  if bool_decide (take 2 type = s2b "a ") then drop 2 type
  else if bool_decide (take 3 type = s2b "an ") then drop 3 type
  else type.

Definition cannotWrite {A} (v : obj) : F A :=
  match flavor opts with
  | Cheshire => throwClassed (s2b "IOException")
                  (s2b "Cannot JSON encode object of class: " ++ bareTypeName v)
  | DataJson => throwClassed (s2b "Exception") (s2b "Don't know how to write JSON of " ++ bareTypeName v)
  end.

Definition isKeyword (v : obj) : bool :=
  match v with Named _ (":" :: _)%byte => true | _ => false end.

(** The text of a key with no function. *)
Definition plainKeyText (k : obj) : bytes :=
  match k with
  | Str _ text => text
  | Named _ spelling => namedText spelling
  | _ => if same k PROTO_NONE then [] else printTo false k
  end.

Definition keyText (k : obj) : F bytes :=
  match writeKeyFn opts with
  | None =>
      if same k PROTO_NONE && match flavor opts with DataJson => true | Cheshire => false end
      then throwClassed (s2b "Exception") (s2b "JSON object properties may not be nil")
      else mret (plainKeyText k)
  | Some keyFn =>
      if match flavor opts with DataJson => true | Cheshire => isKeyword k end then
        r ← lifted (callValue keyFn [k]);
        mret (match r with Str _ text => text | _ => printTo false r end)
      else mret (plainKeyText k)
  end.

Definition newlineIndent (depth : nat) : bytes := x0a :: replicate (2 * depth) " "%byte.

Section Values.
Context (writeValue : nat -> obj -> F bytes).

Definition element (v : obj) (depth : nat) (first : bool) : F bytes :=
  text ← writeValue depth v;
  mret ((if first then if pretty opts then [" "%byte] else []
         else if pretty opts then s2b ", " else [","%byte]) ++ text).

Fixpoint elementsFrom (depth : nat) (first : bool) (items : list obj) : F bytes :=
  match items with
  | [] => mret []
  | v :: items =>
      text ← element v depth first;
      rest ← elementsFrom depth false items;
      mret (text ++ rest)
  end.

Definition writeSequence (depth : nat) (items : list obj) : F bytes :=
  text ← elementsFrom depth true items;
  mret (["["%byte] ++ text ++ (if pretty opts then [" "%byte] else []) ++ ["]"%byte]).

Fixpoint membersFrom (depth : nat) (first : bool) (es : entries) : F bytes :=
  match es with
  | [] => mret []
  | e :: es =>
      key ← keyText e.1;
      text ← writeValue depth e.2;
      rest ← membersFrom depth false es;
      mret ((if first then [] else [","%byte]) ++ (if pretty opts then newlineIndent depth else []) ++
            writeString key ++ (if pretty opts then s2b " : " else s2b ":") ++ text ++ rest)
  end.

Definition writeMap (depth : nat) (es : entries) : F bytes :=
  if mapIsEmpty es then mret (if pretty opts then s2b "{ }" else s2b "{}")
  else
    text ← membersFrom (S depth) true es;
    mret (["{"%byte] ++ text ++ (if pretty opts then newlineIndent depth else []) ++ ["}"%byte]).

End Values.

Definition writeDouble (bits : Z) : F bytes :=
  if negb (isnan bits) && negb (isinf bits) then mret (formatDouble bits)
  else match flavor opts with
  | DataJson =>
      throwClassed (s2b "Exception")
        (if isnan bits then s2b "JSON error: cannot write Double NaN"
         else s2b "JSON error: cannot write infinite Double")
  | Cheshire =>
      mret ([x22] ++ (if isnan bits then s2b "NaN"
                      else if signbit bits then s2b "-Infinity" else s2b "Infinity") ++ [x22])
  end.

(** [depth]: the enclosing objects, for [pretty]. *)
Fixpoint writeValue (stack : nat) (depth : nat) (v : obj) : F bytes :=
  match stack with
  | O => raise (Overflow dataTooDeep)
  | S stack =>
      if same v PROTO_NONE then mret (s2b "null")
      else if same v PROTO_TRUE then mret (s2b "true")
      else if same v PROTO_FALSE then mret (s2b "false")
      else match integerOf v with
      | Some z => mret (to_string z)
      | None =>
          match v with
          | Dbl _ bits => writeDouble bits
          | Str _ text => mret (writeString text)
          | MapObj _ es => writeMap (writeValue stack) depth es
          | Vec _ items | LList _ items | SeqObj _ items => writeSequence (writeValue stack) depth items
          | SetObj _ es => writeSequence (writeValue stack) depth (map fst es)
          | Named _ spelling => mret (writeString (namedText spelling))
          | _ => cannotWrite v
          end
      end
  end.

End Writer.

Definition writeJson (stack : nat) (v : obj) (opts : WriteOptions) : F bytes :=
  writeValue opts stack 0 v.

(** ** The functions *)

(** Keyword and value pairs after the positional arguments. *)
Definition pairOptions (args : list obj) (from : nat) (who : bytes) : F obj :=
  let kv := drop from args in
  match kv with
  | [] => mret PROTO_NONE
  | _ =>
      match mapAssocPairs (keyFuel kv) None kv with
      | Throw _ => throwClassed (s2b "IllegalArgumentException")
                     (who ++ s2b ": options must be keyword / value pairs")
      | Ok es => fun w => let '(a, w) := allocateIn w in (Ok (MapObj a es), w)
      end
  end.

Definition optionIn (opts : obj) (name : bytes) : obj := default PROTO_NONE (mapOption opts name).

Definition setKeyFn (fn : obj) (o : ReadOptions) : F ReadOptions :=
  if negb (truthy fn) then mret o
  else
    keyword ← look keywordFn;
    mret (if same fn PROTO_TRUE || match keyword with Some k => same fn k | None => false end
          then mkReadOptions Keywords (valueFn o) else mkReadOptions (Fn fn) (valueFn o)).

Section Functions.
Context (turns stack : nat).

(** The loops over a string's characters have turns enough. *)
Definition stringTurns (text : bytes) : nat := S (length text).

Definition arrayCoerce (args : list obj) (who : bytes) : F unit :=
  if (length args =? 3)%nat && truthy (argAt args 2) then
    throwClassed (s2b "UnsupportedOperationException")
      (who ++ s2b ": array-coerce-fn is not supported (D57)")
  else mret tt.

Definition keyOption (args : list obj) : F ReadOptions :=
  if (2 <=? length args)%nat then setKeyFn (argAt args 1) defaultReadOptions
  else mret defaultReadOptions.

Definition prim_parse_string (args : list obj) : F obj :=
  let who := s2b "parse-string" in
  let n := length args in
  if (n <? 1)%nat || (3 <? n)%nat then arity n who
  else
    _ ← callContext who;
    let s := argAt args 0 in
    if same s PROTO_NONE then mret PROTO_NONE
    else
      _ ← arrayCoerce args who;
      o ← keyOption args;
      text ← stringArg s who;
      readJson (stringTurns text) stack (stringSource text) o Cheshire false (Some PROTO_NONE).

Definition prim_parse_stream (args : list obj) : F obj :=
  let who := s2b "parse-stream" in
  let n := length args in
  if (n <? 1)%nat || (3 <? n)%nat then arity n who
  else
    _ ← callContext who;
    _ ← arrayCoerce args who;
    o ← keyOption args;
    fd ← descriptor (readableDescriptor (argAt args 0) who);
    readJson turns stack (streamSource fd) o Cheshire false (Some PROTO_NONE).

(** The options, and what an empty input answers. *)
Definition dataJsonReadOptions (opts : obj) (who : bytes) : F (ReadOptions * option obj) :=
  o ← setKeyFn (optionIn opts (s2b ":key-fn")) defaultReadOptions;
  let vf := optionIn opts (s2b ":value-fn") in
  let o := if truthy vf then mkReadOptions (keys o) (Some vf) else o in
  let eofOk := match mapOption opts (s2b ":eof-error?") with
               | Some eofError => negb (truthy eofError)
               | None => false
               end in
  let eofValue := optionIn opts (s2b ":eof-value") in
  if truthy (optionIn opts (s2b ":bigdec")) then
    throwClassed (s2b "UnsupportedOperationException")
      (who ++ s2b ": :bigdec needs BigDecimal, which protoClojure does not have (D57)")
  else mret (o, if eofOk then Some eofValue else None).

Definition prim_read_str (args : list obj) : F obj :=
  let who := s2b "read-str" in
  let n := length args in
  if (n <? 1)%nat then arity n who
  else
    _ ← callContext who;
    opts ← pairOptions args 1 who;
    '(o, eofValue) ← dataJsonReadOptions opts who;
    text ← stringArg (argAt args 0) who;
    readJson (stringTurns text) stack (stringSource text) o DataJson true eofValue.

Definition prim_read (args : list obj) : F obj :=
  let who := s2b "read" in
  let n := length args in
  if (n <? 1)%nat then arity n who
  else
    _ ← callContext who;
    opts ← pairOptions args 1 who;
    '(o, eofValue) ← dataJsonReadOptions opts who;
    fd ← descriptor (readableDescriptor (argAt args 0) (s2b "clojure.data.json/read"));
    readJson turns stack (streamSource fd) o DataJson false eofValue.

Definition someTruthy (v : obj) : option obj := if truthy v then Some v else None.

Definition cheshireWriteOptions (opts : obj) (who : bytes) : F WriteOptions :=
  if negb (same opts PROTO_NONE) && negb (isMap opts) then
    throwClassed (s2b "ClassCastException")
      (who ++ s2b ": options must be a map, got " ++ valueTypeName opts)
  else mret (mkWriteOptions Cheshire (truthy (optionIn opts (s2b ":pretty")))
               (truthy (optionIn opts (s2b ":escape-non-ascii"))) false false
               (someTruthy (optionIn opts (s2b ":key-fn")))).

(** An option that is true unless told otherwise. *)
Definition unlessFalse (opts : obj) (name : bytes) : bool :=
  match mapOption opts name with Some v => truthy v | None => true end.

Definition dataJsonWriteOptions (opts : obj) : WriteOptions :=
  mkWriteOptions DataJson false (unlessFalse opts (s2b ":escape-unicode"))
    (unlessFalse opts (s2b ":escape-slash")) (unlessFalse opts (s2b ":escape-js-separators"))
    (someTruthy (optionIn opts (s2b ":key-fn"))).

Definition written (text : bytes) : F obj := fun w =>
  let '(a, w) := allocateIn w in (Ok (Str a (utf8Text text)), w).

Definition prim_generate_string (args : list obj) : F obj :=
  let who := s2b "generate-string" in
  let n := length args in
  if (n <? 1)%nat || (2 <? n)%nat then arity n who
  else
    _ ← callContext who;
    o ← cheshireWriteOptions (argAt args 1) who;
    text ← writeJson stack (argAt args 0) o;
    written text.

Definition prim_generate_stream (args : list obj) : F obj :=
  let who := s2b "generate-stream" in
  let n := length args in
  if (n <? 2)%nat || (3 <? n)%nat then arity n who
  else
    _ ← callContext who;
    fd ← descriptor (writableDescriptor (argAt args 1) who);
    o ← cheshireWriteOptions (argAt args 2) who;
    text ← writeJson stack (argAt args 0) o;
    _ ← lifted (writeBlocking fd text);
    mret (argAt args 1).

Definition prim_write_str (args : list obj) : F obj :=
  let who := s2b "write-str" in
  let n := length args in
  if (n <? 1)%nat then arity n who
  else
    _ ← callContext who;
    opts ← pairOptions args 1 who;
    text ← writeJson stack (argAt args 0) (dataJsonWriteOptions opts);
    written text.

Definition prim_write (args : list obj) : F obj :=
  let who := s2b "write" in
  let n := length args in
  if (n <? 2)%nat then arity n who
  else
    _ ← callContext who;
    fd ← descriptor (writableDescriptor (argAt args 1) (s2b "clojure.data.json/write"));
    opts ← pairOptions args 2 who;
    text ← writeJson stack (argAt args 0) (dataJsonWriteOptions opts);
    _ ← lifted (writeBlocking fd text);
    mret PROTO_NONE.

(** The members of the global objects cheshire.core and clojure.data.json. *)
Definition kCheshire : list (bytes * (list obj -> F obj)) :=
  [(s2b "parse-string", prim_parse_string); (s2b "decode", prim_parse_string);
   (s2b "parse-stream", prim_parse_stream);
   (s2b "generate-string", prim_generate_string); (s2b "encode", prim_generate_string);
   (s2b "generate-stream", prim_generate_stream)].

Definition kDataJson : list (bytes * (list obj -> F obj)) :=
  [(s2b "read-str", prim_read_str); (s2b "read", prim_read);
   (s2b "write-str", prim_write_str); (s2b "write", prim_write)].

Definition memberOf (prims : list (bytes * (list obj -> F obj))) (name : bytes)
  : option (list obj -> F obj) :=
  snd <$> List.find (fun e => bool_decide (e.1 = name)) prims.

End Functions.

End Json.
