(* ===== verification/DemoJson.v ===== *)
(** A concrete environment for the data formats: the heap is a counter, the standard
    input a list of lines, the standard output the bytes written, and the one
    function answers its last argument. *)

From S2P Require Import Prelude Values Lexer Maps KeyEquality Printer Reader DemoReader DataFormats Json.

#[local] Set Warnings "-register-all".

Module Demo.
Import ListMaps DemoReader.Demo.

Record demoWorld := mkDemoWorld { top : Z; gensyms : Z; input : list bytes; output : bytes }.

Definition echo : obj := Cell 20480 (CBuiltin (Some (s2b "echo"))) [].
Definition keywordBuiltin : obj := Cell 20544 (CBuiltin (Some (s2b "keyword"))) [].

Definition demoReadLine (fd : Z) (w : demoWorld) : result bytes (option bytes) * demoWorld :=
  match input w with
  | [] => (Ok None, w)
  | line :: lines => (Ok (Some line), mkDemoWorld (top w) (gensyms w) lines (output w))
  end.

#[export] Instance demoFormats : FormatsEnv demoWorld bytes := {
  fe_reader := demoEnv;
  fe_printer := demoPrinter;
  heapTop := top;
  setHeapTop a w := mkDemoWorld a (gensyms w) (input w) (output w);
  gensymCounter := gensyms;
  setGensymCounter n w := mkDemoWorld (top w) n (input w) (output w);
  callValue f args w := (Ok (List.last args PROTO_NONE), w);
  readableDescriptor v who w := Ok 0;
  writableDescriptor v who w := Ok 1;
  readLineBlocking := demoReadLine;
  writeBlocking fd text w := (Ok tt, mkDemoWorld (top w) (gensyms w) (input w) (output w ++ text));
  keywordFn w := Some keywordBuiltin;
  resolverHook := None;
  seqTypeName _ := s2b "a lazy seq";
  ioHandleTypeName _ := s2b "a reader";
  dataTooDeep := s2b "StackOverflowError: calls or data nested too deeply";
}.

Definition startWorld (lines : list bytes) : demoWorld := mkDemoWorld 4096 0 lines [].

(** The printed value, or the class and the message of what was raised. *)
Definition shown (r : result (formatError bytes) obj * demoWorld) : bytes :=
  match fst r with
  | Ok v => printTo true v
  | Throw (Classed cls msg) => cls ++ s2b ": " ++ msg
  | Throw (Raised e) => e
  | Throw (Overflow what) => what
  | Throw NoTurns => s2b "no turns"
  end.

Definition str (text : bytes) : obj := Str 64 text.
Definition parseString (text : bytes) : bytes :=
  shown (prim_parse_string 30 [str text] (startWorld [])).

(** Quotes written as ['']. *)
Fixpoint quoted (s : bytes) : bytes :=
  match s with
  | c :: s => match c, s with "'"%byte, "'"%byte :: s' => x22 :: quoted s' | _, _ => c :: quoted s end
  | [] => []
  end.
Definition q (s : string) : bytes := quoted (s2b s).

End Demo.
