(* ===== verification/JsonFacts.v ===== *)
(** Reading JSON from a string (runtime/Json.cpp): how the parser's steps move over the
    text, the loops end, and what the writer writes is read back. *)

From S2P Require Import Prelude Utf8 Double Values Maps KeyEquality Printer Reader PrintRead.
From S2P Require Import Macros DataFormats Json.

#[local] Set Warnings "-register-all".

Section Facts.
Context {W exn : Type} `{FormatsEnv W exn}.

#[local] Abbreviation P := (E (@jsonError exn) (@jstate W)).

(** ** Steps over the text

    What is left of a string's text. *)
Definition textAt (s : bytes) (st : @jstate W) : Prop :=
  fd_ (src_ st) = None /\ data (src_ st) = s.

(** [m] reads from [s] on up to [r], answers a value [Q] accepts of the heap's top
    before and after, and the heap only grows. *)
Definition parses {A} (m : P A) (s : bytes) (Q : Z -> Z -> A -> Prop) (r : bytes) : Prop :=
  forall st, textAt s st -> exists a st', m st = (Ok a, st') /\ textAt r st' /\
    heapTop (world st) <= heapTop (world st') /\
    Q (heapTop (world st)) (heapTop (world st')) a.

Definition answers {A} (a : A) : Z -> Z -> A -> Prop := fun _ _ a' => a' = a.

Lemma parses_ret {A} (a : A) s : parses (mret a) s (answers a) s.
Proof. intros st Ht. exists a, st. by split_and!; [| |reflexivity|]. Qed.

Lemma parses_bind {A B} (m : P A) (k : A -> P B) s a r (Q : Z -> Z -> B -> Prop) t :
  parses m s (answers a) r -> parses (k a) r Q t ->
  (forall h0 h h' b, h0 <= h -> Q h h' b -> Q h0 h' b) -> parses (m ≫= k) s Q t.
Proof.
  intros Hm Hk HQ st Ht. destruct (Hm st Ht) as (a' & st1 & E1 & Ht1 & Hh1 & ->).
  destruct (Hk st1 Ht1) as (b & st2 & E2 & Ht2 & Hh2 & Hb). exists b, st2.
  unfold mbind, E_bind. rewrite E1. split_and!; [done|done|lia|by eapply HQ].
Qed.

Lemma parses_then {A B} (m : P A) (k : A -> P B) s a r b t :
  parses m s (answers a) r -> parses (k a) r (answers b) t -> parses (m ≫= k) s (answers b) t.
Proof. intros Hm Hk. eapply parses_bind; [done..|]. by intros h0 h h' b' _ ->. Qed.

Lemma data_advance c s (src : source) : data src = c :: s -> data (advance src) = s.
Proof.
  unfold data, advance. cbn. intros Hd. replace (S (pos_ src)) with (pos_ src + 1)%nat by lia.
  by rewrite <- drop_drop, Hd.
Qed.

Lemma parses_peek c s : parses peek (c :: s) (answers (Some c)) (c :: s).
Proof.
  intros st Ht. exists (Some c), st. destruct Ht as [Hf Hd]. unfold peek. rewrite Hd.
  by split_and!; [| |reflexivity|].
Qed.

Lemma parses_peek_end : parses peek [] (answers None) [].
Proof.
  intros st Ht. exists None, st. destruct Ht as [Hf Hd]. unfold peek. rewrite Hd.
  unfold mbind, E_bind, refill. rewrite Hf. by split_and!; [| |reflexivity|].
Qed.

Lemma parses_peek_head s : parses peek s (answers (head s)) s.
Proof. destruct s; [apply parses_peek_end|apply parses_peek]. Qed.

Lemma parses_advance c s : parses (onSource advance) (c :: s) (answers tt) s.
Proof.
  intros st [Hf Hd]. exists tt, (set_src (advance (src_ st)) st). split_and!; [done| |reflexivity|done].
  split; [done|]. by apply (data_advance c).
Qed.

Lemma parses_newline s : parses (onSource newline) s (answers tt) s.
Proof. intros st Ht. exists tt, (set_src (newline (src_ st)) st). by split_and!; [| |reflexivity|]. Qed.

Definition isBlank (c : byte) : bool :=
  (c =? " ")%byte || (c =? x09)%byte || (c =? x0d)%byte || (c =? x0a)%byte.

(** A text that does not start with whitespace. *)
Definition startsInk (s : bytes) : bool := match s with c :: _ => negb (isBlank c) | [] => true end.

Lemma parses_skip turns ws s : Forall (fun c => isBlank c = true) ws -> startsInk s = true ->
  (length ws < turns)%nat -> parses (skipWhitespace turns) (ws ++ s) (answers tt) s.
Proof.
  intros Hws Hs. revert turns. induction Hws as [|c ws Hc Hws IH]; intros turns Hn;
    (destruct turns as [|turns]; [cbn in Hn; lia|]); cbn [skipWhitespace app].
  - eapply parses_then; [apply parses_peek_head|]. destruct s as [|c s]; [apply parses_ret|]. cbn in *.
    destruct c; try done; apply parses_ret.
  - cbn in Hn. specialize (IH turns ltac:(lia)).
    eapply parses_then; [apply parses_peek|].
    assert (Hcs : c = " "%byte \/ c = x09 \/ c = x0d \/ c = x0a).
    { unfold isBlank in Hc. rewrite !orb_true_iff in Hc.
      destruct Hc as [[[Hc|Hc]|Hc]|Hc]; apply byte_dec_bl in Hc; auto. }
    destruct Hcs as [-> | [-> | [-> | ->]]];
      (eapply parses_then; [apply parses_advance|]); [done..|].
    eapply parses_then; [apply parses_newline|done].
Qed.

(** ** Strings *)

(** From [s], the rest of a string is [body] and [r] follows it. *)
Definition stringReads (s body r : bytes) : Prop := forall turns out, (length s < turns)%nat ->
  parses (string_ turns out) s (answers (out ++ body)) r.

Lemma string_plain c s body r : plain c = true -> stringReads s body r ->
  stringReads (c :: s) (c :: body) r.
Proof.
  intros Hc Hs turns out Hn st [Hf Hd]. destruct turns as [|turns]; [cbn in Hn; lia|].
  assert (E : string_ (S turns) out st =
              string_ (S turns) (out ++ [c]) (set_src (advance (src_ st)) st)).
  { cbn [string_]. unfold look, onSource, update, mbind, E_bind. cbn [src_ set_src].
    rewrite Hd, (data_advance c s _ Hd). cbn [plainRun]. rewrite Hc. cbn [length].
    replace (skip (S (length (plainRun s))) (src_ st))
      with (skip (length (plainRun s)) (advance (src_ st))) by (unfold skip, advance; cbn; f_equal; lia).
    rewrite <- (app_assoc out [c] (plainRun s)). reflexivity. }
  rewrite E. destruct (Hs (S turns) (out ++ [c]) ltac:(cbn in Hn; lia)
    (set_src (advance (src_ st)) st)) as (a & st' & Ea & Ht & Hh & ->).
  - split; [done|]. by apply (data_advance c).
  - exists ((out ++ [c]) ++ body), st'. split_and!; [done|done|done|].
    unfold answers. by rewrite <- app_assoc.
Qed.

Lemma parses_run s :
  parses (look (fun st => plainRun (data (src_ st)))) s (answers (plainRun s)) s.
Proof.
  intros st Ht. exists (plainRun s), st. destruct Ht as [Hf Hd]. unfold look. rewrite Hd.
  by split_and!; [| |reflexivity|].
Qed.

Lemma parses_onSkip n s : parses (onSource (skip n)) s (answers tt) (drop n s).
Proof.
  intros st [Hf Hd]. exists tt, (set_src (skip n (src_ st)) st). split_and!; [done| |reflexivity|done].
  split; [done|]. unfold data, skip. cbn. by rewrite <- drop_drop, <- Hd.
Qed.

(** A turn of [string_] where no plain byte comes first. *)
Lemma string_turn turns out c s t r :
  plain c = false ->
  parses (_ ← onSource advance;
          if (c =? x22)%byte then mret out
          else if (c =? x0a)%byte then _ ← onSource newline; string_ turns (out ++ [x0a])
          else
            e ← peek;
            match e with
            | None => fail (s2b "unexpected end of input inside a string")
            | Some e => _ ← onSource advance; s ← escape e; string_ turns (out ++ s)
            end) (c :: s) (answers t) r ->
  parses (string_ (S turns) out) (c :: s) (answers t) r.
Proof.
  intros Hc Hm. cbn [string_]. eapply parses_then; [apply parses_run|].
  cbn [plainRun]. rewrite Hc. cbn [length].
  eapply parses_then; [apply parses_onSkip|]. cbn [drop]. rewrite app_nil_r.
  eapply parses_then; [apply parses_peek|exact Hm].
Qed.

(** A string at its closing quote. *)
Lemma string_end r : stringReads (x22 :: r) [] r.
Proof.
  intros [|turns] out Hn; [lia|]. apply string_turn; [done|].
  eapply parses_then; [apply parses_advance|]. rewrite app_nil_r. apply parses_ret.
Qed.

(** An escape: the backslash, its character, and what [escape] reads. *)
Lemma string_escape e s s1 text body r : parses (escape e) s (answers text) s1 ->
  (length s1 <= length s)%nat -> stringReads s1 body r ->
  stringReads ("\"%byte :: e :: s) (text ++ body) r.
Proof.
  intros He Hl Hs [|turns] out Hn; [lia|]. apply string_turn; [done|].
  eapply parses_then; [apply parses_advance|]. cbn.
  eapply parses_then; [apply parses_peek|]. eapply parses_then; [apply parses_advance|].
  eapply parses_then; [exact He|]. rewrite app_assoc. apply Hs. cbn in Hn. lia.
Qed.

(** A newline stands for itself. *)
Lemma string_newline s body r : stringReads s body r -> stringReads (x0a :: s) (x0a :: body) r.
Proof.
  intros Hs [|turns] out Hn; [lia|]. apply string_turn; [done|].
  eapply parses_then; [apply parses_advance|]. cbn.
  eapply parses_then; [apply parses_newline|].
  change (out ++ x0a :: body) with (out ++ [x0a] ++ body). rewrite app_assoc. apply Hs.
  cbn in Hn. lia.
Qed.

(** *** [\u] escapes *)

Lemma parses_hex4 ds ns s v : Forall2 (fun d n => hex_digit d = Some n) ds ns ->
  parses (hex4 (length ds) v) (ds ++ s) (answers (fold_left (fun v n => v * 16 + n) ns v)) s.
Proof.
  intros Hd. revert v. induction Hd as [|d n ds ns Hd Hds IH]; intros v; cbn [hex4 length app fold_left];
    [apply parses_ret|].
  eapply parses_then; [apply parses_peek|]. cbn beta iota. rewrite Hd.
  eapply parses_then; [apply parses_advance|apply IH].
Qed.

(** The digits [hexEscape] writes. *)
Definition fourDigits (opts : WriteOptions) (u : Z) : bytes := drop 2 (hexEscape opts u).

Lemma nth_hex opts n : 0 <= n < 16 ->
  hex_digit (nth (Z.to_nat n) (match flavor opts with Cheshire => upperDigits | DataJson => lowerDigits end) x00)
  = Some n.
Proof.
  intros Hn. assert (Hall : forall ds, forallb (fun k => bool_decide
      (hex_digit (nth k ds x00) = Some (Z.of_nat k))) (seq 0 16) = true ->
      hex_digit (nth (Z.to_nat n) ds x00) = Some n).
  { intros ds E. rewrite forallb_forall in E. specialize (E (Z.to_nat n)).
    rewrite bool_decide_eq_true, Z2Nat.id in E by lia. apply E, in_seq. lia. }
  apply Hall. by destruct (flavor opts).
Qed.

Lemma parses_fourDigits opts u s : 0 <= u < 2 ^ 16 ->
  parses (hex4 4 0) (fourDigits opts u ++ s) (answers u) s.
Proof.
  intros Hu. set (ns := map (fun shift => Z.land (Z.shiftr u shift) 0xF) [12; 8; 4; 0]).
  assert (Hd : Forall2 (fun d n => hex_digit d = Some n) (fourDigits opts u) ns).
  { unfold fourDigits, hexEscape, ns. cbn [s2b list_byte_of_string app drop map].
    assert (Hr : forall k, 0 <= k -> 0 <= Z.land (Z.shiftr u k) 15 < 16).
    { intros k Hk. change 15 with (Z.ones 4). rewrite Z.land_ones by lia. lia. }
    repeat constructor; apply nth_hex, Hr; lia. }
  pose proof (parses_hex4 _ _ s 0 Hd) as Hp. change (length (fourDigits opts u)) with 4%nat in Hp.
  replace u with (fold_left (fun v n => v * 16 + n) ns 0) at 2; [exact Hp|].
  unfold ns. cbn [map fold_left]. change 15 with (Z.ones 4).
  rewrite !Z.land_ones, !Z.shiftr_div_pow2 by lia. cbn. lia.
Qed.

Lemma hexEscape_digits opts u : hexEscape opts u = "\"%byte :: "u"%byte :: fourDigits opts u.
Proof. done. Qed.

Lemma fourDigits_length opts u : length (fourDigits opts u) = 4%nat.
Proof. done. Qed.

(** The escape of a character, below U+10000 or above. *)
Lemma parses_escapeCharacter opts cp s : scalar cp ->
  exists ds, escapeCharacter opts cp = "\"%byte :: "u"%byte :: ds /\
    parses unicodeEscape (ds ++ s) (answers cp) s.
Proof.
  intros [Hcp Hsur]. unfold escapeCharacter. destruct (Z.leb_spec 0x10000 cp) as [Hhi|Hlo].
  - set (u := cp - 0x10000). change 0x3FF with (Z.ones 10).
    rewrite Z.land_ones, Z.shiftr_div_pow2 by lia.
    set (hi := 0xD800 + u / 2 ^ 10). set (lo := 0xDC00 + u mod 2 ^ 10).
    rewrite !hexEscape_digits. exists (fourDigits opts hi ++ "\"%byte :: "u"%byte :: fourDigits opts lo).
    split; [done|]. rewrite <- app_assoc. cbn [app]. unfold unicodeEscape.
    eapply parses_then; [apply parses_fourDigits; lia|].
    rewrite (proj2 (andb_true_iff _ _)) by (rewrite !Z.leb_le; lia).
    eapply parses_then; [apply parses_peek|]. cbn.
    eapply parses_then; [apply parses_advance|]. eapply parses_then; [apply parses_peek|]. cbn.
    eapply parses_then; [apply parses_advance|]. eapply parses_then; [apply parses_fourDigits; lia|].
    rewrite (proj2 (orb_false_iff _ _)) by (rewrite !Z.ltb_ge; lia).
    replace (0x10000 + Z.shiftl (hi - 0xD800) 10 + (lo - 0xDC00)) with cp; [apply parses_ret|].
    rewrite Z.shiftl_mul_pow2 by lia. lia.
  - rewrite hexEscape_digits. exists (fourDigits opts cp). split; [done|]. unfold unicodeEscape.
    eapply parses_then; [apply parses_fourDigits; lia|].
    rewrite (proj2 (andb_false_iff _ _)) by (rewrite !Z.leb_gt; lia).
    rewrite (proj2 (andb_false_iff _ _)) by (rewrite !Z.leb_gt; lia). apply parses_ret.
Qed.

Lemma string_unicode opts cp s body r : scalar cp -> stringReads s body r ->
  stringReads (escapeCharacter opts cp ++ s) (encodeUtf8 cp ++ body) r.
Proof.
  intros Hcp Hs. destruct (parses_escapeCharacter opts cp s Hcp) as (ds & -> & Hp). cbn [app].
  apply string_escape with s; [|rewrite length_app; lia|done].
  eapply parses_then; [exact Hp|apply parses_ret].
Qed.

(** *** What the writer writes for a string *)

(** The text of one character of more than a byte. *)
Lemma sequenceAt_encoding cp s : 0x80 <= cp -> scalar cp ->
  exists c t, encodeUtf8 cp = c :: t /\ 0x80 <= u8 c /\ sequenceAt c (t ++ s) = Some (cp, S (length t)).
Proof.
  intros Hlo [[_ Hhi] _].
  assert (Hcont : forall x, 0 <= x < 64 -> isContinuation (chr (128 + x)) = true).
  { intros x Hx. unfold isContinuation. rewrite land_cont, u8_chr_small by lia. lia. }
  assert (Hval : forall v x, 0 <= v -> 0 <= x < 64 ->
      Z.lor (Z.shiftl v 6) (Z.land (u8 (chr (128 + x))) 0x3F) = v * 64 + x).
  { intros v x Hv Hx. rewrite cont_value, u8_chr_small by lia. lia. }
  pose proof (Z.mod_pos_bound cp 64 eq_refl). pose proof (Z.mod_pos_bound (cp / 64) 64 eq_refl).
  pose proof (Z.mod_pos_bound (cp / 4096) 64 eq_refl).
  assert (Hlead : forall q m x, 0 <= m -> 0 <= q -> (q + 1) * 2 ^ m <= 256 -> 0 <= x < 2 ^ m ->
      u8 (chr (q * 2 ^ m + x)) = q * 2 ^ m + x /\ Z.land (q * 2 ^ m + x) (Z.ones m) = x).
  { intros q m x Hm Hq Hk Hx. rewrite u8_chr_small, Z.land_ones by lia. split; [done|].
    rewrite Z.add_comm, Z_mod_plus_full. by apply Z.mod_small. }
  unfold sequenceAt. destruct (Z.lt_ge_cases cp 0x800) as [Hb|Hb].
  { rewrite encode2 by lia. eexists _, _. split; [done|].
    destruct (Hlead 6 5 (cp / 64)) as [El Em]; [lia..|]. change (6 * 2 ^ 5) with 192 in *.
    rewrite El. split; [lia|]. rewrite (proj2 (andb_true_iff _ _)) by lia.
    change 0x1F with (Z.ones 5). rewrite Em. cbn [length continuations Nat.sub app].
    rewrite Hcont, Hval by lia. do 2 f_equal. lia. }
  destruct (Z.lt_ge_cases cp 0x10000) as [Hc|Hc].
  { rewrite encode3 by lia. eexists _, _. split; [done|].
    destruct (Hlead 14 4 (cp / 4096)) as [El Em]; [lia..|]. change (14 * 2 ^ 4) with 224 in *.
    rewrite El. split; [lia|]. rewrite (proj2 (andb_false_iff _ _)) by lia.
    rewrite (proj2 (andb_true_iff _ _)) by lia.
    change 0x0F with (Z.ones 4). rewrite Em. cbn [length continuations Nat.sub app].
    rewrite !Hcont, (Hval (cp / 4096)), Hval by lia. do 2 f_equal. lia. }
  rewrite encode4 by lia. eexists _, _. split; [done|].
  destruct (Hlead 30 3 (cp / 262144)) as [El Em]; [lia..|]. change (30 * 2 ^ 3) with 240 in *.
  rewrite El. split; [lia|]. rewrite (proj2 (andb_false_iff _ _)) by lia.
  rewrite (proj2 (andb_false_iff _ _)) by lia. rewrite (proj2 (andb_true_iff _ _)) by lia.
  change 0x07 with (Z.ones 3). rewrite Em. cbn [length continuations Nat.sub app].
  rewrite !Hcont, (Hval (cp / 262144)), (Hval (cp / 262144 * 64 + _)), Hval by lia. do 2 f_equal. lia.
Qed.

(** The text written for a character. *)
Definition writtenCharacter (opts : WriteOptions) (cp : Z) : bytes :=
  if cp <? 0x80 then escapeAscii opts (chr cp)
  else if escapeNonAscii opts || (((cp =? 0x2028) || (cp =? 0x2029)) && escapeJsSeparators opts)
  then escapeCharacter opts cp
  else encodeUtf8 cp.

Lemma characters_fuel opts n s : (length s <= n)%nat -> characters opts n s = characters opts (length s) s.
Proof.
  revert s. induction n as [n IH] using lt_wf_ind. intros s Hn.
  destruct s as [|c s]; [by destruct n|]. destruct n as [|n]; [cbn in Hn; lia|]. cbn in Hn.
  cbn [characters length].
  assert (Hs : forall t, (length t <= length s)%nat ->
      characters opts n t = characters opts (length t) t /\
      characters opts (length s) t = characters opts (length t) t).
  { intros t Ht. split; apply IH; lia. }
  assert (Hs' : forall t, (length t <= length s)%nat -> characters opts n t = characters opts (length s) t).
  { intros t Ht. destruct (Hs t Ht). congruence. }
  destruct (_ <? _); [by rewrite Hs'|]. destruct (_ && _); [by rewrite Hs'|].
  destruct (match sequenceAt c s with Some _ => _ | None => _ end) as [[cp len] ok].
  rewrite Hs' by (rewrite length_drop; lia). done.
Qed.

Lemma characters_raw opts t s : escapeNonAscii opts = false -> escapeJsSeparators opts = false ->
  Forall (fun c => 0x80 <= u8 c) t ->
  characters opts (length (t ++ s)) (t ++ s) = t ++ characters opts (length s) s.
Proof.
  intros E1 E2. induction 1 as [|c t Hc _ IH]; [done|]. cbn [app length characters].
  rewrite (proj2 (Z.ltb_ge _ _)), E1, E2 by lia. cbn [negb andb]. by rewrite IH.
Qed.

Lemma encoding_high cp : 0x80 <= cp -> scalar cp -> Forall (fun c => 0x80 <= u8 c) (encodeUtf8 cp).
Proof.
  intros Hlo [[_ Hhi] _]. destruct (Z.lt_ge_cases cp 0x800); [rewrite encode2 by lia|
    destruct (Z.lt_ge_cases cp 0x10000); [rewrite encode3 by lia|rewrite encode4 by lia]];
    repeat constructor; rewrite u8_chr_small; lia.
Qed.

Lemma characters_encoding opts cp s : scalar cp ->
  characters opts (length (encodeUtf8 cp ++ s)) (encodeUtf8 cp ++ s) =
  writtenCharacter opts cp ++ characters opts (length s) s.
Proof.
  intros Hcp. unfold writtenCharacter. destruct (Z.ltb_spec cp 0x80) as [Hlo|Hlo].
  { destruct Hcp as [[? _] _]. rewrite encode1 by lia. cbn [app length characters].
    rewrite u8_chr_small by lia. by rewrite (proj2 (Z.ltb_lt _ _)). }
  destruct (escapeNonAscii opts || escapeJsSeparators opts) eqn:Ee.
  - destruct (sequenceAt_encoding cp s Hlo Hcp) as (c & t & E & Hc & Hs). rewrite E.
    cbn [app length characters]. rewrite (proj2 (Z.ltb_ge _ _)) by lia.
    rewrite <- negb_orb, Ee, Hs. cbn [negb]. cbn [Nat.sub]. rewrite Nat.sub_0_r.
    replace (drop (length t) (t ++ s)) with s by (by rewrite drop_app_length).
    rewrite (characters_fuel opts (length (t ++ s)) s) by (rewrite length_app; lia). f_equal.
    case_match; [done|]. exact (take_app_length (c :: t) s).
  - apply orb_false_iff in Ee as [E1 E2]. rewrite characters_raw by (done || by apply encoding_high).
    by rewrite E1, E2, andb_false_r.
Qed.

Lemma characters_utf8 opts cps : Forall scalar cps ->
  characters opts (length (utf8 cps)) (utf8 cps) = flat_map (writtenCharacter opts) cps.
Proof.
  induction 1 as [|cp cps Hcp _ IH]; [done|]. cbn [utf8 flat_map]. rewrite characters_encoding by done.
  by f_equal.
Qed.

(** ** Strings, written and read back *)

Lemma high_plain c : 0x80 <= u8 c -> plain c = true.
Proof.
  intros Hc. unfold plain. apply negb_true_iff. rewrite !orb_false_iff.
  split_and!; byte_case; try done; by vm_compute in Hc.
Qed.

Lemma string_plains t s body r : Forall (fun c => plain c = true) t -> stringReads s body r ->
  stringReads (t ++ s) (t ++ body) r.
Proof. intros Ht Hs. induction Ht as [|c t Hc _ IH]; [done|]. cbn [app]. by apply string_plain. Qed.

Lemma string_simple e c s body r :
  (forall s, parses (escape e) s (answers [c]) s) -> stringReads s body r ->
  stringReads ("\"%byte :: e :: s) (c :: body) r.
Proof. intros He Hs. by apply (string_escape e s s [c]). Qed.

(** A byte with no escape of its own. *)
Lemma escapeAscii_other opts c : plain c = true -> c <> x08 -> c <> x0c -> c <> x0d -> c <> x09 ->
  c <> "/"%byte -> escapeAscii opts c = if u8 c <? 0x20 then hexEscape opts (u8 c) else [c].
Proof. intros Hp ?????. by destruct c. Qed.

Lemma string_ascii opts c s body r : u8 c < 0x80 -> stringReads s body r ->
  stringReads (escapeAscii opts c ++ s) (c :: body) r.
Proof.
  intros Hc Hs.
  destruct (decide (c = x08)) as [->|]; [by apply string_simple; [intros; apply parses_ret|]|].
  destruct (decide (c = x0c)) as [->|]; [by apply string_simple; [intros; apply parses_ret|]|].
  destruct (decide (c = x0d)) as [->|]; [by apply string_simple; [intros; apply parses_ret|]|].
  destruct (decide (c = x09)) as [->|]; [by apply string_simple; [intros; apply parses_ret|]|].
  destruct (decide (c = x0a)) as [->|]; [by apply string_simple; [intros; apply parses_ret|]|].
  destruct (decide (c = x22)) as [->|]; [by apply string_simple; [intros; apply parses_ret|]|].
  destruct (decide (c = "\"%byte)) as [->|]; [by apply string_simple; [intros; apply parses_ret|]|].
  destruct (decide (c = "/"%byte)) as [->|].
  { cbn. destruct (escapeSlash opts); [by apply string_simple; [intros; apply parses_ret|]|].
    by apply string_plain. }
  assert (Hp : plain c = true) by (by destruct c). rewrite escapeAscii_other by done.
  destruct (Z.ltb_spec (u8 c) 0x20) as [Hlo|Hlo]; [|by apply string_plain].
  pose proof (u8_range c). assert (Hu : encodeUtf8 (u8 c) = [c]) by (rewrite encode1 by lia; by rewrite chr_u8).
  assert (Hcp : scalar (u8 c)) by (unfold scalar; lia).
  pose proof (string_unicode opts (u8 c) s body r Hcp Hs) as Hr. rewrite Hu in Hr.
  unfold escapeCharacter in Hr. by rewrite (proj2 (Z.leb_gt _ _)) in Hr by lia.
Qed.

Lemma string_written opts cp s body r : scalar cp -> stringReads s body r ->
  stringReads (writtenCharacter opts cp ++ s) (encodeUtf8 cp ++ body) r.
Proof.
  intros Hcp Hs. unfold writtenCharacter. destruct (Z.ltb_spec cp 0x80) as [Hlo|Hlo].
  - destruct Hcp as [[? _] _]. rewrite encode1 by lia. apply string_ascii; [rewrite u8_chr_small; lia|done].
  - destruct (_ || _); [by apply string_unicode|]. apply string_plains; [|done].
    eapply Forall_impl; [by apply encoding_high|]. apply high_plain.
Qed.

(** The text of a string of whole characters. *)
Definition validText (s : bytes) : Prop := exists cps, Forall scalar cps /\ s = utf8 cps.

(** What [writeString] writes after the opening quote reads as the string. *)
Lemma string_text opts s r : validText s ->
  stringReads (characters opts (length s) s ++ x22 :: r) s r.
Proof.
  intros (cps & Hcps & ->). rewrite characters_utf8 by done.
  induction Hcps as [|cp cps Hcp _ IH]; [apply string_end|]. cbn [flat_map utf8].
  rewrite <- app_assoc. by apply string_written.
Qed.

End Facts.
