(* ===== verification/JsonRoundTrip.v ===== *)
(** What the JSON writer writes, the JSON parser reads back (runtime/Json.cpp): the
    image of a value, the text it is written as, and how its containers are read. *)

From S2P Require Import Prelude Utf8 Double Values Maps KeyEquality Printer Reader PrintRead.
From S2P Require Import DemoReader Macros DataFormats Json DemoJson JsonFacts.

#[local] Set Warnings "-register-all".

(** What protoCore is relied on for: the heap, the intern table, strings of whole
    characters kept as they are. *)
Class FormatsLaws {W exn : Type} `{FormatsEnv W exn} : Prop := {
  heapTop_set a w : heapTop (setHeapTop a w) = a;
  named_inj s t : namedAddress s = namedAddress t -> s = t;
  text_kept s : validText s -> fromUTF8Buffer s = (s, 0%nat);
}.

(** ** Numerals *)

Lemma dec_aux_head fuel n acc : 0 < n < 2 ^ Z.of_nat fuel ->
  exists c ds, dec_aux fuel n acc = c :: ds /\ c <> "0"%byte.
Proof.
  revert n acc. induction fuel as [|fuel IH]; intros n acc Hn.
  - change (2 ^ Z.of_nat 0) with 1 in Hn. lia.
  - cbn [dec_aux]. destruct (Z.ltb_spec n 10) as [Hlt|Hge].
    + eexists _, _. split; [done|]. rewrite Z.mod_small by lia. intros E.
      assert (Eu : u8 (chr (48 + n)) = 48) by (by rewrite E). rewrite u8_chr_small in Eu by lia. lia.
    + apply IH. rewrite Nat2Z.inj_succ, Z.pow_succ_r in Hn by lia. lia.
Qed.

Lemma dec_digits_zero : dec_digits 0 = ["0"%byte].
Proof. done. Qed.

Lemma dec_digits_head n : 0 < n -> exists c ds, dec_digits n = c :: ds /\ c <> "0"%byte.
Proof.
  intros Hn. apply dec_aux_head. rewrite Nat2Z.inj_succ, Z2Nat.id by apply Z.log2_nonneg.
  split; [done|]. by apply Z.log2_spec.
Qed.

(** ** What follows a value *)

Definition closes (c : byte) : bool := isBlank c || (c =? ",")%byte || (c =? "]")%byte || (c =? "}")%byte.
Definition closed (tail : bytes) : bool := match tail with [] => true | c :: _ => closes c end.

Section RoundTrip.
Context {W exn : Type} `{FormatsLaws W exn} `{!NumeralLaw}.

#[local] Abbreviation P := (E (@jsonError exn) (@jstate W)).
#[local] Abbreviation parses := (parses (W := W) (exn := exn)).

(** Lengths of texts put together. *)
Ltac lens := repeat (progress (rewrite ?length_app in *; cbn [length app] in *)); lia.

(** ** Triples *)

Lemma parses_weaken {A} (m : P A) s (Q Q' : Z -> Z -> A -> Prop) r : parses m s Q r ->
  (forall h h' a, h <= h' -> Q h h' a -> Q' h h' a) -> parses m s Q' r.
Proof.
  intros Hm HQ st Ht. destruct (Hm st Ht) as (a & st' & E & Ht' & Hh & Ha).
  exists a, st'. split_and!; [done..|]. by apply HQ.
Qed.

(** The answer of the first computation is known by a property. *)
Lemma parses_seq {A B} (m : P A) (k : A -> P B) s r t (Q : Z -> Z -> A -> Prop) (R : Z -> Z -> B -> Prop) :
  parses m s Q r ->
  (forall h h1 a, h <= h1 -> Q h h1 a -> parses (k a) r (fun h1' h' b => h1' = h1 -> R h h' b) t) ->
  parses (m ≫= k) s R t.
Proof.
  intros Hm Hk st Ht. destruct (Hm st Ht) as (a & st1 & E1 & Ht1 & Hh1 & Ha).
  destruct (Hk _ _ a Hh1 Ha st1 Ht1) as (b & st2 & E2 & Ht2 & Hh2 & Hb).
  exists b, st2. unfold mbind, E_bind. rewrite E1. split_and!; [done|done|lia|by apply Hb].
Qed.

(** A step that leaves no trace in what follows. *)
Lemma parses_step {A B} (m : P A) (k : A -> P B) s r t a (R : Z -> Z -> B -> Prop) :
  parses m s (answers a) r -> (forall h0 h h' b, h0 <= h -> R h h' b -> R h0 h' b) ->
  parses (k a) r R t -> parses (m ≫= k) s R t.
Proof.
  intros Hm HR Hk. eapply parses_seq; [exact Hm|]. intros h h1 a' Hh ->.
  eapply parses_weaken; [exact Hk|]. intros h1' h' b _ Hb ->. by eapply HR.
Qed.

Lemma parses_value {A} (a : A) s (Q : Z -> Z -> A -> Prop) : (forall h, Q h h a) -> parses (mret a) s Q s.
Proof. intros HQ st Ht. exists a, st. by split_and!; [| |reflexivity|]. Qed.

Lemma parses_allocate {A} (f : Z -> A) s :
  parses (a ← allocate; mret (f a)) s (fun h h' v => v = f h /\ h' = h + 64) s.
Proof.
  intros st Ht. exists (f (heapTop (world st))),
    (mkState (src_ st) (setHeapTop (heapTop (world st) + 64) (world st))).
  cbn. split_and!; [done|done| |done|]; rewrite heapTop_set; lia.
Qed.

Definition any {A} (Q : A -> Prop) : Z -> Z -> A -> Prop := fun _ _ a => Q a.

Lemma any_back {A} (Q : A -> Prop) h0 h h' b : h0 <= h -> any Q h h' b -> any Q h0 h' b.
Proof. done. Qed.

Lemma answers_back {A} (a : A) h0 h h' b : h0 <= h -> answers a h h' b -> answers a h0 h' b.
Proof. done. Qed.

Lemma parses_any {A B} (m : P A) (k : A -> P B) s r t (Q : A -> Prop) (R : B -> Prop) :
  parses m s (any Q) r -> (forall a, Q a -> parses (k a) r (any R) t) -> parses (m ≫= k) s (any R) t.
Proof.
  intros Hm Hk. eapply parses_seq; [exact Hm|]. intros h h1 a _ Ha.
  eapply parses_weaken; [by apply Hk|]. by intros ????? .
Qed.

(** ** Numbers *)

Lemma parses_takeWhile turns p acc ds s : Forall (fun c => p c = true) ds ->
  match s with c :: _ => p c = false | [] => True end -> (length ds < turns)%nat ->
  parses (takeWhile turns p acc) (ds ++ s) (answers (acc ++ ds)) s.
Proof.
  intros Hds Hs. revert turns acc. induction Hds as [|c ds Hc _ IH]; intros turns acc Hn;
    (destruct turns as [|turns]; [cbn in Hn; lia|]); cbn [takeWhile app].
  - rewrite app_nil_r. eapply parses_then; [apply parses_peek_head|].
    destruct s as [|c s]; [apply parses_ret|]. cbn. rewrite Hs. apply parses_ret.
  - eapply parses_then; [apply parses_peek|]. cbn beta iota. rewrite Hc.
    eapply parses_then; [apply parses_advance|].
    change (acc ++ c :: ds) with (acc ++ [c] ++ ds). rewrite app_assoc. apply IH. cbn in Hn. lia.
Qed.

Lemma closed_ends tail (p : byte -> bool) : closed tail = true ->
  forallb (fun c => negb (closes c) || negb (p c)) all_bytes = true ->
  match tail with c :: _ => p c = false | [] => True end.
Proof.
  intros Ht Hp. destruct tail as [|c tail]; [done|]. cbn in Ht.
  pose proof (byte_forall (fun c => negb (closes c) || negb (p c)) Hp c) as Hc. cbn in Hc.
  rewrite Ht in Hc. cbn in Hc. by apply negb_true_iff.
Qed.

(** The digits of a numeral, a leading zero only alone. *)
Definition numeral (ds : bytes) : Prop := Forall (fun c => is_digit c = true) ds /\
  (ds = ["0"%byte] \/ exists c ds', ds = c :: ds' /\ c <> "0"%byte).

Lemma integerPart_reads turns t ds tail : numeral ds -> closed tail = true ->
  (length ds < turns)%nat ->
  parses (integerPart turns t) (ds ++ tail) (answers (t ++ ds)) tail.
Proof.
  intros [Hds Hshape] Ht Hn. unfold integerPart.
  pose proof (closed_ends tail is_digit Ht ltac:(vm_compute; reflexivity)) as Hend.
  destruct Hshape as [->|(c & ds' & -> & Hc)].
  - eapply parses_then; [apply parses_peek|]. cbn.
    eapply parses_then; [apply parses_advance|]. eapply parses_then; [apply parses_peek_head|].
    replace (test is_digit (head tail)) with false by (by destruct tail). apply parses_ret.
  - cbn [app]. eapply parses_then; [apply parses_peek|]. rewrite bool_decide_false by congruence.
    unfold digits. eapply parses_then; [apply parses_peek|]. assert (Hd := Hds).
    apply Forall_cons in Hd as [Hd _]. cbn [test]. rewrite Hd.
    exact (parses_takeWhile turns is_digit t (c :: ds') tail Hds Hend Hn).
Qed.

Lemma fraction_none turns t tail : closed tail = true ->
  parses (fraction turns t) tail (answers (t, false)) tail.
Proof.
  intros Ht. unfold fraction. eapply parses_then; [apply parses_peek_head|].
  pose proof (closed_ends tail (fun c => c =? ".")%byte Ht ltac:(vm_compute; reflexivity)).
  destruct tail as [|c tail]; cbn; [apply parses_ret|].
  rewrite bool_decide_false; [apply parses_ret|]. intros [= ->]. done.
Qed.

Lemma exponent_none turns t tail : closed tail = true ->
  parses (exponent turns t false) tail (answers (t, false)) tail.
Proof.
  intros Ht. unfold exponent. eapply parses_then; [apply parses_peek_head|].
  pose proof (closed_ends tail (fun c => (c =? "e") || (c =? "E"))%byte Ht ltac:(vm_compute; reflexivity)).
  destruct tail as [|c tail]; cbn; [apply parses_ret|].
  rewrite !bool_decide_false; [apply parses_ret|..]; intros [= ->]; done.
Qed.

(** An integer's value, wherever its cell is. *)
Definition integerIs (z : Z) (v : obj) : Prop :=
  if fitsSmallInt z then v = Embedded (smallIntWord z) else exists a, v = Big a z.

Lemma integerValue_reads z s : parses (integerValue z) s (any (integerIs z)) s.
Proof.
  unfold integerValue, integerIs, any. destruct (fitsSmallInt z); [by apply parses_value|].
  eapply parses_weaken; [apply parses_allocate|]. intros h h' v _ [-> _]. by eexists.
Qed.

Lemma to_string_numeral z : exists sign ds, to_string z = sign ++ ds /\ numeral ds /\
  (sign = [] \/ sign = ["-"%byte]).
Proof.
  assert (Hn : forall n, 0 <= n -> numeral (dec_digits n)).
  { intros n Hn. split; [by apply dec_digits_digits|].
    destruct (Z.eq_dec n 0) as [->|]; [by left|right; apply dec_digits_head; lia]. }
  unfold to_string. destruct (Z.ltb_spec z 0).
  - exists ["-"%byte], (dec_digits (- z)). split; [done|]. split; [apply Hn; lia|by right].
  - exists [], (dec_digits z). split; [done|]. split; [by apply Hn|by left].
Qed.

Lemma number_reads turns z tail : closed tail = true -> (length (to_string z) < turns)%nat ->
  parses (number turns) (to_string z ++ tail) (any (integerIs z)) tail.
Proof.
  intros Ht Hn. destruct (to_string_numeral z) as (sign & ds & E & Hds & Hsign).
  assert (Hlen : (length ds < turns)%nat) by (rewrite E, length_app in Hn; lia).
  unfold number. rewrite E, <- app_assoc.
  assert (Hfirst : exists c ds', ds = c :: ds' /\ c <> "-"%byte).
  { destruct Hds as [Hd [->|(c & ds' & -> & _)]]; [by eexists _, _|].
    exists c, ds'. split; [done|]. intros ->. apply Forall_cons in Hd as [Hd _]. done. }
  eapply parses_step with (r := sign ++ ds ++ tail) (a := head (sign ++ ds ++ tail));
    [apply parses_peek_head|apply any_back|].
  eapply parses_step with (r := ds ++ tail) (a := sign); [|apply any_back|].
  { destruct Hsign as [-> | ->].
    - destruct Hfirst as (c & ds' & -> & Hc). cbn. rewrite bool_decide_false by congruence. apply parses_ret.
    - cbn. eapply parses_then; [apply parses_advance|apply parses_ret]. }
  eapply parses_step; [by apply integerPart_reads|apply any_back|]. rewrite <- E.
  eapply parses_step; [by apply fraction_none|apply any_back|]. cbn beta iota.
  eapply parses_step; [by apply exponent_none|apply any_back|]. cbn beta iota.
  eapply parses_step; [apply parses_peek_head|apply any_back|].
  pose proof (closed_ends tail (fun c => is_alpha c || (c =? ".")%byte || (c =? "_")%byte) Ht
    ltac:(vm_compute; reflexivity)) as Hend.
  replace (test _ (head tail)) with false by (by destruct tail).
  cbn beta iota.
  replace (match from_chars (to_string z) with Some z => z | None => fromString (to_string z) end)
    with z; [apply integerValue_reads|].
  unfold from_chars. rewrite to_string_value. destruct (fits_llong z); [done|].
  symmetry. apply fromString_decimal.
Qed.

(** ** The image of a value *)
Section Image.
Context (opts : WriteOptions) (ropts : ReadOptions).

Definition jsonItems (v : obj) : option (list obj) :=
  match v with
  | Vec _ items | LList _ items | SeqObj _ items => Some items
  | SetObj _ es => Some (map fst es)
  | _ => None
  end.

(** What a key is made of: a keyword ends at a NUL character. *)
Definition cut (text : bytes) : bytes := match keys ropts with Keywords => c_str text | _ => text end.
Definition keyRead (k : obj) : bytes := cut (plainKeyText opts k).

(** A key of the text [text], as the parser makes it. *)
Definition keyIs (text : bytes) (k : obj) : Prop :=
  match keys ropts with
  | Keywords => k = internNamed (":"%byte :: text)
  | _ => exists a, k = Str a text
  end.

(** What comes back for a value: itself, but for the addresses of its cells, with a
    sequence or a set as a vector, a keyword or a symbol as a string, and the keys of
    a map as strings or keywords. The entries of a map have no order. *)
Inductive image : obj -> obj -> Prop :=
| image_word w : image (Embedded w) (Embedded w)
| image_big a b z : image (Big a z) (Big b z)
| image_string a b s : image (Str a s) (Str b s)
| image_named a b s : image (Named a s) (Str b (namedText opts s))
| image_sequence v b items items' : jsonItems v = Some items -> Forall2 image items items' ->
    image v (Vec b items')
| image_map a b es es' :
    permuted (fun e e' => keyIs (keyRead e.1) e'.1 /\ image e.2 e'.2) es es' ->
    image (MapObj a es) (MapObj b es').

(** A cell's address is no word. *)
Definition proper (v : obj) : Prop :=
  same v PROTO_NONE = false /\ same v PROTO_TRUE = false /\ same v PROTO_FALSE = false.

Definition keyWritable (k : obj) : Prop :=
  validText (plainKeyText opts k) /\ (flavor opts = DataJson -> same k PROTO_NONE = false).

(** The values that have a JSON text: nil, booleans, integers of any size, strings,
    keywords and symbols of whole characters, sequences and sets of these, and maps to
    these whose keys are read back as different keys. *)
Fixpoint jsonable (v : obj) : Prop :=
  match v with
  | Embedded w =>
      w = noneWord \/ w = trueWord \/ w = falseWord \/
      exists z, w = smallIntWord z /\ fitsSmallInt z = true
  | Big _ z => proper v /\ fitsSmallInt z = false
  | Str _ s => proper v /\ validText s
  | Named _ s => proper v /\ validText (namedText opts s)
  | Vec _ items | LList _ items | SeqObj _ items =>
      proper v /\ foldr (fun v P => jsonable v /\ P) True items
  | SetObj _ es => proper v /\ foldr (fun e P => jsonable e.1 /\ P) True es
  | MapObj _ es =>
      proper v /\ NoDup (map (fun e => keyRead e.1) es) /\
      foldr (fun e P => keyWritable e.1 /\ jsonable e.2 /\ P) True es
  | _ => False
  end.

(** [text] reads as the image of [v], whatever blanks come before it and whatever
    closes it. *)
Definition reads (stack : nat) (text : bytes) (v : obj) : Prop :=
  text <> [] /\ startsInk text = true /\ head text <> Some "]"%byte /\ head text <> Some "}"%byte /\
  validText text /\
  forall turns ws tail, Forall (fun c => isBlank c = true) ws -> closed tail = true ->
    (length (ws ++ text ++ tail) < turns)%nat ->
    parses (value turns ropts stack) (ws ++ text ++ tail) (any (image v)) tail.

(** *** Texts *)

Lemma validText_app s t : validText s -> validText t -> validText (s ++ t).
Proof.
  intros (a & Ha & ->) (b & Hb & ->). exists (a ++ b). split; [by apply Forall_app|].
  unfold utf8. by rewrite flat_map_app.
Qed.

Lemma validText_ascii s : Forall (fun c => u8 c < 0x80) s -> validText s.
Proof.
  induction 1 as [|c s Hc _ IH]; [by exists []|]. change (c :: s) with ([c] ++ s).
  apply validText_app; [|done]. exists [u8 c]. pose proof (u8_range c).
  split; [constructor; [unfold scalar; lia|done]|]. cbn. rewrite encode1 by lia. by rewrite chr_u8.
Qed.

Lemma validText_hex u : 0 <= u -> Forall (fun c => u8 c < 0x80) (hexEscape opts u).
Proof.
  intros Hu. unfold hexEscape. apply Forall_app. split; [by repeat constructor|].
  assert (Hd : forall k, 0 <= k -> u8 (nth (Z.to_nat (Z.land (Z.shiftr u k) 0xF))
      (match flavor opts with Cheshire => upperDigits | DataJson => lowerDigits end) x00) < 0x80).
  { intros k Hk. pose proof (nth_hex opts (Z.land (Z.shiftr u k) 0xF)) as Hh.
    assert (Hr : 0 <= Z.land (Z.shiftr u k) 15 < 16) by (change 15 with (Z.ones 4); rewrite Z.land_ones; lia).
    specialize (Hh Hr). revert Hh. generalize (nth (Z.to_nat (Z.land (Z.shiftr u k) 15))
      (match flavor opts with Cheshire => upperDigits | DataJson => lowerDigits end) x00). intros c.
    assert (Hc : (match hex_digit c with Some _ => u8 c <? 0x80 | None => true end) = true) by (clear; by_bytes c).
    intros E. rewrite E in Hc. lia. }
  repeat constructor; apply Hd; lia.
Qed.

Lemma validText_written cp : scalar cp -> validText (writtenCharacter opts cp).
Proof.
  intros Hcp. assert (Hcp' := Hcp). destruct Hcp' as [[Hlo Hhi] _]. unfold writtenCharacter.
  destruct (Z.ltb_spec cp 0x80).
  - apply validText_ascii. assert (Hc : u8 (chr cp) < 0x80) by (rewrite u8_chr_small; lia).
    revert Hc. generalize (chr cp). intros c Hc. pose proof (u8_range c).
    destruct (decide (c = "/"%byte)) as [->|Hs]; [cbn; destruct (escapeSlash opts); by repeat constructor|].
    destruct (decide (Forall (fun c => u8 c < 0x80) (escapeAscii opts c))) as [|Hno]; [done|].
    exfalso. apply Hno. unfold escapeAscii.
    assert (Hother : Forall (fun c => u8 c < 0x80) (if u8 c <? 0x20 then hexEscape opts (u8 c) else [c])).
    { destruct (_ <? _); [apply validText_hex; lia|by repeat constructor]. }
    destruct c; first [exact Hother | by repeat constructor].
  - destruct (_ || _); [|by exists [cp]; split; [constructor|cbn; rewrite app_nil_r]].
    apply validText_ascii. unfold escapeCharacter. destruct (Z.leb_spec 0x10000 cp).
    + change 0x3FF with (Z.ones 10). rewrite Z.land_ones, Z.shiftr_div_pow2 by lia.
      apply Forall_app. split; apply validText_hex; lia.
    + apply validText_hex. lia.
Qed.

Lemma validText_string s : validText s -> validText (writeString opts s).
Proof.
  intros (cps & Hcps & ->). unfold writeString. rewrite characters_utf8 by done.
  apply validText_app; [apply validText_ascii; by repeat constructor|].
  apply validText_app; [|apply validText_ascii; by repeat constructor].
  induction Hcps as [|cp cps Hcp _ IH]; [by exists []|]. cbn. apply validText_app; [by apply validText_written|done].
Qed.

(** *** Atoms *)

(** [value] at the first character that is no blank. *)
Definition valueFrom (turns stack : nat) (c : option byte) : P obj :=
  match c with
  | Some "{"%byte => _ ← onSource advance; object turns ropts (value turns ropts stack)
  | Some "["%byte => _ ← onSource advance; array turns (value turns ropts stack)
  | Some x22 => _ ← onSource advance; text ← string_ turns []; newString text
  | Some "t"%byte => _ ← word turns (s2b "true") []; mret PROTO_TRUE
  | Some "f"%byte => _ ← word turns (s2b "false") []; mret PROTO_FALSE
  | Some "n"%byte => _ ← word turns (s2b "null") []; mret PROTO_NONE
  | None => fail (s2b "unexpected end of input, expected a value")
  | Some c =>
      if (c =? "-")%byte || is_digit c then number turns
      else if is_alpha c then tok ← takeWhile turns is_alnum []; unrecognized tok
      else found ← describeCurrent; fail (s2b "unexpected " ++ found ++ s2b ", expected a value")
  end.

Lemma value_at turns stack ws s tail (Q : obj -> Prop) :
  Forall (fun c => isBlank c = true) ws -> startsInk s = true -> (length ws < turns)%nat ->
  parses (valueFrom turns stack (head s)) s (any Q) tail ->
  parses (value turns ropts (S stack)) (ws ++ s) (any Q) tail.
Proof.
  intros Hws Hs Hn Hm. cbn [value].
  eapply parses_step; [by apply parses_skip|apply any_back|].
  eapply parses_step; [apply parses_peek_head|apply any_back|]. exact Hm.
Qed.

Lemma startsInk_app s t : s <> [] -> startsInk s = true -> startsInk (s ++ t) = true.
Proof. by destruct s. Qed.

Lemma head_app (s t : bytes) : s <> [] -> head (s ++ t) = head s.
Proof. by destruct s. Qed.

Lemma word_reads turns w seen tail : closed tail = true ->
  parses (word turns w seen) (w ++ tail) (answers tt) tail.
Proof.
  intros Ht. revert seen. induction w as [|p w IH]; intros seen; cbn [word app].
  - eapply parses_then; [apply parses_peek_head|].
    pose proof (closed_ends tail is_alnum Ht ltac:(vm_compute; reflexivity)) as Hend.
    replace (test is_alnum (head tail)) with false by (by destruct tail). apply parses_ret.
  - eapply parses_then; [apply parses_peek|]. rewrite bool_decide_true by done.
    eapply parses_then; [apply parses_advance|apply IH].
Qed.

(** A literal name. *)
Lemma reads_name stack (name : string) v v0 :
  startsInk (s2b name) = true -> image v v0 -> forallb is_alpha (s2b name) = true ->
  s2b name <> [] ->
  (forall turns, valueFrom turns stack (head (s2b name)) =
     (_ ← word turns (s2b name) []; mret v0)) ->
  reads (S stack) (s2b name) v.
Proof.
  intros Hink Hv Ha Hne Hm.
  assert (Hc : forall p : byte -> bool, forallb (fun c => negb (is_alpha c) || negb (p c)) all_bytes = true ->
      forall c, head (s2b name) = Some c -> p c = false).
  { intros p Hp c Ec. destruct (s2b name) as [|c' s]; [done|]. injection Ec as ->. cbn in Ha.
    apply andb_prop in Ha as [Hac _].
    pose proof (byte_forall (fun c => negb (is_alpha c) || negb (p c)) Hp c) as Hpc. cbn in Hpc.
    rewrite Hac in Hpc. by apply negb_true_iff. }
  split; [done|]. split; [done|].
  split; [intros E; by specialize (Hc (fun c => c =? "]")%byte ltac:(vm_compute; reflexivity) _ E)|].
  split; [intros E; by specialize (Hc (fun c => c =? "}")%byte ltac:(vm_compute; reflexivity) _ E)|].
  split.
  { apply validText_ascii. apply List.Forall_forall. intros c Hin. rewrite forallb_forall in Ha.
    specialize (Ha c Hin). assert (Hb : negb (is_alpha c) || (u8 c <? 0x80) = true) by (clear; by_bytes c).
    rewrite Ha in Hb. cbn in Hb. lia. }
  intros turns ws tail Hws Ht Hn. rewrite !length_app in Hn.
  apply value_at; [done|by apply startsInk_app|lia|]. rewrite head_app, Hm by done.
  eapply parses_step; [by apply word_reads|apply any_back|by apply parses_value].
Qed.

Lemma newString_reads text s :
  validText text -> parses (newString text) s (fun h h' v => v = Str h text /\ h' = h + 64) s.
Proof.
  intros Hv. unfold newString. eapply parses_weaken; [apply parses_allocate|].
  intros h h' v _ [-> ->]. split; [|done]. unfold utf8Text. by rewrite text_kept.
Qed.

Lemma reads_text stack s v : validText s -> (forall b, image v (Str b s)) ->
  reads (S stack) (writeString opts s) v.
Proof.
  intros Hs Hv. split; [done|]. split; [done|]. split; [done|]. split; [done|].
  split; [by apply validText_string|]. intros turns ws tail Hws Ht Hn.
  apply value_at; [done|done|rewrite length_app in Hn; lia|]. unfold writeString. cbn [app head valueFrom].
  rewrite <- app_assoc. cbn [app]. rewrite !length_app in Hn. unfold writeString in Hn.
  cbn [app length] in Hn. rewrite !length_app in Hn. cbn [length] in Hn.
  eapply parses_step; [apply parses_advance|apply any_back|].
  eapply parses_step; [apply (string_text opts s tail Hs turns []); rewrite length_app; cbn; lia|apply any_back|].
  eapply parses_weaken; [by apply newString_reads|]. intros h h' v' _ [-> _]. apply Hv.
Qed.

Lemma json_integer stack z v : (forall v', integerIs z v' -> image v v') ->
  reads (S stack) (to_string z) v.
Proof.
  intros Hv. destruct (to_string_numeral z) as (sign & ds & E & [Hds Hshape] & Hsign).
  assert (Hchars : Forall (fun c => (c =? "-")%byte || is_digit c = true) (to_string z)).
  { rewrite E. apply Forall_app. split; [by destruct Hsign as [-> | ->]; repeat constructor|].
    eapply Forall_impl; [exact Hds|]. intros c ->. by rewrite orb_true_r. }
  assert (Hne : to_string z <> []).
  { rewrite E. destruct Hshape as [->|(c & ds' & -> & _)]; by destruct sign. }
  assert (Hhead : exists c t, to_string z = c :: t /\ (c =? "-")%byte || is_digit c = true).
  { destruct (to_string z) as [|c t]; [done|]. apply Forall_cons in Hchars as [? _]. by eexists _, _. }
  destruct Hhead as (c & t & Ec & Hc).
  assert (Hall : forallb (fun c => negb ((c =? "-")%byte || is_digit c) ||
      (negb (isBlank c) && negb (c =? "]")%byte && negb (c =? "}")%byte && (u8 c <? 0x80))) all_bytes = true)
    by (vm_compute; reflexivity).
  assert (Hk : negb (isBlank c) && negb (c =? "]")%byte && negb (c =? "}")%byte && (u8 c <? 0x80) = true).
  { pose proof (byte_forall (fun c => negb ((c =? "-")%byte || is_digit c) || _) Hall c) as Hb.
    cbn beta in Hb. by rewrite Hc in Hb. }
  rewrite !andb_true_iff in Hk. destruct Hk as [[[Hk1 Hk2] Hk3] Hk4].
  split; [done|]. split; [by rewrite Ec|].
  split; [rewrite Ec; intros [= ->]; done|]. split; [rewrite Ec; intros [= ->]; done|].
  split.
  { apply validText_ascii. eapply Forall_impl; [exact Hchars|]. intros d Hd.
    pose proof (byte_forall (fun c => negb ((c =? "-")%byte || is_digit c) || _) Hall d) as Hb.
    cbn beta in Hb. rewrite Hd in Hb. cbn in Hb. rewrite !andb_true_iff in Hb. lia. }
  intros turns ws tail Hws Ht Hn. rewrite !length_app in Hn.
  apply value_at; [done|apply startsInk_app; [done|by rewrite Ec]|lia|]. rewrite head_app by done.
  assert (Em : valueFrom turns stack (head (to_string z)) = number turns).
  { rewrite Ec. cbn [head]. clear -Hc. destruct c; try discriminate Hc; reflexivity. }
  rewrite Em. eapply parses_weaken; [apply number_reads; [done|lia]|]. intros h h' v' _ Hv'. by apply Hv.
Qed.

(** *** Sequences *)

Definition gap : bytes := if pretty opts then [" "%byte] else [].

Lemma gap_blank : Forall (fun c => isBlank c = true) gap.
Proof. unfold gap. destruct (pretty opts); by repeat constructor. Qed.

(** The texts after the first, and the bracket. *)
Definition restOf (ts : list bytes) (tail : bytes) : bytes :=
  flat_map (fun t => ","%byte :: gap ++ t) ts ++ gap ++ "]"%byte :: tail.

Lemma gap_closed c s : closes c = true -> closed (gap ++ c :: s) = true.
Proof. unfold gap. by destruct (pretty opts). Qed.

Lemma restOf_closed ts tail : closed (restOf ts tail) = true.
Proof. destruct ts; [by apply gap_closed|done]. Qed.

Lemma restOf_length ts tail : (length ts < length (restOf ts tail))%nat.
Proof.
  unfold restOf. induction ts as [|t ts IH]; cbn; rewrite !length_app in *; cbn in *; [lia|].
  rewrite ?length_app in *. lia.
Qed.

Lemma elements_read turns stack tail v vs t ts n ws items :
  Forall (fun c => isBlank c = true) ws -> Forall2 (reads stack) (t :: ts) (v :: vs) ->
  (length ts < n)%nat -> (length (ws ++ t ++ restOf ts tail) < turns)%nat ->
  parses (elements turns (value turns ropts stack) n items) (ws ++ t ++ restOf ts tail)
    (any (fun items' => exists ys, items' = items ++ ys /\ Forall2 image (v :: vs) ys)) tail.
Proof.
  revert v vs t n ws items. induction ts as [|t2 ts IH]; intros v vs t n ws items Hws Hts Hn Hl;
    apply Forall2_cons in Hts as [Ht Hts]; (destruct n as [|n]; [lia|]); cbn [elements];
    assert (Hr := Ht); destruct Hr as (_ & _ & _ & _ & _ & Hread);
    (eapply parses_any; [by apply Hread; [|apply restOf_closed|]|]); intros v' Hv'.
  - inversion Hts; subst. cbn in Hl. rewrite !length_app in Hl. cbn in Hl.
    eapply parses_step; [apply (parses_skip turns gap ("]"%byte :: tail) gap_blank eq_refl); lia|apply any_back|].
    eapply parses_step; [apply parses_peek|apply any_back|].
    eapply parses_step; [apply parses_advance|apply any_back|]. apply parses_value. intros h0.
    exists [v']. split; [done|]. by repeat constructor.
  - destruct vs as [|v2 vs]; [by inversion Hts|]. unfold restOf in *. cbn [flat_map app] in *.
    eapply parses_step; [apply (parses_skip turns [] (","%byte :: _)); [done|done|cbn; lia]|apply any_back|].
    eapply parses_step; [apply parses_peek|apply any_back|].
    eapply parses_step; [apply parses_advance|apply any_back|].
    rewrite <- !app_assoc. eapply parses_weaken.
    + apply (IH v2 vs t2 n gap (items ++ [v'])); [apply gap_blank|done|cbn in Hn; lia|].
      revert Hl. rewrite !length_app. cbn [length]. rewrite !length_app. cbn [length]. lia.
    + intros h1' h' items' _ (ys & -> & Hys). exists (v' :: ys). rewrite <- app_assoc.
      split; [done|]. by constructor.
Qed.

Lemma array_reads stack v items ts : jsonItems v = Some items -> Forall2 (reads stack) ts items ->
  reads (S stack) (["["%byte] ++
    match ts with [] => gap ++ ["]"%byte] | t :: ts => gap ++ t ++ restOf ts [] end) v.
Proof.
  intros Hv Hts. set (text := ["["%byte] ++ _). split; [done|]. split; [done|]. split; [done|].
  split; [done|]. split.
  { assert (Hg : validText gap) by (apply validText_ascii; unfold gap; destruct (pretty opts); by repeat constructor).
    assert (Hone : forall c, u8 c < 0x80 -> validText [c]) by (intros; apply validText_ascii; by repeat constructor).
    assert (Hall : Forall validText ts).
    { clear Hv text. induction Hts as [|t x ts xs (_ & _ & _ & _ & Ht & _) _ IH]; by constructor. }
    unfold text. apply validText_app; [by apply Hone|]. destruct Hall as [|t ts' Ht Hall].
    - by apply validText_app; [|apply Hone].
    - apply validText_app; [done|]. apply validText_app; [done|]. unfold restOf.
      apply validText_app; [|by apply validText_app; [|apply Hone]].
      clear -Hall Hg Hone. induction Hall as [|t ts Ht _ IH]; [by exists []|]. cbn.
      change (","%byte :: (gap ++ t) ++ ?x) with ([","%byte] ++ (gap ++ t) ++ x).
      apply validText_app; [by apply Hone|]. apply validText_app; [by apply validText_app|done]. }
  intros turns ws tail Hws Ht Hn. apply value_at; [done|done|rewrite length_app in Hn; lia|].
  subst text. cbn [app head valueFrom]. eapply parses_step; [apply parses_advance|apply any_back|].
  unfold array.
  assert (Hend : forall items', Forall2 image items items' ->
      parses (a ← allocate; mret (newVector a items')) tail (any (image v)) tail).
  { intros items' Hi. eapply parses_weaken; [apply parses_allocate|]. intros h h' v' _ [-> _].
    by eapply image_sequence. }
  destruct Hts as [|t x ts xs Hx Hts].
  - rewrite <- app_assoc. cbn [app].
    eapply parses_step; [apply (parses_skip turns gap ("]"%byte :: tail) gap_blank eq_refl); lens|apply any_back|].
    eapply parses_step; [apply parses_peek|apply any_back|]. cbn.
    eapply parses_step with (a := []); [|apply any_back|by apply Hend].
    eapply parses_then; [apply parses_advance|apply parses_ret].
  - assert (Hr := Hx). destruct Hr as (Hne & Hink & Hnb & _).
    assert (E : (gap ++ t ++ restOf ts []) ++ tail = gap ++ t ++ restOf ts tail).
    { unfold restOf. rewrite <- !app_assoc. by cbn. }
    rewrite E. cbn [app] in Hn. rewrite length_app in Hn. cbn [length] in Hn. rewrite E in Hn.
    eapply parses_step; [apply (parses_skip turns gap _ gap_blank); [by apply startsInk_app|lens]|apply any_back|].
    eapply parses_step; [apply parses_peek_head|apply any_back|].
    rewrite head_app, bool_decide_false by done.
    eapply parses_any.
    + apply (elements_read turns stack tail x xs t ts turns [] []); [done|by constructor| |lens].
      pose proof (restOf_length ts tail). lens.
    + intros items' (ys & -> & Hys). cbn [app]. by apply Hend.
Qed.

(** *** The keys of a map

    [k] does not name the key [k']. *)
Definition apart (k k' : obj) : Prop := forall f, names (clojureKeySemantics (S f)) k k' = false.

(** Each key is apart from those before it. *)
Definition fresh (ks : list obj) : Prop := forall i j k k', (i < j)%nat -> ks !! i = Some k ->
  ks !! j = Some k' -> apart k' k.

(** The key of a text, allocated from [h] on, or interned. *)
Definition keyFrom (h : Z) (text : bytes) (k : obj) : Prop :=
  match keys ropts with
  | Keywords => k = internNamed (":"%byte :: text)
  | _ => exists a, k = Str a text /\ h <= a
  end.

(** The key of a text, allocated below [h], or interned. *)
Definition keyBelow (h : Z) (text : bytes) (k : obj) : Prop :=
  match keys ropts with
  | Keywords => k = internNamed (":"%byte :: text)
  | _ => exists a, k = Str a text /\ a < h
  end.

Lemma keyBelow_is h text k : keyBelow h text k -> keyIs text k.
Proof. unfold keyBelow, keyIs. destruct (keys ropts); [|done|]; intros (a & -> & _); by exists a. Qed.

Lemma keyBelow_mono h h' text k : h <= h' -> keyBelow h text k -> keyBelow h' text k.
Proof.
  unfold keyBelow. intros Hh. destruct (keys ropts); [|done|]; intros (a & -> & ?);
    exists a; (split; [done|lia]).
Qed.

Lemma apart_new h text text' k k' : text <> text' -> keyFrom h text k -> keyBelow h text' k' -> apart k k'.
Proof.
  intros Hne Hk Hk' f. unfold keyFrom, keyBelow in *.
  assert (Hstr : (exists a, k = Str a text /\ h <= a) -> (exists a, k' = Str a text' /\ a < h) ->
    names (clojureKeySemantics (S f)) k k' = false).
  { intros (a & -> & Ha) (a' & -> & Ha'). unfold names. cbn [isIdentity clojureKeySemantics keyIsIdentity].
    apply andb_false_iff. right. cbn. unfold same. cbn. rewrite (proj2 (Z.eqb_neq a a')) by lia.
    by rewrite bool_decide_false. }
  destruct (keys ropts); [by apply Hstr| |by apply Hstr]. subst. unfold names. cbn. unfold same. cbn.
  apply Z.eqb_neq. intros E. apply named_inj in E. congruence.
Qed.

Lemma fresh_snoc ks k : fresh ks -> Forall (apart k) ks -> fresh (ks ++ [k]).
Proof.
  intros Hf Hk i j a b Hij Ea Eb. destruct (Nat.lt_ge_cases j (length ks)) as [Hj|Hj].
  - rewrite lookup_app_l in Ea, Eb by lia. exact (Hf i j a b Hij Ea Eb).
  - rewrite lookup_app_r in Eb by lia. apply list_lookup_singleton_Some in Eb as [Ej <-].
    rewrite lookup_app_l in Ea by lia. rewrite Forall_forall in Hk.
    by eapply Hk, list_elem_of_lookup_2.
Qed.

Definition flat (es : entries) : list obj := flat_map (fun e => [e.1; e.2]) es.

Lemma flat_length es : length (flat es) = (2 * length es)%nat.
Proof. induction es as [|e es IH]; cbn; [done|]. unfold flat in IH. rewrite IH. lia. Qed.

Context `{!HashedLaws}.

Lemma assocAll_new f m before es : m ≡ₚ before -> fresh (map fst (before ++ es)) ->
  assocAll (S f) m (flat es) ≡ₚ before ++ es.
Proof.
  revert m before. induction es as [|[k v] es IH]; intros m before Hm Hf; [by rewrite app_nil_r|].
  cbn [flat flat_map app assocAll fst snd].
  change (before ++ (k, v) :: es) with (before ++ [(k, v)] ++ es). rewrite app_assoc. apply IH.
  - unfold assoc. rewrite hashedPut_new.
    + rewrite Hm. by rewrite Permutation_app_comm.
    + intros e He. rewrite Hm in He. apply list_elem_of_lookup in He as [i Hi].
      assert (Hl : (i < length before)%nat) by (by eapply lookup_lt_Some).
      apply (Hf i (length before)); [done| |]; rewrite list_lookup_fmap.
      * by rewrite lookup_app_l, Hi by done.
      * by rewrite list_lookup_middle.
  - rewrite <- app_assoc. exact Hf.
Qed.

Lemma fold_new m before es : m ≡ₚ before -> fresh (map fst (before ++ es)) ->
  fold m (flat es) ≡ₚ before ++ es.
Proof.
  intros Hm Hf. unfold fold, mapAssocPairs, requireEven. rewrite flat_length.
  replace (Nat.even (2 * length es)) with true by (symmetry; apply Nat.even_spec; by exists (length es)).
  cbn [negb default from_option]. destruct es as [|[k v] es].
  { cbn. by rewrite app_nil_r. }
  assert (Hk : exists f, keyFuel (map fst m ++ flat ((k, v) :: es)) = S f).
  { exists (pred (keyFuel (map fst m ++ flat ((k, v) :: es)))). unfold keyFuel.
    pose proof (list_max_le (map depth (map fst m ++ flat ((k, v) :: es))) 0) as Hle.
    destruct (list_max _) as [|n]; [|done]. exfalso. apply proj1 in Hle. specialize (Hle ltac:(lia)).
    rewrite map_app in Hle. apply Forall_app in Hle as [_ Hle]. cbn in Hle.
    apply Forall_cons in Hle as [Hle _]. by destruct k; cbn in Hle; lia. }
  destruct Hk as [f ->]. by apply assocAll_new.
Qed.

(** *** Objects *)

(** [m] from the state [st] on answers a value [Q] accepts and leaves [r]. *)
Definition runs {A} (m : P A) (st : @jstate W) (Q : A -> Prop) (r : bytes) : Prop :=
  exists a st', m st = (Ok a, st') /\ textAt r st' /\
    heapTop (world st) <= heapTop (world st') /\ Q a.

Lemma runs_seq {A B} (m : P A) (k : A -> P B) st s r t (Q : Z -> Z -> A -> Prop) (R : B -> Prop) :
  textAt s st -> parses m s Q r ->
  (forall a st1, textAt r st1 -> heapTop (world st) <= heapTop (world st1) ->
     Q (heapTop (world st)) (heapTop (world st1)) a -> runs (k a) st1 R t) ->
  runs (m ≫= k) st R t.
Proof.
  intros Ht Hm Hk. destruct (Hm st Ht) as (a & st1 & E1 & Ht1 & Hh1 & Ha).
  destruct (Hk a st1 Ht1 Hh1 Ha) as (b & st2 & E2 & Ht2 & Hh2 & Hb).
  exists b, st2. unfold mbind, E_bind. rewrite E1. split_and!; [done..|lia|done].
Qed.

Lemma runs_step {A B} (m : P A) (k : A -> P B) st s a r t (R : B -> Prop) :
  textAt s st -> parses m s (answers a) r ->
  (forall st1, textAt r st1 -> heapTop (world st) <= heapTop (world st1) -> runs (k a) st1 R t) ->
  runs (m ≫= k) st R t.
Proof. intros Ht Hm Hk. eapply runs_seq; [done..|]. intros a' st1 Ht1 Hh1 ->. by apply Hk. Qed.

Lemma runs_ret {A} (a : A) st s (Q : A -> Prop) : textAt s st -> Q a -> runs (mret a) st Q s.
Proof. intros Ht Ha. exists a, st. by split_and!; [| |reflexivity|]. Qed.

(** The entries read so far: [acc] in the order of the text, of the keys [texts], some
    of them pending in [kv]. *)
Definition pending (h : Z) (m : entries) (kv : list obj) (texts : list bytes) (acc : entries) : Prop :=
  exists before es, acc = before ++ es /\ m ≡ₚ before /\ kv = flat es /\
    Forall2 (keyBelow h) texts (map fst acc) /\ fresh (map fst acc).

Lemma pending_none h : pending h [] [] [] [].
Proof. exists [], []. split_and!; [done..|constructor|]. intros i j k k' _ E. by destruct i. Qed.

Lemma pending_mono h h' m kv texts acc : h <= h' -> pending h m kv texts acc -> pending h' m kv texts acc.
Proof.
  intros Hh (before & es & Ha & Hm & Hkv & Ht & Hf). exists before, es. split_and!; [done..| |done].
  eapply Forall2_impl; [exact Ht|]. intros text k. by apply keyBelow_mono.
Qed.

Lemma pending_fold h m kv texts acc : pending h m kv texts acc -> fold m kv ≡ₚ acc.
Proof. intros (before & es & -> & Hm & -> & _ & Hf). by apply fold_new. Qed.

(** A full batch goes into the map. *)
Definition batch (m : entries) (kv : list obj) : entries * list obj :=
  if (length kv =? 2 * kBatch)%nat then (fold m kv, []) else (m, kv).

Lemma pending_batch h m kv texts acc : pending h m kv texts acc ->
  pending h (batch m kv).1 (batch m kv).2 texts acc.
Proof.
  intros Hp. unfold batch. destruct (_ =? _)%nat; [|done]. pose proof (pending_fold _ _ _ _ _ Hp) as Hm.
  destruct Hp as (before & es & _ & _ & _ & Ht & Hf). exists acc, [].
  by split_and!; [rewrite app_nil_r|..].
Qed.

Lemma pending_add h h' h2 m kv texts acc text k v : h <= h' -> pending h m kv texts acc ->
  text ∉ texts -> keyFrom h' text k -> keyBelow h2 text k -> h' <= h2 ->
  pending h2 m (kv ++ [k; v]) (texts ++ [text]) (acc ++ [(k, v)]).
Proof.
  intros Hh Hp Hnew Hk Hk2 Hh2. pose proof (pending_mono h h2 _ _ _ _ ltac:(lia) Hp) as Hp2.
  destruct Hp as (before & es & Ha & Hm & Hkv & Ht & Hf).
  destruct Hp2 as (_ & _ & _ & _ & _ & Ht2 & _). exists before, (es ++ [(k, v)]).
  split_and!; [by rewrite Ha, <- app_assoc|done|by rewrite Hkv; unfold flat; rewrite flat_map_app|..];
    rewrite map_app.
  - apply Forall2_app; [done|by repeat constructor].
  - apply fresh_snoc; [done|]. apply Forall_lookup. intros i k' Hi.
    destruct (Forall2_lookup_r _ _ _ _ _ Ht Hi) as (text' & Ht' & Hk').
    eapply apart_new; [|exact Hk|by apply (keyBelow_mono h h')].
    intros ->. by apply Hnew, (list_elem_of_lookup_2 _ i).
Qed.

Definition indent (depth : nat) : bytes := if pretty opts then newlineIndent depth else [].
Definition colon : bytes := if pretty opts then s2b " : " else s2b ":".

Lemma indent_blank depth : Forall (fun c => isBlank c = true) (indent depth).
Proof.
  unfold indent, newlineIndent. destruct (pretty opts); [|done]. constructor; [done|].
  by apply Forall_replicate.
Qed.

(** An entry as it is written, and those after the first, with the brace. *)
Definition entryText (e : obj * obj) (t : bytes) : bytes :=
  writeString opts (plainKeyText opts e.1) ++ colon ++ t.
Definition memberText (depth : nat) (e : obj * obj) (t : bytes) : bytes := indent depth ++ entryText e t.

Definition membersRest (depth : nat) (ms : list ((obj * obj) * bytes)) (tail : bytes) : bytes :=
  flat_map (fun m => ","%byte :: memberText (S depth) m.1 m.2) ms ++ indent depth ++ "}"%byte :: tail.

Lemma membersRest_length depth ms tail : (length ms < length (membersRest depth ms tail))%nat.
Proof.
  unfold membersRest. induction ms as [|m ms IH]; cbn; rewrite !length_app in *; cbn in *; [lia|].
  rewrite ?length_app in *. lia.
Qed.

Lemma membersRest_closed depth ms tail : closed (membersRest depth ms tail) = true.
Proof. destruct ms; [|done]. unfold membersRest, indent. by destruct (pretty opts). Qed.

(** The parser applies no function to keys or values. *)
Context (Hkeys : forall fn, keys ropts <> Fn fn) (Hvalue : valueFn ropts = None).

Lemma entryKey_reads text s : validText text ->
  parses (entryKey ropts text) s (fun h h' k => keyFrom h (cut text) k /\ keyBelow h' (cut text) k) s.
Proof.
  intros Ht. unfold entryKey, makeKey, keyFrom, keyBelow, cut.
  destruct (keys ropts) as [| |fn] eqn:Ek; [..|by destruct (Hkeys fn)].
  - eapply parses_seq; [by apply newString_reads|]. intros h h1 k _ [-> ->]. apply parses_value.
    intros h' ->. split; eexists; (split; [done|lia]).
  - eapply parses_seq with (Q := answers (internNamed (":"%byte :: c_str text))); [apply parses_ret|].
    intros h h1 k _ ->. by apply parses_value.
Qed.

Lemma entryValue_reads k v s : parses (entryValue ropts k v) s (answers (Some v)) s.
Proof. unfold entryValue. rewrite Hvalue. apply parses_ret. Qed.

(** An entry comes back. *)
Definition entryImage (e e' : obj * obj) : Prop :=
  keyIs (keyRead e.1) e'.1 /\ image e.2 e'.2.

Lemma expect_reads c what s : parses (expect c what) (c :: s) (answers tt) s.
Proof.
  unfold expect. eapply parses_then; [apply parses_peek|]. rewrite bool_decide_true by done.
  apply parses_advance.
Qed.

Lemma colon_gap : colon = gap ++ ":"%byte :: gap.
Proof. unfold colon, gap. by destruct (pretty opts). Qed.

(** After an entry. *)
Definition afterEntry (turns stack n : nat) (m : entries) (kv : list obj) : P entries :=
  _ ← skipWhitespace turns;
  d ← peek;
  match d with
  | Some ","%byte => _ ← onSource advance; members turns ropts (value turns ropts stack) n m kv
  | Some "}"%byte => _ ← onSource advance; mret (fold m kv)
  | None => fail (s2b "unexpected end of input inside an object, expected ',' or '}'")
  | _ => found ← describeCurrent; fail (s2b "expected ',' or '}' in an object, found " ++ found)
  end.

(** One entry is read, whatever follows. *)
Lemma member_read turns stack ws n st m kv texts acc e t r (R : entries -> Prop) T :
  Forall (fun c => isBlank c = true) ws ->
  pending (heapTop (world st)) m kv texts acc -> validText (plainKeyText opts e.1) ->
  keyRead e.1 ∉ texts -> reads stack t e.2 ->
  textAt (ws ++ entryText e t ++ r) st -> closed r = true ->
  (length (ws ++ entryText e t ++ r) < turns)%nat ->
  (forall k v st1, textAt r st1 -> entryImage e (k, v) ->
     pending (heapTop (world st1)) (batch m (kv ++ [k; v])).1 (batch m (kv ++ [k; v])).2
       (texts ++ [keyRead e.1]) (acc ++ [(k, v)]) ->
     runs (afterEntry turns stack n (batch m (kv ++ [k; v])).1 (batch m (kv ++ [k; v])).2) st1 R T) ->
  runs (members turns ropts (value turns ropts stack) (S n) m kv) st R T.
Proof.
  intros Hws Hp Hv Hnew (Hne & _ & _ & _ & _ & Hread) Ht Hr Hl Hk. cbn [members].
  unfold entryText in *. rewrite colon_gap in *. unfold writeString in *.
  rewrite <- !app_assoc in *. cbn [app] in *. rewrite <- ?app_assoc in *. cbn [app] in *.
  eapply runs_step; [exact Ht|apply parses_skip; [exact Hws|done|lens]|]. intros st1 Ht1 Hh1.
  eapply runs_step; [exact Ht1|apply parses_peek|]. intros st2 Ht2 Hh2. cbn beta iota.
  replace (negb (x22 =? x22)%byte) with false by done.
  eapply runs_step; [exact Ht2|apply parses_advance|]. intros st3 Ht3 Hh3.
  eapply runs_step; [exact Ht3|apply (string_text opts _ _ Hv turns []); lens|]. intros st4 Ht4 Hh4.
  eapply runs_seq; [exact Ht4|by apply entryKey_reads|]. intros k st5 Ht5 Hh5 [Hfrom Hbelow].
  eapply runs_step; [exact Ht5|apply parses_skip; [apply gap_blank|done|lens]|]. intros st6 Ht6 Hh6.
  eapply runs_step; [exact Ht6|apply expect_reads|]. intros st7 Ht7 Hh7.
  eapply runs_seq; [exact Ht7|apply Hread; [apply gap_blank|done|lens]|]. intros v st8 Ht8 Hh8 Hi.
  eapply runs_step; [exact Ht8|apply entryValue_reads|]. intros st9 Ht9 Hh9.
  cbn beta iota zeta.
  assert (Hadd : pending (heapTop (world st9)) m (kv ++ [k; v]) (texts ++ [keyRead e.1])
      (acc ++ [(k, v)])).
  { eapply (pending_add _ (heapTop (world st4)) _); [|exact Hp|done|exact Hfrom| |]; [lia| |lia].
    eapply keyBelow_mono; [|exact Hbelow]. lia. }
  specialize (Hk k v st9 Ht9 (conj (keyBelow_is _ _ _ Hbelow) Hi) (pending_batch _ _ _ _ _ Hadd)).
  revert Hk. unfold batch, afterEntry. destruct (_ =? _)%nat; exact (fun H => H).
Qed.

Lemma members_read turns stack depth tail e es t ts : forall n ws st m kv texts acc,
  Forall (fun c => isBlank c = true) ws ->
  pending (heapTop (world st)) m kv texts acc ->
  Forall (fun e => validText (plainKeyText opts e.1)) (e :: es) ->
  NoDup (texts ++ map (fun e => keyRead e.1) (e :: es)) ->
  Forall2 (fun e t => reads stack t e.2) (e :: es) (t :: ts) ->
  textAt (ws ++ entryText e t ++ membersRest depth (zip es ts) tail) st ->
  (length es < n)%nat ->
  (length (ws ++ entryText e t ++ membersRest depth (zip es ts) tail) < turns)%nat ->
  runs (members turns ropts (value turns ropts stack) n m kv) st
    (fun m' => exists l, m' ≡ₚ acc ++ l /\ Forall2 entryImage (e :: es) l) tail.
Proof.
  revert e t ts. induction es as [|e2 es IH]; intros e t ts n ws st m kv texts acc Hws Hp Hv Hd Hr Ht Hn Hl;
    (destruct n as [|n]; [lia|]); apply Forall_cons in Hv as [Hv Hvs];
    apply Forall2_cons in Hr as [Hr Hrs]; cbn [map] in Hd;
    assert (Hnew : keyRead e.1 ∉ texts)
      by (intros Hin; apply NoDup_app in Hd as (_ & Hd & _); by apply (Hd _ Hin); left);
    (eapply member_read; [exact Hws|exact Hp|done|done|exact Hr|exact Ht|apply membersRest_closed|done|]);
    intros k v st1 Ht1 Hi Hp1; unfold afterEntry.
  - inversion Hrs; subst. cbn [zip_with] in *. unfold membersRest in Ht1, Hl. cbn [flat_map app] in Ht1, Hl.
    eapply runs_step; [exact Ht1|apply parses_skip; [apply indent_blank|done|lens]|]. intros st2 Ht2 Hh2.
    eapply runs_step; [exact Ht2|apply parses_peek|]. intros st3 Ht3 Hh3.
    eapply runs_step; [exact Ht3|apply parses_advance|]. intros st4 Ht4 Hh4.
    eapply runs_ret; [exact Ht4|]. exists [(k, v)]. split; [by eapply pending_fold|].
    by constructor; [|constructor].
  - destruct ts as [|t2 ts]; [by inversion Hrs|]. cbn [zip_with] in *. unfold membersRest in Ht1, Hl.
    cbn [flat_map fst snd] in Ht1, Hl. rewrite <- app_assoc in Ht1, Hl.
    cbn [app] in Ht1, Hl. unfold memberText at 1 in Ht1. rewrite <- (app_assoc (indent _)) in Ht1.
    eapply runs_step; [exact Ht1|apply (parses_skip turns []); [done|done|revert Hl; lens]|].
    intros st2 Ht2 Hh2.
    eapply runs_step; [exact Ht2|apply parses_peek|]. intros st3 Ht3 Hh3.
    eapply runs_step; [exact Ht3|apply parses_advance|]. intros st4 Ht4 Hh4.
    assert (Hle : heapTop (world st1) <= heapTop (world st4)) by lia.
    assert (Hp4 := pending_mono _ _ _ _ _ _ Hle Hp1).
    destruct (IH e2 t2 ts n (indent (S depth)) st4 _ _ _ _ (indent_blank _) Hp4 Hvs) as (m' & st5 & E5 & Ht5 & Hh5 & l & Hl5 & Hr5).
    + by rewrite <- app_assoc.
    + done.
    + exact Ht4.
    + cbn in Hn. lia.
    + revert Hl. unfold membersRest, memberText at 1. lens.
    + exists m', st5. split; [exact E5|]. split; [done|]. split; [done|].
      exists ((k, v) :: l). rewrite Hl5, <- app_assoc. split; [done|]. by constructor.
Qed.

(** The text of a map's entries. *)
Definition objectText (depth : nat) (es : entries) (ts : list bytes) : bytes :=
  match es, ts with
  | e :: es, t :: ts => "{"%byte :: memberText (S depth) e t ++ membersRest depth (zip es ts) []
  | _, _ => if pretty opts then s2b "{ }" else s2b "{}"
  end.

Lemma validText_blank ws : Forall (fun c => isBlank c = true) ws -> validText ws.
Proof.
  intros Hws. apply validText_ascii. eapply Forall_impl; [exact Hws|]. intros c Hc.
  assert (Hb : negb (isBlank c) || (u8 c <? 0x80) = true) by (clear; by_bytes c).
  rewrite Hc in Hb. cbn in Hb. lia.
Qed.

Lemma memberText_valid depth e t :
  validText (plainKeyText opts e.1) -> validText t -> validText (memberText depth e t).
Proof.
  intros He Ht. unfold memberText, entryText. rewrite colon_gap.
  apply validText_app; [apply validText_blank, indent_blank|].
  apply validText_app; [by apply validText_string|]. apply validText_app; [|done].
  apply validText_app; [apply validText_blank, gap_blank|]. change (":"%byte :: gap) with ([":"%byte] ++ gap).
  apply validText_app; [by apply validText_ascii; repeat constructor|apply validText_blank, gap_blank].
Qed.

Lemma objectText_valid depth es ts :
  Forall (fun e => validText (plainKeyText opts e.1)) es -> Forall validText ts ->
  validText (objectText depth es ts).
Proof.
  intros Hes Hts. assert (Hone : forall c, u8 c < 0x80 -> validText [c])
    by (intros; apply validText_ascii; by repeat constructor).
  destruct Hes as [|e es He Hes], Hts as [|t ts Ht Hts]; cbn [objectText];
    try (by destruct (pretty opts); apply validText_ascii; repeat constructor).
  change ("{"%byte :: ?x) with (["{"%byte] ++ x). apply validText_app; [by apply Hone|].
  apply validText_app; [by apply memberText_valid|]. unfold membersRest.
  apply validText_app; [|apply validText_app; [apply validText_blank, indent_blank|by apply Hone]].
  revert ts Hts. induction Hes as [|e2 es He2 Hes IH]; intros ts Hts; [by exists []|].
  destruct Hts as [|t2 ts Ht2 Hts]; [by exists []|]. cbn [zip_with flat_map fst snd].
  change (","%byte :: ?x) with ([","%byte] ++ x). rewrite <- app_assoc.
  apply validText_app; [by apply Hone|]. apply validText_app; [by apply memberText_valid|by apply IH].
Qed.

Lemma object_reads stack depth a es ts :
  Forall (fun e => validText (plainKeyText opts e.1)) es ->
  NoDup (map (fun e => keyRead e.1) es) ->
  Forall2 (fun e t => reads stack t e.2) es ts ->
  reads (S stack) (objectText depth es ts) (MapObj a es).
Proof.
  intros Hv Hd Hr.
  assert (Hts : Forall validText ts).
  { clear Hv Hd. induction Hr as [|e t es ts (_ & _ & _ & _ & Ht & _) _ IH]; by constructor. }
  pose proof (objectText_valid depth es ts Hv Hts) as Hvt.
  assert (Hhead : exists s, objectText depth es ts = "{"%byte :: s).
  { destruct Hr; cbn [objectText]; [destruct (pretty opts)|]; by eexists. }
  destruct Hhead as [s Hs]. split; [by rewrite Hs|]. split; [by rewrite Hs|].
  split; [by rewrite Hs|]. split; [by rewrite Hs|]. split; [done|].
  intros turns ws tail Hws Ht Hn. apply value_at; [done|by rewrite Hs|rewrite length_app in Hn; lia|].
  rewrite Hs in *. cbn [app head valueFrom].
  eapply parses_step; [apply parses_advance|apply any_back|]. unfold object.
  assert (Hend : forall m, (exists l, m ≡ₚ l /\ Forall2 entryImage es l) ->
      parses (a ← allocate; mret (MapObj a m)) tail (any (image (MapObj a es))) tail).
  { intros m (l & Hm & Hl). eapply parses_weaken; [apply parses_allocate|]. intros h h' v' _ [-> _].
    constructor. by exists l. }
  destruct Hr as [|e t es ts Hr Hrs]; cbn [objectText] in Hs.
  - assert (E : s = gap ++ ["}"%byte]).
    { unfold gap. revert Hs. by destruct (pretty opts); intros [= <-]. }
    rewrite E, <- app_assoc in *. cbn [app] in *. 
    eapply parses_step; [apply (parses_skip turns gap ("}"%byte :: tail) gap_blank eq_refl); lens|apply any_back|].
    eapply parses_step; [apply parses_peek|apply any_back|]. rewrite bool_decide_true by done.
    eapply parses_step with (a := []); [|apply any_back|by apply Hend; exists []].
    eapply parses_then; [apply parses_advance|apply parses_ret].
  - injection Hs as Hs. unfold memberText at 1 in Hs. rewrite <- app_assoc in Hs.
    set (rest := membersRest depth (zip es ts) tail).
    assert (Es : s ++ tail = indent (S depth) ++ entryText e t ++ rest).
    { rewrite <- Hs. unfold rest, membersRest. by rewrite <- !app_assoc. }
    assert (Hl : (length (indent (S depth) ++ entryText e t ++ rest) < turns)%nat) by (rewrite <- Es; lens).
    rewrite Es.
    eapply parses_step; [apply (parses_skip turns _ _ (indent_blank _)); [done|lens]|apply any_back|].
    eapply parses_step; [apply parses_peek|apply any_back|]. rewrite bool_decide_false by done.
    apply (parses_any _ _ _ tail _ (fun m => exists l, m ≡ₚ l /\ Forall2 entryImage (e :: es) l));
      [|exact Hend].
    intros st Hst. inversion Hv; subst.
    assert (Hl0 : (length ([] ++ entryText e t ++ rest) < turns)%nat) by lens.
    apply (members_read turns stack depth tail e es t ts turns [] st [] [] [] []);
      [done|apply pending_none|done|done| |exact Hst| |exact Hl0].
    + by constructor.
    + assert (length es = length ts) by (by eapply Forall2_length).
      pose proof (membersRest_length depth (zip es ts) tail) as Hz. rewrite length_zip_with_l_eq in Hz by done.
      fold rest in Hz. lens.
Qed.

(** *** The text of a value *)
Context (HkeyFn : writeKeyFn opts = None).

#[local] Abbreviation F := (E (@formatError exn) W).

(** [m] writes [text] and does nothing else. *)
Definition writes (m : F bytes) (text : bytes) : Prop := forall w, m w = (Ok text, w).

Lemma writes_ret text : writes (mret text) text.
Proof. done. Qed.

Lemma writes_bind (m : F bytes) (k : bytes -> F bytes) s t :
  writes m s -> writes (k s) t -> writes (m ≫= k) t.
Proof. intros Hm Hk w. unfold mbind, E_bind. by rewrite Hm. Qed.

Section Written.
Context (stack : nat).

#[local] Abbreviation write := (writeValue opts stack).

Lemma elementsFrom_writes depth items ts first : Forall2 (fun v t => writes (write depth v) t) items ts ->
  writes (elementsFrom opts write depth first items)
    (match ts with
     | [] => []
     | t :: ts => (if first then gap else ","%byte :: gap) ++ t ++ flat_map (fun t => ","%byte :: gap ++ t) ts
     end).
Proof.
  intros Hts. revert first. induction Hts as [|v t items ts Ht _ IH]; intros first; cbn [elementsFrom]; [done|].
  eapply writes_bind; [|eapply writes_bind; [apply IH|]].
  - unfold element. eapply writes_bind; [exact Ht|apply writes_ret].
  - intros w. unfold gap. destruct ts, first, (pretty opts); cbn; by rewrite <- ?app_assoc, ?app_nil_r.
Qed.

Lemma sequence_writes depth items ts : Forall2 (fun v t => writes (write depth v) t) items ts ->
  writes (writeSequence opts write depth items)
    (["["%byte] ++ match ts with [] => gap ++ ["]"%byte] | t :: ts => gap ++ t ++ restOf ts [] end).
Proof.
  intros Hts. unfold writeSequence. eapply writes_bind; [by apply elementsFrom_writes|].
  intros w. unfold restOf, gap. by destruct ts, (pretty opts); cbn; rewrite <- ?app_assoc, ?app_nil_r.
Qed.

Lemma keyText_writes k : keyWritable k -> writes (keyText opts k) (plainKeyText opts k).
Proof.
  intros [_ Hk] w. unfold keyText. rewrite HkeyFn. destruct (flavor opts); [by rewrite andb_false_r|].
  by rewrite Hk.
Qed.

Lemma membersFrom_writes depth es ts first :
  Forall (fun e => keyWritable e.1) es -> Forall2 (fun e t => writes (write depth e.2) t) es ts ->
  writes (membersFrom opts write depth first es)
    (match es, ts with
     | e :: es, t :: ts => (if first then [] else [","%byte]) ++ memberText depth e t ++
         flat_map (fun m => ","%byte :: memberText depth m.1 m.2) (zip es ts)
     | _, _ => []
     end).
Proof.
  intros Hk Hts. revert first. induction Hts as [|e t es ts Ht _ IH]; intros first; cbn [membersFrom]; [done|].
  apply Forall_cons in Hk as [Hk Hks].
  eapply writes_bind; [by apply keyText_writes|]. eapply writes_bind; [exact Ht|].
  eapply writes_bind; [by apply IH|]. intros w. unfold memberText, entryText, indent, colon.
  destruct es, ts, first, (pretty opts); cbn; rewrite <- ?app_assoc; cbn; by rewrite <- ?app_assoc, ?app_nil_r.
Qed.

Lemma map_writes depth es ts :
  Forall (fun e => keyWritable e.1) es -> Forall2 (fun e t => writes (write (S depth) e.2) t) es ts ->
  writes (writeMap opts write depth es) (objectText depth es ts).
Proof.
  intros Hk Hts. unfold writeMap. destruct Hts as [|e t es ts Ht Hts]; cbn [mapIsEmpty objectText]; [done|].
  eapply writes_bind; [apply (membersFrom_writes (S depth) _ (t :: ts)); [done|by constructor]|].
  intros w. unfold membersRest. cbn. by rewrite <- ?app_assoc.
Qed.

End Written.

(** A value's text, and that it reads back. *)
Definition textOf (stack depth : nat) (v : obj) (text : bytes) : Prop :=
  writes (writeValue opts stack depth v) text /\ reads stack text v.

Lemma proper_value stack depth v : proper v -> writeValue opts (S stack) depth v =
  match integerOf v with
  | Some z => mret (to_string z)
  | None =>
      match v with
      | Dbl _ bits => writeDouble opts bits
      | Str _ text => mret (writeString opts text)
      | MapObj _ es => writeMap opts (writeValue opts stack) depth es
      | Vec _ items | LList _ items | SeqObj _ items =>
          writeSequence opts (writeValue opts stack) depth items
      | SetObj _ es => writeSequence opts (writeValue opts stack) depth (map fst es)
      | Named _ spelling => mret (writeString opts (namedText opts spelling))
      | _ => cannotWrite opts v
      end
  end.
Proof. intros (En & Et & Ef). cbn [writeValue]. by rewrite En, Et, Ef. Qed.

Lemma jsonable_proper v : jsonable v -> (exists w, v = Embedded w) \/ (proper v /\ forall w, v <> Embedded w).
Proof. intros Hv. destruct v; cbn in Hv; try done; try (by left; eexists); right; (split; [tauto|done]). Qed.

Lemma word_text stack depth w : jsonable (Embedded w) -> exists text, textOf (S stack) depth (Embedded w) text.
Proof.
  intros Hw. unfold textOf. cbn [writeValue].
  destruct (same (Embedded w) PROTO_NONE) eqn:En.
  { exists (s2b "null"). split; [done|]. apply Z.eqb_eq in En. cbn in En. subst.
    apply (reads_name stack "null" _ PROTO_NONE); [done|constructor|done..]. }
  destruct (same (Embedded w) PROTO_TRUE) eqn:Et.
  { exists (s2b "true"). split; [done|]. apply Z.eqb_eq in Et. cbn in Et. subst.
    apply (reads_name stack "true" _ PROTO_TRUE); [done|constructor|done..]. }
  destruct (same (Embedded w) PROTO_FALSE) eqn:Ef.
  { exists (s2b "false"). split; [done|]. apply Z.eqb_eq in Ef. cbn in Ef. subst.
    apply (reads_name stack "false" _ PROTO_FALSE); [done|constructor|done..]. }
  unfold same in *. cbn in En, Et, Ef. destruct Hw as [|[|[|(z & -> & Hz)]]]; try (subst; lia).
  destruct (smallInt_word z Hz) as [Htag Hval]. exists (to_string z). split.
  - intros w. unfold integerOf, isSmallInt. by rewrite Htag, Z.eqb_refl, Hval.
  - apply json_integer. unfold integerIs. rewrite Hz. intros v' ->. constructor.
Qed.

Lemma items_text stack depth v items :
  (forall v depth, jsonable v -> (Values.depth v <= stack)%nat -> exists text, textOf stack depth v text) ->
  jsonItems v = Some items -> Forall jsonable items -> (list_max (map Values.depth items) <= stack)%nat ->
  exists text, writes (writeSequence opts (writeValue opts stack) depth items) text /\ reads (S stack) text v.
Proof.
  intros IH Hv Hj Hd. rewrite list_max_le, Forall_map in Hd.
  assert (exists ts, Forall2 (textOf stack depth) items ts) as [ts Hts].
  { clear Hv. induction Hj as [|x xs Hx _ IHxs]; [by exists []|]. apply Forall_cons in Hd as [Hdx Hd].
    destruct (IH x depth Hx Hdx) as [t Ht], (IHxs Hd) as [ts Hts]. exists (t :: ts). by constructor. }
  eexists. split.
  - apply sequence_writes. eapply Forall2_impl; [exact Hts|]. by intros x t [? _].
  - eapply array_reads; [done|]. apply Forall2_flip. eapply Forall2_impl; [exact Hts|]. by intros x t [_ ?].
Qed.


Lemma map_text stack depth a es :
  (forall v depth, jsonable v -> (Values.depth v <= stack)%nat -> exists text, textOf stack depth v text) ->
  Forall (fun e => keyWritable e.1 /\ jsonable e.2) es -> NoDup (map (fun e => keyRead e.1) es) ->
  Forall (fun e => (Values.depth e.2 <= stack)%nat) es ->
  exists text, writes (writeMap opts (writeValue opts stack) depth es) text /\
    reads (S stack) text (MapObj a es).
Proof.
  intros IH Hj Hnd Hd.
  assert (exists ts, Forall2 (fun e t => textOf stack (S depth) e.2 t) es ts) as [ts Hts].
  { clear Hnd. induction Hj as [|e es [_ He] _ IHes]; [by exists []|]. apply Forall_cons in Hd as [Hde Hd].
    destruct (IH e.2 (S depth) He Hde) as [t Ht], (IHes Hd) as [ts Hts]. exists (t :: ts). by constructor. }
  exists (objectText depth es ts). split.
  - apply map_writes; [eapply Forall_impl; [exact Hj|]; by intros e [? _]|].
    eapply Forall2_impl; [exact Hts|]. by intros e t [? _].
  - apply object_reads; [eapply Forall_impl; [exact Hj|]; by intros e [[? _] _]|done|].
    eapply Forall2_impl; [exact Hts|]. by intros e t [_ ?].
Qed.

Lemma foldr_Forall {A} (Q : A -> Prop) (l : list A) : foldr (fun x R => Q x /\ R) True l -> Forall Q l.
Proof. induction l as [|x l IH]; cbn; [by constructor|]. intros [? ?]. constructor; auto. Qed.

(** Every such value has a text, which reads back as its image. *)
Lemma json_text stack depth v : jsonable v -> (Values.depth v <= stack)%nat ->
  exists text, textOf stack depth v text.
Proof.
  revert depth v. induction stack as [|stack IH]; intros depth v Hv Hd; [by destruct v; cbn in Hd; lia|].
  destruct (jsonable_proper v Hv) as [[w ->]|[Hprop Hw]]; [by apply word_text|].
  unfold textOf. rewrite proper_value by done.
  assert (Hitems : forall v items, jsonItems v = Some items -> foldr (fun v R => jsonable v /\ R) True items ->
      (list_max (map Values.depth items) <= stack)%nat ->
      exists text, writes (writeSequence opts (writeValue opts stack) depth items) text /\ reads (S stack) text v).
  { intros u items Hu Hj. apply items_text; [auto|done|by apply foldr_Forall]. }
  destruct v; cbn in Hd; try done; cbn [integerOf]; try (by destruct (Hw w)).
  - destruct Hv as [_ Hv]. eexists. split; [apply writes_ret|]. by apply reads_text; [|constructor].
  - destruct Hv as [_ Hv]. eexists. split; [apply writes_ret|]. apply json_integer. unfold integerIs.
    rewrite Hv. intros v' [b ->]. constructor.
  - destruct Hv as [_ Hv]. apply Hitems; [done|done|lia].
  - destruct Hv as [_ Hv]. apply Hitems; [done|done|lia].
  - destruct Hv as [_ Hv]. apply Hitems; [done|done|lia].
  - destruct Hv as (_ & Hnd & Hv). apply map_text; [auto| |done|].
    { clear -Hv. induction entries as [|e es IH]; cbn in *; constructor; tauto. }
    apply le_S_n in Hd. rewrite list_max_le, Forall_map in Hd.
    eapply Forall_impl; [exact Hd|]. cbn. lia.
  - destruct Hv as [_ Hv]. apply Hitems; [done| |].
    + clear -Hv. by induction elements as [|e es IH]; cbn in *; [|intuition auto].
    + apply le_S_n in Hd. rewrite list_max_le, !Forall_map in *. eapply Forall_impl; [exact Hd|]. cbn. lia.
  - destruct Hv as [_ Hv]. eexists. split; [apply writes_ret|]. by apply reads_text; [|constructor].
Qed.

End Image.

Context `{!HashedLaws}.

(** A text that reads as a value, read as the whole of a string. *)
Lemma whole_reads opts ropts stack text v f reject eof w : reads opts ropts stack text v ->
  exists v' w', readJson (stringTurns text) stack (stringSource text) ropts f reject eof w = (Ok v', w') /\
    image opts ropts v v'.
Proof.
  intros (Hne & Hink & _ & _ & _ & Hread).
  assert (Hp : parses (readValue (stringTurns text) ropts stack f reject eof) text
      (any (image opts ropts v)) []).
  { unfold readValue. eapply parses_step with (r := text) (a := true); [|apply any_back|].
    - unfold more. eapply parses_then; [apply (parses_skip _ [] text); [done|done|cbn; unfold stringTurns; lia]|].
      eapply parses_then; [apply parses_peek_head|]. destruct text; [done|apply parses_ret].
    - cbn [negb]. eapply parses_any with (r := []).
      + specialize (Hread (stringTurns text) [] []). cbn [app] in Hread. rewrite app_nil_r in Hread.
        apply Hread; [done|done|unfold stringTurns; lia].
      + intros v' Hv'. destruct reject; [|by apply parses_value].
        eapply parses_step with (r := []) (a := false); [|apply any_back|by apply parses_value].
        unfold more. eapply parses_then; [apply (parses_skip _ [] []); [done|done|cbn; unfold stringTurns; lia]|].
        eapply parses_then; [apply parses_peek_end|apply parses_ret]. }
  destruct (Hp (mkState (stringSource text) w)) as (v' & st & E & _ & _ & Hv'); [done|].
  exists v', (world st). split; [|done]. unfold readJson. by rewrite E.
Qed.

(** C13. Write and read back, with any of the options but functions of keys and values:
    a value of nil, booleans, integers of any size, strings, keywords, symbols,
    sequences, sets and maps, nested no deeper than the stack, is written as a text of
    whole characters, whose reading neither runs out of turns nor fails and answers the
    value's image: itself, its sequences and sets as vectors, its names as strings, its
    maps with the same entries under the keys asked for. The texts are of whole
    characters, and a map's keys are those that stay different when read: as texts, and as
    keywords, which end at a NUL character, as texts up to it; cheshire's key of nil is
    the empty text, and data.json has none. *)
Theorem json_round_trip stack opts ropts f reject eof v :
  writeKeyFn opts = None -> (forall fn, keys ropts <> Fn fn) -> valueFn ropts = None ->
  jsonable opts ropts v -> (depth v <= stack)%nat ->
  exists text, (forall w, writeJson stack v opts w = (Ok text, w)) /\ validText text /\
    forall w, exists v' w', readJson (stringTurns text) stack (stringSource text) ropts f reject eof w = (Ok v', w') /\
      image opts ropts v v'.
Proof.
  intros Hfn Hkeys Hvalue Hv Hd.
  destruct (json_text opts ropts Hkeys Hvalue Hfn stack 0 v Hv Hd) as (text & Hw & Hr).
  exists text. split; [exact Hw|]. split; [apply Hr|]. intros w. by apply whole_reads.
Qed.

Definition generateOptions : WriteOptions := mkWriteOptions Cheshire false false false false None.
Definition writeStrOptions : WriteOptions := mkWriteOptions DataJson false true true true None.

(** What a function that answers a new string does with the text. *)
Lemma written_text text w : validText text ->
  written text w = (Ok (Str (heapTop w) text), setHeapTop (heapTop w + 64) w).
Proof. intros Ht. unfold written, allocateIn, utf8Text. by rewrite text_kept. Qed.

(** cheshire.core's [generate-string] and [parse-string], and clojure.data.json's
    [write-str] and [read-str], are inverse on these values up to the image, with the
    options each has by default. *)
Theorem json_functions_round_trip stack v w :
  hasCallContext = true -> heapTop w <> noneWord -> (depth v <= stack)%nat ->
  (jsonable generateOptions defaultReadOptions v ->
   exists s w1 v' w2, prim_generate_string stack [v] w = (Ok s, w1) /\
     prim_parse_string stack [s] w1 = (Ok v', w2) /\ image generateOptions defaultReadOptions v v') /\
  (jsonable writeStrOptions defaultReadOptions v ->
   exists s w1 v' w2, prim_write_str stack [v] w = (Ok s, w1) /\
     prim_read_str stack [s] w1 = (Ok v', w2) /\ image writeStrOptions defaultReadOptions v v').
Proof.
  intros Hcc Hw Hd.
  assert (Htext : forall opts, writeKeyFn opts = None -> jsonable opts defaultReadOptions v ->
      exists text, textOf opts defaultReadOptions stack 0 v text).
  { intros opts Hfn Hv. by apply json_text. }
  assert (Hnone : same PROTO_NONE PROTO_NONE = true) by apply Z.eqb_refl.
  assert (Hctx : forall who w, callContext (S := W) (exn := exn) who w = (Ok tt, w))
    by (intros; unfold callContext; by rewrite Hcc).
  split; intros Hv.
  - destruct (Htext generateOptions eq_refl Hv) as (text & Hwrite & Hr).
    exists (Str (heapTop w) text), (setHeapTop (heapTop w + 64) w).
    destruct (whole_reads _ _ stack text v Cheshire false (Some PROTO_NONE) (setHeapTop (heapTop w + 64) w) Hr)
      as (v' & w' & Hread & Hi). exists v', w'. split_and!; [| |done].
    + unfold prim_generate_string, cheshireWriteOptions, someTruthy, truthy, mbind, E_bind. cbn.
      rewrite Hctx. unfold argAt. cbn. rewrite !Hnone. cbn. rewrite ?Hnone. cbn.
      unfold writeJson. rewrite Hwrite. by apply written_text, Hr.
    + unfold prim_parse_string, mbind, E_bind. cbn. rewrite Hctx. unfold argAt. cbn.
      unfold same. cbn. by rewrite (proj2 (Z.eqb_neq _ _) Hw).
  - destruct (Htext writeStrOptions eq_refl Hv) as (text & Hwrite & Hr).
    exists (Str (heapTop w) text), (setHeapTop (heapTop w + 64) w).
    destruct (whole_reads _ _ stack text v DataJson true None (setHeapTop (heapTop w + 64) w) Hr)
      as (v' & w' & Hread & Hi). exists v', w'. split_and!; [| |done].
    + unfold prim_write_str, dataJsonWriteOptions, someTruthy, truthy, mbind, E_bind. cbn.
      rewrite Hctx. cbn. rewrite Hnone. cbn. unfold writeJson. rewrite Hwrite. by apply written_text, Hr.
    + unfold prim_read_str, dataJsonReadOptions, setKeyFn, truthy, mbind, E_bind. cbn.
      rewrite Hctx. cbn. rewrite !Hnone. cbn. rewrite ?Hnone. cbn. exact Hread.
Qed.

End RoundTrip.

Module Examples.
Import KeyEquality.ListMaps DemoReader.Demo DemoJson.Demo.

#[local] Instance demoNumerals : NumeralLaw.
Proof. intros z. apply to_string_value. Qed.

(** A spelling's address is its bijective numeral in base 257. *)
Definition spellingCode (s : bytes) : Z := fold_left (fun h c => h * 257 + u8 c + 1) s 0.

Lemma spellingCode_snoc s c : spellingCode (s ++ [c]) = spellingCode s * 257 + u8 c + 1.
Proof. unfold spellingCode. by rewrite fold_left_app. Qed.

Lemma spellingCode_nonneg s : 0 <= spellingCode s.
Proof.
  induction s as [|c s IH] using rev_ind; [done|]. rewrite spellingCode_snoc.
  pose proof (u8_range c). lia.
Qed.

Lemma spellingCode_inj s t : spellingCode s = spellingCode t -> s = t.
Proof.
  revert t. induction s as [|c s IH] using rev_ind; intros t; destruct t as [|d t _] using rev_ind;
    rewrite ?spellingCode_snoc; try done; intros E.
  - pose proof (spellingCode_nonneg t). pose proof (u8_range d). change (spellingCode []) with 0 in E. lia.
  - pose proof (spellingCode_nonneg s). pose proof (u8_range c). change (spellingCode []) with 0 in E. lia.
  - pose proof (u8_range c). pose proof (u8_range d).
    assert (u8 c = u8 d) as Ec by lia. rewrite (IH t) by lia. by rewrite <- (chr_u8 c), <- (chr_u8 d), Ec.
Qed.

#[local] Instance demoFormatsLaws : FormatsLaws (W := demoWorld) (exn := bytes).
Proof.
  split; [done| |done]. intros s t E. apply spellingCode_inj.
  cbn in E. change (2 ^ 64 + 64 * spellingCode s = 2 ^ 64 + 64 * spellingCode t) in E. lia.
Qed.

(** A map of a keyword to a vector, of a string to a set, with a quote, a newline, a
    character beyond ASCII and integers of both sizes. *)
Definition demoValue : obj :=
  MapObj 64 [(internNamed (s2b ":a/b"), Vec 128 [Embedded (smallIntWord (-12)); Big 192 (2 ^ 70); PROTO_TRUE]);
             (Str 256 (s2b "k"), SetObj 320 [(Str 384 ([x22; x0a] ++ encodeUtf8 0x2028), PROTO_NONE)])].

Lemma demo_text s : forallb (fun c => u8 c <? 0x80) s = true -> validText s.
Proof. intros Hs. apply validText_ascii, List.Forall_forall. intros c Hc. rewrite forallb_forall in Hs. specialize (Hs c Hc). lia. Qed.

Lemma demo_string : validText ([x22; x0a] ++ encodeUtf8 0x2028).
Proof. exists [0x22; 0x0A; 0x2028]. split; [repeat constructor; unfold scalar; lia|done]. Qed.

Lemma demo_jsonable opts ropts : jsonable opts ropts demoValue.
Proof.
  cbn. split; [done|]. split.
  - constructor; [|constructor; [|constructor]]; [|intros Hin; by inversion Hin].
    intros Hin. apply list_elem_of_singleton in Hin. revert Hin. unfold keyRead, cut. cbn. unfold namedText. by destruct (flavor opts), (keys ropts).
  - split_and!; try done.
    + split; [|done]. apply demo_text. cbn. unfold namedText. by destruct (flavor opts).
    + right; right; right. by exists (-12).
    + by right; left.
    + split; [by apply demo_text|done].
    + apply demo_string.
Qed.

(** Two keys of an object that a NUL character tells apart are one keyword: the text
    of a, NUL, b is read as [:a]. *)
Definition nulKey : bytes := s2b "{" ++ [x22] ++ s2b "a\u0000b" ++ [x22] ++ s2b ":1}".

Example nul_key_cut :
  match fst (readJson (W := demoWorld) (stringTurns nulKey) 3 (stringSource nulKey)
               (mkReadOptions Keywords None) Cheshire true None (startWorld [])) with
  | Ok (MapObj _ es) => es = [(internNamed (s2b ":a"), Embedded (smallIntWord 1))]
  | _ => False
  end.
Proof. vm_compute. reflexivity. Qed.

Example json_round_trip_witness :
  let opts := mkWriteOptions Cheshire true true false false None in
  exists text, (forall w, writeJson 3 demoValue opts w = (Ok text, w)) /\ validText text /\
    forall w, exists v' w', readJson (W := demoWorld) (stringTurns text) 3 (stringSource text)
        (mkReadOptions Keywords None) Cheshire true None w = (Ok v', w') /\
      image opts (mkReadOptions Keywords None) demoValue v'.
Proof.
  exact (json_round_trip 3 (mkWriteOptions Cheshire true true false false None) (mkReadOptions Keywords None)
    Cheshire true None demoValue eq_refl (fun fn (E : Keywords = Fn fn) => match E with end) eq_refl
    (demo_jsonable _ _) ltac:(cbn; lia)).
Defined.

Example json_functions_round_trip_witness :
  exists s w1 v' w2, prim_write_str 3 [demoValue] (startWorld []) = (Ok s, w1) /\
    prim_read_str 3 [s] w1 = (Ok v', w2) /\ image writeStrOptions defaultReadOptions demoValue v'.
Proof.
  exact (proj2 (json_functions_round_trip 3 demoValue (startWorld []) eq_refl ltac:(done) ltac:(cbn; lia))
    (demo_jsonable _ _)).
Defined.

End Examples.
