(* ===== verification/JsonSafety.v ===== *)
(** Reading JSON ends (runtime/Json.cpp): over a string, no loop of the parser runs out
    of turns, whatever the text; over a stream, what a string that goes on over a line
    end is read as. *)

From S2P Require Import Prelude Values Lexer Maps Exceptions Printer Reader DemoReader DataFormats Json DemoJson JsonFacts.

#[local] Set Warnings "-register-all".

Section Safety.
Context {W exn : Type} `{FormatsEnv W exn}.

#[local] Abbreviation P := (E (@jsonError exn) (@jstate W)).

(** ** Weakest preconditions

    [m] from [st] answers as [Q] says, or raises anything but [NoTurns]. *)
Definition meets {A} (m : P A) (st : @jstate W) (Q : A -> @jstate W -> Prop) : Prop :=
  match m st with
  | (Ok a, st') => Q a st'
  | (Throw e, _) => e <> FormatError NoTurns
  end.

Lemma meets_bind {A B} (m : P A) (k : A -> P B) st Q :
  meets m st (fun a st' => meets (k a) st' Q) -> meets (m ≫= k) st Q.
Proof. unfold meets, mbind, E_bind. by destruct (m st) as [[a|e] st']. Qed.

Lemma meets_ret {A} (a : A) st (Q : A -> @jstate W -> Prop) : Q a st -> meets (mret a) st Q.
Proof. done. Qed.

Lemma meets_fail {A} what st (Q : A -> @jstate W -> Prop) : meets (fail what) st Q.
Proof. done. Qed.

Lemma meets_weaken {A} (m : P A) st (Q Q' : A -> @jstate W -> Prop) :
  meets m st Q -> (forall a st', Q a st' -> Q' a st') -> meets m st Q'.
Proof. unfold meets. destruct (m st) as [[a|e] st']; auto. Qed.

(** How much of the text is left. *)
Definition left (st : @jstate W) : nat := length (data (src_ st)).

(** A string's source: nothing to refill it from. *)
Definition still (st : @jstate W) : Prop := fd_ (src_ st) = None.

(** From [st] to [st'] at least [k] characters have gone. *)
Definition past (k : nat) (st st' : @jstate W) : Prop := still st' /\ (left st' + k <= left st)%nat.

Lemma past_refl st : still st -> past 0 st st.
Proof. split; [done|lia]. Qed.

Lemma meets_peek st Q : still st ->
  match data (src_ st) with [] => Q None st | c :: _ => Q (Some c) st end -> meets peek st Q.
Proof.
  intros Hs HQ. unfold meets, peek, mbind, E_bind, refill. by destruct (data (src_ st)); rewrite ?Hs.
Qed.

(** A character is seen, or the end. *)
Lemma meets_see {A} st (k : option byte -> P A) Q : still st ->
  (left st = 0%nat -> meets (k None) st Q) -> (forall c, (0 < left st)%nat -> meets (k (Some c)) st Q) ->
  meets (peek ≫= k) st Q.
Proof.
  intros Hs Hn Hc. apply meets_bind, meets_peek; [done|]. unfold left in *.
  destruct (data (src_ st)); [by apply Hn|apply Hc; cbn; lia].
Qed.

Lemma meets_skipBytes {A} n st (k : unit -> P A) Q : still st -> (n <= left st)%nat ->
  (forall st', past n st st' -> meets (k tt) st' Q) -> meets (onSource (skip n) ≫= k) st Q.
Proof.
  intros Hs Hn Hk. apply meets_bind, Hk. split; [exact Hs|]. unfold left, data in *. cbn.
  rewrite !length_drop in *. lia.
Qed.

Lemma meets_advance {A} st (k : unit -> P A) Q : still st -> (0 < left st)%nat ->
  (forall st', past 1 st st' -> meets (k tt) st' Q) -> meets (onSource advance ≫= k) st Q.
Proof.
  intros Hs Hn Hk. apply (meets_skipBytes 1) in Hk; [|done|lia].
  revert Hk. unfold meets, mbind, E_bind, onSource, update. unfold skip, advance.
  by rewrite (Nat.add_1_r (pos_ (src_ st))).
Qed.

Lemma meets_advance_last st Q : still st -> (0 < left st)%nat ->
  (forall st', past 1 st st' -> Q tt st') -> meets (onSource advance) st Q.
Proof. intros Hs Hn HQ. exact (meets_advance st mret Q Hs Hn HQ). Qed.

Lemma meets_newline {A} st (k : unit -> P A) Q : still st ->
  (forall st', past 0 st st' -> meets (k tt) st' Q) -> meets (onSource newline ≫= k) st Q.
Proof. intros Hs Hk. apply meets_bind, Hk. split; [done|]. unfold left. cbn. unfold data. cbn. lia. Qed.

(** Something on the world leaves the source. *)
Lemma meets_world {A} (m : W -> result exn A * W) st Q : still st ->
  (forall a st', past 0 st st' -> Q a st') -> meets (onWorld (lifted m)) st Q.
Proof.
  intros Hs HQ. unfold meets, onWorld, lifted. destruct (m (world st)) as [[a|e] w]; [|done].
  apply HQ. split; [done|]. unfold left. cbn. lia.
Qed.

Lemma meets_allocate {A} st (k : Z -> P A) Q : still st ->
  (forall a st', past 0 st st' -> meets (k a) st' Q) -> meets (allocate ≫= k) st Q.
Proof. intros Hs Hk. apply meets_bind, Hk. split; [done|]. unfold left. cbn. lia. Qed.

(** [m], from a string's source with at most [n] characters left, consumes at least [k]
    of them. *)
Definition ends (n k : nat) {A} (m : P A) : Prop := forall st, still st -> (left st <= n)%nat ->
  meets m st (fun _ st' => past k st st').

Lemma meets_ends {A B} (m : P A) n j (k : A -> P B) st Q : ends n j m -> still st -> (left st <= n)%nat ->
  (forall a st', past j st st' -> meets (k a) st' Q) -> meets (m ≫= k) st Q.
Proof.
  intros Hm Hs Hn Hk. apply meets_bind. eapply meets_weaken; [by apply Hm|]. intros a st' Hp. by apply Hk.
Qed.

End Safety.

(** What is known of the states so far. *)
Ltac pasts := unfold ends in *; repeat match goal with
  | Hp : past _ _ _ |- _ => destruct Hp as [? ?]
  end; try done; try lia.

(** Which way a test goes; the end is no character. *)
Ltac branch b := let Hb := fresh "Hb" in destruct b eqn:Hb;
  try (exfalso; first [discriminate Hb | apply bool_decide_eq_true in Hb; discriminate Hb]).

(** A step of a computation. *)
Ltac step := match goal with
  | |- meets (mret _) _ _ => apply meets_ret; try (split; [by pasts|by pasts])
  | |- meets (fail _) _ _ => apply meets_fail
  | |- meets (unrecognized _) _ _ => apply meets_fail
  | |- meets (peek ≫= _) _ _ => apply meets_see; [by pasts|intros ?|intros ? ?]
  | |- meets (onSource advance ≫= _) _ _ => apply meets_advance; [by pasts|by pasts|intros ? ?]
  | |- meets (onSource advance) _ _ => apply meets_advance_last; [by pasts|by pasts|intros ? ?]
  | |- meets (onSource newline ≫= _) _ _ => apply meets_newline; [by pasts|intros ? ?]
  | |- meets (allocate ≫= _) _ _ => apply meets_allocate; [by pasts|intros ? ? ?]
  | |- meets (mret _ ≫= _) _ _ => apply meets_bind, meets_ret
  | |- meets ((_ ≫= _) ≫= _) _ _ => apply meets_bind
  | |- meets ((if ?b then _ else _) ≫= _) _ _ => branch b
  | |- meets (if ?b then _ else _) _ _ => branch b
  | |- meets (let '(_, _) := ?a in _) _ _ => destruct a
  | |- past _ _ _ => split; by pasts
  end; cbn beta iota.

Section Loops.
Context {W exn : Type} `{FormatsEnv W exn}.

#[local] Abbreviation P := (E (@jsonError exn) (@jstate W)).

(** ** The loops *)

Lemma takeWhile_ends turns p : forall n acc, (n < turns)%nat -> ends (W := W) (exn := exn) n 0 (takeWhile turns p acc).
Proof.
  induction turns as [|turns IH]; intros n acc Hn st Hs Hl; [lia|]. cbn [takeWhile].
  step; [by step|]. step; [|by step]. step.
  eapply meets_weaken; [apply (IH (pred n)); pasts|]. intros a st2 Hp. step.
Qed.

Lemma skipWhitespace_ends turns : forall n, (n < turns)%nat -> ends (W := W) (exn := exn) n 0 (skipWhitespace turns).
Proof.
  induction turns as [|turns IH]; intros n Hn st Hs Hl; [lia|]. cbn [skipWhitespace].
  step; [by step|].
  assert (Hgo : forall st1, past 1 st st1 -> meets (W := W) (exn := exn) (skipWhitespace turns) st1 (fun _ st' => past 0 st st')).
  { intros st1 Hp. eapply meets_weaken; [apply (IH (pred n)); pasts|]. intros a st2 Hp2. step. }
  destruct (decide (c = x0a)) as [->|]; [step; step; apply Hgo; step|].
  destruct (decide (c = " "%byte \/ c = x09 \/ c = x0d)) as [[->|[-> | ->]]|]; [by step; apply Hgo..|].
  destruct c; first [by step | tauto | done].
Qed.

End Loops.

Create HintDb ends.
#[export] Hint Resolve takeWhile_ends skipWhitespace_ends : ends.

(** A computation whose lemma is known. *)
Lemma meets_known {W exn} `{FormatsEnv W exn} {A} (m : E (@jsonError exn) (@jstate W) A) n k st Q :
  ends n k m -> still st -> (left st <= n)%nat -> (forall a st', past k st st' -> Q a st') -> meets m st Q.
Proof. intros Hm Hs Hl HQ. eapply meets_weaken; [by apply Hm|auto]. Qed.

Ltac known := match goal with
  | |- meets (_ ≫= _) _ _ => eapply meets_ends; [solve [eauto with ends]|by pasts|by pasts|intros ? ? ?]
  | |- meets _ _ _ => eapply meets_known; [solve [eauto with ends]|by pasts|by pasts|intros ? ? ?]
  end; cbn beta iota.

Ltac go := repeat first [step | known].

Section Parts.
Context {W exn : Type} `{FormatsEnv W exn} (turns n : nat) (Hturns : (n < turns)%nat) (opts : ReadOptions).

#[local] Abbreviation P := (E (@jsonError exn) (@jstate W)).
#[local] Abbreviation ends := (ends (W := W) (exn := exn) n).

Lemma describeCurrent_ends : ends 0 describeCurrent.
Proof. intros st Hs Hl. unfold describeCurrent. go. Qed.

#[local] Hint Resolve describeCurrent_ends : ends.

Lemma word_ends w seen : ends 0 (word turns w seen).
Proof.
  revert seen. induction w as [|p w IH]; intros seen st Hs Hl; cbn [word]; go.
Qed.

Lemma digits_ends t error : ends 1 (digits turns t error).
Proof.
  intros st Hs Hl. unfold digits. apply meets_bind, meets_peek; [done|].
  destruct (data (src_ st)) as [|c s] eqn:Ed; [done|]. cbn [test]. destruct (is_digit c) eqn:Ec; [|done].
  destruct turns as [|turns']; [lia|]. cbn [takeWhile]. apply meets_bind, meets_peek; [done|]. rewrite Ed, Ec.
  assert (0 < left st)%nat by (unfold left; rewrite Ed; cbn; lia). step.
  eapply meets_known; [apply (takeWhile_ends _ _ (pred n)); lia|pasts..|]. intros a st2 Hp2. go.
Qed.

#[local] Hint Resolve word_ends digits_ends : ends.

Lemma integerPart_ends t : ends 1 (integerPart turns t).
Proof. intros st Hs Hl. unfold integerPart. go. Qed.

Lemma fraction_ends t : ends 0 (fraction turns t).
Proof. intros st Hs Hl. unfold fraction. go. Qed.

Lemma exponent_ends t b : ends 0 (exponent turns t b).
Proof. intros st Hs Hl. unfold exponent. go.
  apply meets_bind, (meets_weaken _ _ (fun _ st2 => past 0 st' st2)); [destruct c0; go|intros t2 st2 Hp2; go].
Qed.

#[local] Hint Resolve integerPart_ends fraction_ends exponent_ends : ends.

Lemma integerValue_ends z : ends 0 (integerValue z).
Proof. intros st Hs Hl. unfold integerValue. go. Qed.

#[local] Hint Resolve integerValue_ends : ends.

Lemma number_ends : ends 1 (number turns).
Proof. intros st Hs Hl. unfold number. go. Qed.

Lemma hex4_ends k v : ends 0 (hex4 k v).
Proof.
  revert v. induction k as [|k IH]; intros v st Hs Hl; cbn [hex4]; go.
  destruct (hex_digit c); go.
Qed.

#[local] Hint Resolve hex4_ends : ends.

Lemma unicodeEscape_ends : ends 0 unicodeEscape.
Proof. intros st Hs Hl. unfold unicodeEscape, unpaired. go. Qed.

#[local] Hint Resolve unicodeEscape_ends : ends.

Lemma escape_ends e : ends 0 (escape e).
Proof. intros st Hs Hl. unfold escape. destruct e; go. Qed.

#[local] Hint Resolve number_ends escape_ends : ends.

Lemma plainRun_length s : (length (plainRun s) <= length s)%nat.
Proof. induction s as [|c s IH]; cbn; [lia|]. destruct (plain c); cbn; lia. Qed.

Lemma string_ends_at turns' : forall k out, (k < turns')%nat -> (k <= n)%nat ->
  JsonSafety.ends (W := W) (exn := exn) k 1 (string_ turns' out).
Proof.
  induction turns' as [|turns' IH]; intros k out Hk Hkn st Hs Hl; [lia|]. cbn [string_].
  apply meets_bind. unfold meets at 1, look. apply meets_skipBytes; [done|apply plainRun_length|]. intros st1 Hp1.
  assert (Hgo : forall st2 out2, past 1 st st2 ->
      meets (W := W) (exn := exn) (string_ turns' out2) st2 (fun _ st' => past 1 st st')).
  { intros st2 out2 Hp. eapply meets_known; [apply (IH (pred k)); pasts|pasts..|]. intros a st3 Hp3. go. }
  go; apply Hgo; go.
Qed.

Lemma string_ends out : ends 1 (string_ turns out).
Proof. by apply string_ends_at. Qed.

Lemma newString_ends text : ends 0 (newString text).
Proof. intros st Hs Hl. unfold newString. go. Qed.

#[local] Hint Resolve string_ends newString_ends : ends.

Lemma onWorld_ends A (m : W -> result exn A * W) : ends 0 (onWorld (lifted m)).
Proof. intros st Hs Hl. apply meets_world; [done|]. auto. Qed.

#[local] Hint Resolve onWorld_ends : ends.

Lemma makeKey_ends text : ends 0 (makeKey opts text).
Proof. intros st Hs Hl. unfold makeKey. destruct (keys opts); go. Qed.

#[local] Hint Resolve makeKey_ends : ends.

Lemma entryKey_ends text : ends 0 (entryKey opts text).
Proof. intros st Hs Hl. unfold entryKey. destruct (keys opts); go. Qed.

Lemma entryValue_ends k v : ends 0 (entryValue opts k v).
Proof. intros st Hs Hl. unfold entryValue. destruct (valueFn opts); go. Qed.

Lemma expect_ends c what : ends 1 (expect c what).
Proof. intros st Hs Hl. unfold expect. go. Qed.

#[local] Hint Resolve entryKey_ends entryValue_ends expect_ends : ends.

(** A computation that reads a value, whatever is left. *)
Section Containers.
Context (value : P obj) (Hvalue : ends 1 value).

#[local] Hint Resolve Hvalue : ends.

Lemma skip_ends : ends 0 (skipWhitespace turns).
Proof. by apply skipWhitespace_ends. Qed.

#[local] Hint Resolve skip_ends : ends.

Lemma elements_at m : forall k items, (k < m)%nat -> (k <= n)%nat ->
  JsonSafety.ends (W := W) (exn := exn) k 1 (elements turns value m items).
Proof.
  induction m as [|m IH]; intros k items Hk Hkn st Hs Hl; [lia|]. cbn [elements]. go.
  match goal with |- meets _ ?st1 ?Q => assert (Hother : meets (W := W) (exn := exn)
    (found ← describeCurrent; fail (A := list obj) (s2b "expected ',' or ']' in an array, found " ++ found)) st1 Q) by go end.
  destruct c; first [exact Hother|go]. eapply meets_known; [apply (IH (pred k)); pasts|pasts..|]. intros b stb Hpb. go.
Qed.

Lemma elements_ends items : ends 1 (elements turns value turns items).
Proof. by apply elements_at. Qed.

Lemma members_at m : forall k es kv, (k < m)%nat -> (k <= n)%nat ->
  JsonSafety.ends (W := W) (exn := exn) k 1 (members turns opts value m es kv).
Proof.
  induction m as [|m IH]; intros k es kv Hk Hkn st Hs Hl; [lia|]. cbn [members]. go.
  match goal with |- meets _ ?st1 ?Q => assert (Hother : meets (W := W) (exn := exn)
    (found ← describeCurrent; fail (A := entries) (s2b "expected ',' or '}' in an object, found " ++ found)) st1 Q) by go end.
  destruct c0; first [exact Hother|go]. eapply meets_known; [apply (IH (pred k)); pasts|pasts..|]. intros b stb Hpb. go.
Qed.

Lemma members_ends es kv : ends 1 (members turns opts value turns es kv).
Proof. by apply members_at. Qed.

#[local] Hint Resolve elements_ends members_ends : ends.

Lemma array_ends : ends 0 (array turns value).
Proof. intros st Hs Hl. unfold array. go. Qed.

Lemma object_ends : ends 0 (object turns opts value).
Proof. intros st Hs Hl. unfold object. go. Qed.

End Containers.

Lemma word_one p w : ends 1 (word turns (p :: w) []).
Proof. intros st Hs Hl. cbn [word]. go. Qed.

Lemma value_ends stack : ends 1 (value turns opts stack).
Proof.
  induction stack as [|stack IH]; intros st Hs Hl; cbn [value]; [done|].
  pose proof (array_ends _ IH) as Harray. pose proof (object_ends _ IH) as Hobject.
  assert (Hskip : ends 0 (skipWhitespace turns)) by apply skip_ends.
  pose proof (word_one "t"%byte (s2b "rue") : ends 1 (word turns (s2b "true") [])) as Htrue.
  pose proof (word_one "f"%byte (s2b "alse") : ends 1 (word turns (s2b "false") [])) as Hfalse.
  pose proof (word_one "n"%byte (s2b "ull") : ends 1 (word turns (s2b "null") [])) as Hnull.
  known. step; [by step|].
  assert (Hother : meets (W := W) (exn := exn)
    (if (c =? "-")%byte || is_digit c then number turns
     else if is_alpha c then tok ← takeWhile turns is_alnum []; unrecognized tok
     else found ← describeCurrent; fail (s2b "unexpected " ++ found ++ s2b ", expected a value"))
    st' (fun _ st2 => past 1 st st2)) by go.
  destruct c; first [exact Hother | go].
Qed.

Lemma readValue_ends stack f reject eof : ends 0 (readValue turns opts stack f reject eof).
Proof.
  assert (Hskip : ends 0 (skipWhitespace turns)) by apply skip_ends.
  pose proof (value_ends stack) as Hv.
  assert (Hmore : ends 0 (more turns)) by (intros st Hs Hl; unfold more; go).
  intros st Hs Hl. unfold readValue. go. destruct eof; go.
Qed.

End Parts.

Section Reading.
Context {W exn : Type} `{FormatsEnv W exn}.

#[local] Abbreviation F := (E (formatError exn) W).

(** [m] does not run out of turns. *)
Definition enough {A} (m : F A) : Prop := forall w, fst (m w) <> Throw NoTurns.

Lemma enough_bind {A B} (m : F A) (k : A -> F B) : enough m -> (forall a, enough (k a)) -> enough (m ≫= k).
Proof.
  intros Hm Hk w. unfold mbind, E_bind. specialize (Hm w).
  destruct (m w) as [[a|e] w']; [apply Hk|]. intros [= ->]. by apply Hm.
Qed.

Lemma enough_lifted {A} (m : W -> result exn A * W) : enough (lifted m).
Proof. intros w. unfold lifted. by destruct (m w) as [[a|e] w']. Qed.

Lemma enough_readJson text stack o f reject eof :
  enough (readJson (stringTurns text) stack (stringSource text) o f reject eof).
Proof.
  intros w. unfold readJson.
  pose proof (readValue_ends (stringTurns text) (length text) ltac:(unfold stringTurns; lia) o stack f reject eof
    (mkState (stringSource text) w) eq_refl ltac:(done)) as Hr.
  unfold meets in Hr. destruct (readValue _ _ _ _ _ _ _) as [[v|[message|e]] st]; [done|done|].
  intros [= ->]. by apply Hr.
Qed.

Create HintDb enough.
#[local] Hint Resolve enough_bind enough_lifted enough_readJson : enough.

Lemma enough_setKeyFn fn o : enough (setKeyFn fn o).
Proof. intros w. unfold setKeyFn. by destruct (negb _). Qed.

Lemma enough_callContext who : enough (callContext (S := W) (exn := exn) who).
Proof. intros w. unfold callContext, throwError. destruct hasCallContext; [done|].
  by destruct (classFromText (who ++ _)). Qed.

Lemma enough_stringArg v who : enough (stringArg (S := W) (exn := exn) v who).
Proof. intros w. by destruct v. Qed.

Lemma enough_pairOptions args from who : enough (pairOptions args from who).
Proof. intros w. unfold pairOptions. destruct (drop from args); [done|]. by destruct (mapAssocPairs _ _ _). Qed.

(** Reading from a string ends: [parse-string] and [read-str], whatever their
    arguments and the functions they are given, never stop for want of turns, when
    their loops have as many as the text has characters and one more. *)
Theorem string_reading_ends stack args w :
  fst (prim_parse_string stack args w) <> Throw NoTurns /\
  fst (prim_read_str stack args w) <> Throw NoTurns.
Proof.
  split; revert w.
  - change (enough (prim_parse_string stack args)). unfold prim_parse_string.
    destruct (_ || _); [done|]. apply enough_bind; [apply enough_callContext|]. intros _.
    destruct (same _ _); [done|]. apply enough_bind; [intros w; unfold arrayCoerce; by destruct (_ && _)|].
    intros _. apply enough_bind; [|intros o; apply enough_bind; [apply enough_stringArg|intros text; apply enough_readJson]].
    unfold keyOption. destruct (_ <=? _)%nat; [apply enough_setKeyFn|done].
  - change (enough (prim_read_str stack args)). unfold prim_read_str.
    destruct (_ <? _)%nat; [done|]. apply enough_bind; [apply enough_callContext|]. intros _.
    apply enough_bind; [apply enough_pairOptions|]. intros opts. apply enough_bind.
    + unfold dataJsonReadOptions. apply enough_bind; [apply enough_setKeyFn|]. intros o. by destruct (truthy _).
    + intros [o eof]. apply enough_bind; [apply enough_stringArg|intros text; apply enough_readJson].
Qed.

End Reading.

Section Streams.
Context {W exn : Type} `{FormatsEnv W exn}.

#[local] Abbreviation P := (E (@jsonError exn) (@jstate W)).

(** What the contents of a string go on as after a backslash. *)
Definition afterBackslash (turns : nat) (out : bytes) : P bytes :=
  e ← peek;
  match e with
  | None => fail (s2b "unexpected end of input inside a string")
  | Some e => _ ← onSource advance; s ← escape e; string_ turns (out ++ s)
  end.

Lemma plainRun_stops run s : Forall (fun c => plain c = true) run ->
  match s with c :: _ => plain c = false | [] => True end -> plainRun (run ++ s) = run.
Proof.
  intros Hr Hs. induction Hr as [|c run Hc _ IH]; cbn.
  - destruct s as [|c s]; [done|]. cbn. by rewrite Hs.
  - by rewrite Hc, IH.
Qed.

(** The contents up to a line end, the last of the buffer. *)
Lemma string_at_line_end turns out st run : data (src_ st) = run ++ [x0a] ->
  Forall (fun c => plain c = true) run -> exists st1,
  string_ (S turns) out st = string_ turns (out ++ run ++ [x0a]) st1 /\
  data (src_ st1) = [] /\ line_ (src_ st1) = line_ (src_ st) + 1 /\ fd_ (src_ st1) = fd_ (src_ st) /\
  eof_ (src_ st1) = eof_ (src_ st) /\ world st1 = world st.
Proof.
  intros Hd Hrun. exists (set_src (newline (advance (skip (length run) (src_ st)))) st).
  assert (Hd2 : data (skip (length run) (src_ st)) = [x0a]).
  { unfold data, skip in *. cbn. by rewrite <- drop_drop, Hd, drop_app_length. }
  split.
  - cbn [string_]. unfold look, onSource, update, mbind, E_bind, peek. cbn [src_ set_src].
    rewrite Hd, plainRun_stops by done. rewrite Hd2. cbn. by rewrite <- app_assoc.
  - split; [|done]. cbn. by apply data_advance in Hd2.
Qed.

(** At the end of the buffer, the next line starting with a plain character. *)
Lemma string_at_line_start turns out st fd c line w' :
  fd_ (src_ st) = Some fd -> eof_ (src_ st) = false -> data (src_ st) = [] -> plain c = true ->
  readLineBlocking fd (world st) = (Ok (Some (c :: line)), w') ->
  string_ (S turns) out st = afterBackslash turns out
    (mkState (mkSource (c :: line ++ [x0a]) 1 0 (line_ (src_ st)) (Some fd) false) w').
Proof.
  intros Hfd Heof Hd Hc Hline.
  assert (Hpeek : peek (set_src (skip 0 (src_ st)) st) =
    (Ok (Some c), mkState (mkSource (c :: line ++ [x0a]) 0 0 (line_ (src_ st)) (Some fd) false) w')).
  { unfold peek. cbn [src_ set_src]. replace (data (skip 0 (src_ st))) with (@nil byte)
      by (unfold data, skip in *; cbn; by rewrite Nat.add_0_r).
    unfold refill, mbind, E_bind. cbn. rewrite Hfd, Heof. unfold onWorld, lifted. cbn. rewrite Hline. cbn.
    by rewrite Hfd, Heof. }
  assert (Hn : (c =? x22)%byte = false /\ (c =? x0a)%byte = false).
  { unfold plain in Hc. revert Hc. by destruct (c =? x22)%byte, (c =? "\")%byte, (c =? x0a)%byte. }
  destruct Hn as [Hq Hn]. cbn [string_]. unfold afterBackslash, look, onSource, update, mbind, E_bind.
  rewrite Hd. cbn [plainRun length]. rewrite Hpeek, Hq, Hn, app_nil_r. done.
Qed.

(** A string that goes on over a line end, read from a stream: the line end is
    kept, but the first character of the next line, if it is a plain one, is dropped and
    what follows it is read as an escape, as if that character were a backslash. Read
    from a string, the same text has the character. *)
Theorem streamed_string_loses_line_start turns out st fd run c line w' :
  fd_ (src_ st) = Some fd -> eof_ (src_ st) = false -> data (src_ st) = run ++ [x0a] ->
  Forall (fun c => plain c = true) run -> plain c = true ->
  readLineBlocking fd (world st) = (Ok (Some (c :: line)), w') ->
  string_ (S (S turns)) out st =
    afterBackslash turns (out ++ run ++ [x0a])
      (mkState (mkSource (c :: line ++ [x0a]) 1 0 (line_ (src_ st) + 1) (Some fd) false) w') /\
  forall s body r, stringReads (W := W) (exn := exn) s body r ->
    stringReads (W := W) (exn := exn) (run ++ x0a :: c :: s) (run ++ x0a :: c :: body) r.
Proof.
  intros Hfd Heof Hd Hrun Hc Hline. split.
  - destruct (string_at_line_end (S turns) out st run Hd Hrun) as (st1 & -> & Hd1 & <- & Hfd1 & Heof1 & Hw1).
    apply string_at_line_start; [by rewrite Hfd1|by rewrite Heof1|done|done|by rewrite Hw1].
  - intros s body r Hs. apply string_plains; [done|]. by apply string_newline, string_plain.
Qed.

End Streams.

Module Examples.
Import DemoReader.Demo DemoJson.Demo.

(** The string [a⏎xnb], its first line in the buffer: the stream drops the [x] and
    reads [n] as an escape. *)
Example streamed_string_witness :
  let st := mkState (mkSource (s2b "a" ++ [x0a]) 0 0 1 (Some 0) false) (startWorld [s2b "xnb" ++ [x22]]) in
  string_ (W := demoWorld) (exn := bytes) 12 [] st =
    afterBackslash 10 (s2b "a" ++ [x0a])
      (mkState (mkSource (s2b "xnb" ++ [x22; x0a]) 1 0 2 (Some 0) false) (startWorld [])) /\
  fst (string_ (W := demoWorld) (exn := bytes) 12 [] st) = Ok (s2b "a" ++ [x0a; x0a] ++ s2b "b") /\
  stringReads (W := demoWorld) (exn := bytes) (s2b "a" ++ x0a :: s2b "xnb" ++ [x22]) (s2b "a" ++ x0a :: s2b "xnb") [].
Proof.
  destruct (streamed_string_loses_line_start (W := demoWorld) (exn := bytes) 10 []
    (mkState (mkSource (s2b "a" ++ [x0a]) 0 0 1 (Some 0) false) (startWorld [s2b "xnb" ++ [x22]]))
    0 (s2b "a") "x"%byte (s2b "nb" ++ [x22]) (startWorld []) eq_refl eq_refl eq_refl
    ltac:(by repeat constructor) eq_refl eq_refl) as [Hstream Hstring].
  split; [exact Hstream|]. split; [reflexivity|].
  apply (Hstring (s2b "nb" ++ [x22]) (s2b "nb") []).
  apply (string_plains (s2b "nb") [x22] [] []); [by repeat constructor|apply string_end].
Defined.

Example streamed_parse :
  let lines := [x22 :: s2b "a"; s2b "xnb" ++ [x22]] in
  shown (prim_parse_stream 40 5 [str []] (startWorld lines)) = [x22] ++ s2b "a\n\nb" ++ [x22] /\
  parseString (x22 :: s2b "a" ++ [x0a] ++ s2b "xnb" ++ [x22]) = [x22] ++ s2b "a\nxnb" ++ [x22].
Proof. by vm_compute. Qed.

End Examples.
