(* ===== verification/LazySeq.v ===== *)
(** Lazy sequences (runtime/LazySeq.h, LazySeq.cpp; the nodes of SeqTypes.cpp): the
    store of lazy seqs and their realisation, the seq protocol, the direct reads, walks,
    one definition per step, and the functions that build them. [stack] is how many
    levels of realisation the thread's stack has room for; [turns] bounds each loop,
    for a loop over an endless seq does not end. *)

From S2P Require Import Prelude Values Printer DataFormats.

#[local] Set Warnings "-register-all".

Inductive StepKind :=
| Map1 | MapN | Filter | Take | TakeWhile | Drop | DropWhile | Iterate | IterateNext
| Repeat | Cycle | Range | RangeInf | Concat | Partition | Interleave | For | Repeatedly
| Distinct | Line | ReSeq.

(** ** Values

    A lazy seq is a reference to its cell; the other nodes never change. [A] is the
    type of the values that are not sequences: functions, strings, names, maps, sets. *)
Inductive val (A : Type) :=
| Nil
| Bool (b : bool)
| Int (z : Z)
| Flt (bits : Z)
| Other (a : A)
| Vect (items : list (val A))
| Lst (items : list (val A))
| Lazy (id : nat)
| Cons (first more : val A)
| Chunk (items : list (val A)) (off end_ : nat) (more : val A) (chunked : bool)
| PList (items : list (val A)).  (* a ProtoList, never a Clojure value *)
Arguments Nil {A}. Arguments Bool {A} _. Arguments Int {A} _. Arguments Flt {A} _.
Arguments Other {A} _. Arguments Vect {A} _. Arguments Lst {A} _. Arguments Lazy {A} _.
Arguments Cons {A} _ _. Arguments Chunk {A} _ _ _ _ _. Arguments PList {A} _.

(** The producer of a lazy seq: a native step with its operands, or a function. *)
Inductive thunk (A : Type) :=
| Step (kind : StepKind) (a b c d e : val A)
| Code (f : val A).
Arguments Step {A} _ _ _ _ _ _. Arguments Code {A} _.

Inductive cell (A : Type) :=
| Unrealized (t : thunk A)
| Claimed (t : thunk A)
| Realized (v : val A).
Arguments Unrealized {A} _. Arguments Claimed {A} _. Arguments Realized {A} _.

(** The store, the lazy seqs this thread is realising (innermost last), and the rest
    of the running program. *)
Record seqState (A W : Type) := mkSeqState {
  cells : list (cell A);
  realizing : list nat;
  world : W;
}.
Arguments mkSeqState {A W} _ _ _. Arguments cells {A W} _. Arguments realizing {A W} _. Arguments world {A W} _.

Inductive seqError (exn : Type) :=
| Classed (class message : bytes)
| Raised (e : exn)
| Undefined  (* a conversion C++ does not define *)
| NoTurns.
Arguments Classed {exn} _ _. Arguments Raised {exn} _. Arguments Undefined {exn}. Arguments NoTurns {exn}.

(** ** What the running program provides

    Calls of functions, which may realise and build seqs; the elements of a map, a set
    or a string; sets of seen elements; sums and comparisons with a float; integers of
    more than 64 bits as 64-bit ones; and the steps of other
    components. *)
Class SeqEnv (A exn W : Type) := {
  invoke : val A -> list (val A) -> E (seqError exn) (seqState A W) (val A);
  collectionItems : A -> option (list (val A));
  emptySet : A;
  setConj : A -> val A -> E (seqError exn) (seqState A W) A;
  setGet : A -> val A -> E (seqError exn) (seqState A W) bool;
  addNumbers : val A -> val A -> val A;
  compareFloats : val A -> val A -> Z;
  asLong : Z -> result exn Z;
  otherStep : StepKind -> nat -> list (val A) -> E (seqError exn) (seqState A W) (val A);
  otherTypeName : A -> bytes;
  forStop : W -> val A;
  sameOther : A -> A -> bool;
  seqContext : bool;
  stackText : bytes;
}.

Section LazySeq.
Context {A exn W : Type} `{SeqEnv A exn W}.

#[local] Abbreviation V := (val A).
#[local] Abbreviation M := (E (seqError exn) (seqState A W)).

Definition throwClass {B} (class message : bytes) : M B := raise (Classed class message).

Definition valTypeName (v : V) : bytes :=
  match v with
  | Nil => s2b "nil"
  | Bool _ => s2b "a boolean"
  | Int _ => s2b "an integer"
  | Flt _ => s2b "a float"
  | Other a => otherTypeName a
  | Vect _ => s2b "a vector"
  | Lst _ => s2b "a list"
  | Lazy _ => s2b "a lazy seq"
  | Cons _ _ | Chunk _ _ _ _ _ => s2b "a seq"
  | PList _ => s2b "an internal list"
  end.

(** The identity of two values, of which one is no node. *)
Definition sameVal (v w : V) : bool :=
  match v, w with
  | Nil, Nil => true
  | Bool b, Bool c => Bool.eqb b c
  | Int x, Int y => fitsSmallInt x && (x =? y)
  | Other a, Other b => sameOther a b
  | Lazy i, Lazy j => (i =? j)%nat
  | Lst [], Lst [] => true
  | _, _ => false
  end.

Definition isNil (v : V) : bool := match v with Nil => true | _ => false end.
Definition truthyVal (v : V) : bool := match v with Nil | Bool false => false | _ => true end.

(** ** Numbers *)

Definition isNumber (v : V) : bool := match v with Int _ | Flt _ => true | _ => false end.

Definition throwNotANumber {B} (operation : bytes) (v : V) : M B :=
  throwClass (s2b "ClassCastException") (operation ++ s2b " expects a number, got " ++ valTypeName v).

Definition requireNumber (v : V) (name : bytes) : M unit :=
  if isNumber v then mret tt else throwNotANumber name v.

Definition numberAdd (a b : V) : M V :=
  _ ← requireNumber a (s2b "+");
  _ ← requireNumber b (s2b "+");
  mret (match a, b with Int x, Int y => Int (x + y) | _, _ => addNumbers a b end).

Definition compareZ (x y : Z) : Z := if x <? y then -1 else if y <? x then 1 else 0.

Definition numberCompare (a b : V) : M Z :=
  _ ← requireNumber a (s2b "<");
  _ ← requireNumber b (s2b "<");
  mret (match a, b with Int x, Int y => compareZ x y | _, _ => compareFloats a b end).

(** [std::ceil] to a [long long]: [None] where C++ defines no result. *)
Definition ceilLong (bits : Z) : option Z :=
  if isnan bits || isinf bits then None
  else
    let magnitude := Z.land bits (2 ^ 63 - 1) in
    let e := Z.shiftr magnitude 52 in
    let f := Z.land magnitude (2 ^ 52 - 1) in
    let m := if e =? 0 then f else f + 2 ^ 52 in
    let k := (if e =? 0 then 1 else e) - 1075 in
    let num := if signbit bits then - m else m in
    let z := if 0 <=? k then num * 2 ^ k else - ((- num) / 2 ^ (- k)) in
    if fits_llong z then Some z else None.

Definition countOperand (n : V) : M Z :=
  match n with
  | Int z => if fits_llong z then mret z
             else match asLong z with Ok z => mret z | Throw e => raise (Raised e) end
  | Flt bits => match ceilLong bits with Some z => mret z | None => raise Undefined end
  | _ => throwNotANumber (s2b "take") n
  end.

(** ** Construction *)

Definition emptyList : V := Lst [].

(** A lazy seq of this thunk, a cell of its own. *)
Definition newLazySeq (t : thunk A) : M V := fun s =>
  (Ok (Lazy (length (cells s))), mkSeqState (cells s ++ [Unrealized t]) (realizing s) (world s)).

Definition lazyStep5 (kind : StepKind) (a b c d e : V) : M V := newLazySeq (Step kind a b c d e).
Definition lazyStep (kind : StepKind) (a b c d : V) : M V := lazyStep5 kind a b c d Nil.

Definition setCell (id : nat) (c : cell A) (s : seqState A W) : seqState A W :=
  mkSeqState (<[id := c]> (cells s)) (realizing s) (world s).
Definition setRealizing (r : list nat) (s : seqState A W) : seqState A W :=
  mkSeqState (cells s) r (world s).

(** [claimLazy], [unclaimLazy], [publishLazy]: compare-and-sets on the cell. *)
Definition claimLazy (id : nat) : M bool := fun s =>
  match cells s !! id with
  | Some (Unrealized t) => (Ok true, setCell id (Claimed t) s)
  | _ => (Ok false, s)
  end.
Definition unclaimLazy (id : nat) : M unit := fun s =>
  match cells s !! id with
  | Some (Claimed t) => (Ok tt, setCell id (Unrealized t) s)
  | _ => (Ok tt, s)
  end.
Definition publishLazy (id : nat) (v : V) : M bool := fun s =>
  match cells s !! id with
  | Some (Realized _) | None => (Ok false, s)
  | _ => (Ok true, setCell id (Realized v) s)
  end.

Definition isPureKind (k : StepKind) : bool :=
  match k with
  | Map1 | MapN | Filter | TakeWhile | DropWhile | IterateNext | Repeatedly | For | Line => false
  | _ => true
  end.
Definition thunkIsPure (t : thunk A) : bool :=
  match t with Step k _ _ _ _ _ => isPureKind k | Code _ => false end.

Definition call (f : V) (args : list V) : M V :=
  if seqContext then invoke f args else throwClass (s2b "RuntimeException") (s2b "lazy seq: no active VM context").
Definition call1 (f x : V) : M V := call f [x].

(** ** The seq protocol *)

Definition dontKnow {B} (v : V) : M B :=
  throwClass (s2b "IllegalArgumentException")
    (s2b "Don't know how to create ISeq from: " ++ valTypeName v).

(** A chunk over all of a list's elements. *)
Definition chunkOver (items : list V) (chunked : bool) : V :=
  match items with [] => Nil | _ => Chunk items 0 (length items) Nil chunked end.

(** A list, a cons or a chunk is its own seq. *)
Definition isNode (v : V) : bool :=
  match v with Lst (_ :: _) | Cons _ _ | Chunk _ _ _ _ _ => true | _ => false end.

Definition seqFirst (s : V) : V :=
  match s with
  | Lst (x :: _) => x
  | Cons x _ => x
  | Chunk items off _ _ _ => default Nil (items !! off)
  | _ => Nil
  end.

Definition orEmpty (more : V) : V := match more with Nil => emptyList | _ => more end.

Definition seqMore (s : V) : V :=
  match s with
  | Lst (_ :: items) => Lst items
  | Cons _ more => orEmpty more
  | Chunk items off end_ more chunked =>
      if (S off <? end_)%nat then Chunk items (S off) end_ more chunked else orEmpty more
  | _ => emptyList
  end.

Definition isChunkedSeq (v : V) : bool := match v with Chunk _ _ _ _ chunked => chunked | _ => false end.

(** *** Direct reads: what runs no code, [None] otherwise *)

Definition trySeq (v : V) : option V :=
  match v with
  | Nil | Lst [] => Some Nil
  | Vect items => Some (chunkOver items true)
  | Cons _ _ | Chunk _ _ _ _ _ | Lst _ => Some v
  | _ => None
  end.

Definition tryFirst (v : V) : option V :=
  match v with
  | Nil | Lst [] => Some Nil
  | Vect items => Some (default Nil (head items))
  | Lst (x :: _) => Some x
  | Cons x _ => Some x
  | Chunk items off _ _ _ => Some (default Nil (items !! off))
  | _ => None
  end.

Definition vectorRest (items : list V) (none : V) : V :=
  if (length items <=? 1)%nat then none else Chunk items 1 (length items) Nil true.

Definition tryRest (v : V) : option V :=
  match v with
  | Nil => Some emptyList
  | Vect items => Some (vectorRest items emptyList)
  | Lst [] => Some v
  | Lst _ | Cons _ _ | Chunk _ _ _ _ _ => Some (seqMore v)
  | _ => None
  end.

Definition tryNext (v : V) : option V :=
  match v with
  | Nil | Lst [] => Some Nil
  | Vect items => Some (vectorRest items Nil)
  | Lst (_ :: items) => Some (match items with [] => Nil | _ => Lst items end)
  | Cons _ more => trySeq more
  | Chunk items off end_ more chunked =>
      if (S off <? end_)%nat then Some (Chunk items (S off) end_ more chunked) else trySeq more
  | _ => None
  end.

Definition tryEmpty (v : V) : option bool :=
  match v with
  | Nil | Lst [] => Some true
  | Vect items => Some (match items with [] => true | _ => false end)
  | Lst _ | Cons _ _ | Chunk _ _ _ _ _ => Some false
  | _ => None
  end.

Fixpoint tryCountFrom (n : nat) (v : V) : option nat :=
  match v with
  | Nil => Some n
  | Vect items | Lst items => Some (n + length items)%nat
  | Cons _ more => tryCountFrom (S n) more
  | Chunk _ off end_ more _ => tryCountFrom (n + (end_ - off)) more
  | _ => None
  end.
Definition tryCount (v : V) : option nat := tryCountFrom 0 v.

Definition isSeqValue (v : V) : bool :=
  match v with Lst _ | Lazy _ | Cons _ _ | Chunk _ _ _ _ _ => true | _ => false end.

Definition tryCons (x coll : V) : option V :=
  match coll with
  | Nil => Some (Lst [x])
  | _ => if isSeqValue coll then Some (Cons x coll) else None
  end.

(** ** Realisation

    What a realisation is made of: the seq of a value, given how a lazy seq is
    realised one level of the stack down. *)
Section Realise.
Context (turns : nat) (realize : nat -> M V).

(** RT.seq: nil, or a non-empty list, cons or chunk. *)
Definition seqOf (v : V) : M V :=
  match v with
  | Nil | Lst [] => mret Nil
  | Vect items => mret (chunkOver items true)
  | Lazy id => realize id
  | Cons _ _ | Chunk _ _ _ _ _ | Lst _ => mret v
  | Other a =>
      match collectionItems a with
      | Some items => mret (chunkOver items false)
      | None => dontKnow v
      end
  | _ => dontKnow v
  end.

Definition walkNext (s : V) : M V := seqOf (seqMore s).

(** *** Walks

    A cursor: the current node, and the position and the end of the stretch of it that
    is read by index. *)
Record walk := mkWalk { node_ : option V; i_ : nat; end__ : nat }.

Definition listHeadCount (n : nat) : nat := ((n - 1) mod 4 + 1)%nat.

Definition load (node : V) : walk :=
  match node with
  | Lst items => mkWalk (Some node) 0 (listHeadCount (length items))
  | Chunk _ off end_ _ _ => mkWalk (Some node) off end_
  | Cons _ _ => mkWalk (Some node) 0 0
  | _ => mkWalk None 0 0
  end.

Definition startWalk (coll : V) : M walk :=
  match coll with
  | Lst [] => mret (mkWalk None 0 0)
  | Lst _ | Cons _ _ | Chunk _ _ _ _ _ => mret (load coll)
  | _ => s ← seqOf coll; mret (load s)
  end.

Definition walkDone (w : walk) : bool := match node_ w with None => true | Some _ => false end.

Definition walkFirst (w : walk) : V :=
  match node_ w with
  | Some (Cons x _) => x
  | Some (Lst items) => default Nil (items !! i_ w)
  | Some (Chunk items _ _ _ _) => default Nil (items !! i_ w)
  | _ => Nil
  end.

Definition walkAdvance (w : walk) : M walk :=
  match node_ w with
  | None => mret w
  | Some node =>
      let isCons := match node with Cons _ _ => true | _ => false end in
      if negb isCons && (S (i_ w) <? end__ w)%nat then mret (mkWalk (node_ w) (S (i_ w)) (end__ w))
      else
        let more := match node with
                    | Cons _ more => more
                    | Lst items => Lst (drop (end__ w) items)
                    | Chunk _ _ _ more _ => more
                    | _ => Nil
                    end in
        match more with
        | Nil | Lst [] => mret (mkWalk None 0 0)
        | Lst _ | Cons _ _ | Chunk _ _ _ _ _ => mret (load more)
        | _ => s ← seqOf more; mret (load s)
        end
  end.

(** The number of elements left, when it is known without walking. *)
Definition walkCounted (w : walk) : option nat :=
  match node_ w with
  | None => Some 0%nat
  | Some (Lst items) => Some (length items - i_ w)%nat
  | Some (Chunk _ _ _ Nil _) => Some (end__ w - i_ w)%nat
  | _ => None
  end.

(** What remains, as a seq. *)
Definition walkRemaining (w : walk) : V :=
  match node_ w with
  | None => Nil
  | Some (Lst items as node) => if (i_ w =? 0)%nat then node else Lst (drop (i_ w) items)
  | Some (Chunk items off end_ more chunked as node) =>
      if (i_ w =? off)%nat then node else Chunk items (i_ w) (end__ w) more chunked
  | Some node => node
  end.

Fixpoint walkToEnd (n : nat) (w : walk) (acc : list V) : M (list V) :=
  match n with
  | O => raise NoTurns
  | S n =>
      if walkDone w then mret acc
      else w' ← walkAdvance w; walkToEnd n w' (acc ++ [walkFirst w])
  end.

(** The elements of a seqable, [[]] for nil or an empty one. *)
Definition seqToList (v : V) : M (list V) :=
  match v with
  | Nil => mret []
  | Vect items | Lst items => mret items
  | Lazy _ | Cons _ _ | Chunk _ _ _ _ _ => w ← startWalk v; walkToEnd turns w []
  | Other a => match collectionItems a with Some items => mret items | None => dontKnow v end
  | _ => dontKnow v
  end.

(** At most [n] steps of a walk, with the elements passed. *)
Fixpoint walkTake (n : nat) (w : walk) (acc : list V) : M (list V * walk) :=
  match n with
  | O => mret (acc, w)
  | S n =>
      if walkDone w then mret (acc, w)
      else w' ← walkAdvance w; walkTake n w' (acc ++ [walkFirst w])
  end.

(** A count of turns: a loop over more than [turns] of them has run out. *)
Definition turnsOf (n : Z) : nat := Z.to_nat (Z.min n (Z.of_nat turns)).

Definition walkSteps (n : Z) (w : walk) : M (list V * walk) :=
  r ← walkTake (turnsOf n) w [];
  if (Z.of_nat turns <? n) && negb (walkDone r.2) then raise NoTurns else mret r.

Definition restOfWalk (w : walk) : M V := if walkDone w then mret Nil else seqOf (walkRemaining w).

(** *** Steps

    A chunked source is taken 32 elements at a time. *)
Definition kChunk : nat := 32.

Definition sliceOf (items : list V) (off end_ : nat) (more : V) : list V * V :=
  let to := Nat.min end_ (off + kChunk) in
  (take (to - off) (drop off items), if (to <? end_)%nat then Chunk items to end_ more true else more).

Definition asChunked (v : V) : option (list V * nat * nat * V) :=
  match v with Chunk items off end_ more true => Some (items, off, end_, more) | _ => None end.

Fixpoint callEach (f : V) (xs : list V) (acc : list V) : M (list V) :=
  match xs with
  | [] => mret acc
  | x :: xs => y ← call1 f x; callEach f xs (acc ++ [y])
  end.

(** The lazy rest of a step, none after nil. *)
Definition tailStep (after : V) (t : thunk A) : M V := if isNil after then mret Nil else newLazySeq t.

Definition stepMap1 (a b : V) : M V :=
  src ← seqOf b;
  if isNil src then mret Nil
  else match asChunked src with
  | Some (items, off, end_, more) =>
      let '(xs, after) := sliceOf items off end_ more in
      ys ← callEach a xs [];
      tail ← tailStep after (Step Map1 a after Nil Nil Nil);
      mret (Chunk ys 0 (length ys) tail true)
  | None =>
      y ← call1 a (seqFirst src);
      tail ← newLazySeq (Step Map1 a (seqMore src) Nil Nil Nil);
      mret (Cons y tail)
  end.

Definition listOf (v : V) : list V := match v with PList items => items | _ => [] end.

(** The firsts and the rests of the seqs of all the collections; [None] when one of
    them has ended. *)
Fixpoint firstsAndRests (colls firsts rests : list V) : M (option (list V * list V)) :=
  match colls with
  | [] => mret (Some (firsts, rests))
  | c :: colls =>
      sq ← seqOf c;
      if isNil sq then mret None
      else firstsAndRests colls (firsts ++ [seqFirst sq]) (rests ++ [seqMore sq])
  end.

Definition stepMapN (a b : V) : M V :=
  r ← firstsAndRests (listOf b) [] [];
  match r with
  | None => mret Nil
  | Some (firsts, rests) =>
      y ← call a firsts;
      tail ← newLazySeq (Step MapN a (PList rests) Nil Nil Nil);
      mret (Cons y tail)
  end.

Fixpoint keepEach (f : V) (negate : bool) (xs acc : list V) : M (list V) :=
  match xs with
  | [] => mret acc
  | x :: xs =>
      y ← call1 f x;
      keepEach f negate xs (if Bool.eqb (truthyVal y) negate then acc else acc ++ [x])
  end.

Fixpoint filterFrom (n : nat) (a c src : V) : M V :=
  match n with
  | O => raise NoTurns
  | S n =>
      let negate := sameVal c (Bool true) in
      if isNil src then mret Nil
      else match asChunked src with
      | Some (items, off, end_, more) =>
          let '(xs, after) := sliceOf items off end_ more in
          out ← keepEach a negate xs [];
          match out with
          | [] => src ← seqOf after; filterFrom n a c src
          | _ =>
              tail ← tailStep after (Step Filter a after c Nil Nil);
              mret (Chunk out 0 (length out) tail true)
          end
      | None =>
          let x := seqFirst src in
          y ← call1 a x;
          if negb (Bool.eqb (truthyVal y) negate) then
            tail ← newLazySeq (Step Filter a (seqMore src) c Nil Nil);
            mret (Cons x tail)
          else src ← walkNext src; filterFrom n a c src
      end
  end.

Definition stepFilter (a b c : V) : M V := src ← seqOf b; filterFrom turns a c src.

Definition stepTake (a b : V) : M V :=
  n ← countOperand a;
  if n <=? 0 then mret Nil
  else
    src ← seqOf b;
    if isNil src then mret Nil
    else if n =? 1 then mret (Cons (seqFirst src) Nil)
    else
      tail ← newLazySeq (Step Take (Int (n - 1)) (seqMore src) Nil Nil Nil);
      mret (Cons (seqFirst src) tail).

Definition stepTakeWhile (a b : V) : M V :=
  src ← seqOf b;
  if isNil src then mret Nil
  else
    let x := seqFirst src in
    y ← call1 a x;
    if negb (truthyVal y) then mret Nil
    else
      tail ← newLazySeq (Step TakeWhile a (seqMore src) Nil Nil Nil);
      mret (Cons x tail).

Definition stepDrop (a b : V) : M V :=
  n ← countOperand a;
  w ← startWalk b;
  r ← walkSteps n w;
  restOfWalk r.2.

Fixpoint dropWhileFrom (n : nat) (a : V) (w : walk) : M V :=
  match n with
  | O => raise NoTurns
  | S n =>
      if walkDone w then mret Nil
      else
        y ← call1 a (walkFirst w);
        if truthyVal y then w ← walkAdvance w; dropWhileFrom n a w
        else restOfWalk w
  end.

Definition stepDropWhile (a b : V) : M V := w ← startWalk b; dropWhileFrom turns a w.

Definition stepIterate (a b : V) : M V :=
  tail ← newLazySeq (Step IterateNext a b Nil Nil Nil); mret (Cons b tail).

Definition stepIterateNext (a b : V) : M V :=
  y ← call1 a b;
  tail ← newLazySeq (Step IterateNext a y Nil Nil Nil);
  mret (Cons y tail).

(** An endless repeat is one cons that leads back to its own lazy seq. *)
Definition stepRepeat (self : nat) (a b : V) : M V :=
  if isNil b then mret (Cons a (Lazy self))
  else
    n ← countOperand b;
    if n <=? 0 then mret Nil
    else
      tail ← (if n =? 1 then mret Nil else newLazySeq (Step Repeat a (Int (n - 1)) Nil Nil Nil));
      mret (Cons a tail).

Definition stepRepeatedly (a b : V) : M V :=
  n ← (if isNil b then mret (-1) else countOperand b);
  if negb (isNil b) && (n <=? 0) then mret Nil
  else
    y ← call a [];
    tail ← (if n =? 1 then mret Nil
            else newLazySeq (Step Repeatedly a (if n <? 0 then Nil else Int (n - 1)) Nil Nil Nil));
    mret (Cons y tail).

Definition stepCycle (a b : V) : M V :=
  s ← seqOf b;
  s ← (if isNil s then seqOf a else mret s);
  if isNil s then mret Nil
  else
    tail ← newLazySeq (Step Cycle a (seqMore s) Nil Nil Nil);
    mret (Cons (seqFirst s) tail).

(** The numbers of a chunk of a range of SmallIntegers, and the next one; a sum that
    is no SmallInteger ends the chunk. *)
Fixpoint smallRange (k : nat) (up : bool) (x end_ step : Z) (acc : list V) : list V * Z :=
  match k with
  | O => (acc, x)
  | S k =>
      if (if up then x <? end_ else end_ <? x) then
        let acc := acc ++ [Int x] in
        if negb (fitsSmallInt (x + step)) then (acc, x + step)
        else smallRange k up (x + step) end_ step acc
      else (acc, x)
  end.

Fixpoint numberRange (k : nat) (up : bool) (x end_ step : V) (acc : list V) : M (list V * V) :=
  match k with
  | O => mret (acc, x)
  | S k =>
      c ← numberCompare x end_;
      if (if up then 0 <=? c else c <=? 0) then mret (acc, x)
      else
        next ← numberAdd x step;
        numberRange k up next end_ step (acc ++ [x])
  end.

Definition stepRange (a b c : V) : M V :=
  sign ← numberCompare c (Int 0);
  let up := 0 <? sign in
  '(out, next) ←
    (match a, b, c with
     | Int x, Int end_, Int step =>
         if fitsSmallInt x && fitsSmallInt end_ && fitsSmallInt step
         then let '(out, x) := smallRange kChunk up x end_ step [] in mret (out, Int x)
         else numberRange kChunk up a b c []
     | _, _, _ => numberRange kChunk up a b c []
     end);
  match out with
  | [] => mret Nil
  | _ =>
      d ← numberCompare next b;
      let more := if up then d <? 0 else 0 <? d in
      tail ← (if more then newLazySeq (Step Range next b c Nil Nil) else mret Nil);
      mret (Chunk out 0 (length out) tail true)
  end.

Definition stepRangeInf (a b : V) : M V :=
  next ← numberAdd a b;
  tail ← newLazySeq (Step RangeInf next b Nil Nil Nil);
  mret (Cons a tail).

(** The seq [sq] with the collections [rest] after it, a chunk kept a chunk. *)
Definition prependSeq (sq rest : V) : M V :=
  match rest with
  | Nil | Lst [] => mret sq
  | _ =>
      match sq with
      | Chunk items off end_ more chunked =>
          tail ← newLazySeq (Step Concat more rest Nil Nil Nil);
          mret (Chunk items off end_ tail chunked)
      | Lst (x :: items) => tail ← newLazySeq (Step Concat (Lst items) rest Nil Nil Nil); mret (Cons x tail)
      | Cons x more => tail ← newLazySeq (Step Concat more rest Nil Nil Nil); mret (Cons x tail)
      | _ => mret sq
      end
  end.

(** The first of the collections that is not empty, and those after it. *)
Fixpoint concatFrom (n : nat) (s colls : V) : M V :=
  match n with
  | O => raise NoTurns
  | S n =>
      if negb (isNil s) then prependSeq s colls
      else
        cs ← seqOf colls;
        if isNil cs then mret Nil
        else s ← seqOf (seqFirst cs); concatFrom n s (seqMore cs)
  end.

Definition stepConcat (a b : V) : M V := s ← seqOf a; concatFrom turns s b.

(** [mode]: 0 partition, 1 partition with a pad, 2 partition-all. *)
Definition stepPartition (a b c d e : V) : M V :=
  n ← countOperand a;
  step ← countOperand b;
  let mode := match d with Int z => z | _ => 0 end in
  s ← seqOf e;
  if isNil s then mret Nil
  else
    w ← startWalk s;
    '(part, _) ← walkSteps n w;
    let k := Z.of_nat (length part) in
    if k <? n then
      if (mode =? 0) || ((mode =? 2) && (k =? 0)) then mret Nil
      else
        part ← (if mode =? 1 then w ← startWalk c; r ← walkSteps (n - k) w; mret (part ++ r.1)
                else mret part);
        mret (Cons (Lst part) Nil)
    else
      w ← startWalk s;
      '(_, w) ← walkSteps step w;
      let rest := walkRemaining w in
      tail ← tailStep rest (Step Partition a b c d rest);
      mret (Cons (Lst part) tail).

Definition stepInterleave (a : V) : M V :=
  match listOf a with
  | [] => mret Nil
  | colls =>
      r ← firstsAndRests colls [] [];
      match r with
      | None => mret Nil
      | Some (firsts, rests) =>
          tail ← newLazySeq (Step Interleave (PList rests) Nil Nil Nil Nil);
          mret (Chunk firsts 0 (length firsts) tail false)
      end
  end.

(** The results of a stretch of [for]'s elements, up to the stop marker. *)
Fixpoint forEach (f stop : V) (xs acc : list V) : M (list V * bool) :=
  match xs with
  | [] => mret (acc, false)
  | x :: xs =>
      r ← call1 f x;
      if sameVal r stop then mret (acc, true)
      else ys ← seqToList r; forEach f stop xs (acc ++ ys)
  end.

Fixpoint forFrom (n : nat) (b c d src : V) : M V :=
  match n with
  | O => raise NoTurns
  | S n =>
      if isNil src then mret Nil
      else match (if sameVal d (Bool true) then asChunked src else None) with
      | Some (items, off, end_, more) =>
          let '(xs, after) := sliceOf items off end_ more in
          '(out, stopped) ← forEach b c xs [];
          let after := if stopped : bool then Nil else after in
          match out with
          | [] => if stopped then mret Nil else src ← seqOf after; forFrom n b c d src
          | _ =>
              tail ← tailStep after (Step For after b c d Nil);
              mret (Chunk out 0 (length out) tail true)
          end
      | None =>
          r ← call1 b (seqFirst src);
          if sameVal r c then mret Nil
          else
            s ← seqOf r;
            if negb (isNil s) then
              tail ← newLazySeq (Step For (seqMore src) b c d Nil);
              prependSeq s (Lst [tail])
            else src ← walkNext src; forFrom n b c d src
      end
  end.

Definition stepFor (a b c d : V) : M V := src ← seqOf a; forFrom turns b c d src.

Definition setOf (v : V) : option A := match v with Other a => Some a | _ => None end.

Fixpoint distinctFrom (n : nat) (seen : A) (s : V) : M V :=
  match n with
  | O => raise NoTurns
  | S n =>
      if isNil s then mret Nil
      else
        let x := seqFirst s in
        known ← setGet seen x;
        if negb known then
          seen ← setConj seen x;
          tail ← newLazySeq (Step Distinct (seqMore s) (Other seen) Nil Nil Nil);
          mret (Cons x tail)
        else s ← walkNext s; distinctFrom n seen s
  end.

Definition stepDistinct (a b : V) : M V :=
  s ← seqOf a; distinctFrom turns (default emptySet (setOf b)) s.

End Realise.

Section Threads.
Context (turns : nat).

(** A step through its realiser, a function by calling it and taking the seq of what
    it answered. *)
Definition runThunk (realize : nat -> M V) (self : nat) (t : thunk A) : M V :=
  match t with
  | Code f => r ← call f []; seqOf realize r
  | Step Map1 a b _ _ _ => stepMap1 realize a b
  | Step MapN a b _ _ _ => stepMapN realize a b
  | Step Filter a b c _ _ => stepFilter turns realize a b c
  | Step Take a b _ _ _ => stepTake realize a b
  | Step TakeWhile a b _ _ _ => stepTakeWhile realize a b
  | Step Drop a b _ _ _ => stepDrop turns realize a b
  | Step DropWhile a b _ _ _ => stepDropWhile turns realize a b
  | Step Iterate a b _ _ _ => stepIterate a b
  | Step IterateNext a b _ _ _ => stepIterateNext a b
  | Step Repeat a b _ _ _ => stepRepeat self a b
  | Step Repeatedly a b _ _ _ => stepRepeatedly a b
  | Step Cycle a b _ _ _ => stepCycle realize a b
  | Step Range a b c _ _ => stepRange a b c
  | Step RangeInf a b _ _ _ => stepRangeInf a b
  | Step Concat a b _ _ _ => stepConcat turns realize a b
  | Step Partition a b c d e => stepPartition turns realize a b c d e
  | Step Interleave a _ _ _ _ => stepInterleave realize a
  | Step For a b c d _ => stepFor turns realize a b c d
  | Step Distinct a b _ _ _ => stepDistinct turns realize a b
  | Step kind a b c d e => otherStep kind self [a; b; c; d; e]
  end.

(** [m], and [k] when it raises, before the exception goes on. *)
Definition onThrow {B} (m : M B) (k : M unit) : M B := fun s =>
  match m s with
  | (Throw e, s) => (_ ← k; raise e) s
  | r => r
  end.

Definition pushRealizing (id : nat) : M unit := update (fun s => setRealizing (realizing s ++ [id]) s).
Definition popRealizing : M unit := update (fun s => setRealizing (removelast (realizing s)) s).

Definition lazyValue (id : nat) : M V :=
  look (fun s => match cells s !! id with Some (Realized v) => v | _ => Nil end).

(** A claimed cell is computed by the thread that claimed it, which leaves it
    unrealised when the function raises; a pure step is computed by anyone. *)
Fixpoint realizeRounds (realize : nat -> M V) (n : nat) (id : nat) : M V :=
  match n with
  | O => raise NoTurns
  | S n =>
      c ← look (fun s => cells s !! id);
      match c with
      | Some (Realized v) => mret v
      | Some (Claimed _) =>
          own ← look (fun s => bool_decide (id ∈ realizing s));
          if own : bool then
            throwClass (s2b "StackOverflowError") (s2b "a lazy seq was read while its own body was computing it")
          else realizeRounds realize n id
      | Some (Unrealized t) =>
          if thunkIsPure t then
            v ← runThunk realize id t;
            published ← publishLazy id v;
            if published : bool then mret v else realizeRounds realize n id
          else
            claimed ← claimLazy id;
            if claimed : bool then
              _ ← pushRealizing id;
              v ← onThrow (runThunk realize id t) (_ ← popRealizing; unclaimLazy id);
              _ ← popRealizing;
              published ← publishLazy id v;
              if published : bool then mret v else lazyValue id
            else realizeRounds realize n id
      | None => throwClass (s2b "RuntimeException") (s2b "lazy seq: not a lazy object")
      end
  end.

Fixpoint realizeLazy (stack : nat) (id : nat) : M V :=
  match stack with
  | O => throwClass (s2b "StackOverflowError") stackText
  | S stack => realizeRounds (realizeLazy stack) turns id
  end.

Definition lazyIsRealized (id : nat) : M bool :=
  look (fun s => match cells s !! id with Some (Realized _) => true | _ => false end).

(** ** The functions *)

Definition arityOf {B} (n : nat) (name : bytes) : M B :=
  throwClass (s2b "ArityException")
    (s2b "Wrong number of args (" ++ to_string (Z.of_nat n) ++ s2b ") passed to: " ++ name).

Definition arg (args : list V) (i : nat) : V := default Nil (args !! i).

Definition noTransducer {B} (text : bytes) : M B := throwClass (s2b "UnsupportedOperationException") text.

Definition prim_lazy_seq_fn (args : list V) : M V :=
  if negb (length args =? 1)%nat then arityOf (length args) (s2b "lazy-seq")
  else match arg args 0 with
  | PList _ => throwClass (s2b "ClassCastException") (s2b "__lazy-seq expects a fn of no arguments")
  | f => newLazySeq (Code f)
  end.

Definition prim_map (args : list V) : M V :=
  let n := length args in
  if (n =? 1)%nat then noTransducer (s2b "map: the transducer arity (map f) is not supported (D49)")
  else if (n <? 2)%nat then arityOf n (s2b "map")
  else if (n =? 2)%nat then lazyStep Map1 (arg args 0) (arg args 1) Nil Nil
  else lazyStep MapN (arg args 0) (PList (drop 1 args)) Nil Nil.

(** A function of exactly two arguments, the first a number when [numeric]. *)
Definition binaryStep (kind : StepKind) (name : bytes) (numeric : bool) (c : V) (args : list V) : M V :=
  if negb (length args =? 2)%nat then arityOf (length args) name
  else
    _ ← (if numeric then requireNumber (arg args 0) name else mret tt);
    lazyStep kind (arg args 0) (arg args 1) c Nil.

Definition prim_filter (args : list V) : M V := binaryStep Filter (s2b "filter") false (Bool false) args.
Definition prim_remove (args : list V) : M V := binaryStep Filter (s2b "remove") false (Bool true) args.
Definition prim_take (args : list V) : M V := binaryStep Take (s2b "take") true Nil args.
Definition prim_take_while (args : list V) : M V := binaryStep TakeWhile (s2b "take-while") false Nil args.
Definition prim_drop (args : list V) : M V := binaryStep Drop (s2b "drop") true Nil args.
Definition prim_drop_while (args : list V) : M V := binaryStep DropWhile (s2b "drop-while") false Nil args.
Definition prim_iterate (args : list V) : M V := binaryStep Iterate (s2b "iterate") false Nil args.

(** [(repeat x)] and [(repeat n x)], the count the second operand. *)
Definition countedStep (kind : StepKind) (name : bytes) (args : list V) : M V :=
  match args with
  | [x] => lazyStep kind x Nil Nil Nil
  | [n; x] => _ ← requireNumber n name; lazyStep kind x n Nil Nil
  | _ => arityOf (length args) name
  end.

Definition prim_repeat (args : list V) : M V := countedStep Repeat (s2b "repeat") args.
Definition prim_repeatedly (args : list V) : M V := countedStep Repeatedly (s2b "repeatedly") args.

Definition unaryStep (kind : StepKind) (name : bytes) (args : list V) : M V :=
  if negb (length args =? 1)%nat then arityOf (length args) name
  else lazyStep kind (arg args 0) Nil Nil Nil.

Definition prim_cycle (args : list V) : M V := unaryStep Cycle (s2b "cycle") args.
Definition prim_distinct (args : list V) : M V := unaryStep Distinct (s2b "distinct") args.

(** A zero step repeats the start without end, unless start equals end. *)
Definition prim_range (args : list V) : M V :=
  let n := length args in
  if (3 <? n)%nat then arityOf n (s2b "range")
  else if (n =? 0)%nat then lazyStep RangeInf (Int 0) (Int 1) Nil Nil
  else
    let start := if (n =? 1)%nat then Int 0 else arg args 0 in
    let end_ := if (n =? 1)%nat then arg args 0 else arg args 1 in
    let step := if (n =? 3)%nat then arg args 2 else Int 1 in
    _ ← requireNumber start (s2b "range");
    _ ← requireNumber end_ (s2b "range");
    _ ← requireNumber step (s2b "range");
    c ← numberCompare step (Int 0);
    if c =? 0 then
      d ← numberCompare start end_;
      if d =? 0 then mret emptyList else lazyStep Repeat start Nil Nil Nil
    else lazyStep Range start end_ step Nil.

Definition prim_mapcat (args : list V) : M V :=
  let n := length args in
  if (n =? 1)%nat then noTransducer (s2b "mapcat: the transducer arity (mapcat f) is not supported (D49)")
  else if (n <? 2)%nat then arityOf n (s2b "mapcat")
  else
    mapped ← (if (n =? 2)%nat then lazyStep Map1 (arg args 0) (arg args 1) Nil Nil
              else lazyStep MapN (arg args 0) (PList (drop 1 args)) Nil Nil);
    lazyStep Concat Nil mapped Nil Nil.

Definition partitionPrim (all : bool) (args : list V) : M V :=
  let n := length args in
  let name := if all then s2b "partition-all" else s2b "partition" in
  if (n <? 2)%nat || ((if all then 3 else 4) <? n)%nat then
    if (n =? 1)%nat then noTransducer (name ++ s2b ": the transducer arity is not supported (D49)")
    else arityOf n name
  else
    let size := arg args 0 in
    let step := if (3 <=? n)%nat then arg args 1 else size in
    let pad := if (n =? 4)%nat then arg args 2 else Nil in
    let coll := arg args (n - 1) in
    _ ← requireNumber size name;
    _ ← requireNumber step name;
    let mode := if all then 2 else if (n =? 4)%nat then 1 else 0 in
    lazyStep5 Partition size step pad (Int mode) coll.

Definition prim_partition (args : list V) : M V := partitionPrim false args.
Definition prim_partition_all (args : list V) : M V := partitionPrim true args.

Definition prim_interleave (args : list V) : M V :=
  match args with
  | [] => mret emptyList
  | [c] => lazyStep Concat c Nil Nil Nil
  | _ => lazyStep Interleave (PList args) Nil Nil Nil
  end.

(** Walks a collection, to [limit] elements when there is a limit. *)
Definition walkAll (stack : nat) (coll : V) (limit : option Z) : M unit :=
  w ← startWalk (realizeLazy stack) coll;
  match limit with
  | Some limit =>
      if limit <? 0 then _ ← walkToEnd (realizeLazy stack) turns w []; mret tt
      else _ ← walkSteps turns (realizeLazy stack) limit w; mret tt
  | None => _ ← walkToEnd (realizeLazy stack) turns w []; mret tt
  end.

(** [dorun] and [doall], which answers the collection. *)
Definition realizingPrim (stack : nat) (name : bytes) (answer : V -> V) (args : list V) : M V :=
  match args with
  | [coll] => _ ← walkAll stack coll None; mret (answer coll)
  | [n; coll] =>
      _ ← requireNumber n name;
      limit ← countOperand n;
      _ ← walkAll stack coll (Some limit);
      mret (answer coll)
  | _ => arityOf (length args) name
  end.

Definition prim_dorun (stack : nat) (args : list V) : M V := realizingPrim stack (s2b "dorun") (fun _ => Nil) args.
Definition prim_doall (stack : nat) (args : list V) : M V := realizingPrim stack (s2b "doall") (fun coll => coll) args.

Fixpoint runEach (realize : nat -> M V) (n : nat) (proc : V) (w : walk) : M V :=
  match n with
  | O => raise NoTurns
  | S n =>
      if walkDone w then mret Nil
      else
        _ ← call1 proc (walkFirst w);
        w ← walkAdvance realize w;
        runEach realize n proc w
  end.

Definition prim_run_bang (stack : nat) (args : list V) : M V :=
  if negb (length args =? 2)%nat then arityOf (length args) (s2b "run!")
  else
    w ← startWalk (realizeLazy stack) (arg args 1);
    runEach (realizeLazy stack) turns (arg args 0) w.

Definition prim_chunked_seq_p (args : list V) : M V :=
  if negb (length args =? 1)%nat then arityOf (length args) (s2b "chunked-seq?")
  else mret (Bool (isChunkedSeq (arg args 0))).

Definition prim_for_step (args : list V) : M V :=
  let n := length args in
  if negb (n =? 2)%nat && negb (n =? 3)%nat then arityOf n (s2b "__for-step")
  else if negb seqContext then
    throwClass (s2b "RuntimeException") (s2b "__for-step: no active VM context")
  else
    stop ← look (fun s => forStop (world s));
    let inner := Bool ((n =? 3)%nat && truthyVal (arg args 2)) in
    lazyStep For (arg args 0) (arg args 1) stop inner.

Definition kLazyPrims (stack : nat) : list (bytes * (list V -> M V)) :=
  [(s2b "__lazy-seq", prim_lazy_seq_fn); (s2b "map", prim_map); (s2b "filter", prim_filter);
   (s2b "remove", prim_remove); (s2b "take", prim_take); (s2b "take-while", prim_take_while);
   (s2b "drop", prim_drop); (s2b "drop-while", prim_drop_while); (s2b "iterate", prim_iterate);
   (s2b "repeat", prim_repeat); (s2b "repeatedly", prim_repeatedly); (s2b "cycle", prim_cycle);
   (s2b "range", prim_range); (s2b "mapcat", prim_mapcat); (s2b "partition", prim_partition);
   (s2b "partition-all", prim_partition_all); (s2b "interleave", prim_interleave);
   (s2b "distinct", prim_distinct); (s2b "dorun", prim_dorun stack); (s2b "doall", prim_doall stack);
   (s2b "run!", prim_run_bang stack); (s2b "chunked-seq?", prim_chunked_seq_p);
   (s2b "__for-step", prim_for_step)].

End Threads.

End LazySeq.
