(* ===== verification/DemoLazy.v ===== *)
(** A concrete environment for the lazy sequences: functions named by strings, sets of
    integers, a world that logs the arguments of [trace]. *)

From S2P Require Import Prelude Values Printer DataFormats LazySeq.

#[local] Set Warnings "-register-all".

Module Demo.

Inductive other := Fun (name : bytes) | Text (s : bytes) | IntSet (xs : list Z).

#[local] Abbreviation V := (val other).
#[local] Abbreviation M := (E (seqError bytes) (seqState other (list Z))).

Definition fn (name : string) : V := Other (Fun (s2b name)).

Definition isOdd (v : V) : V := match v with Int z => Bool (Z.odd z) | _ => Bool false end.
Definition addAll (args : list V) : V :=
  Int (fold_left (fun s v => match v with Int z => s + z | _ => s end) args 0).

(** [trace] logs its argument and answers it; [fail] raises; [self] answers the first
    lazy seq of the store. *)
Definition demoInvoke (f : V) (args : list V) : M V :=
  match f with
  | Other (Fun name) =>
      if bool_decide (name = s2b "inc") then mret (addAll (Int 1 :: args))
      else if bool_decide (name = s2b "+") then mret (addAll args)
      else if bool_decide (name = s2b "odd?") then mret (isOdd (default Nil (head args)))
      else if bool_decide (name = s2b "small?")
      then mret (Bool (match args with [Int z] => z <? 5 | _ => false end))
      else if bool_decide (name = s2b "twice") then mret (Lst (args ++ args))
      else if bool_decide (name = s2b "self") then mret (Lazy 0)
      else if bool_decide (name = s2b "trace") then
        match args with
        | [Int z] => fun s => (Ok (Int z), mkSeqState (cells s) (realizing s) (world s ++ [z]))
        | _ => mret Nil
        end
      else raise (Raised (s2b "fail"))
  | _ => raise (Raised (s2b "not a fn"))
  end.

Definition zOf (v : V) : option Z := match v with Int z => Some z | _ => None end.

#[export] Instance demoSeqEnv : SeqEnv other bytes (list Z) := {
  invoke := demoInvoke;
  collectionItems a := match a with IntSet xs => Some (map Int xs) | _ => None end;
  emptySet := IntSet [];
  setConj a v := mret (match a, v with IntSet xs, Int z => IntSet (xs ++ [z]) | _, _ => a end);
  setGet a v := mret (match a, v with IntSet xs, Int z => bool_decide (z ∈ xs) | _, _ => false end);
  addNumbers a b := a;
  compareFloats a b := 0;
  asLong z := Throw (s2b "too large");
  otherStep _ _ _ := mret Nil;
  otherTypeName _ := s2b "a fn";
  forStop _ := Other (Fun (s2b "for-stop"));
  sameOther a b := match a, b with Fun x, Fun y => bool_decide (x = y) | _, _ => false end;
  seqContext := true;
  stackText := s2b "StackOverflowError";
}.

Definition start : seqState other (list Z) := mkSeqState [] [] [].

(** The elements of what [m] answers. *)
Definition itemsOf (m : M V) : result (seqError bytes) (list V) * list Z :=
  let '(r, s) := (v ← m; seqToList 200 (realizeLazy 200 20) v) start in (r, world s).

End Demo.
