(* ===== verification/LazyFacts.v ===== *)
(** Lazy sequences (runtime/LazySeq.cpp): the direct reads agree with the seq protocol,
    and what realising a lazy seq does to the store, whatever its function does. *)

From S2P Require Import Prelude Values DataFormats LazySeq DemoLazy.

#[local] Set Warnings "-register-all".

Lemma take_drop_cons {B} (items : list B) i k x : items !! i = Some x -> (0 < k)%nat ->
  take k (drop i items) = x :: take (k - 1) (drop (S i) items).
Proof.
  intros Hx Hk. rewrite (drop_S _ _ _ Hx). destruct k as [|k]; [lia|]. cbn. by rewrite Nat.sub_0_r.
Qed.

Section Facts.
Context {A exn W : Type} `{SeqEnv A exn W}.

#[local] Abbreviation V := (val A).
#[local] Abbreviation M := (E (seqError exn) (seqState A W)).

(** ** Nodes

    The elements of a chunk are there, at least one of them. *)
Fixpoint wellFormed (v : V) : Prop :=
  match v with
  | Cons _ more => wellFormed more
  | Chunk items off end_ more _ => (off < end_ <= length items)%nat /\ wellFormed more
  | _ => True
  end.

(** The elements of a chain of nodes that reaches no lazy seq and no other collection. *)
Fixpoint knownElements (v : V) : option (list V) :=
  match v with
  | Nil => Some []
  | Vect items | Lst items => Some items
  | Cons x more => (x ::.) <$> knownElements more
  | Chunk items off end_ more _ => (take (end_ - off) (drop off items) ++.) <$> knownElements more
  | _ => None
  end.

(** ** Direct reads *)

Section Reads.
Context (realize : nat -> M V).

(** The functions of the core library on the general path: [first], [rest], [next],
    [empty?]. *)
Definition generalFirst (v : V) : M V := s ← seqOf realize v; mret (if isNil s then Nil else seqFirst s).
Definition generalRest (v : V) : M V := s ← seqOf realize v; mret (if isNil s then emptyList else seqMore s).
Definition generalNext (v : V) : M V := s ← seqOf realize v; if isNil s then mret Nil else seqOf realize (seqMore s).
Definition generalEmpty (v : V) : M bool := s ← seqOf realize v; mret (isNil s).

Lemma trySeq_agrees v s st : trySeq v = Some s -> seqOf realize v st = (Ok s, st).
Proof. destruct v as [| | | | |items|[|x items]| | | |]; cbn; intros [= <-]; done. Qed.

Lemma orEmpty_seq more s st : trySeq more = Some s -> seqOf realize (orEmpty more) st = (Ok s, st).
Proof. destruct more as [| | | | |items|[|x items]| | | |]; cbn; intros [= <-]; done. Qed.

Lemma seqMore_vector items : items <> [] -> seqMore (chunkOver items true) = vectorRest items (emptyList : V).
Proof. destruct items as [|x [|y items]]; done. Qed.

(** *** Walks *)

(** What is left of a walk that reaches no lazy seq. *)
Definition walkLeft (w : walk) : option (list V) :=
  match node_ w with
  | None => Some []
  | Some (Lst items) => Some (drop (i_ w) items)
  | Some (Chunk items _ _ more _) => (take (end__ w - i_ w) (drop (i_ w) items) ++.) <$> knownElements more
  | Some node => knownElements node
  end.

(** The position is in the node's stretch. *)
Definition inStretch (w : walk) : Prop :=
  match node_ w with
  | None => True
  | Some (Lst items) => (i_ w < end__ w <= length items)%nat
  | Some (Chunk items off _ more _) => (off <= i_ w < end__ w)%nat /\ (end__ w <= length items)%nat /\ wellFormed more
  | Some (Cons _ more) => wellFormed more
  | Some _ => False
  end.

Lemma listHeadCount_bounds (x : V) items : (0 < listHeadCount (length (x :: items)) <= length (x :: items))%nat.
Proof.
  unfold listHeadCount. cbn [length]. pose proof (Nat.mod_upper_bound (S (length items) - 1) 4).
  pose proof (Nat.Div0.mod_le (S (length items) - 1) 4). lia.
Qed.

Lemma load_inStretch v : isNode v = true -> wellFormed v -> inStretch (load v).
Proof.
  destruct v as [| | | | | |[|x items]| | | |]; try done; cbn -[listHeadCount].
  - intros _ _. exact (listHeadCount_bounds x items).
  - intros _ [? ?]. split_and!; [lia..|done].
Qed.

Lemma load_left v : isNode v = true -> walkLeft (load v) = knownElements v.
Proof. by destruct v as [| | | | | |[|x items]| | | |]. Qed.

(** Moving on to what follows a node. *)
Lemma load_more more l st : knownElements more = Some l -> wellFormed more -> exists w,
  (match more with
   | Nil | Lst [] => mret (mkWalk None 0 0)
   | Lst _ | Cons _ _ | Chunk _ _ _ _ _ => mret (load more)
   | _ => s ← seqOf realize more; mret (load s)
   end) st = (Ok w, st) /\ walkLeft w = Some l /\ inStretch w.
Proof.
  intros Hl Hw. destruct more as [| | | | |[|x items]|[|x items]| | | |]; try done.
  - by exists (mkWalk None 0 0).
  - by exists (mkWalk None 0 0).
  - exists (load (chunkOver (x :: items) true)). split; [done|]. cbn in *. split.
    + injection Hl as <-. by rewrite app_nil_r, firstn_all.
    + split_and!; [lia..|done].
  - by exists (mkWalk None 0 0).
  - exists (load (Lst (x :: items))). split; [done|]. split; [done|by apply load_inStretch].
  - exists (load (Cons more1 more2)). split; [done|]. rewrite load_left by done. split; [done|by apply load_inStretch].
  - exists (load (Chunk items off end_ more chunked)). split; [done|]. rewrite load_left by done.
    split; [done|by apply load_inStretch].
Qed.

(** A step of a walk: the current element, and the rest. *)
Lemma advance_known w l st : walkLeft w = Some l -> inStretch w -> walkDone w = false ->
  exists x l' w', l = x :: l' /\ walkFirst w = x /\ walkAdvance realize w st = (Ok w', st) /\
    walkLeft w' = Some l' /\ inStretch w'.
Proof.
  destruct w as [[node|] i e]; [|done]. unfold walkLeft, inStretch, walkFirst, walkAdvance. cbn [node_ i_ end__].
  intros Hl Hs _. destruct node as [| | | | | |items| |y more|items off end_ more chunked|]; try done.
  - injection Hl as <-. destruct (lookup_lt_is_Some_2 items i ltac:(lia)) as [x Hx].
    exists x, (drop (S i) items). cbn [negb andb]. rewrite Hx. destruct (Nat.ltb_spec (S i) e).
    + eexists. split; [by apply drop_S|]. split_and!; [done..|]. cbn. lia.
    + replace (S i) with e by lia. rewrite (drop_S _ _ _ Hx). replace (S i) with e by lia.
      destruct (load_more (Lst (drop e items)) (drop e items) st eq_refl I) as (w & Ew & Hl & Hw).
      exists w. by destruct (drop e items).
  - cbn in Hl. destruct (knownElements more) as [l'|] eqn:Em; [|done]. injection Hl as <-.
    destruct (load_more more l' st Em Hs) as (w & Ew & Hl & Hw). by exists y, l', w.
  - destruct Hs as (Hi & He & Hw). destruct (knownElements more) as [l'|] eqn:Em; [|done]. injection Hl as <-.
    destruct (lookup_lt_is_Some_2 items i ltac:(lia)) as [x Hx]. cbn [negb andb].
    exists x, (take (e - i - 1) (drop (S i) items) ++ l'). rewrite Hx.
    destruct (Nat.ltb_spec (S i) e).
    + eexists. rewrite (take_drop_cons items i _ x Hx) by lia. split; [done|]. split; [done|].
      split; [done|]. cbn. rewrite Em. split_and!; [|lia..|done].
      by replace (e - S i)%nat with (e - i - 1)%nat by lia.
    + replace (e - i)%nat with 1%nat by lia. cbn [Nat.sub take app].
      destruct (load_more more l' st Em Hw) as (w & Ew & Hl & Hw'). exists w.
      rewrite (take_drop_cons items i _ x Hx) by lia. done.
Qed.

Lemma walkToEnd_known n w l acc st : walkLeft w = Some l -> inStretch w -> (length l < n)%nat ->
  walkToEnd realize n w acc st = (Ok (acc ++ l), st).
Proof.
  revert w l acc. induction n as [|n IH]; intros w l acc Hl Hs Hn; [lia|]. cbn [walkToEnd].
  destruct (walkDone w) eqn:Ed.
  - destruct w as [[node|] i e]; [done|]. injection Hl as <-. by rewrite app_nil_r.
  - destruct (advance_known w l st Hl Hs Ed) as (x & l' & w' & -> & Hx & Ea & Hl' & Hs').
    unfold mbind, E_bind. rewrite Ea, Hx, (IH w' l') by (done || (cbn in Hn; lia)). by rewrite <- app_assoc.
Qed.

Lemma tryCount_known n v c : tryCountFrom n v = Some c -> wellFormed v ->
  exists l, knownElements v = Some l /\ c = (n + length l)%nat.
Proof.
  revert n. induction v as [| | | | |items|items| |x _ more IH|items off end_ more IH chunked|]; intros n Hc Hw;
    cbn in *; try done.
  - injection Hc as <-. exists []. cbn. split; [done|lia].
  - injection Hc as <-. by exists items.
  - injection Hc as <-. by exists items.
  - destruct (IH _ Hc Hw) as (l & -> & ->). exists (x :: l). cbn. split; [done|lia].
  - destruct Hw as [Hw Hm]. destruct (IH _ Hc Hm) as (l & -> & ->).
    eexists. cbn. split; [done|]. rewrite length_app, length_take, length_drop. lia.
Qed.

(** C30. The direct reads, which the virtual machine and the primitives use on the values
    they can read without running code, answer what the seq protocol answers, and change
    nothing; the count is that of the elements a walk passes. *)
Theorem direct_reads_agree turns v st : wellFormed v ->
  (forall s, trySeq v = Some s -> seqOf realize v st = (Ok s, st)) /\
  (forall x, tryFirst v = Some x -> generalFirst v st = (Ok x, st)) /\
  (forall r, tryRest v = Some r -> generalRest v st = (Ok r, st)) /\
  (forall r, tryNext v = Some r -> generalNext v st = (Ok r, st)) /\
  (forall b, tryEmpty v = Some b -> generalEmpty v st = (Ok b, st)) /\
  (forall n, tryCount v = Some n -> (n < turns)%nat ->
     exists l, seqToList turns realize v st = (Ok l, st) /\ length l = n).
Proof.
  intros Hw. split; [intros s; by apply trySeq_agrees|].
  unfold generalFirst, generalRest, generalNext, generalEmpty, mbind, E_bind.
  split_and!.
  - intros x. destruct v as [| | | | |[|y items]|[|y items]| | | |]; cbn; intros [= <-]; done.
  - intros r. destruct v as [| | | | |[|y [|z items]]|[|y items]| | | |]; cbn; intros [= <-]; done.
  - intros r. destruct v as [| | | | |[|y [|z items]]|[|y items]| |y more|items off end_ more chunked|];
      cbn; try (intros [= <-]; done).
    + intros [= <-]. by destruct items.
    + apply orEmpty_seq.
    + case_match; [by intros [= <-]|apply orEmpty_seq].
  - intros b. destruct v as [| | | | |[|y items]|[|y items]| | | |]; cbn; intros [= <-]; done.
  - intros n Hn Hl. destruct (tryCount_known 0 v n Hn Hw) as (l & Hk & ->). exists l. split; [|done].
    assert (Hnode : isNode v = true -> walkToEnd realize turns (load v) [] st = (Ok l, st)).
    { intros Hv. apply (walkToEnd_known turns (load v) l []); [by rewrite load_left|by apply load_inStretch|done]. }
    destruct v as [| | | | |items|items| | | |]; cbn in Hk; try done; try (by injection Hk as <-);
      unfold seqToList, startWalk, mbind, E_bind; by apply Hnode.
Qed.

End Reads.
(** ** What a realisation does to the store *)

(** A realised cell keeps its seq, a claimed one its claim; an unrealised one keeps its
    producer or is realised. *)
Definition cellStep (c c' : cell A) : Prop :=
  match c with
  | Unrealized t => c' = Unrealized t \/ exists v, c' = Realized v
  | _ => c' = c
  end.

Definition unclaimed (c : cell A) : Prop := match c with Claimed _ => False | _ => True end.

(** No claim is left behind, in the cells or on the list of this thread's. *)
Definition settles (s s' : seqState A W) : Prop :=
  realizing s' = realizing s /\
  (forall id c, cells s !! id = Some c -> exists c', cells s' !! id = Some c' /\ cellStep c c') /\
  (forall id c', cells s' !! id = Some c' -> (length (cells s) <= id)%nat -> unclaimed c').

#[export] Instance settles_refl : Reflexive settles.
Proof.
  intros s. split; [done|]. split.
  - intros id c Hc. exists c. split; [done|]. destruct c; cbn; auto.
  - intros id c' Hc' Hl. apply lookup_lt_Some in Hc'. lia.
Qed.

Lemma cellStep_trans c1 c2 c3 : cellStep c1 c2 -> cellStep c2 c3 -> cellStep c1 c3.
Proof.
  destruct c1; cbn; [|by intros -> ?..]. intros [-> | [v ->]]; cbn; [done|]. intros ->. right. by exists v.
Qed.

#[export] Instance settles_trans : Transitive settles.
Proof.
  intros s1 s2 s3 (Hr1 & Hc1 & Hn1) (Hr2 & Hc2 & Hn2). split; [congruence|]. split.
  - intros id c Hc. destruct (Hc1 id c Hc) as (c' & Hc' & Hs). destruct (Hc2 id c' Hc') as (c2 & Hc2' & Hs2).
    exists c2. split; [done|by eapply cellStep_trans].
  - intros id c3 Hc3 Hl. destruct (cells s2 !! id) as [c2|] eqn:E2.
    + specialize (Hn1 id c2 E2 Hl). destruct (Hc2 id c2 E2) as (c3' & E3 & Hs).
      rewrite E3 in Hc3. injection Hc3 as ->. destruct c2; cbn in *; [|done|by subst].
      by destruct Hs as [-> | [v ->]].
    + apply (Hn2 id c3 Hc3). apply lookup_ge_None in E2. exact E2.
Qed.

(** A computation that settles, whether it answers or raises. *)
Definition calm {B} (m : M B) : Prop := forall s r s', m s = (r, s') -> settles s s'.

Lemma calm_ret {B} (b : B) : calm (mret b).
Proof. intros s r s' [= _ <-]. reflexivity. Qed.

Lemma calm_raise {B} e : calm (raise (A := B) e).
Proof. intros s r s' [= _ <-]. reflexivity. Qed.

Lemma calm_look {B} (f : seqState A W -> B) : calm (look f).
Proof. intros s r s' [= _ <-]. reflexivity. Qed.

Lemma calm_bind {B C} (m : M B) (k : B -> M C) : calm m -> (forall b, calm (k b)) -> calm (m ≫= k).
Proof.
  intros Hm Hk s r s'. unfold mbind, E_bind. destruct (m s) as [[b|e] s1] eqn:E1; intros Er.
  - transitivity s1; [by eapply Hm|by eapply Hk].
  - injection Er as _ <-. by eapply Hm.
Qed.

Lemma calm_newLazySeq t : calm (newLazySeq t).
Proof.
  intros s r s' [= _ <-]. split; [done|]. cbn. split.
  - intros id c Hc. exists c. split; [|destruct c; cbn; auto].
    by apply lookup_app_l_Some.
  - intros id c' Hc' Hl. rewrite lookup_app_r in Hc' by done.
    by apply list_lookup_singleton_Some in Hc' as [_ <-].
Qed.

Lemma calm_throwClass {B} c m : calm (throwClass (B := B) c m).
Proof. apply calm_raise. Qed.

End Facts.

Create HintDb calm.
#[export] Hint Resolve calm_ret calm_raise calm_look calm_newLazySeq calm_throwClass : calm.

(** Follows a computation to the parts whose lemma is known. *)
Ltac calmly := repeat match goal with
  | |- calm (_ ≫= _) => apply calm_bind; [|intros ?]
  | |- calm (if ?b then _ else _) => destruct b
  | |- calm (match ?x with _ => _ end) => destruct x
  | |- calm _ => solve [eauto with calm]
  end.

(** What the functions the program calls are relied on for: they realise seqs and build
    them, and leave no claim behind. *)
Class SettlingEnv {A exn W : Type} `{SeqEnv A exn W} : Prop := {
  invoke_calm f args : calm (invoke f args);
  setConj_calm a v : calm (setConj a v);
  setGet_calm a v : calm (setGet a v);
  otherStep_calm k self args : calm (otherStep k self args);
}.
#[export] Hint Resolve invoke_calm setConj_calm setGet_calm otherStep_calm : calm.

Section Settling.
Context {A exn W : Type} `{SettlingEnv A exn W}.

#[local] Abbreviation V := (val A).
#[local] Abbreviation M := (E (seqError exn) (seqState A W)).

Lemma calm_call f args : calm (call f args).
Proof. unfold call. calmly. Qed.

Lemma calm_call1 f x : calm (call1 f x).
Proof. apply calm_call. Qed.

Lemma calm_requireNumber v name : calm (requireNumber v name).
Proof. unfold requireNumber, throwNotANumber. calmly. Qed.

#[local] Hint Resolve calm_call calm_call1 calm_requireNumber : calm.

Lemma calm_numberAdd a b : calm (numberAdd a b).
Proof. unfold numberAdd. calmly. Qed.

Lemma calm_numberCompare a b : calm (numberCompare a b).
Proof. unfold numberCompare. calmly. Qed.

Lemma calm_countOperand n : calm (countOperand n).
Proof. unfold countOperand, throwNotANumber. calmly. Qed.

#[local] Hint Resolve calm_numberAdd calm_numberCompare calm_countOperand : calm.

Section Steps.
Context (turns : nat) (realize : nat -> M V) (Hrealize : forall id, calm (realize id)).

#[local] Hint Resolve Hrealize : calm.

Lemma calm_seqOf v : calm (seqOf realize v).
Proof. unfold seqOf, dontKnow. calmly. Qed.

#[local] Hint Resolve calm_seqOf : calm.

Lemma calm_startWalk v : calm (startWalk realize v).
Proof. unfold startWalk. calmly. Qed.

Lemma calm_walkAdvance w : calm (walkAdvance realize w).
Proof. unfold walkAdvance. destruct w as [[node|] i e]; cbn [node_]; calmly. Qed.

#[local] Hint Resolve calm_startWalk calm_walkAdvance : calm.

Lemma calm_walkToEnd n w acc : calm (walkToEnd realize n w acc).
Proof. revert w acc. induction n as [|n IH]; intros w acc; cbn [walkToEnd]; calmly. Qed.

Lemma calm_walkTake n w acc : calm (walkTake realize n w acc).
Proof. revert w acc. induction n as [|n IH]; intros w acc; cbn [walkTake]; calmly. Qed.

#[local] Hint Resolve calm_walkToEnd calm_walkTake : calm.

Lemma calm_walkSteps n w : calm (walkSteps turns realize n w).
Proof. unfold walkSteps. calmly. Qed.

Lemma calm_seqToList v : calm (seqToList turns realize v).
Proof. unfold seqToList, dontKnow. calmly. Qed.

Lemma calm_restOfWalk w : calm (restOfWalk realize w).
Proof. unfold restOfWalk. calmly. Qed.

Lemma calm_callEach f xs acc : calm (callEach f xs acc).
Proof. revert acc. induction xs as [|x xs IH]; intros acc; cbn [callEach]; calmly. Qed.

Lemma calm_keepEach f b xs acc : calm (keepEach f b xs acc).
Proof. revert acc. induction xs as [|x xs IH]; intros acc; cbn [keepEach]; calmly. Qed.

Lemma calm_tailStep (v : V) (t : thunk A) : calm (tailStep (exn := exn) (W := W) v t).
Proof. unfold tailStep. calmly. Qed.

Lemma calm_firstsAndRests colls firsts rests : calm (firstsAndRests realize colls firsts rests).
Proof. revert firsts rests. induction colls as [|c colls IH]; intros; cbn [firstsAndRests]; calmly. Qed.

#[local] Hint Resolve calm_walkSteps calm_seqToList calm_restOfWalk calm_callEach calm_keepEach
  calm_tailStep calm_firstsAndRests : calm.

Lemma calm_filterFrom n a c src : calm (filterFrom realize n a c src).
Proof. revert src. induction n as [|n IH]; intros src; cbn [filterFrom]; unfold walkNext; calmly. Qed.

Lemma calm_dropWhileFrom n a w : calm (dropWhileFrom realize n a w).
Proof. revert w. induction n as [|n IH]; intros w; cbn [dropWhileFrom]; calmly. Qed.

Lemma calm_numberRange k up x e step acc : calm (numberRange k up x e step acc).
Proof. revert x acc. induction k as [|k IH]; intros x acc; cbn [numberRange]; calmly. Qed.

Lemma calm_prependSeq (sq rest : V) : calm (prependSeq (exn := exn) (W := W) sq rest).
Proof. unfold prependSeq. calmly. Qed.

#[local] Hint Resolve calm_filterFrom calm_dropWhileFrom calm_numberRange calm_prependSeq : calm.

Lemma calm_concatFrom n s colls : calm (concatFrom realize n s colls).
Proof. revert s colls. induction n as [|n IH]; intros s colls; cbn [concatFrom]; calmly. Qed.

Lemma calm_forEach f stop xs acc : calm (forEach turns realize f stop xs acc).
Proof. revert acc. induction xs as [|x xs IH]; intros acc; cbn [forEach]; calmly. Qed.

#[local] Hint Resolve calm_concatFrom calm_forEach : calm.

Lemma calm_forFrom n b c d src : calm (forFrom turns realize n b c d src).
Proof. revert src. induction n as [|n IH]; intros src; cbn [forFrom]; unfold walkNext; calmly. Qed.

Lemma calm_distinctFrom n seen s : calm (distinctFrom realize n seen s).
Proof. revert seen s. induction n as [|n IH]; intros seen s; cbn [distinctFrom]; unfold walkNext; calmly. Qed.

#[local] Hint Resolve calm_forFrom calm_distinctFrom : calm.

Lemma calm_runThunk self t : calm (runThunk turns realize self t).
Proof.
  unfold runThunk, stepMap1, stepMapN, stepFilter, stepTake, stepTakeWhile, stepDrop, stepDropWhile, stepIterate,
    stepIterateNext, stepRepeat, stepRepeatedly, stepCycle, stepRange, stepRangeInf, stepConcat, stepPartition,
    stepInterleave, stepFor, stepDistinct. calmly.
Qed.

End Steps.
(** *** Realisation *)

Lemma lookup_setCell id (c : cell A) id' (s : seqState A W) : (id < length (cells s))%nat ->
  cells (setCell id c s) !! id' = if decide (id = id') then Some c else cells s !! id'.
Proof.
  intros Hl. cbn. destruct (decide (id = id')) as [<-|Hne]; [by apply list_lookup_insert_eq|].
  by apply list_lookup_insert_ne.
Qed.

(** A cell that was unrealised, or claimed since, gets its seq or its producer back. *)
Lemma settles_set (s s1 : seqState A W) id (t : thunk A) c c' : settles s s1 -> cells s !! id = Some (Unrealized t) ->
  cells s1 !! id = Some c -> cellStep (Unrealized t) c' -> settles s (setCell id c' s1).
Proof.
  intros (Hr & Hc & Hn) Hid Hid1 Hs. apply lookup_lt_Some in Hid1 as Hl.
  split; [done|]. split.
  - intros i ci Hi. rewrite lookup_setCell by done. destruct (decide (id = i)) as [<-|Hne]; [|by apply Hc].
    rewrite Hid in Hi. injection Hi as <-. by exists c'.
  - intros i ci Hi Hlen. rewrite lookup_setCell in Hi by done. destruct (decide (id = i)) as [<-|Hne].
    + apply lookup_lt_Some in Hid. lia.
    + by apply (Hn i).
Qed.

(** The store and the list while the function of [id] runs. *)
Definition claimedState (id : nat) (t : thunk A) (s : seqState A W) : seqState A W :=
  setRealizing (realizing s ++ [id]) (setCell id (Claimed t) s).

Lemma settles_claimed (s s1 : seqState A W) id (t : thunk A) : cells s !! id = Some (Unrealized t) -> settles (claimedState id t s) s1 ->
  cells s1 !! id = Some (Claimed t) /\ removelast (realizing s1) = realizing s /\
  forall c', cellStep (Unrealized t) c' -> settles s (setCell id c' (setRealizing (realizing s) s1)).
Proof.
  intros Hid (Hr & Hc & Hn). apply lookup_lt_Some in Hid as Hl.
  assert (Hcl : cells (claimedState id t s) !! id = Some (Claimed t)) by (by apply list_lookup_insert_eq).
  destruct (Hc id _ Hcl) as (c1 & Hc1 & Es). cbn in Es. subst c1.
  split; [done|]. split; [rewrite Hr; cbn; apply removelast_last|].
  intros c' Hs. apply lookup_lt_Some in Hc1 as Hl1. split; [done|]. split.
  - intros i ci Hi. rewrite lookup_setCell by done. destruct (decide (id = i)) as [<-|Hne].
    + rewrite Hid in Hi. injection Hi as <-. by exists c'.
    + cbn. apply (Hc i ci). cbn. by rewrite list_lookup_insert_ne.
  - intros i ci Hi Hlen. rewrite lookup_setCell in Hi by done. destruct (decide (id = i)) as [<-|Hne]; [lia|].
    apply (Hn i ci Hi). cbn. by rewrite length_insert.
Qed.

(** What [realize] is to do: settle, and answer the seq the cell then holds. *)
Definition realizes (m : nat -> M V) : Prop := forall id s r s', m id s = (r, s') ->
  settles s s' /\ forall v, r = Ok v -> cells s' !! id = Some (Realized v).

Lemma realizes_calm m id : realizes m -> calm (m id).
Proof. intros Hm s r s' E. by destruct (Hm id s r s' E). Qed.

Lemma realizeRounds_realizes turns realize n : realizes realize ->
  realizes (realizeRounds turns realize n).
Proof.
  intros Hreal. assert (Hcalm : forall id, calm (realize id)) by (intros; by apply realizes_calm).
  induction n as [|n IH]; intros id s r s'; cbn [realizeRounds]; [by intros [= <- <-]|].
  unfold mbind at 1, E_bind at 1, look at 1.
  destruct (cells s !! id) as [[t|t|v]|] eqn:Ec.
  - destruct (thunkIsPure t).
    + unfold mbind, E_bind. destruct (runThunk turns realize id t s) as [[v|e] s1] eqn:Er.
      * pose proof (calm_runThunk turns realize Hcalm id t s _ _ Er) as Hs.
        unfold publishLazy. destruct (proj1 (proj2 Hs) id _ Ec) as (c1 & Ec1 & [-> | [v1 ->]]); rewrite Ec1.
        -- intros [= <- <-]. split; [eapply settles_set; [exact Hs|exact Ec|exact Ec1|right; by exists v]|].
           intros v' [= <-]. apply lookup_lt_Some in Ec1. rewrite lookup_setCell by done. by case_decide.
        -- intros E. destruct (IH id s1 r s' E) as [Hs2 Hv]. split; [by transitivity s1|done].
      * intros [= <- <-]. split; [by eapply (calm_runThunk turns realize Hcalm)|done].
    + unfold claimLazy. unfold mbind at 1, E_bind at 1. rewrite Ec. cbn beta iota.
      unfold pushRealizing, update. unfold mbind at 1, E_bind at 1.
      change (setRealizing (realizing (setCell id (Claimed t) s) ++ [id]) (setCell id (Claimed t) s))
        with (claimedState id t s).
      unfold onThrow, popRealizing, update, unclaimLazy, publishLazy, raise, mbind, E_bind.
      destruct (runThunk turns realize id t (claimedState id t s)) as [[v|e] s1] eqn:Er;
        (pose proof (calm_runThunk turns realize Hcalm id t _ _ _ Er) as Hs);
        (destruct (settles_claimed s s1 id t Ec Hs) as (Ec1 & Hpop & Hset)); cbn [cells setRealizing];
        rewrite Ec1, Hpop; intros [= <- <-].
      * split; [by apply Hset; right; exists v|]. intros v' [= <-]. apply lookup_lt_Some in Ec1.
        rewrite lookup_setCell by done. by case_decide.
      * split; [by apply Hset; left|done].
  - unfold mbind, E_bind, look. case_bool_decide; [by intros [= <- <-]|]. apply IH.
  - intros [= <- <-]. split; [done|]. by intros v' [= <-].
  - by intros [= <- <-].
Qed.

Lemma realizeLazy_realizes turns stack : realizes (realizeLazy turns stack).
Proof. induction stack as [|stack IH]; [by intros id s r s' [= <- <-]|]. by apply realizeRounds_realizes. Qed.

(** A cell that runs code is claimed for the one run of its function, which settles what
    becomes of it. *)
Lemma realize_claimed turns stack id s (t : thunk A) : cells s !! id = Some (Unrealized t) -> thunkIsPure t = false ->
  let '(r, s1) := runThunk (S turns) (realizeLazy (S turns) stack) id t (claimedState id t s) in
  realizeLazy (S turns) (S stack) id s =
  (r, setCell id (match r with Ok v => Realized v | Throw _ => Unrealized t end) (setRealizing (realizing s) s1)).
Proof.
  intros Ec Hp. assert (Hcalm : forall i, calm (realizeLazy (S turns) stack i))
    by (intros; apply realizes_calm, realizeLazy_realizes).
  destruct (runThunk _ _ id t (claimedState id t s)) as [r s1] eqn:Er.
  destruct (settles_claimed s s1 id t Ec (calm_runThunk _ _ Hcalm id t _ _ _ Er)) as (Ec1 & Hpop & _).
  cbn [realizeLazy realizeRounds]. unfold mbind at 1, E_bind at 1, look at 1. rewrite Ec. cbn beta iota. rewrite Hp.
  unfold claimLazy. unfold mbind at 1, E_bind at 1. rewrite Ec. cbn beta iota.
  unfold pushRealizing, update. unfold mbind at 1, E_bind at 1.
  change (setRealizing (realizing (setCell id (Claimed t) s) ++ [id]) (setCell id (Claimed t) s))
    with (claimedState id t s).
  unfold onThrow, popRealizing, update, unclaimLazy, publishLazy, raise, mbind, E_bind. rewrite Er.
  destruct r as [v|e]; cbn [cells setRealizing]; by rewrite Ec1, Hpop.
Qed.

Lemma realized_read id s v turns stack : cells s !! id = Some (Realized v) ->
  realizeLazy (S turns) (S stack) id s = (Ok v, s).
Proof. intros Ec. cbn. unfold mbind, E_bind, look. by rewrite Ec. Qed.

End Settling.

(** ** Functions that call and are called

    What a function may do with the lazy seqs: make them, realise them, catch what
    realising them raises, and go on; what else it does leaves them alone. *)
Section Layers.
Context {A exn W : Type}.

#[local] Abbreviation V := (val A).
#[local] Abbreviation M := (E (seqError exn) (seqState A W)).

Inductive uses (realize : nat -> nat -> nat -> M V) : forall {B}, M B -> Prop :=
| uses_other {B} (m : M B) : (forall s, cells (m s).2 = cells s /\ realizing (m s).2 = realizing s) -> uses realize m
| uses_new t : uses realize (newLazySeq t)
| uses_realize turns stack id : uses realize (realize turns stack id)
| uses_bind {B C} (m : M B) (k : B -> M C) : uses realize m -> (forall b, uses realize (k b)) -> uses realize (m ≫= k)
| uses_catch {B} (m : M B) (handler : seqError exn -> M B) : uses realize m -> (forall e, uses realize (handler e)) ->
    uses realize (fun s => match m s with (Throw e, s) => handler e s | r => r end).

Record built (realize : nat -> nat -> nat -> M V) (env : SeqEnv A exn W) : Prop := {
  built_invoke f args : uses realize (invoke f args);
  built_setConj a v : uses realize (setConj a v);
  built_setGet a v : uses realize (setGet a v);
  built_otherStep k self args : uses realize (otherStep k self args);
}.

(** The calls of a program by how deep they nest: the functions called at a depth realise
    seqs whose functions are called at the depth below; the deepest realise none. *)
Class Layers (layer : nat -> SeqEnv A exn W) : Prop := {
  layers_0 : built (fun _ _ _ => raise NoTurns) (layer 0%nat);
  layers_S (n : nat) : built (@realizeLazy A exn W (layer n)) (layer (S n));
}.

Lemma uses_calm realize {B} (m : M B) : (forall turns stack id, calm (realize turns stack id)) -> uses realize m -> calm m.
Proof.
  intros Hr. induction 1 as [B m Hm|t|turns stack id|B C m k _ IHm _ IHk|B m handler _ IHm _ IHh].
  - intros s r s' E. destruct (Hm s) as [Hc Hl]. rewrite E in Hc, Hl. cbn in Hc, Hl.
    destruct (settles_refl s) as (_ & H1 & H2). unfold settles. by rewrite Hc, Hl.
  - apply calm_newLazySeq.
  - apply Hr.
  - by apply calm_bind.
  - intros s r s'. destruct (m s) as [[b|e] s1] eqn:E; [by intros [= _ <-]; eapply IHm|].
    intros Eh. transitivity s1; [by eapply IHm|by eapply IHh].
Qed.

Lemma built_settling realize env : (forall turns stack id, calm (realize turns stack id)) -> built realize env ->
  SettlingEnv (H := env).
Proof. intros Hr []. split; intros; by eapply uses_calm. Qed.

Context (layer : nat -> SeqEnv A exn W) {Hlayers : Layers layer}.

Lemma layer_settling n : SettlingEnv (H := layer n).
Proof.
  induction n as [|n IH]; (eapply built_settling; [|apply Hlayers]); intros turns stack id.
  - apply calm_raise.
  - apply (realizes_calm (realizeLazy turns stack)), realizeLazy_realizes.
Qed.

(** C15. Realising a lazy seq, whatever its function does with lazy seqs, in a call of any
    depth: the seqs realised before are kept, and no claim is left behind, on the cells
    or on the list of this thread's. A cell that runs code runs it once, claimed: what its
    function answers is the answer and the cell's from then on, and what it raises is
    raised, the function back in the cell, with nothing else changed but by the run. The
    seq answered is the one the cell holds, which every later reading answers at once. *)
Theorem realized_once n turns stack id s r s' : @realizeLazy A exn W (layer n) turns stack id s = (r, s') ->
  settles s s' /\
  (forall t, cells s !! id = Some (Unrealized t) -> thunkIsPure t = false -> (0 < turns)%nat -> (0 < stack)%nat ->
    let '(r1, s1) := @runThunk A exn W (layer n) turns (@realizeLazy A exn W (layer n) turns (pred stack)) id t (claimedState id t s) in
    r = r1 /\
    s' = setCell id (match r1 with Ok v => Realized v | Throw _ => Unrealized t end) (setRealizing (realizing s) s1)) /\
  forall v, r = Ok v -> cells s' !! id = Some (Realized v) /\
    forall s2 stack2 turns2, settles s' s2 ->
      @realizeLazy A exn W (layer n) (S turns2) (S stack2) id s2 = (Ok v, s2).
Proof.
  intros E. pose proof (layer_settling n) as Hn. destruct (realizeLazy_realizes turns stack id s r s' E) as [Hs Hv].
  split; [done|]. split.
  - intros t Ec Hp Ht Hst. destruct turns as [|turns], stack as [|stack]; try lia.
    pose proof (realize_claimed (H := layer n) turns stack id s t Ec Hp) as Hclaimed. cbn [pred] in *.
    destruct (runThunk _ _ id t _) as [r1 s1]. rewrite E in Hclaimed. by injection Hclaimed.
  - intros v ->. split; [by apply Hv|]. intros s2 stack2 turns2 (_ & Hc & _).
    destruct (Hc id _ (Hv v eq_refl)) as (c & Ec & ->). by apply (realized_read (H := layer n)).
Qed.

End Layers.

(** ** Examples *)

Module Settled.
Import Demo.

#[local] Abbreviation V := (val other).

Lemma demoInvoke_calm f args : calm (demoInvoke f args).
Proof.
  unfold demoInvoke. destruct f as [| | | |a| | | | | |]; try apply calm_raise. destruct a; try apply calm_raise.
  repeat (case_bool_decide; [try apply calm_ret|]); [|apply calm_raise].
  destruct args as [|[] []]; try apply calm_ret. intros s r s' [= _ <-]. by apply (settles_refl s).
Qed.

#[export] Instance demoSettling : SettlingEnv (A := other) (exn := bytes) (W := list Z).
Proof. split; [apply demoInvoke_calm| | |]; intros; apply calm_ret. Qed.

(** [force] realises the second lazy seq of the store, in the layer below. *)
Definition isForce (f : V) : bool := match f with Other (Fun name) => bool_decide (name = s2b "force") | _ => false end.

Definition withInvoke (inv : V -> list V -> E (seqError bytes) (seqState other (list Z)) V) : SeqEnv other bytes (list Z) := {|
  invoke := inv;
  collectionItems := @collectionItems _ _ _ demoSeqEnv;
  emptySet := @emptySet _ _ _ demoSeqEnv;
  setConj := @setConj _ _ _ demoSeqEnv;
  setGet := @setGet _ _ _ demoSeqEnv;
  addNumbers := @addNumbers _ _ _ demoSeqEnv;
  compareFloats := @compareFloats _ _ _ demoSeqEnv;
  asLong := @asLong _ _ _ demoSeqEnv;
  otherStep := @otherStep _ _ _ demoSeqEnv;
  otherTypeName := @otherTypeName _ _ _ demoSeqEnv;
  forStop := @forStop _ _ _ demoSeqEnv;
  sameOther := @sameOther _ _ _ demoSeqEnv;
  seqContext := true;
  stackText := @stackText _ _ _ demoSeqEnv;
|}.

Fixpoint demoLayer (n : nat) : SeqEnv other bytes (list Z) :=
  withInvoke (fun f args =>
    if isForce f then match n with O => raise NoTurns | S n => @realizeLazy other bytes (list Z) (demoLayer n) 9 9 1 end
    else demoInvoke f args).

Lemma demoInvoke_leaves f args s : cells (demoInvoke f args s).2 = cells s /\ realizing (demoInvoke f args s).2 = realizing s.
Proof.
  unfold demoInvoke. destruct f as [| | | |a| | | | | |]; try done. destruct a; try done.
  repeat (case_bool_decide; [try done|]); [|done]. by destruct args as [|[] []].
Qed.

Lemma withInvoke_built realize inv : (forall f args, uses realize (inv f args)) -> built realize (withInvoke inv).
Proof. intros Hinv. split; [exact Hinv|..]; intros; by apply uses_other. Qed.

#[export] Instance demoLayers : Layers demoLayer.
Proof.
  split; [|intros n]; apply withInvoke_built; intros f args; (destruct (isForce f); [|apply uses_other, demoInvoke_leaves]).
  - by apply uses_other.
  - apply uses_realize.
Qed.

(** [(cons 1 [2 3])], read and counted. *)
Definition sample : V := Cons (Int 1) (Vect [Int 2; Int 3]).

Lemma direct_reads_agree_witness : tryNext sample = Some (chunkOver [Int 2; Int 3] true) /\
  generalNext (realizeLazy 9 9) sample start = (Ok (chunkOver [Int 2; Int 3] true), start) /\
  exists l, seqToList 9 (realizeLazy 9 9) sample start = (Ok l, start) /\ length l = 3%nat.
Proof.
  destruct (direct_reads_agree (realizeLazy 9 9) 9 sample start I) as (_ & _ & _ & Hn & _ & Hc).
  split; [reflexivity|]. split; [by apply Hn|]. apply Hc; [reflexivity|lia].
Defined.

(** A lazy seq whose function realises another, and that other. *)
Definition delayed : seqState other (list Z) := mkSeqState [Unrealized (Code (fn "force")); Unrealized (Code (fn "twice"))] [] [].

Lemma realized_once_witness : exists v s', @realizeLazy other bytes (list Z) (demoLayer 1) 9 9 0 delayed = (Ok v, s') /\
  cells s' !! 0%nat = Some (Realized v) /\
  exists s1, @runThunk other bytes (list Z) (demoLayer 1) 9 (@realizeLazy other bytes (list Z) (demoLayer 1) 9 8) 0
    (Code (fn "force")) (claimedState 0 (Code (fn "force")) delayed) = (Ok v, s1).
Proof.
  eexists _, _. split; [vm_compute; reflexivity|].
  destruct (realized_once demoLayer 1 9 9 0 delayed _ _ eq_refl) as (_ & Hrun & Hread). split.
  - eapply (proj1 (Hread _ _)).
  - eexists. vm_compute. reflexivity.
Unshelve. vm_compute. reflexivity.
Defined.

End Settled.
