(* ===== verification/FastPrims.v ===== *)
(** The primitives the virtual machine may answer without calling them
    (runtime/Primitives.cpp): [first], [rest], [next], [seq], [empty?], [count], [nth],
    [cons], [conj], [inc], [dec] and [+], and [fastPrimitiveCall], which answers them
    directly on the values it can read at once. [callPrimitive] is the call; the two
    agree. Values, seqs and bounds are those of LazySeq.v. *)

From S2P Require Import Prelude Values DataFormats LazySeq DemoLazy LazyFacts.

#[local] Set Warnings "-register-all".

Inductive primitive :=
| prim_inc | prim_dec | prim_plus | prim_first | prim_rest | prim_next | prim_seq
| prim_empty_p | prim_count | prim_nth | prim_cons | prim_conj.

(** Strings, maps and sets, which no direct read touches: a string's characters, the
    number of entries of a map or a set, and what [conj] does to one. *)
Class CollectionEnv (A exn W : Type) := {
  stringItems : A -> option (list (val A));
  entryCount : A -> option nat;
  conjEntries : A -> option (list (val A) -> E (seqError exn) (seqState A W) (val A));
}.

Section FastPrims.
Context {A exn W : Type} `{SeqEnv A exn W, CollectionEnv A exn W}.

#[local] Abbreviation V := (val A).
#[local] Abbreviation M := (E (seqError exn) (seqState A W)).

Context (turns : nat) (realize : nat -> M V).

Definition expects {B} (text : string) : M B := throwClass (s2b "RuntimeException") (s2b text).

(** ** The calls *)

Definition firstOf (v : V) : M V :=
  match tryFirst v with
  | Some r => mret r
  | None => s ← seqOf realize v; mret (if isNil s then Nil else seqFirst s)
  end.

Definition restOf (v : V) : M V :=
  match tryRest v with
  | Some r => mret r
  | None => s ← seqOf realize v; mret (if isNil s then emptyList else seqMore s)
  end.

Definition nextOf (v : V) : M V :=
  match tryNext v with
  | Some r => mret r
  | None => s ← seqOf realize v; if isNil s then mret Nil else walkNext realize s
  end.

Definition emptyOf (v : V) : M V :=
  match tryEmpty v with
  | Some e => mret (Bool e)
  | None =>
      let general := items ← seqToList turns realize v; mret (Bool (length items =? 0)%nat) in
      match v with
      | Other a =>
          match stringItems a with
          | Some cs => mret (Bool (length cs =? 0)%nat)
          | None => match entryCount a with Some n => mret (Bool (n =? 0)%nat) | None => general end
          end
      | _ => if isSeqValue v then s ← seqOf realize v; mret (Bool (isNil s)) else general
      end
  end.

Definition ofNat (n : nat) : V := Int (Z.of_nat n).

(** The walk of [count], which stops where the rest is counted. *)
Fixpoint countWalk (fuel : nat) (w : walk) (n : nat) : M nat :=
  match fuel with
  | O => raise NoTurns
  | S fuel =>
      if walkDone w then mret n
      else match walkCounted w with
           | Some c => mret (n + c)%nat
           | None => w ← walkAdvance realize w; countWalk fuel w (S n)
           end
  end.

Definition countOf (v : V) : M V :=
  let general := items ← seqToList turns realize v; mret (ofNat (length items)) in
  match v with
  | Nil => mret (ofNat 0)
  | Other a =>
      match stringItems a with
      | Some cs => mret (ofNat (length cs))
      | None => match entryCount a with Some n => mret (ofNat n) | None => general end
      end
  | _ =>
      if isSeqValue v then
        match tryCount v with
        | Some c => mret (ofNat c)
        | None => w ← startWalk realize v; n ← countWalk turns w 0; mret (ofNat n)
        end
      else general
  end.

(** The index, the ends of the [long long] range for what is beyond them. *)
Definition indexArg (i : V) (name : string) : M Z :=
  match i with
  | Int z => mret (Z.max (- 2 ^ 63) (Z.min z (2 ^ 63 - 1)))
  | _ => throwClass (s2b "ClassCastException") (s2b name ++ s2b " expects an integer, got " ++ valTypeName i)
  end.

Definition outOfBounds (class : string) (i : V) (count : Z) : M V :=
  throwClass (s2b class)
    (s2b "nth index " ++ match i with Int z => to_string z | _ => [] end ++
     s2b " is out of bounds (count " ++ to_string count ++ s2b ")").

Fixpoint nthWalk (fuel : nat) (i idx : Z) (w : walk) : M (Z * walk) :=
  if (i <? idx) && negb (walkDone w) then
    match fuel with
    | O => raise NoTurns
    | S fuel => w ← walkAdvance realize w; nthWalk fuel (i + 1) idx w
    end
  else mret (i, w).

Definition nthOf (coll i : V) (notFound : option V) : M V :=
  idx ← indexArg i "nth";
  let missing class count := match notFound with Some v => mret v | None => outOfBounds class i count end in
  let unsupported := throwClass (s2b "UnsupportedOperationException")
                       (s2b "nth not supported on " ++ valTypeName coll) in
  let among class items :=
    if (idx <? 0) || (Z.of_nat (length items) <=? idx) then missing class (Z.of_nat (length items))
    else mret (default Nil (items !! Z.to_nat idx)) in
  match coll with
  | Nil => mret (default Nil notFound)
  | Other a =>
      match stringItems a with
      | Some cs => among "StringIndexOutOfBoundsException"%string cs
      | None => unsupported
      end
  | Vect items => among "IndexOutOfBoundsException"%string items
  | Lst _ | Lazy _ | Cons _ _ | Chunk _ _ _ _ _ =>
      if idx <? 0 then
        missing "IndexOutOfBoundsException"%string
          (match coll with Lst items => Z.of_nat (length items) | _ => 0 end)
      else
        w ← startWalk realize coll;
        r ← nthWalk (Z.to_nat idx) 0 idx w;
        if walkDone r.2 then missing "IndexOutOfBoundsException"%string r.1 else mret (walkFirst r.2)
  | _ => unsupported
  end.

Definition consOf (x coll : V) : M V :=
  match tryCons x coll with
  | Some r => mret r
  | None => s ← seqOf realize coll; mret (if isNil s then Lst [x] else Cons x s)
  end.

Definition conjOf (coll : V) (xs : list V) : M V :=
  let other := throwClass (s2b "ClassCastException")
                 (s2b "conj expects a collection, got " ++ valTypeName coll) in
  match coll with
  | Other a => match conjEntries a with Some add => add xs | None => other end
  | Vect items => mret (Vect (items ++ xs))
  | Nil => mret (Lst (rev xs))
  | Lst items => mret (Lst (rev xs ++ items))
  | Lazy _ | Cons _ _ | Chunk _ _ _ _ _ => mret (fold_left (fun s x => Cons x s) xs coll)
  | _ => other
  end.

Fixpoint requireNumbers (args : list V) (name : bytes) : M unit :=
  match args with
  | [] => mret tt
  | a :: args => _ ← requireNumber a name; requireNumbers args name
  end.

(** [protoCore]'s addition of two numbers. *)
Definition add (a b : V) : V := match a, b with Int x, Int y => Int (x + y) | _, _ => addNumbers a b end.

Definition plusOf (args : list V) : M V :=
  _ ← requireNumbers args (s2b "+");
  mret match args with [] => Int 0 | a :: args => fold_left add args a end.

(** [inc] and [dec]: a float's step is 1.0 or -1.0. *)
Definition stepOf (name : string) (step double : Z) (x : V) : M V :=
  _ ← requireNumber x (s2b name);
  mret match x with Int z => Int (z + step) | _ => addNumbers x (Flt double) end.

Definition callPrimitive (fn : primitive) (args : list V) : M V :=
  match fn, args with
  | prim_inc, [x] => stepOf "inc" 1 0x3FF0000000000000 x
  | prim_dec, [x] => stepOf "dec" (-1) 0xBFF0000000000000 x
  | prim_plus, _ => plusOf args
  | prim_first, [v] => firstOf v
  | prim_rest, [v] => restOf v
  | prim_next, [v] => nextOf v
  | prim_seq, [v] => seqOf realize v
  | prim_empty_p, [v] => emptyOf v
  | prim_count, [v] => countOf v
  | prim_nth, [coll; i] => nthOf coll i None
  | prim_nth, [coll; i; notFound] => nthOf coll i (Some notFound)
  | prim_cons, [x; coll] => consOf x coll
  | prim_conj, [] => mret (Vect [])
  | prim_conj, coll :: [] => mret coll
  | prim_conj, coll :: xs => conjOf coll xs
  | prim_inc, _ => expects "inc: expects 1 arg"
  | prim_dec, _ => expects "dec: expects 1 arg"
  | prim_first, _ => expects "first: expects 1 arg"
  | prim_rest, _ => expects "rest: expects 1 arg"
  | prim_next, _ => arityOf (length args) (s2b "next")
  | prim_seq, _ => expects "seq: expects 1 arg"
  | prim_empty_p, _ => expects "empty?: expects 1 arg"
  | prim_count, _ => expects "count: expects 1 arg"
  | prim_nth, _ => expects "nth: expects (nth coll i) or (nth coll i nf)"
  | prim_cons, _ => expects "cons: expects (cons x coll)"
  end.

(** ** The direct answers *)

Definition smallInt (v : V) : option Z :=
  match v with Int z => if fitsSmallInt z then Some z else None | _ => None end.

Definition makeSmallInt (z : Z) : option V := if fitsSmallInt z then Some (Int z) else None.

Definition fastIndexed (coll i : V) : option V :=
  idx ← smallInt i;
  let among items := if (idx <? 0) || (Z.of_nat (length items) <=? idx) then None
                     else Some (default Nil (items !! Z.to_nat idx)) in
  match coll with
  | Vect items => among items
  | Lst ((_ :: _) as items) => among items
  | _ => None
  end.

Definition fastCount (v : V) : option V :=
  match v with
  | Vect _ | Nil => ofNat <$> tryCount v
  | _ => if isSeqValue v then ofNat <$> tryCount v else None
  end.

Definition fastPrimitiveCall (fn : primitive) (args : list V) (mayAllocate : bool) : option V :=
  match args with
  | [v] =>
      match fn with
      | prim_inc => n ← smallInt v; makeSmallInt (n + 1)
      | prim_dec => n ← smallInt v; makeSmallInt (n - 1)
      | prim_first => tryFirst v
      | prim_rest => if mayAllocate then tryRest v else None
      | prim_next => if mayAllocate then tryNext v else None
      | prim_seq => if mayAllocate then trySeq v else None
      | prim_empty_p => Bool <$> tryEmpty v
      | prim_count => fastCount v
      | _ => None
      end
  | [a; b] =>
      match fn with
      | prim_nth => fastIndexed a b
      | prim_cons => if mayAllocate then tryCons a b else None
      | prim_conj =>
          if mayAllocate then
            match a with
            | Nil => Some (Lst [b])
            | Lst items => Some (Lst (b :: items))
            | Vect items => Some (Vect (items ++ [b]))
            | _ => None
            end
          else None
      | prim_plus => x ← smallInt a; y ← smallInt b; makeSmallInt (x + y)
      | _ => None
      end
  | _ => None
  end.

(** ** Direct answers are the calls' *)

Lemma smallInt_inv v z : smallInt v = Some z -> v = Int z /\ fitsSmallInt z = true.
Proof. destruct v; try done. cbn. destruct (fitsSmallInt z0) eqn:E; [|done]. by intros [= ->]. Qed.

Lemma makeSmallInt_inv z r : makeSmallInt z = Some r -> r = Int z.
Proof. unfold makeSmallInt. destruct (fitsSmallInt z); [by intros [= <-]|done]. Qed.

Lemma small_index z : fitsSmallInt z = true -> Z.max (- 2 ^ 63) (Z.min z (2 ^ 63 - 1)) = z.
Proof. unfold fitsSmallInt. lia. Qed.

(** A walk over a list, to an index of it: as many steps as the index are enough. *)
Lemma nthWalk_list fuel i idx w l st : 0 <= i <= idx -> idx - i < Z.of_nat (length l) ->
  idx - i <= Z.of_nat fuel -> walkLeft w = Some l -> inStretch w ->
  exists w', nthWalk fuel i idx w st = (Ok (idx, w'), st) /\ walkDone w' = false /\
    Some (walkFirst w') = l !! Z.to_nat (idx - i).
Proof.
  revert i w l. induction fuel as [|fuel IH]; intros i w l Hi Hl Hf Hw Hs;
    (assert (Hd : walkDone w = false);
     [destruct w as [[node|] ? ?]; [done|]; injection Hw as <-; cbn in Hl; lia|]);
    destruct (advance_known realize w l st Hw Hs Hd) as (x & l' & w' & -> & Hx & Ea & Hl' & Hs');
    cbn [nthWalk]; rewrite Hd; destruct (Z.ltb_spec i idx); try lia; cbn [negb andb].
  - exists w. replace idx with i by lia. rewrite Z.sub_diag, Hx. by split_and!.
  - unfold mbind, E_bind. rewrite Ea. cbn [length] in Hl.
    destruct (IH (i + 1) w' l' ltac:(lia) ltac:(lia) ltac:(lia) Hl' Hs') as (w2 & E2 & D2 & F2).
    exists w2. split; [exact E2|]. split; [exact D2|].
    replace (Z.to_nat (idx - i)) with (S (Z.to_nat (idx - (i + 1)))) by lia. exact F2.
  - exists w. replace idx with i by lia. rewrite Z.sub_diag, Hx. by split_and!.
Qed.

Lemma fastIndexed_agrees coll i r st : fastIndexed coll i = Some r -> nthOf coll i None st = (Ok r, st).
Proof.
  unfold fastIndexed. destruct (smallInt i) as [z|] eqn:Ei; [|done].
  apply smallInt_inv in Ei as [-> Hfit]. cbn [mbind option_bind]. unfold nthOf, indexArg.
  unfold mbind, E_bind, mret, E_ret. rewrite (small_index z Hfit).
  destruct coll as [| | | | |items|[|x items]| | | |]; try done.
  - destruct ((z <? 0) || _); [done|]. by intros [= <-].
  - destruct ((z <? 0) || _) eqn:Eb; [done|]. intros [= <-].
    apply orb_false_iff in Eb as [E0 E1%Z.leb_gt]. rewrite E0. apply Z.ltb_ge in E0. cbn [startWalk mret E_ret].
    destruct (nthWalk_list (Z.to_nat z) 0 z (load (Lst (x :: items))) (x :: items) st) as (w & Ew & Dw & Fw);
      [lia..|done|by apply (load_inStretch (exn := exn) (W := W))|].
    unfold mret, E_ret. rewrite Ew. cbn [snd]. rewrite Dw. rewrite Z.sub_0_r in Fw. by rewrite <- Fw.
Qed.

Lemma fastCount_agrees v r st : fastCount v = Some r -> countOf v st = (Ok r, st).
Proof.
  unfold fastCount, countOf. destruct v as [| | | | |items|items| | | |]; cbn [isSeqValue]; try done;
    try (by intros [= <-]); destruct (tryCount _); cbn; try done; by intros [= <-].
Qed.

(** A primitive answered without a call answers what the call answers, and changes
    nothing, as the call would. *)
Theorem fast_agrees fn args mayAllocate r st :
  fastPrimitiveCall fn args mayAllocate = Some r -> callPrimitive fn args st = (Ok r, st).
Proof.
  destruct args as [|v [|b [|? ?]]]; try done; destruct fn; cbn; try done.
  - destruct (smallInt v) as [z|] eqn:E; [|done]. apply smallInt_inv in E as [-> _]. cbn. by intros ->%makeSmallInt_inv.
  - destruct (smallInt v) as [z|] eqn:E; [|done]. apply smallInt_inv in E as [-> _]. cbn. by intros ->%makeSmallInt_inv.
  - unfold firstOf. by intros ->.
  - unfold restOf. destruct mayAllocate; [|done]. by intros ->.
  - unfold nextOf. destruct mayAllocate; [|done]. by intros ->.
  - destruct mayAllocate; [|done]. apply trySeq_agrees.
  - unfold emptyOf. destruct (tryEmpty v); [|done]. by intros [= <-].
  - apply fastCount_agrees.
  - destruct (smallInt v) as [x|] eqn:Ex; [|done]. destruct (smallInt b) as [y|] eqn:Ey; [|done].
    apply smallInt_inv in Ex as [-> _]. apply smallInt_inv in Ey as [-> _]. cbn. by intros ->%makeSmallInt_inv.
  - apply fastIndexed_agrees.
  - unfold consOf. destruct mayAllocate; [|done]. by intros ->.
  - destruct mayAllocate; [|done]. destruct v; cbn; try done; by intros [= <-].
Qed.

End FastPrims.

(** ** Examples *)

Module Examples.
Import Demo.

#[export] Instance demoCollections : CollectionEnv other bytes (list Z) := {
  stringItems a := match a with Text s => Some (map (fun c => Other (Text [c])) s) | _ => None end;
  entryCount a := match a with IntSet xs => Some (length xs) | _ => None end;
  conjEntries a := match a with IntSet xs => Some (fun vs => mret (Other (IntSet (xs ++ omap zOf vs)))) | _ => None end;
}.

Definition numbers : val other := Lst (map Int [5; 6; 7; 8; 9; 10; 11]).

#[local] Abbreviation directly := (fastPrimitiveCall (A := other)).
#[local] Abbreviation answerOf fn args := (fst (callPrimitive 50 (realizeLazy 50 9) fn args start)).

Example primitives_called :
  directly prim_nth [numbers; Int 6] false = Some (Int 11) /\
  directly prim_nth [numbers; Int 7] false = None /\
  answerOf prim_nth [numbers; Int 7] = Throw (Classed (s2b "IndexOutOfBoundsException")
    (s2b "nth index 7 is out of bounds (count 7)")) /\
  answerOf prim_nth [Vect [Int 1]; Int (2 ^ 70); Nil] = Ok Nil /\
  directly prim_inc [Int (2 ^ 53 - 1)] true = None /\
  answerOf prim_inc [Int (2 ^ 53 - 1)] = Ok (Int (2 ^ 53)) /\
  directly prim_rest [numbers] false = None /\
  answerOf prim_count [Cons Nil (Vect [Nil; Nil])] = Ok (Int 3) /\
  answerOf prim_conj [Lst [Int 1]; Int 2; Int 3] = Ok (Lst [Int 3; Int 2; Int 1]).
Proof. vm_compute. repeat split. Qed.

Example fast_agrees_witness :
  callPrimitive 50 (realizeLazy 50 9) prim_nth [numbers; Int 6] start = (Ok (Int 11), start).
Proof.
  exact (fast_agrees 50 (realizeLazy 50 9) prim_nth [numbers; Int 6] false _ start eq_refl).
Defined.

End Examples.
