(* ===== verification/DirectCalls.v ===== *)
(** A runtime whose methods are, besides its own, the primitives of FastPrims.v: the
    virtual machine's law that a primitive answered without a call answers what the call
    answers holds of them. Values of the machine are read as values of the lazy seqs'
    model, and back. *)

From S2P Require Import Prelude DataFormats LazySeq FastPrims.
From S2P Require Import Bytecode Exceptions ExecutionEngine Calls.

Section Direct.
Context {A E W0 obj exn meth : Type} `{SeqEnv A E W0, CollectionEnv A E W0}.
Context `{R : Runtime obj (seqState A W0) exn meth, !RuntimeLaws}.

#[local] Abbreviation V := (ExecutionEngine.val obj).

Context (turns : nat) (realize : nat -> DataFormats.E (seqError E) (seqState A W0) (LazySeq.val A)).

(** How the values correspond, what an error is to the machine, and which objects are
    the primitives: no keywords, maps or sets. *)
Context (read : V -> LazySeq.val A) (back : LazySeq.val A -> V) (error : seqError E -> thrown exn).
Context (primitiveOf : obj -> option primitive).

Definition directMethod (v : V) : option (primitive + meth) :=
  match v with
  | VObj o => match primitiveOf o with Some p => Some (inl p) | None => inr <$> asMethod v end
  | _ => inr <$> asMethod v
  end.

Definition directCall (fn : primitive + meth) (self : V) (args : list V)
  : native V (seqState A W0) exn V := fun inv w =>
  match fn with
  | inl p =>
      let '(r, st) := callPrimitive turns realize p (map read args) (heap w) in
      (mkWorld st (g_coreOperatorRedefined w),
       match r with Ok v => Ret (back v) | Throw e => Raise (error e) end)
  | inr fn => callMethod fn self args inv w
  end.

Definition directAnswer (fn : primitive + meth) (args : list V) (mayAllocate : bool)
    (st : seqState A W0) : option V :=
  match fn with
  | inl p => back <$> FastPrims.fastPrimitiveCall p (map read args) mayAllocate
  | inr fn => fastPrimitiveCall fn args mayAllocate st
  end.

Definition directRuntime : Runtime obj (seqState A W0) exn (primitive + meth) := {|
  createSymbol := createSymbol; globalAt := globalAt; setGlobal := setGlobal;
  largeInteger := largeInteger; fromDouble := fromDouble; fromUTF8 := fromUTF8;
  fromDigits := fromDigits; sameObject := sameObject; bigIntegerValue := bigIntegerValue;
  isNumberObject := isNumberObject; isNamedValue := isNamedValue;
  namedSpelling := namedSpelling; isMap := isMap; isSet := isSet; isVector := isVector;
  isListValue := isListValue; isObjectCell := isObjectCell; valueTypeName := valueTypeName;
  vectorItems := vectorItems; listItems := listItems; listFromArray := listFromArray;
  seqItems := seqItems; mapGet := mapGet; ExecutionEngine.setGet := ExecutionEngine.setGet;
  newMap := newMap; hashedPut := hashedPut;
  protoAdd := protoAdd; protoSubtract := protoSubtract; protoMultiply := protoMultiply;
  partialCompare := partialCompare; valuesEqual := valuesEqual;
  getAttribute := getAttribute; hasAttribute := hasAttribute;
  isInstanceOf := isInstanceOf; classPrototype := classPrototype;
  asException := asException; makeException := makeException;
  clojureThrow := clojureThrow; exnValue := exnValue;
  asMethod := directMethod; asMethodSelf := asMethodSelf;
  callMethod := directCall; ExecutionEngine.fastPrimitiveCall := directAnswer;
  checkNativeStack := checkNativeStack; onLine := onLine;
|}.

(** The machine's laws, from those of the runtime and from the primitives' direct answers. *)
Lemma directLaws : (forall o p, primitiveOf o = Some p -> callsLookup (VObj o) = false) ->
  RuntimeLaws (H0 := directRuntime).
Proof.
  intros Hlook. split; cbn.
  - intros sub captures. by rewrite fn_no_method.
  - intros specs. by rewrite multi_no_method.
  - by rewrite null_no_method.
  - intros v fn Hm. change (callsLookup (H0 := R) v = false). unfold directMethod in Hm.
    destruct v; try destruct (primitiveOf _) eqn:Ep; try (by apply (Hlook _ _ Ep));
      destruct (asMethod _) as [g|] eqn:Em; try done; by apply (method_no_lookup _ g).
  - intros [p|fn] args mayAllocate self inv w r; cbn; [|apply fast_sound].
    intros (v & Hv & ->)%fmap_Some.
    rewrite (fast_agrees turns realize p (map read args) mayAllocate v (heap w) Hv). by destruct w.
Qed.

End Direct.
