(* ===== verification/LazySpec.v ===== *)
(** What a lazy seq is, whatever of it has been realised (runtime/LazySeq.cpp): the
    elements a value is known to have, given what is known of the lazy seqs of the
    store, and when a store is what is known of it. *)

From S2P Require Import Prelude Values DataFormats LazySeq LazyFacts.

#[local] Set Warnings "-register-all".

(** [pure f]: calls of [f] answer [apply f args] and leave the program as it is. *)
Class PureFunctions {A exn W : Type} `{SeqEnv A exn W} := {
  pure : val A -> Prop;
  apply : val A -> list (val A) -> val A;
  pure_call f args s : pure f -> call f args s = (Ok (apply f args), s);
}.

(** What is known of a lazy seq: its first elements, whether they are all, and how many
    levels of realisation, and turns of a loop at each, finding out takes at most. *)
Record meaning (A : Type) := mkMeaning { rank : nat; elems : list (val A); ends : bool }.
Arguments mkMeaning {A} _ _ _. Arguments rank {A} _. Arguments elems {A} _. Arguments ends {A} _.

Section Meaning.
Context {A exn W : Type} `{PureFunctions A exn W}.

#[local] Abbreviation V := (val A).
#[local] Abbreviation S_ := (seqState A W).
#[local] Abbreviation K_ := (list (meaning A)).

(** ** The elements of a value *)

Definition sliceItems (items : list V) (off end_ : nat) : list V := take (end_ - off) (drop off items).

(** The elements a collection that is no seq has. *)
Definition itemsOf (v : V) : option (list V) :=
  match v with
  | Nil => Some []
  | Vect items | Lst items => Some items
  | Other a => collectionItems a
  | _ => None
  end.

(** [yields K n v l e]: [v] has the elements [l] first, and no others when [e]; of the
    lazy seqs only those of rank less than [n] are needed for it. *)
Inductive yields (K : K_) (n : nat) : V -> list V -> bool -> Prop :=
| y_any v : yields K n v [] false
| y_prefix v l1 l2 e : yields K n v (l1 ++ l2) e -> yields K n v l1 false
| y_items v items : itemsOf v = Some items -> yields K n v items true
| y_cons x more l e : yields K n more l e -> yields K n (Cons x more) (x :: l) e
| y_chunk items off end_ more chunked l e : (off < end_ <= length items)%nat ->
    yields K n more l e -> yields K n (Chunk items off end_ more chunked) (sliceItems items off end_ ++ l) e
| y_lazy id m : K !! id = Some m -> (rank m < n)%nat -> yields K n (Lazy id) (elems m) (ends m).

(** The elements of collections one after the other. *)
Inductive yieldsAll (K : K_) (n : nat) : list V -> list V -> bool -> Prop :=
| all_nil : yieldsAll K n [] [] true
| all_part c cs l : yields K n c l false -> yieldsAll K n (c :: cs) l false
| all_next c cs l1 l e : yields K n c l1 true -> yieldsAll K n cs l e -> yieldsAll K n (c :: cs) (l1 ++ l) e.

(** ** What a producer computes *)

Definition test1 (f x : V) : bool := truthyVal (apply f [x]).

Fixpoint takeWhileL (p : V -> bool) (l : list V) : list V :=
  match l with x :: l => if p x then x :: takeWhileL p l else [] | [] => [] end.
Fixpoint dropWhileL (p : V -> bool) (l : list V) : list V :=
  match l with x :: l' => if p x then dropWhileL p l' else l | [] => [] end.
Fixpoint iterateL (f : V) (k : nat) (x : V) : list V :=
  match k with O => [] | S k => x :: iterateL f k (apply f [x]) end.

(** The numbers from [x] on by [step], before [end_]. *)
Definition before (end_ step x : Z) : bool := if 0 <? step then x <? end_ else end_ <? x.
Inductive ranges (end_ step : Z) : Z -> list Z -> Prop :=
| r_end x : before end_ step x = false -> ranges end_ step x []
| r_next x l : before end_ step x = true -> ranges end_ step (x + step) l -> ranges end_ step x (x :: l).

(** The elements a producer's function or step describes. Where a step's list has no
    end, any number of its first elements. *)
Inductive computes (K : K_) : nat -> thunk A -> list V -> bool -> Prop :=
| c_code n f l e : pure f -> yields K n (apply f []) l e -> computes K n (Code f) l e
| c_map n f c a3 a4 a5 l e : pure f -> yields K n c l e ->
    computes K (n + length l) (Step Map1 f c a3 a4 a5) (map (fun x => apply f [x]) l) e
| c_filter n f c neg a4 a5 l e : pure f -> yields K n c l e ->
    computes K (n + length l) (Step Filter f c neg a4 a5)
      (List.filter (fun x => xorb (test1 f x) (sameVal neg (Bool true))) l) e
| c_take n k c a3 a4 a5 l e : fits_llong k = true -> yields K n c l e ->
    computes K (n + length l) (Step Take (Int k) c a3 a4 a5)
      (take (Z.to_nat k) l) (e || (k <=? Z.of_nat (length l)))
| c_takeWhile n f c a3 a4 a5 l e : pure f -> yields K n c l e ->
    computes K (n + length l) (Step TakeWhile f c a3 a4 a5) (takeWhileL (test1 f) l)
      (e || (length (takeWhileL (test1 f) l) <? length l)%nat)
| c_drop n k c a3 a4 a5 l e : fits_llong k = true -> yields K n c l e ->
    computes K (n + length l) (Step Drop (Int k) c a3 a4 a5) (drop (Z.to_nat k) l) e
| c_dropWhile n f c a3 a4 a5 l e : pure f -> yields K n c l e ->
    computes K (n + length l) (Step DropWhile f c a3 a4 a5) (dropWhileL (test1 f) l) e
| c_iterate f x a3 a4 a5 k : pure f ->
    computes K k (Step Iterate f x a3 a4 a5) (iterateL f k x) false
| c_iterateNext f x a3 a4 a5 k : pure f ->
    computes K k (Step IterateNext f x a3 a4 a5) (iterateL f k (apply f [x])) false
| c_repeat x a3 a4 a5 k : computes K k (Step Repeat x Nil a3 a4 a5) (replicate k x) false
| c_repeatN x k a3 a4 a5 : fits_llong k = true ->
    computes K (Z.to_nat k) (Step Repeat x (Int k) a3 a4 a5) (replicate (Z.to_nat k) x) true
| c_range x end_ step a4 a5 l : ranges end_ step x l ->
    computes K (length l) (Step Range (Int x) (Int end_) (Int step) a4 a5) (map Int l) true
| c_rangeInf x step a3 a4 a5 k :
    computes K k (Step RangeInf (Int x) (Int step) a3 a4 a5)
      (map (fun i => Int (x + Z.of_nat i * step)) (seq 0 k)) false
| c_concat n1 n2 c b cs ce a3 a4 a5 l e : yields K n1 b cs ce -> yieldsAll K n2 (c :: cs) l e ->
    computes K (n1 + n2 + length cs + length l) (Step Concat c b a3 a4 a5) l (ce && e).

(** ** When a store is what is known of it

    A lazy seq's producer computes, or its seq has, what is known of it. *)
Definition isSeqOrNil (v : V) : bool := isNil v || isNode v.

Definition holds (K : K_) (m : meaning A) (c : cell A) : Prop :=
  match c with
  | Unrealized t | Claimed t => computes K (rank m) t (elems m) (ends m)
  | Realized v => isSeqOrNil v = true /\ yields K (S (rank m)) v (elems m) (ends m)
  end.

Definition typed (K : K_) (s : S_) : Prop := Forall2 (holds K) K (cells s).

(** The lazy seqs being realised are not of those of rank less than [b]. *)
Definition claimsAbove (b : nat) (K : K_) (s : S_) : Prop := forall id t m,
  cells s !! id = Some (Claimed t) -> K !! id = Some m -> (b <= rank m)%nat.

(** [m] answers what [Q] says, realising and building lazy seqs of rank less than [b]:
    what was known stays known. *)
Definition answers {B} (b : nat) (K : K_) (m : E (seqError exn) S_ B) (Q : K_ -> B -> Prop) : Prop :=
  forall s, typed K s -> claimsAbove b K s -> exists r s' K',
    m s = (Ok r, s') /\ K `prefix_of` K' /\ typed K' s' /\ settles s s' /\ Q K' r.

(** *** More knowledge *)

Lemma yields_weaken K K' n n' v l e : K `prefix_of` K' -> (n <= n')%nat -> yields K n v l e -> yields K' n' v l e.
Proof.
  intros HK Hn. induction 1; try (econstructor; eauto; fail).
  apply y_lazy; [by eapply prefix_lookup_Some|lia].
Qed.

Lemma yieldsAll_weaken K K' n n' cs l e : K `prefix_of` K' -> (n <= n')%nat -> yieldsAll K n cs l e -> yieldsAll K' n' cs l e.
Proof. intros HK Hn. induction 1; econstructor; eauto using yields_weaken. Qed.

Lemma computes_weaken K K' n t l e : K `prefix_of` K' -> computes K n t l e -> computes K' n t l e.
Proof. intros HK. destruct 1; econstructor; eauto using yields_weaken, yieldsAll_weaken. Qed.

Lemma holds_weaken K K' m c : K `prefix_of` K' -> holds K m c -> holds K' m c.
Proof.
  intros HK. destruct c; cbn; try by apply computes_weaken.
  intros [? ?]. split; [done|by eapply yields_weaken].
Qed.

(** *** What the elements of a node say *)

Definition determined (l : list V) (e : bool) : Prop := l <> [] \/ e = true.

(** [l] and [e] say no more than [L] and [E]. *)
Definition covers (L : list V) (E : bool) (l : list V) (e : bool) : Prop :=
  (L = l /\ E = e) \/ (e = false /\ l `prefix_of` L).

Lemma covers_refl l e : covers l e l e.
Proof. by left. Qed.

Lemma yields_covers K n v L E l e : yields K n v L E -> covers L E l e -> yields K n v l e.
Proof. intros Hy [[-> ->]|[-> [l2 ->]]]; [done|by eapply y_prefix]. Qed.

Lemma determined_nil (e : bool) : determined [] e -> e = true.
Proof. by intros [?|?]. Qed.

Lemma not_determined : ~ determined [] false.
Proof. by intros [?|?]. Qed.

Lemma covers_determined L E l e : covers L E l e -> determined l e -> determined L E.
Proof.
  intros [[-> ->]|[-> [k ->]]]; [done|]. intros [Hl|?]; [|done]. left. by destruct l.
Qed.

Lemma nil_yields K n e : yields K n Nil [] e.
Proof. destruct e; [by apply y_items|apply y_any]. Qed.

(** A prefix of two lists one after the other. *)
Lemma prefix_app_inv (l L1 L2 : list V) : l `prefix_of` L1 ++ L2 -> l `prefix_of` L1 \/ exists l', l = L1 ++ l' /\ l' `prefix_of` L2.
Proof.
  intros [k E]. apply app_eq_app in E as [j [[-> ->]|[-> ->]]].
  - left. by apply prefix_app_r.
  - right. exists j. split; [done|by apply prefix_app_r].
Qed.

Lemma covers_prefix L E l l2 e : covers L E (l ++ l2) e -> covers L E l false.
Proof.
  intros [[-> _]|[_ [k ->]]]; right; (split; [done|]); [by apply prefix_app_r|]. exists (l2 ++ k). by rewrite app_assoc.
Qed.

Lemma items_inv K n v items l e : itemsOf v = Some items -> yields K n v l e -> covers items true l e.
Proof.
  intros Hi Hy. induction Hy as [v|v l1 l2 e Hy IH|v items' Hi'|x more l e|items' off end_ more chunked l e|id m]; try done.
  - right. split; [done|apply prefix_nil].
  - eapply covers_prefix. by apply IH.
  - simplify_eq. by left.
Qed.

Lemma nil_inv K n l e : yields K n Nil l e -> l = [].
Proof. intros Hy. by destruct (items_inv K n Nil [] l e eq_refl Hy) as [[<- _]|[_ ?%prefix_nil_inv]]. Qed.

Lemma lazy_inv K n id l e : yields K n (Lazy id) l e -> determined l e -> exists m, K !! id = Some m /\
  (rank m < n)%nat /\ covers (elems m) (ends m) l e.
Proof.
  intros Hy. remember (Lazy id) as v eqn:Ev. induction Hy as [v|v l1 l2 e Hy IH|v items' Hi'|x more l e|items' off end_ more chunked l e|i m]; try (subst; done).
  - by intros ?%not_determined.
  - intros Hd. destruct (IH Ev) as (m & Hm & Hr & Hc).
    { left. destruct l1; [by apply not_determined in Hd|done]. }
    exists m. split_and!; [done..|by eapply covers_prefix].
  - simplify_eq. exists m. split_and!; [done..|by left].
Qed.

Lemma cons_inv K n x more l e : yields K n (Cons x more) l e -> determined l e ->
  exists l', l = x :: l' /\ yields K n more l' e.
Proof.
  intros Hy. remember (Cons x more) as v eqn:Ev. induction Hy as [v|v l1 l2 e Hy IH|v items' Hi'|y more' l e|items' off end_ more' chunked l e|i m]; try (subst; done).
  - by intros ?%not_determined.
  - intros Hd. destruct l1 as [|y l1]; [by apply not_determined in Hd|].
    destruct (IH Ev) as (l' & E & Hm); [by left|]. injection E as -> <-. exists l1. split; [done|by eapply y_prefix].
  - simplify_eq. intros _. by exists l.
Qed.

(** No more of what follows [xs] than is covered. *)
Lemma covers_trim K n v xs L E l e : xs <> [] -> yields K n v L E -> covers (xs ++ L) E l e -> determined l e ->
  exists l' e', yields K n v l' e' /\ covers (xs ++ l') e' l e /\ (length l' < length l)%nat.
Proof.
  intros Hxs Hy Hc Hd. destruct Hc as [[<- <-]|[-> Hp]].
  - exists L, E. split; [done|]. split; [by left|]. rewrite length_app. destruct xs; [done|cbn; lia].
  - destruct (prefix_app_inv _ _ _ Hp) as [Hp1|(j & -> & [j2 ->])].
    + exists [], false. split; [apply y_any|]. split; [right; split; [done|by rewrite app_nil_r]|].
      destruct l; [by apply not_determined in Hd|cbn; lia].
    + exists j, false. split; [by eapply y_prefix|]. split; [by left|].
      rewrite length_app. destruct xs; [done|cbn; lia].
Qed.

Lemma chunk_inv K n items off end_ more chunked l e : yields K n (Chunk items off end_ more chunked) l e ->
  determined l e -> (off < end_ <= length items)%nat /\
  exists l' e', yields K n more l' e' /\ covers (sliceItems items off end_ ++ l') e' l e.
Proof.
  intros Hy. remember (Chunk items off end_ more chunked) as v eqn:Ev.
  induction Hy as [v|v l1 l2 e Hy IH|v items' Hi'|y more' l e|items' off' end' more' chunked' l e|i m]; try (subst; done).
  - by intros ?%not_determined.
  - intros Hd. destruct (IH Ev) as (Hb & l' & e' & Hm & Hc).
    { left. destruct l1; [by apply not_determined in Hd|done]. }
    split; [done|]. exists l', e'. split; [done|by eapply covers_prefix].
  - simplify_eq. intros _. split; [done|]. exists l, e. split; [done|by left].
Qed.

Lemma orEmpty_yields K n more l e : yields K n more l e -> yields K n (orEmpty more) l e.
Proof. intros Hy. destruct more; try done. apply nil_inv in Hy as ->. destruct e; [by apply y_items|apply y_any]. Qed.

Lemma slice_first (items : list V) off end_ : (off < end_ <= length items)%nat ->
  sliceItems items off end_ = default Nil (items !! off) :: sliceItems items (S off) end_.
Proof.
  intros Hb. destruct (lookup_lt_is_Some_2 items off ltac:(lia)) as [x Hx]. unfold sliceItems.
  rewrite (take_drop_cons items off _ x Hx), Hx by lia. by replace (end_ - S off)%nat with (end_ - off - 1)%nat by lia.
Qed.

Lemma slice_split (items : list V) off to end_ : (off <= to <= end_)%nat ->
  sliceItems items off end_ = sliceItems items off to ++ sliceItems items to end_.
Proof.
  intros Hb. unfold sliceItems. rewrite <- (take_drop (to - off) (take (end_ - off) (drop off items))).
  rewrite take_take, skipn_firstn_comm, drop_drop. f_equal; do 2 (f_equal; try lia).
Qed.

Lemma slice_none (items : list V) off end_ : (end_ <= off)%nat -> sliceItems items off end_ = [].
Proof. intros Hb. unfold sliceItems. by replace (end_ - off)%nat with 0%nat by lia. Qed.

Lemma slice_all (items : list V) : sliceItems items 0 (length items) = items.
Proof. unfold sliceItems. rewrite drop_0, Nat.sub_0_r. apply firstn_all. Qed.

(** The first elements of a list that is covered. *)
Lemma covers_cons x L E l e : covers (x :: L) E l e -> determined l e -> exists l', l = x :: l' /\ covers L E l' e.
Proof.
  intros [[<- <-]|[-> [k Ek]]] Hd.
  - exists L. split; [done|by left].
  - destruct l as [|y l]; [by apply not_determined in Hd|]. injection Ek as -> ->. exists l.
    split; [done|]. right. split; [done|by apply prefix_app_r].
Qed.

(** A node is its first element and what follows it. *)
Lemma node_inv K n v l e : isNode v = true -> yields K n v l e -> determined l e ->
  exists l', l = seqFirst v :: l' /\ yields K n (seqMore v) l' e.
Proof.
  intros Hv Hy Hd. destruct v as [| | | | | |[|x items]| |x more|items off end_ more chunked|]; try done.
  - apply (items_inv K n _ (x :: items)) in Hy; [|done]. destruct (covers_cons _ _ _ _ _ Hy Hd) as (l' & -> & Hc).
    exists l'. split; [done|]. by eapply yields_covers; [apply y_items|].
  - destruct (cons_inv _ _ _ _ _ _ Hy Hd) as (l' & -> & Hm). exists l'. split; [done|by apply orEmpty_yields].
  - destruct (chunk_inv _ _ _ _ _ _ _ _ _ Hy Hd) as (Hb & l1 & e1 & Hm & Hc). rewrite slice_first in Hc by done.
    destruct (covers_cons _ _ _ _ _ Hc Hd) as (l' & -> & Hc'). exists l'. split; [done|].
    eapply yields_covers; [|exact Hc']. cbn [seqMore]. destruct (Nat.ltb_spec (S off) end_); [apply y_chunk; [lia|done]|].
    rewrite slice_none by lia. by apply orEmpty_yields.
Qed.

(** A chunk of all of a list's elements. *)
Lemma chunk_yields K n xs tail chunked l e : xs <> [] -> yields K n tail l e ->
  yields K n (Chunk xs 0 (length xs) tail chunked) (xs ++ l) e.
Proof.
  intros Hxs Hy. pose proof (y_chunk K n xs 0 (length xs) tail chunked l e) as Hc. rewrite slice_all in Hc.
  apply Hc; [|done]. destruct xs; [done|cbn; lia].
Qed.

End Meaning.
