(* ===== verification/LazyRefine.v ===== *)
(** Realising a lazy seq computes what is known of it (runtime/LazySeq.cpp): one lemma
    for each operation of the seq protocol and each step, in a store that is what is
    known of it, and the walks that answer the elements. *)

From S2P Require Import Prelude Values DataFormats LazySeq LazyFacts LazySpec DemoLazy.

#[local] Set Warnings "-register-all".

Section Answers.
Context {A exn W : Type} `{PureFunctions A exn W}.

#[local] Abbreviation V := (val A).
#[local] Abbreviation S_ := (seqState A W).
#[local] Abbreviation M := (E (seqError exn) S_).
#[local] Abbreviation K_ := (list (meaning A)).

(** ** Composition *)

Lemma answers_weaken {B} b K (m : M B) (P Q : K_ -> B -> Prop) : answers b K m P ->
  (forall K' r, K `prefix_of` K' -> P K' r -> Q K' r) -> answers b K m Q.
Proof.
  intros Hm HPQ s Ht Hc. destruct (Hm s Ht Hc) as (r & s' & K' & E & HK & Ht' & Hs & HP).
  exists r, s', K'. split_and!; auto.
Qed.

Lemma answers_ret {B} b K (r : B) (Q : K_ -> B -> Prop) : Q K r -> answers b K (mret r : M B) Q.
Proof. intros HQ s Ht _. exists r, s, K. by split_and!. Qed.

(** No claim is new after a computation that settles. *)
Lemma claims_settle b K K' (s s' : S_) : typed K s -> K `prefix_of` K' -> settles s s' -> claimsAbove b K s ->
  claimsAbove b K' s'.
Proof.
  intros Ht HK (_ & Hc & Hn) Hcl id t m Hid Hm. destruct (cells s !! id) as [c|] eqn:Ec.
  - destruct (Hc id c Ec) as (c' & Ec' & Hst). rewrite Hid in Ec'. injection Ec' as <-.
    destruct (Forall2_lookup_r _ _ _ _ _ Ht Ec) as (m0 & Hm0 & _).
    rewrite (prefix_lookup_Some _ _ _ _ Hm0 HK) in Hm. injection Hm as <-.
    destruct c as [t'|t'|v]; cbn in Hst; [by destruct Hst as [|[? ?]]| |done]. by eapply Hcl.
  - apply lookup_ge_None in Ec. by destruct (Hn id _ Hid Ec).
Qed.

Lemma answers_bind {B C} b K (m : M B) (k : B -> M C) P Q : answers b K m P ->
  (forall K' r, K `prefix_of` K' -> P K' r -> answers b K' (k r) Q) -> answers b K (m ≫= k) Q.
Proof.
  intros Hm Hk s Ht Hc. destruct (Hm s Ht Hc) as (r & s1 & K1 & E1 & HK1 & Ht1 & Hs1 & HP).
  destruct (Hk K1 r HK1 HP s1 Ht1) as (r2 & s2 & K2 & E2 & HK2 & Ht2 & Hs2 & HQ).
  { by apply (claims_settle b K K1 s s1). }
  exists r2, s2, K2. unfold mbind, E_bind. rewrite E1. split_and!; [done|by transitivity K1|done|by transitivity s1|done].
Qed.

Lemma answers_pure b K f args Q : pure f -> Q K (apply f args) -> answers b K (call f args) Q.
Proof. intros Hf HQ s Ht _. exists (apply f args), s, K. split_and!; [by apply pure_call|done..]. Qed.

(** A new lazy seq is known to have what its producer computes. *)
Lemma answers_new b K t n m l e : computes K n t l e -> (n < m)%nat ->
  answers b K (newLazySeq t) (fun K' v => yields K' m v l e).
Proof.
  intros Hc Hm s Ht _. exists (Lazy (length (cells s))). eexists. exists (K ++ [mkMeaning n l e]).
  assert (HK : K `prefix_of` K ++ [mkMeaning n l e]) by (by apply prefix_app_r).
  split; [reflexivity|]. split; [done|]. split; [|split].
  - apply Forall2_app; [|constructor; [|done]].
    + eapply Forall2_impl; [exact Ht|]. intros ??. by apply holds_weaken.
    + by eapply computes_weaken.
  - by apply (calm_newLazySeq (exn := exn) t s (Ok (Lazy (length (cells s))))).
  - apply (y_lazy _ _ _ (mkMeaning n l e)); [|done]. rewrite <- (Forall2_length _ _ _ Ht). by apply list_lookup_middle.
Qed.

Lemma answers_tail b K after t n m l e : (isNil after = false -> computes K n t l e) -> (isNil after = true -> l = []) ->
  (n < m)%nat -> answers b K (tailStep after t) (fun K' v => yields K' m v l e).
Proof.
  intros Hc Hl Hm. unfold tailStep. destruct (isNil after).
  - apply answers_ret. rewrite Hl by done. apply nil_yields.
  - apply (answers_new _ _ _ n); auto.
Qed.

Lemma isNil_eq (v : V) : isNil v = true -> v = Nil.
Proof. by destruct v. Qed.

Lemma node_of (v : V) : isSeqOrNil v = true -> isNil v = false -> isNode v = true.
Proof. unfold isSeqOrNil. intros Hs Hn. by rewrite Hn in Hs. Qed.

Section Steps.
Context (turns : nat) (realize : nat -> M V) (limit : nat).

(** What is to be known of [realize]: it answers what is known of a seq of a rank less
    than [limit]. *)
Definition ready : Prop := forall b K id m, K !! id = Some m -> determined (elems m) (ends m) ->
  (rank m < limit)%nat -> (rank m < b)%nat ->
  answers b K (realize id) (fun K' v => isSeqOrNil v = true /\ yields K' (S (rank m)) v (elems m) (ends m)).

Context (Hready : ready) (Hturns : (limit < turns)%nat).

(** ** The seq protocol *)

Definition seqAs (n : nat) (l : list V) (e : bool) (K : K_) (v : V) : Prop :=
  isSeqOrNil v = true /\ yields K n v l e.

Lemma chunkOver_yields K n items chunked : seqAs n items true K (chunkOver items chunked).
Proof.
  destruct items as [|x items]; [split; [done|by apply y_items]|]. split; [done|]. unfold chunkOver.
  rewrite <- (app_nil_r (x :: items)) at 3. apply chunk_yields; [done|by apply y_items].
Qed.

Lemma seqOf_answers b K n v l e : yields K n v l e -> determined l e -> (n <= limit)%nat -> (n <= b)%nat ->
  answers b K (seqOf realize v) (seqAs n l e).
Proof.
  intros Hy Hd Hl Hb.
  assert (Hnode : isSeqOrNil v = true -> answers b K (mret v) (seqAs n l e)) by (intros; by apply answers_ret).
  assert (Hitems : forall items chunked, LazySpec.itemsOf v = Some items ->
    answers b K (mret (chunkOver items chunked)) (seqAs n l e)).
  { intros items chunked Hi. apply answers_ret. destruct (chunkOver_yields K n items chunked) as [Hs Hc].
    split; [done|]. eapply yields_covers; [exact Hc|]. by eapply items_inv. }
  assert (Hnone : LazySpec.itemsOf v = None -> (forall x more, v <> Cons x more) ->
    (forall i a c d f, v <> Chunk i a c d f) -> (forall i, v <> Lazy i) -> False).
  { clear -Hy Hd. intros Hi H1 H2 H3. induction Hy; try done.
    - by apply not_determined in Hd.
    - apply IHHy; try done. left. by destruct l1 as [|? ?]; [apply not_determined in Hd|].
    - congruence.
    - by eapply H1.
    - by eapply H2.
    - by eapply H3. }
  destruct v as [| | | |a|items|[|x items]|id|x more|items off end_ more chunked|]; cbn [seqOf];
    try (exfalso; by apply Hnone); try (by apply Hnode).
  - destruct (collectionItems a) as [items|] eqn:Ea; [by apply Hitems|]. exfalso. apply Hnone; done.
  - by apply Hitems.
  - apply answers_ret. split; [done|]. apply (yields_covers _ _ _ [] true); [by apply y_items|by apply (items_inv K n (Lst []) [])].
  - destruct (lazy_inv _ _ _ _ _ Hy Hd) as (m & Hm & Hr & Hc).
    eapply answers_weaken; [apply (Hready b K id m Hm)|]; [by eapply covers_determined|lia..|].
    intros K' v _ [Hs Hv]. split; [done|]. eapply yields_covers; [|exact Hc]. eapply yields_weaken; [done| |exact Hv]. lia.
Qed.

(** ** The steps *)

Lemma walkNext_answers b K n v l e : yields K n (seqMore v) l e -> determined l e -> (n <= limit)%nat ->
  (n <= b)%nat -> answers b K (walkNext realize v) (seqAs n l e).
Proof. apply seqOf_answers. Qed.

(** A chunked source, a slice at a time. *)
Lemma slice_inv K n items off end_ more xs after l e : sliceOf items off end_ more = (xs, after) ->
  yields K n (Chunk items off end_ more true) l e -> determined l e ->
  xs <> [] /\ exists l' e', yields K n after l' e' /\ covers (xs ++ l') e' l e /\ (length l' < length l)%nat.
Proof.
  unfold sliceOf. intros [= <- <-] Hy Hd. set (to := Nat.min end_ (off + kChunk)).
  destruct (chunk_inv _ _ _ _ _ _ _ _ _ Hy Hd) as (Hb & l' & e' & Hm & Hc).
  change (take (to - off) (drop off items)) with (sliceItems items off to). unfold kChunk in to.
  assert (Hxs : sliceItems items off to <> []).
  { intros E%(f_equal length). unfold sliceItems in E. rewrite length_take, length_drop in E. cbn in E. lia. }
  split; [done|]. eapply covers_trim; [done| |rewrite (slice_split items off to end_), <- app_assoc in Hc by lia; exact Hc|done].
  destruct (Nat.ltb_spec to end_) as [Hlt|]; [apply y_chunk; [lia|done]|by rewrite slice_none by lia].
Qed.

Lemma asChunked_inv (v : V) items off end_ more : asChunked v = Some (items, off, end_, more) ->
  v = Chunk items off end_ more true.
Proof. destruct v as [| | | | | | | | |? ? ? ? []|]; try done. by intros [= <- <- <- <-]. Qed.

(** A chunk of the elements [xs], and the rest to come. *)
Lemma chunk_answers b K after t n m (xs : list V) l e : xs <> [] -> (isNil after = false -> computes K n t l e) ->
  (isNil after = true -> l = []) -> (n < m)%nat ->
  answers b K (tail ← tailStep after t; mret (Chunk xs 0 (length xs) tail true)) (seqAs m (xs ++ l) e).
Proof.
  intros Hxs Hc Hl Hm. eapply answers_bind; [by eapply answers_tail|]. intros K' tail _ Ht. apply answers_ret.
  split; [done|by apply chunk_yields].
Qed.

(** A first element, and the rest to come. *)
Lemma cons_answers b K t n m (x : V) l e : computes K n t l e -> (n < m)%nat ->
  answers b K (tail ← newLazySeq t; mret (Cons x tail)) (seqAs m (x :: l) e).
Proof.
  intros Hc Hm. eapply answers_bind; [by eapply answers_new|]. intros K' tail _ Ht. apply answers_ret.
  split; [done|by apply y_cons].
Qed.

Lemma nil_answers b K n e : answers b K (mret Nil : M V) (seqAs n [] e).
Proof. apply answers_ret. split; [done|apply nil_yields]. Qed.

Lemma seqAs_covers K n v L E l e : seqAs n L E K v -> covers L E l e -> seqAs n l e K v.
Proof. intros [Hs Hy] Hc. split; [done|by eapply yields_covers]. Qed.

Lemma covers_map (f : V -> V) L E l e : covers L E l e -> covers (map f L) E (map f l) e.
Proof. intros [[-> ->]|[-> [k ->]]]; [by left|right]. split; [done|]. rewrite map_app. by apply prefix_app_r. Qed.

Lemma covers_filter (p : V -> bool) L E l e : covers L E l e -> covers (List.filter p L) E (List.filter p l) e.
Proof.
  intros [[-> ->]|[-> [k ->]]]; [by left|right]. split; [done|]. rewrite List.filter_app. by apply prefix_app_r.
Qed.

Lemma determined_by (l l' : list V) e : (l = [] -> l' = []) -> determined l' e -> determined l e.
Proof. intros Hl [Hn|?]; [left; auto|by right]. Qed.

Lemma callEach_answers b K f xs acc : pure f ->
  answers b K (callEach f xs acc) (fun _ ys => ys = acc ++ map (fun x => apply f [x]) xs).
Proof.
  intros Hf. revert K acc. induction xs as [|x xs IH]; intros K acc; cbn [callEach].
  - apply answers_ret. by rewrite app_nil_r.
  - eapply answers_bind; [apply (answers_pure _ _ _ _ (fun _ y => y = apply f [x])); done|]. intros K' y _ ->.
    eapply answers_weaken; [apply IH|]. intros ? ? _ ->. by rewrite <- app_assoc.
Qed.

Lemma stepMap1_answers b K n f c l e : pure f -> yields K n c l e -> determined (map (fun x => apply f [x]) l) e ->
  (n <= limit)%nat -> (n <= b)%nat ->
  answers b K (stepMap1 realize f c) (seqAs (S (n + length l)) (map (fun x => apply f [x]) l) e).
Proof.
  intros Hf Hy Hdm Hl Hb. assert (Hd : determined l e) by (eapply determined_by; [|exact Hdm]; by intros ->).
  unfold stepMap1. eapply answers_bind; [by eapply seqOf_answers|]. intros K1 src _ [Hsrc Hy1]. cbn beta.
  destruct (isNil src) eqn:En; [apply isNil_eq in En as ->; apply nil_inv in Hy1 as ->; apply nil_answers|].
  apply node_of in Hsrc; [|done]. destruct (asChunked src) as [[[[items off] end_] more]|] eqn:Ec.
  - apply asChunked_inv in Ec as ->. destruct (sliceOf items off end_ more) as [xs after] eqn:Es.
    destruct (slice_inv _ _ _ _ _ _ _ _ _ _ Es Hy1 Hd) as (Hxs & l' & e' & Ha & Hc & Hlen).
    eapply answers_bind; [by apply callEach_answers|]. intros K2 ys HK2 ->.
    eapply answers_weaken; [eapply (chunk_answers b K2 after _ (n + length l') (S (n + length l)) _ (map (fun x => apply f [x]) l') e')|].
    + by destruct xs.
    + intros _. apply c_map; [done|by eapply yields_weaken].
    + intros ->%isNil_eq. by apply nil_inv in Ha as ->.
    + lia.
    + intros K3 v _ Hv. eapply seqAs_covers; [exact Hv|]. cbn [app]. rewrite <- map_app. by apply covers_map.
  - destruct (node_inv _ _ _ _ _ Hsrc Hy1 Hd) as (l' & -> & Hm).
    eapply answers_bind; [apply (answers_pure _ _ _ _ (fun K' y => K' = K1 /\ y = apply f [seqFirst src])); done|].
    intros K2 y _ [-> ->]. apply (cons_answers _ _ _ (n + length l')); [by apply c_map|cbn; lia].
Qed.

Lemma keepEach_answers b K f neg xs acc : pure f ->
  answers b K (keepEach f neg xs acc) (fun _ ys => ys = acc ++ List.filter (fun x => xorb (test1 f x) neg) xs).
Proof.
  intros Hf. revert K acc. induction xs as [|x xs IH]; intros K acc; cbn [keepEach].
  - apply answers_ret. by rewrite app_nil_r.
  - eapply answers_bind; [apply (answers_pure _ _ _ _ (fun _ y => y = apply f [x])); done|]. intros K' y _ ->.
    eapply answers_weaken; [apply IH|]. intros ? ? _ ->. unfold test1. cbn [List.filter].
    destruct (truthyVal (apply f [x])), neg; cbn; by rewrite <- ?app_assoc.
Qed.

Lemma filterFrom_answers k b K n f neg src l e : pure f -> seqAs n l e K src ->
  determined (List.filter (fun x => xorb (test1 f x) (sameVal neg (Bool true))) l) e ->
  (n <= limit)%nat -> (n <= b)%nat -> (length l < k)%nat ->
  answers b K (filterFrom realize k f neg src)
    (seqAs (S (n + length l)) (List.filter (fun x => xorb (test1 f x) (sameVal neg (Bool true))) l) e).
Proof.
  intros Hf. set (p := fun x => xorb (test1 f x) (sameVal neg (Bool true))). revert K src l e.
  induction k as [|k IH]; intros K src l e [Hsrc Hy] Hdf Hl Hb Hk; [lia|].
  assert (Hd : determined l e) by (eapply determined_by; [|exact Hdf]; by intros ->). cbn [filterFrom].
  destruct (isNil src) eqn:En; [apply isNil_eq in En as ->; apply nil_inv in Hy as ->; apply nil_answers|].
  apply node_of in Hsrc; [|done].
  assert (Hnext : forall K' v l' e', yields K' n v l' e' -> (length l' < length l)%nat -> covers (List.filter p l') e' (List.filter p l) e ->
    determined (List.filter p l') e' -> answers b K' (src ← seqOf realize v; filterFrom realize k f neg src)
      (seqAs (S (n + length l)) (List.filter p l) e)).
  { intros K' v l' e' Hv Hlen Hc Hdv. eapply answers_bind.
    - eapply seqOf_answers; [exact Hv| |done..]. eapply determined_by; [|exact Hdv]. by intros ->.
    - intros K2 s _ Hs. eapply answers_weaken; [apply (IH K2 s l' e'); [done..|lia]|].
      intros K3 w _ Hw. eapply seqAs_covers; [|exact Hc]. destruct Hw as [? Hw]. split; [done|].
      eapply yields_weaken; [done| |exact Hw]. lia. }
  destruct (asChunked src) as [[[[items off] end_] more]|] eqn:Ec.
  - apply asChunked_inv in Ec as ->. destruct (sliceOf items off end_ more) as [xs after] eqn:Es.
    destruct (slice_inv _ _ _ _ _ _ _ _ _ _ Es Hy Hd) as (_ & l' & e' & Ha & Hc & Hlen).
    eapply answers_bind; [by apply keepEach_answers|]. intros K2 ys HK2 ->. fold p. cbn [app].
    apply (covers_filter p) in Hc. rewrite List.filter_app in Hc.
    destruct (List.filter p xs) as [|y ys] eqn:Ef.
    + apply (Hnext K2 after l' e'); [by eapply yields_weaken|done..|]. by eapply covers_determined.
    + eapply answers_weaken; [eapply (chunk_answers b K2 after _ (n + length l') (S (n + length l)) (y :: ys) (List.filter p l') e')|].
      * done.
      * intros _. apply c_filter; [done|by eapply yields_weaken].
      * intros ->%isNil_eq. by apply nil_inv in Ha as ->.
      * lia.
      * intros K3 v _ Hv. by eapply seqAs_covers.
  - destruct (node_inv _ _ _ _ _ Hsrc Hy Hd) as (l' & -> & Hm).
    eapply answers_bind; [apply (answers_pure _ _ _ _ (fun K' y => K' = K /\ y = apply f [seqFirst src])); done|].
    intros K2 y _ [-> ->].
    assert (Ep : negb (Bool.eqb (truthyVal (apply f [seqFirst src])) (sameVal neg (Bool true))) = p (seqFirst src)).
    { unfold p, test1. by destruct (truthyVal _), (sameVal _ _). }
    rewrite Ep. cbn [List.filter] in Hdf |- *. destruct (p (seqFirst src)) eqn:Epx.
    + apply (cons_answers _ _ _ (n + length l')); [by apply c_filter|cbn; lia].
    + eapply answers_weaken; [apply (Hnext K (seqMore src) l' e Hm)|]; [cbn; lia| |done|].
      * cbn [List.filter]. rewrite Epx. by left.
      * intros K' v _. cbn [List.filter]. by rewrite Epx.
Qed.

Lemma stepFilter_answers b K n f c neg l e : pure f -> yields K n c l e ->
  determined (List.filter (fun x => xorb (test1 f x) (sameVal neg (Bool true))) l) e ->
  (n + length l <= limit)%nat -> (n <= b)%nat ->
  answers b K (stepFilter turns realize f c neg)
    (seqAs (S (n + length l)) (List.filter (fun x => xorb (test1 f x) (sameVal neg (Bool true))) l) e).
Proof.
  intros Hf Hy Hd Hl Hb. unfold stepFilter. eapply answers_bind.
  - apply (seqOf_answers b K n); [done| |lia..]. eapply determined_by; [|exact Hd]. by intros ->.
  - intros K1 src _ Hs. apply filterFrom_answers; [done..|lia|lia|lia].
Qed.

Lemma fits_pred k : fits_llong k = true -> 0 < k -> fits_llong (k - 1) = true.
Proof. unfold fits_llong, llong_min, llong_max. rewrite !andb_true_iff, !Z.leb_le. lia. Qed.

Lemma stepTake_answers b K n k c l e : fits_llong k = true -> yields K n c l e ->
  determined (take (Z.to_nat k) l) (e || (k <=? Z.of_nat (length l))) -> (n <= limit)%nat -> (n <= b)%nat ->
  answers b K (stepTake realize (Int k) c)
    (seqAs (S (n + length l)) (take (Z.to_nat k) l) (e || (k <=? Z.of_nat (length l)))).
Proof.
  intros Hk Hy Hdt Hl Hb. unfold stepTake, countOperand. rewrite Hk.
  eapply answers_bind; [by apply (answers_ret _ _ _ (fun K' r => r = k))|]. intros K1 k' HK1 ->.
  destruct (Z.leb_spec k 0) as [Hk0|Hk0]; [replace (Z.to_nat k) with 0%nat by lia; apply nil_answers|].
  assert (Hd : determined l e).
  { destruct l; [|by left]. right. rewrite take_nil in Hdt. apply determined_nil in Hdt.
    destruct e; [done|]. apply Z.leb_le in Hdt. cbn in Hdt. lia. }
  eapply answers_bind; [eapply (seqOf_answers b K1 n); [by eapply yields_weaken|done..]|].
  intros K2 src _ [Hsrc Hy2]. cbn beta.
  destruct (isNil src) eqn:En.
  { apply isNil_eq in En as ->. apply nil_inv in Hy2 as ->. rewrite take_nil. apply nil_answers. }
  apply node_of in Hsrc; [|done]. destruct (node_inv _ _ _ _ _ Hsrc Hy2 Hd) as (l' & -> & Hm).
  destruct (Z.eqb_spec k 1) as [->|Hne].
  - apply answers_ret. split; [done|]. replace (e || _) with true by (destruct e; [done|]; symmetry; apply Z.leb_le; cbn [length]; lia).
    apply y_cons. apply y_items. done.
  - replace (Z.to_nat k) with (S (Z.to_nat (k - 1))) by lia. cbn [take].
    eapply (cons_answers _ _ _ (n + length l')); [|cbn; lia].
    replace (e || (k <=? _)) with (e || (k - 1 <=? Z.of_nat (length l'))) by (f_equal; apply eq_true_iff_eq; rewrite !Z.leb_le; cbn [length]; lia).
    apply c_take; [|done]. by apply fits_pred.
Qed.

Lemma stepTakeWhile_answers b K n f c l e : pure f -> yields K n c l e ->
  determined (takeWhileL (test1 f) l) (e || (length (takeWhileL (test1 f) l) <? length l)%nat) ->
  (n <= limit)%nat -> (n <= b)%nat ->
  answers b K (stepTakeWhile realize f c)
    (seqAs (S (n + length l)) (takeWhileL (test1 f) l) (e || (length (takeWhileL (test1 f) l) <? length l)%nat)).
Proof.
  intros Hf Hy Hdt Hl Hb.
  assert (Hd : determined l e) by (destruct l; [destruct Hdt as [|Hdt]; [done|right; by destruct e]|by left]).
  unfold stepTakeWhile. eapply answers_bind; [by apply (seqOf_answers b K n)|]. intros K2 src _ [Hsrc Hy2]. cbn beta.
  destruct (isNil src) eqn:En; [apply isNil_eq in En as ->; apply nil_inv in Hy2 as ->; apply nil_answers|].
  apply node_of in Hsrc; [|done]. destruct (node_inv _ _ _ _ _ Hsrc Hy2 Hd) as (l' & -> & Hm).
  eapply answers_bind; [apply (answers_pure _ _ _ _ (fun K' y => K' = K2 /\ y = apply f [seqFirst src])); done|].
  intros K3 y _ [-> ->]. cbn [takeWhileL]. change (truthyVal (apply f [seqFirst src])) with (test1 f (seqFirst src)).
  destruct (test1 f (seqFirst src)); cbn [negb]; [|apply nil_answers].
  eapply (cons_answers _ _ _ (n + length l')); [by apply c_takeWhile|cbn; lia].
Qed.

(** *** Walks *)

(** The place of a walk is one of its node; what is left of it has these elements. *)
Definition placed (w : @walk A) : Prop :=
  match node_ w with
  | Some (Lst items) => (i_ w < end__ w <= length items)%nat
  | Some (Chunk _ _ end_ _ _) => end__ w = end_
  | Some (Cons _ _) | None => True
  | Some _ => False
  end.

Definition walks (n : nat) (l : list V) (e : bool) (K : K_) (w : @walk A) : Prop :=
  placed w /\ yields K n (walkRemaining w) l e.

Lemma remaining_node (w : @walk A) : walkDone w = false -> placed w ->
  isNode (walkRemaining w) = true /\ seqFirst (walkRemaining w) = walkFirst w.
Proof.
  destruct w as [[node|] i end_]; [|done]. unfold placed. cbn [node_ i_ end__]. intros _.
  destruct node as [| | | | | |items| |x more|items off e more chunked|]; try done; unfold walkRemaining, walkFirst; cbn [node_ i_ end__].
  - intros Hi. destruct (lookup_lt_is_Some_2 items i ltac:(lia)) as [x Hx]. rewrite Hx.
    destruct (Nat.eqb_spec i 0) as [->|_]; [by destruct items; [|injection Hx as ->]|].
    by rewrite (drop_S _ _ _ Hx).
  - intros ->. by destruct (Nat.eqb_spec i off) as [->|_].
Qed.

Lemma load_walks K n v l e : seqAs n l e K v -> walks n l e K (load v).
Proof.
  intros [Hs Hy]. destruct v as [| | | | | |[|x items]| |x more|items off end_ more chunked|]; try done.
  - split; [|done]. exact (listHeadCount_bounds x items).
  - split; [done|]. cbn. by rewrite Nat.eqb_refl.
Qed.

Lemma more_walks b K n more l e : yields K n more l e -> determined l e -> (n <= limit)%nat -> (n <= b)%nat ->
  answers b K
    match more with
    | Nil | Lst [] => mret (mkWalk None 0 0)
    | Lst _ | Cons _ _ | Chunk _ _ _ _ _ => mret (load more)
    | _ => s ← seqOf realize more; mret (load s)
    end (walks n l e).
Proof.
  intros Hy Hd Hl Hb.
  assert (Hseq : answers b K (s ← seqOf realize more; mret (load s)) (walks n l e)).
  { eapply answers_bind; [by apply (seqOf_answers b K n)|]. intros K' s _ Hs. apply answers_ret. by apply load_walks. }
  assert (Hnode : isNode more = true -> answers b K (mret (load more)) (walks n l e)).
  { intros Hn. apply answers_ret, load_walks. split; [|done]. unfold isSeqOrNil. rewrite Hn. by destruct (isNil more). }
  destruct more as [| | | | | |[|x items]| |x more|items off end_ more chunked|]; try exact Hseq; try (by apply Hnode).
Qed.

Lemma startWalk_answers b K n v l e : yields K n v l e -> determined l e -> (n <= limit)%nat -> (n <= b)%nat ->
  answers b K (startWalk realize v) (walks n l e).
Proof.
  intros Hy Hd Hl Hb. pose proof (more_walks b K n v l e Hy Hd Hl Hb) as Hm.
  destruct v as [| | | | | |[|x items]| | | |]; exact Hm.
Qed.

Lemma walk_done K n w l e : walks n l e K w -> walkDone w = true -> l = [].
Proof. intros [_ Hy] Hd. destruct w as [[node|] i end_]; [done|]. by apply nil_inv in Hy. Qed.

Lemma walk_more K n w l e : walks n l e K w -> walkDone w = false -> determined l e ->
  exists l', l = walkFirst w :: l' /\ forall b, determined l' e -> (n <= limit)%nat -> (n <= b)%nat ->
    answers b K (walkAdvance realize w) (walks n l' e).
Proof.
  intros [Hp Hy] Hdone Hd. destruct (remaining_node w Hdone Hp) as [Hn Hf].
  destruct (node_inv _ _ _ _ _ Hn Hy Hd) as (l' & -> & Hm). exists l'. rewrite Hf. split; [done|]. intros b Hd' Hl Hb.
  destruct w as [[node|] i end_]; [|done]. unfold placed in Hp. cbn [node_ i_ end__] in *. unfold walkAdvance. cbn [node_ i_ end__].
  destruct node as [| | | | | |items| |x more|items off e' more chunked|]; try done; cbn [negb andb].
  - assert (Hm' : yields K n (Lst (drop (S i) items)) l' e).
    { destruct (lookup_lt_is_Some_2 items i ltac:(lia)) as [x Hx]. unfold walkRemaining in Hm. cbn [node_ i_] in Hm.
      destruct (Nat.eqb_spec i 0) as [->|_]; [by destruct items|]. by rewrite (drop_S _ _ _ Hx) in Hm. }
    destruct (Nat.ltb_spec (S i) end_).
    + apply answers_ret. split; [cbn; lia|]. exact Hm'.
    + replace (S i) with end_ in Hm' by lia. pose proof (more_walks b K n _ l' e Hm' Hd' Hl Hb) as Hw.
      destruct (drop end_ items); exact Hw.
  - pose proof (more_walks b K n _ l' e Hm Hd' Hl Hb) as Hw. by destruct more as [| | | | | |[|? ?]| | | |].
  - subst e'. assert (Hm' : yields K n (if (S i <? end_)%nat then Chunk items (S i) end_ more chunked else orEmpty more) l' e).
    { unfold walkRemaining in Hm. cbn [node_ i_ end__] in Hm. by destruct (Nat.eqb_spec i off) as [<-|_]. }
    destruct (Nat.ltb_spec (S i) end_).
    + apply answers_ret. split; [done|]. unfold walkRemaining. cbn [node_ i_ end__]. by destruct (Nat.eqb_spec (S i) off) as [<-|_].
    + pose proof (more_walks b K n _ l' e Hm' Hd' Hl Hb) as Hw. by destruct more as [| | | | | |[|? ?]| | | |].
Qed.

Lemma walkTake_answers k b K n w l e acc : walks n l e K w -> determined (drop k l) e -> (n <= limit)%nat ->
  (n <= b)%nat -> answers b K (walkTake realize k w acc)
    (fun K' r => r.1 = acc ++ take k l /\ walks n (drop k l) e K' r.2).
Proof.
  revert K w l acc. induction k as [|k IH]; intros K w l acc Hw Hd Hl Hb; cbn [walkTake].
  - apply answers_ret. by rewrite app_nil_r.
  - destruct (walkDone w) eqn:Ed.
    + pose proof (walk_done _ _ _ _ _ Hw Ed) as ->. rewrite take_nil, drop_nil, app_nil_r in *. by apply answers_ret.
    + assert (Hdl : determined l e) by (eapply determined_by; [|exact Hd]; by intros ->).
      destruct (walk_more _ _ _ _ _ Hw Ed Hdl) as (l' & -> & Hadv). cbn [take drop] in *.
      eapply answers_bind; [apply (Hadv b); [|done..]|].
      { eapply determined_by; [|exact Hd]. intros ->. apply drop_nil. }
      intros K' w' _ Hw'. eapply answers_weaken; [by apply (IH K' w' l')|]. intros K2 r _ [-> Hr].
      by rewrite <- app_assoc.
Qed.

Lemma walkToEnd_answers k b K n w l acc : walks n l true K w -> (length l < k)%nat -> (n <= limit)%nat ->
  (n <= b)%nat -> answers b K (walkToEnd realize k w acc) (fun _ r => r = acc ++ l).
Proof.
  revert K w l acc. induction k as [|k IH]; intros K w l acc Hw Hk Hl Hb; cbn [walkToEnd]; [lia|].
  destruct (walkDone w) eqn:Ed.
  - pose proof (walk_done _ _ _ _ _ Hw Ed) as ->. apply answers_ret. by rewrite app_nil_r.
  - destruct (walk_more _ _ _ _ _ Hw Ed) as (l' & -> & Hadv); [by right|].
    eapply answers_bind; [apply (Hadv b); [by right|done..]|]. intros K' w' _ Hw'.
    eapply answers_weaken; [apply (IH K' w' l'); [done|cbn in Hk; lia|done..]|]. intros K2 r _ ->.
    by rewrite <- app_assoc.
Qed.

Lemma walkSteps_answers k b K n w l e : walks n l e K w -> determined (drop (Z.to_nat k) l) e -> (length l < turns)%nat ->
  (n <= limit)%nat -> (n <= b)%nat -> answers b K (walkSteps turns realize k w)
    (fun K' r => r.1 = take (Z.to_nat k) l /\ walks n (drop (Z.to_nat k) l) e K' r.2).
Proof.
  intros Hw Hd Hk Hl Hb. unfold walkSteps, turnsOf.
  assert (Ed : drop (Z.to_nat (Z.min k (Z.of_nat turns))) l = drop (Z.to_nat k) l).
  { destruct (Z.le_gt_cases k (Z.of_nat turns)); [f_equal; lia|]. rewrite !drop_ge by lia. done. }
  assert (Et : take (Z.to_nat (Z.min k (Z.of_nat turns))) l = take (Z.to_nat k) l).
  { destruct (Z.le_gt_cases k (Z.of_nat turns)); [f_equal; lia|]. rewrite !take_ge by lia. done. }
  eapply answers_bind; [eapply (walkTake_answers _ b K n w l e []); [done|by rewrite Ed|done..]|].
  rewrite Ed, Et. intros K' [xs w'] _ [Hxs Hw']. cbn [fst snd] in *.
  destruct (Z.ltb_spec (Z.of_nat turns) k); cbn [andb]; [|by apply answers_ret].
  destruct (walkDone w') eqn:Edone; cbn [negb]; [by apply answers_ret|].
  destruct (walk_more _ _ _ _ _ Hw' Edone Hd) as (l' & E & _). rewrite drop_ge in E by lia. done.
Qed.

Lemma restOfWalk_answers b K n w l e m : walks n l e K w -> determined l e -> (n <= limit)%nat -> (n <= b)%nat ->
  (n <= m)%nat -> answers b K (restOfWalk realize w) (seqAs m l e).
Proof.
  intros Hw Hd Hl Hb Hm. unfold restOfWalk. destruct (walkDone w) eqn:Ed.
  - pose proof (walk_done _ _ _ _ _ Hw Ed) as ->. apply nil_answers.
  - eapply answers_weaken; [eapply (seqOf_answers b K n); [apply Hw|done..]|]. intros K' v _ [? Hv].
    split; [done|]. eapply yields_weaken; [done| |exact Hv]. done.
Qed.

Lemma determined_drop k (l : list V) e : determined (drop k l) e -> determined l e.
Proof. apply determined_by. intros ->. apply drop_nil. Qed.

Lemma stepDrop_answers b K n k c l e : fits_llong k = true -> yields K n c l e ->
  determined (drop (Z.to_nat k) l) e -> (n + length l <= limit)%nat -> (n <= b)%nat ->
  answers b K (stepDrop turns realize (Int k) c) (seqAs (S (n + length l)) (drop (Z.to_nat k) l) e).
Proof.
  intros Hk Hy Hd Hl Hb. unfold stepDrop, countOperand. rewrite Hk.
  eapply answers_bind; [by apply (answers_ret _ _ _ (fun K' r => r = k))|]. intros K1 k' HK1 ->.
  eapply answers_bind; [eapply (startWalk_answers b K1 n c l e)|].
  { by eapply yields_weaken. } { by eapply determined_drop. } { lia. } { done. }
  intros K2 w _ Hw. eapply answers_bind; [apply (walkSteps_answers k b K2 n w l e Hw); [done|lia..]|].
  intros K3 r _ [_ Hr]. apply (restOfWalk_answers _ _ n); [done|done|lia..].
Qed.

Lemma dropWhileFrom_answers k b K n f w l e m : pure f -> walks n l e K w -> determined (dropWhileL (test1 f) l) e ->
  (length l < k)%nat -> (n <= limit)%nat -> (n <= b)%nat -> (n <= m)%nat ->
  answers b K (dropWhileFrom realize k f w) (seqAs m (dropWhileL (test1 f) l) e).
Proof.
  intros Hf. revert K w l. induction k as [|k IH]; intros K w l Hw Hdd Hk Hl Hb Hm; cbn [dropWhileFrom]; [lia|].
  destruct (walkDone w) eqn:Ed.
  - pose proof (walk_done _ _ _ _ _ Hw Ed) as ->. apply nil_answers.
  - assert (Hd : determined l e) by (eapply determined_by; [|exact Hdd]; by intros ->).
    destruct (walk_more _ _ _ _ _ Hw Ed Hd) as (l' & -> & Hadv).
    eapply answers_bind; [apply (answers_pure _ _ _ _ (fun K' y => K' = K /\ y = apply f [walkFirst w])); done|].
    intros K3 y _ [-> ->]. cbn [dropWhileL] in *.
    change (truthyVal (apply f [walkFirst w])) with (test1 f (walkFirst w)).
    destruct (test1 f (walkFirst w)).
    + eapply answers_bind; [apply (Hadv b); [|done..]|].
      { eapply determined_by; [|exact Hdd]. by intros ->. }
      intros K4 w' _ Hw'. apply IH; [done|done|cbn in Hk; lia|done..].
    + by apply (restOfWalk_answers _ _ n).
Qed.

Lemma stepDropWhile_answers b K n f c l e : pure f -> yields K n c l e ->
  determined (dropWhileL (test1 f) l) e -> (n + length l <= limit)%nat -> (n <= b)%nat ->
  answers b K (stepDropWhile turns realize f c) (seqAs (S (n + length l)) (dropWhileL (test1 f) l) e).
Proof.
  intros Hf Hy Hdd Hl Hb. unfold stepDropWhile. eapply answers_bind.
  - apply (startWalk_answers b K n c l e); [done| |lia|done]. eapply determined_by; [|exact Hdd]. by intros ->.
  - intros K2 w _ Hw. apply (dropWhileFrom_answers _ _ _ n); [done..|lia|lia|done|lia].
Qed.

(** *** Steps that make their elements *)

Lemma stepIterate_answers b K f x k : pure f ->
  answers b K (stepIterate f x) (seqAs (S k) (iterateL f k x) false).
Proof.
  intros Hf. destruct k as [|k].
  - eapply answers_weaken; [apply (cons_answers _ _ _ 0 1 x (iterateL f 0 (apply f [x])) false); [by apply c_iterateNext|lia]|].
    intros K' v _ [Hs _]. split; [done|apply y_any].
  - apply (cons_answers _ _ _ k); [by apply c_iterateNext|lia].
Qed.

Lemma stepIterateNext_answers b K f x k : pure f -> (0 < k)%nat ->
  answers b K (stepIterateNext f x) (seqAs (S k) (iterateL f k (apply f [x])) false).
Proof.
  intros Hf Hk. destruct k as [|k]; [lia|].
  eapply answers_bind; [apply (answers_pure _ _ _ _ (fun K' y => K' = K /\ y = apply f [x])); done|].
  intros K3 y _ [-> ->]. apply (cons_answers _ _ _ k); [by apply c_iterateNext|lia].
Qed.

Lemma stepRepeat_answers b K self x k : K !! self = Some (mkMeaning k (replicate k x) false) ->
  answers b K (stepRepeat self x Nil) (seqAs (S k) (replicate k x) false).
Proof.
  intros Hself. apply answers_ret. split; [done|]. destruct k as [|k]; [apply y_any|]. cbn [replicate].
  apply y_cons. apply (y_prefix _ _ _ _ [x] false). rewrite <- replicate_S_end.
  exact (y_lazy K (S (S k)) self _ Hself ltac:(cbn; lia)).
Qed.

Lemma stepRepeatN_answers b K self x k : fits_llong k = true ->
  answers b K (stepRepeat self x (Int k)) (seqAs (S (Z.to_nat k)) (replicate (Z.to_nat k) x) true).
Proof.
  intros Hk. unfold stepRepeat, countOperand. cbn [isNil]. rewrite Hk.
  eapply answers_bind; [by apply (answers_ret _ _ _ (fun K' r => r = k))|]. intros K1 k' HK1 ->.
  destruct (Z.leb_spec k 0); [replace (Z.to_nat k) with 0%nat by lia; apply nil_answers|].
  destruct (Z.eqb_spec k 1) as [->|Hne].
  - eapply answers_bind; [by apply (answers_ret _ _ _ (fun K' r => r = Nil))|]. intros K2 t _ ->.
    apply answers_ret. split; [done|]. apply y_cons, nil_yields.
  - replace (Z.to_nat k) with (S (Z.to_nat (k - 1))) by lia.
    apply (cons_answers _ _ _ (Z.to_nat (k - 1))); [|lia]. apply c_repeatN. apply fits_pred; [done|lia].
Qed.

Lemma stepRangeInf_answers b K x step k :
  answers b K (stepRangeInf (Int x) (Int step))
    (seqAs (S k) (map (fun i => Int (x + Z.of_nat i * step)) (seq 0 k)) false).
Proof.
  unfold stepRangeInf. eapply answers_bind; [by apply (answers_ret _ _ _ (fun K' r => r = Int (x + step)))|].
  intros K1 next _ ->. destruct k as [|k].
  - eapply answers_weaken; [apply (cons_answers _ _ _ 0 1); [apply (c_rangeInf _ _ _ _ _ _ 0)|lia]|].
    intros K' v _ [Hs _]. split; [done|apply y_any].
  - cbn [seq map]. replace (x + Z.of_nat 0 * step) with x by lia. rewrite <- seq_shift, map_map.
    rewrite (map_ext (fun i => Int (x + Z.of_nat (S i) * step)) (fun i => Int (x + step + Z.of_nat i * step)))
      by (intros i; f_equal; lia).
    apply (cons_answers _ _ _ k); [apply c_rangeInf|lia].
Qed.

(** A chunk of a range, and where the next begins. *)
Definition rangeChunk (end_ step : Z) (k : nat) (acc : list V) (l : list Z) (r : list V * Z) : Prop :=
  exists l1 l2, l = l1 ++ l2 /\ r.1 = acc ++ map Int l1 /\ ranges end_ step r.2 l2 /\ ((0 < k)%nat -> l <> [] -> l1 <> []).

Lemma rangeChunk_end end_ step k acc x : ranges end_ step x [] -> rangeChunk end_ step k acc [] (acc, x).
Proof. intros Hr. exists [], []. cbn; rewrite app_nil_r. by split_and!. Qed.

Lemma rangeChunk_next end_ step k acc x l r : rangeChunk end_ step k (acc ++ [Int x]) l r ->
  rangeChunk end_ step (S k) acc (x :: l) r.
Proof.
  intros (l1 & l2 & -> & E & Hr & _). exists (x :: l1), l2. split_and!; [done| |done|done].
  by rewrite E, <- app_assoc.
Qed.

Lemma smallRange_answers k end_ step x acc l : ranges end_ step x l ->
  rangeChunk end_ step k acc l (smallRange k (0 <? step) x end_ step acc).
Proof.
  revert x acc l. induction k as [|k IH]; intros x acc l Hr; cbn [smallRange].
  - exists [], l. rewrite app_nil_r. split_and!; [done..|lia].
  - change (if 0 <? step then x <? end_ else end_ <? x) with (before end_ step x).
    destruct Hr as [x Hx|x l Hx Hr]; rewrite Hx; [apply rangeChunk_end; by constructor|].
    destruct (fitsSmallInt (x + step)); cbn [negb]; [by apply rangeChunk_next, IH|].
    exists [x], l. by split_and!.
Qed.

Lemma compare_before end_ step x : (if 0 <? step then compareZ x end_ <? 0 else 0 <? compareZ x end_) = before end_ step x.
Proof.
  unfold compareZ, before. destruct (Z.ltb_spec x end_); [destruct (0 <? step); [done|symmetry; apply Z.ltb_ge; lia]|].
  by destruct (end_ <? x), (0 <? step).
Qed.

Lemma numberRange_answers b K k end_ step x acc l : ranges end_ step x l ->
  answers b K (numberRange k (0 <? step) (Int x) (Int end_) (Int step) acc)
    (fun _ r => exists x', r.2 = Int x' /\ rangeChunk end_ step k acc l (r.1, x')).
Proof.
  revert K x acc l. induction k as [|k IH]; intros K x acc l Hr; cbn [numberRange].
  - apply answers_ret. exists x. split; [done|]. exists [], l. rewrite app_nil_r. split_and!; [done..|lia].
  - eapply answers_bind; [by apply (answers_ret _ _ _ (fun _ r => r = compareZ x end_))|]. intros K1 c _ ->.
    replace (if 0 <? step then 0 <=? compareZ x end_ else compareZ x end_ <=? 0) with (negb (before end_ step x)).
    2:{ rewrite <- compare_before. destruct (0 <? step); by rewrite Z.leb_antisym. }
    destruct Hr as [x Hx|x l Hx Hr]; rewrite Hx; cbn [negb].
    + apply answers_ret. exists x. split; [done|]. apply rangeChunk_end. by constructor.
    + eapply answers_bind; [by apply (answers_ret _ _ _ (fun _ r => r = Int (x + step)))|]. intros K2 y _ ->.
      eapply answers_weaken; [by apply IH|]. intros K3 r _ (x' & E & Hc). exists x'. split; [done|].
      by apply rangeChunk_next.
Qed.

Lemma stepRange_answers b K x end_ step l : ranges end_ step x l ->
  answers b K (stepRange (Int x) (Int end_) (Int step)) (seqAs (S (length l)) (map Int l) true).
Proof.
  intros Hr. unfold stepRange.
  eapply answers_bind; [by apply (answers_ret _ _ _ (fun _ r => r = compareZ step 0))|]. intros K1 c _ ->.
  replace (0 <? compareZ step 0) with (0 <? step).
  2:{ unfold compareZ. destruct (Z.ltb_spec step 0); [apply Z.ltb_ge; lia|]. by destruct (0 <? step). }
  apply (answers_bind _ _ _ _ (fun _ r => exists x', r.2 = Int x' /\ rangeChunk end_ step kChunk [] l (r.1, x'))).
  - destruct (fitsSmallInt x && fitsSmallInt end_ && fitsSmallInt step); [|by apply numberRange_answers].
    pose proof (smallRange_answers kChunk end_ step x [] l Hr) as Hc.
    destruct (smallRange kChunk (0 <? step) x end_ step []) as [out x']. apply answers_ret. by exists x'.
  - intros K2 [out next] _ (x' & E & l1 & l2 & -> & Eo & Hr2 & Hne). cbn [fst snd] in *. subst out next.
    destruct l1 as [|y l1].
    { destruct l2 as [|y l2]; [apply nil_answers|]. exfalso. apply Hne; [unfold kChunk; lia|done|done]. }
    cbn [app map].
    eapply answers_bind; [by apply (answers_ret _ _ _ (fun _ r => r = compareZ x' end_))|]. intros K3 d _ ->.
    rewrite compare_before.
    apply (answers_bind _ _ _ _ (fun K' v => yields K' (S (length (y :: l1 ++ l2))) v (map Int l2) true)).
    + destruct Hr2 as [x' Hx|x' l2 Hx Hr2]; rewrite Hx; [apply answers_ret; by apply y_items|].
      apply (answers_new _ _ _ (length (x' :: l2))); [by apply c_range; constructor|].
      cbn. rewrite length_app. cbn. lia.
    + intros K4 tail _ Ht. apply answers_ret. split; [done|]. rewrite map_app.
      by apply (chunk_yields _ _ (Int y :: map Int l1)).
Qed.

(** *** Concatenation *)

Lemma yieldsAll_nil K n l e : yieldsAll K n [] l e -> l = [] /\ e = true.
Proof. by inversion 1. Qed.

Lemma yieldsAll_head K n c cs l e : yieldsAll K n (c :: cs) l e -> (exists l1 l2, l = l1 ++ l2 /\ yields K n c l1 true /\ yieldsAll K n cs l2 e) \/
  (e = false /\ yields K n c l false).
Proof. inversion 1; subst; [by right|left]. by exists l1, l0. Qed.

(** The first collection with its first elements taken. *)
Lemma yieldsAll_split K n (xs : list V) c c' cs l e : xs <> [] ->
  (forall l1 e1, yields K n c l1 e1 -> determined l1 e1 -> exists l2 e2, yields K n c' l2 e2 /\ covers (xs ++ l2) e2 l1 e1) ->
  yieldsAll K n (c :: cs) l e -> determined l e ->
  exists l' e', yieldsAll K n (c' :: cs) l' e' /\ covers (xs ++ l') e' l e /\ (length l' < length l)%nat.
Proof.
  intros Hxs Hc Hy Hd. destruct (yieldsAll_head _ _ _ _ _ _ Hy) as [(l1 & l2 & -> & Hy1 & Hy2)|[-> Hy1]].
  - destruct (Hc l1 true Hy1) as (l3 & e3 & Hy3 & [[<- ->]|[? _]]); [by right| |done].
    exists (l3 ++ l2), e. split; [by apply all_next|]. rewrite app_assoc. split; [by left|].
    rewrite !length_app. destruct xs; [done|cbn; lia].
  - destruct (Hc l false Hy1 Hd) as (l3 & e3 & Hy3 & Hcov).
    destruct (covers_trim _ _ _ _ _ _ _ _ Hxs Hy3 Hcov Hd) as (l4 & e4 & Hy4 & Hcov4 & Hlen).
    exists l4, false. split; [destruct e4; [|by apply all_part]|].
    + apply all_part. apply (y_prefix _ _ _ _ [] true). by rewrite app_nil_r.
    + split; [|done]. destruct Hcov4 as [[-> _]|[_ ?]]; [by left|by right].
Qed.

Lemma yieldsAll_first K n c cs l e : yieldsAll K n (c :: cs) l e -> determined l e ->
  exists l1 e1, yields K n c l1 e1 /\ determined l1 e1 /\
    forall K' c', K `prefix_of` K' -> yields K' n c' l1 e1 -> yieldsAll K' n (c' :: cs) l e.
Proof.
  intros Hy Hd. destruct (yieldsAll_head _ _ _ _ _ _ Hy) as [(l1 & l2 & -> & Hy1 & Hy2)|[-> Hy1]].
  - exists l1, true. split_and!; [done|by right|]. intros K' c' HK Hc. apply all_next; [done|].
    by eapply yieldsAll_weaken.
  - exists l, false. split_and!; [done..|]. intros K' c' _ Hc. by apply all_part.
Qed.

Lemma covers_and (ce : bool) L E (l : list V) e : covers L E l e -> covers L (ce && E) l (ce && e).
Proof. intros [[-> ->]|[-> ?]]; [by left|right]. by rewrite andb_false_r. Qed.

Lemma determined_and (ce : bool) (l : list V) e : determined l (ce && e) -> determined l e.
Proof. intros [?|[_ ?]%andb_true_iff]; [by left|by right]. Qed.

(** The rest of a concatenation, one element or chunk further. *)
Lemma concat_new b K n1 n2 more colls cs ce l e m : yields K n1 colls cs ce -> yieldsAll K n2 (more :: cs) l e ->
  (n1 + n2 + length cs + length l < m)%nat ->
  answers b K (newLazySeq (Step Concat more colls Nil Nil Nil)) (fun K' v => yields K' m v l (ce && e)).
Proof. intros Hc Ha Hm. by eapply answers_new; [apply c_concat|]. Qed.

Lemma prependSeq_answers b K n1 n2 sq colls cs ce l e m : isNode sq = true -> yields K n1 colls cs ce ->
  yieldsAll K n2 (sq :: cs) l e -> determined l (ce && e) -> (n1 + n2 + length cs + length l < m)%nat ->
  answers b K (prependSeq sq colls) (seqAs m l (ce && e)).
Proof.
  intros Hsq Hcolls Hall Hda Hm. pose proof (determined_and _ _ _ Hda) as Hd.
  assert (Hs : isSeqOrNil sq = true) by (unfold isSeqOrNil; rewrite Hsq; by destruct (isNil sq)).
  assert (Hret : LazySpec.itemsOf colls = Some [] -> answers b K (mret sq) (seqAs m l (ce && e))).
  { intros Hi. apply answers_ret. split; [done|].
    assert (cs = []) as -> by (destruct (items_inv _ _ _ _ _ _ Hi Hcolls) as [[<- _]|[_ ?%prefix_nil_inv]]; done).
    destruct (yieldsAll_head _ _ _ _ _ _ Hall) as [(l1 & l2 & -> & Hy1 & [-> ->]%yieldsAll_nil)|[-> Hy1]].
    - rewrite app_nil_r. eapply (yields_weaken K K n2); [done|lia|]. destruct ce; [done|].
      apply (y_prefix _ _ _ _ [] true). by rewrite app_nil_r.
    - rewrite andb_false_r. eapply (yields_weaken K K n2); [done|lia|done]. }
  assert (Hrest : answers b K
    match sq with
    | Chunk items off end_ more chunked =>
        tail ← newLazySeq (Step Concat more colls Nil Nil Nil); mret (Chunk items off end_ tail chunked)
    | Lst (x :: items) => tail ← newLazySeq (Step Concat (Lst items) colls Nil Nil Nil); mret (Cons x tail)
    | Cons x more => tail ← newLazySeq (Step Concat more colls Nil Nil Nil); mret (Cons x tail)
    | _ => mret sq
    end (seqAs m l (ce && e))).
  { destruct (yieldsAll_first _ _ _ _ _ _ Hall Hd) as (l1 & e1 & Hy1 & Hd1 & _).
    assert (Hfinish : forall xs c', xs <> [] ->
      (forall l1 e1, yields K n2 sq l1 e1 -> determined l1 e1 -> exists l2 e2, yields K n2 c' l2 e2 /\ covers (xs ++ l2) e2 l1 e1) ->
      forall k, (forall K' t L E, yields K' m t L E -> seqAs m (xs ++ L) E K' (k t)) ->
      answers b K (tail ← newLazySeq (Step Concat c' colls Nil Nil Nil); mret (k tail)) (seqAs m l (ce && e))).
    { intros xs c' Hxs Hinv k Hk.
      destruct (yieldsAll_split _ _ xs _ c' _ _ _ Hxs Hinv Hall Hd) as (l' & e' & Hy' & Hc & Hlen).
      eapply answers_bind; [eapply (concat_new b K n1 n2 c' colls cs ce l' e' m); [done|done|lia]|].
      intros K' t _ Ht. apply answers_ret. eapply seqAs_covers; [exact (Hk _ _ _ _ Ht)|]. by apply covers_and. }
    destruct sq as [| | | | | |[|x items]| |x more|items off end_ more chunked|]; try done.
    - apply (Hfinish [x] (Lst items) ltac:(done)); [|intros; split; [done|by apply y_cons]].
      intros l0 e0 Hy0 Hd0. apply (items_inv K n2 _ (x :: items)) in Hy0; [|done].
      exists items, true. split; [by apply y_items|done].
    - apply (Hfinish [x] more ltac:(done)); [|intros; split; [done|by apply y_cons]].
      intros l0 e0 Hy0 Hd0. destruct (cons_inv _ _ _ _ _ _ Hy0 Hd0) as (l' & -> & Hm').
      exists l', e0. split; [done|by left].
    - destruct (chunk_inv _ _ _ _ _ _ _ _ _ Hy1 Hd1) as (Hb & _).
      apply (Hfinish (sliceItems items off end_) more); [by rewrite slice_first|..].
      + intros l0 e0 Hy0 Hd0. by destruct (chunk_inv _ _ _ _ _ _ _ _ _ Hy0 Hd0) as (_ & ?).
      + intros K' t L E Ht. split; [done|by apply y_chunk]. }
  unfold prependSeq. destruct colls as [| | | | | |[|? ?]| | | |]; try exact Hrest; by apply Hret.
Qed.

Lemma concatFrom_answers k b K n1 n2 s colls cs ce l e m : isSeqOrNil s = true -> yields K n1 colls cs ce ->
  yieldsAll K n2 (s :: cs) l e -> determined l (ce && e) -> (length cs < k)%nat -> (n1 + n2 <= limit)%nat ->
  (n1 + n2 <= b)%nat -> (n1 + n2 + length cs + length l < m)%nat ->
  answers b K (concatFrom realize k s colls) (seqAs m l (ce && e)).
Proof.
  revert K s colls cs. induction k as [|k IH]; intros K s colls cs Hs Hcolls Hall Hd Hk Hl Hb Hm; [lia|]. cbn [concatFrom].
  destruct (isNil s) eqn:En; cbn [negb].
  2:{ eapply prependSeq_answers; [by apply node_of|done..]. }
  apply isNil_eq in En as ->.
  destruct (yieldsAll_head _ _ _ _ _ _ Hall) as [(l1 & l2 & -> & ->%nil_inv & Hy2)|[-> ->%nil_inv]].
  2:{ rewrite andb_false_r in Hd. by apply not_determined in Hd. }
  cbn [app] in *.
  eapply answers_bind; [eapply (seqOf_answers b K n1 colls cs ce); [done| |lia..]|].
  { destruct cs; [|by left]. apply yieldsAll_nil in Hy2 as [-> ->]. right. apply determined_nil in Hd. by destruct ce. }
  intros K1 sq HK1 [Hsq Hy1]. cbn beta. destruct (isNil sq) eqn:En.
  { apply isNil_eq in En as ->. apply nil_inv in Hy1 as ->. apply yieldsAll_nil in Hy2 as [-> _]. apply nil_answers. }
  apply node_of in Hsq; [|done].
  assert (Hdc : determined cs ce).
  { destruct cs; [|by left]. apply yieldsAll_nil in Hy2 as [-> ->]. right. apply determined_nil in Hd. by destruct ce. }
  destruct (node_inv _ _ _ _ _ Hsq Hy1 Hdc) as (cs' & -> & Hmore). cbn [length] in *.
  destruct (yieldsAll_first K1 n2 (seqFirst sq) cs' l2 e) as (l1 & e1 & Hy & Hd1 & Hput);
    [by eapply yieldsAll_weaken|by eapply determined_and|].
  eapply answers_bind; [by apply (seqOf_answers b K1 n2 _ l1 e1); [done|done|lia..]|].
  intros K2 s' HK2 [Hs' Hy']. apply (IH K2 s' (seqMore sq) cs'); try done; try lia.
  - eapply yields_weaken; [done| |exact Hmore]. lia.
  - by apply Hput.
Qed.

Lemma stepConcat_answers b K n1 n2 c colls cs ce l e m : yields K n1 colls cs ce -> yieldsAll K n2 (c :: cs) l e ->
  determined l (ce && e) -> (length cs < turns)%nat -> (n1 + n2 <= limit)%nat -> (n1 + n2 <= b)%nat ->
  (n1 + n2 + length cs + length l < m)%nat ->
  answers b K (stepConcat turns realize c colls) (seqAs m l (ce && e)).
Proof.
  intros Hcolls Hall Hd Hk Hl Hb Hm. unfold stepConcat.
  destruct (yieldsAll_first _ _ _ _ _ _ Hall ltac:(by eapply determined_and)) as (l1 & e1 & Hy & Hd1 & Hput).
  eapply answers_bind; [by apply (seqOf_answers b K n2 _ l1 e1); [done|done|lia..]|].
  intros K1 s HK [Hs Hy1]. apply (concatFrom_answers _ _ _ n1 n2 _ _ cs); try done.
  - by eapply yields_weaken.
  - by apply Hput.
Qed.

(** ** Producers *)

Lemma runThunk_answers b K self r t l e : computes K r t l e -> determined l e -> (r <= limit)%nat -> (r <= b)%nat ->
  K !! self = Some (mkMeaning r l e) -> answers b K (runThunk turns realize self t) (seqAs (S r) l e).
Proof.
  intros Hc Hd Hl Hb Hself. destruct Hc as [n f l e Hf Hy|n f c a3 a4 a5 l e Hf Hy|n f c neg a4 a5 l e Hf Hy|
    n k c a3 a4 a5 l e Hk Hy|n f c a3 a4 a5 l e Hf Hy|n k c a3 a4 a5 l e Hk Hy|n f c a3 a4 a5 l e Hf Hy|
    f x a3 a4 a5 k Hf|f x a3 a4 a5 k Hf|x a3 a4 a5 k|x k a3 a4 a5 Hk|x end_ step a4 a5 l Hr|x step a3 a4 a5 k|
    n1 n2 c colls cs ce a3 a4 a5 l e Hy Hall]; cbn [runThunk].
  - eapply answers_bind; [apply (answers_pure _ _ _ _ (fun K' y => K' = K /\ y = apply f [])); done|].
    intros K1 y _ [-> ->]. eapply answers_weaken; [by apply (seqOf_answers b K n _ l e)|].
    intros K2 v _ [? Hv]. split; [done|]. eapply yields_weaken; [done| |exact Hv]. lia.
  - apply stepMap1_answers; [done..|lia|lia].
  - apply stepFilter_answers; [done..|lia].
  - apply stepTake_answers; [done..|lia|lia].
  - apply stepTakeWhile_answers; [done..|lia|lia].
  - apply stepDrop_answers; [done..|lia].
  - apply stepDropWhile_answers; [done..|lia].
  - by apply stepIterate_answers.
  - apply stepIterateNext_answers; [done|]. destruct k; [by apply not_determined in Hd|lia].
  - by apply stepRepeat_answers.
  - by apply stepRepeatN_answers.
  - by apply stepRange_answers.
  - apply stepRangeInf_answers.
  - eapply (stepConcat_answers b K n1 n2); [done..|lia|lia|lia|lia].
Qed.

End Steps.

(** ** Realisation *)

Lemma typed_lookup K (s : S_) id c : typed K s -> cells s !! id = Some c -> exists m, K !! id = Some m /\ holds K m c.
Proof. intros Ht Hc. exact (Forall2_lookup_r _ _ _ _ _ Ht Hc). Qed.

Lemma typed_setCell K (s : S_) id m c : typed K s -> K !! id = Some m -> holds K m c -> typed K (setCell id c s).
Proof.
  intros Ht Hm Hc. unfold typed. cbn [cells setCell]. rewrite <- (list_insert_id K id m Hm) at 2.
  by apply Forall2_insert.
Qed.

(** The cell of a seq whose thunk has run gets its seq. *)
Lemma typed_publish K (s : S_) id m v : typed K s -> K !! id = Some m -> seqAs (S (rank m)) (elems m) (ends m) K v ->
  typed K (setCell id (Realized v) s).
Proof. intros Ht Hm Hv. by eapply typed_setCell. Qed.

Lemma realized_answers turns realize n K (s : S_) id m v : typed K s -> K !! id = Some m -> cells s !! id = Some (Realized v) ->
  realizeRounds turns realize (S n) id s = (Ok v, s) /\ seqAs (S (rank m)) (elems m) (ends m) K v.
Proof.
  intros Ht Hm Hc. cbn. unfold mbind, E_bind, look. rewrite Hc. split; [done|].
  destruct (typed_lookup _ _ _ _ Ht Hc) as (m' & Hm' & Hv). by simplify_eq.
Qed.

Lemma realizeRounds_answers turns realize limit n b K id m : ready realize limit -> (limit < turns)%nat ->
  K !! id = Some m -> determined (elems m) (ends m) -> (rank m <= limit)%nat -> (rank m < b)%nat ->
  answers b K (realizeRounds turns realize (S (S n)) id) (seqAs (S (rank m)) (elems m) (ends m)).
Proof.
  intros Hready Hturns Hm Hd Hl Hb s Ht Hcl.
  destruct (lookup_lt_is_Some_2 (cells s) id) as [c Hc].
  { rewrite <- (Forall2_length _ _ _ Ht). by eapply lookup_lt_Some. }
  destruct (typed_lookup _ _ _ _ Ht Hc) as (m' & Hm' & Hh). assert (m' = m) as -> by congruence.
  assert (Hrun : forall (t : thunk A) s0, computes K (rank m) t (elems m) (ends m) -> typed K s0 ->
    claimsAbove (rank m) K s0 -> exists v s1 K1, runThunk turns realize id t s0 = (Ok v, s1) /\
      K `prefix_of` K1 /\ typed K1 s1 /\ settles s0 s1 /\ seqAs (S (rank m)) (elems m) (ends m) K1 v).
  { intros t s0 Hcomp Ht0 Hcl0. eapply (runThunk_answers turns realize limit Hready Hturns (rank m) K id); try done.
    by destruct m. }
  destruct c as [t|t|v]; cbn [holds] in Hh.
  - assert (Hbelow : claimsAbove (rank m) K s).
    { intros i t' m2 Hi Hm2. specialize (Hcl i t' m2 Hi Hm2). lia. }
    cbn [realizeRounds]. unfold mbind at 1, E_bind at 1, look at 1. rewrite Hc. destruct (thunkIsPure t).
    + destruct (Hrun t s Hh Ht Hbelow) as (v & s1 & K1 & E & HK & Ht1 & Hs & Hv).
      pose proof (prefix_lookup_Some _ _ _ _ Hm HK) as Hm1.
      unfold mbind at 1, E_bind at 1. rewrite E. unfold publishLazy. unfold mbind at 1, E_bind at 1.
      destruct (proj1 (proj2 Hs) id _ Hc) as (c1 & Ec1 & [-> | [v1 ->]]); rewrite Ec1.
      * exists v, (setCell id (Realized v) s1), K1. split; [done|]. split; [done|].
        split; [by eapply typed_publish|]. split; [|done]. eapply settles_set; [exact Hs|exact Hc|exact Ec1|]. right. by exists v.
      * destruct (realized_answers turns realize n K1 s1 id m v1 Ht1 Hm1 Ec1) as [E1 Hv1].
        exists v1, s1, K1. cbn [realizeRounds] in E1. by split_and!.
    + unfold claimLazy. unfold mbind at 1, E_bind at 1. rewrite Hc. cbn beta iota.
      unfold pushRealizing, update. unfold mbind at 1, E_bind at 1.
      change (setRealizing (realizing (setCell id (Claimed t) s) ++ [id]) (setCell id (Claimed t) s))
        with (claimedState id t s).
      destruct (Hrun t (claimedState id t s) Hh) as (v & s1 & K1 & E & HK & Ht1 & Hs & Hv).
      { by eapply (typed_setCell K s id m (Claimed t)). }
      { intros i t' m2 Hi Hm2. cbn in Hi. destruct (decide (id = i)) as [<-|Hne]; [by simplify_eq|].
        rewrite list_lookup_insert_ne in Hi by done. by eapply Hbelow. }
      pose proof (prefix_lookup_Some _ _ _ _ Hm HK) as Hm1.
      destruct (settles_claimed s s1 id t Hc Hs) as (Ec1 & Hpop & Hset).
      unfold onThrow, popRealizing, update, publishLazy, mbind, E_bind. rewrite E. cbn [cells setRealizing].
      rewrite Ec1, Hpop. exists v. eexists. exists K1. split; [reflexivity|]. split; [done|].
      split; [|split; [apply Hset; right; by exists v|done]]. eapply (typed_publish K1 s1); done.
  - specialize (Hcl id t m Hc Hm). lia.
  - destruct (realized_answers turns realize (S n) K s id m v Ht Hm Hc) as [E Hv]. by exists v, s, K.
Qed.

Lemma realizeLazy_ready turns stack : (stack < turns)%nat -> ready (realizeLazy turns stack) stack.
Proof.
  induction stack as [|stack IH]; intros Hl b K id m Hm Hd Hr Hb; [lia|]. cbn [realizeLazy].
  destruct turns as [|[|turns]]; [lia|lia|].
  apply (realizeRounds_answers _ _ stack); [apply IH; lia|lia|done|done|lia|done].
Qed.

(** C14. Realising implements the meaning of a lazy seq. In a store that is what is known
    of it, whatever of it is realised and whatever is being realised, a value known to
    have just the elements [l] is read as [l], with as many levels of stack and turns
    as its rank and its length; the store has grown, and everything known of every value
    is still so: realising is not observed. *)
Theorem realizing_refines turns stack b n K v l (s : S_) : typed K s -> claimsAbove b K s ->
  yields K n v l true -> (n <= b)%nat -> (n <= stack)%nat -> (stack < turns)%nat -> (length l < turns)%nat ->
  exists s' K', seqToList turns (realizeLazy turns stack) v s = (Ok l, s') /\
    K `prefix_of` K' /\ typed K' s' /\ settles s s' /\
    forall n w k e, yields K n w k e -> yields K' n w k e.
Proof.
  intros Ht Hcl Hy Hb Hn Hst Hl. pose proof (realizeLazy_ready turns stack Hst) as Hready.
  assert (Hans : answers b K (seqToList turns (realizeLazy turns stack) v) (fun _ r => r = l)).
  { assert (Hwalk : answers b K (w ← startWalk (realizeLazy turns stack) v; walkToEnd (realizeLazy turns stack) turns w [])
      (fun _ r => r = l)).
    { eapply answers_bind; [eapply (startWalk_answers turns _ stack Hready Hst b K n v l true); [done|by right|done..]|].
      intros K' w _ Hw. by eapply (walkToEnd_answers turns _ stack Hready Hst turns b K' n w l []). }
    assert (Hitems : forall items, LazySpec.itemsOf v = Some items -> answers b K (mret items : M (list V)) (fun _ r => r = l)).
    { intros items Hi. apply answers_ret. destruct (items_inv _ _ _ _ _ _ Hi Hy) as [[-> _]|[? _]]; done. }
    assert (Hnone : isSeqValue v = false -> LazySpec.itemsOf v = None -> False).
    { intros Hs Hi. by inversion Hy; subst; cbn in *; simplify_eq. }
    destruct v as [| | | |a|items|items|id|x more|items off end_ more chunked|]; cbn [seqToList];
      try exact Hwalk; try (by apply Hitems); try (by destruct Hnone).
    destruct (collectionItems a) as [items|] eqn:Ea; [by apply Hitems|]. destruct Hnone; done. }
  destruct (Hans s Ht Hcl) as (r & s' & K' & E & HK & Ht' & Hs & ->). exists s', K'. split_and!; try done.
  intros n' w k e Hw. by eapply yields_weaken.
Qed.

(** ** The functions

    What a function is known to answer. *)
Definition means (n : nat) (l : list V) (e : bool) (K : K_) (v : V) : Prop := yields K n v l e.

Lemma step_means b K kind a1 a2 a3 a4 n l e : computes K n (Step kind a1 a2 a3 a4 Nil) l e ->
  answers b K (lazyStep kind a1 a2 a3 a4) (means (S n) l e).
Proof. intros Hc. apply (answers_new b K _ n); [done|lia]. Qed.

Lemma requireNumber_int b K z name : answers b K (requireNumber (Int z) name) (fun K' _ => K' = K).
Proof. by apply answers_ret. Qed.

(** A function of a number and a collection. *)
Lemma numbered_means b K kind name z c n l e : computes K n (Step kind (Int z) c Nil Nil Nil) l e ->
  answers b K (binaryStep kind name true Nil [Int z; c]) (means (S n) l e).
Proof.
  intros Hc. eapply answers_bind; [apply requireNumber_int|]. intros K' _ _ ->. by apply step_means.
Qed.

Lemma repeat_means b K k x : fits_llong k = true ->
  answers b K (prim_repeat [Int k; x]) (means (S (Z.to_nat k)) (replicate (Z.to_nat k) x) true).
Proof.
  intros Hk. eapply answers_bind; [apply requireNumber_int|]. intros K' _ _ ->. by apply step_means, c_repeatN.
Qed.

Lemma range_means b K x end_ step l : step <> 0 -> ranges end_ step x l ->
  answers b K (prim_range [Int x; Int end_; Int step]) (means (S (length l)) (map Int l) true).
Proof.
  intros Hne Hr. unfold prim_range. cbn [length Nat.ltb Nat.leb Nat.eqb arg default list_lookup].
  do 3 (eapply answers_bind; [apply requireNumber_int|]; intros ? _ _ ->).
  eapply answers_bind; [by apply (answers_ret _ _ _ (fun K' r => K' = K /\ r = compareZ step 0))|].
  intros K' c _ [-> ->]. replace (compareZ step 0 =? 0) with false.
  - by apply step_means, c_range.
  - unfold compareZ. destruct (Z.ltb_spec step 0), (Z.ltb_spec 0 step); try done. lia.
Qed.

Lemma mapcat_means b K f c n1 n2 cs ce l e : pure f -> yields K n1 c cs ce ->
  yieldsAll K n2 (map (fun x => apply f [x]) cs) l e ->
  answers b K (prim_mapcat [f; c]) (means (S (S (n1 + length cs) + n2 + length cs + length l)) l (ce && e)).
Proof.
  intros Hf Hc Hall. unfold prim_mapcat. cbn [length Nat.ltb Nat.leb Nat.eqb arg default list_lookup].
  eapply answers_bind; [by eapply step_means, c_map|]. intros K' mapped HK Hm.
  rewrite <- (length_map (fun x => apply f [x]) cs) at 2. apply step_means, c_concat; [done|].
  apply (all_next _ _ _ _ []); [by apply y_items|]. by eapply yieldsAll_weaken.
Qed.

(** C21. What the functions that build lazy seqs answer is typed by what their arguments
    are: each answers a lazy seq known to have the list that Clojure's function of that
    name describes, of the list its collection is known to have, however much of either
    is realised, and endless where it is. *)
Theorem functions_typed b K :
  (forall f c n l e, pure f -> yields K n c l e ->
    answers b K (prim_map [f; c]) (means (S (n + length l)) (map (fun x => apply f [x]) l) e) /\
    answers b K (prim_filter [f; c]) (means (S (n + length l)) (List.filter (test1 f) l) e) /\
    answers b K (prim_remove [f; c]) (means (S (n + length l)) (List.filter (fun x => negb (test1 f x)) l) e) /\
    answers b K (prim_take_while [f; c]) (means (S (n + length l)) (takeWhileL (test1 f) l)
      (e || (length (takeWhileL (test1 f) l) <? length l)%nat)) /\
    answers b K (prim_drop_while [f; c]) (means (S (n + length l)) (dropWhileL (test1 f) l) e)) /\
  (forall k c n l e, fits_llong k = true -> yields K n c l e ->
    answers b K (prim_take [Int k; c]) (means (S (n + length l)) (take (Z.to_nat k) l) (e || (k <=? Z.of_nat (length l)))) /\
    answers b K (prim_drop [Int k; c]) (means (S (n + length l)) (drop (Z.to_nat k) l) e)) /\
  (forall f x k, pure f -> answers b K (prim_iterate [f; x]) (means (S k) (iterateL f k x) false)) /\
  (forall x k, answers b K (prim_repeat [x]) (means (S k) (replicate k x) false)) /\
  (forall k x, fits_llong k = true ->
    answers b K (prim_repeat [Int k; x]) (means (S (Z.to_nat k)) (replicate (Z.to_nat k) x) true)) /\
  (forall k, answers b K (prim_range []) (means (S k) (map (fun i => Int (Z.of_nat i)) (seq 0 k)) false)) /\
  (forall x end_ step l, step <> 0 -> ranges end_ step x l ->
    answers b K (prim_range [Int x; Int end_; Int step]) (means (S (length l)) (map Int l) true)) /\
  (forall f c n1 n2 cs ce l e, pure f -> yields K n1 c cs ce -> yieldsAll K n2 (map (fun x => apply f [x]) cs) l e ->
    answers b K (prim_mapcat [f; c]) (means (S (S (n1 + length cs) + n2 + length cs + length l)) l (ce && e))).
Proof.
  split; [|split; [|split; [|split; [|split; [|split; [|split]]]]]].
  - intros f c n l e Hf Hc. split; [by apply step_means, c_map|]. split; [|split; [|split]].
    + rewrite <- (filter_ext (fun x => xorb (test1 f x) (sameVal (Bool false) (Bool true))))
        by (intros x; by destruct (test1 f x)). by apply step_means, c_filter.
    + rewrite <- (filter_ext (fun x => xorb (test1 f x) (sameVal (Bool true) (Bool true))))
        by (intros x; by destruct (test1 f x)). by apply step_means, c_filter.
    + by apply step_means, c_takeWhile.
    + by apply step_means, c_dropWhile.
  - intros k c n l e Hk Hc. split; by apply numbered_means; constructor.
  - intros f x k Hf. by apply step_means, c_iterate.
  - intros x k. apply step_means, c_repeat.
  - exact (repeat_means b K).
  - intros k. rewrite (map_ext _ (fun i => Int (0 + Z.of_nat i * 1))) by (intros i; f_equal; lia).
    apply step_means, c_rangeInf.
  - exact (range_means b K).
  - exact (mapcat_means b K).
Qed.

End Answers.

(** ** Examples *)

Module Examples.
Import Demo.

#[local] Abbreviation V := (val other).

Definition pureNames : list string := ["inc"; "+"; "odd?"; "small?"; "twice"]%string.

#[export, refine] Instance demoPure : PureFunctions := {
  pure f := f ∈ map fn pureNames;
  apply f args := match demoInvoke f args start with (Ok v, _) => v | _ => Nil end;
}.
Proof. intros f args s Hf. repeat (apply elem_of_cons in Hf as [-> | Hf]; [reflexivity|]). by apply elem_of_nil in Hf. Defined.

(** The first three numbers from 0 on: [(take 3 (iterate inc 0))]. *)
Definition store : seqState other (list Z) :=
  mkSeqState [Unrealized (Step Iterate (fn "inc") (Int 0) Nil Nil Nil);
              Unrealized (Step Take (Int 3) (Lazy 0) Nil Nil Nil)] [] [].
Definition known : list (meaning other) :=
  [mkMeaning 3 [Int 0; Int 1; Int 2] false; mkMeaning 7 [Int 0; Int 1; Int 2] true].

Lemma inc_pure : pure (fn "inc").
Proof. left. Defined.

Lemma store_known : typed known store.
Proof.
  constructor; [|constructor; [|constructor]].
  - exact (c_iterate known (fn "inc") (Int 0) Nil Nil Nil 3 inc_pure).
  - apply (c_take known 4 3 (Lazy 0) Nil Nil Nil [Int 0; Int 1; Int 2] false); [done|].
    exact (y_lazy known 4 0 (mkMeaning 3 [Int 0; Int 1; Int 2] false) eq_refl ltac:(cbn; lia)).
Defined.

Lemma realizing_refines_witness : exists s' K',
  seqToList 20 (realizeLazy 20 8) (Lazy 1) store = (Ok [Int 0; Int 1; Int 2], s') /\
  known `prefix_of` K' /\ typed K' s' /\ settles store s' /\
  forall n w k e, yields known n w k e -> yields K' n w k e.
Proof.
  apply (realizing_refines 20 8 8 8 known (Lazy 1) [Int 0; Int 1; Int 2] store store_known); try (cbn; lia).
  - intros id t m Hc _. by destruct id as [|[|id]].
  - exact (y_lazy known 8 1 (mkMeaning 7 [Int 0; Int 1; Int 2] true) eq_refl ltac:(cbn; lia)).
Defined.

Lemma functions_typed_witness :
  answers 9 known (prim_map [fn "inc"; Lazy 1]) (means 12 [Int 1; Int 2; Int 3] true).
Proof.
  apply (proj1 (functions_typed (exn := bytes) (W := list Z) 9 known) (fn "inc") (Lazy 1) 8%nat [Int 0; Int 1; Int 2] true inc_pure).
  exact (y_lazy known 8 1 (mkMeaning 7 [Int 0; Int 1; Int 2] true) eq_refl ltac:(cbn; lia)).
Defined.

End Examples.
