(* ===== verification/Numbers.v ===== *)
(** Numbers (runtime/Primitives.cpp, the arithmetic and comparison functions and [=];
    Primitives.h): doubles as C++ computes with them, exact integers of any size, and
    the functions over them. *)

From S2P Require Import Prelude Double Values Maps Exceptions Printer Reader DataFormats.

#[local] Set Warnings "-register-all".

(** ** Doubles

    C++'s operations on doubles, by their patterns, rounded to nearest; a NaN that an
    operation makes is the one pattern [double_nan]. *)

(** The order of the patterns of one sign is the order of the values. *)
Definition dkey (x : Z) : Z := if signbit x then sign_bit - x else x.
Definition dless (x y : Z) : bool := negb (isnan x) && negb (isnan y) && (dkey x <? dkey y).
Definition dlessEq (x y : Z) : bool := negb (isnan x) && negb (isnan y) && (dkey x <=? dkey y).
Definition dzero (x : Z) : bool := dkey x =? 0.

Definition withSign (negative : bool) (magnitude : Z) : Z := if negative then sign_bit + magnitude else magnitude.
Definition dneg (x : Z) : Z := if signbit x then x - sign_bit else x + sign_bit.

(** A finite double is [significand * 2 ^ exponent], with its sign. *)
Definition biased (x : Z) : Z := Z.shiftr (fabs x) 52.
Definition significand (x : Z) : Z := Z.land x (2 ^ 52 - 1) + (if biased x =? 0 then 0 else 2 ^ 52).
Definition exponent (x : Z) : Z := Z.max 1 (biased x) - 1075.

(** The significand of [x] in units of [2 ^ k], which is not above its exponent. *)
Definition units (x k : Z) : Z := significand x * 2 ^ (exponent x - k).
(** The double nearest to [m * 2 ^ k]. *)
Definition ofUnits (m k : Z) : Z := nearest_double (m * 2 ^ Z.max k 0) (2 ^ Z.max (- k) 0).

Definition ddiv (x y : Z) : Z :=
  let negative := xorb (signbit x) (signbit y) in
  if isnan x || isnan y then double_nan
  else if isinf x then if isinf y then double_nan else withSign negative double_inf
  else if isinf y then withSign negative 0
  else if dzero y then if dzero x then double_nan else withSign negative double_inf
  else
    let k := Z.min (exponent x) (exponent y) in
    withSign negative (nearest_double (units x k) (units y k)).

Definition dtrunc (x : Z) : Z :=
  if isnan x || isinf x || (0 <=? exponent x) then x
  else withSign (signbit x) (nearest_double (significand x / 2 ^ (- exponent x)) 1).

Definition dfmod (x y : Z) : Z :=
  if isnan x || isnan y || isinf x || dzero y then double_nan
  else if isinf y then x
  else
    let k := Z.min (exponent x) (exponent y) in
    withSign (signbit x) (ofUnits (units x k mod units y k) k).

Definition dadd (x y : Z) : Z :=
  if isnan x || isnan y then double_nan
  else if isinf x then if isinf y && xorb (signbit x) (signbit y) then double_nan else x
  else if isinf y then y
  else
    let k := Z.min (exponent x) (exponent y) in
    let signed v := if signbit v then - units v k else units v k in
    let sum := signed x + signed y in
    if sum =? 0 then withSign (signbit x && signbit y) 0
    else withSign (sum <? 0) (ofUnits (Z.abs sum) k).

Example dadd_tenths : dadd (strtod (s2b "0.1")) (strtod (s2b "0.2")) = strtod (s2b "0.30000000000000004").
Proof. vm_compute. reflexivity. Qed.

Example ddiv_third : ddiv (strtod (s2b "1")) (strtod (s2b "-3")) = strtod (s2b "-0.3333333333333333").
Proof. vm_compute. reflexivity. Qed.

Example dfmod_negative : dfmod (strtod (s2b "-7.5")) (strtod (s2b "2")) = strtod (s2b "-1.5").
Proof. vm_compute. reflexivity. Qed.

Example dtrunc_negative : dtrunc (strtod (s2b "-0.75")) = sign_bit.
Proof. vm_compute. reflexivity. Qed.

(** ** What protoCore provides

    The arithmetic of numbers ([add], [subtract], [multiply], [divide]), the sign of the
    difference of two integers ([compare]), the order of two other values, [None] when
    there is none ([partialCompare]), and the double of an integer ([asDouble]). *)
Class NumbersEnv (W exn : Type) `{FormatsEnv W exn} := {
  protoAdd : obj -> obj -> E (formatError exn) W obj;
  protoSubtract : obj -> obj -> E (formatError exn) W obj;
  protoMultiply : obj -> obj -> E (formatError exn) W obj;
  protoDivide : obj -> obj -> E (formatError exn) W obj;
  protoCompare : Z -> Z -> Z;
  partialCompare : obj -> obj -> option Z;
  integerAsDouble : Z -> Z;
}.

Section Numbers.
Context {W exn : Type} `{NumbersEnv W exn}.

#[local] Abbreviation F := (E (formatError exn) W).

Definition isFloat (v : obj) : bool := match v with Dbl _ _ => true | _ => false end.
Definition isInteger (v : obj) : bool := match integerOf v with Some _ => true | None => false end.
Definition isNumber (v : obj) : bool := isInteger v || isFloat v.

Definition asDouble (v : obj) : Z :=
  match v with
  | Dbl _ bits => bits
  | _ => integerAsDouble (default 0 (integerOf v))
  end.

(** A new cell. *)
Definition newCell (make : Z -> obj) : F obj := fun w => let '(a, w) := allocateIn w in (Ok (make a), w).

Definition fromLong (z : Z) : F obj :=
  if fitsSmallInt z then mret (Embedded (smallIntWord z)) else newCell (fun a => Big a z).

Definition fromDouble (bits : Z) : F obj := newCell (fun a => Dbl a bits).

Definition boolean (b : bool) : obj := if b then PROTO_TRUE else PROTO_FALSE.

Definition throwNotANumber {A} (operation : bytes) (v : obj) : F A :=
  throwClassed (s2b "ClassCastException") (operation ++ s2b " expects a number, got " ++ valueTypeName v).

Definition numberArg (args : list obj) (i : nat) (name : bytes) : F obj :=
  let a := argAt args i in if isNumber a then mret a else throwNotANumber name a.

(** An index: the integer, or the end of the [long long] range it is beyond. *)
Definition indexArg (args : list obj) (i : nat) (name : bytes) : F Z :=
  let a := argAt args i in
  match integerOf a with
  | None => throwClassed (s2b "ClassCastException") (name ++ s2b " expects an integer, got " ++ valueTypeName a)
  | Some z =>
      if isSmallInt a then mret z
      else if 0 <? protoCompare z llong_max then mret llong_max
      else if protoCompare z llong_min <? 0 then mret llong_min
      else mret z
  end.

(** ** Arithmetic *)

Fixpoint checkNumbers (args : list obj) (name : bytes) : F unit :=
  match args with
  | [] => mret tt
  | a :: args => if isNumber a then checkNumbers args name else throwNotANumber name a
  end.

(** The left fold of two arguments or more. *)
Fixpoint foldFrom (op : obj -> obj -> F obj) (acc : obj) (args : list obj) : F obj :=
  match args with
  | [] => mret acc
  | a :: args => acc ← op acc a; foldFrom op acc args
  end.
Definition numericFold (op : obj -> obj -> F obj) (args : list obj) : F obj :=
  foldFrom op (argAt args 0) (drop 1 args).

Definition prim_plus (args : list obj) : F obj :=
  _ ← checkNumbers args (s2b "+");
  match args with
  | [] => fromLong 0
  | [a] => mret a
  | _ => numericFold protoAdd args
  end.

Definition prim_minus (args : list obj) : F obj :=
  match args with
  | [] => throwError (s2b "- : needs at least one arg")
  | _ =>
      _ ← checkNumbers args (s2b "-");
      match args with
      | [x] => match x with
               | Dbl _ bits => fromDouble (dneg bits)
               | _ => zero ← fromLong 0; protoSubtract zero x
               end
      | _ => numericFold protoSubtract args
      end
  end.

Definition prim_mul (args : list obj) : F obj :=
  _ ← checkNumbers args (s2b "*");
  match args with
  | [] => fromLong 1
  | [a] => mret a
  | _ => numericFold protoMultiply args
  end.

Definition one : Z := withSign false (nearest_double 1 1).

(** With a float among the arguments, a division of doubles. *)
Definition prim_div (args : list obj) : F obj :=
  match args with
  | [] => throwError (s2b "/: needs at least one arg")
  | a :: rest =>
      _ ← checkNumbers args (s2b "/");
      if existsb isFloat args then
        match rest with
        | [] => fromDouble (ddiv one (asDouble a))
        | _ => fromDouble (fold_left (fun acc v => ddiv acc (asDouble v)) rest (asDouble a))
        end
      else
        match rest with
        | [] => n ← fromLong 1; protoDivide n a
        | _ => numericFold protoDivide args
        end
  end.

(** [inc], and [dec] with the step negated. *)
Definition stepBy (name : bytes) (step : Z) (op : obj -> obj -> F obj) (args : list obj) : F obj :=
  if negb (length args =? 1)%nat then throwError (name ++ s2b ": expects 1 arg")
  else
    x ← numberArg args 0 name;
    match x with
    | Dbl _ bits => fromDouble (dadd bits step)
    | _ => n ← fromLong 1; op x n
    end.

Definition prim_inc (args : list obj) : F obj := stepBy (s2b "inc") one protoAdd args.
Definition prim_dec (args : list obj) : F obj := stepBy (s2b "dec") (dneg one) protoSubtract args.

(** ** Comparison *)

Definition compareIntegers (a b : obj) : Z :=
  let x := default 0 (integerOf a) in
  let y := default 0 (integerOf b) in
  if isSmallInt a && isSmallInt b then (if y <? x then 1 else 0) - (if x <? y then 1 else 0)
  else protoCompare x y.

(** Every adjacent pair, checked as it is met. *)
Fixpoint chainFrom (name : bytes) (holdsForDoubles : Z -> Z -> bool) (holdsForSign : Z -> bool)
    (prev : obj) (args : list obj) : F obj :=
  match args with
  | [] => mret PROTO_TRUE
  | cur :: args =>
      if negb (isNumber cur) then throwNotANumber name cur
      else
        let holds :=
          if isInteger prev && isInteger cur then holdsForSign (compareIntegers prev cur)
          else holdsForDoubles (asDouble prev) (asDouble cur) in
        if holds then chainFrom name holdsForDoubles holdsForSign cur args else mret PROTO_FALSE
  end.

Definition monotonicChain (name : bytes) (holdsForDoubles : Z -> Z -> bool) (holdsForSign : Z -> bool)
    (args : list obj) : F obj :=
  match args with
  | [] | [_] => mret PROTO_TRUE
  | _ :: rest =>
      prev ← numberArg args 0 name;
      chainFrom name holdsForDoubles holdsForSign prev rest
  end.

Definition prim_lt := monotonicChain (s2b "<") dless (fun sign => sign <? 0).
Definition prim_le := monotonicChain (s2b "<=") dlessEq (fun sign => sign <=? 0).
Definition prim_gt := monotonicChain (s2b ">") (fun x y => dless y x) (fun sign => 0 <? sign).
Definition prim_ge := monotonicChain (s2b ">=") (fun x y => dlessEq y x) (fun sign => 0 <=? sign).

(** -1, 0 or 1; 0 with a NaN. *)
Definition numberCompare (a b : obj) : F Z :=
  if negb (isNumber a) then throwNotANumber (s2b "<") a
  else if negb (isNumber b) then throwNotANumber (s2b "<") b
  else if isInteger a && isInteger b then mret (compareIntegers a b)
  else
    let x := asDouble a in
    let y := asDouble b in
    mret (if dless x y then -1 else if dless y x then 1 else 0).

(** ** Equality

    An object cell that is no map, set or seq: equal only to itself. *)
Definition isOpaque (v : obj) : bool := match v with Named _ _ | Pattern _ _ | Cell _ _ _ => true | _ => false end.

Definition isSeqLike (v : obj) : bool := match v with LList _ _ | SeqObj _ _ => true | _ => false end.

(** [stack]: the nesting, which the code checks. *)
Fixpoint valuesEqual (stack : nat) (fuel : nat) (a b : obj) : result (formatError exn) bool :=
  match stack with
  | O => if same a b then mret true else Throw (Overflow dataTooDeep)
  | S stack =>
      let elements := fix elements (xs ys : list obj) : result (formatError exn) bool :=
        match xs, ys with
        | x :: xs, y :: ys =>
            equal ← valuesEqual stack fuel x y;
            if equal : bool then elements xs ys else mret false
        | [], [] => mret true
        | _, _ => mret false
        end in
      if same a b then mret true
      else if isMap a || isMap b then
        if negb (isMap a && isMap b) then mret false
        else if negb (length (mapEntries a) =? length (mapEntries b))%nat then mret false
        else
          (fix members (es : entries) : result (formatError exn) bool :=
             match es with
             | [] => mret true
             | e :: es =>
                 match mapGet fuel (mapEntries b) e.1 with
                 | None => mret false
                 | Some mine =>
                     equal ← valuesEqual stack fuel e.2 mine;
                     if equal : bool then members es else mret false
                 end
             end) (mapEntries a)
      else if isSet a || isSet b then mret (isSet a && isSet b && setEquals (clojureKeySemantics fuel) a b)
      else if isOpaque a || isOpaque b then mret false
      else if isSeqLike a || isSeqLike b then
        if (isSeqLike a || isVector a) && (isSeqLike b || isVector b)
        then if isListValue a && isListValue b && negb (length (sequenceItems a) =? length (sequenceItems b))%nat
             then mret false
             else elements (sequenceItems a) (sequenceItems b)
        else mret false
      else if isVector a || isVector b then
        if negb (isVector a && isVector b) then mret false
        else if negb (length (sequenceItems a) =? length (sequenceItems b))%nat then mret false
        else elements (sequenceItems a) (sequenceItems b)
      else mret (bool_decide (partialCompare a b = Some 0))
  end.

Definition fromResult {A} (r : result (formatError exn) A) : F A := fun w => (r, w).

Fixpoint equalFrom (stack fuel : nat) (prev : obj) (args : list obj) : F bool :=
  match args with
  | [] => mret true
  | cur :: args =>
      equal ← fromResult (valuesEqual stack fuel prev cur);
      if equal : bool then equalFrom stack fuel cur args else mret false
  end.

Definition equalArgs (stack fuel : nat) (args : list obj) : F bool :=
  match args with [] => mret true | a :: args => equalFrom stack fuel a args end.

Definition prim_eq (stack fuel : nat) (args : list obj) : F obj :=
  equal ← equalArgs stack fuel args; mret (boolean equal).
Definition prim_not_eq (stack fuel : nat) (args : list obj) : F obj :=
  equal ← equalArgs stack fuel args; mret (boolean (negb equal)).

End Numbers.
