(* ===== verification/CorePrims.v ===== *)
(** The core functions written in C++ (runtime/CorePrims.cpp): division of integers and
    doubles, [compare], [max] and [min], [sort], [frequencies], [split-lines], [require],
    the parse functions, [bigint], predicates of numbers, [hash], [peek] and [pop]. *)

From S2P Require Import Prelude Double Values Maps Exceptions Printer Reader DataFormats Numbers.
From S2P Require Macros.

#[local] Set Warnings "-register-all".

(** The seq of a map, a set or a string, whose elements may be new cells; the aliases
    that [require] records for the forms compiled afterwards; and the clocks. *)
Class CoreEnv (W exn : Type) `{NumbersEnv W exn} := {
  collectionItems : obj -> W -> option (list obj) * W;
  addNamespaceAlias : bytes -> bytes -> W -> W;
  currentTimeMillis : W -> Z;
  nanoTime : W -> Z;
}.

Section CorePrims.
Context {W exn : Type} `{CoreEnv W exn}.

#[local] Abbreviation F := (E (formatError exn) W).

(** ** quot, rem, mod *)

Inductive DivKind := Quot | Rem | Mod.

Definition divideByZero {A} : F A := throwClassed (s2b "ArithmeticException") (s2b "Divide by zero").

Definition doubleDivision (kind : DivKind) (x y : Z) : F obj :=
  if dzero y then divideByZero
  else
    match kind with
    | Quot => fromDouble (dtrunc (ddiv x y))
    | _ =>
        let r := dfmod x y in
        let adjust := negb (dzero r) && negb (Bool.eqb (dless r 0) (dless y 0)) in
        fromDouble (match kind with Mod => if adjust then dadd r y else r | _ => r end)
    end.

(** C++'s [/] and [%] truncate toward zero. *)
Definition smallDivision (kind : DivKind) (x y : Z) : F obj :=
  if y =? 0 then divideByZero
  else
    match kind with
    | Quot => fromLong (Z.quot x y)
    | _ =>
        let r := Z.rem x y in
        let adjust := negb (r =? 0) && negb (Bool.eqb (r <? 0) (y <? 0)) in
        fromLong (match kind with Mod => if adjust then r + y else r | _ => r end)
    end.

Definition largeDivision (kind : DivKind) (a b : obj) : F obj :=
  q ← protoDivide a b;
  match kind with
  | Quot => mret q
  | _ =>
      p ← protoMultiply q b;
      r ← protoSubtract a p;
      zero ← fromLong 0;
      match kind with
      | Mod =>
          c ← numberCompare r zero;
          if c =? 0 then mret r
          else
            d ← numberCompare b zero;
            if Bool.eqb (c <? 0) (d <? 0) then mret r else protoAdd r b
      | _ => mret r
      end
  end.

Definition intDivision (kind : DivKind) (name : bytes) (args : list obj) : F obj :=
  if negb (length args =? 2)%nat then arity (length args) name
  else
    let a := argAt args 0 in
    let b := argAt args 1 in
    if negb (isNumber a) then throwNotANumber name a
    else if negb (isNumber b) then throwNotANumber name b
    else if isFloat a || isFloat b then doubleDivision kind (asDouble a) (asDouble b)
    else if isSmallInt a && isSmallInt b
    then smallDivision kind (default 0 (integerOf a)) (default 0 (integerOf b))
    else largeDivision kind a b.

Definition prim_quot := intDivision Quot (s2b "quot").
Definition prim_rem := intDivision Rem (s2b "rem").
Definition prim_mod := intDivision Mod (s2b "mod").

(** ** compare *)

Definition notComparable {A} (a b : obj) : F A :=
  throwClassed (s2b "ClassCastException")
    (s2b "compare: " ++ valueTypeName a ++ s2b " cannot be compared with " ++ valueTypeName b).

(** [std::string::compare], by unsigned bytes; its sign. *)
Fixpoint compareBytes (x y : bytes) : Z :=
  match x, y with
  | [], [] => 0
  | [], _ => -1
  | _, [] => 1
  | b :: x, c :: y => if u8 b <? u8 c then -1 else if u8 c <? u8 b then 1 else compareBytes x y
  end.

Definition isNamed (v : obj) : bool := match v with Named _ _ => true | _ => false end.
Definition isTrueOrFalse (v : obj) : bool := same v PROTO_TRUE || same v PROTO_FALSE.
Definition startsWithColon (s : bytes) : bool := match s with (":" :: _)%byte => true | _ => false end.

(** [fuel]: the nesting of the first. *)
Fixpoint compareValues (fuel : nat) (a b : obj) : F Z :=
  match fuel with
  | O => raise NoTurns
  | S fuel =>
      if same a b then mret 0
      else if same a PROTO_NONE then mret (-1)
      else if same b PROTO_NONE then mret 1
      else if isNumber a && isNumber b then numberCompare a b
      else if isTrueOrFalse a && isTrueOrFalse b then mret (if same a PROTO_FALSE then -1 else 1)
      else
        match a, b with
        | Str _ x, Str _ y => mret (compareBytes x y)
        | Named _ x, Named _ y =>
            if negb hasCallContext then notComparable a b
            else if negb (Bool.eqb (startsWithColon x) (startsWithColon y)) then notComparable a b
            else mret (compareBytes x y)
        | Vec _ xs, Vec _ ys =>
            let nx := length xs in
            let ny := length ys in
            if negb (nx =? ny)%nat then mret (if (nx <? ny)%nat then -1 else 1)
            else
              (fix elements (xs ys : list obj) : F Z :=
                 match xs, ys with
                 | x :: xs, y :: ys =>
                     c ← compareValues fuel x y;
                     if negb (c =? 0) then mret c else elements xs ys
                 | _, _ => mret 0
                 end) xs ys
        | _, _ => notComparable a b
        end
  end.

Definition compareOf (a b : obj) : F Z := compareValues (depth a) a b.

Definition prim_compare (args : list obj) : F obj :=
  if negb (length args =? 2)%nat then arity (length args) (s2b "compare")
  else c ← compareOf (argAt args 0) (argAt args 1); fromLong c.

(** ** max, min *)

Fixpoint extremumFrom (wantMax : bool) (name : bytes) (best : obj) (args : list obj) : F obj :=
  match args with
  | [] => mret best
  | x :: args =>
      if negb (isNumber x) then throwNotANumber name x
      else if isFloat x && isnan (asDouble x) then mret x
      else
        c ← numberCompare x best;
        extremumFrom wantMax name (if (if wantMax then 0 <? c else c <? 0) then x else best) args
  end.

Definition extremum (wantMax : bool) (name : bytes) (args : list obj) : F obj :=
  match args with
  | [] => arity 0 name
  | best :: args =>
      if negb (isNumber best) then throwNotANumber name best
      else extremumFrom wantMax name best args
  end.

Definition prim_max := extremum true (s2b "max").
Definition prim_min := extremum false (s2b "min").

(** ** sort *)

(** nil compares; a function answers a number, or whether the first is less. *)
Definition callComparator (cmp x y : obj) : F Z :=
  if same cmp PROTO_NONE then compareOf x y
  else
    _ ← callContext (s2b "sort");
    r ← lifted (callValue cmp [x; y]);
    if same r PROTO_TRUE then mret (-1)
    else if negb (truthy r) then
      s ← lifted (callValue cmp [y; x]);
      mret (if truthy s then 1 else 0)
    else if negb (isNumber r) then throwNotANumber (s2b "sort comparator") r
    else zero ← fromLong 0; numberCompare r zero.

(** [std::stable_sort]: the language leaves open which comparisons are made; here an
    element goes before the first of those sorted so far that it is less than. *)
Section StableSort.
Context {A : Type} (less : A -> A -> F bool).

Fixpoint place (x : A) (sorted : list A) : F (list A) :=
  match sorted with
  | [] => mret [x]
  | y :: sorted' =>
      b ← less x y;
      if b : bool then mret (x :: sorted) else rest ← place x sorted'; mret (y :: rest)
  end.

Fixpoint stableSortFrom (sorted l : list A) : F (list A) :=
  match l with
  | [] => mret sorted
  | x :: l => sorted ← place x sorted; stableSortFrom sorted l
  end.

Definition stable_sort (l : list A) : F (list A) := stableSortFrom [] l.

End StableSort.

(** The elements of a seqable ([seqToList]). *)
Definition seqToList (v : obj) : F (list obj) := fun w =>
  match v with
  | Vec _ items | LList _ items | SeqObj _ items => (Ok items, w)
  | _ =>
      if same v PROTO_NONE then (Ok [], w)
      else
        match collectionItems v w with
        | (Some items, w) => (Ok items, w)
        | (None, w) => throwClassed (s2b "IllegalArgumentException")
                         (s2b "Don't know how to create ISeq from: " ++ valueTypeName v) w
        end
  end.

Fixpoint callEach (f : obj) (xs : list obj) : F (list obj) :=
  match xs with
  | [] => mret []
  | x :: xs => k ← lifted (callValue f [x]); ks ← callEach f xs; mret (k :: ks)
  end.

Definition newList (items : list obj) : F obj :=
  match items with [] => mret emptyListValue | _ => newCell (fun a => LList a items) end.

(** The elements with their keys, by the keys. *)
Definition sortedList (keyfn cmp coll : obj) : F obj :=
  elems ← seqToList coll;
  match elems with
  | [] => mret emptyListValue
  | _ =>
      keys ← (if same keyfn PROTO_NONE then mret elems
              else _ ← callContext (s2b "sort-by"); callEach keyfn elems);
      order ← stable_sort (fun i j => c ← callComparator cmp i.2 j.2; mret (c <? 0)) (zip elems keys);
      newList (map fst order)
  end.

Definition prim_sort (args : list obj) : F obj :=
  match args with
  | [coll] => sortedList PROTO_NONE PROTO_NONE coll
  | [cmp; coll] => sortedList PROTO_NONE cmp coll
  | _ => arity (length args) (s2b "sort")
  end.

Definition prim_sort_by (args : list obj) : F obj :=
  match args with
  | [keyfn; coll] => sortedList keyfn PROTO_NONE coll
  | [keyfn; cmp; coll] => sortedList keyfn cmp coll
  | _ => arity (length args) (s2b "sort-by")
  end.

(** ** frequencies

    The table, by [keyHash] and [keyEquals], in the order the elements are first met. *)
Fixpoint countIn (fuel : nat) (x : obj) (counts : list (obj * Z)) : list (obj * Z) :=
  match counts with
  | [] => [(x, 1)]
  | (k, n) :: counts =>
      if (keyHash fuel x =? keyHash fuel k) && keyEquals fuel x k then (k, n + 1) :: counts
      else (k, n) :: countIn fuel x counts
  end.

Definition countAll (fuel : nat) (items : list obj) : list (obj * Z) :=
  fold_left (fun counts x => countIn fuel x counts) items [].

Fixpoint countPairs (counts : list (obj * Z)) : F (list obj) :=
  match counts with
  | [] => mret []
  | (k, n) :: counts => v ← fromLong n; kv ← countPairs counts; mret (k :: v :: kv)
  end.

Definition prim_frequencies (args : list obj) : F obj :=
  if negb (length args =? 1)%nat then arity (length args) (s2b "frequencies")
  else
    items ← seqToList (argAt args 0);
    let fuel := keyFuel items in
    kv ← countPairs (countAll fuel items);
    newCell (fun a => MapObj a (assocAll fuel [] kv)).

(** ** split-lines *)

(** The lines, a carriage return before a line feed left out. *)
Fixpoint splitLines (line s : bytes) : list bytes :=
  match s with
  | [] => [line]
  | c :: s =>
      if (c =? x0a)%byte then
        (match rev line with x0d :: r => rev r | _ => line end) :: splitLines [] s
      else splitLines (line ++ [c]) s
  end.

Fixpoint dropEmpty (rev : list bytes) : list bytes :=
  match rev with
  | [] :: ((_ :: _) as r) => dropEmpty r
  | _ => rev
  end.

Definition linesOf (s : bytes) : list bytes :=
  let lines := rev (dropEmpty (rev (splitLines [] s))) in
  match lines, s with
  | [[]], _ :: _ => []
  | _, _ => lines
  end.

Fixpoint newStrings (lines : list bytes) : F (list obj) :=
  match lines with
  | [] => mret []
  | l :: lines => v ← newCell (fun a => Str a (utf8Text l)); rest ← newStrings lines; mret (v :: rest)
  end.

Definition prim_split_lines (args : list obj) : F obj :=
  if negb (length args =? 1)%nat then arity (length args) (s2b "split-lines")
  else
    text ← stringArg (argAt args 0) (s2b "split-lines");
    items ← newStrings (linesOf text);
    newCell (fun a => newVector a items).

(** ** require *)

(** Nothing when the value is no keyword or symbol. *)
Definition symbolText (v : obj) : bytes := match v with Named _ s => s | _ => [] end.

Definition replaceByte (old new : byte) (s : bytes) : bytes := map (fun c => if (c =? old)%byte then new else c) s.

Definition cannotLocate {A} (ns : bytes) : F A :=
  let path := replaceByte "-" "_" (replaceByte "." "/" ns) in
  throwClassed (s2b "FileNotFoundException")
    (s2b "Could not locate " ++ path ++ s2b "__init.class, " ++ path ++ s2b ".clj or " ++ path ++
     s2b ".cljc on classpath. (protoClojure provides clojure.core, clojure.string, clojure.set, clojure.java.io, clojure.java.shell, clojure.edn, cheshire.core and clojure.data.json; D52)").

Definition illegal {A} (message : bytes) : F A := throwClassed (s2b "IllegalArgumentException") message.

(** Pairs of options; one at the end without a value is not read. *)
Fixpoint specOptions (ns : bytes) (opts : list obj) : F unit :=
  match opts with
  | o :: v :: opts =>
      let opt := symbolText o in
      _ ← (if bool_decide (opt = s2b ":as") || bool_decide (opt = s2b ":as-alias") then
             let alias := symbolText v in
             match alias with
             | [] => illegal (s2b "require: :as takes a symbol")
             | c :: _ =>
                 if (c =? ":")%byte then illegal (s2b "require: :as takes a symbol")
                 else update (addNamespaceAlias alias ns)
             end
           else if bool_decide (opt = s2b ":refer") || bool_decide (opt = s2b ":rename") then mret tt
           else illegal (s2b "require: unsupported option " ++ opt));
      specOptions ns opts
  | _ => mret tt
  end.

Definition requireSpec (spec : obj) : F unit :=
  match symbolText spec with
  | (c :: _) as ns =>
      if (c =? ":")%byte then mret tt
      else if Macros.isKnownNamespace ns then mret tt else cannotLocate ns
  | [] =>
      let notASpec := illegal (s2b "require: a spec is a symbol or [namespace & options], got " ++ valueTypeName spec) in
      match spec with
      | Vec _ (first :: opts) | LList _ (first :: opts) | SeqObj _ (first :: opts) =>
          let ns := symbolText first in
          match ns with
          | [] => illegal (s2b "require: a spec starts with a namespace symbol")
          | c :: _ =>
              if (c =? ":")%byte then illegal (s2b "require: a spec starts with a namespace symbol")
              else if negb (Macros.isKnownNamespace ns) then cannotLocate ns
              else specOptions ns opts
          end
      | _ => notASpec
      end
  end.

Fixpoint requireAll (specs : list obj) : F unit :=
  match specs with
  | [] => mret tt
  | spec :: specs => _ ← requireSpec spec; requireAll specs
  end.

Definition prim_require (args : list obj) : F obj :=
  _ ← callContext (s2b "require"); _ ← requireAll args; mret PROTO_NONE.

(** ** parse-long, parse-double, parse-boolean *)

Definition parseArg (args : list obj) (who : bytes) : F bytes :=
  if negb (length args =? 1)%nat then arity (length args) who
  else match argAt args 0 with
  | Str _ text => mret text
  | v => illegal (s2b "Expected string, got " ++ valueTypeName v)
  end.

(** A sign, [+] or [-], and what follows it. *)
Definition signOf (s : bytes) : option byte * bytes :=
  match s with
  | c :: s' => if (c =? "+")%byte || (c =? "-")%byte then (Some c, s') else (None, s)
  | [] => (None, [])
  end.

Definition parseLong (s : bytes) : option Z :=
  let '(sign, digits) := signOf s in
  match digits with
  | [] => None
  | _ =>
      if negb (forallb is_digit digits) then None
      else
        let v := if bool_decide (sign = Some "-"%byte) then - digits_value digits else digits_value digits in
        if fits_llong v then Some v else None
  end.

Definition prim_parse_long (args : list obj) : F obj :=
  s ← parseArg args (s2b "parse-long");
  match parseLong s with None => mret PROTO_NONE | Some v => fromLong v end.

(** [c > ' '] of a [char], which is signed on the platforms the program is built for:
    a byte from 0x80 on is below the space. *)
Definition schar (c : byte) : Z := if u8 c <? 128 then u8 c else u8 c - 256.
Definition notSpace (c : byte) : bool := 32 <? schar c.
Fixpoint skipSpaces (s : bytes) : bytes :=
  match s with c :: s' => if notSpace c then s else skipSpaces s' | [] => [] end.
Definition trimmed (s : bytes) : bytes := rev (skipSpaces (rev (skipSpaces s))).

(** An exponent, if there is one, to the end. *)
Definition exponentEnds (s : bytes) : bool :=
  match s with
  | [] => true
  | c :: s =>
      if (c =? "e")%byte || (c =? "E")%byte then
        let '(digits, rest) := span_digits (snd (signOf s)) in
        match digits, rest with _ :: _, [] => true | _, _ => false end
      else false
  end.

(** Digits with an optional point, one digit at least, and an optional exponent. *)
Definition isDecimal (s : bytes) : bool :=
  let '(ip, rest) := span_digits s in
  let '(fp, rest) := match rest with ("." :: rest)%byte => span_digits rest | _ => ([], rest) end in
  match ip ++ fp with [] => false | _ => exponentEnds rest end.

Definition parseDouble (s : bytes) : option Z :=
  let '(sign, body) := signOf (trimmed s) in
  let negative := bool_decide (sign = Some "-"%byte) in
  if bool_decide (body = s2b "NaN") then Some double_nan
  else if bool_decide (body = s2b "Infinity") then Some (withSign negative double_inf)
  else if isDecimal body then Some (if negative then dneg (strtod body) else strtod body)
  else None.

Definition prim_parse_double (args : list obj) : F obj :=
  s ← parseArg args (s2b "parse-double");
  match parseDouble s with None => mret PROTO_NONE | Some d => fromDouble d end.

Definition prim_parse_boolean (args : list obj) : F obj :=
  s ← parseArg args (s2b "parse-boolean");
  mret (if bool_decide (s = s2b "true") then PROTO_TRUE
        else if bool_decide (s = s2b "false") then PROTO_FALSE else PROTO_NONE).

(** ** bigint *)

(** The value of a numeral that protoCore reads: a SmallInteger or a cell. *)
Definition fromNumeral (s : bytes) : F obj := fromLong (fromString s).

(** The printed digits of a double, the point left out, how many of them are before the
    point, and the exponent. *)
Fixpoint digitsAndPoint (digits : bytes) (point : Z) (s : bytes) : bytes * Z * bytes :=
  match s with
  | [] => (digits, point, [])
  | c :: s' =>
      if (c =? "E")%byte then (digits, point, s')
      else if (c =? ".")%byte then digitsAndPoint digits (Z.of_nat (length digits)) s'
      else digitsAndPoint (digits ++ [c]) point s'
  end.

Fixpoint dropZeroDigits (s : bytes) : bytes :=
  match s with c :: s' => if (c =? "0")%byte then dropZeroDigits s' else s | [] => [] end.

(** The digits before the point, without leading zeros. *)
Definition wholeDigits (text : bytes) : bytes :=
  let '(digits, point, expo) := digitsAndPoint [] 0 text in
  let point := match expo with [] => point | _ => point + signed_value expo end in
  let n := Z.of_nat (length digits) in
  dropZeroDigits
    (if 0 <? point then take (Z.to_nat point) digits ++ replicate (Z.to_nat (point - n)) "0"%byte else []).

Definition bigintOfDouble (d : Z) : F obj :=
  if isnan d || isinf d then throwClassed (s2b "NumberFormatException") (s2b "Infinite or NaN")
  else
    let text := formatDouble d in
    let '(negative, text) := match text with ("-" :: text)%byte => (true, text) | _ => (false, text) end in
    match wholeDigits text with
    | [] => fromLong 0
    | whole => fromNumeral (if negative then "-"%byte :: whole else whole)
    end.

Definition bigintOfString (s : bytes) : F obj :=
  let '(sign, digits) := signOf s in
  match digits with
  | _ :: _ =>
      if forallb is_digit digits then
        fromNumeral (if bool_decide (sign = Some "+"%byte) then digits else s)
      else throwClassed (s2b "NumberFormatException") (s2b "For input string: " ++ [x22] ++ s ++ [x22])
  | [] => throwClassed (s2b "NumberFormatException") (s2b "For input string: " ++ [x22] ++ s ++ [x22])
  end.

Definition prim_bigint (args : list obj) : F obj :=
  if negb (length args =? 1)%nat then arity (length args) (s2b "bigint")
  else
    let v := argAt args 0 in
    if isInteger v then mret v
    else match v with
    | Dbl _ d => bigintOfDouble d
    | Str _ s => bigintOfString s
    | _ => throwClassed (s2b "ClassCastException")
             (s2b "bigint expects a number or a string, got " ++ valueTypeName v)
    end.

(** ** Predicates, [==], hash, peek, pop *)

Definition oneArg (args : list obj) (who : bytes) : F obj :=
  if negb (length args =? 1)%nat then arity (length args) who else mret (argAt args 0).

Definition prim_number_p (args : list obj) : F obj := v ← oneArg args (s2b "number?"); mret (boolean (isNumber v)).
Definition prim_integer_p (args : list obj) : F obj := v ← oneArg args (s2b "integer?"); mret (boolean (isInteger v)).
Definition prim_float_p (args : list obj) : F obj := v ← oneArg args (s2b "float?"); mret (boolean (isFloat v)).

Definition isNaN (v : obj) : bool := isFloat v && isnan (asDouble v).

Fixpoint numEqualFrom (prev : obj) (args : list obj) : F obj :=
  match args with
  | [] => mret PROTO_TRUE
  | cur :: args =>
      if isNaN prev || isNaN cur then mret PROTO_FALSE
      else
        c ← numberCompare prev cur;
        if negb (c =? 0) then mret PROTO_FALSE else numEqualFrom cur args
  end.

Definition prim_num_eq (args : list obj) : F obj :=
  match args with
  | [] => arity 0 (s2b "==")
  | a :: rest => _ ← checkNumbers args (s2b "=="); numEqualFrom a rest
  end.

(** The low 32 bits of the hash, as a signed number. *)
Definition signed32 (h : Z) : Z := Z.land h (2 ^ 32 - 1) - (if Z.testbit h 31 then 2 ^ 32 else 0).

Definition prim_hash (args : list obj) : F obj :=
  v ← oneArg args (s2b "hash"); fromLong (signed32 (keyHash (depth v) v)).

Definition prim_peek (args : list obj) : F obj :=
  v ← oneArg args (s2b "peek");
  if same v PROTO_NONE then mret PROTO_NONE
  else match v with
  | Vec _ items => mret (List.last items PROTO_NONE)
  | LList _ items => mret (default PROTO_NONE (head items))
  | _ => throwClassed (s2b "ClassCastException") (s2b "peek expects a vector or a list, got " ++ valueTypeName v)
  end.

Definition prim_pop (args : list obj) : F obj :=
  v ← oneArg args (s2b "pop");
  if same v PROTO_NONE then mret PROTO_NONE
  else match v with
  | Vec _ [] => throwClassed (s2b "IllegalStateException") (s2b "Can't pop empty vector")
  | Vec _ items => newCell (fun a => newVector a (removelast items))
  | LList _ [] => throwClassed (s2b "IllegalStateException") (s2b "Can't pop empty list")
  | LList _ (_ :: items) => newList items
  | _ => throwClassed (s2b "ClassCastException") (s2b "pop expects a vector or a list, got " ++ valueTypeName v)
  end.

(** ** System *)

Definition prim_current_time_millis (args : list obj) : F obj :=
  match args with
  | [] => t ← look currentTimeMillis; fromLong t
  | _ => arity (length args) (s2b "System/currentTimeMillis")
  end.
Definition prim_nano_time (args : list obj) : F obj :=
  match args with
  | [] => t ← look nanoTime; fromLong t
  | _ => arity (length args) (s2b "System/nanoTime")
  end.

Definition kCorePrims : list (bytes * (list obj -> F obj)) :=
  [(s2b "quot", prim_quot); (s2b "rem", prim_rem); (s2b "mod", prim_mod); (s2b "compare", prim_compare);
   (s2b "max", prim_max); (s2b "min", prim_min); (s2b "sort", prim_sort); (s2b "sort-by", prim_sort_by);
   (s2b "frequencies", prim_frequencies); (s2b "split-lines", prim_split_lines); (s2b "require", prim_require);
   (s2b "parse-long", prim_parse_long); (s2b "parse-double", prim_parse_double);
   (s2b "parse-boolean", prim_parse_boolean); (s2b "bigint", prim_bigint); (s2b "number?", prim_number_p);
   (s2b "integer?", prim_integer_p); (s2b "int?", prim_integer_p); (s2b "float?", prim_float_p);
   (s2b "double?", prim_float_p); (s2b "==", prim_num_eq); (s2b "hash", prim_hash); (s2b "peek", prim_peek);
   (s2b "pop", prim_pop); (s2b "biginteger", prim_bigint)].

(** ** The globals

    The functions by their names, the primed names of the arithmetic, which is exact
    already, and [System] with the members there are. [V]: the values of globals, of
    which protoCore makes those of functions and of objects with members. *)
Section Install.
Context {V : Type} (fromMethod : (list obj -> F obj) -> V) (newObject : list (bytes * V) -> V).

#[local] Abbreviation table := (bytes -> option V).

Definition defineBuiltin (name : bytes) (v : V) (globals : table) : table :=
  fun n => if bool_decide (n = name) then Some v else globals n.

Definition primed : list bytes := [s2b "+"; s2b "-"; s2b "*"; s2b "inc"; s2b "dec"].

Definition systemMembers (globals : table) : list (bytes * V) :=
  let existing name := match globals name with Some v => [(name, v)] | None => [] end in
  existing (s2b "exit") ++ existing (s2b "getenv") ++
  [(s2b "currentTimeMillis", fromMethod prim_current_time_millis); (s2b "nanoTime", fromMethod prim_nano_time)].

Definition installCorePrimitives (globals : table) : table :=
  let globals := fold_left (fun g p => defineBuiltin p.1 (fromMethod p.2) g) kCorePrims globals in
  let globals := fold_left (fun g op =>
    match g op with Some f => defineBuiltin (op ++ s2b "'") f g | None => g end) primed globals in
  defineBuiltin (s2b "System") (newObject (systemMembers globals)) globals.

End Install.

End CorePrims.
