(* ===== verification/CoreFacts.v ===== *)
(** The core functions (runtime/CorePrims.cpp, and the arithmetic of Primitives.cpp):
    arithmetic and division of integers are exact, [compare] orders the values of one
    kind, [sort] sorts, numerals parse back. *)

From S2P Require Import Prelude Double Values Maps Exceptions Printer Reader PrintRead DataFormats Numbers CorePrims.

#[local] Set Warnings "-register-all".

Lemma bind_answers {Err S A B} (m : E Err S A) (k : A -> E Err S B) s a s' : m s = (Ok a, s') -> (m ≫= k) s = k a s'.
Proof. intros Hm. unfold mbind, E_bind. by rewrite Hm. Qed.

Lemma bind_raises {Err S A B} (m : E Err S A) (k : A -> E Err S B) s e s' : m s = (Throw e, s') ->
  (m ≫= k) s = (Throw e, s').
Proof. intros Hm. unfold mbind, E_bind. by rewrite Hm. Qed.

(** What is relied on of protoCore's numbers: integer arithmetic is exact at every
    size, a division by zero is the ArithmeticException the error factory builds, and
    a SmallInteger has a double of its own, in the order of the integers. *)
Class NumbersLaws (W exn : Type) `{NumbersEnv W exn} : Prop := {
  add_int a b x y w : integerOf a = Some x -> integerOf b = Some y ->
    exists v w', protoAdd a b w = (Ok v, w') /\ integerOf v = Some (x + y);
  subtract_int a b x y w : integerOf a = Some x -> integerOf b = Some y ->
    exists v w', protoSubtract a b w = (Ok v, w') /\ integerOf v = Some (x - y);
  multiply_int a b x y w : integerOf a = Some x -> integerOf b = Some y ->
    exists v w', protoMultiply a b w = (Ok v, w') /\ integerOf v = Some (x * y);
  divide_int a b x y w : integerOf a = Some x -> integerOf b = Some y -> y <> 0 ->
    exists v w', protoDivide a b w = (Ok v, w') /\ integerOf v = Some (Z.quot x y);
  divide_zero a b x w : integerOf a = Some x -> integerOf b = Some 0 ->
    exists w', protoDivide a b w = (Throw (Classed (s2b "ArithmeticException") (s2b "Divide by zero")), w');
  compare_int x y : protoCompare x y = (if y <? x then 1 else 0) - (if x <? y then 1 else 0);
  small_number x : fitsSmallInt x = true -> isnan (integerAsDouble x) = false;
  small_order x y : fitsSmallInt x = true -> fitsSmallInt y = true ->
    dkey (integerAsDouble x) < dkey (integerAsDouble y) <-> x < y;
}.

Section Integers.
Context {W exn : Type} `{CoreEnv W exn} `{!NumbersLaws W exn}.

#[local] Abbreviation F := (E (formatError exn) W).

(** ** Integers *)

(** [m] answers the integer [z]; [m] raises the exception. *)
Definition answersInt (m : F obj) (z : Z) : Prop := forall w, exists v w', m w = (Ok v, w') /\ integerOf v = Some z.
Definition raisesClass {A} (m : F A) (class : string) : Prop := forall w, exists text w', m w = (Throw (Classed (s2b class) text), w').

Definition sgn (x y : Z) : Z := if x <? y then -1 else if y <? x then 1 else 0.

Lemma small_integer z : fitsSmallInt z = true -> integerOf (Embedded (smallIntWord z)) = Some z.
Proof.
  intros Hz. destruct (smallInt_word z Hz) as [Ht Hv]. unfold integerOf, isSmallInt. by rewrite Ht, Hv.
Qed.

Lemma fromLong_int z : answersInt (fromLong z) z.
Proof.
  intros w. unfold fromLong. destruct (fitsSmallInt z) eqn:Ez.
  - exists (Embedded (smallIntWord z)), w. split; [done|by apply small_integer].
  - eexists _, _. split; [reflexivity|done].
Qed.

Lemma int_bind (m : F obj) (k : obj -> F obj) x z : answersInt m x ->
  (forall v, integerOf v = Some x -> answersInt (k v) z) -> answersInt (m ≫= k) z.
Proof.
  intros Hm Hk w. destruct (Hm w) as (v & w' & E & Hv). rewrite (bind_answers _ _ _ _ _ E). by apply Hk.
Qed.

Lemma int_ret v z : integerOf v = Some z -> answersInt (mret v) z.
Proof. intros Hv w. by exists v, w. Qed.

Lemma int_number v z : integerOf v = Some z -> isNumber v = true /\ isInteger v = true /\ isFloat v = false.
Proof. intros Hv. unfold isNumber, isInteger. rewrite Hv. split_and!; try done. by destruct v. Qed.

Lemma compareIntegers_sgn a b x y : integerOf a = Some x -> integerOf b = Some y -> compareIntegers a b = sgn x y.
Proof.
  intros Ha Hb. unfold compareIntegers, sgn. rewrite Ha, Hb, compare_int. cbn.
  destruct (isSmallInt a && isSmallInt b); z_cases.
Qed.

Lemma numberCompare_int a b x y w : integerOf a = Some x -> integerOf b = Some y ->
  numberCompare a b w = (Ok (sgn x y), w).
Proof.
  intros Ha Hb. unfold numberCompare. destruct (int_number a x Ha) as (-> & -> & _).
  destruct (int_number b y Hb) as (-> & -> & _). cbn. by rewrite (compareIntegers_sgn a b x y).
Qed.

(** *** Arithmetic *)

(** Arguments that are these integers. *)
Definition integers (args : list obj) (xs : list Z) : Prop := Forall2 (fun a x => integerOf a = Some x) args xs.

Lemma checkNumbers_integers args xs name w : integers args xs -> checkNumbers args name w = (Ok tt, w).
Proof.
  induction 1 as [|a x args xs Ha _ IH]; [done|]. cbn [checkNumbers]. by destruct (int_number a x Ha) as (-> & _).
Qed.

Lemma check_bind args xs name (k : unit -> F obj) z : integers args xs -> answersInt (k tt) z ->
  answersInt (checkNumbers args name ≫= k) z.
Proof. intros Ha Hk w. rewrite (bind_answers _ _ _ _ _ (checkNumbers_integers _ _ _ w Ha)). apply Hk. Qed.

Lemma foldFrom_int (op : obj -> obj -> F obj) (f : Z -> Z -> Z) acc z args xs :
  (forall a b x y, integerOf a = Some x -> integerOf b = Some y -> y ∈ xs -> answersInt (op a b) (f x y)) ->
  integerOf acc = Some z -> integers args xs -> answersInt (foldFrom op acc args) (fold_left f xs z).
Proof.
  intros Hop Hacc Hargs. revert acc z Hacc Hop. induction Hargs as [|a x args xs Ha _ IH]; intros acc z Hacc Hop; cbn.
  - by apply int_ret.
  - eapply int_bind; [apply Hop; [exact Hacc|exact Ha|left]|]. intros v Hv. apply IH; [done|].
    intros ????? ? ?. apply Hop; [done..|by right].
Qed.

Lemma no_floats args xs : integers args xs -> existsb isFloat args = false.
Proof.
  induction 1 as [|a x args xs Ha _ IH]; [done|]. cbn. by destruct (int_number a x Ha) as (_ & _ & ->).
Qed.

Lemma op_int (op : obj -> obj -> F obj) a b z : (forall w, exists v w', op a b w = (Ok v, w') /\ integerOf v = Some z) ->
  answersInt (op a b) z.
Proof. done. Qed.

(** The truth of a chain of comparisons. *)
Fixpoint chain (holds : Z -> Z -> bool) (x : Z) (xs : list Z) : bool :=
  match xs with [] => true | y :: xs => holds x y && chain holds y xs end.

Lemma monotonicChain_int name dholds sholds a x args xs w : integerOf a = Some x -> integers args xs ->
  monotonicChain name dholds sholds (a :: args) w = (Ok (boolean (chain (fun x y => sholds (sgn x y)) x xs)), w).
Proof.
  intros Ha Hargs. unfold monotonicChain. destruct Hargs as [|b y args xs Hb Hargs]; [done|].
  unfold numberArg. change (argAt (a :: b :: args) 0) with a. destruct (int_number a x Ha) as (-> & _).
  rewrite (bind_answers (mret a) _ w a w eq_refl).
  assert (Hall : integers (b :: args) (y :: xs)) by (by constructor). clear Hb Hargs.
  revert a x Ha. induction Hall as [|c z cs zs Hc _ IH]; intros a x Ha; [done|]. cbn [chainFrom chain].
  destruct (int_number c z Hc) as (-> & Hic & _). cbn [negb]. destruct (int_number a x Ha) as (_ & -> & _).
  rewrite Hic. cbn [andb]. rewrite (compareIntegers_sgn a c x z) by done.
  destruct (sholds (sgn x z)); [by apply IH|done].
Qed.

(** C35. Arithmetic on integers is exact at every size: [+], [-] and [*] answer the sum,
    the difference and the product of their arguments, [/] the quotient truncated
    toward zero after each, or ArithmeticException for a zero divisor, [inc] and [dec]
    the neighbours, and [<], [<=], [>], [>=] whether the arguments are in order. *)
Theorem integer_arithmetic args xs a x : integers args xs -> integerOf a = Some x ->
  answersInt (prim_plus (a :: args)) (fold_left Z.add xs x) /\
  answersInt (prim_mul (a :: args)) (fold_left Z.mul xs x) /\
  answersInt (prim_minus (a :: args)) (match xs with [] => - x | _ => fold_left Z.sub xs x end) /\
  (xs <> [] -> 0 ∉ xs -> answersInt (prim_div (a :: args)) (fold_left Z.quot xs x)) /\
  (xs <> [] -> 0 ∈ xs -> raisesClass (prim_div (a :: args)) "ArithmeticException") /\
  answersInt (prim_inc [a]) (x + 1) /\
  answersInt (prim_dec [a]) (x - 1) /\
  (forall w, prim_lt (a :: args) w = (Ok (boolean (chain Z.ltb x xs)), w) /\
    prim_le (a :: args) w = (Ok (boolean (chain Z.leb x xs)), w) /\
    prim_gt (a :: args) w = (Ok (boolean (chain Z.gtb x xs)), w) /\
    prim_ge (a :: args) w = (Ok (boolean (chain Z.geb x xs)), w)).
Proof.
  intros Hargs Ha. destruct (int_number a x Ha) as (Hna & _ & Hfa).
  assert (Hall : integers (a :: args) (x :: xs)) by (by constructor).
  assert (Hfold : forall op f, (forall a b x y, integerOf a = Some x -> integerOf b = Some y -> y ∈ xs -> answersInt (op a b) (f x y)) ->
    answersInt (numericFold op (a :: args)) (fold_left f xs x)).
  { intros op f Hop. by apply foldFrom_int. }
  split; [|split; [|split; [|split; [|split; [|split; [|split]]]]]].
  - eapply check_bind; [exact Hall|]. destruct Hargs; [by apply int_ret|]. apply Hfold.
    intros ????? ? _ w. by apply add_int.
  - eapply check_bind; [exact Hall|]. destruct Hargs; [by apply int_ret|]. apply Hfold.
    intros ????? ? _ w. by apply multiply_int.
  - unfold prim_minus. eapply check_bind; [exact Hall|]. destruct Hargs.
    + assert (Hsub : answersInt (zero ← fromLong 0; protoSubtract zero a) (- x)).
      { eapply int_bind; [apply fromLong_int|]. intros v Hv w. replace (- x) with (0 - x) by lia. by apply subtract_int. }
      destruct a; done || exact Hsub.
    + apply Hfold. intros ????? ? _ w. by apply subtract_int.
  - intros Hne Hz. unfold prim_div. eapply check_bind; [exact Hall|]. rewrite (no_floats _ _ Hall).
    destruct Hargs; [done|]. apply Hfold. intros b c u v ?? Hv w. apply divide_int; [done..|]. by intros ->.
  - intros Hne Hz w. unfold prim_div. rewrite (bind_answers _ _ _ _ _ (checkNumbers_integers _ _ _ w Hall)), (no_floats _ _ Hall).
    destruct Hargs as [|b y args xs Hb Hargs]; [done|]. clear Hne Hall Hfold Hna Hfa. unfold numericFold. change (argAt (a :: b :: args) 0) with a. cbn [drop].
    assert (Hall : integers (b :: args) (y :: xs)) by (by constructor). clear Hb Hargs. revert a x w Ha.
    induction Hall as [|c z cs zs Hc Hcs IH]; intros a x w Ha; [by apply elem_of_nil in Hz|]. cbn [foldFrom].
    apply elem_of_cons in Hz. destruct (decide (z = 0)) as [->|Hzne].
    + destruct (divide_zero a c x w Ha Hc) as (w' & E). eexists _, w'. by rewrite (bind_raises _ _ _ _ _ E).
    + destruct Hz as [E0|Hz]; [congruence|]. destruct (divide_int a c x z w Ha Hc Hzne) as (v & w' & E & Hv).
      rewrite (bind_answers _ _ _ _ _ E). by eapply IH.
  - unfold prim_inc, stepBy. cbn [length Nat.eqb negb]. unfold numberArg. change (argAt [a] 0) with a. rewrite Hna.
    eapply int_bind; [by apply int_ret|]. intros v Hv.
    assert (Hadd : answersInt (n ← fromLong 1; protoAdd v n) (x + 1)).
    { eapply int_bind; [apply fromLong_int|]. intros n Hn w. by apply add_int. }
    destruct v; done || exact Hadd.
  - unfold prim_dec, stepBy. cbn [length Nat.eqb negb]. unfold numberArg. change (argAt [a] 0) with a. rewrite Hna.
    eapply int_bind; [by apply int_ret|]. intros v Hv.
    assert (Hsub : answersInt (n ← fromLong 1; protoSubtract v n) (x - 1)).
    { eapply int_bind; [apply fromLong_int|]. intros n Hn w. by apply subtract_int. }
    destruct v; done || exact Hsub.
  - intros w. unfold prim_lt, prim_le, prim_gt, prim_ge. rewrite !(monotonicChain_int _ _ _ a x args xs w Ha Hargs).
    assert (Hext : forall f g, (forall x y, f x y = g x y) -> forall x, chain f x xs = chain g x xs).
    { intros f g Hfg. clear -Hfg. induction xs as [|y ys IH]; intros x; [done|]. cbn. by rewrite Hfg, IH. }
    split_and!; (erewrite Hext; [reflexivity|]); intros u v; unfold sgn; rewrite ?Z.gtb_ltb, ?Z.geb_leb;
      destruct (Z.ltb_spec u v), (Z.ltb_spec v u); try lia; cbn; z_cases; done.
Qed.

(** *** Division *)

Definition adjusted (x y : Z) : Z :=
  let r := Z.rem x y in
  if negb (r =? 0) && negb (Bool.eqb (r <? 0) (y <? 0)) then r + y else r.

Lemma adjusted_mod x y : y <> 0 -> adjusted x y = x mod y.
Proof.
  intros Hy. unfold adjusted. pose proof (Z.quot_rem' x y) as E. pose proof (Z.rem_bound_abs x y Hy) as Hb.
  set (r := Z.rem x y) in *. set (q := Z.quot x y) in *. clearbody r q.
  destruct (Z.eqb_spec r 0) as [->|Hr]; cbn [negb andb].
  { apply (Z.mod_unique x y q); lia. }
  destruct (Z.ltb_spec r 0), (Z.ltb_spec y 0); cbn; first [apply (Z.mod_unique x y q); lia|apply (Z.mod_unique x y (q - 1)); lia].
Qed.

Lemma intDivision_shape kind name a b x y w : integerOf a = Some x -> integerOf b = Some y ->
  intDivision kind name [a; b] w =
  (if isSmallInt a && isSmallInt b then smallDivision kind x y else largeDivision kind a b) w.
Proof.
  intros Ha Hb. unfold intDivision. change (argAt [a; b] 0) with a. change (argAt [a; b] 1) with b. cbn [length Nat.eqb negb].
  destruct (int_number a x Ha) as (-> & _ & ->). destruct (int_number b y Hb) as (-> & _ & ->). cbn [negb orb].
  rewrite Ha, Hb. cbn. by destruct (isSmallInt a && isSmallInt b).
Qed.

Lemma largeDivision_int kind a b x y : integerOf a = Some x -> integerOf b = Some y -> y <> 0 ->
  answersInt (largeDivision kind a b)
    (match kind with Quot => Z.quot x y | Rem => Z.rem x y | Mod => adjusted x y end).
Proof.
  intros Ha Hb Hy. unfold largeDivision. eapply int_bind; [intros w; by apply divide_int|]. intros q Hq.
  destruct kind; [by apply int_ret| |].
  all: eapply int_bind; [intros w; by apply multiply_int|]; intros p Hp;
    eapply int_bind; [intros w; by apply (subtract_int a p x (Z.quot x y * y))|]; intros r Hr;
    (assert (Er : x - Z.quot x y * y = Z.rem x y) by (pose proof (Z.quot_rem' x y); lia)); rewrite Er in Hr;
    eapply int_bind; [apply fromLong_int|]; intros zero Hz.
  - by apply int_ret.
  - intros w. rewrite (bind_answers _ _ _ _ _ (numberCompare_int r zero _ _ w Hr Hz)). unfold adjusted. cbv zeta.
    assert (Hs : forall z, (sgn z 0 <? 0) = (z <? 0)).
    { intros z. unfold sgn. destruct (Z.ltb_spec z 0), (Z.ltb_spec 0 z); try lia; done. }
    assert (He : (sgn (Z.rem x y) 0 =? 0) = (Z.rem x y =? 0)).
    { unfold sgn. destruct (Z.ltb_spec (Z.rem x y) 0), (Z.ltb_spec 0 (Z.rem x y)); z_cases; done. }
    rewrite He. destruct (Z.rem x y =? 0); cbn [negb andb]; [by apply int_ret|].
    rewrite (bind_answers _ _ _ _ _ (numberCompare_int b zero _ _ w Hb Hz)), !Hs.
    destruct (Bool.eqb _ _); cbn [negb]; [by apply int_ret|by apply add_int].
Qed.

(** C36. [quot], [rem] and [mod] of integers of any size, on the path of small integers
    and on protoCore's alike: the quotient truncated toward zero, the remainder of the
    dividend's sign, the modulus of the divisor's, which is the remainder of the floored
    division; a zero divisor is ArithmeticException. *)
Theorem division a b x y : integerOf a = Some x -> integerOf b = Some y ->
  (y <> 0 -> answersInt (prim_quot [a; b]) (Z.quot x y) /\ answersInt (prim_rem [a; b]) (Z.rem x y) /\
             answersInt (prim_mod [a; b]) (x mod y)) /\
  (y = 0 -> raisesClass (prim_quot [a; b]) "ArithmeticException" /\
            raisesClass (prim_rem [a; b]) "ArithmeticException" /\
            raisesClass (prim_mod [a; b]) "ArithmeticException").
Proof.
  intros Ha Hb.
  assert (Hpath : forall kind name z, answersInt (smallDivision kind x y) z -> answersInt (largeDivision kind a b) z ->
    answersInt (intDivision kind name [a; b]) z).
  { intros kind name z Hs Hl w. rewrite (intDivision_shape kind name a b x y w Ha Hb).
    destruct (isSmallInt a && isSmallInt b); [apply Hs|apply Hl]. }
  split; intros Hy.
  - rewrite <- (adjusted_mod x y Hy).
    pose proof (largeDivision_int Quot a b x y Ha Hb Hy) as Hq. pose proof (largeDivision_int Rem a b x y Ha Hb Hy) as Hr.
    pose proof (largeDivision_int Mod a b x y Ha Hb Hy) as Hm.
    apply Z.eqb_neq in Hy as Hy0.
    split_and!; apply Hpath; try done; unfold smallDivision; rewrite Hy0; apply fromLong_int.
  - subst y. split_and!; intros w;
      unfold prim_quot, prim_rem, prim_mod; rewrite (intDivision_shape _ _ a b x 0 w Ha Hb);
      (destruct (isSmallInt a && isSmallInt b); [by eexists _, _|]); unfold largeDivision;
      destruct (divide_zero a b x w Ha Hb) as (w' & E); rewrite (bind_raises _ _ _ _ _ E); by eexists _, _.
Qed.

End Integers.

(** ** Numerals *)

Section Numerals.
Context {W exn : Type} `{CoreEnv W exn} `{!NumeralLaw}.

(** Decimal digits after an optional sign, and their value. *)
Definition spells (s : bytes) (z : Z) : Prop := exists ds, ds <> [] /\ Forall (fun c => is_digit c = true) ds /\
  ((s = ds \/ s = "+"%byte :: ds) /\ z = digits_value ds \/ s = "-"%byte :: ds /\ z = - digits_value ds).

Lemma digit_no_sign c : is_digit c = true -> (c =? "+")%byte = false /\ (c =? "-")%byte = false.
Proof.
  intros Hc. split; [|by apply digit_not_minus]. apply is_digit_u8 in Hc. byte_case; [|done]. vm_compute in Hc. destruct Hc; congruence.
Qed.

(** The value of what follows a sign. *)
Definition signedAs (sign : option byte) (ds : bytes) : Z :=
  if bool_decide (sign = Some "-"%byte) then - digits_value ds else digits_value ds.

Lemma spells_signOf s z : spells s z <->
  (snd (signOf s) <> [] /\ forallb is_digit (snd (signOf s)) = true /\ z = signedAs (fst (signOf s)) (snd (signOf s))).
Proof.
  unfold spells, signedAs. split.
  - intros (ds & Hne & Hds & Hz). assert (Hall : forallb is_digit ds = true) by (rewrite forallb_forall; by apply List.Forall_forall).
    destruct Hz as [[[-> | ->] ->]|[-> ->]]; [|done|done]. destruct ds as [|c ds]; [done|]. inversion Hds; subst.
    destruct (digit_no_sign c) as [Ep Em]; [done|]. cbn [signOf]. by rewrite Ep, Em.
  - intros (Hne & Hall & ->). exists (snd (signOf s)). split; [done|]. split; [apply List.Forall_forall; by apply forallb_forall|].
    destruct s as [|c s]; [by left; auto|]. cbn. destruct (byte_eqb_spec c "+"%byte) as [->|Hp]; [by left; auto|].
    destruct (byte_eqb_spec c "-"%byte) as [->|Hm]; [by right|]. by left; auto.
Qed.

Lemma to_string_spells z : spells (to_string z) z.
Proof.
  unfold to_string. assert (Hd : forall n, 0 <= n -> dec_digits n <> [] /\ Forall (fun c => is_digit c = true) (dec_digits n) /\ digits_value (dec_digits n) = n).
  { intros n Hn. destruct (dec_digits_cons n) as (c & ds & E). split; [by rewrite E|]. by split; [apply dec_digits_digits|apply dec_digits_value]. }
  destruct (Z.ltb_spec z 0).
  - destruct (Hd (- z)) as (? & ? & E); [lia|]. exists (dec_digits (- z)). split; [done|]. split; [done|]. right. split; [done|lia].
  - destruct (Hd z) as (? & ? & E); [lia|]. exists (dec_digits z). split; [done|]. split; [done|]. left. by auto.
Qed.

Lemma to_string_sign z : fst (signOf (to_string z)) <> Some "+"%byte.
Proof.
  unfold to_string. destruct (Z.ltb_spec z 0); [done|]. destruct (dec_digits_cons z) as (c & ds & E).
  pose proof (dec_digits_digits z ltac:(lia)) as Hd. rewrite E in *. inversion Hd; subst.
  destruct (digit_no_sign c) as [Ep Em]; [done|]. cbn. by rewrite Ep, Em.
Qed.

(** [parse-long] reads exactly the decimal numerals with an optional sign whose
    value is in 64 bits, and answers nil on any other string; [bigint] reads what
    [str] writes of an integer of any size, and raises NumberFormatException on a
    string that is no numeral. *)
Theorem numerals_parse a s :
  (forall z, spells s z ->
     if fits_llong z then answersInt (prim_parse_long [Str a s]) z
     else forall w, prim_parse_long [Str a s] w = (Ok PROTO_NONE, w)) /\
  ((forall z, ~ spells s z) ->
     (forall w, prim_parse_long [Str a s] w = (Ok PROTO_NONE, w)) /\
     raisesClass (prim_bigint [Str a s]) "NumberFormatException") /\
  (forall z, s = to_string z -> answersInt (prim_bigint [Str a s]) z).
Proof.
  assert (Hlong : forall w, prim_parse_long [Str a s] w = match parseLong s with None => (Ok PROTO_NONE, w) | Some v => fromLong v w end).
  { intros w. unfold prim_parse_long, parseArg. cbn.
    rewrite (bind_answers (mret s) _ w s w) by done. by destruct (parseLong s). }
  assert (Hs : forall z, spells s z -> parseLong s = if fits_llong z then Some z else None).
  { intros z (Hne & Hall & ->)%spells_signOf. unfold parseLong, signedAs in *. destruct (signOf s) as [sign ds]. cbn in *.
    rewrite Hall. by destruct ds. }
  split; [|split].
  - intros z Hz. specialize (Hs z Hz). destruct (fits_llong z); intros w; rewrite Hlong, Hs; [apply fromLong_int|done].
  - intros Hno. assert (Hbad : snd (signOf s) = [] \/ forallb is_digit (snd (signOf s)) = false).
    { destruct (snd (signOf s)) as [|c ds] eqn:E; [by left|right]. apply not_true_iff_false. intros Hall.
      eapply Hno. apply spells_signOf. rewrite E. by repeat split. }
    split; intros w.
    + rewrite Hlong. unfold parseLong. destruct (signOf s) as [sign [|c ds]]; [done|]. cbn in Hbad |- *.
      destruct Hbad as [|Hb]; [done|]. by rewrite Hb.
    + unfold prim_bigint, bigintOfString. cbn. destruct (signOf s) as [sign [|c ds]]; [by eexists _, _|]. cbn in Hbad |- *.
      destruct Hbad as [|Hb]; [done|]. rewrite Hb. by eexists _, _.
  - intros z ->. pose proof (to_string_spells z) as (Hne & Hall & Hz)%spells_signOf.
    unfold prim_bigint. cbn. unfold bigintOfString. destruct (signOf (to_string z)) as [sign [|c ds]] eqn:Eso; [done|].
    cbn [snd fst] in *. rewrite Hall.
    pose proof (to_string_sign z) as Hsign. rewrite Eso in Hsign.
    rewrite bool_decide_eq_false_2 by done. unfold fromNumeral. rewrite fromString_decimal. apply fromLong_int.
Qed.

End Numerals.
