(* ===== verification/CompareOrder.v ===== *)
(** [compare] and [sort] (runtime/CorePrims.cpp): [compare] orders the values of one kind,
    and [sort] answers the elements sorted, in their order where they compare equal. *)

From stdpp Require Import sorting.
From S2P Require Import Prelude Double Values Maps KeyEquality Exceptions Printer Reader PrintRead DataFormats Numbers CorePrims CoreFacts.

#[local] Set Warnings "-register-all".

(** ** The order of byte strings *)

Lemma compareBytes_refl x : compareBytes x x = 0.
Proof. induction x as [|b x IH]; [done|]. cbn. by rewrite Z.ltb_irrefl. Qed.

Lemma compareBytes_anti x y : compareBytes y x = - compareBytes x y.
Proof. revert y. induction x as [|b x IH]; intros [|c y]; cbn; try done. z_cases; try done; apply IH. Qed.

Lemma compareBytes_trans x y z : compareBytes x y <= 0 -> compareBytes y z <= 0 ->
  compareBytes x z <= 0 /\ (compareBytes x z = 0 -> compareBytes x y = 0 /\ compareBytes y z = 0).
Proof.
  revert y z. induction x as [|b x IH]; intros [|c y] [|d z]; cbn; try lia.
  z_cases; try lia; cbn; try lia. apply IH.
Qed.

Lemma beqb_sym x y : Bool.eqb x y = Bool.eqb y x.
Proof. by destruct x, y. Qed.

Lemma sgn_anti x y : sgn y x = - sgn x y.
Proof. unfold sgn. z_cases; done. Qed.

Lemma sgn_trans x y z : sgn x y <= 0 -> sgn y z <= 0 -> sgn x z <= 0 /\ (sgn x z = 0 -> sgn x y = 0 /\ sgn y z = 0).
Proof. unfold sgn. z_cases; lia. Qed.

Lemma sgn_ne x y : x <> y -> sgn x y <> 0.
Proof. unfold sgn. z_cases; lia. Qed.

(** ** The order of values *)

Section Order.
Context {W exn : Type} `{CoreEnv W exn} `{!NumbersLaws W exn}.

#[local] Abbreviation F := (E (formatError exn) W).

(** The values that exist; whether there are doubles among the numbers, and then the
    integers are small ones; true and false are values, and no integers. *)
Context (live : obj -> Prop) `{!Heap live} (doubles : bool).
Context (Htrue : live PROTO_TRUE) (Hfalse : live PROTO_FALSE).
Context (Hwords : isSmallInt PROTO_TRUE = false /\ isSmallInt PROTO_FALSE = false).

Definition numberOk (v : obj) : Prop :=
  match v with
  | Dbl _ bits => doubles = true /\ isnan bits = false
  | _ => match integerOf v with Some z => doubles = false \/ fitsSmallInt z = true | None => True end
  end.

Fixpoint sortable (n : nat) (v : obj) : Prop :=
  match n with
  | O => False
  | S n => live v /\ numberOk v /\ match v with Vec _ items => Forall (sortable n) items | _ => True end
  end.

(** Where a number is in the order of numbers. *)
Definition rankOf (v : obj) : Z := if doubles then dkey (asDouble v) else default 0 (integerOf v).

Definition boolOf (v : obj) : bool := negb (same v PROTO_FALSE).
Definition sgnBool (x y : bool) : Z := match x, y with false, true => -1 | true, false => 1 | _, _ => 0 end.

(** The order of the elements of two lists of one length. *)
Fixpoint elementOrder (order : obj -> obj -> option Z) (xs ys : list obj) : option Z :=
  match xs, ys with
  | x :: xs, y :: ys =>
      match order x y with
      | Some c => if c =? 0 then elementOrder order xs ys else Some c
      | None => None
      end
  | _, _ => Some 0
  end.

(** How two values compare; [None] when they do not. *)
Fixpoint order (n : nat) (a b : obj) : option Z :=
  match n with
  | O => None
  | S n =>
      if same a b then Some 0
      else if same a PROTO_NONE then Some (-1)
      else if same b PROTO_NONE then Some 1
      else if isNumber a && isNumber b then Some (sgn (rankOf a) (rankOf b))
      else if isTrueOrFalse a && isTrueOrFalse b then Some (sgnBool (boolOf a) (boolOf b))
      else
        match a, b with
        | Str _ x, Str _ y => Some (compareBytes x y)
        | Named _ x, Named _ y =>
            if hasCallContext && Bool.eqb (startsWithColon x) (startsWithColon y) then Some (compareBytes x y) else None
        | Vec _ xs, Vec _ ys =>
            if negb (length xs =? length ys)%nat then Some (sgn (Z.of_nat (length xs)) (Z.of_nat (length ys)))
            else elementOrder (order n) xs ys
        | _, _ => None
        end
  end.

Lemma numberCompare_rank a b w : numberOk a -> numberOk b -> isNumber a = true -> isNumber b = true ->
  numberCompare a b w = (Ok (sgn (rankOf a) (rankOf b)), w).
Proof.
  intros Ha Hb Hna Hnb. unfold numberCompare. rewrite Hna, Hnb. cbn [negb].
  assert (Hint : forall v, isInteger v = true -> exists z, integerOf v = Some z).
  { intros v. unfold isInteger. destruct (integerOf v); [by eexists|done]. }
  assert (Hkey : forall v, numberOk v -> isNumber v = true -> doubles = true -> isnan (asDouble v) = false).
  { intros v Hv Hn Hd. destruct (isInteger v) eqn:Ei.
    - destruct (Hint v Ei) as [z Ez]. unfold asDouble, numberOk in *.
      destruct v; try done; rewrite Ez in *; cbn; apply small_number; destruct Hv; congruence.
    - unfold isNumber in Hn. rewrite Ei in Hn. destruct v; try done. apply Hv. }
  destruct (isInteger a) eqn:Eia, (isInteger b) eqn:Eib; cbn [andb].
  1: { destruct (Hint a Eia) as [x Ex], (Hint b Eib) as [y Ey]. rewrite (compareIntegers_sgn a b x y Ex Ey). unfold rankOf.
    destruct doubles eqn:Ed; [|by rewrite Ex, Ey].
    assert (Hs : forall v z, numberOk v -> integerOf v = Some z -> fitsSmallInt z = true /\ asDouble v = integerAsDouble z).
    { intros v z Hv Hz. unfold numberOk, asDouble in *. destruct v; try done; rewrite Hz in *; (split; [|done]); destruct Hv; congruence. }
    destruct (Hs a x Ha Ex) as [Hfx ->], (Hs b y Hb Ey) as [Hfy ->].
    pose proof (small_order x y Hfx Hfy). pose proof (small_order y x Hfy Hfx). do 2 f_equal. unfold sgn. z_cases; done. }
  all: assert (doubles = true) as Hd
    by (unfold isNumber in *; rewrite ?Eia, ?Eib in *; first [destruct a; try done; apply Ha|destruct b; try done; apply Hb]).
  all: unfold dless, rankOf; rewrite Hd, (Hkey a), (Hkey b) by done; cbn [negb andb]; do 2 f_equal; unfold sgn; done.
Qed.

Lemma sortable_live n v : sortable n v -> live v.
Proof. destruct n; [done|]. by intros [? _]. Qed.

Lemma sortable_number n v : sortable n v -> numberOk v.
Proof. destruct n; [done|]. by intros (_ & ? & _). Qed.

Lemma same_value n m a b : sortable n a -> sortable m b -> same a b = true -> a = b.
Proof. intros Ha Hb E%Z.eqb_eq. by eapply live_coherent; eauto using sortable_live. Qed.

Lemma same_sym a b : same a b = same b a.
Proof. apply Z.eqb_sym. Qed.

Lemma bool_order a b : same a b = false -> isTrueOrFalse a = true -> isTrueOrFalse b = true ->
  (if same a PROTO_FALSE then -1 else 1) = sgnBool (boolOf a) (boolOf b).
Proof.
  unfold isTrueOrFalse, boolOf, same. intros Hs Ha Hb. rewrite Z.eqb_neq in Hs.
  rewrite orb_true_iff, !Z.eqb_eq in Ha, Hb. z_cases; done || lia.
Qed.

(** The comparison answers the order, or raises ClassCastException where there is
    none; it changes nothing. *)
Definition answersOrder (m : F Z) (c : option Z) : Prop := forall w,
  match c with
  | Some c => m w = (Ok c, w)
  | None => exists text, m w = (Throw (Classed (s2b "ClassCastException") text), w)
  end.

Lemma compareValues_order n a b : sortable n a -> sortable n b -> answersOrder (compareValues n a b) (order n a b).
Proof.
  revert a b. induction n as [|n IH]; intros a b Ha Hb w; [done|]. cbn [compareValues order].
  destruct (same a b) eqn:Es; [done|]. destruct (same a PROTO_NONE); [done|]. destruct (same b PROTO_NONE); [done|].
  destruct (isNumber a && isNumber b) eqn:En.
  { apply andb_prop in En as [Hna Hnb]. apply numberCompare_rank; eauto using sortable_number. }
  destruct (isTrueOrFalse a && isTrueOrFalse b) eqn:Et.
  { apply andb_prop in Et as [Hta Htb]. by rewrite (bool_order a b). }
  destruct a as [| | | | | |aa xs| | | |na sa| |], b as [| | | | | |ab ys| | | |nb sb| |]; try (by eexists); try done.
  - destruct Ha as (_ & _ & Hxs), Hb as (_ & _ & Hys). destruct (Nat.eqb_spec (length xs) (length ys)) as [El|Hne]; cbn [negb].
    2:{ unfold sgn, mret, E_ret. destruct (Nat.ltb_spec (length xs) (length ys)); do 2 f_equal; z_cases; done. }
    clear Es En Et El. revert ys Hys. induction Hxs as [|x xs Hx _ IHxs]; intros [|y ys] Hys; try done.
    inversion Hys as [|? ? Hy Hys']; subst. cbn [elementOrder]. specialize (IH x y Hx Hy w).
    destruct (order n x y) as [c|].
    + rewrite (bind_answers _ _ _ _ _ IH). destruct (c =? 0); cbn [negb]; [by apply IHxs|done].
    + destruct IH as [text E]. exists text. by rewrite (bind_raises _ _ _ _ _ E).
  - destruct hasCallContext; cbn [negb andb]; [|by eexists].
    destruct (Bool.eqb _ _); cbn [negb]; [done|by eexists].
Qed.

Lemma order_anti n a b c : order n a b = Some c -> sortable n a -> sortable n b -> order n b a = Some (- c).
Proof.
  revert a b c. induction n as [|n IH]; intros a b c; [done|]. cbn [order]. intros Ho Ha Hb.
  rewrite (same_sym b a). destruct (same a b) eqn:Es; [by injection Ho as <-|].
  destruct (same a PROTO_NONE) eqn:Ean, (same b PROTO_NONE) eqn:Ebn; try (by injection Ho as <-).
  { unfold same in *. apply Z.eqb_eq in Ean, Ebn. apply Z.eqb_neq in Es. congruence. }
  rewrite (andb_comm (isNumber b)). destruct (isNumber a && isNumber b).
  { injection Ho as <-. by rewrite sgn_anti. }
  rewrite (andb_comm (isTrueOrFalse b)). destruct (isTrueOrFalse a && isTrueOrFalse b).
  { injection Ho as <-. by destruct (boolOf a), (boolOf b). }
  destruct a as [| | | | | |aa xs| | | |na sa| |], b as [| | | | | |ab ys| | | |nb sb| |]; try done.
  - injection Ho as <-. by rewrite compareBytes_anti.
  - destruct Ha as (_ & _ & Hxs), Hb as (_ & _ & Hys). rewrite (Nat.eqb_sym (length ys)).
    destruct (length xs =? length ys)%nat; cbn [negb] in *; [|injection Ho as <-; by rewrite sgn_anti].
    clear -IH Ho Hxs Hys. revert ys Hys Ho. induction Hxs as [|x xs Hx _ IHxs]; intros [|y ys] Hys Ho; cbn [elementOrder] in *;
      try (by injection Ho as <-).
    inversion Hys as [|? ? Hy Hys']; subst. destruct (order n x y) as [d|] eqn:Ed; [|done].
    rewrite (IH x y d Ed Hx Hy). destruct (Z.eqb_spec d 0) as [->|Hd]; [by apply IHxs|].
    injection Ho as ->. by destruct (Z.eqb_spec (- c) 0); [lia|].
  - rewrite (beqb_sym (startsWithColon sb)). destruct (hasCallContext && _); [|done]. injection Ho as <-. by rewrite compareBytes_anti.
Qed.

(** The comparisons at or below zero compose, and strictly when one of them is. *)
Definition composes (x y : Z) (z : option Z) : Prop := exists c, z = Some c /\ c <= 0 /\ (c = 0 -> x = 0 /\ y = 0).

Lemma truth_value n v : sortable n v -> isTrueOrFalse v = true -> v = PROTO_TRUE \/ v = PROTO_FALSE.
Proof.
  intros Hv [E|E]%orb_prop; [left|right]; apply Z.eqb_eq in E; eapply live_coherent; eauto using sortable_live.
Qed.

Lemma truth_no_number n v : sortable n v -> isTrueOrFalse v = true -> isNumber v = false.
Proof.
  intros Hv Ht. destruct Hwords as [Hwt Hwf]. unfold isNumber, isInteger.
  destruct (truth_value n v Hv Ht) as [-> | ->]; cbn in *; by rewrite ?Hwt, ?Hwf.
Qed.

(** By what two values compare that are not one, nor nil. *)
Inductive compared (n : nat) (a b : obj) : Z -> Prop :=
| by_number : isNumber a = true -> isNumber b = true -> compared n a b (sgn (rankOf a) (rankOf b))
| by_truth : isTrueOrFalse a = true -> isTrueOrFalse b = true -> compared n a b (sgnBool (boolOf a) (boolOf b))
| by_text aa ab s t : a = Str aa s -> b = Str ab t -> compared n a b (compareBytes s t)
| by_name aa ab s t : a = Named aa s -> b = Named ab t -> hasCallContext = true -> startsWithColon s = startsWithColon t ->
    compared n a b (compareBytes s t)
| by_length aa ab xs ys : a = Vec aa xs -> b = Vec ab ys -> length xs <> length ys ->
    compared n a b (sgn (Z.of_nat (length xs)) (Z.of_nat (length ys)))
| by_elements aa ab xs ys x : a = Vec aa xs -> b = Vec ab ys -> length xs = length ys ->
    elementOrder (order n) xs ys = Some x -> compared n a b x.

Lemma order_compared n a b x : same a b = false -> same a PROTO_NONE = false -> same b PROTO_NONE = false ->
  order (S n) a b = Some x -> compared n a b x.
Proof.
  cbn [order]. intros -> -> ->. destruct (isNumber a && isNumber b) eqn:En.
  { apply andb_prop in En as [? ?]. intros [= <-]. by apply by_number. }
  destruct (isTrueOrFalse a && isTrueOrFalse b) eqn:Et.
  { apply andb_prop in Et as [? ?]. intros [= <-]. by apply by_truth. }
  destruct a as [|aa s| | | | |aa xs| | | |aa s| |], b as [|ab t| | | | |ab ys| | | |ab t| |]; try done.
  - intros [= <-]. by eapply by_text.
  - destruct (Nat.eqb_spec (length xs) (length ys)) as [El|Hne]; cbn [negb].
    + intros E. by eapply by_elements.
    + intros [= <-]. by eapply by_length.
  - destruct hasCallContext eqn:Ec; [|done]. destruct (Bool.eqb_spec (startsWithColon s) (startsWithColon t)); [|done].
    intros [= <-]. by eapply by_name.
Qed.

Lemma compared_order n a b x : sortable (S n) a -> sortable (S n) b -> same a b = false -> same a PROTO_NONE = false ->
  same b PROTO_NONE = false -> compared n a b x -> order (S n) a b = Some x.
Proof.
  intros Ha Hb Hs Hna Hnb Hc. cbn [order]. rewrite Hs, Hna, Hnb.
  assert (Ht : forall v, sortable (S n) v -> match v with Embedded _ => False | _ => True end -> isTrueOrFalse v = false).
  { intros v Hv Hk. destruct (isTrueOrFalse v) eqn:E; [|done]. by destruct (truth_value _ v Hv E); subst v. }
  destruct Hc as [-> ->|Hta Htb|aa ab s t -> ->|aa ab s t -> -> -> ->|aa ab xs ys -> -> Hne|aa ab xs ys x -> -> El E]; cbn [andb].
  - done.
  - rewrite (truth_no_number _ a Ha Hta), Hta, Htb. done.
  - rewrite (Ht _ Ha I). done.
  - rewrite (Ht _ Ha I). cbn [isNumber isInteger integerOf isFloat orb andb]. by rewrite eqb_reflx.
  - rewrite (Ht _ Ha I). cbn. by destruct (Nat.eqb_spec (length xs) (length ys)).
  - rewrite (Ht _ Ha I). cbn. by rewrite El, Nat.eqb_refl.
Qed.

Lemma elementOrder_trans n (xs ys zs : list obj) x y :
  (forall a b c x y, order n a b = Some x -> order n b c = Some y -> x <= 0 -> y <= 0 ->
     sortable n a -> sortable n b -> sortable n c -> composes x y (order n a c)) ->
  Forall (sortable n) xs -> Forall (sortable n) ys -> Forall (sortable n) zs ->
  length xs = length ys -> length ys = length zs ->
  elementOrder (order n) xs ys = Some x -> elementOrder (order n) ys zs = Some y -> x <= 0 -> y <= 0 ->
  composes x y (elementOrder (order n) xs zs).
Proof.
  intros IH Hxs. revert ys zs x y. induction Hxs as [|a xs Ha _ IHxs]; intros [|b ys] [|c zs] x y Hys Hzs Hl1 Hl2;
    try done; cbn [elementOrder].
  { intros [= <-] [= <-] _ _. by exists 0. }
  inversion Hys as [|? ? Hb Hys']; inversion Hzs as [|? ? Hc Hzs']; subst.
  destruct (order n a b) as [d|] eqn:Ed; [|done]. destruct (order n b c) as [e|] eqn:Ee; [|done].
  intros Ex Ey Hx Hy.
  assert (Hd : d <= 0) by (destruct (Z.eqb_spec d 0); [lia|injection Ex as ->; done]).
  assert (He : e <= 0) by (destruct (Z.eqb_spec e 0); [lia|injection Ey as ->; done]).
  destruct (IH a b c d e Ed Ee Hd He Ha Hb Hc) as (f & Ef & Hf & Hf0). rewrite Ef.
  destruct (Z.eqb_spec f 0) as [->|Hfne].
  - destruct (Hf0 eq_refl) as [-> ->]. cbn in Ex, Ey. cbn in Hl1, Hl2. eapply (IHxs ys zs x y); try done; lia.
  - exists f. split; [done|]. split; [done|]. lia.
Qed.

Lemma compared_trans n a b c x y :
  (forall a b c x y, order n a b = Some x -> order n b c = Some y -> x <= 0 -> y <= 0 ->
     sortable n a -> sortable n b -> sortable n c -> composes x y (order n a c)) ->
  compared n a b x -> compared n b c y -> x <= 0 -> y <= 0 ->
  sortable (S n) a -> sortable (S n) b -> sortable (S n) c ->
  exists z, compared n a c z /\ z <= 0 /\ (z = 0 -> x = 0 /\ y = 0).
Proof.
  intros IH Hab Hbc Hx Hy Ha Hb Hc.
  assert (Htb : forall v, sortable (S n) v -> isTrueOrFalse v = true -> match v with Embedded _ => isNumber v = false | _ => False end).
  { intros v Hv E. pose proof (truth_no_number _ v Hv E) as En. by destruct (truth_value _ v Hv E); subst v. }
  destruct Hab as [Hna Hnb|Hta Htb'|aa ab s t -> ->|aa ab s t -> -> Hcc Hst|aa ab xs ys -> -> Hne|aa ab xs ys x -> -> El E];
    destruct Hbc as [Hnb' Hnc|Htb'' Htc|bb bc s' t' E1 ->|bb bc s' t' E1 -> Hcc' Hst'|bb bc ys' zs E1 -> Hne'|bb bc ys' zs y E1 -> El' E'];
    try (subst b); try discriminate; try (by pose proof (Htb _ Hb ltac:(eassumption)) as Hf; try rewrite Hf in *).
  - destruct (sgn_trans _ _ _ Hx Hy) as [Hz Hz0]. eexists. split; [by apply by_number|done].
  - exfalso. specialize (Htb b Hb Htb''). destruct b; try done; congruence.
  - exfalso. specialize (Htb b Hb Htb'). destruct b; try done; congruence.
  - eexists. split; [by apply by_truth|]. by destruct (boolOf a), (boolOf b), (boolOf c).
  - injection E1 as <- <-. destruct (compareBytes_trans _ _ _ Hx Hy) as [Hz Hz0].
    eexists. split; [by eapply by_text|done].
  - injection E1 as <- <-. destruct (compareBytes_trans _ _ _ Hx Hy) as [Hz Hz0].
    eexists. split; [eapply by_name; [done|done|done|congruence]|done].
  - injection E1 as <- <-. destruct (sgn_trans _ _ _ Hx Hy) as [Hz Hz0].
    eexists. split; [eapply by_length; [done|done|]|].
    { intros Elen. rewrite <- Elen in Hy. rewrite (sgn_anti (Z.of_nat (length xs))) in Hy.
      pose proof (sgn_ne (Z.of_nat (length xs)) (Z.of_nat (length ys)) ltac:(lia)). lia. }
    done.
  - injection E1 as <- <-. eexists. split; [eapply by_length; [done|done|congruence]|].
    rewrite <- El'. split; [done|]. intros E0. by apply sgn_ne in E0; [|lia].
  - injection E1 as <- <-. eexists. split; [eapply by_length; [done|done|congruence]|].
    rewrite El. split; [done|]. intros E0. by apply sgn_ne in E0; [|lia].
  - injection E1 as <- <-.
    destruct (elementOrder_trans n xs ys zs x y) as (z & Ez & Hz & Hz0); try done;
      [by apply Ha|by apply Hb|by apply Hc|].
    exists z. split; [|done]. eapply by_elements; [done|done|congruence|done].
Qed.

Lemma order_trans n a b c x y : order n a b = Some x -> order n b c = Some y -> x <= 0 -> y <= 0 ->
  sortable n a -> sortable n b -> sortable n c -> composes x y (order n a c).
Proof.
  revert a b c x y. induction n as [|n IH]; intros a b c x y Hab Hbc Hx Hy Ha Hb Hc; [done|].
  assert (Hself : forall v, order (S n) v v = Some 0) by (intros v; cbn; unfold same; by rewrite Z.eqb_refl).
  destruct (same a c) eqn:Eac.
  { apply (same_value _ _ a c Ha Hc) in Eac as <-. pose proof (order_anti _ _ _ _ Hab Ha Hb) as E.
    rewrite E in Hbc. injection Hbc as <-. exists 0. rewrite Hself. split_and!; [done|done|lia]. }
  destruct (same a b) eqn:Eab.
  { apply (same_value _ _ a b Ha Hb) in Eab as <-. rewrite Hself in Hab. injection Hab as <-. by exists y. }
  destruct (same b c) eqn:Ebc.
  { apply (same_value _ _ b c Hb Hc) in Ebc as <-. rewrite Hself in Hbc. injection Hbc as <-. by exists x. }
  destruct (same a PROTO_NONE) eqn:Ean.
  { exists (-1). cbn [order]. rewrite Eac, Ean. split_and!; [done|lia|lia]. }
  destruct (same b PROTO_NONE) eqn:Ebn.
  { cbn [order] in Hab. rewrite Eab, Ean, Ebn in Hab. injection Hab as <-. lia. }
  destruct (same c PROTO_NONE) eqn:Ecn.
  { cbn [order] in Hbc. rewrite Ebc, Ebn, Ecn in Hbc. injection Hbc as <-. lia. }
  apply (order_compared n a b x Eab Ean Ebn) in Hab. apply (order_compared n b c y Ebc Ebn Ecn) in Hbc.
  destruct (compared_trans n a b c x y IH Hab Hbc Hx Hy Ha Hb Hc) as (z & Hz & Hz').
  exists z. split; [by apply compared_order|done].
Qed.

End Order.

(** ** Sorting by insertion after the equal ones *)

Section Insertion.
Context {A : Type} (lt : A -> A -> bool) (D : A -> Prop).
#[local] Abbreviation le := (fun x y => lt y x = false).
Context (lt_asym : forall x y, D x -> D y -> lt x y = true -> lt y x = false).
Context (le_trans : forall x y z, D x -> D y -> D z -> le x y -> le y z -> le x z).

Fixpoint placed (x : A) (sorted : list A) : list A :=
  match sorted with
  | [] => [x]
  | y :: sorted' => if lt x y then x :: sorted else y :: placed x sorted'
  end.

Definition placedAll (sorted l : list A) : list A := fold_left (fun sorted x => placed x sorted) l sorted.

Lemma placed_perm x s : placed x s ≡ₚ x :: s.
Proof. induction s as [|y s IH]; [done|]. cbn. destruct (lt x y); [done|]. rewrite IH. by rewrite Permutation_swap. Qed.

Lemma placedAll_perm s l : placedAll s l ≡ₚ s ++ l.
Proof.
  revert s. induction l as [|x l IH]; intros s; [by rewrite app_nil_r|].
  change (placedAll s (x :: l)) with (placedAll (placed x s) l). rewrite IH, placed_perm. cbn. by rewrite Permutation_middle.
Qed.

(** What is less than one is less than what follows it. *)
Lemma lt_below x y s : D x -> D y -> Forall D s -> lt x y = true -> Forall (le y) s -> Forall (fun z => lt x z = true) s.
Proof.
  intros Hx Hy Hs Hxy. rewrite !Forall_forall. rewrite Forall_forall in Hs. intros Hle z Hz.
  destruct (lt x z) eqn:E; [done|]. by rewrite (le_trans y z x) in Hxy by auto.
Qed.

Lemma placed_sorted x s : D x -> Forall D s -> StronglySorted le s -> StronglySorted le (placed x s).
Proof.
  intros Hx Hs Hsort. induction Hsort as [|y s Hsort IH Hle]; cbn; [by repeat constructor|].
  inversion Hs as [|? ? Hy Hs']; subst. destruct (lt x y) eqn:E.
  - constructor; [by constructor|]. constructor; [by apply lt_asym|].
    pose proof (lt_below x y s Hx Hy Hs' E Hle) as Hb. rewrite Forall_forall in *. intros z Hz. apply lt_asym; auto.
  - constructor; [by apply IH|]. rewrite placed_perm. by constructor.
Qed.

Lemma filter_none (k : A -> bool) l : Forall (fun z => k z = false) l -> List.filter k l = [].
Proof. induction 1 as [|z l Hz _ IH]; [done|]. cbn. by rewrite Hz. Qed.

(** Among those [k] holds of, none of which is less than another, an element goes last. *)
Lemma placed_stable (k : A -> bool) x s : D x -> Forall D s -> StronglySorted le s ->
  (forall y, y ∈ s -> k x = true -> k y = true -> lt x y = false) ->
  List.filter k (placed x s) = List.filter k s ++ List.filter k [x].
Proof.
  intros Hx Hs Hsort. induction Hsort as [|y s Hsort IH Hle]; [done|]. cbn [placed]. intros Hk.
  inversion Hs as [|? ? Hy Hs']; subst. destruct (lt x y) eqn:E.
  - change (x :: y :: s) with ([x] ++ (y :: s)). rewrite List.filter_app.
    destruct (k x) eqn:Ex; [|by cbn; rewrite Ex, app_nil_r].
    rewrite (filter_none k (y :: s)); [by rewrite app_nil_r|].
    assert (Hb : Forall (fun z => lt x z = true) (y :: s)) by (constructor; [done|by eapply lt_below]).
    rewrite Forall_forall in *. intros z Hz. destruct (k z) eqn:Ez; [|done].
    specialize (Hb z Hz). by rewrite (Hk z Hz) in Hb.
  - change (y :: placed x s) with ([y] ++ placed x s). change (y :: s) with ([y] ++ s).
    rewrite !List.filter_app, IH; [by rewrite app_assoc|done|]. intros z Hz. apply Hk. by right.
Qed.

Lemma placedAll_sorted (k : A -> bool) s l : Forall D s -> Forall D l -> StronglySorted le s ->
  (forall x y, x ∈ s ++ l -> y ∈ s ++ l -> k x = true -> k y = true -> lt x y = false) ->
  StronglySorted le (placedAll s l) /\ List.filter k (placedAll s l) = List.filter k (s ++ l).
Proof.
  intros Hs Hl. revert s Hs. induction Hl as [|x l Hx Hl IH]; intros s Hs Hsort Hk.
  { by rewrite app_nil_r. }
  change (placedAll s (x :: l)) with (placedAll (placed x s) l).
  destruct (IH (placed x s)) as [Ho Hf]; [rewrite placed_perm; by constructor|by apply placed_sorted|..].
  { intros u v Hu Hv. apply Hk; [revert Hu|revert Hv]; rewrite placed_perm, <- Permutation_middle; done. }
  split; [done|]. etrans; [exact Hf|]. rewrite List.filter_app, placed_stable; try done.
  - rewrite <- app_assoc, <- List.filter_app. by rewrite <- List.filter_app.
  - intros y Hy. apply Hk; rewrite elem_of_app; [right; left|by left].
Qed.

End Insertion.

(** ** What [compare] and [sort] answer *)

Section Sorting.
Context {W exn : Type} `{CoreEnv W exn} `{!NumbersLaws W exn}.

#[local] Abbreviation F := (E (formatError exn) W).

Context (live : obj -> Prop) `{!Heap live} (doubles : bool).
Context (Htrue : live PROTO_TRUE) (Hfalse : live PROTO_FALSE).
Context (Hwords : isSmallInt PROTO_TRUE = false /\ isSmallInt PROTO_FALSE = false).

#[local] Abbreviation ord := (order doubles).

(** A value nested at most [n] deep, without a NaN in it, nor an integer beyond the
    SmallIntegers when there are doubles. *)
Definition ordered (n : nat) (v : obj) : Prop := (depth v <= n)%nat /\ sortable live doubles n v.

Lemma depth_items a items n : (depth (Vec a items) <= S n)%nat -> Forall (fun v => depth v <= n)%nat items.
Proof.
  cbn. intros Hd. apply Forall_forall. intros v Hv.
  assert (depth v <= list_max (map depth items))%nat; [|lia].
  pose proof (proj1 (list_max_le (map depth items) _) (le_n _)) as Hall. rewrite List.Forall_forall in Hall.
  apply Hall, in_map, list_elem_of_In, Hv.
Qed.

Lemma compareValues_fuel n m a b w : (depth a <= n)%nat -> (depth a <= m)%nat -> compareValues n a b w = compareValues m a b w.
Proof.
  revert m a b w. induction n as [|n IH]; intros m a b w Hn Hm; [destruct a; cbn in Hn; lia|].
  destruct m as [|m]; [destruct a; cbn in Hm; lia|]. cbn [compareValues].
  repeat (match goal with |- context [if ?x then _ else _] => destruct x; [done|] end).
  destruct a as [| | | | | |aa xs| | | | | |], b as [| | | | | |ab ys| | | | | |]; try done.
  destruct (negb _); [done|]. apply depth_items in Hn, Hm. revert ys w.
  induction xs as [|x xs IHxs]; intros [|y ys] w; try done.
  inversion Hn; inversion Hm; subst. unfold mbind, E_bind. rewrite (IH m x y w) by done.
  destruct (compareValues m x y w) as [[c|e] w']; [|done]. destruct (negb (c =? 0)); [done|]. by apply IHxs.
Qed.

Lemma compareOf_order n a b : ordered n a -> ordered n b -> answersOrder (compareOf a b) (ord n a b).
Proof.
  intros [Hda Ha] [_ Hb] w. unfold compareOf. rewrite (compareValues_fuel (depth a) n) by lia.
  by apply (compareValues_order live).
Qed.

(** [compare] answers [c] in any state, which it keeps. *)
Definition comparesTo (a b : obj) (c : Z) : Prop := forall w, compareOf a b w = (Ok c, w).

Lemma comparesTo_order n a b c (w : W) : ordered n a -> ordered n b -> comparesTo a b c -> ord n a b = Some c.
Proof.
  intros Ha Hb Hc. pose proof (compareOf_order n a b Ha Hb w) as E. rewrite (Hc w) in E.
  destruct (ord n a b); [by injection E as ->|by destruct E].
Qed.

Lemma order_comparesTo n a b c : ordered n a -> ordered n b -> ord n a b = Some c -> comparesTo a b c.
Proof. intros Ha Hb E w. pose proof (compareOf_order n a b Ha Hb w) as Ec. by rewrite E in Ec. Qed.

(** C34. [compare] is a total preorder on [ordered] values: nil, true and false, numbers,
    strings, keywords, symbols, and vectors of such values, where no double is a NaN and,
    if there are doubles, every integer fits a SmallInteger. Two values either compare one
    way and, with the sign turned, the other way, or both ways raise ClassCastException; a
    value compares 0 with itself; and what compares at or below zero composes, strictly if
    one of the two does. (Beyond these, [compare] does not compose: an integer and a double
    compare as doubles, two integers exactly; [CoreExamples.Examples.compare_not_transitive].) *)
Theorem compare_order (w : W) n a b c : ordered n a -> ordered n b -> ordered n c ->
  comparesTo a a 0 /\
  ((exists x, comparesTo a b x /\ comparesTo b a (- x)) \/
   (raisesClass (compareOf a b) "ClassCastException" /\ raisesClass (compareOf b a) "ClassCastException")) /\
  (forall x y, comparesTo a b x -> comparesTo b c y -> x <= 0 -> y <= 0 ->
     exists z, comparesTo a c z /\ z <= 0 /\ (z = 0 -> x = 0 /\ y = 0)).
Proof.
  intros Ha Hb Hc. assert (Hanti : forall u v x, ordered n u -> ordered n v -> ord n u v = Some x -> ord n v u = Some (- x)).
  { intros u v x [_ Hu] [_ Hv] E. by eapply (order_anti live). }
  split; [|split].
  - apply (order_comparesTo n); try done. destruct n; [by destruct Ha|]. cbn. unfold same. by rewrite Z.eqb_refl.
  - destruct (ord n a b) as [x|] eqn:E.
    { left. exists x. split; eapply order_comparesTo; eauto. }
    destruct (ord n b a) as [x|] eqn:E'; [by rewrite (Hanti b a x) in E|].
    right. split; intros w'; [pose proof (compareOf_order n a b Ha Hb w') as He; rewrite E in He|
      pose proof (compareOf_order n b a Hb Ha w') as He; rewrite E' in He]; destruct He as [text He]; by exists text, w'.
  - intros x y Hx Hy Hx0 Hy0. apply (comparesTo_order n _ _ _ w) in Hx, Hy; try done.
    destruct (order_trans live doubles Htrue Hfalse Hwords n a b c x y Hx Hy Hx0 Hy0) as (z & E & Hz); [apply Ha|apply Hb|apply Hc|].
    exists z. split; [by eapply order_comparesTo|done].
Qed.

(** Elements with their keys, which compare with one another. *)
Definition keyed (n : nat) (ps : list (obj * obj)) : Prop :=
  Forall (fun p => ordered n p.2) ps /\ forall p q, p ∈ ps -> q ∈ ps -> exists c, comparesTo p.2 q.2 c.

Definition keyLess (n : nat) (p q : obj * obj) : bool :=
  match ord n p.2 q.2 with Some c => c <? 0 | None => false end.

Definition lessByKey (p q : obj * obj) : F bool := c ← callComparator PROTO_NONE p.2 q.2; mret (c <? 0).

(** Not after, by their keys. *)
Definition inOrder (p q : obj * obj) : Prop := exists c, comparesTo p.2 q.2 c /\ c <= 0.

Lemma keyed_less n p q w : ordered n p.2 -> ordered n q.2 -> (exists c, comparesTo p.2 q.2 c) ->
  lessByKey p q w = (Ok (keyLess n p q), w).
Proof.
  intros Hp Hq [c Hc]. unfold lessByKey, callComparator, same. rewrite Z.eqb_refl.
  rewrite (bind_answers _ _ _ _ _ (Hc w)). unfold keyLess. by rewrite (comparesTo_order n _ _ c w).
Qed.

Lemma place_placed (less : obj * obj -> obj * obj -> F bool) lt x s w :
  (forall y, y ∈ s -> less x y w = (Ok (lt x y), w)) -> place less x s w = (Ok (placed lt x s), w).
Proof.
  induction s as [|y s IH]; intros Hless; [done|]. cbn [place placed].
  rewrite (bind_answers _ _ _ _ _ (Hless y ltac:(left))). destruct (lt x y); [done|].
  rewrite (bind_answers _ _ _ (placed lt x s) w); [done|]. apply IH. intros z Hz. apply Hless. by right.
Qed.

Lemma stableSort_placed (less : obj * obj -> obj * obj -> F bool) lt s l w :
  (forall x y, x ∈ s ++ l -> y ∈ s ++ l -> less x y w = (Ok (lt x y), w)) ->
  stableSortFrom less s l w = (Ok (placedAll lt s l), w).
Proof.
  revert s. induction l as [|x l IH]; intros s Hless; [done|]. cbn [stableSortFrom].
  assert (Hin : forall z, z ∈ placed lt x s ++ l -> z ∈ s ++ x :: l)
    by (intros z; rewrite placed_perm, <- Permutation_middle; done).
  rewrite (bind_answers _ _ _ (placed lt x s) w); [apply IH; auto|]. apply place_placed. intros y Hy.
  apply Hless; rewrite elem_of_app; [right; left|by left].
Qed.

Section Keys.
Context (w : W) (n : nat) (ps : list (obj * obj)) (Hps : keyed n ps).

Lemma key_ordered p : p ∈ ps -> ordered n p.2.
Proof. destruct Hps as [Hord _]. rewrite Forall_forall in Hord. apply Hord. Qed.

Lemma keys_order p q : p ∈ ps -> q ∈ ps -> exists c, comparesTo p.2 q.2 c /\ ord n p.2 q.2 = Some c /\ ord n q.2 p.2 = Some (- c).
Proof.
  intros Hp Hq. destruct (proj2 Hps p q Hp Hq) as [c Hc]. apply key_ordered in Hp, Hq. exists c. split; [done|].
  assert (E : ord n p.2 q.2 = Some c) by (by apply (comparesTo_order n _ _ c w)). split; [done|].
  destruct Hp as [_ Hsp], Hq as [_ Hsq]. by apply (order_anti live).
Qed.

Lemma keyLess_asym p q : p ∈ ps -> q ∈ ps -> keyLess n p q = true -> keyLess n q p = false.
Proof.
  intros Hp Hq. unfold keyLess. destruct (keys_order p q Hp Hq) as (c & _ & -> & ->). z_cases; lia || done.
Qed.

Lemma keyLess_le p q : p ∈ ps -> q ∈ ps -> keyLess n q p = false ->
  exists c, comparesTo p.2 q.2 c /\ ord n p.2 q.2 = Some c /\ c <= 0.
Proof.
  intros Hp Hq. unfold keyLess. destruct (keys_order p q Hp Hq) as (c & Hc & E & ->). intros Hl%Z.ltb_ge.
  exists c. split_and!; [done|done|lia].
Qed.

Lemma keyLess_trans p q r : p ∈ ps -> q ∈ ps -> r ∈ ps ->
  keyLess n q p = false -> keyLess n r q = false -> keyLess n r p = false.
Proof.
  intros Hp Hq Hr Hpq Hqr. destruct (keyLess_le p q Hp Hq Hpq) as (c & _ & Ec & Hc), (keyLess_le q r Hq Hr Hqr) as (d & _ & Ed & Hd).
  destruct (keys_order p r Hp Hr) as (e & _ & Ee & Ere). apply key_ordered in Hp as [_ Hp], Hq as [_ Hq], Hr as [_ Hr].
  destruct (order_trans live doubles Htrue Hfalse Hwords n _ _ _ c d Ec Ed Hc Hd Hp Hq Hr) as (z & Ez & Hz & _).
  unfold keyLess. rewrite Ere. apply Z.ltb_ge. rewrite Ez in Ee. injection Ee as ->. lia.
Qed.

Lemma keys_sorted : exists qs, stable_sort lessByKey ps w = (Ok qs, w) /\ qs ≡ₚ ps /\ StronglySorted inOrder qs /\
  forall k, (forall p q, p ∈ ps -> q ∈ ps -> k p = true -> k q = true -> comparesTo p.2 q.2 0) ->
    List.filter k qs = List.filter k ps.
Proof.
  exists (placedAll (keyLess n) [] ps). assert (HD : Forall (fun p => p ∈ ps) ps) by (by apply Forall_forall).
  pose proof (placedAll_sorted (keyLess n) (fun p => p ∈ ps) keyLess_asym keyLess_trans) as Hsorted.
  split; [|split; [by rewrite placedAll_perm|split]].
  - apply stableSort_placed. intros x y Hx Hy. apply keyed_less; [by apply key_ordered..|by apply Hps].
  - destruct (Hsorted (fun _ => false) [] ps) as [Hs _]; [constructor|done|constructor|done|].
    assert (Hall : Forall (fun p => p ∈ ps) (placedAll (keyLess n) [] ps)) by (by rewrite placedAll_perm).
    induction Hs as [|p qs Hs IH Hf]; [constructor|]. inversion Hall as [|? ? Hp Hqs]; subst. constructor; [by apply IH|].
    rewrite Forall_forall in *. intros q Hq. destruct (keyLess_le p q Hp (Hqs q Hq) (Hf q Hq)) as (c & Hc & _ & Hc0). by exists c.
  - intros k Hk. destruct (Hsorted k [] ps) as [_ Hf]; [constructor|done|constructor| |done].
    intros p q Hp Hq Hkp Hkq. unfold keyLess.
    rewrite (comparesTo_order n p.2 q.2 0 w); [done|by apply key_ordered..|by apply Hk].
Qed.

End Keys.

(** The list of these elements. *)
Definition answersList (r : result (formatError exn) obj * W) (items : list obj) : Prop :=
  exists v w, r = (Ok v, w) /\ isListValue v = true /\ sequenceItems v = items.

Lemma newList_items items w : answersList (newList items w) items.
Proof.
  destruct items as [|x items]; [by exists emptyListValue, w|]. unfold newList, newCell.
  destruct (allocateIn w) as [a w']. by eexists _, _.
Qed.

Lemma sortedList_keyed keyfn coll elems keys w w1 w2 n : seqToList coll w = (Ok elems, w1) ->
  (if same keyfn PROTO_NONE then mret elems else _ ← callContext (s2b "sort-by"); callEach keyfn elems) w1 = (Ok keys, w2) ->
  elems <> [] -> keyed n (zip elems keys) ->
  exists qs, answersList (sortedList keyfn PROTO_NONE coll w) (map fst qs) /\ qs ≡ₚ zip elems keys /\
    StronglySorted inOrder qs /\
    forall k, (forall p q, p ∈ zip elems keys -> q ∈ zip elems keys -> k p = true -> k q = true -> comparesTo p.2 q.2 0) ->
      List.filter k qs = List.filter k (zip elems keys).
Proof.
  intros Hcoll Hkeys Hne Hps. destruct (keys_sorted w2 n _ Hps) as (qs & Hsort & Hqs). exists qs. split; [|done].
  unfold sortedList. rewrite (bind_answers _ _ _ _ _ Hcoll). destruct elems as [|e elems]; [done|].
  rewrite (bind_answers _ _ _ _ _ Hkeys). unfold lessByKey in Hsort. rewrite (bind_answers _ _ _ _ _ Hsort). apply newList_items.
Qed.

(** C32. [sort] of [ordered] elements that compare with one another (no NaN among them,
    and no integer beyond the SmallIntegers when there are doubles) answers the list of
    them in order: a permutation of them, no element after one it compares below, and the
    elements that compare equal in the order they had. (A NaN compares 0 with every
    number, [CoreExamples.Examples.compare_nan]: that is no strict weak order, which
    [std::stable_sort] asks for, and the numbers around it may stay unsorted.) *)
Theorem sort_stable coll elems w w1 n : seqToList coll w = (Ok elems, w1) ->
  Forall (ordered n) elems -> (forall x y, x ∈ elems -> y ∈ elems -> exists c, comparesTo x y c) ->
  exists sorted, answersList (prim_sort [coll] w) sorted /\ sorted ≡ₚ elems /\
    StronglySorted (fun x y => exists c, comparesTo x y c /\ c <= 0) sorted /\
    forall k, (forall x y, x ∈ elems -> y ∈ elems -> k x = true -> k y = true -> comparesTo x y 0) ->
      List.filter k sorted = List.filter k elems.
Proof.
  intros Hcoll Hord Hcmp. destruct (decide (elems = [])) as [->|Hne].
  { exists []. split; [|by repeat constructor]. unfold prim_sort, sortedList.
    rewrite (bind_answers _ _ _ _ _ Hcoll). by exists emptyListValue, w1. }
  assert (Hzip : zip elems elems = map (fun x => (x, x)) elems) by (clear; induction elems; cbn; congruence).
  destruct (sortedList_keyed PROTO_NONE coll elems elems w w1 w1 n Hcoll) as (qs & Hans & Hperm & Hsort & Hst); [|done|..].
  { unfold same. by rewrite Z.eqb_refl. }
  { rewrite Hzip. split; [by apply Forall_map|]. intros p q Hp Hq.
    apply list_elem_of_fmap in Hp as (x & -> & Hx), Hq as (y & -> & Hy). by apply Hcmp. }
  exists (map fst qs). split; [done|]. rewrite Hzip in *.
  assert (Hdiag : Forall (fun p => p.2 = p.1) qs) by (rewrite Hperm; apply Forall_map, Forall_true; done).
  split; [rewrite Hperm, map_map, map_id; done|]. split.
  - clear -Hsort Hdiag. induction Hsort as [|p qs Hs IH Hf]; [constructor|]. inversion Hdiag as [|? ? Hp Hqs]; subst.
    cbn. constructor; [by apply IH|]. apply Forall_map. rewrite Forall_forall in *. intros q Hq.
    destruct (Hf q Hq) as (c & Hc & Hc0). rewrite Hp, (Hqs q Hq) in Hc. by exists c.
  - intros k Hk. specialize (Hst (fun p => k p.1)).
    assert (Hfm : forall l : list (obj * obj), List.filter k (map fst l) = map fst (List.filter (fun p => k p.1) l)).
    { clear. induction l as [|p l IH]; [done|]. cbn. destruct (k p.1); cbn; by rewrite IH. }
    rewrite Hfm, Hst, <- Hfm, map_map, map_id; [done|]. intros p q Hp Hq.
    apply list_elem_of_fmap in Hp as (x & -> & Hx), Hq as (y & -> & Hy). by apply Hk.
Qed.

End Sorting.
