(* ===== verification/Equality.v ===== *)
(** [=] and [not=] (runtime/Primitives.cpp) on values without doubles: [=] holds of the
    values that are one map key, and of no others. *)

From S2P Require Import Prelude Double Values Maps KeyEquality Exceptions Printer Reader PrintRead DataFormats Numbers CoreFacts.

#[local] Set Warnings "-register-all".

(** What is relied on of protoCore's order of two values: integers are equal by value,
    strings by content, and any other two values, doubles apart, only when identical. *)
Class EqualityLaws (W exn : Type) `{NumbersEnv W exn} : Prop := {
  partial_int a b x y : integerOf a = Some x -> integerOf b = Some y -> partialCompare a b = Some 0 <-> x = y;
  partial_text a b s t : partialCompare (Str a s) (Str b t) = Some 0 <-> s = t;
  partial_other a b : same a b = false -> isFloat a = false -> isFloat b = false ->
    isInteger a && isInteger b = false -> isString a && isString b = false -> partialCompare a b <> Some 0;
}.

Section Levels.
Context `{HashedLaws} (live : obj -> Prop) `{!Heap live}.

#[local] Abbreviation wf := (wf live).
#[local] Abbreviation eqv := (eqv live).

Lemma wf_level n N a : (n <= N)%nat -> wf n a -> wf N a.
Proof.
  intros Hn Ha. replace N with (N - n + n)%nat by lia. by apply (fuel_enough live n (N - n) a a Ha Ha).
Qed.

Lemma keyEquals_level n N a b : (n <= N)%nat -> wf n a -> wf n b -> keyEquals N a b = keyEquals n a b.
Proof.
  intros Hn Ha Hb. replace N with (N - n + n)%nat by lia. by apply (fuel_enough live n (N - n) a b Ha Hb).
Qed.

Lemma wfEntries_level n N m : (n <= N)%nat -> wfEntries live n m -> wfEntries live N m.
Proof.
  intros Hn Hm. induction Hn as [|N Hn IH]; [done|]. apply stable_entries; [done|by apply stable_all|done].
Qed.

Lemma eqv_level n N a b : (n <= N)%nat -> wf n a -> wf n b -> eqv N a b <-> eqv n a b.
Proof.
  intros Hn Ha Hb. unfold KeyEquality.eqv. rewrite (keyEquals_level n N a b) by done.
  split; intros (_ & _ & E); (split; [|split]); eauto using wf_level.
Qed.

Lemma mapGet_level n N m k : (n <= N)%nat -> wfEntries live n m -> wf n k -> mapGet N m k = mapGet n m k.
Proof.
  intros Hn Hm Hk. pose proof (wfEntries_level n N m Hn Hm) as HM. pose proof (wf_level n N k Hn Hk) as HK.
  apply option_eq. intros v. unfold mapGet.
  rewrite (get_Some live N (lawful_all live N)), (get_Some live n (lawful_all live n)) by done.
  split; intros (k' & Hin & He); exists k'; (split; [done|]); apply (eqv_level n N); try done; by apply (wf_entry live n m (k', v) Hm Hin).
Qed.

Lemma setEquals_level n N a b : (n <= N)%nat -> wfEntries live n (mapEntries a) -> wfEntries live n (mapEntries b) ->
  setEquals (clojureKeySemantics N) a b = setEquals (clojureKeySemantics n) a b.
Proof.
  intros Hn Ha Hb. apply eq_true_iff_eq.
  rewrite (setEquals_iff live N (lawful_all live N)) by eauto using wfEntries_level.
  rewrite (setEquals_iff live n (lawful_all live n)) by done.
  assert (Hon : forall k k', (forall x y, wf n x -> wf n y -> eqv k x y -> eqv k' x y) ->
    permuted (eqvKey live k) (mapEntries a) (mapEntries b) -> permuted (eqvKey live k') (mapEntries a) (mapEntries b)).
  { intros k k' Hkk. apply (permuted_on (fun e => wf n e.1 /\ wf n e.2)); [apply Ha|apply Hb|]. intros x y [] []. by apply Hkk. }
  split; (intros [|Hp]; [by left|right]); revert Hp; apply Hon; intros; by apply (eqv_level n N).
Qed.

End Levels.

Section Equality.
Context {W exn : Type} `{NumbersEnv W exn} `{!EqualityLaws W exn} `{!HashedLaws}.
Context (live : obj -> Prop) `{!Heap live}.

#[local] Abbreviation F := (E (formatError exn) W).
#[local] Abbreviation wf := (wf live).

(** No double among what [=] compares by its own rules (the elements of a set, and the
    keys of a map, it compares as keys), nor a list of the program's own, and every
    integer in its one form. *)
Fixpoint exact (n : nat) (v : obj) : Prop :=
  match n with
  | O => False
  | S n =>
      match v with
      | Dbl _ _ | PList _ _ => False
      | Big _ z => fitsSmallInt z = false
      | Embedded w => isSmallInt v = true -> exists z, w = smallIntWord z /\ fitsSmallInt z = true
      | LList _ items | Vec _ items | SeqObj _ items => Forall (exact n) items
      | MapObj _ m => Forall (fun e => exact n e.2) m
      | _ => True
      end
  end.

Definition comparable (n : nat) (v : obj) : Prop := wf n v /\ exact n v.

Lemma exact_integers n a b x y : exact n a -> exact n b -> integerOf a = Some x -> integerOf b = Some y -> same a b = false ->
  x = y <-> keyEquals (S n) a b = true.
Proof.
  intros Ha Hb Hx Hy Hs. rewrite keyEquals_view, Hs. destruct n; [done|].
  assert (Hsmall : forall w z, exact (S n) (Embedded w) -> integerOf (Embedded w) = Some z -> fitsSmallInt z = true /\ w = smallIntWord z).
  { intros w z Hw Hz. unfold integerOf in Hz. destruct (isSmallInt (Embedded w)) eqn:E; [|done].
    destruct (Hw E) as (z' & -> & Hf). injection Hz as <-. destruct (smallInt_word z' Hf) as [_ ->]. done. }
  destruct a as [wa| | |aa za| | | | | | | | |], b as [wb| | |ab zb| | | | | | | | |]; try done; cbn [viewOf orb].
  - apply Hsmall in Hx as [Hfx ->], Hy as [Hfy ->]; [|done..]. split; [|done]. intros ->. by rewrite same_refl in Hs.
  - apply Hsmall in Hx as [Hfx ->]; [|done]. injection Hy as <-. cbn in Hb. split; [congruence|done].
  - apply Hsmall in Hy as [Hfy ->]; [|done]. injection Hx as <-. cbn in Ha. split; [congruence|done].
  - injection Hx as <-. injection Hy as <-. by rewrite Z.eqb_eq.
Qed.

(** A value that is neither a collection nor a cell compared by its address. *)
Definition scalar (v : obj) : bool := match v with Embedded _ | Str _ _ | Big _ _ => true | _ => false end.

Lemma scalars_equal n a b : exact (S n) a -> exact (S n) b -> scalar a = true -> scalar b = true -> same a b = false ->
  bool_decide (partialCompare a b = Some 0) = keyEquals (S n) a b.
Proof.
  intros Ha Hb Hsa Hsb Hs. apply eq_true_iff_eq. rewrite bool_decide_eq_true.
  destruct (isInteger a && isInteger b) eqn:Ei.
  { apply andb_prop in Ei as [Hia Hib]. unfold isInteger in *.
    destruct (integerOf a) as [x|] eqn:Hx, (integerOf b) as [y|] eqn:Hy; try done.
    rewrite (partial_int a b x y Hx Hy), (exact_integers (S n) a b x y Ha Hb Hx Hy Hs), !keyEquals_view, Hs.
    by destruct a, b. }
  destruct (isString a && isString b) eqn:Et.
  { destruct a, b; try done. rewrite partial_text, keyEquals_view, Hs. cbn. by rewrite bool_decide_eq_true. }
  split; intros E.
  - apply partial_other in E; try done; (by destruct a) || (by destruct b).
  - exfalso. rewrite keyEquals_view, Hs in E. by destruct a, b.
Qed.

Lemma allEqual_step n x xs y ys : sequenceEquals (keyEquals n) (x :: xs) (y :: ys) =
  keyEquals n x y && sequenceEquals (keyEquals n) xs ys.
Proof.
  unfold sequenceEquals. cbn. destruct (keyEquals n x y); [done|]. cbn. by destruct (negb _).
Qed.

Lemma elements_agree n stack fuel xs ys :
  (forall a b, comparable n a -> comparable n b -> valuesEqual stack fuel a b = Ok (keyEquals n a b)) ->
  Forall (comparable n) xs -> Forall (comparable n) ys ->
  (fix elements (xs ys : list obj) : result (formatError exn) bool :=
     match xs, ys with
     | x :: xs, y :: ys =>
         equal ← valuesEqual stack fuel x y;
         if equal : bool then elements xs ys else mret false
     | [], [] => mret true
     | _, _ => mret false
     end) xs ys = Ok (sequenceEquals (keyEquals n) xs ys).
Proof.
  intros IH Hxs. revert ys. induction Hxs as [|x xs Hx _ IHxs]; intros [|y ys] Hys; try done.
  inversion Hys; subst. rewrite allEqual_step, IH by done. cbn. destruct (keyEquals n x y); [by apply IHxs|done].
Qed.

Lemma members_agree n stack fuel m m' : (n <= fuel)%nat ->
  (forall a b, comparable n a -> comparable n b -> valuesEqual stack fuel a b = Ok (keyEquals n a b)) ->
  wfEntries live n m' -> (forall e, e ∈ m -> wf n e.1 /\ comparable n e.2) -> Forall (fun e => exact n e.2) m' ->
  (fix members (es : entries) : result (formatError exn) bool :=
     match es with
     | [] => mret true
     | e :: es =>
         match mapGet fuel m' e.1 with
         | None => mret false
         | Some mine =>
             equal ← valuesEqual stack fuel e.2 mine;
             if equal : bool then members es else mret false
         end
     end) m = Ok (forallb (compareEntryAsKey (clojureKeySemantics n) m' true) m).
Proof.
  intros Hn IH Hm' Hm Hx. induction m as [|e m IHm]; [done|]. cbn [forallb]. destruct (Hm e) as [Hk Hv]; [by left|].
  rewrite (mapGet_level live n fuel) by done. unfold compareEntryAsKey at 1. cbn [negb].
  change (hashedGet (clojureKeySemantics n) m' e.1) with (mapGet n m' e.1).
  destruct (mapGet n m' e.1) as [mine|] eqn:G; [|done].
  assert (Hmine : comparable n mine).
  { split; [by eapply (mapGet_wf live)|]. apply (get_Some live n (lawful_all live n)) in G as (k' & Hin & _); [|done..].
    rewrite Forall_forall in Hx. apply (Hx _ Hin). }
  rewrite IH by done. cbn. destruct (keyEquals n e.2 mine); [|done]. apply IHm. intros e' He'. apply Hm. by right.
Qed.

Lemma comparable_items n items v : (v = LList (address v) items \/ v = Vec (address v) items \/ v = SeqObj (address v) items) ->
  comparable (S n) v -> Forall (comparable n) items.
Proof.
  intros Hv [[_ Hw] Hx]. apply Forall_forall. intros x Hin.
  destruct Hv as [E|[E|E]]; rewrite E in Hw, Hx; cbn in Hw, Hx; rewrite Forall_forall in Hw, Hx; by split; auto.
Qed.

Lemma maps_agree n stack fuel m m' : (n <= fuel)%nat ->
  (forall a b, comparable n a -> comparable n b -> valuesEqual stack fuel a b = Ok (keyEquals n a b)) ->
  wfEntries live n m -> wfEntries live n m' -> Forall (fun e => exact n e.2) m -> Forall (fun e => exact n e.2) m' ->
  (if negb (length m =? length m')%nat then mret false
   else
     (fix members (es : entries) : result (formatError exn) bool :=
        match es with
        | [] => mret true
        | e :: es =>
            match mapGet fuel m' e.1 with
            | None => mret false
            | Some mine =>
                equal ← valuesEqual stack fuel e.2 mine;
                if equal : bool then members es else mret false
            end
        end) m) = Ok (mapKeyEquals (clojureKeySemantics n) m m').
Proof.
  intros Hn IH Hm Hm' Hx Hx'. unfold mapKeyEquals. destruct (negb _); [done|].
  erewrite fold_stop by (intros; reflexivity). apply members_agree; try done.
  intros e He. rewrite Forall_forall in Hx. split; [|split]; [apply (wf_entry live n m e Hm He)..|by apply Hx].
Qed.

Lemma valuesEqual_agrees n stack fuel a b : (n <= stack)%nat -> (n <= fuel)%nat ->
  comparable n a -> comparable n b -> valuesEqual stack fuel a b = Ok (keyEquals n a b).
Proof.
  revert stack a b. induction n as [|n IH]; intros stack a b Hs Hf Ha Hb; [by destruct Ha|].
  destruct stack as [|stack]; [lia|]. cbn [valuesEqual].
  destruct (same a b) eqn:Es; [by rewrite keyEquals_view, Es|].
  destruct (scalar a && scalar b) eqn:Esc.
  { apply andb_prop in Esc as [Hsa Hsb]. rewrite <- scalars_equal; [by destruct a, b|apply Ha|apply Hb|done..]. }
  rewrite keyEquals_view, Es. cbn [orb].
  assert (IHn : forall a b, comparable n a -> comparable n b -> valuesEqual stack fuel a b = Ok (keyEquals n a b))
    by (intros; apply IH; done || lia).
  destruct a as [| | | | |aa xs|aa xs|aa xs|aa m|aa m| | |], b as [| | | | |ab ys|ab ys|ab ys|ab m'|ab m'| | |];
    try reflexivity; try (by destruct Ha as [_ []]); try (by destruct Hb as [_ []]); try discriminate Esc.
  all: cbn [isMap isSet isVector isListValue isSeqLike isOpaque orb andb negb viewOf mapEntries sequenceItems].
  all: try (apply (comparable_items n xs) in Ha; [|by auto]; apply (comparable_items n ys) in Hb; [|by auto];
    first [by apply elements_agree|destruct (negb _) eqn:El; [unfold sequenceEquals; by rewrite El|by apply elements_agree]]).
  - destruct Ha as [[_ Hm] Hx], Hb as [[_ Hm'] Hx']. apply maps_agree; done || lia.
  - destruct Ha as [[_ Hm] _], Hb as [[_ Hm'] _]. cbn. rewrite (setEquals_level live n fuel); done || lia.
Qed.

(** C33. [=] holds of arguments without doubles exactly when they are one map key, all of
    them, and [not=] when they are not: integers of one value, strings of one text, a
    list, a vector and a seq of equal elements, maps of equal keys with equal values,
    sets of the same keys. *)
Theorem equal_when_one_key n stack fuel a args w : (n <= stack)%nat -> (n <= fuel)%nat ->
  Forall (comparable n) (a :: args) ->
  prim_eq stack fuel (a :: args) w = (Ok (boolean (forallb (keyEquals n a) args)), w) /\
  prim_not_eq stack fuel (a :: args) w = (Ok (boolean (negb (forallb (keyEquals n a) args))), w).
Proof.
  intros Hs Hf Hargs. inversion Hargs as [|? ? Ha Hrest]; subst.
  assert (Heq : forall b, comparable n b -> keyEquals n a b = true ->
    equalFrom stack fuel b args w = (Ok (forallb (keyEquals n a) args), w)).
  { clear Hargs. induction Hrest as [|c args Hc _ IH]; intros b Hb Hab; [done|]. cbn [equalFrom forallb].
    assert (Hbc : keyEquals n b c = keyEquals n a c).
    { pose proof (lawful_all live n) as L. destruct Ha as [Ha _], Hb as [Hb _], Hc as [Hc _]. apply eq_true_iff_eq.
      split; intros E; [by apply (law_trans _ n L a b c)|apply (law_trans _ n L b a c); try done; by apply (law_sym _ n L)]. }
    rewrite (bind_answers (fromResult _) _ w (keyEquals n b c) w) by (unfold fromResult; by rewrite (valuesEqual_agrees n)).
    rewrite Hbc. destruct (keyEquals n a c) eqn:E; [by apply IH|done]. }
  assert (E : equalArgs stack fuel (a :: args) w = (Ok (forallb (keyEquals n a) args), w)).
  { apply Heq; [done|]. destruct Ha as [Ha _]. by apply (law_refl _ n (lawful_all live n)). }
  split; unfold prim_eq, prim_not_eq; by rewrite (bind_answers _ _ _ _ _ E).
Qed.

End Equality.
