(* ===== verification/DemoCore.v ===== *)
(** A concrete environment for the numbers and the core functions, over that of the data
    formats: exact integers of any size, a double for every SmallInteger, clocks that
    stand still. *)

From S2P Require Import Prelude Double Values Maps KeyEquality Exceptions Printer Reader PrintRead DemoReader DataFormats DemoJson Numbers CorePrims CoreFacts Equality.

#[local] Set Warnings "-register-all".

Module Demo.
Import ListMaps DemoReader.Demo DemoJson.Demo.

#[local] Abbreviation F := (E (formatError bytes) demoWorld).

(** The pattern of the double that an integer of at most 53 bits is. *)
Definition smallMagnitude (n : Z) : Z := (1022 + Z.log2 n) * 2 ^ 52 + Z.shiftl n (52 - Z.log2 n).
Definition smallDouble (z : Z) : Z :=
  if z =? 0 then 0 else withSign (z <? 0) (smallMagnitude (Z.abs z)).

Example smallDouble_one : smallDouble 1 = strtod (s2b "1").
Proof. vm_compute. reflexivity. Qed.

Example smallDouble_seven : smallDouble (-7) = strtod (s2b "-7").
Proof. vm_compute. reflexivity. Qed.

Definition doubleOf (v : obj) : Z := match v with Dbl _ bits => bits | _ => smallDouble (default 0 (integerOf v)) end.

(** An operation on integers, and on doubles when one of the two is a double. *)
Definition arith (f g : Z -> Z -> Z) (a b : obj) : F obj :=
  match integerOf a, integerOf b with
  | Some x, Some y => fromLong (f x y)
  | _, _ => fromDouble (g (doubleOf a) (doubleOf b))
  end.

Definition sign (x y : Z) : Z := (if y <? x then 1 else 0) - (if x <? y then 1 else 0).

#[export] Instance demoNumbers : NumbersEnv demoWorld bytes := {
  protoAdd := arith Z.add dadd;
  protoSubtract := arith Z.sub (fun x y => dadd x (dneg y));
  protoMultiply := arith Z.mul (fun x _ => x);
  protoDivide a b := match integerOf b with Some 0 => divideByZero | _ => arith Z.quot ddiv a b end;
  protoCompare := sign;
  partialCompare a b :=
    match integerOf a, integerOf b, a, b with
    | Some x, Some y, _, _ => Some (sign x y)
    | _, _, Str _ s, Str _ t => Some (compareBytes s t)
    | _, _, _, _ => None
    end;
  integerAsDouble := smallDouble;
}.

#[export] Instance demoCore : CoreEnv demoWorld bytes := {
  collectionItems v w := (match v with SetObj _ m => Some (map fst m) | _ => None end, w);
  addNamespaceAlias alias ns w := w;
  currentTimeMillis w := 0;
  nanoTime w := 0;
}.

(** *** The laws *)

Lemma magnitude_bounds n : 0 < n <= 2 ^ 53 ->
  0 <= Z.log2 n <= 53 /\ 2 ^ 52 <= Z.shiftl n (52 - Z.log2 n) < 2 ^ 53.
Proof.
  intros Hn. pose proof (Z.log2_nonneg n). pose proof (Z.log2_spec n ltac:(lia)) as Hs.
  pose proof (Z.log2_le_mono n (2 ^ 53) ltac:(lia)) as Hl. rewrite Z.log2_pow2 in Hl by lia. split; [lia|].
  destruct (Z.eq_dec (Z.log2 n) 53) as [E|Hne].
  { rewrite E in *. assert (n = 2 ^ 53) as -> by lia. by vm_compute. }
  rewrite Z.shiftl_mul_pow2 by lia. replace (2 ^ 52) with (2 ^ Z.log2 n * 2 ^ (52 - Z.log2 n)) by (rewrite <- Z.pow_add_r by lia; f_equal; lia).
  replace (2 ^ 53) with (2 ^ Z.succ (Z.log2 n) * 2 ^ (52 - Z.log2 n)) by (rewrite <- Z.pow_add_r by lia; f_equal; lia).
  pose proof (Z.pow_pos_nonneg 2 (52 - Z.log2 n)). nia.
Qed.

Lemma magnitude_mono n m : 0 < n < m -> m <= 2 ^ 53 -> smallMagnitude n < smallMagnitude m.
Proof.
  intros Hn Hm. destruct (magnitude_bounds n ltac:(lia)) as [Hen Hbn], (magnitude_bounds m ltac:(lia)) as [Hem Hbm].
  unfold smallMagnitude. pose proof (Z.log2_le_mono n m ltac:(lia)) as Hle.
  destruct (Z.eq_dec (Z.log2 n) (Z.log2 m)) as [E|Hne]; [|lia].
  rewrite E in *. destruct (Z.eq_dec (Z.log2 m) 53) as [E3|].
  { pose proof (Z.log2_spec n ltac:(lia)). rewrite E, E3 in *. lia. }
  rewrite !Z.shiftl_mul_pow2 by lia. pose proof (Z.pow_pos_nonneg 2 (52 - Z.log2 m)). nia.
Qed.

Lemma magnitude_range n : 0 < n <= 2 ^ 53 -> 0 < smallMagnitude n < double_inf.
Proof. intros Hn. pose proof (magnitude_bounds n Hn). unfold smallMagnitude, double_inf. lia. Qed.

Lemma key_withSign negative m : 0 < m < double_inf ->
  isnan (withSign negative m) = false /\ dkey (withSign negative m) = if negative then - m else m.
Proof.
  intros Hm. unfold double_inf in Hm. unfold isnan, dkey, signbit, withSign, double_inf.
  assert (Hl : forall x, Z.land x (sign_bit - 1) = x mod 2 ^ 63) by (intros x; change (sign_bit - 1) with (Z.ones 63); by apply Z.land_ones).
  rewrite Hl. unfold sign_bit. destruct negative.
  - replace ((0x8000000000000000 + m) mod 2 ^ 63) with m by (apply (Z.mod_unique _ _ 1); lia). split; z_cases; done || lia.
  - rewrite Z.mod_small by lia. split; z_cases; done || lia.
Qed.

(** The order of the doubles of small integers. *)
Lemma smallDouble_key z : fitsSmallInt z = true ->
  isnan (smallDouble z) = false /\
  dkey (smallDouble z) = if z =? 0 then 0 else if z <? 0 then - smallMagnitude (- z) else smallMagnitude z.
Proof.
  unfold fitsSmallInt, smallDouble. intros [H1%Z.leb_le H2%Z.leb_le]%andb_prop.
  destruct (Z.eqb_spec z 0) as [->|Hz]; [done|].
  destruct (key_withSign (z <? 0) (smallMagnitude (Z.abs z))) as [Hn ->]; [apply magnitude_range; lia|]. split; [done|].
  destruct (Z.ltb_spec z 0); do 2 f_equal; lia.
Qed.

Lemma smallDouble_mono x y : fitsSmallInt x = true -> fitsSmallInt y = true -> x < y ->
  dkey (smallDouble x) < dkey (smallDouble y).
Proof.
  intros Hx Hy Hl. destruct (smallDouble_key x Hx) as [_ ->], (smallDouble_key y Hy) as [_ ->].
  unfold fitsSmallInt in *. rewrite andb_true_iff, !Z.leb_le in Hx, Hy.
  pose proof (magnitude_range (- x)). pose proof (magnitude_range y).
  pose proof (magnitude_mono (- y) (- x)). pose proof (magnitude_mono x y).
  z_cases.
Qed.

Lemma smallDouble_order x y : fitsSmallInt x = true -> fitsSmallInt y = true ->
  dkey (smallDouble x) < dkey (smallDouble y) <-> x < y.
Proof.
  intros Hx Hy. split; [|by apply smallDouble_mono]. intros Hl.
  destruct (Z.lt_trichotomy x y) as [|[->|Hgt]]; [done|lia|]. pose proof (smallDouble_mono y x Hy Hx Hgt). lia.
Qed.

Lemma arith_int f g a b x y w : integerOf a = Some x -> integerOf b = Some y ->
  exists v w', arith f g a b w = (Ok v, w') /\ integerOf v = Some (f x y).
Proof. intros Ha Hb. unfold arith. rewrite Ha, Hb. apply fromLong_int. Qed.

#[export] Instance demoNumbers_laws : NumbersLaws demoWorld bytes.
Proof.
  split; cbn; try (intros; by apply arith_int).
  - intros a b x y w Ha Hb Hy. rewrite Hb. destruct y; [done|by apply arith_int..].
  - intros a b x w Ha Hb. rewrite Hb. by eexists.
  - done.
  - intros x Hx. by apply smallDouble_key.
  - apply smallDouble_order.
Qed.

Lemma compareBytes_zero s t : compareBytes s t = 0 <-> s = t.
Proof.
  split; [|intros ->; induction t as [|b t IH]; cbn; [done|by rewrite Z.ltb_irrefl]].
  revert t. induction s as [|b s IH]; intros [|c t]; cbn; try done. z_cases; try done.
  intros E. rewrite (IH t E). f_equal. apply u8_inj. lia.
Qed.

#[export] Instance demoNumbers_equality : EqualityLaws demoWorld bytes.
Proof.
  split; cbn.
  - intros a b x y Ha Hb. rewrite Ha, Hb. unfold sign. split; [intros [= E]; revert E; z_cases|intros ->; by rewrite Z.ltb_irrefl].
  - intros a b s t. split; [intros [= E]; by apply compareBytes_zero|intros ->; f_equal; by apply compareBytes_zero].
  - intros a b _ _ _ Hi Ht. unfold isInteger in Hi. destruct (integerOf a), (integerOf b), a, b; done.
Qed.

End Demo.
