(* ===== verification/CoreExamples.v ===== *)
(** The core functions on concrete values, and their theorems applied there. *)

From stdpp Require Import sorting.
From S2P Require Import Prelude Double Values Maps KeyEquality Exceptions Printer Reader PrintRead DemoReader DataFormats DemoJson Numbers CorePrims CoreFacts CompareOrder Equality DemoCore.

#[local] Set Warnings "-register-all".

Module Examples.
Import ListMaps DemoReader.Demo DemoJson.Demo DemoCore.Demo.

Definition int (z : Z) : obj := if fitsSmallInt z then Embedded (smallIntWord z) else Big (2 ^ 70 + z) z.
Definition dbl (a : Z) (text : string) : obj := Dbl a (strtod (s2b text)).
Definition vec (a : Z) (items : list obj) : obj := Vec a items.
Definition w0 : demoWorld := startWorld [].

(** The function of this name on these arguments. *)
Definition core (name : string) (args : list obj) : bytes :=
  match find (fun p => bool_decide (p.1 = s2b name)) kCorePrims with
  | Some (_, f) => shown (f args w0)
  | None => s2b "no such function"
  end.

Example ex_mod : core "mod" [int (-7); int 2] = s2b "1".
Proof. vm_compute. reflexivity. Qed.

Example ex_rem : core "rem" [int (-7); int 2] = s2b "-1".
Proof. vm_compute. reflexivity. Qed.

Example ex_quot_large : core "quot" [int (2 ^ 80); int (-3)] = s2b "-402975273204876391568725".
Proof. vm_compute. reflexivity. Qed.

Example ex_mod_large : core "mod" [int (- 2 ^ 80); int (2 ^ 60 + 1)] = to_string ((- 2 ^ 80) mod (2 ^ 60 + 1)).
Proof. vm_compute. reflexivity. Qed.

Example ex_divide : core "quot" [int 1; int 0] = s2b "ArithmeticException: Divide by zero".
Proof. vm_compute. reflexivity. Qed.

Example ex_mod_double : match prim_mod [dbl 64 "-7.5"; int 2] w0 with (Ok (Dbl _ d), _) => d | _ => 0 end = strtod (s2b "0.5").
Proof. vm_compute. reflexivity. Qed.

Example ex_sort : core "sort" [vec 64 [int 3; int (-1); int (2 ^ 90); int 2]] = s2b "(-1 2 3 1237940039285380274899124224)".
Proof. vm_compute. reflexivity. Qed.

Example ex_compare : core "compare" [vec 64 [int 1; str (s2b "b")]; vec 128 [int 1; Str 192 (s2b "a")]] = s2b "1".
Proof. vm_compute. reflexivity. Qed.

(** Outside [compare_order] and [sort_stable]: an integer beyond 2^53 beside a double, and
    a NaN. *)
Example compare_not_transitive :
  core "compare" [int (2 ^ 60 + 1); dbl 64 "1152921504606846976"] = s2b "0" /\
  core "compare" [dbl 64 "1152921504606846976"; int (2 ^ 60)] = s2b "0" /\
  core "compare" [int (2 ^ 60 + 1); int (2 ^ 60)] = s2b "1".
Proof. vm_compute. done. Qed.

Example compare_nan :
  let nan := Dbl 128 0x7FF8000000000000 in
  core "compare" [int 3; nan] = s2b "0" /\ core "compare" [nan; int 1] = s2b "0" /\
  core "compare" [int 3; int 1] = s2b "1".
Proof. vm_compute. done. Qed.

Example ex_compare_kinds : core "compare" [int 1; str (s2b "a")] =
  s2b "ClassCastException: compare: an integer cannot be compared with a string".
Proof. vm_compute. reflexivity. Qed.

Example ex_split_lines : core "split-lines" [str (s2b "a" ++ [x0d; x0a] ++ s2b "b" ++ [x0a; x0a])] =
  [x5b; x22] ++ s2b "a" ++ [x22] ++ s2b " " ++ [x22] ++ s2b "b" ++ [x22; x5d].
Proof. vm_compute. reflexivity. Qed.

Example ex_bigint : core "bigint" [str (s2b "-123456789012345678901234567890")] = s2b "-123456789012345678901234567890".
Proof. vm_compute. reflexivity. Qed.

Example ex_parse_long : core "parse-long" [str (s2b "+12")] = s2b "12" /\
  core "parse-long" [str (s2b "9223372036854775808")] = s2b "nil" /\ core "parse-long" [str (s2b "1 ")] = s2b "nil".
Proof. vm_compute. done. Qed.

(** Bytes that are no ASCII are trimmed as spaces are. *)
Example ex_parse_double : parseDouble ([xc3; xa9] ++ s2b "1.5") = Some (strtod (s2b "1.5")).
Proof. vm_compute. reflexivity. Qed.

Example ex_frequencies : core "frequencies" [vec 64 [int 1; vec 128 [int 2]; int 1; LList 192 [int 2]]] = s2b "{1 2, [2] 2}".
Proof. vm_compute. reflexivity. Qed.

Example ex_require : core "require" [Named 64 (s2b "foo.bar-baz")] =
  s2b "FileNotFoundException: Could not locate foo/bar_baz__init.class, foo/bar_baz.clj or foo/bar_baz.cljc on classpath. (protoClojure provides clojure.core, clojure.string, clojure.set, clojure.java.io, clojure.java.shell, clojure.edn, cheshire.core and clojure.data.json; D52)".
Proof. vm_compute. reflexivity. Qed.

(** *** The theorems *)

Lemma integer_arithmetic_witness :
  answersInt (prim_plus [int 1; int (2 ^ 60); int (-5)]) (1 + 2 ^ 60 - 5) /\
  answersInt (prim_minus [int 1; int (2 ^ 60); int (-5)]) (1 - 2 ^ 60 + 5) /\
  answersInt (prim_div [int 1; int (2 ^ 60); int (-5)]) 0.
Proof.
  destruct (integer_arithmetic [int (2 ^ 60); int (-5)] [2 ^ 60; -5] (int 1) 1) as (Hp & _ & Hm & Hd & _);
    [by repeat constructor|done|]. split; [exact Hp|]. split; [exact Hm|]. apply Hd; [done|]. rewrite !elem_of_cons, elem_of_nil. lia.
Defined.

Lemma division_witness :
  answersInt (prim_mod [int (-7); int (2 ^ 60)]) (2 ^ 60 - 7) /\
  raisesClass (prim_rem [int (-7); int 0]) "ArithmeticException".
Proof.
  split.
  - destruct (division (int (-7)) (int (2 ^ 60)) (-7) (2 ^ 60) eq_refl eq_refl) as [H _]. by apply H.
  - destruct (division (int (-7)) (int 0) (-7) 0 eq_refl eq_refl) as [_ H]. by apply H.
Defined.

(** Doubles and small integers, and vectors of them. *)
Definition one_ : obj := dbl 64 "1".
Definition half : obj := dbl 128 "-0.5".
Definition pair : obj := vec 192 [int 1; half].
Definition pair' : obj := vec 256 [one_; int 0].

Definition sortHeap (v : obj) : Prop := v ∈ [PROTO_NONE; PROTO_TRUE; PROTO_FALSE; int 0; int 1; int 2; one_; half; pair; pair'].

#[export] Instance sortHeap_heap : Heap sortHeap.
Proof.
  intros a b Ha Hb. unfold sortHeap in *. rewrite !elem_of_cons, elem_of_nil in Ha, Hb. intros E.
  destruct_or! Ha; destruct_or! Hb; try done; subst a b; done || discriminate E.
Qed.

Ltac in_heap := unfold sortHeap; rewrite !elem_of_cons; tauto.

Definition sortElems : list obj := [int 2; one_; int 1; half; PROTO_NONE].

Lemma sort_ordered v : v ∈ pair :: pair' :: sortElems -> ordered sortHeap true 2 v.
Proof.
  unfold sortElems. rewrite !elem_of_cons. intros Hv. destruct_or! Hv; [subst v..|by apply not_elem_of_nil in Hv].
  all: split; [vm_compute; lia|]; cbn.
  all: repeat first [in_heap | split | done | apply Forall_cons | apply Forall_nil | by right].
Qed.

Lemma true_live : sortHeap PROTO_TRUE.
Proof. in_heap. Qed.

Lemma false_live : sortHeap PROTO_FALSE.
Proof. in_heap. Qed.

Definition result_of (x y : obj) : Z := match compareOf x y w0 with (Ok c, _) => c | _ => 0 end.

Lemma sort_comparable x y : x ∈ sortElems -> y ∈ sortElems -> exists c, comparesTo (W := demoWorld) (exn := bytes) x y c.
Proof.
  unfold sortElems. rewrite !elem_of_cons, !elem_of_nil. intros Hx Hy.
  exists (result_of x y). destruct_or! Hx; destruct_or! Hy; try done; subst x y; intros w; vm_compute; reflexivity.
Qed.

Lemma compare_order_witness :
  comparesTo (W := demoWorld) (exn := bytes) pair pair' (-1) /\ comparesTo (W := demoWorld) (exn := bytes) pair' pair 1.
Proof.
  destruct (compare_order (H := demoFormats) sortHeap true true_live false_live (conj eq_refl eq_refl) w0 2 pair pair' pair') as (_ & Hc & _);
    [apply sort_ordered; by repeat constructor..|].
  destruct Hc as [(x & Hx & Hy)|[Hr _]].
  - pose proof (Hx w0) as E. vm_compute in E. injection E as <-. by split.
  - destruct (Hr w0) as (text & w' & E). vm_compute in E. discriminate E.
Defined.

(** The elements that compare equal stay in order: the double before the integer. *)
Lemma sort_stable_witness : exists sorted, answersList (prim_sort [vec 64 sortElems] w0) sorted /\
  sorted ≡ₚ sortElems /\ List.filter (fun v => same v one_ || same v (int 1)) sorted = [one_; int 1].
Proof.
  destruct (sort_stable (H := demoFormats) sortHeap true true_live false_live (conj eq_refl eq_refl) (vec 64 sortElems) sortElems w0 w0 2 eq_refl)
    as (sorted & Hs & Hp & _ & Hk).
  - apply Forall_forall. intros v Hv. apply sort_ordered. by do 2 right.
  - exact sort_comparable.
  - exists sorted. split; [exact Hs|]. split; [exact Hp|]. rewrite Hk; [vm_compute; reflexivity|].
    unfold sortElems. intros x y Hx Hy. rewrite !elem_of_cons, !elem_of_nil in Hx, Hy.
    destruct_or! Hx; destruct_or! Hy; try done; subst x y; intros E1 E2; try (vm_compute in E1; discriminate E1);
      try (vm_compute in E2; discriminate E2); intros w; vm_compute; reflexivity.
Defined.

Ltac demo_exact := cbn; repeat apply Forall_cons_2; try apply Forall_nil; cbn; try done; try (intros _; by exists 1).

(** Maps of equal keys, one of them a vector in the one map and a list in the other. *)
Lemma equal_when_one_key_witness :
  prim_eq (W := demoWorld) (exn := bytes) 4 4 [mapV; mapL] w0 = (Ok PROTO_TRUE, w0) /\
  prim_not_eq (W := demoWorld) (exn := bytes) 4 4 [mapV; mapL] w0 = (Ok PROTO_FALSE, w0).
Proof.
  destruct (equal_when_one_key (W := demoWorld) (exn := bytes) demoHeap 3 4 4 mapV [mapL] w0) as [He Hn]; [lia|lia| |].
  - repeat apply Forall_cons_2; [split|split|constructor].
    + apply demo_mapV.
    + demo_exact.
    + apply demo_mapL.
    + demo_exact.
  - rewrite He, Hn. split; vm_compute; reflexivity.
Defined.

#[local] Instance demoNumerals : NumeralLaw.
Proof. intros z. apply to_string_value. Qed.

Lemma numerals_parse_witness :
  answersInt (prim_parse_long [str (s2b "-12")]) (-12) /\
  answersInt (prim_bigint [str (to_string (2 ^ 100))]) (2 ^ 100).
Proof.
  split.
  - destruct (numerals_parse (W := demoWorld) (exn := bytes) 64 (s2b "-12")) as (H & _ & _). apply (H (-12)).
    apply (to_string_spells (-12)).
  - destruct (numerals_parse (W := demoWorld) (exn := bytes) 64 (to_string (2 ^ 100))) as (_ & _ & H). by apply H.
Defined.

End Examples.
