(* ===== verification/Atoms.v ===== *)
(** Atoms (runtime/Primitives.cpp: [atom], [deref], [swap!], [reset!],
    [compare-and-set!], [add-watch], [remove-watch]) as threads run them: every access
    of an atom's attributes is one step, calls of functions come between steps, and the
    steps of any number of calls interleave. *)

From S2P Require Import Prelude Values Maps KeyEquality Exceptions Printer Reader DataFormats.

#[local] Set Warnings "-register-all".

Section Atoms.
Context {W exn : Type} `{FormatsEnv W exn}.

(** ** Calls

    What a call of one of the functions does, once its arguments are checked; [CAtOnce]
    one that has ended as it began. *)
Inductive call :=
| CAtOnce
| CSwap (f : obj) (extras : list obj)
| CReset (nv : obj)
| CCas (expected nv : obj)
| CAddWatch (k f : obj)
| CRemoveWatch (k : obj).

Inductive primitive := PAtom | PDeref | PSwap | PReset | PCas | PAddWatch | PRemoveWatch.

Definition isAtom (v : obj) : bool := match v with Cell _ CAtom _ => true | _ => false end.

(** [throwError] with the name of the function first. *)
Definition refused {A} (text : string) : result (formatError exn) A :=
  fst (throwError (A := A) (s2b text) tt).

Definition onAtom (who : string) (expects : string) (arityOk : bool) (a : obj) (c : call)
  : result (formatError exn) (obj * call) :=
  if negb arityOk then refused (who ++ ": expects " ++ expects)
  else if negb hasCallContext then refused (who ++ ": no active VM context")
  else if negb (isAtom a) then refused (who ++ ": not an atom")
  else Ok (a, c).

Definition prim_swap_bang (args : list obj) : result (formatError exn) (obj * call) :=
  let extras := drop 2 args in
  match onAtom "swap!" "(swap! atom f & args)" (2 <=? length args)%nat (argAt args 0) (CSwap (argAt args 1) extras) with
  | Ok r => if (15 <? length extras)%nat then refused "swap!: >15 extra args not supported" else Ok r
  | Throw e => Throw e
  end.
Definition prim_reset_bang (args : list obj) :=
  onAtom "reset!" "(reset! atom new-value)" (length args =? 2)%nat (argAt args 0) (CReset (argAt args 1)).
Definition prim_compare_and_set_bang (args : list obj) :=
  onAtom "compare-and-set!" "(compare-and-set! atom old new)" (length args =? 3)%nat (argAt args 0)
    (CCas (argAt args 1) (argAt args 2)).
Definition prim_add_watch (args : list obj) :=
  onAtom "add-watch" "(add-watch atom key fn)" (length args =? 3)%nat (argAt args 0) (CAddWatch (argAt args 1) (argAt args 2)).
Definition prim_remove_watch (args : list obj) :=
  onAtom "remove-watch" "(remove-watch atom key)" (length args =? 2)%nat (argAt args 0) (CRemoveWatch (argAt args 1)).

(** ** The state

    Where a call is: before its first access of the atom, while its function runs on the
    value read, about to store, about to read the watches, with watches still to run, or
    ended. *)
Inductive stage :=
| Begin
| Calling (old : obj)
| Storing (old neu : obj)
| StoringWatches (old : option obj) (neu : obj)
| Firing (old neu ret : obj)
| Watching (kf : list obj) (old neu ret : obj)
| Done (r : result (formatError exn) obj).

(** [seen]: how many stores there had been when the call last read the value. *)
Record activity := mkActivity { target : obj; doing : call; at_ : stage; seen : nat }.

(** A store of a value: by which call, of what. *)
Record store := mkStore { by_ : nat; what : call; replaced : obj; stored : obj }.

(** An atom: its value, its watches (none before the first), and the stores so far. *)
Record atom := mkAtom { initial : obj; value_ : obj; watches_ : option obj; stores : list store }.

(** [answers]: the calls of functions by [swap!], with what they were given and
    answered; [watched]: the calls of watches. *)
Record state := mkState {
  atoms : gmap Z atom;
  activities : gmap nat activity;
  top_ : Z;
  answers : list (nat * obj * list obj * obj);
  watched : list (nat * obj * list obj);
}.

Definition goto (id : nat) (act : activity) (st : stage) (s : state) : state :=
  mkState (atoms s) (<[id := mkActivity (target act) (doing act) st (seen act)]> (activities s)) (top_ s) (answers s) (watched s).

Definition saw (n : nat) (act : activity) : activity := mkActivity (target act) (doing act) (at_ act) n.

Definition setAtom (a : Z) (x : atom) (s : state) : state :=
  mkState (<[a := x]> (atoms s)) (activities s) (top_ s) (answers s) (watched s).

Definition allocateTop (s : state) : state :=
  mkState (atoms s) (activities s) (top_ s + 64) (answers s) (watched s).

(** [setAttributeIfEqual] of the value: nothing when it is another. *)
Definition setValueIfEqual (id : nat) (c : call) (a : Z) (x : atom) (old neu : obj) (s : state) : option state :=
  if same (value_ x) old
  then Some (setAtom a (mkAtom (initial x) neu (watches_ x) (stores x ++ [mkStore id c old neu])) s)
  else None.

Definition sameWatches (x y : option obj) : bool :=
  match x, y with Some x, Some y => same x y | None, None => true | _, _ => false end.

(** The keys and functions of the watches, in the order of the map. *)
Definition watchList (watches : option obj) : option (list obj) :=
  match watches with
  | Some (MapObj _ es) => Some (flat_map (fun e => [e.1; e.2]) es)
  | _ => None
  end.

(** The map with one more watch; without one. *)
Definition withWatch (old : option obj) (k f : obj) : entries :=
  let base := match old with Some (MapObj _ es) => es | _ => [] end in
  assocAll (keyFuel (k :: map fst base)) base [k; f].
Definition withoutWatch (old : option obj) (k : obj) : option entries :=
  match old with
  | Some (MapObj _ es) =>
      let fuel := keyFuel (k :: map fst es) in
      match mapGet fuel es k with Some _ => Some (mapDissoc fuel es k) | None => None end
  | _ => None
  end.

(** ** Steps *)

(** One access of the atom by the call [id]. *)
Definition access (id : nat) (act : activity) (x : atom) (s : state) : option state :=
  let a := address (target act) in
  match at_ act, doing act with
  | Begin, CSwap _ _ => Some (goto id (saw (length (stores x)) act) (Calling (value_ x)) s)
  | Begin, CReset nv => Some (goto id (saw (length (stores x)) act) (Storing (value_ x) nv) s)
  | Begin, CCas expected nv =>
      match setValueIfEqual id (doing act) a x expected nv s with
      | Some s => Some (goto id act (Firing expected nv PROTO_TRUE) s)
      | None => Some (goto id act (Done (Ok PROTO_FALSE)) s)
      end
  | Begin, CAddWatch k f =>
      Some (goto id act (StoringWatches (watches_ x) (MapObj (top_ s) (withWatch (watches_ x) k f))) (allocateTop s))
  | Begin, CRemoveWatch k =>
      match withoutWatch (watches_ x) k with
      | None => Some (goto id act (Done (Ok (target act))) s)
      | Some es => Some (goto id act (StoringWatches (watches_ x) (MapObj (top_ s) es)) (allocateTop s))
      end
  | Storing old neu, _ =>
      match setValueIfEqual id (doing act) a x old neu s with
      | Some s => Some (goto id act (Firing old neu neu) s)
      | None => Some (goto id act Begin s)
      end
  | StoringWatches old neu, _ =>
      if sameWatches (watches_ x) old
      then Some (goto id act (Done (Ok (target act))) (setAtom a (mkAtom (initial x) (value_ x) (Some neu) (stores x)) s))
      else Some (goto id act Begin s)
  | Firing old neu ret, _ =>
      match watchList (watches_ x) with
      | None => Some (goto id act (Done (Ok ret)) s)
      | Some kf => Some (goto id act (Watching kf old neu ret) s)
      end
  | Watching kf _ _ ret, _ =>
      match kf with
      | _ :: _ :: _ => None
      | _ => Some (goto id act (Done (Ok ret)) s)
      end
  | _, _ => None
  end.

(** The function that the call [id] runs answers [r]; what a watch raises is swallowed. *)
Definition answer (id : nat) (act : activity) (r : result exn obj) (s : state) : option state :=
  match at_ act, doing act with
  | Calling old, CSwap f extras =>
      match r with
      | Ok neu => Some (goto id act (Storing old neu)
                    (mkState (atoms s) (activities s) (top_ s) (answers s ++ [(id, f, old :: extras, neu)]) (watched s)))
      | Throw e => Some (goto id act (Done (Throw (Raised e))) s)
      end
  | Watching (k :: f :: kf) old neu ret, _ =>
      Some (goto id act (Watching kf old neu ret)
        (mkState (atoms s) (activities s) (top_ s) (answers s) (watched s ++ [(id, f, [k; target act; old; neu])])))
  | _, _ => None
  end.

Definition begin_ (id : nat) (act : activity) (s : state) : state :=
  mkState (atoms s) (<[id := act]> (activities s)) (top_ s) (answers s) (watched s).

(** The functions; those that read or make an atom do it at once. *)
Definition invoke_ (id : nat) (p : primitive) (args : list obj) (s : state) : option state :=
  let started r := Some (begin_ id (match r with
    | Ok (a, c) => mkActivity a c Begin 0
    | Throw e => mkActivity PROTO_NONE CAtOnce (Done (Throw e)) 0
    end) s) in
  let ended r := Some (begin_ id (mkActivity PROTO_NONE CAtOnce (Done r) 0) s) in
  match p with
  | PSwap => started (prim_swap_bang args)
  | PReset => started (prim_reset_bang args)
  | PCas => started (prim_compare_and_set_bang args)
  | PAddWatch => started (prim_add_watch args)
  | PRemoveWatch => started (prim_remove_watch args)
  | PAtom => 
      if negb (length args =? 1)%nat then ended (refused "atom: expects (atom initial-value)")
      else if negb hasCallContext then ended (refused "atom: no active VM context")
      else
        let v := argAt args 0 in
        Some (begin_ id (mkActivity PROTO_NONE CAtOnce (Done (Ok (Cell (top_ s) CAtom []))) 0)
               (allocateTop (setAtom (top_ s) (mkAtom v v None []) s)))
  | PDeref =>
      if negb (length args =? 1)%nat then ended (refused "deref: expects 1 arg")
      else if negb hasCallContext then ended (refused "deref: no active VM context")
      else if isAtom (argAt args 0) then
        match atoms s !! address (argAt args 0) with Some x => ended (Ok (value_ x)) | None => None end
      else None
  end.

Inductive label :=
| Invoke (id : nat) (p : primitive) (args : list obj)
| Access (id : nat)
| Answer (id : nat) (r : result exn obj).

Definition exec (l : label) (s : state) : option state :=
  match l with
  | Invoke id p args => match activities s !! id with None => invoke_ id p args s | Some _ => None end
  | Access id =>
      match activities s !! id with
      | Some act => match atoms s !! address (target act) with Some x => access id act x s | None => None end
      | None => None
      end
  | Answer id r => match activities s !! id with Some act => answer id act r s | None => None end
  end.

Definition start : state := mkState ∅ ∅ 4096 [] [].

Fixpoint runs (ls : list label) (s : state) : option state :=
  match ls with
  | [] => Some s
  | l :: ls => match exec l s with Some s => runs ls s | None => None end
  end.

End Atoms.
