(* ===== verification/AtomsFacts.v ===== *)
(** Atoms (Atoms.v): the interleaved calls are as calls made one after another, and
    lock-free. *)

From S2P Require Import Prelude Values Maps KeyEquality Exceptions Printer Reader DemoReader DataFormats DemoJson Atoms.

#[local] Set Warnings "-register-all".

Section Atoms.
Context {W exn : Type} `{FormatsEnv W exn}.

#[local] Abbreviation state := (state (exn := exn)).
#[local] Abbreviation activity := (activity (exn := exn)).

(** ** Invariants *)

Definition uncommitted (s : state) (id : nat) : Prop :=
  forall a x, atoms s !! a = Some x -> id ∉ map by_ (stores x).

Definition committed (s : state) (id : nat) (act : activity) (old neu : obj) : Prop :=
  exists x, atoms s !! address (target act) = Some x /\ mkStore id (doing act) old neu ∈ stores x.

(** What a store says of the call that made it. *)
Definition explained (s : state) (c : store) : Prop :=
  match what c with
  | CSwap f extras => (by_ c, f, replaced c :: extras, stored c) ∈ answers s
  | CReset nv => stored c = nv
  | CCas expected nv => replaced c = expected /\ stored c = nv
  | _ => False
  end.

Definition returns (c : call) (neu ret : obj) : Prop :=
  match c with CSwap _ _ | CReset _ => ret = neu | CCas _ _ => ret = PROTO_TRUE | _ => False end.

Definition stage_ok (s : state) (id : nat) (act : activity) : Prop :=
  match at_ act with
  | Begin => uncommitted s id
  | Calling _ => uncommitted s id /\ match doing act with CSwap _ _ => True | _ => False end
  | StoringWatches _ _ => uncommitted s id /\ match doing act with CAddWatch _ _ | CRemoveWatch _ => True | _ => False end
  | Storing old neu => uncommitted s id /\ explained s (mkStore id (doing act) old neu) /\ returns (doing act) neu neu
  | Firing old neu ret | Watching _ old neu ret => committed s id act old neu /\ returns (doing act) neu ret
  | Done (Ok r) =>
      match doing act with
      | CSwap _ _ | CReset _ => exists old, committed s id act old r
      | CCas expected nv => r = PROTO_TRUE /\ committed s id act expected nv \/ r = PROTO_FALSE /\ uncommitted s id
      | _ => uncommitted s id
      end
  | Done (Throw _) => uncommitted s id
  end.

(** From a value to another through stores, each of which replaces the one before. *)
Fixpoint chained (v : obj) (l : list store) (final : obj) : Prop :=
  match l with
  | [] => final = v
  | c :: l => same v (replaced c) = true /\ chained (stored c) l final
  end.

Record inv (s : state) : Prop := {
  inv_below : forall a x, atoms s !! a = Some x -> a < top_ s;
  inv_stages : forall id act, activities s !! id = Some act -> stage_ok s id act;
  inv_chained : forall a x, atoms s !! a = Some x -> chained (initial x) (stores x) (value_ x);
  inv_once : forall a x, atoms s !! a = Some x -> NoDup (map by_ (stores x));
  inv_stores : forall a x c, atoms s !! a = Some x -> c ∈ stores x -> explained s c /\
    exists act, activities s !! by_ c = Some act /\ address (target act) = a /\ doing act = what c;
  inv_watched : forall id f args, (id, f, args) ∈ watched s -> exists act k old neu,
    activities s !! id = Some act /\ args = [k; target act; old; neu] /\ committed s id act old neu;
}.

Lemma chained_snoc v l final c : chained v l final -> same final (replaced c) = true -> chained v (l ++ [c]) (stored c).
Proof. revert v. induction l as [|d l IH]; intros v; cbn; [by intros ->|]. intros [Hd Hl] Hc. split; [done|by apply IH]. Qed.

(** *** Steps that store no value *)

(** Nothing is stored; there may be more atoms, more answers. *)
Record quiet (s s' : state) : Prop := {
  quiet_keeps : forall a x, atoms s !! a = Some x -> exists x', atoms s' !! a = Some x' /\ stores x' = stores x;
  quiet_new : forall a x', atoms s' !! a = Some x' ->
    (exists x, atoms s !! a = Some x /\ stores x' = stores x /\ initial x' = initial x /\ value_ x' = value_ x) \/
    (stores x' = [] /\ value_ x' = initial x');
  quiet_answers : forall r, r ∈ answers s -> r ∈ answers s';
}.

Lemma quiet_same (s s' : state) : atoms s' = atoms s -> (forall r, r ∈ answers s -> r ∈ answers s') -> quiet s s'.
Proof. intros E Ha. split; rewrite ?E; [by eauto|by eauto 10|done]. Qed.

Lemma quiet_uncommitted s s' id : quiet s s' -> uncommitted s id -> uncommitted s' id.
Proof.
  intros Hq Hu a x' Hx'. destruct (quiet_new _ _ Hq a x' Hx') as [(x & Hx & -> & _)|[-> _]]; [by eapply Hu|].
  apply not_elem_of_nil.
Qed.

Lemma quiet_committed s s' id act old neu : quiet s s' -> committed s id act old neu -> committed s' id act old neu.
Proof. intros Hq (x & Hx & Hc). destruct (quiet_keeps _ _ Hq _ x Hx) as (x' & Hx' & Es). exists x'. by rewrite Es. Qed.

Lemma quiet_explained s s' c : quiet s s' -> explained s c -> explained s' c.
Proof. intros Hq. unfold explained. destruct (what c); try done. apply (quiet_answers _ _ Hq). Qed.

#[local] Hint Resolve quiet_uncommitted quiet_committed quiet_explained : clj.

Lemma quiet_stage s s' id act : quiet s s' -> stage_ok s id act -> stage_ok s' id act.
Proof.
  intros Hq. unfold stage_ok. destruct (at_ act) as [|old|old neu|old neu|old neu ret|kf old neu ret|[r|e]]; eauto with clj.
  - intros [? ?]; split; eauto with clj.
  - intros (? & ? & ?); split_and!; eauto with clj.
  - intros [? ?]; split; eauto with clj.
  - intros [? ?]; split; eauto with clj.
  - intros [? ?]; split; eauto with clj.
  - destruct (doing act); eauto with clj; [intros [old ?]; eauto with clj..|].
    intros [[? ?]|[? ?]]; [left|right]; eauto with clj.
Qed.

(** The activities after a step of [id]: it begins, or goes on with its call. *)
Definition moves (id : nat) (act : activity) (s s' : state) : Prop :=
  activities s' = <[id := act]> (activities s) /\
  match activities s !! id with
  | Some before => target before = target act /\ doing before = doing act
  | None => True
  end.

Lemma moved_lookup id act s s' id0 act0 : moves id act s s' -> activities s !! id0 = Some act0 ->
  exists act1, activities s' !! id0 = Some act1 /\ target act1 = target act0 /\ doing act1 = doing act0.
Proof.
  intros [E Hb] H0. rewrite E. destruct (decide (id0 = id)) as [->|Hne].
  - exists act. rewrite lookup_insert_eq. rewrite H0 in Hb. by destruct Hb as [-> ->].
  - exists act0. by rewrite lookup_insert_ne.
Qed.

(** What a call says of the atom does not depend on where it is. *)
Lemma committed_as s id act act' old neu : target act' = target act -> doing act' = doing act ->
  committed s id act old neu -> committed s id act' old neu.
Proof. intros Et Ed (x & Hx & Hc). exists x. by rewrite Et, Ed. Qed.

Lemma watched_moved id act s s' id0 (args : list obj) : moves id act s s' ->
  (forall act old neu, committed s id0 act old neu -> committed s' id0 act old neu) ->
  (exists act (k : obj) old neu, activities s !! id0 = Some act /\ args = [k; target act; old; neu] /\ committed s id0 act old neu) ->
  exists act (k : obj) old neu, activities s' !! id0 = Some act /\ args = [k; target act; old; neu] /\ committed s' id0 act old neu.
Proof.
  intros Hm Hc (act0 & k & old & neu & H0 & -> & Hco). destruct (moved_lookup _ _ _ _ _ _ Hm H0) as (act1 & H1 & Et & Ed).
  exists act1, k, old, neu. rewrite Et. split; [done|]. split; [done|]. apply (committed_as _ _ act0); auto.
Qed.

Lemma quiet_inv id act s s' : inv s -> quiet s s' -> moves id act s s' ->
  (forall a x, atoms s' !! a = Some x -> a < top_ s') -> stage_ok s' id act ->
  (forall r, r ∈ watched s' -> r ∈ watched s \/ exists f k old neu, r = (id, f, [k; target act; old; neu]) /\ committed s' id act old neu) ->
  inv s'.
Proof.
  intros I Hq Hm Hb Hst Hw. pose proof Hm as [Ea _]. split; [done|..].
  - intros id0 act0. rewrite Ea. destruct (decide (id0 = id)) as [->|Hne].
    + rewrite lookup_insert_eq. by intros [= <-].
    + rewrite lookup_insert_ne by done. intros H0. eapply quiet_stage; [done|]. by apply (inv_stages _ I).
  - intros a x' Hx'. destruct (quiet_new _ _ Hq a x' Hx') as [(x & Hx & -> & -> & ->)|[-> Hv]]; [by apply (inv_chained _ I a)|by rewrite Hv].
  - intros a x' Hx'. destruct (quiet_new _ _ Hq a x' Hx') as [(x & Hx & -> & _)|[-> _]]; [by apply (inv_once _ I a)|constructor].
  - intros a x' c Hx' Hc. destruct (quiet_new _ _ Hq a x' Hx') as [(x & Hx & Es & _)|[Es _]]; rewrite Es in Hc; [|by apply not_elem_of_nil in Hc].
    destruct (inv_stores _ I a x c Hx Hc) as (He & act0 & H0 & Ht & Hd). split; [by eapply quiet_explained|].
    destruct (moved_lookup _ _ _ _ _ _ Hm H0) as (act1 & H1 & Et & Ed). exists act1. rewrite Et, Ed. done.
  - intros id0 f args Hin. destruct (Hw _ Hin) as [Hold|(f' & k & old & neu & [= -> -> ->] & Hc)].
    + eapply watched_moved; [done| |by apply (inv_watched _ I _ _ _ Hold)]. intros; by eapply quiet_committed.
    + exists act, k, old, neu. by rewrite Ea, lookup_insert_eq.
Qed.

(** *** Stores *)

Section Commit.
Context (s : state) (id : nat) (act : activity) (x : atom) (old neu ret : obj).
Context (I : inv s) (Hact : activities s !! id = Some act) (Hx : atoms s !! address (target act) = Some x).
Context (Hsame : same (value_ x) old = true) (Hnew : uncommitted s id).
Context (Hexp : explained s (mkStore id (doing act) old neu)) (Hret : returns (doing act) neu ret).

Let c := mkStore id (doing act) old neu.
Let x' := mkAtom (initial x) neu (watches_ x) (stores x ++ [c]).
Let s' := goto id act (Firing old neu ret) (setAtom (address (target act)) x' s).

Lemma commit_lookup a y' : atoms s' !! a = Some y' ->
  a = address (target act) /\ y' = x' \/ a <> address (target act) /\ atoms s !! a = Some y'.
Proof.
  unfold s'. cbn. destruct (decide (a = address (target act))) as [->|Hne].
  - rewrite lookup_insert_eq. intros [= <-]. by left.
  - rewrite lookup_insert_ne by done. by right.
Qed.

Lemma commit_committed id0 act0 o n : committed s id0 act0 o n -> committed s' id0 act0 o n.
Proof.
  intros (y & Hy & Hc). unfold committed, s'. cbn. destruct (decide (address (target act0) = address (target act))) as [E|Hne].
  - rewrite E in *. rewrite Hx in Hy. injection Hy as <-. exists x'. rewrite lookup_insert_eq. split; [done|].
    cbn. rewrite elem_of_app. by left.
  - exists y. by rewrite lookup_insert_ne.
Qed.

Lemma commit_self : committed s' id act old neu.
Proof. exists x'. unfold s'. cbn. rewrite lookup_insert_eq. split; [done|]. rewrite elem_of_app. right. by left. Qed.

Lemma commit_uncommitted id0 : id0 <> id -> uncommitted s id0 -> uncommitted s' id0.
Proof.
  intros Hne Hu a y' [[-> ->]|[_ Hy]]%commit_lookup; [|by eapply Hu]. cbn. rewrite map_app, elem_of_app.
  intros [Hin|Hin]; [by eapply Hu|]. cbn in Hin. by apply list_elem_of_singleton in Hin.
Qed.

Lemma commit_stage id0 act0 : id0 <> id -> stage_ok s id0 act0 -> stage_ok s' id0 act0.
Proof.
  intros Hne. unfold stage_ok. pose proof (commit_uncommitted id0 Hne) as Hu. pose proof (commit_committed id0 act0) as Hc.
  destruct (at_ act0) as [|old0|old0 neu0|old0 neu0|old0 neu0 ret0|kf old0 neu0 ret0|[r|e]]; auto.
  - intros [? ?]; split; auto.
  - intros (? & ? & ?); split_and!; auto.
  - intros [? ?]; split; auto.
  - intros [? ?]; split; auto.
  - intros [? ?]; split; auto.
  - destruct (doing act0); auto; [intros [o ?]; eauto..|]. intros [[? ?]|[? ?]]; auto.
Qed.

Lemma commit_moves : moves id (mkActivity (target act) (doing act) (Firing old neu ret) (seen act)) s s'.
Proof. split; [done|]. by rewrite Hact. Qed.

Lemma commit_inv : inv s'.
Proof.
  split.
  - intros a y' [[-> ->]|[_ Hy]]%commit_lookup; [exact (inv_below _ I _ _ Hx)|exact (inv_below _ I _ _ Hy)].
  - intros id0 act0 H0. destruct (decide (id0 = id)) as [->|Hne].
    + unfold s' in H0. cbn in H0. rewrite lookup_insert_eq in H0. injection H0 as <-. split; [apply commit_self|exact Hret].
    + unfold s' in H0. cbn in H0. rewrite lookup_insert_ne in H0 by done. apply commit_stage; [done|]. by apply (inv_stages _ I).
  - intros a y' [[-> ->]|[_ Hy]]%commit_lookup; [|by apply (inv_chained _ I a)].
    change (value_ x') with (stored c). eapply chained_snoc; [by apply (inv_chained _ I _ _ Hx)|exact Hsame].
  - intros a y' [[-> ->]|[_ Hy]]%commit_lookup; [|by apply (inv_once _ I a)]. cbn. rewrite map_app.
    apply NoDup_app. split; [by apply (inv_once _ I _ _ Hx)|]. split; [|by apply NoDup_singleton].
    intros j Hj Hin. cbn in Hin. apply list_elem_of_singleton in Hin as ->. by apply (Hnew _ _ Hx).
  - intros a y' d Hy' Hd. assert (Hold : forall y, atoms s !! a = Some y -> d ∈ stores y -> explained s d /\
        exists act0, activities s' !! by_ d = Some act0 /\ address (target act0) = a /\ doing act0 = what d).
    { intros y Hy Hdy. destruct (inv_stores _ I a y d Hy Hdy) as (He & act0 & H0 & Ht & Hdo). split; [done|].
      destruct (moved_lookup _ _ _ _ _ _ commit_moves H0) as (act1 & H1 & Et & Ed). exists act1. by rewrite Et, Ed. }
    destruct (commit_lookup a y' Hy') as [[-> ->]|[_ Hy]]; [|by apply (Hold y')]. cbn in Hd. apply elem_of_app in Hd as [Hd|Hd]; [by apply (Hold x)|].
    apply list_elem_of_singleton in Hd as ->. split; [exact Hexp|].
    exists (mkActivity (target act) (doing act) (Firing old neu ret) (seen act)). unfold s'. cbn. by rewrite lookup_insert_eq.
  - intros id0 f args Hin. eapply watched_moved; [apply commit_moves| |by apply (inv_watched _ I _ _ _ Hin)].
    intros; by apply commit_committed.
Qed.

End Commit.

(** *** Every step *)

Lemma below_same (s s' : state) : inv s -> atoms s' = atoms s -> top_ s <= top_ s' -> forall a x, atoms s' !! a = Some x -> a < top_ s'.
Proof. intros I E Ht a x. rewrite E. intros Hx. pose proof (inv_below _ I a x Hx). lia. Qed.

(** A step of the call that changes no atom. *)
Lemma step_inv s s' id act act' : inv s -> activities s !! id = Some act -> target act' = target act -> doing act' = doing act ->
  atoms s' = atoms s -> activities s' = <[id := act']> (activities s) -> top_ s <= top_ s' ->
  (forall r, r ∈ answers s -> r ∈ answers s') -> watched s' = watched s -> stage_ok s' id act' -> inv s'.
Proof.
  intros I Hact Et Ed Ea Eact Htop Hans Hw Hst. apply (quiet_inv id act' s); try done.
  - by apply quiet_same.
  - split; [done|]. by rewrite Hact.
  - by apply (below_same s).
  - rewrite Hw. by left.
Qed.

Lemma uncommitted_same (s s' : state) id : atoms s' = atoms s -> uncommitted s id -> uncommitted s' id.
Proof. unfold uncommitted. by intros ->. Qed.

Lemma setValue_cases id c a x old neu (s s' : state) : setValueIfEqual id c a x old neu s = Some s' ->
  same (value_ x) old = true /\ s' = setAtom a (mkAtom (initial x) neu (watches_ x) (stores x ++ [mkStore id c old neu])) s.
Proof. unfold setValueIfEqual. destruct (same _ _); [|done]. by intros [= <-]. Qed.

Lemma ended_ok s id act old neu ret : inv s -> committed s id act old neu -> returns (doing act) neu ret ->
  stage_ok s id (mkActivity (target act) (doing act) (Done (Ok ret)) (seen act)).
Proof.
  intros I Hc Hr. unfold stage_ok. cbn. unfold returns in Hr. destruct (doing act) as [|f extras|nv|expected nv|k f|k] eqn:Ed; try done.
  - subst ret. exists old. by apply (committed_as _ _ act).
  - subst ret. exists old. by apply (committed_as _ _ act).
  - left. split; [done|]. destruct Hc as (x & Hx & Hin). destruct (inv_stores _ I _ _ _ Hx Hin) as [He _].
    unfold explained in He. cbn in He. rewrite Ed in *. destruct He as [-> ->]. by exists x.
Qed.

(** A store of the watches. *)
Lemma watches_inv s id act x neu r : inv s -> activities s !! id = Some act -> atoms s !! address (target act) = Some x ->
  uncommitted s id -> match doing act with CAddWatch _ _ | CRemoveWatch _ => True | _ => False end ->
  inv (goto id act (Done (Ok r)) (setAtom (address (target act)) (mkAtom (initial x) (value_ x) (Some neu) (stores x)) s)).
Proof.
  intros I Hact Hx Hu Hd. set (s' := goto _ _ _ _).
  assert (Hl : forall a y, atoms s' !! a = Some y -> exists y0, atoms s !! a = Some y0 /\ stores y = stores y0 /\ initial y = initial y0 /\ value_ y = value_ y0).
  { intros a y. unfold s'. cbn. destruct (decide (a = address (target act))) as [->|Hne].
    - rewrite lookup_insert_eq. intros [= <-]. by exists x.
    - rewrite lookup_insert_ne by done. by exists y. }
  assert (Hq : quiet s s').
  { split; [|by intros a y Hy; left; apply Hl|done]. intros a y Hy. unfold s'. cbn.
    destruct (decide (a = address (target act))) as [->|Hne]; [|by exists y; rewrite lookup_insert_ne].
    rewrite Hx in Hy. injection Hy as <-. eexists. by rewrite lookup_insert_eq. }
  apply (quiet_inv id (mkActivity (target act) (doing act) (Done (Ok r)) (seen act)) s); try done.
  - split; [done|]. by rewrite Hact.
  - intros a y (y0 & Hy0 & _)%Hl. by apply (inv_below _ I a y0).
  - unfold stage_ok. cbn. destruct (doing act); try done; by eapply quiet_uncommitted.
  - by left.
Qed.

Lemma access_inv id act x s s' : inv s -> activities s !! id = Some act -> atoms s !! address (target act) = Some x ->
  access id act x s = Some s' -> inv s'.
Proof.
  intros I Hact Hx. pose proof (inv_stages _ I _ _ Hact) as Hst. unfold stage_ok in Hst. unfold access.
  assert (Hgo : forall st n (s1 : state), atoms s1 = atoms s -> activities s1 = activities s -> top_ s <= top_ s1 -> answers s1 = answers s ->
    watched s1 = watched s -> stage_ok s id (mkActivity (target act) (doing act) st n) -> inv (goto id (saw n act) st s1)).
  { intros st n s1 E1 E2 Et E3 E4 Hok. eapply (step_inv s _ id act (mkActivity (target act) (doing act) st n)); cbn; rewrite ?E1, ?E2, ?E3, ?E4; try done.
    eapply quiet_stage; [|exact Hok]. apply quiet_same; cbn; by rewrite ?E1, ?E3. }
  assert (Hstay : forall st (s1 : state), atoms s1 = atoms s -> activities s1 = activities s -> top_ s <= top_ s1 -> answers s1 = answers s ->
    watched s1 = watched s -> stage_ok s id (mkActivity (target act) (doing act) st (seen act)) -> inv (goto id act st s1)).
  { intros st s1. destruct act. apply Hgo. }
  assert (Hend : forall old neu ret, committed s id act old neu -> returns (doing act) neu ret ->
    stage_ok s id (mkActivity (target act) (doing act) (Done (Ok ret)) (seen act))) by (intros; by eapply ended_ok).
  destruct (at_ act) as [|old|old neu|old neu|old neu ret|kf old neu ret|r] eqn:Eat.
  - destruct (doing act) as [|f extras|nv|expected nv|k f|k] eqn:Ed; try done.
    + intros [= <-]. by apply Hgo.
    + intros [= <-]. by apply Hgo.
    + destruct (setValueIfEqual _ _ _ _ _ _ _) as [s1|] eqn:Es; intros [= <-].
      * apply setValue_cases in Es as [Hs ->]. rewrite <- Ed. by apply commit_inv; try done; cbn; rewrite Ed.
      * apply Hstay; try done. by right.
    + intros [= <-]. apply Hstay; cbn; done || lia.
    + destruct (withoutWatch _ _); intros [= <-]; apply Hstay; cbn; done || lia.
  - by destruct (doing act).
  - destruct Hst as (Hu & He & Hr).
    destruct (setValueIfEqual _ _ _ _ _ _ _) as [s1|] eqn:Es; intros [= <-]; [|by apply Hstay].
    apply setValue_cases in Es as [Hs ->]. by apply commit_inv.
  - destruct Hst as [Hu Hd]. destruct (sameWatches _ _); intros [= <-]; [|by apply Hstay].
    by eapply watches_inv.
  - destruct Hst as [Hc Hr]. destruct (watchList _); intros [= <-]; apply Hstay; try done. by apply (Hend old neu).
  - destruct Hst as [Hc Hr]. destruct kf as [|? [|? ?]]; try done; intros [= <-]; apply Hstay; try done; by apply (Hend old neu).
  - by destruct (doing act).
Qed.

Lemma answer_inv id act r s s' : inv s -> activities s !! id = Some act -> answer id act r s = Some s' -> inv s'.
Proof.
  intros I Hact. pose proof (inv_stages _ I _ _ Hact) as Hst. unfold stage_ok in Hst. unfold answer.
  destruct (at_ act) as [|old|old neu|old neu|old neu ret|[|k [|f kf]] old neu ret|[r'|e]] eqn:Eat; try done;
    try (by destruct (doing act)).
  - destruct (doing act) as [|f extras|nv|expected nv|k f|k] eqn:Ed; try done. destruct Hst as [Hst _]. destruct r as [neu|e]; intros [= <-].
    + apply (step_inv s _ id act (mkActivity (target act) (doing act) (Storing old neu) (seen act))); cbn; try done; [intros ? ?; rewrite elem_of_app; by left|].
      unfold stage_ok. cbn. rewrite Ed. split; [done|]. split; [|done]. unfold explained. cbn. rewrite elem_of_app. right. by left.
    + by apply (step_inv s _ id act (mkActivity (target act) (doing act) (Done (Throw (Raised e))) (seen act))).
  - intros [= <-]. apply (quiet_inv id (mkActivity (target act) (doing act) (Watching kf old neu ret) (seen act)) s); try done.
    + by apply quiet_same.
    + split; [done|]. by rewrite Hact.
    + by apply (below_same s).
    + cbn. intros r'. rewrite elem_of_app, list_elem_of_singleton. intros [?| ->]; [by left|right].
      exists f, k, old, neu. split; [done|]. apply Hst.
Qed.

(** A call that has begun, or has ended at once. *)
Lemma begin_inv id act s : inv s -> activities s !! id = None ->
  match at_ act, doing act with Begin, _ | Done (Throw _), _ | Done (Ok _), CAtOnce => True | _, _ => False end ->
  inv (begin_ id act s).
Proof.
  intros I Hnone Hok. assert (Hu : uncommitted s id).
  { intros a x Hx Hin. apply list_elem_of_fmap in Hin as (c & E & Hc).
    destruct (inv_stores _ I a x c Hx Hc) as (_ & act0 & H0 & _). by rewrite <- E, Hnone in H0. }
  apply (quiet_inv id act s); try done.
  - by apply quiet_same.
  - split; [done|]. by rewrite Hnone.
  - by apply (below_same s).
  - unfold stage_ok. destruct (at_ act) as [| | | | | |[r|e]]; try done. by destruct (doing act).
  - by left.
Qed.

(** A new atom. *)
Lemma new_inv v s : inv s -> inv (allocateTop (setAtom (top_ s) (mkAtom v v None []) s)).
Proof.
  intros I. set (s' := allocateTop _).
  assert (Hl : forall a y, atoms s' !! a = Some y -> a = top_ s /\ y = mkAtom v v None [] \/ atoms s !! a = Some y).
  { intros a y. unfold s'. cbn. destruct (decide (a = top_ s)) as [->|Hne];
      [rewrite lookup_insert_eq; intros [= <-]; by left|rewrite lookup_insert_ne by done; by right]. }
  assert (Hq : quiet s s').
  { split; [| |done].
    - intros a x Hx. exists x. split; [|done]. unfold s'. cbn. rewrite lookup_insert_ne; [done|].
      pose proof (inv_below _ I a x Hx). lia.
    - intros a y [[-> ->]|Hy]%Hl; [by right|left; by exists y]. }
  split.
  - intros a y [[-> ->]|Hy]%Hl; unfold s'; cbn; [lia|]. pose proof (inv_below _ I a y Hy). lia.
  - intros id act Hact. eapply quiet_stage; [done|]. by apply (inv_stages _ I).
  - intros a y [[-> ->]|Hy]%Hl; [done|by apply (inv_chained _ I a)].
  - intros a y [[-> ->]|Hy]%Hl; [constructor|by apply (inv_once _ I a)].
  - intros a y c [[-> ->]|Hy]%Hl Hc; [by apply not_elem_of_nil in Hc|]. destruct (inv_stores _ I a y c Hy Hc) as [He ?].
    split; [by eapply quiet_explained|done].
  - intros id f args Hin. destruct (inv_watched _ I _ _ _ Hin) as (act & k & old & neu & Hact & -> & Hc).
    exists act, k, old, neu. split; [done|]. split; [done|]. by eapply quiet_committed.
Qed.

Lemma invoke_inv id p args s s' : inv s -> activities s !! id = None -> invoke_ id p args s = Some s' -> inv s'.
Proof.
  intros I Hnone. unfold invoke_.
  assert (Hend : forall r, inv (begin_ id (mkActivity PROTO_NONE CAtOnce (Done r) 0) s)).
  { intros [r|e]; by apply begin_inv. }
  assert (Hstart : forall r : result (formatError exn) (obj * call), inv (begin_ id (match r with
    | Ok (a, c) => mkActivity a c Begin 0
    | Throw e => mkActivity PROTO_NONE CAtOnce (Done (Throw e)) 0 end) s)).
  { intros [[a c]|e]; by apply begin_inv. }
  destruct p; try (intros [= <-]; apply Hstart).
  - destruct (negb _); [intros [= <-]; apply Hend|]. destruct (negb _); [intros [= <-]; apply Hend|]. intros [= <-].
    apply begin_inv; [by apply new_inv|done|done].
  - destruct (negb _); [intros [= <-]; apply Hend|]. destruct (negb _); [intros [= <-]; apply Hend|].
    destruct (isAtom _); [|done]. destruct (atoms s !! _); [|done]. intros [= <-]. apply Hend.
Qed.

Lemma exec_inv l s s' : inv s -> exec l s = Some s' -> inv s'.
Proof.
  intros I. destruct l as [id p args|id|id r]; cbn.
  - destruct (activities s !! id) eqn:E; [done|]. by apply invoke_inv.
  - destruct (activities s !! id) as [act|] eqn:E; [|done]. destruct (atoms s !! _) as [x|] eqn:Ex; [|done].
    by apply access_inv.
  - destruct (activities s !! id) as [act|] eqn:E; [|done]. by apply answer_inv.
Qed.

Lemma start_inv : inv start.
Proof.
  split; cbn.
  - intros a x. by rewrite lookup_empty.
  - intros id act. by rewrite lookup_empty.
  - intros a x. by rewrite lookup_empty.
  - intros a x. by rewrite lookup_empty.
  - intros a x c. by rewrite lookup_empty.
  - intros id f args Hin. by apply not_elem_of_nil in Hin.
Qed.

Lemma runs_inv ls s s' : inv s -> runs ls s = Some s' -> inv s'.
Proof.
  revert s. induction ls as [|l ls IH]; intros s I; cbn; [by intros [= <-]|].
  destruct (exec l s) as [s1|] eqn:E; [|done]. apply IH. by eapply exec_inv.
Qed.

(** ** Sequential atoms

    What a call does to the value of an atom that nothing else uses meanwhile; [apply]
    is what functions answer. *)
Section Sequential.
Context (apply : obj -> list obj -> obj).

Definition effect (c : call) (v : obj) : obj :=
  match c with
  | CSwap f extras => apply f (v :: extras)
  | CReset nv | CCas _ nv => nv
  | _ => v
  end.

Definition replay (l : list store) (v : obj) : obj := fold_left (fun v c => effect (what c) v) l v.

(** A function answers the same for the same object. *)
Context (apply_same : forall f a b extras, same a b = true -> apply f (a :: extras) = apply f (b :: extras)).

Lemma effect_same c a b : same a b = true -> match c with CSwap _ _ | CReset _ | CCas _ _ => True | _ => False end -> effect c a = effect c b.
Proof. intros Hs. destruct c; try done. intros _. by apply apply_same. Qed.

Lemma explained_stored s c : (forall id f args v, (id, f, args, v) ∈ answers s -> v = apply f args) -> explained s c ->
  stored c = effect (what c) (replaced c) /\
  match what c with CSwap _ _ | CReset _ | CCas _ _ => True | _ => False end /\
  match what c with CCas expected _ => replaced c = expected | _ => True end.
Proof.
  intros Ha. unfold explained. destruct (what c) as [|f extras|nv|expected nv|k f|k]; cbn; try done.
  - intros Hin. split; [by apply Ha in Hin|done].
  - by intros [-> ->].
Qed.

Lemma chained_replay s v l final : (forall id f args v, (id, f, args, v) ∈ answers s -> v = apply f args) ->
  (forall c, c ∈ l -> explained s c) -> chained v l final ->
  final = replay l v /\
  forall pre c post, l = pre ++ c :: post -> stored c = effect (what c) (replay pre v) /\ same (replay pre v) (replaced c) = true.
Proof.
  intros Ha. revert v. induction l as [|c l IH]; intros v He; cbn; [intros ->; split; [done|by intros [] ? ?]|].
  intros [Hs Hl]. destruct (explained_stored s c Ha (He c ltac:(left))) as (Hst & Hk & _).
  assert (Es : stored c = effect (what c) v) by (rewrite Hst; symmetry; by apply effect_same).
  rewrite Es in Hl. destruct (IH _ (fun d Hd => He d (list_elem_of_further _ _ _ Hd)) Hl) as [-> Hsplit].
  split; [done|]. intros [|d pre] c' post E; injection E as <- E; [by split|]. by apply (Hsplit pre c' post).
Qed.

(** C16. Atoms are linearizable, when what a function answers is a function of it and its
    arguments ([apply]). However the calls on an atom interleave, its value is
    that of the stores made one after another in their order, each taking what the one
    before it left; no call stores twice; a [swap!] or [reset!] that has answered has
    stored, and answers what it stored; [compare-and-set!] answers true when it has
    stored, its expected value having been the atom's, and false when it has not; a call
    that raised has stored nothing; and watches are called with the value that the call
    replaced and the one it stored. *)
Theorem atom_linearizable ls s a x : runs ls start = Some s ->
  (forall id f args v, (id, f, args, v) ∈ answers s -> v = apply f args) -> atoms s !! a = Some x ->
  value_ x = replay (stores x) (initial x) /\
  NoDup (map by_ (stores x)) /\
  (forall pre c post, stores x = pre ++ c :: post -> match what c with CCas expected _ => same (replay pre (initial x)) expected = true | _ => True end) /\
  (forall id act r, activities s !! id = Some act -> address (target act) = a -> at_ act = Done r ->
     match r, doing act with
     | Ok r, CSwap _ _ | Ok r, CReset _ => exists pre c post, stores x = pre ++ c :: post /\ by_ c = id /\
         r = effect (doing act) (replay pre (initial x))
     | Ok r, CCas _ _ => r = PROTO_TRUE /\ id ∈ map by_ (stores x) \/ r = PROTO_FALSE /\ id ∉ map by_ (stores x)
     | _, _ => id ∉ map by_ (stores x)
     end) /\
  (forall id act f args, activities s !! id = Some act -> address (target act) = a -> (id, f, args) ∈ watched s ->
     exists k pre c post, stores x = pre ++ c :: post /\ by_ c = id /\ args = [k; target act; replaced c; stored c] /\
       same (replay pre (initial x)) (replaced c) = true /\ stored c = effect (doing act) (replay pre (initial x))).
Proof.
  intros Hrun Ha Hx. pose proof (runs_inv _ _ _ start_inv Hrun) as I.
  destruct (chained_replay s (initial x) (stores x) (value_ x) Ha) as [Hv Hsplit];
    [intros c Hc; by apply (inv_stores _ I a x)|by apply (inv_chained _ I a)|].
  assert (Hin : forall id act old neu, committed s id act old neu -> address (target act) = a ->
    exists pre post, stores x = pre ++ mkStore id (doing act) old neu :: post).
  { intros id act old neu (y & Hy & Hc) Et. rewrite Et, Hx in Hy. injection Hy as <-. by apply list_elem_of_split. }
  split; [done|]. split; [by apply (inv_once _ I a)|]. split; [|split].
  - intros pre c post E. destruct (Hsplit pre c post E) as [_ Hs].
    destruct (explained_stored s c Ha) as (_ & _ & Hc); [|by destruct (what c); try done; subst].
    apply (inv_stores _ I a x c Hx). rewrite E, elem_of_app. right. by left.
  - intros id act r Hact Et Er. pose proof (inv_stages _ I _ _ Hact) as Hst. unfold stage_ok in Hst. rewrite Er in Hst.
    assert (Hdone : forall old neu, committed s id act old neu -> exists pre c post, stores x = pre ++ c :: post /\ by_ c = id /\
      neu = effect (doing act) (replay pre (initial x))).
    { intros old neu Hc. destruct (Hin id act old neu Hc Et) as (pre & post & E). eexists pre, _, post. split; [exact E|]. split; [done|].
      by destruct (Hsplit _ _ _ E) as [Hs _]. }
    destruct r as [r|e]; [|by apply (Hst a x)]. destruct (doing act) eqn:Ed; try (by apply (Hst a x)).
    + destruct Hst as [old Hc]. by eapply Hdone.
    + destruct Hst as [old Hc]. by eapply Hdone.
    + destruct Hst as [[-> Hc]|[-> Hu]]; [left|right; split; [done|by apply (Hu a x)]]. split; [done|].
      destruct Hc as (y & Hy & Hc). rewrite Et, Hx in Hy. injection Hy as <-. apply list_elem_of_fmap. by eexists; split; [|exact Hc].
  - intros id act f args Hact Et Hw. destruct (inv_watched _ I _ _ _ Hw) as (act' & k & old & neu & Hact' & -> & Hc).
    rewrite Hact in Hact'. injection Hact' as <-. destruct (Hin id act old neu Hc Et) as (pre & post & E).
    destruct (Hsplit _ _ _ E) as [Hs Hr]. by exists k, pre, (mkStore id (doing act) old neu), post.
Qed.

End Sequential.

(** ** Progress *)

(** A call that has read the value holds it as long as nothing is stored. *)
Definition reads (s : state) (act : activity) : Prop :=
  match at_ act with
  | Calling old | Storing old _ => exists x, atoms s !! address (target act) = Some x /\ (seen act <= length (stores x))%nat /\
      (seen act = length (stores x) -> value_ x = old)
  | _ => True
  end.

Definition held (s : state) : Prop := forall id act, activities s !! id = Some act -> reads s act.

(** Atoms stay, and their values are as they were while nothing is stored. *)
Definition later (s s' : state) : Prop := forall a x, atoms s !! a = Some x -> exists x', atoms s' !! a = Some x' /\
  (length (stores x) <= length (stores x'))%nat /\ (length (stores x) = length (stores x') -> value_ x' = value_ x).

Lemma later_same (s s' : state) : atoms s' = atoms s -> later s s'.
Proof. intros E a x Hx. exists x. by rewrite E. Qed.

Lemma later_reads s s' act : later s s' -> reads s act -> reads s' act.
Proof.
  intros Hl. unfold reads. destruct (at_ act); try done; intros (x & Hx & Hs & Hv);
    destruct (Hl _ _ Hx) as (x' & Hx' & Hle & Hval); exists x'; (split; [done|]); (split; [lia|]); intros E;
    rewrite Hval by lia; apply Hv; lia.
Qed.

Lemma later_set (s : state) a x x' : atoms s !! a = Some x -> (length (stores x) <= length (stores x'))%nat ->
  (length (stores x) = length (stores x') -> value_ x' = value_ x) -> later s (setAtom a x' s).
Proof.
  intros Hx Hle Hv b y Hy. cbn. destruct (decide (b = a)) as [->|Hne].
  - rewrite Hx in Hy. injection Hy as <-. exists x'. by rewrite lookup_insert_eq.
  - exists y. by rewrite lookup_insert_ne.
Qed.

Lemma held_move s s' id act : held s -> later s s' -> activities s' = <[id := act]> (activities s) -> reads s' act -> held s'.
Proof.
  intros Hh Hl Ea Hr id0 act0. rewrite Ea. destruct (decide (id0 = id)) as [->|Hne].
  - rewrite lookup_insert_eq. by intros [= <-].
  - rewrite lookup_insert_ne by done. intros H0. apply (later_reads s); [done|by apply (Hh id0)].
Qed.

Lemma later_stored (s : state) id c a x old neu s' : atoms s !! a = Some x -> setValueIfEqual id c a x old neu s = Some s' ->
  later s s' /\ activities s' = activities s.
Proof.
  intros Hx [_ ->]%setValue_cases. split; [|done]. apply (later_set _ _ x); cbn; rewrite ?length_app; cbn; done || lia.
Qed.

Lemma access_held id act x s s' : held s -> activities s !! id = Some act -> atoms s !! address (target act) = Some x ->
  access id act x s = Some s' -> held s'.
Proof.
  intros Hh Hact Hx. pose proof (Hh id act Hact) as Hr. unfold access.
  assert (Hgo : forall s1 act1, later s s1 -> activities s1 = activities s -> reads (begin_ id act1 s1) act1 -> held (begin_ id act1 s1)).
  { intros s1 act1 Hl Ea Hr1. apply (held_move s _ id act1); [done| |by cbn; rewrite Ea|done]. exact Hl. }
  assert (Hread : forall st old, (st = Calling old \/ exists nv, st = Storing old nv) -> old = value_ x ->
    held (goto id (saw (length (stores x)) act) st s)).
  { intros st old Hst ->. apply (Hgo s (mkActivity (target act) (doing act) st (length (stores x)))); [by apply later_same|done|].
    unfold reads. destruct Hst as [-> |[nv ->]]; cbn; by exists x. }
  assert (Hany : forall st s1, later s s1 -> activities s1 = activities s ->
    match st with Calling _ | Storing _ _ => False | _ => True end -> held (goto id act st s1)).
  { intros st s1 Hl Ea Hst. apply (Hgo s1 (mkActivity (target act) (doing act) st (seen act))); [done|done|]. unfold reads. by destruct st. }
  assert (Hsame : forall st, match st with Calling _ | Storing _ _ => False | _ => True end -> held (goto id act st s)).
  { intros st Hst. apply Hany; [by apply later_same|done|done]. }
  destruct (at_ act) as [|old|old neu|old neu|old neu ret|kf old neu ret|r] eqn:Eat.
  - destruct (doing act) as [|f extras|nv|expected nv|k f|k] eqn:Ed; try done.
    + intros [= <-]. eapply Hread; [by left|done].
    + intros [= <-]. eapply Hread; [by right; eexists|done].
    + destruct (setValueIfEqual _ _ _ _ _ _ _) as [s1|] eqn:Es; intros [= <-]; [|by apply Hsame].
      destruct (later_stored _ _ _ _ _ _ _ _ Hx Es). by apply Hany.
    + intros [= <-]. apply Hany; try done. by apply later_same.
    + destruct (withoutWatch _ _); intros [= <-]; [|by apply Hsame]. apply Hany; try done. by apply later_same.
  - by destruct (doing act).
  - destruct (setValueIfEqual _ _ _ _ _ _ _) as [s1|] eqn:Es; intros [= <-]; [|by apply Hsame].
    destruct (later_stored _ _ _ _ _ _ _ _ Hx Es). by apply Hany.
  - destruct (sameWatches _ _); intros [= <-]; [|by apply Hsame]. apply Hany; try done. by apply (later_set _ _ x).
  - destruct (watchList _); intros [= <-]; by apply Hsame.
  - destruct kf as [|? [|? ?]]; try done; intros [= <-]; by apply Hsame.
  - by destruct (doing act).
Qed.

Lemma exec_held l s s' : inv s -> held s -> exec l s = Some s' -> held s'.
Proof.
  intros I Hh. destruct l as [id p args|id|id r]; cbn.
  - destruct (activities s !! id) eqn:Eid; [done|]. unfold invoke_.
    assert (Hb : forall act s1, later s s1 -> activities s1 = activities s ->
      match at_ act with Calling _ | Storing _ _ => False | _ => True end -> held (begin_ id act s1)).
    { intros act s1 Hl Ea Hst. apply (held_move s _ id act); [done|exact Hl|by cbn; rewrite Ea|]. unfold reads. by destruct (at_ act). }
    assert (Hb0 : forall act, match at_ act with Calling _ | Storing _ _ => False | _ => True end -> held (begin_ id act s)).
    { intros act Hst. apply Hb; [by apply later_same|done|done]. }
    assert (Hstart : forall r : result (formatError exn) (obj * call), held (begin_ id (match r with
      | Ok (a, c) => mkActivity a c Begin 0
      | Throw e => mkActivity PROTO_NONE CAtOnce (Done (Throw e)) 0 end) s)) by (intros [[a c]|e]; by apply Hb0).
    destruct p; try (intros [= <-]; apply Hstart).
    + destruct (negb _); [intros [= <-]; by apply Hb0|]. destruct (negb _); [intros [= <-]; by apply Hb0|]. intros [= <-].
      apply Hb; [|done|done]. intros a x Hx. exists x. cbn. rewrite lookup_insert_ne; [done|]. pose proof (inv_below _ I a x Hx). lia.
    + destruct (negb _); [intros [= <-]; by apply Hb0|]. destruct (negb _); [intros [= <-]; by apply Hb0|].
      destruct (isAtom _); [|done]. destruct (atoms s !! _); [|done]. intros [= <-]. by apply Hb0.
  - destruct (activities s !! id) as [act|] eqn:Eid; [|done]. destruct (atoms s !! _) as [x|] eqn:Ex; [|done]. by apply access_held.
  - destruct (activities s !! id) as [act|] eqn:Eid; [|done]. unfold answer. pose proof (Hh id act Eid) as Hr. unfold reads in Hr.
    destruct (at_ act) as [|old|old neu|old neu|old neu ret|[|k [|f kf]] old neu ret|[r'|e]] eqn:Eat; try done; try (by destruct (doing act)).
    + destruct (doing act) as [|f extras|nv|expected nv|k f|k]; try done. destruct r as [neu|e]; intros [= <-];
        (eapply (held_move s); [done|by apply later_same|reflexivity|]); done.
    + intros [= <-]. eapply (held_move s); [done|by apply later_same|reflexivity|done].
Qed.

Lemma runs_held ls s s' : inv s -> held s -> runs ls s = Some s' -> held s'.
Proof.
  revert s. induction ls as [|l ls IH]; intros s I Hh; cbn; [by intros [= <-]|].
  destruct (exec l s) as [s1|] eqn:E; [|done]. apply IH; [by eapply exec_inv|by eapply exec_held].
Qed.

(** C17. Calls on atoms are lock-free: a call that has not ended can go on, whatever the
    others do, by an access of its atom or when the function it runs answers; and a [swap!]
    or [reset!] about to store either stores, or has to begin again because another call
    has stored since it read the value. *)
Theorem atoms_lock_free ls s id act x : runs ls start = Some s -> activities s !! id = Some act ->
  atoms s !! address (target act) = Some x -> (forall r, at_ act <> Done r) -> doing act <> CAtOnce ->
  ((exists s', exec (Access id) s = Some s') \/ (forall r, exists s', exec (Answer id r) s = Some s')) /\
  (forall old neu s', at_ act = Storing old neu -> exec (Access id) s = Some s' -> 
     (exists act', activities s' !! id = Some act' /\ at_ act' = Firing old neu neu) \/
     (exists c pre post, stores x = pre ++ c :: post /\ by_ c <> id /\ (seen act <= length pre)%nat)).
Proof.
  intros Hrun Hact Hx Hdone Hdo. pose proof (runs_inv _ _ _ start_inv Hrun) as I.
  assert (Hh : held s). { apply (runs_held ls start); [apply start_inv| |done]. intros id0 act0. cbn. by rewrite lookup_empty. }
  pose proof (inv_stages _ I _ _ Hact) as Hst. pose proof (Hh id act Hact) as Hr. unfold stage_ok in Hst. unfold reads in Hr.
  cbn. rewrite Hact, Hx. unfold access, answer. split.
  - destruct (at_ act) as [|old|old neu|old neu|old neu ret|[|k [|f kf]] old neu ret|r] eqn:Eat.
    + left. destruct (doing act); try done; repeat case_match; by eexists.
    + right. intros r. destruct Hst as [_ Hd]. destruct (doing act); try done. destruct r; by eexists.
    + left. destruct (setValueIfEqual _ _ _ _ _ _ _); by eexists.
    + left. destruct (sameWatches _ _); by eexists.
    + left. destruct (watchList _); by eexists.
    + left. by eexists.
    + left. by eexists.
    + right. intros r. by eexists.
    + by destruct (Hdone r).
  - intros old neu s' Eat. rewrite Eat in *. destruct Hr as (x' & Hx' & Hle & Hv). rewrite Hx in Hx'. injection Hx' as <-.
    destruct (setValueIfEqual _ _ _ _ _ _ _) as [s1|] eqn:Es; intros [= <-].
    + left. eexists. cbn. by rewrite lookup_insert_eq.
    + right. assert (Hlt : (seen act < length (stores x))%nat).
      { destruct (decide (seen act = length (stores x))) as [E|]; [|lia]. rewrite <- (Hv E) in Es.
        unfold setValueIfEqual, same in Es. by rewrite Z.eqb_refl in Es. }
      destruct (lookup_lt_is_Some_2 _ _ Hlt) as [c Hc]. exists c, (take (seen act) (stores x)), (drop (S (seen act)) (stores x)).
      split; [by rewrite take_drop_middle|]. split; [|rewrite length_take; lia].
      intros E. destruct Hst as [Hu _]. apply (Hu _ _ Hx), list_elem_of_fmap. exists c. split; [done|]. by eapply list_elem_of_lookup_2.
Qed.

End Atoms.

(** ** Two calls of [swap!] that read the same value *)
Module Examples.
Import ListMaps DemoReader.Demo DemoJson.Demo.

Definition int (z : Z) : obj := Embedded (smallIntWord z).
Definition incFn : obj := Cell 512 CFn [].
Definition watchFn : obj := Cell 576 CFn [].
Definition watchKey : obj := Named 640 (s2b ":w").
Definition counter : obj := Cell 4096 CAtom [].

(** The next integer. *)
Definition apply (f : obj) (args : list obj) : obj :=
  match args with v :: _ => int (smallIntValue (address v) + 1) | [] => PROTO_NONE end.

Definition raced : list (label (exn := bytes)) :=
  [Invoke 0 PAtom [int 0]; Invoke 1 PAddWatch [counter; watchKey; watchFn]; Access 1; Access 1;
   Invoke 2 PSwap [counter; incFn]; Invoke 3 PSwap [counter; incFn]; Access 2; Access 3;
   Answer 2 (Ok (int 1)); Answer 3 (Ok (int 1)); Access 2].
Definition settled : list (label (exn := bytes)) :=
  raced ++ [Access 3; Access 3; Answer 3 (Ok (int 2)); Access 3; Access 2; Answer 2 (Throw (s2b "ignored")); Access 2;
   Access 3; Answer 3 (Ok PROTO_NONE); Access 3].

Definition after (ls : list label) : Atoms.state := default start (runs (W := demoWorld) ls start).

Definition theAtom (ls : list label) : atom := default (mkAtom PROTO_NONE PROTO_NONE None []) (atoms (after ls) !! 4096).
Definition theCall (ls : list label) (id : nat) : Atoms.activity :=
  default (mkActivity PROTO_NONE CAtOnce Begin 0) (activities (after ls) !! id).

Lemma atom_linearizable_witness :
  value_ (theAtom settled) = replay apply (stores (theAtom settled)) (int 0) /\ value_ (theAtom settled) = int 2 /\
  map by_ (stores (theAtom settled)) = [2; 3]%nat /\
  watched (after settled) = [(2%nat, watchFn, [watchKey; counter; int 0; int 1]); (3%nat, watchFn, [watchKey; counter; int 1; int 2])].
Proof.
  assert (Hrun : runs (W := demoWorld) settled start = Some (after settled)) by (vm_compute; reflexivity).
  assert (Hsame : forall f a b extras, same a b = true -> apply f (a :: extras) = apply f (b :: extras)).
  { intros f a b extras E%Z.eqb_eq. unfold apply. by rewrite E. }
  assert (Hans : forall id f args v, (id, f, args, v) ∈ answers (after settled) -> v = apply f args).
  { assert (Hall : Forall (fun r => r.2 = apply r.1.1.2 r.1.2) (answers (after settled))).
    { replace (answers (after settled))
        with [(2%nat, incFn, [int 0], int 1); (3%nat, incFn, [int 0], int 1); (3%nat, incFn, [int 1], int 2)] by (vm_compute; reflexivity).
      repeat (apply Forall_cons_2; [vm_compute; reflexivity|]). apply Forall_nil_2. }
    intros id f args v Hin. rewrite Forall_forall in Hall. exact (Hall _ Hin). }
  assert (Hx : atoms (after settled) !! 4096 = Some (theAtom settled)) by (vm_compute; reflexivity).
  destruct (atom_linearizable (W := demoWorld) (exn := bytes) apply Hsame settled (after settled) 4096 (theAtom settled) Hrun Hans Hx) as [Hv _].
  split; [exact Hv|]. split; [vm_compute; reflexivity|]. split; vm_compute; reflexivity.
Defined.

(** The call that has to begin again: the other one has stored. *)
Lemma atoms_lock_free_witness : exists c pre post, stores (theAtom raced) = pre ++ c :: post /\ by_ c <> 3%nat.
Proof.
  assert (Hrun : runs (W := demoWorld) raced start = Some (after raced)) by (vm_compute; reflexivity).
  assert (Hact : activities (after raced) !! 3%nat = Some (theCall raced 3)) by (vm_compute; reflexivity).
  assert (Hx : atoms (after raced) !! address (target (theCall raced 3)) = Some (theAtom raced)) by (vm_compute; reflexivity).
  assert (Hat : at_ (theCall raced 3) = Storing (int 0) (int 1)) by (vm_compute; reflexivity).
  assert (Hnext : exec (Access 3) (after raced) = Some (after (raced ++ [Access 3]))) by (vm_compute; reflexivity).
  assert (Hagain : activities (after (raced ++ [Access 3])) !! 3%nat = Some (theCall (raced ++ [Access 3]) 3)) by (vm_compute; reflexivity).
  destruct (atoms_lock_free (W := demoWorld) (exn := bytes) raced (after raced) 3 (theCall raced 3) (theAtom raced) Hrun Hact Hx) as [_ H].
  - intros r E. rewrite Hat in E. discriminate E.
  - vm_compute. discriminate.
  - specialize (H (int 0) (int 1) (after (raced ++ [Access 3]))).
    specialize (H Hat).
    specialize (H Hnext).
    destruct H as [(act & Ha & E)|(c & pre & post & E & Hc & _)]; [|exists c, pre, post; exact (conj E Hc)].
    assert (Ea : act = theCall (raced ++ [Access 3]) 3) by (apply (inj Some); etransitivity; [symmetry; exact Ha|exact Hagain]).
    rewrite Ea in E. vm_compute in E. discriminate E.
Defined.

End Examples.
