(* ===== verification/Regex.v ===== *)
(** Regular expressions (runtime/Regex.cpp, Regex.h): the translation of Java's patterns
    to PCRE2's, the cache of compiled patterns, matching, and the walk over successive
    matches. What PCRE2 does is the interface [Pcre2]. *)

From S2P Require Import Prelude Utf8.

#[local] Set Warnings "-register-all".

(** ** Text

    A place in a [std::string] is what is left of it from there. *)

Fixpoint startsWith (p s : bytes) : bool :=
  match p, s with
  | [], _ => true
  | c :: p, d :: s => (c =? d)%byte && startsWith p s
  | _ :: _, [] => false
  end.

(** [s.find(p)]: how many bytes are before the first occurrence. *)
Fixpoint find (p s : bytes) : option nat :=
  if startsWith p s then Some O
  else match s with [] => None | _ :: s => option_map S (find p s) end.

(** [s.substr(pos, n)] *)
Definition substr (s : bytes) (pos n : nat) : bytes := take n (drop pos s).

Definition hexValue (c : byte) : Z := default (-1) (hex_digit c).

Definition hexDigit (d : Z) : byte := if d <? 10 then chr (48 + d) else chr (97 + (d - 10)).

(** [%lx]; a number of [n] hexadecimal digits or fewer. *)
Fixpoint hexDigits (n : nat) (v : Z) : bytes :=
  match n with
  | O => []
  | S n => (if v <? 16 then [] else hexDigits n (v / 16)) ++ [hexDigit (v mod 16)]
  end.

Definition hexEscape (cp : Z) : bytes := s2b "\x{" ++ hexDigits 16 cp ++ s2b "}".

(** The four digits of a [\u] escape; -1 when it is not one. *)
Definition unicodeEscapeAt (s : bytes) : Z :=
  if startsWith (s2b "\u") s && (6 <=? length s)%nat then
    fold_left (fun v h => if (v <? 0) || (hexValue h <? 0) then -1 else v * 16 + hexValue h) (take 4 (drop 2 s)) 0
  else -1.

Definition posixClasses : list (bytes * bytes) :=
  [(s2b "Lower", s2b "lower"); (s2b "Upper", s2b "upper"); (s2b "ASCII", s2b "ascii"); (s2b "Alpha", s2b "alpha");
   (s2b "Digit", s2b "digit"); (s2b "Alnum", s2b "alnum"); (s2b "Punct", s2b "punct"); (s2b "Graph", s2b "graph");
   (s2b "Print", s2b "print"); (s2b "Blank", s2b "blank"); (s2b "Cntrl", s2b "cntrl"); (s2b "XDigit", s2b "xdigit");
   (s2b "Space", s2b "space")].

Definition posixClassOf (name : bytes) : option bytes :=
  option_map snd (List.find (fun c => bool_decide (c.1 = name)) posixClasses).

Definition utf8Length (lead : byte) : nat :=
  if u8 lead <? 0xC0 then 1
  else if u8 lead <? 0xE0 then 2
  else if u8 lead <? 0xF0 then 3
  else if u8 lead <? 0xF8 then 4
  else 1.

(** ** Translation

    A pattern that is refused is PatternSyntaxError's text. *)

Definition syntaxError {A} (what src : bytes) : result bytes A :=
  Throw (what ++ s2b " in pattern: " ++ src).

Record translation := mkTranslation {
  out : bytes;
  depth : nat;
  negated : bool;
  justOpened : bool;
  leading : bool;
  ucp : bool;
  unixLines : bool;
}.

Definition newTranslation : translation := mkTranslation [] 0 false false true false false.

Definition set_out (o : bytes) (t : translation) := mkTranslation o (depth t) (negated t) (justOpened t) (leading t) (ucp t) (unixLines t).
Definition set_depth (d : nat) (t : translation) := mkTranslation (out t) d (negated t) (justOpened t) (leading t) (ucp t) (unixLines t).
Definition set_negated (b : bool) (t : translation) := mkTranslation (out t) (depth t) b (justOpened t) (leading t) (ucp t) (unixLines t).
Definition set_justOpened (b : bool) (t : translation) := mkTranslation (out t) (depth t) (negated t) b (leading t) (ucp t) (unixLines t).
Definition set_leading (b : bool) (t : translation) := mkTranslation (out t) (depth t) (negated t) (justOpened t) b (ucp t) (unixLines t).

Definition append (piece : bytes) (t : translation) : translation := set_out (out t ++ piece) t.

Definition emitInClass (piece : bytes) (t : translation) : translation :=
  let t :=
    match piece with
    | c :: _ => if justOpened t && ((c =? ":") || (c =? ".") || (c =? "="))%byte then append ["\"%byte] t else t
    | [] => t
    end in
  set_justOpened false (append piece t).

Definition emitPiece (piece : bytes) (t : translation) : translation :=
  if (0 <? depth t)%nat then emitInClass piece t else append piece t.

(** One escape at the backslash of [s]: what is written for it, and what is left. *)

Definition unicodePiece (src s : bytes) : result bytes (bytes * bytes) :=
  let v := unicodeEscapeAt s in
  if v <? 0 then syntaxError (s2b "Illegal Unicode escape sequence") src
  else
    let lo := unicodeEscapeAt (drop 6 s) in
    let '(v, len) :=
      if (0xD800 <=? v) && (v <=? 0xDBFF) && (0xDC00 <=? lo) && (lo <=? 0xDFFF)
      then (0x10000 + Z.shiftl (v - 0xD800) 10 + (lo - 0xDC00), 12%nat)
      else (v, 6%nat) in
    if (0xD800 <=? v) && (v <=? 0xDFFF) then syntaxError (s2b "Unpaired surrogate in a Unicode escape") src
    else Ok (hexEscape v, drop len s).

Fixpoint octalDigits (n : nat) (v : Z) (s : bytes) : Z * nat * bytes :=
  match n, s with
  | S n, c :: s' =>
      if in_range "0" c "7" then
        let '(v, digits, s) := octalDigits n (v * 8 + (u8 c - 48)) s' in (v, S digits, s)
      else (v, O, s)
  | _, _ => (v, O, s)
  end.

Definition octalPiece (src s : bytes) : result bytes (bytes * bytes) :=
  let k := drop 2 s in
  let maxDigits := match k with c :: _ => if in_range "0" c "3" then 3%nat else 2%nat | [] => 2%nat end in
  let '(v, digits, rest) := octalDigits maxDigits 0 k in
  if (digits =? 0)%nat then syntaxError (s2b "Illegal octal escape sequence") src
  else Ok (hexEscape v, rest).

Definition familyPiece (inClass : bool) (src : bytes) (n : byte) (s : bytes) : result bytes (bytes * bytes) :=
  let named :=
    let k := drop 2 s in
    if startsWith ["{"%byte] k then
      let k := drop 1 k in
      match find ["}"%byte] k with
      | None => syntaxError (s2b "Unclosed character family") src
      | Some close => Ok (take close k, drop (S close) k)
      end
    else Ok (take 1 k, drop 1 k) in
  '(name, rest) ← named;
  match posixClassOf name with
  | Some posix =>
      let cls := s2b "[:" ++ (if (n =? "P")%byte then s2b "^" else []) ++ posix ++ s2b ":]" in
      Ok (if inClass then cls else s2b "[" ++ cls ++ s2b "]", rest)
  | None =>
      let name := if (2 <? length name)%nat && startsWith (s2b "Is") name then drop 2 name else name in
      Ok (["\"%byte; n] ++ s2b "{" ++ name ++ s2b "}", rest)
  end.

Definition escapePiece (inClass : bool) (src : bytes) (n : byte) (s : bytes) : result bytes (bytes * bytes) :=
  if (n =? "u")%byte then unicodePiece src s
  else if (n =? "0")%byte then octalPiece src s
  else if ((n =? "p")%byte || (n =? "P")%byte) && (2 <? length s)%nat then familyPiece inClass src n s
  else if (n =? "N")%byte then syntaxError (s2b "Named characters (\N{...}) are not supported") src
  else
    let len := S (utf8Length n) in
    Ok (take len s, drop len s).

(** [\Q...\E], or to the end. *)
Definition quotedPiece (s : bytes) : bytes * bytes :=
  let stop := match find (s2b "\E") (drop 2 s) with Some e => (2 + e + 2)%nat | None => length s end in
  (take stop s, drop stop s).

(** The flags of an inline group up to what ends them: those switched on and off. *)
Fixpoint inlineFlags (src s : bytes) (minus : bool) (on off : bytes) (t : translation)
  : result bytes (bytes * bytes * translation * bytes) :=
  match s with
  | f :: s' =>
      if (f =? "-")%byte then
        if minus then syntaxError (s2b "Unknown inline modifier") src
        else inlineFlags src s' true on off t
      else if is_alpha f then
        if negb (existsb (fun c => f =? c)%byte (s2b "idmsuxU")) then
          syntaxError (s2b "Unknown inline modifier (?" ++ [f] ++ s2b ")") src
        else if (f =? "d")%byte || (f =? "U")%byte then
          if minus || negb (leading t) then
            syntaxError (s2b "The inline flag (?" ++ [f] ++ s2b ") is supported only at the start of the pattern") src
          else
            inlineFlags src s' minus on off
              (mkTranslation (out t) (depth t) (negated t) (justOpened t) (leading t)
                 (ucp t || (f =? "U")%byte) (unixLines t || (f =? "d")%byte))
        else if (f =? "u")%byte then inlineFlags src s' minus on off t
        else
          let add := if (f =? "x")%byte && negb minus then s2b "xx" else [f] in
          if minus then inlineFlags src s' minus on (off ++ add) t
          else inlineFlags src s' minus (on ++ add) off t
      else Ok (on, off, t, s)
  | [] => Ok (on, off, t, s)
  end.

Definition flagGroup (src s : bytes) (t : translation) : result bytes (bytes * translation) :=
  '(on, off, t, rest) ← inlineFlags src (drop 2 s) false [] [] t;
  if negb (startsWith [")"%byte] rest) && negb (startsWith [":"%byte] rest)
  then syntaxError (s2b "Unknown inline modifier") src
  else
      let scoped := startsWith [":"%byte] rest in
      let minus := match off with [] => [] | _ => s2b "-" ++ off end in
      let t :=
        match on, off with
        | [], [] => if scoped then append (s2b "(?:") t else t
        | _, _ => append (s2b "(?" ++ on ++ minus ++ (if scoped then s2b ":" else s2b ")")) t
        end in
      Ok (drop 1 rest, if scoped then set_leading false t else t).

Definition startsFlags (s : bytes) : bool :=
  startsWith (s2b "(?") s && match drop 2 s with f :: _ => is_alpha f || (f =? "-")%byte | [] => false end.

Definition openClass (s : bytes) (t : translation) : bytes * translation :=
  let t := append ["["%byte] (set_depth 1 t) in
  let s := drop 1 s in
  let '(s, t) :=
    if startsWith ["^"%byte] s then (drop 1 s, append ["^"%byte] (set_negated true t)) else (s, set_negated false t) in
  let '(s, t) :=
    if startsWith ["]"%byte] s then (drop 1 s, set_justOpened false (append (s2b "\]") t)) else (s, set_justOpened true t) in
  (s, set_leading false t).

Definition inClass (src : bytes) (c : byte) (s : bytes) (t : translation) : result bytes (bytes * translation) :=
  if (c =? "[")%byte then
    if negated t || startsWith ["^"%byte] (drop 1 s)
    then syntaxError (s2b "A negated nested character class is not supported") src
    else Ok (drop 1 s, set_depth (S (depth t)) t)
  else if startsWith (s2b "&&") s then syntaxError (s2b "Character class intersection (&&) is not supported") src
  else if (c =? "]")%byte then
    let t := set_depth (depth t - 1) t in
    let t := if (depth t =? 0)%nat then append ["]"%byte] t else t in
    Ok (drop 1 s, set_justOpened false t)
  else
    let len := utf8Length c in
    Ok (drop len s, emitInClass (take len s) t).

(** One turn of the loop of [translatePattern], at [c]. *)
Definition translateStep (src : bytes) (c : byte) (s : bytes) (t : translation) : result bytes (bytes * translation) :=
  match drop 1 s, (c =? "\")%byte with
  | n :: _, true =>
      if (n =? "Q")%byte then
        let '(piece, rest) := quotedPiece s in
        Ok (rest, set_leading false (emitPiece piece t))
      else
        '(piece, rest) ← escapePiece (0 <? depth t)%nat src n s;
        Ok (rest, set_leading false (emitPiece piece t))
  | _, _ =>
      if (0 <? depth t)%nat then inClass src c s t
      else if (c =? "[")%byte then Ok (openClass s t)
      else if startsFlags s then flagGroup src s t
      else
        let len := utf8Length c in
        Ok (drop len s, set_leading false (append (take len s) t))
  end.

Fixpoint translateLoop (turns : nat) (src s : bytes) (t : translation) : option (result bytes translation) :=
  match s with
  | [] => Some (Ok t)
  | c :: _ =>
      match turns with
      | O => None
      | S turns =>
          match translateStep src c s t with
          | Ok (s, t) => translateLoop turns src s t
          | Throw e => Some (Throw e)
          end
      end
  end.

(** [None]: too few turns, of which one a byte is enough. *)
Definition translatePattern (src : bytes) : option (result bytes translation) :=
  translateLoop (length src) src src newTranslation.

Definition translated (s : string) : result bytes bytes :=
  match translatePattern (s2b s) with
  | Some (Ok t) => Ok (out t)
  | Some (Throw e) => Throw e
  | None => Throw (s2b "no turns")
  end.

Example translated_classes : translated "\u00e9[a-c[x-z\p{Alpha}]]\0101(?x:.)" = Ok (s2b "\x{e9}[a-cx-z[:alpha:]]\x{41}(?xx:.)").
Proof. vm_compute. reflexivity. Qed.

(** A bracket in a comment of a pattern with (?x) opens a class: the class after the
    comment loses its brackets. *)
Example comment_opens_class : translated "(?x)a #[
[bc]" = Ok (s2b "(?xx)a #[
bc").
Proof. vm_compute. reflexivity. Qed.

(** ** Characters *)

Definition isContinuation (c : byte) : bool := Z.land (u8 c) 0xC0 =? 0x80.

Definition nextCharacter (s : bytes) (pos : nat) : nat :=
  match drop pos s with
  | [] => S pos
  | c :: _ =>
      let len := utf8Length c in
      if (length s <? pos + len)%nat then S pos
      else if forallb isContinuation (substr s (S pos) (len - 1)) then pos + len
      else S pos
  end.

(** ** Matches

    The byte offsets of a match and of its groups, the start and the end of each;
    [None] is [kUnset]. *)
Record Match := mkMatch { offsets : list (option nat) }.

Definition offset (m : Match) (k : nat) : option nat := default None (offsets m !! k).
Definition matched (m : Match) (g : nat) : bool := match offset m (2 * g) with Some _ => true | None => false end.
Definition start (m : Match) (g : nat) : nat := default 0%nat (offset m (2 * g)).
Definition end_ (m : Match) (g : nat) : nat := default 0%nat (offset m (2 * g + 1)).
Definition mlength (m : Match) (g : nat) : nat := (end_ m g - start m g)%nat.
Definition mstr (m : Match) (subject : bytes) (g : nat) : bytes :=
  if matched m g then substr subject (start m g) (mlength m g) else [].

(** ** PCRE2

    Compiled code for a pattern: with PCRE2_UCP or without, with LF the only line
    terminator or not, anchored at both ends or not; or the error and where it is. A
    match answers a code and the offsets ([None] is PCRE2_UNSET). *)
Class Pcre2 := {
  pcre2_code : Type;
  pcre2_compile : bytes -> bool -> bool -> bool -> result (Z * nat) pcre2_code;
  pcre2_capturecount : pcre2_code -> nat;
  pcre2_match : pcre2_code -> bytes -> nat -> Z * list (option nat);
  pcre2_get_error_message : Z -> option bytes;
  PCRE2_ERROR_NOMATCH : Z;
  PCRE2_ERROR_JIT_STACKLIMIT : Z;
  PCRE2_ERROR_MATCHLIMIT : Z;
  PCRE2_ERROR_DEPTHLIMIT : Z;
  PCRE2_ERROR_HEAPLIMIT : Z;
  PCRE2_ERROR_NOMEMORY : Z;
}.

Section Regex.
Context `{Pcre2}.

Record CompiledPattern := mkCompiled { source : bytes; code : pcre2_code; groups : nat }.

Definition pcreMessage (c : Z) : bytes :=
  match pcre2_get_error_message c with Some m => m | None => s2b "error " ++ to_string c end.

(** A PatternSyntaxError is its text. *)
Definition compileCode (src pcre : bytes) (ucp unixLines anchored : bool) : result bytes pcre2_code :=
  match pcre2_compile pcre ucp unixLines anchored with
  | Ok code => Ok code
  | Throw (err, offset) =>
      Throw (pcreMessage err ++ s2b " near index " ++ to_string (Z.of_nat offset) ++ s2b ": " ++ src)
  end.

Definition buildCode (src : bytes) (anchored : bool) : result bytes pcre2_code :=
  match translatePattern src with
  | Some (Ok t) => compileCode src (out t) (ucp t) (unixLines t) anchored
  | Some (Throw e) => Throw e
  | None => Throw (s2b "no turns")
  end.

Definition compiledForm (src : bytes) : result bytes CompiledPattern :=
  code ← buildCode src false; Ok (mkCompiled src code (pcre2_capturecount code)).

(** [g_cache] *)
Definition compilePattern (src : bytes) (cache : gmap bytes CompiledPattern)
  : result bytes CompiledPattern * gmap bytes CompiledPattern :=
  match cache !! src with
  | Some compiled => (Ok compiled, cache)
  | None =>
      match compiledForm src with
      | Ok compiled => (Ok compiled, <[src := compiled]> cache)
      | Throw e => (Throw e, cache)
      end
  end.

(** ** Matching *)

Inductive matchError :=
| EngineGaveUp (what : bytes)
| MatchFailed (what : bytes)
| WholeSyntaxError (what : bytes).

Definition engineGaveUp (cp : CompiledPattern) (rc : Z) : matchError :=
  let limit :=
    if rc =? PCRE2_ERROR_JIT_STACKLIMIT then s2b "JIT stack limit"
    else if rc =? PCRE2_ERROR_MATCHLIMIT then s2b "match limit"
    else if rc =? PCRE2_ERROR_DEPTHLIMIT then s2b "depth limit"
    else s2b "heap limit" in
  EngineGaveUp (s2b "StackOverflowError: matching the pattern " ++ source cp ++
    s2b " went past the regular-expression engine's " ++ limit ++ s2b " (" ++ pcreMessage rc ++ s2b ")").

Definition runMatch (cp : CompiledPattern) (code : pcre2_code) (subject : bytes) (from : nat)
  : result matchError (option Match) :=
  let '(rc, ov) := pcre2_match code subject from in
  if rc =? PCRE2_ERROR_NOMATCH then Ok None
  else if rc <? 0 then
    if (rc =? PCRE2_ERROR_JIT_STACKLIMIT) || (rc =? PCRE2_ERROR_MATCHLIMIT) ||
       (rc =? PCRE2_ERROR_DEPTHLIMIT) || (rc =? PCRE2_ERROR_HEAPLIMIT)
    then Throw (engineGaveUp cp rc)
    else if rc =? PCRE2_ERROR_NOMEMORY
    then Throw (MatchFailed (s2b "OutOfMemoryError: matching the pattern " ++ source cp ++ s2b ": " ++ pcreMessage rc))
    else Throw (MatchFailed (s2b "matching the pattern " ++ source cp ++ s2b " failed: " ++ pcreMessage rc))
  else
    let n := (2 * (groups cp + 1))%nat in
    let set := (2 * Z.to_nat rc)%nat in
    Ok (Some (mkMatch (map (fun k => if (k <? set)%nat then default None (ov !! k) else None) (seq 0 n)))).

Definition regexSearch (cp : CompiledPattern) (subject : bytes) (from : nat) : result matchError (option Match) :=
  if (length subject <? from)%nat then Ok None else runMatch cp (code cp) subject from.

(** The anchored form is compiled on first use; the same each time. *)
Definition regexMatchWhole (cp : CompiledPattern) (subject : bytes) : result matchError (option Match) :=
  match buildCode (source cp) true with
  | Throw e => Throw (WholeSyntaxError e)
  | Ok whole => runMatch cp whole subject 0
  end.

End Regex.
