(* ===== verification/TextFacts.v ===== *)
(** Lemmas on occurrences of one text in another ([startsWith], [find]). *)

From S2P Require Import Prelude Regex.

#[local] Set Warnings "-register-all".

Definition occurs (p s : bytes) : Prop := exists a b, s = a ++ p ++ b.

Lemma startsWith_spec p s : startsWith p s = true <-> exists b, s = p ++ b.
Proof.
  revert s. induction p as [|c p IH]; intros s; cbn.
  - split; [by exists s|done].
  - destruct s as [|d s]; [split; [done|by intros [b [=]]]|]. rewrite andb_true_iff, IH. split.
    + intros [->%Byte.byte_dec_bl [b ->]]. by exists b.
    + intros [b [= -> ->]]. split; [by apply Byte.byte_dec_lb|by exists b].
Qed.

Lemma startsWith_app p s : startsWith p (p ++ s) = true.
Proof. apply startsWith_spec. by exists s. Qed.

(** The first occurrence. *)
Lemma find_Some p s k : find p s = Some k <->
  (exists b, s = take k s ++ p ++ b) /\ (k <= length s)%nat /\ forall j, (j < k)%nat -> startsWith p (drop j s) = false.
Proof.
  revert k. induction s as [|c s IH]; intros k; cbn [find].
  - destruct (startsWith p []) eqn:E.
    + split.
      * intros [= <-]. apply startsWith_spec in E as [b ->]. split; [by exists b|split; [cbn; lia|intros; lia]].
      * intros (_ & Hk & _). cbn in Hk. f_equal. lia.
    + split; [done|]. intros ([b Hb] & Hk & _). cbn in Hk. replace k with 0%nat in Hb by lia. cbn in Hb.
      rewrite (proj2 (startsWith_spec p [])) in E; [done|by exists b].
  - destruct (startsWith p (c :: s)) eqn:E.
    + split.
      * intros [= <-]. apply startsWith_spec in E as [b ->]. split; [by exists b|split; [lia|intros; lia]].
      * intros (_ & Hk & Hf). destruct k as [|k]; [done|]. specialize (Hf 0%nat ltac:(lia)). cbn in Hf. congruence.
    + split.
      * intros Hm. destruct (find p s) as [k'|] eqn:Ef; [|done]. injection Hm as <-.
        destruct (proj1 (IH k') eq_refl) as ([b Hb] & Hk & Hf). split; [exists b; cbn; by rewrite <- Hb|]. split; [cbn; lia|].
        intros [|j] Hj; [done|]. apply Hf. lia.
      * intros ([b Hb] & Hk & Hf). destruct k as [|k].
        { cbn in Hb. rewrite (proj2 (startsWith_spec p (c :: s))) in E; [done|by exists b]. }
        cbn in Hb, Hk. rewrite (proj2 (IH k)); [done|]. split; [exists b; by injection Hb|]. split; [lia|].
        intros j Hj. apply (Hf (S j)). lia.
Qed.

Lemma find_None p s : find p s = None <-> ~ occurs p s.
Proof.
  split.
  - intros Hf (a & b & ->). induction a as [|c a IH]; cbn in Hf.
    + destruct (p ++ b) eqn:E; cbn in Hf; rewrite <- E, startsWith_app in Hf; done.
    + destruct (startsWith p (c :: a ++ p ++ b)); [done|]. by destruct (find p (a ++ p ++ b)).
  - intros Ho. destruct (find p s) as [k|] eqn:E; [|done]. apply find_Some in E as ([b Hb] & _). destruct Ho. by exists (take k s), b.
Qed.

Lemma occurs_app_l p a b : occurs p a -> occurs p (a ++ b).
Proof. intros (x & y & ->). exists x, (y ++ b). by rewrite !app_assoc. Qed.

(** What is before the first occurrence has none, and it is the first with it. *)
Lemma find_before p s k : p <> [] -> find p s = Some k ->
  ~ occurs p (take k s) /\ find p (take k s ++ p) = Some (length (take k s)).
Proof.
  intros Hp Hs. apply find_Some in Hs as ([b Hb] & Hk & Hf).
  assert (Hlen : length (take k s) = k) by (rewrite length_take; lia).
  assert (Hfirst : forall j t, (j < k)%nat -> startsWith p (drop j (take k s ++ t)) = true ->
            (exists u, p ++ b = t ++ u) -> False).
  { intros j t Hj Hst [u Hu]. apply startsWith_spec in Hst as [b' Hb']. specialize (Hf j Hj).
    rewrite Hb, Hu, app_assoc, drop_app_le in Hf by (rewrite length_app; lia). rewrite Hb', <- app_assoc, startsWith_app in Hf. done. }
  split.
  - intros (x & y & Hxy). apply (Hfirst (length x) []).
    + apply (f_equal length) in Hxy. rewrite Hlen, !length_app in Hxy. destruct p; [done|]. cbn in Hxy. lia.
    + rewrite app_nil_r, Hxy, drop_app_length. apply startsWith_app.
    + by exists (p ++ b).
  - rewrite Hlen. apply find_Some. assert (take k (take k s ++ p) = take k s) as -> by (rewrite take_app_le by (rewrite Hlen; lia); rewrite take_take; f_equal; lia). split; [exists []; by rewrite app_nil_r|].
    split; [rewrite length_app; lia|]. intros j Hj. destruct (startsWith p _) eqn:E; [|done]. exfalso.
    apply (Hfirst j p Hj E). by exists b.
Qed.

Lemma startsWith_more p s t : startsWith p s = true -> startsWith p (s ++ t) = true.
Proof. intros [b ->]%startsWith_spec. rewrite <- app_assoc. apply startsWith_app. Qed.

Lemma startsWith_fewer p s t : (length p <= length s)%nat -> startsWith p (s ++ t) = startsWith p s.
Proof.
  revert s. induction p as [|c p IH]; intros [|d s] Hl; cbn in *; try done; [lia|]. by rewrite IH by lia.
Qed.

Lemma startsWith_fits p s : startsWith p s = true -> (length p <= length s)%nat.
Proof. intros [b ->]%startsWith_spec. rewrite length_app. lia. Qed.

Lemma find_fits p s k : find p s = Some k -> (length p <= length s)%nat.
Proof.
  revert k. induction s as [|c s IH]; intros k; cbn [find]; (destruct (startsWith _ _) eqn:E; [intros _; by apply startsWith_fits|]); [done|].
  destruct (find p s) as [k'|]; [|done]. intros _. specialize (IH k' eq_refl). cbn. lia.
Qed.

(** An occurrence stays the first one when more follows. *)
Lemma find_further p s t k : find p s = Some k -> find p (s ++ t) = Some k.
Proof.
  revert k. induction s as [|c s IH]; intros k; cbn.
  - destruct p; [|done]. intros [= <-]. by destruct t.
  - change (c :: s ++ t) with ((c :: s) ++ t). destruct (startsWith p (c :: s)) eqn:E.
    + intros [= <-]. by rewrite startsWith_more.
    + destruct (find p s) as [k'|] eqn:Ef; [|done]. intros [= <-].
      assert (Hl : (length p <= length s)%nat) by (by eapply find_fits).
      rewrite startsWith_fewer, E by (cbn; lia). by rewrite (IH k').
Qed.

Lemma find_byte c name rest : forallb (fun x => negb (x =? c)%byte) name = true -> find [c] (name ++ c :: rest) = Some (length name).
Proof.
  induction name as [|x name IH]; cbn; intros Hn.
  - by destruct (byte_eqb_spec c c).
  - apply andb_prop in Hn as [Hx Hn]. destruct (byte_eqb_spec c x) as [->|]; [by destruct (byte_eqb_spec x x)|]. cbn. by rewrite IH.
Qed.


Lemma utf8Length_bounds c : (1 <= utf8Length c <= 4)%nat.
Proof. unfold utf8Length. z_cases; lia. Qed.
