(* ===== verification/RegexFacts.v ===== *)
(** What the translation of patterns writes: a dialect of Java's patterns as trees, how
    they are spelt, and the PCRE2 pattern each stands for (runtime/Regex.cpp). *)

From S2P Require Import Prelude Utf8 Regex TextFacts.

#[local] Set Warnings "-register-all".

(** ** The dialect *)

Inductive escape :=
| EChar (c : bytes)                            (** a backslash and a character *)
| EUnicode (digits : bytes)                    (** \uXXXX *)
| ESurrogates (high low : bytes)               (** \uD83D\uDE00 *)
| EOctal (digits : bytes)                      (** \012 *)
| EFamily (complement : bool) (name : bytes)   (** \p{Alpha} *)
| ELetter (complement : bool) (c : byte)       (** \pL *)
| EQuote (text : bytes).                       (** \Q...\E *)

Inductive member :=
| MChar (c : bytes)
| MEscape (e : escape)
| MUnion (ms : list member).                   (** [a-c] in [x[a-c]] *)

(** A class, its complement, with a bracket as its first member; an inline group of
    flags, scoped when it ends with a colon. *)
Inductive token :=
| TChar (c : bytes)
| TEscape (e : escape)
| TClass (complement bracket : bool) (ms : list member)
| TFlags (on off : bytes) (scoped : bool).

(** *** Java's spelling *)

Definition java_letter (complement : bool) : byte := if complement then "P" else "p".

Definition java_escape (e : escape) : bytes :=
  match e with
  | EChar c => "\"%byte :: c
  | EUnicode digits => s2b "\u" ++ digits
  | ESurrogates high low => s2b "\u" ++ high ++ s2b "\u" ++ low
  | EOctal digits => s2b "\0" ++ digits
  | EFamily complement name => ["\"%byte; java_letter complement] ++ s2b "{" ++ name ++ s2b "}"
  | ELetter complement c => ["\"%byte; java_letter complement; c]
  | EQuote text => s2b "\Q" ++ text ++ s2b "\E"
  end.

Fixpoint java_member (m : member) : bytes :=
  match m with
  | MChar c => c
  | MEscape e => java_escape e
  | MUnion ms => s2b "[" ++ flat_map java_member ms ++ s2b "]"
  end.

Definition java_minus (off : bytes) : bytes := match off with [] => [] | _ => s2b "-" ++ off end.

Definition java_token (t : token) : bytes :=
  match t with
  | TChar c => c
  | TEscape e => java_escape e
  | TClass complement bracket ms =>
      s2b "[" ++ (if complement then s2b "^" else []) ++ (if bracket then s2b "]" else []) ++
      flat_map java_member ms ++ s2b "]"
  | TFlags on off scoped => s2b "(?" ++ on ++ java_minus off ++ (if scoped then s2b ":" else s2b ")")
  end.

Definition java (ts : list token) : bytes := flat_map java_token ts.

(** *** PCRE2's *)

Definition quad (digits : bytes) : Z := fold_left (fun v h => v * 16 + hexValue h) digits 0.
Definition octal (digits : bytes) : Z := fold_left (fun v d => v * 8 + (u8 d - 48)) digits 0.

Definition pcre_escape (inClass : bool) (e : escape) : bytes :=
  match e with
  | EChar c => "\"%byte :: c
  | EUnicode digits => hexEscape (quad digits)
  | ESurrogates high low => hexEscape (0x10000 + (quad high - 0xD800) * 1024 + (quad low - 0xDC00))
  | EOctal digits => hexEscape (octal digits)
  | EFamily complement name =>
      match posixClassOf name with
      | Some posix =>
          let cls := s2b "[:" ++ (if complement then s2b "^" else []) ++ posix ++ s2b ":]" in
          if inClass then cls else s2b "[" ++ cls ++ s2b "]"
      | None =>
          ["\"%byte; java_letter complement] ++ s2b "{" ++
          (if (2 <? length name)%nat && startsWith (s2b "Is") name then drop 2 name else name) ++ s2b "}"
      end
  | ELetter complement c => ["\"%byte; java_letter complement] ++ s2b "{" ++ [c] ++ s2b "}"
  | EQuote text => s2b "\Q" ++ text ++ s2b "\E"
  end.

(** The members, unions flattened. *)
Fixpoint pieces (m : member) : list bytes :=
  match m with
  | MChar c => [c]
  | MEscape e => [pcre_escape true e]
  | MUnion ms => flat_map pieces ms
  end.

(** A first member that PCRE2 would read as POSIX syntax is escaped. *)
Definition guarded (first : bool) (p : bytes) : bytes :=
  match p with
  | c :: _ => if first && ((c =? ":") || (c =? ".") || (c =? "="))%byte then "\"%byte :: p else p
  | [] => p
  end.

Definition joined (first : bool) (ps : list bytes) : bytes :=
  match ps with [] => [] | p :: ps => guarded first p ++ concat ps end.

Definition pcre_flag (f : byte) : bytes :=
  if (f =? "x")%byte then s2b "xx" else if (f =? "u")%byte || (f =? "d")%byte || (f =? "U")%byte then [] else [f].
Definition without_u (off : bytes) : bytes := List.filter (fun f => negb (f =? "u")%byte) off.

Definition pcre_flags (on off : bytes) (scoped : bool) : bytes :=
  match flat_map pcre_flag on, without_u off with
  | [], [] => if scoped then s2b "(?:" else []
  | on, off => s2b "(?" ++ on ++ java_minus off ++ (if scoped then s2b ":" else s2b ")")
  end.

Definition pcre_token (t : token) : bytes :=
  match t with
  | TChar c => c
  | TEscape e => pcre_escape false e
  | TClass complement bracket ms =>
      s2b "[" ++ (if complement then s2b "^" else []) ++ (if bracket then s2b "\]" else []) ++
      joined (negb bracket) (flat_map pieces ms) ++ s2b "]"
  | TFlags on off scoped => pcre_flags on off scoped
  end.

Definition pcre (ts : list token) : bytes := flat_map pcre_token ts.

(** Whether a group of flags asks for a flag. *)
Definition asks (flag : byte) (t : token) : bool :=
  match t with TFlags on _ _ => existsb (fun f => f =? flag)%byte on | _ => false end.

(** *** What the trees may hold, before [rest] *)

Definition isHex (c : byte) : bool := 0 <=? hexValue c.
Definition isOctal (c : byte) : bool := in_range "0" c "7".

(** A character, its first byte not among [special]. *)
Definition okChar (special : bytes) (c : bytes) : Prop :=
  match c with
  | lead :: _ => length c = utf8Length lead /\ existsb (fun x => lead =? x)%byte special = false
  | [] => False
  end.

Definition okEscape (e : escape) (rest : bytes) : Prop :=
  match e with
  | EChar c => okChar (s2b "Qu0NpP") c
  | EUnicode digits =>
      length digits = 4%nat /\ forallb isHex digits = true /\ ~ 0xD800 <= quad digits <= 0xDFFF
  | ESurrogates high low =>
      length high = 4%nat /\ forallb isHex high = true /\ 0xD800 <= quad high <= 0xDBFF /\
      length low = 4%nat /\ forallb isHex low = true /\ 0xDC00 <= quad low <= 0xDFFF
  | EOctal digits =>
      exists d ds, digits = d :: ds /\ forallb isOctal digits = true /\
        let most := if in_range "0" d "3" then 3%nat else 2%nat in
        (length digits = most \/
         (length digits < most)%nat /\ match rest with c :: _ => isOctal c = false | [] => True end)
  | EFamily _ name => forallb (fun c => negb (c =? "}")%byte) name = true
  | ELetter _ c => c <> "{"%byte
  | EQuote text => find (s2b "\E") (text ++ s2b "\E") = Some (length text)
  end.

Definition startsByte (c : byte) (s : bytes) : bool := startsWith [c] s.

Fixpoint okMember (m : member) (rest : bytes) : Prop :=
  match m with
  | MChar c => okChar (s2b "[]\") c /\ startsWith (s2b "&&") (c ++ rest) = false
  | MEscape e => okEscape e rest
  | MUnion ms =>
      ms <> [] /\ startsByte "^" (flat_map java_member ms) = false /\
      (fix oks (ms : list member) : Prop :=
         match ms with
         | [] => True
         | m :: ms => okMember m (flat_map java_member ms ++ s2b "]" ++ rest) /\ oks ms
         end) ms
  end.

Fixpoint okMembers (ms : list member) (rest : bytes) : Prop :=
  match ms with
  | [] => True
  | m :: ms => okMember m (flat_map java_member ms ++ s2b "]" ++ rest) /\ okMembers ms rest
  end.

Definition isUnion (m : member) : bool := match m with MUnion _ => true | _ => false end.

(** [leading]: only groups of flags came before. *)
Definition okToken (leading : bool) (t : token) (rest : bytes) : Prop :=
  match t with
  | TChar c => okChar (s2b "[\") c /\ startsFlags (c ++ rest) = false
  | TEscape e => okEscape e rest
  | TClass complement bracket ms =>
      okMembers ms rest /\
      (if bracket then True
       else ms <> [] /\ (if complement then True else startsByte "^" (flat_map java_member ms) = false)) /\
      (if complement then forallb (fun m => negb (isUnion m)) ms = true else True)
  | TFlags on off _ =>
      on ++ off <> [] /\
      forallb (fun f => existsb (fun c => f =? c)%byte (if leading then s2b "idmsuxU" else s2b "imsux")) on = true /\
      forallb (fun f => existsb (fun c => f =? c)%byte (s2b "imsux")) off = true
  end.

Definition stillLeading (leading : bool) (t : token) : bool :=
  match t with TFlags _ _ scoped => leading && negb scoped | _ => false end.

Fixpoint okTokens (leading : bool) (ts : list token) : Prop :=
  match ts with
  | [] => True
  | t :: ts => okToken leading t (java ts) /\ okTokens (stillLeading leading t) ts
  end.

(** ** Turns of the loop *)

Inductive goes (src : bytes) : bytes -> translation -> bytes -> translation -> Prop :=
| goes_refl s t : goes src s t s t
| goes_step c s t s1 t1 s2 t2 : translateStep src c (c :: s) t = Ok (s1, t1) -> goes src s1 t1 s2 t2 -> goes src (c :: s) t s2 t2.

Lemma goes_trans src s t s1 t1 s2 t2 : goes src s t s1 t1 -> goes src s1 t1 s2 t2 -> goes src s t s2 t2.
Proof. induction 1; [done|]. intros. eapply goes_step; eauto. Qed.

Lemma goes_one src c s t s1 t1 : translateStep src c (c :: s) t = Ok (s1, t1) -> goes src (c :: s) t s1 t1.
Proof. intros. eapply goes_step; [done|constructor]. Qed.

Lemma inlineFlags_shorter src s minus on off t on' off' t' rest :
  inlineFlags src s minus on off t = Ok (on', off', t', rest) -> (length rest <= length s)%nat.
Proof.
  revert minus on off t. induction s as [|f s IH]; intros minus on off t; cbn [inlineFlags].
  - by intros [= <- <- <- <-].
  - repeat (case_match; try (intros [= <- <- <- <-]; cbn; lia); try done); intros Hi%IH; cbn; lia.
Qed.

Lemma octalDigits_shorter n v s : (length (octalDigits n v s).2 <= length s)%nat.
Proof.
  revert v s. induction n as [|n IH]; intros v s; [done|]. destruct s as [|c s]; [done|]. cbn [octalDigits].
  destruct (in_range _ _ _); [|done]. specialize (IH (v * 8 + (u8 c - 48)) s).
  destruct (octalDigits n _ s) as [[v' k] s']. cbn in *. lia.
Qed.

Lemma escapePiece_shorter inC src n s piece rest : (2 <= length s)%nat ->
  escapePiece inC src n s = Ok (piece, rest) -> (length rest < length s)%nat.
Proof.
  intros Hs. unfold escapePiece, unicodePiece, octalPiece, familyPiece, syntaxError. case_match; [|case_match; [|case_match; [|case_match; [done|]]]].
  - destruct (_ <? 0); [done|]. destruct (if _ : bool then _ else _) as [v len] eqn:Ev.
    assert (6 <= len)%nat by (destruct (_ && _ : bool) in Ev; simplify_eq; lia).
    destruct ((0xD800 <=? v) && (v <=? 0xDFFF)); [by intros [=]|]. intros [= <- <-]. rewrite length_drop; lia.
  - destruct (octalDigits _ _ _) as [[v digits] rest'] eqn:Eo. destruct (_ =? _)%nat; [done|]. intros [= <- <-].
    pose proof (octalDigits_shorter (match drop 2 s with c :: _ => if in_range "0" c "3" then 3%nat else 2%nat | [] => 2%nat end) 0 (drop 2 s)) as Hl.
    rewrite Eo in Hl. cbn in Hl. rewrite length_drop in Hl. lia.
  - unfold mbind, result_bind. assert (Hk := length_drop s 2). destruct (if startsWith _ (drop 2 s) then _ else _) as [[name rest']|] eqn:En; [|done].
    assert (Hr : (length rest' < length s)%nat) by (repeat case_match; simplify_eq; rewrite ?length_drop in *; lia).
    intros E. assert (rest = rest') as -> by (repeat case_match; by simplify_eq). done.
  - intros [= <- <-]. pose proof (utf8Length_bounds n). rewrite length_drop. lia.
Qed.

Lemma drop_shorter (n : nat) (c : byte) s : (1 <= n)%nat -> (length (drop n (c :: s)) <= length s)%nat.
Proof. intros Hn. rewrite length_drop. cbn. lia. Qed.

Lemma step_shorter src c s t s' t' : translateStep src c (c :: s) t = Ok (s', t') -> (length s' <= length s)%nat.
Proof.
  pose proof (utf8Length_bounds c) as Hu. unfold translateStep. cbn [drop]. rewrite !drop_0.
  assert (Hrest : (if (0 <? depth t)%nat then inClass src c (c :: s) t
     else if (c =? "[")%byte then Ok (openClass (c :: s) t)
     else if startsFlags (c :: s) then flagGroup src (c :: s) t
     else let len := utf8Length c in Ok (drop len (c :: s), set_leading false (append (take len (c :: s)) t))) = Ok (s', t') ->
    (length s' <= length s)%nat).
  { destruct (0 <? depth t)%nat; [|destruct (c =? "[")%byte; [|destruct (startsFlags _)]].
    - unfold inClass, syntaxError. destruct (c =? "[")%byte; [destruct (_ || _); [done|]; intros [= <- _]; done|].
      destruct (startsWith _ _); [done|]. destruct (c =? "]")%byte; intros [= <- _]; [done|]. apply drop_shorter; lia.
    - unfold openClass. cbn [drop]. rewrite !drop_0.
      destruct (startsWith ["^"%byte] s); [destruct (startsWith ["]"%byte] (drop 1 s))|destruct (startsWith ["]"%byte] s)];
        cbv beta iota zeta; intros [= <- _]; rewrite ?length_drop; lia.
    - unfold flagGroup, syntaxError, mbind, result_bind. destruct (inlineFlags _ _ _ _ _ _) as [[[[on off] t0] rest]|] eqn:Ef; [|done].
      apply inlineFlags_shorter in Ef. rewrite length_drop in Ef. cbn in Ef. destruct (_ && _); [done|].
      intros [= <- _]. rewrite length_drop. lia.
    - intros [= <- _]. apply drop_shorter. lia. }
  destruct s as [|n s]; [exact Hrest|]. destruct (c =? "\")%byte; [|exact Hrest].
  destruct (n =? "Q")%byte.
  - unfold quotedPiece. cbv beta iota zeta. intros [= <- _]. rewrite length_drop. destruct (find _ _); cbn; lia.
  - unfold mbind, result_bind. destruct (escapePiece _ _ _ _) as [[piece rest]|] eqn:Ee; [|done]. intros [= <- _].
    apply escapePiece_shorter in Ee; cbn in *; lia.
Qed.

(** One turn a byte is enough. *)
Lemma translateLoop_total n src s t : (length s <= n)%nat -> exists r, translateLoop n src s t = Some r.
Proof.
  revert s t. induction n as [|n IH]; intros [|c s] t Hl; cbn [translateLoop]; [by eexists|cbn in Hl; lia|by eexists|].
  destruct (translateStep src c (c :: s) t) as [[s' t']|e] eqn:E; [|by eexists].
  apply IH. apply step_shorter in E. cbn in Hl. lia.
Qed.

Lemma goes_loop n src s t t' : goes src s t [] t' -> (length s <= n)%nat -> translateLoop n src s t = Some (Ok t').
Proof.
  intros Hg. remember [] as s' eqn:Es. revert n. induction Hg as [s t|c s t s1 t1 s2 t2 E Hg IH]; intros n Hl.
  - subst. by destruct n.
  - destruct n as [|n]; cbn in Hl; [lia|]. cbn [translateLoop]. rewrite E. apply IH; [done|].
    apply step_shorter in E. lia.
Qed.

(** ** Escapes *)

Lemma hex_fold digits v : 0 <= v -> forallb isHex digits = true ->
  fold_left (fun v h => if (v <? 0) || (hexValue h <? 0) then -1 else v * 16 + hexValue h) digits v =
  fold_left (fun v h => v * 16 + hexValue h) digits v /\ 0 <= fold_left (fun v h => v * 16 + hexValue h) digits v.
Proof.
  revert v. induction digits as [|h digits IH]; intros v Hv Hd; [done|]. cbn in Hd. apply andb_prop in Hd as [Hh Hd].
  unfold isHex in Hh. apply Z.leb_le in Hh. cbn [fold_left].
  destruct (Z.ltb_spec v 0); [lia|]. destruct (Z.ltb_spec (hexValue h) 0); [lia|]. cbn [orb]. apply IH; [lia|done].
Qed.

Lemma quad_at digits rest : length digits = 4%nat -> forallb isHex digits = true ->
  unicodeEscapeAt (s2b "\u" ++ digits ++ rest) = quad digits /\ 0 <= quad digits.
Proof.
  intros Hl Hh. unfold unicodeEscapeAt, quad. cbn [s2b]. 
  replace (_ && _) with true.
  - change (drop 2 (s2b "\u" ++ digits ++ rest)) with (digits ++ rest).
    replace (take 4 (digits ++ rest)) with digits by (by rewrite take_app_le, take_ge by lia).
    destruct (hex_fold digits 0 ltac:(lia) Hh) as [-> H]. done.
  - symmetry. cbn. rewrite length_app, Hl. done.
Qed.

Lemma octalDigits_spec n ds v rest : forallb isOctal ds = true -> (length ds <= n)%nat ->
  (length ds = n \/ match rest with c :: _ => isOctal c = false | [] => True end) ->
  octalDigits n v (ds ++ rest) = (fold_left (fun v d => v * 8 + (u8 d - 48)) ds v, length ds, rest).
Proof.
  revert n v. induction ds as [|d ds IH]; intros n v Hd Hl Hrest.
  - cbn. destruct n as [|n]; [done|]. destruct rest as [|c rest]; [done|]. cbn. destruct Hrest as [|Hc]; [done|]. unfold isOctal in Hc. by rewrite Hc.
  - cbn in Hd. apply andb_prop in Hd as [Hd Hds]. destruct n as [|n]; cbn in Hl; [lia|]. cbn [app octalDigits]. unfold isOctal in Hd. rewrite Hd.
    rewrite IH; [done..|lia|]. destruct Hrest as [Hr|Hr]; [left; cbn in Hr; lia|by right].
Qed.

(** The escape at the head of the text, outside of [\Q]. *)
Definition isQuote (e : escape) : bool := match e with EQuote _ => true | _ => false end.

Lemma special_false c special : existsb (fun x => c =? x)%byte special = false -> forall x, x ∈ special -> (c =? x)%byte = false.
Proof.
  intros Hs x Hx. destruct (c =? x)%byte eqn:E; [|done]. exfalso. rewrite <- not_true_iff_false, existsb_exists in Hs.
  apply Hs. exists x. split; [by apply list_elem_of_In|done].
Qed.

Lemma char_piece inC src c rest : okChar (s2b "Qu0NpP") c ->
  exists n s, c ++ rest = n :: s /\ (n =? "Q")%byte = false /\ escapePiece inC src n ("\"%byte :: c ++ rest) = Ok ("\"%byte :: c, rest).
Proof.
  destruct c as [|n cs]; [done|]. intros [Hl Hs]. exists n, (cs ++ rest). split; [done|].
  pose proof (special_false n _ Hs) as Hx. split; [apply Hx; by left|]. unfold escapePiece.
  rewrite (Hx "u"%byte), (Hx "0"%byte), (Hx "p"%byte), (Hx "P"%byte), (Hx "N"%byte) by (cbn; set_solver). cbn [andb orb].
  rewrite <- Hl. change ("\"%byte :: (n :: cs) ++ rest) with (("\"%byte :: n :: cs) ++ rest).
  change (S (length (n :: cs))) with (length ("\"%byte :: n :: cs)). by rewrite take_app_length, drop_app_length.
Qed.

Lemma unicode_piece src digits rest : okEscape (EUnicode digits) rest ->
  unicodePiece src (s2b "\u" ++ digits ++ rest) = Ok (hexEscape (quad digits), rest).
Proof.
  intros (Hl & Hh & Hq). unfold unicodePiece. destruct (quad_at digits rest Hl Hh) as [-> Hpos].
  destruct (Z.ltb_spec (quad digits) 0); [lia|].
  destruct (if _ : bool then _ else _) as [v len] eqn:E.
  assert (v = quad digits /\ len = 6%nat) as [-> ->].
  { revert E. z_cases; cbn [andb]; intros; simplify_eq; try done; lia. }
  replace (_ && _) with false by z_cases. do 2 f_equal. cbn. by rewrite drop_app_ge, Hl by lia.
Qed.

Lemma surrogates_piece src high low rest : okEscape (ESurrogates high low) rest ->
  unicodePiece src (s2b "\u" ++ high ++ s2b "\u" ++ low ++ rest) =
    Ok (hexEscape (0x10000 + (quad high - 0xD800) * 1024 + (quad low - 0xDC00)), rest).
Proof.
  intros (Hl & Hh & Hq & Hl' & Hh' & Hq'). unfold unicodePiece.
  destruct (quad_at high (s2b "\u" ++ low ++ rest) Hl Hh) as [-> Hpos].
  assert (drop 6 (s2b "\u" ++ high ++ s2b "\u" ++ low ++ rest) = s2b "\u" ++ low ++ rest) as ->.
  { cbn. by rewrite drop_app_ge, Hl by lia. }
  destruct (quad_at low rest Hl' Hh') as [-> Hpos']. destruct (Z.ltb_spec (quad high) 0); [lia|].
  destruct (if _ : bool then _ else _) as [v len] eqn:E.
  assert (v = 0x10000 + (quad high - 0xD800) * 1024 + (quad low - 0xDC00) /\ len = 12%nat) as [-> ->].
  { revert E. rewrite Z.shiftl_mul_pow2 by lia. z_cases; cbn [andb]; intros; simplify_eq; split; lia || done. }
  replace (_ && _) with false by z_cases. do 2 f_equal. cbn.
  rewrite drop_app_ge, Hl by lia. cbn. by rewrite drop_app_ge, Hl' by lia.
Qed.

Lemma octal_piece src digits rest : okEscape (EOctal digits) rest ->
  octalPiece src (s2b "\0" ++ digits ++ rest) = Ok (hexEscape (octal digits), rest).
Proof.
  intros (d & ds & -> & Ho & Hmost). unfold octalPiece.
  change (drop 2 (s2b "\0" ++ (d :: ds) ++ rest)) with ((d :: ds) ++ rest). cbn [app]. change (d :: ds ++ rest) with ((d :: ds) ++ rest).
  cbn zeta in Hmost. rewrite (octalDigits_spec _ (d :: ds) 0 rest Ho); [|lia|].
  - by cbn [length Nat.eqb].
  - destruct Hmost as [Hm|[_ Hm]]; [by left|by right].
Qed.

Lemma posix_length name posix : posixClassOf name = Some posix -> (5 <= length name)%nat.
Proof.
  unfold posixClassOf. destruct (List.find _ posixClasses) as [c|] eqn:Ef; [|done]. intros _.
  apply List.find_some in Ef as [Hin Hc]. apply bool_decide_eq_true in Hc as <-.
  cbn [posixClasses In] in Hin. repeat destruct Hin as [<-|Hin]; cbn; lia || done.
Qed.

Lemma family_piece inC src complement name rest : okEscape (EFamily complement name) rest ->
  familyPiece inC src (java_letter complement) (java_escape (EFamily complement name) ++ rest) =
    Ok (pcre_escape inC (EFamily complement name), rest).
Proof.
  intros Hn. unfold okEscape in Hn. unfold familyPiece, java_escape.
  replace (drop 2 _) with (s2b "{" ++ name ++ "}"%byte :: rest) by (cbn; by rewrite <- app_assoc).
  rewrite (startsWith_app (s2b "{")). change (drop 1 (s2b "{" ++ name ++ "}"%byte :: rest)) with (name ++ "}"%byte :: rest).
  rewrite find_byte by done. unfold mbind, result_bind.
  rewrite take_app_length. replace (drop _ _) with rest.
  2:{ rewrite drop_app_ge by lia. by replace (S (length name) - length name)%nat with 1%nat by lia. }
  cbn [pcre_escape]. destruct (posixClassOf name) as [posix|]; [by destruct complement|done].
Qed.

Lemma letter_piece inC src complement c rest : okEscape (ELetter complement c) rest ->
  familyPiece inC src (java_letter complement) (java_escape (ELetter complement c) ++ rest) =
    Ok (pcre_escape inC (ELetter complement c), rest).
Proof.
  intros Hc. unfold okEscape in Hc. unfold familyPiece, java_escape. cbn [app drop]. rewrite drop_0. cbn [startsWith].
  destruct (byte_eqb_spec "{" c) as [<-|_]; [done|]. cbn [andb take drop]. unfold mbind, result_bind.
  destruct (posixClassOf [c]) as [posix|] eqn:E; [apply posix_length in E; cbn in E; lia|]. by rewrite take_0, E.
Qed.

Lemma java_escape_head e : exists s, java_escape e = "\"%byte :: s.
Proof. destruct e; by eexists. Qed.

(** One turn writes what the escape stands for. *)
Lemma escape_step src e rest t : okEscape e rest ->
  goes src (java_escape e ++ rest) t rest (set_leading false (emitPiece (pcre_escape (0 <? depth t)%nat e) t)).
Proof.
  intros Hok.
  assert (Hpiece : forall n s, java_escape e ++ rest = "\"%byte :: n :: s -> (n =? "Q")%byte = false ->
    escapePiece (0 <? depth t)%nat src n (java_escape e ++ rest) = Ok (pcre_escape (0 <? depth t)%nat e, rest) ->
    goes src (java_escape e ++ rest) t rest (set_leading false (emitPiece (pcre_escape (0 <? depth t)%nat e) t))).
  { intros n s Es Hn Hp. rewrite Es in *. apply goes_one. unfold translateStep. cbn [drop]. rewrite ?drop_0. cbn [Byte.eqb].
    rewrite Hn, Hp. done. }
  destruct e as [c|digits|high low|digits|complement name|complement c|text].
  - destruct (char_piece (0 <? depth t)%nat src c rest Hok) as (n & s & Es & Hn & Hp). apply (Hpiece n s); [by cbn; rewrite Es|done|done].
  - eapply Hpiece; [reflexivity|done|]. cbn [java_escape]. rewrite <- app_assoc. apply unicode_piece, Hok.
  - eapply Hpiece; [reflexivity|done|]. cbn [java_escape]. rewrite <- !app_assoc. apply surrogates_piece, Hok.
  - eapply Hpiece; [reflexivity|done|]. cbn [java_escape]. rewrite <- !app_assoc. apply octal_piece, Hok.
  - eapply Hpiece; [reflexivity|by destruct complement|]. rewrite <- family_piece with (src := src) by done.
    unfold escapePiece. by destruct complement.
  - eapply Hpiece; [reflexivity|by destruct complement|]. rewrite <- letter_piece with (src := src) by done.
    unfold escapePiece. by destruct complement.
  - unfold okEscape in Hok. apply goes_one. unfold translateStep. cbn [drop java_escape app s2b].
    assert (quotedPiece ((s2b "\Q" ++ text ++ s2b "\E") ++ rest) = (s2b "\Q" ++ text ++ s2b "\E", rest)) as E.
    { unfold quotedPiece. rewrite <- !app_assoc. change (drop 2 (s2b "\Q" ++ text ++ s2b "\E" ++ rest)) with (text ++ s2b "\E" ++ rest).
      rewrite (app_assoc text), (find_further _ _ rest _ Hok), <- app_assoc.
      replace (2 + length text + 2)%nat with (length (s2b "\Q" ++ text ++ s2b "\E")) by (rewrite !length_app; cbn; lia).
      replace (s2b "\Q" ++ text ++ s2b "\E" ++ rest) with ((s2b "\Q" ++ text ++ s2b "\E") ++ rest) by (by rewrite <- !app_assoc).
      by rewrite take_app_length, drop_app_length. }
    change ("\"%byte =? "\")%byte with true. cbv iota. change ("Q"%byte =? "Q")%byte with true. cbv iota.
    match goal with |- context [quotedPiece ?x] => change x with ((s2b "\Q" ++ text ++ s2b "\E") ++ rest) end. by rewrite E.
Qed.

(** ** Classes *)

Definition wrote (t : translation) (w : bytes) (t' : translation) : Prop :=
  out t' = out t ++ w /\ depth t' = depth t /\ negated t' = negated t /\ ucp t' = ucp t /\ unixLines t' = unixLines t.

Lemma wrote_trans t w t1 w' t2 : wrote t w t1 -> wrote t1 w' t2 -> wrote t (w ++ w') t2.
Proof. unfold wrote. intros (E & -> & -> & -> & ->) (-> & -> & -> & -> & ->). rewrite E, app_assoc. done. Qed.

Lemma emitInClass_wrote p t : wrote t (guarded (justOpened t) p) (emitInClass p t) /\ justOpened (emitInClass p t) = false /\ leading (emitInClass p t) = leading t.
Proof.
  unfold emitInClass, wrote. destruct p as [|c p]; [done|]. cbn [guarded].
  destruct (justOpened t); cbn [andb]; [destruct (_ || _)|]; cbn; by rewrite <- ?app_assoc.
Qed.

Lemma joined_false ps : joined false ps = concat ps.
Proof. destruct ps as [|[|c p] ps]; done. Qed.

Lemma joined_app first ps qs : ps <> [] -> joined first (ps ++ qs) = joined first ps ++ concat qs.
Proof. destruct ps as [|p ps]; [done|]. intros _. cbn. by rewrite concat_app, app_assoc. Qed.

Definition member_nested_ind (P : member -> Prop) (HC : forall c, P (MChar c)) (HE : forall e, P (MEscape e))
  (HU : forall ms, Forall P ms -> P (MUnion ms)) : forall m, P m :=
  fix go m :=
    match m with
    | MChar c => HC c
    | MEscape e => HE e
    | MUnion ms =>
        HU ms ((fix gos (ms : list member) : Forall P ms :=
                  match ms with [] => List.Forall_nil _ | m :: ms => List.Forall_cons P m ms (go m) (gos ms) end) ms)
    end.

Lemma okMember_union ms rest : okMember (MUnion ms) rest <->
  ms <> [] /\ startsByte "^" (flat_map java_member ms) = false /\ okMembers ms rest.
Proof.
  cbn [okMember].
  assert (E : (fix oks (ms : list member) : Prop :=
     match ms with [] => True | m :: ms => okMember m (flat_map java_member ms ++ s2b "]" ++ rest) /\ oks ms end) ms <-> okMembers ms rest).
  { clear. induction ms as [|m ms IH]; [done|]. cbn [okMembers]. by rewrite <- IH. }
  by rewrite E.
Qed.

Lemma java_member_ne m rest : okMember m rest -> java_member m <> [].
Proof.
  destruct m as [[|c cs]|e|ms]; cbn; [by intros [[] _]|done| |done].
  destruct (java_escape_head e) as [s ->]. done.
Qed.

Lemma pieces_ne m rest : okMember m rest -> pieces m <> [].
Proof.
  revert rest. induction m as [c|e|ms IH] using member_nested_ind; intros rest Hok; cbn; [done..|].
  apply okMember_union in Hok as (Hne & _ & Hoks). destruct IH as [|m ms Hm _]; [done|]. destruct Hoks as [Hok _].
  cbn. intros [E _]%app_eq_nil. by eapply Hm.
Qed.

(** Nothing is a caret, before a bracket, when no member is one. *)
Lemma members_caret ms rest tail : ms <> [] -> okMembers ms rest -> startsByte "^" (flat_map java_member ms) = false ->
  startsWith (s2b "^") (flat_map java_member ms ++ tail) = false.
Proof.
  intros Hne Hok Hc. rewrite startsWith_fewer; [done|]. destruct ms as [|m ms]; [done|]. destruct Hok as [Hok _].
  apply java_member_ne in Hok. cbn. rewrite length_app. destruct (java_member m); [done|]. cbn. lia.
Qed.

Definition in_class (t : translation) (m : member) : Prop :=
  (0 < depth t)%nat /\ leading t = false /\ (negated t = false \/ isUnion m = false).

(** What reading a member does. *)
Definition member_goes (src : bytes) (m : member) : Prop := forall rest t, okMember m rest -> in_class t m ->
  exists t', goes src (java_member m ++ rest) t rest t' /\ wrote t (joined (justOpened t) (pieces m)) t' /\
    justOpened t' = false /\ leading t' = false.

Lemma in_class_step src c s t : (c =? "\")%byte = false -> (0 < depth t)%nat ->
  translateStep src c (c :: s) t = inClass src c (c :: s) t.
Proof.
  intros Hc Hd. unfold translateStep. rewrite Hc, (proj2 (Nat.ltb_lt 0 (depth t)) Hd). by destruct (drop 1 (c :: s)).
Qed.

Lemma char_goes src c : member_goes src (MChar c).
Proof.
  intros rest t [Hc Hand] (Hd & Hlead & _). destruct c as [|lead cs]; [done|]. destruct Hc as [Hl Hs].
  pose proof (special_false lead _ Hs) as Hx. cbn [java_member app]. eexists. split.
  - apply goes_one. rewrite in_class_step by (done || apply Hx; cbn; set_solver). unfold inClass.
    rewrite (Hx "["%byte), (Hx "]"%byte) by (cbn; set_solver). cbn [app] in Hand. rewrite Hand.
    rewrite <- Hl. change (lead :: cs ++ rest) with ((lead :: cs) ++ rest). rewrite take_app_length, drop_app_length. reflexivity.
  - cbn [pieces joined concat]. rewrite app_nil_r. destruct (emitInClass_wrote (lead :: cs) t) as (? & ? & ->). done.
Qed.

Lemma escape_goes src e : member_goes src (MEscape e).
Proof.
  intros rest t Hok (Hd & Hlead & _). eexists. split; [apply escape_step, Hok|].
  rewrite (proj2 (Nat.ltb_lt 0 (depth t)) Hd). unfold emitPiece. rewrite (proj2 (Nat.ltb_lt 0 (depth t)) Hd).
  cbn [pieces joined concat]. rewrite app_nil_r. destruct (emitInClass_wrote (pcre_escape true e) t) as ((? & ? & ? & ? & ?) & ? & ?). done.
Qed.

Lemma members_goes src ms rest t : Forall (member_goes src) ms -> okMembers ms rest ->
  (0 < depth t)%nat -> leading t = false -> (negated t = false \/ forallb (fun m => negb (isUnion m)) ms = true) ->
  exists t', goes src (flat_map java_member ms ++ s2b "]" ++ rest) t (s2b "]" ++ rest) t' /\
    wrote t (joined (justOpened t) (flat_map pieces ms)) t' /\ leading t' = false.
Proof.
  intros Hms. revert t. induction Hms as [|m ms Hm Hms IH]; intros t Hok Hd Hlead Hneg.
  - exists t. split; [constructor|]. split; [|done]. unfold wrote. cbn. by rewrite app_nil_r.
  - destruct Hok as [Hok Hoks]. cbn [flat_map]. rewrite <- app_assoc.
    destruct (Hm _ t Hok) as (t1 & Hg1 & Hw1 & Hj1 & Hl1).
    { split; [done|]. split; [done|]. destruct Hneg as [|Hu]; [by left|right]. cbn in Hu. by destruct (isUnion m). }
    assert (Hw1' := Hw1). destruct Hw1' as (_ & Hd1 & Hn1 & _).
    destruct (IH t1 Hoks) as (t2 & Hg2 & Hw2 & Hl2); [by rewrite Hd1|done|rewrite Hn1; destruct Hneg as [|Hu]; [by left|right; cbn in Hu; by apply andb_prop in Hu as [_ ?]]|].
    exists t2. split; [by eapply goes_trans|]. split; [|done].
    rewrite joined_app by (by eapply pieces_ne). rewrite <- (joined_false (flat_map pieces ms)), <- Hj1. by eapply wrote_trans.
Qed.

Lemma union_goes src ms : Forall (member_goes src) ms -> member_goes src (MUnion ms).
Proof.
  intros Hms rest t Hok (Hd & Hlead & [Hneg|]); [|done]. apply okMember_union in Hok as (Hne & Hcaret & Hok).
  cbn [java_member]. rewrite <- !app_assoc.
  destruct (members_goes src ms rest (set_depth (S (depth t)) t) Hms Hok) as (t1 & Hg & (Ho & Hd1 & Hn & Hu & Hx) & Hl); [cbn; lia|done|by left|].
  exists (set_justOpened false (set_depth (depth t1 - 1) t1)). split; [|split].
  - eapply (goes_step src "["%byte); [|eapply goes_trans; [exact Hg|]].
    + rewrite in_class_step by done. unfold inClass. cbn [Byte.eqb]. rewrite Hneg. cbn [orb drop]. rewrite drop_0.
      rewrite members_caret with (rest := rest) by done. reflexivity.
    + apply goes_one. rewrite in_class_step by (done || (rewrite Hd1; cbn; lia)). unfold inClass. 
      change (startsWith (s2b "&&") (_ :: _)) with false. cbv iota. rewrite Hd1. cbn. destruct (depth t) as [|n]; [lia|]. done.
  - unfold wrote. cbn. cbn in Ho, Hd1, Hn, Hu, Hx. rewrite Ho, Hd1, Hn, Hu, Hx. split_and!; try done. lia.
  - done.
Qed.

Lemma member_all_goes src m : member_goes src m.
Proof. induction m using member_nested_ind; auto using char_goes, escape_goes, union_goes. Qed.

(** ** Flags *)

Definition flagged (on : bytes) (t : translation) : translation :=
  mkTranslation (out t) (depth t) (negated t) (justOpened t) (leading t)
    (ucp t || existsb (fun f => f =? "U")%byte on) (unixLines t || existsb (fun f => f =? "d")%byte on).

Lemma flagged_nil t : flagged [] t = t.
Proof. unfold flagged. cbn. rewrite !orb_false_r. by destruct t. Qed.

Definition isFlag (allowed : string) (f : byte) : bool := existsb (fun c => f =? c)%byte (s2b allowed).

(** The letters that are flags. *)
Lemma flag_letter allowed f : isFlag allowed f = true -> In f (s2b allowed).
Proof. unfold isFlag. rewrite existsb_exists. intros (c & Hc & E). by destruct (byte_eqb_spec f c) as [->|]. Qed.

Lemma flags_on src on r acc t : forallb (isFlag (if leading t then "idmsuxU" else "imsux")) on = true ->
  inlineFlags src (on ++ r) false acc [] t = inlineFlags src r false (acc ++ flat_map pcre_flag on) [] (flagged on t).
Proof.
  revert acc t. induction on as [|f on IH]; intros acc t Hf; [by rewrite flagged_nil, app_nil_r|].
  cbn [forallb] in Hf. apply andb_prop in Hf as [Hf%flag_letter Hon]. cbn [app inlineFlags flat_map].
  assert (flagged (f :: on) t = flagged on (mkTranslation (out t) (depth t) (negated t) (justOpened t) (leading t)
      (ucp t || (f =? "U")%byte) (unixLines t || (f =? "d")%byte))) as ->.
  { unfold flagged. cbn. by rewrite !orb_assoc. }
  rewrite app_assoc.
  assert (Hd : (f =? "d")%byte = false -> (f =? "U")%byte = false -> mkTranslation (out t) (depth t) (negated t) (justOpened t) (leading t)
      (ucp t || (f =? "U")%byte) (unixLines t || (f =? "d")%byte) = t).
  { intros -> ->. rewrite !orb_false_r. by destruct t. }
  destruct (leading t) eqn:El; cbn in Hf; repeat destruct Hf as [<-|Hf]; try done.
  all: try (rewrite Hd by done). all: cbn -[flagged].
  all: rewrite ?El; cbn -[flagged]; rewrite ?app_nil_r; apply IH; cbn; rewrite ?El; exact Hon.
Qed.

Lemma flags_off src off r a b t : forallb (isFlag "imsux") off = true ->
  inlineFlags src (off ++ r) true a b t = inlineFlags src r true a (b ++ without_u off) t.
Proof.
  revert b. induction off as [|f off IH]; intros b Hf; [by rewrite app_nil_r|].
  cbn [forallb] in Hf. apply andb_prop in Hf as [Hf%flag_letter Hoff]. cbn [app inlineFlags without_u].
  cbn in Hf. repeat destruct Hf as [<-|Hf]; try done.
  all: cbn. all: rewrite (IH _ Hoff), <- ?app_assoc; done.
Qed.

(** ** Tokens *)

(** After a token outside of classes. *)
Definition token_written (leading0 : bool) (k : token) (t t' : translation) : Prop :=
  out t' = out t ++ pcre_token k /\ depth t' = 0%nat /\ leading t' = stillLeading leading0 k /\
  ucp t' = (ucp t || asks "U" k) /\ unixLines t' = (unixLines t || asks "d" k).

Lemma outside_step src c s t : (c =? "\")%byte = false -> depth t = 0%nat ->
  translateStep src c (c :: s) t =
    if (c =? "[")%byte then Ok (openClass (c :: s) t)
    else if startsFlags (c :: s) then flagGroup src (c :: s) t
    else Ok (drop (utf8Length c) (c :: s), set_leading false (append (take (utf8Length c) (c :: s)) t)).
Proof. intros Hc Hd. unfold translateStep. rewrite Hc, Hd. by destruct (drop 1 (c :: s)). Qed.

Lemma tchar_goes src c rest t : depth t = 0%nat -> okToken (leading t) (TChar c) rest ->
  exists t', goes src (c ++ rest) t rest t' /\ token_written (leading t) (TChar c) t t'.
Proof.
  intros Hd [Hc Hf]. destruct c as [|lead cs]; [done|]. destruct Hc as [Hl Hs]. pose proof (special_false lead _ Hs) as Hx.
  cbn [app]. eexists. split.
  - apply goes_one. rewrite outside_step by (done || apply Hx; cbn; set_solver). rewrite (Hx "["%byte) by (cbn; set_solver).
    cbn [app] in Hf. rewrite Hf, <- Hl. change (lead :: cs ++ rest) with ((lead :: cs) ++ rest).
    rewrite take_app_length, drop_app_length. reflexivity.
  - unfold token_written. cbn. by rewrite !orb_false_r.
Qed.

Lemma tescape_goes src e rest t : depth t = 0%nat -> okEscape e rest ->
  exists t', goes src (java_escape e ++ rest) t rest t' /\ token_written (leading t) (TEscape e) t t'.
Proof.
  intros Hd Hok. eexists. split; [apply escape_step, Hok|]. rewrite Hd. unfold emitPiece. rewrite Hd. unfold token_written. cbn.
  by rewrite !orb_false_r.
Qed.

Definition opened (complement bracket : bool) (t : translation) : translation :=
  mkTranslation (out t ++ s2b "[" ++ (if complement then s2b "^" else []) ++ (if bracket then s2b "\]" else []))
    1 complement (negb bracket) false (ucp t) (unixLines t).

Lemma openClass_opened complement bracket s t :
  (complement = false -> bracket = false -> startsWith (s2b "^") s = false) -> (bracket = false -> startsWith (s2b "]") s = false) ->
  openClass (s2b "[" ++ (if complement then s2b "^" else []) ++ (if bracket then s2b "]" else []) ++ s) t = (s, opened complement bracket t).
Proof.
  intros Hcaret Hbracket. set (Y := (if bracket then s2b "]" else []) ++ s).
  assert (Hc : startsWith (s2b "^") ((if complement then s2b "^" else []) ++ Y) = complement).
  { subst Y. destruct complement, bracket; [done..|]. by apply Hcaret. }
  assert (Hb : startsWith (s2b "]") Y = bracket) by (subst Y; destruct bracket; [done|by apply Hbracket]).
  unfold openClass. change (drop 1 (s2b "[" ++ ?x)) with (drop 0 x). rewrite drop_0.
  change ["^"%byte] with (s2b "^"). change ["]"%byte] with (s2b "]"). rewrite Hc.
  assert (Hd : (if complement then drop 1 ((if complement then s2b "^" else []) ++ Y) else (if complement then s2b "^" else []) ++ Y) = Y).
  { destruct complement; [|done]. change (drop 1 (s2b "^" ++ Y)) with (drop 0 Y). apply drop_0. }
  assert (Hdb : (if bracket then drop 1 Y else Y) = s).
  { subst Y. destruct bracket; [|done]. change (drop 1 (s2b "]" ++ s)) with (drop 0 s). apply drop_0. }
  unfold opened, append. destruct complement; rewrite ?Hd, Hb; destruct bracket; cbn -[drop] in *; rewrite ?Hdb, ?app_nil_r, <- ?app_assoc; done.
Qed.

(** No member starts with a closing bracket. *)
Lemma members_bracket ms rest tail : ms <> [] -> okMembers ms rest -> startsWith (s2b "]") (flat_map java_member ms ++ tail) = false.
Proof.
  intros Hne Hok. destruct ms as [|m ms]; [done|]. destruct Hok as [Hok _]. destruct m as [[|c cs]|e|us].
  - by destruct Hok as [[] _].
  - destruct Hok as [[_ Hs] _]. pose proof (special_false c _ Hs "]"%byte ltac:(cbn; set_solver)) as Hc.
    cbn [flat_map java_member app]. change (startsWith (s2b "]") (c :: ?x)) with (("]" =? c)%byte && true).
    destruct (byte_eqb_spec "]" c) as [<-|]; done.
  - cbn [flat_map java_member]. destruct (java_escape_head e) as [s ->]. done.
  - done.
Qed.

Lemma class_step src x t s' t' : depth t = 0%nat -> openClass (s2b "[" ++ x) t = (s', t') -> goes src (s2b "[" ++ x) t s' t'.
Proof. intros Hd E. apply goes_one. rewrite outside_step by done. by rewrite <- E. Qed.

Lemma tclass_goes src complement bracket ms rest t : depth t = 0%nat -> okToken (leading t) (TClass complement bracket ms) rest ->
  exists t', goes src (java_token (TClass complement bracket ms) ++ rest) t rest t' /\
    token_written (leading t) (TClass complement bracket ms) t t'.
Proof.
  intros Hd (Hok & Hfirst & Hunions). cbn [java_token]. rewrite <- !app_assoc.
  destruct (members_goes src ms rest (opened complement bracket t)) as (t1 & Hg & (Ho & Hd1 & Hn & Hu & Hx) & Hl).
  { apply Forall_forall. intros m _. apply member_all_goes. }
  { done. } { cbn; lia. } { done. } { destruct complement; [by right|by left]. }
  exists (set_justOpened false (append (s2b "]") (set_depth 0 t1))). split.
  - eapply goes_trans; [|eapply goes_trans; [exact Hg|]].
    + apply class_step; [done|]. apply openClass_opened.
      * intros -> ->. destruct Hfirst as [Hne Hcaret]. by apply members_caret with (rest := rest).
      * intros ->. destruct Hfirst as [Hne _]. by eapply members_bracket.
    + apply goes_one. rewrite in_class_step by (done || (rewrite Hd1; cbn; lia)). unfold inClass.
      change (startsWith (s2b "&&") (_ :: _)) with false. cbv iota. rewrite Hd1. done.
  - unfold token_written. cbn. cbn in Ho, Hd1, Hn, Hu, Hx. rewrite Ho, Hl, Hu, Hx, !orb_false_r. split_and!; try done.
    repeat (rewrite <- app_assoc || cbn [app]). done.
Qed.

Lemma flags_start on off scoped x leading0 : okToken leading0 (TFlags on off scoped) x ->
  startsFlags (java_token (TFlags on off scoped) ++ x) = true.
Proof.
  intros (Hne & Hon & Hoff). unfold startsFlags. cbn [java_token]. rewrite <- !app_assoc. rewrite startsWith_app. cbn [andb].
  change (drop 2 (s2b "(?" ++ ?y)) with (drop 0 y). rewrite drop_0.
  destruct on as [|f on].
  - destruct off as [|g off]; [done|]. cbn. done.
  - cbn [app]. cbn [forallb] in Hon. apply andb_prop in Hon as [Hf _].
    assert (Ha : In f (s2b "idmsuxU")).
    { apply flag_letter. destruct leading0; [exact Hf|]. unfold isFlag in *. cbn in *. rewrite !orb_true_iff in *. tauto. }
    cbn in Ha. by repeat destruct Ha as [<-|Ha].
Qed.

Lemma inlineFlags_end src c x minus on off t : is_alpha c = false -> (c =? "-")%byte = false ->
  inlineFlags src (c :: x) minus on off t = Ok (on, off, t, c :: x).
Proof. intros Ha Hm. cbn [inlineFlags]. by rewrite Hm, Ha. Qed.

Lemma flags_read src on off scoped x t : okToken (leading t) (TFlags on off scoped) x ->
  inlineFlags src (on ++ java_minus off ++ (if scoped then s2b ":" else s2b ")") ++ x) false [] [] t =
    Ok (flat_map pcre_flag on, without_u off, flagged on t, (if scoped then s2b ":" else s2b ")") ++ x).
Proof.
  intros (Hne & Hon & Hoff). rewrite flags_on by (destruct (leading t); exact Hon). cbn [app].
  destruct off as [|g off]; cbn [java_minus].
  - destruct scoped; [exact (inlineFlags_end src ":" x _ _ _ _ eq_refl eq_refl)|exact (inlineFlags_end src ")" x _ _ _ _ eq_refl eq_refl)].
  - change ((s2b "-" ++ g :: off) ++ ?y) with ("-"%byte :: (g :: off) ++ y). cbn [inlineFlags Byte.eqb].
    change ("-" =? "-")%byte with true. cbv iota. rewrite flags_off by done. cbn [app].
    destruct scoped; [exact (inlineFlags_end src ":" x _ _ _ _ eq_refl eq_refl)|exact (inlineFlags_end src ")" x _ _ _ _ eq_refl eq_refl)].
Qed.

Lemma tflags_goes src on off scoped rest t : depth t = 0%nat -> okToken (leading t) (TFlags on off scoped) rest ->
  exists t', goes src (java_token (TFlags on off scoped) ++ rest) t rest t' /\ token_written (leading t) (TFlags on off scoped) t t'.
Proof.
  intros Hd Hok. pose proof (flags_start _ _ _ _ _ Hok) as Hs. pose proof (flags_read src on off scoped rest t Hok) as Hr.
  cbn [java_token] in *. rewrite <- !app_assoc in *. set (X := on ++ _) in *.
  assert (Hg : exists t', flagGroup src (s2b "(?" ++ X) t = Ok (rest, t') /\ token_written (leading t) (TFlags on off scoped) t t').
  { unfold flagGroup. change (drop 2 (s2b "(?" ++ X)) with (drop 0 X). rewrite drop_0, Hr. unfold mbind, result_bind.
    assert (Hx : forall c, startsWith [c] ((if scoped then s2b ":" else s2b ")") ++ rest) = (c =? if scoped then ":" else ")")%byte).
    { intros c. destruct scoped; cbn; by rewrite andb_true_r. }
    rewrite !Hx. assert (Hrest : drop 1 ((if scoped then s2b ":" else s2b ")") ++ rest) = rest) by (destruct scoped; cbn; by rewrite ?drop_0).
    replace (_ && _) with false by (by destruct scoped). rewrite Hrest. eexists. split; [reflexivity|].
    unfold token_written. cbn [pcre_token asks stillLeading]. unfold pcre_flags.
    replace (":" =? _)%byte with scoped by (by destruct scoped).
    destruct (flat_map pcre_flag on), (without_u off), scoped; cbn; rewrite ?app_nil_r, ?andb_false_r, ?andb_true_r, ?orb_false_r; split_and!; done. }
  destruct Hg as (t' & Hg & Hw). exists t'. split; [|done].
  assert (E : translateStep src "(" (s2b "(?" ++ X) t =
    if startsFlags (s2b "(?" ++ X) then flagGroup src (s2b "(?" ++ X) t
    else Ok (drop (utf8Length "(") (s2b "(?" ++ X), set_leading false (append (take (utf8Length "(") (s2b "(?" ++ X)) t))).
  { exact (outside_step src "(" (s2b "?" ++ X) t eq_refl Hd). }
  rewrite Hs, Hg in E. exact (goes_one _ _ _ _ _ _ E).
Qed.

Lemma token_goes src k rest t : depth t = 0%nat -> okToken (leading t) k rest ->
  exists t', goes src (java_token k ++ rest) t rest t' /\ token_written (leading t) k t t'.
Proof.
  destruct k; intros Hd Hok; [by apply tchar_goes|by apply tescape_goes|by apply tclass_goes|by apply tflags_goes].
Qed.

Lemma tokens_go src ts t : depth t = 0%nat -> okTokens (leading t) ts ->
  exists t', goes src (java ts) t [] t' /\ out t' = out t ++ pcre ts /\ depth t' = 0%nat /\
    ucp t' = (ucp t || existsb (asks "U") ts) /\ unixLines t' = (unixLines t || existsb (asks "d") ts).
Proof.
  revert t. induction ts as [|k ts IH]; intros t Hd Hok.
  - exists t. cbn. rewrite app_nil_r, !orb_false_r. split_and!; [constructor|done..].
  - destruct Hok as [Hk Hok]. destruct (token_goes src k (java ts) t Hd Hk) as (t1 & Hg & Ho & Hd1 & Hl & Hu & Hx).
    destruct (IH t1 Hd1) as (t2 & Hg2 & Ho2 & Hd2 & Hu2 & Hx2); [by rewrite Hl|].
    exists t2. split; [by eapply goes_trans|]. cbn. rewrite Ho2, Ho, Hu2, Hu, Hx2, Hx, !orb_assoc, <- app_assoc. done.
Qed.

(** C23. A pattern of the dialect is translated piece by piece: characters as they are,
    the escapes of code points as hexadecimal ones, Java's character families as PCRE2's
    classes, nested classes flattened into the outer one and a first member that would
    read as POSIX syntax escaped, flags without those that PCRE2 has no letter for; the
    flags (?U) and (?d) become options. Of any text, the translation ends, with a pattern
    or a syntax error. *)
Theorem translate_tokens ts : okTokens true ts ->
  (exists t, translatePattern (java ts) = Some (Ok t) /\ out t = pcre ts /\ depth t = 0%nat /\
     ucp t = existsb (asks "U") ts /\ unixLines t = existsb (asks "d") ts) /\
  forall src, exists r, translatePattern src = Some r.
Proof.
  intros Hok. split.
  - destruct (tokens_go (java ts) ts newTranslation eq_refl Hok) as (t & Hg & Ho & Hd & Hu & Hx).
    exists t. split; [by apply (goes_loop _ (java ts))|]. done.
  - intros src. by apply translateLoop_total.
Qed.

(** ** The cache *)

Lemma compilePattern_cached `{Pcre2} src cache r cache' :
  map_Forall (fun s c => compiledForm s = Ok c) cache -> compilePattern src cache = (r, cache') ->
  r = compiledForm src /\ map_Forall (fun s c => compiledForm s = Ok c) cache'.
Proof.
  intros Hc. unfold compilePattern. destruct (cache !! src) as [c|] eqn:E; [intros [= <- <-]; by rewrite (Hc _ _ E)|].
  destruct (compiledForm src) as [c|e] eqn:Ec; intros [= <- <-]; [|done]. split; [done|]. by apply map_Forall_insert_2.
Qed.

Module Examples.

(** Flags, a complement with a bracket and a family, a union with a colon first, a quoted
    bracket, an octal escape, a pair of surrogates, a scoped group. *)
Definition sample : list token :=
  [TFlags (s2b "Ux") [] false; TChar (s2b "a"); TClass true true [MEscape (EFamily false (s2b "Punct")); MChar (s2b ".")];
   TChar (s2b "|"); TClass false false [MUnion [MChar (s2b ":"); MChar (s2b "x")]; MEscape (EChar (s2b "d"))];
   TEscape (EQuote (s2b "[")); TEscape (EOctal (s2b "101")); TEscape (ESurrogates (s2b "D83D") (s2b "DE00"));
   TFlags (s2b "i") (s2b "su") true; TEscape (EFamily true (s2b "IsLatin")); TChar (s2b ")")].

Lemma sample_ok : okTokens true sample.
Proof. cbn. repeat split; try done; try (by left); repeat eexists; try done; cbn; try lia; auto. all: vm_compute; auto; intros [??]; auto. Qed.

Lemma translate_tokens_witness :
  java sample = s2b "(?Ux)a[^]\p{Punct}.]|[[:x]\d]\Q[\E\0101\uD83D\uDE00(?i-su:\P{IsLatin})" /\
  exists t, translatePattern (java sample) = Some (Ok t) /\
    out t = s2b "(?xx)a[^\][:punct:].]|[\:x\d]\Q[\E\x{41}\x{1f600}(?i-s:\P{Latin})" /\ ucp t = true.
Proof.
  split; [vm_compute; reflexivity|]. destruct (proj1 (translate_tokens sample sample_ok)) as (t & E & Ho & _ & Hu & _).
  exists t. split; [exact E|]. rewrite Ho, Hu. split; vm_compute; reflexivity.
Defined.

End Examples.
