(* ===== verification/Strings.v ===== *)
(** The functions on strings and patterns (runtime/Primitives.cpp: [str], the
    clojure.string functions, [re-pattern], [re-matcher], [re-find], [re-matches],
    [re-seq], [re-groups]), over those of the data formats and of the numbers. *)

From S2P Require Import Prelude Utf8 Values Maps Exceptions Printer Reader DataFormats Numbers CorePrims Regex.

#[local] Set Warnings "-register-all".

(** [re-matcher]: a pattern, a subject, where the next find starts, and the groups of the
    last one that found. *)
Record matcher := mkMatcher { mPattern : bytes; mSubject : bytes; mPos : nat; mGroups : option obj }.

(** protoCore's strings, counted and cut by characters; the matchers and the compiled
    patterns of the process; and what prints otherwise in [str]: exceptions, files, and
    which seqs are lazy. *)
Class StringsEnv (W exn : Type) `{CoreEnv W exn} `{Pcre2} := {
  stringSize : bytes -> Z;
  stringSlice : bytes -> Z -> Z -> bytes;
  matchers : W -> gmap Z matcher;
  setMatchers : gmap Z matcher -> W -> W;
  patternCache : W -> gmap bytes CompiledPattern;
  setPatternCache : gmap bytes CompiledPattern -> W -> W;
  exceptionToString : obj -> bytes;
  ioFilePath : obj -> option bytes;
  isLazySeq : obj -> bool;
}.

Definition toupper (c : byte) : byte := if in_range "a" c "z" then chr (u8 c - 32) else c.
Definition tolower (c : byte) : byte := if in_range "A" c "Z" then chr (u8 c + 32) else c.

Definition isAsciiWs (c : byte) : bool :=
  match c with (" " | x09 | x0a | x0d | x0c | x0b)%byte => true | _ => false end.

Fixpoint dropWs (s : bytes) : bytes :=
  match s with c :: s' => if isAsciiWs c then dropWs s' else s | [] => [] end.

Definition triml (s : bytes) : bytes := dropWs s.
Definition trimr (s : bytes) : bytes := rev (dropWs (rev s)).

(** The pieces of [s] between the occurrences of [d]. *)
Fixpoint splitOn (turns : nat) (d s : bytes) : option (list bytes) :=
  match turns with
  | O => None
  | S turns =>
      match find d s with
      | None => Some [s]
      | Some found => pieces ← splitOn turns d (drop (found + length d) s); Some (take found s :: pieces)
      end
  end.

(** The rest of [s] with [r] for each occurrence of [m], after [out]. *)
Fixpoint replaceLoop (turns : nat) (m r s out : bytes) : option bytes :=
  match turns with
  | O => None
  | S turns =>
      match s with
      | [] => Some out
      | _ =>
          match find m s with
          | None => Some (out ++ s)
          | Some found => replaceLoop turns m r (drop (found + length m) s) (out ++ take found s ++ r)
          end
      end
  end.

(** [$n] of a replacement: [n] is the longest number that names a group. *)
Fixpoint groupNumber (groups g : Z) (r : bytes) : Z * bytes :=
  match r with
  | c :: r' =>
      if is_digit c then
        let next := g * 10 + (u8 c - 48) in
        if groups <? next then (g, r) else groupNumber groups next r'
      else (g, r)
  | [] => (g, r)
  end.

Section Strings.
Context {W exn : Type} `{StringsEnv W exn}.

#[local] Abbreviation F := (E (formatError exn) W).

Definition newString (text : bytes) : F obj := newCell (fun a => Str a (utf8Text text)).

Definition orNoTurns {A} (r : option A) : F A := match r with Some a => mret a | None => raise NoTurns end.

(** ** str, join *)

Definition appendStr (v : obj) : bytes :=
  if same v PROTO_NONE then []
  else
    match v with
    | Str _ text => text
    | Dbl _ bits =>
        if isnan bits then s2b "NaN"
        else if isinf bits then if signbit bits then s2b "-Infinity" else s2b "Infinity"
        else printTo true v
    | Cell _ CException _ => exceptionToString v
    | Cell _ CHandle _ => match ioFilePath v with Some path => path | None => printTo true v end
    | Pattern _ source => source
    | SeqObj _ _ =>
        if isLazySeq v
        then s2b "clojure.lang.LazySeq@" ++ hexDigits 8 (Z.land (keyHash (Values.depth v) v) 0xFFFFFFFF)
        else printTo true v
    | _ => printTo true v
    end.

Definition prim_str (args : list obj) : F obj := newString (flat_map appendStr args).

(** nil has no elements. *)
Definition prim_join (args : list obj) : F obj :=
  let joined sep coll := items ← seqToList coll; newString (separated sep (map appendStr items)) in
  match args with
  | [coll] => joined [] coll
  | [Str _ sep; coll] => joined sep coll
  | [_; _] => throwError (s2b "join: separator must be a string")
  | _ => throwError (s2b "join: expects (join coll) or (join sep coll)")
  end.

(** ** Parts of strings *)

Definition prim_subs (args : list obj) : F obj :=
  let ac := length args in
  if negb (ac =? 2)%nat && negb (ac =? 3)%nat then throwError (s2b "subs: expects (subs s start) or (subs s start end)")
  else
    match argAt args 0 with
    | Str _ text =>
        start ← indexArg args 1 (s2b "subs");
        let sz := stringSize text in
        end_ ← (if (ac =? 3)%nat then indexArg args 2 (s2b "subs") else mret sz);
        if (start <? 0) || (sz <? start) || (end_ <? start) || (sz <? end_) then
          throwClassed (s2b "StringIndexOutOfBoundsException")
            (s2b "subs begin " ++ printTo true (argAt args 1) ++ s2b ", end " ++
             (if (ac =? 3)%nat then printTo true (argAt args 2) else to_string sz) ++
             s2b ", length " ++ to_string sz)
        else newCell (fun a => Str a (stringSlice text start end_))
    | _ => throwError (s2b "subs: first arg must be a string")
    end.

(** The functions of one string. *)
Definition onString (name : string) (f : bytes -> bytes) (args : list obj) : F obj :=
  match args with
  | [Str _ text] => newString (f text)
  | [_] => throwError (s2b (name ++ ": arg must be a string"))
  | _ => throwError (s2b (name ++ ": expects 1 arg"))
  end.

Definition prim_upper_case := onString "upper-case" (map toupper).
Definition prim_lower_case := onString "lower-case" (map tolower).
Definition prim_trim := onString "trim" (fun s => trimr (triml s)).
Definition prim_triml := onString "triml" triml.
Definition prim_trimr := onString "trimr" trimr.

Definition prim_blank_p (args : list obj) : F obj :=
  match args with
  | [v] =>
      if same v PROTO_NONE then mret PROTO_TRUE
      else match v with
           | Str _ text => mret (boolean (forallb isAsciiWs text))
           | _ => mret PROTO_FALSE
           end
  | _ => throwError (s2b "blank?: expects 1 arg")
  end.

Definition prim_string_p (args : list obj) : F obj :=
  match args with
  | [v] => mret (boolean (isString v))
  | _ => throwError (s2b "string?: expects 1 arg")
  end.

Definition prim_identical_p (args : list obj) : F obj :=
  match args with
  | [x; y] => mret (boolean (same x y))
  | _ => throwError (s2b "identical?: expects 2 args")
  end.

(** ** Search *)

Definition onStrings (name : string) (other : string) (f : bytes -> bytes -> bool) (args : list obj) : F obj :=
  match args with
  | [Str _ s; Str _ p] => mret (boolean (f s p))
  | [_; _] => throwError (s2b (name ++ ": both args must be strings"))
  | _ => throwError (s2b (name ++ ": expects (" ++ name ++ " s " ++ other ++ ")"))
  end.

Definition prim_starts_with_p := onStrings "starts-with?" "prefix" (fun s p => startsWith p s).
Definition prim_ends_with_p := onStrings "ends-with?" "suffix" (fun s p => startsWith (rev p) (rev s)).
Definition prim_includes_p :=
  onStrings "includes?" "sub" (fun s p => match find p s with Some _ => true | None => false end).

Definition prim_index_of (args : list obj) : F obj :=
  let ac := length args in
  if negb (ac =? 2)%nat && negb (ac =? 3)%nat then
    throwError (s2b "index-of: expects (index-of s sub) or (index-of s sub from)")
  else
    match argAt args 0, argAt args 1 with
    | Str _ s, Str _ p =>
        from ← (if (ac =? 3)%nat then indexArg args 2 (s2b "index-of") else mret 0);
        let from := Z.min (Z.max from 0) (Z.of_nat (length s)) in
        match find p (drop (Z.to_nat from) s) with
        | None => mret PROTO_NONE
        | Some found => fromLong (from + Z.of_nat found)
        end
    | _, _ => throwError (s2b "index-of: first two args must be strings")
    end.

(** ** Patterns *)

Definition isPattern (v : obj) : bool := match v with Pattern _ _ => true | _ => false end.
Definition isMatcher (v : obj) : bool := match v with Cell _ CMatcher _ => true | _ => false end.

(** The form that [makePattern] compiled: there is one for every pattern that is. *)
Definition compiledOf (source : bytes) : F CompiledPattern :=
  match compiledForm source with Ok cp => mret cp | Throw e => throwError e end.

Definition patternArg (v : obj) (who : bytes) : F CompiledPattern :=
  match v with
  | Pattern _ source => compiledOf source
  | _ => throwClassed (s2b "ClassCastException") (who ++ s2b " expects a pattern, got " ++ valueTypeName v)
  end.

(** [makePattern]; a PatternSyntaxError is rethrown as the class of its name. The pattern
    holds the source it was compiled from (what it prints as ends at a NUL byte, which
    the definitions do not follow). *)
Definition newPattern (source : bytes) : F obj := fun w =>
  let '(r, cache) := compilePattern source (patternCache w) in
  match r with
  | Ok _ => newCell (fun a => Pattern a source) (setPatternCache cache w)
  | Throw e => throwClassed (s2b "PatternSyntaxException") e (setPatternCache cache w)
  end.

Definition prim_re_pattern (args : list obj) : F obj :=
  match args with
  | [v] =>
      if isPattern v then mret v
      else
        source ← stringArg v (s2b "re-pattern");
        newPattern source
  | _ => throwError (s2b "re-pattern: expects 1 arg")
  end.

(** ** Matches *)

Definition ran {A} (r : result matchError A) : F A :=
  match r with
  | Ok a => mret a
  | Throw (EngineGaveUp what) => raise (Overflow what)
  | Throw (MatchFailed what) | Throw (WholeSyntaxError what) => throwError what
  end.

Definition search (cp : CompiledPattern) (subject : bytes) (from : nat) : F (option Match) :=
  ran (regexSearch cp subject from).

(** Where the search after a match starts. *)
Definition nextFrom (s : bytes) (m : Match) : nat :=
  if (mlength m 0 =? 0)%nat then nextCharacter s (end_ m 0) else end_ m 0.

(** [f] answers whether to go on. *)
Fixpoint forEachMatch {A} (turns : nat) (s : bytes) (cp : CompiledPattern) (f : Match -> A -> F (bool * A))
  (from : nat) (a : A) : F A :=
  if (length s <? from)%nat then mret a
  else
    match turns with
    | O => raise NoTurns
    | S turns =>
        found ← search cp s from;
        match found with
        | None => mret a
        | Some m =>
            '(goOn, a) ← f m a;
            if goOn : bool then forEachMatch turns s cp f (nextFrom s m) a else mret a
        end
    end.

(** One more than the bytes. *)
Definition walk {A} (s : bytes) (cp : CompiledPattern) (f : Match -> A -> F (bool * A)) (a : A) : F A :=
  forEachMatch (S (length s)) s cp f 0 a.

Fixpoint groupValues (subject : bytes) (m : Match) (gs : list nat) : F (list obj) :=
  match gs with
  | [] => mret []
  | g :: gs =>
      part ← (if matched m g then newString (mstr m subject g) else mret PROTO_NONE);
      rest ← groupValues subject m gs;
      mret (part :: rest)
  end.

Definition matchValue (subject : bytes) (m : Match) (groups : nat) : F obj :=
  if (groups =? 0)%nat then newString (mstr m subject 0)
  else
    parts ← groupValues subject m (seq 0 (S groups));
    newCell (fun a => newVector a parts).

Definition foundValue (cp : CompiledPattern) (subject : bytes) (found : option Match) : F obj :=
  match found with
  | None => mret PROTO_NONE
  | Some m => matchValue subject m (groups cp)
  end.

(** ** Matchers *)

Definition newMatcher (source subject : bytes) : F obj := fun w =>
  let '(a, w) := allocateIn w in
  (Ok (Cell a CMatcher []), setMatchers (<[a := mkMatcher source subject 0 None]> (matchers w)) w).

Definition prim_re_matcher (args : list obj) : F obj :=
  match args with
  | [p; s] =>
      _ ← patternArg p (s2b "re-matcher");
      subject ← stringArg s (s2b "re-matcher");
      newMatcher (match p with Pattern _ source => source | _ => [] end) subject
  | _ => throwError (s2b "re-matcher: expects (re-matcher re s)")
  end.

Definition setMatcher (a : Z) (m : matcher) : F unit :=
  update (fun w => setMatchers (<[a := m]> (matchers w)) w).

(** Every matcher is one [re-matcher] made. *)
Definition matcherFind (v : obj) : F obj :=
  mt ← look (fun w => matchers w !! address v);
  match mt with
  | None => mret PROTO_NONE
  | Some mt =>
      cp ← compiledOf (mPattern mt);
      let subject := mSubject mt in
      if (length subject <? mPos mt)%nat then mret PROTO_NONE
      else
        found ← search cp subject (mPos mt);
        match found with
        | None =>
            _ ← setMatcher (address v) (mkMatcher (mPattern mt) subject (S (length subject)) (mGroups mt));
            mret PROTO_NONE
        | Some m =>
            value ← matchValue subject m (groups cp);
            _ ← setMatcher (address v) (mkMatcher (mPattern mt) subject (nextFrom subject m) (Some value));
            mret value
        end
  end.

Definition prim_re_find (args : list obj) : F obj :=
  match args with
  | [m] =>
      if isMatcher m then matcherFind m
      else throwClassed (s2b "ClassCastException") (s2b "re-find expects a matcher, got " ++ valueTypeName m)
  | [p; s] =>
      cp ← patternArg p (s2b "re-find");
      subject ← stringArg s (s2b "re-find");
      found ← search cp subject 0;
      foundValue cp subject found
  | _ => throwError (s2b "re-find: expects (re-find re s) or (re-find matcher)")
  end.

Definition prim_re_matches (args : list obj) : F obj :=
  match args with
  | [p; s] =>
      cp ← patternArg p (s2b "re-matches");
      subject ← stringArg s (s2b "re-matches");
      found ← ran (regexMatchWhole cp subject);
      foundValue cp subject found
  | _ => throwError (s2b "re-matches: expects (re-matches re s)")
  end.

Definition prim_re_groups (args : list obj) : F obj :=
  match args with
  | [m] =>
      if isMatcher m then
        mt ← look (fun w => matchers w !! address m);
        match mt with
        | Some (mkMatcher _ _ _ (Some groups)) => mret groups
        | _ => throwClassed (s2b "IllegalStateException") (s2b "No match found")
        end
      else throwClassed (s2b "ClassCastException") (s2b "re-groups expects a matcher, got " ++ valueTypeName m)
  | _ => throwError (s2b "re-groups: expects 1 arg")
  end.

(** ** re-seq

    The first element, and where the step [ReSeq] of the lazy seq after it starts. *)
Definition reSeqFrom (cp : CompiledPattern) (subject : bytes) (pos : nat) : F (option (obj * nat)) :=
  if (length subject <? pos)%nat then mret None
  else
    found ← search cp subject pos;
    match found with
    | None => mret None
    | Some m => value ← matchValue subject m (groups cp); mret (Some (value, nextFrom subject m))
    end.

Definition prim_re_seq (args : list obj) : F (option (obj * nat)) :=
  match args with
  | [p; s] =>
      cp ← patternArg p (s2b "re-seq");
      subject ← stringArg s (s2b "re-seq");
      reSeqFrom cp subject 0
  | _ => throwError (s2b "re-seq: expects (re-seq re s)")
  end.

(** ** replace *)

(** The replacement's text, as many turns as bytes. *)
Fixpoint expandReplacement (turns : nat) (subject : bytes) (m : Match) (groups : nat) (whole r : bytes) : F bytes :=
  match r with
  | [] => mret []
  | c :: r' =>
      match turns with
      | O => raise NoTurns
      | S turns =>
          let expand := expandReplacement turns subject m groups whole in
          match c, r' with
          | "\"%byte, d :: r' => rest ← expand r'; mret (d :: rest)
          | "$"%byte, _ =>
              match r' with
              | d :: r' =>
                  if is_digit d then
                    let '(g, r') := groupNumber (Z.of_nat groups) (u8 d - 48) r' in
                    if Z.of_nat groups <? g then
                      throwClassed (s2b "IndexOutOfBoundsException") (s2b "No group " ++ to_string g)
                    else
                      rest ← expand r';
                      mret (mstr m subject (Z.to_nat g) ++ rest)
                  else throwClassed (s2b "IllegalArgumentException") (s2b "Illegal group reference in replacement: " ++ whole)
              | [] => throwClassed (s2b "IllegalArgumentException") (s2b "Illegal group reference in replacement: " ++ whole)
              end
          | _, _ => rest ← expand r'; mret (c :: rest)
          end
      end
  end.

Definition appendReplacement (subject : bytes) (m : Match) (groups : nat) (repl : obj) : F bytes :=
  match repl with
  | Str _ r => expandReplacement (length r) subject m groups r r
  | _ =>
      _ ← callContext (s2b "replace");
      value ← matchValue subject m groups;
      v ← lifted (callValue repl [value]);
      mret (appendStr v)
  end.

(** What is written, and the end of the last match. *)
Definition replaceWithPattern (s : bytes) (cp : CompiledPattern) (repl : obj) (firstOnly : bool) : F obj :=
  '(out, last) ← walk s cp (fun m '(out, last) =>
    text ← appendReplacement s m (groups cp) repl;
    mret (negb firstOnly, (out ++ substr s last (start m 0 - last) ++ text, end_ m 0))) ([], 0%nat);
  newString (out ++ drop last s).

Definition prim_replace_first (args : list obj) : F obj :=
  match args with
  | [sv; mv; rv] =>
      s ← stringArg sv (s2b "replace-first");
      match mv with
      | Pattern _ source => cp ← compiledOf source; replaceWithPattern s cp rv true
      | _ =>
          m ← stringArg mv (s2b "replace-first");
          r ← stringArg rv (s2b "replace-first");
          match find m s with
          | None => mret sv
          | Some at_ => newString (take at_ s ++ r ++ drop (at_ + length m) s)
          end
      end
  | _ => throwError (s2b "replace-first: expects (replace-first s match replacement)")
  end.

Definition prim_replace (args : list obj) : F obj :=
  match args with
  | [sv; mv; rv] =>
      match sv, mv, rv with
      | Str _ s, Pattern _ source, _ => cp ← compiledOf source; replaceWithPattern s cp rv false
      | Str _ s, Str _ m, Str _ r =>
          match m with
          | [] => mret sv
          | _ => text ← orNoTurns (replaceLoop (S (length s)) m r s []); newString text
          end
      | _, _, _ => throwError (s2b "replace: all three args must be strings")
      end
  | _ => throwError (s2b "replace: expects (replace s match replacement)")
  end.

(** ** split *)

(** The pieces so far, and where the next one starts. *)
Definition splitAt (s : bytes) (limit : Z) (m : Match) (acc : list bytes * nat) : bool * (list bytes * nat) :=
  let '(pieces, from) := acc in
  if (0 <? limit) && (Z.of_nat (length pieces) =? limit - 1) then (false, acc)
  else
    let at_ := start m 0 in
    let len := mlength m 0 in
    if (at_ =? 0)%nat && (len =? 0)%nat then (true, acc)
    else if (len =? 0)%nat && (length s <=? at_)%nat then (false, acc)
    else (true, (pieces ++ [substr s from (at_ - from)], (at_ + len)%nat)).

Definition splitWithPattern (s : bytes) (cp : CompiledPattern) (limit : Z) : F obj :=
  '(pieces, from) ← walk s cp (fun m acc => mret (splitAt s limit m acc)) ([], 0%nat);
  let pieces := pieces ++ [drop from s] in
  let pieces := if limit =? 0 then rev (dropEmpty (rev pieces)) else pieces in
  let pieces := match pieces, s with [[]], _ :: _ => if limit =? 0 then [] else pieces | _, _ => pieces end in
  items ← newStrings pieces;
  newCell (fun a => newVector a items).

Definition prim_split (args : list obj) : F obj :=
  let ac := length args in
  if negb (ac =? 2)%nat && negb (ac =? 3)%nat then throwError (s2b "split: expects (split s re) or (split s re limit)")
  else
    match argAt args 1 with
    | Pattern _ source =>
        subject ← stringArg (argAt args 0) (s2b "split");
        cp ← compiledOf source;
        limit ← (if (ac =? 3)%nat then indexArg args 2 (s2b "split") else mret 0);
        splitWithPattern subject cp limit
    | dv =>
        if negb (ac =? 2)%nat then throwError (s2b "split: a limit needs a pattern")
        else
          match argAt args 0, dv with
          | Str _ s, Str _ d =>
              pieces ← (match d with
                        | [] => mret (map (fun c => [c]) s)
                        | _ => orNoTurns (splitOn (S (length s)) d s)
                        end);
              items ← newStrings pieces;
              newList items
          | _, _ => throwError (s2b "split: both args must be strings")
          end
    end.

End Strings.
