(* ===== verification/StringsFacts.v ===== *)
(** Searching, splitting, joining and replacing strings (runtime/Primitives.cpp): the
    pieces between occurrences, and that whole characters are never cut. *)

From S2P Require Import Prelude Utf8 Values Maps Exceptions Printer Reader DataFormats JsonFacts JsonRoundTrip Numbers CorePrims CoreFacts Regex TextFacts Strings.

#[local] Set Warnings "-register-all".

(** ** Pieces *)

(** The text cut at the first occurrence, then at the first in the rest, and so on. *)
Inductive cutAt (d : bytes) : bytes -> list bytes -> Prop :=
| cut_last s : ~ occurs d s -> cutAt d s [s]
| cut_more p s ps : ~ occurs d p -> find d (p ++ d) = Some (length p) -> cutAt d s ps -> cutAt d (p ++ d ++ s) (p :: ps).

Lemma cutAt_ne d s ps : cutAt d s ps -> ps <> [].
Proof. by inversion 1. Qed.

Lemma separated_cons sep p ps : ps <> [] -> separated sep (p :: ps) = p ++ sep ++ separated sep ps.
Proof. by destruct ps. Qed.

Lemma cutAt_join d s ps : cutAt d s ps -> separated d ps = s.
Proof.
  induction 1 as [s Hs|p s ps Hp Hf Hc IH]; [done|]. rewrite separated_cons by (by eapply cutAt_ne). by rewrite IH.
Qed.

Lemma cutAt_free d s ps : cutAt d s ps -> Forall (fun p => ~ occurs d p) ps.
Proof. induction 1; constructor; done || by constructor. Qed.

Lemma take_drop_found (d : bytes) k b (s : bytes) : s = take k s ++ d ++ b -> (k <= length s)%nat -> drop (k + length d) s = b.
Proof.
  intros E Hk. rewrite E at 1. rewrite app_assoc, drop_app_ge by (rewrite length_app, length_take; lia).
  rewrite length_app, length_take. replace (_ - _)%nat with 0%nat by lia. done.
Qed.

Lemma splitOn_cut turns d s : d <> [] -> (length s < turns)%nat -> exists ps, splitOn turns d s = Some ps /\ cutAt d s ps.
Proof.
  intros Hd. revert s. induction turns as [|turns IH]; intros s Ht; [lia|]. cbn [splitOn].
  destruct (find d s) as [k|] eqn:Ef.
  - destruct (find_before d s k Hd Ef) as [Hp Hfirst]. apply find_Some in Ef as ([b Hb] & Hk & _).
    assert (Hdrop := take_drop_found d k b s Hb Hk). rewrite Hdrop.
    assert (Hl : (length b < length s)%nat).
    { apply (f_equal length) in Hb. rewrite !length_app, length_take in Hb. destruct d; [done|]. cbn in Hb. lia. }
    destruct (IH b ltac:(lia)) as (ps & -> & Hc). eexists. split; [reflexivity|].
    rewrite Hb at 1. by constructor.
  - exists [s]. split; [done|]. constructor. by apply find_None.
Qed.

(** A step of the search in a text that is cut. *)
Lemma cut_find d p s : ~ occurs d p -> find d (p ++ d) = Some (length p) -> find d (p ++ d ++ s) = Some (length p).
Proof.
  intros Hp Hf. apply find_Some in Hf as (_ & _ & Hf). apply find_Some. rewrite take_app_length. split; [by exists s|].
  split; [rewrite length_app; lia|]. intros j Hj. specialize (Hf j Hj). rewrite drop_app_le in * by lia.
  destruct (startsWith d (drop j p ++ d ++ s)) eqn:E; [|done]. exfalso. apply startsWith_spec in E as [b Hb].
  assert (Ht : take (length d) (drop j p ++ d) = d).
  { apply (f_equal (take (length d))) in Hb. rewrite take_app_length in Hb. etransitivity; [|exact Hb].
    by rewrite (app_assoc _ d s), (take_app_le (drop j p ++ d)) by (rewrite length_app; lia). }
  assert (startsWith d (drop j p ++ d) = true); [|congruence].
  rewrite <- (take_drop (length d) (drop j p ++ d)), Ht. apply startsWith_app.
Qed.

Lemma cut_first d s ps : cutAt d s ps ->
  find d s = match ps with [_] | [] => None | p :: _ => Some (length p) end.
Proof.
  destruct 1 as [s Hs|p s ps Hp Hf Hc]; [by apply find_None|].
  rewrite cut_find by done. apply cutAt_ne in Hc. by destruct ps.
Qed.

(** [replace] puts the replacement between the same pieces. *)
Lemma replaceLoop_cut turns d r s ps out : d <> [] -> cutAt d s ps -> (length s < turns)%nat ->
  replaceLoop turns d r s out = Some (out ++ separated r ps).
Proof.
  intros Hd Hc. revert turns out. induction Hc as [s Hs|p s ps Hp Hf Hc IH]; intros turns out Ht; (destruct turns as [|turns]; [lia|]); cbn [replaceLoop].
  - rewrite (proj2 (find_None d s) Hs). destruct s; [|done]. cbn. by rewrite app_nil_r.
  - rewrite cut_find by done. destruct (p ++ d ++ s) eqn:E.
    { apply app_eq_nil in E as [_ [-> _]%app_eq_nil]. done. }
    rewrite <- E, take_app_length, app_assoc, drop_app_ge by (rewrite length_app; lia).
    replace (_ - _)%nat with 0%nat by (rewrite length_app; lia). rewrite drop_0, IH.
    + rewrite separated_cons by (by eapply cutAt_ne). by rewrite !app_assoc.
    + rewrite <- E in Ht. rewrite !length_app in Ht. destruct d; [done|]. cbn in Ht. lia.
Qed.

(** ** Whole characters *)

Definition continues (c : byte) : bool := (128 <=? u8 c) && (u8 c <? 192).

(** An encoded character is a lead byte and continuation bytes. *)
Lemma encode_shape cp : scalar cp ->
  exists c cs, encodeUtf8 cp = c :: cs /\ continues c = false /\ forallb continues cs = true.
Proof.
  intros [Hcp _]. unfold continues.
  destruct (Z.lt_ge_cases cp 0x80);
    [|destruct (Z.lt_ge_cases cp 0x800); [|destruct (Z.lt_ge_cases cp 0x10000)]].
  - rewrite encode1 by lia. eexists _, _. split; [reflexivity|]. rewrite u8_chr_small by lia. split; [z_cases; done|done].
  - rewrite encode2 by lia. eexists _, _. split; [reflexivity|]. cbn [forallb]. rewrite !u8_chr_small by lia. split; z_cases; done || lia.
  - rewrite encode3 by lia. eexists _, _. split; [reflexivity|]. cbn [forallb]. rewrite !u8_chr_small by lia. split; z_cases; done || lia.
  - rewrite encode4 by lia. eexists _, _. split; [reflexivity|]. cbn [forallb]. rewrite !u8_chr_small by lia. split; z_cases; done || lia.
Qed.

(** A text cut before a byte that starts a character. *)
Lemma utf8_cut cps a t : Forall scalar cps -> utf8 cps = a ++ t -> match t with c :: _ => continues c = false | [] => True end ->
  exists xs ys, cps = xs ++ ys /\ a = utf8 xs /\ t = utf8 ys.
Proof.
  intros Hs. revert a. induction Hs as [|cp cps Hcp Hs IH]; intros a E Ht.
  - symmetry in E. apply app_eq_nil in E as [-> ->]. by exists [], [].
  - destruct a as [|x a]; [by exists [], (cp :: cps)|]. cbn in E.
    destruct (encode_shape cp Hcp) as (c & cs & Ec & _ & Hcs). rewrite Ec in E. injection E as -> E.
    apply app_eq_app in E as (l & [[-> E]|[-> E]]).
    + destruct l as [|y l].
      * cbn in E. subst t. rewrite app_nil_r in Ec. exists [cp], cps. unfold utf8 at 1. cbn. by rewrite Ec, app_nil_r.
      * rewrite E in Ht. cbn in Ht. rewrite forallb_app in Hcs. cbn in Hcs. rewrite Ht in Hcs. by rewrite andb_false_r in Hcs.
    + destruct (IH l E Ht) as (xs & ys & -> & -> & ->). exists (cp :: xs), ys. cbn. by rewrite Ec.
Qed.

Lemma utf8_cancel xs ys b : Forall scalar xs -> Forall scalar ys -> utf8 ys = utf8 xs ++ b -> exists zs, ys = xs ++ zs /\ b = utf8 zs.
Proof.
  intros Hx. revert ys. induction Hx as [|x xs Hx Hxs IH]; intros ys Hy E; [by exists ys|].
  destruct Hy as [|y ys Hy Hys].
  { destruct (encode_shape x Hx) as (c & cs & Ec & _). cbn in E. by rewrite Ec in E. }
  cbn in E. rewrite <- app_assoc in E.
  pose proof (decode_encode_0 y (utf8 ys) Hy) as Dy. pose proof (decode_encode_0 x (utf8 xs ++ b) Hx) as Dx.
  unfold utf8 in *. rewrite E, Dx in Dy. injection Dy as _ <-. apply app_inv_head in E. destruct (IH ys Hys E) as (zs & -> & ->). by exists zs.
Qed.

Lemma valid_app s t : validText s -> validText t -> validText (s ++ t).
Proof.
  intros (xs & Hx & ->) (ys & Hy & ->). exists (xs ++ ys). split; [by apply Forall_app|]. unfold utf8. by rewrite flat_map_app.
Qed.

(** What is around a text of whole characters is whole characters. *)
Lemma valid_around a d b : d <> [] -> validText d -> validText (a ++ d ++ b) -> validText a /\ validText b.
Proof.
  intros Hd (ds & Hds & ->) (cps & Hcps & E). symmetry in E.
  assert (Hlead : match utf8 ds ++ b with c :: _ => continues c = false | [] => True end).
  { destruct Hds as [|d ds Hsc _]; [done|]. destruct (encode_shape d Hsc) as (c & cs & Ec & Hc & _). unfold utf8. cbn. by rewrite Ec. }
  destruct (utf8_cut cps a _ Hcps E Hlead) as (xs & ys & -> & -> & Ey). apply Forall_app in Hcps as [Hxs Hys].
  split; [by exists xs|]. symmetry in Ey. destruct (utf8_cancel ds ys b Hds Hys Ey) as (zs & -> & ->).
  apply Forall_app in Hys as [_ Hzs]. by exists zs.
Qed.

Lemma cut_valid d s ps : d <> [] -> validText d -> cutAt d s ps -> validText s -> Forall validText ps.
Proof.
  intros Hd Hv. induction 1 as [s Hs|p s ps Hp Hf Hc IH]; intros Hsv; [by repeat constructor|].
  apply valid_around in Hsv as [Hpv Hsv]; [|done..]. constructor; auto.
Qed.

Lemma separated_valid sep ps : validText sep -> Forall validText ps -> validText (separated sep ps).
Proof.
  intros Hsep. induction 1 as [|p ps Hp Hps IH]; [by exists []|]. destruct ps as [|q ps]; [done|].
  rewrite separated_cons by done. auto using valid_app.
Qed.

Section StringFunctions.
Context {W exn : Type} `{Hs : StringsEnv W exn} `{!FormatsLaws}.
(** Words have a tag in their low six bits, which cells' addresses have not. *)
Hypothesis tagged_words : noneWord mod 64 <> 0.

#[local] Abbreviation F := (E (formatError exn) W).

(** A string made of whole characters, at an address of its own. *)
Definition isText (v : obj) (t : bytes) : Prop := exists a, v = Str a t /\ a mod 64 = 0.

(** [m] answers a string of the text. *)
Definition answersText (m : F obj) (t : bytes) : Prop := forall w, heapTop w mod 64 = 0 -> exists v w', m w = (Ok v, w') /\ isText v t.

Lemma utf8Text_valid t : validText t -> utf8Text t = t.
Proof. intros Ht. unfold utf8Text. by rewrite text_kept. Qed.

Lemma newString_text t : validText t -> answersText (newString t) t.
Proof. intros Ht w Hw. unfold newString. rewrite utf8Text_valid by done. eexists _, _. split; [reflexivity|]. by eexists. Qed.

Lemma newStrings_texts ts w : Forall validText ts -> heapTop w mod 64 = 0 ->
  exists vs w', newStrings ts w = (Ok vs, w') /\ Forall2 isText vs ts.
Proof.
  intros Hts. revert w. induction Hts as [|t ts Ht Hts IH]; intros w Hw; [by exists [], w|].
  cbn [newStrings]. rewrite utf8Text_valid by done.
  destruct (IH (setHeapTop (heapTop w + 64) w)) as (vs & w' & E & Hvs).
  { rewrite heapTop_set, Z.add_mod, Hw by done. done. }
  exists (Str (heapTop w) t :: vs), w'. split; [|constructor; [by exists (heapTop w)|done]].
  unfold mbind at 1, E_bind at 1, newCell, allocateIn. unfold mbind at 1, E_bind at 1. by rewrite E.
Qed.

Lemma appendStr_text v t : isText v t -> appendStr v = t.
Proof.
  intros (a & -> & Ha). unfold appendStr, same. cbn. destruct (Z.eqb_spec a noneWord) as [->|]; done.
Qed.

Lemma appendStr_texts vs ts : Forall2 isText vs ts -> map appendStr vs = ts.
Proof. induction 1 as [|v t vs ts Hv Hvs IH]; cbn; [done|]. by rewrite (appendStr_text v t), IH. Qed.

(** C22. Splitting, joining, replacing and searching agree. Of a string and a delimiter
    of whole characters [split] answers the pieces cut at the first occurrence of the
    delimiter, the first in the rest, and so on, each of whole characters; [join] of
    them with the delimiter is the string; [replace] puts the replacement between the
    same pieces, [replace-first] only after the first; [includes?] says whether there is
    more than one, and [index-of] answers the length of the first, or nil. *)
Theorem split_join_replace s d r a b c w : d <> [] -> validText s -> validText d -> validText r -> heapTop w mod 64 = 0 ->
  exists pieces v w', prim_split [Str a s; Str b d] w = (Ok v, w') /\ cutAt d s pieces /\ separated d pieces = s /\
    isListValue v = true /\ Forall2 isText (sequenceItems v) pieces /\
    answersText (prim_join [Str b d; v]) s /\
    answersText (prim_replace [Str a s; Str b d; Str c r]) (separated r pieces) /\
    (forall p q ps, pieces = p :: q :: ps ->
       answersText (prim_replace_first [Str a s; Str b d; Str c r]) (p ++ r ++ separated d (q :: ps)) /\
       answersInt (prim_index_of [Str a s; Str b d]) (Z.of_nat (length p)) /\
       prim_includes_p [Str a s; Str b d] w = (Ok PROTO_TRUE, w)) /\
    (forall p, pieces = [p] ->
       prim_replace_first [Str a s; Str b d; Str c r] w = (Ok (Str a s), w) /\
       prim_index_of [Str a s; Str b d] w = (Ok PROTO_NONE, w) /\
       prim_includes_p [Str a s; Str b d] w = (Ok PROTO_FALSE, w)).
Proof.
  intros Hd Hsv Hdv Hrv Hw. destruct (splitOn_cut (S (length s)) d s Hd ltac:(lia)) as (pieces & Hsplit & Hcut).
  pose proof (cut_valid d s pieces Hd Hdv Hcut Hsv) as Hpv. pose proof (cut_first d s pieces Hcut) as Hfind.
  destruct (newStrings_texts pieces w Hpv Hw) as (vs & w1 & Hnew & Htexts).
  assert (Hvs : vs <> []) by (intros ->; inversion Htexts; subst; by apply cutAt_ne in Hcut).
  exists pieces, (LList (heapTop w1) vs), (setHeapTop (heapTop w1 + 64) w1).
  split.
  { unfold prim_split. cbn -[splitOn newStrings Nat.eqb]. destruct d as [|d0 d]; [done|]. rewrite Hsplit.
    unfold mbind, E_bind, mret, E_ret, orNoTurns. cbn -[newStrings]. rewrite Hnew. destruct vs; [done|]. done. }
  split; [done|]. split; [by eapply cutAt_join|]. split; [done|]. split; [done|]. split; [|split; [|split]].
  - intros w2 Hw2. unfold prim_join. unfold mbind, E_bind. cbn [seqToList sequenceItems].
    rewrite (appendStr_texts vs pieces Htexts), (cutAt_join d s pieces Hcut). by apply newString_text.
  - intros w2 Hw2. unfold prim_replace. destruct d as [|d0 d]; [done|].
    rewrite (replaceLoop_cut _ _ r s pieces []) by (done || lia). unfold orNoTurns, mbind, E_bind, mret, E_ret.
    apply newString_text; [|done]. by apply separated_valid.
  - intros p q ps ->. split; [|split].
    + intros w2 Hw2. unfold prim_replace_first. unfold mbind, E_bind, stringArg, mret, E_ret. rewrite Hfind.
      inversion Hcut as [|? s' ? Hp Hf Hc]; subst. rewrite take_app_length.
      replace (drop (length p + length d) (p ++ d ++ s')) with s' by (by rewrite app_assoc, <- length_app, drop_app_length).
      rewrite (cutAt_join d s' (q :: ps) Hc). apply newString_text; [|done].
      inversion Hpv as [|? ? Hp0 Hps]; subst. apply valid_app; [done|]. apply valid_app; [done|].
      rewrite <- (cutAt_join d s' (q :: ps) Hc). by apply separated_valid.
    + intros w2. unfold prim_index_of. cbn -[find fromLong]. unfold mbind, E_bind, mret, E_ret. rewrite Z.min_l by lia. change (drop _ s) with s.
      rewrite Hfind. apply fromLong_int.
    + unfold prim_includes_p, onStrings. by rewrite Hfind.
  - intros p ->. split; [|split].
    + unfold prim_replace_first. unfold mbind, E_bind, stringArg, mret, E_ret. by rewrite Hfind.
    + unfold prim_index_of. cbn -[find fromLong]. unfold mbind, E_bind, mret, E_ret. rewrite Z.min_l by lia. change (drop _ s) with s. by rewrite Hfind.
    + unfold prim_includes_p, onStrings. by rewrite Hfind.
Qed.

End StringFunctions.
