(* ===== verification/MatchFacts.v ===== *)
(** Successive matches of a pattern: the walks of [re-find] on a matcher, of [re-seq]
    and of [replace] and [split] visit the same ones, and what [replace] and [split]
    make of them (runtime/Regex.h, Primitives.cpp). *)

From stdpp Require Import sorting.
From S2P Require Import Prelude Utf8 Values Maps Exceptions Printer Reader DataFormats JsonFacts JsonRoundTrip Numbers CorePrims CoreFacts Regex TextFacts Strings.

#[local] Set Warnings "-register-all".

(** The store of matchers. *)
Class MatcherLaws (W exn : Type) `{StringsEnv W exn} : Prop := {
  matchers_set m w : matchers (setMatchers m w) = m;
  matchers_top a w : matchers (setHeapTop a w) = matchers w;
}.

(** PCRE2 finds matches at or after where the search starts, inside the subject
    (patterns with [\K] in a lookaround, which it refuses by default, aside). *)
Definition findsForward `{Pcre2} (c : pcre2_code) : Prop := forall s from rc ov,
  (from <= length s)%nat -> pcre2_match c s from = (rc, ov) -> 0 <= rc ->
  1 <= rc /\ exists a b, ov !! 0%nat = Some (Some a) /\ ov !! 1%nat = Some (Some b) /\ (from <= a <= b)%nat /\ (b <= length s)%nat.

Section Matches.
Context {W exn : Type} `{Hs : StringsEnv W exn}.

#[local] Abbreviation F := (E (formatError exn) W).

(** ** The matches *)

Inductive successive (cp : CompiledPattern) (s : bytes) : nat -> list Match -> Prop :=
| no_more from : regexSearch cp s from = Ok None -> successive cp s from []
| one_more from m ms : regexSearch cp s from = Ok (Some m) -> successive cp s (nextFrom s m) ms -> successive cp s from (m :: ms).

Context (cp : CompiledPattern) (s : bytes) (Hcode : findsForward (code cp)).

Lemma search_found from m : regexSearch cp s from = Ok (Some m) ->
  (from <= start m 0 <= end_ m 0)%nat /\ (end_ m 0 <= length s)%nat /\ matched m 0 = true.
Proof.
  unfold regexSearch. destruct (Nat.ltb_spec (length s) from); [done|]. unfold runMatch.
  destruct (pcre2_match (code cp) s from) as [rc ov] eqn:E. destruct (rc =? PCRE2_ERROR_NOMATCH); [done|].
  destruct (Z.ltb_spec rc 0); [repeat case_match; done|]. intros [= <-].
  destruct (Hcode s from rc ov ltac:(lia) E ltac:(lia)) as (Hrc & a & b & Ha & Hb & Hab & Hbs).
  set (f := fun k => if (k <? _)%nat then default None (ov !! k) else None).
  assert (Hf : forall k, (k < 2 * (groups cp + 1))%nat -> offset (mkMatch (map f (seq 0 (2 * (groups cp + 1))))) k = f k).
  { intros k Hk. unfold offset. cbn [offsets]. change (map f ?l) with (f <$> l). by rewrite list_lookup_fmap, lookup_seq_lt. }
  unfold start, end_, matched. rewrite !Hf by lia. subst f. cbv beta.
  rewrite !(proj2 (Nat.ltb_lt _ (2 * Z.to_nat rc))) by lia. change (2 * 0 + 1)%nat with 1%nat. change (2 * 0)%nat with 0%nat.
  rewrite Ha, Hb. cbn. lia.
Qed.

Lemma nextCharacter_after pos : (pos < nextCharacter s pos <= S (Nat.max pos (length s)))%nat.
Proof.
  unfold nextCharacter. destruct (drop pos s) as [|c x] eqn:E; [lia|]. pose proof (utf8Length_bounds c).
  destruct (Nat.ltb_spec (length s) (pos + utf8Length c)); [lia|]. destruct (forallb _ _); lia.
Qed.

(** The walk goes on, and at most one character past the end. *)
Lemma nextFrom_after from m : regexSearch cp s from = Ok (Some m) ->
  (from < nextFrom s m <= S (length s))%nat /\ (end_ m 0 <= nextFrom s m)%nat /\ (start m 0 < nextFrom s m)%nat.
Proof.
  intros Hm%search_found. unfold nextFrom, mlength. pose proof (nextCharacter_after (end_ m 0)).
  destruct (Nat.eqb_spec (end_ m 0 - start m 0) 0); lia.
Qed.

Lemma successive_or_fails n from : (S (length s) - from < n)%nat ->
  (exists ms, successive cp s from ms) \/ exists from' e, regexSearch cp s from' = Throw e.
Proof.
  revert from. induction n as [|n IH]; intros from Hn; [lia|].
  destruct (regexSearch cp s from) as [[m|]|e] eqn:E; [|left; exists []; by constructor|by right; eauto].
  pose proof (nextFrom_after from m E). 
  assert (from <= length s)%nat. { destruct (Nat.le_gt_cases from (length s)); [done|]. unfold regexSearch in E. by rewrite (proj2 (Nat.ltb_lt _ _)) in E. }
  destruct (IH (nextFrom s m)) as [[ms Hms]|]; [lia| |by right]. left. exists (m :: ms). by econstructor.
Qed.

Lemma successive_after from ms : successive cp s from ms -> Forall (fun m => from <= start m 0 <= end_ m 0 /\ end_ m 0 <= length s)%nat ms.
Proof.
  induction 1 as [|from m ms E Hms IH]; constructor; [pose proof (search_found _ _ E); tauto|].
  pose proof (nextFrom_after _ _ E). eapply Forall_impl; [exact IH|]. cbn. intros; lia.
Qed.

(** [m] ends where [m'] starts or before, and they start apart. *)
Definition before (m m' : Match) : Prop := (end_ m 0 <= start m' 0)%nat /\ (start m 0 < start m' 0)%nat.

Lemma successive_sorted from ms : successive cp s from ms -> StronglySorted before ms.
Proof.
  induction 1 as [|from m ms E Hms IH]; constructor; [done|]. pose proof (nextFrom_after _ _ E).
  eapply Forall_impl; [by apply successive_after|]. cbn. unfold before. intros; lia.
Qed.

Lemma successive_fewer from ms : successive cp s from ms -> (length ms <= S (length s) - from)%nat.
Proof.
  induction 1 as [|from m ms E Hms IH]; [cbn; lia|]. pose proof (nextFrom_after _ _ E). cbn. lia.
Qed.

Lemma search_ran from r : regexSearch cp s from = Ok r -> search cp s from = (mret r : F (option Match)).
Proof. intros E. unfold search. by rewrite E. Qed.

(** [forEachMatch] visits them. *)
Fixpoint eachOf {A} (f : Match -> A -> F (bool * A)) (ms : list Match) (a : A) : F A :=
  match ms with
  | [] => mret a
  | m :: ms => '(goOn, a) ← f m a; if goOn : bool then eachOf f ms a else mret a
  end.

Lemma forEachMatch_visits {A} (f : Match -> A -> F (bool * A)) turns from ms a w : successive cp s from ms -> (S (length s) - from <= turns)%nat ->
  forEachMatch turns s cp f from a w = eachOf f ms a w.
Proof.
  intros Hms. revert turns a w. induction Hms as [from E|from m ms E Hms IH]; intros turns a w Ht.
  - destruct turns as [|turns]; cbn [forEachMatch]; (destruct (Nat.ltb_spec (length s) from); [done|]); [lia|].
    unfold mbind, E_bind. by rewrite (search_ran _ _ E).
  - pose proof (nextFrom_after _ _ E). 
    destruct turns as [|turns]; cbn [forEachMatch eachOf]; (destruct (Nat.ltb_spec (length s) from); [unfold regexSearch in E; rewrite (proj2 (Nat.ltb_lt _ _)) in E by done; done|]); [lia|].
    unfold mbind, E_bind. rewrite (search_ran _ _ E). cbn. destruct (f m a w) as [[[goOn a']|] w']; [|done].
    destruct goOn; [|done]. apply IH. lia.
Qed.

Lemma walk_visits {A} (f : Match -> A -> F (bool * A)) ms a w : successive cp s 0 ms -> walk s cp f a w = eachOf f ms a w.
Proof. intros Hms. apply forEachMatch_visits; [done|lia]. Qed.

(** ** Values of matches *)

Definition isPart (m : Match) (g : nat) (v : obj) : Prop :=
  if matched m g then exists a, v = Str a (utf8Text (mstr m s g)) else v = PROTO_NONE.

(** The text of the match, or the vector of it and of the groups, nil for one that took
    no part. *)
Definition isMatchValue (v : obj) (m : Match) : Prop :=
  if (groups cp =? 0)%nat then exists a, v = Str a (utf8Text (mstr m s 0))
  else exists a items, v = Vec a items /\ Forall2 (isPart m) (seq 0 (S (groups cp))) items.

Context `{!MatcherLaws W exn}.

Lemma groupValues_run m gs w : exists vs w', groupValues s m gs w = (Ok vs, w') /\ Forall2 (isPart m) gs vs /\ matchers w' = matchers w.
Proof.
  revert w. induction gs as [|g gs IH]; intros w; [by exists [], w|]. cbn [groupValues]. unfold mbind, E_bind.
  assert (exists v w', (if matched m g then newString (mstr m s g) else mret PROTO_NONE) w = (Ok v, w') /\ isPart m g v /\ matchers w' = matchers w)
    as (v & w1 & -> & Hv & Hw1).
  { unfold isPart. destruct (matched m g); [|by exists PROTO_NONE, w]. eexists _, _. split; [reflexivity|]. split; [by eexists|apply matchers_top]. }
  destruct (IH w1) as (vs & w2 & -> & Hvs & Hw2). exists (v :: vs), w2. split; [done|]. split; [by constructor|]. by rewrite Hw2.
Qed.

Lemma matchValue_run m w : exists v w', matchValue s m (groups cp) w = (Ok v, w') /\ isMatchValue v m /\ matchers w' = matchers w.
Proof.
  unfold matchValue, isMatchValue. destruct (groups cp =? 0)%nat.
  - eexists _, _. split; [reflexivity|]. split; [by eexists|apply matchers_top].
  - destruct (groupValues_run m (seq 0 (S (groups cp))) w) as (vs & w1 & E & Hvs & Hw1). unfold mbind, E_bind. rewrite E.
    eexists _, _. split; [reflexivity|]. split; [by eexists _, _|]. unfold newCell, allocateIn. by rewrite matchers_top.
Qed.

(** ** Finding with a matcher *)

Context (src : bytes) (Hsrc : compiledForm src = Ok cp).

Lemma compiledOf_run : compiledOf src = (mret cp : F CompiledPattern).
Proof. unfold compiledOf. by rewrite Hsrc. Qed.

(** [n] calls of [re-find] on the matcher. *)
Fixpoint finds (n : nat) (v : obj) : F (list obj) :=
  match n with
  | O => mret []
  | S n => x ← prim_re_find [v]; xs ← finds n v; mret (x :: xs)
  end.

(** The matcher is at [from]. *)
Definition matcherAt (v : obj) (from : nat) (w : W) : Prop :=
  isMatcher v = true /\ exists g, matchers w !! address v = Some (mkMatcher src s from g).

Lemma find_next v from m w : matcherAt v from w -> regexSearch cp s from = Ok (Some m) ->
  exists x w', prim_re_find [v] w = (Ok x, w') /\ isMatchValue x m /\ matcherAt v (nextFrom s m) w' /\ prim_re_groups [v] w' = (Ok x, w').
Proof.
  intros [Hv [g Hg]] E. pose proof (nextFrom_after _ _ E).
  assert (from <= length s)%nat. { destruct (Nat.le_gt_cases from (length s)); [done|]. unfold regexSearch in E. by rewrite (proj2 (Nat.ltb_lt _ _)) in E. }
  unfold prim_re_find. rewrite Hv. unfold matcherFind, look. unfold mbind, E_bind. rewrite Hg. cbn [mPattern mSubject mPos mGroups]. rewrite compiledOf_run.
  cbv zeta. rewrite (proj2 (Nat.ltb_ge (length s) from)) by done. cbn. rewrite (search_ran _ _ E). cbn.
  destruct (matchValue_run m w) as (x & w1 & -> & Hx & Hw1). eexists _, _. split; [reflexivity|]. split; [done|].
  split.
  - split; [done|]. eexists. rewrite matchers_set. apply lookup_insert_eq.
  - unfold prim_re_groups. rewrite Hv. unfold mbind, E_bind, look. rewrite matchers_set, lookup_insert_eq. done.
Qed.

Lemma find_none v from w : matcherAt v from w -> regexSearch cp s from = Ok None ->
  exists w', prim_re_find [v] w = (Ok PROTO_NONE, w') /\ exists from', matcherAt v from' w' /\ regexSearch cp s from' = Ok None.
Proof.
  intros [Hv [g Hg]] E. unfold prim_re_find. rewrite Hv. unfold matcherFind, look. unfold mbind, E_bind. rewrite Hg. cbn [mPattern mSubject mPos mGroups]. rewrite compiledOf_run.
  cbv zeta. destruct (Nat.ltb_spec (length s) from).
  - cbn. exists w. split; [done|]. exists from. split; [|done]. split; [done|]. by exists g.
  - cbn. rewrite (search_ran _ _ E). cbn. eexists. split; [reflexivity|]. exists (S (length s)). split.
    + split; [done|]. eexists. rewrite matchers_set. apply lookup_insert_eq.
    + unfold regexSearch. by rewrite (proj2 (Nat.ltb_lt _ _)) by lia.
Qed.

Lemma finds_matches v from ms w : successive cp s from ms -> matcherAt v from w ->
  exists vs w', finds (length ms) v w = (Ok vs, w') /\ Forall2 isMatchValue vs ms /\
    exists from', matcherAt v from' w' /\ regexSearch cp s from' = Ok None.
Proof.
  intros Hms. revert w. induction Hms as [from E|from m ms E Hms IH]; intros w Hat.
  - exists [], w. split; [done|]. split; [done|]. by exists from.
  - destruct (find_next v from m w Hat E) as (x & w1 & Ex & Hx & Hat1 & _). destruct (IH w1 Hat1) as (vs & w2 & Evs & Hvs & Hend).
    exists (x :: vs), w2. cbn [length finds]. unfold mbind, E_bind. rewrite Ex, Evs. split; [done|]. split; [by constructor|done].
Qed.

(** ** re-seq, realised *)

Fixpoint realized (turns : nat) (r : option (obj * nat)) : F (list obj) :=
  match r, turns with
  | None, _ => mret []
  | Some _, O => raise NoTurns
  | Some (v, pos), S turns => r ← reSeqFrom cp s pos; vs ← realized turns r; mret (v :: vs)
  end.

Lemma reSeq_run from w ms : successive cp s from ms ->
  exists r w', reSeqFrom cp s from w = (Ok r, w') /\
    match ms with [] => r = None | m :: _ => exists v, r = Some (v, nextFrom s m) /\ isMatchValue v m end.
Proof.
  intros Hms. unfold reSeqFrom. destruct Hms as [from E|from m ms E Hms].
  - destruct (length s <? from)%nat; [by exists None, w|]. unfold mbind, E_bind. rewrite (search_ran _ _ E). by exists None, w.
  - unfold regexSearch in E. destruct (Nat.ltb_spec (length s) from) as [Hl|Hl]; [done|]. unfold mbind, E_bind.
    rewrite (search_ran from (Some m)) by (unfold regexSearch; by rewrite (proj2 (Nat.ltb_ge _ _))). cbn.
    destruct (matchValue_run m w) as (v & w1 & -> & Hv & _). eexists _, _. split; [reflexivity|]. by eexists.
Qed.

Lemma realized_matches from ms w : successive cp s from ms ->
  exists r w1 vs w2, reSeqFrom cp s from w = (Ok r, w1) /\ realized (length ms) r w1 = (Ok vs, w2) /\ Forall2 isMatchValue vs ms.
Proof.
  intros Hms. revert w. induction Hms as [from E|from m ms E Hms IH]; intros w.
  - destruct (reSeq_run from w []) as (r & w1 & Er & ->); [by constructor|]. exists None, w1, [], w1. done.
  - destruct (reSeq_run from w (m :: ms)) as (r & w1 & Er & v & -> & Hv); [by econstructor|].
    destruct (IH w1) as (r2 & w2 & vs & w3 & Er2 & Evs & Hvs).
    exists (Some (v, nextFrom s m)), w1, (v :: vs), w3. split; [done|]. split; [|by constructor]. cbn [length realized].
    unfold mbind, E_bind. by rewrite Er2, Evs.
Qed.

Lemma new_matcher a b w : exists v w', prim_re_matcher [Pattern a src; Str b s] w = (Ok v, w') /\ matcherAt v 0 w'.
Proof.
  unfold prim_re_matcher, patternArg, stringArg. rewrite compiledOf_run. unfold mbind, E_bind. cbn. eexists _, _. split; [reflexivity|].
  split; [done|]. eexists. rewrite matchers_set. apply lookup_insert_eq.
Qed.

(** C24. The walks over the matches of a pattern agree. Unless a search raises, the
    searches from the start of the subject, each from the end of the match before or one
    character further after an empty one, find finitely many matches, at most one more
    than the bytes, in order and apart; [forEachMatch], under [replace] and [split],
    visits exactly those, without running out of turns; a matcher answers them one by one
    by [re-find], as [re-groups] does after each, and then nil; [re-seq], realised,
    answers the same list, and [re-find] of the pattern the first. *)
Theorem walks_agree :
  ((exists ms, successive cp s 0 ms) \/ exists from e, regexSearch cp s from = Throw e) /\
  forall ms, successive cp s 0 ms ->
    StronglySorted before ms /\ (length ms <= S (length s))%nat /\
    (forall A (f : Match -> A -> F (bool * A)) a w, walk s cp f a w = eachOf f ms a w) /\
    (forall a b w, exists v w0 vs w1 w2, prim_re_matcher [Pattern a src; Str b s] w = (Ok v, w0) /\
       finds (length ms) v w0 = (Ok vs, w1) /\ Forall2 isMatchValue vs ms /\ prim_re_find [v] w1 = (Ok PROTO_NONE, w2)) /\
    (forall a b w, exists r w1 vs w2, prim_re_seq [Pattern a src; Str b s] w = (Ok r, w1) /\
       realized (length ms) r w1 = (Ok vs, w2) /\ Forall2 isMatchValue vs ms) /\
    (forall a b w, exists x w', prim_re_find [Pattern a src; Str b s] w = (Ok x, w') /\
       match ms with [] => x = PROTO_NONE | m :: _ => isMatchValue x m end).
Proof.
  split.
  { apply (successive_or_fails (S (S (S (length s))))). lia. }
  intros ms Hms. pose proof (successive_fewer 0 ms Hms). split; [by eapply successive_sorted|]. split; [lia|].
  split; [intros; by apply walk_visits|]. split; [|split].
  - intros a b w. destruct (new_matcher a b w) as (v & w0 & E0 & Hat).
    destruct (finds_matches v 0 ms w0 Hms Hat) as (vs & w1 & E1 & Hvs & from' & Hat' & Hend).
    destruct (find_none v from' w1 Hat' Hend) as (w2 & E2 & _). by exists v, w0, vs, w1, w2.
  - intros a b w. destruct (realized_matches 0 ms w Hms) as (r & w1 & vs & w2 & Er & Evs & Hvs). exists r, w1, vs, w2.
    split; [|done]. unfold prim_re_seq, patternArg, stringArg. rewrite compiledOf_run. exact Er.
  - intros a b w. unfold prim_re_find, patternArg, stringArg. rewrite compiledOf_run. unfold mbind, E_bind. cbn.
    destruct Hms as [from E|from m ms E Hms]; rewrite (search_ran _ _ E); cbn; [by eexists _, _|].
    destruct (matchValue_run m w) as (v & w1 & -> & Hv & _). by eexists _, _.
Qed.

(** ** replace and split *)

(** The text with the texts in the places of the matches; what is between them. *)
Fixpoint spliced (from : nat) (ms : list Match) (texts : list bytes) : bytes :=
  match ms, texts with
  | m :: ms, t :: texts => substr s from (start m 0 - from) ++ t ++ spliced (end_ m 0) ms texts
  | _, _ => drop from s
  end.

Fixpoint gaps (from : nat) (ms : list Match) : list bytes :=
  match ms with
  | [] => [drop from s]
  | m :: ms => substr s from (start m 0 - from) :: gaps (end_ m 0) ms
  end.

(** Matches from one place to another, in order. *)
Inductive ordered : nat -> list Match -> Prop :=
| ordered_end from : ordered from []
| ordered_more from m ms : (from <= start m 0 <= end_ m 0)%nat -> (end_ m 0 <= length s)%nat -> matched m 0 = true ->
    ordered (end_ m 0) ms -> ordered from (m :: ms).

Lemma ordered_earlier from from' ms : (from <= from')%nat -> ordered from' ms -> ordered from ms.
Proof. intros Hle. destruct 1; constructor; done || lia. Qed.

Lemma successive_ordered from ms : successive cp s from ms -> ordered from ms.
Proof.
  induction 1 as [|from m ms E Hms IH]; constructor; try (pose proof (search_found _ _ E); lia || tauto).
  pose proof (nextFrom_after _ _ E). eapply ordered_earlier; [|exact IH]. lia.
Qed.

Lemma ordered_filter (keep : Match -> bool) from ms : ordered from ms -> ordered from (List.filter keep ms).
Proof.
  induction 1 as [|from m ms Hm Hl Hma Hms IH]; cbn; [constructor|]. destruct (keep m); [by constructor|].
  eapply ordered_earlier; [|exact IH]. lia.
Qed.

Lemma substr_drop from m : (from <= start m 0 <= end_ m 0)%nat -> matched m 0 = true ->
  substr s from (start m 0 - from) ++ mstr m s 0 ++ drop (end_ m 0) s = drop from s.
Proof.
  intros Hm Hma. unfold mstr, substr, mlength. rewrite Hma.
  replace (drop (end_ m 0) s) with (drop (end_ m 0 - start m 0) (drop (start m 0) s)) by (rewrite drop_drop; f_equal; lia).
  rewrite take_drop. replace (drop (start m 0) s) with (drop (start m 0 - from) (drop from s)) by (rewrite drop_drop; f_equal; lia).
  by rewrite take_drop.
Qed.

(** The matches in their own places. *)
Lemma spliced_matches from ms : ordered from ms -> spliced from ms (map (fun m => mstr m s 0) ms) = drop from s.
Proof. induction 1 as [|from m ms Hm Hl Hma Hms IH]; cbn; [done|]. rewrite IH. by apply substr_drop. Qed.

Lemma spliced_joined from ms r : spliced from ms (map (fun _ => r) ms) = separated r (gaps from ms).
Proof.
  revert from. induction ms as [|m ms IH]; intros from; [done|]. cbn [spliced map gaps]. rewrite IH.
  by destruct ms.
Qed.

(** The replacement stands for the text. *)
Definition expands (r : bytes) (m : Match) (t : bytes) : Prop :=
  forall w : W, (expandReplacement (length r) s m (groups cp) r r : F bytes) w = (Ok t, w).

Lemma expands_plain r m : forallb (fun c => negb (c =? "\")%byte && negb (c =? "$")%byte) r = true -> expands r m r.
Proof.
  intros Hr w. generalize r at 2. intros whole. revert Hr. induction r as [|c r IH]; intros Hr; [done|]. cbn [forallb] in Hr.
  apply andb_prop in Hr as [Hc Hr]. apply andb_prop in Hc as [Hc1 Hc2]. cbn [length].
  assert (E : expandReplacement (S (length r)) s m (groups cp) whole (c :: r) = (rest ← expandReplacement (length r) s m (groups cp) whole r; mret (c :: rest) : F bytes)).
  { destruct c; done. }
  rewrite E. unfold mbind, E_bind. by rewrite IH.
Qed.

Lemma expands_whole m : expands (s2b "$0") m (mstr m s 0).
Proof. intros w. cbn. rewrite (proj2 (Z.ltb_ge _ 0)) by lia. unfold mbind, E_bind, mret, E_ret. by rewrite app_nil_r. Qed.

Lemma replacing firstOnly r ms texts out last w : Forall2 (expands r) ms texts ->
  exists out' last', eachOf (fun m '(out, last) =>
      text ← appendReplacement s m (groups cp) (Str 0 r); mret (negb firstOnly, (out ++ substr s last (start m 0 - last) ++ text, end_ m 0)))
    ms (out, last) w = (Ok (out', last'), w) /\
    out' ++ drop last' s = out ++ if firstOnly : bool then spliced last (take 1 ms) (take 1 texts) else spliced last ms texts.
Proof.
  intros Ht. revert out last. induction Ht as [|m t ms texts Hm Ht IH]; intros out last.
  - exists out, last. split; [done|]. by destruct firstOnly.
  - cbn [eachOf]. unfold appendReplacement. unfold mbind, E_bind. rewrite (Hm w). cbn. destruct firstOnly; cbn [negb].
    + eexists _, _. split; [reflexivity|]. cbn. by rewrite take_0, <- !app_assoc.
    + destruct (IH (out ++ substr s last (start m 0 - last) ++ t) (end_ m 0)) as (out' & last' & E & Ho).
      exists out', last'. split; [exact E|]. rewrite Ho. cbn. by rewrite <- !app_assoc.
Qed.

Lemma replaceWithPattern_run firstOnly c r ms texts w : successive cp s 0 ms -> Forall2 (expands r) ms texts ->
  replaceWithPattern s cp (Str c r) firstOnly w =
    newString (if firstOnly : bool then spliced 0 (take 1 ms) (take 1 texts) else spliced 0 ms texts) w.
Proof.
  intros Hms Ht. unfold replaceWithPattern. unfold mbind at 1, E_bind at 1. rewrite (walk_visits _ _ _ _ Hms).
  destruct (replacing firstOnly r ms texts [] 0 w Ht) as (out & last & E & Ho). 
  change (appendReplacement s ?m (groups cp) (Str c r)) with (appendReplacement s m (groups cp) (Str 0 r)).
  rewrite E. rewrite Ho. done.
Qed.

(** The matches at which [split] cuts: but for empty ones at the ends. *)
Definition cutsAt (m : Match) : bool :=
  negb ((start m 0 =? 0)%nat && (mlength m 0 =? 0)%nat) && negb ((mlength m 0 =? 0)%nat && (length s <=? start m 0)%nat).

(** As many as [limit] allows when there are [k] pieces. *)
Definition limited (limit k : Z) (ms : list Match) : list Match :=
  if 0 <? limit then take (Z.to_nat (limit - 1 - k)) ms else ms.

Lemma splitting limit from0 ms pieces from w : successive cp s from0 ms -> (0 < limit -> Z.of_nat (length pieces) <= limit - 1) ->
  exists pieces' from', eachOf (fun m acc => mret (splitAt s limit m acc)) ms (pieces, from) w = (Ok (pieces', from'), w) /\
    pieces' ++ [drop from' s] = pieces ++ gaps from (limited limit (Z.of_nat (length pieces)) (List.filter cutsAt ms)).
Proof.
  intros Hms. revert pieces from. induction Hms as [from0 E|from0 m ms E Hms IH]; intros pieces from Hk.
  - exists pieces, from. split; [done|]. unfold limited. cbn. destruct (0 <? limit); by rewrite ?take_nil.
  - pose proof (search_found _ _ E) as (Hm & Hml & _). pose proof (nextFrom_after _ _ E) as Hnext. cbn [eachOf].
    unfold mbind at 1, E_bind at 1. unfold mret at 1, E_ret at 1. unfold splitAt at 1.
    assert (Hfull : (0 <? limit) && (Z.of_nat (length pieces) =? limit - 1) = true -> limited limit (Z.of_nat (length pieces)) (List.filter cutsAt (m :: ms)) = []).
    { intros [Hl1%Z.ltb_lt Hl2%Z.eqb_eq]%andb_prop. unfold limited. rewrite (proj2 (Z.ltb_lt 0 limit)), Hl2 by done.
      by replace (Z.to_nat _) with 0%nat by lia. }
    destruct (_ && _) eqn:Ef in |- *; [rewrite Hfull by done; by exists pieces, from|]. clear Hfull.
    cbv zeta. cbn [List.filter]. unfold cutsAt at 1.
    destruct (_ && _) eqn:Es in |- * at 1; [rewrite Es; cbn [negb andb]; by apply IH|]. rewrite Es. cbn [negb andb].
    destruct (_ && _) eqn:Ee in |- * at 1; rewrite Ee; cbn [negb].
    + apply andb_prop in Ee as [He1%Nat.eqb_eq He2%Nat.leb_le]. assert (ms = []) as ->.
      { destruct Hms as [|from1 m1 ms E1 _]; [done|]. apply search_found in E1. lia. }
      exists pieces, from. split; [done|]. unfold limited. cbn. destruct (0 <? limit); by rewrite ?take_nil.
    + replace (start m 0 + mlength m 0)%nat with (end_ m 0) by (unfold mlength; lia).
      destruct (IH (pieces ++ [substr s from (start m 0 - from)]) (end_ m 0)) as (pieces' & from' & -> & Hp).
      { rewrite length_app. cbn. z_cases; lia. }
      exists pieces', from'. split; [done|]. rewrite Hp, <- app_assoc. f_equal. rewrite length_app. cbn [length].
      unfold limited. destruct (Z.ltb_spec 0 limit) as [Hlim|]; [|done].
      assert (Z.of_nat (length pieces) < limit - 1) by (revert Ef; z_cases; lia).
      replace (Z.to_nat (limit - 1 - Z.of_nat (length pieces))) with (S (Z.to_nat (limit - 1 - Z.of_nat (length pieces + 1)))) by lia.
      done.
Qed.


Lemma gaps_length from ms : length (gaps from ms) = S (length ms).
Proof. revert from. induction ms as [|m ms IH]; intros from; cbn; [done|]. by rewrite IH. Qed.

Definition isPiece (v : obj) (p : bytes) : Prop := exists a, v = Str a (utf8Text p).

Lemma newStrings_run ps w : exists vs w', newStrings ps w = (Ok vs, w') /\ Forall2 isPiece vs ps.
Proof.
  revert w. induction ps as [|p ps IH]; intros w; [by exists [], w|]. cbn [newStrings].
  destruct (IH (setHeapTop (heapTop w + 64) w)) as (vs & w' & E & Hvs). exists (Str (heapTop w) (utf8Text p) :: vs), w'.
  split; [|by constructor; [eexists|]]. unfold mbind at 1, E_bind at 1, newCell, allocateIn. unfold mbind at 1, E_bind at 1. by rewrite E.
Qed.

(** The trailing empty pieces. *)
Lemma dropEmpty_spec l : l <> [] -> exists k, l = replicate k [] ++ dropEmpty l /\ (dropEmpty l = [[]] \/ exists c p l', dropEmpty l = (c :: p) :: l').
Proof.
  induction l as [|[|c p] l IH]; intros Hne; [done| |exists 0%nat; split; [done|right; by eexists _, _, _]].
  destruct l as [|q l]; [exists 0%nat; split; [done|by left]|].
  destruct (IH ltac:(done)) as (k & E & Hl). exists (S k). split; [|exact Hl].
  change (([] : bytes) :: q :: l = [] :: (replicate k [] ++ dropEmpty (q :: l))). by rewrite <- E.
Qed.

Definition trimmed (ps : list bytes) : list bytes :=
  match rev (dropEmpty (rev ps)), s with [[]], _ :: _ => [] | l, _ => l end.

Lemma trimmed_spec ps : ps <> [] -> exists k, ps = trimmed ps ++ replicate k [] /\ (last (trimmed ps) <> Some [] \/ s = [] /\ trimmed ps = [[]]).
Proof.
  intros Hne. destruct (dropEmpty_spec (rev ps)) as (k & E & Hl).
  { intros E%(f_equal (@rev _)). rewrite rev_involutive in E. done. }
  apply (f_equal (@rev _)) in E. rewrite rev_involutive, rev_app_distr in E.
  assert (Hrep : forall k, rev (replicate k ([] : bytes)) = replicate k []) by (clear; induction k as [|k IH]; [done|]; cbn; rewrite IH; symmetry; apply replicate_cons_app).
  rewrite Hrep in E. unfold trimmed. destruct Hl as [Hl|(c & p & l' & Hl)].
  - rewrite Hl in *. cbn in *. destruct s as [|c0 s0]; [exists k; split; [done|by right]|].
    exists (S k). split; [exact E|]. by left.
  - exists k. assert (Hr : rev (dropEmpty (rev ps)) <> [[]]).
    { intros E'%(f_equal (@rev _)). rewrite rev_involutive, Hl in E'. done. }
    assert (Et : (match rev (dropEmpty (rev ps)), s with [[]], _ :: _ => [] | l, _ => l end) = rev (dropEmpty (rev ps))).
    { destruct (rev (dropEmpty (rev ps))) as [|[|] [|]]; try done; by destruct s. }
    rewrite Et. split; [done|]. left. rewrite Hl. cbn. rewrite last_snoc. done.
Qed.

Lemma splitWithPattern_run ms limit w : successive cp s 0 ms ->
  exists a vs w', splitWithPattern s cp limit w = (Ok (Vec a vs), w') /\
    Forall2 isPiece vs (let ps := gaps 0 (limited limit 0 (List.filter cutsAt ms)) in if limit =? 0 then trimmed ps else ps).
Proof.
  intros Hms. unfold splitWithPattern. unfold mbind at 1, E_bind at 1. rewrite (walk_visits _ _ _ _ Hms).
  destruct (splitting limit 0 ms [] 0 w Hms) as (pieces & from & -> & Hp); [cbn; lia|]. cbn [app length] in Hp. change (Z.of_nat 0) with 0 in Hp.
  rewrite Hp. cbv zeta. set (ps := gaps 0 _).
  assert (Et : (match (if limit =? 0 then rev (dropEmpty (rev ps)) else ps), s with
    | [[]], _ :: _ => if limit =? 0 then [] else (if limit =? 0 then rev (dropEmpty (rev ps)) else ps)
    | _, _ => (if limit =? 0 then rev (dropEmpty (rev ps)) else ps) end) = if limit =? 0 then trimmed ps else ps).
  { unfold trimmed. destruct (limit =? 0); [|destruct ps as [|[|] [|]]; try done; by destruct s].
    destruct (rev (dropEmpty (rev ps))) as [|[|] [|]]; try done; by destruct s. }
  rewrite Et. destruct (newStrings_run (if limit =? 0 then trimmed ps else ps) w) as (vs & w1 & E & Hvs).
  unfold mbind, E_bind. rewrite E. eexists _, vs, _. split; [reflexivity|done].
Qed.

(** C25. What [replace] and [split] make of the matches of a pattern. [replace] puts the
    expansion of the replacement in the place of each match, [replace-first] in that of
    the first; a text without \ or $ stands for itself and $0 for the match, so that
    replacing by $0 gives the string. [split] answers what is between the matches, empty
    ones at the ends left out: with a negative limit all of it, from which, with the
    matches, the string is made; with a positive one at most that many pieces, the last
    the rest; and with none without trailing empty pieces. *)
Theorem replace_split ms a b c : successive cp s 0 ms ->
  (forall r texts w, Forall2 (expands r) ms texts ->
     prim_replace [Str a s; Pattern b src; Str c r] w = newString (spliced 0 ms texts) w /\
     prim_replace_first [Str a s; Pattern b src; Str c r] w = newString (spliced 0 (take 1 ms) (take 1 texts)) w) /\
  (forall m, expands (s2b "$0") m (mstr m s 0)) /\ spliced 0 ms (map (fun m => mstr m s 0) ms) = s /\
  (forall r m, forallb (fun c => negb (c =? "\")%byte && negb (c =? "$")%byte) r = true -> expands r m r) /\
  (forall r, spliced 0 ms (map (fun _ => r) ms) = separated r (gaps 0 ms)) /\
  let cuts := List.filter cutsAt ms in
  spliced 0 cuts (map (fun m => mstr m s 0) cuts) = s /\
  (forall n limit w, isSmallInt n = true -> integerOf n = Some limit -> limit <> 0 ->
     exists d vs w', prim_split [Str a s; Pattern b src; n] w = (Ok (Vec d vs), w') /\
       Forall2 isPiece vs (gaps 0 (if limit <? 0 then cuts else take (Z.to_nat (limit - 1)) cuts)) /\
       (0 < limit -> Z.of_nat (length vs) <= limit)) /\
  (forall w, exists d vs ps k w', prim_split [Str a s; Pattern b src] w = (Ok (Vec d vs), w') /\ Forall2 isPiece vs ps /\
     gaps 0 cuts = ps ++ replicate k [] /\ (last ps <> Some [] \/ s = [] /\ ps = [[]])).
Proof.
  intros Hms. pose proof (successive_ordered 0 ms Hms) as Hord. split; [|split; [|split; [|split; [|split]]]].
  - intros r texts w Ht. unfold prim_replace, prim_replace_first, stringArg. rewrite compiledOf_run. unfold mbind, E_bind, mret, E_ret.
    split; by rewrite (replaceWithPattern_run _ _ _ _ _ _ Hms Ht).
  - intros m. apply expands_whole.
  - rewrite (spliced_matches 0 ms Hord). apply drop_0.
  - intros r m. apply expands_plain.
  - intros r. apply spliced_joined.
  - intros cuts. split; [|split].
    + rewrite spliced_matches by (by apply ordered_filter). apply drop_0.
    + intros n limit w Hsmall Hint Hnz. unfold prim_split. cbn [length]. cbn -[splitWithPattern indexArg]. unfold stringArg. rewrite compiledOf_run.
      unfold indexArg. change (argAt [Str a s; Pattern b src; n] 2) with n. rewrite Hint, Hsmall. unfold mbind, E_bind, mret, E_ret.
      destruct (splitWithPattern_run ms limit w Hms) as (d & vs & w' & E & Hvs). exists d, vs, w'. split; [exact E|].
      rewrite (proj2 (Z.eqb_neq limit 0)) in Hvs by done. unfold limited in Hvs. rewrite Z.sub_0_r in Hvs. cbv zeta in Hvs.
      split; [destruct (Z.ltb_spec 0 limit), (Z.ltb_spec limit 0); done || lia|]. intros Hl. apply Forall2_length in Hvs.
      rewrite Hvs, gaps_length, (proj2 (Z.ltb_lt 0 limit)), length_take by done. lia.
    + intros w. unfold prim_split. cbn [length]. cbn -[splitWithPattern indexArg]. unfold stringArg. rewrite compiledOf_run. unfold mbind, E_bind, mret, E_ret.
      destruct (splitWithPattern_run ms 0 w Hms) as (d & vs & w' & E & Hvs). cbn in Hvs.
      destruct (trimmed_spec (gaps 0 cuts)) as (k & Ek & Hlast); [by destruct cuts|].
      by exists d, vs, (trimmed (gaps 0 cuts)), k, w'.
Qed.

End Matches.
