(* ===== verification/DemoStrings.v ===== *)
(** A concrete environment for the functions on strings and patterns: the world of the
    core functions with a store of matchers, and an engine that matches a text, or a
    byte any number of times ([x*]), as a group of its own in parentheses; with the
    theorems applied there. *)

From stdpp Require Import sorting.
From S2P Require Import Prelude Utf8 Values Maps KeyEquality Exceptions Printer Reader DemoReader DataFormats DemoJson JsonFacts JsonRoundTrip.
From S2P Require Import Numbers CorePrims CoreFacts DemoCore Regex TextFacts Strings StringsFacts MatchFacts.

#[local] Set Warnings "-register-all".

Module Demo.
Import ListMaps DemoReader.Demo DemoJson.Demo DemoCore.Demo.

(** *** The engine *)

Record demoCode := mkCode { body : bytes; starred : bool; grouped : bool }.

Definition unclosed (s : bytes) : bool := match find (s2b "(") s, find (s2b ")") s with Some _, None => true | _, _ => false end.

Definition demoCompile (pattern : bytes) (ucp lf anchored : bool) : result (Z * nat) demoCode :=
  if unclosed pattern then Throw (114, length pattern)
  else
    let grouped := startsWith (s2b "(") pattern in
    let inner := if grouped then take (length pattern - 2) (drop 1 pattern) else pattern in
    match inner with
    | [c; star] => if (star =? "*")%byte then Ok (mkCode [c] true grouped) else Ok (mkCode inner false grouped)
    | _ => Ok (mkCode inner false grouped)
    end.

Fixpoint runOf (c : bytes) (s : bytes) : nat :=
  match s with d :: s => if startsWith c [d] then S (runOf c s) else O | [] => O end.

Definition demoMatch (code : demoCode) (s : bytes) (from : nat) : Z * list (option nat) :=
  let found a b := if grouped code then (2, [Some a; Some b; Some a; Some b]) else (1, [Some a; Some b]) in
  if (length s <? from)%nat then (-1, [])
  else if starred code then found from (from + runOf (body code) (drop from s))%nat
  else
    match find (body code) (drop from s) with
    | None => (-1, [])
    | Some k => found (from + k)%nat (from + k + length (body code))%nat
    end.

#[export] Instance demoPcre2 : Pcre2 := {
  pcre2_code := demoCode;
  pcre2_compile := demoCompile;
  pcre2_capturecount code := if grouped code then 1%nat else 0%nat;
  pcre2_match := demoMatch;
  pcre2_get_error_message c := if c =? 114 then Some (s2b "missing closing parenthesis") else None;
  PCRE2_ERROR_NOMATCH := -1;
  PCRE2_ERROR_JIT_STACKLIMIT := -46;
  PCRE2_ERROR_MATCHLIMIT := -47;
  PCRE2_ERROR_DEPTHLIMIT := -53;
  PCRE2_ERROR_HEAPLIMIT := -63;
  PCRE2_ERROR_NOMEMORY := -48;
}.

Lemma runOf_length c s : (runOf c s <= length s)%nat.
Proof. induction s as [|d s IH]; cbn; [done|]. destruct (startsWith _ _); lia. Qed.

Lemma demo_finds (c : demoCode) : findsForward c.
Proof.
  intros s from rc ov Hf E Hrc. change (demoMatch c s from = (rc, ov)) in E. unfold demoMatch in E.
  rewrite (proj2 (Nat.ltb_ge _ _)) in E by done.
  destruct (starred c).
  - pose proof (runOf_length (body c) (drop from s)) as Hr. rewrite length_drop in Hr.
    destruct (grouped c); injection E as <- <-; (split; [lia|]); eexists _, _; split_and!; try done; lia.
  - destruct (find (body c) (drop from s)) as [k|] eqn:Ek; [|injection E as <- _; lia].
    apply find_Some in Ek as ([b Hb] & Hk & _). apply (f_equal length) in Hb. rewrite !length_app, length_take, length_drop in Hb. rewrite length_drop in Hk.
    destruct (grouped c); injection E as <- <-; (split; [lia|]); eexists _, _; split_and!; try done; lia.
Qed.

(** *** The world *)

Record textWorld := mkTextWorld { base : demoWorld; matcherStore : gmap Z matcher; compiledStore : gmap bytes CompiledPattern }.

Definition onBase {A} (m : demoWorld -> A * demoWorld) (w : textWorld) : A * textWorld :=
  let '(r, b) := m (base w) in (r, mkTextWorld b (matcherStore w) (compiledStore w)).

(** [upper-case] of its last argument's text, in stars. *)
Definition callText (f : obj) (args : list obj) (w : textWorld) : result bytes obj * textWorld :=
  match List.last args PROTO_NONE with
  | Str a t => (Ok (Str a (map toupper t)), w)
  | v => (Ok v, w)
  end.

#[export] Instance textFormats : FormatsEnv textWorld bytes := {
  fe_reader := demoEnv;
  fe_printer := demoPrinter;
  heapTop w := top (base w);
  setHeapTop a w := mkTextWorld (setHeapTop a (base w)) (matcherStore w) (compiledStore w);
  gensymCounter w := gensyms (base w);
  setGensymCounter n w := mkTextWorld (setGensymCounter n (base w)) (matcherStore w) (compiledStore w);
  callValue := callText;
  readableDescriptor v who w := Ok 0;
  writableDescriptor v who w := Ok 1;
  readLineBlocking fd := onBase (demoReadLine fd);
  writeBlocking fd text := onBase (writeBlocking fd text);
  keywordFn w := Some keywordBuiltin;
  resolverHook := None;
  seqTypeName _ := s2b "a lazy seq";
  ioHandleTypeName _ := s2b "a reader";
  dataTooDeep := s2b "StackOverflowError: calls or data nested too deeply";
}.

Definition textArith (f g : Z -> Z -> Z) (a b : obj) : E (formatError bytes) textWorld obj :=
  match integerOf a, integerOf b with
  | Some x, Some y => fromLong (f x y)
  | _, _ => fromDouble (g (doubleOf a) (doubleOf b))
  end.

#[export] Instance textNumbers : NumbersEnv textWorld bytes := {
  protoAdd := textArith Z.add dadd;
  protoSubtract := textArith Z.sub (fun x y => dadd x (dneg y));
  protoMultiply := textArith Z.mul (fun x _ => x);
  protoDivide a b := match integerOf b with Some 0 => divideByZero | _ => textArith Z.quot ddiv a b end;
  protoCompare := sign;
  partialCompare a b := match integerOf a, integerOf b with Some x, Some y => Some (sign x y) | _, _ => None end;
  integerAsDouble := smallDouble;
}.

#[export] Instance textCore : CoreEnv textWorld bytes := {
  collectionItems v w := (None, w);
  addNamespaceAlias alias ns w := w;
  currentTimeMillis w := 0;
  nanoTime w := 0;
}.

(** Strings are counted by the bytes that start a character. *)
Definition starts (s : bytes) : list nat :=
  List.filter (fun i => negb (continues (nth i s x00))) (seq 0 (length s)).

#[export] Instance textStrings : StringsEnv textWorld bytes := {
  stringSize s := Z.of_nat (length (starts s));
  stringSlice s from to :=
    let place i := nth (Z.to_nat i) (starts s) (length s) in
    take (place to - place from) (drop (place from) s);
  matchers := matcherStore;
  setMatchers m w := mkTextWorld (base w) m (compiledStore w);
  patternCache := compiledStore;
  setPatternCache c w := mkTextWorld (base w) (matcherStore w) c;
  exceptionToString v := s2b "Exception";
  ioFilePath v := None;
  isLazySeq v := false;
}.

#[export] Instance textFormatsLaws : FormatsLaws (W := textWorld) (exn := bytes).
Proof. constructor; [done|apply JsonRoundTrip.Examples.demoFormatsLaws|done]. Qed.

#[export] Instance textMatcherLaws : MatcherLaws textWorld bytes.
Proof. by constructor. Qed.

Definition w0 : textWorld := mkTextWorld (startWorld []) ∅ ∅.

Definition shownText (r : result (formatError bytes) obj * textWorld) : bytes := shown (fst r, startWorld []).

End Demo.

(** ** Evaluations *)

Module Examples.
Import ListMaps DemoReader.Demo DemoJson.Demo DemoCore.Demo Demo.

Definition text (a : Z) (s : string) : obj := Str a (s2b s).
Definition pattern (s : string) : obj := Pattern 640 (s2b s).
Definition int (z : Z) : obj := Embedded (smallIntWord z).

Example ex_split : shownText (prim_split [text 64 "a, b, c"; text 128 ", "] w0) = q "(''a'' ''b'' ''c'')".
Proof. vm_compute. reflexivity. Qed.

Example ex_split_pattern : shownText (prim_split [text 64 "axxbxc"; pattern "x"] w0) = q "[''a'' '''' ''b'' ''c'']".
Proof. vm_compute. reflexivity. Qed.

Example ex_split_empty : shownText (prim_split [text 64 "baab"; pattern "a*"] w0) = q "[''b'' '''' ''b'']".
Proof. vm_compute. reflexivity. Qed.

Example ex_split_limit : shownText (prim_split [text 64 "a,b,c"; pattern ","; int 2] w0) = q "[''a'' ''b,c'']".
Proof. vm_compute. reflexivity. Qed.

Example ex_replace_groups : shownText (prim_replace [text 64 "a-b"; pattern "(-)"; text 128 "<$1\$>"] w0) = q "''a<-$>b''".
Proof. vm_compute. reflexivity. Qed.

Example ex_replace_fn : shownText (prim_replace [text 64 "a-b"; pattern "b"; echo] w0) = q "''a-B''".
Proof. vm_compute. reflexivity. Qed.

Example ex_replace_bad : shownText (prim_replace [text 64 "a-b"; pattern "-"; text 128 "$x"] w0) =
  s2b "IllegalArgumentException: Illegal group reference in replacement: $x".
Proof. vm_compute. reflexivity. Qed.

Example ex_find_groups : shownText (prim_re_find [pattern "(b*)"; text 64 "abba"] w0) = q "['''' '''']".
Proof. vm_compute. reflexivity. Qed.

Example ex_pattern_error : shownText (prim_re_pattern [text 64 "(a"] w0) =
  s2b "PatternSyntaxException: missing closing parenthesis near index 2: (a".
Proof. vm_compute. reflexivity. Qed.

Example ex_subs : shownText (prim_subs [text 64 "abc"; int 1; int 5] w0) =
  s2b "StringIndexOutOfBoundsException: subs begin 1, end 5, length 3".
Proof. vm_compute. reflexivity. Qed.

Example ex_str : shownText (prim_str [text 64 "a"; PROTO_NONE; int 7; Vec 128 [text 192 "b"]] w0) = q "''a7[\''b\'']''".
Proof. vm_compute. reflexivity. Qed.

Example ex_trim : shownText (prim_trim [text 64 "  a b
"] w0) = q "''a b''".
Proof. vm_compute. reflexivity. Qed.

(** [index-of] counts bytes where [subs] counts characters: in a text of e acute and x,
    [subs] from the index of x is past the end. *)
Definition accented : obj := Str 64 (encodeUtf8 0xE9 ++ s2b "x").

Example index_of_counts_bytes :
  prim_index_of [accented; text 128 "x"] w0 = (Ok (int 2), w0) /\ stringSize (encodeUtf8 0xE9 ++ s2b "x") = 2 /\
  shownText (prim_subs [accented; int 2] w0) = q "''''" /\ shownText (prim_subs [accented; int 1] w0) = q "''x''".
Proof. vm_compute. repeat split. Qed.

(** *** Witnesses *)

Lemma ascii_text s : forallb (fun c => u8 c <? 0x80) s = true -> validText s.
Proof. apply JsonRoundTrip.Examples.demo_text. Qed.

Lemma tagged : @noneWord (@re_platform (@fe_reader textWorld bytes textFormats)) mod 64 <> 0.
Proof. done. Qed.

Lemma split_join_replace_witness :
  exists pieces v w', prim_split [text 64 "a, b, c"; text 128 ", "] w0 = (Ok v, w') /\
    pieces = [s2b "a"; s2b "b"; s2b "c"] /\ Forall2 isText (sequenceItems v) pieces /\
    answersText (prim_join [text 128 ", "; v]) (s2b "a, b, c") /\
    answersText (prim_replace [text 64 "a, b, c"; text 128 ", "; text 192 "-"]) (s2b "a-b-c").
Proof.
  destruct (split_join_replace tagged (s2b "a, b, c") (s2b ", ") (s2b "-") 64 128 192 w0) as (pieces & v & w' & E & Hcut & _ & _ & Hv & Hj & Hr & _);
    [done|by apply ascii_text|by apply ascii_text|by apply ascii_text|done|].
  assert (Hp : pieces = [s2b "a"; s2b "b"; s2b "c"]).
  { assert (Hx : map appendStr (sequenceItems v) = pieces) by (by apply (appendStr_texts tagged)).
    vm_compute in E. injection E as <- _. vm_compute in Hx. by rewrite <- Hx. }
  rewrite Hp in *. exists [s2b "a"; s2b "b"; s2b "c"], v, w'. split; [exact E|]. split; [reflexivity|]. split; [exact Hv|]. split; [exact Hj|exact Hr].
Defined.

Definition starred_b : CompiledPattern := mkCompiled (s2b "b*") (mkCode (s2b "b") true false) 0.

Definition found (a b : nat) : Match := mkMatch [Some a; Some b].
Definition bs : list Match := [found 0 0; found 1 3; found 3 3; found 4 4].

Lemma bs_successive : successive starred_b (s2b "abba") 0 bs.
Proof. repeat (eapply one_more; [vm_compute; reflexivity|]; cbn [nextFrom]). apply no_more. vm_compute. reflexivity. Qed.

(** Of [b*] in [abba]: an empty match, the two letters, and two empty ones at the end. *)
Lemma walks_agree_witness :
  StronglySorted before bs /\
  exists v w1 vs w2 w3, prim_re_matcher [pattern "b*"; text 64 "abba"] w0 = (Ok v, w1) /\
    finds 4 v w1 = (Ok vs, w2) /\ Forall2 (isMatchValue starred_b (s2b "abba")) vs bs /\ prim_re_find [v] w2 = (Ok PROTO_NONE, w3).
Proof.
  destruct (proj2 (walks_agree starred_b (s2b "abba") (demo_finds _) (s2b "b*") eq_refl) bs bs_successive) as (Hsorted & _ & _ & Hfinds & _).
  split; [exact Hsorted|]. exact (Hfinds 640 64 w0).
Defined.

Lemma replace_split_witness :
  prim_replace [text 64 "abba"; pattern "b*"; text 128 "$0"] w0 = newString (s2b "abba") w0 /\
  separated (s2b "-") (gaps (s2b "abba") 0 bs) = s2b "-a--a-" /\
  prim_replace [text 64 "abba"; pattern "b*"; text 128 "-"] w0 = newString (s2b "-a--a-") w0.
Proof.
  destruct (replace_split starred_b (s2b "abba") (demo_finds _) (s2b "b*") eq_refl bs 64 640 128 bs_successive)
    as (Hreplace & Hwhole & Hsame & Hplain & Hjoined & _).
  split; [|split].
  - pose proof (proj1 (Hreplace (s2b "$0") (map (fun m => mstr m (s2b "abba") 0) bs) w0 ltac:(repeat constructor; apply Hwhole))) as E.
    rewrite Hsame in E. exact E.
  - vm_compute. reflexivity.
  - pose proof (proj1 (Hreplace (s2b "-") (map (fun _ => s2b "-") bs) w0 ltac:(repeat constructor; by apply Hplain))) as E.
    rewrite Hjoined in E. replace (separated _ _) with (s2b "-a--a-") in E by (vm_compute; reflexivity). exact E.
Defined.

End Examples.
