(* ===== verification/DapStdio.v ===== *)
(** The debugger's streams (dap/DapStdio.cpp, dap/DapTransport.cpp): what the program
    prints, forwarded in pieces that the reads of a pipe make, with the marks a stop waits
    for; and the framing of the protocol's messages. *)

From S2P Require Import Prelude Utf8 Regex.

#[local] Set Warnings "-register-all".

(** ** Forwarding what the program prints *)

(** The length of [s] without an incomplete character at its end; [back] counts the bytes
    looked at. *)
Fixpoint completeFrom (turns back : nat) (s : bytes) : nat :=
  let n := length s in
  match turns with
  | O => n
  | S turns =>
      if (back <=? n)%nat then
        let c := u8 (char_at s (n - back)) in
        if Z.land c 0xC0 =? 0x80 then completeFrom turns (S back) s
        else
          let len :=
            if Z.land c 0xE0 =? 0xC0 then 2%nat
            else if Z.land c 0xF0 =? 0xE0 then 3%nat
            else if Z.land c 0xF8 =? 0xF0 then 4%nat else 1%nat in
          if (back <? len)%nat then (n - back)%nat else n
      else n
  end.

Definition completeUtf8Prefix (s : bytes) : nat := completeFrom 3 1 s.

Definition kSyncMark : bytes := x00 :: x1f :: s2b "protoclj-dap-sync" ++ [x1f; x00].

(** The first [k], counting down, whose last [k] bytes of [s] begin the mark. *)
Fixpoint partialFrom (k : nat) (s : bytes) : nat :=
  match k with
  | O => O
  | S k' => if startsWith (drop (length s - k) s) kSyncMark then k else partialFrom k' s
  end.

Definition partialMarkAtEnd (s : bytes) : nat := partialFrom (Nat.min (length s) (length kSyncMark - 1)) s.

(** What a pump does that is seen: a call of the sink, and a mark counted. *)
Inductive forwarded := Sunk (text : bytes) | SyncSeen.

(** The marks in [pending]: what is before each goes to the sink. *)
Fixpoint takeMarks (turns : nat) (pending : bytes) : list forwarded * bytes :=
  match turns with
  | O => ([], pending)
  | S turns =>
      match find kSyncMark pending with
      | None => ([], pending)
      | Some at_ =>
          let '(more, kept) := takeMarks turns (drop (at_ + length kSyncMark) pending) in
          ((if (0 <? at_)%nat then [Sunk (take at_ pending)] else []) ++ SyncSeen :: more, kept)
      end
  end.

(** A turn of [pump]: a read that answered [chunk]. *)
Definition pumpRead (pending chunk : bytes) : list forwarded * bytes :=
  let pending := pending ++ chunk in
  let '(marks, pending) := takeMarks (S (length pending)) pending in
  let ready := (length pending - partialMarkAtEnd pending)%nat in
  let cut := completeUtf8Prefix (take ready pending) in
  if (cut =? 0)%nat then (marks, pending)
  else (marks ++ [Sunk (take cut pending)], drop cut pending).

(** The reads so far: what was forwarded, and what is held back. *)
Fixpoint pumpReads (pending : bytes) (chunks : list bytes) : list forwarded * bytes :=
  match chunks with
  | [] => ([], pending)
  | chunk :: chunks =>
      let '(now, pending) := pumpRead pending chunk in
      let '(later, pending) := pumpReads pending chunks in
      (now ++ later, pending)
  end.

(** [pump], from its start to the end of the file. *)
Definition pump (chunks : list bytes) : list forwarded :=
  let '(out, pending) := pumpReads [] chunks in
  out ++ (match pending with [] => [] | _ => [Sunk pending] end).

(** ** The protocol's messages *)

Definition isspace (c : byte) : bool := (c =? " ")%byte || in_range x09 c x0d.

Fixpoint dropSpace (s : bytes) : bytes :=
  match s with c :: s' => if isspace c then dropSpace s' else s | [] => [] end.

Definition trim (s : bytes) : bytes := rev (dropSpace (rev (dropSpace s))).

(** A header line, without its line end, and what follows it. *)
Fixpoint headerLine (line input : bytes) : option (bytes * bytes) :=
  match input with
  | [] => match line with [] => None | _ => Some (rev line, []) end
  | c :: input =>
      if (c =? x0a)%byte then
        Some (rev (match line with d :: line' => if (d =? x0d)%byte then line' else line | [] => [] end), input)
      else headerLine (c :: line) input
  end.

Definition readHeaderLine (input : bytes) : option (bytes * bytes) := headerLine [] input.

Definition lowerAscii (c : byte) : byte := if in_range "A" c "Z" then chr (u8 c + 32) else c.

Fixpoint iequals (a b : bytes) : bool :=
  match a, b with
  | [], [] => true
  | x :: a, y :: b => (lowerAscii x =? lowerAscii y)%byte && iequals a b
  | _, _ => false
  end.

Fixpoint leadingDigits (s : bytes) : bytes :=
  match s with c :: s' => if is_digit c then c :: leadingDigits s' else [] | [] => [] end.

(** [std::stoll]: spaces, a sign, digits; what follows is not read. None: it throws. *)
Definition stoll (s : bytes) : option Z :=
  let s := dropSpace s in
  let '(negative, s) :=
    match s with
    | c :: s' => if (c =? "-")%byte then (true, s') else if (c =? "+")%byte then (false, s') else (false, s)
    | [] => (false, [])
    end in
  match leadingDigits s with
  | [] => None
  | ds => let v := if negative : bool then - digits_value ds else digits_value ds in
          if fits_llong v then Some v else None
  end.

(** nlohmann's JSON, and what a string may hold: [std::string]'s constructor throws when
    [allocates] is false of the size. *)
Class JsonText := {
  json : Type;
  dump : json -> bytes;
  parse : bytes -> option json;
  allocates : Z -> bool;
}.

(** How [readMessage] ends: a message and the rest of the stream, nullopt, or an exception
    of the C++ library. *)
Inductive reading `{JsonText} := Read (msg : json) (rest : bytes) | NoMessage | LibraryThrows.

Section Transport.
Context `{JsonText}.

(** The header block: the last length it gives, none at first. *)
Fixpoint headers (turns : nat) (contentLength : Z) (input : bytes) : option (Z * bytes) :=
  match turns with
  | O => None
  | S turns =>
      match readHeaderLine input with
      | None => None
      | Some ([], input) => Some (contentLength, input)
      | Some (line, input) =>
          match find [":"%byte] line with
          | None => headers turns contentLength input
          | Some colon =>
              let key := trim (take colon line) in
              let value := trim (drop (S colon) line) in
              if iequals key (s2b "Content-Length") then
                match stoll value with Some n => headers turns n input | None => None end
              else headers turns contentLength input
          end
      end
  end.

Definition readMessage (input : bytes) : reading :=
  match headers (S (length input)) (-1) input with
  | None => NoMessage
  | Some (contentLength, input) =>
      if contentLength <? 0 then NoMessage
      else if negb (allocates contentLength) then LibraryThrows
      else
        let body := take (Z.to_nat (Z.min contentLength (Z.of_nat (length input)))) input in
        if negb (Z.of_nat (length body) =? contentLength) then NoMessage
        else match parse body with Some msg => Read msg (drop (length body) input) | None => NoMessage end
  end.

Definition crlf : bytes := [x0d; x0a].

(** What [writeMessage] writes. *)
Definition writeMessage (msg : json) : bytes :=
  let body := dump msg in
  s2b "Content-Length: " ++ to_string (Z.of_nat (length body)) ++ crlf ++ crlf ++ body.

(** The messages [readLoop] reads until the stream ends one way or another. *)
Fixpoint readMessages (turns : nat) (input : bytes) : list json * reading :=
  match turns with
  | O => ([], NoMessage)
  | S turns =>
      match readMessage input with
      | Read msg rest => let '(more, last) := readMessages turns rest in (msg :: more, last)
      | r => ([], r)
      end
  end.

End Transport.
