(* ===== verification/ForwardFacts.v ===== *)
(** What a pump forwards is what the program printed, whatever the reads that carried it,
    and the protocol's messages are read back as they were written (DapStdio.v). *)

From S2P Require Import Prelude Utf8 Regex TextFacts StringsFacts DapStdio.

#[local] Set Warnings "-register-all".

(** ** The pieces between the marks *)

(** The texts of the sink between the marks counted, [cur] first. *)
Fixpoint segments (cur : bytes) (es : list forwarded) : list bytes :=
  match es with
  | [] => [cur]
  | Sunk text :: es => segments (cur ++ text) es
  | SyncSeen :: es => cur :: segments [] es
  end.

Definition marksSeen (es : list forwarded) : nat :=
  length (List.filter (fun e => match e with SyncSeen => true | Sunk _ => false end) es).

Definition sunkTexts (es : list forwarded) : list bytes :=
  flat_map (fun e => match e with Sunk text => [text] | SyncSeen => [] end) es.

Lemma segments_ne c es : segments c es <> [].
Proof. revert c. by induction es as [|[t|] es IH]; intros c; cbn. Qed.

Lemma segments_marks c es : length (segments c es) = S (marksSeen es).
Proof. unfold marksSeen. revert c. induction es as [|[t|] es IH]; intros c; cbn; [done|apply IH|by rewrite IH]. Qed.

Lemma marksSeen_app es fs : marksSeen (es ++ fs) = (marksSeen es + marksSeen fs)%nat.
Proof. unfold marksSeen. by rewrite List.filter_app, length_app. Qed.

Lemma sunkTexts_app es fs : sunkTexts (es ++ fs) = sunkTexts es ++ sunkTexts fs.
Proof. apply flat_map_app. Qed.

Lemma segments_app c es fs ps cur : segments c es = ps ++ [cur] -> segments c (es ++ fs) = ps ++ segments cur fs.
Proof.
  revert c ps. induction es as [|[t|] es IH]; intros c ps; cbn.
  - intros E. assert (E' : [] ++ [c] = ps ++ [cur]) by exact E. apply app_inj_tail in E' as [<- ->]. done.
  - apply IH.
  - destruct ps as [|p ps].
    + intros [= _ E]. by apply segments_ne in E.
    + intros [= -> E]. cbn. by rewrite (IH [] ps).
Qed.

(** ** The held back end *)

Lemma partialFrom_le k s : (partialFrom k s <= k)%nat.
Proof. induction k as [|k IH]; cbn [partialFrom]; [done|]. destruct (startsWith _ _); lia. Qed.

Lemma partialFrom_max k s j : (partialFrom k s < j)%nat -> (j <= k)%nat ->
  startsWith (drop (length s - j) s) kSyncMark = false.
Proof.
  induction k as [|k IH]; cbn [partialFrom]; [lia|].
  destruct (startsWith (drop (length s - S k) s) kSyncMark) eqn:E; [lia|]. intros Hj Hk.
  destruct (decide (j = S k)) as [->|]; [done|]. apply IH; lia.
Qed.

Lemma completeFrom_le turns back s : (completeFrom turns back s <= length s)%nat.
Proof.
  revert back. induction turns as [|turns IH]; intros back; cbn [completeFrom]; [done|].
  destruct (Nat.leb_spec back (length s)); [|done]. destruct (Z.eqb _ 0x80); [apply IH|].
  destruct (Nat.ltb _ _); lia.
Qed.

Lemma completeFrom_ge turns back s : (length s - completeFrom turns back s <= back + turns - 1)%nat.
Proof.
  revert back. induction turns as [|turns IH]; intros back; cbn [completeFrom]; [lia|].
  destruct (Nat.leb_spec back (length s)); [|lia]. destruct (Z.eqb _ 0x80); [specialize (IH (S back)); lia|].
  destruct (Nat.ltb _ _); lia.
Qed.

(** No mark starts in the bytes a pump lets go of. *)
Lemma released_no_mark s j t : ~ occurs kSyncMark s -> (j < length s - partialMarkAtEnd s)%nat ->
  startsWith kSyncMark (drop j s ++ t) = false.
Proof.
  intros Hno Hj. destruct (startsWith kSyncMark (drop j s ++ t)) eqn:E; [|done]. exfalso.
  unfold partialMarkAtEnd in Hj. destruct (Nat.le_gt_cases (length kSyncMark) (length s - j)) as [Hl|Hl].
  - rewrite startsWith_fewer in E by (rewrite length_drop; lia). apply startsWith_spec in E as [b Hb].
    apply Hno. exists (take j s), b. by rewrite <- Hb, take_drop.
  - pose proof (partialFrom_max (Nat.min (length s) (length kSyncMark - 1)) s (length s - j) ltac:(lia) ltac:(lia)) as Hm.
    replace (length s - (length s - j))%nat with j in Hm by lia.
    apply startsWith_spec in E as [b Hb]. rewrite (proj2 (startsWith_spec _ _)) in Hm; [done|].
    apply app_eq_app in Hb as (l & [[E1 _]|[E1 _]]); [|by exists l].
    pose proof (f_equal (@length _) E1) as Hlen. rewrite length_app, length_drop in Hlen.
    exists []. destruct l; [|cbn [length] in Hlen; lia]. by rewrite E1, !app_nil_r.
Qed.

(** ** What was forwarded and what is held back make what was read *)

(** A piece before a mark: the mark after it is the first. *)
Definition clean (p : bytes) : Prop := ~ occurs kSyncMark p /\ find kSyncMark (p ++ kSyncMark) = Some (length p).

(** After [es], with [pending] held back, of a stream that began with [total]: [cur] went to
    the sink since the last mark, and no mark starts in it whatever follows. *)
Definition forwarding (total : bytes) (es : list forwarded) (pending : bytes) : Prop :=
  exists ps cur, segments [] es = ps ++ [cur] /\ Forall clean ps /\
    total = concat (map (fun p => p ++ kSyncMark) ps) ++ cur ++ pending /\
    forall t j, (j < length cur)%nat -> startsWith kSyncMark (drop j (cur ++ pending ++ t)) = false.

Lemma cleans_cut ps s : Forall clean ps -> ~ occurs kSyncMark s ->
  cutAt kSyncMark (concat (map (fun p => p ++ kSyncMark) ps) ++ s) (ps ++ [s]).
Proof.
  intros Hps Hs. induction Hps as [|p ps [Hp Hf] Hps IH]; cbn [map concat app]; [by constructor|].
  rewrite <- !app_assoc. by constructor.
Qed.

Lemma forwarding_more total es pending chunk : forwarding total es pending -> forwarding (total ++ chunk) es (pending ++ chunk).
Proof.
  intros (ps & cur & Es & Hps & -> & Hn). exists ps, cur. split; [done|]. split; [done|].
  split; [by rewrite <- !app_assoc|]. intros t j Hj. rewrite <- app_assoc. by apply Hn.
Qed.

Lemma forwarding_sunk total es pending k : forwarding total es pending -> ~ occurs kSyncMark pending ->
  (k <= length pending - partialMarkAtEnd pending)%nat ->
  forwarding total (es ++ [Sunk (take k pending)]) (drop k pending).
Proof.
  intros (ps & cur & Es & Hps & -> & Hn) Hno Hk. exists ps, (cur ++ take k pending).
  rewrite (segments_app _ _ _ _ _ Es). split; [done|]. split; [done|].
  split; [by rewrite <- app_assoc, take_drop|]. intros t j Hj.
  rewrite <- app_assoc, (app_assoc (take k pending)), take_drop.
  destruct (Nat.lt_ge_cases j (length cur)) as [Hc|Hc]; [by apply Hn|].
  rewrite drop_app_ge by done. rewrite length_app, length_take in Hj.
  rewrite drop_app_le by lia. apply released_no_mark; [done|lia].
Qed.

Lemma forwarding_mark total es pending k : forwarding total es pending -> find kSyncMark pending = Some k ->
  forwarding total (es ++ (if (0 <? k)%nat then [Sunk (take k pending)] else []) ++ [SyncSeen]) (drop (k + length kSyncMark) pending).
Proof.
  intros (ps & cur & Es & Hps & -> & Hn) Hf.
  exists (ps ++ [cur ++ take k pending]), [].
  split. { rewrite (segments_app _ _ _ _ _ Es). rewrite <- app_assoc. f_equal. destruct k; cbn; by rewrite ?app_nil_r. }
  assert (Hm : kSyncMark <> []) by done.
  destruct (find_before _ _ _ Hm Hf) as [Hb Hfirst].
  pose proof Hf as Hf'. apply find_Some in Hf' as ([b Eb] & Hk & Hnone).
  split.
  { apply Forall_app. split; [done|]. constructor; [|done].
    assert (Hfind : find kSyncMark ((cur ++ take k pending) ++ kSyncMark) = Some (length (cur ++ take k pending))).
    { apply find_Some. rewrite take_app_length. split; [exists []; by rewrite app_nil_r|].
      split; [rewrite (length_app _ kSyncMark); lia|]. intros j Hj. rewrite length_app in Hj.
      destruct (Nat.lt_ge_cases j (length cur)) as [Hc|Hc].
      - specialize (Hn [] j Hc). rewrite app_nil_r, Eb, !app_assoc, drop_app_le in Hn by (rewrite !length_app; lia).
        destruct (startsWith kSyncMark (drop j ((cur ++ take k pending) ++ kSyncMark))) eqn:E; [|done].
        by rewrite startsWith_more in Hn.
      - rewrite <- app_assoc, drop_app_ge by done.
        apply find_Some in Hfirst as (_ & _ & Hfirst). apply Hfirst. lia. }
    split; [|done].
    intros Ho. pose proof Ho as (x & y & Exy). apply find_Some in Hfind as (_ & _ & Hfind).
    assert (Hlen := f_equal (@length _) Exy). rewrite !length_app in Hlen.
    specialize (Hfind (length x)). rewrite Exy in Hfind at 2. rewrite <- !app_assoc, drop_app_length, startsWith_app in Hfind.
    enough (true = false) by done. apply Hfind. rewrite length_app. cbn [length kSyncMark] in Hlen. unfold kSyncMark in Hlen. cbn [length app] in Hlen. lia. }
  split.
  { rewrite map_app, concat_app. cbn [map concat]. rewrite app_nil_r, <- !app_assoc. cbn [app]. do 2 f_equal.
    rewrite Eb at 1. by rewrite (take_drop_found _ _ _ _ Eb Hk). }
  intros t j Hj. cbn in Hj. lia.
Qed.

Lemma takeMarks_forwarding turns total es pending es' pending' : forwarding total es pending -> (length pending < turns)%nat ->
  takeMarks turns pending = (es', pending') ->
  forwarding total (es ++ es') pending' /\ ~ occurs kSyncMark pending' /\ (length pending' <= length pending)%nat.
Proof.
  revert es es' pending. induction turns as [|turns IH]; intros es es' pending Hi Ht; [lia|]. cbn [takeMarks].
  destruct (find kSyncMark pending) as [k|] eqn:Ef.
  - pose proof (find_fits _ _ _ Ef) as Hfit. pose proof (forwarding_mark _ _ _ _ Hi Ef) as Hi'.
    assert (Hl : (0 < length kSyncMark)%nat) by (cbn; lia).
    destruct (takeMarks turns _) as [more kept] eqn:Em. intros [= <- <-].
    eapply IH in Hi' as (Hi' & Hno & Hle); [|rewrite length_drop; lia|exact Em].
    split; [|split; [done|rewrite length_drop in Hle; lia]].
    by rewrite <- !app_assoc in Hi'.
  - intros [= <- <-]. rewrite app_nil_r. split; [done|]. split; [by apply find_None|done].
Qed.

Definition held : nat := length kSyncMark + 2.

Lemma partial_le s : (partialMarkAtEnd s <= length kSyncMark - 1)%nat.
Proof. unfold partialMarkAtEnd. pose proof (partialFrom_le (Nat.min (length s) (length kSyncMark - 1)) s). lia. Qed.

Lemma complete_le s : (completeUtf8Prefix s <= length s)%nat.
Proof. apply completeFrom_le. Qed.

Lemma pumpRead_forwarding total es pending chunk es' pending' : forwarding total es pending ->
  pumpRead pending chunk = (es', pending') ->
  forwarding (total ++ chunk) (es ++ es') pending' /\ ~ occurs kSyncMark pending' /\ (length pending' <= held)%nat.
Proof.
  intros Hi. apply (forwarding_more _ _ _ chunk) in Hi. unfold pumpRead.
  destruct (takeMarks _ _) as [ms p] eqn:Em.
  eapply takeMarks_forwarding in Em as (Hi' & Hno & _); [|done|lia].
  set (cut := completeUtf8Prefix _).
  assert (Hcut : (cut <= length p - partialMarkAtEnd p)%nat).
  { unfold cut. etransitivity; [apply complete_le|]. rewrite length_take. lia. }
  assert (Hheld : (length (drop cut p) <= held)%nat).
  { pose proof (completeFrom_ge 3 1 (take (length p - partialMarkAtEnd p) p)) as Hg. fold (completeUtf8Prefix (take (length p - partialMarkAtEnd p) p)) in Hg. fold cut in Hg.
    rewrite length_take in Hg. pose proof (partial_le p). assert (0 < length kSyncMark)%nat by (cbn; lia).
    rewrite length_drop. unfold held. lia. }
  destruct (Nat.eqb_spec cut 0) as [E0|E0]; intros [= <- <-].
  - rewrite E0, drop_0 in Hheld. done.
  - split; [|split; [|done]].
    + rewrite app_assoc. by apply forwarding_sunk.
    + intros (x & y & Exy). apply Hno. exists (take cut p ++ x), y. by rewrite <- app_assoc, <- Exy, take_drop.
Qed.

Lemma pumpReads_forwarding chunks total es pending es' pending' : forwarding total es pending -> ~ occurs kSyncMark pending ->
  (length pending <= held)%nat -> pumpReads pending chunks = (es', pending') ->
  forwarding (total ++ concat chunks) (es ++ es') pending' /\ ~ occurs kSyncMark pending' /\ (length pending' <= held)%nat.
Proof.
  revert total es pending es'. induction chunks as [|c chunks IH]; intros total es pending es' Hi Hno Hh; cbn [pumpReads concat].
  - intros [= <- <-]. by rewrite !app_nil_r.
  - destruct (pumpRead pending c) as [now p] eqn:Er. destruct (pumpReads p chunks) as [later p'] eqn:Es. intros [= <- <-].
    eapply pumpRead_forwarding in Er as (Hi' & Hno' & Hh'); [|done].
    rewrite !app_assoc. by eapply IH.
Qed.

Lemma forwarding_start : forwarding [] [] [].
Proof. exists [], []. repeat split; [done|]. intros t j Hj. cbn in Hj. lia. Qed.

Lemma mark_not_empty : ~ occurs kSyncMark [].
Proof. intros (x & y & E). by destruct x. Qed.

(** At the end of the file the pieces between the marks of the whole stream were sunk. *)
Lemma forwarding_end total es pending : forwarding total es pending -> ~ occurs kSyncMark pending ->
  cutAt kSyncMark total (segments [] (es ++ match pending with [] => [] | _ => [Sunk pending] end)).
Proof.
  intros (ps & cur & Es & Hps & -> & Hn) Hno. rewrite (segments_app _ _ _ _ _ Es).
  replace (segments cur _) with [cur ++ pending] by (destruct pending; cbn; by rewrite ?app_nil_r).
  apply cleans_cut; [done|]. intros (x & y & Exy).
  assert (Hj := Hn [] (length x)). rewrite app_nil_r, Exy, drop_app_length, startsWith_app in Hj.
  destruct (Nat.lt_ge_cases (length x) (length cur)) as [Hx|Hx]; [by specialize (Hj Hx)|].
  apply Hno. apply app_eq_app in Exy as (l & [[Ec E]|[Ec E]]); rewrite Ec in Hx.
  - destruct l; [|rewrite length_app in Hx; cbn [length] in Hx; lia]. exists [], y. exact (eq_sym E).
  - exists l, y. done.
Qed.

(** ** Characters are not cut *)

Definition whole (s : bytes) : Prop := exists cps, Forall scalar cps /\ s = utf8 cps.

Lemma whole_app a b : whole a -> whole b -> whole (a ++ b).
Proof.
  intros (xs & Hx & ->) (ys & Hy & ->). exists (xs ++ ys). split; [by apply Forall_app|]. unfold utf8. by rewrite flat_map_app.
Qed.

Lemma whole_cut a t : whole (a ++ t) -> match t with c :: _ => continues c = false | [] => True end -> whole a /\ whole t.
Proof.
  intros (cps & Hs & E) Ht. destruct (utf8_cut cps a t Hs (eq_sym E) Ht) as (xs & ys & -> & -> & ->).
  apply Forall_app in Hs as [Hx Hy]. split; [by exists xs|by exists ys].
Qed.

(** An ASCII byte is a character. *)
Lemma whole_ascii c t : whole (c :: t) -> u8 c < 128 -> whole t.
Proof.
  intros (cps & Hs & E) Hc. destruct Hs as [|cp cps Hcp Hs]; [done|]. cbn in E.
  assert (Hd : cp < 0x80).
  { destruct (Z.lt_ge_cases cp 0x80) as [|Hge]; [done|exfalso]. destruct Hcp as [Hcp _].
    destruct (Z.lt_ge_cases cp 0x800); [|destruct (Z.lt_ge_cases cp 0x10000)];
      [rewrite encode2 in E by lia|rewrite encode3 in E by lia|rewrite encode4 in E by lia];
      injection E as -> _; rewrite u8_chr_small in Hc by lia; lia. }
  destruct Hcp as [Hcp _]. rewrite encode1 in E by lia. injection E as -> ->. by exists cps.
Qed.

Lemma whole_ascii_app s t : forallb (fun c => u8 c <? 128) s = true -> whole (s ++ t) -> whole t.
Proof.
  induction s as [|c s IH]; cbn; [done|]. intros [Hc Hs]%andb_prop Hw. apply IH; [done|].
  apply (whole_ascii c); [done|]. by apply Z.ltb_lt.
Qed.

(** The lengths of the encodings, by their lead bytes. *)
Lemma encode_lead cp : scalar cp -> exists c cs, encodeUtf8 cp = c :: cs /\ forallb continues cs = true /\ continues c = false /\
  (if Z.land (u8 c) 0xE0 =? 0xC0 then 2%nat else if Z.land (u8 c) 0xF0 =? 0xE0 then 3%nat
   else if Z.land (u8 c) 0xF8 =? 0xF0 then 4%nat else 1%nat) = S (length cs) /\ (length cs <= 3)%nat.
Proof.
  intros Hcp. destruct (encode_shape cp Hcp) as (c & cs & E & Hc & Hcs). exists c, cs. do 3 (split; [done|]).
  destruct Hcp as [Hcp _]. rewrite land_lead2, land_lead3, land_lead4.
  destruct (Z.lt_ge_cases cp 0x80); [|destruct (Z.lt_ge_cases cp 0x800); [|destruct (Z.lt_ge_cases cp 0x10000)]];
    [rewrite encode1 in E by lia|rewrite encode2 in E by lia|rewrite encode3 in E by lia|rewrite encode4 in E by lia];
    injection E as <- <-; rewrite u8_chr_small by lia; cbn [length]; z_cases; (split; [done|lia]) || lia.
Qed.

Lemma char_at_back s c t : char_at (s ++ c :: t) (length (s ++ c :: t) - S (length t)) = c.
Proof. rewrite length_app. cbn [length]. replace (_ - _)%nat with (length s + 0)%nat by lia. by rewrite char_at_app_r. Qed.

(** The loop goes back over continuation bytes to a lead byte. *)
Lemma completeFrom_back turns s c cs post : forallb continues cs = true -> continues c = false ->
  forallb continues post = true -> (length cs < turns)%nat ->
  completeFrom turns (S (length post)) (s ++ c :: cs ++ post) =
  let len := if Z.land (u8 c) 0xE0 =? 0xC0 then 2%nat else if Z.land (u8 c) 0xF0 =? 0xE0 then 3%nat
             else if Z.land (u8 c) 0xF8 =? 0xF0 then 4%nat else 1%nat in
  if (S (length (cs ++ post)) <? len)%nat then length s else length (s ++ c :: cs ++ post).
Proof.
  intros Hcs Hc. revert post turns. induction cs as [|d cs IH] using rev_ind; intros post turns Hpost Ht.
  - cbn [app]. destruct turns as [|turns]; [cbn in Ht; lia|]. cbn [completeFrom].
    rewrite (proj2 (Nat.leb_le _ _)) by (rewrite length_app; cbn; lia). rewrite char_at_back, land_cont.
    unfold continues in Hc. rewrite Hc. cbv zeta. replace (length (s ++ c :: post) - S (length post))%nat with (length s); [done|].
    rewrite length_app. cbn. lia.
  - rewrite forallb_app in Hcs. apply andb_prop in Hcs as [Hcs Hd]. cbn in Hd. rewrite andb_true_r in Hd.
    rewrite length_app in Ht. cbn in Ht. destruct turns as [|turns]; [lia|]. cbn [completeFrom].
    rewrite <- app_assoc. cbn [app]. rewrite (proj2 (Nat.leb_le _ _)) by (rewrite !length_app; cbn; rewrite length_app; cbn; lia).
    replace (s ++ c :: cs ++ d :: post) with ((s ++ c :: cs) ++ d :: post) at 1 2 by (by rewrite <- app_assoc).
    rewrite char_at_back, land_cont. unfold continues in Hd. rewrite Hd.
    apply (IH Hcs (d :: post) turns); [|lia]. cbn. unfold continues at 1. by rewrite Hd.
Qed.

(** The complete prefix of the beginning of a text of whole characters. *)
Lemma complete_whole s t : whole (s ++ t) -> whole (take (completeUtf8Prefix s) s) /\ whole (drop (completeUtf8Prefix s) s ++ t).
Proof.
  intros Hw. assert (Hgoal : whole (take (completeUtf8Prefix s) s) -> True) by done. clear Hgoal.
  destruct (decide (s = [])) as [->|Hs]; [by split; [exists []|]|].
  destruct Hw as (cps & Hcps & E).
  (* the character the last byte belongs to *)
  assert (Hlast : exists xs cp ys a b, cps = xs ++ cp :: ys /\ s = utf8 xs ++ a /\ encodeUtf8 cp = a ++ b /\ a <> [] /\ t = b ++ utf8 ys).
  { revert s Hs E. induction Hcps as [|cp cps Hcp Hcps IH]; intros s Hs E; [by destruct s|].
    cbn in E. apply app_eq_app in E as (l & [[Es Et]|[Ec Et]]).
    - destruct l as [|x l].
      + exists [], cp, cps, (encodeUtf8 cp), []. rewrite app_nil_r in *. repeat split; [done| |done].
        destruct (encode_shape cp Hcp) as (? & ? & -> & _). done.
      + destruct (IH (x :: l) ltac:(done) (eq_sym Et)) as (xs & cp' & ys & a & b & -> & Ex & Ea & Ha & ->).
        exists (cp :: xs), cp', ys, a, b. repeat split; try done. rewrite Es, Ex. cbn. by rewrite app_assoc.
    - exists [], cp, cps, s, l. done. }
  destruct Hlast as (xs & cp & ys & a & b & -> & -> & Ecp & Ha & ->).
  apply Forall_app in Hcps as [Hxs Hcps]. inversion Hcps as [|? ? Hcp Hys]; subst.
  destruct (encode_lead cp Hcp) as (c & cs & Ec & Hcs & Hc & Hlen & Hle). rewrite Ec in Ecp.
  destruct a as [|a0 a]; [done|]. injection Ecp as <- ->. rewrite forallb_app in Hcs. apply andb_prop in Hcs as [Hca Hcb].
  rewrite length_app in Hlen, Hle.
  assert (Hcut : completeUtf8Prefix (utf8 xs ++ c :: a) = if (S (length a) <? S (length a + length b))%nat then length (utf8 xs) else length (utf8 xs ++ c :: a)).
  { unfold completeUtf8Prefix. destruct (decide (length a < 3)%nat) as [H3|H3].
    - pose proof (completeFrom_back 3 (utf8 xs) c a [] Hca Hc eq_refl H3) as Hb. rewrite !app_nil_r in Hb. cbn [length] in Hb. rewrite Hb. cbv zeta. by rewrite Hlen.
    - assert (length b = 0%nat) as -> by lia. rewrite Nat.add_0_r, (proj2 (Nat.ltb_ge _ _)) by lia.
      destruct a as [|d1 [|d2 [|d3 [|]]]]; cbn [length] in *; try lia. cbn in Hca.
      apply andb_prop in Hca as [H1 Hca]. apply andb_prop in Hca as [H2 Hca]. apply andb_prop in Hca as [H4 _].
      unfold continues in *. cbn [completeFrom].
      rewrite !(proj2 (Nat.leb_le _ _)) by (rewrite length_app; cbn; lia).
      replace (utf8 xs ++ [c; d1; d2; d3]) with ((utf8 xs ++ [c; d1; d2]) ++ [d3]) at 1 2 by (by rewrite <- app_assoc).
      rewrite (char_at_back _ d3 []), land_cont, H4.
      replace (utf8 xs ++ [c; d1; d2; d3]) with ((utf8 xs ++ [c; d1]) ++ [d2; d3]) at 1 2 by (by rewrite <- app_assoc).
      rewrite (char_at_back _ d2 [d3]), land_cont, H2.
      replace (utf8 xs ++ [c; d1; d2; d3]) with ((utf8 xs ++ [c]) ++ [d1; d2; d3]) at 1 2 by (by rewrite <- app_assoc).
      by rewrite (char_at_back _ d1 [d2; d3]), land_cont, H1. }
  rewrite Hcut. destruct (Nat.ltb_spec (S (length a)) (S (length a + length b))) as [Hb|Hb].
  - rewrite take_app_length, drop_app_length. split; [by exists xs|]. exists (cp :: ys). split; [by constructor|].
    cbn. rewrite Ec. cbn. by rewrite <- app_assoc.
  - rewrite take_ge, drop_ge by done. assert (b = []) as -> by (destruct b; [done|cbn in Hb; lia]). rewrite app_nil_r in Ec.
    split; [|by exists ys]. exists (xs ++ [cp]). split; [by apply Forall_app; split; [|constructor]|].
    unfold utf8. rewrite flat_map_app. cbn. by rewrite Ec, app_nil_r.
Qed.

Lemma whole_mark t : whole (kSyncMark ++ t) -> whole t.
Proof. by apply whole_ascii_app. Qed.

Lemma takeMarks_whole turns pending t es pending' : whole (pending ++ t) -> takeMarks turns pending = (es, pending') ->
  Forall whole (sunkTexts es) /\ whole (pending' ++ t).
Proof.
  revert pending es. induction turns as [|turns IH]; intros pending es Hw; cbn [takeMarks].
  - by intros [= <- <-].
  - destruct (find kSyncMark pending) as [k|] eqn:Ef; [|by intros [= <- <-]].
    apply find_Some in Ef as ([b Eb] & Hk & _). rewrite (take_drop_found _ _ _ _ Eb Hk).
    rewrite Eb, <- app_assoc in Hw. apply whole_cut in Hw as [Hp Hm]; [|done].
    rewrite <- app_assoc in Hm. apply whole_mark in Hm.
    destruct (takeMarks turns b) as [more kept] eqn:Em. intros [= <- <-].
    destruct (IH _ _ Hm Em) as [Hmore Hrest]. split; [|done].
    rewrite sunkTexts_app. apply Forall_app. split; [|done].
    destruct k; [done|]. by constructor.
Qed.

Lemma pumpRead_whole pending chunk t es pending' : whole (pending ++ chunk ++ t) -> pumpRead pending chunk = (es, pending') ->
  Forall whole (sunkTexts es) /\ whole (pending' ++ t).
Proof.
  rewrite app_assoc. intros Hw. unfold pumpRead. destruct (takeMarks _ _) as [ms p] eqn:Em.
  destruct (takeMarks_whole _ _ _ _ _ Hw Em) as [Hms Hp].
  set (r := take _ p). set (ready := (length p - partialMarkAtEnd p)%nat) in *.
  rewrite <- (take_drop ready p), <- app_assoc in Hp. apply complete_whole in Hp as [Hc Hd]. fold r in Hc, Hd.
  destruct (Nat.eqb_spec (completeUtf8Prefix r) 0) as [E|E]; intros [= <- <-].
  - rewrite E, drop_0 in Hd. split; [done|]. unfold r in Hd. by rewrite app_assoc, take_drop in Hd.
  - assert (Hle := complete_le r). unfold r in Hle at 2. rewrite length_take in Hle.
    split.
    + rewrite sunkTexts_app. apply Forall_app. split; [done|]. constructor; [|done].
      unfold r in Hc at 2. by rewrite take_take, Nat.min_l in Hc by lia.
    + rewrite app_assoc in Hd. unfold r in Hd at 2. replace (drop (completeUtf8Prefix r) p) with (drop (completeUtf8Prefix r) (take ready p) ++ drop ready p); [done|].
      by rewrite <- drop_app_le, take_drop by (rewrite length_take; lia).
Qed.

Lemma pumpReads_whole chunks pending t es pending' : whole (pending ++ concat chunks ++ t) -> pumpReads pending chunks = (es, pending') ->
  Forall whole (sunkTexts es) /\ whole (pending' ++ t).
Proof.
  revert pending es. induction chunks as [|c chunks IH]; intros pending es Hw; cbn [pumpReads concat app].
  - by intros [= <- <-].
  - cbn [concat] in Hw. rewrite <- app_assoc in Hw.
    destruct (pumpRead pending c) as [now p] eqn:Er. destruct (pumpReads p chunks) as [later p'] eqn:Es. intros [= <- <-].
    destruct (pumpRead_whole _ _ _ _ _ Hw Er) as [Hn Hp]. destruct (IH _ _ Hp Es) as [Hl Hp'].
    split; [|done]. rewrite sunkTexts_app. by apply Forall_app.
Qed.

(** No empty text goes to the sink. *)
Lemma takeMarks_texts turns pending es pending' : takeMarks turns pending = (es, pending') -> Forall (fun t => t <> []) (sunkTexts es).
Proof.
  revert pending es. induction turns as [|turns IH]; intros pending es; cbn [takeMarks]; [by intros [= <- <-]|].
  destruct (find kSyncMark pending) as [k|] eqn:Ef; [|by intros [= <- <-]].
  destruct (takeMarks turns _) as [more kept] eqn:Em. intros [= <- <-]. apply IH in Em.
  rewrite sunkTexts_app. apply Forall_app. split; [|done].
  apply find_Some in Ef as (_ & Hk & _). destruct k; [done|]. constructor; [|done].
  destruct pending; [cbn in Hk; lia|done].
Qed.

Lemma pumpReads_texts chunks pending es pending' : pumpReads pending chunks = (es, pending') -> Forall (fun t => t <> []) (sunkTexts es).
Proof.
  revert pending es. induction chunks as [|c chunks IH]; intros pending es; cbn [pumpReads]; [by intros [= <- <-]|].
  destruct (pumpRead pending c) as [now p] eqn:Er. destruct (pumpReads p chunks) as [later p'] eqn:Es. intros [= <- <-].
  rewrite sunkTexts_app. apply Forall_app. split; [|by eapply IH].
  unfold pumpRead in Er. destruct (takeMarks _ _) as [ms q] eqn:Em. apply takeMarks_texts in Em.
  set (r := take _ q) in Er. pose proof (complete_le r) as Hle. unfold r in Hle at 2. rewrite length_take in Hle.
  destruct (Nat.eqb_spec (completeUtf8Prefix r) 0); injection Er as <- <-; [done|].
  rewrite sunkTexts_app. apply Forall_app. split; [done|]. constructor; [|done].
  intros E%(f_equal (@length _)). rewrite length_take in E. cbn [length] in E. lia.
Qed.

(** C26. However the reads of the pipe cut what the program printed and the marks of the
    stops in it, the pump sends the same: between two marks exactly the text between them,
    in order, no mark in it; each mark is counted as soon as its last byte was read, after
    all that precedes it was sent; never more than 23 bytes wait for the next read; no empty
    text is sent; and of a stream of whole characters each text sent is made of whole
    characters, as the JSON of an output event needs. *)
Theorem pump_forwards chunks : let '(es, pending) := pumpReads [] chunks in
  cutAt kSyncMark (concat chunks) (segments [] (pump chunks)) /\
  Forall (fun p => ~ occurs kSyncMark p) (segments [] (pump chunks)) /\
  marksSeen es = marksSeen (pump chunks) /\ (length pending <= 23)%nat /\
  Forall (fun t => t <> []) (sunkTexts (pump chunks)) /\
  (whole (concat chunks) -> Forall whole (sunkTexts (pump chunks))).
Proof.
  unfold pump. destruct (pumpReads [] chunks) as [es pending] eqn:E.
  pose proof E as Ef. eapply pumpReads_forwarding in Ef as (Hi & Hno & Hheld); [|apply forwarding_start|apply mark_not_empty|cbn; lia].
  cbn [app] in Hi. pose proof (forwarding_end _ _ _ Hi Hno) as Hcut. split; [done|]. split; [by eapply cutAt_free|].
  split. { rewrite marksSeen_app. by destruct pending; cbn. }
  split; [exact Hheld|]. split.
  - rewrite sunkTexts_app. apply Forall_app. split; [by eapply pumpReads_texts|]. destruct pending; [done|]. by constructor.
  - intros Hw. rewrite <- (app_nil_r (concat chunks)) in Hw. eapply (pumpReads_whole _ [] []) in Hw as [Hs Hp]; [|done].
    rewrite app_nil_r in Hp. rewrite sunkTexts_app. apply Forall_app. split; [done|]. destruct pending; [done|]. by constructor.
Qed.

(** ** Messages *)

Definition noNewline (l : bytes) : bool := forallb (fun c => negb (c =? x0a)%byte) l.

Lemma headerLine_run acc l r : noNewline l = true -> headerLine acc (l ++ r) = headerLine (rev l ++ acc) r.
Proof.
  revert acc. induction l as [|c l IH]; intros acc; cbn; [done|]. intros [Hc Hl]%andb_prop.
  destruct (byte_eqb_spec c x0a); [done|]. rewrite IH by done. by rewrite <- app_assoc.
Qed.

Lemma readHeaderLine_crlf l r : noNewline l = true -> readHeaderLine (l ++ crlf ++ r) = Some (l, r).
Proof.
  intros Hl. unfold readHeaderLine. rewrite headerLine_run by done. rewrite app_nil_r. cbn. by rewrite rev_involutive.
Qed.

(** A block cut before its blank line is no header block. *)
Lemma readHeaderLine_cut l : noNewline l = true -> readHeaderLine l = match l with [] => None | _ => Some (l, []) end.
Proof.
  intros Hl. unfold readHeaderLine. rewrite <- (app_nil_r l) at 1. rewrite headerLine_run by done. rewrite app_nil_r. cbn.
  destruct l as [|c l]; [done|]. cbn. destruct (rev l ++ [c]) eqn:E; [by apply app_eq_nil in E as [_ ?]|].
  rewrite <- E, rev_app_distr, rev_involutive. done.
Qed.

Section Transport.
Context `{JsonText}.

Lemma headers_nil turns n : headers turns n [] = None.
Proof. by destruct turns. Qed.

Lemma headers_cut turns n l : noNewline l = true -> headers turns n l = None.
Proof.
  intros Hl. destruct turns as [|turns]; [done|]. cbn [headers]. rewrite readHeaderLine_cut by done.
  destruct l; [done|]. destruct (find _ _); [|apply headers_nil]. destruct (iequals _ _); [|apply headers_nil].
  destruct (stoll _); [apply headers_nil|done].
Qed.

Lemma dropSpace_digits s : (forall c, In c s -> isspace c = false) -> dropSpace s = s.
Proof. destruct s as [|c s]; cbn; [done|]. intros Hc. by rewrite Hc by (by left). Qed.

Lemma digit_not_space c : is_digit c = true -> isspace c = false.
Proof. assert (Hb : negb (is_digit c) || negb (isspace c) = true) by (by_bytes c). intros Hd. rewrite Hd in Hb. by destruct (isspace c). Qed.

Lemma digit_not_sign c : is_digit c = true -> (c =? "-")%byte = false /\ (c =? "+")%byte = false.
Proof.
  assert (Hb : negb (is_digit c) || (negb (c =? "-")%byte && negb (c =? "+")%byte) = true) by (by_bytes c).
  intros Hd. rewrite Hd in Hb. by destruct (c =? "-")%byte, (c =? "+")%byte.
Qed.

Lemma leadingDigits_all ds : Forall (fun c => is_digit c = true) ds -> leadingDigits ds = ds.
Proof. induction 1 as [|c ds Hc Hds IH]; cbn; [done|]. by rewrite Hc, IH. Qed.

(** The length a message announces is read back. *)
Lemma length_read n : 0 <= n <= llong_max -> stoll (trim (" "%byte :: to_string n)) = Some n.
Proof.
  intros Hn. unfold to_string. destruct (Z.ltb_spec n 0); [lia|].
  pose proof (dec_digits_digits n ltac:(lia)) as Hd. pose proof (dec_digits_value n ltac:(lia)) as Hv.
  destruct (dec_digits_cons n) as (c & ds & E).
  assert (Hs : forall c, In c (dec_digits n) -> isspace c = false).
  { intros x Hx. rewrite List.Forall_forall in Hd. by apply digit_not_space, Hd. }
  assert (Ht : trim (" "%byte :: dec_digits n) = dec_digits n).
  { unfold trim. cbn [dropSpace isspace orb]. change (isspace " ") with true. cbn iota.
    rewrite (dropSpace_digits (dec_digits n)), dropSpace_digits by (intros x Hx; apply Hs; first [exact Hx|by apply in_rev]).
    apply rev_involutive. }
  rewrite Ht. unfold stoll. rewrite dropSpace_digits by done. rewrite E in *. pose proof (Forall_inv Hd) as Hc1. cbn beta in Hc1.
  assert (Hc : (c =? "-")%byte = false /\ (c =? "+")%byte = false).
  { by apply digit_not_sign. }
  destruct Hc as [-> ->]. rewrite leadingDigits_all by done. rewrite Hv. unfold fits_llong, llong_min in *.
  destruct (Z.leb_spec (-2 ^ 63) n), (Z.leb_spec n llong_max); done || lia.
Qed.

Definition lengthLine (msg : json) : bytes := s2b "Content-Length: " ++ to_string (Z.of_nat (length (dump msg))).

Lemma noNewline_app a b : noNewline (a ++ b) = noNewline a && noNewline b.
Proof. apply forallb_app. Qed.

Lemma lengthLine_noNewline msg : noNewline (lengthLine msg) = true.
Proof.
  unfold lengthLine. rewrite noNewline_app. apply andb_true_intro. split; [done|].
  unfold to_string. destruct (Z.ltb_spec (Z.of_nat (length (dump msg))) 0); [lia|].
  pose proof (dec_digits_digits (Z.of_nat (length (dump msg))) ltac:(lia)) as Hd.
  induction Hd as [|c ds Hc Hds IH]; [done|]. cbn. fold (noNewline ds). rewrite IH, andb_true_r.
  destruct (byte_eqb_spec c x0a) as [->|]; done.
Qed.

(** A message that comes back: it is dumped as UTF-8 that parses to it, of a length
    [std::string] holds. *)
Definition sendable (msg : json) : Prop :=
  parse (dump msg) = Some msg /\ allocates (Z.of_nat (length (dump msg))) = true /\ Z.of_nat (length (dump msg)) <= llong_max.

Lemma writeMessage_lines msg : writeMessage msg = lengthLine msg ++ crlf ++ crlf ++ dump msg.
Proof. unfold writeMessage, lengthLine. by rewrite <- app_assoc. Qed.

Lemma headers_message turns n msg r : Z.of_nat (length (dump msg)) <= llong_max -> (1 < turns)%nat ->
  headers turns n (lengthLine msg ++ crlf ++ crlf ++ r) = Some (Z.of_nat (length (dump msg)), r).
Proof.
  intros Hm Ht. destruct turns as [|[|turns]]; [lia|lia|]. cbn [headers].
  rewrite readHeaderLine_crlf by apply lengthLine_noNewline.
  assert (E : exists c l, lengthLine msg = c :: l) by (by eexists _, _). destruct E as (c & l & E). rewrite E at 1. cbv iota. rewrite <- ?E.
  assert (Hc : find [":"%byte] (lengthLine msg) = Some 14%nat).
  { unfold lengthLine. change (s2b "Content-Length: ") with (s2b "Content-Length" ++ [":"%byte; " "%byte]).
    rewrite <- app_assoc. cbn [app]. by rewrite find_byte. }
  rewrite Hc. change (trim (take 14 (lengthLine msg))) with (s2b "Content-Length"). cbn [iequals]. change (iequals (s2b "Content-Length") (s2b "Content-Length")) with true. cbv iota.
  change (drop 15 (lengthLine msg)) with (" "%byte :: to_string (Z.of_nat (length (dump msg)))). rewrite length_read by lia. done.
Qed.

Lemma readMessage_written msg r : sendable msg -> readMessage (writeMessage msg ++ r) = Read msg r.
Proof.
  intros (Hp & Ha & Hm). rewrite writeMessage_lines, <- !app_assoc. unfold readMessage.
  rewrite headers_message; [|done|rewrite !length_app; cbn; lia].
  destruct (Z.ltb_spec (Z.of_nat (length (dump msg))) 0); [lia|]. rewrite Ha. cbn [negb].
  rewrite Z.min_l, Nat2Z.id, take_app_length, Z.eqb_refl by (rewrite length_app; lia). cbn [negb]. by rewrite Hp, drop_app_length.
Qed.

Lemma headers_pieces turns n l r : noNewline l = true -> (forall k, r <> [] -> headers turns k r = None) -> headers (S turns) n (l ++ crlf ++ r) = None \/ l = [].
Proof.
  intros Hl Hr. destruct l as [|c l]; [by right|left]. cbn [headers]. rewrite readHeaderLine_crlf by done.
  assert (Hall : forall k, headers turns k r = None).
  { intros k. destruct r; [apply headers_nil|by apply Hr]. }
  destruct (find _ _); [|done]. destruct (iequals _ _); [|done]. by destruct (stoll _).
Qed.

(** A message cut anywhere before its end is no message. *)
Lemma readMessage_cut msg k : sendable msg -> (k < length (writeMessage msg))%nat -> readMessage (take k (writeMessage msg)) = NoMessage.
Proof.
  intros (Hp & Ha & Hm) Hk. rewrite writeMessage_lines in *. pose proof (lengthLine_noNewline msg) as Hn.
  assert (Hend : noNewline (lengthLine msg ++ [x0d]) = true) by (by rewrite noNewline_app, Hn).
  assert (Hsplit : lengthLine msg ++ crlf ++ crlf ++ dump msg = (lengthLine msg ++ [x0d]) ++ x0a :: crlf ++ dump msg) by (by rewrite <- app_assoc).
  destruct (Nat.le_gt_cases k (length (lengthLine msg ++ [x0d]))) as [H1|H1].
  { rewrite Hsplit, take_app_le by done. unfold readMessage. rewrite headers_cut; [done|].
    rewrite <- (take_drop k (lengthLine msg ++ [x0d])), noNewline_app in Hend. by apply andb_prop in Hend as [? _]. }
  rewrite length_app in H1. cbn [length] in H1.
  set (j := (k - length (lengthLine msg) - 2)%nat).
  assert (Htake : take k (lengthLine msg ++ crlf ++ crlf ++ dump msg) = lengthLine msg ++ crlf ++ take j (crlf ++ dump msg)).
  { rewrite take_app_ge by lia. f_equal. rewrite take_app_ge by (cbn [length crlf]; lia). do 2 f_equal. }
  rewrite Htake. rewrite !length_app in Hk. cbn [length crlf] in Hk. unfold readMessage.
  destruct (Nat.le_gt_cases 2 j) as [H2|H2].
  - rewrite take_app_ge by (cbn [length crlf]; lia). cbn [length crlf]. rewrite headers_message by (rewrite ?length_app; cbn [length crlf]; lia).
    destruct (Z.ltb_spec (Z.of_nat (length (dump msg))) 0); [done|]. rewrite Ha. cbn [negb].
    set (body := take _ (take _ _)). assert (Hb : (length body < length (dump msg))%nat) by (unfold body; rewrite !length_take; lia).
    destruct (Z.eqb_spec (Z.of_nat (length body)) (Z.of_nat (length (dump msg)))); [lia|done].
  - destruct (headers_pieces (length (lengthLine msg ++ crlf ++ take j (crlf ++ dump msg))) (-1) (lengthLine msg) (take j (crlf ++ dump msg)) Hn) as [->|E]; [|done|done].
    intros n Hne. apply headers_cut. destruct j as [|[|]]; [done|done|lia].
Qed.

(** C27. The messages written one after another are read back in their order, up to the end
    of the stream; and a stream that ends inside a message gives those before it and no
    part of it. *)
Theorem messages_framed msgs msg k : Forall sendable (msgs ++ [msg]) -> (k < length (writeMessage msg))%nat ->
  let input := concat (map writeMessage msgs) ++ take k (writeMessage msg) in
  readMessages (S (length input)) input = (msgs, NoMessage).
Proof.
  intros Hall Hk. cbv zeta. apply Forall_app in Hall as [Hs Hl]. apply Forall_inv in Hl.
  remember (S _) as turns eqn:Et. assert (Hturns : (length msgs < turns)%nat).
  { subst turns. rewrite length_app. clear. induction msgs as [|m ms IH]; cbn [map concat length]; [lia|]. rewrite length_app, writeMessage_lines, !length_app. cbn [length crlf]. lia. }
  clear Et. revert turns Hturns. induction Hs as [|m ms Hm Hs IH]; intros turns Ht; (destruct turns as [|turns]; [cbn in Ht; lia|]); cbn [readMessages map concat app].
  - by rewrite readMessage_cut.
  - rewrite <- app_assoc, readMessage_written by done. rewrite IH; [done|cbn in Ht; lia].
Qed.

End Transport.

(** ** Examples *)

Module Examples.

(** Strings of JSON whose dump is the string between quotes. *)
#[export] Instance demoJson : JsonText := {
  json := bytes;
  dump := fun s => x22 :: s ++ [x22];
  parse := fun s => match s with x22%byte :: s' => if last s' is Some x22%byte then Some (removelast s') else None | _ => None end;
  allocates := fun n => n <? 2 ^ 40;
}.

Definition accented : bytes := s2b "caf" ++ [xc3; xa9] ++ [x0a].

(** The text and the mark, one byte at a time. *)
Definition byByte (s : bytes) : list bytes := map (fun c => [c]) s.

Example pumped : pump (byByte (accented ++ kSyncMark ++ accented)) =
  [Sunk (s2b "c"); Sunk (s2b "a"); Sunk (s2b "f"); Sunk [xc3; xa9]; Sunk [x0a]; SyncSeen;
   Sunk (s2b "c"); Sunk (s2b "a"); Sunk (s2b "f"); Sunk [xc3; xa9]; Sunk [x0a]].
Proof. vm_compute. reflexivity. Qed.

Example pumped_at_once : pump [accented ++ kSyncMark ++ accented] = [Sunk accented; SyncSeen; Sunk accented].
Proof. vm_compute. reflexivity. Qed.

(** A length no string holds: the exception is not readMessage's nullopt. *)
Example length_throws : readMessage (s2b "Content-Length: 9000000000000000000" ++ crlf ++ crlf) = LibraryThrows.
Proof. reflexivity. Qed.

Example other_headers : readMessage (s2b "content-length :  3" ++ [x0a] ++ s2b "junk" ++ crlf ++ crlf ++ s2b "[]x") = NoMessage /\
  readMessage (s2b "X-A: 1" ++ crlf ++ s2b "content-length :  3" ++ [x0a] ++ crlf ++ x22 :: s2b "a" ++ x22 :: s2b "rest") = Read (s2b "a") (s2b "rest").
Proof. split; reflexivity. Qed.

Lemma pump_forwards_witness : Forall whole (sunkTexts (pump (byByte (accented ++ kSyncMark ++ accented)))).
Proof.
  pose proof (pump_forwards (byByte (accented ++ kSyncMark ++ accented))) as Hp.
  destruct (pumpReads _ _) as [es pending]. destruct Hp as (_ & _ & _ & _ & _ & Hw). apply Hw.
  exists (map u8 (s2b "caf") ++ [0xe9; 0x0a] ++ map u8 kSyncMark ++ map u8 (s2b "caf") ++ [0xe9; 0x0a]).
  split; [|vm_compute; reflexivity].
  repeat (apply List.Forall_cons; [unfold scalar; vm_compute; intuition congruence|]). apply List.Forall_nil.
Defined.

Lemma messages_framed_witness :
  let input := writeMessage (s2b "a") ++ writeMessage accented ++ take 12 (writeMessage (s2b "b")) in
  readMessages (S (length input)) input = ([s2b "a"; accented], NoMessage).
Proof.
  apply (@messages_framed demoJson [s2b "a"; accented] (s2b "b") 12).
  - repeat constructor; vm_compute; congruence.
  - vm_compute. lia.
Defined.

End Examples.
