(* ===== verification/DapText.v ===== *)
(** The texts the debugger reads (dap/DapServer.cpp): paths and their mappings, the lines a
    breakpoint binds to, conditions, hit conditions and log messages, and the locals and
    frames of a stopped thread. *)

From S2P Require Import Prelude Utf8 Lexer Regex DapStdio.

#[local] Set Warnings "-register-all".

(** ** Paths *)

(** Elsewhere than on Windows a path is compared as given. *)
Definition pathKey (p : bytes) : bytes := p.

Definition slash : byte := "/"%byte.
Definition backslash : byte := x5c.
Definition isSeparator (c : byte) : bool := (c =? slash)%byte || (c =? backslash)%byte.

(** What follows the last separator. *)
Fixpoint baseName (path : bytes) : bytes :=
  match path with
  | [] => []
  | c :: path' => if existsb isSeparator path' then baseName path' else if isSeparator c then path' else path
  end.

(** A pair of roots of [pathMappings]: the client's and the adapter's. *)
Record PathMapping := mkMapping { local : bytes; remote : bytes }.

Definition isalpha (c : byte) : bool := in_range "a" c "z" || in_range "A" c "Z".

Definition windowsLike (p : bytes) : bool :=
  match p with c :: d :: _ => (d =? ":")%byte && isalpha c | _ => false end ||
  existsb (fun c => c =? backslash)%byte p.

Definition normalizedByte (fold : bool) (c : byte) : byte :=
  if (c =? backslash)%byte then slash else if fold && in_range "A" c "Z" then chr (u8 c + 32) else c.

Definition normalizedPath (p : bytes) (fold : bool) : bytes := map (normalizedByte fold) p.

(** The loop of [rootForm], on the reversed root. *)
Fixpoint stripRoot (turns : nat) (r : bytes) : bytes :=
  match turns with
  | O => r
  | S turns =>
      match r with
      | c :: r' =>
          if (1 <? length r)%nat && isSeparator c then
            if (length r =? 3)%nat && (char_at r 1 =? ":")%byte then r else stripRoot turns r'
          else r
      | [] => r
      end
  end.

Definition rootForm (r : bytes) : bytes := rev (stripRoot (length r) (rev r)).

Fixpoint dropSeparators (p : bytes) : bytes :=
  match p with c :: p' => if isSeparator c then dropSeparators p' else p | [] => [] end.

Definition lastByte (s : bytes) : byte := char_at s (length s - 1).

(** What follows the root in [p], or None when [p] is neither the root nor under it. *)
Definition underRoot (p rootIn : bytes) (fold : bool) : option bytes :=
  let root := rootForm rootIn in
  let np := normalizedPath p fold in
  let nr := normalizedPath root fold in
  if (length nr =? 0)%nat || (length np <? length nr)%nat || negb (bool_decide (take (length nr) np = nr)) then None
  else if (length np =? length nr)%nat then Some []
  else if negb (lastByte nr =? slash)%byte && negb (char_at np (length nr) =? slash)%byte then None
  else Some (dropSeparators (drop (length nr) p)).

Definition joinUnder (rootIn rest : bytes) : bytes :=
  let root := rootForm rootIn in
  let sep := if windowsLike root then backslash else slash in
  let rest := map (fun c => if isSeparator c then sep else c) rest in
  match rest with
  | [] => root
  | _ => if isSeparator (lastByte root) then root ++ rest else root ++ sep :: rest
  end.

(** The turns of [translatePath]'s loop: the best length so far, and its answer. *)
Fixpoint translateFrom (maps : list PathMapping) (p : bytes) (toRemote : bool) (best : nat) (out : option bytes) : option bytes :=
  match maps with
  | [] => out
  | m :: maps =>
      let from := if toRemote then local m else remote m in
      let to := if toRemote then remote m else local m in
      match underRoot p from (windowsLike from) with
      | None => translateFrom maps p toRemote best out
      | Some rest =>
          let len := length (rootForm from) in
          if (if out is Some _ then true else false) && (len <=? best)%nat then translateFrom maps p toRemote best out
          else translateFrom maps p toRemote len (Some (joinUnder to rest))
      end
  end.

Definition translatePath (maps : list PathMapping) (p : bytes) (toRemote : bool) : option bytes :=
  translateFrom maps p toRemote 0 None.

(** ** Lines where a form starts *)

(** The lines of the tokens from [l] on that open a list, as a set in order. *)
Fixpoint insertLine (line : Z) (lines : list Z) : list Z :=
  match lines with
  | [] => [line]
  | x :: more => if line <? x then line :: lines else if x <? line then x :: insertLine line more else lines
  end.

Fixpoint formLinesFrom (turns : nat) (l : lexer) (lines : list Z) : option (list Z) :=
  match turns with
  | O => None
  | S turns =>
      let '(t, l) := next l in
      match kind t with
      | EndOfFile | Error => Some lines
      | LParen | HashLParen => formLinesFrom turns l (insertLine (tline t) lines)
      | _ => formLinesFrom turns l lines
      end
  end.

Definition formLines (source : bytes) : option (list Z) := formLinesFrom (S (length source)) (newLexer source) [].

(** [candidates.lower_bound(line)]. *)
Fixpoint lowerBound (lines : list Z) (line : Z) : option Z :=
  match lines with
  | [] => None
  | x :: lines => if x <? line then lowerBound lines line else Some x
  end.

(** ** Conditions *)

Definition trimmed (s : bytes) : bytes := dropSpace (rev (dropSpace (rev s))).

(** The closing delimiter a token opens, and the one it is. *)
Definition opens (k : TokenKind) : option byte :=
  match k with
  | LParen | HashLParen => Some ")"%byte
  | LBracket => Some "]"%byte
  | LBrace | HashLBrace => Some "}"%byte
  | _ => None
  end.

Definition closes (k : TokenKind) : option byte :=
  match k with RParen => Some ")"%byte | RBracket => Some "]"%byte | RBrace => Some "}"%byte | _ => None end.

Fixpoint syntaxFrom (turns : nat) (l : lexer) (open : list byte) : option bytes :=
  match turns with
  | O => None
  | S turns =>
      let '(t, l) := next l in
      match kind t with
      | EndOfFile => Some (match open with c :: _ => s2b "read error: missing " ++ [c] | [] => [] end)
      | Error => Some (s2b "read error: " ++ text t)
      | k =>
          match opens k, closes k with
          | Some c, _ => syntaxFrom turns l (c :: open)
          | None, Some c =>
              match open with
              | d :: open' => if (d =? c)%byte then syntaxFrom turns l open' else Some (s2b "read error: unexpected " ++ [c])
              | [] => Some (s2b "read error: unexpected " ++ [c])
              end
          | None, None => syntaxFrom turns l open
          end
      end
  end.

(** Empty when nothing is wrong. *)
Definition syntaxProblem (expr : bytes) : option bytes :=
  match trimmed expr with
  | [] => Some (s2b "empty expression")
  | _ => syntaxFrom (S (length expr)) (newLexer expr) []
  end.

(** ** Hit conditions *)

Inductive HitOp := HNone | HEq | HGe | HGt | HLe | HLt | HMod.

#[export] Instance HitOp_eq_dec : EqDecision HitOp.
Proof. solve_decision. Defined.

Record HitCondition := mkHit { op : HitOp; hitN : Z }.

Definition noHit : HitCondition := mkHit HNone 0.

(** The operator [t] starts with, and what follows it. *)
Definition hitOperator (t : bytes) : HitOp * bytes :=
  if startsWith (s2b "==") t then (HEq, drop 2 t)
  else if startsWith (s2b ">=") t then (HGe, drop 2 t)
  else if startsWith (s2b "<=") t then (HLe, drop 2 t)
  else if startsWith (s2b ">") t then (HGt, drop 1 t)
  else if startsWith (s2b "<") t then (HLt, drop 1 t)
  else if startsWith (s2b "%") t then (HMod, drop 1 t)
  else (HEq, t).

(** [parse]: the condition, or what is wrong with the text. *)
Definition hitParse (text : bytes) : HitCondition + bytes :=
  match trimmed text with
  | [] => inl noHit
  | t =>
      let '(o, t) := hitOperator t in
      let t := trimmed t in
      if (length t =? 0)%nat || (15 <? length t)%nat || negb (forallb is_digit t) then
        inr (s2b "hit condition '" ++ text ++ s2b "': expected N, == N, >= N, > N, <= N, < N or % N")
      else
        let n := digits_value t in
        match o with
        | HMod => if n =? 0 then inr (s2b "hit condition '" ++ text ++ s2b "': % 0") else inl (mkHit HMod n)
        | _ => inl (mkHit o n)
        end
  end.

Definition passes (h : HitCondition) (hits : Z) : bool :=
  match op h with
  | HNone => true
  | HEq => hits =? hitN h
  | HGe => hitN h <=? hits
  | HGt => hitN h <? hits
  | HLe => hits <=? hitN h
  | HLt => hits <? hitN h
  | HMod => Z.rem hits (hitN h) =? 0
  end.

(** ** Log messages *)

(** [interpolate]'s scan for the brace that ends the expression: its offset. *)
Fixpoint closeBrace (depth : Z) (inString : bool) (s : bytes) : option nat :=
  match s with
  | [] => None
  | d :: s' =>
      if inString then
        if (d =? backslash)%byte then
          match s' with
          | _ :: s'' => option_map (fun n => S (S n)) (closeBrace depth true s'')
          | [] => None
          end
        else option_map S (closeBrace depth (negb (d =? x22)%byte) s')
      else if (d =? x22)%byte then option_map S (closeBrace depth true s')
      else if (d =? "{")%byte then option_map S (closeBrace (depth + 1) false s')
      else if (d =? "}")%byte then
        if depth - 1 =? 0 then Some O else option_map S (closeBrace (depth - 1) false s')
      else option_map S (closeBrace depth false s')
  end.

Section Interpolate.

(** What an expression evaluates to in the frame, as text, or the error. *)
Context (evaluate : bytes -> bytes + bytes).

Fixpoint interpolateFrom (turns : nat) (msg : bytes) : bytes :=
  match turns with
  | O => []
  | S turns =>
      match msg with
      | [] => []
      | c :: rest =>
          if startsWith (s2b "{{") msg then "{"%byte :: interpolateFrom turns (drop 2 msg)
          else if startsWith (s2b "}}") msg then "}"%byte :: interpolateFrom turns (drop 2 msg)
          else if negb (c =? "{")%byte then c :: interpolateFrom turns rest
          else
            match closeBrace 1 false rest with
            | None => msg
            | Some n =>
                match evaluate (take n rest) with
                | inl text => text
                | inr error => s2b "<error: " ++ error ++ s2b ">"
                end ++ interpolateFrom turns (drop (S n) rest)
            end
      end
  end.

Definition interpolate (msg : bytes) : bytes := interpolateFrom (S (length msg)) msg.

End Interpolate.

(** ** Names in an expression *)

Definition nameDelim (c : byte) : bool :=
  isspace c || existsb (fun d => c =? d)%byte (s2b "()[]{}'`~@^;," ++ [x22]).

(** The occurrences of [name] in [expr] from [at_] on, one after another. *)
Fixpoint mentionsFrom (turns at_ : nat) (expr name : bytes) : bool :=
  match turns with
  | O => false
  | S turns =>
      match (if (length expr <? at_)%nat then None else find name (drop at_ expr)) with
      | None => false
      | Some k =>
          let at_ := (at_ + k)%nat in
          let end_ := (at_ + length name)%nat in
          let before := (at_ =? 0)%nat || nameDelim (char_at expr (at_ - 1)) in
          let after := (end_ =? length expr)%nat || nameDelim (char_at expr end_) in
          if before && after then true else mentionsFrom turns (S at_) expr name
      end
  end.

Definition mentions (expr name : bytes) : bool := mentionsFrom (S (length expr)) 0 expr name.

(** ** Locals and frames *)

Record LocalVar := mkLocal { lname : bytes; slot : Z; startPc : Z; endPc : Z }.

Record DebugInfo := mkDebugInfo {
  dsource : bytes;
  dname : bytes;
  dline : Z;
  topLevelThunk : bool;
  library : bool;
  dlocals : list LocalVar;
}.

(** A frame of a thread's chain, which is the list of its frames, the innermost first. *)
Record DebugFrame := mkFrame { info : DebugInfo; fpc : Z; fline : Z; shownLine : Z }.

(** The binding of a name that starts last among those in scope. *)
Fixpoint addLocal (lv : LocalVar) (byName : list LocalVar) : list LocalVar :=
  match byName with
  | [] => [lv]
  | x :: more => if bool_decide (lname x = lname lv) then (if startPc x <=? startPc lv then lv else x) :: more else x :: addLocal lv more
  end.

Definition inScope (pc : Z) (lv : LocalVar) : bool := negb ((pc <? startPc lv) || (endPc lv <=? pc)).

Fixpoint insertSlot (lv : LocalVar) (lvs : list LocalVar) : list LocalVar :=
  match lvs with
  | [] => [lv]
  | x :: more => if slot lv <? slot x then lv :: lvs else x :: insertSlot lv more
  end.

Definition visibleLocals (f : DebugFrame) : list LocalVar :=
  let byName := fold_left (fun acc lv => if inScope (fpc f) lv then addLocal lv acc else acc) (dlocals (info f)) [] in
  fold_left (fun acc lv => insertSlot lv acc) byName [].

(** The locals an expression names, as [evalInFrame] binds them; [hasEx] when the exception
    is bound to [ex]. *)
Definition usedLocals (f : DebugFrame) (expr : bytes) (hasEx : bool) : list LocalVar :=
  List.filter (fun lv =>
    negb (hasEx && bool_decide (lname lv = s2b "ex")) &&
    (negb (existsb (fun c => c =? "#")%byte (lname lv)) && negb (char_at (lname lv) 0 =? "&")%byte && mentions expr (lname lv)))
    (visibleLocals f).

(** The source [evalInFrame] compiles, or its refusal. *)
Definition evalSource (f : option DebugFrame) (expression : bytes) (hasEx : bool) : bytes + bytes :=
  let expr := trimmed expression in
  match expr with
  | [] => inr (s2b "nothing to evaluate")
  | _ =>
      let used := match f with Some f => usedLocals f expr hasEx | None => [] end in
      if (16 <? length used + (if hasEx then 1 else 0))%nat then inr (s2b "the expression names more than 16 locals")
      else inl (s2b "(fn [" ++ (if hasEx then s2b "ex " else []) ++ flat_map (fun lv => lname lv ++ [" "%byte]) used ++
                s2b "]" ++ [x0a] ++ expr ++ [x0a] ++ s2b ")")
  end.

(** The frames [stackTrace] shows: not the module of the form whose thunk is shown. *)
Fixpoint shownFrames (stack : list DebugFrame) : list DebugFrame :=
  match stack with
  | f :: (caller :: stack') as rest =>
      if topLevelThunk (info f) then f :: shownFrames stack' else f :: shownFrames rest
  | stack => stack
  end.
