(* ===== verification/DapTextFacts.v ===== *)
(** What the debugger's texts mean (DapText.v): delimiters that balance, log messages put
    together from their parts, paths taken from one side to the other and back. *)

From S2P Require Import Prelude Utf8 Lexer Regex TextFacts DapStdio DapText.

#[local] Set Warnings "-register-all".

(** ** The syntax check *)

(** The kinds of the tokens from [l] to the end of the text, none of them an error. *)
Inductive tokens : lexer -> list TokenKind -> Prop :=
| tokens_end l : kind (fst (next l)) = EndOfFile -> tokens l []
| tokens_more l k ks : kind (fst (next l)) = k -> k <> EndOfFile -> k <> Error -> tokens (snd (next l)) ks -> tokens l (k :: ks).

(** The delimiters that go together. *)
Inductive pairs : TokenKind -> TokenKind -> Prop :=
| parens : pairs LParen RParen
| function_parens : pairs HashLParen RParen
| brackets : pairs LBracket RBracket
| braces : pairs LBrace RBrace
| set_braces : pairs HashLBrace RBrace.

(** Delimiters that balance: each one opened is closed by its own. *)
Inductive balanced : list TokenKind -> Prop :=
| balanced_nil : balanced []
| balanced_other k ks : (forall k', ~ pairs k k' /\ ~ pairs k' k) -> balanced ks -> balanced (k :: ks)
| balanced_pair o k inner ks : pairs o k -> balanced inner -> balanced ks -> balanced (o :: inner ++ k :: ks).

(** Delimiters that match, as the check tells them. *)
Inductive matched : list TokenKind -> Prop :=
| matched_nil : matched []
| matched_other k ks : opens k = None -> closes k = None -> matched ks -> matched (k :: ks)
| matched_pair o k c inner ks : opens o = Some c -> closes k = Some c -> matched inner -> matched ks ->
    matched (o :: inner ++ k :: ks).

(** [ks] closes what is open, the innermost first, and is matched otherwise. *)
Inductive closing : list byte -> list TokenKind -> Prop :=
| closing_none ks : matched ks -> closing [] ks
| closing_one c open b k ks : matched b -> closes k = Some c -> closing open ks -> closing (c :: open) (b ++ k :: ks).

Lemma matched_app a b : matched a -> matched b -> matched (a ++ b).
Proof.
  induction 1 as [|k ks Ho Hc Hk IH|o k c inner ks Ho Hc Hi IHi Hk IH]; intros Hb; cbn; [done|constructor; auto|].
  rewrite <- app_assoc. cbn. apply (matched_pair o k c); auto.
Qed.

Lemma closing_matched_app open b ks : matched b -> closing open ks -> closing open (b ++ ks).
Proof.
  intros Hb. destruct 1 as [ks Hk|c open b' k ks Hb' Hk Hc]; [constructor; by apply matched_app|].
  rewrite app_assoc. constructor; [by apply matched_app|done|done].
Qed.

Lemma opens_closes k c : opens k = Some c -> closes k = None.
Proof. by destruct k. Qed.

Lemma closing_open open k c ks : opens k = Some c -> closing open (k :: ks) <-> closing (c :: open) ks.
Proof.
  intros Hk. pose proof (opens_closes _ _ Hk) as Hn. split.
  - assert (Hstart : forall b, matched (k :: b) -> exists inner k' b', b = inner ++ k' :: b' /\ matched inner /\ closes k' = Some c /\ matched b').
    { intros b Hb. inversion Hb; subst; [congruence|]. do 3 eexists. split; [done|]. split; [done|]. split; [congruence|done]. }
    intros Hc. remember (k :: ks) as kks eqn:E. destruct Hc as [? Hb|d open b k' ks' Hb Hk' Hc]; subst.
    + apply Hstart in Hb as (inner & k' & b' & -> & Hi & Hk' & Hb'). constructor; [done|done|by constructor].
    + destruct b as [|x b]; injection E as -> <-; [congruence|].
      apply Hstart in Hb as (inner & k2 & b' & -> & Hi & Hk2 & Hb'). rewrite <- app_assoc. cbn.
      constructor; [done|done|]. by constructor.
  - inversion 1 as [|? ? b k' ks' Hb Hk' Hc]; subst. destruct Hc as [ks' Hb'|d open b2 k2 ks' Hb2 Hk2 Hc].
    + constructor. by econstructor.
    + replace (k :: b ++ k' :: b2 ++ k2 :: ks') with ((k :: b ++ k' :: b2) ++ k2 :: ks') by (cbn; by rewrite <- app_assoc).
      constructor; [by econstructor|done|done].
Qed.

Lemma closing_other open k ks : opens k = None -> closes k = None -> closing open (k :: ks) <-> closing open ks.
Proof.
  intros Ho Hc. split.
  - intros H. remember (k :: ks) as kks eqn:E. destruct H as [? Hb|d open b k' ks' Hb Hk' H]; subst.
    + inversion Hb; subst; [by constructor|congruence].
    + destruct b as [|x b]; injection E as -> <-; [congruence|]. inversion Hb; subst; [by constructor|congruence].
  - intros H. apply (closing_matched_app open [k] ks); [by repeat constructor|done].
Qed.

Lemma matched_close k ks c : closes k = Some c -> ~ matched (k :: ks).
Proof. intros Hc Hb. inversion Hb; subst; [congruence|]. by destruct k. Qed.

Lemma closing_close open k ks c : closes k = Some c -> closing open (k :: ks) <-> exists open', open = c :: open' /\ closing open' ks.
Proof.
  intros Hc. split.
  - intros H. remember (k :: ks) as kks eqn:E. destruct H as [? Hb|d open b k' ks' Hb Hk' H]; subst; [by apply (matched_close _ _ _ Hc) in Hb|].
    destruct b as [|x b]; injection E as -> <-; [|by apply (matched_close _ _ _ Hc) in Hb].
    exists open. split; [congruence|done].
  - intros (open' & -> & H). apply (closing_one c open' []); done || constructor.
Qed.

Lemma closing_end open : closing open [] <-> open = [].
Proof.
  split; [|intros ->; apply closing_none, matched_nil]. intros H. remember [] as ks eqn:E. destruct H as [|? ? b]; [done|by destruct b].
Qed.

Lemma next_closer l : hasPeek_ l = false -> hasPeek_ (snd (next l)) = false /\ (left (snd (next l)) <= left l)%nat /\
  (kind (fst (next l)) <> EndOfFile -> (left (snd (next l)) < left l)%nat).
Proof.
  intros Hp. destruct (next_fresh l Hp) as (l1 & Hm & Es & Epos & _ & _ & Hpk & Hk).
  apply moves_fields in Hm as (Es1 & Hp1 & _ & _ & Hle).
  assert (Hleft : left (snd (next l)) = left l1) by (unfold left; congruence).
  split_and!; [congruence| |].
  - rewrite Hleft. unfold left. rewrite Es1. lia.
  - intros Hne. rewrite Hleft. by apply Hk.
Qed.

Lemma syntaxFrom_spec turns l open : hasPeek_ l = false -> (left l < turns)%nat ->
  (exists r, syntaxFrom turns l open = Some r) /\
  (syntaxFrom turns l open = Some [] <-> exists ks, tokens l ks /\ closing open ks).
Proof.
  revert l open. induction turns as [|turns IH]; intros l open Hp Ht; [lia|]. cbn [syntaxFrom].
  destruct (next_closer l Hp) as (Hp' & _ & Hlt).
  pose proof (tokens_end l) as Hend. pose proof (tokens_more l) as Hmore.
  assert (Hinv : forall ks, tokens l ks -> (kind (fst (next l)) = EndOfFile /\ ks = []) \/
    (kind (fst (next l)) <> EndOfFile /\ kind (fst (next l)) <> Error /\ exists ks', ks = kind (fst (next l)) :: ks' /\ tokens (snd (next l)) ks')).
  { intros ks H. inversion H; subst; [by left|right]. repeat split; [done|done|by eexists]. }
  destruct (next l) as [t l'] eqn:En. cbn [fst snd] in *.
  destruct (decide (kind t = EndOfFile)) as [Ek|Ek].
  { rewrite Ek. split; [by eexists|]. split.
    - intros E. exists []. split; [by apply Hend|]. apply closing_end. by destruct open.
    - intros (ks & Hk & Hc). apply Hinv in Hk as [[_ ->]|[Hk _]]; [|done]. apply closing_end in Hc as ->. done. }
  destruct (decide (kind t = Error)) as [Er|Er].
  { rewrite Er. split; [by eexists|]. split; [done|].
    intros (ks & Hk & _). apply Hinv in Hk as [[Hk _]|(_ & Hk & _)]; done. }
  assert (Hstep : (exists ks, tokens l ks /\ closing open ks) <-> exists ks, tokens l' ks /\ closing open (kind t :: ks)).
  { split.
    - intros (ks & Hk & Hc). apply Hinv in Hk as [[Hk _]|(_ & _ & ks' & -> & Hk)]; [done|]. by exists ks'.
    - intros (ks & Hk & Hc). exists (kind t :: ks). split; [by apply Hmore|done]. }
  rewrite Hstep. clear Hstep Hend Hmore Hinv.
  assert (Hrec : forall open', (exists r, syntaxFrom turns l' open' = Some r) /\
    (syntaxFrom turns l' open' = Some [] <-> exists ks, tokens l' ks /\ closing open' ks)).
  { intros open'. apply IH; [done|]. specialize (Hlt Ek). lia. }
  assert (Hgoal : let r := match opens (kind t), closes (kind t) with
      | Some c, _ => syntaxFrom turns l' (c :: open)
      | None, Some c =>
          match open with
          | d :: open' => if (d =? c)%byte then syntaxFrom turns l' open' else Some (s2b "read error: unexpected " ++ [c])
          | [] => Some (s2b "read error: unexpected " ++ [c])
          end
      | None, None => syntaxFrom turns l' open
      end in (exists x, r = Some x) /\ (r = Some [] <-> exists ks, tokens l' ks /\ closing open (kind t :: ks))).
  { cbv zeta. destruct (opens (kind t)) as [c|] eqn:Eo; [|destruct (closes (kind t)) as [c|] eqn:Ec].
    - destruct (Hrec (c :: open)) as [Hr ->]. split; [done|]. by setoid_rewrite (closing_open open (kind t) c _ Eo).
    - setoid_rewrite (fun ks => closing_close open (kind t) ks c Ec). destruct open as [|d open].
      + split; [by eexists|]. split; [done|]. by intros (ks & _ & open' & ? & _).
      + destruct (byte_eqb_spec d c) as [->|Hd].
        * destruct (Hrec open) as [Hr ->]. split; [done|]. split.
          -- intros (ks & Hk & Hc). exists ks. split; [done|]. by exists open.
          -- intros (ks & Hk & open' & [= ->] & Hc). by exists ks.
        * split; [by eexists|]. split; [done|]. intros (ks & _ & open' & [= -> _] & _). done.
    - destruct (Hrec open) as [Hr ->]. split; [done|]. by setoid_rewrite (closing_other open (kind t) _ Eo Ec). }
  cbv zeta in Hgoal. destruct (kind t); done.
Qed.

(** The check tells delimiters as they are. *)
Lemma pairs_told o k : pairs o k <-> exists c, opens o = Some c /\ closes k = Some c.
Proof.
  split; [by destruct 1; eexists|]. intros (c & Ho & Hk). destruct o; try done; injection Ho as <-; destruct k; try done; constructor.
Qed.

Lemma matched_balanced ks : matched ks <-> balanced ks.
Proof.
  split.
  - induction 1 as [|k ks Ho Hc Hk IH|o k c inner ks Ho Hc Hi IHi Hk IH]; [constructor| |].
    + constructor; [|done]. intros k'. rewrite !pairs_told. split; intros (c & H1 & H2); congruence.
    + constructor; [apply pairs_told; eauto|done|done].
  - induction 1 as [|k ks Hno Hk IH|o k inner ks Hp Hi IHi Hk IH]; [constructor| |].
    + constructor; [| |done].
      * destruct k; try done; exfalso; [eapply (proj1 (Hno RParen))|eapply (proj1 (Hno RBracket))|eapply (proj1 (Hno RBrace))|eapply (proj1 (Hno RBrace))|eapply (proj1 (Hno RParen))]; constructor.
      * destruct k; try done; exfalso; [eapply (proj2 (Hno LParen))|eapply (proj2 (Hno LBracket))|eapply (proj2 (Hno LBrace))]; constructor.
    + apply pairs_told in Hp as (c & Ho & Hc). by apply (matched_pair o k c).
Qed.

(** C28. The check of a condition ends on any text, and finds nothing wrong exactly when the
    text is not blank, the lexer reads it to its end without an error, and its delimiters
    balance: each one opened closed by its own kind, the ones inside first. *)
Theorem syntax_balanced expr :
  (exists problem, syntaxProblem expr = Some problem) /\
  (syntaxProblem expr = Some [] <->
   trimmed expr <> [] /\ exists ks, tokens (newLexer expr) ks /\ balanced ks).
Proof.
  unfold syntaxProblem. destruct (trimmed expr); [split; [by eexists|]; split; [done|by intros [? _]]|].
  destruct (syntaxFrom_spec (S (length expr)) (newLexer expr) [] eq_refl ltac:(unfold left; cbn; lia)) as [Hr ->].
  split; [done|]. split.
  - intros (ks & Hk & Hc). split; [done|]. exists ks. split; [done|]. apply matched_balanced. by inversion Hc; subst.
  - intros [_ (ks & Hk & Hc)]. exists ks. split; [done|]. constructor. by apply matched_balanced.
Qed.

(** ** Log messages *)

(** The inside of a string literal, and an expression whose braces nest outside its
    strings. *)
Inductive stringBody : bytes -> Prop :=
| body_nil : stringBody []
| body_char c s : (c =? backslash)%byte = false -> (c =? x22)%byte = false -> stringBody s -> stringBody (c :: s)
| body_escape c s : stringBody s -> stringBody (backslash :: c :: s).

Inductive nests : bytes -> Prop :=
| nests_nil : nests []
| nests_char c e : (c =? "{")%byte = false -> (c =? "}")%byte = false -> (c =? x22)%byte = false -> nests e -> nests (c :: e)
| nests_string s e : stringBody s -> nests e -> nests (x22 :: s ++ x22 :: e)
| nests_braces a e : nests a -> nests e -> nests ("{"%byte :: a ++ "}"%byte :: e).

(** A log message, as text and expressions. *)
Inductive part := PText (t : bytes) | PExpr (e : bytes).

Definition doubled (c : byte) : bytes := if (c =? "{")%byte || (c =? "}")%byte then [c; c] else [c].

Definition written (p : part) : bytes :=
  match p with PText t => flat_map doubled t | PExpr e => "{"%byte :: e ++ s2b "}" end.

Definition wellPart (p : part) : Prop :=
  match p with PText _ => True | PExpr e => nests e /\ startsWith (s2b "{") e = false end.

Lemma closeBrace_string d s r : stringBody s ->
  closeBrace d true (s ++ x22 :: r) = option_map (fun n => (length s + S n)%nat) (closeBrace d false r).
Proof.
  induction 1 as [|c s H1 H2 Hs IH|c s Hs IH]; cbn [closeBrace app length].
  - change (x22 =? backslash)%byte with false. change (x22 =? x22)%byte with true. cbn [negb]. by destruct (closeBrace d false r).
  - rewrite H1, H2. cbn [negb]. rewrite IH. by destruct (closeBrace d false r).
  - change (backslash =? backslash)%byte with true. cbv iota. rewrite IH. by destruct (closeBrace d false r).
Qed.

Lemma closeBrace_nests d e r : nests e -> 1 <= d ->
  closeBrace d false (e ++ r) = option_map (fun n => (length e + n)%nat) (closeBrace d false r).
Proof.
  intros He. revert d r. induction He as [|c e H1 H2 H3 He IH|s e Hs He IH|a e Ha IHa He IH]; intros d r Hd; cbn [closeBrace app length].
  - by destruct (closeBrace d false r).
  - rewrite H1, H2, H3, IH by done. by destruct (closeBrace d false r).
  - change (x22 =? x22)%byte with true. cbv iota. rewrite <- app_assoc. cbn [app]. rewrite closeBrace_string, IH by done.
    destruct (closeBrace d false r); cbn; [|done]. f_equal. rewrite length_app. cbn. lia.
  - change ("{" =? x22)%byte with false. change ("{" =? "{")%byte with true. cbv iota.
    rewrite <- app_assoc, IHa by lia. cbn [closeBrace app].
    change ("}" =? x22)%byte with false. change ("}" =? "{")%byte with false. change ("}" =? "}")%byte with true. cbv iota.
    rewrite (proj2 (Z.eqb_neq _ _)) by lia. replace (d + 1 - 1) with d by lia. rewrite IH by done.
    destruct (closeBrace d false r); cbn; [|done]. f_equal. rewrite length_app. cbn. lia.
Qed.

Section Interpolate.
Context (evaluate : bytes -> bytes + bytes).

(** What an expression stands for in the message. *)
Definition valueText (e : bytes) : bytes :=
  match evaluate e with inl text => text | inr error => s2b "<error: " ++ error ++ s2b ">" end.

Definition partText (p : part) : bytes := match p with PText t => t | PExpr e => valueText e end.

Abbreviation go := (interpolateFrom evaluate).

Lemma interpolateFrom_enough n m msg : (length msg < n)%nat -> (length msg < m)%nat -> go n msg = go m msg.
Proof.
  revert m msg. induction n as [|n IH]; intros m msg Hn Hm; [lia|]. destruct m as [|m]; [lia|]. cbn [interpolateFrom].
  destruct msg as [|c rest]; [done|]. cbn [length] in *.
  assert (Hd : forall k, go n (drop (S k) (c :: rest)) = go m (drop (S k) (c :: rest))).
  { intros k. cbn [drop]. apply IH; rewrite length_drop; lia. }
  rewrite (Hd 1%nat). destruct (startsWith _ _); [done|]. destruct (startsWith _ _); [done|].
  destruct (negb _); [f_equal; apply IH; lia|]. destruct (closeBrace 1 false rest) as [k|]; [|done].
  f_equal. apply (Hd (S k)).
Qed.

Lemma interpolate_step n msg : (length msg < n)%nat -> go n msg = interpolate evaluate msg.
Proof. intros. unfold interpolate. apply interpolateFrom_enough; lia. Qed.

Lemma interpolate_cons c rest : interpolate evaluate (c :: rest) =
  if startsWith (s2b "{{") (c :: rest) then "{"%byte :: interpolate evaluate (drop 1 rest)
  else if startsWith (s2b "}}") (c :: rest) then "}"%byte :: interpolate evaluate (drop 1 rest)
  else if negb (c =? "{")%byte then c :: interpolate evaluate rest
  else match closeBrace 1 false rest with
       | None => c :: rest
       | Some n => valueText (take n rest) ++ interpolate evaluate (drop (S n) rest)
       end.
Proof.
  unfold interpolate at 1. cbn [length]. remember (S (length rest)) as n eqn:En. cbn [interpolateFrom].
  change (drop 2 (c :: rest)) with (drop 1 rest).
  assert (Hd : forall k, go n (drop k rest) = interpolate evaluate (drop k rest)).
  { intros k. apply interpolate_step. rewrite length_drop. lia. }
  rewrite !Hd, <- (drop_0 rest), (Hd 0%nat), (drop_0 rest). destruct (closeBrace 1 false rest); [|done].
  by rewrite Hd.
Qed.

Lemma interpolate_doubled c r : interpolate evaluate (doubled c ++ r) = c :: interpolate evaluate r.
Proof.
  unfold doubled. destruct (byte_eqb_spec c "{") as [->|H1]; [|destruct (byte_eqb_spec c "}") as [->|H2]];
    cbn [app orb]; rewrite interpolate_cons; [done|done|].
  assert (Hn : forall d, d <> c -> startsWith [d; d] (c :: r) = false) by (intros d Hd; cbn; by destruct (byte_eqb_spec d c)).
  change (s2b "{{") with ["{"; "{"]%byte. change (s2b "}}") with ["}"; "}"]%byte. rewrite !Hn by congruence.
  by destruct (byte_eqb_spec c "{").
Qed.

Lemma interpolate_expr e r : nests e -> startsWith (s2b "{") e = false ->
  interpolate evaluate ("{"%byte :: e ++ "}"%byte :: r) = valueText e ++ interpolate evaluate r.
Proof.
  intros He Hs. rewrite interpolate_cons.
  assert (H1 : startsWith (s2b "{{") ("{"%byte :: e ++ "}"%byte :: r) = false).
  { change (startsWith (s2b "{{") ("{"%byte :: e ++ "}"%byte :: r)) with (startsWith (s2b "{") (e ++ "}"%byte :: r)).
    destruct e; [done|]. by rewrite startsWith_fewer by (cbn; lia). }
  rewrite H1. change (startsWith (s2b "}}") _) with false. change (negb ("{" =? "{")%byte) with false. cbv iota.
  assert (Hc : closeBrace 1 false (e ++ "}"%byte :: r) = Some (length e)) .
  { rewrite closeBrace_nests by (done || lia). change (closeBrace 1 false ("}"%byte :: r)) with (Some 0%nat). cbn. by rewrite Nat.add_0_r. }
  rewrite Hc, take_app_length. do 2 f_equal. rewrite drop_app_ge by lia. by replace (S (length e) - length e)%nat with 1%nat by lia.
Qed.

(** C29. A log message reads as it was put together: a text whose braces are doubled stands
    for itself, and an expression between braces, whose own braces nest outside its strings
    and which does not begin with an open brace (two open braces read as a literal one:
    [DemoDebugger.Examples.braces_literal]), for the text of its value, or of its error; an
    open brace, not doubled, that nothing closes is literal text, with all that follows it. *)
Theorem interpolate_parts parts tail : Forall wellPart parts ->
  interpolate evaluate (flat_map written parts ++ tail) = flat_map partText parts ++ interpolate evaluate tail /\
  (startsWith (s2b "{{") ("{"%byte :: tail) = false -> closeBrace 1 false tail = None ->
   interpolate evaluate (flat_map written parts ++ "{"%byte :: tail) = flat_map partText parts ++ "{"%byte :: tail).
Proof.
  intros Hp. assert (Hall : forall tail, interpolate evaluate (flat_map written parts ++ tail) = flat_map partText parts ++ interpolate evaluate tail).
  { clear tail. intros tail. induction Hp as [|p ps Hw Hp IH]; [done|]. cbn [flat_map]. rewrite <- !app_assoc, <- IH.
    destruct p as [t|e]; cbn [written partText].
    - induction t as [|c t IHt]; [done|]. cbn [flat_map app]. by rewrite <- app_assoc, interpolate_doubled, IHt.
    - destruct Hw. cbn [app]. rewrite <- app_assoc. by apply interpolate_expr. }
  split; [apply Hall|]. intros Hs Hc. rewrite Hall. f_equal. rewrite interpolate_cons.
  rewrite Hs. change (startsWith (s2b "}}") _) with false. change (negb ("{" =? "{")%byte) with false. cbv iota. by rewrite Hc.
Qed.

End Interpolate.

(** ** Paths *)

Lemma length_normalizedPath p fold : length (normalizedPath p fold) = length p.
Proof. apply length_map. Qed.

Lemma normalizedByte_slash fold c : (normalizedByte fold c =? slash)%byte = isSeparator c.
Proof.
  apply eqb_true_iff. destruct fold; by_bytes c.
Qed.

Lemma stripRoot_ne turns r : r <> [] -> stripRoot turns r <> [].
Proof.
  revert r. induction turns as [|turns IH]; intros r Hr; [done|]. cbn [stripRoot]. destruct r as [|c r]; [done|].
  destruct ((1 <? length (c :: r))%nat && isSeparator c) eqn:E; [|done]. match goal with |- (if ?b then _ else _) <> _ => destruct b end; [done|].
  apply IH. apply andb_prop in E as [E _]. apply Nat.ltb_lt in E. by destruct r; [cbn in E; lia|].
Qed.

Lemma rootForm_ne r : r <> [] -> rootForm r <> [].
Proof.
  intros Hr. unfold rootForm. intros E. apply (f_equal (@rev _)) in E. rewrite rev_involutive in E.
  apply stripRoot_ne in E; [done|]. destruct r; [done|]. cbn. by destruct (rev r).
Qed.

Lemma dropSeparators_spec p : exists seps, p = seps ++ dropSeparators p /\ forallb isSeparator seps = true /\
  match dropSeparators p with c :: _ => isSeparator c = false | [] => True end.
Proof.
  induction p as [|c p (seps & E & Hs & Hd)]; [by exists []|]. cbn. destruct (isSeparator c) eqn:Ec.
  - exists (c :: seps). cbn. by rewrite Ec, <- E.
  - by exists [].
Qed.

Lemma dropSeparators_app seps rest : forallb isSeparator seps = true -> match rest with c :: _ => isSeparator c = false | [] => True end ->
  dropSeparators (seps ++ rest) = rest.
Proof.
  induction seps as [|c seps IH]; cbn.
  - intros _ Hr. destruct rest; [done|]. cbn. by rewrite Hr.
  - intros [Hc Hs]%andb_prop Hr. rewrite Hc. by apply IH.
Qed.

(** What [underRoot] decides: [p] is spelled like the root, up to separators and, when
    folded, case, followed by nothing or by separators and the rest. *)
Definition under (p rootIn : bytes) (fold : bool) (rest : bytes) : Prop :=
  let root := rootForm rootIn in
  root <> [] /\ exists pre seps, p = pre ++ seps ++ rest /\ normalizedPath pre fold = normalizedPath root fold /\
  forallb isSeparator seps = true /\ match rest with c :: _ => isSeparator c = false | [] => True end /\
  (rest <> [] -> seps <> [] \/ isSeparator (lastByte root) = true).

Lemma last_normalized root fold : root <> [] -> (lastByte (normalizedPath root fold) =? slash)%byte = isSeparator (lastByte root).
Proof.
  intros Hr. unfold lastByte, char_at. rewrite length_normalizedPath. unfold normalizedPath.
  rewrite (nth_indep _ _ (normalizedByte fold x00)), map_nth by (rewrite length_map; destruct root; [done|cbn; lia]). apply normalizedByte_slash.
Qed.

Lemma head_normalized p n fold : (n < length p)%nat -> (char_at (normalizedPath p fold) n =? slash)%byte = match drop n p with c :: _ => isSeparator c | [] => false end.
Proof.
  intros Hn. unfold char_at, normalizedPath. rewrite (nth_indep _ _ (normalizedByte fold x00)), map_nth by (by rewrite length_map).
  rewrite normalizedByte_slash. revert p Hn. induction n as [|n IH]; intros [|c p] Hn; cbn [length] in *; try lia; [done|]. apply (IH p). lia.
Qed.

Lemma underRoot_spec p rootIn fold rest : underRoot p rootIn fold = Some rest <-> under p rootIn fold rest.
Proof.
  unfold underRoot, under. cbv zeta. set (root := rootForm rootIn). rewrite !length_normalizedPath.
  destruct (Nat.eqb_spec (length root) 0) as [H0|H0]; cbn [orb].
  { split; [done|]. intros [Hne _]. by destruct root. }
  assert (Hroot : root <> []) by (by destruct root).
  destruct (Nat.ltb_spec (length p) (length root)) as [H1|H1]; cbn [orb].
  { split; [done|]. intros (_ & pre & seps & -> & Hpre & _). apply (f_equal length) in Hpre. rewrite !length_normalizedPath in Hpre. rewrite length_app in H1. lia. }
  assert (Etake : take (length root) (normalizedPath p fold) = normalizedPath (take (length root) p) fold) by apply firstn_map.
  rewrite Etake. case_bool_decide as Hpre; cbn [negb].
  2:{ split; [done|]. intros (_ & pre & seps & -> & E & _). destruct Hpre. pose proof (f_equal length E) as El. rewrite !length_normalizedPath in El. by rewrite <- El, take_app_length. }
  destruct (Nat.eqb_spec (length p) (length root)) as [H2|H2].
  { split.
    - intros [= <-]. split; [done|]. exists p, []. rewrite take_ge in Hpre by lia. by rewrite app_nil_r.
    - intros (_ & pre & seps & -> & E & _). apply (f_equal length) in E. rewrite !length_normalizedPath in E. rewrite !length_app in H2. destruct rest; [done|cbn in H2; lia]. }
  rewrite last_normalized, head_normalized by (done || lia).
  assert (Hdrop : forall pre seps, p = pre ++ seps ++ rest -> normalizedPath pre fold = normalizedPath root fold -> drop (length root) p = seps ++ rest).
  { intros pre seps -> E. apply (f_equal length) in E. rewrite !length_normalizedPath in E. by rewrite <- E, drop_app_length. }
  destruct (negb (isSeparator (lastByte root)) && negb match drop (length root) p with c :: _ => isSeparator c | [] => false end) eqn:E3.
  - apply andb_prop in E3 as [E3 E4]. apply negb_true_iff in E3, E4. split; [done|]. intros (_ & pre & seps & Ep & E & Hs & Hr & Hsep).
    pose proof (Hdrop _ _ Ep E) as Hd. assert (Hl : length (drop (length root) p) <> 0%nat) by (rewrite length_drop; lia). rewrite Hd in E4, Hl.
    destruct seps as [|c seps].
    + destruct rest; [by cbn in Hl|]. destruct Hsep as [Hsep|Hsep]; [done|done|congruence].
    + cbn in Hs, E4. rewrite E4 in Hs. done.
  - destruct (dropSeparators_spec (drop (length root) p)) as (seps & Eseps & Hs & Hd). split.
    + intros [= <-]. split; [done|]. exists (take (length root) p), seps. rewrite <- Eseps, take_drop. do 4 (split; [done|]).
      intros _. destruct (isSeparator (lastByte root)); [by right|left]. cbn [negb andb] in E3. intros ->. cbn [app] in Eseps. rewrite <- Eseps in Hd.
      assert (Hl : length (drop (length root) p) <> 0%nat) by (rewrite length_drop; lia). destruct (drop (length root) p); [done|]. by rewrite Hd in E3.
    + intros (_ & pre & seps' & Ep & E & Hs' & Hr & _). f_equal. rewrite (Hdrop _ _ Ep E). by apply dropSeparators_app.
Qed.

(** The sides of a translation. *)
Definition from_ (m : PathMapping) (toRemote : bool) : bytes := if toRemote then local m else remote m.
Definition to_ (m : PathMapping) (toRemote : bool) : bytes := if toRemote then remote m else local m.

Definition covers (m : PathMapping) (p : bytes) (toRemote : bool) (rest : bytes) : Prop :=
  under p (from_ m toRemote) (windowsLike (from_ m toRemote)) rest.

Definition rootLength (toRemote : bool) (m : PathMapping) : nat := length (rootForm (from_ m toRemote)).

(** The answer of the loop: the first of the longest roots that cover [p], if one is longer
    than the best before, else that best. *)
Lemma translateFrom_spec maps p dir best out :
  let longest := exists ms1 m ms2 rest, maps = ms1 ++ m :: ms2 /\ covers m p dir rest /\
    translateFrom maps p dir best out = Some (joinUnder (to_ m dir) rest) /\
    (out <> None -> (best < rootLength dir m)%nat) /\
    (forall m' r, In m' ms1 -> covers m' p dir r -> (rootLength dir m' < rootLength dir m)%nat) /\
    (forall m' r, In m' ms2 -> covers m' p dir r -> (rootLength dir m' <= rootLength dir m)%nat) in
  longest \/ (translateFrom maps p dir best out = out /\
    forall m' r, In m' maps -> covers m' p dir r -> out <> None /\ (rootLength dir m' <= best)%nat).
Proof.
  revert best out. induction maps as [|m maps IH]; intros best out; cbn zeta; [right; by split|].
  cbn [translateFrom]. fold (from_ m dir) (to_ m dir).
  destruct (underRoot p (from_ m dir) (windowsLike (from_ m dir))) as [rest|] eqn:Eu.
  - apply underRoot_spec in Eu. fold (covers m p dir rest) in Eu. fold (rootLength dir m).
    destruct ((if out is Some _ then true else false) && (rootLength dir m <=? best)%nat) eqn:Eb.
    + apply andb_prop in Eb as [Eo Eb]. apply Nat.leb_le in Eb.
      destruct (IH best out) as [(ms1 & x & ms2 & r & -> & Hx & -> & Hb & H1 & H2)|[-> Hn]].
      * left. exists (m :: ms1), x, ms2, r. split_and!; try done. intros m' r' [->|Hin] Hc; [|by eapply H1].
        assert (out <> None) as Ho%Hb by (by destruct out). lia.
      * right. split; [done|]. intros m' r' [->|Hin] Hc; [|by eapply Hn]. split; [by destruct out|lia].
    + destruct (IH (rootLength dir m) (Some (joinUnder (to_ m dir) rest))) as [(ms1 & x & ms2 & r & -> & Hx & -> & Hb & H1 & H2)|[-> Hn]].
      * left. specialize (Hb ltac:(done)). exists (m :: ms1), x, ms2, r. split_and!; try done.
        -- intros Ho. destruct out; [|done]. cbn in Eb. apply Nat.leb_gt in Eb. lia.
        -- intros m' r' [->|Hin] Hc; [done|by eapply H1].
      * left. exists [], m, maps, rest. split_and!; try done.
        -- intros Ho. destruct out; [|done]. cbn in Eb. apply Nat.leb_gt in Eb. lia.
        -- intros m' r' Hin Hc. by eapply Hn.
  - assert (Hno : forall r, ~ covers m p dir r) by (intros r Hc%underRoot_spec; congruence).
    destruct (IH best out) as [(ms1 & x & ms2 & r & -> & Hx & -> & Hb & H1 & H2)|[-> Hn]].
    + left. exists (m :: ms1), x, ms2, r. split_and!; try done. intros m' r' [->|Hin] Hc; [by apply Hno in Hc|by eapply H1].
    + right. split; [done|]. intros m' r' [->|Hin] Hc; [by apply Hno in Hc|by eapply Hn].
Qed.

(** ** A path there and back *)

Definition styled (sep : byte) (rest : bytes) : bytes := map (fun c => if isSeparator c then sep else c) rest.

Definition sepOf (rootIn : bytes) : byte := if windowsLike (rootForm rootIn) then backslash else slash.

Lemma sepOf_sep r : isSeparator (sepOf r) = true.
Proof. unfold sepOf. by destruct (windowsLike _). Qed.

Definition headPlain (rest : bytes) : Prop := match rest with c :: _ => isSeparator c = false | [] => True end.

Lemma styled_head sep rest : headPlain rest -> headPlain (styled sep rest).
Proof. destruct rest as [|c rest]; [done|]. cbn. intros Hc. by rewrite Hc. Qed.

Lemma styled_styled a b rest : isSeparator a = true -> styled b (styled a rest) = styled b rest.
Proof.
  intros Ha. unfold styled. rewrite map_map. apply map_ext. intros c. destruct (isSeparator c) eqn:E; [by rewrite Ha|by rewrite E].
Qed.

Lemma joinUnder_styled r sep rest : isSeparator sep = true -> joinUnder r (styled sep rest) = joinUnder r rest.
Proof.
  intros Hs. unfold joinUnder. fold (sepOf r). fold (styled (sepOf r) (styled sep rest)) (styled (sepOf r) rest). by rewrite styled_styled.
Qed.

Lemma under_join r fold rest : r <> [] -> headPlain rest -> under (joinUnder r rest) r fold (styled (sepOf r) rest).
Proof.
  intros Hr Hh. unfold under, joinUnder. fold (sepOf r). fold (styled (sepOf r) rest). split; [by apply rootForm_ne|].
  apply (styled_head (sepOf r)) in Hh. destruct (styled (sepOf r) rest) as [|c s] eqn:Es.
  - exists (rootForm r), []. by rewrite !app_nil_r.
  - destruct (isSeparator (lastByte (rootForm r))) eqn:El.
    + exists (rootForm r), []. split_and!; try done. by right.
    + exists (rootForm r), [sepOf r]. split_and!; try done; [cbn; by rewrite sepOf_sep|]. by left.
Qed.

(** A path is translated by the first of the longest roots it lies under: it is that
    root's other side followed by the rest, in that side's own style; under no root it has
    no translation. Lying under is by whole names, whatever separators either is written
    with, and whatever its case when the root is a Windows one. And a client's path under
    the root of a mapping goes to the adapter's side and comes back as it was, up to the
    separators of the root's style. *)
Theorem paths_translated maps p toRemote :
  match translatePath maps p toRemote with
  | Some q => exists ms1 m ms2 rest, maps = ms1 ++ m :: ms2 /\ covers m p toRemote rest /\ q = joinUnder (to_ m toRemote) rest /\
      (forall m' r, In m' ms1 -> covers m' p toRemote r -> (rootLength toRemote m' < rootLength toRemote m)%nat) /\
      (forall m' r, In m' ms2 -> covers m' p toRemote r -> (rootLength toRemote m' <= rootLength toRemote m)%nat)
  | None => forall m r, In m maps -> ~ covers m p toRemote r
  end /\
  (forall m rest, local m <> [] -> remote m <> [] -> headPlain rest ->
     translatePath [m] (joinUnder (local m) rest) true = Some (joinUnder (remote m) rest) /\
     translatePath [m] (joinUnder (remote m) rest) false = Some (joinUnder (local m) rest)).
Proof.
  split.
  - unfold translatePath. destruct (translateFrom_spec maps p toRemote 0 None) as [(ms1 & m & ms2 & rest & -> & Hm & -> & _ & H1 & H2)|[-> Hn]].
    + by exists ms1, m, ms2, rest.
    + intros m r Hin Hc. by destruct (Hn m r Hin Hc).
  - intros m rest Hl Hr Hh. unfold translatePath. cbn [translateFrom].
    pose proof (under_join (local m) (windowsLike (local m)) rest Hl Hh) as Ul%underRoot_spec.
    pose proof (under_join (remote m) (windowsLike (remote m)) rest Hr Hh) as Ur%underRoot_spec.
    rewrite Ul, Ur. cbn [andb]. by rewrite !joinUnder_styled by apply sepOf_sep.
Qed.
