(* ===== verification/DapServer.v ===== *)
(** The debugger (dap/DapServer.cpp): what a thread of the program does when it enters a
    line or throws, how it stops, answers and goes on, and what the protocol thread does
    with a request. Each step is one block under the server's lock, one access of an atomic,
    one message written, or a thread's own work between them, so that the steps of a run
    are those of its threads interleaved. *)

From S2P Require Import Prelude Utf8 Lexer Regex DapStdio DapText.

#[local] Set Warnings "-register-all".

(** ** Data *)

Record LineBreakpoint := mkBreakpoint {
  condition : bytes;
  hit : HitCondition;
  logMessage : bytes;
  isLog : bool;
  hits : Z;
}.

#[export] Instance LocalVar_eq_dec : EqDecision LocalVar.
Proof. solve_decision. Defined.
#[export] Instance DebugInfo_eq_dec : EqDecision DebugInfo.
Proof. solve_decision. Defined.

(** The lines of a source with a breakpoint, as of a generation. *)
Record BreakpointLines := mkLines { lgen : Z; llines : list Z }.

Inductive StepKind := SNone | SIn | SOver | SOut.
Inductive Resume := RContinue | RStepIn | RStepOver | RStepOut.
Inductive stopReason := Entry | Pause | Step | Breakpoint | Exception.

Record ExceptionStop := mkExceptionStop {
  typeName : bytes;
  message : bytes;
  description : bytes;
  breakMode : bytes;
  stackTrace : bytes;
}.

Inductive body :=
| BNone
| BThreads (threads : list (Z * bytes))
| BException (ex : ExceptionStop)
| BBreakpoints (bound : list (bool * Z * bytes))
| BFilters (filters : list (bool * bytes))
| BNotStopped
| BInspected.

Inductive event :=
| EStopped (reason : stopReason) (threadId : Z) (ex : option ExceptionStop) (description : bytes)
| EThread (started : bool) (threadId : Z)
| EOutput (text : bytes)
| ETerminated
| EExited (exitCode : Z).

(** What is written to the client; [req] is the sequence number of the request answered. *)
Inductive sending :=
| Response (req : Z) (b : body)
| ErrorResponse (req : Z) (text : bytes)
| Event (e : event).

(** Where a thread is in [onLine], [onThrow] and [stop]; [fs] is its chain of frames, the
    innermost first. *)
Inductive stage :=
| Running
| AtEntry (fs : list DebugFrame)
| AtAny (fs : list DebugFrame) (entry : bool)
| AtPauseLoad (fs : list DebugFrame) (entry : bool)
| AtEntryExchange (fs : list DebugFrame) (entry : bool)
| AtPauseExchange (fs : list DebugFrame)
| AtStep (fs : list DebugFrame)
| AtAnyAgain (fs : list DebugFrame)
| AtGeneration (fs : list DebugFrame)
| AtLines (fs : list DebugFrame) (gen : Z)
| AtLineSet (fs : list DebugFrame) (gen : Z)
| AtBreakpoint (fs : list DebugFrame)
| AtCondition (fs : list DebugFrame) (bp : LineBreakpoint)
| AtCount (fs : list DebugFrame) (bp : LineBreakpoint)
| AtPasses (fs : list DebugFrame) (bp : LineBreakpoint) (count : Z)
| AtThrow (fs : list DebugFrame) (ex : ExceptionStop) (caught : bool)
| AtFilters (fs : list DebugFrame) (ex : ExceptionStop) (caught raised uncaught : bool)
| AtFilter (fs : list DebugFrame) (ex : ExceptionStop) (caught raised uncaught : bool) (raisedCond uncaughtCond : bytes)
| Telling (told : sending) (next : stage)
| Stopping (fs : list DebugFrame) (reason : stopReason) (ex : option ExceptionStop) (description : bytes)
| Waiting (fs : list DebugFrame)
| Answering (fs : list DebugFrame) (req : Z)
| Resuming (fs : list DebugFrame)
| Refusing (late : list Z).

Record ThreadState := mkThread {
  tname : bytes;
  isMain : bool;
  pauseRequested : bool;
  stepKind : StepKind;
  stepDepth : Z;
  stepFromLibrary : bool;
  stopped : bool;
  resumeReady : bool;
  resume : Resume;
  requests : list Z;
  hasException : bool;
  exception : option ExceptionStop;
  linesGen : Z;
  lineCache : list (DebugInfo * BreakpointLines);
  at_ : stage;
}.

(** The inspection requests: stackTrace, scopes, variables and evaluate name a thread, or,
    without a frame, the one that stopped last. *)
Inductive inspected := OfThread (id : Z) | OfLastStopped.
Inductive inspection := IStackTrace | IScopes | IVariables | IEvaluate.

(** A breakpoint the client sets: its line, condition, hit condition and log message. *)
Record clientBreakpoint := mkClient { cline : Z; ccondition : bytes; chit : bytes; clog : option bytes }.

Inductive request :=
| QSetBreakpoints (path : bytes) (source : option bytes) (wanted : list clientBreakpoint)
| QSetExceptionBreakpoints (filters : list (bytes * bytes))
| QConfigurationDone
| QThreads
| QResume (r : Resume) (threadId : Z)
| QPause (threadId : Z)
| QExceptionInfo (threadId : Z)
| QInspect (what : inspection) (whom : inspected)
| QDisconnect
| QOther.

(** Where the protocol thread is: the block of [setBreakpoints] is three stages, since the
    atomics it stores are read without the lock. Once the client has gone it closes, and
    then ends the process when the program still runs. *)
Inductive readerStage :=
| Reading
| Writing (msgs : list sending) (next : readerStage)
| Arming (path : bytes) (armed : gmap Z LineBreakpoint) (next : readerStage)
| StoringAny (next : readerStage)
| Bumping (next : readerStage)
| Filtering (raised uncaught : bool) (raisedCond uncaughtCond : bytes) (next : readerStage)
| StoringRaised (raised uncaught : bool) (next : readerStage)
| StoringUncaught (uncaught : bool) (next : readerStage)
| StoringEntry (next : readerStage)
| Configuring
| Queueing (what : inspection) (req : Z) (threadId : Z)
| Disconnecting
| Closing
| Exiting
| Ended.

Record server := mkServer {
  breakpoints : gmap bytes (gmap Z LineBreakpoint);
  anyBreakpoints : bool;
  entryPending : bool;
  bpGen : Z;
  exRaised : bool;
  exUncaught : bool;
  exRaisedCondition : bytes;
  exUncaughtCondition : bytes;
  threads : gmap Z ThreadState;
  mainSeen : bool;
  nextThreadId : Z;
  actorWorkers : Z;
  lastStopped : Z;
  configDone : bool;
  disconnected : bool;
  justMyCode : bool;
  program : bytes;
  reader : readerStage;
  leaving : list Z;
  sent : list sending;
  programRuns : bool;
  parting : list event;
}.

(** *** Updates *)

Definition goto (st : stage) (t : ThreadState) : ThreadState :=
  mkThread (tname t) (isMain t) (pauseRequested t) (stepKind t) (stepDepth t) (stepFromLibrary t) (stopped t)
    (resumeReady t) (resume t) (requests t) (hasException t) (exception t) (linesGen t) (lineCache t) st.

Definition setPause (b : bool) (t : ThreadState) : ThreadState :=
  mkThread (tname t) (isMain t) b (stepKind t) (stepDepth t) (stepFromLibrary t) (stopped t)
    (resumeReady t) (resume t) (requests t) (hasException t) (exception t) (linesGen t) (lineCache t) (at_ t).

Definition setStepping (k : StepKind) (depth : Z) (fromLibrary : bool) (t : ThreadState) : ThreadState :=
  mkThread (tname t) (isMain t) (pauseRequested t) k depth fromLibrary (stopped t)
    (resumeReady t) (resume t) (requests t) (hasException t) (exception t) (linesGen t) (lineCache t) (at_ t).

Definition setStop (isStopped ready : bool) (hasEx : bool) (ex : option ExceptionStop) (t : ThreadState) : ThreadState :=
  mkThread (tname t) (isMain t) (pauseRequested t) (stepKind t) (stepDepth t) (stepFromLibrary t) isStopped
    ready (resume t) (requests t) hasEx ex (linesGen t) (lineCache t) (at_ t).

Definition setResume (r : Resume) (t : ThreadState) : ThreadState :=
  mkThread (tname t) (isMain t) (pauseRequested t) (stepKind t) (stepDepth t) (stepFromLibrary t) (stopped t)
    true r (requests t) (hasException t) (exception t) (linesGen t) (lineCache t) (at_ t).

Definition setRequests (rs : list Z) (t : ThreadState) : ThreadState :=
  mkThread (tname t) (isMain t) (pauseRequested t) (stepKind t) (stepDepth t) (stepFromLibrary t) (stopped t)
    (resumeReady t) (resume t) rs (hasException t) (exception t) (linesGen t) (lineCache t) (at_ t).

Definition setCache (gen : Z) (cache : list (DebugInfo * BreakpointLines)) (t : ThreadState) : ThreadState :=
  mkThread (tname t) (isMain t) (pauseRequested t) (stepKind t) (stepDepth t) (stepFromLibrary t) (stopped t)
    (resumeReady t) (resume t) (requests t) (hasException t) (exception t) gen cache (at_ t).

Definition setThreads (ts : gmap Z ThreadState) (s : server) : server :=
  mkServer (breakpoints s) (anyBreakpoints s) (entryPending s) (bpGen s) (exRaised s) (exUncaught s) (exRaisedCondition s)
    (exUncaughtCondition s) ts (mainSeen s) (nextThreadId s) (actorWorkers s) (lastStopped s) (configDone s)
    (disconnected s) (justMyCode s) (program s) (reader s) (leaving s) (sent s) (programRuns s) (parting s).

Definition setThread (id : Z) (t : ThreadState) (s : server) : server := setThreads (<[id := t]> (threads s)) s.

Definition setEntry (b : bool) (s : server) : server :=
  mkServer (breakpoints s) (anyBreakpoints s) b (bpGen s) (exRaised s) (exUncaught s) (exRaisedCondition s)
    (exUncaughtCondition s) (threads s) (mainSeen s) (nextThreadId s) (actorWorkers s) (lastStopped s) (configDone s)
    (disconnected s) (justMyCode s) (program s) (reader s) (leaving s) (sent s) (programRuns s) (parting s).

Definition setBreakpointTable (bps : gmap bytes (gmap Z LineBreakpoint)) (any : bool) (gen : Z) (s : server) : server :=
  mkServer bps any (entryPending s) gen (exRaised s) (exUncaught s) (exRaisedCondition s)
    (exUncaughtCondition s) (threads s) (mainSeen s) (nextThreadId s) (actorWorkers s) (lastStopped s) (configDone s)
    (disconnected s) (justMyCode s) (program s) (reader s) (leaving s) (sent s) (programRuns s) (parting s).

Definition setFilters (raised uncaught : bool) (raisedCond uncaughtCond : bytes) (s : server) : server :=
  mkServer (breakpoints s) (anyBreakpoints s) (entryPending s) (bpGen s) raised uncaught raisedCond
    uncaughtCond (threads s) (mainSeen s) (nextThreadId s) (actorWorkers s) (lastStopped s) (configDone s)
    (disconnected s) (justMyCode s) (program s) (reader s) (leaving s) (sent s) (programRuns s) (parting s).

Definition setCounters (main : bool) (next workers : Z) (s : server) : server :=
  mkServer (breakpoints s) (anyBreakpoints s) (entryPending s) (bpGen s) (exRaised s) (exUncaught s) (exRaisedCondition s)
    (exUncaughtCondition s) (threads s) main next workers (lastStopped s) (configDone s)
    (disconnected s) (justMyCode s) (program s) (reader s) (leaving s) (sent s) (programRuns s) (parting s).

Definition setSession (last : Z) (config gone : bool) (s : server) : server :=
  mkServer (breakpoints s) (anyBreakpoints s) (entryPending s) (bpGen s) (exRaised s) (exUncaught s) (exRaisedCondition s)
    (exUncaughtCondition s) (threads s) (mainSeen s) (nextThreadId s) (actorWorkers s) last config
    gone (justMyCode s) (program s) (reader s) (leaving s) (sent s) (programRuns s) (parting s).

Definition setReader (r : readerStage) (s : server) : server :=
  mkServer (breakpoints s) (anyBreakpoints s) (entryPending s) (bpGen s) (exRaised s) (exUncaught s) (exRaisedCondition s)
    (exUncaughtCondition s) (threads s) (mainSeen s) (nextThreadId s) (actorWorkers s) (lastStopped s) (configDone s)
    (disconnected s) (justMyCode s) (program s) r (leaving s) (sent s) (programRuns s) (parting s).

Definition setLeaving (ids : list Z) (s : server) : server :=
  mkServer (breakpoints s) (anyBreakpoints s) (entryPending s) (bpGen s) (exRaised s) (exUncaught s) (exRaisedCondition s)
    (exUncaughtCondition s) (threads s) (mainSeen s) (nextThreadId s) (actorWorkers s) (lastStopped s) (configDone s)
    (disconnected s) (justMyCode s) (program s) (reader s) ids (sent s) (programRuns s) (parting s).

Definition setProgram (runs : bool) (events : list event) (s : server) : server :=
  mkServer (breakpoints s) (anyBreakpoints s) (entryPending s) (bpGen s) (exRaised s) (exUncaught s) (exRaisedCondition s)
    (exUncaughtCondition s) (threads s) (mainSeen s) (nextThreadId s) (actorWorkers s) (lastStopped s) (configDone s)
    (disconnected s) (justMyCode s) (program s) (reader s) (leaving s) (sent s) runs events.

(** A message written to the transport. *)
Definition send (m : sending) (s : server) : server :=
  mkServer (breakpoints s) (anyBreakpoints s) (entryPending s) (bpGen s) (exRaised s) (exUncaught s) (exRaisedCondition s)
    (exUncaughtCondition s) (threads s) (mainSeen s) (nextThreadId s) (actorWorkers s) (lastStopped s) (configDone s)
    (disconnected s) (justMyCode s) (program s) (reader s) (leaving s) (sent s ++ [m]) (programRuns s) (parting s).

(** ** A thread of the program *)

(** What running an expression in the frame says of a condition. *)
Inductive evaluation := Truthy | Falsy | Fails (error : bytes).

Definition isLibrary (fs : list DebugFrame) : bool := match fs with f :: _ => library (info f) | [] => false end.

Definition depthOf (fs : list DebugFrame) : Z := Z.of_nat (length fs).

(** The table's key of a source. *)
Definition sourceKey (s : server) (source : bytes) : bytes :=
  if bool_decide (source = program s) then pathKey (program s) else pathKey source.

Definition linesOf (s : server) (source : bytes) : list Z :=
  match breakpoints s !! sourceKey s source with Some m => map fst (map_to_list m) | None => [] end.

(** What the thread's cache holds for a source; an entry not there yet is empty. *)
Fixpoint cached (d : DebugInfo) (cache : list (DebugInfo * BreakpointLines)) : BreakpointLines :=
  match cache with
  | [] => mkLines 0 []
  | (x, e) :: cache => if decide (x = d) then e else cached d cache
  end.

Definition breakpointOn (s : server) (f : DebugFrame) : option LineBreakpoint :=
  m ← breakpoints s !! sourceKey s (dsource (info f)); m !! fline f.

(** [countHit]: the count after this hit, kept in the table. *)
Definition countHit (s : server) (f : DebugFrame) : Z * server :=
  let key := sourceKey s (dsource (info f)) in
  match breakpoints s !! key with
  | None => (1, s)
  | Some m =>
      match m !! fline f with
      | None => (1, s)
      | Some bp =>
          let bp' := mkBreakpoint (condition bp) (hit bp) (logMessage bp) (isLog bp) (hits bp + 1) in
          (hits bp + 1, setBreakpointTable (<[key := <[fline f := bp']> m]> (breakpoints s)) (anyBreakpoints s) (bpGen s) s)
      end
  end.

Definition isNone (k : StepKind) : bool := match k with SNone => true | _ => false end.

(** Whether a step of the thread ends on this line. *)
Definition stepEnds (t : ThreadState) (fs : list DebugFrame) (skipLibrary : bool) : bool :=
  if isNone (stepKind t) || (skipLibrary && negb (stepFromLibrary t)) then false
  else match stepKind t with
       | SNone => false
       | SIn => true
       | SOver => depthOf fs <=? stepDepth t
       | SOut => depthOf fs <? stepDepth t
       end.

Definition conditionFailed (condition error : bytes) : bytes :=
  s2b "breakpoint condition `" ++ condition ++ s2b "` failed: " ++ error.

Definition filterFailed (condition error : bytes) : bytes :=
  s2b "exception breakpoint condition `" ++ condition ++ s2b "` failed: " ++ error.

(** A filter's condition: whether the filter stops, and what is wrong with it. *)
Definition filterPasses (cond : bytes) (e : evaluation) : bool * bytes :=
  match cond with
  | [] => (true, [])
  | _ => match e with Truthy => (true, []) | Falsy => (false, []) | Fails error => (true, filterFailed cond error) end
  end.

(** The frames [onThrow] shows: with [justMyCode] none of clojure.core's innermost ones. *)
Fixpoint dropLibrary (fs : list DebugFrame) : list DebugFrame :=
  match fs with f :: fs' => if library (info f) then dropLibrary fs' else fs | [] => [] end.

Definition withMode (mode : bytes) (ex : ExceptionStop) : ExceptionStop :=
  mkExceptionStop (typeName ex) (message ex) (description ex) mode (stackTrace ex).

(** What the program's side brings to a step: how the conditions evaluate, the text of
    each expression of a log message. *)
Record outside := mkOutside { first_ : evaluation; second_ : evaluation; texts : bytes -> bytes + bytes }.

Definition told (reason : stopReason) (id : Z) (ex : option ExceptionStop) (desc : bytes) : sending :=
  Event (EStopped reason id ex desc).

(** The filters of a throw, the uncaught one asked only when the first does not stop. *)
Definition filterDecides (o : outside) (caught raised uncaught : bool) (raisedCond uncaughtCond : bytes) : option (bytes * bytes) :=
  let '(pass1, error1) := filterPasses raisedCond (first_ o) in
  if raised && pass1 then Some (s2b "always", error1)
  else if uncaught && negb caught then
    let '(pass2, error2) := filterPasses uncaughtCond (second_ o) in
    if pass2 then Some (s2b "userUnhandled", error2) else None
  else None.

(** A step of thread [id] in [onLine], [onThrow] or [stop]. *)
Definition threadStep (id : Z) (t : ThreadState) (o : outside) (s : server) : option server :=
  let go st s := Some (setThread id (goto st t) s) in
  match at_ t with
  | Running => None
  | Telling m next => go next (send m s)
  | AtEntry fs => go (AtAny fs (isMain t && entryPending s)) s
  | AtAny fs entry =>
      if negb (anyBreakpoints s) && isNone (stepKind t) then go (AtPauseLoad fs entry) s
      else go (AtEntryExchange fs entry) s
  | AtPauseLoad fs entry =>
      if negb (pauseRequested t) && negb entry then go Running s else go (AtEntryExchange fs entry) s
  | AtEntryExchange fs entry =>
      if entry && negb (isLibrary fs) then
        if entryPending s then go (Stopping fs Entry None []) (setEntry false s) else go (AtPauseExchange fs) s
      else go (AtPauseExchange fs) s
  | AtPauseExchange fs =>
      if negb (isLibrary fs && justMyCode s) then
        Some (setThread id (goto (if pauseRequested t then Stopping fs Pause None [] else AtStep fs) (setPause false t)) s)
      else go (AtStep fs) s
  | AtStep fs =>
      go (if stepEnds t fs (isLibrary fs && justMyCode s) then Stopping fs Step None [] else AtAnyAgain fs) s
  | AtAnyAgain fs => go (if anyBreakpoints s then AtGeneration fs else Running) s
  | AtGeneration fs =>
      match fs with
      | [] => go Running s
      | f :: _ =>
          let gen := bpGen s in
          let cache := if linesGen t =? gen then lineCache t else [] in
          let next := if lgen (cached (info f) cache) =? gen then AtLineSet fs gen else AtLines fs gen in
          Some (setThread id (goto next (setCache gen cache t)) s)
      end
  | AtLines fs gen =>
      match fs with
      | [] => go Running s
      | f :: _ =>
          let e := mkLines gen (linesOf s (dsource (info f))) in
          Some (setThread id (goto (AtLineSet fs gen) (setCache (linesGen t) ((info f, e) :: lineCache t) t)) s)
      end
  | AtLineSet fs gen =>
      match fs with
      | [] => go Running s
      | f :: _ => go (if existsb (fun l => l =? fline f) (llines (cached (info f) (lineCache t))) then AtBreakpoint fs else Running) s
      end
  | AtBreakpoint fs =>
      match fs with
      | [] => go Running s
      | f :: _ => go (match breakpointOn s f with Some bp => AtCondition fs bp | None => Running end) s
      end
  | AtCondition fs bp =>
      match condition bp with
      | [] => go (AtCount fs bp) s
      | c =>
          match first_ o with
          | Truthy => go (AtCount fs bp) s
          | Falsy => go Running s
          | Fails error =>
              go (Telling (Event (EOutput (conditionFailed c error ++ [x0a])))
                          (Stopping fs Breakpoint None (conditionFailed c error))) s
          end
      end
  | AtCount fs bp =>
      match fs with
      | [] => go Running s
      | f :: _ => let '(n, s) := countHit s f in go (AtPasses fs bp n) s
      end
  | AtPasses fs bp n =>
      if negb (passes (hit bp) n) then go Running s
      else if isLog bp then go (Telling (Event (EOutput (interpolate (texts o) (logMessage bp) ++ [x0a]))) Running) s
      else go (Stopping fs Breakpoint None []) s
  | AtThrow fs ex caught =>
      if negb (exRaised s) && negb (exUncaught s) then go Running s
      else go (AtFilters fs ex caught (exRaised s) (exUncaught s)) s
  | AtFilters fs ex caught raised uncaught =>
      match (if justMyCode s then dropLibrary fs else fs) with
      | [] => go Running s
      | shown => go (AtFilter shown ex caught raised uncaught (exRaisedCondition s) (exUncaughtCondition s)) s
      end
  | AtFilter fs ex caught raised uncaught raisedCond uncaughtCond =>
      match filterDecides o caught raised uncaught raisedCond uncaughtCond with
      | None => go Running s
      | Some (mode, error) =>
          let stopping := Stopping fs Exception (Some (withMode mode ex)) error in
          go (match error with [] => stopping | _ => Telling (Event (EOutput (error ++ [x0a]))) stopping end) s
      end
  | Stopping fs reason ex desc =>
      if disconnected s then go Running s
      else
        let t := setStepping SNone (stepDepth t) (stepFromLibrary t) (setStop true false (if ex is Some _ then true else false) (match ex with Some _ => ex | None => exception t end) t) in
        Some (setSession id (configDone s) (disconnected s) (setThread id (goto (Telling (told reason id ex desc) (Waiting fs)) t) s))
  | Waiting fs =>
      match requests t with
      | req :: rest => Some (setThread id (goto (Answering fs req) (setRequests rest t)) s)
      | [] => if resumeReady t || disconnected s then go (Resuming fs) s else None
      end
  | Answering fs req => go (Waiting fs) (send (Response req BInspected) s)
  | Resuming fs =>
      let r := if disconnected s then RContinue else resume t in
      let k := match r with RContinue => SNone | RStepIn => SIn | RStepOver => SOver | RStepOut => SOut end in
      let t' := setStepping k (depthOf fs) (isLibrary fs) (setRequests [] (setStop false (resumeReady t) false (exception t) t)) in
      Some (setThread id (goto (Refusing (requests t)) t') s)
  | Refusing late =>
      match late with
      | [] => go Running s
      | req :: late => go (Refusing late) (send (ErrorResponse req (s2b "the thread is running")) s)
      end
  end.

(** A thread's registration, on its first line or throw; [kind] is empty for a thread that
    is none of the runtime's own. *)
Definition registerThread (kind : bytes) (fs : list DebugFrame) (start : stage) (s : server) : option server :=
  let make id name main st := mkThread name main false SNone 0 false false false RContinue [] false None 0 [] st in
  let begin id name main s :=
    Some (setThread id (make id name main (Telling (Event (EThread true id)) start)) s) in
  match kind with
  | [] =>
      if negb (mainSeen s) then begin 1 (s2b "main") true (setCounters true (nextThreadId s) (actorWorkers s) s)
      else
        let id := nextThreadId s in
        begin id (s2b "thread-" ++ to_string id) false (setCounters (mainSeen s) (id + 1) (actorWorkers s) s)
  | _ =>
      let id := nextThreadId s in
      if bool_decide (kind = s2b "actor") then
        let n := actorWorkers s + 1 in
        begin id (s2b "actor worker " ++ to_string n) false (setCounters (mainSeen s) (id + 1) n s)
      else
        let name :=
          match fs with
          | f :: _ =>
              let line := if fline f =? 0 then dline (info f) else fline f in
              kind ++ s2b "@" ++ baseName (dsource (info f)) ++ s2b ":" ++ to_string line
          | [] => kind
          end in
        begin id name false (setCounters (mainSeen s) (id + 1) (actorWorkers s) s)
  end.

(** ** The protocol thread *)

(** One breakpoint of [setBreakpoints]: what is armed, and what the client is told. *)
Definition bindBreakpoint (readable : bool) (candidates : list Z) (armed : gmap Z LineBreakpoint) (c : clientBreakpoint)
  : gmap Z LineBreakpoint * (bool * Z * bytes) * list sending :=
  match lowerBound candidates (cline c) with
  | None =>
      (armed, (false, cline c, if readable then s2b "no form starts on or after this line"
                               else s2b "the adapter cannot read this source"), [])
  | Some line =>
      match hitParse (chit c) with
      | inr problem => (armed, (false, line, problem), [])
      | inl h =>
          let cond := trimmed (ccondition c) in
          let spec := mkBreakpoint cond h (default [] (clog c)) (if clog c is Some _ then true else false) 0 in
          let problem := match cond with [] => [] | _ => default [] (syntaxProblem cond) end in
          match problem with
          | [] => (<[line := spec]> armed, (true, line, []), [])
          | _ =>
              let text := conditionFailed cond problem in
              (<[line := spec]> armed, (true, line, text), [Event (EOutput (text ++ [x0a]))])
          end
      end
  end.

Fixpoint bindAll (readable : bool) (candidates : list Z) (armed : gmap Z LineBreakpoint) (wanted : list clientBreakpoint)
  : gmap Z LineBreakpoint * list (bool * Z * bytes) * list sending :=
  match wanted with
  | [] => (armed, [], [])
  | c :: wanted =>
      let '(armed, r, out) := bindBreakpoint readable candidates armed c in
      let '(armed, rs, outs) := bindAll readable candidates armed wanted in
      (armed, r :: rs, out ++ outs)
  end.

(** The table with the breakpoints of a source replaced. *)
Definition replaceSource (path : bytes) (armed : gmap Z LineBreakpoint) (table : gmap bytes (gmap Z LineBreakpoint))
  : gmap bytes (gmap Z LineBreakpoint) :=
  if bool_decide (armed = ∅) then delete (pathKey path) table else <[pathKey path := armed]> table.

(** A filter of [setExceptionBreakpoints], and its condition. *)
Definition takeFilter (f : bytes * bytes) (acc : (bool * bool * bytes * bytes) * list (bool * bytes) * list sending)
  : (bool * bool * bytes * bytes) * list (bool * bytes) * list sending :=
  let '(raised, uncaught, rc, uc, results, outs) := acc in
  let '(name, cond) := f in
  let cond' := trimmed cond in
  let isRaised := bool_decide (name = s2b "raised") in
  let isUncaught := bool_decide (name = s2b "userUnhandled") in
  let state := ((raised || isRaised, uncaught || isUncaught, if isRaised then cond' else rc), if isUncaught then cond' else uc) in
  if negb (isRaised || isUncaught) then (state, results ++ [(false, s2b "unknown filter " ++ name)], outs)
  else
    match (match cond' with [] => [] | _ => default [] (syntaxProblem cond) end) with
    | [] => (state, results ++ [(true, [])], outs)
    | problem =>
        let text := filterFailed cond' problem in
        (state, results ++ [(true, text)], outs ++ [Event (EOutput (text ++ [x0a]))])
    end.

Definition filtersOf (fs : list (bytes * bytes)) := fold_left (fun acc f => takeFilter f acc) fs ((false, false, [], []), [], []).

(** [continue], [next], [stepIn] and [stepOut] of a stopped thread not yet told to go on. *)
Definition resumeThread (id : Z) (r : Resume) (s : server) : server :=
  match threads s !! id with
  | Some t => if stopped t && negb (resumeReady t) then setThread id (setResume r t) s else s
  | None => s
  end.

(** [queueFor]: the request goes to a stopped thread, which answers it. *)
Definition queueFor (id : Z) (req : Z) (s : server) : option server :=
  match threads s !! id with
  | Some t => if stopped t && negb (resumeReady t) then Some (setThread id (setRequests (requests t ++ [req]) t) s) else None
  | None => None
  end.

(** The answer to an inspection of a thread that is not stopped. *)
Definition notStopped (what : inspection) (req : Z) : sending :=
  match what with IEvaluate => ErrorResponse req (s2b "evaluate: the thread is not stopped") | _ => Response req BNotStopped end.

(** The threads in the order of their ids. *)
Fixpoint insertThread (e : Z * ThreadState) (es : list (Z * ThreadState)) : list (Z * ThreadState) :=
  match es with
  | [] => [e]
  | x :: more => if fst e <? fst x then e :: es else x :: insertThread e more
  end.

Definition byId (ts : gmap Z ThreadState) : list (Z * ThreadState) := foldr insertThread [] (map_to_list ts).

(** The thread an inspection without a frame is for: the one that stopped last, if it still
    is, else the first that is. *)
Definition lastStoppedThread (s : server) : Z :=
  if (match threads s !! lastStopped s with Some t => stopped t | None => false end) then lastStopped s
  else match List.filter (fun e => stopped (snd e)) (byId (threads s)) with e :: _ => fst e | [] => lastStopped s end.

Definition pauseAll (s : server) : server := setThreads (setPause true <$> threads s) s.

(** [handle], up to its first message or its first block under the lock, which is made with
    it. *)
Definition handle (req : Z) (q : request) (s : server) : server :=
  let reply b := Writing [Response req b] Reading in
  match q with
  | QSetBreakpoints path source wanted =>
      let candidates := match path, source with _ :: _, Some text => default [] (formLines text) | _, _ => [] end in
      let readable := match path, source with _ :: _, Some _ => true | _, _ => false end in
      let '(armed, bound, outs) := bindAll readable candidates ∅ wanted in
      setReader (Writing outs (Arming path armed (reply (BBreakpoints bound)))) s
  | QSetExceptionBreakpoints filters =>
      let '(raised, uncaught, rc, uc, results, outs) := filtersOf filters in
      setReader (Writing outs (Filtering raised uncaught rc uc (reply (BFilters results)))) s
  | QConfigurationDone => setReader (Writing [Response req BNone] Configuring) s
  | QThreads =>
      let list := map (fun e => (fst e, tname (snd e))) (byId (threads s)) in
      setReader (reply (BThreads (match list with [] => [(1, s2b "main")] | _ => list end))) s
  | QResume r id => setReader (reply BNone) (resumeThread id r s)
  | QPause id =>
      match threads s !! id with
      | Some t => setReader (reply BNone) (setThread id (setPause true t) s)
      | None =>
          if bool_decide (threads s = ∅) then setReader (StoringEntry (reply BNone)) s
          else setReader (reply BNone) (pauseAll s)
      end
  | QExceptionInfo id =>
      let no := Writing [ErrorResponse req (s2b "exceptionInfo: the thread is not stopped on an exception")] Reading in
      match threads s !! id with
      | Some t =>
          match exception t with
          | Some ex => setReader (if stopped t && hasException t then reply (BException ex) else no) s
          | None => setReader no s
          end
      | None => setReader no s
      end
  | QInspect what (OfThread id) => setReader (Queueing what req id) s
  | QInspect what OfLastStopped => setReader (Queueing what req (lastStoppedThread s)) s
  | QDisconnect => setReader (Writing [Response req BNone] Disconnecting) s
  | QOther => setReader (reply BNone) s
  end.

(** A step of the protocol thread within a request, or after the last one. *)
Definition readerStep (s : server) : option server :=
  match reader s with
  | Reading | Exiting | Ended => None
  | Writing [] next => Some (setReader next s)
  | Writing (m :: ms) next => Some (setReader (Writing ms next) (send m s))
  | Arming path armed next =>
      Some (setReader (StoringAny next)
             (setBreakpointTable (replaceSource path armed (breakpoints s)) (anyBreakpoints s) (bpGen s) s))
  | StoringAny next =>
      Some (setReader (Bumping next)
             (setBreakpointTable (breakpoints s) (negb (bool_decide (breakpoints s = ∅))) (bpGen s) s))
  | Bumping next => Some (setReader next (setBreakpointTable (breakpoints s) (anyBreakpoints s) (bpGen s + 1) s))
  | Filtering raised uncaught rc uc next =>
      Some (setReader (StoringRaised raised uncaught next) (setFilters (exRaised s) (exUncaught s) rc uc s))
  | StoringRaised raised uncaught next =>
      Some (setReader (StoringUncaught uncaught next)
             (setFilters raised (exUncaught s) (exRaisedCondition s) (exUncaughtCondition s) s))
  | StoringUncaught uncaught next =>
      Some (setReader next (setFilters (exRaised s) uncaught (exRaisedCondition s) (exUncaughtCondition s) s))
  | StoringEntry next => Some (setReader next (setEntry true s))
  | Configuring => Some (setReader Reading (setSession (lastStopped s) true (disconnected s) s))
  | Queueing what req id =>
      match queueFor id req s with
      | Some s => Some (setReader Reading s)
      | None => Some (setReader (Writing [notStopped what req] Reading) s)
      end
  | Disconnecting => Some (setReader Closing (setSession (lastStopped s) (configDone s) true s))
  | Closing => Some (setReader (if programRuns s then Exiting else Ended) s)
  end.

(** ** Runs

    A thread's first throw has read the filters before it is registered: the label says
    what it read. [InputEnds]: the client's end of the pipe has closed. [ProgramEnds] and
    [Parts] are the main thread's, back from the program. *)

Inductive label :=
| NewThread (kind : bytes) (fs : list DebugFrame)
| EnterLine (id : Z) (fs : list DebugFrame)
| FirstThrow (kind : bytes) (fs : list DebugFrame) (ex : ExceptionStop) (caught raised uncaught : bool)
| Throws (id : Z) (fs : list DebugFrame) (ex : ExceptionStop) (caught : bool)
| Go (id : Z) (o : outside)
| Exits (id : Z)
| Left (id : Z)
| Receives (req : Z) (q : request)
| InputEnds
| ReaderGoes
| ProgramEnds (exitCode : Z)
| Parts.

Definition isRunning (t : ThreadState) : bool := match at_ t with Running => true | _ => false end.

(** A thread in the program's own code goes to a stage. *)
Definition running (id : Z) (st : stage) (s : server) : option server :=
  match threads s !! id with
  | Some t => if isRunning t then Some (setThread id (goto st t) s) else None
  | None => None
  end.

Definition exec (l : label) (s : server) : option server :=
  match l with
  | NewThread kind fs => registerThread kind fs (AtEntry fs) s
  | FirstThrow kind fs ex caught raised uncaught =>
      match (if justMyCode s then dropLibrary fs else fs) with
      | [] => None
      | shown => if raised || uncaught then registerThread kind shown (AtFilters shown ex caught raised uncaught) s else None
      end
  | EnterLine id fs => running id (AtEntry fs) s
  | Throws id fs ex caught => running id (AtThrow fs ex caught) s
  | Go id o => match threads s !! id with Some t => threadStep id t o s | None => None end
  | Exits id =>
      match threads s !! id with
      | Some t => if isRunning t then Some (setLeaving (id :: leaving s) (setThreads (delete id (threads s)) s)) else None
      | None => None
      end
  | Left id =>
      if bool_decide (id ∈ leaving s)
      then Some (send (Event (EThread false id)) (setLeaving (List.filter (fun x => negb (x =? id)) (leaving s)) s))
      else None
  | Receives req q => match reader s with Reading => Some (handle req q s) | _ => None end
  | InputEnds => match reader s with Reading => Some (setReader Closing s) | _ => None end
  | ReaderGoes => readerStep s
  | ProgramEnds rc =>
      if programRuns s && (match threads s !! 1 with Some t => isRunning t | None => true end)
      then Some (setProgram false [ETerminated; EExited rc] s)
      else None
  | Parts => match parting s with e :: es => Some (send (Event e) (setProgram (programRuns s) es s)) | [] => None end
  end.

(** The process ends when the protocol thread, the client gone, finds the program running
    ([std::_Exit]), and when the main thread, its last messages written, leaves: it has
    waited for the protocol thread, or ten seconds. *)
Inductive process := Live (s : server) | Exited.

Inductive processLabel := Step_ (l : label) | MainLeaves.

Definition execProcess (l : processLabel) (p : process) : option process :=
  match p with
  | Exited => None
  | Live s =>
      match l with
      | Step_ ReaderGoes =>
          match reader s with Exiting => Some Exited | _ => option_map Live (exec ReaderGoes s) end
      | Step_ l => option_map Live (exec l s)
      | MainLeaves => if negb (programRuns s) && (match parting s with [] => true | _ => false end) then Some Exited else None
      end
  end.

Fixpoint runsProcess (ls : list processLabel) (p : process) : option process :=
  match ls with
  | [] => Some p
  | l :: ls => match execProcess l p with Some p => runsProcess ls p | None => None end
  end.

Fixpoint runs (ls : list label) (s : server) : option server :=
  match ls with
  | [] => Some s
  | l :: ls => match exec l s with Some s => runs ls s | None => None end
  end.

(** The session when the program starts: the launched program, whether it stops on entry,
    and whether only the program's own code is shown. *)
Definition launched (program : bytes) (stopOnEntry justMyCode : bool) : server :=
  mkServer ∅ false stopOnEntry 1 false false [] [] ∅ false 2 0 0 false false justMyCode program Reading [] [] true [].
