(* ===== verification/DapServerFacts.v ===== *)
(** What the debugger promises (DapServer.v): each request is answered once, a stopped
    thread goes on when it is told to, and a line entered stops the thread exactly when the
    session says so. *)

From S2P Require Import Prelude Utf8 Lexer Regex DapStdio DapText DapServer.

#[local] Set Warnings "-register-all".

(** A state some run reaches. *)
Definition reachable (s : server) : Prop :=
  exists program stopOnEntry justMyCode ls, runs ls (launched program stopOnEntry justMyCode) = Some s.

Lemma runs_app ls ms s : runs (ls ++ ms) s = match runs ls s with Some s => runs ms s | None => None end.
Proof. revert s. induction ls as [|l ls IH]; intros s; cbn; [done|]. destruct (exec l s); [apply IH|done]. Qed.

(** An invariant of the steps holds of every state a run reaches. *)
Lemma session_inv (P : server -> Prop) ls s s' : (forall l s s', P s -> exec l s = Some s' -> P s') -> P s -> runs ls s = Some s' -> P s'.
Proof.
  intros Hstep. revert s. induction ls as [|l ls IH]; intros s Hs; cbn; [by intros [= <-]|].
  destruct (exec l s) eqn:E; [|done]. eauto.
Qed.

Lemma reachable_inv (P : server -> Prop) s : (forall p e j, P (launched p e j)) -> (forall l s s', P s -> exec l s = Some s' -> P s') ->
  reachable s -> P s.
Proof. intros H0 Hstep (p & e & j & ls & Hr). by eapply session_inv. Qed.

(** ** Requests *)

Definition answers (m : sending) : list Z := match m with Response r _ | ErrorResponse r _ => [r] | Event _ => [] end.

(** The requests the protocol thread has still to answer, or to queue. *)
Fixpoint readerOwes (r : readerStage) : list Z :=
  match r with
  | Writing ms next => flat_map answers ms ++ readerOwes next
  | Arming _ _ next | StoringAny next | Bumping next | Filtering _ _ _ _ next | StoringRaised _ _ next
  | StoringUncaught _ next | StoringEntry next => readerOwes next
  | Queueing _ req _ => [req]
  | Reading | Configuring | Disconnecting | Closing | Exiting | Ended => []
  end.

(** And those a thread has. *)
Fixpoint stageOwes (st : stage) : list Z :=
  match st with
  | Telling m next => answers m ++ stageOwes next
  | Answering _ req => [req]
  | Refusing late => late
  | _ => []
  end.

Definition threadOwes (t : ThreadState) : list Z := stageOwes (at_ t) ++ requests t.

Definition owed (ts : gmap Z ThreadState) : list Z := flat_map (fun e => threadOwes (snd e)) (map_to_list ts).

(** The stages of [stop] in which the thread is stopped. *)
Fixpoint inStop (st : stage) : bool :=
  match st with Waiting _ | Answering _ _ | Resuming _ => true | Telling _ next => inStop next | _ => false end.

(** What is true of a thread: it is stopped in its stop, and nothing waits for it outside,
    nor when it goes on; it refuses nothing. *)
Definition threadOk (gone : bool) (t : ThreadState) : Prop :=
  stopped t = inStop (at_ t) /\
  (stopped t = false -> requests t = []) /\
  match at_ t with
  | Resuming _ => requests t = [] /\ (resumeReady t = true \/ gone = true)
  | Refusing late => late = []
  | Telling m next => (exists e, m = Event e) /\
      match next with Waiting _ | Stopping _ _ _ _ | Running | AtEntry _ | AtFilters _ _ _ _ _ => True | _ => False end
  | _ => True
  end.

(** The protocol thread queues nothing once the client has gone. *)
Definition quiet (r : readerStage) : bool := match r with Closing | Exiting | Ended => true | _ => false end.


Lemma owed_lookup ts id t : ts !! id = Some t -> owed ts ≡ₚ threadOwes t ++ owed (delete id ts).
Proof. intros H. unfold owed. rewrite <- (map_to_list_delete _ _ _ H). done. Qed.

Lemma owed_insert ts id t : owed (<[id := t]> ts) ≡ₚ threadOwes t ++ owed (delete id ts).
Proof. rewrite (owed_lookup _ id t) by apply lookup_insert_eq. by rewrite delete_insert_eq. Qed.

Lemma owed_change ts id t t' : ts !! id = Some t -> threadOwes t' = threadOwes t -> owed (<[id := t']> ts) ≡ₚ owed ts.
Proof. intros Ht E. by rewrite owed_insert, (owed_lookup _ _ _ Ht), E. Qed.

Lemma owed_pause ts : owed (setPause true <$> ts) = owed ts.
Proof. unfold owed. rewrite map_to_list_fmap. induction (map_to_list ts) as [|[i t] l IH]; cbn; [done|]. by rewrite IH. Qed.

Definition refusal (m : sending) : Prop := exists r, m = ErrorResponse r (s2b "the thread is running").

(** What the ids of threads come from. *)
Definition counters (s : server) : Z * bool := (nextThreadId s, mainSeen s).

(** What a step of a thread leaves. *)
Definition stepped (id : Z) (t : ThreadState) (s s' : server) : Prop :=
  exists t' msgs, threads s' = <[id := t']> (threads s) /\ sent s' = sent s ++ msgs /\ reader s' = reader s /\
  disconnected s' = disconnected s /\ counters s' = counters s /\
  (threadOk (disconnected s) t -> threadOk (disconnected s) t' /\ flat_map answers msgs ++ threadOwes t' ≡ₚ threadOwes t /\
     Forall (fun m => ~ refusal m) msgs).

(** A step of the thread's own, which sends nothing. *)
Definition silent (s s1 : server) : Prop :=
  threads s1 = threads s /\ sent s1 = sent s /\ reader s1 = reader s /\ disconnected s1 = disconnected s /\ counters s1 = counters s.

Lemma stepped_silent id t t' s s1 : silent s s1 ->
  (threadOk (disconnected s) t -> threadOk (disconnected s) t' /\ threadOwes t' = threadOwes t) -> stepped id t s (setThread id t' s1).
Proof.
  intros (E1 & E2 & E3 & E4 & E5) H. exists t', []. cbn. rewrite app_nil_r, E1. split_and!; try done.
  intros [Hok ->]%H. by split_and!.
Qed.

Definition plainStage (st : stage) : Prop :=
  stageOwes st = [] /\ inStop st = false /\
  match st with
  | Resuming _ | Refusing _ => False
  | Telling m next => (exists e, m = Event e) /\ match next with Stopping _ _ _ _ | Running | AtEntry _ | AtFilters _ _ _ _ _ => True | _ => False end
  | _ => True
  end.

(** To another stage outside the stop. *)
Lemma stepped_plain id t t1 s s1 st : silent s s1 -> plainStage (at_ t) \/ at_ t = Refusing [] -> plainStage st ->
  stopped t1 = stopped t -> requests t1 = requests t -> stepped id t s (setThread id (goto st t1) s1).
Proof.
  intros Hs H0 (Ho & Hi & Hst) E1 E2. apply stepped_silent; [done|]. unfold threadOk, threadOwes. cbn.
  assert (stageOwes (at_ t) = [] /\ inStop (at_ t) = false) as [-> ->] by (destruct H0 as [(? & ? & _)| ->]; done).
  rewrite Ho, Hi, E1, E2. intros (H1 & H2 & _). split; [|done]. split; [done|]. split; [done|]. destruct st; try done. destruct Hst as [? ?]. split; [done|]. by destruct st.
Qed.

Lemma silent_refl s : silent s s.
Proof. done. Qed.

Lemma silent_countHit s f : silent s (snd (countHit s f)).
Proof.
  unfold countHit. destruct (breakpoints s !! sourceKey s (dsource (info f))) as [m|]; [|done]. by destruct (m !! fline f).
Qed.

Ltac plain_step Et :=
  repeat case_match; intros [= <-]; (apply stepped_plain; [by auto using silent_refl|rewrite Et; by left|by repeat split; eauto|done|done]).

Lemma threadStep_stepped id t o s s' : threadStep id t o s = Some s' -> stepped id t s s'.
Proof.
  unfold threadStep. destruct (at_ t) as [| | | | | | | | | | | | | |fs bp n| | |fs ex caught raised uncaught rc uc|m next|fs reason ex desc|fs|fs req|fs|late] eqn:Et;
    try (plain_step Et; fail).
  - destruct fs as [|f fs]; [plain_step Et|]. pose proof (silent_countHit s f) as Hs. destruct (countHit s f) as [n s1].
    intros [= <-]. apply stepped_plain; [done|rewrite Et; by left|by repeat split; eauto|done|done].
  - intros [= <-]. exists (goto next t), [m]. cbn. split_and!; try done. unfold threadOk, threadOwes. cbn. rewrite Et. cbn.
    intros (H1 & H2 & [e ->] & H3). split_and!; [done|done|by destruct next|done|]. constructor; [|done]. by intros [r [=]].
  - destruct (disconnected s) eqn:Eg; [plain_step Et|]. intros [= <-]. eexists _, []. cbn. rewrite app_nil_r. split_and!; try done.
    unfold threadOk, threadOwes. cbn. rewrite Et. cbn. intros (H1 & H2 & _). split_and!; eauto.
  - destruct (requests t) as [|req rest] eqn:Er.
    + destruct (resumeReady t || disconnected s) eqn:Eb; [|done]. intros [= <-]. apply stepped_silent; [done|].
      unfold threadOk, threadOwes. cbn. rewrite Et, Er. cbn. intros (H1 & H2 & _). split_and!; try done. by apply orb_true_iff.
    + intros [= <-]. apply stepped_silent; [done|]. unfold threadOk, threadOwes. cbn. rewrite Et, Er. cbn. intros (H1 & H2 & _). split_and!; try done.
      rewrite H1. done.
  - intros [= <-]. exists (goto (Waiting fs) t), [Response req BInspected]. cbn. split_and!; try done. unfold threadOk, threadOwes. cbn. rewrite Et. cbn.
    intros (H1 & H2 & _). split_and!; try done. constructor; [|done]. by intros [r [=]].
  - intros [= <-]. apply stepped_silent; [done|]. unfold threadOk, threadOwes. cbn. rewrite Et. cbn. intros (H1 & H2 & Hn & _). rewrite Hn. by split_and!.
  - destruct late as [|req late].
    + intros [= <-]. apply stepped_plain; [done|rewrite Et; by right|by repeat split; eauto|done|done].
    + intros [= <-]. eexists _, [_]. cbn. split_and!; try done. unfold threadOk. rewrite Et. by intros (_ & _ & [=]).
Qed.

(** *** Every step keeps the account *)

(** The messages the protocol thread is about to write. *)
Fixpoint readerMsgs (r : readerStage) : list sending :=
  match r with
  | Writing ms next => ms ++ readerMsgs next
  | Arming _ _ next | StoringAny next | Bumping next | Filtering _ _ _ _ next | StoringRaised _ _ next
  | StoringUncaught _ next | StoringEntry next => readerMsgs next
  | _ => []
  end.

Record accounted (s : server) : Prop := mkAccounted {
  threadsOk : map_Forall (fun _ t => threadOk (disconnected s) t) (threads s);
  goneOk : disconnected s = true -> quiet (reader s) = true;
  idsOk : map_Forall (fun id _ => 1 <= id < nextThreadId s /\ (id = 1 -> mainSeen s = true)) (threads s);
  nextOk : 2 <= nextThreadId s;
  refusesNone : Forall (fun m => ~ refusal m) (sent s ++ readerMsgs (reader s));
}.

(** What was answered, and what is still to be. *)
Definition account (s : server) : list Z := flat_map answers (sent s) ++ readerOwes (reader s) ++ owed (threads s).

Definition receivedBy (l : label) : list Z := match l with Receives r _ => [r] | _ => [] end.

Lemma fresh_thread id t s : threads s !! id = None -> threadOwes t = [] ->
  owed (<[id := t]> (threads s)) ≡ₚ owed (threads s).
Proof. intros Hn Ho. by rewrite owed_insert, Ho, delete_id. Qed.

Lemma go_accounted id t o s s' : accounted s -> threads s !! id = Some t -> threadStep id t o s = Some s' ->
  accounted s' /\ account s' ≡ₚ account s.
Proof.
  intros [H1 H2 H3 H4 H5] Ht Hs. apply threadStep_stepped in Hs as (t' & msgs & Et & Es & Er & Ed & Ec & Hok).
  injection Ec as En Em. destruct (Hok (H1 _ _ Ht)) as (Hok' & Hp & Hr). split.
  - constructor.
    + rewrite Et, Ed. by apply map_Forall_insert_2.
    + by rewrite Ed, Er.
    + rewrite Et, En, Em. apply map_Forall_insert_2; [exact (H3 _ _ Ht)|done].
    + by rewrite En.
    + rewrite Es, Er, <- app_assoc. apply Forall_app in H5 as [H5 H6]. apply Forall_app. split; [done|]. by apply Forall_app.
  - unfold account. rewrite Et, Es, Er, flat_map_app, owed_insert, (owed_lookup _ _ _ Ht), <- Hp. rewrite <- !app_assoc. apply Permutation_app_head.
    rewrite !app_assoc. apply Permutation_app_tail. rewrite <- !app_assoc. apply Permutation_app_swap_app.
Qed.

Lemma registered_accounted kind fs st s s' : accounted s ->
  match st with AtEntry _ | AtFilters _ _ _ _ _ => True | _ => False end ->
  registerThread kind fs st s = Some s' -> accounted s' /\ account s' ≡ₚ account s.
Proof.
  intros [H1 H2 H3 H4 H5] Hst.
  assert (Hnext : threads s !! nextThreadId s = None).
  { destruct (threads s !! nextThreadId s) eqn:E; [|done]. apply H3 in E as [E _]. lia. }
  assert (Hgen : forall id name main workers m n, threads s !! id = None -> 1 <= id < n -> nextThreadId s <= n ->
    (mainSeen s = true -> m = true) -> (id = 1 -> m = true) ->
    let t := mkThread name main false SNone 0 false false false RContinue [] false None 0 [] (Telling (Event (EThread true id)) st) in
    let s1 := setThread id t (setCounters m n workers s) in accounted s1 /\ account s1 ≡ₚ account s).
  { intros id name main workers m n Hid Hr Hn Hm H1m t s1.
    assert (Ht : threadOk (disconnected s) t) by (unfold threadOk; cbn; destruct st; try done; eauto 10).
    assert (Ho : threadOwes t = []) by (by destruct st). split.
    - constructor; cbn; [by apply map_Forall_insert_2|done| |lia|done].
      apply map_Forall_insert_2; [done|]. intros i x Hx. apply H3 in Hx as [? Hx]. split; [lia|auto].
    - unfold account. cbn. by rewrite fresh_thread. }
  unfold registerThread. destruct kind as [|c kind].
  - destruct (mainSeen s) eqn:Em; cbn [negb]; intros [= <-].
    + apply Hgen; try done || lia.
    + apply Hgen; try done || lia. destruct (threads s !! 1) eqn:E; [|done]. apply H3 in E as [_ E]. specialize (E eq_refl). congruence.
  - case_bool_decide; intros [= <-]; apply Hgen; try done || lia; intros; lia.
Qed.

Lemma running_accounted id st s s' : accounted s -> match st with AtEntry _ | AtThrow _ _ _ => True | _ => False end ->
  running id st s = Some s' -> accounted s' /\ account s' ≡ₚ account s.
Proof.
  intros [H1 H2 H3 H4 H5] Hst. unfold running. destruct (threads s !! id) as [t|] eqn:Et; [|done].
  unfold isRunning. destruct (at_ t) eqn:Ea; try done. intros [= <-].
  assert (Hs : stageOwes st = [] /\ inStop st = false) by (by destruct st). destruct Hs as [Hs Hi].
  pose proof (H1 _ _ Et) as (G1 & G2 & _). rewrite Ea in G1. split.
  - constructor; cbn; [|done| |done|done].
    + apply map_Forall_insert_2; [|done]. unfold threadOk. cbn. rewrite Hi. split_and!; [done|done|by destruct st].
    + apply map_Forall_insert_2; [exact (H3 _ _ Et)|done].
  - unfold account. cbn. rewrite (owed_change _ _ t); [done|done|]. unfold threadOwes. cbn. by rewrite Ea, Hs.
Qed.

Definition isEvent (m : sending) : Prop := exists e, m = Event e.

Lemma events_answers ms : Forall isEvent ms -> flat_map answers ms = [].
Proof. induction 1 as [|m ms [e ->] _ IH]; [done|exact IH]. Qed.

Lemma events_none ms : Forall isEvent ms -> Forall (fun m => ~ refusal m) ms.
Proof. intros H. eapply Forall_impl; [exact H|]. intros m [e ->] [r [=]]. Qed.

Lemma bindAll_events readable lines armed wanted armed' bound outs :
  bindAll readable lines armed wanted = (armed', bound, outs) -> Forall isEvent outs.
Proof.
  revert armed armed' bound outs. induction wanted as [|c wanted IH]; intros armed armed' bound outs; cbn [bindAll]; [by intros [= _ _ <-]|].
  destruct (bindBreakpoint readable lines armed c) as [[a r] out] eqn:Eb. destruct (bindAll readable lines a wanted) as [[a' rs] outs'] eqn:Ea.
  intros [= _ _ <-]. apply Forall_app. split; [|by eapply IH]. unfold bindBreakpoint in Eb.
  repeat case_match; injection Eb as _ _ <-; repeat constructor; by eexists.
Qed.

Lemma filters_events fs acc state results outs : fold_left (fun acc f => takeFilter f acc) fs acc = (state, results, outs) ->
  Forall isEvent (snd acc) -> Forall isEvent outs.
Proof.
  revert acc. induction fs as [|[name cond] fs IH]; intros [[st rs] os]; cbn [fold_left snd]; [by intros [= _ _ <-]|].
  intros Hf Hos. eapply IH in Hf; [exact Hf|]. unfold takeFilter. destruct st as [[[raised uncaught] rc] uc].
  repeat case_match; cbn [snd]; try done; apply Forall_app; (split; [done|repeat constructor; by eexists]).
Qed.

(** A change that is not of the threads' accounts. *)
Lemma kept_accounted s ts r : accounted s -> disconnected s = false ->
  (forall id t, ts !! id = Some t -> exists t0, threads s !! id = Some t0 /\ (threadOk false t0 -> threadOk false t) /\ threadOwes t = threadOwes t0) ->
  Forall (fun m => ~ refusal m) (readerMsgs r) ->
  forall s', threads s' = ts -> sent s' = sent s -> reader s' = r -> disconnected s' = false -> counters s' = counters s -> accounted s'.
Proof.
  intros [H1 H2 H3 H4 H5] Hg Hts Hr s' E1 E2 E3 E4 [= E5 E6]. constructor.
  - rewrite E1, E4. intros id t Ht. destruct (Hts _ _ Ht) as (t0 & H0 & Hok & _). apply Hok. rewrite <- Hg. exact (H1 _ _ H0).
  - congruence.
  - rewrite E1, E5, E6. intros id t Ht. destruct (Hts _ _ Ht) as (t0 & H0 & _). exact (H3 _ _ H0).
  - by rewrite E5.
  - rewrite E2, E3. apply Forall_app. split; [by apply Forall_app in H5 as [H5 _]|done].
Qed.

Lemma same_threads s : forall id t, threads s !! id = Some t ->
  exists t0, threads s !! id = Some t0 /\ (threadOk false t0 -> threadOk false t) /\ threadOwes t = threadOwes t0.
Proof. intros id t Ht. by exists t. Qed.

Lemma one_thread s id t t' : threads s !! id = Some t -> (threadOk false t -> threadOk false t') -> threadOwes t' = threadOwes t ->
  forall i x, <[id := t']> (threads s) !! i = Some x ->
  exists t0, threads s !! i = Some t0 /\ (threadOk false t0 -> threadOk false x) /\ threadOwes x = threadOwes t0.
Proof.
  intros Ht Hok Ho i x. destruct (decide (i = id)) as [->|Hi].
  - rewrite lookup_insert_eq. intros [= <-]. by exists t.
  - rewrite lookup_insert_ne by done. intros Hx. by exists x.
Qed.

Lemma resumed_ok r t : stopped t = true -> resumeReady t = false -> threadOk false t -> threadOk false (setResume r t).
Proof.
  intros Hs Hr. unfold threadOk. cbn. intros (H1 & H2 & H3). split_and!; [done|done|]. destruct (at_ t); try done.
  destruct H3 as [H3 _]. split; [done|by left].
Qed.

Ltac not_refused := repeat constructor; intros [? [=]].

Lemma handle_accounted req q s : accounted s -> reader s = Reading ->
  accounted (handle req q s) /\ account (handle req q s) ≡ₚ req :: account s.
Proof.
  intros Hs Hr. assert (Hg : disconnected s = false).
  { destruct (disconnected s) eqn:E; [|done]. pose proof (goneOk s Hs E) as Hq. by rewrite Hr in Hq. }
  assert (Hacc : forall s', owed (threads s') ≡ₚ owed (threads s) -> sent s' = sent s -> readerOwes (reader s') = [req] -> account s' ≡ₚ req :: account s).
  { intros s' E1 E2 E3. unfold account. rewrite E1, E2, E3, Hr. cbn. by rewrite <- Permutation_middle. }
  assert (Hkeep : forall r, readerOwes r = [req] -> Forall (fun m => ~ refusal m) (readerMsgs r) ->
            accounted (setReader r s) /\ account (setReader r s) ≡ₚ req :: account s).
  { intros r Ho Hm. split; [|by apply Hacc]. by eapply (kept_accounted s (threads s) r Hs Hg (same_threads s) Hm). }
  destruct q as [path source wanted|filters| | |r id|id|id|what whom| |]; cbn [handle]; cbv zeta.
  - destruct (bindAll _ _ _ _) as [[armed bound] outs] eqn:Eb. apply bindAll_events in Eb. apply Hkeep; cbn.
    + by rewrite events_answers.
    + apply Forall_app. split; [by apply events_none|not_refused].
  - destruct (filtersOf filters) as [[[[[raised uncaught] rc] uc] results] outs] eqn:Ef. eapply filters_events in Ef; [|done]. apply Hkeep; cbn.
    + by rewrite events_answers.
    + apply Forall_app. split; [by apply events_none|not_refused].
  - apply Hkeep; [done|not_refused].
  - apply Hkeep; [done|not_refused].
  - unfold resumeThread. destruct (threads s !! id) as [t|] eqn:Et; [|apply Hkeep; [done|not_refused]].
    destruct (stopped t) eqn:Est; cbn [andb]; [|apply Hkeep; [done|not_refused]].
    destruct (resumeReady t) eqn:Err; cbn [negb]; [apply Hkeep; [done|not_refused]|].
    split; [|apply Hacc; [by apply (owed_change _ _ _ _ Et)|done|done]].
    eapply (kept_accounted s _ _ Hs Hg (one_thread s id t (setResume r t) Et (resumed_ok r t Est Err) eq_refl)); try done. not_refused.
  - destruct (threads s !! id) as [t|] eqn:Et.
    + split; [|apply Hacc; [by apply (owed_change _ _ _ _ Et)|done|done]].
      eapply (kept_accounted s _ _ Hs Hg (one_thread s id t (setPause true t) Et ltac:(done) eq_refl)); try done. not_refused.
    + case_bool_decide; [apply Hkeep; [done|not_refused]|].
      split; [|apply Hacc; [cbn; by rewrite owed_pause|done|done]].
      eapply (kept_accounted s (setPause true <$> threads s) (Writing [Response req BNone] Reading) Hs Hg); try done; [|not_refused].
      intros i x. rewrite lookup_fmap. destruct (threads s !! i) as [t|] eqn:Ei; [|done]. intros [= <-]. by exists t.
  - repeat case_match; (apply Hkeep; [done|not_refused]).
  - destruct whom; (apply Hkeep; [done|not_refused]).
  - apply Hkeep; [done|not_refused].
  - apply Hkeep; [done|not_refused].
Qed.

Ltac kept_reader Hs Hg Hm :=
  eapply kept_accounted; [exact Hs|exact Hg|apply same_threads| |reflexivity|reflexivity|reflexivity|exact Hg|reflexivity]; exact Hm.

Lemma queued_ok req t : stopped t = true -> resumeReady t = false -> threadOk false t -> threadOk false (setRequests (requests t ++ [req]) t).
Proof.
  intros Hs Hr. unfold threadOk. cbn. intros (H1 & H2 & H3). split_and!; [done|congruence|]. destruct (at_ t); try done.
  destruct H3 as [_ [H3|H3]]; congruence.
Qed.

Lemma reader_accounted s s' : accounted s -> readerStep s = Some s' -> accounted s' /\ account s' ≡ₚ account s.
Proof.
  intros Hs. assert (Hcases : reader s = Closing \/ reader s <> Closing) by (destruct (reader s); (by left) || by right). destruct Hcases as [Ec|Hc].
  { unfold readerStep. rewrite Ec. intros [= <-]. destruct Hs as [H1 H2 H3 H4 H5]. split.
    - constructor; cbn; try done; [by destruct (programRuns s)|]. rewrite Ec in H5. by destruct (programRuns s).
    - unfold account. cbn. rewrite Ec. by destruct (programRuns s). }
  unfold readerStep. destruct (reader s) as [|msgs next|path armed next|next|next|raised uncaught rc uc next|raised uncaught next|uncaught next|next| |what req id| | | |] eqn:Er;
    try done; assert (Hg : disconnected s = false) by (destruct (disconnected s) eqn:E; [|done]; pose proof (goneOk s Hs E) as Hq; by rewrite Er in Hq);
    assert (Hm := refusesNone s Hs); apply Forall_app in Hm as [Hsent Hm]; rewrite Er in Hm; cbn [readerMsgs] in Hm.
  2-8: intros [= <-]; split; [kept_reader Hs Hg Hm|unfold account; cbn; by rewrite Er].
  - destruct msgs as [|m ms]; intros [= <-].
    + split; [kept_reader Hs Hg Hm|unfold account; cbn; by rewrite Er].
    + cbn [app] in Hm. split.
      * destruct Hs as [H1 H2 H3 H4 H5]. constructor; cbn; try done; [congruence|]. rewrite <- app_assoc. apply Forall_app. by split.
      * unfold account. cbn. rewrite Er. cbn. rewrite flat_map_app. cbn. by rewrite app_nil_r, <- !app_assoc.
  - intros [= <-]. split; [kept_reader Hs Hg Hm|unfold account; cbn; by rewrite Er].
  - destruct (queueFor id req s) as [s1|] eqn:Eq; intros [= <-].
    + unfold queueFor in Eq. destruct (threads s !! id) as [t|] eqn:Et; [|done]. destruct (stopped t) eqn:Est; [|done]. destruct (resumeReady t) eqn:Err; [done|].
      injection Eq as <-. destruct Hs as [H1 H2 H3 H4 H5]. rewrite Hg in H1. split.
      * constructor; cbn.
        -- rewrite Hg. apply map_Forall_insert_2; [|done]. apply queued_ok; [done|done|exact (H1 _ _ Et)].
        -- congruence.
        -- apply map_Forall_insert_2; [exact (H3 _ _ Et)|done].
        -- done.
        -- by rewrite app_nil_r.
      * unfold account. cbn. rewrite Er, owed_insert, (owed_lookup _ _ _ Et). cbn [readerOwes]. unfold threadOwes. cbn.
        apply Permutation_app_head. rewrite <- !app_assoc. rewrite (app_assoc (stageOwes (at_ t))). cbn [app]. by rewrite <- Permutation_middle, <- app_assoc.
    + split; [|unfold account; cbn; rewrite Er; by destruct what].
      eapply (kept_accounted s (threads s) (Writing [notStopped what req] Reading) Hs Hg (same_threads s)); try done.
      destruct what; not_refused.
  - intros [= <-]. destruct Hs as [H1 H2 H3 H4 H5]. rewrite Hg in H1. split.
    + constructor; cbn; try done; [|by rewrite app_nil_r].
      intros id t Ht. destruct (H1 _ _ Ht) as (G1 & G2 & G3). split_and!; [done|done|]. destruct (at_ t); try done. destruct G3 as [G3 _]. split; [done|by right].
    + unfold account. cbn. by rewrite Er.
Qed.

Lemma exec_accounted l s s' : accounted s -> exec l s = Some s' -> accounted s' /\ account s' ≡ₚ receivedBy l ++ account s.
Proof.
  intros Hs. destruct l as [kind fs|id fs|kind fs ex caught raised uncaught|id fs ex caught|id o|id|id|req q| | |rc|]; cbn [exec receivedBy app].
  - by apply registered_accounted.
  - by apply running_accounted.
  - destruct (if justMyCode s then dropLibrary fs else fs); [done|]. destruct (_ || _); [|done]. by apply registered_accounted.
  - by apply running_accounted.
  - destruct (threads s !! id) eqn:Et; [|done]. by eapply go_accounted.
  - destruct (threads s !! id) as [t|] eqn:Et; [|done]. unfold isRunning. destruct (at_ t) eqn:Ea; try done. intros [= <-].
    destruct Hs as [H1 H2 H3 H4 H5]. split.
    + constructor; cbn; [by apply map_Forall_delete|done|by apply map_Forall_delete|done|done].
    + unfold account. cbn. rewrite (owed_lookup _ _ _ Et). destruct (H1 _ _ Et) as (G1 & G2 & _). unfold threadOwes. rewrite Ea in *. cbn.
      by rewrite G2.
  - case_bool_decide; [|done]. intros [= <-]. destruct Hs as [H1 H2 H3 H4 H5]. split.
    + constructor; cbn; try done. rewrite <- app_assoc. apply Forall_app in H5 as [H5 H6]. apply Forall_app. split; [done|]. apply Forall_app. split; [not_refused|done].
    + unfold account. cbn. by rewrite flat_map_app, <- app_assoc.
  - destruct (reader s) eqn:Er; try done. intros [= <-]. by apply handle_accounted.
  - destruct (reader s) eqn:Er; try done. intros [= <-]. destruct Hs as [H1 H2 H3 H4 H5]. rewrite Er in H5. split.
    + by constructor.
    + unfold account. cbn. by rewrite Er.
  - by apply reader_accounted.
  - destruct (_ && _); [|done]. intros [= <-]. by destruct Hs.
  - destruct (parting s) as [|e es]; [done|]. intros [= <-]. destruct Hs as [H1 H2 H3 H4 H5]. split.
    + constructor; cbn; try done. rewrite <- app_assoc. apply Forall_app in H5 as [H5 H6]. apply Forall_app. split; [done|]. apply Forall_app. split; [not_refused|done].
    + unfold account. cbn. by rewrite flat_map_app, <- app_assoc.
Qed.

Lemma accounted_launched p e j : accounted (launched p e j).
Proof. constructor; cbn; try done; apply map_Forall_empty. Qed.

Lemma reachable_accounted s : reachable s -> accounted s.
Proof.
  apply reachable_inv; [apply accounted_launched|]. intros l s1 s2 Hs He. by destruct (exec_accounted l s1 s2 Hs He).
Qed.

Lemma runs_account ls s s' : accounted s -> runs ls s = Some s' -> account s' ≡ₚ flat_map receivedBy ls ++ account s.
Proof.
  revert s. induction ls as [|l ls IH]; intros s Hs; cbn [runs flat_map]; [by intros [= <-]|].
  destruct (exec l s) as [s1|] eqn:E; [|done]. destruct (exec_accounted l s s1 Hs E) as [Hs1 Hp]. intros Hr.
  rewrite (IH s1 Hs1 Hr), Hp, !app_assoc. apply Permutation_app_tail, Permutation_app_comm.
Qed.

Lemma idle_owes_none s id t : accounted s -> threads s !! id = Some t -> stopped t = false -> threadOwes t = [].
Proof.
  intros Hs Ht Hn. destruct (threadsOk s Hs _ _ Ht) as (H1 & H2 & H3). unfold threadOwes. rewrite (H2 Hn), Hn in *. clear H2.
  destruct (at_ t) as [| | | | | | | | | | | | | | | | | |m next| | | | |late]; try done; cbn in *; [|by subst].
  destruct H3 as [[e ->] H3]. cbn. by destruct next.
Qed.

(** C19. Each request is answered once: at any moment of any run the requests received are,
    each once, those answered, by a response or an error, those the protocol thread is
    about to answer or to queue, and those a stopped thread has. A thread that is not
    stopped has none, and none is refused because its thread runs. *)
Theorem requests_answered program stopOnEntry justMyCode ls s : runs ls (launched program stopOnEntry justMyCode) = Some s ->
  flat_map answers (sent s) ++ readerOwes (reader s) ++ owed (threads s) ≡ₚ flat_map receivedBy ls /\
  (forall id t, threads s !! id = Some t -> stopped t = false -> threadOwes t = []) /\
  Forall (fun m => ~ refusal m) (sent s).
Proof.
  intros Hr. pose proof (runs_account _ _ _ (accounted_launched program stopOnEntry justMyCode) Hr) as Hp.
  assert (Hs : accounted s) by (apply reachable_accounted; by do 4 eexists).
  split; [unfold account in Hp; cbn in Hp; by rewrite app_nil_r in Hp|]. split.
  - intros id t Ht Hn. by apply (idle_owes_none s id t).
  - pose proof (refusesNone s Hs) as H. by apply Forall_app in H as [H _].
Qed.

(** ** Going on *)

(** The thread's own steps lead from a state to another. *)
Definition goes (id : Z) (o : outside) (s s' : server) : Prop := exists n, runs (replicate n (Go id o)) s = Some s'.

Lemma goes_refl id o s : goes id o s s.
Proof. by exists 0%nat. Qed.

Lemma goes_step id o t s s1 s2 : threads s !! id = Some t -> threadStep id t o s = Some s1 -> goes id o s1 s2 -> goes id o s s2.
Proof. intros Ht Hs [n Hn]. exists (S n). cbn. by rewrite Ht, Hs. Qed.

Lemma setThread_again id t1 t2 s : setThread id t2 (setThread id t1 s) = setThread id t2 s.
Proof. unfold setThread, setThreads. cbn. by rewrite insert_insert_eq. Qed.

Lemma setThread_here id t s : threads (setThread id t s) !! id = Some t.
Proof. apply lookup_insert_eq. Qed.

(** The frames the thread stopped in. *)
Fixpoint stopFrames (st : stage) : list DebugFrame :=
  match st with Waiting fs | Answering fs _ | Resuming fs => fs | Telling _ next => stopFrames next | _ => [] end.

Definition stepOf (r : Resume) : StepKind :=
  match r with RContinue => SNone | RStepIn => SIn | RStepOver => SOver | RStepOut => SOut end.

(** Where a resumed thread goes: back to the program's code, its step set, its requests
    answered. *)
Definition resumed (id : Z) (o : outside) (t : ThreadState) (fs : list DebugFrame) (more : list Z) (s : server) : Prop :=
  exists s' t', goes id o s s' /\ threads s' = <[id := t']> (threads s) /\ at_ t' = Running /\
  stepKind t' = stepOf (if disconnected s then RContinue else resume t) /\ stepDepth t' = depthOf fs /\
  stepFromLibrary t' = isLibrary fs /\ flat_map answers (sent s') = flat_map answers (sent s) ++ more /\
  reader s' = reader s.

Lemma resuming_resumed id o s t fs : threads s !! id = Some t -> at_ t = Resuming fs -> requests t = [] -> resumed id o t fs [] s.
Proof.
  intros Ht Ha Hr. eexists _, _. split.
  { eapply goes_step; [exact Ht|unfold threadStep; rewrite Ha, Hr; reflexivity|].
    eapply goes_step; [apply setThread_here|reflexivity|]. rewrite setThread_again. apply goes_refl. }
  cbn. rewrite app_nil_r. by split_and!.
Qed.

Lemma waiting_resumed id o s t fs rs : threads s !! id = Some t -> at_ t = Waiting fs -> requests t = rs ->
  resumeReady t || disconnected s = true -> resumed id o t fs rs s.
Proof.
  revert s t. induction rs as [|r rs IH]; intros s t Ht Ha Hr Hready.
  - destruct (resuming_resumed id o (setThread id (goto (Resuming fs) t) s) (goto (Resuming fs) t) fs) as (s' & t' & Hg & Et & H);
      [apply setThread_here|done|done|]. exists s', t'. split; [|split; [|exact H]].
    + eapply goes_step; [exact Ht|unfold threadStep; by rewrite Ha, Hr, Hready|exact Hg].
    + rewrite Et. cbn. apply insert_insert_eq.
  - set (t2 := goto (Waiting fs) (setRequests rs t)). set (s2 := setThread id t2 (send (Response r BInspected) s)).
    destruct (IH s2 t2) as (s' & t' & Hg & Et & H1 & H2 & H3 & H4 & H5 & H6); [apply setThread_here|done|done|done|].
    exists s', t'. split; [|split; [|split_and!; try done]].
    + eapply goes_step; [exact Ht|unfold threadStep; rewrite Ha, Hr; reflexivity|].
      eapply goes_step; [apply setThread_here|reflexivity|].
      assert (E : setThread id t2 (send (Response r BInspected) (setThread id (goto (Answering fs r) (setRequests rs t)) s)) = s2)
        by (unfold s2, setThread, setThreads; cbn; by rewrite insert_insert_eq).
      fold t2. by rewrite <- E in Hg.
    + rewrite Et. cbn. apply insert_insert_eq.
    + rewrite H5. cbn. rewrite flat_map_app. by rewrite <- app_assoc.
Qed.

(** *** The client gone *)

(** The protocol thread has read a disconnect, or the end of its input. *)
Fixpoint leaves (r : readerStage) : bool :=
  match r with
  | Writing _ next => leaves next
  | Disconnecting | Closing | Exiting => true
  | _ => false
  end.

Lemma runsProcess_step l ls p : runsProcess (l :: ls) p = match execProcess l p with Some p => runsProcess ls p | None => None end.
Proof. done. Qed.

(** What the protocol thread's own steps then lead to: the end of the process, unless the
    program has ended before, when it ends itself. *)
Definition closes (s : server) : Prop :=
  exists n p, runsProcess (replicate n (Step_ ReaderGoes)) (Live s) = Some p /\
    (p = Exited \/ programRuns s = false /\ exists s', p = Live s' /\ reader s' = Ended).

Lemma closes_step s s1 : reader s <> Exiting -> readerStep s = Some s1 -> programRuns s1 = programRuns s -> closes s1 -> closes s.
Proof.
  intros He Hs Ep (n & p & Hn & Hp). exists (S n), p. split; [|by rewrite <- Ep]. cbn [replicate]. rewrite runsProcess_step.
  cbn [execProcess exec]. rewrite Hs. by destruct (reader s).
Qed.

Lemma leaves_closes r s : reader s = r -> leaves r = true -> closes s.
Proof.
  assert (Hexit : forall s, reader s = Exiting -> closes s).
  { intros s1 E. exists 1%nat, Exited. split; [cbn; by rewrite E|by left]. }
  assert (Hclosing : forall s, reader s = Closing -> closes s).
  { intros s1 E. eapply closes_step; [by rewrite E|unfold readerStep; by rewrite E|done|].
    destruct (programRuns s1) eqn:Ep; [by apply Hexit|]. eexists 0%nat, _. split; [reflexivity|]. right. split; [done|]. by eexists. }
  revert s. induction r as [|msgs next IH| | | | | | | | | | | | |]; intros s E Hl; try done; [|..|by apply Hclosing|by apply Hexit].
  - revert s E. induction msgs as [|m msgs IHm]; intros s E;
      (eapply closes_step; [by rewrite E|unfold readerStep; by rewrite E|done|]); [by apply IH|by apply IHm].
  - eapply closes_step; [by rewrite E|unfold readerStep; by rewrite E|done|by apply Hclosing].
Qed.

(** C20. A thread told to go on, or woken because its client has disconnected, goes on by
    its own steps: it answers the requests it has, in their order, and is back in the
    program's code with the step asked for set from the depth it stopped at. Once the
    client has gone, by a disconnect or the end of its pipe, the protocol thread's own
    steps lead, from wherever the session then is, to the end of the process with the
    program; or end that thread, when the program has already ended. And no thread hangs
    elsewhere: each can take a step unless it is in the program's code or waits for the
    client with nothing to answer; the protocol thread unless it waits for a request or
    has ended. *)
Theorem stopped_goes_on s id t o : reachable s -> threads s !! id = Some t ->
  (stopped t = true -> resumeReady t || disconnected s = true -> resumed id o t (stopFrames (at_ t)) (threadOwes t) s) /\
  (disconnected s = true \/ leaves (reader s) = true -> reader s = Ended \/ closes s) /\
  (exec (Go id o) s = None ->
     at_ t = Running \/ (exists fs, at_ t = Waiting fs) /\ requests t = [] /\ resumeReady t = false /\ disconnected s = false) /\
  (execProcess (Step_ ReaderGoes) (Live s) = None -> reader s = Reading \/ reader s = Ended).
Proof.
  intros Hs%reachable_accounted Ht. destruct (threadsOk s Hs _ _ Ht) as (H1 & H2 & H3). split; [|split; [|split]].
  - intros Hst Hready. rewrite Hst in H1. unfold threadOwes.
    destruct (at_ t) as [| | | | | | | | | | | | | | | | | |m next| |fs|fs r|fs|late] eqn:Ea; try done; cbn [stageOwes stopFrames app].
    + destruct H3 as [[e ->] H3]. destruct next; try done. cbn [stageOwes stopFrames app answers].
      set (t2 := goto (Waiting fs) t). set (s2 := setThread id t2 (send (Event e) s)).
      destruct (waiting_resumed id o s2 t2 fs (requests t)) as (s' & t' & Hg & Et & G); [apply setThread_here|done|done|done|].
      exists s', t'. split; [eapply goes_step; [exact Ht|unfold threadStep; by rewrite Ea|exact Hg]|].
      split; [rewrite Et; cbn; apply insert_insert_eq|]. destruct G as (G1 & G2 & G3 & G4 & G5 & G6). split_and!; try done.
      rewrite G5. cbn. by rewrite flat_map_app, app_nil_r.
    + by apply waiting_resumed.
    + set (t2 := goto (Waiting fs) t). set (s2 := setThread id t2 (send (Response r BInspected) s)).
      destruct (waiting_resumed id o s2 t2 fs (requests t)) as (s' & t' & Hg & Et & G); [apply setThread_here|done|done|done|].
      exists s', t'. split; [eapply goes_step; [exact Ht|unfold threadStep; by rewrite Ea|exact Hg]|].
      split; [rewrite Et; cbn; apply insert_insert_eq|]. destruct G as (G1 & G2 & G3 & G4 & G5 & G6). split_and!; try done.
      rewrite G5. cbn. by rewrite flat_map_app, <- app_assoc.
    + destruct H3 as [H3 _]. rewrite H3. by apply resuming_resumed.
  - intros Hgone. destruct (leaves (reader s)) eqn:El; [right; by eapply leaves_closes|]. left.
    destruct Hgone as [Hgone|]; [|done]. pose proof (goneOk s Hs Hgone) as Hq. by destruct (reader s).
  - cbn [exec]. rewrite Ht. unfold threadStep.
    destruct (at_ t) as [| | | | | | | | | | | | | |fs bp n| | |fs ex caught raised uncaught rc uc|m next|fs reason ex desc|fs|fs req|fs|late] eqn:Ea;
      try (by left); try (repeat case_match; done).
    destruct (requests t); [|done]. destruct (resumeReady t), (disconnected s); try done. intros _. right. eauto.
  - cbn [execProcess exec]. unfold readerStep. destruct (reader s) as [|[]| | | | | | | | | | | | |]; try done; eauto. by destruct (queueFor _ _ _).
Qed.
