(* ===== verification/DapLineFacts.v ===== *)
(** A line entered, decided by the debugger's fast paths and caches as by the session's own
    rule (DapServer.v). *)

From S2P Require Import Prelude Utf8 Lexer Regex DapStdio DapText DapServer DapServerFacts.

#[local] Set Warnings "-register-all".

(** The client's breakpoints are all in force: no [setBreakpoints] is in its block. *)
Definition published (s : server) : bool :=
  match reader s with StoringAny _ | Bumping _ => false | _ => true end.

(** Lines kept of a source are those of the table. *)
Definition agrees (s : server) (source : bytes) (lines : list Z) : Prop :=
  forall f, dsource (info f) = source -> existsb (fun l => l =? fline f) lines = true <-> is_Some (breakpointOn s f).

(** What a thread keeps of the lines with breakpoints. *)
Record cacheOk (s : server) (t : ThreadState) : Prop := mkCacheOk {
  past : Forall (fun e => lgen (snd e) <= bpGen s) (lineCache t);
  present : published s = true -> Forall (fun e => lgen (snd e) = bpGen s -> agrees s (dsource (fst e)) (llines (snd e))) (lineCache t);
  loaded : match at_ t with
           | AtLines _ gen => gen <= bpGen s
           | AtLineSet (f :: _) gen => gen <= bpGen s /\ lgen (cached (info f) (lineCache t)) = gen
           | _ => True
           end;
}.

Record linesOk (s : server) : Prop := mkLinesOk {
  cachesOk : map_Forall (fun _ t => cacheOk s t) (threads s);
  anyOk : (match reader s with StoringAny _ => false | _ => true end) = true ->
          anyBreakpoints s = negb (bool_decide (breakpoints s = ∅));
  genOk : 1 <= bpGen s;
}.

Lemma linesOf_agrees s source : agrees s source (linesOf s source).
Proof.
  intros f <-. unfold linesOf, breakpointOn. destruct (breakpoints s !! sourceKey s (dsource (info f))) as [m|]; cbn.
  - rewrite existsb_exists. split.
    + intros (l & Hl & He%Z.eqb_eq). apply in_map_iff in Hl as ([l' bp] & <- & Hin). cbn in He. subst.
      apply list_elem_of_In, elem_of_map_to_list in Hin. by exists bp.
    + intros [bp Hbp]. exists (fline f). split; [|apply Z.eqb_refl]. apply in_map_iff. exists (fline f, bp). split; [done|].
      by apply list_elem_of_In, elem_of_map_to_list.
  - split; [done|]. by intros [? [=]].
Qed.

Lemma cached_in d cache : cached d cache = mkLines 0 [] \/ exists e, In (d, e) cache /\ cached d cache = e.
Proof.
  induction cache as [|[x e] cache IH]; cbn; [by left|]. destruct (decide (x = d)) as [->|Hx]; [right; eauto|].
  destruct IH as [->|(e' & Hin & ->)]; [by left|right; eauto].
Qed.

Lemma cached_agrees s t d : cacheOk s t -> published s = true -> 1 <= bpGen s -> lgen (cached d (lineCache t)) = bpGen s ->
  agrees s (dsource d) (llines (cached d (lineCache t))).
Proof.
  intros Hc Hp Hg. destruct (cached_in d (lineCache t)) as [->|(e & Hin & ->)]; cbn; [lia|].
  pose proof (present s t Hc Hp) as Hf. rewrite List.Forall_forall in Hf. exact (Hf _ Hin).
Qed.

(** *** The steps keep it *)

(** The lines the table has are the same. *)
Definition sameLines (s s1 : server) : Prop :=
  bpGen s1 = bpGen s /\ published s1 = published s /\ forall f, is_Some (breakpointOn s1 f) <-> is_Some (breakpointOn s f).

Lemma cacheOk_same s s1 t : sameLines s s1 -> cacheOk s t -> cacheOk s1 t.
Proof.
  intros (E1 & E2 & E3) [H1 H2 H3]. constructor; rewrite ?E1, ?E2; try done.
  intros Hp. specialize (H2 Hp). eapply Forall_impl; [exact H2|]. intros [d e] H He f Hf. rewrite E3. by apply H.
Qed.

(** A thread whose cache is as before. *)
Lemma cacheOk_goto s t t' : cacheOk s t -> lineCache t' = lineCache t ->
  match at_ t' with AtLines _ _ | AtLineSet _ _ => False | _ => True end -> cacheOk s t'.
Proof. intros [H1 H2 H3] E Hs. constructor; rewrite ?E; try done. by destruct (at_ t'). Qed.

Lemma linesOk_thread s s1 id t' : linesOk s -> sameLines s s1 -> anyBreakpoints s1 = anyBreakpoints s ->
  (breakpoints s1 = ∅ <-> breakpoints s = ∅) -> reader s1 = reader s -> threads s1 = <[id := t']> (threads s) ->
  cacheOk s t' -> linesOk s1.
Proof.
  intros [H1 H2 H3] Hs Ea Eb Er Et Hc. pose proof Hs as (Eg & _). constructor.
  - rewrite Et. intros i x. destruct (decide (i = id)) as [->|Hi].
    + rewrite lookup_insert_eq. intros [= <-]. by apply (cacheOk_same s).
    + rewrite lookup_insert_ne by done. intros Hx. apply (cacheOk_same s); [done|exact (H1 _ _ Hx)].
  - rewrite Er, Ea. intros Hp. rewrite (H2 Hp). f_equal. by apply bool_decide_ext.
  - by rewrite Eg.
Qed.

Lemma sameLines_refl s : sameLines s s.
Proof. done. Qed.

Lemma countHit_lines s f : let s1 := snd (countHit s f) in sameLines s s1 /\ anyBreakpoints s1 = anyBreakpoints s /\
  (breakpoints s1 = ∅ <-> breakpoints s = ∅) /\ reader s1 = reader s /\ threads s1 = threads s.
Proof.
  cbv zeta. unfold countHit. destruct (breakpoints s !! sourceKey s (dsource (info f))) as [m|] eqn:Em; [|done].
  destruct (m !! fline f) as [bp|] eqn:Eb; [|done]. cbn. split_and!; try done.
  - split_and!; try done. intros g. unfold breakpointOn. cbn.
    change (sourceKey (setBreakpointTable _ _ _ s)) with (sourceKey s).
    destruct (decide (sourceKey s (dsource (info g)) = sourceKey s (dsource (info f)))) as [->|Hk].
    + rewrite lookup_insert_eq, Em. cbn. destruct (decide (fline g = fline f)) as [->|Hl].
      * by rewrite lookup_insert_eq, Eb.
      * by rewrite lookup_insert_ne.
    + by rewrite lookup_insert_ne.
  - split; intros E; [by apply insert_non_empty in E|]. by rewrite E in Em.
Qed.

Ltac plain_lines Hs Hc :=
  repeat case_match; intros [= <-];
  (eapply linesOk_thread; [exact Hs|refine (sameLines_refl _)|reflexivity|exact (iff_refl _)|reflexivity|reflexivity|];
   eapply cacheOk_goto; [exact Hc|reflexivity|cbn; by repeat case_match]).

Lemma thread_linesOk s t id o s' : accounted s -> linesOk s -> threads s !! id = Some t -> threadStep id t o s = Some s' -> linesOk s'.
Proof.
  intros Hacc Hs Ht. assert (Hc : cacheOk s t) by exact (cachesOk s Hs _ _ Ht). pose proof (threadsOk s Hacc _ _ Ht) as (_ & _ & Hst). unfold threadStep.
  destruct (at_ t) as [| | | | | | | |fs|fs gen|fs gen| | |fs bp|fs bp n| | |fs ex caught raised uncaught rc uc|m next|fs reason ex desc|fs|fs req|fs|late] eqn:Ea;
    try (plain_lines Hs Hc; fail).
  - destruct fs as [|f fs]; [plain_lines Hs Hc|]. intros [= <-].
    eapply linesOk_thread; [exact Hs|refine (sameLines_refl _)|reflexivity|exact (iff_refl _)|reflexivity|reflexivity|].
    destruct Hc as [H1 H2 H3]. set (cache := if linesGen t =? bpGen s then lineCache t else []).
    assert (Hsub : forall P : DebugInfo * BreakpointLines -> Prop, Forall P (lineCache t) -> Forall P cache) by (intros P HP; unfold cache; by destruct (linesGen t =? bpGen s)).
    constructor; cbn; [exact (Hsub _ H1)|intros Hp; exact (Hsub _ (H2 Hp))|].
    destruct (Z.eqb_spec (lgen (cached (info f) cache)) (bpGen s)); cbn; lia.
  - destruct fs as [|f fs]; [plain_lines Hs Hc|]. intros [= <-].
    eapply linesOk_thread; [exact Hs|refine (sameLines_refl _)|reflexivity|exact (iff_refl _)|reflexivity|reflexivity|].
    destruct Hc as [H1 H2 H3]. rewrite Ea in H3. constructor; cbn.
    + by constructor.
    + intros Hp. constructor; [|by apply H2]. intros _. apply linesOf_agrees.
    + destruct (decide (info f = info f)); [done|congruence].
  - destruct fs as [|f fs]; [plain_lines Hs Hc|]. pose proof (countHit_lines s f) as (E1 & E2 & E3 & E4 & E5).
    destruct (countHit s f) as [n s1]. cbn [snd] in *. intros [= <-].
    eapply linesOk_thread; [exact Hs|exact E1|exact E2|exact E3|exact E4|cbn; by rewrite E5|].
    eapply cacheOk_goto; [exact Hc|reflexivity|done].
  - intros [= <-]. eapply linesOk_thread; [exact Hs|refine (sameLines_refl _)|reflexivity|exact (iff_refl _)|reflexivity|reflexivity|].
    eapply cacheOk_goto; [exact Hc|reflexivity|]. cbn. destruct Hst as [_ Hst]. by destruct next.
Qed.

(** A change outside the table. *)
Lemma linesOk_kept s s1 : linesOk s -> published s = true -> breakpoints s1 = breakpoints s -> bpGen s1 = bpGen s ->
  anyBreakpoints s1 = anyBreakpoints s -> program s1 = program s -> map_Forall (fun _ t => cacheOk s t) (threads s1) -> linesOk s1.
Proof.
  intros [H1 H2 H3] Hp Eb Eg Ea Em Ht. constructor.
  - intros i t Hi. destruct (Ht _ _ Hi) as [G1 G2 G3]. constructor; rewrite ?Eg; try done.
    intros _. eapply Forall_impl; [exact (G2 Hp)|]. intros [d e] He E f Hf. unfold breakpointOn, sourceKey. rewrite Eb, Em. exact (He E f Hf).
  - intros _. rewrite Ea, Eb. apply H2. unfold published in Hp. by destruct (reader s).
  - by rewrite Eg.
Qed.

Lemma cacheOk_like s t t' : cacheOk s t -> lineCache t' = lineCache t -> at_ t' = at_ t -> cacheOk s t'.
Proof. intros [H1 H2 H3] E1 E2. by constructor; rewrite ?E1, ?E2. Qed.

Lemma caches_insert s id t' : map_Forall (fun _ t => cacheOk s t) (threads s) -> cacheOk s t' ->
  map_Forall (fun _ t => cacheOk s t) (<[id := t']> (threads s)).
Proof. intros H Hc. by apply map_Forall_insert_2. Qed.

Lemma handle_linesOk req q s : linesOk s -> reader s = Reading -> linesOk (handle req q s).
Proof.
  intros Hs Hr. assert (Hp : published s = true) by (unfold published; by rewrite Hr). pose proof (cachesOk s Hs) as Hc.
  assert (Hkeep : forall r, linesOk (setReader r s)) by (intros r; by apply (linesOk_kept s)).
  destruct q as [path source wanted|filters| | |r id|id|id|what whom| |]; cbn [handle]; cbv zeta; try apply Hkeep.
  - destruct (bindAll _ _ _ _) as [[armed bound] outs]. apply Hkeep.
  - destruct (filtersOf filters) as [[[[[raised uncaught] rc] uc] results] outs]. apply Hkeep.
  - unfold resumeThread. destruct (threads s !! id) as [t|] eqn:Et; [|apply Hkeep]. destruct (_ && _); [|apply Hkeep].
    apply (linesOk_kept s); try done. apply caches_insert; [done|]. by apply (cacheOk_like s t); [exact (Hc _ _ Et)|..].
  - destruct (threads s !! id) as [t|] eqn:Et.
    + apply (linesOk_kept s); try done. apply caches_insert; [done|]. by apply (cacheOk_like s t); [exact (Hc _ _ Et)|..].
    + case_bool_decide; [apply Hkeep|]. apply (linesOk_kept s); try done. intros i x. cbn. rewrite lookup_fmap.
      destruct (threads s !! i) as [t|] eqn:Ei; [|done]. intros [= <-]. by apply (cacheOk_like s t); [exact (Hc _ _ Ei)|..].
  - repeat case_match; apply Hkeep.
  - destruct whom; apply Hkeep.
Qed.

Lemma reader_linesOk s s' : linesOk s -> readerStep s = Some s' -> linesOk s'.
Proof.
  intros Hs. pose proof (cachesOk s Hs) as Hc. unfold readerStep.
  assert (Hkeep : published s = true -> forall s1, breakpoints s1 = breakpoints s -> bpGen s1 = bpGen s -> anyBreakpoints s1 = anyBreakpoints s ->
            program s1 = program s -> threads s1 = threads s -> linesOk s1).
  { intros Hp s1 E1 E2 E3 E4 E5. apply (linesOk_kept s); try done. by rewrite E5. }
  destruct (reader s) as [|msgs next|path armed next|next|next|raised uncaught rc uc next|raised uncaught next|uncaught next|next| |what req id| | | |] eqn:Er; try done;
    try (assert (Hp : published s = true) by (unfold published; by rewrite Er)).
  all: try (intros [= <-]; by apply Hkeep).
  - destruct msgs; intros [= <-]; by apply Hkeep.
  - intros [= <-]. destruct Hs as [H1 H2 H3]. constructor; cbn; [|done|done].
    intros i t Ht. destruct (H1 _ _ Ht) as [G1 G2 G3]. by constructor.
  - intros [= <-]. destruct Hs as [H1 H2 H3]. constructor; cbn; [|done|done].
    intros i t Ht. destruct (H1 _ _ Ht) as [G1 G2 G3]. by constructor.
  - intros [= <-]. destruct Hs as [H1 H2 H3]. rewrite Er in H2. constructor; cbn; [|intros _; by apply H2|lia].
    intros i t Ht. destruct (H1 _ _ Ht) as [G1 G2 G3]. constructor; cbn.
    + eapply Forall_impl; [exact G1|]. cbn. lia.
    + intros _. eapply Forall_impl; [exact G1|]. cbn. lia.
    + destruct (at_ t) as [| | | | | | | |fs|fs gen|fs gen| | |fs bp|fs bp n| | |fs ex caught raised uncaught rc uc|m next'|fs reason ex desc|fs|fs req|fs|late]; try done; [lia|].
      destruct fs; [done|]. split; [lia|by apply G3].
  - destruct (queueFor id req s) as [s1|] eqn:Eq; intros [= <-]; [|by apply Hkeep].
    unfold queueFor in Eq. destruct (threads s !! id) as [t|] eqn:Et; [|done]. destruct (_ && _); [|done]. injection Eq as <-.
    apply (linesOk_kept s); try done. apply caches_insert; [done|]. by apply (cacheOk_like s t); [exact (Hc _ _ Et)|..].
Qed.

Lemma registered_linesOk kind fs st s s' : linesOk s -> match st with AtEntry _ | AtFilters _ _ _ _ _ => True | _ => False end ->
  registerThread kind fs st s = Some s' -> linesOk s'.
Proof.
  intros Hs Hst.
  assert (Hgen : forall id name main workers m n st', match st' with Telling _ _ => True | _ => False end ->
    linesOk (setThread id (mkThread name main false SNone 0 false false false RContinue [] false None 0 [] st') (setCounters m n workers s))).
  { intros id name main workers m n st' Hst'. eapply linesOk_thread; [exact Hs|refine (sameLines_refl _)|reflexivity|exact (iff_refl _)|reflexivity|reflexivity|].
    constructor; cbn; [by constructor|by constructor|by destruct st']. }
  unfold registerThread. destruct kind as [|c kind]; [destruct (mainSeen s)|case_bool_decide]; cbn [negb]; intros [= <-]; by apply Hgen.
Qed.

Lemma running_linesOk id st s s' : linesOk s -> match st with AtEntry _ | AtThrow _ _ _ => True | _ => False end -> running id st s = Some s' -> linesOk s'.
Proof.
  intros Hs Hst. unfold running. destruct (threads s !! id) as [t|] eqn:Et; [|done]. destruct (isRunning t); [|done]. intros [= <-].
  eapply linesOk_thread; [exact Hs|refine (sameLines_refl _)|reflexivity|exact (iff_refl _)|reflexivity|reflexivity|].
  eapply cacheOk_goto; [exact (cachesOk s Hs _ _ Et)|reflexivity|by destruct st].
Qed.

Lemma exec_linesOk l s s' : accounted s -> linesOk s -> exec l s = Some s' -> linesOk s'.
Proof.
  intros Ha Hs. destruct l as [kind fs|id fs|kind fs ex caught raised uncaught|id fs ex caught|id o|id|id|req q| | |rc|]; cbn [exec].
  - by apply registered_linesOk.
  - by apply running_linesOk.
  - destruct (if justMyCode s then dropLibrary fs else fs); [done|]. destruct (_ || _); [|done]. by apply registered_linesOk.
  - by apply running_linesOk.
  - destruct (threads s !! id) eqn:Et; [|done]. by eapply thread_linesOk.
  - destruct (threads s !! id) as [t|] eqn:Et; [|done]. destruct (isRunning t); [|done]. intros [= <-]. destruct Hs as [H1 H2 H3]. constructor; [|done|done].
    apply map_Forall_delete. intros i x Hx. destruct (H1 _ _ Hx). by constructor.
  - case_bool_decide; [|done]. intros [= <-]. destruct Hs as [H1 H2 H3]. constructor; [|done|done]. intros i x Hx. destruct (H1 _ _ Hx). by constructor.
  - destruct (reader s) eqn:Er; try done. intros [= <-]. by apply handle_linesOk.
  - destruct (reader s) eqn:Er; try done. intros [= <-]. apply (linesOk_kept s); try done; [unfold published; by rewrite Er|exact (cachesOk s Hs)].
  - by apply reader_linesOk.
  - destruct (_ && _); [|done]. intros [= <-]. destruct Hs as [H1 H2 H3]. constructor; [|done|done]. intros i x Hx. destruct (H1 _ _ Hx). by constructor.
  - destruct (parting s); [done|]. intros [= <-]. destruct Hs as [H1 H2 H3]. constructor; [|done|done]. intros i x Hx. destruct (H1 _ _ Hx). by constructor.
Qed.

Lemma reachable_linesOk s : reachable s -> linesOk s.
Proof.
  intros Hr. enough (accounted s /\ linesOk s) by tauto.
  apply (reachable_inv (fun s => accounted s /\ linesOk s)); [| |exact Hr].
  - intros p e j. split; [apply accounted_launched|]. constructor; [apply map_Forall_empty|done|done].
  - intros l s1 s2 [Ha Hs] He. split; [by eapply exec_accounted|by eapply exec_linesOk].
Qed.

(** ** The rule *)

(** What the session says of a line a thread enters: the stage it comes to, what it says on
    the way, and whether the breakpoint on the line counts a hit; first of a breakpoint
    whose condition passed, then of one on the line. *)
Definition outcome : Type := stage * list sending * bool.

Definition hitVerdict (bp : LineBreakpoint) (stack : list DebugFrame) (o : outside) : outcome :=
  if negb (passes (hit bp) (hits bp + 1)) then (Running, [], true)
  else if isLog bp then (Running, [Event (EOutput (interpolate (texts o) (logMessage bp) ++ [x0a]))], true)
  else (Stopping stack Breakpoint None [], [], true).

Definition breakpointVerdict (bp : LineBreakpoint) (stack : list DebugFrame) (o : outside) : outcome :=
  match condition bp with
  | [] => hitVerdict bp stack o
  | c =>
      match first_ o with
      | Truthy => hitVerdict bp stack o
      | Falsy => (Running, [], false)
      | Fails error =>
          let text := conditionFailed c error in
          (Stopping stack Breakpoint None text, [Event (EOutput (text ++ [x0a]))], false)
      end
  end.

(** A step ends: into any line; over, at no more frames than it began with; out, at fewer;
    and in clojure.core, when that is passed over, only if it began there. *)
Definition stepStops (t : ThreadState) (frames : Z) (skip : bool) : bool :=
  negb (skip && negb (stepFromLibrary t)) &&
  match stepKind t with SNone => false | SIn => true | SOver => frames <=? stepDepth t | SOut => frames <? stepDepth t end.

Lemma stepEnds_stops t fs skip : stepEnds t fs skip = stepStops t (Z.of_nat (length fs)) skip.
Proof. unfold stepEnds, stepStops. by destruct (skip && negb (stepFromLibrary t)), (stepKind t). Qed.

Definition verdict (s : server) (t : ThreadState) (f : DebugFrame) (fs : list DebugFrame) (o : outside) : outcome :=
  let stack := f :: fs in
  let skip := library (info f) && justMyCode s in
  if isMain t && entryPending s && negb (library (info f)) then (Stopping stack Entry None [], [], false)
  else if pauseRequested t && negb skip then (Stopping stack Pause None [], [], false)
  else if stepStops t (Z.of_nat (length stack)) skip then (Stopping stack Step None [], [], false)
  else match breakpointOn s f with None => (Running, [], false) | Some bp => breakpointVerdict bp stack o end.

(** The thread comes by its own steps to the stage of [r], having said what [r] says since
    [s0], with the table of [s0] but for the hit counted, and nothing of another thread or
    of the protocol thread touched. *)
Definition settled (id : Z) (o : outside) (s s0 : server) (f : DebugFrame) (r : outcome) : Prop :=
  exists s' t', goes id o s s' /\ threads s' = <[id := t']> (threads s) /\ at_ t' = fst (fst r) /\
  sent s' = sent s0 ++ snd (fst r) /\ breakpoints s' = breakpoints (if snd r then snd (countHit s0 f) else s0) /\ reader s' = reader s.

Lemma settled_step id o t s t1 s1 s0 f r : threads s !! id = Some t -> threadStep id t o s = Some s1 ->
  threads s1 = <[id := t1]> (threads s) -> reader s1 = reader s -> settled id o s1 s0 f r -> settled id o s s0 f r.
Proof.
  intros Ht Hs E1 Er (s' & t' & Hg & Et & Ha & Hsent & Hb & Hr). exists s', t'. split; [by eapply goes_step|].
  split_and!; try done; [rewrite Et, E1; apply insert_insert_eq|congruence].
Qed.

Lemma settled_here id o s t s0 f (r : outcome) : threads s !! id = Some t -> at_ t = fst (fst r) -> sent s = sent s0 ++ snd (fst r) ->
  breakpoints s = breakpoints (if snd r then snd (countHit s0 f) else s0) -> settled id o s s0 f r.
Proof. intros Ht Ha Hs Hb. exists s, t. split; [apply goes_refl|]. by rewrite insert_id. Qed.

(** A step of the thread, computed. *)
Ltac go_on := eapply settled_step; [apply setThread_here|reflexivity|reflexivity|reflexivity|]; rewrite ?setThread_again.
Ltac here := eapply settled_here; [apply setThread_here|reflexivity|cbn; by rewrite ?app_nil_r|reflexivity].

(** From the breakpoint's condition on. *)
Lemma condition_settled id o s t f fs bp : breakpointOn s f = Some bp ->
  settled id o (setThread id (goto (AtCondition (f :: fs) bp) t) s) s f (breakpointVerdict bp (f :: fs) o).
Proof.
  intros Hbp. unfold breakpointVerdict.
  assert (Hcount : settled id o (setThread id (goto (AtCount (f :: fs) bp) t) s) s f (hitVerdict bp (f :: fs) o)).
  { unfold breakpointOn in Hbp. destruct (breakpoints s !! sourceKey s (dsource (info f))) as [m|] eqn:Em; [|done]. cbn in Hbp.
    assert (Hch : forall s1, breakpoints s1 = breakpoints s -> program s1 = program s -> countHit s1 f =
      (hits bp + 1, setBreakpointTable (breakpoints (snd (countHit s f))) (anyBreakpoints s1) (bpGen s1) s1)).
    { intros s1 E1 E2. unfold countHit, sourceKey in *. rewrite E1, E2, Em, Hbp. done. }
    eapply settled_step; [apply setThread_here|unfold threadStep; cbn [goto at_]; rewrite Hch by done; reflexivity|cbn; reflexivity|reflexivity|].
    unfold hitVerdict. destruct (passes (hit bp) (hits bp + 1)) eqn:Ep; cbn [negb].
    - destruct (isLog bp) eqn:El.
      + eapply settled_step; [apply setThread_here|unfold threadStep; cbn; rewrite Ep, El; reflexivity|cbn; reflexivity|reflexivity|]. go_on. here.
      + eapply settled_step; [apply setThread_here|unfold threadStep; cbn; rewrite Ep, El; reflexivity|cbn; reflexivity|reflexivity|]. here.
    - eapply settled_step; [apply setThread_here|unfold threadStep; cbn; rewrite Ep; reflexivity|cbn; reflexivity|reflexivity|]. here. }
  destruct (condition bp) as [|c cs] eqn:Ec.
  - eapply settled_step; [apply setThread_here|cbn [goto at_ threadStep]; rewrite Ec; reflexivity|reflexivity|reflexivity|]. by rewrite setThread_again.
  - destruct (first_ o) eqn:Eo.
    + eapply settled_step; [apply setThread_here|unfold threadStep; cbn; rewrite Ec, Eo; reflexivity|reflexivity|reflexivity|]. by rewrite setThread_again.
    + eapply settled_step; [apply setThread_here|unfold threadStep; cbn; rewrite Ec, Eo; reflexivity|reflexivity|reflexivity|]. rewrite setThread_again. here.
    + eapply settled_step; [apply setThread_here|unfold threadStep; cbn; rewrite Ec, Eo; reflexivity|reflexivity|reflexivity|]. rewrite setThread_again.
      go_on. here.
Qed.

(** The rule's answer for a line no step, pause or entry stops at. *)
Definition lineVerdict (s : server) (f : DebugFrame) (fs : list DebugFrame) (o : outside) : outcome :=
  match breakpointOn s f with None => (Running, [], false) | Some bp => breakpointVerdict bp (f :: fs) o end.

Lemma lineset_settled id o s t f fs gen : agrees s (dsource (info f)) (llines (cached (info f) (lineCache t))) ->
  settled id o (setThread id (goto (AtLineSet (f :: fs) gen) t) s) s f (lineVerdict s f fs o).
Proof.
  intros Hag. specialize (Hag f eq_refl). unfold lineVerdict.
  destruct (existsb (fun l => l =? fline f) (llines (cached (info f) (lineCache t)))) eqn:Ee.
  - destruct Hag as [[bp Hbp] _]; [done|]. rewrite Hbp.
    eapply settled_step; [apply setThread_here|unfold threadStep; cbn; rewrite Ee; reflexivity|cbn; reflexivity|reflexivity|]. rewrite setThread_again.
    eapply settled_step; [apply setThread_here|unfold threadStep; cbn [goto at_]; change (breakpointOn (setThread _ _ s) f) with (breakpointOn s f); rewrite Hbp; reflexivity|cbn; reflexivity|reflexivity|].
    rewrite setThread_again. by apply condition_settled.
  - destruct (breakpointOn s f) eqn:Eb; [destruct Hag as [_ Hag]; discriminate Hag; by eexists|].
    eapply settled_step; [apply setThread_here|unfold threadStep; cbn; rewrite Ee; reflexivity|cbn; reflexivity|reflexivity|]. rewrite setThread_again. here.
Qed.

Lemma generation_settled id o s t f fs : cacheOk s t -> published s = true -> 1 <= bpGen s ->
  settled id o (setThread id (goto (AtGeneration (f :: fs)) t) s) s f (lineVerdict s f fs o).
Proof.
  intros Hc Hp Hg.
  set (cache := if linesGen t =? bpGen s then lineCache t else []).
  set (t2 := setCache (bpGen s) cache t).
  destruct (lgen (cached (info f) cache) =? bpGen s) eqn:El.
  - eapply settled_step; [apply setThread_here|unfold threadStep; cbn; fold cache; rewrite El; reflexivity|cbn; reflexivity|reflexivity|]. rewrite setThread_again.
    apply (lineset_settled id o s t2). apply Z.eqb_eq in El. unfold cache in El. cbn.
    destruct (linesGen t =? bpGen s) eqn:Eg; [|cbn in El; lia]. unfold cache. by apply (cached_agrees s t).
  - eapply settled_step; [apply setThread_here|unfold threadStep; cbn; fold cache; rewrite El; reflexivity|cbn; reflexivity|reflexivity|]. rewrite setThread_again.
    eapply settled_step; [apply setThread_here|reflexivity|cbn; reflexivity|reflexivity|]. rewrite setThread_again.
    match goal with |- settled _ _ (setThread _ (goto _ ?t3) _) _ _ _ => apply (lineset_settled id o s t3) end.
    cbn. destruct (decide (info f = info f)); [|congruence]. apply linesOf_agrees.
Qed.

Lemma step_settled id o s t f fs : linesOk s -> cacheOk s t -> published s = true ->
  settled id o (setThread id (goto (AtStep (f :: fs)) t) s) s f
    (if stepEnds t (f :: fs) (library (info f) && justMyCode s) then (Stopping (f :: fs) Step None [], [], false) else lineVerdict s f fs o).
Proof.
  intros Hs Hc Hp. destruct (stepEnds t (f :: fs) (library (info f) && justMyCode s)) eqn:Es.
  - eapply settled_step; [apply setThread_here|unfold threadStep; cbn [goto at_]; change (stepEnds (goto _ t) _ _) with (stepEnds t (f :: fs) (library (info f) && justMyCode s)); rewrite Es; reflexivity|cbn; reflexivity|reflexivity|].
    rewrite setThread_again. here.
  - eapply settled_step; [apply setThread_here|unfold threadStep; cbn [goto at_]; change (stepEnds (goto _ t) _ _) with (stepEnds t (f :: fs) (library (info f) && justMyCode s)); rewrite Es; reflexivity|cbn; reflexivity|reflexivity|].
    rewrite setThread_again. assert (Hany : anyBreakpoints s = negb (bool_decide (breakpoints s = ∅))).
    { apply (anyOk s Hs). unfold published in Hp. by destruct (reader s). }
    destruct (anyBreakpoints s) eqn:Ea.
    + eapply settled_step; [apply setThread_here|unfold threadStep; cbn; rewrite Ea; reflexivity|cbn; reflexivity|reflexivity|]. rewrite setThread_again.
      apply generation_settled; [by apply (cacheOk_goto s t)|done|exact (genOk s Hs)].
    + eapply settled_step; [apply setThread_here|unfold threadStep; cbn; rewrite Ea; reflexivity|cbn; reflexivity|reflexivity|]. rewrite setThread_again.
      unfold lineVerdict. replace (breakpointOn s f) with (@None LineBreakpoint); [here|].
      symmetry in Hany. apply negb_false_iff, bool_decide_eq_true in Hany. unfold breakpointOn. by rewrite Hany, lookup_empty.
Qed.

Lemma exchange_settled id o s t f fs entry : linesOk s -> cacheOk s t -> published s = true -> entry = isMain t && entryPending s ->
  settled id o (setThread id (goto (AtEntryExchange (f :: fs) entry) t) s) s f (verdict s t f fs o).
Proof.
  intros Hs Hc Hp Hentry.
  assert (Hpause : settled id o (setThread id (goto (AtPauseExchange (f :: fs)) t) s) s f
    (if pauseRequested t && negb (library (info f) && justMyCode s) then (Stopping (f :: fs) Pause None [], [], false)
     else if stepEnds t (f :: fs) (library (info f) && justMyCode s) then (Stopping (f :: fs) Step None [], [], false) else lineVerdict s f fs o)).
  { destruct (negb (library (info f) && justMyCode s)) eqn:El.
    - destruct (pauseRequested t) eqn:Epr; cbn [andb];
        (eapply settled_step; [apply setThread_here|unfold threadStep; cbn; rewrite El, Epr; reflexivity|cbn; reflexivity|reflexivity|]; rewrite setThread_again).
      + here.
      + exact (step_settled id o s (setPause false t) f fs Hs (cacheOk_like s t (setPause false t) Hc eq_refl eq_refl) Hp).
    - rewrite andb_false_r.
      eapply settled_step; [apply setThread_here|unfold threadStep; cbn; rewrite El; reflexivity|cbn; reflexivity|reflexivity|]. rewrite setThread_again.
      exact (step_settled id o s t f fs Hs Hc Hp). }
  unfold verdict. cbv zeta. rewrite <- stepEnds_stops. fold (lineVerdict s f fs o).
  rewrite <- Hentry. destruct (entry && negb (library (info f))) eqn:Ee.
  - assert (Een : entryPending s = true) by (apply andb_prop in Ee as [Ee _]; rewrite Ee in Hentry; symmetry in Hentry; by apply andb_prop in Hentry as [_ ?]).
    eapply settled_step; [apply setThread_here|unfold threadStep; cbn [goto at_ isLibrary setThread setThreads entryPending]; rewrite Ee, Een; reflexivity|cbn; reflexivity|reflexivity|].
    here.
  - eapply settled_step; [apply setThread_here|unfold threadStep; cbn [goto at_ isLibrary]; rewrite Ee; reflexivity|cbn; reflexivity|reflexivity|]. rewrite setThread_again.
    exact Hpause.
Qed.

(** C18. A thread that enters a line, when the client's breakpoints are in force, comes by its
    own steps to what the session's rule says of the line, past the tests that spare the
    lock and the lines it keeps of each source: the entry stop first, then a pause, then a
    step that ends here (into any line; over, at no more frames than it began with; out, at
    fewer), then the breakpoint on the line, by its condition, its count of hits and its
    log message. Nothing else of the session changes, and no lock is waited for. *)
Theorem line_decided s id t f fs o : reachable s -> published s = true -> threads s !! id = Some t -> at_ t = Running ->
  exists s1, exec (EnterLine id (f :: fs)) s = Some s1 /\ settled id o s1 s f (verdict s t f fs o).
Proof.
  intros Hr Hp Ht Ha. pose proof (reachable_linesOk s Hr) as Hs. assert (Hc : cacheOk s t) by exact (cachesOk s Hs _ _ Ht).
  eexists. cbn [exec]. unfold running, isRunning. rewrite Ht, Ha. split; [reflexivity|].
  eapply settled_step; [apply setThread_here|reflexivity|cbn; reflexivity|reflexivity|]. rewrite setThread_again.
  change (isMain (goto _ t) && entryPending (setThread _ _ s)) with (isMain t && entryPending s).
  pose proof (exchange_settled id o s t f fs _ Hs Hc Hp eq_refl) as Hex.
  destruct (negb (anyBreakpoints s) && isNone (stepKind t)) eqn:Ea.
  - eapply settled_step; [apply setThread_here|unfold threadStep; cbn [goto at_ stepKind setThread setThreads anyBreakpoints]; rewrite Ea; reflexivity|cbn; reflexivity|reflexivity|]. rewrite setThread_again.
    destruct (negb (pauseRequested t) && negb (isMain t && entryPending s)) eqn:Ef.
    + eapply settled_step; [apply setThread_here|unfold threadStep; cbn [goto at_ pauseRequested]; rewrite Ef; reflexivity|cbn; reflexivity|reflexivity|]. rewrite setThread_again.
      apply andb_prop in Ea as [Ea Ek]. apply andb_prop in Ef as [Ef Ee]. apply negb_true_iff in Ea, Ef, Ee.
      assert (Hany : anyBreakpoints s = negb (bool_decide (breakpoints s = ∅))).
      { apply (anyOk s Hs). unfold published in Hp. by destruct (reader s). }
      rewrite Ea in Hany. symmetry in Hany. apply negb_false_iff, bool_decide_eq_true in Hany.
      unfold verdict. rewrite Ee, Ef, <- stepEnds_stops. cbn [andb]. unfold stepEnds. rewrite Ek. cbn [orb].
      replace (breakpointOn s f) with (@None LineBreakpoint) by (unfold breakpointOn; by rewrite Hany, lookup_empty). here.
    + eapply settled_step; [apply setThread_here|unfold threadStep; cbn [goto at_ pauseRequested]; rewrite Ef; reflexivity|cbn; reflexivity|reflexivity|]. rewrite setThread_again.
      exact Hex.
  - eapply settled_step; [apply setThread_here|unfold threadStep; cbn [goto at_ stepKind setThread setThreads anyBreakpoints]; rewrite Ea; reflexivity|cbn; reflexivity|reflexivity|]. rewrite setThread_again.
    exact Hex.
Qed.
