(* ===== verification/DemoDebugger.v ===== *)
(** A debugging session, run: a breakpoint set, a stop on entry, an inspection, a step and a
    stop at the breakpoint; and the debugger's texts on small examples. *)

From S2P Require Import Prelude Utf8 Lexer Regex DapStdio DapText DapTextFacts DapServer DapServerFacts DapLineFacts.

#[local] Set Warnings "-register-all".

Module Examples.

(** ** Texts *)

Definition lf : bytes := [x0a].

Example form_lines : formLines (s2b "(defn f [x]" ++ lf ++ s2b "  (inc x)) ; (" ++ lf ++ lf ++ s2b "[1 #(f %)]") = Some [1; 2; 4].
Proof. vm_compute. reflexivity. Qed.

Example bound_lines : map (lowerBound [1; 2; 4]) [0; 2; 3; 5] = [Some 1; Some 2; Some 4; None].
Proof. reflexivity. Qed.

Example problems : map syntaxProblem [s2b "(= x [1 {:a 2}])"; s2b " "; s2b "(f [x)"; s2b "(f x"] =
  [Some []; Some (s2b "empty expression"); Some (s2b "read error: unexpected )"); Some (s2b "read error: missing )")].
Proof. vm_compute. reflexivity. Qed.

Example hit_conditions : map hitParse [s2b " >= 3 "; s2b "7"; s2b "% 2"; s2b ""] =
  [inl (mkHit HGe 3); inl (mkHit HEq 7); inl (mkHit HMod 2); inl noHit] /\
  map (passes (mkHit HMod 2)) [1; 2; 3; 4] = [false; true; false; true].
Proof. vm_compute. split; reflexivity. Qed.

Example refused_hits : match hitParse (s2b "%0"), hitParse (s2b "soon") with inr _, inr _ => True | _, _ => False end.
Proof. exact I. Qed.

(** Expressions answered by what they are called. *)
Definition named (e : bytes) : bytes + bytes := if bool_decide (e = s2b "y") then inr (s2b "no y") else inl (s2b "<" ++ e ++ s2b ">").

Example messages : map (interpolate named) [s2b "x={x} {{y}} {y}"; s2b "{f {:a 1}}"; s2b "{open"] =
  [s2b "x=<x> {y} <error: no y>"; s2b "<f {:a 1}>"; s2b "{open"].
Proof. vm_compute. reflexivity. Qed.

(** An expression that begins with a brace is no expression; a space makes it one. *)
Example braces_literal : map (interpolate named) [s2b "{{:a 1}}"; s2b "{ {:a 1}}"] = [s2b "{:a 1}"; s2b "< {:a 1}>"].
Proof. vm_compute. reflexivity. Qed.

Lemma interpolate_parts_witness :
  interpolate named (flat_map written [PText (s2b "a}"); PExpr (s2b "f {:a 1}")] ++ s2b "{x") = s2b "a}<f {:a 1}>{x".
Proof.
  destruct (interpolate_parts named [PText (s2b "a}"); PExpr (s2b "f {:a 1}")] (s2b "x")) as [_ H].
  - constructor; [exact I|]. constructor; [|constructor]. split; [|reflexivity].
    apply nests_char; [reflexivity..|]. apply nests_char; [reflexivity..|]. apply (nests_braces (s2b ":a 1") []); [|constructor].
    repeat (apply nests_char; [reflexivity..|]). constructor.
  - etransitivity; [exact (H eq_refl eq_refl)|vm_compute; reflexivity].
Defined.

Definition mapping : PathMapping := mkMapping (s2b "C:\proj\") (s2b "/srv/proj").

Example windows_path : translatePath [mapping] (s2b "c:/PROJ/src\a.clj") true = Some (s2b "/srv/proj/src/a.clj") /\
  translatePath [mapping] (s2b "/srv/proj/src/a.clj") false = Some (s2b "C:\proj\src\a.clj") /\
  translatePath [mapping] (s2b "c:/project/a.clj") true = None.
Proof. vm_compute. repeat split; reflexivity. Qed.

Lemma paths_translated_witness :
  translatePath [mapping] (joinUnder (s2b "C:\proj\") (s2b "src/a.clj")) true = Some (joinUnder (s2b "/srv/proj") (s2b "src/a.clj")).
Proof.
  destruct (paths_translated [mapping] [] true) as [_ H].
  destruct (H mapping (s2b "src/a.clj")) as [H1 _]; [discriminate|discriminate|reflexivity|]. exact H1.
Defined.

Definition local (name : string) (slot a b : Z) : LocalVar := mkLocal (s2b name) slot a b.

Example inner_binding : visibleLocals (mkFrame (mkDebugInfo [] [] 1 false false
    [local "x" 0 0 9; local "y" 1 2 5; local "x" 2 3 6; local "z" 3 7 9]) 4 2 2) = [local "y" 1 2 5; local "x" 2 3 6].
Proof. vm_compute. reflexivity. Qed.

Example names : map (mentions (s2b "(f xs x)")) [s2b "x"; s2b "xs"; s2b "s"] = [true; true; false].
Proof. vm_compute. reflexivity. Qed.

(** ** A session *)

Definition script : bytes := s2b "a.clj".

Definition text : bytes := s2b "(defn f [x]" ++ lf ++ s2b "  (inc x))" ++ lf ++ s2b "(f 1)" ++ lf.

Definition frame (name : string) (line : Z) : DebugFrame := mkFrame (mkDebugInfo script (s2b name) line false false []) 0 line line.

Definition main1 : list DebugFrame := [frame "top" 1].
Definition main3 : list DebugFrame := [frame "top" 3].
Definition inF : list DebugFrame := [frame "f" 2; frame "top" 3].

Definition nothing : outside := mkOutside Truthy Truthy named.

Definition reads (n : nat) : list label := replicate n ReaderGoes.
Definition goOn (n : nat) : list label := replicate n (Go 1 nothing).

(** The breakpoint is set and the main thread stops on its first line. *)
Definition toEntry : list label :=
  Receives 1 (QSetBreakpoints script (Some text) [mkClient 2 [] (s2b ">= 1") None]) :: reads 6 ++
  Receives 2 QConfigurationDone :: reads 3 ++ NewThread [] main1 :: goOn 6.

(** It is inspected and told to step over. *)
Definition toStep : list label := toEntry ++ Receives 3 (QInspect IStackTrace OfLastStopped) :: reads 1 ++ Receives 4 (QResume RStepOver 1) :: reads 2.

(** It goes on and is back in the program. *)
Definition toRun : list label := toStep ++ goOn 5.

Definition after (ls : list label) : server := match runs ls (launched script true true) with Some s => s | None => launched script true true end.

Definition ran (ls : list label) : bool := match runs ls (launched script true true) with Some _ => true | None => false end.

Lemma after_runs ls : ran ls = true -> runs ls (launched script true true) = Some (after ls).
Proof. unfold after, ran. by destruct (runs ls (launched script true true)). Qed.

Definition stageOf (s : server) (id : Z) : option stage := at_ <$> threads s !! id.

Example entry_stop : stageOf (after toEntry) 1 = Some (Waiting main1) /\
  sent (after toEntry) = [Response 1 (BBreakpoints [(true, 2, [])]); Response 2 BNone; Event (EThread true 1); Event (EStopped Entry 1 None [])].
Proof. vm_compute. split; reflexivity. Qed.

Example stepping : (t ← threads (after toRun) !! 1; Some (at_ t, stepKind t, stepDepth t)) = Some (Running, SOver, 1).
Proof. vm_compute. reflexivity. Qed.

(** A callee's line is not the step's end, but has the breakpoint; the caller's next is. *)
Example over_or_in : stageOf (after (toRun ++ EnterLine 1 inF :: goOn 13)) 1 = Some (Stopping inF Breakpoint None []) /\
  stageOf (after (toRun ++ EnterLine 1 main3 :: goOn 5)) 1 = Some (Stopping main3 Step None []).
Proof. vm_compute. split; reflexivity. Qed.

Lemma requests_answered_witness :
  flat_map answers (sent (after toStep)) ++ readerOwes (reader (after toStep)) ++ owed (threads (after toStep)) ≡ₚ [1; 2; 3; 4].
Proof. apply (requests_answered script true true toStep (after toStep)). apply after_runs. vm_compute. reflexivity. Defined.

Lemma reachable_after ls : ran ls = true -> reachable (after ls).
Proof. intros H. exists script, true, true, ls. by apply after_runs. Qed.

Definition mainThread (s : server) : ThreadState :=
  match threads s !! 1 with Some t => t | None => mkThread [] true false SNone 0 false false false RContinue [] false None 0 [] Running end.

Lemma main_here ls : (match threads (after ls) !! 1 with Some _ => true | None => false end) = true ->
  threads (after ls) !! 1 = Some (mainThread (after ls)).
Proof. unfold mainThread. by destruct (threads (after ls) !! 1). Qed.

(** The client goes while the thread waits. *)
Definition toGone : list label := toEntry ++ [InputEnds].

Example process_exits : runsProcess [Step_ ReaderGoes; Step_ ReaderGoes] (Live (after toGone)) = Some Exited /\
  stageOf (after toGone) 1 = Some (Waiting main1).
Proof. split; [reflexivity|vm_compute; reflexivity]. Qed.

Lemma stopped_goes_on_witness : resumed 1 nothing (mainThread (after toStep)) main1 [3] (after toStep) /\
  (reader (after toGone) = Ended \/ closes (after toGone)).
Proof.
  split.
  - destruct (stopped_goes_on (after toStep) 1 (mainThread (after toStep)) nothing) as [H _].
    + apply reachable_after. vm_compute. reflexivity.
    + apply main_here. vm_compute. reflexivity.
    + apply H; vm_compute; reflexivity.
  - destruct (stopped_goes_on (after toGone) 1 (mainThread (after toGone)) nothing) as (_ & H & _).
    + apply reachable_after. vm_compute. reflexivity.
    + apply main_here. vm_compute. reflexivity.
    + apply H. right. vm_compute. reflexivity.
Defined.

Lemma line_decided_witness : exists s1, exec (EnterLine 1 inF) (after toRun) = Some s1 /\
  settled 1 nothing s1 (after toRun) (frame "f" 2) (Stopping inF Breakpoint None [], [], true).
Proof.
  apply (line_decided (after toRun) 1 (mainThread (after toRun)) (frame "f" 2) main3 nothing).
  - apply reachable_after. vm_compute. reflexivity.
  - vm_compute. reflexivity.
  - apply main_here. vm_compute. reflexivity.
  - vm_compute. reflexivity.
Defined.

End Examples.
